(* ===== verification/_CoqProject ===== *)
-Q . S2P
Prelude.v
Chars.v
BTree.v
StateErr.v
EfxIr.v
EfxIdentity.v
EfxEngine.v
EfxApply.v
EfxEngineProps.v
EfxJournal.v
EfxLang.v
EfxLangProps.v
EfxLangPrint.v
DagSpec.v
DagGraph.v
DagExec.v
DagRun.v
DagRunProps.v
McWire.v
McWireProps.v
McSlp.v
FlecsAst.v
FlecsParse.v
FlecsSound.v
FlecsPrint.v
FlecsRoundTrip.v
EditApplier.v
JsonValue.v
DeltaDiff.v
DeltaProps.v
McNbt.v
NixDag.v
NixDagProps.v
NixDagMetrics.v
NixDagCompute.v
NixPlan.v
NixPlanProps.v
SearchStore.v
SearchSync.v
SearchSyncProps.v
Reconcile.v
ReconcileGc.v
ReconcilePasses.v
PanesProto.v
PanesQueue.v
PanesQueueProps.v
PanesJitter.v
PanesFrame.v
PanesFrameProps.v
PanesSurface.v
PanesSurfaceProps.v
PanesApp.v
PanesDisplay.v
AstLines.v
AstLinesProps.v
AstGit.v
AstGitProps.v
AstTree.v
AstMatch.v
AstDice.v
AstMatchProps.v
AstItems.v
AstItemsProps.v
AstMerge.v
AstMergeProps.v
NwmEvent.v
NwmState.v
NwmClient.v
NwmMirror.v
NwmSystem.v
NwmGraph.v
NwmFeed.v
NwmProps.v
PlumbParse.v
PlumbParseProps.v
PlumbPrint.v
PlumbReport.v
PlumbShell.v
PlumbShellProps.v
PlumbEngine.v
