(* ===== verification/Prelude.v ===== *)
(** * The deterministic cores of the index monorepo

    The repository is a monorepo of many Rust programs.  This development
    models those whose behaviour is decided by their own code rather than by a
    service, a device or a third-party engine, translated definition by
    definition from [packages/], and proves what they promise.  Every component
    is a small program of its own; they meet where the code makes them meet
    (the [.efx] compiler produces plans of the effect IR, the engine diffs and
    applies them; sync and the reconciler are clients of one [Store] trait; a
    build plan is read by [plan.rs] and measured by [graph.rs]; the two halves of
    panes run against each other; the shell of plumb runs what its parser
    accepts, and its engine what the shell made of it).

    ** How the code is rendered

    - A function returning [Result<A, E>] is a function into [outcome E A]:
      [Ok], [Err], or [Panic] for an index out of range, a failed [unwrap], an
      [unreachable!], an underflow.  "Never panics" is thus a statement.
    - Effectful code over a state that outlives its failures is in the monad
      [SM] of [StateErr]: an outcome, and the state left, also on failure.
    - A [char] is its Unicode scalar value, a [String] the list of its chars
      ([Chars.text]) with offsets in bytes of its UTF-8 encoding; where code
      only compares or stores strings, [string]s of bytes.  A machine integer
      is a [Z] or [N] with its wrap-around, cast and overflow written out.
    - A [BTreeMap] is a key-sorted association list ([BTree]), so that it
      iterates as the Rust map does; a [HashMap] is a [gmap], and where the
      code iterates over one, the order is an argument or an arbitrary
      permutation (class [Arrange]).
    - Loops whose recursion is not structural carry fuel, always supplied by
      the definition that starts the loop; running out is a [Panic], so the
      theorems that exclude panics also show that the fuel is enough; where the
      function cannot fail, lemmas show that more fuel changes nothing.
    - Concurrency ([DagRun], [PanesQueue], [PanesApp], [NwmClient],
      [PlumbEngine]) and crashes ([EfxJournal], [ReconcilePasses]) are step
      relations or arbitrary prefixes, with reachability; in [PlumbShell], other
      threads are an arbitrary function between critical sections.

    ** The files

    Shared: [Prelude] (outcomes, [guard!], loops, generic lemmas, automation),
    [Chars] (text, UTF-8, decimal numbers, ordering), [BTree], [StateErr],
    [JsonValue] (values of [serde_json], their insertion-ordered maps).

    efx, [packages/efx]: plans of effects, memoized by content.
    - [EfxIr]: [ir/src/lib.rs], plans, [Plan::topo_order], [Plan::effect_ids].
      The order is a rearrangement with producers first, and each error is
      returned exactly when its cause is present.
    - [EfxIdentity]: identities are equal exactly when the content, upstream
      included, is; names, order and metadata do not enter.
    - [EfxEngine]: [engine/src/diff.rs] and [apply.rs]; [EfxApply] and
      [EfxEngineProps] show that a run decides every effect by the memoization
      test, that levels in parallel equal one effect after the other, how
      failures stay isolated, and what the journal keeps, which is the state that
      [apply] threads, also when it ends with an error.
    - [EfxJournal]: [engine/src/journal.rs], saving as steps of a file system;
      a crash leaves the old journal or the new one.
    - [EfxLang]: [lang/src/lib.rs], lexer, parser, interpolation, compilation;
      [EfxLangProps] (it answers, its errors point into the source, its plans
      are valid) and [EfxLangPrint] (every plan can be written).

    dag-runner, [packages/dag-runner/src/main.rs]: runs a graph of processes.
    - [DagSpec]: the spec, [validate], [filter_only], [topological_order];
      [DagGraph] shows them correct against paths in the graph.
    - [DagExec]: one process, its output tail, its readiness, its teardown.
    - [DagRun]: the run as a step relation over the futures of the nodes;
      [DagRunProps]: start after readiness, the exit code; a run has boundedly many
      steps and does not deadlock, but a group of services only stays up until it
      is stopped.

    minecraft, [packages/minecraft].
    - [McWire], [McWireProps]: [protocol/src/varint.rs], [wire.rs] and
      [bot/src/framing.rs]; round trips and bounds on arbitrary bytes.
    - [McSlp]: [protocol/src/slp.rs], addresses and the status exchange.
    - [McNbt]: [nbt/src/lib.rs]; the documents decoded are exactly the
      well-typed ones.

    flecs-query, [packages/flecs-query/core/src].
    - [FlecsAst] ([ast.rs], [error.rs], [fmt.rs]), [FlecsParse] ([token.rs],
      [parser.rs]); [FlecsSound]: no panic, spans inside the source, accepted
      queries are well-formed; [FlecsPrint], [FlecsRoundTrip]: the canonical
      form parses back, except what [lossless] excludes (some names, the operator
      of a pair without extra targets, keywords on the left of an equality).

    Edits and diffs.
    - [EditApplier]: [packages/edit-applier/src/lib.rs]; right-to-left splicing
      refines rewriting the source from left to right.
    - [DeltaDiff], [DeltaProps]: [packages/index-delta/src/diff.rs] and the
      replay of [apply.rs]; a diff is a patch, and overlaps are the addresses
      two diffs contend for.

    nix-dag, [packages/nix-dag/src].
    - [NixDag]: [graph.rs]; [NixDagProps] (rows of words are sets of nodes,
      Kahn's algorithm, depths, the critical path), [NixDagMetrics] (closures,
      dependencies hidden in environment variables) and [NixDagCompute] (the
      variable that carries most, and [Metrics::compute] as a whole against
      transitive closure and longest chains).
    - [NixPlan], [NixPlanProps]: [plan.rs], [Plan::build].

    Search stores.
    - [SearchStore]: documents and metadata ([packages/source/meta/src]),
      filters ([packages/mixedbread/src/filter.rs]), the [Store] trait as a
      class, its keyed implementations by their laws ([KeyedStore]) and the
      in-memory store of [packages/search-core/src/backend.rs] as an instance
      that satisfies them; what a sequence of uploads and deletions, finished
      or interrupted, does to any keyed store.
    - [SearchSync], [SearchSyncProps]: [packages/search-core/src/sync.rs];
      waiting ends, and a sync adds what is missing and deletes nothing.
    - [Reconcile]: [packages/sink/mixedbread/src/lib.rs]; [ReconcileGc] (the
      plan of a collection), [ReconcilePasses] (the steps of the passes, replace,
      apply and its replay after a crash, leaks of the listing's scope).

    ast-merge, [packages/ast-merge]: three-way merges of source files.
    - [AstLines], [AstLinesProps]: [diff/src/lines.rs], the
      line merge between two diffs with a common base, which is correct against
      the hunks of both sides, and the merge of the lines of a body.
    - [AstGit], [AstGitProps]: [git/src], conflict markers; every conflict that
      was written is found again.
    - [AstTree]: [ast/src/hash.rs], [parse.rs], trees and their hashes;
      [AstMatch], [AstDice], [AstMatchProps]: [matcher/src], the GumTree phases,
      which pair nodes one to one: the roots, equal subtrees, and nodes of one kind
      in whose bytes enough pairs lie ([AstDice] says what is counted).
    - [AstItems], [AstItemsProps]: classes of matched nodes, triples of parent
      and siblings, and the conflicts between them ([mapping.rs],
      [changeset.rs], [engine.rs]); the merge of top-level items, members and
      bodies ([items*.rs], [children*.rs]).
    - [AstMerge], [AstMergeProps]: [langs/src], profiles and their detection;
      [engine.rs] and [cli/src/merge.rs], the whole merge: what it keeps, and
      that a side without changes changes nothing.

    nix-web-monitor, [packages/nix-web-monitor]: watches a nix command and shows
    its builds on web pages.
    - [NwmEvent]: [parser/src/lib.rs], the lines of nix's internal JSON log and
      the texts recognised in them.  [NwmState]: the monitor's state, every
      handler with the deltas it emits ([lib.rs], [global.rs], [activation.rs]),
      snapshots, the graph of derivations, the compact view ([build_view.rs]).
    - [NwmClient]: the page's model ([server/site/src/lib]), and the system of
      monitor, broadcast channel, sockets and pages ([server/src/main.rs]) as
      steps.  [NwmMirror]: every handler emits all that it changes; [NwmSystem]:
      a page that has read everything shows the state whenever it connected, but for
      raw fields that its schema drops, the older lines of the log and what the
      race of its seed sends twice, and as long as the numbers are exact in
      JavaScript (ids of activities need not be); and it always can catch up.
    - [NwmGraph]: the edges shown are the transitive reduction of the closures,
      the root causes the builds that depend on no other; [NwmFeed], [NwmProps]:
      what the pages show of the graph, the life cycle of a build's row, the
      numbering of the log.

    panes, [packages/panes]: Linux windows exported from a guest to a host.
    - [PanesProto]: [protocol/src/lib.rs], the messages and their framing.
    - [PanesQueue], [PanesQueueProps]: [host/src/send_queue.rs] and [conn.rs],
      the bounded queue of input as critical sections of two threads; what the
      writer sends explains what was queued, and it neither deadlocks nor runs
      its hook twice.
    - [PanesJitter]: [host/src/jitter.rs] and [audio.rs]; the samples played
      are those received, in order, but for the stretches counted as dropped.
    - [PanesFrame], [PanesFrameProps]: [compositor/src/frame.rs], damage between
      what a client committed and the mirror of what the host holds; a frame
      carries the one to the other.
    - [PanesSurface], [PanesSurfaceProps]: [host/src/window.rs], two textures
      and a log of damage; what is presented is what the frames painted, and
      no upload races with the GPU; a frame brings the host's window to the
      guest's pixels.
    - [PanesApp]: [compositor/src/compositor/mod.rs] and [handlers.rs], the
      pacing of one window; [host/src/app.rs], and the system of guest,
      connections and host as actions, in which the host may fail to allocate
      textures.  [PanesDisplay]: the system refines "the host shows the last
      commit" as long as the textures are allocated, and no client waits forever.

    plumb, [packages/plumb]: a shell that keeps what flowed through its pipelines.
    - [PlumbParse]: [syntax/src/ast.rs], [parse.rs], the tree and the parser;
      [PlumbParseProps] (it answers, accepted programs are well-formed, spans and
      errors point into the source) and [PlumbPrint] (every such program can be
      written, and is read back).
    - [PlumbReport]: [core/src/report.rs]; a capture keeps both ends of a stream,
      whatever chunks it came in.
    - [PlumbShell]: [core/src/shell.rs], [error.rs]: state, expansion, builtins,
      run references, runs; [PlumbShellProps]: a run is recorded however it
      ends, whatever other threads do meanwhile.
    - [PlumbEngine]: [core/src/engine.rs], the threads and processes of one
      pipeline over bounded pipes; the streams are kept, and the main thread
      starts every stage exactly when what it echoes before fits, and else stays
      in the echo forever.  What it
      returns is what [PlumbShell.execute] gives the shell ([Child]).

    ** Parameters and their laws

    What is not the repository's code is an argument.  [Digest] (SHA-256 over
    the JSON of an identity document; [DigestLaws] is the absence of
    collisions), [JournalCodec] (the journal's JSON), [UnicodeTables] (the
    classes of chars beyond ASCII), [Zlib] (inflating what was deflated gives
    it back), executors and clocks of the engine, what the operating system
    answers to the dag-runner, the bytes a server sends, the files and JSON
    texts of a sync, the readings of [Instant::elapsed], a store other than the
    in-memory one, the orders of hash maps; of panes, [Postcard] (what was
    encoded decodes), [Lz4Codec] (what was compressed decompresses) and [Metal]
    (replacing a region of a texture replaces it and nothing else), and whether
    the build checks overflow; of ast-merge, the trees of tree-sitter, the diff of
    the similar crate ([Similar]), the hashes of [Hasher], the order of hash maps
    ([MapOrder]) and lower case beyond ASCII; of nix-web-monitor, the JSON of a
    line ([NixJson]), the escape sequences stripped ([AnsiStrip]), the clock and
    the closures that nix-store answers; of plumb, processes, clock, threads, file
    system and the glob crate ([Sys]), what other threads do to the shell's state,
    and the capacity of a pipe.  Every theorem that assumes a
    law has an instance at which it is applied.

    ** Fuel

    - [EfxIr.topo_loop], the rounds of [topo_order]: one more than the number of
      effects, as every round but the last finishes one.
    - Lexers and parsers ([EfxLang], [FlecsParse]): one more than the chars or
      tokens left, as every round consumes one; a nested loop gets the same.
    - [DagSpec.visit_cycle] and [visit_topo]: one more than the number of nodes,
      as the nodes on the stack are distinct.  [DagExec.trim]: the lines kept.
    - [Chars.print_digits]: one more than the bits of the number.
      [McWire.write_varint_loop]: five groups of seven bits.
    - [NixDag.topological_loop] and [critical_loop]: the number of nodes, each
      being visited at most once; [carrier_runs], [tally_runs]: the length of
      the list whose runs are consumed.
    - [SearchSync.wait_loop]: [timeout / POLL_INTERVAL + 1] rounds, as every
      round takes at least the interval; [wait_ends] shows it is enough, and
      [replace_returns] that a replace then does not panic.
    - [AstLines.based_loop] and [grow]: the hunks of both sides; [consume_loop]:
      the hunks of one; [AstGit.conflicts_loop]: the lines; [AstItems.reconcile_single]:
      the height of the base node.
    - [PanesFrame.full_bands_loop]: the height, each band having a row;
      [PanesProto.reader_turns] and [PanesJitter.pcm_loop]: one more than the
      bytes left, as a message has at least its length prefix.
    - [NwmEvent.orphan_loop]: the chars left, as every round consumes one.
    - [PlumbParse], its loops: one more than the chars left, as every round but
      the last consumes one; [program_at], the depth of substitutions: one more
      than the chars of the source, as every level consumes two.

    ** Not modelled

    Input and output around the cores (argument parsing, terminals, sockets,
    processes, DNS), encodings by third-party crates (serde, quartz_nbt's
    binary form), messages of errors where only the error matters, and within
    the components: [CompileError::render] of efx, the fields of a server's
    status, [unified_diff], the text fallback and the TOML writer of
    index-delta, the report tables of nix-dag, semantic search itself; of panes,
    AppKit and Wayland objects, input, focus and configuration, the GPU path; of
    ast-merge, the preorder cursor and the node wrapper nothing uses, files and
    settings; of nix-web-monitor, the jobs that run nix, the machine-wide probe,
    process statistics and rebuild reasons, the page's sorting and reconnection;
    of plumb, the line editor, JSON of reports, what is copied to the terminal
    and to files.

    Of the other packages, most drive services, devices, compilers or
    syntax trees of third-party parsers, and their own logic is glue.  Those
    with a core that could be separated next: the reports of nix-dag and the
    key-value edits of index-delta, the login session of the minecraft bot, the merge decisions of sqlmerge and tree-sync, and
    the clock of the shared audio engine. *)

From stdpp Require Import base gmap sets list strings relations.

Declare Scope outcome_scope.
Delimit Scope outcome_scope with outcome.

(** * Outcomes of Rust code

    A Rust function that returns [Result<A, E>] either returns [Ok], returns
    [Err], or panics (an index out of bounds, an [unwrap] on [None], an
    [unreachable!]).  The three are kept apart so that "never panics" is a
    statement of the model. *)
Inductive outcome (E A : Type) : Type :=
| Ok (a : A)
| Err (e : E)
| Panic.
Arguments Ok {_ _} _.
Arguments Err {_ _} _.
Arguments Panic {_ _}.

#[export] Instance outcome_ret E : MRet (outcome E) := fun _ a => Ok a.

#[export] Instance outcome_bind E : MBind (outcome E) := fun _ _ k m =>
  match m with
  | Ok a => k a
  | Err e => Err e
  | Panic => Panic
  end.

#[export] Instance outcome_fmap E : FMap (outcome E) := fun _ _ f m =>
  match m with
  | Ok a => Ok (f a)
  | Err e => Err e
  | Panic => Panic
  end.

(** [r.map_err(f)], and snafu's [r.context(..)]. *)
Definition map_err {E F A} (f : E → F) (m : outcome E A) : outcome F A :=
  match m with
  | Ok a => Ok a
  | Err e => Err (f e)
  | Panic => Panic
  end.

(** [o.ok_or(e)]. *)
Definition ok_or {E A} (o : option A) (e : E) : outcome E A :=
  match o with Some a => Ok a | None => Err e end.

(** [o.unwrap()], [map[key]], [unwrap_or_else(|| unreachable!())]. *)
Definition unwrap {E A} (o : option A) : outcome E A :=
  match o with Some a => Ok a | None => Panic end.

(** A [for] loop whose body may return early with an error. *)
Fixpoint foldM {E A S} (f : S → A → outcome E S) (s : S) (l : list A) : outcome E S :=
  match l with
  | [] => Ok s
  | a :: l' => match f s a with
               | Ok s' => foldM f s' l'
               | Err e => Err e
               | Panic => Panic
               end
  end.

Notation "'guard!' c 'else' e ; k" := (if c then k else Err e)
  (at level 20, c at level 100, e at level 100, k at level 200,
   only parsing) : outcome_scope.

Lemma Ok_inj {E A} (a b : A) : @Ok E A a = Ok b → a = b.
Proof. by intros [= ->]. Qed.

Lemma bind_Ok {E A B} (m : outcome E A) (k : A → outcome E B) b :
  m ≫= k = Ok b ↔ ∃ a, m = Ok a ∧ k a = Ok b.
Proof. destruct m; simpl; naive_solver. Qed.

Lemma bind_Panic {E A B} (m : outcome E A) (k : A → outcome E B) :
  m ≫= k = Panic ↔ m = Panic ∨ ∃ a, m = Ok a ∧ k a = Panic.
Proof. destruct m; simpl; naive_solver. Qed.

Lemma bind_Err {E A B} (m : outcome E A) (k : A → outcome E B) e :
  m ≫= k = Err e ↔ m = Err e ∨ ∃ a, m = Ok a ∧ k a = Err e.
Proof. destruct m; simpl; naive_solver. Qed.

Lemma map_err_Ok {E F A} (f : E → F) (m : outcome E A) a :
  map_err f m = Ok a ↔ m = Ok a.
Proof. destruct m; simpl; naive_solver. Qed.

Lemma map_err_Panic {E F A} (f : E → F) (m : outcome E A) :
  map_err f m = Panic ↔ m = Panic.
Proof. destruct m; simpl; naive_solver. Qed.

Lemma unwrap_Ok {E A} (o : option A) a : @unwrap E A o = Ok a ↔ o = Some a.
Proof. destruct o; simpl; naive_solver. Qed.

Lemma foldM_app {E A S} (f : S → A → outcome E S) s l1 l2 :
  foldM f s (l1 ++ l2) = foldM f s l1 ≫= λ s', foldM f s' l2.
Proof. revert s; induction l1 as [|a l1 IH]; intros s; simpl; [done|]. by destruct (f s a). Qed.

Lemma foldM_ext {E A S} (f g : S → A → outcome E S) s l :
  (∀ s a, f s a = g s a) → foldM f s l = foldM g s l.
Proof. intros H. revert s. induction l as [|a l IH]; intros s; simpl; [done|]. rewrite H. by destruct (g s a). Qed.

(** Loop invariants: an invariant that every iteration keeps, indexed by the
    elements consumed so far, holds when the loop ends. *)
Lemma foldM_inv {E A S} (I : list A → S → Prop) (f : S → A → outcome E S) l s s' :
  I [] s →
  (∀ pre a post t t', l = pre ++ a :: post → I pre t → f t a = Ok t' → I (pre ++ [a]) t') →
  foldM f s l = Ok s' → I l s'.
Proof.
  intros H0 Hstep.
  assert (∀ pre post t, l = pre ++ post → I pre t → foldM f t post = Ok s' → I l s') as Hgen.
  { intros pre post; revert pre; induction post as [|a post IH]; intros pre t Hl Ht; simpl.
    - intros [= ->]. by rewrite app_nil_r in Hl; subst.
    - destruct (f t a) as [t'|e|] eqn:Hf; try discriminate.
      apply (IH (pre ++ [a])); [by rewrite <- app_assoc|eauto]. }
  by apply (Hgen [] l).
Qed.

(** A loop whose body succeeds whenever the invariant holds, succeeds. *)
Lemma foldM_total {E A S} (I : list A → S → Prop) (f : S → A → outcome E S) l s :
  I [] s →
  (∀ pre a post t, l = pre ++ a :: post → I pre t → ∃ t', f t a = Ok t' ∧ I (pre ++ [a]) t') →
  ∃ s', foldM f s l = Ok s' ∧ I l s'.
Proof.
  intros H0 Hstep.
  assert (∀ pre post t, l = pre ++ post → I pre t → ∃ s', foldM f t post = Ok s' ∧ I l s') as Hgen.
  { intros pre post; revert pre; induction post as [|a post IH]; intros pre t Hl Ht; simpl.
    - rewrite app_nil_r in Hl; subst; eauto.
    - destruct (Hstep pre a post t Hl Ht) as (t' & -> & Ht').
      apply (IH (pre ++ [a])); [by rewrite <- app_assoc|done]. }
  by apply (Hgen [] l).
Qed.

(** A loop that computes one result per element, none of which fails. *)
Lemma foldM_collect {E A B} (g : A → outcome E B) (h : A → B) l acc :
  (∀ a, a ∈ l → g a = Ok (h a)) →
  foldM (λ acc a, b ← g a; Ok (acc ++ [b])) acc l = Ok (acc ++ (h <$> l)).
Proof.
  revert acc. induction l as [|a l IH]; intros acc H; csimpl; [by rewrite app_nil_r|].
  rewrite H by set_solver. simpl. rewrite IH by set_solver. by rewrite <- app_assoc.
Qed.

(** A loop that collects its results succeeds exactly when every step does. *)
Lemma foldM_collect_Ok {E A B} (g : A → outcome E B) l acc out :
  foldM (λ acc a, b ← g a; Ok (acc ++ [b])) acc l = Ok out ↔
  ∃ bs, out = acc ++ bs ∧ Forall2 (λ a b, g a = Ok b) l bs.
Proof.
  revert acc. induction l as [|a l IH]; intros acc; simpl.
  - split; [intros [= <-]; exists []; by rewrite app_nil_r|].
    intros (bs & -> & H). inversion H; subst. by rewrite app_nil_r.
  - destruct (g a) as [b| |] eqn:Hg; simpl.
    + rewrite IH. split.
      * intros (bs & -> & H). exists (b :: bs). rewrite <- app_assoc. split; [done|by constructor].
      * intros (bs & -> & H). inversion H as [|? b' ? bs' Hb]; subst. exists bs'.
        rewrite Hb in Hg. simplify_eq. by rewrite <- app_assoc.
    + split; [done|]. intros (bs & _ & H). inversion H; subst. congruence.
    + split; [done|]. intros (bs & _ & H). inversion H; subst. congruence.
Qed.

Lemma foldM_collect_total {E A B} (P : A → B → Prop) (g : A → outcome E B) l acc :
  (∀ a, a ∈ l → ∃ b, g a = Ok b ∧ P a b) →
  ∃ bs, foldM (λ acc a, b ← g a; Ok (acc ++ [b])) acc l = Ok (acc ++ bs) ∧ Forall2 P l bs.
Proof.
  revert acc. induction l as [|a l IH]; intros acc H; simpl; [exists []; by rewrite app_nil_r|].
  destruct (H a ltac:(by left)) as (b & -> & Hb). simpl.
  destruct (IH (acc ++ [b])) as (bs & -> & Hbs); [intros; apply H; by right|].
  exists (b :: bs). rewrite <- app_assoc. split; [done|by constructor].
Qed.

(** A loop that only validates its elements. *)
Lemma foldM_check_Ok {E A} (f : A → outcome E ()) l u :
  foldM (λ _ a, f a) () l = Ok u ↔ ∀ a, a ∈ l → f a = Ok ().
Proof.
  destruct u. induction l as [|a l IH]; simpl; [set_solver|].
  destruct (f a) as [[]|e|] eqn:Hf; [rewrite IH|split; [done|]..].
  - split; [intros H b [->|?]%elem_of_cons; auto|intros H b ?; apply H; set_solver].
  - intros H. specialize (H a). rewrite Hf in H. by apply H; left.
  - intros H. specialize (H a). rewrite Hf in H. by apply H; left.
Qed.

Lemma foldM_check_Err {E A} (f : A → outcome E ()) l e :
  foldM (λ _ a, f a) () l = Err e → ∃ a, a ∈ l ∧ f a = Err e.
Proof.
  induction l as [|a l IH]; simpl; [done|]. destruct (f a) as [[]|e'|] eqn:Hf; [|intros [= ->]|done].
  - intros (b & ? & ?)%IH. exists b. set_solver.
  - exists a. set_solver.
Qed.

Lemma foldM_check_Panic {E A} (f : A → outcome E ()) l :
  foldM (λ _ a, f a) () l = Panic → ∃ a, a ∈ l ∧ f a = Panic.
Proof.
  induction l as [|a l IH]; simpl; [done|]. destruct (f a) as [[]|e'|] eqn:Hf; [|done|].
  - intros (b & ? & ?)%IH. exists b. set_solver.
  - exists a. set_solver.
Qed.

(** Same for a loop that cannot fail. *)
Lemma foldl_inv {A S} (I : list A → S → Prop) (f : S → A → S) l s :
  I [] s →
  (∀ pre a post t, l = pre ++ a :: post → I pre t → I (pre ++ [a]) (f t a)) →
  I l (foldl f s l).
Proof.
  intros H0 Hstep.
  assert (∀ pre post t, l = pre ++ post → I pre t → I l (foldl f t post)) as Hgen.
  { intros pre post; revert pre; induction post as [|a post IH]; intros pre t Hl Ht; simpl.
    - by rewrite app_nil_r in Hl; subst.
    - apply (IH (pre ++ [a])); [by rewrite <- app_assoc|eauto]. }
  by apply (Hgen [] l).
Qed.

(** * Tactics *)

(** Split a successful or failing monadic computation in the hypotheses into
    the steps it is made of. *)
Ltac simplify_outcome :=
  repeat match goal with
  | H : Ok _ = Ok _ |- _ => apply Ok_inj in H; subst
  | H : Err _ = Err _ |- _ => injection H as H; subst
  | H : Ok _ = Err _ |- _ => discriminate H
  | H : Err _ = Ok _ |- _ => discriminate H
  | H : Ok _ = Panic |- _ => discriminate H
  | H : Panic = Ok _ |- _ => discriminate H
  | H : Err _ = Panic |- _ => discriminate H
  | H : Panic = Err _ |- _ => discriminate H
  | H : _ ≫= _ = Ok _ |- _ =>
      let a := fresh "a" in let Ha := fresh "Hstep" in
      apply bind_Ok in H as (a & Ha & H)
  | H : map_err _ _ = Ok _ |- _ => apply map_err_Ok in H
  | H : unwrap _ = Ok _ |- _ => apply unwrap_Ok in H
  end.

(** * Finite relations *)

(** In a finite set where every element has a successor in the set, every
    element reaches a cycle. *)
Lemma finite_succ_cycle {A} `{Countable A} (R : relation A) (X : gset A) :
  (∀ x, x ∈ X → ∃ y, y ∈ X ∧ R x y) →
  ∀ x, x ∈ X → ∃ y, rtc R x y ∧ tc R y y.
Proof.
  intros Hsucc.
  assert (∀ (U : gset A) x, x ∈ X → (∀ z, z ∈ X → z ∉ U → rtc R z x) →
    ∃ y, rtc R x y ∧ tc R y y) as Hgen; last first.
  { intros x Hx. apply (Hgen X x Hx). set_solver. }
  intros U. induction (set_wf U) as [U _ IH]. intros x Hx Hvis.
  destruct (Hsucc x Hx) as (y & Hy & Rxy).
  destruct (decide (y ∈ U)) as [HyU|HyU].
  - destruct (IH (U ∖ {[y]})) with (x := y) as (w & Hyw & Hw); [set_solver|done| |].
    + intros z Hz HzU. destruct (decide (z = y)) as [->|]; [done|].
      eapply rtc_r; [apply Hvis; set_solver|done].
    + exists w; split; [|done]. by eapply rtc_l.
  - exists y; split; [by apply rtc_once|]. eapply tc_rtc_l; [by apply Hvis|]. by apply tc_once.
Qed.

(** Within a duplicate-free list, a duplicate-free sublist of the same length
    is a rearrangement. *)
Lemma NoDup_subset_Permutation {A} (l k : list A) :
  NoDup l → l ⊆ k → length k ≤ length l → l ≡ₚ k.
Proof.
  intros Hl Hsub Hlen. apply submseteq_length_Permutation; [|done]. by apply NoDup_submseteq.
Qed.

Lemma Forall_choice {A B} (P : A → B → Prop) l : Forall (λ x, ∃ y, P x y) l → ∃ k, Forall2 P l k.
Proof.
  induction 1 as [|x l [y Hy] _ [k Hk]]; [exists []; constructor|]. exists (y :: k). by constructor.
Qed.

Lemma omap_ext_in {A B} (f g : A → option B) (l : list A) :
  (∀ x, x ∈ l → f x = g x) → omap f l = omap g l.
Proof.
  induction l as [|x l IH]; intros H; csimpl; [done|]. rewrite H by left.
  by rewrite IH by (intros; apply H; by right).
Qed.

Lemma list_filter_iff_in {A} (P1 P2 : A → Prop)
    `{!∀ x, Decision (P1 x), !∀ x, Decision (P2 x)} (l : list A) :
  (∀ x, x ∈ l → P1 x ↔ P2 x) → filter P1 l = filter P2 l.
Proof.
  induction l as [|a l IH]; intros Hl; [done|]. rewrite !filter_cons.
  rewrite IH by (intros; apply Hl; by right). pose proof (Hl a ltac:(by left)).
  repeat case_decide; naive_solver.
Qed.

Lemma list_filter_fmap {A B} (f : A → B) (P : B → Prop) `{!∀ x, Decision (P x)} (l : list A) :
  filter P (f <$> l) = f <$> filter (λ x, P (f x)) l.
Proof.
  induction l as [|x l IH]; [done|]. csimpl. destruct (decide (P (f x))).
  - by rewrite !filter_cons_True, IH.
  - by rewrite !filter_cons_False, IH.
Qed.

Lemma elem_of_concat {A} (ls : list (list A)) x : x ∈ concat ls ↔ ∃ l, l ∈ ls ∧ x ∈ l.
Proof.
  rewrite list_elem_of_In, in_concat. by setoid_rewrite <- list_elem_of_In.
Qed.

Lemma concat_replicate_nil {A} n : concat (replicate n (@nil A)) = [].
Proof. by induction n. Qed.

Lemma concat_singletons {A} (l : list A) : concat ((λ x, [x]) <$> l) = l.
Proof. induction l as [|x l IH]; csimpl; [done|by rewrite IH]. Qed.

(** Pushing onto one of several lists. *)
Lemma concat_alter_Permutation {A} (ls : list (list A)) k x :
  k < length ls → concat (alter (λ g, g ++ [x]) k ls) ≡ₚ concat ls ++ [x].
Proof.
  revert k. induction ls as [|l ls IH]; intros [|k] Hk; simpl in Hk; [lia..| |].
  - change (alter (λ g, g ++ [x]) 0 (l :: ls)) with ((l ++ [x]) :: ls). simpl.
    rewrite <- !app_assoc. apply Permutation_app_head, Permutation_app_comm.
  - change (alter (λ g, g ++ [x]) (S k) (l :: ls)) with (l :: alter (λ g, g ++ [x]) k ls).
    cbn [concat]. rewrite IH by lia. by rewrite app_assoc.
Qed.

Lemma NoDup_fmap_inj_on {A B} (f : A → B) l x y :
  NoDup (f <$> l) → x ∈ l → y ∈ l → f x = f y → x = y.
Proof.
  induction l as [|z l IH]; csimpl; [set_solver|]. rewrite NoDup_cons. intros [Hz Hnd].
  rewrite !elem_of_cons. intros [->|Hx] [->|Hy] Hf; [done| | |by apply IH].
  - destruct Hz. rewrite Hf. by apply list_elem_of_fmap_2.
  - destruct Hz. rewrite <- Hf. by apply list_elem_of_fmap_2.
Qed.

(** An order that is a rank function rules out cycles. *)
Lemma rank_no_cycle {A} (R : relation A) (rank : A → nat) :
  (∀ x y, R x y → rank y < rank x) → ∀ x, ¬ tc R x x.
Proof.
  intros HR x Hx.
  assert (∀ a b, tc R a b → rank b < rank a) as Hlt.
  { induction 1 as [a b Hab|a b c Hab _ IH]; [eauto|]. apply HR in Hab. lia. }
  apply Hlt in Hx. lia.
Qed.

(** * Strings *)

Lemma append_cons c s1 s2 : String c s1 +:+ s2 = String c (s1 +:+ s2).
Proof. done. Qed.

Lemma append_nil_r s : s +:+ EmptyString = s.
Proof. induction s as [|c s IH]; [done|]. by rewrite append_cons, IH. Qed.

Lemma append_assoc s1 s2 s3 : s1 +:+ (s2 +:+ s3) = (s1 +:+ s2) +:+ s3.
Proof. induction s1 as [|c s IH]; [done|]. by rewrite !append_cons, IH. Qed.

Lemma append_length s1 s2 : String.length (s1 +:+ s2) = String.length s1 + String.length s2.
Proof. induction s1 as [|c s IH]; [done|]. rewrite append_cons. simpl. by rewrite IH. Qed.

Lemma append_ne_self s c s' : s +:+ String c s' ≠ s.
Proof. intros H. apply (f_equal String.length) in H. rewrite append_length in H. simpl in H. lia. Qed.

(** * Lists built by [push] *)

Lemma Forall_snoc {A} (P : A → Prop) l x : Forall P l → P x → Forall P (l ++ [x]).
Proof. intros. apply Forall_app. auto. Qed.

(** * How a computation ends *)

(** [m] does not panic; it returns something in [Q], or an error in [R]. *)
Definition ends {E A} (m : outcome E A) (Q : A → Prop) (R : E → Prop) : Prop :=
  match m with
  | Ok a => Q a
  | Err e => R e
  | Panic => False
  end.

Lemma ends_bind {E A B} (m : outcome E A) (k : A → outcome E B) Q1 Q2 R :
  ends m Q1 R → (∀ a, Q1 a → ends (k a) Q2 R) → ends (m ≫= k) Q2 R.
Proof. destruct m; simpl; naive_solver. Qed.

Lemma ends_foldM {E A S} (f : S → A → outcome E S) (I : S → Prop) (R : E → Prop) l s :
  I s → (∀ s a, I s → a ∈ l → ends (f s a) I R) → ends (foldM f s l) I R.
Proof.
  revert s. induction l as [|a l IH]; intros s Hs Hf; simpl; [done|].
  pose proof (Hf s a Hs ltac:(set_solver)) as Ha.
  destruct (f s a); simpl in *; [apply IH; [done|set_solver]|done..].
Qed.

Lemma ends_weaken {E A} (m : outcome E A) (Q Q' : A → Prop) (R R' : E → Prop) :
  ends m Q R → (∀ a, Q a → Q' a) → (∀ e, R e → R' e) → ends m Q' R'.
Proof. destruct m; simpl; naive_solver. Qed.
