(* ===== verification/Chars.v ===== *)
(** Text as Rust sees it: a [char] is its Unicode scalar value, a [str] the list
    of its chars, with its UTF-8 encoding and decimal numbers. *)

From stdpp Require Import base gmap sets list strings.
From Stdlib Require Import Ascii.
From S2P Require Import Prelude.

(** * Characters *)

Abbreviation char := N.
Abbreviation text := (list N).

Definition ch (a : ascii) : char := N_of_ascii a.
Arguments ch _%_char_scope : simpl never.
Definition chars_of (s : string) : text := N_of_ascii <$> String.list_ascii_of_string s.

Definition newline : char := 10%N.

(** The UTF-8 encoding of a scalar value. *)
Definition byte_of (n : N) : ascii := ascii_of_N n.
Definition utf8_char (c : char) : string :=
  (if decide (c < 0x80) then String (byte_of c) EmptyString
   else if decide (c < 0x800) then
     String (byte_of (0xC0 + c / 64)) (String (byte_of (0x80 + c mod 64)) EmptyString)
   else if decide (c < 0x10000) then
     String (byte_of (0xE0 + c / 4096)) (String (byte_of (0x80 + c / 64 mod 64))
       (String (byte_of (0x80 + c mod 64)) EmptyString))
   else
     String (byte_of (0xF0 + c / 262144)) (String (byte_of (0x80 + c / 4096 mod 64))
       (String (byte_of (0x80 + c / 64 mod 64)) (String (byte_of (0x80 + c mod 64)) EmptyString))))%N.

Fixpoint utf8 (t : text) : string :=
  match t with
  | [] => EmptyString
  | c :: t => utf8_char c +:+ utf8 t
  end.

(** ** Byte offsets *)

(** [char::len_utf8], and the length of a string in bytes. *)
Definition len_utf8 (c : char) : nat :=
  if decide (c < 0x80)%N then 1 else if decide (c < 0x800)%N then 2
  else if decide (c < 0x10000)%N then 3 else 4.
Definition blen (t : text) : nat := sum_list (len_utf8 <$> t).

(** [str::split_at]: [None] when the offset is not on a char boundary. *)
Fixpoint split_at (n : nat) (t : text) : option (text * text) :=
  match n, t with
  | O, _ => Some ([], t)
  | S _, [] => None
  | S _, c :: t =>
      if decide (len_utf8 c ≤ n) then
        match split_at (n - len_utf8 c) t with Some (pre, post) => Some (c :: pre, post) | None => None end
      else None
  end.

(** ** Joining and splitting *)

(** [[String]::join]. *)
Fixpoint join (sep : text) (segments : list text) : text :=
  match segments with
  | [] => []
  | [s] => s
  | s :: segments => s ++ sep ++ join sep segments
  end.

(** [str::lines]: the final line may lack its newline, and a carriage return
    before a newline is part of the terminator. *)
Definition strip_cr (line : text) : text :=
  match last line with
  | Some c => if decide (c = 13%N) then removelast line else line
  | None => line
  end.
Fixpoint lines_from (line t : text) : list text :=
  match t with
  | [] => match line with [] => [] | _ => [line] end
  | c :: t => if decide (c = newline) then strip_cr line :: lines_from [] t else lines_from (line ++ [c]) t
  end.
Definition lines (t : text) : list text := lines_from [] t.

(** ** Prefixes and order *)

(** [str::strip_prefix]. *)
Fixpoint strip_prefix (p t : text) : option text :=
  match p, t with
  | [], _ => Some t
  | x :: p, y :: t => if decide (x = y) then strip_prefix p t else None
  | _ :: _, [] => None
  end.

(** [str::contains] of a string. *)
Fixpoint contains (p t : text) : bool :=
  match strip_prefix p t with
  | Some _ => true
  | None => match t with [] => false | _ :: t => contains p t end
  end.

(** [path.rsplit('/').next().unwrap_or(path)]: what follows the last slash. *)
Fixpoint after_slashes (cur t : text) : text :=
  match t with
  | [] => cur
  | c :: t => if decide (c = ch "/") then after_slashes t t else after_slashes cur t
  end.
Definition last_segment (path : text) : text := after_slashes path path.

(** [<=] on strings, by their bytes: UTF-8 keeps the order of the scalar values. *)
Fixpoint text_leb (a b : text) : bool :=
  match a, b with
  | [], _ => true
  | _ :: _, [] => false
  | x :: a, y :: b => if decide (x = y) then text_leb a b else bool_decide (x < y)%N
  end.
Definition text_le (a b : text) : Prop := text_leb a b = true.
#[export] Instance text_le_dec : RelDecision text_le.
Proof. intros a b. unfold text_le. apply _. Defined.

(** ** Classes of characters *)

Definition in_range (lo hi c : N) : bool := bool_decide (lo <= c)%N && bool_decide (c <= hi)%N.

Definition is_ascii_digit (c : char) : bool := in_range 48 57 c.
Definition is_ascii_alphabetic (c : char) : bool := in_range 65 90 c || in_range 97 122 c.

(** [char::is_whitespace]: the [White_Space] property. *)
Definition is_whitespace (c : char) : bool :=
  in_range 9 13 c || existsb (N.eqb c) [0x20; 0x85; 0xA0; 0x1680; 0x2028; 0x2029; 0x202F; 0x205F; 0x3000]%N
  || in_range 0x2000 0x200A c.

(** [str::trim_start_matches] and [str::trim_matches] of a class of chars, and
    [str::trim]. *)
Fixpoint trim_start (p : char → bool) (t : text) : text :=
  match t with
  | c :: rest => if p c then trim_start p rest else t
  | [] => []
  end.
Definition trim_matches (p : char → bool) (t : text) : text := reverse (trim_start p (reverse (trim_start p t))).
Definition trim : text → text := trim_matches is_whitespace.

(** [str::starts_with] and [str::ends_with] of a char, [str::strip_suffix]. *)
Definition starts_with (c : char) (t : text) : bool := bool_decide (head t = Some c).
Definition ends_with (c : char) (t : text) : bool := bool_decide (last t = Some c).
Definition strip_suffix (c : char) (t : text) : option text := if ends_with c t then Some (removelast t) else None.

(** The value of a run of ASCII digits. *)
Definition digit_value (c : char) : Z := Z.of_N c - 48.
Definition digits_value (ds : text) : Z := foldl (λ acc c, 10 * acc + digit_value c)%Z 0%Z ds.

(** The decimal digits of a number; [fuel] bounds their number. *)
Fixpoint print_digits (fuel : nat) (n : N) : text :=
  match fuel with
  | O => []
  | S fuel => if decide (n < 10)%N then [(48 + n)%N]
              else print_digits fuel (n / 10) ++ [(48 + n mod 10)%N]
  end.

Definition print_nat (n : N) : text := print_digits (S (N.to_nat (N.log2 n))) n.

Lemma digits_value_snoc ds d : digits_value (ds ++ [d]) = (10 * digits_value ds + digit_value d)%Z.
Proof. unfold digits_value. by rewrite foldl_app. Qed.

Lemma in_range_spec lo hi c : in_range lo hi c = true ↔ (lo <= c <= hi)%N.
Proof. unfold in_range. rewrite andb_true_iff, !bool_decide_eq_true. done. Qed.

Lemma in_range_false lo hi c : in_range lo hi c = false ↔ ¬ (lo <= c <= hi)%N.
Proof. rewrite <- in_range_spec. by destruct (in_range lo hi c). Qed.

Lemma print_digits_ok fuel n :
  (n < 2 ^ N.of_nat fuel)%N → (0 < fuel)%nat →
  digits_value (print_digits fuel n) = Z.of_N n ∧
  Forall (λ c, is_ascii_digit c = true) (print_digits fuel n) ∧ print_digits fuel n ≠ [].
Proof.
  revert n. induction fuel as [|fuel IH]; intros n Hn Hf; [lia|]. cbn [print_digits]. case_decide as Hlt.
  - split_and!; [|constructor; [apply in_range_spec; lia|constructor]|done].
    unfold digits_value, digit_value. simpl. lia.
  - assert (n mod 10 < 10)%N by (apply N.mod_lt; lia).
    assert (n / 10 < 2 ^ N.of_nat fuel)%N as Hdiv.
    { rewrite Nat2N.inj_succ, N.pow_succ_r' in Hn. apply N.Div0.div_lt_upper_bound. lia. }
    destruct fuel as [|fuel]; [simpl in Hn; lia|].
    destruct (IH (n / 10)%N Hdiv ltac:(lia)) as (Hv & Hd & Hne). split_and!.
    + rewrite digits_value_snoc, Hv. unfold digit_value. pose proof (N.div_mod n 10 ltac:(lia)). lia.
    + apply Forall_snoc; [done|]. apply in_range_spec. revert H. generalize (n mod 10)%N. lia.
    + intros [? ?]%app_eq_nil. done.
Qed.

Lemma print_nat_ok n :
  digits_value (print_nat n) = Z.of_N n ∧
  Forall (λ c, is_ascii_digit c = true) (print_nat n) ∧ print_nat n ≠ [].
Proof.
  apply print_digits_ok; [|lia]. rewrite Nat2N.inj_succ, N2Nat.id.
  destruct (decide (n = 0%N)) as [->|]; [done|]. apply N.log2_spec. lia.
Qed.

Lemma forallb_Forall {A} (f : A → bool) l : Forall (λ x, f x = true) l → forallb f l = true.
Proof. induction 1; simpl; [done|]. by apply andb_true_iff. Qed.

Lemma blen_app t1 t2 : blen (t1 ++ t2) = blen t1 + blen t2.
Proof. unfold blen. by rewrite fmap_app, sum_list_with_app. Qed.

Lemma len_utf8_pos c : 0 < len_utf8 c.
Proof. unfold len_utf8. repeat case_decide; lia. Qed.

Lemma split_at_app pre post : split_at (blen pre) (pre ++ post) = Some (pre, post).
Proof.
  induction pre as [|c pre IH]; [by destruct post|]. assert (blen (c :: pre) = len_utf8 c + blen pre) as -> by done.
  pose proof (len_utf8_pos c). cbn [app]. destruct (len_utf8 c + blen pre) as [|n] eqn:Hn; [lia|].
  cbn [split_at]. rewrite <- Hn, decide_True by lia.
  by replace (len_utf8 c + blen pre - len_utf8 c) with (blen pre) by lia; rewrite IH.
Qed.

Lemma blen_cons c t : blen (c :: t) = len_utf8 c + blen t.
Proof. done. Qed.

Lemma split_at_Some n t pre post : split_at n t = Some (pre, post) ↔ t = pre ++ post ∧ n = blen pre.
Proof.
  split; [|intros [-> ->]; apply split_at_app].
  revert n pre post. induction t as [|c t IH]; intros [|n] pre post; cbn [split_at]; try (by intros [= <- <-]).
  case_decide; [|done]. destruct (split_at _ t) as [[p q]|] eqn:E; [|done]. intros [= <- <-].
  apply IH in E as [-> ?]. rewrite blen_cons. split; [done|lia].
Qed.

#[export] Instance N_of_ascii_inj : Inj (=) (=) N_of_ascii.
Proof. intros a b H%(f_equal ascii_of_N). by rewrite !ascii_N_embedding in H. Qed.

#[export] Instance chars_of_inj : Inj (=) (=) chars_of.
Proof.
  intros s t H. unfold chars_of in H. apply (inj _) in H. apply (f_equal String.string_of_list_ascii) in H.
  by rewrite !String.string_of_list_ascii_of_string in H.
Qed.

(** Two prefixes of a text are ordered by their length in bytes. *)
Lemma app_eq_blen (a b c d : text) :
  a ++ b = c ++ d → blen a ≤ blen c → ∃ k, c = a ++ k ∧ b = k ++ d.
Proof.
  revert c. induction a as [|x a IH]; intros c H Hle; [by exists c|].
  destruct c as [|y c].
  { rewrite blen_cons in Hle. pose proof (len_utf8_pos x). unfold blen in Hle at 2. simpl in Hle. lia. }
  simplify_eq/=. rewrite !blen_cons in Hle. destruct (IH c) as (k & -> & ->); [done|lia|by exists k].
Qed.

(** Prefixes. *)
Lemma strip_prefix_app p t : strip_prefix p (p ++ t) = Some t.
Proof. induction p as [|c p IH]; simpl; [done|]. by rewrite decide_True. Qed.

Lemma strip_prefix_Some p t rest : strip_prefix p t = Some rest → t = p ++ rest.
Proof.
  revert t. induction p as [|c p IH]; intros [|x t]; simpl; try (by intros [= ->]).
  case_decide; [|done]. intros ->%IH. by subst.
Qed.

(** The order of strings is total. *)
Lemma text_leb_refl a : text_leb a a = true.
Proof. induction a as [|x a IH]; simpl; [done|]. by rewrite decide_True. Qed.

Lemma text_leb_cons x a y b : text_leb (x :: a) (y :: b) = true ↔ (x < y)%N ∨ x = y ∧ text_leb a b = true.
Proof. simpl. case_decide; [|rewrite bool_decide_eq_true]; split; intros; destruct_or?; lia || naive_solver lia. Qed.

Lemma text_leb_trans a b c : text_leb a b = true → text_leb b c = true → text_leb a c = true.
Proof.
  revert b c. induction a as [|x a IH]; intros [|y b] [|z c]; [done..|]. rewrite !text_leb_cons.
  intros [?|[-> H1]] [?|[-> H2]]; [left; lia|by left|by left|right; split; [done|by eapply IH]].
Qed.

Lemma text_leb_antisymm a b : text_leb a b = true → text_leb b a = true → a = b.
Proof.
  revert b. induction a as [|x a IH]; intros [|y b]; [done..|]. rewrite !text_leb_cons.
  intros [?|[-> H1]] [?|[? H2]]; [lia|lia|lia|f_equal; by apply IH].
Qed.

Lemma text_leb_total a b : text_leb a b = true ∨ text_leb b a = true.
Proof.
  revert b. induction a as [|x a IH]; intros [|y b]; [by left..|by right|]. rewrite !text_leb_cons.
  destruct (N.lt_trichotomy x y) as [?|[->|?]]; [by left; left| |by right; left]. destruct (IH b); tauto.
Qed.
