(* ===== verification/BTree.v ===== *)
(** [std::collections::BTreeMap] with [String] keys: the operations the
    components use, as a key-sorted association list, so that iteration visits
    the keys in ascending order exactly as the Rust map does. *)

From stdpp Require Import base gmap sets list strings sorting.
From S2P Require Import Prelude.

Abbreviation btree A := (list (string * A)).

(** [BTreeMap::get]. *)
Fixpoint bt_get {A} (k : string) (m : btree A) : option A :=
  match m with
  | [] => None
  | (k', v) :: m' => if decide (k = k') then Some v else bt_get k m'
  end.

(** [BTreeMap::insert]. *)
Fixpoint bt_insert {A} (k : string) (v : A) (m : btree A) : btree A :=
  match m with
  | [] => [(k, v)]
  | (k', v') :: m' =>
      if decide (k = k') then (k, v) :: m'
      else if decide (String.le k k') then (k, v) :: (k', v') :: m'
      else (k', v') :: bt_insert k v m'
  end.

(** [BTreeMap::remove], the map half of its result. *)
Fixpoint bt_remove {A} (k : string) (m : btree A) : btree A :=
  match m with
  | [] => []
  | (k', v') :: m' => if decide (k = k') then m' else (k', v') :: bt_remove k m'
  end.

(** A sequence of insertions. *)
Definition bt_extend {A} (m : btree A) (l : list (string * A)) : btree A :=
  foldl (λ m kv, bt_insert kv.1 kv.2 m) m l.

(** [collect::<BTreeMap<_, _>>()]: later entries overwrite earlier ones. *)
Definition bt_collect {A} (l : list (string * A)) : btree A := bt_extend [] l.

Definition bt_values {A} (m : btree A) : list A := m.*2.
Definition bt_keys {A} (m : btree A) : list string := m.*1.

(** Strictly ascending keys. *)
Definition str_lt (s1 s2 : string) : Prop := String.le s1 s2 ∧ s1 ≠ s2.
Definition bt_wf {A} (m : btree A) : Prop := StronglySorted str_lt (bt_keys m).

Section laws.
Context {A : Type}.
Implicit Types (m : btree A) (k : string) (v : A).

Lemma str_lt_irrefl s : ¬ str_lt s s.
Proof. by intros []. Qed.

Lemma str_lt_trans s1 s2 s3 : str_lt s1 s2 → str_lt s2 s3 → str_lt s1 s3.
Proof.
  intros [H12 N12] [H23 N23]. split; [by etrans|].
  intros ->. apply N12. by apply (anti_symm String.le).
Qed.

Lemma str_lt_total s1 s2 : s1 ≠ s2 → ¬ String.le s1 s2 → str_lt s2 s1.
Proof. intros Hne Hle. split; [|done]. by destruct (total String.le s1 s2). Qed.

Lemma bt_get_insert_eq k v m : bt_get k (bt_insert k v m) = Some v.
Proof. induction m as [|[k' v'] m IH]; simpl; repeat case_decide; simplify_eq/=; repeat case_decide; naive_solver. Qed.

Lemma bt_get_insert_ne k k' v m : k ≠ k' → bt_get k (bt_insert k' v m) = bt_get k m.
Proof. intros Hne. induction m as [|[k'' v''] m IH]; simpl; repeat (case_decide; simplify_eq/=); done. Qed.

Lemma bt_get_insert k k' v m :
  bt_get k (bt_insert k' v m) = if decide (k = k') then Some v else bt_get k m.
Proof. case_decide; subst; [apply bt_get_insert_eq|by apply bt_get_insert_ne]. Qed.

Lemma bt_get_Some_in k v m : bt_get k m = Some v → (k, v) ∈ m.
Proof. induction m as [|[k' v'] m IH]; simpl; [done|]; case_decide; intros; simplify_eq; set_solver. Qed.

Lemma bt_get_None_keys k m : bt_get k m = None ↔ k ∉ bt_keys m.
Proof. induction m as [|[k' v'] m IH]; simpl; [set_solver|]; case_decide; set_solver. Qed.

Lemma bt_keys_insert k v m k' : k' ∈ bt_keys (bt_insert k v m) ↔ k' = k ∨ k' ∈ bt_keys m.
Proof. induction m as [|[k'' v''] m IH]; simpl; repeat case_decide; set_solver. Qed.

Lemma bt_wf_nil : bt_wf (@nil (string * A)).
Proof. constructor. Qed.

Lemma bt_wf_cons k v m : bt_wf ((k, v) :: m) ↔ bt_wf m ∧ ∀ k', k' ∈ bt_keys m → str_lt k k'.
Proof.
  unfold bt_wf; simpl. split.
  - inversion 1; subst. split; [done|]. by apply Forall_forall.
  - intros [H1 H2]. constructor; [done|]. by apply Forall_forall.
Qed.

Lemma bt_wf_insert k v m : bt_wf m → bt_wf (bt_insert k v m).
Proof.
  induction m as [|[k' v'] m IH]; simpl.
  - intros _. apply bt_wf_cons; split; [apply bt_wf_nil|set_solver].
  - rewrite bt_wf_cons; intros [Hwf Hlt]. repeat case_decide; subst.
    + by apply bt_wf_cons.
    + apply bt_wf_cons; split; [by apply bt_wf_cons|].
      assert (str_lt k k') by done. intros k'' [->|Hk]%elem_of_cons; [done|].
      eapply str_lt_trans; eauto.
    + apply bt_wf_cons; split; [by apply IH|]. intros k''.
      rewrite bt_keys_insert; intros [->|]; [by apply str_lt_total|auto].
Qed.

Lemma bt_wf_remove k m : bt_wf m → bt_wf (bt_remove k m).
Proof.
  induction m as [|[k' v'] m IH]; simpl; [done|]. rewrite bt_wf_cons; intros [Hwf Hlt].
  case_decide; [done|]. apply bt_wf_cons; split; [by apply IH|].
  intros k'' Hk''. apply Hlt. clear -Hk''. induction m as [|[k3 v3] m IH]; simpl in *; [done|].
  case_decide; set_solver.
Qed.

Lemma bt_get_remove k k' m : bt_wf m →
  bt_get k (bt_remove k' m) = if decide (k = k') then None else bt_get k m.
Proof.
  induction m as [|[k'' v''] m IH]; simpl; [by case_decide|].
  rewrite bt_wf_cons; intros [Hwf Hlt]. repeat (case_decide; simplify_eq/=); try done; auto.
  - apply bt_get_None_keys. intros Hin. by apply Hlt, str_lt_irrefl in Hin.
Qed.

Lemma bt_in_get k v m : bt_wf m → (k, v) ∈ m ↔ bt_get k m = Some v.
Proof.
  intros Hwf. split; [|apply bt_get_Some_in].
  induction m as [|[k' v'] m IH]; [set_solver|]. apply bt_wf_cons in Hwf as [Hwf Hlt].
  simpl. intros [?|Hin]%elem_of_cons; simplify_eq; [by rewrite decide_True|].
  case_decide; subst; [|auto]. exfalso. eapply (str_lt_irrefl k'), Hlt.
  apply list_elem_of_fmap. by exists (k', v).
Qed.

Lemma bt_wf_NoDup m : bt_wf m → NoDup (bt_keys m).
Proof.
  induction m as [|[k v] m IH]; simpl; [constructor|]. rewrite bt_wf_cons; intros [Hwf Hlt].
  constructor; [|by apply IH]. intros Hin. by apply Hlt, str_lt_irrefl in Hin.
Qed.

(** Two maps with the same lookups are the same list. *)
Lemma bt_ext m1 m2 : bt_wf m1 → bt_wf m2 → (∀ k, bt_get k m1 = bt_get k m2) → m1 = m2.
Proof.
  revert m2. induction m1 as [|[k1 v1] m1 IH]; intros [|[k2 v2] m2]; try done.
  - intros _ _ Hext. specialize (Hext k2). simpl in Hext. by rewrite decide_True in Hext.
  - intros _ _ Hext. specialize (Hext k1). simpl in Hext. by rewrite decide_True in Hext.
  - rewrite !bt_wf_cons. intros [Hwf1 Hlt1] [Hwf2 Hlt2] Hext.
    assert (k1 = k2) as ->.
    { destruct (decide (k1 = k2)) as [|Hne]; [done|]. exfalso.
      assert (str_lt k2 k1) as H21.
      { apply Hlt2. destruct (decide (k1 ∈ bt_keys m2)) as [|Hn]; [done|].
        apply bt_get_None_keys in Hn. specialize (Hext k1). simpl in Hext.
        rewrite decide_True, decide_False in Hext by done. congruence. }
      assert (str_lt k1 k2) as H12.
      { apply Hlt1. destruct (decide (k2 ∈ bt_keys m1)) as [|Hn]; [done|].
        apply bt_get_None_keys in Hn. specialize (Hext k2). simpl in Hext.
        rewrite decide_False, decide_True in Hext by done. congruence. }
      eapply str_lt_irrefl, str_lt_trans; eauto. }
    assert (v1 = v2) as ->.
    { specialize (Hext k2). simpl in Hext. rewrite !decide_True in Hext by done. congruence. }
    f_equal. apply IH; [done..|]. intros k. specialize (Hext k). simpl in Hext.
    case_decide; [|done]. subst. transitivity (@None A); [|symmetry]; apply bt_get_None_keys.
    + intros Hin. by apply Hlt1, str_lt_irrefl in Hin.
    + intros Hin. by apply Hlt2, str_lt_irrefl in Hin.
Qed.

(** Inserting past the last key appends. *)
Lemma bt_insert_last k v m :
  (∀ k', k' ∈ bt_keys m → str_lt k' k) → bt_insert k v m = m ++ [(k, v)].
Proof.
  induction m as [|[k' v'] m IH]; simpl; [done|]. intros H.
  assert (str_lt k' k) as [Hle Hne] by (apply H; left).
  rewrite decide_False by done. rewrite decide_False.
  - f_equal. apply IH. intros k'' ?. apply H. by right.
  - intros Hle'. apply Hne. by apply (anti_symm String.le).
Qed.

Lemma bt_wf_app m1 m2 :
  bt_wf (m1 ++ m2) ↔
  bt_wf m1 ∧ bt_wf m2 ∧ ∀ k1 k2, k1 ∈ bt_keys m1 → k2 ∈ bt_keys m2 → str_lt k1 k2.
Proof.
  induction m1 as [|[k v] m1 IH]; csimpl.
  - split; [intros; split_and!; [apply bt_wf_nil|done|set_solver]|naive_solver].
  - rewrite !bt_wf_cons, IH. unfold bt_keys. rewrite fmap_app. set_solver.
Qed.

Lemma bt_collect_snoc l kv :
  bt_collect (l ++ [kv]) = bt_insert kv.1 kv.2 (bt_collect l) :> btree A.
Proof. unfold bt_collect, bt_extend. by rewrite foldl_app. Qed.

(** After a sequence of insertions a key holds one of the values inserted
    under it, or what it held before if there is none. *)
Lemma bt_get_extend m (l : list (string * A)) k :
  (k ∉ l.*1 ∧ bt_get k (bt_extend m l) = bt_get k m) ∨
  (∃ v, (k, v) ∈ l ∧ bt_get k (bt_extend m l) = Some v).
Proof.
  unfold bt_extend. induction l as [|[k' v'] l IH] using rev_ind; [left; set_solver|].
  rewrite foldl_app, fmap_app; simpl. rewrite bt_get_insert. case_decide; subst.
  - right. exists v'. set_solver.
  - destruct IH as [[Hn ->]|(v & Hv & ->)]; [left; set_solver|right; exists v; set_solver].
Qed.

Lemma bt_wf_extend m (l : list (string * A)) : bt_wf m → bt_wf (bt_extend m l).
Proof.
  unfold bt_extend. revert m. induction l as [|kv l IH]; intros m Hm; simpl; [done|].
  by apply IH, bt_wf_insert.
Qed.

Lemma bt_wf_collect (l : list (string * A)) : bt_wf (bt_collect l).
Proof.
  induction l as [|kv l IH] using rev_ind; [apply bt_wf_nil|].
  rewrite bt_collect_snoc. by apply bt_wf_insert.
Qed.

Lemma bt_get_collect_NoDup (l : list (string * A)) k v :
  NoDup l.*1 → bt_get k (bt_collect l) = Some v ↔ (k, v) ∈ l.
Proof.
  revert k v. induction l as [|[k' v'] l IH] using rev_ind; intros k v; [set_solver|].
  rewrite fmap_app, NoDup_app, bt_collect_snoc, bt_get_insert; simpl. intros (Hnd & Hd & _).
  case_decide; subst.
  - split; [intros [= ->]; set_solver|]. rewrite elem_of_app. intros [Hin|Hin]; [|set_solver].
    exfalso. apply (Hd k'); [apply list_elem_of_fmap; by exists (k', v)|set_solver].
  - rewrite IH by done. set_solver.
Qed.

End laws.

(** Mapping over the values keeps the keys. *)
Lemma bt_get_map {A B} (f : string → A → B) (m : btree A) k :
  bt_get k ((λ kv, (kv.1, f kv.1 kv.2)) <$> m) = f k <$> bt_get k m.
Proof. induction m as [|[k' v'] m IH]; csimpl; [done|]. by case_decide; subst. Qed.

Lemma bt_keys_map {A B} (f : string → A → B) (m : btree A) :
  bt_keys ((λ kv, (kv.1, f kv.1 kv.2)) <$> m) = bt_keys m.
Proof. unfold bt_keys. rewrite <- list_fmap_compose. by apply list_fmap_ext. Qed.

(** Rebuilding a map entry by entry while transforming the values. *)
Lemma bt_collect_map {A B} (f : string → A → B) (m : btree A) :
  bt_wf m → bt_collect ((λ kv, (kv.1, f kv.1 kv.2)) <$> m) = (λ kv, (kv.1, f kv.1 kv.2)) <$> m.
Proof.
  induction m as [|[k v] m IH] using rev_ind; [done|].
  intros (Hm & _ & Hlt)%bt_wf_app. rewrite fmap_app. csimpl.
  rewrite bt_collect_snoc, IH by done. simpl. apply bt_insert_last.
  intros k'. rewrite bt_keys_map. intros Hk'. apply Hlt; set_solver.
Qed.

Create HintDb btree.
#[export] Hint Resolve bt_wf_nil bt_wf_insert bt_wf_remove bt_wf_collect : btree.
#[export] Hint Rewrite @bt_get_insert_eq : btree.
