(* ===== verification/StateErr.v ===== *)
(** Effectful code over a state that outlives its failures: a computation
    returns an outcome and the state it leaves, also when it fails. *)

From stdpp Require Import base list.
From S2P Require Import Prelude.

Definition SM (St E A : Type) : Type := St → outcome E A * St.

#[export] Instance sm_ret {St E} : MRet (SM St E) := λ A a s, (Ok a, s).
#[export] Instance sm_bind {St E} : MBind (SM St E) := λ A B k m s,
  match m s with
  | (Ok a, s) => k a s
  | (Err e, s) => (Err e, s)
  | (Panic, s) => (Panic, s)
  end.

Definition raise {St E A} (e : E) : SM St E A := λ s, (Err e, s).
Definition lift {St E A} (m : outcome E A) : SM St E A := λ s, (m, s).

(** The state, read and changed. *)
Definition get_state {St E} : SM St E St := λ s, (Ok s, s).
Definition modify {St E} (f : St → St) : SM St E () := λ s, (Ok (), f s).

(** [.context(..)?]: the error is wrapped. *)
Definition context {St E F A} (f : E → F) (m : SM St E A) : SM St F A := λ s,
  let '(r, s) := m s in (map_err f r, s).

(** A [for] loop whose body may fail. *)
Fixpoint foldS {St E A S} (f : S → A → SM St E S) (acc : S) (l : list A) : SM St E S :=
  match l with
  | [] => mret acc
  | a :: l => acc ← f acc a; foldS f acc l
  end.

(** Every computation runs, and all results are kept: what collecting a stream
    of futures does. *)
Fixpoint run_all {St E A B} (f : A → SM St E B) (l : list A) (s : St) : list (outcome E B) * St :=
  match l with
  | [] => ([], s)
  | a :: l => let '(r, s) := f a s in let '(rs, s) := run_all f l s in (r :: rs, s)
  end.
Definition collected {St E A B} (f : A → SM St E B) (l : list A) : SM St E (list (outcome E B)) := λ s,
  let '(rs, s) := run_all f l s in (Ok rs, s).

(** [for result in results { result?; }]. *)
Definition all_ok {St E B} (results : list (outcome E B)) : SM St E () :=
  foldS (λ _ r, lift (r ≫= λ _, Ok ())) () results.

(** * Lemmas *)

Section lemmas.
Context {St E : Type}.

Lemma sm_bind_Ok {A B} (m : SM St E A) (k : A → SM St E B) s b s' :
  (m ≫= k) s = (Ok b, s') ↔ ∃ a s1, m s = (Ok a, s1) ∧ k a s1 = (Ok b, s').
Proof.
  unfold mbind, sm_bind. split.
  - destruct (m s) as [[a|e|] s1] eqn:Hm; [eauto|done..].
  - intros (a & s1 & -> & ?). done.
Qed.

Lemma context_Ok {F A} (f : E → F) (m : SM St E A) s a s' : context f m s = (Ok a, s') ↔ m s = (Ok a, s').
Proof.
  unfold context. destruct (m s) as [[b|e|] s1]; simpl; (split; intros [=]; by subst).
Qed.

Lemma foldS_app {A S} (f : S → A → SM St E S) acc l1 l2 s :
  foldS f acc (l1 ++ l2) s = (foldS f acc l1 ≫= λ acc, foldS f acc l2) s.
Proof.
  revert acc s. induction l1 as [|a l1 IH]; intros acc s; [done|]. cbn [app foldS].
  transitivity ((f acc a ≫= λ acc, foldS f acc l1 ≫= λ acc, foldS f acc l2) s).
  - unfold mbind at 1 2, sm_bind at 1 2. destruct (f acc a s) as [[acc'|e|] s1]; [apply IH|done..].
  - unfold mbind, sm_bind. by destruct (f acc a s) as [[acc'|e|] s1].
Qed.

(** A loop whose steps never fail. *)
Lemma foldS_total {A S} (I : list A → S → St → Prop) (f : S → A → SM St E S) l acc s :
  I [] acc s →
  (∀ pre a post acc s, l = pre ++ a :: post → I pre acc s → ∃ acc' s', f acc a s = (Ok acc', s') ∧ I (pre ++ [a]) acc' s') →
  ∃ acc' s', foldS f acc l s = (Ok acc', s') ∧ I l acc' s'.
Proof.
  intros H0 Hstep.
  assert (∀ pre post acc s, l = pre ++ post → I pre acc s → ∃ acc' s', foldS f acc post s = (Ok acc', s') ∧ I l acc' s') as Hgen;
    [|by apply (Hgen [] l)].
  intros pre post. revert pre. induction post as [|a post IH]; intros pre acc1 s1 Hl HI; cbn [foldS].
  - exists acc1, s1. by rewrite Hl, app_nil_r.
  - destruct (Hstep pre a post acc1 s1 Hl HI) as (acc2 & s2 & Hf & HI2).
    destruct (IH (pre ++ [a]) acc2 s2) as (acc' & s' & Hr & ?); [by rewrite <- app_assoc|done|].
    exists acc', s'. split; [|done]. unfold mbind, sm_bind. by rewrite Hf.
Qed.

(** Whatever the outcome, an invariant of the state that the steps keep holds. *)
Lemma foldS_inv {A S} (I : St → Prop) (f : S → A → SM St E S) l acc s :
  I s → (∀ acc a s, a ∈ l → I s → I (f acc a s).2) → I (foldS f acc l s).2.
Proof.
  intros Hs Hf. revert acc s Hs. induction l as [|a l IH]; intros acc s Hs; [done|].
  cbn [foldS]. unfold mbind, sm_bind. pose proof (Hf acc a s ltac:(by left) Hs) as H1.
  destruct (f acc a s) as [[acc'|e|] s1]; simpl in *; [|done..]. apply IH; [|done]. intros. apply Hf; [by right|done].
Qed.

Lemma foldS_Ok {A S} (I : list A → S → St → Prop) (f : S → A → SM St E S) l acc s acc' s' :
  I [] acc s →
  (∀ pre a post acc s acc' s', l = pre ++ a :: post → I pre acc s → f acc a s = (Ok acc', s') → I (pre ++ [a]) acc' s') →
  foldS f acc l s = (Ok acc', s') → I l acc' s'.
Proof.
  intros H0 Hstep.
  assert (∀ pre post acc s, l = pre ++ post → I pre acc s → foldS f acc post s = (Ok acc', s') → I l acc' s') as Hgen.
  { intros pre post; revert pre; induction post as [|a post IH]; intros pre acc1 s1 Hl HI; cbn [foldS].
    - intros [= <- <-]. by rewrite app_nil_r in Hl; subst.
    - intros (acc2 & s2 & Hf & Hrest)%sm_bind_Ok. apply (IH (pre ++ [a]) acc2 s2); [by rewrite <- app_assoc| |done].
      by eapply Hstep. }
  by apply (Hgen [] l).
Qed.

Lemma run_all_inv {A B} (I : St → Prop) (f : A → SM St E B) l s :
  I s → (∀ a s, a ∈ l → I s → I (f a s).2) → I (run_all f l s).2.
Proof.
  intros Hs Hf. revert s Hs. induction l as [|a l IH]; intros s Hs; [done|]. cbn [run_all].
  pose proof (Hf a s ltac:(by left) Hs) as H1. destruct (f a s) as [r s1]. simpl in H1.
  assert (I (run_all f l s1).2) as H2 by (apply IH; [intros; apply Hf; [by right|done]|done]).
  by destruct (run_all f l s1).
Qed.

(** When all the collected results are successes, each step was one. *)
Lemma run_all_Ok {A B} (I : list A → St → Prop) (f : A → SM St E B) l s rs s' :
  I [] s →
  (∀ pre a post s b s', l = pre ++ a :: post → I pre s → f a s = (Ok b, s') → I (pre ++ [a]) s') →
  run_all f l s = (rs, s') → Forall (λ r, ∃ b, r = Ok b) rs → I l s'.
Proof.
  intros H0 Hstep.
  assert (∀ pre post s rs, l = pre ++ post → I pre s → run_all f post s = (rs, s') →
    Forall (λ r, ∃ b, r = Ok b) rs → I l s') as Hgen; [|by apply (Hgen [] l)].
  intros pre post. revert pre. induction post as [|a post IH]; intros pre s1 rs1 Hl HI; cbn [run_all].
  - intros [= <- <-] _. by rewrite app_nil_r in Hl; subst.
  - destruct (f a s1) as [r s2] eqn:Hf. destruct (run_all f post s2) as [rs2 s3] eqn:Hr. intros [= <- <-] Hall.
    inversion Hall as [|? ? [b ->] Hall']; subst. apply (IH (pre ++ [a]) s2 rs2); [by rewrite <- app_assoc| |done|done].
    by eapply Hstep.
Qed.

Lemma all_ok_Ok {B} (rs : list (outcome E B)) (s s' : St) u :
  all_ok rs s = (Ok u, s') ↔ s' = s ∧ Forall (λ r, ∃ b, r = Ok b) rs.
Proof.
  unfold all_ok. destruct u. induction rs as [|r rs IH]; cbn [foldS].
  - split; [by intros [= <-]|by intros [-> _]].
  - rewrite sm_bind_Ok. split.
    + intros ([] & s1 & Hr & Hrest). unfold lift in Hr. destruct r as [b| |]; simplify_eq/=.
      apply IH in Hrest as [-> ?]. split; [done|]. constructor; [by exists b|done].
    + intros [-> Hall]. inversion Hall as [|? ? [b ->] Hall']; subst. exists (), s. split; [done|]. by apply IH.
Qed.

(** ** Errors *)

(** Every error a computation ends with satisfies [Q]. *)
Definition errs {F A} (Q : F → Prop) (c : SM St F A) : Prop := ∀ s e s', c s = (Err e, s') → Q e.

Lemma errs_bind {F A B} (Q : F → Prop) (c : SM St F A) (k : A → SM St F B) :
  errs Q c → (∀ a s s', c s = (Ok a, s') → errs Q (k a)) → errs Q (c ≫= k).
Proof.
  intros Hc Hk s e s'. unfold mbind, sm_bind. destruct (c s) as [[a|e1|] s1] eqn:E1; [by eapply Hk| |done].
  intros [= <- <-]. by eapply Hc.
Qed.

Lemma errs_ret {F A} (Q : F → Prop) (a : A) : errs Q (mret a : SM St F A).
Proof. by intros s e s' [=]. Qed.

Lemma errs_context {F A} (Q : F → Prop) (f : E → F) (c : SM St E A) : (∀ e, Q (f e)) → errs Q (context f c).
Proof. intros HQ s e s'. unfold context. destruct (c s) as [[a|e1|] s1]; simpl; [done|intros [= <- <-]; done|done]. Qed.

Lemma errs_foldS {F A S} (Q : F → Prop) (f : S → A → SM St F S) acc l :
  (∀ acc a, a ∈ l → errs Q (f acc a)) → errs Q (foldS f acc l).
Proof.
  revert acc. induction l as [|a l IH]; intros acc Hf; [apply errs_ret|]. cbn [foldS]. apply errs_bind; [apply Hf; left|].
  intros acc' _ _ _. apply IH. intros. apply Hf. by right.
Qed.

Lemma run_all_errs {F A B} (Q : F → Prop) (f : A → SM St F B) l s :
  (∀ a, errs Q (f a)) → Forall (λ r, ∀ e, r = Err e → Q e) (run_all f l s).1.
Proof.
  intros Hf. revert s. induction l as [|a l IH]; intros s; cbn [run_all]; [constructor|].
  destruct (f a s) as [r s1] eqn:Ha. specialize (IH s1). destruct (run_all f l s1) as [rs s2]. constructor; [|done].
  intros e ->. by eapply Hf.
Qed.

Lemma errs_all_ok {F B} (Q : F → Prop) (rs : list (outcome F B)) :
  Forall (λ r, ∀ e, r = Err e → Q e) rs → errs Q (all_ok rs : SM St F ()).
Proof.
  intros HF. apply errs_foldS. intros [] r Hr s e s'. unfold lift. rewrite Forall_forall in HF.
  intros [= He <-]. apply (HF r Hr). by destruct r; simplify_eq/=.
Qed.

(** ** Panics *)

(** The computation does not panic. *)
Definition returns {F A} (c : SM St F A) : Prop := ∀ s, (c s).1 ≠ Panic.

Lemma returns_ret {F A} (a : A) : returns (mret a : SM St F A).
Proof. done. Qed.

Lemma returns_lift {F A} (r : outcome F A) : r ≠ Panic → returns (lift r : SM St F A).
Proof. by intros Hr s. Qed.

Lemma returns_bind {F A B} (c : SM St F A) (k : A → SM St F B) :
  returns c → (∀ a s s', c s = (Ok a, s') → returns (k a)) → returns (c ≫= k).
Proof.
  intros Hc Hk s. unfold mbind, sm_bind. specialize (Hc s). destruct (c s) as [[a|e|] s1] eqn:E1; [by eapply Hk|done..].
Qed.

Lemma returns_context {F A} (f : E → F) (c : SM St E A) : returns c → returns (context f c).
Proof. intros Hc s. unfold context. specialize (Hc s). by destruct (c s) as [[a|e|] s1]. Qed.

Lemma returns_foldS {F A S} (f : S → A → SM St F S) acc l : (∀ acc a, a ∈ l → returns (f acc a)) → returns (foldS f acc l).
Proof.
  revert acc. induction l as [|a l IH]; intros acc Hf; [done|]. cbn [foldS]. apply returns_bind; [apply Hf; left|].
  intros acc' _ _ _. apply IH. intros. apply Hf. by right.
Qed.

Lemma run_all_returns {F A B} (f : A → SM St F B) l s :
  (∀ a, returns (f a)) → Forall (λ r, r ≠ Panic) (run_all f l s).1.
Proof.
  intros Hf. revert s. induction l as [|a l IH]; intros s; cbn [run_all]; [constructor|].
  specialize (Hf a s) as Ha. destruct (f a s) as [r s1]. specialize (IH s1). by destruct (run_all f l s1); constructor.
Qed.

(** Running all the futures and then looking at their results. *)
Lemma returns_all_ok {F A B C} (f : A → SM St F B) l (k : SM St F C) :
  (∀ a, returns (f a)) → returns k → returns (results ← collected f l; _ ← all_ok results; k).
Proof.
  intros Hf Hk. apply returns_bind; [intros s; unfold collected; by destruct (run_all f l s)|].
  intros rs s s' Hc. unfold collected in Hc. pose proof (run_all_returns f l s Hf) as Hrs.
  destruct (run_all f l s) as [rs' s1]. injection Hc as <- <-. apply returns_bind; [|by intros].
  apply returns_foldS. intros [] r Hr. apply returns_lift. rewrite Forall_forall in Hrs. specialize (Hrs r Hr). by destruct r.
Qed.

Lemma all_ok_state {B} (rs : list (outcome E B)) (s : St) : (all_ok rs s).2 = s.
Proof. unfold all_ok. apply (foldS_inv (λ s', s' = s)); [done|]. by intros. Qed.
End lemmas.
