(* ===== verification/EfxIr.v ===== *)
(** The content-addressed effect IR of [packages/efx/ir/src/lib.rs]: literals,
    values, effects and plans, plan construction, dependency order, and the
    SHA-256 identities of effects. *)

From stdpp Require Import base gmap sets list strings pretty relations sorting.
From S2P Require Import Prelude BTree.

(** * Data *)

Inductive PlanError :=
| DuplicateName (name : string)
| UnknownReference (from to : string)
| Cycle (name : string).

(** [n : i64] in the source. *)
Inductive Literal :=
| LStr (s : string)
| LInt (n : Z)
| LBool (b : bool).

Record OutputRef := mkOutputRef { or_effect : string; or_field : string }.

Inductive Value :=
| VLiteral (l : Literal)
| VRef (r : OutputRef).

Record EffectMeta := mkEffectMeta { idempotent : bool; rollback_hint : option string }.

Definition EffectMeta_default : EffectMeta :=
  {| idempotent := true; rollback_hint := None |}.

Record Effect := mkEffect {
  ef_name : string;
  ef_kind : string;
  ef_executor : string;
  ef_inputs : btree Value;
  ef_meta : EffectMeta }.

(** 32 bytes of SHA-256. *)
Record EffectId := mkEffectId { id_bytes : string }.

Inductive IdInput :=
| IdLit (hash : string)
| IdRef (effect field : string).

Record IdDocument := mkIdDocument {
  doc_executor : string;
  doc_inputs : btree IdInput;
  doc_kind : string }.

Record Edge := mkEdge { ed_from : string; ed_to : string }.

Record Plan := mkPlan { pl_effects : list Effect }.

#[export] Instance Literal_eq_dec : EqDecision Literal.
Proof. solve_decision. Defined.
#[export] Instance OutputRef_eq_dec : EqDecision OutputRef.
Proof. solve_decision. Defined.
#[export] Instance Value_eq_dec : EqDecision Value.
Proof. solve_decision. Defined.
#[export] Instance EffectId_eq_dec : EqDecision EffectId.
Proof. solve_decision. Defined.

(** * The crates the identity is computed with

    [sha2::Sha256::digest], [hex::encode] and [serde_json::to_vec] of an
    [IdDocument]: third-party code, parameters of the model. *)
Class Digest := {
  sha256 : string → string;
  hex_encode : string → string;
  json_id_document : IdDocument → string }.

(** Hexadecimal text determines the bytes; a JSON document determines the data
    it was serialized from. *)
Class DigestLaws `{!Digest} := {
  hex_encode_inj :: Inj (=) (=) hex_encode;
  json_id_document_inj :: Inj (=) (=) json_id_document }.

(** * Plan construction *)

Definition Plan_new : Plan := {| pl_effects := [] |}.

(** [Plan::get]: the first effect with that name. *)
Definition Plan_get (p : Plan) (name : string) : option Effect :=
  snd <$> list_find (λ e, ef_name e = name) (pl_effects p).

(** [Plan::add]. *)
Definition Plan_add (p : Plan) (e : Effect) : outcome PlanError Plan :=
  if existsb (λ e', bool_decide (ef_name e' = ef_name e)) (pl_effects p)
  then Err (DuplicateName (ef_name e))
  else Ok {| pl_effects := pl_effects p ++ [e] |}.

(** [Plan::from_effects]. *)
Definition from_effects (es : list Effect) : outcome PlanError Plan :=
  foldM Plan_add Plan_new es.

(** The effect a value refers to, if it is a reference. *)
Definition value_ref (v : Value) : option OutputRef :=
  match v with VRef r => Some r | VLiteral _ => None end.

(** The names an effect's reference inputs point at, in input-key order. *)
Definition ef_refs (e : Effect) : list string :=
  or_effect <$> omap value_ref (bt_values (ef_inputs e)).

(** [Plan::edges]: one edge per (upstream, dependent) pair, in first-seen order. *)
Definition edges_step (to : string) (acc : gset (string * string) * list Edge) (v : Value)
  : gset (string * string) * list Edge :=
  match v with
  | VRef r => if decide ((or_effect r, to) ∈ acc.1) then acc
              else ({[ (or_effect r, to) ]} ∪ acc.1, acc.2 ++ [mkEdge (or_effect r) to])
  | VLiteral _ => acc
  end.

Definition edges (p : Plan) : list Edge :=
  (foldl (λ acc e, foldl (edges_step (ef_name e)) acc (bt_values (ef_inputs e)))
         (∅, []) (pl_effects p)).2.

(** * Dependency order *)

(** The validation loops of [Plan::topo_order]. *)
Definition check_refs (p : Plan) : outcome PlanError () :=
  foldM (λ _ e,
    foldM (λ _ v,
      match v with
      | VRef r => match Plan_get p (or_effect r) with
                  | None => Err (UnknownReference (ef_name e) (or_effect r))
                  | Some _ => Ok ()
                  end
      | VLiteral _ => Ok ()
      end) () (bt_values (ef_inputs e)))
    () (pl_effects p).

Definition value_ready (done : gset string) (v : Value) : bool :=
  match v with
  | VRef r => bool_decide (or_effect r ∈ done)
  | VLiteral _ => true
  end.

Definition effect_ready (done : gset string) (e : Effect) : bool :=
  forallb (value_ready done) (bt_values (ef_inputs e)).

(** The locals of the [while] loop. *)
Record topo_state := mkTopo { ts_done : gset string; ts_order : list Effect; ts_advanced : bool }.

(** One iteration of the inner [for] loop. *)
Definition topo_visit (st : topo_state) (e : Effect) : topo_state :=
  if decide (ef_name e ∈ ts_done st) then st
  else if effect_ready (ts_done st) e
  then mkTopo ({[ef_name e]} ∪ ts_done st) (ts_order st ++ [e]) true
  else st.

(** [while order.len() < self.effects.len()].  Each pass that does not return
    places at least one effect, so [fuel] = number of effects + 1 passes are
    enough ([topo_order_total]). *)
Fixpoint topo_loop (fuel : nat) (es : list Effect) (done : gset string) (order : list Effect)
  : outcome PlanError (list Effect) :=
  match fuel with
  | O => Panic
  | S fuel =>
      if decide (length order < length es) then
        let st := foldl topo_visit (mkTopo done order false) es in
        if ts_advanced st then topo_loop fuel es (ts_done st) (ts_order st)
        else Err (Cycle (from_option (ef_name ∘ snd) EmptyString
                           (list_find (λ e, ef_name e ∉ ts_done st) es)))
      else Ok order
  end.

(** [Plan::topo_order]. *)
Definition topo_order (p : Plan) : outcome PlanError (list Effect) :=
  _ ← check_refs p;
  topo_loop (S (length (pl_effects p))) (pl_effects p) ∅ [].

(** * Identities *)

Section identity.
Context {DG : Digest}.

(** [Literal::display_string]. *)
Definition display_string (l : Literal) : string :=
  match l with
  | LStr s => s
  | LInt n => pretty n
  | LBool true => "true"
  | LBool false => "false"
  end.

(** The bytes [Literal::content_hash] feeds the hasher. *)
Definition content_preimage (l : Literal) : string :=
  match l with
  | LStr s => "str:" +:+ s
  | LInt n => "int:" +:+ pretty n
  | LBool b => "bool:" +:+ (if b then "true" else "false")
  end.

Definition content_hash (l : Literal) : string := hex_encode (sha256 (content_preimage l)).

Definition to_hex (i : EffectId) : string := hex_encode (id_bytes i).

Definition id_input (ids : btree EffectId) (v : Value) : outcome PlanError IdInput :=
  match v with
  | VLiteral lit => Ok (IdLit (content_hash lit))
  | VRef r => i ← unwrap (bt_get (or_effect r) ids); Ok (IdRef (to_hex i) (or_field r))
  end.

(** The loop over one effect's inputs in [Plan::effect_ids]. *)
Definition id_inputs (ids : btree EffectId) (e : Effect) : outcome PlanError (btree IdInput) :=
  foldM (λ acc kv, entry ← id_input ids kv.2; Ok (bt_insert kv.1 entry acc)) [] (ef_inputs e).

Definition effect_id (ids : btree EffectId) (e : Effect) : outcome PlanError EffectId :=
  inputs ← id_inputs ids e;
  Ok (mkEffectId (sha256 (json_id_document
    {| doc_executor := ef_executor e; doc_inputs := inputs; doc_kind := ef_kind e |}))).

(** [Plan::effect_ids]. *)
Definition effect_ids (p : Plan) : outcome PlanError (btree EffectId) :=
  order ← topo_order p;
  foldM (λ ids e, i ← effect_id ids e; Ok (bt_insert (ef_name e) i ids)) [] order.

(** [Plan::input_signatures]. *)
Definition input_signature (ids : btree EffectId) (v : Value) : string :=
  match v with
  | VLiteral lit => "lit:" +:+ content_hash lit
  | VRef r => "ref:" +:+ from_option to_hex EmptyString (bt_get (or_effect r) ids)
                +:+ ":" +:+ or_field r
  end.

Definition input_signatures (e : Effect) (ids : btree EffectId) : btree string :=
  bt_collect ((λ kv, (kv.1, input_signature ids kv.2)) <$> ef_inputs e).

End identity.

(** * Well-formedness and the dependency graph *)

(** [ef_inputs] is a [BTreeMap]. *)
Definition effect_wf (e : Effect) : Prop := bt_wf (ef_inputs e).

Definition names (p : Plan) : list string := ef_name <$> pl_effects p.

(** What [Plan::from_effects] guarantees, and every operation relies on. *)
Definition plan_wf (p : Plan) : Prop := NoDup (names p) ∧ Forall effect_wf (pl_effects p).

(** [depends p a b]: the effect named [a] reads an output of [b]. *)
Definition depends (p : Plan) (a b : string) : Prop :=
  ∃ e, e ∈ pl_effects p ∧ ef_name e = a ∧ b ∈ ef_refs e.

Definition refs_known (p : Plan) : Prop :=
  ∀ e b, e ∈ pl_effects p → b ∈ ef_refs e → b ∈ names p.

(** Every effect of [l] comes after the effects it reads. *)
Definition deps_first (l : list Effect) : Prop :=
  ∀ pre e post, l = pre ++ e :: post → ∀ b, b ∈ ef_refs e → b ∈ ef_name <$> pre.

(** * Plan construction keeps names unique *)

Lemma elem_of_ef_refs e b :
  b ∈ ef_refs e ↔ ∃ r, VRef r ∈ bt_values (ef_inputs e) ∧ or_effect r = b.
Proof.
  unfold ef_refs. rewrite list_elem_of_fmap. setoid_rewrite list_elem_of_omap. split.
  - intros (r & -> & v & Hv & Hr). destruct v; simplify_eq/=; eauto.
  - intros (r & Hr & <-). exists r; split; [done|]. by exists (VRef r).
Qed.

Lemma Plan_get_Some p n e :
  Plan_get p n = Some e → e ∈ pl_effects p ∧ ef_name e = n.
Proof.
  unfold Plan_get. destruct (list_find _ _) as [[i x]|] eqn:Hf; simpl; [|done].
  intros [= <-]. apply list_find_Some in Hf as (Hi & Hx & _). split; [|done].
  by eapply list_elem_of_lookup_2.
Qed.

Lemma Plan_get_None p n : Plan_get p n = None ↔ n ∉ names p.
Proof.
  unfold Plan_get, names. rewrite fmap_None, list_find_None, Forall_forall.
  split.
  - intros H (e & -> & He)%list_elem_of_fmap. by eapply H.
  - intros H e He <-. apply H, list_elem_of_fmap. eauto.
Qed.

Lemma Plan_get_unique p e : plan_wf p → e ∈ pl_effects p → Plan_get p (ef_name e) = Some e.
Proof.
  intros [Hnd _] He. destruct (Plan_get p (ef_name e)) as [e'|] eqn:Hg.
  - apply Plan_get_Some in Hg as [He' Hn]. f_equal.
    by eapply (NoDup_fmap_inj_on ef_name).
  - exfalso. apply Plan_get_None in Hg. apply Hg, list_elem_of_fmap. eauto.
Qed.

Lemma Plan_add_spec p e :
  Plan_add p e = if decide (ef_name e ∈ names p) then Err (DuplicateName (ef_name e))
                 else Ok (mkPlan (pl_effects p ++ [e])).
Proof.
  unfold Plan_add, names. destruct (existsb _ _) eqn:Hx.
  - apply existsb_exists in Hx as (e' & He' & Hn%bool_decide_eq_true).
    rewrite decide_True; [done|]. rewrite <- Hn. apply list_elem_of_fmap. exists e'.
    by rewrite list_elem_of_In.
  - rewrite decide_False; [done|]. intros (e' & Hn & He')%list_elem_of_fmap.
    apply not_true_iff_false in Hx. apply Hx, existsb_exists. exists e'.
    rewrite <- list_elem_of_In. by rewrite bool_decide_true.
Qed.

(** [Plan::from_effects] succeeds exactly when no two effects share a name,
    and then holds the effects in declaration order; otherwise the error names
    an effect that occurs at least twice.  It never panics. *)
Theorem from_effects_spec es :
  match from_effects es with
  | Ok p => pl_effects p = es ∧ NoDup (ef_name <$> es)
  | Err (DuplicateName n) =>
      ∃ pre e mid e' post, es = pre ++ e :: mid ++ e' :: post ∧ ef_name e = n ∧ ef_name e' = n
  | Err _ => False
  | Panic => False
  end.
Proof.
  unfold from_effects.
  assert (∀ pre post p, es = pre ++ post → pl_effects p = pre → NoDup (ef_name <$> pre) →
    match foldM Plan_add p post with
    | Ok p => pl_effects p = es ∧ NoDup (ef_name <$> es)
    | Err (DuplicateName n) =>
        ∃ pre e mid e' post, es = pre ++ e :: mid ++ e' :: post ∧ ef_name e = n ∧ ef_name e' = n
    | Err _ => False
    | Panic => False
    end) as Hgen; last (apply (Hgen [] es); [done..|constructor]).
  intros pre post. revert pre. induction post as [|e post IH]; intros pre p Hes Hp Hnd; simpl.
  - rewrite app_nil_r in Hes. by subst.
  - rewrite Plan_add_spec. unfold names. rewrite Hp. case_decide as Hin.
    + apply list_elem_of_fmap in Hin as (e0 & Hn & He0).
      apply list_elem_of_split in He0 as (l1 & l2 & ->).
      exists l1, e0, l2, e, post. by rewrite <- app_assoc in Hes.
    + apply (IH (pre ++ [e])); simpl; [by rewrite <- app_assoc|by f_equal|].
      rewrite fmap_app, NoDup_app. csimpl. split_and!; [done| |apply NoDup_singleton].
      set_solver.
Qed.

(** * Dependency order *)

Lemma effect_ready_spec done e :
  effect_ready done e = true ↔ ∀ b, b ∈ ef_refs e → b ∈ done.
Proof.
  unfold effect_ready. rewrite forallb_forall. setoid_rewrite elem_of_ef_refs. split.
  - intros H b (r & Hr & <-). apply list_elem_of_In, H, bool_decide_eq_true in Hr. done.
  - intros H [l|r] Hv; [done|]. apply bool_decide_eq_true, H. exists r.
    by rewrite list_elem_of_In.
Qed.

Lemma check_refs_value_Ok p e v :
  match v with
  | VRef r => match Plan_get p (or_effect r) with
              | None => Err (UnknownReference (ef_name e) (or_effect r))
              | Some _ => Ok ()
              end
  | VLiteral _ => Ok ()
  end = @Ok PlanError () () ↔ ∀ r, v = VRef r → or_effect r ∈ names p.
Proof.
  destruct v as [l|r]; [naive_solver|]. destruct (Plan_get p (or_effect r)) eqn:Hg.
  - split; [|done]. intros _ r' [= <-]. destruct (decide (or_effect r ∈ names p)) as [|Hn]; [done|].
    apply Plan_get_None in Hn. congruence.
  - apply Plan_get_None in Hg. naive_solver.
Qed.

Lemma check_refs_Ok p : check_refs p = Ok () ↔ refs_known p.
Proof.
  unfold check_refs. rewrite foldM_check_Ok. setoid_rewrite foldM_check_Ok.
  setoid_rewrite check_refs_value_Ok. unfold refs_known. setoid_rewrite elem_of_ef_refs.
  split; [naive_solver|]. intros H e He v Hv r ->. eauto.
Qed.

Lemma check_refs_Err p err :
  check_refs p = Err err →
  ∃ a b, err = UnknownReference a b ∧ depends p a b ∧ b ∉ names p.
Proof.
  unfold check_refs. intros (e & He & H)%foldM_check_Err.
  apply foldM_check_Err in H as ([l|r] & Hv & H); [done|].
  destruct (Plan_get p (or_effect r)) eqn:Hg; simplify_eq.
  exists (ef_name e), (or_effect r). split_and!; [done| |by apply Plan_get_None].
  exists e. split_and!; [done..|]. apply elem_of_ef_refs. eauto.
Qed.

Lemma check_refs_no_panic p : check_refs p ≠ Panic.
Proof.
  unfold check_refs. intros (e & He & H)%foldM_check_Panic.
  apply foldM_check_Panic in H as ([l|r] & Hv & H); [done|].
  by destruct (Plan_get p (or_effect r)).
Qed.

Lemma deps_first_nil : deps_first [].
Proof. intros pre e post H. by destruct pre. Qed.

Lemma deps_first_snoc l e :
  deps_first l → (∀ b, b ∈ ef_refs e → b ∈ ef_name <$> l) → deps_first (l ++ [e]).
Proof.
  intros Hl He pre e' post Heq. destruct post as [|e'' post _] using rev_ind.
  - apply app_inj_tail in Heq as [-> ->]. done.
  - rewrite app_comm_cons, app_assoc in Heq. apply app_inj_tail in Heq as [-> ->].
    by eapply Hl.
Qed.

(** What holds of the loop's locals before and after every visit. *)
Record topo_inv (es : list Effect) (done : gset string) (order : list Effect) : Prop := {
  ti_done : ∀ n, n ∈ done ↔ n ∈ ef_name <$> order;
  ti_nodup : NoDup (ef_name <$> order);
  ti_sub : order ⊆ es;
  ti_deps : deps_first order }.

Lemma topo_inv_init es : topo_inv es ∅ [].
Proof. split; [set_solver|constructor|set_solver|apply deps_first_nil]. Qed.

Lemma topo_visit_inv es st e :
  e ∈ es → topo_inv es (ts_done st) (ts_order st) →
  topo_inv es (ts_done (topo_visit st e)) (ts_order (topo_visit st e)).
Proof.
  intros He [Hd Hnd Hs Hf]. unfold topo_visit. case_decide as Hin; [done|].
  destruct (effect_ready _ _) eqn:Hr; [|done]; simpl.
  rewrite effect_ready_spec in Hr.
  split; rewrite ?fmap_app; csimpl.
  - intros n. rewrite elem_of_union, elem_of_app, Hd. set_solver.
  - apply NoDup_app. split_and!; [done| |apply NoDup_singleton]. set_solver.
  - intros x. rewrite elem_of_app. set_solver.
  - apply deps_first_snoc; [done|]. intros b Hb. by apply Hd, Hr.
Qed.

Lemma topo_pass_inv es st l :
  l ⊆ es → topo_inv es (ts_done st) (ts_order st) →
  topo_inv es (ts_done (foldl topo_visit st l)) (ts_order (foldl topo_visit st l)).
Proof.
  revert st. induction l as [|e l IH]; intros st Hl Hi; simpl; [done|].
  apply IH; [set_solver|]. apply topo_visit_inv; [set_solver|done].
Qed.

(** Visits only add, and set the flag exactly when they add. *)
Lemma topo_pass_mono st l :
  let st' := foldl topo_visit st l in
  length (ts_order st) ≤ length (ts_order st') ∧
  (ts_advanced st' = true → ts_advanced st = true ∨ length (ts_order st) < length (ts_order st')).
Proof.
  revert st. induction l as [|e l IH]; intros st; simpl; [auto|].
  destruct (IH (topo_visit st e)) as [H1 H2]. revert H1 H2. unfold topo_visit.
  case_decide; [auto|]. destruct (effect_ready _ _); simpl; [|auto].
  rewrite length_app; simpl. intros. split; [lia|]. right; lia.
Qed.

Lemma topo_visit_flag st e : ts_advanced st = true → ts_advanced (topo_visit st e) = true.
Proof. unfold topo_visit. case_decide; [done|]. by destruct (effect_ready _ _). Qed.

Lemma topo_pass_flag st l : ts_advanced st = true → ts_advanced (foldl topo_visit st l) = true.
Proof. revert st. induction l as [|e l IH]; intros st; simpl; [done|]. by intros ?%(topo_visit_flag _ e)%IH. Qed.

(** A pass that places nothing visited only placed or blocked effects. *)
Lemma topo_pass_stuck st l :
  ts_advanced (foldl topo_visit st l) = false →
  foldl topo_visit st l = st ∧
  ∀ e, e ∈ l → ef_name e ∈ ts_done st ∨ effect_ready (ts_done st) e = false.
Proof.
  revert st. induction l as [|e l IH]; intros st; simpl; [set_solver|]. intros Hadv.
  assert (topo_visit st e = st ∧ (ef_name e ∈ ts_done st ∨ effect_ready (ts_done st) e = false))
    as [Hv He].
  { unfold topo_visit in *. case_decide; [auto|]. destruct (effect_ready _ _); [|auto].
    by rewrite topo_pass_flag in Hadv. }
  rewrite Hv in *. destruct (IH st Hadv) as [-> Hl]. split; [done|]. set_solver.
Qed.

Lemma topo_inv_length es done order :
  NoDup (ef_name <$> es) → topo_inv es done order → length order ≤ length es.
Proof.
  intros Hes [_ Hnd Hs _]. apply submseteq_length, NoDup_submseteq; [|done].
  by apply (NoDup_fmap_1 ef_name).
Qed.

(** A blocked effect waits for another unplaced effect, so the unplaced effects
    contain a cycle that each of them reaches. *)
Lemma topo_stuck_cycle p done order n :
  refs_known p → topo_inv (pl_effects p) done order →
  (∀ e, e ∈ pl_effects p → ef_name e ∈ done ∨ effect_ready done e = false) →
  n ∈ names p → n ∉ done →
  ∃ x, rtc (depends p) n x ∧ tc (depends p) x x.
Proof.
  intros Hk [Hd Hnd Hs Hf] Hblk Hn Hnd'.
  apply (finite_succ_cycle _ (list_to_set (names p) ∖ done)); [|set_solver].
  intros a [Ha Had]%elem_of_difference. apply elem_of_list_to_set in Ha.
  apply list_elem_of_fmap in Ha as (e & -> & He).
  destruct (Hblk e He) as [|Hr]; [done|].
  assert (∃ b, b ∈ ef_refs e ∧ b ∉ done) as (b & Hb & Hbd).
  { apply not_true_iff_false in Hr. rewrite effect_ready_spec in Hr.
    destruct (decide (Forall (.∈ done) (ef_refs e))) as [HF|HF].
    - rewrite Forall_forall in HF. done.
    - apply not_Forall_Exists in HF; [|apply _]. by apply Exists_exists in HF. }
  exists b. split; [|exists e; eauto].
  apply elem_of_difference. split; [|done]. apply elem_of_list_to_set. by eapply Hk.
Qed.

Lemma topo_loop_spec p fuel done order :
  plan_wf p → refs_known p → topo_inv (pl_effects p) done order →
  length (pl_effects p) < fuel + length order →
  match topo_loop fuel (pl_effects p) done order with
  | Ok order' => order' ≡ₚ pl_effects p ∧ deps_first order'
  | Err (Cycle n) => n ∈ names p ∧ ∃ x, rtc (depends p) n x ∧ tc (depends p) x x
  | Err _ => False
  | Panic => False
  end.
Proof.
  intros Hwf Hk. revert done order. induction fuel as [|fuel IH]; intros done order Hi Hlen.
  { apply topo_inv_length in Hi; [lia|apply Hwf]. }
  simpl. case_decide as Hlt.
  - set (st := foldl topo_visit (mkTopo done order false) (pl_effects p)).
    assert (topo_inv (pl_effects p) (ts_done st) (ts_order st)) as Hi'
      by (by apply topo_pass_inv).
    destruct (ts_advanced st) eqn:Hadv.
    + apply IH; [done|]. subst st.
      destruct (topo_pass_mono (mkTopo done order false) (pl_effects p)) as [_ Hm].
      destruct (Hm Hadv); simpl in *; [done|lia].
    + destruct (topo_pass_stuck _ _ Hadv) as [Hst Hblk]. fold st in Hst. rewrite Hst. simpl in *.
      destruct (list_find _ _) as [[i e]|] eqn:Hf; simpl.
      * apply list_find_Some in Hf as (Hi0 & Hne & _).
        assert (ef_name e ∈ names p) as Hn
          by (apply list_elem_of_fmap_2; by eapply list_elem_of_lookup_2).
        split; [done|]. eapply (topo_stuck_cycle p done order); done.
      * exfalso. apply list_find_None in Hf. rewrite Forall_forall in Hf.
        assert (names p ⊆ ef_name <$> order) as Hsub.
        { intros n (e & -> & He)%list_elem_of_fmap. apply (ti_done _ _ _ Hi).
          destruct (decide (ef_name e ∈ done)) as [|Hn]; [done|]. by destruct (Hf e He). }
        apply NoDup_submseteq, submseteq_length in Hsub; [|apply Hwf].
        unfold names in Hsub. rewrite !length_fmap in Hsub. lia.
  - destruct Hi as [Hd Hnd Hs Hf]. split; [|done].
    apply NoDup_subset_Permutation; [by eapply NoDup_fmap_1|done|lia].
Qed.

(** A dependency order is a rank function on the graph. *)
Lemma deps_first_acyclic p order x :
  plan_wf p → order ≡ₚ pl_effects p → deps_first order → ¬ tc (depends p) x x.
Proof.
  intros [Hnd _] Hp Hf.
  apply (rank_no_cycle _ (λ n, from_option fst 0 (list_find (λ e, ef_name e = n) order))).
  intros a b (e & He & <- & Hb). rewrite <- Hp in He.
  apply list_elem_of_split in He as (pre & post & Ho).
  pose proof (Hf _ _ _ Ho b Hb) as Hbp.
  assert (list_find (λ e', ef_name e' = ef_name e) order = Some (length pre, e)) as ->.
  { apply list_find_Some. subst order. split_and!; [by rewrite list_lookup_middle|done|].
    intros j y Hj Hjl Hy. rewrite lookup_app_l in Hj by done.
    apply list_elem_of_lookup_2 in Hj.
    unfold names in Hnd. rewrite <- Hp, fmap_app, NoDup_app in Hnd. csimpl in *. destruct Hnd as (_ & Hnd & _).
    apply (Hnd (ef_name y)); [by apply list_elem_of_fmap_2|rewrite Hy; left]. }
  apply list_elem_of_fmap in Hbp as (e' & -> & He'). simpl.
  destruct (list_find (λ e0, ef_name e0 = ef_name e') order) as [[i y]|] eqn:Hfind; simpl.
  - apply list_find_Some in Hfind as (Hi & _ & Hmin).
    apply list_elem_of_lookup in He' as (j & Hj).
    assert (order !! j = Some e') as Hj'
      by (subst order; rewrite lookup_app_l; [done|by eapply lookup_lt_Some]).
    destruct (decide (i ≤ j)) as [|Hij].
    + apply lookup_lt_Some in Hj. lia.
    + exfalso. eapply Hmin; [exact Hj'|lia|done].
  - apply list_find_None in Hfind. rewrite Forall_forall in Hfind.
    exfalso. apply (Hfind e'); [|done]. subst order. set_solver.
Qed.

Lemma deps_first_prefix l1 l2 : deps_first (l1 ++ l2) → deps_first l1.
Proof. intros H pre e post ->. apply (H pre e (post ++ l2)). by rewrite <- app_assoc. Qed.

(** The facts about a dependency order the clients use. *)
Lemma topo_order_facts p order :
  plan_wf p → topo_order p = Ok order →
  order ≡ₚ pl_effects p ∧ deps_first order ∧
  NoDup (ef_name <$> order) ∧ Forall effect_wf order.
Proof.
  intros Hwf Ht. unfold topo_order in Ht. simplify_outcome.
  match goal with H : check_refs p = Ok ?u |- _ => destruct u; apply check_refs_Ok in H as Hk end.
  pose proof (topo_loop_spec p (S (length (pl_effects p))) ∅ [] Hwf Hk (topo_inv_init _)) as Hs.
  rewrite Ht in Hs. destruct Hs as [Hp Hd]; [simpl; lia|].
  destruct Hwf as [Hnd Hw]. unfold names in Hnd. split_and!; [done..|by rewrite Hp|by rewrite Hp].
Qed.

(** The order is a rearrangement of the effects, and the graph has no cycle. *)
Lemma topo_order_sound p order :
  plan_wf p → topo_order p = Ok order →
  order ≡ₚ pl_effects p ∧ deps_first order ∧ ∀ x, ¬ tc (depends p) x x.
Proof.
  intros Hwf Ht. destruct (topo_order_facts p order Hwf Ht) as (Hp & Hd & _).
  split_and!; [done..|]. intros x. by eapply deps_first_acyclic.
Qed.

Lemma topo_order_cases p :
  plan_wf p →
  match topo_order p with
  | Ok _ => refs_known p
  | Err (UnknownReference a b) => depends p a b ∧ b ∉ names p
  | Err (Cycle n) =>
      refs_known p ∧ n ∈ names p ∧ ∃ x, rtc (depends p) n x ∧ tc (depends p) x x
  | Err (DuplicateName _) => False
  | Panic => False
  end.
Proof.
  intros Hwf. unfold topo_order. destruct (check_refs p) as [[]|err|] eqn:Hc; simpl.
  - apply check_refs_Ok in Hc as Hk.
    pose proof (topo_loop_spec p (S (length (pl_effects p))) ∅ [] Hwf Hk (topo_inv_init _)) as Hs.
    simpl in Hs |- *. destruct (if decide _ then _ else _) as [o|[| |]|]; naive_solver lia.
  - apply check_refs_Err in Hc as (a & b & -> & ?). done.
  - by apply check_refs_no_panic in Hc.
Qed.

(** C3. [Plan::topo_order] always returns (no plan makes it loop or panic).  When
    it succeeds its result is a rearrangement of the plan's effects in which every
    effect comes after all the effects its inputs refer to, and the dependency
    graph has no cycle.  Each error is accurate: [UnknownReference] names an
    effect and a name it refers to that no effect has, and is raised exactly when
    there is such a reference; [Cycle] is raised only when all references resolve,
    and names an effect of the plan from which a dependency cycle is reachable. *)
Theorem topo_order_correct p :
  plan_wf p →
  match topo_order p with
  | Ok order => refs_known p ∧ order ≡ₚ pl_effects p ∧ deps_first order ∧ ∀ x, ¬ tc (depends p) x x
  | Err (UnknownReference a b) => depends p a b ∧ b ∉ names p
  | Err (Cycle n) =>
      refs_known p ∧ n ∈ names p ∧ ∃ x, rtc (depends p) n x ∧ tc (depends p) x x
  | Err (DuplicateName _) => False
  | Panic => False
  end.
Proof.
  intros Hwf. pose proof (topo_order_cases p Hwf) as H. destruct (topo_order p) as [order| |] eqn:Ho; [|exact H..].
  split; [exact H|]. by apply topo_order_sound.
Qed.

(** The effect named by [Cycle] need not lie on a cycle itself: it is the first
    unplaced effect in declaration order, here one that only reads from a
    cycle, although the message says "dependency cycle involving effect". *)
Example cycle_error_names_bystander :
  let reads a b := mkEffect a "k" "k" [("x", VRef (mkOutputRef b "out"))] EffectMeta_default in
  let p := mkPlan [reads "c" "a"; reads "a" "b"; reads "b" "a"] in
  topo_order p = Err (Cycle "c") ∧ ¬ tc (depends p) "c" "c".
Proof.
  intros reads p. split; [vm_compute; reflexivity|].
  assert (∀ x y, depends p x y → y = "a" ∨ y = "b") as Hd.
  { intros x y (e & He & _ & Hy). unfold p in He. simpl in He.
    repeat (apply elem_of_cons in He as [->|He]; [apply list_elem_of_singleton in Hy; auto|]).
    by inversion He. }
  assert (∀ x y, tc (depends p) x y → y = "a" ∨ y = "b") as Ht by (induction 1; eauto).
  intros [|]%Ht; done.
Qed.
