(* ===== verification/EfxIdentity.v ===== *)
(** Content addressing: what the identities computed by [Plan::effect_ids]
    ([packages/efx/ir/src/lib.rs]) say about effects.  The identity of an
    effect is a Merkle hash of its kind, its executor, its literal inputs and,
    through references, the identities of everything upstream. *)

From Stdlib Require Import Ascii.
From stdpp Require Import base gmap sets list strings pretty relations sorting.
From S2P Require Import Prelude BTree EfxIr.

(** * Specification *)

(** Two values of two plans are the same up to [R] on the effects referred to. *)
Inductive same_value (R : Effect → Effect → Prop) (p1 p2 : Plan) : Value → Value → Prop :=
| same_lit l : same_value R p1 p2 (VLiteral l) (VLiteral l)
| same_ref r1 r2 e1 e2 :
    or_field r1 = or_field r2 →
    Plan_get p1 (or_effect r1) = Some e1 →
    Plan_get p2 (or_effect r2) = Some e2 →
    R e1 e2 →
    same_value R p1 p2 (VRef r1) (VRef r2).

(** Two effects of two plans do the same thing: same kind and executor, same
    input keys, equal literals, and references to effects that do the same
    thing.  Names and metadata play no role. *)
Inductive same_content (p1 p2 : Plan) (e1 e2 : Effect) : Prop :=
| same_content_intro :
    ef_kind e1 = ef_kind e2 →
    ef_executor e1 = ef_executor e2 →
    Forall2 (λ kv1 kv2 : string * Value,
               kv1.1 = kv2.1 ∧ same_value (same_content p1 p2) p1 p2 kv1.2 kv2.2)
            (ef_inputs e1) (ef_inputs e2) →
    same_content p1 p2 e1 e2.

Section identity.
Context {DG : Digest}.

(** [id_input] when every reference resolves. *)
Definition id_input_of (ids : btree EffectId) (v : Value) : IdInput :=
  match v with
  | VLiteral lit => IdLit (content_hash lit)
  | VRef r => IdRef (from_option to_hex EmptyString (bt_get (or_effect r) ids)) (or_field r)
  end.

Definition id_document (ids : btree EffectId) (e : Effect) : IdDocument :=
  {| doc_executor := ef_executor e;
     doc_inputs := (λ kv, (kv.1, id_input_of ids kv.2)) <$> ef_inputs e;
     doc_kind := ef_kind e |}.

Definition id_of (ids : btree EffectId) (e : Effect) : EffectId :=
  mkEffectId (sha256 (json_id_document (id_document ids e))).

(** The strings [effect_ids] hashes for a plan. *)
Definition hashed (ids : btree EffectId) (p : Plan) : list string :=
  (json_id_document ∘ id_document ids <$> pl_effects p) ++
  (content_preimage <$> (pl_effects p ≫= λ e,
     omap (λ v, match v with VLiteral l => Some l | VRef _ => None end) (bt_values (ef_inputs e)))).

(** SHA-256 does not collide on the strings hashed for the two plans. *)
Definition no_collision (ids1 : btree EffectId) (p1 : Plan) (ids2 : btree EffectId) (p2 : Plan) : Prop :=
  ∀ x y, x ∈ hashed ids1 p1 → y ∈ hashed ids2 p2 → sha256 x = sha256 y → x = y.

(** * The identity equation *)

Lemma id_inputs_spec ids e :
  effect_wf e → (∀ b, b ∈ ef_refs e → is_Some (bt_get b ids)) →
  id_inputs ids e = Ok ((λ kv, (kv.1, id_input_of ids kv.2)) <$> ef_inputs e).
Proof.
  intros Hwf Hrefs. unfold id_inputs.
  assert (∀ pre post, ef_inputs e = pre ++ post →
    foldM (E:=PlanError) (λ acc kv, entry ← id_input ids kv.2; Ok (bt_insert kv.1 entry acc))
      ((λ kv, (kv.1, id_input_of ids kv.2)) <$> pre) post
    = Ok ((λ kv, (kv.1, id_input_of ids kv.2)) <$> ef_inputs e)) as Hgen; last by apply (Hgen [] _).
  intros pre post; revert pre. induction post as [|[k v] post IH]; intros pre Heq; simpl.
  { rewrite Heq. by rewrite app_nil_r. }
  assert (id_input ids v = Ok (id_input_of ids v)) as ->.
  { destruct v as [l|r]; simpl; [done|].
    destruct (Hrefs (or_effect r)) as [i Hi].
    - apply elem_of_ef_refs. exists r. split; [|done]. unfold bt_values. rewrite Heq, fmap_app. set_solver.
    - by rewrite Hi. }
  simpl. unfold effect_wf in Hwf. rewrite Heq in Hwf. apply bt_wf_app in Hwf as (_ & _ & Hlt).
  rewrite bt_insert_last.
  - rewrite <- (IH (pre ++ [(k, v)])) by (by rewrite <- app_assoc). by rewrite fmap_app.
  - intros k'. rewrite (bt_keys_map (λ _, id_input_of ids)). intros. apply Hlt; set_solver.
Qed.

Lemma effect_id_spec ids e :
  effect_wf e → (∀ b, b ∈ ef_refs e → is_Some (bt_get b ids)) →
  effect_id ids e = Ok (id_of ids e).
Proof. intros. unfold effect_id. by rewrite id_inputs_spec. Qed.

(** An identity only depends on the identities of the effects read. *)
Lemma id_of_ext ids1 ids2 e :
  (∀ b, b ∈ ef_refs e → bt_get b ids1 = bt_get b ids2) → id_of ids1 e = id_of ids2 e.
Proof.
  intros H. unfold id_of, id_document. do 3 f_equal. f_equal.
  apply list_fmap_ext. intros i [k v] Hkv. simpl. f_equal. destruct v as [l|r]; simpl; [done|].
  rewrite H; [done|]. apply elem_of_ef_refs. exists r. split; [|done].
  apply list_elem_of_fmap. exists (k, VRef r). split; [done|]. by eapply list_elem_of_lookup_2.
Qed.

(** [ids] is the table of identities of [p]. *)
Record ids_of_plan (p : Plan) (ids : btree EffectId) : Prop := {
  iop_wf : bt_wf ids;
  iop_dom : ∀ n, is_Some (bt_get n ids) ↔ n ∈ names p;
  iop_eq : ∀ e, e ∈ pl_effects p → bt_get (ef_name e) ids = Some (id_of ids e) }.

Lemma effect_ids_step pre e ids :
  NoDup (ef_name <$> pre ++ [e]) → effect_wf e →
  deps_first (pre ++ [e]) → ids_of_plan (mkPlan pre) ids →
  effect_id ids e = Ok (id_of ids e) ∧
  ids_of_plan (mkPlan (pre ++ [e])) (bt_insert (ef_name e) (id_of ids e) ids).
Proof.
  intros Hnd Hwf Hf [Hw Hd He]. unfold names in *. simpl in *.
  assert (ef_name e ∉ ef_name <$> pre) as Hne.
  { rewrite fmap_app, NoDup_app in Hnd. csimpl in *. set_solver. }
  assert (∀ e' b, e' ∈ pre ++ [e] → b ∈ ef_refs e' → b ∈ ef_name <$> pre) as Hrefs.
  { intros e' b He' Hb. apply elem_of_app in He' as [He'|He'%list_elem_of_singleton]; [|subst e'].
    - apply list_elem_of_split in He' as (l1 & l2 & ->).
      assert (b ∈ ef_name <$> l1); [|set_solver].
      eapply (Hf l1 e' (l2 ++ [e])); [|done]. by rewrite <- app_assoc.
    - by eapply (Hf pre e []). }
  split; [apply effect_id_spec; [done|]; intros b Hb; apply Hd; eapply Hrefs; [|done]; set_solver|].
  assert (∀ e', e' ∈ pre ++ [e] → id_of (bt_insert (ef_name e) (id_of ids e) ids) e' = id_of ids e') as Hid.
  { intros e' He'. apply id_of_ext. intros b Hb. apply bt_get_insert_ne. intros ->.
    by eapply Hne, Hrefs. }
  split; simpl.
  - by apply bt_wf_insert.
  - intros n. unfold names; simpl. rewrite bt_get_insert, fmap_app. csimpl. case_decide; [set_solver|].
    rewrite Hd. set_solver.
  - intros e' He'. rewrite Hid, bt_get_insert by done. case_decide as Heq.
    + apply elem_of_app in He' as [He'|He'%list_elem_of_singleton]; [|by subst].
      exfalso. apply Hne. rewrite <- Heq. by apply list_elem_of_fmap_2.
    + apply elem_of_app in He' as [He'|He'%list_elem_of_singleton]; [by apply He|by subst].
Qed.

Lemma effect_ids_ok p order :
  plan_wf p → topo_order p = Ok order →
  ∃ ids, effect_ids p = Ok ids ∧ ids_of_plan p ids.
Proof.
  intros Hwf Ho. destruct (topo_order_facts p order Hwf Ho) as (Hperm & Hf & Hnd & Hewf).
  unfold effect_ids. rewrite Ho. simpl.
  destruct (foldM_total (E:=PlanError) (λ pre ids, ids_of_plan (mkPlan pre) ids)
    (λ ids e, i ← effect_id ids e; Ok (bt_insert (ef_name e) i ids)) order []) as (ids & Hids & Hi).
  - split; [apply bt_wf_nil|set_solver|set_solver].
  - intros pre e post ids -> Hi. rewrite cons_middle, app_assoc in Hf, Hnd.
    destruct (effect_ids_step pre e ids) as [-> Hi'].
    + rewrite fmap_app, NoDup_app in Hnd. apply Hnd.
    + rewrite Forall_forall in Hewf. apply Hewf. set_solver.
    + eapply deps_first_prefix; exact Hf.
    + done.
    + eexists; split; [done|]. exact Hi'.
  - exists ids. split; [done|]. destruct Hi as [Hw Hd He]. unfold names in *; simpl in *. split.
    + done.
    + intros n. rewrite Hd. unfold names. by rewrite Hperm.
    + intros e Hin. apply He. by rewrite Hperm.
Qed.

Lemma effect_ids_facts p ids :
  plan_wf p → effect_ids p = Ok ids → ∃ order, topo_order p = Ok order ∧ ids_of_plan p ids.
Proof.
  intros Hwf Hids. pose proof Hids as Hids'. unfold effect_ids in Hids'. simplify_outcome.
  eexists. split; [done|].
  destruct (effect_ids_ok p _ Hwf Hstep) as (ids' & Hids'' & ?). congruence.
Qed.

(** Induction along the dependency graph of a valid plan. *)
Lemma plan_dep_ind p order (P : Effect → Prop) :
  plan_wf p → topo_order p = Ok order →
  (∀ e, e ∈ pl_effects p →
     (∀ e' b, b ∈ ef_refs e → Plan_get p b = Some e' → P e') → P e) →
  ∀ e, e ∈ pl_effects p → P e.
Proof.
  intros Hwf Ho Hstep. destruct (topo_order_facts p order Hwf Ho) as (Hperm & Hf & Hnd & _).
  assert (∀ pre post, order = pre ++ post → ∀ e, e ∈ pre → P e) as Hgen.
  { intros pre; induction pre as [|e pre IH] using rev_ind; intros post Heq e'; [set_solver|].
    intros [Hin|Hin%list_elem_of_singleton]%elem_of_app.
    - rewrite <- app_assoc in Heq. by eapply IH.
    - subst e'. rewrite <- app_assoc in Heq. simpl in Heq. apply Hstep.
      + rewrite <- Hperm, Heq. set_solver.
      + intros e' b Hb (He' & Hn)%Plan_get_Some.
        pose proof (Hf _ _ _ Heq b Hb) as (e2 & -> & He2)%list_elem_of_fmap.
        assert (e' = e2) as ->; [|by eapply IH].
        eapply (NoDup_fmap_inj_on ef_name (pl_effects p)); [apply Hwf|done| |done].
        rewrite <- Hperm, Heq. set_solver. }
  intros e He. eapply (Hgen order []); [by rewrite app_nil_r|]. by rewrite Hperm.
Qed.

(** The table of identities is the only solution of the identity equation. *)
Lemma ids_of_plan_unique p order ids1 ids2 :
  plan_wf p → topo_order p = Ok order →
  ids_of_plan p ids1 → ids_of_plan p ids2 → ids1 = ids2.
Proof.
  intros Hwf Ho H1 H2.
  assert (∀ e, e ∈ pl_effects p → bt_get (ef_name e) ids1 = bt_get (ef_name e) ids2) as Heq.
  { apply (plan_dep_ind p order _ Hwf Ho). intros e He IH.
    rewrite (iop_eq _ _ H1 e He), (iop_eq _ _ H2 e He). f_equal. apply id_of_ext.
    intros b Hb. pose proof (topo_order_cases p Hwf) as Hk. rewrite Ho in Hk.
    destruct (Plan_get p b) as [e'|] eqn:Hg.
    - apply Plan_get_Some in Hg as Hg'. destruct Hg' as [_ <-]. by eapply IH.
    - apply Plan_get_None in Hg. by destruct Hg; eapply Hk. }
  apply bt_ext; [apply H1|apply H2|]. intros n.
  destruct (decide (n ∈ names p)) as [(e & -> & He)%list_elem_of_fmap|Hn]; [by apply Heq|].
  rewrite <- (iop_dom _ _ H1) in Hn. apply eq_None_not_Some in Hn as Hn1. rewrite Hn1.
  symmetry. apply eq_None_not_Some. by rewrite (iop_dom _ _ H2), <- (iop_dom _ _ H1).
Qed.

(** On every plan whose graph is valid, [Plan::effect_ids] returns (the
    index [ids[&r.effect]] never fails) a table with exactly one identity per
    effect, and each identity is the SHA-256 of the document built from the
    effect's kind, executor, literal hashes and the identities the same table
    gives to the effects it reads. *)
Lemma effect_ids_total p order :
  plan_wf p → topo_order p = Ok order →
  ∃ ids, effect_ids p = Ok ids ∧ ids_of_plan p ids.
Proof. apply effect_ids_ok. Qed.


(** * Identities and content *)

Lemma content_preimage_inj l1 l2 : content_preimage l1 = content_preimage l2 → l1 = l2.
Proof.
  destruct l1 as [s1|n1|b1], l2 as [s2|n2|b2]; simpl; intros H; try discriminate H.
  - by apply String.app_inj in H as ->.
  - apply String.app_inj in H. by apply (inj pretty) in H as ->.
  - by destruct b1, b2.
Qed.

Lemma hashed_document ids p e :
  e ∈ pl_effects p → json_id_document (id_document ids e) ∈ hashed ids p.
Proof.
  intros He. unfold hashed. rewrite elem_of_app. left.
  apply list_elem_of_fmap. by exists e.
Qed.

Lemma hashed_literal ids p e k l :
  e ∈ pl_effects p → (k, VLiteral l) ∈ ef_inputs e → content_preimage l ∈ hashed ids p.
Proof.
  intros He Hkl. unfold hashed. rewrite elem_of_app. right.
  apply list_elem_of_fmap. exists l. split; [done|]. apply list_elem_of_bind.
  exists e. split; [|done]. apply list_elem_of_omap. exists (VLiteral l). split; [|done].
  apply list_elem_of_fmap. by exists (k, VLiteral l).
Qed.

Lemma input_in_refs e k r : (k, VRef r) ∈ ef_inputs e → or_effect r ∈ ef_refs e.
Proof.
  intros H. apply elem_of_ef_refs. exists r. split; [|done].
  apply list_elem_of_fmap. by exists (k, VRef r).
Qed.

(** A reference of an effect of a valid plan resolves, and the table has an
    entry for the effect it resolves to. *)
Lemma ref_resolves p order ids e b :
  plan_wf p → topo_order p = Ok order → ids_of_plan p ids →
  e ∈ pl_effects p → b ∈ ef_refs e →
  ∃ e', Plan_get p b = Some e' ∧ e' ∈ pl_effects p ∧ ef_name e' = b ∧
        bt_get b ids = Some (id_of ids e').
Proof.
  intros Hwf Ho Hi He Hb. pose proof (topo_order_cases p Hwf) as Hk. rewrite Ho in Hk.
  destruct (Plan_get p b) as [e'|] eqn:Hg.
  - apply Plan_get_Some in Hg as Hg'. destruct Hg' as [He' <-].
    exists e'. split_and!; [done..|]. by apply Hi.
  - apply Plan_get_None in Hg. by destruct Hg; eapply Hk.
Qed.

Lemma same_content_id p1 p2 order1 order2 ids1 ids2 :
  plan_wf p1 → plan_wf p2 → topo_order p1 = Ok order1 → topo_order p2 = Ok order2 →
  ids_of_plan p1 ids1 → ids_of_plan p2 ids2 →
  ∀ e1, e1 ∈ pl_effects p1 → ∀ e2, e2 ∈ pl_effects p2 →
  same_content p1 p2 e1 e2 → id_of ids1 e1 = id_of ids2 e2.
Proof.
  intros Hwf1 Hwf2 Ho1 Ho2 Hi1 Hi2.
  apply (plan_dep_ind p1 order1 (λ e1, ∀ e2, e2 ∈ pl_effects p2 →
    same_content p1 p2 e1 e2 → id_of ids1 e1 = id_of ids2 e2) Hwf1 Ho1).
  intros e1 He1 IH e2 He2 [Hk Hx Hin]. unfold id_of, id_document. rewrite Hk, Hx. do 4 f_equal.
  assert (∀ l1 l2, l1 ⊆ ef_inputs e1 → l2 ⊆ ef_inputs e2 →
    Forall2 (λ kv1 kv2 : string * Value,
      kv1.1 = kv2.1 ∧ same_value (same_content p1 p2) p1 p2 kv1.2 kv2.2) l1 l2 →
    (λ kv, (kv.1, id_input_of ids1 kv.2)) <$> l1 = (λ kv, (kv.1, id_input_of ids2 kv.2)) <$> l2)
    as Hgen; [|by apply Hgen].
  intros l1 l2 Hs1 Hs2 HF. induction HF as [|[k1 v1] [k2 v2] l1 l2 [Hkey Hv] _ IHl]; csimpl; [done|].
  f_equal; [|apply IHl; set_solver]. simpl in Hkey, Hv. subst k2. f_equal.
  assert ((k1, v1) ∈ ef_inputs e1) as Hv1 by set_solver.
  assert ((k1, v2) ∈ ef_inputs e2) as Hv2 by set_solver.
  destruct Hv as [l|r1 r2 e1' e2' Hfld Hg1 Hg2 Hsame]; simpl in *; [done|]. rewrite Hfld. f_equal.
  destruct (Plan_get_Some _ _ _ Hg1) as [He1' <-]. destruct (Plan_get_Some _ _ _ Hg2) as [He2' <-].
  rewrite (iop_eq _ _ Hi1 e1' He1'), (iop_eq _ _ Hi2 e2' He2'). simpl. f_equal.
  eapply IH; [by eapply input_in_refs|done..].
Qed.

(** * What identities do not depend on *)

Definition with_meta (m : EffectMeta) (e : Effect) : Effect :=
  {| ef_name := ef_name e; ef_kind := ef_kind e; ef_executor := ef_executor e;
     ef_inputs := ef_inputs e; ef_meta := m |}.

Section redeclared.
Context (p1 p2 : Plan) (f : Effect → EffectMeta).
Context (Hp : pl_effects p2 ≡ₚ (λ e, with_meta (f e) e) <$> pl_effects p1).

Lemma redeclared_elem e2 :
  e2 ∈ pl_effects p2 ↔ ∃ e1, e1 ∈ pl_effects p1 ∧ e2 = with_meta (f e1) e1.
Proof. rewrite Hp, list_elem_of_fmap. naive_solver. Qed.

Lemma redeclared_names : names p2 ≡ₚ names p1.
Proof. unfold names. rewrite Hp, <- list_fmap_compose. done. Qed.

Lemma redeclared_wf : plan_wf p1 → plan_wf p2.
Proof.
  intros [Hnd Hw]. split; [by rewrite redeclared_names|]. rewrite Forall_forall in Hw |- *.
  intros e2 (e1 & He1 & ->)%redeclared_elem. exact (Hw e1 He1).
Qed.

Lemma redeclared_depends a b : depends p2 a b → depends p1 a b.
Proof. intros (e2 & (e1 & He1 & ->)%redeclared_elem & Hn & Hb). by exists e1. Qed.

Lemma redeclared_tc a b : tc (depends p2) a b → tc (depends p1) a b.
Proof.
  induction 1 as [y z Hyz|y z w Hyz _ IH]; apply redeclared_depends in Hyz.
  - by apply tc_once.
  - by eapply tc_l.
Qed.

Lemma redeclared_topo order1 :
  plan_wf p1 → topo_order p1 = Ok order1 → ∃ order2, topo_order p2 = Ok order2.
Proof.
  intros Hwf1 Ho1. pose proof (topo_order_cases p1 Hwf1) as Hk. rewrite Ho1 in Hk.
  destruct (topo_order_facts p1 order1 Hwf1 Ho1) as (Hperm & Hf & _).
  pose proof (topo_order_cases p2 (redeclared_wf Hwf1)) as Hc.
  destruct (topo_order p2) as [o2|[n|a b|n]|]; [by eauto|done| | |done]; exfalso.
  - destruct Hc as [(e & He & _ & Hb)%redeclared_depends Hn]. apply Hn.
    rewrite redeclared_names. by eapply Hk.
  - destruct Hc as (_ & _ & x & _ & Hx).
    apply (deps_first_acyclic p1 order1 x Hwf1 Hperm Hf).
    by apply redeclared_tc.
Qed.

Lemma redeclared_ids ids : ids_of_plan p1 ids → ids_of_plan p2 ids.
Proof.
  intros [Hw Hd He]. split; [done| |].
  - intros n. by rewrite redeclared_names.
  - intros e2 (e1 & He1 & ->)%redeclared_elem. exact (He e1 He1).
Qed.

End redeclared.

(** The identities of a plan's effects do not depend on the order in which
    the effects are declared nor on their metadata ([idempotent],
    [rollback_hint]): a plan with the same effects in any order and any
    metadata gets the very same table of identities. *)
Lemma effect_ids_stable p1 p2 (f : Effect → EffectMeta) ids :
  plan_wf p1 →
  pl_effects p2 ≡ₚ (λ e, with_meta (f e) e) <$> pl_effects p1 →
  effect_ids p1 = Ok ids → effect_ids p2 = Ok ids.
Proof.
  intros Hwf1 Hp Hids. destruct (effect_ids_facts p1 ids Hwf1 Hids) as (o1 & Ho1 & Hi1).
  pose proof (redeclared_wf p1 p2 f Hp Hwf1) as Hwf2.
  destruct (redeclared_topo p1 p2 f Hp o1 Hwf1 Ho1) as (o2 & Ho2).
  destruct (effect_ids_ok p2 o2 Hwf2 Ho2) as (ids2 & Hids2 & Hi2).
  rewrite Hids2. f_equal. eapply (ids_of_plan_unique p2 o2); [done..|].
  by eapply (redeclared_ids p1 p2 f).
Qed.

End identity.

Section content.
Context {DG : Digest} {DL : DigestLaws}.

(** Equal identities come from equal documents, and documents determine the
    content, as long as SHA-256 does not collide. *)
Lemma id_same_content p1 p2 order1 order2 ids1 ids2 :
  plan_wf p1 → plan_wf p2 → topo_order p1 = Ok order1 → topo_order p2 = Ok order2 →
  ids_of_plan p1 ids1 → ids_of_plan p2 ids2 → no_collision ids1 p1 ids2 p2 →
  ∀ e1, e1 ∈ pl_effects p1 → ∀ e2, e2 ∈ pl_effects p2 →
  id_of ids1 e1 = id_of ids2 e2 → same_content p1 p2 e1 e2.
Proof.
  intros Hwf1 Hwf2 Ho1 Ho2 Hi1 Hi2 Hnc.
  apply (plan_dep_ind p1 order1 (λ e1, ∀ e2, e2 ∈ pl_effects p2 →
    id_of ids1 e1 = id_of ids2 e2 → same_content p1 p2 e1 e2) Hwf1 Ho1).
  intros e1 He1 IH e2 He2 Heq. unfold id_of in Heq. injection Heq as Heq.
  apply Hnc in Heq; [|by apply hashed_document..]. apply (inj json_id_document) in Heq.
  injection Heq as Hx Hin Hk. split; [done..|].
  assert (∀ l1 l2, l1 ⊆ ef_inputs e1 → l2 ⊆ ef_inputs e2 →
    (λ kv, (kv.1, id_input_of ids1 kv.2)) <$> l1 = (λ kv, (kv.1, id_input_of ids2 kv.2)) <$> l2 →
    Forall2 (λ kv1 kv2 : string * Value,
      kv1.1 = kv2.1 ∧ same_value (same_content p1 p2) p1 p2 kv1.2 kv2.2) l1 l2) as Hgen;
    [|by apply Hgen].
  intros l1. induction l1 as [|[k1 v1] l1 IHl]; intros [|[k2 v2] l2] Hs1 Hs2 Hl; try done.
  csimpl in Hl. injection Hl as Hkey Hv Hl. constructor; [|apply IHl; set_solver].
  split; [done|]; simpl. subst k2.
  assert ((k1, v1) ∈ ef_inputs e1) as Hv1 by set_solver.
  assert ((k1, v2) ∈ ef_inputs e2) as Hv2 by set_solver.
  destruct v1 as [lit1|r1], v2 as [lit2|r2]; simpl in Hv; try discriminate Hv.
  - injection Hv as Hv. apply (inj hex_encode) in Hv.
    apply Hnc in Hv; [|by eapply hashed_literal..].
    apply content_preimage_inj in Hv as ->. constructor.
  - injection Hv as Hid Hfld.
    destruct (ref_resolves p1 order1 ids1 e1 (or_effect r1)) as (e1' & Hg1 & Hin1 & _ & Hb1);
      [done..|by eapply input_in_refs|].
    destruct (ref_resolves p2 order2 ids2 e2 (or_effect r2)) as (e2' & Hg2 & Hin2 & _ & Hb2);
      [done..|by eapply input_in_refs|].
    rewrite Hb1, Hb2 in Hid. simpl in Hid. unfold to_hex in Hid. apply (inj hex_encode) in Hid.
    econstructor; [done..|]. eapply IH; [by eapply input_in_refs|done..|].
    unfold id_of in *. simpl in Hid. by rewrite Hid.
Qed.

(** C25. Content addressing: the identities two valid plans give to two effects
    agree if and only if the effects do the same thing (same kind, executor,
    input keys, literal values, and references to effects that do the same
    thing, recursively), as long as SHA-256 does not collide on the strings
    hashed for the two plans. *)
Theorem effect_id_content p1 p2 ids1 ids2 e1 e2 :
  plan_wf p1 → plan_wf p2 → effect_ids p1 = Ok ids1 → effect_ids p2 = Ok ids2 →
  no_collision ids1 p1 ids2 p2 →
  e1 ∈ pl_effects p1 → e2 ∈ pl_effects p2 →
  bt_get (ef_name e1) ids1 = bt_get (ef_name e2) ids2 ↔ same_content p1 p2 e1 e2.
Proof.
  intros Hwf1 Hwf2 Hids1 Hids2 Hnc He1 He2.
  destruct (effect_ids_facts p1 ids1 Hwf1 Hids1) as (o1 & Ho1 & Hi1).
  destruct (effect_ids_facts p2 ids2 Hwf2 Hids2) as (o2 & Ho2 & Hi2).
  rewrite (iop_eq _ _ Hi1 e1 He1), (iop_eq _ _ Hi2 e2 He2). split.
  - intros [= Heq]. eapply (id_same_content p1 p2 o1 o2); try done. unfold id_of. by rewrite Heq.
  - intros Hs. f_equal. by eapply (same_content_id p1 p2 o1 o2).
Qed.

(** [common_dep p1 p2 a b]: both plans declare the same effect named [a], and
    it reads an output of [b]. *)
Definition common_dep (p1 p2 : Plan) (a b : string) : Prop :=
  ∃ e, e ∈ pl_effects p1 ∧ e ∈ pl_effects p2 ∧ ef_name e = a ∧ b ∈ ef_refs e.

(** Invalidation propagates: when the identity of an effect differs between
    two plans, so do the identities of all its transitive dependents, even
    those whose own declaration did not change (unless SHA-256 collides). *)
Lemma upstream_change_propagates p1 p2 ids1 ids2 a b :
  plan_wf p1 → plan_wf p2 → effect_ids p1 = Ok ids1 → effect_ids p2 = Ok ids2 →
  no_collision ids1 p1 ids2 p2 →
  tc (common_dep p1 p2) a b →
  bt_get b ids1 ≠ bt_get b ids2 → bt_get a ids1 ≠ bt_get a ids2.
Proof.
  intros Hwf1 Hwf2 Hids1 Hids2 Hnc Htc Hb.
  destruct (effect_ids_facts p1 ids1 Hwf1 Hids1) as (o1 & Ho1 & Hi1).
  destruct (effect_ids_facts p2 ids2 Hwf2 Hids2) as (o2 & Ho2 & Hi2).
  assert (∀ x y, common_dep p1 p2 x y → bt_get y ids1 ≠ bt_get y ids2 →
    bt_get x ids1 ≠ bt_get x ids2) as Hone; [|induction Htc; eauto].
  intros x y (e & He1 & He2 & <- & Hy) Hne Heq. apply Hne.
  rewrite (iop_eq _ _ Hi1 e He1), (iop_eq _ _ Hi2 e He2) in Heq. injection Heq as Heq.
  apply Hnc in Heq; [|by apply hashed_document..]. apply (inj json_id_document) in Heq.
  injection Heq as Hin. apply elem_of_ef_refs in Hy as (r & Hr & <-).
  apply list_elem_of_fmap in Hr as ([k v] & Hv & Hkv). simpl in Hv. subst v.
  apply list_elem_of_lookup in Hkv as (i & Hkv).
  apply (f_equal (.!! i)) in Hin. rewrite !list_lookup_fmap, Hkv in Hin. simpl in Hin.
  injection Hin as Hid.
  apply list_elem_of_lookup_2, input_in_refs in Hkv.
  destruct (ref_resolves p1 o1 ids1 e (or_effect r)) as (e1' & _ & _ & _ & Hb1); [done..|].
  destruct (ref_resolves p2 o2 ids2 e (or_effect r)) as (e2' & _ & _ & _ & Hb2); [done..|].
  rewrite Hb1, Hb2 in *. simpl in Hid. unfold to_hex in Hid. apply (inj hex_encode) in Hid.
  unfold id_of in *. simpl in Hid. by rewrite Hid.
Qed.

End content.

(** * Concrete instances *)

(** A stand-in for the digest crates, to evaluate the model on: a self-delimiting
    rendering of documents instead of JSON, and a checksum instead of SHA-256. *)
Fixpoint text_of (s : string) (k : string) : string :=
  match s with
  | EmptyString => String "!"%char k
  | String c s => String "."%char (String c (text_of s k))
  end.

Fixpoint text_of_inputs (m : btree IdInput) (k : string) : string :=
  match m with
  | [] => String "]"%char k
  | (key, IdLit h) :: m => String "l"%char (text_of key (text_of h (text_of_inputs m k)))
  | (key, IdRef e f) :: m =>
      String "r"%char (text_of key (text_of e (text_of f (text_of_inputs m k))))
  end.

Definition text_of_document (d : IdDocument) : string :=
  text_of (doc_executor d) (text_of_inputs (doc_inputs d) (text_of (doc_kind d) EmptyString)).

Lemma text_of_inj s1 s2 k1 k2 : text_of s1 k1 = text_of s2 k2 → s1 = s2 ∧ k1 = k2.
Proof.
  revert s2. induction s1 as [|c1 s1 IH]; intros [|c2 s2]; simpl; intros [=]; [done|].
  subst. by edestruct IH as [-> ->].
Qed.

Lemma text_of_inputs_inj m1 m2 k1 k2 :
  text_of_inputs m1 k1 = text_of_inputs m2 k2 → m1 = m2 ∧ k1 = k2.
Proof.
  revert m2. induction m1 as [|[key1 [h1|e1 f1]] m1 IH]; intros [|[key2 [h2|e2 f2]] m2]; simpl;
    intros [= H]; [done|apply text_of_inj in H as [-> H]; apply text_of_inj in H as [-> H]..].
  - by edestruct IH as [-> ->].
  - apply text_of_inj in H as [-> H]. by edestruct IH as [-> ->].
Qed.

#[export] Instance text_of_document_inj : Inj (=) (=) text_of_document.
Proof.
  intros [x1 m1 k1] [x2 m2 k2]. unfold text_of_document; simpl.
  intros [-> H]%text_of_inj. apply text_of_inputs_inj in H as [-> H].
  by apply text_of_inj in H as [-> _].
Qed.

(** A polynomial checksum: enough to tell the strings of the examples apart. *)
Fixpoint checksum (acc : N) (s : string) : N :=
  match s with
  | EmptyString => acc
  | String c s => checksum ((acc * 257 + N_of_ascii c) mod 2305843009213693951)%N s
  end.

Definition plain_digest : Digest := {|
  sha256 := λ s, pretty (checksum 7 s);
  hex_encode := λ s, s;
  json_id_document := text_of_document |}.

Lemma plain_digest_laws : @DigestLaws plain_digest.
Proof.
  split; apply _.
Qed.

Section witnesses.

Let page : Effect :=
  {| ef_name := "page"; ef_kind := "html.render"; ef_executor := "html.render";
     ef_inputs := [("title", VLiteral (LStr "hi"))]; ef_meta := EffectMeta_default |}.
Let page' : Effect :=
  {| ef_name := "page"; ef_kind := "html.render"; ef_executor := "html.render";
     ef_inputs := [("title", VLiteral (LStr "ho"))]; ef_meta := EffectMeta_default |}.
Let site : Effect :=
  {| ef_name := "site"; ef_kind := "file.write"; ef_executor := "file.write";
     ef_inputs := [("content", VRef (mkOutputRef "page" "html"));
                   ("path", VLiteral (LStr "out"))]; ef_meta := EffectMeta_default |}.
Let p : Plan := mkPlan [site; page].
Let p' : Plan := mkPlan [site; page'].

Lemma demo_wf : plan_wf p ∧ plan_wf p'.
Proof.
  split; (split; [apply NoDup_ListNoDup; repeat constructor; simpl; intuition congruence|
    repeat constructor; done]).
Qed.

Lemma topo_order_correct_witness :
  topo_order p = Ok [page; site] ∧ [page; site] ≡ₚ pl_effects p ∧ deps_first [page; site].
Proof.
  assert (topo_order p = Ok [page; site]) as E by (vm_compute; reflexivity). split; [exact E|].
  pose proof (topo_order_correct p (proj1 demo_wf)) as H. rewrite E in H.
  destruct H as (_ & H1 & H2 & _). exact (conj H1 H2).
Defined.

Example effect_ids_total_demo :
  ∃ ids, @effect_ids plain_digest p = Ok ids ∧ @ids_of_plan plain_digest p ids.
Proof.
  apply (@effect_ids_total plain_digest p [page; site]); [apply demo_wf|vm_compute; reflexivity].
Defined.

Definition ids_or_empty (q : Plan) : btree EffectId :=
  match @effect_ids plain_digest q with Ok ids => ids | _ => [] end.

Lemma plain_no_collision : @no_collision plain_digest (ids_or_empty p) p (ids_or_empty p') p'.
Proof.
  assert (Forall (λ x, Forall (λ y, bool_decide (x = y) || negb (bool_decide
    (@sha256 plain_digest x = @sha256 plain_digest y))) (@hashed plain_digest (ids_or_empty p') p'))
    (@hashed plain_digest (ids_or_empty p) p)) as HF
    by (apply (bool_decide_unpack _); vm_compute; exact I).
  rewrite Forall_forall in HF. intros x y Hx Hy Heq. specialize (HF x Hx).
  rewrite Forall_forall in HF. specialize (HF y Hy). apply orb_prop_elim in HF as [HF|HF].
  - by apply bool_decide_unpack in HF.
  - by rewrite bool_decide_true in HF.
Qed.

Lemma effect_id_content_witness :
  @effect_ids plain_digest p = Ok (ids_or_empty p) ∧
  (bt_get "page" (ids_or_empty p) = bt_get "page" (ids_or_empty p') ↔
   same_content p p' page page').
Proof.
  split; [vm_compute; reflexivity|].
  apply (@effect_id_content plain_digest plain_digest_laws p p' _ _ page page');
    [apply demo_wf..|vm_compute; reflexivity|vm_compute; reflexivity|
     apply plain_no_collision|right; left|right; left].
Defined.

Example upstream_change_propagates_demo :
  bt_get "page" (ids_or_empty p) ≠ bt_get "page" (ids_or_empty p') ∧
  bt_get "site" (ids_or_empty p) ≠ bt_get "site" (ids_or_empty p').
Proof.
  assert (bt_get "page" (ids_or_empty p) ≠ bt_get "page" (ids_or_empty p')) as Hne
    by (apply (bool_decide_unpack _); vm_compute; exact I).
  split; [exact Hne|].
  apply (@upstream_change_propagates plain_digest plain_digest_laws p p' _ _ "site" "page");
    [apply demo_wf..|vm_compute; reflexivity|vm_compute; reflexivity|apply plain_no_collision| |exact Hne].
  apply tc_once. exists site. repeat split; left.
Defined.

Example effect_ids_stable_demo :
  @effect_ids plain_digest (mkPlan [page; with_meta (mkEffectMeta false None) site])
  = Ok (ids_or_empty p).
Proof.
  apply (@effect_ids_stable plain_digest p _
    (λ e, if decide (ef_name e = "site") then mkEffectMeta false None else ef_meta e));
    [apply demo_wf| |vm_compute; reflexivity].
  simpl. apply perm_swap.
Defined.

End witnesses.
