(* ===== verification/EfxEngine.v ===== *)
(** The plan/apply engine of [packages/efx/engine/src]: the journal
    ([journal.rs]), the diff of a plan against it ([diff.rs]) and the
    level-parallel execution ([apply.rs]).

    Executors are trait objects of the caller: a registry maps an executor id
    to a function from requests to results.  Wall-clock readings are supplied
    by a [Clock]. *)

From stdpp Require Import base gmap sets list strings pretty relations sorting.
From S2P Require Import Prelude BTree StateErr EfxIr EfxIdentity.

(** * Journal data *)

Abbreviation Outputs := (btree Literal).

Inductive Status := Succeeded | Failed.
#[export] Instance Status_eq_dec : EqDecision Status.
Proof. solve_decision. Defined.

Record JournalEntry := mkEntry {
  je_name : string;
  je_kind : string;
  je_outputs : Outputs;
  je_status : Status;
  je_recorded_at : Z }.

Inductive Action := AExecuted | ACached | AFailed | ASkipped.
#[export] Instance Action_eq_dec : EqDecision Action.
Proof. solve_decision. Defined.

Record RunEffect := mkRunEffect {
  re_name : string;
  re_kind : string;
  re_id : EffectId;
  re_action : Action;
  re_reason : option string;
  re_duration_ms : Z;
  re_input_signatures : btree string }.

Record RunRecord := mkRunRecord {
  rr_recorded_at : Z;
  rr_effects : list RunEffect;
  rr_edges : list Edge }.

Record JournalState := mkJournal {
  js_entries : btree JournalEntry;
  js_runs : list RunRecord }.

Inductive EngineError :=
| EPlan (source : PlanError)
| EJournalRead (path source : string)
| EJournalWrite (path source : string)
| EJournalFormat (path source : string)
| EUnknownExecutor (effect executor : string).

(** * Executors *)

Record ExecuteRequest := mkRequest {
  rq_name : string;
  rq_kind : string;
  rq_inputs : btree Literal }.

(** What a call of [Executor::execute] on its own thread ends with. *)
Inductive ExecResult :=
| ExecOk (o : Outputs)
| ExecErr (message : string)
| ExecPanicked.

Definition Executor : Type := ExecuteRequest → ExecResult.
Definition Registry : Type := gmap string Executor.

(** Clock readings of one run: how long the executor of an effect took, when
    its entry was recorded, and when the run was. *)
Record Clock := mkClock {
  ck_duration : string → Z;
  ck_entry : string → Z;
  ck_run : Z }.

(** * Diff *)

Inductive Verdict := Cached | Execute.
#[export] Instance Verdict_eq_dec : EqDecision Verdict.
Proof. solve_decision. Defined.

Record Decision := mkDecision {
  de_name : string;
  de_kind : string;
  de_id : EffectId;
  de_verdict : Verdict;
  de_reason : string;
  de_input_signatures : btree string }.

Record Orphan := mkOrphan {
  or_id : string;
  or_name : string;
  or_kind : string;
  or_recorded_at : Z }.

Record PlanReport := mkPlanReport { pr_decisions : list Decision; pr_orphans : list Orphan }.

(** [causes.join(", ")]. *)
Fixpoint join_comma (l : list string) : string :=
  match l with
  | [] => EmptyString
  | [s] => s
  | s :: l => s +:+ ", " +:+ join_comma l
  end.

(** [explain], with the loop over the new signatures as [explain_step]. *)
Definition explain_step (e : Effect) (old : btree string) (causes : list string)
    (kv : string * string) : list string :=
  match bt_get kv.1 old with
  | None => causes ++ ["input `" +:+ kv.1 +:+ "` added"]
  | Some s =>
      if decide (s = kv.2) then causes
      else
        let cause := match bt_get kv.1 (ef_inputs e) with
                     | Some (VRef r) => "upstream `" +:+ or_effect r +:+ "` changed"
                     | _ => "input `" +:+ kv.1 +:+ "` changed"
                     end in
        if decide (cause ∈ causes) then causes else causes ++ [cause]
  end.

Definition explain (e : Effect) (i : EffectId) (signatures : btree string)
    (previous : option RunEffect) : string :=
  match previous with
  | None => "new effect"
  | Some prev =>
      let causes := foldl (explain_step e (re_input_signatures prev)) [] signatures in
      let causes := foldl (λ cs k, match bt_get k signatures with
                                   | Some _ => cs
                                   | None => cs ++ ["input `" +:+ k +:+ "` removed"]
                                   end) causes (bt_keys (re_input_signatures prev)) in
      match causes with
      | [] => if decide (re_id prev = i) then "previous run did not succeed"
              else "effect definition changed"
      | _ => join_comma causes
      end
  end.

Section engine.
Context {DG : Digest}.

(** [Journal::entry] and [Journal::is_cached]. *)
Definition Journal_entry (j : JournalState) (i : EffectId) : option JournalEntry :=
  bt_get (to_hex i) (js_entries j).

Definition is_cached (j : JournalState) (i : EffectId) : bool :=
  match Journal_entry j i with
  | Some en => bool_decide (je_status en = Succeeded)
  | None => false
  end.

(** The previous run's effects by name. *)
Definition previous_effects (j : JournalState) : btree RunEffect :=
  match last (js_runs j) with
  | Some run => bt_collect ((λ r, (re_name r, r)) <$> rr_effects run)
  | None => []
  end.

Definition decide_effect (j : JournalState) (ids : btree EffectId) (e : Effect)
  : outcome EngineError Decision :=
  i ← unwrap (bt_get (ef_name e) ids);
  let sigs := input_signatures e ids in
  let vr := if is_cached j i then (Cached, "unchanged")
            else (Execute, explain e i sigs (bt_get (ef_name e) (previous_effects j))) in
  Ok {| de_name := ef_name e; de_kind := ef_kind e; de_id := i;
        de_verdict := vr.1; de_reason := vr.2; de_input_signatures := sigs |}.

Definition orphans_of (j : JournalState) (ds : list Decision) : list Orphan :=
  let current := to_hex ∘ de_id <$> ds in
  omap (λ kv : string * JournalEntry,
          if decide (kv.1 ∈ current) then None
          else Some (mkOrphan kv.1 (je_name kv.2) (je_kind kv.2) (je_recorded_at kv.2)))
       (js_entries j).

(** [diff::plan]. *)
Definition diff_plan (p : Plan) (j : JournalState) : outcome EngineError PlanReport :=
  ids ← map_err EPlan (effect_ids p);
  order ← map_err EPlan (topo_order p);
  ds ← foldM (λ acc e, d ← decide_effect j ids e; Ok (acc ++ [d])) [] order;
  Ok (mkPlanReport ds (orphans_of j ds)).

(** * Apply *)

Record Job := mkJob { jb_effect : Effect; jb_executor : Executor; jb_request : ExecuteRequest }.

Record Execution := mkExecution { ex_result : string + Outputs; ex_duration_ms : Z }.

Record JobOutcome := mkJobOutcome { jo_effect : Effect; jo_execution : Execution }.

Record RunState := mkRunState {
  rs_outputs : btree Outputs;
  rs_halted : gset string;
  rs_results : btree RunEffect }.

Definition RunState_default : RunState := mkRunState [] ∅ [].

Record RunReport := mkRunReport { rp_effects : list RunEffect; rp_orphans : list Orphan }.

(** [RunReport::succeeded]. *)
Definition RunReport_succeeded (r : RunReport) : bool :=
  forallb (λ e, match re_action e with AExecuted | ACached => true | _ => false end) (rp_effects r).

(** [RunReport::count]. *)
Definition RunReport_count (r : RunReport) (a : Action) : nat :=
  length (filter (λ e, re_action e = a) (rp_effects r)).

(** [levels]: longest-path depth of each effect, and the groups. *)
Definition effect_level (depth : btree nat) (e : Effect) : nat :=
  foldr Nat.max 0 (omap (λ v, match v with
                              | VRef r => S <$> bt_get (or_effect r) depth
                              | VLiteral _ => None
                              end) (bt_values (ef_inputs e))).

Definition levels_step (acc : btree nat * list (list Effect)) (e : Effect)
  : btree nat * list (list Effect) :=
  let level := effect_level acc.1 e in
  let groups := if decide (length acc.2 <= level)
                then acc.2 ++ replicate (level + 1 - length acc.2) [] else acc.2 in
  (bt_insert (ef_name e) level acc.1, alter (λ g, g ++ [e]) level groups).

Definition levels (order : list Effect) : list (list Effect) :=
  (foldl levels_step ([], []) order).2.

(** [first_halted_dependency]. *)
Definition first_halted_dependency (e : Effect) (halted : gset string) : option string :=
  snd <$> list_find (.∈ halted) (ef_refs e).

(** [resolve_inputs]: the first unresolvable input, in key order, is the error. *)
Definition resolve_value (outputs : btree Outputs) (v : Value) : string + Literal :=
  match v with
  | VLiteral lit => inr lit
  | VRef r =>
      match bt_get (or_effect r) outputs ≫= bt_get (or_field r) with
      | Some lit => inr lit
      | None => inl ("effect `" +:+ or_effect r +:+ "` has no output field `" +:+ or_field r +:+ "`")
      end
  end.

Fixpoint resolve_list (outputs : btree Outputs) (l : list (string * Value))
  : string + list (string * Literal) :=
  match l with
  | [] => inr []
  | (k, v) :: l => match resolve_value outputs v with
                   | inl msg => inl msg
                   | inr lit => match resolve_list outputs l with
                                | inl msg => inl msg
                                | inr r => inr ((k, lit) :: r)
                                end
                   end
  end.

Definition resolve_inputs (e : Effect) (outputs : btree Outputs) : string + btree Literal :=
  match resolve_list outputs (ef_inputs e) with
  | inl msg => inl msg
  | inr l => inr (bt_collect l)
  end.

Definition set_action (a : Action) (r : RunEffect) : RunEffect :=
  mkRunEffect (re_name r) (re_kind r) (re_id r) a (re_reason r) (re_duration_ms r) (re_input_signatures r).
Definition set_reason (s : string) (r : RunEffect) : RunEffect :=
  mkRunEffect (re_name r) (re_kind r) (re_id r) (re_action r) (Some s) (re_duration_ms r) (re_input_signatures r).
Definition set_duration (z : Z) (r : RunEffect) : RunEffect :=
  mkRunEffect (re_name r) (re_kind r) (re_id r) (re_action r) (re_reason r) z (re_input_signatures r).

Definition put_result (n : string) (r : RunEffect) (st : RunState) : RunState :=
  mkRunState (rs_outputs st) (rs_halted st) (bt_insert n r (rs_results st)).
Definition put_outputs (n : string) (o : Outputs) (st : RunState) : RunState :=
  mkRunState (bt_insert n o (rs_outputs st)) (rs_halted st) (rs_results st).
Definition put_halted (n : string) (st : RunState) : RunState :=
  mkRunState (rs_outputs st) ({[n]} ∪ rs_halted st) (rs_results st).

(** The record an effect starts with. *)
Definition initial_record (e : Effect) (d : Decision) : RunEffect :=
  mkRunEffect (ef_name e) (ef_kind e) (de_id d) ASkipped None 0 (de_input_signatures d).

(** The body of the loop of [stage_level]. *)
Definition stage_effect (decisions : btree Decision) (j : JournalState) (reg : Registry)
    (acc : list Job * RunState) (e : Effect) : outcome EngineError (list Job * RunState) :=
  let '(jobs, st) := acc in
  d ← unwrap (bt_get (ef_name e) decisions);
  let record := initial_record e d in
  match first_halted_dependency e (rs_halted st) with
  | Some blocker =>
      let record := set_reason ("dependency `" +:+ blocker +:+ "` did not succeed") record in
      Ok (jobs, put_result (ef_name e) record (put_halted (ef_name e) st))
  | None =>
      if decide (de_verdict d = Cached) then
        en ← unwrap (Journal_entry j (de_id d));
        Ok (jobs, put_result (ef_name e) (set_action ACached record)
                    (put_outputs (ef_name e) (je_outputs en) st))
      else
        let record := set_reason (de_reason d) record in
        match resolve_inputs e (rs_outputs st) with
        | inr inputs =>
            x ← unwrap (reg !! ef_executor e);
            Ok (jobs ++ [mkJob e x (mkRequest (ef_name e) (ef_kind e) inputs)],
                put_result (ef_name e) record st)
        | inl message =>
            Ok (jobs, put_result (ef_name e) (set_reason message (set_action AFailed record))
                        (put_halted (ef_name e) st))
        end
  end.

Definition stage_level (effects : list Effect) (decisions : btree Decision) (j : JournalState)
    (reg : Registry) (st : RunState) : outcome EngineError (list Job * RunState) :=
  foldM (stage_effect decisions j reg) ([], st) effects.

(** [run_level]: the jobs run on their own threads; the outcomes are collected
    in the jobs' order, whatever order they finish in. *)
Definition run_job (ck : Clock) (jb : Job) : JobOutcome :=
  mkJobOutcome (jb_effect jb)
    match jb_executor jb (jb_request jb) with
    | ExecOk o => mkExecution (inr o) (ck_duration ck (ef_name (jb_effect jb)))
    | ExecErr m => mkExecution (inl m) (ck_duration ck (ef_name (jb_effect jb)))
    | ExecPanicked => mkExecution (inl "executor panicked") 0
    end.

Definition run_level (ck : Clock) (jobs : list Job) : list JobOutcome := run_job ck <$> jobs.

Definition put_entry (k : string) (en : JournalEntry) (j : JournalState) : JournalState :=
  mkJournal (bt_insert k en (js_entries j)) (js_runs j).

(** The body of the loop of [settle_level], which changes the journal. *)
Definition settle_outcome (ck : Clock) (st : RunState) (oc : JobOutcome) : SM JournalState EngineError RunState :=
  let name := ef_name (jo_effect oc) in
  record ← lift (unwrap (bt_get name (rs_results st)));
  let record := set_duration (ex_duration_ms (jo_execution oc)) record in
  match ex_result (jo_execution oc) with
  | inr produced =>
      let record := set_action AExecuted record in
      _ ← modify (put_entry (to_hex (re_id record))
                    (mkEntry name (ef_kind (jo_effect oc)) produced Succeeded (ck_entry ck name)));
      mret (put_outputs name produced (put_result name record st))
  | inl err =>
      let record := set_action AFailed (set_reason err record) in
      _ ← modify (put_entry (to_hex (re_id record))
                    (mkEntry name (ef_kind (jo_effect oc)) [] Failed (ck_entry ck name)));
      mret (put_result name record (put_halted name st))
  end.

Definition settle_level (ck : Clock) (outcomes : list JobOutcome) (st : RunState) : SM JournalState EngineError RunState :=
  foldS (settle_outcome ck) st outcomes.

(** One iteration of the loop over the levels in [apply]. *)
Definition run_one_level (decisions : btree Decision) (reg : Registry) (ck : Clock)
    (st : RunState) (effects : list Effect) : SM JournalState EngineError RunState :=
  journal ← get_state;
  '(jobs, st) ← lift (stage_level effects decisions journal reg st);
  settle_level ck (run_level ck jobs) st.

(** The check that every effect to execute has an executor. *)
Definition check_executor (decisions : btree Decision) (reg : Registry) (e : Effect)
  : outcome EngineError () :=
  d ← unwrap (bt_get (ef_name e) decisions);
  match de_verdict d, reg !! ef_executor e with
  | Execute, None => Err (EUnknownExecutor (ef_name e) (ef_executor e))
  | _, _ => Ok ()
  end.

(** Taking the records out of the run state in topological order. *)
Definition take_record (acc : list RunEffect * btree RunEffect) (e : Effect)
  : outcome EngineError (list RunEffect * btree RunEffect) :=
  r ← unwrap (bt_get (ef_name e) acc.2);
  Ok (acc.1 ++ [r], bt_remove (ef_name e) acc.2).

(** [apply] up to the final save. *)
Definition apply_unsaved (p : Plan) (reg : Registry) (ck : Clock) : SM JournalState EngineError RunReport :=
  journal ← get_state;
  report ← lift (diff_plan p journal);
  let decisions := bt_collect ((λ d, (de_name d, d)) <$> pr_decisions report) in
  order ← lift (map_err EPlan (topo_order p));
  _ ← lift (foldM (λ _ e, check_executor decisions reg e) () order);
  st ← foldS (run_one_level decisions reg ck) RunState_default (levels order);
  '(effects, _) ← lift (foldM take_record ([], rs_results st) order);
  _ ← modify (λ j, mkJournal (js_entries j) (js_runs j ++ [mkRunRecord (ck_run ck) effects (edges p)]));
  mret (mkRunReport effects (pr_orphans report)).

(** [apply], on the journal in memory.  [save] is the outcome of
    [Journal::save]: [None], or the I/O error. *)
Definition apply (p : Plan) (reg : Registry) (ck : Clock) (path : string) (save : JournalState → option string)
  : SM JournalState EngineError RunReport :=
  report ← apply_unsaved p reg ck;
  journal ← get_state;
  _ ← lift (match save journal with None => Ok () | Some err => Err (EJournalWrite path err) end);
  mret report.

(** The report of a run with the journal to be saved. *)
Definition apply_run (p : Plan) (j : JournalState) (reg : Registry) (ck : Clock)
  : outcome EngineError (RunReport * JournalState) :=
  match apply_unsaved p reg ck j with
  | (Ok report, j') => Ok (report, j')
  | (Err e, _) => Err e
  | (Panic, _) => Panic
  end.

End engine.
