(* ===== verification/EfxApply.v ===== *)
(** Correctness of the plan/apply engine ([packages/efx/engine/src]): the diff
    decides every effect by the memoization test, and the level-parallel run
    gives every effect exactly the result that running the effects one by one
    in dependency order would give. *)

From stdpp Require Import base gmap sets list strings pretty relations sorting.
From S2P Require Import Prelude BTree StateErr EfxIr EfxIdentity EfxEngine.

#[local] Arguments stage_effect : simpl never.
#[local] Arguments settle_outcome : simpl never.
#[local] Arguments run_job : simpl never.
#[local] Arguments run_one_level : simpl never.
#[local] Arguments take_record : simpl never.

Section engine_facts.
Context {DG : Digest}.

(** * Diff *)

(** The decision for an effect, given the table of identities. *)
Definition decision_of (j : JournalState) (ids : btree EffectId) (e : Effect) : Decision :=
  let i := id_of ids e in
  let sigs := input_signatures e ids in
  {| de_name := ef_name e; de_kind := ef_kind e; de_id := i;
     de_verdict := if is_cached j i then Cached else Execute;
     de_reason := if is_cached j i then "unchanged"
                  else explain e i sigs (bt_get (ef_name e) (previous_effects j));
     de_input_signatures := sigs |}.

Lemma decide_effect_spec p j ids e :
  ids_of_plan p ids → e ∈ pl_effects p → decide_effect j ids e = Ok (decision_of j ids e).
Proof.
  intros Hi He. unfold decide_effect. rewrite (iop_eq _ _ Hi e He). simpl.
  unfold decision_of. by destruct (is_cached j (id_of ids e)).
Qed.

Lemma diff_plan_ok p j order :
  plan_wf p → topo_order p = Ok order →
  ∃ ids, effect_ids p = Ok ids ∧ ids_of_plan p ids ∧
    diff_plan p j = Ok (mkPlanReport (decision_of j ids <$> order)
                          (orphans_of j (decision_of j ids <$> order))).
Proof.
  intros Hwf Ho. destruct (effect_ids_ok p order Hwf Ho) as (ids & Hids & Hi).
  exists ids. split_and!; [done..|]. unfold diff_plan. rewrite Hids, Ho. simpl.
  rewrite (foldM_collect _ (decision_of j ids)); [done|].
  intros e He. eapply decide_effect_spec; [done|].
  destruct (topo_order_facts p order Hwf Ho) as (Hp & _). by rewrite <- Hp.
Qed.

Lemma diff_plan_err p j err :
  topo_order p = Err err → diff_plan p j = Err (EPlan err).
Proof. intros Ho. unfold diff_plan, effect_ids. by rewrite Ho. Qed.

(** Looking an effect's decision up by name. *)
Lemma decisions_get j ids order e :
  NoDup (ef_name <$> order) → e ∈ order →
  bt_get (ef_name e) (bt_collect ((λ d, (de_name d, d)) <$> (decision_of j ids <$> order)))
  = Some (decision_of j ids e).
Proof.
  intros Hnd He. apply bt_get_collect_NoDup.
  - rewrite <- !list_fmap_compose. exact Hnd.
  - rewrite <- list_fmap_compose. apply list_elem_of_fmap. by exists e.
Qed.

(** * Levels *)

(** [groups] lists the effects of [pre], each after the groups it reads. *)
Definition levelled (pre : list Effect) (acc : btree nat * list (list Effect)) : Prop :=
  concat acc.2 ≡ₚ pre ∧
  (∀ n, is_Some (bt_get n acc.1) ↔ n ∈ ef_name <$> pre) ∧
  (∀ k g e, acc.2 !! k = Some g → e ∈ g →
     bt_get (ef_name e) acc.1 = Some k ∧
     ∀ b, b ∈ ef_refs e → ∃ k', bt_get b acc.1 = Some k' ∧ k' < k).

Lemma foldr_max_ge (l : list nat) x : x ∈ l → x ≤ foldr Nat.max 0 l.
Proof. induction l as [|y l IH]; simpl; [set_solver|]. intros [->|?%IH]%elem_of_cons; lia. Qed.

Lemma effect_level_above depth e b k :
  b ∈ ef_refs e → bt_get b depth = Some k → k < effect_level depth e.
Proof.
  intros (r & Hr & <-)%elem_of_ef_refs Hk. unfold effect_level.
  apply Nat.lt_le_trans with (S k); [lia|]. apply foldr_max_ge, list_elem_of_omap.
  exists (VRef r). split; [done|]. simpl. by rewrite Hk.
Qed.

Lemma levels_step_levelled pre e acc :
  NoDup (ef_name <$> pre ++ [e]) → (∀ b, b ∈ ef_refs e → b ∈ ef_name <$> pre) →
  levelled pre acc → levelled (pre ++ [e]) (levels_step acc e).
Proof.
  destruct acc as [depth groups]. intros Hnd Hrefs (Hc & Hd & Hg). unfold levels_step; simpl in *.
  assert (ef_name e ∉ ef_name <$> pre) as Hne
    by (rewrite fmap_app, NoDup_app in Hnd; csimpl in *; set_solver).
  set (level := effect_level depth e).
  set (groups' := if decide (length groups ≤ level)
                  then groups ++ replicate (level + 1 - length groups) [] else groups).
  assert (level < length groups') as Hlt.
  { subst groups'. case_decide; [rewrite length_app, length_replicate|]; lia. }
  assert (concat groups' = concat groups) as Hcc.
  { subst groups'. case_decide; [|done]. by rewrite concat_app, concat_replicate_nil, app_nil_r. }
  assert (∀ k g e', groups' !! k = Some g → e' ∈ g → groups !! k = Some g) as Hgg.
  { intros k g e' Hk He'. subst groups'. case_decide; [|done].
    apply lookup_app_Some in Hk as [?|[_ Hk]]; [done|].
    apply lookup_replicate in Hk as [-> _]. set_solver. }
  split_and!; simpl.
  - rewrite concat_alter_Permutation, Hcc, Hc by done. done.
  - intros n. rewrite bt_get_insert, fmap_app. csimpl. case_decide; [set_solver|].
    rewrite Hd. set_solver.
  - assert (∀ b, b ∈ ef_name <$> pre → bt_get b (bt_insert (ef_name e) level depth) = bt_get b depth)
      as Hold by (intros b Hb; apply bt_get_insert_ne; intros ->; done).
    intros k g e' Hk He'.
    destruct (decide (k = level)) as [->|Hkl].
    + rewrite list_lookup_alter_eq in Hk. apply fmap_Some in Hk as (g0 & Hg0 & ->).
      apply elem_of_app in He' as [He'|He'%list_elem_of_singleton].
      * destruct (Hg level g0 e') as [Hn Hb]; [by eapply Hgg|done|]. split.
        { rewrite Hold; [done|]. apply Hd. by rewrite Hn. }
        intros b (k' & Hk' & ?)%Hb. exists k'. rewrite Hold; [done|]. apply Hd. by rewrite Hk'.
      * subst e'. split; [apply bt_get_insert_eq|]. intros b Hb.
        destruct (proj2 (Hd b) (Hrefs b Hb)) as [k' Hk']. exists k'.
        rewrite Hold by auto. split; [done|]. by eapply effect_level_above.
    + rewrite list_lookup_alter_ne in Hk by done.
      destruct (Hg k g e') as [Hn Hb]; [by eapply Hgg|done|]. split.
      { rewrite Hold; [done|]. apply Hd. by rewrite Hn. }
      intros b (k' & Hk' & ?)%Hb. exists k'. rewrite Hold; [done|]. apply Hd. by rewrite Hk'.
Qed.

Lemma levels_levelled order :
  NoDup (ef_name <$> order) → deps_first order →
  levelled order (foldl levels_step ([], []) order).
Proof.
  intros Hnd Hf. apply (foldl_inv levelled).
  - split_and!; simpl; [done|set_solver|]. intros k g e Hk. by rewrite lookup_nil in Hk.
  - intros pre e post acc -> Hl. rewrite cons_middle, app_assoc in Hnd.
    apply levels_step_levelled; [|by eapply Hf|done].
    rewrite fmap_app, NoDup_app in Hnd. apply Hnd.
Qed.

(** Every effect of a group only reads effects of earlier groups. *)
Lemma levels_deps order pre g post e b :
  NoDup (ef_name <$> order) → deps_first order →
  levels order = pre ++ g :: post → e ∈ g → b ∈ ef_refs e → b ∈ ef_name <$> concat pre.
Proof.
  intros Hnd Hf Hl He Hb. destruct (levels_levelled order Hnd Hf) as (Hc & Hd & Hg).
  fold (levels order) in *. unfold levels in *. rewrite Hl in *.
  destruct (Hg (length pre) g e) as [_ Hbs]; [by rewrite list_lookup_middle|done|].
  destruct (Hbs b Hb) as (k' & Hk' & Hlt).
  assert (b ∈ ef_name <$> order) as Hbo by (apply Hd; by rewrite Hk').
  rewrite <- Hc in Hbo. apply list_elem_of_fmap in Hbo as (e' & -> & He').
  apply elem_of_concat in He' as (g' & Hg' & He').
  apply list_elem_of_lookup in Hg' as (k2 & Hk2).
  destruct (Hg k2 g' e' Hk2 He') as [Hn _]. rewrite Hn in Hk'. simplify_eq.
  rewrite lookup_app_l in Hk2 by done. apply list_elem_of_fmap_2.
  apply elem_of_concat. exists g'. split; [by eapply list_elem_of_lookup_2|done].
Qed.


(** * The result of one effect

    What a run does with one effect, as a function of the final outputs and
    failures of the effects it reads. *)
Record effect_result := mkResult {
  er_record : RunEffect;
  er_outputs : option Outputs;
  er_halted : bool;
  er_entry : option JournalEntry }.

Definition execution_result (ck : Clock) (e : Effect) (d : Decision) (x : Executor)
    (inputs : btree Literal) : effect_result :=
  let record := set_reason (de_reason d) (initial_record e d) in
  let n := ef_name e in
  match x (mkRequest n (ef_kind e) inputs) with
  | ExecOk o =>
      mkResult (set_action AExecuted (set_duration (ck_duration ck n) record)) (Some o) false
        (Some (mkEntry n (ef_kind e) o Succeeded (ck_entry ck n)))
  | ExecErr m =>
      mkResult (set_action AFailed (set_reason m (set_duration (ck_duration ck n) record))) None true
        (Some (mkEntry n (ef_kind e) [] Failed (ck_entry ck n)))
  | ExecPanicked =>
      mkResult (set_action AFailed (set_reason "executor panicked" (set_duration 0 record))) None true
        (Some (mkEntry n (ef_kind e) [] Failed (ck_entry ck n)))
  end.

Section run.
Context (decisions : btree Decision) (j0 : JournalState) (reg : Registry) (ck : Clock).

(** [None] where the code would panic. *)
Definition expected (st : RunState) (e : Effect) : option effect_result :=
  d ← bt_get (ef_name e) decisions;
  match first_halted_dependency e (rs_halted st) with
  | Some b =>
      Some (mkResult (set_reason ("dependency `" +:+ b +:+ "` did not succeed") (initial_record e d))
              None true None)
  | None =>
      if decide (de_verdict d = Cached) then
        en ← Journal_entry j0 (de_id d);
        Some (mkResult (set_action ACached (initial_record e d)) (Some (je_outputs en)) false None)
      else
        match resolve_inputs e (rs_outputs st) with
        | inl msg =>
            Some (mkResult (set_reason msg (set_action AFailed
                    (set_reason (de_reason d) (initial_record e d)))) None true None)
        | inr inputs => x ← reg !! ef_executor e; Some (execution_result ck e d x inputs)
        end
  end.

(** The run state holds exactly the result [r] for the effect named [n]. *)
Definition holds (st : RunState) (n : string) (r : effect_result) : Prop :=
  bt_get n (rs_results st) = Some (er_record r) ∧
  bt_get n (rs_outputs st) = er_outputs r ∧
  (n ∈ rs_halted st ↔ er_halted r = true).

Definition settled (st : RunState) (e : Effect) : Prop :=
  ∃ r, expected st e = Some r ∧ holds st (ef_name e) r.

(** The journal write an effect's result causes. *)
Definition write_of (st : RunState) (e : Effect) : option (string * JournalEntry) :=
  r ← expected st e; en ← er_entry r; Some (to_hex (re_id (er_record r)), en).

Definition same_at (st st' : RunState) (n : string) : Prop :=
  bt_get n (rs_results st) = bt_get n (rs_results st') ∧
  bt_get n (rs_outputs st) = bt_get n (rs_outputs st') ∧
  (n ∈ rs_halted st ↔ n ∈ rs_halted st').

Lemma first_halted_ext e h1 h2 :
  (∀ b, b ∈ ef_refs e → b ∈ h1 ↔ b ∈ h2) →
  first_halted_dependency e h1 = first_halted_dependency e h2.
Proof.
  unfold first_halted_dependency. intros H. f_equal. induction (ef_refs e) as [|b l IH]; [done|].
  simpl. specialize (H b) as Hb. rewrite (decide_ext _ _ _ _ (Hb (list_elem_of_here _ _))).
  case_decide; [done|]. rewrite IH; [done|]. set_solver.
Qed.

Lemma resolve_inputs_ext e o1 o2 :
  (∀ b, b ∈ ef_refs e → bt_get b o1 = bt_get b o2) → resolve_inputs e o1 = resolve_inputs e o2.
Proof.
  intros H. unfold resolve_inputs.
  assert (∀ l, l ⊆ ef_inputs e → resolve_list o1 l = resolve_list o2 l) as ->; [|done..].
  induction l as [|[k v] l IH]; simpl; [done|]. intros Hl.
  assert (resolve_value o1 v = resolve_value o2 v) as ->.
  { destruct v as [lit|r]; simpl; [done|]. rewrite H; [done|]. eapply input_in_refs, Hl. left. }
  by rewrite IH by set_solver.
Qed.

Lemma expected_ext st st' e :
  (∀ b, b ∈ ef_refs e → same_at st st' b) → expected st e = expected st' e.
Proof.
  intros H. unfold expected. destruct (bt_get _ decisions) as [d|]; simpl; [|done].
  rewrite (first_halted_ext e (rs_halted st) (rs_halted st')) by (intros; by apply H).
  rewrite (resolve_inputs_ext e (rs_outputs st) (rs_outputs st')) by (intros; by apply H).
  done.
Qed.

(** The job staged for an effect, if its result comes from an executor. *)
Definition job_of (st : RunState) (e : Effect) : option Job :=
  r ← expected st e; _ ← er_entry r;
  x ← reg !! ef_executor e;
  match resolve_inputs e (rs_outputs st) with
  | inr inputs => Some (mkJob e x (mkRequest (ef_name e) (ef_kind e) inputs))
  | inl _ => None
  end.

Definition placeholder (e : Effect) (r : RunEffect) : Prop :=
  ∃ d, bt_get (ef_name e) decisions = Some d ∧
       r = set_reason (de_reason d) (initial_record e d).

(** What staging leaves behind for an effect with result [r]. *)
Definition staged (st : RunState) (e : Effect) (r : effect_result) : Prop :=
  match er_entry r with
  | None => holds st (ef_name e) r
  | Some _ => (∃ rec, bt_get (ef_name e) (rs_results st) = Some rec ∧ placeholder e rec) ∧
              bt_get (ef_name e) (rs_outputs st) = None ∧ ef_name e ∉ rs_halted st
  end.

(** Staging one effect at a state where its name is untouched. *)
Lemma stage_effect_spec j jobs st e r :
  expected st e = Some r →
  (∀ d, bt_get (ef_name e) decisions = Some d → de_verdict d = Cached →
     Journal_entry j (de_id d) = Journal_entry j0 (de_id d)) →
  bt_get (ef_name e) (rs_outputs st) = None → ef_name e ∉ rs_halted st →
  ∃ st', stage_effect decisions j reg (jobs, st) e = Ok (jobs ++ option_list (job_of st e), st') ∧
    staged st' e r ∧ (∀ n, n ≠ ef_name e → same_at st' st n).
Proof.
  intros Hr Hj Ho Hh. unfold job_of. rewrite Hr. simpl. unfold expected in Hr.
  destruct (bt_get (ef_name e) decisions) as [d|] eqn:Hd; [|done]. unfold stage_effect. simpl in *. rewrite ?Hd. simpl.
  destruct (first_halted_dependency e (rs_halted st)) as [b|] eqn:Hb.
  { simplify_eq/=. rewrite app_nil_r. eexists. split; [done|]. split.
    - split_and!; simpl; [by rewrite bt_get_insert_eq|done|set_solver].
    - intros n Hn. split_and!; simpl; [by rewrite bt_get_insert_ne|done|set_solver]. }
  case_decide as Hc.
  { rewrite (Hj d) by done. destruct (Journal_entry j0 (de_id d)) as [en|]; simplify_eq/=.
    rewrite app_nil_r. eexists. split; [done|]. split.
    - split_and!; simpl; [by rewrite bt_get_insert_eq..|done].
    - intros n Hn. split_and!; simpl; [by rewrite bt_get_insert_ne..|done]. }
  destruct (resolve_inputs e (rs_outputs st)) as [msg|inputs] eqn:Hres; simplify_eq/=.
  { rewrite app_nil_r. eexists. split; [done|]. split.
    - split_and!; simpl; [by rewrite bt_get_insert_eq|done|set_solver].
    - intros n Hn. split_and!; simpl; [by rewrite bt_get_insert_ne|done|set_solver]. }
  destruct (reg !! ef_executor e) as [x|] eqn:Hx; simplify_eq/=.
  eexists. split; [|split].
  - unfold execution_result. by destruct (x _).
  - unfold staged. assert (∃ en, er_entry (execution_result ck e d x inputs) = Some en) as [en ->]
      by (unfold execution_result; destruct (x _); eauto).
    simpl. rewrite bt_get_insert_eq. split_and!; [|done..]. eexists. split; [done|]. by exists d.
  - intros n Hn. split_and!; simpl; [by rewrite bt_get_insert_ne|done..].
Qed.

Lemma same_at_trans st1 st2 st3 n : same_at st1 st2 n → same_at st2 st3 n → same_at st1 st3 n.
Proof. intros (H1 & H2 & H3) (H4 & H5 & H6). split_and!; [congruence..|tauto]. Qed.

Lemma same_at_sym st1 st2 n : same_at st1 st2 n → same_at st2 st1 n.
Proof. intros (H1 & H2 & H3). split_and!; [congruence..|tauto]. Qed.

Lemma holds_same_at st st' n r : same_at st st' n → holds st' n r → holds st n r.
Proof. intros (H1 & H2 & H3) (H4 & H5 & H6). split_and!; [congruence..|tauto]. Qed.

Lemma staged_same_at st st' e r : same_at st st' (ef_name e) → staged st' e r → staged st e r.
Proof.
  intros Hs. unfold staged. destruct (er_entry r); [|by apply holds_same_at].
  destruct Hs as (-> & -> & ->). done.
Qed.

(** The cached entries the run reads are still those of the original journal. *)
Definition cache_kept (j : JournalState) (l : list Effect) : Prop :=
  ∀ e d, e ∈ l → bt_get (ef_name e) decisions = Some d → de_verdict d = Cached →
    Journal_entry j (de_id d) = Journal_entry j0 (de_id d).

Lemma job_of_ext st st' e :
  (∀ b, b ∈ ef_refs e → same_at st st' b) → job_of st e = job_of st' e.
Proof.
  intros H. unfold job_of. rewrite (expected_ext st st' e H).
  by rewrite (resolve_inputs_ext e (rs_outputs st) (rs_outputs st')) by (intros; by apply H).
Qed.

(** Staging a group whose members only read names outside the group. *)
Lemma stage_level_spec j l : ∀ jobs st st0,
  NoDup (ef_name <$> l) → cache_kept j l →
  (∀ e b, e ∈ l → b ∈ ef_refs e → same_at st st0 b) →
  (∀ e b, e ∈ l → b ∈ ef_refs e → b ∉ ef_name <$> l) →
  (∀ e, e ∈ l → is_Some (expected st0 e)) →
  (∀ e, e ∈ l → bt_get (ef_name e) (rs_outputs st) = None ∧ ef_name e ∉ rs_halted st) →
  ∃ st', foldM (stage_effect decisions j reg) (jobs, st) l = Ok (jobs ++ omap (job_of st0) l, st') ∧
    (∀ n, n ∉ ef_name <$> l → same_at st' st n) ∧
    (∀ e, e ∈ l → ∃ r, expected st0 e = Some r ∧ staged st' e r).
Proof.
  induction l as [|e l IH]; intros jobs st st0 Hnd Hck Hag Hout Hex Hfr; csimpl.
  { rewrite app_nil_r. exists st. split_and!; [done|by intros n _|set_solver]. }
  csimpl in *. apply NoDup_cons in Hnd as [Hne Hnd].
  destruct (Hex e) as [r Hr]; [left|].
  destruct (stage_effect_spec j jobs st e r) as (st1 & Hst & Hsg & Hsm).
  { rewrite (expected_ext st st0) by (intros; eapply Hag; [left|done]). done. }
  { intros d. apply Hck. left. }
  { apply Hfr; left. }
  { apply Hfr; left. }
  rewrite Hst. rewrite (job_of_ext st st0) by (intros; eapply Hag; [left|done]).
  destruct (IH (jobs ++ option_list (job_of st0 e)) st1 st0) as (st' & Hf & Hsm' & Hsg'); [done|..].
  { intros e' d He'. apply Hck. by right. }
  { intros e' b He' Hb. eapply same_at_trans; [|eapply Hag; [by right|done]].
    apply Hsm. intros ->. eapply Hout; [by right|done|]. left. }
  { intros e' b He' Hb ?. eapply Hout; [by right|done|]. by right. }
  { intros e' He'. apply Hex. by right. }
  { intros e' He'. assert (ef_name e' ≠ ef_name e) as Hn.
    { intros Heq. apply Hne. rewrite <- Heq. by apply list_elem_of_fmap_2. }
    destruct (Hsm _ Hn) as (_ & -> & ->). apply Hfr. by right. }
  exists st'. split_and!.
  - rewrite Hf. f_equal. f_equal. destruct (job_of st0 e); simpl; by rewrite <- app_assoc.
  - intros n Hn. apply not_elem_of_cons in Hn as [Hn1 Hn2].
    eapply same_at_trans; [by apply Hsm'|by apply Hsm].
  - intros e' [->|He']%elem_of_cons; [|by apply Hsg'].
    exists r. split; [done|]. eapply staged_same_at; [by apply Hsm'|done].
Qed.

(** Settling the outcome of the job of an effect with result [r]. *)
Lemma settle_outcome_spec j st st0 e r jb :
  expected st0 e = Some r → job_of st0 e = Some jb → staged st e r →
  ∃ st' kv, settle_outcome ck st (run_job ck jb) j = (Ok st', put_entry kv.1 kv.2 j) ∧
    write_of st0 e = Some kv ∧
    holds st' (ef_name e) r ∧ (∀ n, n ≠ ef_name e → same_at st' st n).
Proof.
  intros Hr Hjb Hsg. unfold job_of in Hjb. unfold write_of. rewrite Hr in *. simpl in *.
  unfold staged in Hsg. unfold expected in Hr.
  destruct (er_entry r) as [en|] eqn:Hen; simpl in *; [|done].
  destruct Hsg as ((rec & Hrec & d & Hd & ->) & Ho & Hh). rewrite Hd in Hr. simpl in Hr.
  destruct (first_halted_dependency _ _); [simplify_eq/=|].
  case_decide; [destruct (Journal_entry j0 (de_id d)); simplify_eq/=|].
  destruct (reg !! ef_executor e) as [x|] eqn:Hx; simpl in *; [|done].
  destruct (resolve_inputs e (rs_outputs st0)) as [msg|inputs]; simplify_eq/=.
  unfold settle_outcome, run_job, execution_result, mbind, sm_bind, lift, modify, mret, sm_ret in *. simpl. rewrite Hrec. simpl.
  destruct (x (mkRequest (ef_name e) (ef_kind e) inputs)) as [o|m|]; simpl in *; simplify_eq/=;
    (eexists _, (_, _); split_and!; [done|done| |]; simpl).
  all: try (intros n Hn; split_and!; simpl; rewrite ?bt_get_insert_ne by done; set_solver).
  all: split_and!; simpl; rewrite ?bt_get_insert_eq; [done|done|set_solver].
Qed.

Lemma job_of_None st e r :
  expected st e = Some r → job_of st e = None → er_entry r = None.
Proof.
  intros Hr Hjb. unfold job_of in Hjb. rewrite Hr in Hjb. simpl in Hjb.
  destruct (er_entry r) as [en|] eqn:Hen; [|done]. simpl in Hjb. exfalso. unfold expected in Hr.
  destruct (bt_get _ decisions) as [d|]; simpl in Hr; [|done].
  destruct (first_halted_dependency _ _); [by simplify_eq/=|].
  case_decide; [by destruct (Journal_entry j0 (de_id d)); simplify_eq/=|].
  destruct (resolve_inputs e (rs_outputs st)); [by simplify_eq/=|].
  by destruct (reg !! ef_executor e).
Qed.

Lemma settle_level_spec st0 l : ∀ j st,
  NoDup (ef_name <$> l) →
  (∀ e, e ∈ l → ∃ r, expected st0 e = Some r ∧ staged st e r) →
  ∃ st', foldS (settle_outcome ck) st (run_job ck <$> omap (job_of st0) l) j
      = (Ok st', mkJournal (bt_extend (js_entries j) (omap (write_of st0) l)) (js_runs j)) ∧
    (∀ n, n ∉ ef_name <$> l → same_at st' st n) ∧
    (∀ e, e ∈ l → ∃ r, expected st0 e = Some r ∧ holds st' (ef_name e) r).
Proof.
  induction l as [|e l IH]; intros j st Hnd Hsg; csimpl.
  { exists st. split_and!; [by destruct j|by intros n _|set_solver]. }
  csimpl in *. apply NoDup_cons in Hnd as [Hne Hnd].
  destruct (Hsg e) as (r & Hr & Hst); [left|].
  assert (∃ j1 st1, foldS (settle_outcome ck) st (run_job ck <$> option_list (job_of st0 e)) j
      = (Ok st1, j1) ∧
      j1 = mkJournal (bt_extend (js_entries j) (option_list (write_of st0 e))) (js_runs j) ∧
      holds st1 (ef_name e) r ∧ (∀ n, n ≠ ef_name e → same_at st1 st n))
    as (j1 & st1 & Hf1 & Hj1 & Hh1 & Hsm1).
  { destruct (job_of st0 e) as [jb|] eqn:Hjb; csimpl.
    - destruct (settle_outcome_spec j st st0 e r jb Hr Hjb Hst) as (st1 & kv & Hset & -> & Hh & Hsm).
      exists (put_entry kv.1 kv.2 j), st1. split; [|done]. unfold mbind, sm_bind. by rewrite Hset.
    - exists j, st. assert (er_entry r = None) as Hen by (by eapply job_of_None).
      unfold write_of. rewrite Hr. simpl. rewrite Hen. simpl. unfold staged in Hst. rewrite Hen in Hst.
      split_and!; [done|by destruct j|done|done]. }
  destruct (IH j1 st1) as (st' & Hf' & Hsm' & Hh'); [done|..].
  { intros e' He'. destruct (Hsg e') as (r' & Hr' & Hst'); [by right|].
    exists r'. split; [done|]. eapply staged_same_at; [|done]. apply Hsm1. intros Heq.
    apply Hne. rewrite <- Heq. by apply list_elem_of_fmap_2. }
  exists st'. split_and!.
  - assert (run_job ck <$> omap (job_of st0) (e :: l) =
      (run_job ck <$> option_list (job_of st0 e)) ++ (run_job ck <$> omap (job_of st0) l)) as Happ
      by (csimpl; by destruct (job_of st0 e)).
    csimpl in Happ. rewrite Happ, foldS_app. unfold mbind, sm_bind. rewrite Hf1, Hf', Hj1. simpl.
    f_equal. f_equal. unfold bt_extend. by destruct (write_of st0 e).
  - intros n Hn. apply not_elem_of_cons in Hn as [Hn1 Hn2].
    eapply same_at_trans; [by apply Hsm'|by apply Hsm1].
  - intros e' [->|He']%elem_of_cons; [|by apply Hh'].
    exists r. split; [done|]. eapply holds_same_at; [by apply Hsm'|done].
Qed.

Lemma stage_effect_wf j acc e acc' :
  stage_effect decisions j reg acc e = Ok acc' → bt_wf (rs_results acc.2) → bt_wf (rs_results acc'.2).
Proof.
  destruct acc as [jobs st]. unfold stage_effect. simpl. intros H Hwf. simplify_outcome.
  destruct (first_halted_dependency _ _); [simplify_outcome; by apply bt_wf_insert|].
  case_decide; [simplify_outcome; by apply bt_wf_insert|].
  destruct (resolve_inputs _ _); simplify_outcome; by apply bt_wf_insert.
Qed.

Lemma settle_outcome_wf st oc j st' j' :
  settle_outcome ck st oc j = (Ok st', j') → bt_wf (rs_results st) → bt_wf (rs_results st').
Proof.
  unfold settle_outcome. intros (record & s1 & Hrec & Hset)%sm_bind_Ok Hwf.
  destruct (ex_result _); apply sm_bind_Ok in Hset as ([] & s2 & _ & [= <- _]); simpl; by apply bt_wf_insert.
Qed.

(** The state of the run after the effects of [P]. *)
Record run_inv (P : list Effect) (j : JournalState) (st : RunState) : Prop := {
  ri_settled : ∀ e, e ∈ P → settled st e;
  ri_fresh : ∀ n, n ∉ ef_name <$> P → bt_get n (rs_outputs st) = None ∧ n ∉ rs_halted st;
  ri_journal : j = mkJournal (bt_extend (js_entries j0) (omap (write_of st) P)) (js_runs j0);
  ri_wf : bt_wf (rs_results st) }.

Lemma run_inv_init : run_inv [] j0 RunState_default.
Proof. split; [set_solver|set_solver|by destruct j0|apply bt_wf_nil]. Qed.

Lemma write_of_ext st st' e :
  (∀ b, b ∈ ef_refs e → same_at st st' b) → write_of st e = write_of st' e.
Proof. intros H. unfold write_of. by rewrite (expected_ext st st' e H). Qed.

Lemma run_one_level_spec P L j st :
  NoDup (ef_name <$> P ++ L) → run_inv P j st →
  (∀ e b, e ∈ P ++ L → b ∈ ef_refs e → b ∈ ef_name <$> P) →
  (∀ e, e ∈ L → is_Some (expected st e)) → cache_kept j L →
  ∃ j' st', run_one_level decisions reg ck st L j = (Ok st', j') ∧ run_inv (P ++ L) j' st'.
Proof.
  intros Hnd [Hs Hf Hj Hw] Hrefs Hex Hck.
  rewrite fmap_app, NoDup_app in Hnd. destruct Hnd as (HndP & Hdisj & HndL).
  destruct (stage_level_spec j L [] st st) as (st1 & Hst1 & Hsm1 & Hsg1); [done..| | | |].
  { intros e b He Hb HbL. eapply Hdisj; [eapply Hrefs; [|done]; set_solver|done]. }
  { done. }
  { intros e He. apply Hf. intros HP. eapply Hdisj; [done|]. by apply list_elem_of_fmap_2. }
  destruct (settle_level_spec st L j st1) as (st2 & Hst2 & Hsm2 & Hh2); [done..|].
  assert (∀ n, n ∈ ef_name <$> P → same_at st2 st n) as Hsm.
  { intros n Hn. eapply same_at_trans; [apply Hsm2|apply Hsm1]; by apply Hdisj. }
  assert (∀ e, e ∈ P ++ L → expected st2 e = expected st e) as Hexp.
  { intros e He. apply expected_ext. intros b Hb. eapply Hsm, Hrefs; done. }
  eexists _, st2. split.
  { unfold run_one_level, stage_level, mbind, sm_bind, get_state, lift. rewrite Hst1. simpl.
    unfold settle_level, run_level. by rewrite Hst2. }
  split.
  - intros e [He|He]%elem_of_app.
    + destruct (Hs e He) as (r & Hr & Hh). exists r. rewrite Hexp by set_solver. split; [done|].
      eapply holds_same_at; [|done]. by apply Hsm, list_elem_of_fmap_2.
    + destruct (Hh2 e He) as (r & Hr & Hh). exists r. rewrite Hexp by set_solver. done.
  - intros n. rewrite fmap_app, not_elem_of_app. intros [HnP HnL].
    destruct (Hsm2 n HnL) as (_ & -> & ->). destruct (Hsm1 n HnL) as (_ & -> & ->). by apply Hf.
  - rewrite Hj. simpl. f_equal. rewrite omap_app. unfold bt_extend. rewrite foldl_app. f_equal; [|].
    + f_equal. apply omap_ext_in. intros e He. unfold write_of. rewrite Hexp; [done|]. set_solver.
    + apply omap_ext_in. intros e He. unfold write_of. rewrite Hexp; [done|]. set_solver.
  - assert (bt_wf (rs_results st1)) as Hw1.
    { eapply (foldM_inv (λ _ acc, bt_wf (rs_results acc.2)) _ L ([], st) (_, st1)); [done| |done].
      simpl. intros. by eapply stage_effect_wf. }
    eapply (foldS_Ok (λ _ st _, bt_wf (rs_results st))); [exact Hw1| |exact Hst2].
    simpl. intros. by eapply settle_outcome_wf.
Qed.

Lemma execution_result_id e d x inputs : re_id (er_record (execution_result ck e d x inputs)) = de_id d.
Proof. unfold execution_result. by destruct (x _). Qed.

Lemma write_of_verdict st e h en :
  write_of st e = Some (h, en) →
  ∃ d, bt_get (ef_name e) decisions = Some d ∧ de_verdict d ≠ Cached ∧ h = to_hex (de_id d).
Proof.
  unfold write_of, expected. destruct (bt_get (ef_name e) decisions) as [d|]; simpl; [|done].
  intros H. exists d. revert H. destruct (first_halted_dependency _ _); [done|].
  case_decide; [by destruct (Journal_entry j0 (de_id d))|].
  destruct (resolve_inputs _ _); [done|]. destruct (reg !! ef_executor e) as [x|]; simpl; [|done].
  destruct (er_entry _); simpl; [|done]. intros [= <- ->]. by rewrite execution_result_id.
Qed.

Section total.
Context (order : list Effect) (groups : list (list Effect)).
Hypothesis Hnd : NoDup (ef_name <$> order).
Hypothesis Hperm : concat groups ≡ₚ order.
Hypothesis Hgroups : ∀ pre g post, groups = pre ++ g :: post →
  ∀ e b, e ∈ g → b ∈ ef_refs e → b ∈ ef_name <$> concat pre.
Hypothesis HD : ∀ e, e ∈ order →
  ∃ d, bt_get (ef_name e) decisions = Some d ∧
    (de_verdict d = Cached ↔ is_cached j0 (de_id d) = true) ∧
    (de_verdict d = Execute → is_Some (reg !! ef_executor e)).

Lemma expected_is_Some st e : e ∈ order → is_Some (expected st e).
Proof.
  intros He. destruct (HD e He) as (d & Hd & Hc & Hx). unfold expected. rewrite Hd. simpl.
  destruct (first_halted_dependency _ _); [done|]. case_decide as Hv.
  - apply Hc in Hv. unfold is_cached in Hv. by destruct (Journal_entry j0 (de_id d)).
  - destruct (resolve_inputs _ _); [done|].
    destruct Hx as [x ->]; [by destruct (de_verdict d)|]. done.
Qed.

Lemma run_inv_cache_kept P j st l :
  P ⊆ order → l ⊆ order → run_inv P j st → cache_kept j l.
Proof.
  intros HP Hl Hi e d He Hd Hv. destruct Hi as [_ _ -> _].
  destruct (HD e (Hl e He)) as (d' & Hd' & Hc & _). simplify_eq.
  unfold Journal_entry. simpl.
  destruct (bt_get_extend (js_entries j0) (omap (write_of st) P) (to_hex (de_id d)))
    as [[_ ->]|(en & Hen & _)]; [done|].
  apply list_elem_of_omap in Hen as (e' & He' & Hw).
  apply write_of_verdict in Hw as (d2 & Hd2 & Hv2 & Hhex).
  destruct (HD e' (HP e' He')) as (d3 & Hd3 & Hc3 & _). simplify_eq.
  exfalso. apply Hv2, Hc3. apply Hc in Hv. revert Hv. unfold is_cached, Journal_entry.
  by rewrite Hhex.
Qed.

Lemma run_groups_total :
  ∃ j' st, foldS (run_one_level decisions reg ck) RunState_default groups j0 = (Ok st, j') ∧
    run_inv (concat groups) j' st.
Proof.
  destruct (foldS_total (E:=EngineError) (λ pre st j, run_inv (concat pre) j st)
    (run_one_level decisions reg ck) groups RunState_default j0) as (st & j' & Hf & Hi);
    [apply run_inv_init| |by eauto].
  intros pre g post st j Hl Hi. simpl in *.
  assert (concat pre ++ g ⊆ order) as Hsub.
  { intros e He. rewrite <- Hperm, Hl, concat_app. cbn [concat]. set_solver. }
  destruct (run_one_level_spec (concat pre) g j st) as (j' & st' & Hrun & Hi'); [|done|..].
  - assert (NoDup (ef_name <$> concat (pre ++ g :: post))) as Hnd'
      by (rewrite <- Hl; by rewrite Hperm).
    rewrite concat_app in Hnd'. cbn [concat] in Hnd'.
    rewrite app_assoc, fmap_app, NoDup_app in Hnd'. apply Hnd'.
  - intros e b [He|He]%elem_of_app Hb; [|by eapply Hgroups].
    apply elem_of_concat in He as (g' & Hg' & He).
    apply list_elem_of_split in Hg' as (l1 & l2 & ->).
    rewrite concat_app, fmap_app, elem_of_app. left.
    eapply (Hgroups l1 g' (l2 ++ g :: post)); [|done..].
    by rewrite Hl, <- app_assoc.
  - intros e He. apply expected_is_Some, Hsub. set_solver.
  - eapply run_inv_cache_kept; [|intros e He; apply Hsub; set_solver|done]. set_solver.
  - exists st', j'. split; [done|]. rewrite concat_app. cbn [concat]. by rewrite app_nil_r.
Qed.

End total.

(** The results are determined by the decisions, whatever the grouping. *)
Lemma settled_unique order st1 st2 :
  deps_first order →
  (∀ e, e ∈ order → settled st1 e) → (∀ e, e ∈ order → settled st2 e) →
  ∀ e, e ∈ order → same_at st1 st2 (ef_name e).
Proof.
  intros Hf H1 H2.
  assert (∀ pre post, order = pre ++ post → ∀ e, e ∈ pre → same_at st1 st2 (ef_name e)) as Hgen;
    [|intros e He; eapply (Hgen order []); [by rewrite app_nil_r|done]].
  induction pre as [|e pre IH] using rev_ind; intros post Ho e'; [set_solver|].
  rewrite <- app_assoc in Ho. simpl in Ho.
  intros [He'|He'%list_elem_of_singleton]%elem_of_app; [by eapply IH|]. subst e'.
  destruct (H1 e) as (r1 & Hr1 & Hh1); [rewrite Ho; set_solver|].
  destruct (H2 e) as (r2 & Hr2 & Hh2); [rewrite Ho; set_solver|].
  assert (r1 = r2) as ->.
  { rewrite (expected_ext st1 st2) in Hr1; [congruence|]. intros b Hb.
    pose proof (Hf _ _ _ Ho b Hb) as (e' & -> & He')%list_elem_of_fmap. by eapply IH. }
  destruct Hh1 as (A1 & A2 & A3), Hh2 as (B1 & B2 & B3). split_and!; [congruence..|tauto].
Qed.

End run.

(** * Taking the records out *)

Definition final_records (st : RunState) (order : list Effect) : list RunEffect :=
  omap (λ e, bt_get (ef_name e) (rs_results st)) order.

Lemma take_records_spec l : ∀ acc m,
  bt_wf m → NoDup (ef_name <$> l) → (∀ e, e ∈ l → is_Some (bt_get (ef_name e) m)) →
  ∃ m', foldM take_record (acc, m) l = Ok (acc ++ omap (λ e, bt_get (ef_name e) m) l, m').
Proof.
  induction l as [|e l IH]; intros acc m Hwf Hnd Hm; csimpl; [rewrite app_nil_r; eauto|].
  csimpl in Hnd. apply NoDup_cons in Hnd as [Hne Hnd].
  destruct (Hm e) as [r Hr]; [left|].
  assert (take_record (acc, m) e = Ok (acc ++ [r], bt_remove (ef_name e) m)) as ->
    by (unfold take_record; simpl; by rewrite Hr).
  rewrite Hr.
  assert (∀ e', e' ∈ l → bt_get (ef_name e') (bt_remove (ef_name e) m) = bt_get (ef_name e') m) as Hrm.
  { intros e' He'. rewrite bt_get_remove by done. rewrite decide_False; [done|].
    intros Heq. apply Hne. rewrite <- Heq. by apply list_elem_of_fmap_2. }
  destruct (IH (acc ++ [r]) (bt_remove (ef_name e) m)) as [m' Hm'];
    [by apply bt_wf_remove|done| |].
  { intros e' He'. rewrite Hrm by done. apply Hm. by right. }
  exists m'. rewrite Hm'. rewrite <- app_assoc. simpl. do 4 f_equal.
  by apply omap_ext_in.
Qed.

(** * The whole run *)

Definition decision_table (j : JournalState) (ids : btree EffectId) (order : list Effect) : btree Decision :=
  bt_collect ((λ d, (de_name d, d)) <$> (decision_of j ids <$> order)).

Lemma levels_concat order :
  NoDup (ef_name <$> order) → deps_first order → concat (levels order) ≡ₚ order.
Proof. intros Hnd Hf. by destruct (levels_levelled order Hnd Hf) as (Hc & _). Qed.

Lemma check_executor_spec j ids order reg e :
  NoDup (ef_name <$> order) → e ∈ order →
  check_executor (decision_table j ids order) reg e =
  if is_cached j (id_of ids e) then Ok ()
  else match reg !! ef_executor e with
       | Some _ => Ok ()
       | None => Err (EUnknownExecutor (ef_name e) (ef_executor e))
       end.
Proof.
  intros Hnd He. unfold check_executor, decision_table. rewrite decisions_get by done. simpl.
  by destruct (is_cached j (id_of ids e)), (reg !! ef_executor e).
Qed.

(** How a run can end on a plan with unique names, and the journal it leaves. *)
Inductive apply_run_outcome (p : Plan) (j : JournalState) (reg : Registry) (ck : Clock)
  : outcome EngineError RunReport * JournalState → Prop :=
| ar_plan err :
    topo_order p = Err err → apply_run_outcome p j reg ck (Err (EPlan err), j)
| ar_executor order ids e report :
    topo_order p = Ok order → ids_of_plan p ids → e ∈ pl_effects p →
    is_cached j (id_of ids e) = false → reg !! ef_executor e = None →
    diff_plan p j = Ok report → decision_of j ids e ∈ pr_decisions report →
    apply_run_outcome p j reg ck (Err (EUnknownExecutor (ef_name e) (ef_executor e)), j)
| ar_ok order ids st :
    topo_order p = Ok order → effect_ids p = Ok ids → ids_of_plan p ids →
    (∀ e, e ∈ pl_effects p → is_cached j (id_of ids e) = false → is_Some (reg !! ef_executor e)) →
    (∀ e, e ∈ pl_effects p → settled (decision_table j ids order) j reg ck st e) →
    apply_run_outcome p j reg ck
      (Ok (mkRunReport (final_records st order) (orphans_of j (decision_of j ids <$> order))),
       mkJournal (bt_extend (js_entries j)
                    (omap (write_of (decision_table j ids order) j reg ck st) (concat (levels order))))
                 (js_runs j ++ [mkRunRecord (ck_run ck) (final_records st order) (edges p)])).

Lemma apply_run_spec p j reg ck :
  plan_wf p → apply_run_outcome p j reg ck (apply_unsaved p reg ck j).
Proof.
  intros Hwf. pose proof (topo_order_cases p Hwf) as Hcases.
  unfold apply_unsaved, mbind, sm_bind, get_state, lift, modify, mret, sm_ret.
  destruct (topo_order p) as [order|err|] eqn:Ho; [| |done].
  2: { rewrite (diff_plan_err p j err Ho). by constructor. }
  destruct (topo_order_facts p order Hwf Ho) as (Hperm & Hf & Hnd & _).
  destruct (diff_plan_ok p j order Hwf Ho) as (ids & Hids & Hi & Hdiff).
  rewrite Hdiff. simpl. fold (decision_table j ids order).
  set (D := decision_table j ids order).
  destruct (foldM (λ _ e, check_executor D reg e) () order) as [[]|err|] eqn:Hchk; simpl.
  - rewrite foldM_check_Ok in Hchk.
    assert (∀ e, e ∈ order → is_cached j (id_of ids e) = false → is_Some (reg !! ef_executor e)) as Hx.
    { intros e He Hc. specialize (Hchk e He). subst D.
      rewrite check_executor_spec, Hc in Hchk by done. by destruct (reg !! ef_executor e). }
    destruct (run_groups_total D j reg ck order (levels order)) as (j' & st & Hrun & Hri);
      [done|by apply levels_concat|by intros; eapply levels_deps| |].
    { intros e He. exists (decision_of j ids e). split; [by apply decisions_get|]. simpl. split.
      - by destruct (is_cached j (id_of ids e)).
      - intros. apply Hx; [done|]. by destruct (is_cached j (id_of ids e)). }
    rewrite Hrun. simpl. destruct Hri as [Hs _ Hj Hwfr].
    assert (∀ e, e ∈ order → settled D j reg ck st e) as Hs'.
    { intros e He. apply Hs. by rewrite levels_concat. }
    destruct (take_records_spec order [] (rs_results st)) as [m' Hm']; [done..| |].
    { intros e He. destruct (Hs' e He) as (r & _ & Hh & _). by rewrite Hh. }
    rewrite Hm', Hj. simpl. subst D. apply ar_ok; [done..| |].
    + intros e He. apply Hx. by rewrite Hperm.
    + intros e He. apply Hs'. by rewrite Hperm.
  - apply foldM_check_Err in Hchk as (e & He & Hchk). subst D.
    rewrite check_executor_spec in Hchk by done.
    destruct (is_cached j (id_of ids e)) eqn:Hc; [done|].
    destruct (reg !! ef_executor e) eqn:Hx; simplify_eq.
    eapply (ar_executor _ _ _ _ order ids); [done..|by rewrite <- Hperm|done|done|exact Hdiff|].
    simpl. by apply list_elem_of_fmap_2.
  - apply foldM_check_Panic in Hchk as (e & He & Hchk). subst D.
    rewrite check_executor_spec in Hchk by done.
    by destruct (is_cached j (id_of ids e)), (reg !! ef_executor e).
Qed.

End engine_facts.
