(* ===== verification/EfxEngineProps.v ===== *)
(** What the efx engine promises its callers ([packages/efx/engine/src]):
    the theorems about [diff::plan] and [apply], from the effect-by-effect
    characterisation of a run in [EfxApply]. *)

From Stdlib Require Import Ascii.
From stdpp Require Import base gmap sets list strings pretty relations sorting.
From S2P Require Import Prelude BTree StateErr EfxIr EfxIdentity EfxEngine EfxApply.

Section props.
Context {DG : Digest}.

(** * Diff *)

Lemma is_cached_spec j i :
  is_cached j i = true ↔ ∃ en, Journal_entry j i = Some en ∧ je_status en = Succeeded.
Proof.
  unfold is_cached. destruct (Journal_entry j i) as [en|]; [|naive_solver].
  rewrite bool_decide_eq_true. naive_solver.
Qed.

Lemma elem_of_orphans j ds o :
  o ∈ orphans_of j ds ↔
  ∃ h en, (h, en) ∈ js_entries j ∧ h ∉ to_hex ∘ de_id <$> ds ∧
          o = mkOrphan h (je_name en) (je_kind en) (je_recorded_at en).
Proof.
  unfold orphans_of. rewrite list_elem_of_omap. split.
  - intros ([h en] & Hin & Ho). simpl in Ho. case_decide; simplify_eq. by exists h, en.
  - intros (h & en & Hin & Hn & ->). exists (h, en). split; [done|]. simpl. by rewrite decide_False.
Qed.

(** C5. [diff::plan] decides every effect of a valid plan, in dependency order:
    [Cached] exactly when the journal holds a successful entry under the
    effect's identity, [Execute] otherwise; the orphans are exactly the journal
    entries whose id is the identity of no effect of the plan.  On an invalid
    plan it returns the graph error; it never panics. *)
Theorem diff_plan_decides p j :
  plan_wf p →
  match diff_plan p j with
  | Ok report =>
      ∃ order ids, topo_order p = Ok order ∧ effect_ids p = Ok ids ∧
        de_name <$> pr_decisions report = ef_name <$> order ∧
        (∀ d, d ∈ pr_decisions report →
           bt_get (de_name d) ids = Some (de_id d) ∧
           (de_verdict d = Cached ↔
              ∃ en, Journal_entry j (de_id d) = Some en ∧ je_status en = Succeeded)) ∧
        (∀ o, o ∈ pr_orphans report ↔
           ∃ h en, (h, en) ∈ js_entries j ∧
             (∀ e i, e ∈ pl_effects p → bt_get (ef_name e) ids = Some i → h ≠ to_hex i) ∧
             o = mkOrphan h (je_name en) (je_kind en) (je_recorded_at en))
  | Err (EPlan err) => topo_order p = Err err
  | Err _ => False
  | Panic => False
  end.
Proof.
  intros Hwf. pose proof (topo_order_cases p Hwf) as Hcases.
  destruct (topo_order p) as [order|err|] eqn:Ho; [|by rewrite (diff_plan_err p j err Ho)|done].
  destruct (diff_plan_ok p j order Hwf Ho) as (ids & Hids & Hi & ->). simpl.
  destruct (topo_order_facts p order Hwf Ho) as (Hperm & _).
  exists order, ids. split_and!; [done..|by rewrite <- list_fmap_compose| |].
  - intros d (e & -> & He)%list_elem_of_fmap. rewrite Hperm in He. simpl.
    split; [by apply (iop_eq _ _ Hi)|]. rewrite <- is_cached_spec. by destruct (is_cached _ _).
  - intros o. rewrite elem_of_orphans. f_equiv. intros h. f_equiv. intros en.
    split; intros (Hin & Hn & Ho'); (split_and!; [done| |done]).
    + intros e i He Hei ->. apply Hn. rewrite (iop_eq _ _ Hi e He) in Hei. simplify_eq.
      apply list_elem_of_fmap. exists (decision_of j ids e). split; [done|].
      apply list_elem_of_fmap_2. by rewrite Hperm.
    + intros (d & -> & (e & -> & He)%list_elem_of_fmap)%list_elem_of_fmap. rewrite Hperm in He.
      by eapply Hn; [|apply (iop_eq _ _ Hi)|].
Qed.

(** * Levels *)

(** [levels] partitions the effects of a dependency order into groups such
    that every effect only reads effects of strictly earlier groups, so the
    members of a group can run in parallel. *)
Lemma levels_partition p order :
  plan_wf p → topo_order p = Ok order →
  concat (levels order) ≡ₚ pl_effects p ∧
  ∀ pre g post e b, levels order = pre ++ g :: post → e ∈ g → b ∈ ef_refs e →
    b ∈ ef_name <$> concat pre ∧ b ∉ ef_name <$> g.
Proof.
  intros Hwf Ho. destruct (topo_order_facts p order Hwf Ho) as (Hperm & Hf & Hnd & _).
  pose proof (levels_concat order Hnd Hf) as Hc. split; [by rewrite Hc|].
  intros pre g post e b Hl He Hb.
  pose proof (levels_deps order pre g post e b Hnd Hf Hl He Hb) as Hpre. split; [done|].
  assert (NoDup (ef_name <$> concat (levels order))) as Hnd' by (by rewrite Hc).
  rewrite Hl, concat_app in Hnd'. cbn [concat] in Hnd'.
  rewrite fmap_app, NoDup_app in Hnd'. destruct Hnd' as (_ & Hd & _).
  specialize (Hd b Hpre). rewrite fmap_app in Hd. set_solver.
Qed.

(** * Results of a run *)

Lemma expected_decided j ids order reg ck st e :
  NoDup (ef_name <$> order) → e ∈ order →
  expected (decision_table j ids order) j reg ck st e =
  match first_halted_dependency e (rs_halted st) with
  | Some b =>
      Some (mkResult (set_reason ("dependency `" +:+ b +:+ "` did not succeed")
              (initial_record e (decision_of j ids e))) None true None)
  | None =>
      if is_cached j (id_of ids e) then
        en ← Journal_entry j (id_of ids e);
        Some (mkResult (set_action ACached (initial_record e (decision_of j ids e)))
                (Some (je_outputs en)) false None)
      else
        match resolve_inputs e (rs_outputs st) with
        | inl msg =>
            Some (mkResult (set_reason msg (set_action AFailed (set_reason (de_reason (decision_of j ids e))
                    (initial_record e (decision_of j ids e))))) None true None)
        | inr inputs =>
            x ← reg !! ef_executor e; Some (execution_result ck e (decision_of j ids e) x inputs)
        end
  end.
Proof.
  intros Hnd He. unfold expected, decision_table. rewrite decisions_get by done. simpl.
  destruct (first_halted_dependency _ _); [done|].
  by destruct (is_cached j (id_of ids e)).
Qed.

(** The shape of an effect's result. *)
Lemma expected_shape j ids order reg ck st e r :
  NoDup (ef_name <$> order) → e ∈ order →
  expected (decision_table j ids order) j reg ck st e = Some r →
  re_name (er_record r) = ef_name e ∧ re_id (er_record r) = id_of ids e ∧
  (er_halted r = true ↔ re_action (er_record r) = AFailed ∨ re_action (er_record r) = ASkipped) ∧
  (re_action (er_record r) = ASkipped ↔ is_Some (first_halted_dependency e (rs_halted st))) ∧
  (∀ en, er_entry r = Some en →
     is_cached j (id_of ids e) = false ∧
     (re_action (er_record r) = AExecuted ∨ re_action (er_record r) = AFailed) ∧
     (re_action (er_record r) = AExecuted ↔ je_status en = Succeeded)) ∧
  (re_action (er_record r) = ACached → is_cached j (id_of ids e) = true) ∧
  (re_action (er_record r) = AExecuted → is_Some (er_entry r)).
Proof.
  intros Hnd He. rewrite expected_decided by done.
  destruct (first_halted_dependency _ _) as [b|]; [intros; simplify_eq/=; naive_solver|].
  destruct (is_cached j (id_of ids e)) eqn:Hc.
  { destruct (Journal_entry j (id_of ids e)); intros; simplify_eq/=; naive_solver. }
  destruct (resolve_inputs _ _) as [msg|inputs]; [intros; simplify_eq/=; naive_solver|].
  destruct (reg !! ef_executor e) as [x|]; intros; simplify_eq/=.
  unfold execution_result. destruct (x _); simpl; naive_solver.
Qed.

Lemma elem_of_final_records st order r :
  r ∈ final_records st order ↔ ∃ e, e ∈ order ∧ bt_get (ef_name e) (rs_results st) = Some r.
Proof. unfold final_records. by rewrite list_elem_of_omap. Qed.

Lemma first_halted_is_Some e h :
  is_Some (first_halted_dependency e h) ↔ ∃ b, b ∈ ef_refs e ∧ b ∈ h.
Proof.
  unfold first_halted_dependency. rewrite fmap_is_Some. split.
  - intros [[i b] (Hi & Hb & _)%list_find_Some]. exists b. split; [by eapply list_elem_of_lookup_2|done].
  - intros (b & Hb & Hh). by eapply list_find_elem_of.
Qed.


(** Everything known about a run that reported. *)
Record completed (p : Plan) (j : JournalState) (reg : Registry) (ck : Clock)
    (report : RunReport) (j' : JournalState) (order : list Effect) (ids : btree EffectId)
    (st : RunState) : Prop := {
  co_topo : topo_order p = Ok order;
  co_ids : effect_ids p = Ok ids;
  co_table : ids_of_plan p ids;
  co_executors : ∀ e, e ∈ pl_effects p → is_cached j (id_of ids e) = false → is_Some (reg !! ef_executor e);
  co_settled : ∀ e, e ∈ order → settled (decision_table j ids order) j reg ck st e;
  co_effects : rp_effects report = final_records st order;
  co_entries : js_entries j' = bt_extend (js_entries j)
    (omap (write_of (decision_table j ids order) j reg ck st) (concat (levels order)));
  co_runs : js_runs j' = js_runs j ++ [mkRunRecord (ck_run ck) (rp_effects report) (edges p)] }.

Lemma apply_run_Ok p j reg ck report j' :
  apply_run p j reg ck = Ok (report, j') ↔ apply_unsaved p reg ck j = (Ok report, j').
Proof.
  unfold apply_run. destruct (apply_unsaved p reg ck j) as [[r|e|] j1]; (split; intros [=]; by subst).
Qed.

Lemma apply_run_completed p j reg ck report j' :
  plan_wf p → apply_run p j reg ck = Ok (report, j') →
  ∃ order ids st, completed p j reg ck report j' order ids st ∧
    order ≡ₚ pl_effects p ∧ deps_first order ∧ NoDup (ef_name <$> order).
Proof.
  intros Hwf Hr%apply_run_Ok. pose proof (apply_run_spec p j reg ck Hwf) as Hs. rewrite Hr in Hs.
  inversion Hs as [| |order ids st Ho Hids Hi Hx Hset]; subst.
  destruct (topo_order_facts p order Hwf Ho) as (Hperm & Hf & Hnd & _).
  exists order, ids, st. split; [|done]. split; try done.
  intros e He. apply Hset. by rewrite <- Hperm.
Qed.

Section completed.
Context (p : Plan) (j : JournalState) (reg : Registry) (ck : Clock) (report : RunReport)
  (j' : JournalState) (order : list Effect) (ids : btree EffectId) (st : RunState).
Context (C : completed p j reg ck report j' order ids st).
Context (Hnd : NoDup (ef_name <$> order)).

(** The result of one effect of a completed run. *)
Lemma completed_result e :
  e ∈ order →
  ∃ r, expected (decision_table j ids order) j reg ck st e = Some r ∧
       holds st (ef_name e) r ∧ er_record r ∈ rp_effects report.
Proof.
  intros He. destruct (co_settled _ _ _ _ _ _ _ _ _ C e He) as (r & Hr & Hh).
  exists r. split_and!; [done..|]. rewrite (co_effects _ _ _ _ _ _ _ _ _ C).
  apply elem_of_final_records. exists e. split; [done|]. apply Hh.
Qed.

Lemma completed_names : re_name <$> rp_effects report = ef_name <$> order.
Proof.
  rewrite (co_effects _ _ _ _ _ _ _ _ _ C). unfold final_records.
  assert (∀ l, l ⊆ order → re_name <$> omap (λ e, bt_get (ef_name e) (rs_results st)) l = ef_name <$> l)
    as Hgen; [|by apply Hgen].
  induction l as [|e l IH]; intros Hl; csimpl; [done|].
  destruct (completed_result e) as (r & Hr & (Hh & _) & _); [set_solver|]. rewrite Hh. csimpl.
  rewrite IH by set_solver. f_equal. by apply (expected_shape j ids order reg ck st e r Hnd); [set_solver|].
Qed.

(** The records of a run are identified by their names. *)
Lemma completed_record e r :
  e ∈ order → r ∈ rp_effects report → re_name r = ef_name e →
  bt_get (ef_name e) (rs_results st) = Some r.
Proof.
  intros He Hr Hn. destruct (completed_result e He) as (r0 & Hr0 & (Hh & _) & Hin).
  destruct (expected_shape j ids order reg ck st e r0 Hnd He Hr0) as (Hn0 & _).
  rewrite Hh. f_equal. eapply (NoDup_fmap_inj_on re_name (rp_effects report)); [|done..|congruence].
  by rewrite completed_names.
Qed.

(** Halted means reported as failed or skipped. *)
Lemma completed_halted e r :
  e ∈ order → r ∈ rp_effects report → re_name r = ef_name e →
  ef_name e ∈ rs_halted st ↔ re_action r = AFailed ∨ re_action r = ASkipped.
Proof.
  intros He Hr Hn. destruct (completed_result e He) as (r0 & Hr0 & (Hh & _ & Hhalt) & Hin).
  rewrite (completed_record e r He Hr Hn) in Hh. simplify_eq.
  rewrite Hhalt. by apply (expected_shape j ids order reg ck st e r0 Hnd He Hr0).
Qed.

End completed.

(** C6. [apply] never panics (none of its [unreachable!] and index expressions
    is reached), and each way it can end is accurate.  An invalid plan, or an
    effect that the diff decides must execute and whose executor is not
    registered, is reported with the journal as it was: nothing has run.  A report
    has one record per effect, in dependency order; the journal in memory has it as
    its newest run after the earlier ones, and was saved as it is.  A failed
    save is reported with the journal path, and the run stays in the journal in
    memory. *)
Theorem apply_total p j reg ck path save :
  plan_wf p →
  match apply p reg ck path save j with
  | (Ok report, j') =>
      save j' = None ∧ (∃ order, topo_order p = Ok order ∧ re_name <$> rp_effects report = ef_name <$> order) ∧
      ∃ run, js_runs j' = js_runs j ++ [run] ∧ rr_effects run = rp_effects report
  | (Err (EPlan err), j') => j' = j ∧ topo_order p = Err err
  | (Err (EUnknownExecutor n x), j') =>
      j' = j ∧ reg !! x = None ∧ ∃ e report d, e ∈ pl_effects p ∧ ef_name e = n ∧ ef_executor e = x ∧
        diff_plan p j = Ok report ∧ d ∈ pr_decisions report ∧ de_name d = n ∧ de_verdict d = Execute
  | (Err (EJournalWrite pa err), j') => pa = path ∧ save j' = Some err ∧ ∃ run, js_runs j' = js_runs j ++ [run]
  | (Err (EJournalRead _ _), _) | (Err (EJournalFormat _ _), _) | (Panic, _) => False
  end.
Proof.
  intros Hwf. pose proof (apply_run_spec p j reg ck Hwf) as Hs.
  unfold apply, mbind, sm_bind, get_state, lift, mret, sm_ret.
  destruct (apply_unsaved p reg ck j) as [r j'] eqn:Hr.
  assert (∀ report, r = Ok report → ∃ order, topo_order p = Ok order ∧ re_name <$> rp_effects report = ef_name <$> order) as Hnames.
  { intros report ->. apply apply_run_Ok in Hr.
    destruct (apply_run_completed p j reg ck report j' Hwf Hr) as (order & ids & st & C & _ & _ & Hnd).
    exists order. split; [by eapply co_topo|by eapply completed_names]. }
  inversion Hs as [err Ho|order ids e report Ho Hi He Hn Hx Hd Hin|order ids st Ho Hids Hi Hx Hset]; subst; [done| |].
  - split_and!; [done|done|]. exists e, report, (decision_of j' ids e). split_and!; try done. simpl. by rewrite Hn.
  - destruct (save _) as [err|] eqn:Hsave; [by eauto|]. split; [done|]. split; [by apply Hnames|]. by eexists.
Qed.

(** Running the groups of independent effects in parallel gives the same
    report as running the effects one at a time in dependency order. *)
Lemma level_parallel_equals_sequential p j reg ck report j' :
  plan_wf p → apply_run p j reg ck = Ok (report, j') →
  ∃ order ids jseq st,
    topo_order p = Ok order ∧ effect_ids p = Ok ids ∧
    foldS (run_one_level (decision_table j ids order) reg ck) RunState_default
      ((λ e, [e]) <$> order) j = (Ok st, jseq) ∧
    rp_effects report = final_records st order.
Proof.
  intros Hwf Hr.
  destruct (apply_run_completed p j reg ck report j' Hwf Hr) as (order & ids & st & C & Hperm & Hf & Hnd).
  pose proof (concat_singletons order) as Hc.
  destruct (run_groups_total (decision_table j ids order) j reg ck order ((λ e, [e]) <$> order))
    as (jseq & st' & Hrun & [Hs _ _ _]); [done|by rewrite Hc| | |].
  - intros pre g post Heq e b Hin Hb. apply fmap_app_inv in Heq as (l1 & l2 & Hl1 & Hl2 & Ho).
    destruct l2 as [|e' l2]; [done|]. csimpl in Hl2. simplify_eq. apply list_elem_of_singleton in Hin as ->.
    rewrite concat_singletons. by eapply Hf.
  - intros e He. exists (decision_of j ids e). split; [by apply decisions_get|]. simpl. split.
    + by destruct (is_cached j (id_of ids e)).
    + intros. eapply (co_executors _ _ _ _ _ _ _ _ _ C); [by rewrite <- Hperm|].
      by destruct (is_cached j (id_of ids e)).
  - exists order, ids, jseq, st'. split_and!; [by eapply co_topo|by eapply co_ids|done|].
    rewrite (co_effects _ _ _ _ _ _ _ _ _ C). apply omap_ext_in. intros e He.
    eapply (settled_unique (decision_table j ids order) j reg ck order st st'); [done| | |done].
    + by apply (co_settled _ _ _ _ _ _ _ _ _ C).
    + intros e' He'. apply Hs. by rewrite Hc.
Qed.

(** Failure isolation: in a run's report an effect is [Skipped] exactly
    when one of the effects it reads directly was [Failed] or [Skipped];
    unrelated effects are executed or served from the cache. *)
Lemma failure_isolation p j reg ck report j' e r :
  plan_wf p → apply_run p j reg ck = Ok (report, j') →
  e ∈ pl_effects p → r ∈ rp_effects report → re_name r = ef_name e →
  re_action r = ASkipped ↔
  ∃ rb, rb ∈ rp_effects report ∧ re_name rb ∈ ef_refs e ∧
        (re_action rb = AFailed ∨ re_action rb = ASkipped).
Proof.
  intros Hwf Hr He Hin Hn.
  destruct (apply_run_completed p j reg ck report j' Hwf Hr) as (order & ids & st & C & Hperm & Hf & Hnd).
  rewrite <- Hperm in He.
  destruct (completed_result _ _ _ _ _ _ _ _ _ C e He) as (r0 & Hr0 & (Hh & _) & Hin0).
  rewrite (completed_record _ _ _ _ _ _ _ _ _ C Hnd e r He Hin Hn) in Hh. simplify_eq.
  destruct (expected_shape j ids order reg ck st e r0 Hnd He Hr0) as (_ & _ & _ & -> & _).
  rewrite first_halted_is_Some. split.
  - intros (b & Hb & Hhalt).
    destruct (list_elem_of_split _ _ He) as (l1 & l2 & Ho).
    pose proof (Hf _ _ _ Ho b Hb) as (eb & -> & Heb)%list_elem_of_fmap.
    assert (eb ∈ order) as Heb' by (rewrite Ho; set_solver).
    destruct (completed_result _ _ _ _ _ _ _ _ _ C eb Heb') as (rb & Hrb & _ & Hinb).
    destruct (expected_shape j ids order reg ck st eb rb Hnd Heb' Hrb) as (Hnb & _).
    exists (er_record rb). split_and!; [done|by rewrite Hnb|].
    by apply (completed_halted _ _ _ _ _ _ _ _ _ C Hnd eb).
  - intros (rb & Hrb & Href & Hact). exists (re_name rb). split; [done|].
    destruct (list_elem_of_split _ _ He) as (l1 & l2 & Ho).
    pose proof (Hf _ _ _ Ho _ Href) as (eb & Hnb & Heb)%list_elem_of_fmap. rewrite Hnb.
    apply (completed_halted _ _ _ _ _ _ _ _ _ C Hnd eb rb); [rewrite Ho; set_solver|done..].
Qed.


(** * Memoization *)

Lemma succeeded_action report r :
  RunReport_succeeded report = true → r ∈ rp_effects report →
  re_action r = AExecuted ∨ re_action r = ACached.
Proof.
  unfold RunReport_succeeded. rewrite forallb_forall. intros H Hr%list_elem_of_In%H.
  destruct (re_action r); auto; done.
Qed.

Lemma write_of_expected D j reg ck st e h en :
  write_of D j reg ck st e = Some (h, en) →
  ∃ r, expected D j reg ck st e = Some r ∧ er_entry r = Some en ∧ h = to_hex (re_id (er_record r)).
Proof.
  unfold write_of. destruct (expected _ _ _ _ _ _) as [r|]; simpl; [|done].
  destruct (er_entry r) eqn:Hen; simpl; [|done]. intros. simplify_eq. eauto.
Qed.

(** After a run without failures every identity of the plan is cached. *)
Lemma succeeded_cached p j reg ck report j' order ids st e :
  completed p j reg ck report j' order ids st → NoDup (ef_name <$> order) → deps_first order →
  RunReport_succeeded report = true → e ∈ order → is_cached j' (id_of ids e) = true.
Proof.
  intros C Hnd Hf Hsucc He. unfold is_cached, Journal_entry.
  rewrite (co_entries _ _ _ _ _ _ _ _ _ C).
  destruct (completed_result _ _ _ _ _ _ _ _ _ C e He) as (r & Hr & _ & Hin).
  destruct (expected_shape j ids order reg ck st e r Hnd He Hr) as (_ & Hid & _ & _ & _ & Hcached & Hexec).
  destruct (bt_get_extend (js_entries j)
    (omap (write_of (decision_table j ids order) j reg ck st) (concat (levels order)))
    (to_hex (id_of ids e))) as [[Hn ->]|(en & Hen & ->)].
  - destruct (succeeded_action report _ Hsucc Hin) as [Ha|Ha]; [|by apply Hcached].
    exfalso. apply Hn. destruct (Hexec Ha) as [en Hen].
    apply list_elem_of_fmap. exists (to_hex (id_of ids e), en). split; [done|].
    apply list_elem_of_omap. exists e. split; [by rewrite levels_concat|].
    unfold write_of. rewrite Hr. simpl. by rewrite Hen, Hid.
  - apply list_elem_of_omap in Hen as (e' & He' & (r' & Hr' & Hen' & _)%write_of_expected).
    rewrite levels_concat in He' by done. apply bool_decide_eq_true.
    destruct (completed_result _ _ _ _ _ _ _ _ _ C e' He') as (r2 & Hr2 & _ & Hin2).
    rewrite Hr' in Hr2. simplify_eq.
    destruct (expected_shape j ids order reg ck st e' r2 Hnd He' Hr') as (_ & _ & _ & _ & Hent & _).
    destruct (Hent en Hen') as (_ & Hor & Hiff). apply Hiff.
    destruct (succeeded_action report _ Hsucc Hin2) as [|]; naive_solver congruence.
Qed.

(** When every effect is cached, every effect is served from the cache. *)
Lemma all_cached_results j ids order reg ck st :
  NoDup (ef_name <$> order) → deps_first order →
  (∀ e, e ∈ order → is_cached j (id_of ids e) = true) →
  (∀ e, e ∈ order → settled (decision_table j ids order) j reg ck st e) →
  ∀ e, e ∈ order → ∃ en,
    expected (decision_table j ids order) j reg ck st e =
    Some (mkResult (set_action ACached (initial_record e (decision_of j ids e)))
            (Some (je_outputs en)) false None).
Proof.
  intros Hnd Hf Hc Hs.
  assert (∀ pre post, order = pre ++ post → ∀ e, e ∈ pre → ∃ en,
    expected (decision_table j ids order) j reg ck st e =
    Some (mkResult (set_action ACached (initial_record e (decision_of j ids e)))
            (Some (je_outputs en)) false None)) as Hgen;
    [|intros e He; eapply (Hgen order []); [by rewrite app_nil_r|done]].
  induction pre as [|e pre IH] using rev_ind; intros post Ho e'; [set_solver|].
  rewrite <- app_assoc in Ho. simpl in Ho.
  intros [He'|He'%list_elem_of_singleton]%elem_of_app; [by eapply IH|]. subst e'.
  assert (e ∈ order) as He by (rewrite Ho; set_solver).
  rewrite expected_decided by done.
  destruct (first_halted_dependency e (rs_halted st)) as [b0|] eqn:Hfh.
  { exfalso. assert (is_Some (first_halted_dependency e (rs_halted st))) as Hsome by (by rewrite Hfh).
    apply first_halted_is_Some in Hsome as (b & Hb & Hhalt).
    pose proof (Hf _ _ _ Ho b Hb) as (eb & -> & Heb)%list_elem_of_fmap.
    destruct (IH _ Ho eb Heb) as [en Hen].
    destruct (Hs eb) as (r & Hr & _ & _ & Hh); [rewrite Ho; set_solver|].
    rewrite Hen in Hr. simplify_eq. by apply Hh in Hhalt. }
  rewrite Hc by done. specialize (Hc e He). unfold is_cached in Hc.
  destruct (Journal_entry j (id_of ids e)) as [en|]; [|done]. by exists en.
Qed.

(** C7. Memoization: after a run in which no effect failed or was skipped,
    applying the same plan again, with any registry (even an empty one) and at
    any time, serves every effect from the cache, calls no executor and leaves
    the journal's entries as they are. *)
Theorem apply_idempotent p j reg ck report j' reg' ck' :
  plan_wf p → apply_run p j reg ck = Ok (report, j') → RunReport_succeeded report = true →
  ∃ report2 j2, apply_run p j' reg' ck' = Ok (report2, j2) ∧
    Forall (λ r, re_action r = ACached) (rp_effects report2) ∧
    re_name <$> rp_effects report2 = re_name <$> rp_effects report ∧
    js_entries j2 = js_entries j'.
Proof.
  intros Hwf Hr Hsucc.
  destruct (apply_run_completed p j reg ck report j' Hwf Hr) as (order & ids & st & C & Hperm & Hf & Hnd).
  pose proof (succeeded_cached p j reg ck report j' order ids st) as Hc.
  pose proof (apply_run_spec p j' reg' ck' Hwf) as Hs.
  inversion Hs as [err Ho2 Heq|order2 ids2 e report2 Ho2 Hi2 He Hn Hx _ _ Heq|order2 ids2 st2 Ho2 Hids2 Hi2 Hx Hset Heq];
    rewrite (co_topo _ _ _ _ _ _ _ _ _ C) in Ho2; simplify_eq.
  - exfalso. assert (ids2 = ids) as -> by (eapply ids_of_plan_unique; [done|by eapply co_topo|done|by eapply co_table]).
    rewrite (Hc e C Hnd Hf Hsucc) in Hn; [done|]. by rewrite Hperm.
  - assert (ids2 = ids) as -> by (rewrite (co_ids _ _ _ _ _ _ _ _ _ C) in Hids2; congruence).
    symmetry in Heq. apply apply_run_Ok in Heq.
    destruct (apply_run_completed p j' reg' ck' _ _ Hwf Heq) as (order3 & ids3 & st3 & C3 & _).
    assert (order3 = order2) as ->
      by (pose proof (co_topo _ _ _ _ _ _ _ _ _ C3); pose proof (co_topo _ _ _ _ _ _ _ _ _ C); congruence).
    assert (ids3 = ids) as -> by (pose proof (co_ids _ _ _ _ _ _ _ _ _ C3); congruence).
    eexists _, _. split; [exact Heq|].
    pose proof (all_cached_results j' ids order2 reg' ck' st3 Hnd Hf (λ e, Hc e C Hnd Hf Hsucc)
      (co_settled _ _ _ _ _ _ _ _ _ C3)) as Hall. split_and!.
    + rewrite Forall_forall, (co_effects _ _ _ _ _ _ _ _ _ C3).
      intros r (e & He & Hre)%elem_of_final_records.
      destruct (Hall e He) as [en Hen].
      destruct (co_settled _ _ _ _ _ _ _ _ _ C3 e He) as (r' & Hr' & (Hh & _)).
      rewrite Hen in Hr'. by simplify_eq.
    + rewrite (completed_names _ _ _ _ _ _ _ _ _ C3 Hnd). by rewrite (completed_names _ _ _ _ _ _ _ _ _ C Hnd).
    + rewrite (co_entries _ _ _ _ _ _ _ _ _ C3).
      assert (omap (write_of (decision_table j' ids order2) j' reg' ck' st3) (concat (levels order2)) = [])
        as ->; [|done].
      assert (∀ l, l ⊆ order2 →
        omap (write_of (decision_table j' ids order2) j' reg' ck' st3) l = []) as Hnil;
        [|apply Hnil; intros e He; by rewrite levels_concat in He].
      induction l as [|e l IH]; intros Hl; csimpl; [done|]. rewrite IH by set_solver.
      destruct (Hall e) as [en Hen]; [set_solver|]. unfold write_of. by rewrite Hen.
Qed.

(** The journal is history: a run only ever adds entries or replaces
    entries of effects it ran, never the entry of a cached effect, keeps every
    earlier run record and appends one with the run's report. *)
Lemma journal_history p j reg ck report j' h :
  plan_wf p → apply_run p j reg ck = Ok (report, j') →
  (bt_get h (js_entries j') = bt_get h (js_entries j) ∨
   ∃ r en, r ∈ rp_effects report ∧ to_hex (re_id r) = h ∧
     (re_action r = AExecuted ∨ re_action r = AFailed) ∧ is_cached j (re_id r) = false ∧
     bt_get h (js_entries j') = Some en ∧ je_name en = re_name r ∧
     (je_status en = Succeeded ↔ re_action r = AExecuted)) ∧
  js_runs j' = js_runs j ++ [mkRunRecord (ck_run ck) (rp_effects report) (edges p)].
Proof.
  intros Hwf Hr.
  destruct (apply_run_completed p j reg ck report j' Hwf Hr) as (order & ids & st & C & Hperm & Hf & Hnd).
  split; [|by eapply co_runs]. rewrite (co_entries _ _ _ _ _ _ _ _ _ C).
  destruct (bt_get_extend (js_entries j)
    (omap (write_of (decision_table j ids order) j reg ck st) (concat (levels order))) h)
    as [[_ ->]|(en & Hen & ->)]; [by left|]. right.
  apply list_elem_of_omap in Hen as (e & He & (r & Hre & Hent & ->)%write_of_expected).
  rewrite levels_concat in He by done.
  destruct (completed_result _ _ _ _ _ _ _ _ _ C e He) as (r2 & Hr2 & _ & Hin).
  rewrite Hre in Hr2. simplify_eq.
  destruct (expected_shape j ids order reg ck st e r2 Hnd He Hre) as (Hn & Hid & _ & _ & Hs & _).
  destruct (Hs en Hent) as (Hc & Hor & Hiff).
  exists (er_record r2), en. rewrite Hid. split_and!; [done..| |tauto].
  rewrite Hn. revert Hre Hent. rewrite expected_decided by done.
  destruct (first_halted_dependency _ _); [intros; by simplify_eq/=|]. rewrite Hc.
  destruct (resolve_inputs _ _) as [|inputs]; [intros; by simplify_eq/=|].
  destruct (reg !! ef_executor e) as [x|]; simpl; [|done]. intros [= <-]. unfold execution_result.
  destruct (x _); simpl; naive_solver.
Qed.


(** * Data flow *)

(** The value an input stands for, given what the effects produced. *)
Definition value_in (outs : btree Outputs) (v : Value) : option Literal :=
  match v with
  | VLiteral l => Some l
  | VRef r => bt_get (or_effect r) outs ≫= bt_get (or_field r)
  end.

(** [inputs] is the effect's input map with every reference replaced by the
    value produced upstream. *)
Definition resolved (outs : btree Outputs) (e : Effect) (inputs : btree Literal) : Prop :=
  bt_keys inputs = bt_keys (ef_inputs e) ∧
  ∀ k v, bt_get k (ef_inputs e) = Some v → is_Some (value_in outs v) ∧ bt_get k inputs = value_in outs v.

Lemma resolve_value_spec outs v :
  match resolve_value outs v with
  | inr l => value_in outs v = Some l
  | inl _ => value_in outs v = None
  end.
Proof.
  destruct v as [l|r]; simpl; [done|].
  destruct (bt_get (or_effect r) outs) as [o|]; simpl; [|done]. by destruct (bt_get (or_field r) o).
Qed.

Lemma resolve_list_spec outs l :
  match resolve_list outs l with
  | inr r => ∃ f, r = (λ kv : string * Value, (kv.1, f kv.2)) <$> l ∧
                  ∀ k v, (k, v) ∈ l → value_in outs v = Some (f v)
  | inl _ => ∃ k v, (k, v) ∈ l ∧ value_in outs v = None
  end.
Proof.
  assert (∀ r, resolve_list outs l = inr r →
    r = (λ kv : string * Value, (kv.1, default (LBool false) (value_in outs kv.2))) <$> l ∧
    ∀ k v, (k, v) ∈ l → is_Some (value_in outs v)) as Hr.
  { induction l as [|[k v] l IH]; intros r; csimpl; [intros [= <-]; set_solver|].
    pose proof (resolve_value_spec outs v) as Hv. destruct (resolve_value outs v) as [|lit]; [done|].
    destruct (resolve_list outs l) as [|r']; [done|]. intros [= <-].
    destruct (IH r' eq_refl) as [-> Hs]. rewrite Hv. split; [done|].
    intros k' v' [|?]%elem_of_cons; simplify_eq; eauto. }
  destruct (resolve_list outs l) as [msg|r] eqn:Hl.
  - clear Hr. revert msg Hl. induction l as [|[k v] l IH]; intros msg; simpl; [done|].
    pose proof (resolve_value_spec outs v) as Hv. destruct (resolve_value outs v) as [|lit].
    + intros _. exists k, v. set_solver.
    + destruct (resolve_list outs l) as [m|r']; [|done]. intros _.
      destruct (IH m eq_refl) as (k' & v' & Hin & ?). exists k', v'. set_solver.
  - destruct (Hr r eq_refl) as [-> Hs].
    exists (λ v, default (LBool false) (value_in outs v)). split; [done|].
    intros k v Hin. destruct (Hs k v Hin) as [lit Hlit]. by rewrite Hlit.
Qed.

Lemma resolve_inputs_spec outs e :
  effect_wf e →
  match resolve_inputs e outs with
  | inr inputs => resolved outs e inputs
  | inl _ => ∃ k v, bt_get k (ef_inputs e) = Some v ∧ value_in outs v = None
  end.
Proof.
  intros Hwf. unfold resolve_inputs. pose proof (resolve_list_spec outs (ef_inputs e)) as Hs.
  destruct (resolve_list outs (ef_inputs e)) as [msg|l].
  - destruct Hs as (k & v & Hin & Hv). exists k, v. split; [|done]. by apply bt_in_get.
  - destruct Hs as (f & -> & Hf). rewrite (bt_collect_map (λ _, f)) by done. split.
    + apply (bt_keys_map (λ _, f)).
    + intros k v Hkv. rewrite (bt_get_map (λ _, f)), Hkv. simpl.
      apply bt_get_Some_in in Hkv. rewrite (Hf k v Hkv). eauto.
Qed.

(** Data flow of a run: there is one set of produced outputs such that
    every executed effect was run by its registered executor on exactly its
    literals and the upstream outputs it refers to, and contributed what the
    executor returned; every cached effect contributed its journaled outputs;
    a failed effect either refers to an output nobody produced, or its executor
    returned an error (the reason recorded) or panicked; failed and skipped
    effects contribute nothing. *)
Lemma run_dataflow p j reg ck report j' :
  plan_wf p → apply_run p j reg ck = Ok (report, j') →
  ∃ outs : btree Outputs, ∀ e r,
    e ∈ pl_effects p → r ∈ rp_effects report → re_name r = ef_name e →
    match re_action r with
    | AExecuted => ∃ x inputs o,
        reg !! ef_executor e = Some x ∧ resolved outs e inputs ∧
        x (mkRequest (ef_name e) (ef_kind e) inputs) = ExecOk o ∧
        bt_get (ef_name e) outs = Some o
    | ACached => ∃ en,
        Journal_entry j (re_id r) = Some en ∧ je_status en = Succeeded ∧
        bt_get (ef_name e) outs = Some (je_outputs en)
    | AFailed =>
        bt_get (ef_name e) outs = None ∧
        ((∃ k v, bt_get k (ef_inputs e) = Some v ∧ value_in outs v = None) ∨
         ∃ x inputs, reg !! ef_executor e = Some x ∧ resolved outs e inputs ∧
           match x (mkRequest (ef_name e) (ef_kind e) inputs) with
           | ExecOk _ => False
           | ExecErr m => re_reason r = Some m
           | ExecPanicked => re_reason r = Some "executor panicked"
           end)
    | ASkipped => bt_get (ef_name e) outs = None
    end.
Proof.
  intros Hwf Hr.
  destruct (apply_run_completed p j reg ck report j' Hwf Hr) as (order & ids & st & C & Hperm & Hf & Hnd).
  exists (rs_outputs st). intros e r He Hin Hn.
  assert (effect_wf e) as Hew by (destruct Hwf as [_ Hw]; rewrite Forall_forall in Hw; by apply Hw).
  rewrite <- Hperm in He.
  destruct (completed_result _ _ _ _ _ _ _ _ _ C e He) as (r0 & Hr0 & (Hh & Ho & _) & Hin0).
  rewrite (completed_record _ _ _ _ _ _ _ _ _ C Hnd e r He Hin Hn) in Hh. simplify_eq.
  destruct (expected_shape j ids order reg ck st e r0 Hnd He Hr0) as (_ & Hid & _).
  rewrite Hid, Ho. clear Hid Ho. revert Hr0. rewrite expected_decided by done.
  destruct (first_halted_dependency _ _); [intros; by simplify_eq/=|].
  destruct (is_cached j (id_of ids e)) eqn:Hc.
  { apply is_cached_spec in Hc as (en & Hen & Hst). rewrite Hen. intros. simplify_eq/=. eauto. }
  pose proof (resolve_inputs_spec (rs_outputs st) e Hew) as Hres.
  destruct (resolve_inputs _ _) as [msg|inputs]; [intros; simplify_eq/=; eauto|].
  destruct (reg !! ef_executor e) as [x|]; intros; simplify_eq/=. unfold execution_result.
  destruct (x _) as [o|m|] eqn:Hx; simpl; [by exists x, inputs, o|..];
    (split; [done|right; exists x, inputs; by rewrite Hx]).
Qed.

End props.

(** * Concrete instances *)

Section witnesses.
Existing Instance plain_digest.

Let page : Effect :=
  {| ef_name := "page"; ef_kind := "html.render"; ef_executor := "html.render";
     ef_inputs := [("title", VLiteral (LStr "hi"))]; ef_meta := EffectMeta_default |}.
Let site : Effect :=
  {| ef_name := "site"; ef_kind := "file.write"; ef_executor := "file.write";
     ef_inputs := [("content", VRef (mkOutputRef "page" "html"))]; ef_meta := EffectMeta_default |}.
Let p : Plan := mkPlan [site; page].
Let empty : JournalState := mkJournal [] [].
Let echo : Executor := λ rq, ExecOk [("html", LStr (rq_name rq))].
Let broken : Executor := λ _, ExecErr "disk full".
Let reg : Registry := {[ "html.render" := echo; "file.write" := echo ]}.
Let reg_broken : Registry := {[ "html.render" := broken; "file.write" := echo ]}.
Let ck : Clock := mkClock (λ _, 3%Z) (λ _, 17%Z) 18%Z.

Definition demo_run (r : Registry) : RunReport * JournalState :=
  match apply_run p empty r ck with Ok x => x | _ => (mkRunReport [] [], empty) end.

Lemma demo_plan_wf : plan_wf p.
Proof. split; [apply NoDup_ListNoDup; repeat constructor; simpl; intuition congruence|repeat constructor; done]. Qed.

Lemma diff_plan_decides_witness :
  plan_wf p ∧ match diff_plan p empty with
  | Ok report => ∃ order, topo_order p = Ok order ∧ de_name <$> pr_decisions report = ef_name <$> order
  | _ => False
  end.
Proof.
  split; [exact demo_plan_wf|]. pose proof (diff_plan_decides p empty demo_plan_wf) as H. revert H.
  destruct (diff_plan p empty) as [report|[]|] eqn:Hd.
  - intros (order & ids & Ho & _ & Hn & _). exists order. exact (conj Ho Hn).
  - intros _. vm_compute in Hd. discriminate Hd.
  - intros [].
  - intros [].
  - intros [].
  - intros [].
  - intros [].
Defined.

Example levels_of_demo :
  topo_order p = Ok [page; site] ∧ levels [page; site] = [[page]; [site]] ∧
  concat (levels [page; site]) ≡ₚ pl_effects p.
Proof.
  split; [vm_compute; reflexivity|]. split; [vm_compute; reflexivity|].
  apply (levels_partition p [page; site]); [exact demo_plan_wf|vm_compute; reflexivity].
Defined.

(** Without the executor that writes files nothing runs. *)
Lemma apply_total_witness :
  apply p {[ "html.render" := echo ]} ck "j" (λ _, None) empty = (Err (EUnknownExecutor "site" "file.write"), empty) ∧
  ∃ report d, diff_plan p empty = Ok report ∧ d ∈ pr_decisions report ∧ de_name d = "site" ∧ de_verdict d = Execute.
Proof.
  pose proof (apply_total p empty {[ "html.render" := echo ]} ck "j" (λ _, None) demo_plan_wf) as H.
  assert (apply p {[ "html.render" := echo ]} ck "j" (λ _, None) empty = (Err (EUnknownExecutor "site" "file.write"), empty)) as E
    by (vm_compute; reflexivity).
  rewrite E in H. split; [exact E|]. destruct H as (_ & _ & e & report & d & _ & _ & _ & Hd & Hin & Hn & Hv).
  exists report, d. exact (conj Hd (conj Hin (conj Hn Hv))).
Defined.

Lemma demo_run_ok : apply_run p empty reg ck = Ok ((demo_run reg).1, (demo_run reg).2).
Proof. vm_compute. reflexivity. Qed.

Lemma demo_run_broken_ok :
  apply_run p empty reg_broken ck = Ok ((demo_run reg_broken).1, (demo_run reg_broken).2).
Proof. vm_compute. reflexivity. Qed.

Example level_parallel_equals_sequential_demo :
  ∃ order ids jseq st,
    topo_order p = Ok order ∧ effect_ids p = Ok ids ∧
    foldS (run_one_level (decision_table empty ids order) reg ck) RunState_default
      ((λ e, [e]) <$> order) empty = (Ok st, jseq) ∧
    rp_effects (demo_run reg).1 = final_records st order.
Proof.
  exact (level_parallel_equals_sequential p empty reg ck _ _ demo_plan_wf demo_run_ok).
Defined.

Example failure_isolation_demo :
  re_action <$> rp_effects (demo_run reg_broken).1 = [AFailed; ASkipped] ∧
  ∃ r, r ∈ rp_effects (demo_run reg_broken).1 ∧
    (re_action r = ASkipped ↔
     ∃ rb, rb ∈ rp_effects (demo_run reg_broken).1 ∧ re_name rb ∈ ef_refs site ∧
        (re_action rb = AFailed ∨ re_action rb = ASkipped)).
Proof.
  split; [vm_compute; reflexivity|]. eexists.
  assert (Hin : ∀ l : list RunEffect, length l = 2 → default (List.hd (mkRunEffect EmptyString EmptyString
    (mkEffectId EmptyString) ACached None 0 []) l) (l !! 1) ∈ l)
    by (intros [|a [|b [|]]]; simpl; [done|done|intros _; right; left|done]).
  split; [apply Hin; vm_compute; reflexivity|].
  apply (failure_isolation p empty reg_broken ck _ _ site _ demo_plan_wf demo_run_broken_ok);
    [left|apply Hin; vm_compute; reflexivity|vm_compute; reflexivity].
Defined.

Lemma apply_idempotent_witness :
  RunReport_succeeded (demo_run reg).1 = true ∧
  ∃ report2 j2, apply_run p (demo_run reg).2 ∅ ck = Ok (report2, j2) ∧
    Forall (λ r, re_action r = ACached) (rp_effects report2) ∧
    re_name <$> rp_effects report2 = re_name <$> rp_effects (demo_run reg).1 ∧
    js_entries j2 = js_entries (demo_run reg).2.
Proof.
  split; [vm_compute; reflexivity|].
  apply (apply_idempotent p empty reg ck _ _ ∅ ck demo_plan_wf demo_run_ok). vm_compute. reflexivity.
Defined.

Example journal_history_demo :
  js_runs (demo_run reg).2 = [mkRunRecord 18 (rp_effects (demo_run reg).1) (edges p)].
Proof.
  exact (proj2 (journal_history p empty reg ck _ _ EmptyString demo_plan_wf demo_run_ok)).
Defined.

Example run_dataflow_demo :
  ∃ outs : btree Outputs, ∀ r, r ∈ rp_effects (demo_run reg).1 → re_name r = "site" →
    re_action r = AExecuted → bt_get "site" outs = Some [("html", LStr "site")].
Proof.
  destruct (run_dataflow p empty reg ck _ _ demo_plan_wf demo_run_ok) as [outs H].
  exists outs. intros r Hr Hn Ha. specialize (H site r). rewrite Ha in H.
  destruct H as (x & inputs & o & Hx & _ & Ho & Hout); [left|exact Hr|exact Hn|].
  vm_compute in Hx. injection Hx as <-. simpl in Ho. injection Ho as <-. exact Hout.
Defined.

End witnesses.
