(* ===== verification/EfxJournal.v ===== *)
(** The journal file of [packages/efx/engine/src/journal.rs]: [Journal::load]
    and [Journal::save], with the file system as a map and the save as a step
    relation, so that a crash between two steps is a reachable state. *)

From stdpp Require Import base gmap sets list strings pretty relations sorting.
From Stdlib Require Import Ascii.
From S2P Require Import Prelude BTree EfxIr EfxIdentity EfxEngine.

(** * Paths *)

(** A path by its parent directory and last component. *)
Record Path := mkPath { pa_dir : string; pa_file : string }.
#[export] Instance Path_eq_dec : EqDecision Path.
Proof. solve_decision. Defined.
#[export] Instance Path_countable : Countable Path.
Proof. by apply (inj_countable' (λ p, (pa_dir p, pa_file p)) (λ x, mkPath x.1 x.2)); intros []. Qed.

Definition display_path (p : Path) : string := pa_dir p +:+ "/" +:+ pa_file p.

(** The text before and after the last dot. *)
Fixpoint rsplit_dot (s : string) : option (string * string) :=
  match s with
  | EmptyString => None
  | String c s' =>
      match rsplit_dot s' with
      | Some (before, after) => Some (String c before, after)
      | None => if decide (c = "."%char) then Some (EmptyString, s') else None
      end
  end.

(** [Path::file_stem] of a last component other than [..]. *)
Definition file_stem (f : string) : string :=
  match rsplit_dot f with
  | Some (EmptyString, _) => f
  | Some (before, _) => before
  | None => f
  end.

(** [Path::with_extension] with a non-empty extension; [..] is no file name and
    is left alone. *)
Definition with_extension (ext : string) (p : Path) : Path :=
  if decide (pa_file p = "..") then p
  else mkPath (pa_dir p) (file_stem (pa_file p) +:+ "." +:+ ext).

Definition tmp_path (p : Path) : Path := with_extension "json.tmp" p.

(** * Load *)

Definition JournalState_default : JournalState := mkJournal [] [].

(** [std::fs::read]. *)
Inductive ReadResult :=
| RBytes (bytes : string)
| RNotFound
| RError (err : string).

(** [serde_json::to_vec_pretty] and [serde_json::from_slice] at [JournalState]. *)
Class JournalCodec := {
  journal_to_json : JournalState → string;
  journal_from_json : string → string + JournalState }.

(** [Disk]: the files and their contents. *)
Abbreviation Disk := (gmap Path string).

Definition disk_read (d : Disk) (p : Path) : ReadResult :=
  match d !! p with Some bytes => RBytes bytes | None => RNotFound end.

Section journal.
Context {JC : JournalCodec}.

(** [Journal::load]. *)
Definition load (p : Path) (r : ReadResult) : outcome EngineError JournalState :=
  match r with
  | RBytes bytes => match journal_from_json bytes with
                    | inr s => Ok s
                    | inl err => Err (EJournalFormat (display_path p) err)
                    end
  | RNotFound => Ok JournalState_default
  | RError err => Err (EJournalRead (display_path p) err)
  end.

(** * Save *)

(** Where [Journal::save] is: before the temporary file is created, in the
    middle of [std::fs::write], before [std::fs::rename], or returned. *)
Inductive SavePc :=
| SaveStart
| SaveWriting (written rest : string)
| SaveRename
| SaveDone (r : outcome EngineError ()).

(** One step of [Journal::save]: [std::fs::write] creates (truncates) the
    temporary file and writes the text in chunks of any size; any of the calls
    can fail with an I/O error. *)
Inductive save_step (p : Path) (s : JournalState) : SavePc * Disk → SavePc * Disk → Prop :=
| step_create d :
    save_step p s (SaveStart, d)
      (SaveWriting EmptyString (journal_to_json s), <[tmp_path p := EmptyString]> d)
| step_create_error d err :
    save_step p s (SaveStart, d) (SaveDone (Err (EJournalWrite (display_path p) err)), d)
| step_write d written chunk rest :
    save_step p s (SaveWriting written (chunk +:+ rest), d)
      (SaveWriting (written +:+ chunk) rest, <[tmp_path p := written +:+ chunk]> d)
| step_write_error d written rest err :
    save_step p s (SaveWriting written rest, d)
      (SaveDone (Err (EJournalWrite (display_path p) err)), d)
| step_written d written :
    save_step p s (SaveWriting written EmptyString, d) (SaveRename, d)
| step_rename d bytes :
    d !! tmp_path p = Some bytes →
    save_step p s (SaveRename, d) (SaveDone (Ok ()), <[p := bytes]> (delete (tmp_path p) d))
| step_rename_error d err :
    save_step p s (SaveRename, d) (SaveDone (Err (EJournalWrite (display_path p) err)), d).

(** * The temporary file is another file *)

Lemma rsplit_dot_Some s before after :
  rsplit_dot s = Some (before, after) → s = before +:+ "." +:+ after ∧ rsplit_dot after = None.
Proof.
  revert before. induction s as [|c s IH]; intros before; simpl; [done|].
  destruct (rsplit_dot s) as [[b a]|] eqn:Hs.
  - intros [= <- <-]. destruct (IH b eq_refl) as [-> ?]. done.
  - case_decide; [|done]. intros [= <- <-]. by subst.
Qed.

Lemma tmp_path_ne p : pa_file p ≠ ".." → tmp_path p ≠ p.
Proof.
  intros Hne Heq. apply (f_equal pa_file) in Heq. revert Heq.
  unfold tmp_path, with_extension, file_stem. rewrite decide_False by done. cbn [pa_file].
  destruct (rsplit_dot (pa_file p)) as [[[|c b] a]|] eqn:Hs; intros Heq.
  1,3: by apply append_ne_self in Heq.
  apply rsplit_dot_Some in Hs as [Hf Ha]. rewrite Hf in Heq.
  apply (inj (String.append (String c b))) in Heq. apply (inj (String.append ".")) in Heq. by subst a.
Qed.

(** * Crash safety *)

(** What holds at every point of a save begun on [d0]: only the temporary file
    is touched until the rename puts the whole text in place. *)
Definition save_inv (p : Path) (s : JournalState) (d0 : Disk) (x : SavePc * Disk) : Prop :=
  match x.1 with
  | SaveStart => x.2 = d0
  | SaveWriting written rest =>
      written +:+ rest = journal_to_json s ∧ x.2 = <[tmp_path p := written]> d0
  | SaveRename => x.2 = <[tmp_path p := journal_to_json s]> d0
  | SaveDone (Ok _) => x.2 = <[p := journal_to_json s]> (delete (tmp_path p) d0)
  | SaveDone (Err e) => (∃ err, e = EJournalWrite (display_path p) err) ∧
                        delete (tmp_path p) x.2 = delete (tmp_path p) d0
  | SaveDone Panic => False
  end.

Lemma save_step_inv p s d0 x y : save_step p s x y → save_inv p s d0 x → save_inv p s d0 y.
Proof.
  destruct 1; unfold save_inv; simpl; try (naive_solver; fail).
  - intros [Hw ->]. rewrite append_assoc in Hw. by rewrite insert_insert_eq.
  - intros [_ ->]. split; [eauto|]. apply delete_insert_eq.
  - intros [Hw ->]. by rewrite append_nil_r in Hw; subst.
  - intros ->. rewrite lookup_insert_eq in H. injection H as <-. by rewrite delete_insert_eq.
  - intros ->. split; [eauto|]. apply delete_insert_eq.
Qed.

Lemma save_inv_reachable p s d0 x :
  rtc (save_step p s) (SaveStart, d0) x → save_inv p s d0 x.
Proof.
  intros Hr. assert (∀ y, rtc (save_step p s) y x → save_inv p s d0 y → save_inv p s d0 x) as H
    by (induction 1; eauto using save_step_inv).
  by eapply H.
Qed.

(** A save that meets no I/O error. *)
Lemma save_completes p s d :
  pa_file p ≠ ".." →
  rtc (save_step p s) (SaveStart, d)
    (SaveDone (Ok ()), <[p := journal_to_json s]> (delete (tmp_path p) d)).
Proof.
  intros Hp. eapply rtc_l; [apply step_create|].
  eapply rtc_l; [rewrite <- (append_nil_r (journal_to_json s)) at 1; apply step_write|].
  eapply rtc_l; [apply step_written|]. eapply rtc_l; [apply step_rename, lookup_insert_eq|].
  simpl. rewrite insert_insert_eq, delete_insert_eq. reflexivity.
Qed.

(** C8. A crashed save never loses history: at whatever point
    [Journal::save] is interrupted, loading the journal gives what it gave
    before the save, unless the save had returned [Ok], and then it gives the
    saved state.  A save that reports an error reports [JournalWrite] with the
    journal's path and left the journal as it was; with no I/O error the save
    runs to [Ok]; and no other file is ever touched. *)
Theorem save_crash_safe p s d pc d' :
  pa_file p ≠ ".." →
  journal_from_json (journal_to_json s) = inr s →
  rtc (save_step p s) (SaveStart, d) (pc, d') →
  load p (disk_read d' p) = match pc with SaveDone (Ok _) => Ok s | _ => load p (disk_read d p) end ∧
  match pc with
  | SaveDone (Err e) => ∃ err, e = EJournalWrite (display_path p) err
  | SaveDone Panic => False
  | _ => True
  end ∧
  (∀ q, q ≠ p → q ≠ tmp_path p → d' !! q = d !! q) ∧
  ∃ d2, rtc (save_step p s) (SaveStart, d) (SaveDone (Ok ()), d2).
Proof.
  intros Hp Hjson Hr%save_inv_reachable. apply tmp_path_ne in Hp as Hne.
  assert (∀ q, q ≠ tmp_path p → delete (tmp_path p) d' !! q = d' !! q ∧
    delete (tmp_path p) d !! q = d !! q) as Hdel by (intros; by rewrite !lookup_delete_ne).
  unfold save_inv in Hr. unfold disk_read.
  destruct pc as [|w r| |[[]|e|]]; simpl in Hr; [| | | | |done];
    (split_and!; [..|eauto using save_completes]); try done.
  all: try (intros q Hq Hq').
  - by subst.
  - by subst.
  - destruct Hr as [_ ->]. by rewrite lookup_insert_ne.
  - destruct Hr as [_ ->]. by rewrite lookup_insert_ne.
  - subst. by rewrite lookup_insert_ne.
  - subst. by rewrite lookup_insert_ne.
  - subst. rewrite lookup_insert_eq. simpl. by rewrite Hjson.
  - subst. rewrite lookup_insert_ne by done. by rewrite lookup_delete_ne.
  - destruct Hr as [_ Hd]. destruct (Hdel p) as [H1 H2]; [done|]. by rewrite <- H1, <- H2, Hd.
  - by destruct Hr.
  - destruct Hr as [_ Hd]. destruct (Hdel q) as [H1 H2]; [done|]. by rewrite <- H1, <- H2, Hd.
Qed.

End journal.

Section journal_witness.

(** A codec for the empty journal. *)
Let codec : JournalCodec := {|
  journal_to_json := λ _, "{}";
  journal_from_json := λ s, if decide (s = "{}") then inr JournalState_default else inl "bad" |}.
Let file : Path := mkPath "." "journal.json".

Lemma save_crash_safe_witness :
  @load codec file (disk_read {[ tmp_path file := EmptyString ]} file) =
  @load codec file (disk_read ∅ file).
Proof.
  refine (proj1 (@save_crash_safe codec file JournalState_default ∅
    (SaveWriting EmptyString "{}") {[ tmp_path file := EmptyString ]} _ _ _)).
  - discriminate.
  - reflexivity.
  - apply rtc_once. apply (@step_create codec file JournalState_default ∅).
Defined.

End journal_witness.

