(* ===== verification/EfxLang.v ===== *)
(** The [.efx] surface language of [packages/efx/lang/src/lib.rs]: lexer,
    parser, string interpolation and compilation to a [Plan].

    A [char] is its Unicode scalar value; a Rust [String] read from the source
    is the list of its chars, and becomes a byte string (its UTF-8 encoding)
    where it enters the IR.  Lines and columns are [usize] counters far below
    the machine bound. *)

From stdpp Require Import base gmap sets list strings pretty relations.
From Stdlib Require Import Ascii.
From S2P Require Import Prelude Chars BTree EfxIr.

(** The Unicode tables behind [char::is_alphabetic] and [char::is_numeric],
    consulted for chars outside ASCII only. *)
Class UnicodeTables := {
  uni_alphabetic : char → bool;
  uni_numeric : char → bool }.

(** No char is both [Alphabetic] and [White_Space]. *)
Class UnicodeLaws `{!UnicodeTables} :=
  alphabetic_not_space : ∀ c, uni_alphabetic c = true → is_whitespace c = false.

(** * Errors and tokens *)

Record Pos := mkPos { line : nat; col : nat }.

Record CompileError := mkCompileError { ce_pos : Pos; ce_message : string }.

Inductive TokenKind :=
| TIdent (name : text)
| TStr (s : text)
| TInt (n : Z)
| TLet | TEffect | TRef | TTrue | TFalse
| TEq | TLBrace | TRBrace | TLParen | TRParen | TDot | TAt | TEof.
#[export] Instance TokenKind_eq_dec : EqDecision TokenKind.
Proof. solve_decision. Defined.

Definition describe (k : TokenKind) : string :=
  match k with
  | TIdent name => "identifier `" +:+ utf8 name +:+ "`"
  | TStr _ => "string literal"
  | TInt n => "integer `" +:+ pretty n +:+ "`"
  | TLet => "`let`"
  | TEffect => "`effect`"
  | TRef => "`ref`"
  | TTrue => "`true`"
  | TFalse => "`false`"
  | TEq => "`=`"
  | TLBrace => "`{`"
  | TRBrace => "`}`"
  | TLParen => "`(`"
  | TRParen => "`)`"
  | TDot => "`.`"
  | TAt => "`@`"
  | TEof => "end of file"
  end.

Record Token := mkToken { tk_kind : TokenKind; tk_pos : Pos }.

(** * Lexer *)

Record Lexer := mkLexer { lx_chars : text; lx_pos : Pos }.

Definition Lexer_new (source : text) : Lexer := mkLexer source (mkPos 1 1).

(** The position after a character has been consumed. *)
Definition advance (c : char) (p : Pos) : Pos :=
  if decide (c = newline) then mkPos (S (line p)) 1 else mkPos (line p) (S (col p)).

(** [Lexer::bump]. *)
Definition Lexer_bump (lx : Lexer) : option (char * Lexer) :=
  match lx_chars lx with
  | [] => None
  | c :: cs => Some (c, mkLexer cs (advance c (lx_pos lx)))
  end.

(** The loop over whitespace and comments at the head of [Lexer::tokens];
    [in_comment] is whether the inner [while] is running. *)
Fixpoint skip_trivia (in_comment : bool) (cs : text) (p : Pos) : Lexer :=
  match cs with
  | [] => mkLexer [] p
  | c :: cs' =>
      if in_comment && negb (bool_decide (c = newline)) then skip_trivia true cs' (advance c p)
      else if decide (c = ch "#") then skip_trivia true cs' (advance c p)
      else if is_whitespace c then skip_trivia false cs' (advance c p)
      else mkLexer cs p
  end.

(** [while self.chars.peek().is_some_and(f) { text.push(self.bump()) }]. *)
Fixpoint lex_while (f : char → bool) (acc cs : text) (p : Pos) : text * Lexer :=
  match cs with
  | [] => (acc, mkLexer [] p)
  | c :: cs' => if f c then lex_while f (acc ++ [c]) cs' (advance c p) else (acc, mkLexer cs p)
  end.

Definition escape_hint : string := " (supported: \" +:+ String (ascii_of_N 34) (" \\ \n \t)").

(** [Lexer::string], after the opening quote at [start]. *)
Fixpoint lex_string (start : Pos) (acc cs : text) (p : Pos)
  : outcome CompileError (TokenKind * Lexer) :=
  match cs with
  | [] => Err (mkCompileError start "unterminated string")
  | c :: cs =>
      let p := advance c p in
      if decide (c = 34%N) then Ok (TStr acc, mkLexer cs p)
      else if decide (c = newline) then Err (mkCompileError start "unterminated string")
      else if decide (c = ch "\") then
        match cs with
        | [] => Err (mkCompileError p ("unknown escape end of file" +:+ escape_hint))
        | e :: cs' =>
            let p' := advance e p in
            if decide (e = 34%N) then lex_string start (acc ++ [34%N]) cs' p'
            else if decide (e = ch "\") then lex_string start (acc ++ [ch "\"]) cs' p'
            else if decide (e = ch "n") then lex_string start (acc ++ [newline]) cs' p'
            else if decide (e = ch "t") then lex_string start (acc ++ [9%N]) cs' p'
            else Err (mkCompileError p ("unknown escape `\" +:+ utf8_char e +:+ "`" +:+ escape_hint))
        end
      else lex_string start (acc ++ [c]) cs p
  end.

(** [text.parse::<i64>()] of an optional minus sign and digits. *)
Definition i64_min : Z := (- 2 ^ 63)%Z.
Definition i64_max : Z := (2 ^ 63 - 1)%Z.

Definition parse_i64 (t : text) : option Z :=
  let '(neg, ds) := match t with
                    | c :: t' => if decide (c = ch "-") then (true, t') else (false, t)
                    | [] => (false, [])
                    end in
  if decide (ds = []) then None
  else if forallb is_ascii_digit ds then
    let n := if neg then (- digits_value ds)%Z else digits_value ds in
    if decide (i64_min <= n <= i64_max)%Z then Some n else None
  else None.

(** [Lexer::number]. *)
Definition lex_number (first : char) (start : Pos) (cs : text) (p : Pos)
  : outcome CompileError (TokenKind * Lexer) :=
  let '(t, lx) := lex_while is_ascii_digit [first] cs p in
  match parse_i64 t with
  | Some n => Ok (TInt n, lx)
  | None => Err (mkCompileError start ("`" +:+ utf8 t +:+ "` is not a valid integer"))
  end.

Definition keyword (word : text) : TokenKind :=
  if decide (word = chars_of "let") then TLet
  else if decide (word = chars_of "effect") then TEffect
  else if decide (word = chars_of "ref") then TRef
  else if decide (word = chars_of "true") then TTrue
  else if decide (word = chars_of "false") then TFalse
  else TIdent word.

Record Spanned (A : Type) := mkSpanned { node : A; sp_pos : Pos }.
Arguments mkSpanned {_} _ _.
Arguments node {_} _.
Arguments sp_pos {_} _.

Section lang.
Context {UT : UnicodeTables}.

Definition is_alphabetic (c : char) : bool :=
  if decide (c < 128)%N then is_ascii_alphabetic c else uni_alphabetic c.
Definition is_alphanumeric (c : char) : bool :=
  if decide (c < 128)%N then is_ascii_alphabetic c || is_ascii_digit c
  else uni_alphabetic c || uni_numeric c.

Definition word_start (c : char) : bool := is_alphabetic c || bool_decide (c = ch "_").
Definition word_char (c : char) : bool := is_alphanumeric c || bool_decide (c = ch "_").

(** The [match c] of [Lexer::tokens]: the token that starts with [c] at
    [start]; [cs] and [p] are the lexer after [c]. *)
Definition lex_token (c : char) (start : Pos) (cs : text) (p : Pos)
  : outcome CompileError (TokenKind * Lexer) :=
  let here k := Ok (k, mkLexer cs p) in
  if decide (c = ch "=") then here TEq
  else if decide (c = ch "{") then here TLBrace
  else if decide (c = ch "}") then here TRBrace
  else if decide (c = ch "(") then here TLParen
  else if decide (c = ch ")") then here TRParen
  else if decide (c = ch ".") then here TDot
  else if decide (c = ch "@") then here TAt
  else if decide (c = 34%N) then lex_string start [] cs p
  else if is_ascii_digit c || bool_decide (c = ch "-") then lex_number c start cs p
  else if word_start c then
    let '(word, lx) := lex_while word_char [c] cs p in Ok (keyword word, lx)
  else Err (mkCompileError start ("unexpected character `" +:+ utf8_char c +:+ "`")).

(** The [loop] of [Lexer::tokens].  Every iteration but the last consumes a
    character, so one more than the number of characters is enough fuel. *)
Fixpoint lex_loop (fuel : nat) (tokens : list Token) (lx : Lexer)
  : outcome CompileError (list Token) :=
  match fuel with
  | O => Panic
  | S fuel =>
      let lx := skip_trivia false (lx_chars lx) (lx_pos lx) in
      let start := lx_pos lx in
      match Lexer_bump lx with
      | None => Ok (tokens ++ [mkToken TEof start])
      | Some (c, lx) =>
          '(kind, lx) ← lex_token c start (lx_chars lx) (lx_pos lx);
          lex_loop fuel (tokens ++ [mkToken kind start]) lx
      end
  end.

(** [Lexer::tokens]. *)
Definition lex_tokens (source : text) : outcome CompileError (list Token) :=
  lex_loop (S (length source)) [] (Lexer_new source).

(** * Parser *)

Inductive Expr :=
| EStr (s : text)
| EInt (n : Z)
| EBool (b : bool)
| EVar (name : text)
| ERef (effect field : text).

Record EffectDecl := mkDecl {
  dc_name : Spanned text;
  dc_kind : text;
  dc_inputs : list (Spanned text * Spanned Expr);
  dc_props : list (Spanned text * Spanned Expr) }.

Inductive Item :=
| ILet (name : Spanned text) (value : Spanned Expr)
| IEffect (decl : EffectDecl).

Record Parser := mkParser { ps_tokens : list Token; ps_position : nat }.

(** Parser methods: [&mut self] threaded through, errors as outcomes. *)
Definition parser (A : Type) : Type := Parser → outcome CompileError (A * Parser).
#[export] Instance parser_ret : MRet parser := λ A a ps, Ok (a, ps).
#[export] Instance parser_bind : MBind parser := λ A B k m ps,
  match m ps with
  | Ok (a, ps') => k a ps'
  | Err e => Err e
  | Panic => Panic
  end.

Definition fail {A} (p : Pos) (message : string) : parser A := λ _, Err (mkCompileError p message).

(** [Parser::peek]. *)
Definition peek : parser Token := λ ps,
  t ← unwrap (ps_tokens ps !! Nat.min (ps_position ps) (length (ps_tokens ps) - 1)); Ok (t, ps).

(** [Parser::bump]. *)
Definition bump : parser Token := λ ps,
  '(t, ps) ← peek ps;
  Ok (t, mkParser (ps_tokens ps) (Nat.min (S (ps_position ps)) (length (ps_tokens ps) - 1))).

(** [Parser::expect]. *)
Definition expect (kind : TokenKind) (context : string) : parser Token :=
  token ← bump;
  if decide (tk_kind token = kind) then mret token
  else fail (tk_pos token) ("expected " +:+ describe kind +:+ " " +:+ context +:+ ", found "
                              +:+ describe (tk_kind token)).

(** [Parser::ident]. *)
Definition ident (context : string) : parser (Spanned text) :=
  token ← bump;
  match tk_kind token with
  | TIdent name => mret (mkSpanned name (tk_pos token))
  | other => fail (tk_pos token) ("expected a name " +:+ context +:+ ", found " +:+ describe other)
  end.

(** [Parser::expr]. *)
Definition expr : parser (Spanned Expr) :=
  token ← bump;
  let spanned e := mkSpanned e (tk_pos token) in
  match tk_kind token with
  | TStr s => mret (spanned (EStr s))
  | TInt n => mret (spanned (EInt n))
  | TTrue => mret (spanned (EBool true))
  | TFalse => mret (spanned (EBool false))
  | TIdent name => mret (spanned (EVar name))
  | TRef =>
      _ ← expect TLParen "after `ref`";
      target ← bump;
      match tk_kind target with
      | TStr effect =>
          _ ← expect TRParen "to close `ref(...)`";
          _ ← expect TDot "after `ref(...)` (which output field?)";
          field ← ident "as the output field after `.`";
          mret (spanned (ERef effect (node field)))
      | other => fail (tk_pos target)
          ("expected an effect name string inside `ref(...)`, found " +:+ describe other)
      end
  | other => fail (tk_pos token)
      ("expected a value (string, integer, boolean, binding, or `ref(...)`), found " +:+ describe other)
  end.

(** The [loop] of [Parser::effect]: each iteration consumes a token, and the
    last token is not one it accepts, so the number of tokens is enough fuel. *)
Fixpoint effect_body (fuel : nat) (inputs props : list (Spanned text * Spanned Expr))
  : parser (list (Spanned text * Spanned Expr) * list (Spanned text * Spanned Expr)) :=
  match fuel with
  | O => λ _, Panic
  | S fuel =>
      token ← peek;
      if decide (tk_kind token = TRBrace) then _ ← bump; mret (inputs, props)
      else if decide (tk_kind token = TAt) then
        _ ← bump;
        key ← ident "after `@`";
        _ ← expect TEq "after the property name";
        value ← expr;
        effect_body fuel inputs (props ++ [(key, value)])
      else
        key ← ident "as the input name (or `}` to close the effect)";
        _ ← expect TEq "after the input name";
        value ← expr;
        effect_body fuel (inputs ++ [(key, value)]) props
  end.

(** [Parser::effect]. *)
Definition effect (fuel : nat) : parser EffectDecl :=
  name ← ident "after `effect`";
  kind_token ← bump;
  match tk_kind kind_token with
  | TStr kind =>
      _ ← expect TLBrace "to open the effect body";
      '(inputs, props) ← effect_body fuel [] [];
      mret (mkDecl name kind inputs props)
  | other => fail (tk_pos kind_token)
      ("expected the effect kind as a string after `effect " +:+ utf8 (node name)
         +:+ "`, found " +:+ describe other)
  end.

(** The [loop] of [Parser::file]: every iteration consumes a token or returns. *)
Fixpoint file_loop (fuel : nat) (items : list Item) : parser (list Item) :=
  match fuel with
  | O => λ _, Panic
  | S fuel =>
      token ← bump;
      match tk_kind token with
      | TEof => mret items
      | TLet =>
          name ← ident "after `let`";
          _ ← expect TEq "after the binding name";
          value ← expr;
          file_loop fuel (items ++ [ILet name value])
      | TEffect =>
          decl ← effect fuel;
          file_loop fuel (items ++ [IEffect decl])
      | other => fail (tk_pos token)
          ("expected `let`, `effect`, or end of file, found " +:+ describe other)
      end
  end.

(** [Parser::file] from the first token. *)
Definition parse_file (tokens : list Token) : outcome CompileError (list Item) :=
  '(items, _) ← file_loop (S (length tokens)) [] (mkParser tokens 0); Ok items.

(** * Compilation *)

(** The inner [loop] of [interpolate]: the name up to the closing brace. *)
Fixpoint interpolation_name (name cs : text) : option (text * text) :=
  match cs with
  | [] => None
  | c :: cs =>
      if decide (c = ch "}") then Some (name, cs)
      else if word_char c then interpolation_name (name ++ [c]) cs
      else None
  end.

(** The [while] loop of [interpolate]; every iteration consumes a character. *)
Fixpoint interpolate_loop (fuel : nat) (bindings : btree Literal) (p : Pos) (output : string) (cs : text)
  : outcome CompileError string :=
  match fuel with
  | O => Panic
  | S fuel =>
      match cs with
      | [] => Ok output
      | c :: cs =>
          if decide (c = ch "{" ∧ head cs = Some (ch "{")) then
            interpolate_loop fuel bindings p (output +:+ "{") (tail cs)
          else if decide (c = ch "}" ∧ head cs = Some (ch "}")) then
            interpolate_loop fuel bindings p (output +:+ "}") (tail cs)
          else if decide (c = ch "{") then
            match interpolation_name [] cs with
            | None => Err (mkCompileError p "unclosed `{` in string; use `{{` for a literal brace")
            | Some (name, cs) =>
                match bt_get (utf8 name) bindings with
                | None => Err (mkCompileError p
                    ("string interpolates `{" +:+ utf8 name +:+ "}`, but no `let " +:+ utf8 name
                       +:+ "` precedes it"))
                | Some value => interpolate_loop fuel bindings p (output +:+ display_string value) cs
                end
            end
          else if decide (c = ch "}") then
            Err (mkCompileError p "stray `}` in string; use `}}` for a literal brace")
          else interpolate_loop fuel bindings p (output +:+ utf8_char c) cs
      end
  end.

(** [interpolate]. *)
Definition interpolate (raw : text) (bindings : btree Literal) (p : Pos) : outcome CompileError string :=
  interpolate_loop (S (length raw)) bindings p EmptyString raw.

(** [eval]. *)
Definition eval (e : Spanned Expr) (bindings : btree Literal) : outcome CompileError Value :=
  match node e with
  | EStr raw => s ← interpolate raw bindings (sp_pos e); Ok (VLiteral (LStr s))
  | EInt n => Ok (VLiteral (LInt n))
  | EBool b => Ok (VLiteral (LBool b))
  | EVar name =>
      match bt_get (utf8 name) bindings with
      | Some lit => Ok (VLiteral lit)
      | None => Err (mkCompileError (sp_pos e)
          ("`" +:+ utf8 name +:+ "` is not defined by an earlier `let`"))
      end
  | ERef effect field => Ok (VRef (mkOutputRef (utf8 effect) (utf8 field)))
  end.

(** One property of [effect_meta]. *)
Definition meta_prop (bindings : btree Literal) (meta : EffectMeta) (kv : Spanned text * Spanned Expr)
  : outcome CompileError EffectMeta :=
  let '(key, value) := kv in
  evaluated ← eval value bindings;
  if decide (node key = chars_of "idempotent") then
    match evaluated with
    | VLiteral (LBool b) => Ok (mkEffectMeta b (rollback_hint meta))
    | _ => Err (mkCompileError (sp_pos value) "`@idempotent` takes `true` or `false`")
    end
  else if decide (node key = chars_of "rollback") then
    match evaluated with
    | VLiteral (LStr hint) => Ok (mkEffectMeta (idempotent meta) (Some hint))
    | _ => Err (mkCompileError (sp_pos value) "`@rollback` takes a string hint")
    end
  else Err (mkCompileError (sp_pos key)
    ("unknown property `@" +:+ utf8 (node key) +:+ "` (supported: @idempotent, @rollback)")).

(** [effect_meta]. *)
Definition effect_meta (decl : EffectDecl) (bindings : btree Literal) : outcome CompileError EffectMeta :=
  foldM (meta_prop bindings) EffectMeta_default (dc_props decl).

(** The loop over an effect's inputs in [compile]. *)
Definition compile_input (bindings : btree Literal) (inputs : btree Value)
    (kv : Spanned text * Spanned Expr) : outcome CompileError (btree Value) :=
  let '(key, value) := kv in
  match bt_get (utf8 (node key)) inputs with
  | Some _ => Err (mkCompileError (sp_pos key) ("duplicate input `" +:+ utf8 (node key) +:+ "`"))
  | None => v ← eval value bindings; Ok (bt_insert (utf8 (node key)) v inputs)
  end.

(** The locals of [compile]. *)
Record CompileState := mkCompile {
  cs_bindings : btree Literal;
  cs_plan : Plan;
  cs_sites : btree Pos }.

Definition compile_let (st : CompileState) (name : Spanned text) (value : Spanned Expr)
  : outcome CompileError CompileState :=
  match bt_get (utf8 (node name)) (cs_bindings st) with
  | Some _ => Err (mkCompileError (sp_pos name)
      ("`" +:+ utf8 (node name) +:+ "` is already bound by an earlier `let`"))
  | None =>
      v ← eval value (cs_bindings st);
      match v with
      | VLiteral lit =>
          Ok (mkCompile (bt_insert (utf8 (node name)) lit (cs_bindings st)) (cs_plan st) (cs_sites st))
      | VRef _ => Err (mkCompileError (sp_pos value)
          "`let` bindings hold literals; `ref(...)` belongs in effect inputs")
      end
  end.

Definition compile_effect (st : CompileState) (decl : EffectDecl) : outcome CompileError CompileState :=
  inputs ← foldM (compile_input (cs_bindings st)) [] (dc_inputs decl);
  meta ← effect_meta decl (cs_bindings st);
  let name := utf8 (node (dc_name decl)) in
  match Plan_add (cs_plan st) (mkEffect name (utf8 (dc_kind decl)) (utf8 (dc_kind decl)) inputs meta) with
  | Ok plan => Ok (mkCompile (cs_bindings st) plan (bt_insert name (sp_pos (dc_name decl)) (cs_sites st)))
  | Err _ => Err (mkCompileError (sp_pos (dc_name decl))
      ("an effect named `" +:+ name +:+ "` already exists"))
  | Panic => Panic
  end.

(** One iteration of the loop over the items. *)
Definition compile_item (st : CompileState) (i : Item) : outcome CompileError CompileState :=
  match i with
  | ILet name value => compile_let st name value
  | IEffect decl => compile_effect st decl
  end.

(** One value of the final check of references. *)
Definition check_site (sites : btree Pos) (e : Effect) (v : Value) : outcome CompileError () :=
  match v with
  | VRef r =>
      match bt_get (or_effect r) sites with
      | Some _ => Ok ()
      | None =>
          site ← unwrap (bt_get (ef_name e) sites);
          Err (mkCompileError site ("effect `" +:+ ef_name e +:+ "` references `ref("
            +:+ String (ascii_of_N 34) (or_effect r +:+ String (ascii_of_N 34) ")`, which is not declared")))
      end
  | VLiteral _ => Ok ()
  end.

Definition compile_items (items : list Item) : outcome CompileError Plan :=
  st ← foldM compile_item (mkCompile [] Plan_new []) items;
  _ ← foldM (λ _ e, foldM (λ _ v, check_site (cs_sites st) e v) () (bt_values (ef_inputs e)))
        () (pl_effects (cs_plan st));
  Ok (cs_plan st).

(** [compile]. *)
Definition compile (source : text) : outcome CompileError Plan :=
  tokens ← lex_tokens source;
  items ← parse_file tokens;
  compile_items items.

End lang.

(** Tables in which only ASCII letters and digits count. *)
Definition ascii_only : UnicodeTables := {| uni_alphabetic := λ _, false; uni_numeric := λ _, false |}.
