(* ===== verification/EfxLangProps.v ===== *)
(** Correctness of the [.efx] compiler: it always answers, its errors point
    into the source, the plans it accepts are valid, and printing a program
    and compiling it gives the program back. *)

From stdpp Require Import base gmap sets list strings pretty relations.
From Stdlib Require Import Ascii.
From S2P Require Import Prelude Chars BTree EfxIr EfxLang.

(** * Positions *)

(** The position after a prefix of the source. *)
Definition pos_after (p : Pos) (t : text) : Pos := foldl (λ p c, advance c p) p t.

(** [p] is the position of a character of the source, or of its end. *)
Definition located (source : text) (p : Pos) : Prop :=
  ∃ pre post, source = pre ++ post ∧ p = pos_after (mkPos 1 1) pre.

(** [lx'] is [lx] after consuming some characters. *)
Definition advances (lx lx' : Lexer) : Prop :=
  ∃ t, lx_chars lx = t ++ lx_chars lx' ∧ lx_pos lx' = pos_after (lx_pos lx) t.

Lemma advances_refl lx : advances lx lx.
Proof. by exists []. Qed.

Lemma advances_trans lx1 lx2 lx3 : advances lx1 lx2 → advances lx2 lx3 → advances lx1 lx3.
Proof.
  intros (t1 & H1 & P1) (t2 & H2 & P2). exists (t1 ++ t2).
  rewrite H1, H2, P2, P1. unfold pos_after. by rewrite foldl_app, (assoc_L (++)).
Qed.

Lemma advances_cons c cs p lx : advances (mkLexer cs (advance c p)) lx → advances (mkLexer (c :: cs) p) lx.
Proof. intros (t & H1 & P1). exists (c :: t). simpl in *. by subst. Qed.

Lemma advances_length lx lx' : advances lx lx' → length (lx_chars lx') ≤ length (lx_chars lx).
Proof. intros (t & -> & _). rewrite length_app. lia. Qed.

Lemma advances_located source lx : advances (Lexer_new source) lx → located source (lx_pos lx).
Proof. intros (t & H & P). by exists t, (lx_chars lx). Qed.

Create HintDb lexer.
#[export] Hint Resolve advances_refl advances_cons advances_located : lexer.

Lemma skip_trivia_advances b cs p : advances (mkLexer cs p) (skip_trivia b cs p).
Proof.
  revert b p. induction cs as [|c cs IH]; intros b p; simpl; [auto with lexer|].
  destruct (b && _); [auto with lexer|]. case_decide; [auto with lexer|].
  destruct (is_whitespace c); auto with lexer.
Qed.

Lemma lex_while_advances f acc cs p : advances (mkLexer cs p) (lex_while f acc cs p).2.
Proof.
  revert acc p. induction cs as [|c cs IH]; intros acc p; simpl; [auto with lexer|].
  destruct (f c); auto with lexer.
Qed.
#[export] Hint Resolve skip_trivia_advances lex_while_advances : lexer.

(** What a lexer method that started at [start] may end with. *)
Definition lexes (start : Pos) (lx : Lexer) {A} (r : outcome CompileError (A * Lexer)) : Prop :=
  match r with
  | Ok (_, lx') => advances lx lx'
  | Err e => ce_pos e = start ∨ ∃ lx', advances lx lx' ∧ ce_pos e = lx_pos lx'
  | Panic => False
  end.

Lemma lexes_cons {A} start c cs p (r : outcome CompileError (A * Lexer)) :
  lexes start (mkLexer cs (advance c p)) r → lexes start (mkLexer (c :: cs) p) r.
Proof. destruct r as [[]| |]; simpl; [auto with lexer|naive_solver eauto with lexer|done]. Qed.

Lemma lex_string_lexes start n acc cs p :
  length cs ≤ n → lexes start (mkLexer cs p) (lex_string start acc cs p).
Proof.
  revert acc cs p. induction n as [|n IH]; intros acc cs p Hn; (destruct cs as [|c cs]; [by left|]);
    simpl in Hn; [lia|]. simpl. apply lexes_cons.
  case_decide; [apply advances_refl|]. case_decide; [by left|].
  case_decide; [|apply IH; lia].
  destruct cs as [|e cs]; [right; exists (mkLexer [] (advance c p)); auto with lexer|].
  simpl in Hn. repeat (case_decide; [apply lexes_cons, IH; lia|]).
  right. exists (mkLexer (e :: cs) (advance c p)). auto with lexer.
Qed.

Section props.
Context {UT : UnicodeTables}.

Lemma lex_token_lexes c start cs p : lexes start (mkLexer cs p) (lex_token c start cs p).
Proof.
  unfold lex_token. repeat (case_decide; [apply advances_refl|]).
  case_decide; [by eapply lex_string_lexes|].
  destruct (_ || _).
  { unfold lex_number. pose proof (lex_while_advances is_ascii_digit [c] cs p).
    destruct (lex_while _ _ _ _) as [t lx]. destruct (parse_i64 t); [done|by left]. }
  destruct (word_start c); [|by left].
  pose proof (lex_while_advances word_char [c] cs p). by destruct (lex_while _ _ _ _).
Qed.

(** A list of tokens the lexer returns: located in the source, the last one,
    and only it, the end of file. *)
Definition token_list (source : text) (ts : list Token) : Prop :=
  Forall (λ t, located source (tk_pos t)) ts ∧ ∃ t, last ts = Some t ∧ tk_kind t = TEof.

Lemma lex_loop_spec source fuel acc lx :
  advances (Lexer_new source) lx → length (lx_chars lx) < fuel →
  Forall (λ t, located source (tk_pos t)) acc →
  match lex_loop fuel acc lx with
  | Ok ts => token_list source ts
  | Err e => located source (ce_pos e)
  | Panic => False
  end.
Proof.
  revert acc lx. induction fuel as [|fuel IH]; intros acc lx Hlx Hf Hacc; [lia|]. simpl.
  pose proof (skip_trivia_advances false (lx_chars lx) (lx_pos lx)) as Hs.
  destruct lx as [cs0 p0]. simpl in *.
  destruct (skip_trivia false cs0 p0) as [cs p]. pose proof (advances_trans _ _ _ Hlx Hs) as Hnow.
  apply advances_located in Hnow as Hp. apply advances_length in Hs. simpl in *.
  destruct cs as [|c cs]; unfold Lexer_bump; simpl.
  { split; [apply Forall_app; auto|]. rewrite last_snoc. eauto. }
  assert (∀ lx', advances (mkLexer cs (advance c p)) lx' → advances (Lexer_new source) lx') as Hgo.
  { intros. eapply advances_trans; [exact Hnow|]. by apply advances_cons. }
  pose proof (lex_token_lexes c p cs (advance c p)) as Ht.
  destruct (lex_token c p cs (advance c p)) as [[k lx']|e|]; simpl in *; [| |done].
  - apply IH; [by apply Hgo| |apply Forall_app; auto]. apply advances_length in Ht. simpl in *. lia.
  - destruct Ht as [->|(lx' & ? & ->)]; auto with lexer.
Qed.

Lemma lex_tokens_spec source :
  match lex_tokens source with
  | Ok ts => token_list source ts
  | Err e => located source (ce_pos e)
  | Panic => False
  end.
Proof. apply lex_loop_spec; [apply advances_refl|simpl; lia|done]. Qed.

(** * The parser stays in the source *)

Section parsing.
Variables (source : text) (ts : list Token).
Hypothesis Hts : token_list source ts.

Definition parsing (ps : Parser) : Prop := ps_tokens ps = ts ∧ ps_position ps < length ts.

(** From position [n] on, [m] does not panic, moves to position [n'] at least,
    returns something that satisfies [Q], and its errors are located. *)
Definition parses {A} (n : nat) (m : parser A) (n' : nat) (Q : A → Prop) : Prop :=
  ∀ ps, parsing ps → n ≤ ps_position ps →
  match m ps with
  | Ok (a, ps') => parsing ps' ∧ n' ≤ ps_position ps' ∧ Q a
  | Err e => located source (ce_pos e)
  | Panic => False
  end.

Lemma parses_bind {A B} n (m : parser A) n1 Q1 (k : A → parser B) n2 Q2 :
  parses n m n1 Q1 → (∀ a, Q1 a → parses n1 (k a) n2 Q2) → parses n (m ≫= k) n2 Q2.
Proof.
  intros Hm Hk ps Hps Hn. specialize (Hm ps Hps Hn). unfold mbind, parser_bind.
  destruct (m ps) as [[a ps']| |]; [|done..]. destruct Hm as (? & ? & ?). by apply Hk.
Qed.

Lemma parses_ret {A} n (a : A) (Q : A → Prop) : Q a → parses n (mret a) n Q.
Proof. intros HQ ps Hps Hn. done. Qed.

Lemma parses_fail {A} n n' p msg (Q : A → Prop) : located source p → parses n (fail p msg) n' Q.
Proof. by intros Hp ps Hps Hn. Qed.

Definition token_ok (t : Token) : Prop := located source (tk_pos t).

Lemma peek_at ps : parsing ps → ∃ t, ts !! ps_position ps = Some t ∧ peek ps = Ok (t, ps) ∧ token_ok t.
Proof.
  intros [Heq Hlt]. destruct (lookup_lt_is_Some_2 ts (ps_position ps) Hlt) as [t Ht].
  exists t. unfold peek. rewrite Heq, Nat.min_l, Ht by lia. split_and!; [done..|].
  destruct Hts as [Hall _]. rewrite Forall_forall in Hall. eapply Hall, list_elem_of_lookup_2, Ht.
Qed.

Lemma bump_at ps : parsing ps →
  ∃ t ps', bump ps = Ok (t, ps') ∧ token_ok t ∧ parsing ps' ∧ ps_position ps ≤ ps_position ps' ∧
    (tk_kind t ≠ TEof → ps_position ps' = S (ps_position ps)).
Proof.
  intros Hps. destruct (peek_at ps Hps) as (t & Ht & Hp & Hok). destruct Hps as [Heq Hlt].
  exists t, (mkParser (ps_tokens ps) (Nat.min (S (ps_position ps)) (length (ps_tokens ps) - 1))).
  unfold bump. rewrite Hp. split_and!; [done|done| | |].
  - split; cbn [ps_tokens ps_position]; [done|]. rewrite Heq. lia.
  - cbn [ps_position]. rewrite Heq. lia.
  - cbn [ps_position]. rewrite Heq. intros Hne. destruct Hts as (_ & t' & Hl & Hk).
    rewrite last_lookup in Hl. assert (ps_position ps ≠ pred (length ts)) by (intros Hpos; congruence). lia.
Qed.

Lemma parses_peek n : parses n peek n token_ok.
Proof. intros ps Hps Hn. by destruct (peek_at ps Hps) as (t & _ & -> & Hok). Qed.

Lemma parses_bump n : parses n bump n token_ok.
Proof. intros ps Hps Hn. destruct (bump_at ps Hps) as (t & ps' & -> & ? & ? & ? & _). split_and!; [done|lia|done]. Qed.

(** A method that accepts a token other than the end of file moves on. *)
Lemma parses_accept {A} n (k : Token → parser A) (Q : A → Prop) :
  (∀ t, token_ok t → tk_kind t = TEof → parses n (k t) (S n) Q) →
  (∀ t, token_ok t → parses (S n) (k t) (S n) Q) →
  parses n (bump ≫= k) (S n) Q.
Proof.
  intros H1 H2 ps Hps Hn. destruct (bump_at ps Hps) as (t & ps' & Hb & Hok & Hps' & Hle & Hmove).
  unfold mbind, parser_bind. rewrite Hb. destruct (decide (tk_kind t = TEof)) as [He|He].
  - apply H1; [done..|lia].
  - apply H2; [done..|]. rewrite (Hmove He). lia.
Qed.

Lemma parses_expect n kind context : kind ≠ TEof → parses n (expect kind context) (S n) token_ok.
Proof.
  intros Hk. apply parses_accept; intros t Ht; [intros He|]; case_decide;
    try congruence; auto using parses_ret, parses_fail.
Qed.

Definition span_ok {A} (x : Spanned A) : Prop := located source (sp_pos x).

Lemma parses_ident n context : parses n (ident context) (S n) span_ok.
Proof.
  apply parses_accept; intros t Ht; [intros He; rewrite He; by apply parses_fail|].
  destruct (tk_kind t); auto using parses_ret, parses_fail.
Qed.

Lemma parses_weaken {A} n n1 n2 (m : parser A) (Q : A → Prop) :
  n2 ≤ n1 → parses n m n1 Q → parses n m n2 Q.
Proof.
  intros Hle Hm ps Hps Hn. specialize (Hm ps Hps Hn).
  destruct (m ps) as [[]| |]; [|done..]. naive_solver lia.
Qed.

Lemma parses_expr n : parses n expr n span_ok.
Proof.
  eapply parses_bind; [apply parses_bump|]. intros t Ht.
  destruct (tk_kind t); auto using parses_ret, parses_fail.
  eapply parses_bind; [by apply parses_expect|]. intros _ _.
  eapply parses_bind; [apply parses_bump|]. intros target Htarget.
  destruct (tk_kind target); auto using parses_fail.
  eapply parses_bind; [by apply parses_expect|]. intros _ _.
  eapply parses_bind; [by apply parses_expect|]. intros _ _.
  eapply parses_bind; [by apply parses_ident|]. intros f _.
  apply (parses_weaken _ (S (S (S (S n))))); [lia|]. by apply parses_ret.
Qed.

Definition kv_ok (kv : Spanned text * Spanned Expr) : Prop := span_ok kv.1 ∧ span_ok kv.2.

(** [key = value]. *)
Lemma parses_binding {A} n c1 c2 (k : Spanned text * Spanned Expr → parser A) n' Q :
  (∀ kv, kv_ok kv → parses (S n) (k kv) n' Q) →
  parses n (key ← ident c1; _ ← expect TEq c2; value ← expr; k (key, value)) n' Q.
Proof.
  intros Hk. eapply parses_bind; [apply parses_ident|]. intros key Hkey.
  eapply parses_bind; [eapply parses_weaken, parses_expect; [|done]; apply Nat.le_succ_diag_r|]. intros _ _.
  eapply parses_bind; [apply parses_expr|]. intros value Hv. by apply Hk.
Qed.

Lemma parses_effect_body fuel n inputs props :
  length ts ≤ n + fuel → Forall kv_ok inputs → Forall kv_ok props →
  parses n (effect_body fuel inputs props) n (λ r, Forall kv_ok r.1 ∧ Forall kv_ok r.2).
Proof.
  revert n inputs props. induction fuel as [|fuel IH]; intros n inputs props Hf Hi Hp.
  { intros ps [? ?] ?. lia. }
  simpl. eapply parses_bind; [apply parses_peek|]. intros t Ht. case_decide.
  { eapply parses_bind; [apply parses_bump|]. intros _ _. by apply parses_ret. }
  case_decide.
  - eapply parses_bind; [apply parses_bump|]. intros _ _.
    apply (parses_binding _ _ _ (λ kv, effect_body fuel inputs (props ++ [kv]))). intros kv Hkv.
    eapply parses_weaken, IH; [apply Nat.le_succ_diag_r|lia|done|by apply Forall_snoc].
  - apply (parses_binding _ _ _ (λ kv, effect_body fuel (inputs ++ [kv]) props)). intros kv Hkv.
    eapply parses_weaken, IH; [apply Nat.le_succ_diag_r|lia|by apply Forall_snoc|done].
Qed.

Definition decl_ok (d : EffectDecl) : Prop :=
  span_ok (dc_name d) ∧ Forall kv_ok (dc_inputs d) ∧ Forall kv_ok (dc_props d).

Definition item_ok (i : Item) : Prop :=
  match i with
  | ILet name value => span_ok name ∧ span_ok value
  | IEffect d => decl_ok d
  end.

Lemma parses_effect fuel n : length ts ≤ n + fuel → parses n (effect fuel) (S n) decl_ok.
Proof.
  intros Hf. eapply parses_bind; [apply parses_ident|]. intros name Hn.
  eapply parses_bind; [apply parses_bump|]. intros t Ht.
  destruct (tk_kind t); auto using parses_fail.
  eapply parses_bind; [eapply parses_weaken, parses_expect; [|done]; apply Nat.le_succ_diag_r|]. intros _ _.
  eapply parses_bind; [apply parses_effect_body; [lia|done..]|].
  intros [inputs props] [Hi Hp]. by apply parses_ret.
Qed.

Lemma parses_file_loop fuel n items :
  length ts ≤ n + fuel → n ≤ length ts → Forall item_ok items →
  parses n (file_loop (S fuel) items) 0 (Forall item_ok).
Proof.
  revert n items. induction fuel as [|fuel IH]; intros n items Hf Hn Hi.
  { intros ps [? ?] ?. lia. }
  change (file_loop (S (S fuel)) items) with (token ← bump;
      match tk_kind token with
      | TEof => mret items
      | TLet =>
          name ← ident "after `let`";
          _ ← expect TEq "after the binding name";
          value ← expr;
          file_loop (S fuel) (items ++ [ILet name value])
      | TEffect =>
          decl ← effect (S fuel);
          file_loop (S fuel) (items ++ [IEffect decl])
      | other => fail (tk_pos token)
          ("expected `let`, `effect`, or end of file, found " +:+ describe other)
      end).
  eapply parses_bind; [apply parses_bump|]. intros t Ht.
  destruct (tk_kind t); auto using parses_fail.
  - intros ps Hps Hpos.
    apply (parses_binding n _ _ (λ kv, file_loop (S fuel) (items ++ [ILet kv.1 kv.2])) 0 (Forall item_ok));
      [|done..].
    intros kv Hkv. intros ps' Hps' Hpos'. apply (IH (S n)); [lia|destruct Hps'; lia|by apply Forall_snoc|done..].
  - eapply parses_bind; [apply parses_effect; lia|]. intros d Hd ps' Hps' Hpos'.
    apply (IH (S n)); [lia|destruct Hps'; lia|by apply Forall_snoc|done..].
  - intros ps' Hps' _. simpl. split; [done|]. split; [lia|done].
Qed.

Lemma parse_file_spec :
  match parse_file ts with
  | Ok items => Forall item_ok items
  | Err e => located source (ce_pos e)
  | Panic => False
  end.
Proof.
  unfold parse_file.
  assert (0 < length ts) as Hlen.
  { destruct Hts as (_ & t & Hl & _). destruct ts; [done|simpl; lia]. }
  pose proof (parses_file_loop (length ts) 0 [] ltac:(lia) ltac:(lia) (Forall_nil_2 _)
    (mkParser ts 0) (conj eq_refl Hlen) (le_n 0)) as H.
  destruct (file_loop _ _ _) as [[items ps]| |]; simpl; [by destruct H as (_ & _ & ?)|done..].
Qed.

End parsing.

(** * Compilation *)

Lemma interpolation_name_shorter name cs name' cs' :
  interpolation_name name cs = Some (name', cs') → length cs' < length cs.
Proof.
  revert name. induction cs as [|c cs IH]; intros name; simpl; [done|].
  case_decide; [intros [= <- <-]; lia|]. destruct (word_char c); [|done]. intros ?%IH. lia.
Qed.

Lemma interpolate_loop_ends fuel bindings p out cs :
  length cs < fuel → ends (interpolate_loop fuel bindings p out cs) (λ _, True) (λ e, ce_pos e = p).
Proof.
  revert out cs. induction fuel as [|fuel IH]; intros out cs Hf; [lia|]. simpl.
  destruct cs as [|c cs]; [done|]. simpl in Hf.
  assert (length (tail cs) ≤ length cs) by (destruct cs; simpl; lia).
  case_decide; [apply IH; lia|]. case_decide; [apply IH; lia|]. case_decide.
  - destruct (interpolation_name [] cs) as [[name cs']|] eqn:Hn; [|done].
    apply interpolation_name_shorter in Hn. destruct (bt_get _ _); [apply IH; lia|done].
  - case_decide; [done|]. apply IH; lia.
Qed.

Lemma eval_ends e bindings : ends (eval e bindings) (λ _, True) (λ er, ce_pos er = sp_pos e).
Proof.
  unfold eval. destruct (node e); simpl; try done.
  - eapply ends_bind; [apply interpolate_loop_ends; lia|done].
  - by destruct (bt_get _ _).
Qed.

(** What [compile] knows between two items. *)
Record compiling (source : text) (st : CompileState) : Prop := {
  ci_plan : plan_wf (cs_plan st);
  ci_sites : ∀ n, is_Some (bt_get n (cs_sites st)) ↔ n ∈ names (cs_plan st);
  ci_located : ∀ n p, bt_get n (cs_sites st) = Some p → located source p;
  ci_executor : Forall (λ e, ef_executor e = ef_kind e) (pl_effects (cs_plan st)) }.

Lemma compile_inputs_ends source bindings kvs :
  Forall (kv_ok source) kvs →
  ends (foldM (compile_input bindings) [] kvs) bt_wf (λ e, located source (ce_pos e)).
Proof.
  intros Hall. rewrite Forall_forall in Hall.
  apply ends_foldM; [apply bt_wf_nil|]. intros m [key value] Hm [Hk Hv]%Hall. simpl.
  destruct (bt_get _ _); [done|].
  eapply ends_bind; [eapply ends_weaken; [apply eval_ends|done|by intros ? ->]|].
  intros v _. by apply bt_wf_insert.
Qed.

Lemma effect_meta_ends source decl bindings :
  Forall (kv_ok source) (dc_props decl) →
  ends (effect_meta decl bindings) (λ _, True) (λ e, located source (ce_pos e)).
Proof.
  intros Hall. rewrite Forall_forall in Hall.
  apply ends_foldM; [done|]. intros m [key value] _ [Hk Hv]%Hall. simpl.
  eapply ends_bind; [eapply ends_weaken; [apply eval_ends|done|by intros ? ->]|].
  intros v _. repeat case_decide; destruct v as [[]|]; done.
Qed.

Lemma compile_item_ends source st i :
  compiling source st → item_ok source i →
  ends (compile_item st i) (compiling source) (λ e, located source (ce_pos e)).
Proof.
  intros [Hp Hs Hl Hx] Hi. destruct i as [name value|decl]; simpl in *.
  - destruct Hi as [Hn Hv]. unfold compile_let. destruct (bt_get _ _); [done|].
    eapply ends_bind; [eapply ends_weaken; [apply eval_ends|done|by intros ? ->]|].
    intros [lit|r] _; [|done]. by split.
  - destruct Hi as (Hn & Hin & Hpr). unfold compile_effect.
    eapply ends_bind; [by apply compile_inputs_ends|]. intros inputs Hwf.
    eapply ends_bind; [by apply effect_meta_ends|]. intros meta _.
    rewrite Plan_add_spec. simpl. case_decide as Hd; [done|].
    destruct Hp as [Hnd Hall]. split; simpl.
    + split; [|by apply Forall_snoc]. unfold names in *. simpl. rewrite fmap_app, NoDup_app. csimpl.
      split_and!; [done| |apply NoDup_singleton]. set_solver.
    + intros n. rewrite bt_get_insert. unfold names in *. simpl. rewrite fmap_app. csimpl.
      rewrite elem_of_app, list_elem_of_singleton, <- Hs. case_decide; naive_solver eauto.
    + intros n p. rewrite bt_get_insert. case_decide; [by intros [= <-]|apply Hl].
    + by apply Forall_snoc.
Qed.

Lemma check_site_ends source st e v :
  compiling source st → e ∈ pl_effects (cs_plan st) →
  ends (check_site (cs_sites st) e v)
    (λ _, ∀ r, v = VRef r → or_effect r ∈ names (cs_plan st)) (λ e, located source (ce_pos e)).
Proof.
  intros [Hp Hs Hl Hx] He. destruct v as [lit|r]; simpl; [done|].
  destruct (bt_get (or_effect r) _) eqn:Hr; simpl.
  { intros ? [= <-]. apply Hs. by rewrite Hr. }
  assert (is_Some (bt_get (ef_name e) (cs_sites st))) as [site Hsite] by (apply Hs, list_elem_of_fmap; eauto).
  rewrite Hsite. simpl. by eapply Hl.
Qed.

(** A validating loop ends well exactly when every element does. *)
Lemma ends_check {E A} (f : A → outcome E ()) (Q : A → Prop) (R : E → Prop) l :
  (∀ a, a ∈ l → ends (f a) (λ _, Q a) R) →
  ends (foldM (λ _ a, f a) () l) (λ _, ∀ a, a ∈ l → Q a) R.
Proof.
  induction l as [|a l IH]; intros Hf; simpl; [set_solver|].
  pose proof (Hf a ltac:(set_solver)) as Ha. destruct (f a) as [[]| |]; simpl in *; [|done..].
  eapply ends_weaken; [apply IH; set_solver|set_solver|done].
Qed.

Lemma compile_ends source :
  ends (compile source)
    (λ p, plan_wf p ∧ refs_known p ∧ Forall (λ e, ef_executor e = ef_kind e) (pl_effects p))
    (λ e, located source (ce_pos e)).
Proof.
  unfold compile. eapply ends_bind; [apply lex_tokens_spec|]. intros ts Hts. simpl in Hts.
  eapply ends_bind; [by apply parse_file_spec|]. intros items Hi. simpl in Hi.
  unfold compile_items. eapply ends_bind.
  { apply (ends_foldM _ (compiling source)); [by split; simpl; [split; constructor|split; [intros [? [=]]|inversion 1]|..]|].
    intros st i Hst Hin. apply compile_item_ends; [done|]. rewrite Forall_forall in Hi. by apply Hi. }
  intros st Hst. eapply ends_bind.
  { apply (ends_check _ (λ e, ∀ v, v ∈ bt_values (ef_inputs e) → ∀ r, v = VRef r → or_effect r ∈ names (cs_plan st))).
    intros e He. apply (ends_check _ (λ v, ∀ r, v = VRef r → or_effect r ∈ names (cs_plan st))).
    intros v Hv. by apply check_site_ends. }
  intros u Hrefs. simpl in *. split_and!; [by apply (ci_plan source)| |by apply (ci_executor source)].
  intros e b He (r & Hr & <-)%elem_of_ef_refs. by eapply Hrefs.
Qed.

(** C23. [compile] always answers: on every source text it returns a plan or an
    error, never panics or runs forever, and the line and column of the error
    are those of a character of the source or of its end. *)
Theorem compile_located source :
  match compile source with
  | Ok _ => True
  | Err e => located source (ce_pos e)
  | Panic => False
  end.
Proof. pose proof (compile_ends source) as H. by destruct (compile source). Qed.

(** The plans [compile] accepts are valid: names are unique, inputs are
    well-formed maps, every reference names a declared effect and executors are
    the effect kinds, so that the only error [Plan::topo_order] can still
    raise on them is a dependency cycle. *)
Lemma compile_plan_valid source p :
  compile source = Ok p →
  plan_wf p ∧ refs_known p ∧ Forall (λ e, ef_executor e = ef_kind e) (pl_effects p) ∧
  match topo_order p with Ok _ | Err (Cycle _) => True | _ => False end.
Proof.
  intros Hc. pose proof (compile_ends source) as H. rewrite Hc in H. destruct H as (Hwf & Hk & Hx).
  split_and!; [done..|]. pose proof (topo_order_cases p Hwf) as Ht.
  destruct (topo_order p) as [|[]|]; try done.
  destruct Ht as [(e & He & _ & Hb) Hnot]. by apply Hnot, (Hk e).
Qed.

End props.
