(* ===== verification/EfxLangPrint.v ===== *)
(** Printing [.efx] programs and compiling them back: a reference printer for
    tokens, items and plans, and the round trips through the lexer, the parser
    and the compiler. *)

From stdpp Require Import base gmap sets list strings pretty relations.
From Stdlib Require Import Ascii.
From S2P Require Import Prelude Chars BTree EfxIr EfxLang EfxLangProps.

(** * Printing tokens *)

Definition space : char := 32%N.

Definition escape_char (c : char) : text :=
  if decide (c = 34%N) then [ch "\"; 34%N]
  else if decide (c = ch "\") then [ch "\"; ch "\"]
  else if decide (c = newline) then [ch "\"; ch "n"]
  else [c].

Definition print_string (s : text) : text := 34%N :: concat (escape_char <$> s) ++ [34%N].

Definition print_int (n : Z) : text :=
  if decide (n < 0)%Z then ch "-" :: print_nat (Z.to_N (- n)) else print_nat (Z.to_N n).

Definition print_kind (k : TokenKind) : text :=
  match k with
  | TIdent name => name
  | TStr s => print_string s
  | TInt n => print_int n
  | TLet => chars_of "let"
  | TEffect => chars_of "effect"
  | TRef => chars_of "ref"
  | TTrue => chars_of "true"
  | TFalse => chars_of "false"
  | TEq => [ch "="]
  | TLBrace => [ch "{"]
  | TRBrace => [ch "}"]
  | TLParen => [ch "("]
  | TRParen => [ch ")"]
  | TDot => [ch "."]
  | TAt => [ch "@"]
  | TEof => []
  end.

(** Every token after a space, and a final newline. *)
Definition print_tokens (ks : list TokenKind) : text :=
  concat ((λ k, space :: print_kind k) <$> ks) ++ [newline].

(** * Integers *)

Lemma parse_print_int n : (i64_min <= n <= i64_max)%Z → parse_i64 (print_int n) = Some n.
Proof.
  intros Hr. unfold print_int, parse_i64. case_decide as Hneg.
  - destruct (print_nat_ok (Z.to_N (- n))) as (Hv & Hd & Hne).
    rewrite decide_True by done. rewrite decide_False by done.
    rewrite forallb_Forall by done. rewrite Hv, decide_True; [f_equal|]; lia.
  - destruct (print_nat_ok (Z.to_N n)) as (Hv & Hd & Hne).
    destruct (print_nat (Z.to_N n)) as [|c t] eqn:Ht; [done|].
    inversion Hd as [|? ? Hc _]; subst. apply in_range_spec in Hc.
    rewrite decide_False by (unfold ch; simpl; lia). rewrite decide_False by done.
    rewrite forallb_Forall by done. rewrite Hv, decide_True; [f_equal|]; lia.
Qed.

(** * The lexer reads printed tokens back *)

Section roundtrip.
Context {UT : UnicodeTables} {UL : UnicodeLaws}.

(** An identifier that is not a keyword. *)
Definition valid_ident (w : text) : Prop :=
  (∃ c t, w = c :: t ∧ word_start c = true ∧ Forall (λ c, word_char c = true) t) ∧
  keyword w = TIdent w.

Definition valid_kind (k : TokenKind) : Prop :=
  match k with
  | TIdent w => valid_ident w
  | TInt n => (i64_min <= n <= i64_max)%Z
  | TEof => False
  | _ => True
  end.

(** The separators [print_tokens] puts after a token. *)
Definition delimiter (d : char) : Prop := d = space ∨ d = newline.

Lemma print_tokens_delimited ks : ∃ d r, print_tokens ks = d :: r ∧ delimiter d.
Proof. unfold print_tokens. destruct ks as [|k ks]; simpl; eexists _, _; (split; [done|]); [by right|by left]. Qed.

Lemma word_start_cases c :
  word_start c = true → (65 <= c <= 90 ∨ 97 <= c <= 122 ∨ c = 95 ∨ 128 <= c)%N.
Proof.
  unfold word_start, is_alphabetic, is_ascii_alphabetic.
  rewrite orb_true_iff, bool_decide_eq_true. case_decide.
  - rewrite orb_true_iff, !in_range_spec. change (ch "_") with 95%N. lia.
  - change (ch "_") with 95%N. lia.
Qed.

Lemma word_start_not_space c : word_start c = true → is_whitespace c = false.
Proof.
  intros Hw. destruct (decide (c < 128)%N) as [Hlt|Hge].
  - apply word_start_cases in Hw. unfold is_whitespace.
    rewrite !(proj2 (in_range_false _ _ _)) by lia. simpl.
    repeat (rewrite (proj2 (N.eqb_neq _ _)) by lia). done.
  - apply alphabetic_not_space. revert Hw. unfold word_start, is_alphabetic.
    rewrite decide_False by done. rewrite orb_true_iff, bool_decide_eq_true.
    intros [|Heq]; [done|]. subst. by vm_compute in Hge.
Qed.

Lemma delimiter_not_word d : delimiter d → word_char d = false ∧ is_ascii_digit d = false.
Proof. by intros [->| ->]. Qed.

Lemma lex_while_stops f acc t d r p :
  Forall (λ c, f c = true) t → f d = false →
  lex_while f acc (t ++ d :: r) p = (acc ++ t, mkLexer (d :: r) (pos_after p t)).
Proof.
  intros Ht Hd. revert acc p. induction Ht as [|c t Hc _ IH]; intros acc p; simpl.
  - by rewrite Hd, app_nil_r.
  - rewrite Hc, IH. by rewrite <- (assoc_L (++)).
Qed.

Lemma lex_string_escaped start acc s rest p :
  ∃ p', lex_string start acc (concat (escape_char <$> s) ++ 34%N :: rest) p
        = Ok (TStr (acc ++ s), mkLexer rest p').
Proof.
  revert acc p. induction s as [|c s IH]; intros acc p; csimpl.
  { rewrite app_nil_r. eauto. }
  unfold escape_char. change (c :: s) with ([c] ++ s). rewrite (assoc_L (++) acc).
  case_decide; [subst; apply IH|]. case_decide; [subst; apply IH|].
  case_decide; [subst; apply IH|]. csimpl.
  rewrite !decide_False by done. apply IH.
Qed.

Lemma lex_int_print n start p d r :
  (i64_min <= n <= i64_max)%Z → delimiter d →
  ∃ c cs p', print_int n = c :: cs ∧ c ≠ ch "#" ∧ is_whitespace c = false ∧
    lex_token c start (cs ++ d :: r) p = Ok (TInt n, mkLexer (d :: r) p').
Proof.
  intros Hn Hd. apply delimiter_not_word in Hd as [_ Hd].
  assert (∃ c cs, print_int n = c :: cs ∧ (c = ch "-" ∨ is_ascii_digit c = true) ∧
    Forall (λ c, is_ascii_digit c = true) cs) as (c & cs & Hp & Hc & Hcs).
  { unfold print_int. case_decide.
    - destruct (print_nat_ok (Z.to_N (- n))) as (_ & ? & _). eexists _, _. eauto.
    - destruct (print_nat_ok (Z.to_N n)) as (_ & Hall & Hne).
      destruct Hall; [done|]. eexists _, _. eauto. }
  exists c, cs, (pos_after p cs).
  assert (c = 45 ∨ 48 <= c <= 57)%N as Hcases by (rewrite <- in_range_spec; exact Hc).
  split_and!; [done|intros ->; vm_compute in Hcases; naive_solver lia|..].
  - unfold is_whitespace. rewrite !(proj2 (in_range_false _ _ _)) by lia. simpl.
    repeat (rewrite (proj2 (N.eqb_neq _ _)) by lia). done.
  - unfold lex_token, ch. simpl. rewrite !decide_False by lia.
    match goal with |- context [?b1 || ?b2] => assert (b1 || b2 = true) as -> end.
    { rewrite orb_true_iff, bool_decide_eq_true. naive_solver. }
    unfold lex_number. rewrite lex_while_stops by done. simpl.
    rewrite <- Hp, parse_print_int by done. done.
Qed.

(** A keyword, given that words are lexed as such. *)
Ltac keyword_case Hword c t :=
  let H := fresh in
  pose proof (Hword c t eq_refl) as H; eexists c, t, _; split; [done|]; apply H; by repeat constructor.

(** The first character of a printed token starts that very token. *)
Lemma lex_token_print k start p d r :
  valid_kind k → delimiter d →
  ∃ c cs p', print_kind k = c :: cs ∧ c ≠ ch "#" ∧ is_whitespace c = false ∧
    lex_token c start (cs ++ d :: r) p = Ok (k, mkLexer (d :: r) p').
Proof.
  intros Hk Hd. destruct (delimiter_not_word d Hd) as [Hw Hdig].
  assert (∀ c t, word_start c = true → Forall (λ c, word_char c = true) t →
    c ≠ ch "#" ∧ is_whitespace c = false ∧
    lex_token c start (t ++ d :: r) p = Ok (keyword (c :: t), mkLexer (d :: r) (pos_after p t))) as Hword.
  { intros c t Hc Ht. apply word_start_cases in Hc as Hcases.
    split_and!; [intros ->; vm_compute in Hcases; naive_solver lia|by apply word_start_not_space|].
    unfold lex_token, ch, is_ascii_digit. simpl.
    rewrite !decide_False by lia. rewrite (proj2 (in_range_false 48 57 c)) by lia.
    rewrite bool_decide_false by lia. simpl. by rewrite Hc, lex_while_stops. }
  destruct k; simpl in Hk; try done; try by eexists _, _, p.
  - destruct Hk as [(c & t & -> & Hc & Ht) Hkw]. destruct (Hword c t Hc Ht) as (? & ? & Hl).
    exists c, t, (pos_after p t). by rewrite Hl, Hkw.
  - destruct (lex_string_escaped start [] s (d :: r) p) as [p' Hs].
    exists 34%N, (concat (escape_char <$> s) ++ [34%N]), p'. split_and!; [done..|].
    rewrite <- (assoc_L (++)). exact Hs.
  - by apply lex_int_print.
  - keyword_case Hword (ch "l") (chars_of "et").
  - keyword_case Hword (ch "e") (chars_of "ffect").
  - keyword_case Hword (ch "r") (chars_of "ef").
  - keyword_case Hword (ch "t") (chars_of "rue").
  - keyword_case Hword (ch "f") (chars_of "alse").
Qed.

(** [lx] reads the tokens [ks] and then the end of the file. *)
Lemma lex_loop_print ks fuel acc p :
  Forall valid_kind ks → length ks < fuel →
  ∃ ts, lex_loop fuel acc (mkLexer (print_tokens ks) p) = Ok (acc ++ ts) ∧ tk_kind <$> ts = ks ++ [TEof].
Proof.
  intros Hks. revert fuel acc p. induction Hks as [|k ks Hk _ IH]; intros fuel acc p Hf;
    (destruct fuel as [|fuel]; [simpl in Hf; lia|]).
  { simpl. unfold Lexer_bump. simpl. by eexists [_]. }
  destruct (print_tokens_delimited ks) as (d & r & Hr & Hd).
  destruct (lex_token_print k (advance space p) (advance space p) d r Hk Hd) as (c & cs & _ & Hp & Hc & Hs & _).
  assert (print_tokens (k :: ks) = space :: c :: cs ++ print_tokens ks) as ->.
  { unfold print_tokens. csimpl. rewrite Hp. by rewrite <- (assoc_L (++)). }
  cbn [lex_loop lx_chars lx_pos].
  assert (skip_trivia false (space :: c :: cs ++ print_tokens ks) p
          = mkLexer (c :: cs ++ print_tokens ks) (advance space p)) as ->.
  { simpl. by rewrite decide_False, Hs. }
  unfold Lexer_bump. cbn [lx_chars lx_pos]. rewrite Hr.
  destruct (lex_token_print k (advance space p) (advance c (advance space p)) d r Hk Hd)
    as (c' & cs' & p' & Hp' & _ & _ & Hl).
  rewrite Hp in Hp'. injection Hp' as <- <-. rewrite Hl. cbn [mbind outcome_bind].
  rewrite <- Hr. destruct (IH fuel (acc ++ [mkToken k (advance space p)]) p') as (ts & -> & Hts);
    [simpl in Hf; lia|].
  exists (mkToken k (advance space p) :: ts). rewrite <- (assoc_L (++)). csimpl. by rewrite Hts.
Qed.

Lemma print_kind_nonempty k : valid_kind k → 0 < length (print_kind k).
Proof.
  intros Hk. destruct (lex_token_print k (mkPos 1 1) (mkPos 1 1) space [] Hk (or_introl eq_refl))
    as (c & cs & _ & -> & _). simpl. lia.
Qed.

Lemma lex_print ks :
  Forall valid_kind ks →
  ∃ ts, lex_tokens (print_tokens ks) = Ok ts ∧ tk_kind <$> ts = ks ++ [TEof].
Proof.
  intros Hks. destruct (lex_loop_print ks (S (length (print_tokens ks))) [] (mkPos 1 1) Hks) as (ts & Hl & Ht).
  - clear Hks. assert (length ks ≤ length (print_tokens ks)); [|lia]. unfold print_tokens.
    rewrite length_app. induction ks as [|k ks IH]; csimpl; [lia|]. rewrite length_app. simpl in *. lia.
  - eauto.
Qed.
(** * The parser reads printed items back *)

Definition expr_tokens (e : Expr) : list TokenKind :=
  match e with
  | EStr s => [TStr s]
  | EInt n => [TInt n]
  | EBool b => [if b then TTrue else TFalse]
  | EVar name => [TIdent name]
  | ERef effect field => [TRef; TLParen; TStr effect; TRParen; TDot; TIdent field]
  end.

(** Items without their positions. *)
Abbreviation plain_binding := (text * Expr)%type.
Definition strip_binding (kv : Spanned text * Spanned Expr) : plain_binding := (node kv.1, node kv.2).

Inductive plain_item :=
| PLet (name : text) (value : Expr)
| PEffect (name kind : text) (inputs props : list plain_binding).

Definition strip_item (i : Item) : plain_item :=
  match i with
  | ILet name value => PLet (node name) (node value)
  | IEffect d => PEffect (node (dc_name d)) (dc_kind d) (strip_binding <$> dc_inputs d)
                   (strip_binding <$> dc_props d)
  end.

Definition binding_tokens (kv : plain_binding) : list TokenKind := TIdent kv.1 :: TEq :: expr_tokens kv.2.
Definition prop_tokens (kv : plain_binding) : list TokenKind := TAt :: binding_tokens kv.

Definition item_tokens (i : plain_item) : list TokenKind :=
  match i with
  | PLet name value => TLet :: binding_tokens (name, value)
  | PEffect name kind inputs props =>
      [TEffect; TIdent name; TStr kind; TLBrace] ++ concat (prop_tokens <$> props)
        ++ concat (binding_tokens <$> inputs) ++ [TRBrace]
  end.

Definition print_items (items : list plain_item) : text := print_tokens (concat (item_tokens <$> items)).

Definition remaining (ps : Parser) : list TokenKind := tk_kind <$> drop (ps_position ps) (ps_tokens ps).

(** With the tokens [ks] ahead, [m] succeeds with a result in [Q] and has [ks'] ahead. *)
Definition runs {A} (ks : list TokenKind) (m : parser A) (Q : A → Prop) (ks' : list TokenKind) : Prop :=
  ∀ ps, remaining ps = ks → ∃ a ps', m ps = Ok (a, ps') ∧ Q a ∧ remaining ps' = ks'.

Lemma runs_bind {A B} ks1 (m : parser A) Q1 ks2 (k : A → parser B) Q2 ks3 :
  runs ks1 m Q1 ks2 → (∀ a, Q1 a → runs ks2 (k a) Q2 ks3) → runs ks1 (m ≫= k) Q2 ks3.
Proof.
  intros Hm Hk ps Hps. destruct (Hm ps Hps) as (a & ps' & Heq & HQ & Hr).
  destruct (Hk a HQ ps' Hr) as (b & ps'' & Heq' & ? & ?). exists b, ps''.
  unfold mbind, parser_bind. by rewrite Heq.
Qed.

Lemma runs_ret {A} ks (a : A) (Q : A → Prop) : Q a → runs ks (mret a) Q ks.
Proof. intros HQ ps Hps. by exists a, ps. Qed.

Lemma remaining_inv ps k r :
  remaining ps = k :: r →
  ∃ t, ps_tokens ps !! ps_position ps = Some t ∧ tk_kind t = k ∧
    tk_kind <$> drop (S (ps_position ps)) (ps_tokens ps) = r ∧
    length (ps_tokens ps) = ps_position ps + S (length r).
Proof.
  unfold remaining. intros H. destruct (drop _ _) as [|t l] eqn:Hd; [done|]. simplify_eq/=.
  exists t. pose proof (f_equal length Hd) as Hlen. rewrite length_drop in Hlen. simpl in Hlen.
  rewrite length_fmap. split_and!; [|done| |lia].
  - rewrite <- (Nat.add_0_r (ps_position ps)), <- lookup_drop, Hd. done.
  - f_equal. replace (S (ps_position ps)) with (ps_position ps + 1) by lia.
    by rewrite <- drop_drop, Hd.
Qed.

Lemma peek_head ps k r : remaining ps = k :: r → ∃ t, peek ps = Ok (t, ps) ∧ tk_kind t = k.
Proof.
  intros Hps. destruct (remaining_inv ps k r Hps) as (t & Ht & Hk & _ & Hlen).
  exists t. unfold peek. by rewrite Nat.min_l, Ht by lia.
Qed.

Lemma runs_peek k r : runs (k :: r) peek (λ t, tk_kind t = k) (k :: r).
Proof. intros ps Hps. destruct (peek_head ps k r Hps) as (t & Hp & Hk). by exists t, ps. Qed.

Lemma runs_bump k k' r : runs (k :: k' :: r) bump (λ t, tk_kind t = k) (k' :: r).
Proof.
  intros ps Hps. destruct (peek_head _ _ _ Hps) as (t & Hp & Hk).
  destruct (remaining_inv ps k _ Hps) as (t' & Ht & _ & Hr & Hlen).
  unfold bump. rewrite Hp.
  eexists _, _. split_and!; [done..|]. unfold remaining. cbn [ps_tokens ps_position].
  simpl in Hlen. rewrite <- Hr, Nat.min_l by lia. done.
Qed.

Lemma runs_bump_last k : runs [k] bump (λ t, tk_kind t = k) [k].
Proof.
  intros ps Hps. destruct (peek_head _ _ _ Hps) as (t & Hp & Hk).
  destruct (remaining_inv ps k _ Hps) as (t' & Ht & _ & _ & Hlen).
  unfold bump. rewrite Hp.
  eexists _, _. split_and!; [done..|]. rewrite <- Hps. unfold remaining. cbn [ps_tokens ps_position].
  simpl in Hlen. by rewrite (Nat.min_r _ _) by lia; replace (length (ps_tokens ps) - 1) with (ps_position ps) by lia.
Qed.

Lemma runs_expect k context k' r : runs (k :: k' :: r) (expect k context) (λ _, True) (k' :: r).
Proof. eapply runs_bind; [apply runs_bump|]. intros t Ht. rewrite decide_True by done. by apply runs_ret. Qed.

Lemma runs_ident name context k' r :
  runs (TIdent name :: k' :: r) (ident context) (λ x, node x = name) (k' :: r).
Proof. eapply runs_bind; [apply runs_bump|]. intros t Ht. rewrite Ht. by apply runs_ret. Qed.

Lemma runs_expr e k r : runs (expr_tokens e ++ k :: r) expr (λ x, node x = e) (k :: r).
Proof.
  destruct e as [s|n|b|name|eff field]; cbn [expr_tokens app];
    (eapply runs_bind; [apply runs_bump|]); intros t Ht; rewrite Ht;
    try (destruct b); try (by apply runs_ret).
  eapply runs_bind; [apply runs_expect|]. intros _ _.
  eapply runs_bind; [apply runs_bump|]. intros t' Ht'. rewrite Ht'.
  eapply runs_bind; [apply runs_expect|]. intros _ _.
  eapply runs_bind; [apply runs_expect|]. intros _ _.
  eapply runs_bind; [apply runs_ident|]. intros x <-. by apply runs_ret.
Qed.

(** [key = value], then [k]. *)
Lemma runs_binding {A} kv c1 c2 (f : Spanned text * Spanned Expr → parser A) k r Q ks :
  (∀ x, strip_binding x = kv → runs (k :: r) (f x) Q ks) →
  runs (binding_tokens kv ++ k :: r)
    (key ← ident c1; _ ← expect TEq c2; value ← expr; f (key, value)) Q ks.
Proof.
  intros Hf. destruct kv as [key value]. unfold binding_tokens. cbn [app fst snd].
  eapply runs_bind; [apply runs_ident|]. intros x Hx.
  destruct (expr_tokens value ++ k :: r) as [|k0 r0] eqn:He; [by destruct value|].
  eapply runs_bind; [apply runs_expect|]. intros _ _. rewrite <- He.
  eapply runs_bind; [apply runs_expr|]. intros y Hy. apply Hf. unfold strip_binding. simpl. by rewrite Hx, Hy.
Qed.

Lemma runs_effect_body fuel ai ap props inputs k r :
  length props + length inputs < fuel →
  runs (concat (prop_tokens <$> props) ++ concat (binding_tokens <$> inputs) ++ TRBrace :: k :: r)
    (effect_body fuel ai ap)
    (λ x, strip_binding <$> x.1 = (strip_binding <$> ai) ++ inputs ∧
          strip_binding <$> x.2 = (strip_binding <$> ap) ++ props) (k :: r).
Proof.
  revert ai ap props inputs. induction fuel as [|fuel IH]; intros ai ap props inputs Hf; [lia|].
  cbn [effect_body]. destruct props as [|kv props]; [destruct inputs as [|kv inputs]|].
  - csimpl. eapply runs_bind; [apply runs_peek|]. intros t ->. rewrite decide_True by done.
    eapply runs_bind; [apply runs_bump|]. intros _ _. apply runs_ret. by rewrite !app_nil_r.
  - csimpl. eapply runs_bind; [apply runs_peek|]. intros t ->.
    rewrite !decide_False by done.
    assert (∃ k1 r1, concat (binding_tokens <$> inputs) ++ TRBrace :: k :: r = k1 :: r1) as (k1 & r1 & H1).
    { destruct inputs; csimpl; eauto. }
    rewrite <- (assoc_L (++)), H1.
    apply (runs_binding kv _ _ (λ x, effect_body fuel (ai ++ [x]) ap)). intros x Hx. rewrite <- H1.
    specialize (IH (ai ++ [x]) ap [] inputs). csimpl in IH. rewrite fmap_app, <- (assoc_L (++)) in IH.
    csimpl in IH. rewrite Hx in IH. apply IH. simpl in Hf. lia.
  - csimpl. eapply runs_bind; [apply runs_peek|]. intros t ->.
    rewrite decide_False by done. rewrite decide_True by done.
    eapply runs_bind; [apply runs_bump|]. intros _ _.
    assert (∃ k1 r1, concat (prop_tokens <$> props) ++ concat (binding_tokens <$> inputs) ++ TRBrace :: k :: r
      = k1 :: r1) as (k1 & r1 & H1).
    { destruct props; [destruct inputs|]; csimpl; eauto. }
    change (TEq :: expr_tokens kv.2) with (tail (binding_tokens kv)).
    rewrite <- (assoc_L (++)), H1.
    apply (runs_binding kv _ _ (λ x, effect_body fuel ai (ap ++ [x]))). intros x Hx. rewrite <- H1.
    specialize (IH ai (ap ++ [x]) props inputs). rewrite (fmap_app _ ap), <- (assoc_L (++) (_ <$> ap)) in IH.
    csimpl in IH. rewrite Hx in IH. apply IH. simpl in Hf. lia.
Qed.

Lemma runs_effect fuel name kind inputs props k r :
  length props + length inputs < fuel →
  runs (tail (item_tokens (PEffect name kind inputs props)) ++ k :: r) (effect fuel)
    (λ d, strip_item (IEffect d) = PEffect name kind inputs props) (k :: r).
Proof.
  intros Hf. cbn [item_tokens tail app]. eapply runs_bind; [apply runs_ident|]. intros x Hx.
  eapply runs_bind; [apply runs_bump|]. intros t Ht. rewrite Ht.
  rewrite <- !(assoc_L (++)). cbn [app].
  assert (∃ k1 r1, concat (prop_tokens <$> props) ++ concat (binding_tokens <$> inputs) ++ TRBrace :: k :: r
    = k1 :: r1) as (k1 & r1 & H1) by (destruct props; [destruct inputs|]; csimpl; eauto).
  rewrite H1. eapply runs_bind; [apply runs_expect|]. intros _ _. rewrite <- H1.
  eapply runs_bind; [by apply runs_effect_body|]. intros [ins prs] [Hi Hp]. simpl in Hi, Hp.
  apply runs_ret. unfold strip_item. simpl. by rewrite Hx, Hi, Hp.
Qed.

Definition item_size (i : plain_item) : nat :=
  match i with PLet _ _ => 0 | PEffect _ _ inputs props => length props + length inputs end.

Lemma runs_file_loop items fuel acc :
  length items + sum_list (item_size <$> items) < fuel →
  runs (concat (item_tokens <$> items) ++ [TEof]) (file_loop fuel acc)
    (λ x, strip_item <$> x = (strip_item <$> acc) ++ items) [TEof].
Proof.
  revert fuel acc. induction items as [|i items IH]; intros fuel acc Hf;
    (destruct fuel as [|fuel]; [simpl in Hf; lia|]); cbn [file_loop].
  { csimpl. eapply runs_bind; [apply runs_bump_last|]. intros t ->. apply runs_ret. by rewrite app_nil_r. }
  csimpl. rewrite <- (assoc_L (++)). csimpl in Hf.
  assert (∃ k1 r1, concat (item_tokens <$> items) ++ [TEof] = k1 :: r1) as (k1 & r1 & H1)
    by (destruct items as [|[] items]; csimpl; eauto).
  rewrite H1. assert (∀ y, strip_item y = i →
    runs (k1 :: r1) (file_loop fuel (acc ++ [y])) (λ x, strip_item <$> x = (strip_item <$> acc) ++ i :: items) [TEof])
    as Hnext.
  { intros y Hy. specialize (IH fuel (acc ++ [y])). rewrite fmap_app, <- (assoc_L (++)), H1 in IH.
    csimpl in IH. rewrite Hy in IH. apply IH. lia. }
  destruct i as [name value|name kind inputs props].
  - cbn [item_tokens app].
    assert (∃ k2 r2, binding_tokens (name, value) ++ k1 :: r1 = k2 :: r2) as (k2 & r2 & H2) by (csimpl; eauto).
    rewrite H2. eapply runs_bind; [apply runs_bump|]. intros t ->. rewrite <- H2.
    apply (runs_binding (name, value) _ _ (λ x, file_loop fuel (acc ++ [ILet x.1 x.2]))).
    intros x Hx. apply Hnext. unfold strip_item. by injection Hx as -> ->.
  - change (item_tokens (PEffect name kind inputs props)) with
      (TEffect :: tail (item_tokens (PEffect name kind inputs props))).
    assert (∃ k2 r2, tail (item_tokens (PEffect name kind inputs props)) ++ k1 :: r1 = k2 :: r2)
      as (k2 & r2 & H2) by (csimpl; eauto).
    cbn [app]. rewrite H2. eapply runs_bind; [apply runs_bump|]. intros t ->. rewrite <- H2.
    eapply runs_bind; [apply runs_effect; simpl in Hf; lia|]. intros d Hd. by apply Hnext.
Qed.

Definition valid_expr (e : Expr) : Prop :=
  match e with
  | EInt n => (i64_min <= n <= i64_max)%Z
  | EVar name => valid_ident name
  | ERef _ field => valid_ident field
  | _ => True
  end.
Definition valid_binding (kv : plain_binding) : Prop := valid_ident kv.1 ∧ valid_expr kv.2.

(** Names are identifiers, and integers fit [i64]. *)
Definition valid_item (i : plain_item) : Prop :=
  match i with
  | PLet name value => valid_binding (name, value)
  | PEffect name _ inputs props =>
      valid_ident name ∧ Forall valid_binding inputs ∧ Forall valid_binding props
  end.

Lemma expr_tokens_valid e : valid_expr e → Forall valid_kind (expr_tokens e).
Proof. destruct e as [| |[]| |]; simpl; intros; repeat (apply Forall_cons_2; [done|]); by constructor. Qed.

Lemma binding_tokens_valid kv : valid_binding kv → Forall valid_kind (binding_tokens kv).
Proof. intros [? ?]. do 2 (apply Forall_cons_2; [done|]). by apply expr_tokens_valid. Qed.

Lemma concat_valid {A} (f : A → list TokenKind) (P : A → Prop) l :
  (∀ x, P x → Forall valid_kind (f x)) → Forall P l → Forall valid_kind (concat (f <$> l)).
Proof. intros Hf. induction 1; csimpl; [constructor|]. apply Forall_app; auto. Qed.

Lemma item_tokens_valid i : valid_item i → Forall valid_kind (item_tokens i).
Proof.
  destruct i as [name value|name kind inputs props]; simpl.
  - intros H. constructor; [done|]. by apply binding_tokens_valid.
  - intros (Hn & Hi & Hp). repeat (constructor; [done|]). apply Forall_app; split.
    { eapply concat_valid; [|exact Hp]. intros kv Hkv. constructor; [done|]. by apply binding_tokens_valid. }
    apply Forall_app; split; [|by repeat constructor].
    eapply concat_valid; [|exact Hi]. apply binding_tokens_valid.
Qed.

Lemma item_tokens_length i : S (item_size i) ≤ length (item_tokens i).
Proof.
  destruct i as [name value|name kind inputs props]; simpl; [lia|]. rewrite !length_app. simpl.
  assert (∀ (f : plain_binding → list TokenKind) l, (∀ x, 0 < length (f x)) →
    length l ≤ length (concat (f <$> l))) as Hl.
  { intros f l Hf. induction l as [|x l IH]; csimpl; [lia|]. rewrite length_app. specialize (Hf x). lia. }
  pose proof (Hl prop_tokens props ltac:(intros; simpl; lia)).
  pose proof (Hl binding_tokens inputs ltac:(intros; simpl; lia)). lia.
Qed.

Lemma parse_print_items items :
  Forall valid_item items →
  ∃ ts parsed, lex_tokens (print_items items) = Ok ts ∧ parse_file ts = Ok parsed ∧
    strip_item <$> parsed = items.
Proof.
  intros Hv. destruct (lex_print (concat (item_tokens <$> items))) as (ts & Hl & Hk).
  { eapply concat_valid; [|exact Hv]. apply item_tokens_valid. }
  exists ts. unfold parse_file.
  destruct (runs_file_loop items (S (length ts)) [] ) with (ps := mkParser ts 0) as (parsed & ps & Hr & Hs & _).
  - apply (f_equal length) in Hk. rewrite length_fmap, length_app in Hk. simpl in Hk.
    assert (length items + sum_list (item_size <$> items) ≤ length (concat (item_tokens <$> items))); [|lia].
    clear. induction items as [|i items IH]; csimpl; [lia|]. rewrite length_app.
    pose proof (item_tokens_length i). lia.
  - exact Hk.
  - exists parsed. rewrite Hr. done.
Qed.

(** Parsing is the inverse of printing: for every program whose names are
    identifiers and whose integers fit an [i64] (with any strings, escapes
    included), the lexer and the parser read the printed program back as the
    same items, up to source positions. *)
Theorem parse_print items :
  Forall valid_item items →
  ∃ ts parsed, lex_tokens (print_items items) = Ok ts ∧ parse_file ts = Ok parsed ∧
    strip_item <$> parsed = items.
Proof. apply parse_print_items. Qed.

(** * Interpolation *)

(** The pieces of an interpolated string. *)
Inductive piece := Verbatim (t : text) | Hole (name : text).

Definition double_brace (c : char) : text :=
  if decide (c = ch "{" ∨ c = ch "}") then [c; c] else [c].
Definition verbatim (t : text) : text := concat (double_brace <$> t).
Definition print_piece (x : piece) : text :=
  match x with
  | Verbatim t => verbatim t
  | Hole name => ch "{" :: name ++ [ch "}"]
  end.

Definition valid_piece (x : piece) : Prop :=
  match x with Verbatim _ => True | Hole name => Forall (λ c, word_char c = true) name end.

(** What the pieces stand for, or the first name that is not bound. *)
Fixpoint expand (bindings : btree Literal) (xs : list piece) : text + string :=
  match xs with
  | [] => inr EmptyString
  | Verbatim t :: xs => match expand bindings xs with inr s => inr (utf8 t +:+ s) | e => e end
  | Hole name :: xs =>
      match bt_get (utf8 name) bindings with
      | None => inl name
      | Some v => match expand bindings xs with inr s => inr (display_string v +:+ s) | e => e end
      end
  end.

Definition unbound_message (name : text) : string :=
  "string interpolates `{" +:+ utf8 name +:+ "}`, but no `let " +:+ utf8 name +:+ "` precedes it".

Lemma interpolate_fuel f1 f2 b p out cs :
  length cs < f1 → length cs < f2 → interpolate_loop f1 b p out cs = interpolate_loop f2 b p out cs.
Proof.
  revert f2 out cs. induction f1 as [|f1 IH]; intros [|f2] out cs H1 H2; try lia. simpl.
  destruct cs as [|c cs]; [done|]. simpl in H1, H2.
  assert (length (tail cs) ≤ length cs) by (destruct cs; simpl; lia).
  repeat (case_decide; [first [done|apply IH; lia|idtac]|]); [|apply IH; lia].
  destruct (interpolation_name [] cs) as [[name cs']|] eqn:Hn; [|done].
  apply interpolation_name_shorter in Hn. destruct (bt_get _ _); [|done]. apply IH; lia.
Qed.

Lemma interpolate_step fuel b p out cs :
  length cs < fuel → interpolate_loop fuel b p out cs = interpolate_loop (S (length cs)) b p out cs.
Proof. intros. apply interpolate_fuel; lia. Qed.

Lemma interpolate_brace fuel b p out c cs :
  c = ch "{" ∨ c = ch "}" →
  interpolate_loop (S fuel) b p out (c :: c :: cs) = interpolate_loop fuel b p (out +:+ utf8_char c) cs.
Proof. by intros [->| ->]. Qed.

Lemma interpolate_plain fuel b p out c cs :
  ¬ (c = ch "{" ∨ c = ch "}") →
  interpolate_loop (S fuel) b p out (c :: cs) = interpolate_loop fuel b p (out +:+ utf8_char c) cs.
Proof. intros. cbn [interpolate_loop]. by rewrite !decide_False by naive_solver. Qed.

Lemma interpolate_verbatim t b p out rest :
  interpolate_loop (S (length (verbatim t ++ rest))) b p out (verbatim t ++ rest) =
  interpolate_loop (S (length rest)) b p (out +:+ utf8 t) rest.
Proof.
  revert out. induction t as [|c t IH]; intros out; [by rewrite append_nil_r|].
  change (verbatim (c :: t)) with (double_brace c ++ verbatim t).
  change (utf8 (c :: t)) with (utf8_char c +:+ utf8 t).
  rewrite append_assoc, <- IH, <- (assoc_L (++)). unfold double_brace. case_decide as Hb.
  - cbn [app length]. rewrite interpolate_brace by done. apply interpolate_step. lia.
  - cbn [app length]. by rewrite interpolate_plain.
Qed.

Lemma interpolation_name_word acc name rest :
  Forall (λ c, word_char c = true) name →
  interpolation_name acc (name ++ ch "}" :: rest) = Some (acc ++ name, rest).
Proof.
  intros Hn. revert acc. induction Hn as [|c name Hc _ IH]; intros acc; simpl.
  - by rewrite app_nil_r.
  - rewrite decide_False; [|intros ->; by vm_compute in Hc]. by rewrite Hc, IH, <- (assoc_L (++)).
Qed.

Lemma interpolate_hole name b p out rest :
  Forall (λ c, word_char c = true) name →
  interpolate_loop (S (length (print_piece (Hole name) ++ rest))) b p out (print_piece (Hole name) ++ rest) =
  match bt_get (utf8 name) b with
  | None => Err (mkCompileError p (unbound_message name))
  | Some v => interpolate_loop (S (length rest)) b p (out +:+ display_string v) rest
  end.
Proof.
  intros Hn. cbn [print_piece app length]. rewrite <- (assoc_L (++)). cbn [app].
  remember (S (length (name ++ ch "}" :: rest))) as fuel eqn:Hf. cbn [interpolate_loop].
  assert (head (name ++ ch "}" :: rest) ≠ Some (ch "{")) as Hh.
  { destruct Hn as [|c ? Hc]; [done|]. intros [= ->]. by vm_compute in Hc. }
  rewrite (decide_False (P := _ ∧ _)) by naive_solver.
  rewrite (decide_False (P := _ ∧ _)) by (by intros [[=] ?]).
  rewrite decide_True by done. rewrite interpolation_name_word by done. cbn [app].
  destruct (bt_get _ _); [|done]. apply interpolate_step. rewrite length_app in Hf. simpl in Hf. lia.
Qed.

Lemma interpolate_pieces_loop xs b p out :
  Forall valid_piece xs →
  interpolate_loop (S (length (concat (print_piece <$> xs)))) b p out (concat (print_piece <$> xs)) =
  match expand b xs with
  | inr s => Ok (out +:+ s)
  | inl name => Err (mkCompileError p (unbound_message name))
  end.
Proof.
  intros Hv. revert out. induction Hv as [|x xs Hx _ IH]; intros out; [by cbn; rewrite append_nil_r|].
  cbn [fmap list_fmap concat]. destruct x as [t|name]; cbn [expand].
  - cbn [print_piece]. rewrite interpolate_verbatim, IH. destruct (expand b xs); [done|].
    by rewrite append_assoc.
  - rewrite interpolate_hole by done. destruct (bt_get _ _); [|done]. rewrite IH.
    destruct (expand b xs); [done|]. by rewrite append_assoc.
Qed.

(** String interpolation: a string made of verbatim pieces (braces
    doubled) and [{name}] holes evaluates to the pieces with every hole
    replaced by the display form of its binding; if a name is not bound the
    error, at the string's position, names the first such hole. *)
Lemma interpolate_pieces xs b p :
  Forall valid_piece xs →
  interpolate (concat (print_piece <$> xs)) b p =
  match expand b xs with
  | inr s => Ok s
  | inl name => Err (mkCompileError p (unbound_message name))
  end.
Proof. intros Hv. unfold interpolate. by rewrite interpolate_pieces_loop. Qed.

(** * Plans *)

Definition ascii_string (s : string) : Prop := Forall (λ c, (c < 128)%N) (chars_of s).

Lemma utf8_chars_of s : ascii_string s → utf8 (chars_of s) = s.
Proof.
  unfold ascii_string, chars_of. induction s as [|a s IH]; [done|]. cbn. rewrite Forall_cons. intros [Ha Hs].
  unfold utf8_char. rewrite decide_True by done. unfold byte_of. rewrite ascii_N_embedding.
  by rewrite append_cons, IH.
Qed.

(** A string usable as a name in the language. *)
Definition ident_string (s : string) : Prop := ascii_string s ∧ valid_ident (chars_of s).

Definition expr_of (v : Value) : Expr :=
  match v with
  | VLiteral (LStr s) => EStr (verbatim (chars_of s))
  | VLiteral (LInt n) => EInt n
  | VLiteral (LBool b) => EBool b
  | VRef r => ERef (chars_of (or_effect r)) (chars_of (or_field r))
  end.

Definition props_of (m : EffectMeta) : list plain_binding :=
  (if idempotent m then [] else [(chars_of "idempotent", EBool false)]) ++
  match rollback_hint m with Some h => [(chars_of "rollback", EStr (verbatim (chars_of h)))] | None => [] end.

Definition inputs_of (m : btree Value) : list plain_binding := (λ kv, (chars_of kv.1, expr_of kv.2)) <$> m.

Definition item_of (e : Effect) : plain_item :=
  PEffect (chars_of (ef_name e)) (chars_of (ef_kind e)) (inputs_of (ef_inputs e)) (props_of (ef_meta e)).

(** The source text of a plan. *)
Definition print_plan (p : Plan) : text := print_items (item_of <$> pl_effects p).

Definition printable_value (v : Value) : Prop :=
  match v with
  | VLiteral (LStr s) => ascii_string s
  | VLiteral (LInt n) => (i64_min <= n <= i64_max)%Z
  | VLiteral (LBool _) => True
  | VRef r => ascii_string (or_effect r) ∧ ident_string (or_field r)
  end.

(** An effect the language can express: names and keys are identifiers, text is
    ASCII, and the executor is the kind. *)
Record printable (e : Effect) : Prop := {
  pr_name : ident_string (ef_name e);
  pr_kind : ascii_string (ef_kind e);
  pr_executor : ef_executor e = ef_kind e;
  pr_inputs : Forall (λ kv, ident_string kv.1 ∧ printable_value kv.2) (ef_inputs e);
  pr_hint : ∀ h, rollback_hint (ef_meta e) = Some h → ascii_string h }.

Lemma interpolate_chars s b p :
  ascii_string s → interpolate (verbatim (chars_of s)) b p = Ok s.
Proof.
  intros Hs. pose proof (interpolate_pieces_loop [Verbatim (chars_of s)] b p EmptyString
    ltac:(by repeat constructor)) as H.
  cbn [fmap list_fmap concat print_piece expand] in H. rewrite app_nil_r in H.
  unfold interpolate. rewrite H. by rewrite append_nil_r, utf8_chars_of.
Qed.

Lemma eval_expr_of e v b : node e = expr_of v → printable_value v → eval e b = Ok v.
Proof.
  intros He Hv. unfold eval. rewrite He. destruct v as [[s|n|x]|[eff field]]; simpl in *; try done.
  - by rewrite interpolate_chars.
  - destruct Hv as [H1 [H2 _]]. by rewrite !utf8_chars_of.
Qed.

Lemma compile_inputs_of b m kvs pre :
  strip_binding <$> kvs = inputs_of m → bt_wf (pre ++ m) →
  Forall (λ kv, ident_string kv.1 ∧ printable_value kv.2) m →
  foldM (compile_input b) pre kvs = Ok (pre ++ m).
Proof.
  revert pre kvs. induction m as [|[k v] m IH]; intros pre kvs Hs Hwf Hall.
  { destruct kvs; [|done]. by rewrite app_nil_r. }
  destruct kvs as [|[key value] kvs]; [done|]. unfold inputs_of in Hs. csimpl in Hs.
  injection Hs as Hk Hv Hs. apply Forall_cons in Hall as [[[Hka _] Hpv] Hall]. simpl in *.
  rewrite Hk, utf8_chars_of by done.
  apply bt_wf_app in Hwf as Hparts. destruct Hparts as (_ & _ & Hlt).
  assert (∀ k', k' ∈ bt_keys pre → str_lt k' k) as Hlast by (intros; apply Hlt; [done|left]).
  assert (bt_get k pre = None) as ->.
  { apply bt_get_None_keys. intros Hin%Hlast. by apply str_lt_irrefl in Hin. }
  rewrite (eval_expr_of _ v) by done. simpl. rewrite bt_insert_last by done.
  rewrite (IH (pre ++ [(k, v)])); [by rewrite <- (assoc_L (++))|done| |done].
  by rewrite <- (assoc_L (++)).
Qed.

Lemma effect_meta_of d m b :
  strip_binding <$> dc_props d = props_of m → (∀ h, rollback_hint m = Some h → ascii_string h) →
  effect_meta d b = Ok m.
Proof.
  intros Hs Hh. unfold effect_meta. destruct m as [idem hint]. unfold props_of in Hs. simpl in *.
  assert (∀ (kv : Spanned text * Spanned Expr) h m, strip_binding kv = (chars_of "rollback", EStr (verbatim (chars_of h))) →
    ascii_string h → meta_prop b m kv = Ok (mkEffectMeta (idempotent m) (Some h))) as Hroll.
  { intros [key value] h m [= Hk Hv] Ha. simpl in *. unfold eval. rewrite Hv, interpolate_chars by done.
    simpl. rewrite Hk. done. }
  assert (∀ (kv : Spanned text * Spanned Expr) m, strip_binding kv = (chars_of "idempotent", EBool false) →
    meta_prop b m kv = Ok (mkEffectMeta false (rollback_hint m))) as Hidem.
  { intros [key value] m [= Hk Hv]. simpl in *. unfold eval. rewrite Hv. simpl. by rewrite Hk. }
  revert Hs. generalize (dc_props d) as l. intros l Hs. destruct idem, hint as [h|]; simpl in Hs;
    repeat (apply fmap_cons_inv in Hs as (? & ? & ? & Hs & ->); symmetry in Hs);
    apply fmap_nil_inv in Hs as ->; simpl;
    repeat first [erewrite Hroll by (first [done|by apply Hh])|rewrite Hidem by done]; done.
Qed.

Lemma compile_effect_of st d e :
  strip_item (IEffect d) = item_of e → printable e → effect_wf e → ef_name e ∉ names (cs_plan st) →
  compile_effect st d = Ok (mkCompile (cs_bindings st) (mkPlan (pl_effects (cs_plan st) ++ [e]))
    (bt_insert (ef_name e) (sp_pos (dc_name d)) (cs_sites st))).
Proof.
  intros Hs [[Hn _] Hk Hx Hi Hh] Hwf Hnew. injection Hs as Hname Hkind Hins Hprops. unfold compile_effect.
  rewrite (compile_inputs_of _ (ef_inputs e)) by done. simpl.
  rewrite (effect_meta_of _ (ef_meta e)) by done. simpl.
  rewrite Hname, Hkind, !utf8_chars_of, Plan_add_spec by done. simpl. rewrite decide_False by done.
  rewrite <- Hx at 2. by destruct e.
Qed.

Lemma compile_items_of es items st :
  strip_item <$> items = item_of <$> es → Forall printable es → Forall effect_wf es →
  NoDup (names (cs_plan st) ++ (ef_name <$> es)) →
  (∀ n, is_Some (bt_get n (cs_sites st)) ↔ n ∈ names (cs_plan st)) →
  ∃ st', foldM compile_item st items = Ok st' ∧ pl_effects (cs_plan st') = pl_effects (cs_plan st) ++ es ∧
    (∀ n, is_Some (bt_get n (cs_sites st')) ↔ n ∈ names (cs_plan st')).
Proof.
  revert items st. induction es as [|e es IH]; intros items st Hs Hp Hw Hnd Hsites.
  { apply fmap_nil_inv in Hs as ->. exists st. by rewrite app_nil_r. }
  apply fmap_cons_inv in Hs as (i & items' & Hi & Hs & ->).
  apply Forall_cons in Hp as [Hpe Hp]. apply Forall_cons in Hw as [Hwe Hw].
  assert (ef_name e ∉ names (cs_plan st)) as Hnew.
  { apply NoDup_app in Hnd as (_ & Hdis & _). intros Hin. apply (Hdis _ Hin). by left. }
  destruct i as [|d]; [done|]. cbn [foldM compile_item].
  rewrite (compile_effect_of st d e) by done.
  destruct (IH items' (mkCompile (cs_bindings st) (mkPlan (pl_effects (cs_plan st) ++ [e]))
    (bt_insert (ef_name e) (sp_pos (dc_name d)) (cs_sites st)))) as (st' & Hf & He & Hst); [done..| | |].
  - unfold names in *. simpl. rewrite fmap_app, <- (assoc_L (++)). exact Hnd.
  - intros n. simpl. rewrite bt_get_insert. unfold names in *. simpl. rewrite fmap_app, elem_of_app. csimpl.
    rewrite list_elem_of_singleton, <- Hsites. case_decide; naive_solver eauto.
  - exists st'. split_and!; [done| |done]. rewrite He. simpl. by rewrite <- (assoc_L (++)).
Qed.

Lemma value_printable_valid v : printable_value v → valid_expr (expr_of v).
Proof. destruct v as [[]|]; simpl; [done..|]. by intros [_ [_ ?]]. Qed.

Lemma item_of_valid e : printable e → valid_item (item_of e).
Proof.
  intros [[Hn1 Hn2] Hk Hx Hi Hh]. split_and!; [done| |].
  - unfold inputs_of. apply Forall_fmap. eapply Forall_impl; [exact Hi|].
    intros [k v] [[? ?] ?]. split; simpl; [done|by apply value_printable_valid].
  - unfold props_of. apply Forall_app. split; [destruct (idempotent _); repeat constructor|].
    all: try destruct (rollback_hint _); repeat constructor; try done.
    all: by eexists _, _; split_and!; [done|done|repeat constructor].
Qed.

Lemma compile_print p :
  plan_wf p → refs_known p → Forall printable (pl_effects p) → compile (print_plan p) = Ok p.
Proof.
  intros [Hnd Hw] Hrefs Hp.
  destruct (parse_print_items (item_of <$> pl_effects p)) as (ts & items & Hl & Hf & Hs).
  { apply Forall_fmap. eapply Forall_impl; [exact Hp|]. apply item_of_valid. }
  unfold compile, print_plan. rewrite Hl. simpl. rewrite Hf. simpl. unfold compile_items.
  destruct (compile_items_of (pl_effects p) items (mkCompile [] Plan_new [])) as (st & -> & He & Hst); try done.
  { intros n. simpl. split; [intros [? [=]]|inversion 1]. }
  simpl in *. assert (cs_plan st = p) as Heq by (destruct p, (cs_plan st); simpl in *; by subst).
  rewrite Heq in *.
  rewrite (proj2 (foldM_check_Ok _ _ ())); [done|].
  intros e Hin. apply foldM_check_Ok. intros v Hv. unfold check_site. destruct v as [|r]; [done|].
  destruct (proj2 (Hst (or_effect r))) as [site ->]; [|done].
  apply (Hrefs e); [done|]. apply elem_of_ef_refs. eauto.
Qed.

(** C26. Every plan the language can express is expressed by some source text:
    compiling the printed form of a valid plan (identifier names, ASCII text,
    executor equal to kind) gives exactly that plan, metadata included. *)
Theorem compile_print_plan p :
  plan_wf p → refs_known p → Forall printable (pl_effects p) → compile (print_plan p) = Ok p.
Proof. apply compile_print. Qed.

End roundtrip.

(** * Concrete instances *)

Section witnesses.
Existing Instance ascii_only.

#[local] Instance ascii_only_laws : UnicodeLaws.
Proof. by intros c. Qed.

Let w_page : Effect :=
  mkEffect "page" "html.render" "html.render" [("title", VLiteral (LStr "{hi}"))]
    (mkEffectMeta false (Some "undo")).
Let w_site : Effect :=
  mkEffect "site" "file.write" "file.write"
    [("content", VRef (mkOutputRef "page" "html")); ("mode", VLiteral (LInt (-7)))] EffectMeta_default.
Let w_plan : Plan := mkPlan [w_page; w_site].

Lemma ident_demo s c t :
  chars_of s = c :: t → forallb (λ c, bool_decide (c < 128)%N) (chars_of s) = true →
  word_start c = true → forallb word_char t = true → keyword (chars_of s) = TIdent (chars_of s) →
  ident_string s.
Proof.
  intros Hs Ha Hc Ht Hk. split; [|split; [|done]].
  - unfold ascii_string. rewrite forallb_forall in Ha. apply Forall_forall.
    intros x Hx%list_elem_of_In%Ha. by apply bool_decide_eq_true in Hx.
  - exists c, t. split_and!; [done..|]. rewrite forallb_forall in Ht.
    apply Forall_forall. intros x Hx%list_elem_of_In. by apply Ht.
Qed.

Example compile_plan_valid_demo : ∃ p, compile (chars_of "let a = 1") = Ok p ∧ plan_wf p.
Proof.
  exists (mkPlan []). assert (compile (chars_of "let a = 1") = Ok (mkPlan [])) as H by (vm_compute; reflexivity).
  split; [exact H|]. exact (proj1 (compile_plan_valid _ _ H)).
Defined.

Lemma parse_print_witness :
  let items := [PLet (chars_of "a") (EInt (-3)); PEffect (chars_of "e") (chars_of "k") [(chars_of "x", EVar (chars_of "a"))] []] in
  ∃ ts parsed, lex_tokens (print_items items) = Ok ts ∧ parse_file ts = Ok parsed ∧ strip_item <$> parsed = items.
Proof.
  intros items. apply (parse_print items).
  assert (∀ c, word_start c = true → keyword [c] = TIdent [c] → valid_ident [c]) as Hid.
  { intros c Hc Hk. split; [|exact Hk]. exists c, []. split; [reflexivity|]. split; [exact Hc|constructor]. }
  constructor; [split; [apply Hid; reflexivity|split; vm_compute; discriminate]|].
  constructor; [|constructor]. split; [apply Hid; reflexivity|]. split; [|constructor].
  constructor; [|constructor]. split; apply Hid; reflexivity.
Defined.

Example interpolate_demo :
  interpolate (concat (print_piece <$> [Verbatim (chars_of "<{"); Hole (chars_of "a")])) [("a", LInt 5)] (mkPos 1 1)
  = Ok "<{5".
Proof.
  refine (interpolate_pieces [Verbatim (chars_of "<{"); Hole (chars_of "a")] [("a", LInt 5)] (mkPos 1 1) _).
  repeat constructor.
Defined.

Lemma compile_print_plan_witness : compile (print_plan w_plan) = Ok w_plan.
Proof.
  apply compile_print_plan.
  - split; [apply NoDup_ListNoDup; repeat constructor; simpl; intuition congruence|].
    repeat constructor; simpl; try set_solver; done.
  - intros e b He Hb. unfold w_plan in *. simpl in *.
    repeat (apply elem_of_cons in He as [->|He]); [by inversion Hb| |by inversion He].
    apply list_elem_of_singleton in Hb as ->. by left.
  - repeat constructor; simpl; try done; try by (eapply ident_demo; vm_compute; reflexivity).
    all: try (intros h [= <-]); repeat constructor.
Defined.

End witnesses.
