(* ===== verification/DagSpec.v ===== *)
(** The specification half of [packages/dag-runner/src/main.rs]: the spec and
    its nodes, [--only] filtering, validation, cycle detection and the spawn
    order.

    A [HashMap] is a finite map; where the code iterates over one, the order of
    iteration is an argument.  Errors are [anyhow] messages. *)

From stdpp Require Import base gmap sets list strings pretty relations sorting.
From Stdlib Require Import Ascii.
From S2P Require Import Prelude BTree.

(** * Data *)

Inductive OutputMode := OAuto | OTui | OPlain | OJson.
#[export] Instance OutputMode_eq_dec : EqDecision OutputMode.
Proof. solve_decision. Defined.

Inductive Kind := KTask | KService.
#[export] Instance Kind_eq_dec : EqDecision Kind.
Proof. solve_decision. Defined.

Inductive StdioMode := SCapture | SPrefixed | SInherit.
#[export] Instance StdioMode_eq_dec : EqDecision StdioMode.
Proof. solve_decision. Defined.

Inductive LogStream := LStdout | LStderr | LEither.
#[export] Instance LogStream_eq_dec : EqDecision LogStream.
Proof. solve_decision. Defined.

Inductive ReadyWhen :=
| Tcp (address : string)
| LogLine (pattern : string) (stream : LogStream)
| Http (url : string) (status : Z) (body_contains : option string).

(** [timeout_secs], [ready_timeout_secs : u64], [lifeline_fd : i32]. *)
Record NodeSpec := mkNode {
  command : list string;
  depends_on : list string;
  env : btree string;
  timeout_secs : option Z;
  kind : Kind;
  ready_when : option ReadyWhen;
  ready_timeout_secs : Z;
  stdio : StdioMode;
  lifeline_fd : option Z }.

Abbreviation Nodes := (gmap string NodeSpec).
Record Spec := mkSpec { nodes : Nodes }.

Definition is_service (n : NodeSpec) : bool :=
  match kind n with KService => true | KTask => false end.

(** [v.sort()] and [v.join(sep)]. *)
Definition sort_names (l : list string) : list string := merge_sort String.le l.
Fixpoint join (sep : string) (l : list string) : string :=
  match l with
  | [] => EmptyString
  | [s] => s
  | s :: l => s +:+ sep +:+ join sep l
  end.

(** A double quote, and text in double quotes. *)
Definition dquote : string := String (ascii_of_N 34) EmptyString.
Definition quoted (s : string) : string := dquote +:+ s +:+ dquote.

(** * Choice of the renderer *)

(** [resolve_mode]; [tty] is [stdout().is_terminal()]. *)
Definition resolve_mode (requested : OutputMode) (order : list string) (ns : Nodes) (tty : bool)
  : outcome string OutputMode :=
  let inheriting := sort_names (filter (λ name, stdio <$> ns !! name = Some SInherit) order) in
  match requested with
  | OAuto => Ok (if bool_decide (inheriting = []) && tty then OTui else OPlain)
  | OTui => if decide (inheriting = []) then Ok OTui
            else Err ("--output tui cannot be used with " +:+ quoted "stdio" +:+ ": " +:+ quoted "inherit" +:+ " ("
                +:+ join ", " inheriting +:+ "): an inherited child writes over the spinners. Use --output plain, or set those nodes to "
                +:+ quoted "prefixed" +:+ ".")
  | OJson => if decide (inheriting = []) then Ok OJson
             else Err ("--output json cannot be used with " +:+ quoted "stdio" +:+ ": " +:+ quoted "inherit" +:+ " ("
                +:+ join ", " inheriting +:+ "): an inherited child writes into the NDJSON stream on stdout. Set those nodes to "
                +:+ quoted "prefixed" +:+ ", whose echo goes to stderr.")
  | OPlain => Ok OPlain
  end.

(** * [--only] *)

(** [filter_only]: [keep_order] and [order] are the iteration orders of the two
    hash collections. *)
Definition filter_only (ns : Nodes) (only : list string) (keep_order order : list string)
  : outcome string Nodes :=
  let keep : gset string := list_to_set only in
  let missing := filter (λ name, ns !! name = None) keep_order in
  if decide (missing = []) then
    let ns' := filter (λ kv, kv.1 ∈ keep) ns in
    let dangling := concat ((λ name, match ns' !! name with
        | Some node => (λ dep, name +:+ " -> " +:+ dep) <$> filter (.∉ keep) (depends_on node)
        | None => []
        end) <$> order) in
    if decide (dangling = []) then Ok ns'
    else Err ("--only would drop dependencies of kept nodes: " +:+ join ", " (sort_names dangling)
              +:+ "; add the missing names to --only")
  else Err ("--only names not found in spec: " +:+ join ", " (sort_names missing)).

(** * Validation *)

Definition is_log_line (r : option ReadyWhen) : bool :=
  match r with Some (LogLine _ _) => true | _ => false end.

(** [validate_node]. *)
Definition validate_node (name : string) (n : NodeSpec) : outcome string () :=
  if decide (command n = []) then Err ("node " +:+ name +:+ " has empty command")
  else match kind n, ready_when n with
  | KTask, Some _ => Err ("node " +:+ name +:+ " is a task but sets ready_when; a task is ready when it exits zero. Set "
      +:+ quoted "kind" +:+ ": " +:+ quoted "service" +:+ " if it is meant to stay up.")
  | KService, None => Err ("node " +:+ name +:+ " is a service but sets no ready_when; without one a dependent would start against a process that has not finished coming up. Add a tcp, http, or log_line probe.")
  | _, _ =>
      if is_service n && bool_decide (is_Some (timeout_secs n)) then
        Err ("node " +:+ name +:+ " is a service but sets timeout_secs; a service is expected to stay up for the whole run. Use ready_timeout_secs to bound how long it may take to come up.")
      else if bool_decide (stdio n = SInherit) && is_log_line (ready_when n) then
        Err ("node " +:+ name +:+ " asks for log_line readiness with " +:+ quoted "stdio" +:+ ": " +:+ quoted "inherit"
          +:+ "; an inherited stream goes straight to the terminal and the runner never sees a line to match. Use the default "
          +:+ quoted "capture" +:+ ", or " +:+ quoted "prefixed" +:+ ".")
      else match lifeline_fd n with
           | Some fd => if decide (fd < 3)%Z
                        then Err ("node " +:+ name +:+ " sets lifeline_fd " +:+ pretty fd
                          +:+ "; 0, 1 and 2 are the child's own stdio and a negative number is not a descriptor. Pick 3 or above.")
                        else Ok ()
           | None => Ok ()
           end
  end.

Inductive CycleColor := Gray | Black.
#[export] Instance CycleColor_eq_dec : EqDecision CycleColor.
Proof. solve_decision. Defined.

Abbreviation Colors := (gmap string CycleColor).

(** [visit_cycle].  The recursion descends only from uncoloured nodes, which it
    colours first: one more than the number of nodes is enough fuel. *)
Fixpoint visit_cycle (fuel : nat) (ns : Nodes) (name : string) (color : Colors) (stack : list string)
  : outcome string (Colors * list string) :=
  match fuel with
  | O => Panic
  | S fuel =>
      match color !! name with
      | Some Gray => Err ("cycle detected: " +:+ join " -> " (stack ++ [name]))
      | Some Black => Ok (color, stack)
      | None =>
          n ← unwrap (ns !! name);
          '(color, stack) ← foldM (λ st dep, visit_cycle fuel ns dep st.1 st.2)
                              (<[name := Gray]> color, stack ++ [name]) (depends_on n);
          Ok (<[name := Black]> color, take (length stack - 1) stack)
      end
  end.

(** The keys in ascending order. *)
Definition sorted_names (ns : Nodes) : list string := sort_names (elements (dom ns)).

(** [detect_cycle]. *)
Definition detect_cycle (ns : Nodes) : outcome string () :=
  _ ← foldM (λ color name, '(color, _) ← visit_cycle (S (size ns)) ns name color []; Ok color)
        ∅ (sorted_names ns);
  Ok ().

(** One iteration of the loop of [validate]. *)
Definition validate_entry (ns : Nodes) (name : string) (n : NodeSpec) : outcome string () :=
  _ ← validate_node name n;
  foldM (λ _ dep, match ns !! dep with
                  | Some _ => Ok ()
                  | None => Err ("node " +:+ name +:+ " depends on unknown node " +:+ dep)
                  end) () (depends_on n).

(** [validate]. *)
Definition validate (order : list (string * NodeSpec)) (ns : Nodes) : outcome string () :=
  _ ← foldM (λ _ kv, validate_entry ns kv.1 kv.2) () order;
  detect_cycle ns.

(** * Spawn order *)

(** [visit_topo]. *)
Fixpoint visit_topo (fuel : nat) (ns : Nodes) (name : string) (st : gset string * list string)
  : outcome string (gset string * list string) :=
  match fuel with
  | O => Panic
  | S fuel =>
      if decide (name ∈ st.1) then Ok st
      else
        n ← unwrap (ns !! name);
        '(visited, order) ← foldM (λ st dep, visit_topo fuel ns dep st) ({[name]} ∪ st.1, st.2) (depends_on n);
        Ok (visited, order ++ [name])
  end.

(** [topological_order]. *)
Definition topological_order (ns : Nodes) : outcome string (list string) :=
  '(_, order) ← foldM (λ st name, visit_topo (S (size ns)) ns name st) (∅, []) (sorted_names ns);
  Ok order.

(** * The dependency graph *)

Definition dep (ns : Nodes) (a b : string) : Prop := ∃ n, ns !! a = Some n ∧ b ∈ depends_on n.
Definition deps_known (ns : Nodes) : Prop := ∀ a b, dep ns a b → is_Some (ns !! b).
Definition acyclic (ns : Nodes) : Prop := ∀ a, ¬ tc (dep ns) a a.

(** What [validate_node] accepts. *)
Record node_ok (n : NodeSpec) : Prop := {
  nk_command : command n ≠ [];
  nk_ready : is_Some (ready_when n) ↔ kind n = KService;
  nk_timeout : kind n = KService → timeout_secs n = None;
  nk_log_line : stdio n = SInherit → is_log_line (ready_when n) = false;
  nk_lifeline : ∀ fd, lifeline_fd n = Some fd → (3 <= fd)%Z }.

(** * Node validation *)

Lemma validate_node_spec name n :
  match validate_node name n with
  | Ok _ => node_ok n
  | Err _ => ¬ node_ok n
  | Panic => False
  end.
Proof.
  unfold validate_node, is_service. case_decide as Hc; [intros []; done|].
  destruct (kind n) eqn:Hk, (ready_when n) as [r|] eqn:Hr.
  - intros [_ H _ _ _]. rewrite Hr, Hk in H. discriminate (proj1 H (mk_is_Some _ _ eq_refl)).
  - simpl. rewrite andb_false_r. destruct (lifeline_fd n) as [fd|] eqn:Hl.
    + case_decide as Hfd; [intros [_ _ _ _ H]; specialize (H fd Hl); lia|].
      split; rewrite ?Hk, ?Hr, ?Hl; try done; naive_solver lia.
    + split; rewrite ?Hk, ?Hr, ?Hl; try done; naive_solver.
  - simpl. case_bool_decide as Ht.
    { intros [_ _ H _ _]. rewrite H in Ht by done. by destruct Ht. }
    assert (timeout_secs n = None) as Htn by (by apply eq_None_not_Some).
    destruct (bool_decide (stdio n = SInherit) && _) eqn:Hb.
    { apply andb_true_iff in Hb as [Hs%bool_decide_eq_true Hl].
      intros [_ _ _ H _]. specialize (H Hs). rewrite Hr in H. simpl in *. congruence. }
    assert (stdio n = SInherit → is_log_line (Some r) = false) as Hlog.
    { intros Hs. by rewrite bool_decide_true in Hb. }
    destruct (lifeline_fd n) as [fd|] eqn:Hl.
    + destruct (decide (fd < 3)%Z) as [Hfd|Hfd]; [intros [_ _ _ _ H]; specialize (H fd Hl); lia|].
      split; rewrite ?Hk, ?Hr, ?Hl; try done; naive_solver lia.
    + split; rewrite ?Hk, ?Hr, ?Hl; try done; naive_solver.
  - intros [_ H _ _ _]. rewrite Hr, Hk in H. by destruct (proj2 H eq_refl).
Qed.
