(* ===== verification/DagGraph.v ===== *)
(** Correctness of the graph algorithms of [packages/dag-runner/src/main.rs]:
    [validate] with [detect_cycle], [topological_order] and [filter_only]. *)

From stdpp Require Import base gmap sets list strings pretty relations sorting.
From S2P Require Import Prelude BTree DagSpec.

Section graph.
Variable ns : Nodes.

(** Nodes the search has not coloured or visited. *)
Definition fresh (X : gset string) : nat := size (dom ns ∖ X).

Lemma fresh_add X x n : ns !! x = Some n → x ∉ X → fresh ({[x]} ∪ X) < fresh X.
Proof.
  intros Hx Hn. unfold fresh. apply subset_size. apply elem_of_dom_2 in Hx. set_solver.
Qed.

Lemma fresh_mono X Y : X ⊆ Y → fresh Y ≤ fresh X.
Proof. intros. unfold fresh. apply subseteq_size. set_solver. Qed.

(** * Cycle detection *)

(** What holds whenever [visit_cycle] is called or returns. *)
Record cycle_inv (c : Colors) (stack : list string) : Prop := {
  cy_gray : ∀ x, c !! x = Some Gray ↔ x ∈ stack;
  cy_closed : ∀ x y, c !! x = Some Black → dep ns x y → c !! y = Some Black;
  cy_acyclic : ∀ x, c !! x = Some Black → ¬ tc (dep ns) x x }.

(** The colours [c'] extend [c]. *)
Definition extends (c c' : Colors) : Prop :=
  dom c ⊆ dom c' ∧ ∀ x, c !! x = Some Black → c' !! x = Some Black.

Lemma black_rtc c stack x y :
  cycle_inv c stack → rtc (dep ns) x y → c !! x = Some Black → c !! y = Some Black.
Proof. intros [_ Hcl _]. induction 1; eauto. Qed.

Lemma cycle_inv_finish c stack name n :
  cycle_inv c (stack ++ [name]) → name ∉ stack → ns !! name = Some n →
  (∀ d, d ∈ depends_on n → c !! d = Some Black) →
  cycle_inv (<[name := Black]> c) stack.
Proof.
  intros Hinv Hnew Hn Hdeps.
  assert (c !! name = Some Gray) as Hg by (apply (cy_gray _ _ Hinv); set_solver).
  assert (∀ x, c !! x = Some Black → x ≠ name) as Hne by (intros x ? ->; congruence).
  split.
  - intros x. destruct (decide (x = name)) as [->|Hx].
    + rewrite lookup_insert_eq. naive_solver.
    + rewrite lookup_insert_ne by done. rewrite (cy_gray _ _ Hinv). set_solver.
  - intros x y. destruct (decide (x = name)) as [->|Hx].
    + intros _ (n' & Hn' & Hy). assert (n' = n) as -> by congruence. specialize (Hdeps y Hy).
      rewrite lookup_insert_ne; [done|]. intros <-. by apply (Hne name).
    + rewrite lookup_insert_ne by done. intros Hb Hd. apply (cy_closed _ _ Hinv x y Hb) in Hd.
      rewrite lookup_insert_ne; [done|]. intros <-. by apply (Hne name).
  - intros x. destruct (decide (x = name)) as [->|Hx].
    + intros _ Hc. assert (∃ d, dep ns name d ∧ rtc (dep ns) d name) as (d & (n' & Hn' & Hd) & Hr).
      { inversion Hc; subst; eauto using tc_rtc. }
      assert (n' = n) as -> by congruence.
      apply (Hne name); [|done]. eapply black_rtc; eauto.
    + rewrite lookup_insert_ne by done. apply (cy_acyclic _ _ Hinv).
Qed.

Definition has_cycle : Prop := ∃ x, tc (dep ns) x x.

(** Visiting a list of nodes one after the other. *)
Lemma visit_cycle_list fuel stack ds c :
  (∀ d c, d ∈ ds → cycle_inv c stack → fresh (dom c) < fuel →
     ends (visit_cycle fuel ns d c stack)
       (λ r, r.2 = stack ∧ cycle_inv r.1 stack ∧ r.1 !! d = Some Black ∧ extends c r.1) (λ _, has_cycle)) →
  cycle_inv c stack → fresh (dom c) < fuel →
  ends (foldM (λ st d, visit_cycle fuel ns d st.1 st.2) (c, stack) ds)
    (λ r, r.2 = stack ∧ cycle_inv r.1 stack ∧ (∀ d, d ∈ ds → r.1 !! d = Some Black) ∧ extends c r.1)
    (λ _, has_cycle).
Proof.
  revert c. induction ds as [|d ds IH]; intros c Hv Hinv Hf; simpl.
  { split_and!; [done|done|set_solver|done]. }
  pose proof (Hv d c ltac:(set_solver) Hinv Hf) as Hd.
  destruct (visit_cycle fuel ns d c stack) as [[c1 s1]|e|]; simpl in *; [|done..].
  destruct Hd as (-> & Hinv1 & Hb & Hdom & Hext).
  eapply ends_weaken; [apply IH; [|done|]|..|done].
  - intros d' c' ? ? ?. apply Hv; [set_solver|done..].
  - apply fresh_mono in Hdom. lia.
  - intros [c2 s2] (-> & Hinv2 & Hall & Hdom2 & Hext2). simpl in *. split_and!; [done|done| |].
    + intros d' [->|?]%elem_of_cons; auto.
    + split; [set_solver|auto].
Qed.

Lemma visit_cycle_spec fuel name c stack :
  deps_known ns → is_Some (ns !! name) → cycle_inv c stack → fresh (dom c) < fuel →
  (∀ x, x ∈ stack → tc (dep ns) x name) →
  ends (visit_cycle fuel ns name c stack)
    (λ r, r.2 = stack ∧ cycle_inv r.1 stack ∧ r.1 !! name = Some Black ∧ extends c r.1)
    (λ _, has_cycle).
Proof.
  intros Hknown. revert name c stack. induction fuel as [|fuel IH]; intros name c stack Hin Hinv Hf Hreach; [lia|].
  cbn [visit_cycle]. destruct (c !! name) as [[]|] eqn:Hc.
  - exists name. by apply Hreach, (cy_gray _ _ Hinv).
  - by split_and!.
  - destruct Hin as [n Hn]. rewrite Hn. cbn [unwrap mbind outcome_bind].
    assert (name ∉ stack) as Hnew by (rewrite <- (cy_gray _ _ Hinv); congruence).
    assert (cycle_inv (<[name := Gray]> c) (stack ++ [name])) as Hinv1.
    { split.
      - intros x. rewrite lookup_insert. case_decide; [set_solver|]. rewrite (cy_gray _ _ Hinv). set_solver.
      - intros x y. rewrite lookup_insert. case_decide; [done|]. intros Hx Hd.
        apply (cy_closed _ _ Hinv x y Hx) in Hd. rewrite lookup_insert_ne by congruence. done.
      - intros x. rewrite lookup_insert. case_decide; [done|]. apply (cy_acyclic _ _ Hinv). }
    eapply ends_bind.
    { apply (visit_cycle_list fuel (stack ++ [name]) (depends_on n)); [|done|].
      - intros d c' Hd Hinv' Hf'. assert (dep ns name d) as Hedge by (by exists n).
        apply IH; [by apply (Hknown name)|done|done|].
        intros x [Hx| ->%list_elem_of_singleton]%elem_of_app; [|by apply tc_once].
        eapply tc_r; eauto.
      - rewrite dom_insert_L. pose proof (fresh_add (dom c) name n Hn ltac:(by apply not_elem_of_dom)). lia. }
    intros [c' stack'] Hr. simpl in Hr. destruct Hr as (-> & Hinv' & Hall & Hdom & Hext). simpl.
    rewrite length_app, Nat.add_sub, take_app_length. split_and!; [done|by eapply cycle_inv_finish|by rewrite lookup_insert_eq|].
    split; [set_solver|]. intros x Hx. rewrite lookup_insert. case_decide; [done|].
    apply Hext. rewrite lookup_insert_ne by congruence. done.
Qed.

Lemma elem_of_sorted_names x : x ∈ sorted_names ns ↔ is_Some (ns !! x).
Proof. unfold sorted_names, sort_names. rewrite merge_sort_Permutation, elem_of_elements. apply elem_of_dom. Qed.

Lemma detect_cycle_spec :
  deps_known ns → ends (detect_cycle ns) (λ _, acyclic ns) (λ _, has_cycle).
Proof.
  intros Hknown. unfold detect_cycle. eapply ends_bind; last (intros c Hc; exact Hc).
  assert (∀ c : Colors, fresh (dom c) < S (size ns)) as Hfuel.
  { intros c. unfold fresh. rewrite <- size_dom. apply Nat.lt_succ_r, subseteq_size. set_solver. }
  revert Hfuel. generalize (S (size ns)) as fuel. intros fuel Hfuel.
  assert (∀ ds c, (∀ d, d ∈ ds → is_Some (ns !! d)) → cycle_inv c [] →
    ends (foldM (λ color name, '(color, _) ← visit_cycle fuel ns name color []; Ok color) c ds)
      (λ c', cycle_inv c' [] ∧ extends c c' ∧ ∀ d, d ∈ ds → c' !! d = Some Black) (λ _, has_cycle)) as Hall.
  { induction ds as [|d ds IH]; intros c Hds Hinv; simpl.
    { split_and!; [done|done|set_solver]. }
    pose proof (visit_cycle_spec fuel d c [] Hknown (Hds d ltac:(set_solver)) Hinv (Hfuel c) ltac:(set_solver)) as Hv.
    destruct (visit_cycle _ _ _ _ _) as [[c1 s1]|e|]; simpl in *; [|done..].
    destruct Hv as (_ & Hinv1 & Hb & Hdom & Hext).
    eapply ends_weaken; [apply IH; [set_solver|done]| |done].
    intros c2 (Hinv2 & [Hdom2 Hext2] & Hd). split_and!; [done|split; [set_solver|auto]|].
    intros d' [->|?]%elem_of_cons; auto. }
  eapply ends_weaken; [apply (Hall (sorted_names ns) ∅)| |done].
  - intros d. by rewrite elem_of_sorted_names.
  - split; intros x; rewrite ?lookup_empty; set_solver.
  - intros c (Hinv & _ & Hb) x Hx. apply (cy_acyclic _ _ Hinv x); [|done].
    apply Hb, elem_of_sorted_names. inversion Hx as [? ? (n & Hn & _)|? ? ? (n & Hn & _)]; subst; eauto.
Qed.

(** * Validation *)

Definition spec_ok : Prop :=
  (∀ name n, ns !! name = Some n → node_ok n) ∧ deps_known ns ∧ acyclic ns.

Lemma validate_entry_ends name n :
  ns !! name = Some n →
  ends (validate_entry ns name n)
    (λ _, node_ok n ∧ ∀ d, d ∈ depends_on n → is_Some (ns !! d))
    (λ _, ¬ (node_ok n ∧ ∀ d, d ∈ depends_on n → is_Some (ns !! d))).
Proof.
  intros Hn. unfold validate_entry. pose proof (validate_node_spec name n) as Hv.
  destruct (validate_node name n) as [[]|e|]; simpl; [|naive_solver|done].
  induction (depends_on n) as [|d ds IH]; simpl; [set_solver|].
  destruct (ns !! d) eqn:Hd; simpl.
  - eapply ends_weaken; [exact IH|set_solver|set_solver].
  - intros [_ H]. destruct (H d); [set_solver|congruence].
Qed.

Lemma validate_ends order :
  order ≡ₚ map_to_list ns → ends (validate order ns) (λ _, spec_ok) (λ _, ¬ spec_ok).
Proof.
  intros Hperm. unfold validate.
  assert (∀ name n, (name, n) ∈ order ↔ ns !! name = Some n) as Hin
    by (intros; rewrite Hperm; apply elem_of_map_to_list).
  set (good (kv : string * NodeSpec) := node_ok kv.2 ∧ ∀ d, d ∈ depends_on kv.2 → is_Some (ns !! d)).
  assert (ends (foldM (λ _ kv, validate_entry ns kv.1 kv.2) () order)
    (λ _, ∀ kv, kv ∈ order → good kv) (λ _, ∃ kv, kv ∈ order ∧ ¬ good kv)) as Hloop.
  { assert (∀ kv, kv ∈ order → ns !! kv.1 = Some kv.2) as Hsome by (intros []; apply Hin).
    clear Hin Hperm. induction order as [|kv order IH]; simpl; [set_solver|].
    pose proof (validate_entry_ends kv.1 kv.2 (Hsome kv ltac:(set_solver))) as He.
    destruct (validate_entry _ _ _) as [[]|e|]; simpl in *; [|exists kv; set_solver|done].
    eapply ends_weaken; [apply IH; set_solver| |naive_solver set_solver].
    intros ? H kv' [->|?]%elem_of_cons; [done|auto]. }
  destruct (foldM _ () order) as [u|e|]; simpl in *; [|..|done].
  - assert (deps_known ns) as Hknown by (intros a b (n & Hn & Hb); by apply (Hloop (a, n)); [apply Hin|]).
    eapply ends_weaken; [by apply detect_cycle_spec| |].
    + intros ? Hac. split_and!; [|done|done]. intros name n Hn. apply (Hloop (name, n)). by apply Hin.
    + intros ? [x Hx] (_ & _ & Hac). by apply (Hac x).
  - destruct Hloop as ([name n] & Hkv%Hin & Hbad). intros (Hok & Hknown & _). apply Hbad. split; simpl; [eauto|].
    intros d Hd. apply (Hknown name). by exists n.
Qed.

(** [validate] accepts a spec exactly when every node is well-formed (a
    command; a probe exactly on services; no run timeout on a service; no log
    probe on an inherited stream; a lifeline descriptor above stdio), every
    dependency exists and the dependency graph has no cycle.  It never panics
    or recurses forever, whatever order the hash map is iterated in. *)
Lemma validate_correct order :
  order ≡ₚ map_to_list ns →
  match validate order ns with
  | Ok _ => spec_ok
  | Err _ => ¬ spec_ok
  | Panic => False
  end.
Proof. intros H. apply validate_ends in H. by destruct (validate order ns). Qed.

(** * Spawn order *)

(** Every node of [order] comes after its dependencies. *)
Definition dependencies_first (order : list string) : Prop :=
  ∀ pre a post, order = pre ++ a :: post → ∀ b, dep ns a b → b ∈ pre.

Record topo_order_inv (st : gset string * list string) (stack : list string) : Prop := {
  to_visited : ∀ x, x ∈ st.1 ↔ x ∈ st.2 ∨ x ∈ stack;
  to_disjoint : ∀ x, x ∈ stack → x ∉ st.2;
  to_nodup : NoDup st.2;
  to_known : ∀ x, x ∈ st.2 → is_Some (ns !! x);
  to_first : dependencies_first st.2 }.

Lemma dependencies_first_snoc order a :
  dependencies_first order → (∀ b, dep ns a b → b ∈ order) → dependencies_first (order ++ [a]).
Proof.
  intros Hf Ha pre x post Heq b Hb. destruct post as [|y post _] using rev_ind.
  - apply app_inj_tail in Heq as [-> ->]. auto.
  - rewrite app_comm_cons, (assoc_L (++)) in Heq. apply app_inj_tail in Heq as [Heq _]. eauto.
Qed.

Definition grows (st st' : gset string * list string) : Prop := st.1 ⊆ st'.1 ∧ st.2 ⊆ st'.2.

Lemma visit_topo_list fuel stack ds st :
  (∀ d st, d ∈ ds → topo_order_inv st stack → fresh st.1 < fuel →
     ∃ st', visit_topo fuel ns d st = Ok st' ∧ topo_order_inv st' stack ∧ d ∈ st'.2 ∧ grows st st') →
  topo_order_inv st stack → fresh st.1 < fuel →
  ∃ st', foldM (λ st d, visit_topo fuel ns d st) st ds = Ok st' ∧ topo_order_inv st' stack ∧
    (∀ d, d ∈ ds → d ∈ st'.2) ∧ grows st st'.
Proof.
  revert st. induction ds as [|d ds IH]; intros st Hv Hinv Hf; simpl.
  { exists st. split_and!; [done|done|set_solver|done]. }
  destruct (Hv d st ltac:(set_solver) Hinv Hf) as (st1 & -> & Hinv1 & Hd & Hg1 & Hg2).
  destruct (IH st1) as (st2 & -> & Hinv2 & Hds & Hg3 & Hg4); [set_solver|done| |].
  { apply fresh_mono in Hg1. lia. }
  exists st2. split_and!; [done..| |split; set_solver]. intros d' [->|?]%elem_of_cons; set_solver.
Qed.

Lemma visit_topo_spec fuel name st stack :
  deps_known ns → acyclic ns → is_Some (ns !! name) → topo_order_inv st stack → fresh st.1 < fuel →
  (∀ x, x ∈ stack → tc (dep ns) x name) →
  ∃ st', visit_topo fuel ns name st = Ok st' ∧ topo_order_inv st' stack ∧ name ∈ st'.2 ∧ grows st st'.
Proof.
  intros Hknown Hac. revert name st stack.
  induction fuel as [|fuel IH]; intros name st stack Hin Hinv Hf Hreach; [lia|].
  cbn [visit_topo]. case_decide as Hvis.
  { exists st. split_and!; [done|done| |done].
    apply (to_visited _ _ Hinv) in Hvis as [?|Hs]; [done|]. by destruct (Hac name); auto. }
  destruct Hin as [n Hn]. rewrite Hn. cbn [unwrap mbind outcome_bind].
  assert (name ∉ st.2 ∧ name ∉ stack) as [Hno Hns] by (rewrite (to_visited _ _ Hinv) in Hvis; naive_solver).
  destruct (visit_topo_list fuel (name :: stack) (depends_on n) ({[name]} ∪ st.1, st.2))
    as ([v o] & -> & Hinv1 & Hds & Hg1 & Hg2).
  - intros d st' Hd Hinv' Hf'. assert (dep ns name d) as Hedge by (by exists n).
    apply IH; [by apply (Hknown name)|done|done|].
    intros x [->|Hx]%elem_of_cons; [by apply tc_once|]. eapply tc_r; eauto.
  - destruct Hinv as [H1 H2 H3 H4 H5]. split; simpl; [|set_solver|done|done|done].
    intros x. rewrite elem_of_union, elem_of_singleton, H1, elem_of_cons. naive_solver.
  - simpl. pose proof (fresh_add st.1 name n Hn Hvis). lia.
  - simpl in *. exists (v, o ++ [name]). destruct Hinv1 as [H1 H2 H3 H4 H5]. simpl in *.
    split_and!; [done| |set_solver|split; set_solver]. split; simpl.
    + intros x. rewrite H1, elem_of_app, elem_of_cons, list_elem_of_singleton. naive_solver.
    + intros x Hx. rewrite elem_of_app, list_elem_of_singleton. intros [?| ->]; [|done]. by apply (H2 x); [right|].
    + apply NoDup_app. split_and!; [done| |apply NoDup_singleton].
      intros x Hx ->%list_elem_of_singleton. apply (H2 name); [left|done].
    + intros x. rewrite elem_of_app, list_elem_of_singleton. intros [?| ->]; eauto.
    + apply dependencies_first_snoc; [done|]. intros b (n' & Hn' & Hb). apply Hds. congruence.
Qed.

Lemma topological_order_ok :
  deps_known ns → acyclic ns →
  ∃ order, topological_order ns = Ok order ∧ order ≡ₚ elements (dom ns) ∧ dependencies_first order.
Proof.
  intros Hknown Hac. unfold topological_order.
  assert (∀ X, fresh X < S (size ns)) as Hfuel.
  { intros X. unfold fresh. rewrite <- size_dom. apply Nat.lt_succ_r, subseteq_size. set_solver. }
  destruct (visit_topo_list (S (size ns)) [] (sorted_names ns) (∅, [])) as ([v o] & Hl & Hinv & Hall & _); [|..|auto|].
  - intros d st Hd Hinv _. apply visit_topo_spec; [done|done|by apply elem_of_sorted_names|done|auto|set_solver].
  - split; simpl; [set_solver|set_solver|constructor|set_solver|]. intros pre a post Heq. by destruct pre.
  - exists o. rewrite Hl. split_and!; [done| |by destruct Hinv].
    destruct Hinv as [_ _ Hnd Hk _]. simpl in *.
    apply NoDup_Permutation; [done|apply NoDup_elements|].
    intros x. rewrite elem_of_elements, elem_of_dom, <- elem_of_sorted_names.
    split; [|apply Hall]. intros ?%Hk. by apply elem_of_sorted_names.
Qed.

(** On a spec that passed validation, [topological_order] lists every node
    exactly once, each after all its dependencies, and neither panics nor runs
    out of recursion. *)
Lemma topological_order_correct :
  spec_ok →
  ∃ order, topological_order ns = Ok order ∧ order ≡ₚ elements (dom ns) ∧ dependencies_first order.
Proof. intros (_ & Hk & Ha). by apply topological_order_ok. Qed.

(** * [--only] *)

(** [--only] keeps exactly the named nodes, unchanged, and accepts the cut
    exactly when every name exists and no kept node loses a dependency; so a
    valid spec stays valid. *)
Lemma filter_only_correct only keep_order order :
  (∀ x, x ∈ keep_order ↔ x ∈ only) → (∀ x, x ∈ only → is_Some (ns !! x) → x ∈ order) →
  match filter_only ns only keep_order order with
  | Ok ns' =>
      (∀ x, ns' !! x = if decide (x ∈ only) then ns !! x else None) ∧
      (∀ x, x ∈ only → is_Some (ns' !! x)) ∧
      (∀ a b, dep ns' a b → b ∈ only) ∧ (spec_ok → deps_known ns' ∧ acyclic ns')
  | Err _ => (∃ x, x ∈ only ∧ ns !! x = None) ∨ ∃ a b, a ∈ only ∧ dep ns a b ∧ b ∉ only
  | Panic => False
  end.
Proof.
  intros Hkeep Horder. unfold filter_only. set (keep := list_to_set only : gset string).
  assert (∀ x, x ∈ keep ↔ x ∈ only) as Hk by (intros; unfold keep; apply elem_of_list_to_set).
  case_decide as Hmiss; last first.
  { left. destruct (filter _ keep_order) as [|x l] eqn:Hf; [done|]. exists x.
    assert (x ∈ filter (λ name, ns !! name = None) keep_order) as Hx by (rewrite Hf; left).
    apply list_elem_of_filter in Hx as [? ?]. by rewrite <- Hkeep. }
  assert (∀ x, x ∈ only → is_Some (ns !! x)) as Hex.
  { intros x Hx. apply not_eq_None_Some. intros Hn. apply (filter_nil_not_elem_of _ _ x Hmiss); [done|]. by apply Hkeep. }
  set (ns' := filter (λ kv, kv.1 ∈ keep) ns).
  assert (∀ x, ns' !! x = if decide (x ∈ only) then ns !! x else None) as Hns'.
  { intros x. unfold ns'. rewrite map_lookup_filter. destruct (ns !! x) as [n|]; simpl; [|by case_decide].
    destruct (decide (x ∈ only)) as [Hx|Hx]; [rewrite option_guard_True|rewrite option_guard_False]; try done; by rewrite Hk. }
  case_decide as Hdang.
  - assert (∀ a b, dep ns' a b → b ∈ only) as Hclosed.
    { intros a b (n & Hn & Hb). rewrite Hns' in Hn. case_decide as Ha; [|done].
      destruct (decide (b ∈ only)) as [|Hnb]; [done|]. exfalso.
      apply (not_elem_of_nil (a +:+ " -> " +:+ b)). rewrite <- Hdang. apply elem_of_concat.
      eexists. split; [apply list_elem_of_fmap; exists a; split; [reflexivity|]; eauto|].
      rewrite Hns', decide_True, Hn by done. apply list_elem_of_fmap. exists b. split; [done|].
      apply list_elem_of_filter. by rewrite Hk. }
    split_and!; [done| |done|].
    + intros x Hx. rewrite Hns', decide_True by done. auto.
    + intros (_ & Hknown & Hac).
      assert (∀ a b, dep ns' a b → dep ns a b) as Hsub.
      { intros a b (n & Hn & Hb). rewrite Hns' in Hn. case_decide; [|done]. by exists n. }
      split; [intros a b Hd; rewrite Hns', decide_True by eauto; by eapply Hknown, Hsub|].
      assert (∀ a b, tc (dep ns') a b → tc (dep ns) a b) as Htc
        by (induction 1; [apply tc_once|eapply tc_l]; eauto).
      intros a Ha. by apply (Hac a), Htc.
  - right. destruct (concat _) as [|m l] eqn:Hc; [done|].
    assert (m ∈ m :: l) as Hm by left. rewrite <- Hc in Hm.
    apply elem_of_concat in Hm as (l' & Hl' & Hm). apply list_elem_of_fmap in Hl' as (a & -> & Ha).
    destruct (ns' !! a) as [n|] eqn:Hn; [|set_solver]. rewrite Hns' in Hn. case_decide; [|done].
    apply list_elem_of_fmap in Hm as (b & -> & Hb). apply list_elem_of_filter in Hb as [Hb Hin].
    exists a, b. rewrite Hk in Hb. split_and!; [done|by exists n|done].
Qed.

End graph.

(** * Concrete instances *)

Section witnesses.

Let plain (deps : list string) : NodeSpec :=
  mkNode ["true"] deps [] None KTask None 60 SCapture None.
Let two : Nodes := {[ "a" := plain []; "b" := plain ["a"] ]}.

Lemma two_ok : spec_ok two.
Proof.
  pose proof (validate_ends two (map_to_list two) (reflexivity _)) as H.
  assert (validate (map_to_list two) two = Ok ()) as Heq by (vm_compute; reflexivity).
  rewrite Heq in H. exact H.
Qed.

Example validate_correct_demo :
  match validate (map_to_list two) two with Ok _ => spec_ok two | Err _ => ¬ spec_ok two | Panic => False end.
Proof. apply (validate_correct two (map_to_list two)). reflexivity. Defined.

Example topological_order_correct_demo :
  ∃ order, topological_order two = Ok order ∧ order ≡ₚ elements (dom two) ∧ dependencies_first two order.
Proof. apply (topological_order_correct two). exact two_ok. Defined.

Example filter_only_correct_demo :
  match filter_only two ["a"] ["a"] ["a"; "b"] with
  | Ok ns' => ∀ x, x ∈ ["a"] → is_Some (ns' !! x)
  | _ => False
  end.
Proof.
  pose proof (filter_only_correct two ["a"] ["a"] ["a"; "b"]) as H.
  specialize (H ltac:(reflexivity) ltac:(set_solver)). revert H.
  assert (∃ r, filter_only two ["a"] ["a"] ["a"; "b"] = Ok r) as [r ->] by (vm_compute; eexists; reflexivity).
  intros H. exact (proj1 (proj2 H)).
Defined.

End witnesses.
