(* ===== verification/DagExec.v ===== *)
(** Running one node of [packages/dag-runner/src/main.rs]: outcomes and exit
    codes, the bounded output tail, the readiness matcher on log lines, and the
    process-group teardown of [run_task], [run_service] and [execute].

    What the operating system answers (signals, waits, pipes) is an argument;
    the system calls made are recorded in order. *)

From stdpp Require Import base gmap sets list strings pretty relations sorting.
From Stdlib Require Import Ascii.
From S2P Require Import Prelude BTree DagSpec.

(** * Outcomes *)

Inductive Outcome :=
| Succeeded
| Failed (code : Z)
| Skipped
| Stopped.
#[export] Instance Outcome_eq_dec : EqDecision Outcome.
Proof. solve_decision. Defined.

Definition label (o : Outcome) : string :=
  match o with
  | Succeeded => "succeeded"
  | Failed _ => "failed"
  | Skipped => "skipped"
  | Stopped => "stopped"
  end.

(** [Outcome::exit_contribution]. *)
Definition exit_contribution (o : Outcome) : Z :=
  match o with
  | Succeeded | Stopped => 0
  | Failed code => code
  | Skipped => 1
  end.

(** [exit_code]: the maximum, 0 when there are no records. *)
Definition exit_code (outcomes : list Outcome) : Z :=
  match exit_contribution <$> outcomes with
  | [] => 0
  | c :: cs => foldl Z.max c cs
  end.

Record Tally := mkTally { ta_succeeded : nat; ta_failed : nat; ta_skipped : nat; ta_stopped : nat }.

(** [tally]. *)
Definition tally_step (t : Tally) (o : Outcome) : Tally :=
  match o with
  | Succeeded => mkTally (S (ta_succeeded t)) (ta_failed t) (ta_skipped t) (ta_stopped t)
  | Failed _ => mkTally (ta_succeeded t) (S (ta_failed t)) (ta_skipped t) (ta_stopped t)
  | Skipped => mkTally (ta_succeeded t) (ta_failed t) (S (ta_skipped t)) (ta_stopped t)
  | Stopped => mkTally (ta_succeeded t) (ta_failed t) (ta_skipped t) (S (ta_stopped t))
  end.
Definition tally (outcomes : list Outcome) : Tally := foldl tally_step (mkTally 0 0 0 0) outcomes.

(** * Shutdown reasons *)

Inductive Reason := Cancelled | Drained | Aborted.
#[export] Instance Reason_eq_dec : EqDecision Reason.
Proof. solve_decision. Defined.

Definition terminated_exit_code (r : Reason) : Z :=
  match r with Cancelled => 130 | Drained | Aborted => 143 end.

Definition describe_reason (r : Reason) : string :=
  match r with
  | Cancelled => "cancelled"
  | Drained => "run finished"
  | Aborted => "a service failed, taking the group down"
  end.

(** [Shutdown::request]: the first reason to arrive wins. *)
Definition request (slot : option Reason) (r : Reason) : option Reason :=
  match slot with Some _ => slot | None => Some r end.

(** * Output tails *)

Record OutputTail := mkTail { ot_lines : list string; ot_dropped : nat; ot_limit : nat }.

Definition DEFAULT_LIMIT : nat := 500.
Definition OutputTail_new : OutputTail := mkTail [] 0 DEFAULT_LIMIT.
(** [#[derive(Default)]]: the limit is 0. *)
Definition OutputTail_default : OutputTail := mkTail [] 0 0.

(** The [while] loop of [OutputTail::push]; each iteration drops a line. *)
Fixpoint trim (fuel : nat) (t : OutputTail) : OutputTail :=
  match fuel with
  | O => t
  | S fuel =>
      if decide (Nat.max (ot_limit t) 1 < length (ot_lines t))
      then trim fuel (mkTail (tail (ot_lines t)) (S (ot_dropped t)) (ot_limit t))
      else t
  end.

(** [OutputTail::push]. *)
Definition push (t : OutputTail) (line : string) : OutputTail :=
  let lines := ot_lines t ++ [line] in
  trim (length lines) (mkTail lines (ot_dropped t) (ot_limit t)).

Definition newline_string : string := String (ascii_of_N 10) EmptyString.

(** [OutputTail::render]. *)
Definition render (t : OutputTail) : string :=
  let note :=
    if decide (0 < ot_dropped t) then
      "dag-runner: " +:+ pretty (ot_dropped t) +:+ " earlier line"
        +:+ (if decide (ot_dropped t = 1) then EmptyString else "s")
        +:+ " dropped (keeping the last " +:+ pretty (ot_limit t) +:+ ")" +:+ newline_string
    else EmptyString in
  foldl String.append note (ot_lines t).

(** * Log lines *)

(** [str::contains]. *)
Fixpoint str_prefix (p s : string) : bool :=
  match p, s with
  | EmptyString, _ => true
  | String a p, String b s => bool_decide (a = b) && str_prefix p s
  | String _ _, EmptyString => false
  end.
Fixpoint str_contains (s p : string) : bool :=
  str_prefix p s || match s with EmptyString => false | String _ s => str_contains s p end.

(** [line.trim_end_matches(['\n', '\r'])]. *)
Fixpoint trim_end_newlines (s : string) : string :=
  match s with
  | EmptyString => EmptyString
  | String c s =>
      match trim_end_newlines s with
      | EmptyString => if decide (c = ascii_of_N 10 ∨ c = ascii_of_N 13) then EmptyString else String c EmptyString
      | s' => String c s'
      end
  end.

(** The matcher [make_sink] builds from [ready_when]. *)
Definition make_matcher (n : NodeSpec) : option (string * LogStream) :=
  match ready_when n with
  | Some (LogLine pattern stream) => Some (pattern, stream)
  | _ => None
  end.

(** [Sink::accept]: whether the line fires the readiness flag. *)
Definition accept (matcher : option (string * LogStream)) (which : LogStream) (line : string) : bool :=
  match matcher with
  | Some (pattern, stream) =>
      (bool_decide (stream = LEither) || bool_decide (stream = which))
      && str_contains (trim_end_newlines line) pattern
  | None => false
  end.

(** [tee_lines]: the retained tail, and whether the flag was raised. *)
Definition tee_lines (n : NodeSpec) (which : LogStream) (lines : list string) : OutputTail * bool :=
  foldl (λ acc line, (push acc.1 line, acc.2 || accept (make_matcher n) which line))
    (OutputTail_new, false) lines.

(** * Processes *)

(** [Result] of an I/O call. *)
Definition io (A : Type) : Type := string + A.

Inductive ExitStatus := Exited (code : Z) | Signaled (sig : Z).
Definition success (s : ExitStatus) : bool := match s with Exited 0 => true | _ => false end.
Definition status_code (s : ExitStatus) : option Z := match s with Exited c => Some c | Signaled _ => None end.

(** System calls on a node's process group, in the order they are made.  [Reap]
    is a [wait] that returned the leader's status. *)
Inductive Sys := Term | Kill | Reap.
#[export] Instance Sys_eq_dec : EqDecision Sys.
Proof. solve_decision. Defined.

(** [OwnedProcessGroup], with the calls made so far. *)
Record Group := mkGroup { armed : bool; calls : list Sys }.
Definition Group_new : Group := mkGroup true [].
Definition disarm (g : Group) : Group := mkGroup false (calls g).
Definition called (g : Group) (c : Sys) : Group := mkGroup (armed g) (calls g ++ [c]).

(** What [killpg] answers: success, or an errno. *)
Inductive KillResult := KillOk | ESRCH | EPERM | KillError (err : string).

(** [ProcessGroupId::signal] with [means_already_gone]. *)
Definition signal (macos : bool) (r : KillResult) : io () :=
  match r with
  | KillOk | ESRCH => inr ()
  | EPERM => if macos then inr () else inl "Operation not permitted"
  | KillError err => inl err
  end.

(** What the system answers during one teardown. *)
Record Os := mkOs {
  os_macos : bool;
  os_term : KillResult;
  os_kill : KillResult;
  os_wait : io ExitStatus }.

(** [terminate_process_group]. *)
Definition terminate_process_group (os : Os) (g : Group) : Group * io () :=
  let term_result := signal (os_macos os) (os_term os) in
  let g := called g Term in
  let g := called g Kill in
  match signal (os_macos os) (os_kill os) with
  | inl err => (g, inl err)
  | inr _ =>
      let g := disarm g in
      let '(g, wait_result) := match os_wait os with
                               | inr _ => (called g Reap, inr ())
                               | inl err => (g, inl err)
                               end in
      (g, match term_result with inl err => inl err | inr _ => wait_result end)
  end.

(** [Drop for OwnedProcessGroup]. *)
Definition drop_group (g : Group) : Group := if armed g then called g Kill else g.

Record CapturedStreams := mkStreams { st_stdout : OutputTail; st_stderr : OutputTail }.

(** [PipeCapture]: the stream readers of a child, [None] for inherited stdio;
    each reader delivers a tail, or nothing when it is aborted or panics. *)
Record PipeCapture := mkCapture {
  pc_stdout : option (option OutputTail);
  pc_stderr : option (option OutputTail) }.
Definition PipeCapture_none : PipeCapture := mkCapture None None.

(** [PipeCapture::abort] on readers of which [done_out] and [done_err] have
    already finished. *)
Definition abort (done_out done_err : bool) (c : PipeCapture) : PipeCapture :=
  mkCapture (if done_out then pc_stdout c else (λ _, None) <$> pc_stdout c)
            (if done_err then pc_stderr c else (λ _, None) <$> pc_stderr c).

(** [PipeCapture::finish] and [take]. *)
Definition finish_take (c : PipeCapture) : CapturedStreams :=
  mkStreams (default OutputTail_default (mjoin (pc_stdout c)))
            (default OutputTail_default (mjoin (pc_stderr c))).

(** [collect]. *)
Definition collect (done_out done_err : bool) (c : PipeCapture) (g : Group) : CapturedStreams :=
  finish_take (if armed g then abort done_out done_err c else c).

(** [record_termination_failure]. *)
Definition record_termination_failure (t : OutputTail) (r : io ()) : OutputTail :=
  match r with
  | inl err => push t ("dag-runner: failed to terminate node process group: " +:+ err +:+ newline_string)
  | inr _ => t
  end.

(** [stop]. *)
Definition stop (os : Os) (done_out done_err : bool) (c : PipeCapture) (g : Group) (note : string)
  : Group * CapturedStreams :=
  let '(g, result) := terminate_process_group os g in
  let streams := collect done_out done_err c g in
  (g, mkStreams (st_stdout streams) (push (record_termination_failure (st_stderr streams) result) note)).

Record CommandOutput := mkOutput { co_outcome : Outcome; co_stdout : OutputTail; co_stderr : OutputTail }.

(** [capture_exit]: the streams, then the status of the wait that reaps. *)
Record CapturedExit := mkExit { ce_status : io ExitStatus; ce_stdout : OutputTail; ce_stderr : OutputTail }.
Definition capture_exit (w : io ExitStatus) (c : PipeCapture) (g : Group) : Group * CapturedExit :=
  let s := finish_take c in
  (match w with inr _ => called g Reap | inl _ => g end, mkExit w (st_stdout s) (st_stderr s)).

(** What decided the [select!] of [run_task] and of [run_service]. *)
Inductive Completion :=
| CExited (w : io ExitStatus)
| CTimedOut (secs : Z)
| CShutDown (r : Reason).
Inductive Startup :=
| UReady
| UExited (w : io ExitStatus)
| UTimedOut
| UShutDown (r : Reason).
Inductive Running :=
| RShutDown (r : Reason)
| RExited (w : io ExitStatus)
| RDied (code : Z).

Section node.
Variables (os : Os) (done_out done_err : bool) (cap : PipeCapture).

(** [run_task] after its [select!]. *)
Definition run_task (g : Group) (c : Completion) : Group * CommandOutput :=
  match c with
  | CExited w =>
      let '(g, exit) := capture_exit w cap g in
      match ce_status exit with
      | inr status =>
          (disarm g,
           mkOutput (if success status then Succeeded else Failed (default 1%Z (status_code status)))
             (ce_stdout exit) (ce_stderr exit))
      | inl err =>
          let stderr := push (ce_stderr exit) ("wait failed: " +:+ err +:+ newline_string) in
          let '(g, result) := terminate_process_group os g in
          (g, mkOutput (Failed 1) (ce_stdout exit) (record_termination_failure stderr result))
      end
  | CTimedOut secs =>
      let '(g, s) := stop os done_out done_err cap g
                       ("dag-runner: node timed out after " +:+ pretty secs +:+ "s" +:+ newline_string) in
      (g, mkOutput (Failed 124) (st_stdout s) (st_stderr s))
  | CShutDown r =>
      let '(g, s) := stop os done_out done_err cap g
                       ("dag-runner: terminated: " +:+ describe_reason r +:+ newline_string) in
      (g, mkOutput (Failed (terminated_exit_code r)) (st_stdout s) (st_stderr s))
  end.

(** [service_exit]. *)
Definition service_exit (g : Group) (exit : CapturedExit) (when : string) : Group * CommandOutput :=
  let '(g, code) := match ce_status exit with
                    | inr status => (disarm g, default 1%Z (status_code status))
                    | inl _ => (g, 1%Z)
                    end in
  (g, mkOutput (Failed code) (ce_stdout exit)
        (push (ce_stderr exit) ("dag-runner: service exited (status " +:+ pretty code +:+ ") " +:+ when +:+ newline_string))).

(** [never_came_up]; [UReady] is handled by the caller. *)
Definition never_came_up (n : NodeSpec) (g : Group) (u : Startup) : outcome string (Group * CommandOutput) :=
  match u with
  | UShutDown r =>
      let '(g, s) := stop os done_out done_err cap g
                       ("dag-runner: stopped before it became ready: " +:+ describe_reason r +:+ newline_string) in
      Ok (g, mkOutput Stopped (st_stdout s) (st_stderr s))
  | UTimedOut =>
      let '(g, s) := stop os done_out done_err cap g
                       ("dag-runner: service was not ready after " +:+ pretty (ready_timeout_secs n) +:+ "s" +:+ newline_string) in
      Ok (g, mkOutput (Failed 124) (st_stdout s) (st_stderr s))
  | UExited w =>
      let '(g, exit) := capture_exit w cap g in Ok (service_exit g exit "before it became ready")
  | UReady => Panic
  end.

(** The second [select!] of [run_service]. *)
Definition service_up (g : Group) (r : Running) : Group * CommandOutput :=
  match r with
  | RShutDown _ =>
      let '(g, s) := stop os done_out done_err cap g EmptyString in
      (g, mkOutput Stopped (st_stdout s) (st_stderr s))
  | RExited w =>
      let '(g, exit) := capture_exit w cap g in service_exit g exit "while the run was still going"
  | RDied code =>
      let '(g, s) := stop os done_out done_err cap g
                       ("dag-runner: service exited (status " +:+ pretty code
                          +:+ ") while the run was still going" +:+ newline_string) in
      (g, mkOutput (Failed code) (st_stdout s) (st_stderr s))
  end.

(** [run_service]: the start-up race, and, once ready, the rest. *)
Definition run_service (n : NodeSpec) (g : Group) (u : Startup) (r : Running)
  : outcome string (Group * CommandOutput) :=
  match u with
  | UReady => Ok (service_up g r)
  | _ => never_came_up n g u
  end.

End node.

(** [spawn_failed]'s output. *)
Definition spawn_failed (err : string) : CommandOutput :=
  mkOutput (Failed 127) OutputTail_new (push OutputTail_new ("failed to spawn: " +:+ err +:+ newline_string)).

(** [never_ran]'s record. *)
Definition never_ran (r : option Reason) : CommandOutput :=
  mkOutput Skipped OutputTail_new
    match r with
    | Some r => push OutputTail_new ("dag-runner: never started: " +:+ describe_reason r +:+ newline_string)
    | None => OutputTail_new
    end.

(** * The tail keeps exactly the last lines *)

Lemma trim_spec fuel lines d lim :
  length lines - Nat.max lim 1 ≤ fuel →
  trim fuel (mkTail lines d lim) =
  mkTail (drop (length lines - Nat.max lim 1) lines) (d + (length lines - Nat.max lim 1)) lim.
Proof.
  revert lines d. induction fuel as [|fuel IH]; intros lines d Hf; cbn [trim ot_limit ot_lines ot_dropped].
  - replace (length lines - Nat.max lim 1) with 0 by lia. by rewrite Nat.add_0_r.
  - case_decide as Hlt.
    + destruct lines as [|l lines]; simpl in Hlt; [lia|]. cbn [tail].
      rewrite IH by (simpl in Hf; lia). cbn [length] in *.
      replace (S (length lines) - Nat.max lim 1) with (S (length lines - Nat.max lim 1)) by lia.
      simpl. f_equal. lia.
    + replace (length lines - Nat.max lim 1) with 0 by lia. by rewrite Nat.add_0_r.
Qed.

Lemma push_all lim xs :
  foldl push (mkTail [] 0 lim) xs =
  mkTail (drop (length xs - Nat.max lim 1) xs) (length xs - Nat.max lim 1) lim.
Proof.
  induction xs as [|x xs IH] using rev_ind; [done|]. rewrite foldl_app, IH. cbn [foldl].
  unfold push. cbn [ot_lines ot_dropped ot_limit]. rewrite trim_spec by lia.
  set (n := length xs). set (m := Nat.max lim 1). assert (0 < m) by lia.
  rewrite !length_app, length_drop. fold n. cbn [length].
  destruct (decide (n < m)) as [Hlt|Hge].
  - replace (n - m) with 0 by lia. replace (n - 0 + 1 - m) with 0 by lia.
    replace (n + 1 - m) with 0 by lia. done.
  - replace (n - (n - m) + 1 - m) with 1 by lia. replace (n + 1 - m) with (S (n - m)) by lia.
    f_equal; [|lia]. rewrite drop_app_le by (rewrite length_drop; lia).
    rewrite drop_drop. replace (n - m + 1) with (S (n - m)) by lia.
    by rewrite drop_app_le by lia.
Qed.

(** A tail built by [take] on an inherited stream has limit 0: it keeps one
    line, but its note says it keeps the last 0. *)
Example default_tail_note :
  render (foldl push OutputTail_default ["a"; "b"]) =
  "dag-runner: 1 earlier line dropped (keeping the last 0)" +:+ newline_string +:+ "b".
Proof. vm_compute. reflexivity. Qed.

(** * Log-line readiness *)

Lemma str_prefix_spec p s : str_prefix p s = true ↔ ∃ post, s = p +:+ post.
Proof.
  revert s. induction p as [|a p IH]; intros s; simpl.
  - split; [by exists s|done].
  - destruct s as [|b s]; [split; [done|intros [post H]; by rewrite append_cons in H]|].
    rewrite andb_true_iff, bool_decide_eq_true, IH. setoid_rewrite append_cons.
    split; [intros [-> [post ->]]; by exists post|intros [post [= -> ->]]; eauto].
Qed.

Lemma str_contains_spec s p : str_contains s p = true ↔ ∃ pre post, s = pre +:+ p +:+ post.
Proof.
  induction s as [|c s IH]; simpl; rewrite orb_true_iff, str_prefix_spec.
  - split; [intros [[post H]|]; [by exists EmptyString, post|done]|].
    intros (pre & post & H). left. exists post. destruct pre; [done|by rewrite append_cons in H].
  - rewrite IH. split.
    + intros [[post H]|(pre & post & ->)]; [by exists EmptyString, post|by exists (String c pre), post].
    + intros ([|c' pre] & post & H); [left; by exists post|]. rewrite append_cons in H.
      injection H as <- ->. right. by exists pre, post.
Qed.

(** The line would make the service ready. *)
Definition fires (n : NodeSpec) (which : LogStream) (line : string) : Prop :=
  ∃ pattern stream pre post, ready_when n = Some (LogLine pattern stream) ∧
    (stream = LEither ∨ stream = which) ∧ trim_end_newlines line = pre +:+ pattern +:+ post.

Lemma accept_spec n which line : accept (make_matcher n) which line = true ↔ fires n which line.
Proof.
  unfold accept, make_matcher, fires. destruct (ready_when n) as [[]|]; try (split; [done|naive_solver]).
  rewrite andb_true_iff, orb_true_iff, !bool_decide_eq_true, str_contains_spec. naive_solver.
Qed.

(** [tee_lines] retains exactly the last 500 lines of a stream with an
    accurate count of the dropped ones, so memory stays bounded however long a
    service runs; and it raises the readiness flag exactly when some line of
    the selected stream contains the [log_line] pattern. *)
Lemma tee_lines_correct n which lines :
  (tee_lines n which lines).1 = mkTail (drop (length lines - 500) lines) (length lines - 500) 500 ∧
  ((tee_lines n which lines).2 = true ↔ ∃ line, line ∈ lines ∧ fires n which line).
Proof.
  assert (tee_lines n which lines = (foldl push OutputTail_new lines, existsb (accept (make_matcher n) which) lines))
    as ->.
  { unfold tee_lines. induction lines as [|l lines IH] using rev_ind; [done|].
    rewrite !foldl_app, IH, existsb_app. simpl. by rewrite orb_false_r. }
  split; [apply (push_all 500)|]. simpl. rewrite existsb_exists. setoid_rewrite accept_spec.
  by setoid_rewrite list_elem_of_In.
Qed.

(** * Teardown *)

(** No signal goes to a group whose leader has been reaped. *)
Definition no_signal_after_reap (l : list Sys) : Prop :=
  ∀ pre post, l = pre ++ Reap :: post → Term ∉ post ∧ Kill ∉ post.

Definition torn_down (g : Group) : Prop :=
  no_signal_after_reap (calls (drop_group g)) ∧ (Reap ∈ calls (drop_group g) ∨ Kill ∈ calls (drop_group g)).

Lemma no_signal_no_reap l : Reap ∉ l → no_signal_after_reap l.
Proof. intros H pre post ->. destruct H. set_solver. Qed.

Lemma no_signal_last l : Reap ∉ l → no_signal_after_reap (l ++ [Reap]).
Proof.
  intros H pre post Heq. destruct post as [|x post _] using rev_ind; [set_solver|].
  rewrite app_comm_cons, (assoc_L (++)) in Heq. apply app_inj_tail in Heq as [-> _]. destruct H. set_solver.
Qed.

Lemma terminate_torn_down os g :
  Reap ∉ calls g → torn_down (terminate_process_group os g).1.
Proof.
  intros H. unfold terminate_process_group. destruct (signal _ (os_kill os)) as [e|[]]; simpl.
  - unfold torn_down, drop_group. simpl. destruct (armed g); simpl; (split; [apply no_signal_no_reap|]); set_solver.
  - destruct (os_wait os); simpl; split; simpl; try set_solver.
    + apply no_signal_no_reap. set_solver.
    + apply no_signal_last. set_solver.
Qed.

Lemma stop_group os d1 d2 cap g note : (stop os d1 d2 cap g note).1 = (terminate_process_group os g).1.
Proof. unfold stop. by destruct (terminate_process_group os g). Qed.

Lemma reaped_torn_down : torn_down (mkGroup false [Reap]).
Proof. split; [apply (no_signal_last []); set_solver|set_solver]. Qed.

Lemma unreaped_torn_down : torn_down Group_new.
Proof. split; simpl; [apply no_signal_no_reap|]; set_solver. Qed.

Lemma service_exit_torn_down w cap when :
  torn_down (service_exit (capture_exit w cap Group_new).1 (capture_exit w cap Group_new).2 when).1.
Proof. destruct w; simpl; [apply unreaped_torn_down|apply reaped_torn_down]. Qed.

Lemma stop_torn_down os d1 d2 cap note : torn_down (stop os d1 d2 cap Group_new note).1.
Proof. rewrite stop_group. apply terminate_torn_down. simpl. set_solver. Qed.

(** Name the result of a [stop]. *)
Ltac stopped :=
  match goal with |- context [stop ?os ?d1 ?d2 ?cap ?g ?note] =>
    pose proof (stop_torn_down os d1 d2 cap note) as Hstop;
    destruct (stop os d1 d2 cap g note); simpl in *; eauto
  end.

(** Process-group hygiene: on every way a task or a service can end, and
    whatever the signals and waits answer, no signal is ever sent to the
    process group after its leader was reaped (its id could have been reused),
    and when the group is dropped the leader has been reaped or the whole group
    killed. *)
Lemma teardown_safe os d1 d2 cap n :
  (∀ c, torn_down (run_task os d1 d2 cap Group_new c).1) ∧
  (∀ u r, ∃ g out, run_service os d1 d2 cap n Group_new u r = Ok (g, out) ∧ torn_down g).
Proof.
  split.
  - intros [[e|w]|secs|r]; simpl; [|apply reaped_torn_down|stopped|stopped].
    pose proof (terminate_torn_down os Group_new) as H.
    destruct (terminate_process_group os Group_new). apply H. simpl. set_solver.
  - intros u r. assert (∃ x, run_service os d1 d2 cap n Group_new u r = Ok x ∧ torn_down x.1)
      as ([g out] & ? & ?); [|eauto].
    destruct u as [|w| |r0]; simpl; 
      [|eexists; split; [done|]; apply (service_exit_torn_down w cap)|stopped|stopped].
    eexists. split; [done|]. destruct r as [r|w|code]; simpl; [stopped| |stopped].
    apply (service_exit_torn_down w cap).
Qed.
