(* ===== verification/DagRun.v ===== *)
(** The run of [packages/dag-runner/src/main.rs] as a step relation: one future
    per node ([run_node], [execute], [run_task], [run_service]) on a
    single-threaded runtime, communicating through the readiness channels, the
    shutdown slot and the counter of remaining tasks.

    A step is what one future does between two points where it waits.  What the
    children and the clock do (exits, probes, timeouts, Ctrl-C) is chosen by
    the relation. *)

From stdpp Require Import base gmap sets list strings pretty relations sorting.
From S2P Require Import Prelude BTree DagSpec DagGraph DagExec.

(** * State *)

Inductive Readiness := Ready | Unavailable.
#[export] Instance Readiness_eq_dec : EqDecision Readiness.
Proof. solve_decision. Defined.

(** The NDJSON events, without time stamps. *)
Inductive Event :=
| NodeStarted (node : string)
| NodeReady (node : string)
| NodeFinished (node : string) (o : Outcome).
#[export] Instance Event_eq_dec : EqDecision Event.
Proof. solve_decision. Defined.

(** Where a node's future is. *)
Inductive Phase :=
| PWaiting (seen : nat)      (** in [await_deps], after [seen] verdicts *)
| PRunning                   (** in the [select!] of [run_task] *)
| PStarting                  (** in the first [select!] of [run_service] *)
| PUp                        (** in the second [select!] of [run_service] *)
| PStopping (o : Outcome)    (** the child is being torn down *)
| PFinished (o : Outcome)    (** [run_node] has returned *)
| PDone (o : Outcome).       (** the record is stored *)

Record Run := mkRun {
  r_phase : gmap string Phase;
  r_ready : gmap string Readiness;
  r_shutdown : option Reason;
  r_remaining : nat;
  r_records : gmap string Outcome;
  r_events : list Event;
  r_sigint : bool }.

Definition is_done (ph : Phase) : bool := match ph with PDone _ => true | _ => false end.

(** The body of the spawn loop of [run]: every dependency's receiver is there. *)
Definition spawn_node (ns : Nodes) (ready : gset string) (name : string) : outcome string (gset string) :=
  node ← unwrap (ns !! name);
  _ ← foldM (λ _ d, if decide (d ∈ ready) then Ok () else Panic) () (depends_on node);
  Ok ({[name]} ∪ ready).

Definition is_task_name (ns : Nodes) (name : string) : bool :=
  match ns !! name with Some node => negb (is_service node) | None => false end.

Definition run_init (ns : Nodes) : Run :=
  mkRun ((λ _, PWaiting 0) <$> ns) ∅ None
    (size (filter (λ name, is_task_name ns name = true) (dom ns))) ∅ [] false.

(** [run] up to the point where the futures start. *)
Definition run_setup (ns : Nodes) : outcome string Run :=
  order ← topological_order ns;
  _ ← foldM (spawn_node ns) ∅ order;
  Ok (run_init ns).

(** What one step changes: the node's phase, its published readiness, the
    events, and a request to shut down. *)
Definition update (name : string) (ph : Phase) (publish : option Readiness) (events : list Event)
    (req : option Reason) (s : Run) : Run :=
  mkRun (<[name := ph]> (r_phase s))
    (match publish with Some v => <[name := v]> (r_ready s) | None => r_ready s end)
    (match req with Some r => request (r_shutdown s) r | None => r_shutdown s end)
    (r_remaining s) (r_records s) (r_events s ++ events) (r_sigint s).

(** After [run_node]: store the record; the last task to settle drains the run. *)
Definition store_record (ns : Nodes) (name : string) (o : Outcome) (s : Run) : Run :=
  let task := is_task_name ns name in
  mkRun (<[name := PDone o]> (r_phase s)) (r_ready s)
    (if task && bool_decide (r_remaining s = 1) then request (r_shutdown s) Drained else r_shutdown s)
    (if task then r_remaining s - 1 else r_remaining s)
    (<[name := o]> (r_records s)) (r_events s) (r_sigint s).

(** The readiness a finished task publishes. *)
Definition task_verdict (o : Outcome) : Readiness :=
  match o with Succeeded => Ready | _ => Unavailable end.

(** The kernel reports exit codes in 0..255. *)
Definition status_ok (w : io ExitStatus) : Prop :=
  match w with inr (Exited c) => (0 <= c <= 255)%Z | _ => True end.

Section step.
Variable ns : Nodes.

Inductive step : Run → Run → Prop :=
(** [await_deps] *)
| step_dep_ready s name node i d :
    ns !! name = Some node → r_phase s !! name = Some (PWaiting i) →
    depends_on node !! i = Some d → r_ready s !! d = Some Ready →
    step s (update name (PWaiting (S i)) None [] None s)
| step_dep_unavailable s name node i d :
    ns !! name = Some node → r_phase s !! name = Some (PWaiting i) →
    depends_on node !! i = Some d → r_ready s !! d = Some Unavailable →
    step s (update name (PFinished (co_outcome (never_ran None))) (Some Unavailable)
              [NodeFinished name Skipped] None s)
(** [run_node]: the group is already on its way down *)
| step_never_ran s name node r :
    ns !! name = Some node → r_phase s !! name = Some (PWaiting (length (depends_on node))) →
    r_shutdown s = Some r →
    step s (update name (PFinished (co_outcome (never_ran (Some r)))) (Some Unavailable)
              [NodeFinished name Skipped] None s)
(** [execute] *)
| step_spawn s name node :
    ns !! name = Some node → r_phase s !! name = Some (PWaiting (length (depends_on node))) →
    r_shutdown s = None →
    step s (update name (if is_service node then PStarting else PRunning) None [NodeStarted name] None s)
| step_spawn_failed s name node err :
    ns !! name = Some node → r_phase s !! name = Some (PWaiting (length (depends_on node))) →
    r_shutdown s = None →
    step s (update name (PStopping (co_outcome (spawn_failed err)))
              (if is_service node then Some Unavailable else None) [NodeStarted name]
              (if is_service node then Some Aborted else None) s)
(** [run_task]; the [select!] is biased: shutdown first *)
| step_task_shutdown s name node r os d1 d2 cap :
    ns !! name = Some node → r_phase s !! name = Some PRunning → r_shutdown s = Some r →
    step s (update name (PStopping (co_outcome (run_task os d1 d2 cap Group_new (CShutDown r)).2)) None [] None s)
| step_task_timeout s name node secs os d1 d2 cap :
    ns !! name = Some node → r_phase s !! name = Some PRunning → r_shutdown s = None →
    timeout_secs node = Some secs →
    step s (update name (PStopping (co_outcome (run_task os d1 d2 cap Group_new (CTimedOut secs)).2)) None [] None s)
| step_task_exit s name node w os d1 d2 cap :
    ns !! name = Some node → r_phase s !! name = Some PRunning → r_shutdown s = None → status_ok w →
    step s (update name (PStopping (co_outcome (run_task os d1 d2 cap Group_new (CExited w)).2)) None [] None s)
(** [run_service], before it is ready *)
| step_service_shutdown s name node r os d1 d2 cap g out :
    ns !! name = Some node → r_phase s !! name = Some PStarting → r_shutdown s = Some r →
    never_came_up os d1 d2 cap node Group_new (UShutDown r) = Ok (g, out) →
    step s (update name (PStopping (co_outcome out)) (Some Unavailable) [] None s)
| step_service_failed s name node u os d1 d2 cap g out :
    ns !! name = Some node → r_phase s !! name = Some PStarting → r_shutdown s = None →
    (u = UTimedOut ∨ ∃ w, u = UExited w ∧ status_ok w) →
    never_came_up os d1 d2 cap node Group_new u = Ok (g, out) →
    step s (update name (PStopping (co_outcome out)) (Some Unavailable) [] (Some Aborted) s)
| step_service_ready s name node :
    ns !! name = Some node → r_phase s !! name = Some PStarting → r_shutdown s = None →
    step s (update name PUp (Some Ready) [NodeReady name] None s)
(** [run_service], once it is up *)
| step_up_shutdown s name node r os d1 d2 cap :
    ns !! name = Some node → r_phase s !! name = Some PUp → r_shutdown s = Some r →
    step s (update name (PStopping (co_outcome (service_up os d1 d2 cap Group_new (RShutDown r)).2)) None [] None s)
| step_up_exit s name node w os d1 d2 cap :
    ns !! name = Some node → r_phase s !! name = Some PUp → r_shutdown s = None → status_ok w →
    step s (update name (PStopping (co_outcome (service_up os d1 d2 cap Group_new (RExited w)).2)) None []
              (Some Aborted) s)
| step_up_death s name node code os d1 d2 cap :
    ns !! name = Some node → r_phase s !! name = Some PUp → r_shutdown s = None → (0 <= code <= 255)%Z →
    step s (update name (PStopping (co_outcome (service_up os d1 d2 cap Group_new (RDied code)).2)) None []
              (Some Aborted) s)
(** the rest of [run_node]: a task publishes its verdict *)
| step_finish s name node o :
    ns !! name = Some node → r_phase s !! name = Some (PStopping o) →
    step s (update name (PFinished o) (if is_service node then None else Some (task_verdict o))
              [NodeFinished name o] None s)
(** the end of the spawned future *)
| step_record s name node o :
    ns !! name = Some node → r_phase s !! name = Some (PFinished o) →
    step s (store_record ns name o s)
(** [spawn_cancel_listener]: the first Ctrl-C *)
| step_sigint s :
    r_sigint s = false →
    step s (mkRun (r_phase s) (r_ready s) (request (r_shutdown s) Cancelled) (r_remaining s)
              (r_records s) (r_events s) true).

(** Every node has its record, and [run] returns. *)
Definition finished (s : Run) : Prop := ∀ name node, ns !! name = Some node → is_Some (r_records s !! name).

(** The exit code of [main]. *)
Definition process_exit (s : Run) : Z :=
  if decide (r_shutdown s = Some Cancelled) then 130%Z
  else exit_code ((map_to_list (r_records s)).*2).

Definition reachable (s : Run) : Prop := rtc step (run_init ns) s.

End step.
