(* ===== verification/DagRunProps.v ===== *)
(** Invariants of a dag-runner run: dependents start after readiness, the run
    drains only when the tasks are done, it never deadlocks, and its exit code
    says whether it succeeded. *)

From stdpp Require Import base gmap sets list strings pretty relations sorting.
From S2P Require Import Prelude BTree DagSpec DagGraph DagExec DagRun.

(** * Outcomes of the node functions *)

(** What a node of this kind may end with once it has been started. *)
Definition outcome_ok (service : bool) (o : Outcome) : Prop :=
  match o with
  | Succeeded => service = false
  | Stopped => service = true
  | Failed c => if service then (0 <= c)%Z else (0 < c)%Z
  | Skipped => False
  end.

Lemma run_task_outcome os d1 d2 cap c :
  match c with CExited w => status_ok w | _ => True end →
  outcome_ok false (co_outcome (run_task os d1 d2 cap Group_new c).2).
Proof.
  destruct c as [[e|st]|secs|r]; simpl; intros Hc.
  - by destruct (terminate_process_group _ _).
  - destruct st as [[|c|c]|sig]; simpl in *; try done; lia.
  - by destruct (stop _ _ _ _ _ _).
  - destruct (stop _ _ _ _ _ _). by destruct r.
Qed.

Lemma never_came_up_outcome os d1 d2 cap n u g out :
  match u with UExited w => status_ok w | _ => True end →
  never_came_up os d1 d2 cap n Group_new u = Ok (g, out) → outcome_ok true (co_outcome out).
Proof.
  destruct u as [|[e|st]| |r]; simpl; intros Hu; try done.
  - intros. by simplify_eq.
  - intros. simplify_eq. destruct st; simpl in *; lia.
  - destruct (stop _ _ _ _ _ _). intros. by simplify_eq.
  - destruct (stop _ _ _ _ _ _). intros. by simplify_eq.
Qed.

Lemma service_up_outcome os d1 d2 cap r :
  match r with RExited w => status_ok w | RDied c => (0 <= c <= 255)%Z | RShutDown _ => True end →
  outcome_ok true (co_outcome (service_up os d1 d2 cap Group_new r).2).
Proof.
  destruct r as [r|[e|st]|c]; simpl; intros Hr.
  - by destruct (stop _ _ _ _ _ _).
  - done.
  - destruct st; simpl in *; lia.
  - destruct (stop _ _ _ _ _ _). simpl. lia.
Qed.

Section props.
Variable ns : Nodes.

(** * The invariant of a node *)

Definition started (s : Run) (name : string) : Prop := NodeStarted name ∈ r_events s.

Definition node_inv (s : Run) (name : string) (node : NodeSpec) (ph : Phase) : Prop :=
  r_records s !! name = match ph with PDone o => Some o | _ => None end ∧
  match ph with
  | PWaiting i =>
      i ≤ length (depends_on node) ∧
      (∀ j d, j < i → depends_on node !! j = Some d → r_ready s !! d = Some Ready) ∧
      r_ready s !! name = None ∧ ¬ started s name
  | PRunning => is_service node = false ∧ r_ready s !! name = None ∧ started s name
  | PStarting => is_service node = true ∧ r_ready s !! name = None ∧ started s name
  | PUp => is_service node = true ∧ r_ready s !! name = Some Ready ∧ started s name
  | PStopping o =>
      started s name ∧ outcome_ok (is_service node) o ∧
      (if is_service node then is_Some (r_ready s !! name) else r_ready s !! name = None)
  | PFinished o | PDone o =>
      is_Some (r_ready s !! name) ∧
      (if decide (o = Skipped) then ¬ started s name
       else started s name ∧ outcome_ok (is_service node) o) ∧
      (is_service node = false → r_ready s !! name = Some (task_verdict o))
  end.

(** The event that makes a node ready. *)
Definition ready_event (name : string) (node : NodeSpec) : Event :=
  if is_service node then NodeReady name else NodeFinished name Succeeded.

Definition event_node (e : Event) : string :=
  match e with NodeStarted n | NodeReady n | NodeFinished n _ => n end.

(** Dependents start after their dependencies are ready. *)
Definition ordered (events : list Event) : Prop :=
  ∀ pre name post node d dnode, events = pre ++ NodeStarted name :: post →
    ns !! name = Some node → d ∈ depends_on node → ns !! d = Some dnode → ready_event d dnode ∈ pre.

(** Tasks without a record. *)
Definition open_task (s : Run) (name : string) : bool :=
  is_task_name ns name && match r_phase s !! name with Some ph => negb (is_done ph) | None => false end.
Definition open_tasks (s : Run) : gset string := filter (λ name, open_task s name = true) (dom ns).

Record runner_inv (s : Run) : Prop := {
  ri_dom : ∀ name, is_Some (r_phase s !! name) ↔ is_Some (ns !! name);
  ri_node : ∀ name node ph, ns !! name = Some node → r_phase s !! name = Some ph → node_inv s name node ph;
  ri_ready : ∀ name node, ns !! name = Some node → r_ready s !! name = Some Ready →
               ready_event name node ∈ r_events s;
  ri_ordered : ordered (r_events s);
  ri_remaining : r_remaining s = size (open_tasks s);
  ri_drained : r_shutdown s = Some Drained → open_tasks s = ∅;
  ri_records : ∀ name, is_Some (r_records s !! name) → is_Some (ns !! name) }.

(** * Preservation *)

(** A node's invariant does not depend on what the others do. *)
Lemma node_inv_frame s name ph pub evs req other node pho :
  other ≠ name → Forall (λ e, event_node e = name) evs →
  (∀ v, pub = Some v → r_ready s !! name = None) →
  node_inv s other node pho → node_inv (update name ph pub evs req s) other node pho.
Proof.
  intros Hne Hevs Hpub [Hrec Hph].
  assert (started (update name ph pub evs req s) other ↔ started s other) as Hst.
  { unfold started. simpl. rewrite elem_of_app. split; [|by left]. intros [?|Hin]; [done|].
    rewrite Forall_forall in Hevs. by apply Hevs in Hin. }
  assert (r_ready (update name ph pub evs req s) !! other = r_ready s !! other) as Hown.
  { simpl. destruct pub; [|done]. by rewrite lookup_insert_ne. }
  assert (∀ d, r_ready s !! d = Some Ready → r_ready (update name ph pub evs req s) !! d = Some Ready) as Hmono.
  { intros d Hd. simpl. destruct pub as [v|]; [|done]. rewrite lookup_insert_ne; [done|].
    intros <-. specialize (Hpub v eq_refl). congruence. }
  split; [exact Hrec|]. destruct pho; rewrite ?Hown, ?Hst; try done; [naive_solver|..].
  all: destruct (decide _); rewrite ?Hst; done.
Qed.

Lemma open_tasks_update s name ph pub evs req ph0 :
  r_phase s !! name = Some ph0 → is_done ph0 = false → is_done ph = false →
  open_tasks (update name ph pub evs req s) = open_tasks s.
Proof.
  intros H0 Hd0 Hd. unfold open_tasks. apply set_eq. intros x. rewrite !elem_of_filter. unfold open_task. simpl.
  destruct (decide (x = name)) as [->|Hx]; [|by rewrite lookup_insert_ne].
  by rewrite lookup_insert_eq, H0, Hd, Hd0.
Qed.

Lemma ordered_app events evs :
  ordered events →
  (∀ pre name post node d dnode, evs = pre ++ NodeStarted name :: post → ns !! name = Some node →
     d ∈ depends_on node → ns !! d = Some dnode → ready_event d dnode ∈ events) →
  ordered (events ++ evs).
Proof.
  intros Ho He pre name post node d dnode Heq Hn Hd Hdn.
  apply app_eq_inv in Heq as [(k & Hk1 & Hk2)|(k & Hk1 & Hk2)].
  - destruct k as [|e k]; simpl in Hk2.
    + rewrite app_nil_r in Hk1. subst. by eapply (He []).
    + injection Hk2 as <- Hk2. subst. by eapply Ho.
  - subst. apply elem_of_app. left. by eapply He.
Qed.

(** The conditions under which a step of a node keeps the invariant. *)
Lemma runner_inv_update s name node ph0 ph pub evs req :
  runner_inv s → ns !! name = Some node → r_phase s !! name = Some ph0 →
  is_done ph0 = false → is_done ph = false →
  Forall (λ e, event_node e = name) evs →
  (∀ v, pub = Some v → r_ready s !! name = None) →
  (pub = Some Ready → ready_event name node ∈ evs) →
  (NodeStarted name ∈ evs → ph0 = PWaiting (length (depends_on node))) →
  req ≠ Some Drained →
  node_inv (update name ph pub evs req s) name node ph →
  runner_inv (update name ph pub evs req s).
Proof.
  intros [Hdom Hnode Hready Hord Hrem Hdr Hrecs] Hn H0 Hd0 Hd Hevs Hpub Hpr Hstart Hreq Hself. split.
  - intros x. simpl. destruct (decide (x = name)) as [->|Hx].
    + rewrite lookup_insert_eq, Hn. naive_solver eauto.
    + by rewrite lookup_insert_ne.
  - intros x nd phx Hnx. simpl. destruct (decide (x = name)) as [->|Hx].
    + rewrite lookup_insert_eq. intros [= <-]. by replace nd with node by congruence.
    + rewrite lookup_insert_ne by done. intros. by apply node_inv_frame; auto.
  - intros x nd Hnx. simpl. rewrite elem_of_app. destruct pub as [v|]; [|by eauto].
    destruct (decide (x = name)) as [->|Hx].
    + rewrite lookup_insert_eq. intros [= ->]. right. replace nd with node by congruence. auto.
    + rewrite lookup_insert_ne by done. eauto.
  - simpl. apply ordered_app; [done|]. intros pre x post nd d dnode -> Hnx Hdin Hdn.
    assert (x = name) as ->.
    { rewrite Forall_forall in Hevs. apply (Hevs (NodeStarted x)). set_solver. }
    assert (nd = node) as -> by congruence.
    specialize (Hstart ltac:(set_solver)). subst ph0.
    destruct (Hnode name node _ Hn H0) as (_ & _ & Hdeps & _).
    apply list_elem_of_lookup in Hdin as [j Hj].
    apply (Hready d dnode Hdn), (Hdeps j d); [|done]. by eapply lookup_lt_Some.
  - by rewrite (open_tasks_update _ _ _ _ _ _ ph0).
  - rewrite (open_tasks_update _ _ _ _ _ _ ph0) by done. simpl.
    destruct req as [r|]; [|done]. unfold request. destruct (r_shutdown s); [done|]. congruence.
  - exact Hrecs.
Qed.

Lemma started_update s name ph pub evs req :
  started (update name ph pub evs req s) name ↔ started s name ∨ NodeStarted name ∈ evs.
Proof. unfold started. simpl. by rewrite elem_of_app. Qed.

Lemma ready_update s name ph pub evs req :
  r_ready (update name ph pub evs req s) !! name = match pub with Some v => Some v | None => r_ready s !! name end.
Proof. simpl. destruct pub; [by rewrite lookup_insert_eq|done]. Qed.

Lemma runner_inv_record s name node o :
  runner_inv s → ns !! name = Some node → r_phase s !! name = Some (PFinished o) →
  runner_inv (store_record ns name o s).
Proof.
  intros [Hdom Hnode Hready Hord Hrem Hdr Hrecs] Hn Hph.
  assert (is_task_name ns name = negb (is_service node)) as Htask by (unfold is_task_name; by rewrite Hn).
  assert (open_tasks (store_record ns name o s) = open_tasks s ∖ {[name]}) as Hopen.
  { unfold open_tasks. apply set_eq. intros x. rewrite elem_of_difference, !elem_of_filter, elem_of_singleton.
    unfold open_task. simpl. destruct (decide (x = name)) as [->|Hx].
    - rewrite lookup_insert_eq. simpl. rewrite andb_false_r. naive_solver.
    - rewrite lookup_insert_ne by done. naive_solver. }
  assert (name ∈ open_tasks s ↔ is_task_name ns name = true) as Hin.
  { unfold open_tasks. rewrite elem_of_filter, elem_of_dom. unfold open_task. rewrite Hph. simpl.
    rewrite andb_true_r. naive_solver. }
  assert (r_remaining (store_record ns name o s) = size (open_tasks (store_record ns name o s))) as Hcount.
  { rewrite Hopen. simpl. rewrite Hrem. destruct (is_task_name ns name) eqn:Ht.
    - rewrite size_difference, size_singleton; [done|]. apply singleton_subseteq_l. by apply Hin.
    - f_equal. set_solver. }
  split.
  - intros x. simpl. destruct (decide (x = name)) as [->|Hx].
    + rewrite lookup_insert_eq, Hn. naive_solver eauto.
    + by rewrite lookup_insert_ne.
  - intros x nd phx Hnx. simpl. destruct (decide (x = name)) as [->|Hx].
    + rewrite lookup_insert_eq. intros [= <-]. assert (nd = node) as -> by congruence.
      destruct (Hnode name node _ Hn Hph) as [_ Hinv]. split; [simpl; by rewrite lookup_insert_eq|exact Hinv].
    + rewrite lookup_insert_ne by done. intros Hphx. destruct (Hnode x nd phx Hnx Hphx) as [Hrec Hinv].
      split; [simpl; by rewrite lookup_insert_ne|exact Hinv].
  - exact Hready.
  - exact Hord.
  - exact Hcount.
  - intros Hsd. assert (r_shutdown s = Some Drained ∨ (is_task_name ns name = true ∧ r_remaining s = 1)) as [H|[Ht H1]].
    { revert Hsd. simpl. destruct (is_task_name ns name); simpl; [|by left].
      case_bool_decide; [by right|by left]. }
    + rewrite Hopen, (Hdr H). set_solver.
    + apply leibniz_equiv, size_empty_inv. rewrite <- Hcount. simpl. by rewrite Ht, H1.
  - intros x. simpl. destruct (decide (x = name)) as [->|Hx]; [by rewrite Hn|].
    rewrite lookup_insert_ne by done. apply Hrecs.
Qed.

(** A node whose [select!] has been decided. *)
Lemma stopping_inv s name node o pub evs req :
  r_records s !! name = None → outcome_ok (is_service node) o →
  started s name ∨ NodeStarted name ∈ evs →
  (if is_service node then is_Some pub ∨ is_Some (r_ready s !! name)
   else pub = None ∧ r_ready s !! name = None) →
  node_inv (update name (PStopping o) pub evs req s) name node (PStopping o).
Proof.
  intros Hrec Ho Hst Hr. split; [exact Hrec|]. rewrite started_update, ready_update.
  split_and!; [done..|]. destruct (is_service node).
  - destruct pub; [done|]. destruct Hr as [[? [=]]|?]; done.
  - by destruct Hr as [-> ?].
Qed.

(** A node that never ran. *)
Lemma skipped_inv s name node req :
  r_records s !! name = None → ¬ started s name →
  node_inv (update name (PFinished Skipped) (Some Unavailable) [NodeFinished name Skipped] req s)
    name node (PFinished Skipped).
Proof.
  intros Hrec Hst. split; [exact Hrec|]. rewrite decide_True by done. rewrite started_update, ready_update.
  split_and!; [done| |done]. simpl. intros [?|[=]%list_elem_of_singleton]; done.
Qed.

Ltac side_conditions :=
  try done; try (by repeat constructor);
  try (intros Hev; repeat (apply elem_of_cons in Hev as [Hev|Hev]; [discriminate Hev|]); by inversion Hev).

Lemma runner_inv_step s s' : runner_inv s → step ns s s' → runner_inv s'.
Proof.
  intros Hinv Hstep. destruct Hstep as
    [s name node i d Hn Hph Hd Hr|s name node i d Hn Hph Hd Hr|s name node r Hn Hph Hsd
    |s name node Hn Hph Hsd|s name node err Hn Hph Hsd
    |s name node r os d1 d2 cap Hn Hph Hsd|s name node secs os d1 d2 cap Hn Hph Hsd Ht
    |s name node w os d1 d2 cap Hn Hph Hsd Hw
    |s name node r os d1 d2 cap g out Hn Hph Hsd Hout|s name node u os d1 d2 cap g out Hn Hph Hsd Hu Hout
    |s name node Hn Hph Hsd
    |s name node r os d1 d2 cap Hn Hph Hsd|s name node w os d1 d2 cap Hn Hph Hsd Hw
    |s name node code os d1 d2 cap Hn Hph Hsd Hc
    |s name node o Hn Hph|s name node o Hn Hph|s Hsig];
    [..|destruct Hinv as [H1 H2 H3 H4 H5 H6 H7]; split; try done;
        simpl; unfold request; destruct (r_shutdown s); [done|congruence]];
    [..|by eapply runner_inv_record];
    destruct (ri_node s Hinv name node _ Hn Hph) as [Hrec Hself];
    (eapply runner_inv_update; [done|done|exact Hph|done|..]); side_conditions.
  - destruct Hself as (Hi & Hall & Hr0 & Hst). split; [exact Hrec|]. rewrite started_update, ready_update.
    apply lookup_lt_Some in Hd as Hlt. split_and!; [lia| |done|].
    + intros j d' Hj Hd'. simpl. destruct (decide (j = i)) as [->|]; [congruence|]. apply (Hall j); [lia|done].
    + by intros [?|?%not_elem_of_nil].
  - by destruct Hself as (_ & _ & ? & _).
  - apply skipped_inv; [done|]. by destruct Hself as (_ & _ & _ & ?).
  - by destruct Hself as (_ & _ & ? & _).
  - apply skipped_inv; [done|]. by destruct Hself as (_ & _ & _ & ?).
  - by destruct (is_service node).
  - destruct Hself as (_ & _ & Hr0 & _). split; [destruct (is_service node); exact Hrec|].
    destruct (is_service node) eqn:Hs; rewrite started_update, ready_update;
      (split_and!; [done|done|right; by apply list_elem_of_singleton]).
  - intros v _. by destruct Hself as (_ & _ & ? & _).
  - by destruct (is_service node).
  - by destruct (is_service node).
  - destruct Hself as (_ & _ & Hr0 & _). apply stopping_inv; [done| |right; by apply list_elem_of_singleton|].
    + by destruct (is_service node).
    + destruct (is_service node); [by left|done].
  - destruct Hself as (Hs & Hr0 & Hst). apply stopping_inv; rewrite ?Hs; auto. by apply run_task_outcome.
  - destruct Hself as (Hs & Hr0 & Hst). apply stopping_inv; rewrite ?Hs; auto. by apply run_task_outcome.
  - destruct Hself as (Hs & Hr0 & Hst). apply stopping_inv; rewrite ?Hs; auto. by apply run_task_outcome.
  - by destruct Hself as (_ & ? & _).
  - destruct Hself as (Hs & Hr0 & Hst). apply stopping_inv; rewrite ?Hs;
      [done|eapply never_came_up_outcome; [|exact Hout]; done|by left|by left].
  - by destruct Hself as (_ & ? & _).
  - destruct Hself as (Hs & Hr0 & Hst). apply stopping_inv; rewrite ?Hs; [done| |by left|by left].
    eapply never_came_up_outcome; [|done]. destruct Hu as [->|(w & -> & ?)]; done.
  - by destruct Hself as (_ & ? & _).
  - intros _. destruct Hself as (Hs & _ & _). unfold ready_event. rewrite Hs. by left.
  - destruct Hself as (Hs & _ & Hst). split; [exact Hrec|]. rewrite started_update, ready_update. auto.
  - destruct Hself as (Hs & Hr0 & Hst). apply stopping_inv; rewrite ?Hs;
      [done|by apply service_up_outcome|by left|right; by rewrite Hr0].
  - destruct Hself as (Hs & Hr0 & Hst). apply stopping_inv; rewrite ?Hs;
      [done|by apply service_up_outcome|by left|right; by rewrite Hr0].
  - destruct Hself as (Hs & Hr0 & Hst). apply stopping_inv; rewrite ?Hs;
      [done|by apply service_up_outcome|by left|right; by rewrite Hr0].
  - destruct Hself as (_ & _ & Hr0). by destruct (is_service node).
  - unfold ready_event. destruct (is_service node); [done|]. destruct o; try done. by left.
  - destruct Hself as (Hst & Ho & Hr0). split; [exact Hrec|].
    rewrite decide_False by (by intros ->). rewrite started_update, ready_update. split_and!.
    + by destruct (is_service node).
    + by left.
    + done.
    + intros ->. done.
Qed.

Lemma runner_inv_init : runner_inv (run_init ns).
Proof.
  split; simpl.
  - intros name. by rewrite lookup_fmap, fmap_is_Some.
  - intros name node ph Hn. rewrite lookup_fmap, Hn. intros [= <-]. split; [done|].
    split_and!; [lia|intros; lia|done|]. by intros ?%not_elem_of_nil.
  - done.
  - intros pre name post node d dnode Heq. by destruct pre.
  - f_equal. unfold open_tasks. apply set_eq. intros x. rewrite !elem_of_filter, elem_of_dom. unfold open_task. simpl.
    rewrite lookup_fmap. split; intros [H [n Hn]]; (split; [|by exists n]); rewrite Hn in *; simpl in *;
      by rewrite andb_true_r in *.
  - done.
  - intros name. rewrite lookup_empty. by intros [].
Qed.

Lemma runner_inv_reachable s : reachable ns s → runner_inv s.
Proof.
  unfold reachable. intros Hr. pose proof runner_inv_init as H0. revert H0.
  induction Hr; eauto using runner_inv_step.
Qed.

(** C9. Dependents start on readiness: in every reachable state, a
    [node_started] event of a node comes after the event that made each of its
    dependencies ready ([node_ready] for a service, [node_finished] with success
    for a task). *)
Theorem start_after_ready s : reachable ns s → ordered (r_events s).
Proof. intros Hr. apply ri_ordered. by apply runner_inv_reachable. Qed.

Lemma shutdown_step s s' r : step ns s s' → r_shutdown s = Some r → r_shutdown s' = Some r.
Proof.
  intros Hstep Hr. destruct Hstep; simpl; try done; unfold request; rewrite Hr; try done;
    repeat case_match; done.
Qed.

Lemma open_tasks_empty s name node :
  runner_inv s → open_tasks s = ∅ → ns !! name = Some node → is_service node = false →
  is_Some (r_records s !! name).
Proof.
  intros Hinv He Hn Hs. destruct (proj2 (ri_dom _ Hinv name)) as [ph Hph]; [by rewrite Hn|].
  destruct (ri_node _ Hinv name node ph Hn Hph) as [-> _]. destruct ph; try (by eexists); exfalso;
    apply (not_elem_of_empty (C := gset string) name); rewrite <- He; apply elem_of_filter;
    unfold open_task, is_task_name; rewrite Hn, Hph, Hs; (split; [done|by apply elem_of_dom_2 in Hn]).
Qed.

(** The first shutdown reason wins for the rest of the run, and the run
    only drains when every task has its record, so no task is ever killed
    because the run "finished". *)
Lemma shutdown_reason_stable s s' r :
  reachable ns s → rtc (step ns) s s' → r_shutdown s = Some r →
  r_shutdown s' = Some r ∧
  (r = Drained → ∀ name node, ns !! name = Some node → is_service node = false →
     is_Some (r_records s !! name)).
Proof.
  intros Hr Hsteps Hsd. split.
  - clear Hr. revert Hsd. induction Hsteps; eauto using shutdown_step.
  - intros -> name node Hn Hs. apply runner_inv_reachable in Hr as Hinv.
    eapply open_tasks_empty; [done|by apply ri_drained|done|done].
Qed.

(** * The run ends *)
























(** * The exit code *)

Lemma foldl_max_spec c cs :
  (∀ x, x ∈ c :: cs → (x <= foldl Z.max c cs)%Z) ∧ foldl Z.max c cs ∈ c :: cs.
Proof.
  revert c. induction cs as [|d cs IH]; intros c; simpl.
  - split; [|by left]. intros x ->%list_elem_of_singleton. lia.
  - destruct (IH (Z.max c d)) as [Hle Hin]. split.
    + intros x Hx. assert (Z.max c d <= foldl Z.max (Z.max c d) cs)%Z by (apply Hle; left).
      apply elem_of_cons in Hx as [->|[->|Hx]%elem_of_cons]; [lia..|]. apply Hle. by right.
    + apply elem_of_cons in Hin as [Hm|?]; [|by do 2 right]. rewrite Hm.
      destruct (Z.max_spec c d) as [[_ ->]|[_ ->]]; [right; left|left].
Qed.

(** The worst contribution. *)
Lemma exit_code_spec os :
  (∀ o, o ∈ os → (exit_contribution o <= exit_code os)%Z) ∧
  (os = [] ∧ exit_code os = 0%Z ∨ ∃ o, o ∈ os ∧ exit_code os = exit_contribution o).
Proof.
  unfold exit_code. destruct os as [|o os]; csimpl; [split; [set_solver|by left]|].
  destruct (foldl_max_spec (exit_contribution o) (exit_contribution <$> os)) as [Hle Hin]. split.
  - intros o' Ho'. apply Hle. change (exit_contribution o' ∈ exit_contribution <$> o :: os).
    by apply list_elem_of_fmap_2.
  - right. change (foldl Z.max (exit_contribution o) (exit_contribution <$> os) ∈ exit_contribution <$> o :: os) in Hin.
    apply list_elem_of_fmap in Hin as (o' & ? & ?). eauto.
Qed.

Lemma elem_of_outcomes (m : gmap string Outcome) o : o ∈ (map_to_list m).*2 ↔ ∃ name, m !! name = Some o.
Proof.
  rewrite list_elem_of_fmap. split.
  - intros ([name o'] & -> & Hin). exists name. by apply elem_of_map_to_list.
  - intros [name Hname]. exists (name, o). split; [done|]. by apply elem_of_map_to_list.
Qed.

Lemma recorded_outcome s name o :
  runner_inv s → r_records s !! name = Some o →
  ∃ node, ns !! name = Some node ∧ (o = Skipped ∨ outcome_ok (is_service node) o).
Proof.
  intros Hinv Hrec. destruct (ri_records _ Hinv name) as [node Hn]; [by rewrite Hrec|]. exists node. split; [done|].
  destruct (proj2 (ri_dom _ Hinv name)) as [ph Hph]; [by rewrite Hn|].
  destruct (ri_node _ Hinv name node ph Hn Hph) as [Hr Hself]. rewrite Hrec in Hr. destruct ph; try done.
  injection Hr as <-. destruct Hself as (_ & Hself & _). destruct (decide (o = Skipped)); [by left|].
  right. by destruct Hself.
Qed.

(** What a zero exit code says about one node. *)
Definition zero_outcome (node : NodeSpec) (o : Outcome) : Prop :=
  if is_service node then o = Stopped ∨ o = Failed 0 else o = Succeeded.

(** The exit code of a finished run: 130 after a Ctrl-C; otherwise the
    worst contribution of any node, and zero exactly when every task succeeded
    and every service was stopped by the runner or exited with status zero. *)
Lemma exit_code_meaning s :
  reachable ns s → finished ns s →
  (r_shutdown s = Some Cancelled → process_exit s = 130%Z) ∧
  (r_shutdown s ≠ Some Cancelled →
     (∀ name o, r_records s !! name = Some o → (exit_contribution o <= process_exit s)%Z) ∧
     (process_exit s = 0%Z ↔
        ∀ name node, ns !! name = Some node → ∃ o, r_records s !! name = Some o ∧ zero_outcome node o)).
Proof.
  intros Hr%runner_inv_reachable Hfin. unfold process_exit. split; [intros ->; by rewrite decide_True|].
  intros Hnc. rewrite decide_False by done.
  destruct (exit_code_spec ((map_to_list (r_records s)).*2)) as [Hle Hatt].
  set (code := exit_code _) in *. split.
  { intros name o Ho. apply Hle, elem_of_outcomes. eauto. }
  split.
  - intros Hz name node Hn. destruct (Hfin name node Hn) as [o Ho]. exists o. split; [done|].
    assert (exit_contribution o <= 0)%Z as Hc by (rewrite <- Hz; apply Hle, elem_of_outcomes; eauto).
    destruct (recorded_outcome s name o Hr Ho) as (node' & Hn' & Hok).
    assert (node' = node) as -> by congruence. unfold zero_outcome.
    destruct Hok as [->|Hok]; [simpl in Hc; lia|].
    destruct (is_service node), o; simpl in *; try done; auto; [|lia..]. right. f_equal. lia.
  - intros Hall. destruct Hatt as [[_ ?]|(o & Ho & ->)]; [done|].
    apply elem_of_outcomes in Ho as [name Ho].
    destruct (recorded_outcome s name o Hr Ho) as (node & Hn & _).
    destruct (Hall name node Hn) as (o' & Ho' & Hz). assert (o' = o) as -> by congruence.
    unfold zero_outcome in Hz. destruct (is_service node); [destruct Hz as [->| ->]|subst]; done.
Qed.

End props.

(** * Concrete runs *)

Section witnesses.

Let server : NodeSpec := mkNode ["serve"] [] [] None KService (Some (Tcp "localhost:1")) 60 SCapture None.
Let ns1 : Nodes := {[ "db" := server ]}.
Let os0 : Os := mkOs false KillOk KillOk (inr (Exited 0)).

Definition db_run (ph : Phase) (ready : gmap string Readiness) (sd : option Reason)
    (recs : gmap string Outcome) (evs : list Event) : Run :=
  mkRun {[ "db" := ph ]} ready sd 0 recs evs false.

Let db_end : Run :=
  db_run (PDone (Failed 0)) {[ "db" := Unavailable ]} (Some Aborted) {[ "db" := Failed 0 ]}
    [NodeStarted "db"; NodeFinished "db" (Failed 0)].

Lemma ns1_ok : spec_ok ns1.
Proof.
  pose proof (validate_ends ns1 (map_to_list ns1) (reflexivity _)) as H.
  assert (validate (map_to_list ns1) ns1 = Ok ()) as Heq by (vm_compute; reflexivity).
  rewrite Heq in H. exact H.
Qed.

Lemma db_end_reachable : reachable ns1 db_end.
Proof.
  assert (ns1 !! "db" = Some server) as Hn by (vm_compute; reflexivity).
  eapply rtc_l.
  { apply (step_spawn ns1 (run_init ns1) "db" server); [done|vm_compute; reflexivity|done]. }
  eapply rtc_l.
  { eapply (step_service_failed ns1 _ "db" server (UExited (inr (Exited 0))) os0 true true PipeCapture_none);
      [done|vm_compute; reflexivity|done|right; eexists; split; [done|simpl; lia]|reflexivity]. }
  eapply rtc_l.
  { eapply (step_finish ns1 _ "db" server); [done|vm_compute; reflexivity]. }
  eapply rtc_l.
  { eapply (step_record ns1 _ "db" server); [done|vm_compute; reflexivity]. }
  match goal with |- rtc _ ?s _ => replace s with db_end by (vm_compute; reflexivity) end. apply rtc_refl.
Qed.

Lemma db_end_finished : finished ns1 db_end.
Proof.
  intros name node Hn. unfold ns1 in Hn. apply lookup_singleton_Some in Hn as [<- _].
  exists (Failed 0). vm_compute. reflexivity.
Qed.

(** A zero exit code does not mean that nothing failed: a service that
    exits with status zero before it is ready is recorded as failed and aborts
    the run, yet the runner itself exits with zero. *)
Theorem failed_service_exits_zero :
  ∃ ns s, spec_ok ns ∧ reachable ns s ∧ finished ns s ∧
    r_records s !! "db" = Some (Failed 0) ∧ r_shutdown s = Some Aborted ∧ process_exit s = 0%Z.
Proof.
  exists ns1, db_end. split_and!; [exact ns1_ok|exact db_end_reachable|exact db_end_finished|vm_compute; reflexivity..].
Qed.

Lemma start_after_ready_witness : ordered ns1 (r_events db_end).
Proof. exact (start_after_ready ns1 db_end db_end_reachable). Defined.

Example shutdown_reason_stable_demo : r_shutdown db_end = Some Aborted.
Proof.
  exact (proj1 (shutdown_reason_stable ns1 db_end db_end Aborted db_end_reachable (rtc_refl _ _) eq_refl)).
Defined.





Example exit_code_meaning_demo : (exit_contribution (Failed 0) <= process_exit db_end)%Z.
Proof.
  refine (proj1 (proj2 (exit_code_meaning ns1 db_end db_end_reachable db_end_finished) _) "db" (Failed 0) _).
  - discriminate.
  - vm_compute. reflexivity.
Defined.

End witnesses.
