(* ===== verification/McWire.v ===== *)
(** The Minecraft wire format of [packages/minecraft/protocol/src]: [VarInt]s and
    packet frames ([varint.rs]), length-prefixed strings ([wire.rs]), and the
    compressed framing of [packages/minecraft/bot/src/framing.rs].

    A byte is an integer in 0..255; a reader is the list of bytes still to
    come.  The [zlib] crate is a parameter. *)

From stdpp Require Import base gmap sets list strings pretty relations.
From S2P Require Import Prelude.
Open Scope Z_scope.

Abbreviation bytes := (list Z).
Definition byte (b : Z) : Prop := 0 <= b < 256.

(** [io::Error]s the code raises or passes on. *)
Inductive IoError :=
| UnexpectedEof
| InvalidData (message : string)
| InvalidInput (message : string)
| OtherIo (message : string).

(** * VarInts *)

Definition MAX_VARINT_LEN : nat := 5.

Definition u32_max : Z := 2 ^ 32 - 1.
Definition i32 (v : Z) : Prop := - 2 ^ 31 <= v < 2 ^ 31.
Definition i32_max : Z := 2 ^ 31 - 1.

(** [i32::cast_unsigned] and [u32::cast_signed]. *)
Definition cast_unsigned (v : Z) : Z := v mod 2 ^ 32.
Definition cast_signed (u : Z) : Z := if decide (u < 2 ^ 31) then u else u - 2 ^ 32.

(** The [loop] of [write_varint]; a [u32] has at most five groups of 7 bits. *)
Fixpoint write_varint_loop (fuel : nat) (rest : Z) : outcome IoError bytes :=
  match fuel with
  | O => Panic
  | S fuel =>
      let b := Z.land rest 0x7F in
      let rest := Z.shiftr rest 7 in
      if decide (rest = 0) then Ok [b]
      else out ← write_varint_loop fuel rest; Ok (Z.lor b 0x80 :: out)
  end.

(** [write_varint]: the bytes appended. *)
Definition write_varint (value : Z) : outcome IoError bytes :=
  write_varint_loop 5 (cast_unsigned value).

(** [reader.read_exact(&mut buf)] with a buffer of [n] bytes. *)
Definition read_exact (n : nat) (r : bytes) : outcome IoError (bytes * bytes) :=
  if decide (n ≤ length r)%nat then Ok (take n r, drop n r) else Err UnexpectedEof.

(** The [for] loop of [read_varint], with [n] iterations left. *)
Fixpoint read_varint_loop (n : nat) (shift : Z) (value : Z) (r : bytes) : outcome IoError (Z * bytes) :=
  match n with
  | O => Err (InvalidData "VarInt exceeds 5 bytes")
  | S n =>
      match r with
      | [] => Err UnexpectedEof
      | b :: r =>
          let value := Z.lor value (Z.land (Z.shiftl (Z.land b 0x7F) (7 * shift)) u32_max) in
          if decide (Z.land b 0x80 = 0) then Ok (cast_signed value, r)
          else read_varint_loop n (shift + 1) value r
      end
  end.

(** [read_varint]. *)
Definition read_varint (r : bytes) : outcome IoError (Z * bytes) :=
  read_varint_loop MAX_VARINT_LEN 0 0 r.

(** * Frames and strings *)

(** [write_frame]: the bytes written. *)
Definition write_frame (payload : bytes) : outcome IoError bytes :=
  if decide (Z.of_nat (length payload) <= i32_max) then
    prefix ← write_varint (Z.of_nat (length payload)); Ok (prefix ++ payload)
  else Err (InvalidData "packet too long").

(** [read_frame]. *)
Definition read_frame (max_len : Z) (r : bytes) : outcome IoError (bytes * bytes) :=
  '(len, r) ← read_varint r;
  if decide (len < 0) then Err (InvalidData "negative frame length")
  else if decide (max_len < len) then
    Err (InvalidData ("frame of " +:+ pretty len +:+ " bytes exceeds limit of " +:+ pretty max_len))
  else read_exact (Z.to_nat len) r.

(** [String::from_utf8]: the bytes of a [String] are valid UTF-8. *)
Definition between (lo hi b : Z) : bool := bool_decide (lo <= b) && bool_decide (b <= hi).
Fixpoint valid_utf8 (s : bytes) : bool :=
  match s with
  | [] => true
  | a :: s1 =>
      if between 0 0x7F a then valid_utf8 s1
      else match s1 with
      | [] => false
      | b :: s2 =>
          if between 0xC2 0xDF a && between 0x80 0xBF b then valid_utf8 s2
          else match s2 with
          | [] => false
          | c :: s3 =>
              if between 0x80 0xBF c &&
                 (bool_decide (a = 0xE0) && between 0xA0 0xBF b
                  || (between 0xE1 0xEC a || between 0xEE 0xEF a) && between 0x80 0xBF b
                  || bool_decide (a = 0xED) && between 0x80 0x9F b)
              then valid_utf8 s3
              else match s3 with
              | [] => false
              | d :: s4 =>
                  between 0x80 0xBF c && between 0x80 0xBF d &&
                  (bool_decide (a = 0xF0) && between 0x90 0xBF b
                   || between 0xF1 0xF3 a && between 0x80 0xBF b
                   || bool_decide (a = 0xF4) && between 0x80 0x8F b)
                  && valid_utf8 s4
              end
          end
      end
  end.

Definition from_utf8 (s : bytes) (message : string) : outcome IoError bytes :=
  if valid_utf8 s then Ok s else Err (InvalidData message).

(** [write_string]: panics on a string longer than [i32::MAX]. *)
Definition write_string (value : bytes) : outcome IoError bytes :=
  if decide (Z.of_nat (length value) <= i32_max) then
    prefix ← write_varint (Z.of_nat (length value)); Ok (prefix ++ value)
  else Panic.

(** [read_string]. *)
Definition read_string (max_len : Z) (r : bytes) : outcome IoError (bytes * bytes) :=
  '(declared, r) ← read_varint r;
  if decide (declared < 0) then Err (InvalidData "negative string length")
  else if decide (max_len < declared) then
    Err (InvalidData ("string of " +:+ pretty declared +:+ " bytes exceeds limit of " +:+ pretty max_len))
  else
    '(b, r) ← read_exact (Z.to_nat declared) r;
    s ← from_utf8 b "string is not UTF-8";
    Ok (s, r).

(** * Compressed framing *)

Definition MAX_PACKET : Z := 2 ^ 21 - 1.

(** [flate2]: [ZlibEncoder] over a whole packet, and reading at most [cap] bytes
    of what a [ZlibDecoder] inflates. *)
Class Zlib := {
  zlib_compress : bytes → bytes;
  zlib_inflate : nat → bytes → outcome IoError bytes }.

(** Inflating a compressed packet gives it back, up to the cap. *)
Class ZlibLaws `{!Zlib} :=
  zlib_roundtrip : ∀ p cap, zlib_inflate cap (zlib_compress p) = Ok (take cap p).

(** One direction of a [Framed] transport: the bytes in flight and the
    compression threshold, [None] until [enable_compression]. *)
Record Framed := mkFramed { fr_bytes : bytes; fr_threshold : option Z }.

Definition Framed_new : Framed := mkFramed [] None.
Definition enable_compression (t : Z) (f : Framed) : Framed := mkFramed (fr_bytes f) (Some t).

Section framed.
Context {ZL : Zlib}.

(** [Framed::send]. *)
Definition send (packet : bytes) (f : Framed) : outcome IoError Framed :=
  let len := Z.of_nat (length packet) in
  payload ← match fr_threshold f with
            | None => Ok packet
            | Some threshold =>
                if decide (len < threshold) then zero ← write_varint 0; Ok (zero ++ packet)
                else if decide (len <= i32_max) then
                  size ← write_varint len; Ok (size ++ zlib_compress packet)
                else Err (InvalidData "packet too long to frame")
            end;
  frame ← write_frame payload;
  Ok (mkFramed (fr_bytes f ++ frame) (fr_threshold f)).

(** [Framed::recv]. *)
Definition recv (f : Framed) : outcome IoError (bytes * Framed) :=
  '(payload, r) ← read_frame MAX_PACKET (fr_bytes f);
  let f := mkFramed r (fr_threshold f) in
  match fr_threshold f with
  | None => Ok (payload, f)
  | Some _ =>
      '(declared, rest) ← read_varint payload;
      if decide (declared = 0) then Ok (rest, f)
      else if decide (declared < 0) then Err (InvalidData "negative uncompressed length")
      else if decide (MAX_PACKET < declared) then
        Err (InvalidData ("uncompressed packet of " +:+ pretty declared +:+ " bytes exceeds limit of " +:+ pretty MAX_PACKET))
      else
        packet ← zlib_inflate (S (Z.to_nat declared)) rest;
        if decide (Z.of_nat (length packet) = declared) then Ok (packet, f)
        else Err (InvalidData ("packet inflated to " +:+ pretty (length packet) +:+ " bytes, expected " +:+ pretty declared))
  end.

End framed.
