(* ===== verification/McWireProps.v ===== *)
(** Round trips and bounds of the Minecraft wire format. *)

From stdpp Require Import base gmap sets list strings pretty relations.
From S2P Require Import Prelude McWire.
Open Scope Z_scope.

(** * Bit lemmas *)

Lemma land_low a n : 0 <= n → Z.land a (2 ^ n - 1) = a mod 2 ^ n.
Proof. intros. rewrite Z.sub_1_r, <- Z.ones_equiv. by apply Z.land_ones. Qed.

Lemma land_7F b : Z.land b 0x7F = b mod 128.
Proof. apply (land_low b 7). lia. Qed.

Lemma shiftr_7 r : Z.shiftr r 7 = r / 128.
Proof. by rewrite Z.shiftr_div_pow2 by lia. Qed.

(** Disjoint bits: [or] is addition. *)
Lemma lor_shift a d k : 0 <= k → 0 <= a < 2 ^ k → Z.lor a (d * 2 ^ k) = a + d * 2 ^ k.
Proof.
  intros Hk Ha. rewrite <- Z.shiftl_mul_pow2 by done.
  assert (Z.land a (Z.shiftl d k) = 0) as H0.
  { apply Z.bits_inj'. intros i Hi. rewrite Z.land_spec, Z.bits_0.
    destruct (Z.lt_ge_cases i k) as [Hlt|Hge].
    - by rewrite Z.shiftl_spec_low, andb_false_r.
    - rewrite <- (Z.mod_small a (2 ^ k)), Z.mod_pow2_bits_high by lia. done. }
  rewrite <- Z.lxor_lor, Z.add_nocarry_lxor by done. done.
Qed.

Lemma lor_80 b : 0 <= b < 128 → Z.lor b 0x80 = b + 128.
Proof. intros. apply (lor_shift b 1 7); lia. Qed.

Lemma land_80 b : 0 <= b < 128 → Z.land b 0x80 = 0 ∧ Z.land (b + 128) 0x80 = 0x80.
Proof.
  intros Hb. assert (Z.land b 0x80 = 0) as H0.
  { change 0x80 with (Z.shiftl 1 7). apply Z.bits_inj'. intros i Hi. rewrite Z.land_spec, Z.bits_0.
    destruct (Z.lt_ge_cases i 7) as [Hlt|Hge].
    - by rewrite Z.shiftl_spec_low, andb_false_r.
    - rewrite <- (Z.mod_small b (2 ^ 7)), Z.mod_pow2_bits_high by lia. done. }
  split; [done|]. rewrite <- lor_80, Z.land_lor_distr_l, H0 by done. done.
Qed.

Lemma cast_signed_unsigned v : i32 v → cast_signed (cast_unsigned v) = v.
Proof.
  unfold i32, cast_signed, cast_unsigned. intros Hv. destruct (decide (0 <= v)) as [Hp|Hn].
  - rewrite Z.mod_small by lia. rewrite decide_True by lia. done.
  - assert (v mod 2 ^ 32 = v + 2 ^ 32) as ->.
    { symmetry. apply (Z.mod_unique_pos v (2 ^ 32) (-1)); lia. }
    rewrite decide_False by lia. lia.
Qed.

(** * VarInts *)

Lemma read_varint_loop_S n k v b r :
  read_varint_loop (S n) k v (b :: r) =
  let value := Z.lor v (Z.land (Z.shiftl (Z.land b 0x7F) (7 * k)) u32_max) in
  if decide (Z.land b 0x80 = 0) then Ok (cast_signed value, r) else read_varint_loop n (k + 1) value r.
Proof. done. Qed.

(** The loops invert each other, group by group. *)
Lemma varint_loops n r k v tl :
  0 <= k → 0 <= r < 2 ^ (7 * Z.of_nat n) → 0 <= v < 2 ^ (7 * k) → v + r * 2 ^ (7 * k) < 2 ^ 32 → (0 < n)%nat →
  ∃ bs, write_varint_loop n r = Ok bs ∧ (0 < length bs ≤ n)%nat ∧ Forall byte bs ∧
    read_varint_loop n k v (bs ++ tl) = Ok (cast_signed (v + r * 2 ^ (7 * k)), tl).
Proof.
  revert r k v. induction n as [|n IH]; intros r k v Hk Hr Hv Hsum Hn; [lia|].
  cbn [write_varint_loop]. rewrite land_7F, shiftr_7.
  pose proof (Z.mod_pos_bound r 128 ltac:(lia)) as Hb.
  pose proof (Z.div_mod r 128 ltac:(lia)) as Hdm.
  assert (0 < 2 ^ (7 * k)) as Hpow by (apply Z.pow_pos_nonneg; lia).
  assert (0 <= r mod 128 * 2 ^ (7 * k) < 2 ^ 32 ∧ r mod 128 * 2 ^ (7 * k) <= 127 * 2 ^ (7 * k) ∧
    r * 2 ^ (7 * k) = r mod 128 * 2 ^ (7 * k) + r / 128 * (128 * 2 ^ (7 * k))) as (Hm1 & Hm2 & Hm3).
  { assert (r mod 128 <= r) by lia. revert Hb Hdm Hpow Hsum Hv.
    generalize (r mod 128) as m, (r / 128) as q, (2 ^ (7 * k)) as P. intros m q P Hb -> HP Hsum Hv.
    assert (0 <= q) by lia. split_and!; [nia|nia|nia|ring]. }
  assert (∀ w, w mod 128 = r mod 128 → Z.lor v (Z.land (Z.shiftl (Z.land w 0x7F) (7 * k)) u32_max)
    = v + r mod 128 * 2 ^ (7 * k)) as Hor.
  { intros w Hw. rewrite land_7F, Hw, Z.shiftl_mul_pow2 by lia. unfold u32_max. rewrite land_low by lia.
    rewrite Z.mod_small by lia. apply lor_shift; lia. }
  case_decide as Hz.
  - exists [r mod 128]. split_and!; [done|simpl; lia|simpl; lia|apply Forall_singleton; unfold byte; lia|].
    cbn [app]. rewrite read_varint_loop_S, (Hor _ (Z.mod_mod r 128 ltac:(lia))).
    rewrite (proj1 (land_80 (r mod 128) Hb)), decide_True by done.
    rewrite Hm3, Hz. do 3 f_equal. lia.
  - assert (0 < r / 128) as Hpos by (pose proof (Z.div_pos r 128); lia).
    assert (r / 128 < 2 ^ (7 * Z.of_nat n)) as Hdiv.
    { apply Z.div_lt_upper_bound; [lia|]. replace (7 * Z.of_nat (S n)) with (7 + 7 * Z.of_nat n) in Hr by lia.
      rewrite Z.pow_add_r in Hr by lia. change (2 ^ 7) with 128 in Hr. lia. }
    destruct n as [|n]; [simpl in Hdiv; lia|].
    assert (2 ^ (7 * (k + 1)) = 128 * 2 ^ (7 * k)) as Hpow1.
    { replace (7 * (k + 1)) with (7 + 7 * k) by lia. by rewrite Z.pow_add_r by lia. }
    destruct (IH (r / 128) (k + 1) (v + r mod 128 * 2 ^ (7 * k))) as (bs & Hw & Hlen & Hbytes & Hread);
      [lia|lia|lia|lia|lia|].
    rewrite Hw. cbn [mbind outcome_bind]. rewrite lor_80 by done.
    exists (r mod 128 + 128 :: bs). split_and!; [done|simpl; lia|simpl; lia|constructor; [unfold byte; lia|done]|].
    cbn [app]. rewrite read_varint_loop_S, Hor.
    2:{ replace (r mod 128 + 128) with (r mod 128 + 1 * 128) by lia. rewrite Z.mod_add by lia. apply Z.mod_mod. lia. }
    rewrite (proj2 (land_80 (r mod 128) Hb)), decide_False by done.
    rewrite Hread, Hm3, Hpow1. do 3 f_equal. lia.
Qed.

Lemma varint_ok v tl :
  i32 v →
  ∃ bs, write_varint v = Ok bs ∧ (0 < length bs ≤ 5)%nat ∧ Forall byte bs ∧
    read_varint (bs ++ tl) = Ok (v, tl).
Proof.
  intros Hv. unfold write_varint, read_varint, MAX_VARINT_LEN.
  assert (0 <= cast_unsigned v < 2 ^ 32) as Hu by (apply Z.mod_pos_bound; lia).
  destruct (varint_loops 5 (cast_unsigned v) 0 0 tl) as (bs & ? & ? & ? & Hr); [lia|simpl; lia|simpl; lia|simpl; lia|lia|].
  exists bs. split_and!; [done|lia|lia|done|]. rewrite Hr. do 2 f_equal.
  rewrite Z.add_0_l, Z.mul_1_r. by apply cast_signed_unsigned.
Qed.

(** The bytes do not depend on what follows. *)
Lemma varint_ok_all v :
  i32 v →
  ∃ bs, write_varint v = Ok bs ∧ (0 < length bs ≤ 5)%nat ∧ Forall byte bs ∧
    ∀ tl, read_varint (bs ++ tl) = Ok (v, tl).
Proof.
  intros Hv. destruct (varint_ok v [] Hv) as (bs & Hw & Hl & Hb & _). exists bs. split_and!; [done|lia|lia|done|].
  intros tl. destruct (varint_ok v tl Hv) as (bs' & Hw' & _ & _ & Hr). rewrite Hw in Hw'. by injection Hw' as <-.
Qed.

Lemma read_varint_loop_spec n k v bs :
  0 <= k → 0 <= v < 2 ^ 32 →
  match read_varint_loop n k v bs with
  | Ok (w, r) => i32 w ∧ ∃ pre, bs = pre ++ r ∧ (0 < length pre ≤ n)%nat
  | Err UnexpectedEof => (length bs < n)%nat ∧ Forall (λ b, Z.land b 0x80 ≠ 0) bs
  | Err (InvalidData _) => (n ≤ length bs)%nat ∧ Forall (λ b, Z.land b 0x80 ≠ 0) (take n bs)
  | _ => False
  end.
Proof.
  revert k v bs. induction n as [|n IH]; intros k v bs Hk Hv; simpl; [split; [lia|constructor]|].
  destruct bs as [|b bs]; [split; [simpl; lia|constructor]|].
  set (v' := Z.lor v _).
  assert (0 <= v' < 2 ^ 32) as Hv'.
  { assert (0 <= Z.land (Z.shiftl (Z.land b 0x7F) (7 * k)) u32_max < 2 ^ 32) as [H1 H2].
    { unfold u32_max. rewrite land_low by lia. apply Z.mod_pos_bound. lia. }
    split; [unfold v'; apply Z.lor_nonneg; lia|]. apply Z.log2_lt_cancel. unfold v'.
    rewrite Z.log2_lor by lia. rewrite (Z.log2_pow2 32) by lia.
    apply Z.max_lub_lt.
    - destruct (decide (v = 0)) as [->|]; [done|]. apply Z.log2_lt_pow2; lia.
    - destruct (decide (Z.land (Z.shiftl (Z.land b 127) (7 * k)) u32_max = 0)) as [->|]; [done|].
      apply Z.log2_lt_pow2; lia. }
  case_decide as Hc.
  - split; [|exists [b]; simpl; split; [done|lia]].
    unfold i32, cast_signed. case_decide; lia.
  - specialize (IH (k + 1) v' bs ltac:(lia) Hv').
    destruct (read_varint_loop n (k + 1) v' bs) as [[w r]|[| | |]|]; try done.
    + destruct IH as (? & pre & -> & ?). split; [done|]. exists (b :: pre). simpl. split; [done|lia].
    + destruct IH. split; [simpl; lia|by constructor].
    + destruct IH. split; [simpl; lia|by constructor].
Qed.

(** [VarInt]s: every [i32], negative ones included, is written as one to
    five bytes that read back to it with the rest of the stream untouched;
    and on arbitrary bytes [read_varint] consumes at most five, returns an
    [i32], and fails only at the end of the input or after five continuation
    bytes. *)
Lemma varint_roundtrip v tl bs :
  i32 v →
  (∃ w, write_varint v = Ok w ∧ (0 < length w ≤ 5)%nat ∧ Forall byte w ∧ read_varint (w ++ tl) = Ok (v, tl)) ∧
  match read_varint bs with
  | Ok (w, r) => i32 w ∧ ∃ pre, bs = pre ++ r ∧ (0 < length pre ≤ 5)%nat
  | Err UnexpectedEof => (length bs < 5)%nat ∧ Forall (λ b, Z.land b 0x80 ≠ 0) bs
  | Err (InvalidData _) => (5 ≤ length bs)%nat ∧ Forall (λ b, Z.land b 0x80 ≠ 0) (take 5 bs)
  | _ => False
  end.
Proof. intros Hv. split; [by apply varint_ok|]. by apply (read_varint_loop_spec 5 0 0 bs). Qed.

(** * Frames *)

Lemma i32_length {A} (l : list A) : Z.of_nat (length l) <= i32_max → i32 (Z.of_nat (length l)).
Proof. unfold i32, i32_max. lia. Qed.

Lemma read_exact_app (a r : bytes) : read_exact (length a) (a ++ r) = Ok (a, r).
Proof.
  unfold read_exact. rewrite decide_True by (rewrite length_app; lia).
  by rewrite take_app_length, drop_app_length.
Qed.

Lemma frame_ok payload max :
  Z.of_nat (length payload) <= i32_max → Z.of_nat (length payload) <= max →
  ∃ w, write_frame payload = Ok w ∧ ∀ tl, read_frame max (w ++ tl) = Ok (payload, tl).
Proof.
  intros Hi Hm. unfold write_frame. rewrite decide_True by done.
  destruct (varint_ok_all _ (i32_length payload Hi)) as (bs & -> & _ & _ & Hr).
  eexists. split; [reflexivity|]. intros tl. unfold read_frame. rewrite <- (assoc_L (++)), Hr. cbn [mbind outcome_bind].
  rewrite !decide_False by lia. rewrite Nat2Z.id. apply read_exact_app.
Qed.

Lemma read_frame_bounded max bs payload r :
  read_frame max bs = Ok (payload, r) → Z.of_nat (length payload) <= max ∧ ∃ pre, bs = pre ++ payload ++ r.
Proof.
  unfold read_frame. pose proof (read_varint_loop_spec 5 0 0 bs ltac:(lia) ltac:(lia)) as Hv.
  change (read_varint_loop 5 0 0 bs) with (read_varint bs) in Hv.
  destruct (read_varint bs) as [[len r1]|e|]; cbn [mbind outcome_bind]; [|done..].
  destruct Hv as (_ & pre & -> & _). do 2 (case_decide; [done|]).
  unfold read_exact. case_decide as Hle; [|done]. intros [= <- <-]. split.
  - rewrite length_take. lia.
  - exists pre. by rewrite take_drop.
Qed.

(** Frames and strings: a payload (a valid UTF-8 string) within the limits
    reads back exactly, with the rest of the stream untouched, and whatever a
    hostile peer sends, what is read is never longer than the reader's limit
    (and, for a string, is valid UTF-8). *)
Lemma frame_string_roundtrip max (payload bs : bytes) :
  Z.of_nat (length payload) <= i32_max → Z.of_nat (length payload) <= max →
  (∃ w, write_frame payload = Ok w ∧ ∀ tl, read_frame max (w ++ tl) = Ok (payload, tl)) ∧
  (valid_utf8 payload = true →
     ∃ w, write_string payload = Ok w ∧ ∀ tl, read_string max (w ++ tl) = Ok (payload, tl)) ∧
  (∀ p r, read_frame max bs = Ok (p, r) → Z.of_nat (length p) <= max) ∧
  (∀ s r, read_string max bs = Ok (s, r) → Z.of_nat (length s) <= max ∧ valid_utf8 s = true).
Proof.
  intros Hi Hm. split_and!.
  - by apply frame_ok.
  - intros Hu. unfold write_string. rewrite decide_True by done.
    destruct (varint_ok_all _ (i32_length payload Hi)) as (w & -> & _ & _ & Hr).
    eexists. split; [reflexivity|]. intros tl. unfold read_string. rewrite <- (assoc_L (++)), Hr. cbn [mbind outcome_bind].
    rewrite !decide_False by lia. rewrite Nat2Z.id, read_exact_app. cbn [mbind outcome_bind].
    unfold from_utf8. by rewrite Hu.
  - intros p r H. by apply read_frame_bounded in H as [? _].
  - intros s r. unfold read_string. destruct (read_varint bs) as [[len r1]|e|]; cbn [mbind outcome_bind]; [|done..].
    do 2 (case_decide; [done|]). unfold read_exact. case_decide; [|done]. cbn [mbind outcome_bind].
    unfold from_utf8. destruct (valid_utf8 _) eqn:Hu; [|done]. intros [= <- <-].
    split; [|done]. rewrite length_take. lia.
Qed.

(** * The compressed transport *)

Section framed.
Context {ZL : Zlib} {ZLL : ZlibLaws}.

(** A packet the transport can carry in this mode: its frame fits [MAX_PACKET],
    and it is not empty (it starts with its id). *)
Definition sendable (threshold : option Z) (packet : bytes) : Prop :=
  let len := Z.of_nat (length packet) in
  0 < len <= MAX_PACKET ∧
  match threshold with
  | None => True
  | Some t => if decide (len < t) then len + 1 <= MAX_PACKET
              else 5 + Z.of_nat (length (zlib_compress packet)) <= MAX_PACKET
  end.

Lemma write_varint_0 : write_varint 0 = Ok [0].
Proof. done. Qed.

Lemma max_packet_i32 n : n <= MAX_PACKET → n <= i32_max.
Proof. unfold MAX_PACKET, i32_max. lia. Qed.

Lemma send_recv packet f tl :
  sendable (fr_threshold f) packet →
  ∃ w, (∀ g, fr_threshold g = fr_threshold f →
         send packet g = Ok (mkFramed (fr_bytes g ++ w) (fr_threshold g))) ∧
       recv (mkFramed (w ++ tl) (fr_threshold f)) = Ok (packet, mkFramed tl (fr_threshold f)).
Proof.
  intros [[Hpos Hlen] Hs]. destruct (fr_threshold f) as [t|] eqn:Ht.
  - destruct (decide (Z.of_nat (length packet) < t)) as [Hlt|Hge].
    + destruct (frame_ok ([0] ++ packet) MAX_PACKET) as (w & Hw & Hr);
        [apply max_packet_i32; simpl; lia|simpl; lia|].
      exists w. split.
      * intros g Hg. unfold send. rewrite Hg, decide_True, write_varint_0 by done. cbn [mbind outcome_bind].
        by rewrite Hw.
      * unfold recv. cbn [fr_bytes fr_threshold]. rewrite Hr. cbn [mbind outcome_bind fr_threshold].
        change ([0] ++ packet) with (0 :: packet).
        assert (read_varint (0 :: packet) = Ok (0, packet)) as -> by done. done.
    + destruct (varint_ok_all (Z.of_nat (length packet))) as (bs & Hbs & Hl & _ & Hrv);
        [apply i32_length; by apply max_packet_i32|].
      destruct (frame_ok (bs ++ zlib_compress packet) MAX_PACKET) as (w & Hw & Hr);
        [apply max_packet_i32; rewrite length_app; lia|rewrite length_app; lia|].
      exists w. split.
      * intros g Hg. unfold send. rewrite Hg, decide_False by done. rewrite decide_True by (by apply max_packet_i32).
        rewrite Hbs. cbn [mbind outcome_bind]. by rewrite Hw.
      * unfold recv. cbn [fr_bytes fr_threshold]. rewrite Hr. cbn [mbind outcome_bind fr_threshold].
        rewrite Hrv. cbn [mbind outcome_bind]. rewrite !decide_False by lia.
        rewrite Nat2Z.id, zlib_roundtrip. cbn [mbind outcome_bind].
        rewrite take_ge by lia. by rewrite decide_True.
  - destruct (frame_ok packet MAX_PACKET) as (w & Hw & Hr); [by apply max_packet_i32|done|].
    exists w. split.
    + intros g Hg. unfold send. rewrite Hg. cbn [mbind outcome_bind]. by rewrite Hw.
    + unfold recv. cbn [fr_bytes fr_threshold]. rewrite Hr. done.
Qed.

(** Send the packets in order; receive as many. *)
Definition send_all (packets : list bytes) (f : Framed) : outcome IoError Framed :=
  foldM (λ f p, send p f) f packets.
Fixpoint recv_all (n : nat) (f : Framed) : outcome IoError (list bytes * Framed) :=
  match n with
  | O => Ok ([], f)
  | S n => '(p, f) ← recv f; '(ps, f) ← recv_all n f; Ok (p :: ps, f)
  end.

Lemma send_all_recv_all packets f :
  Forall (sendable (fr_threshold f)) packets →
  ∃ w, (∀ g, fr_threshold g = fr_threshold f →
         send_all packets g = Ok (mkFramed (fr_bytes g ++ w) (fr_threshold g))) ∧
       ∀ tl, recv_all (length packets) (mkFramed (w ++ tl) (fr_threshold f))
             = Ok (packets, mkFramed tl (fr_threshold f)).
Proof.
  intros Hall. induction Hall as [|p packets Hp _ (w & Hsend & Hrecv)].
  { exists []. split; [|done]. intros g _. unfold send_all. simpl. rewrite app_nil_r. by destruct g. }
  destruct (send_recv p f [] Hp) as (w1 & Hs1 & _). exists (w1 ++ w). split.
  - intros g Hg. unfold send_all in *. cbn [foldM]. rewrite Hs1 by done.
    rewrite Hsend by done. cbn [fr_bytes fr_threshold]. by rewrite <- (assoc_L (++)).
  - intros tl. destruct (send_recv p f (w ++ tl) Hp) as (w2 & Hs2 & Hr2).
    assert (w2 = w1) as ->.
    { pose proof (Hs1 f eq_refl) as H1. rewrite (Hs2 f eq_refl) in H1. injection H1 as H1.
      by apply app_inv_head in H1. }
    cbn [length recv_all]. rewrite <- (assoc_L (++)), Hr2. cbn [mbind outcome_bind]. by rewrite Hrecv.
Qed.

(** C27. The packet transport, before and after compression is enabled: any
    sequence of packets the mode can carry is received as it was sent, in
    order, with nothing left over; and no input whatever makes [recv] return a
    packet above [MAX_PACKET]. *)
Theorem framed_roundtrip packets f bs t p g :
  Forall (sendable (fr_threshold f)) packets → fr_bytes f = [] →
  (∃ f', send_all packets f = Ok f' ∧
         recv_all (length packets) f' = Ok (packets, mkFramed [] (fr_threshold f))) ∧
  (recv (mkFramed bs t) = Ok (p, g) → Z.of_nat (length p) <= MAX_PACKET).
Proof.
  intros Hall Hempty. split.
  - destruct (send_all_recv_all packets f Hall) as (w & Hs & Hr). eexists. split; [by apply Hs|].
    rewrite Hempty. cbn [app]. rewrite <- (app_nil_r w) at 1. apply Hr.
  - unfold recv. cbn [fr_bytes fr_threshold].
    destruct (read_frame MAX_PACKET bs) as [[payload r]|e|] eqn:Hf; cbn [mbind outcome_bind fr_threshold]; [|done..].
    apply read_frame_bounded in Hf as [Hlen _]. destruct t as [t|]; [|by intros [= <- <-]].
    pose proof (read_varint_loop_spec 5 0 0 payload ltac:(lia) ltac:(lia)) as Hv.
    change (read_varint_loop 5 0 0 payload) with (read_varint payload) in Hv.
    destruct (read_varint payload) as [[declared rest]|e|]; cbn [mbind outcome_bind]; [|done..].
    case_decide. { intros [= <- <-]. destruct Hv as (_ & pre & -> & _). rewrite length_app in Hlen. lia. }
    do 2 (case_decide; [done|]). destruct (zlib_inflate _ rest) as [packet|e|]; cbn [mbind outcome_bind]; [|done..].
    case_decide; [|done]. intros [= <- <-]. lia.
Qed.

End framed.

(** * Concrete instances *)

Section witnesses.

(** A store-only codec. *)
#[local] Instance stored : Zlib := {| zlib_compress := λ p, p; zlib_inflate := λ cap z, Ok (take cap z) |}.
#[local] Instance stored_laws : ZlibLaws.
Proof. done. Qed.

Example varint_roundtrip_demo :
  ∃ w, write_varint (-1) = Ok w ∧ (0 < length w ≤ 5)%nat ∧ Forall byte w ∧ read_varint (w ++ [7]) = Ok (-1, [7]).
Proof. refine (proj1 (varint_roundtrip (-1) [7] [] _)). unfold i32. lia. Defined.

Example frame_string_roundtrip_demo :
  ∃ w, write_frame [1; 2; 3] = Ok w ∧ ∀ tl, read_frame 10 (w ++ tl) = Ok ([1; 2; 3], tl).
Proof. refine (proj1 (frame_string_roundtrip 10 [1; 2; 3] [] _ _)); unfold i32_max; simpl; lia. Defined.

Lemma framed_roundtrip_witness :
  ∃ f', send_all [[1; 2]; [3]] (mkFramed [] (Some 2)) = Ok f' ∧
        recv_all 2 f' = Ok ([[1; 2]; [3]], mkFramed [] (Some 2)).
Proof.
  refine (proj1 (framed_roundtrip [[1; 2]; [3]] (mkFramed [] (Some 2)) [] None [] Framed_new _ _)); [|reflexivity].
  repeat constructor; unfold MAX_PACKET; simpl; lia.
Defined.

End witnesses.
