(* ===== verification/McSlp.v ===== *)
(** The Server List Ping client of [packages/minecraft/protocol/src/slp.rs]:
    server addresses, the handshake, and the exchange up to the status JSON. *)

From stdpp Require Import base gmap sets list strings pretty relations.
From Stdlib Require Import Ascii.
From S2P Require Import Prelude McWire McWireProps.
Open Scope Z_scope.

Definition MAX_STATUS_FRAME : Z := 2 ^ 20.
Definition STATUS_PROTOCOL_VERSION : Z := -1.
Definition PING_NONCE : bytes := [0x6D; 0x63; 0x70; 0x72; 0x6F; 0x62; 0x65; 0x31].
Definition DEFAULT_PORT : Z := 25565.

Record ServerAddress := mkAddress { sa_host : string; sa_port : Z }.

(** * Addresses *)

(** [str::split_once], [str::rsplit_once] and [str::contains] at a char. *)
Fixpoint split_once (c : ascii) (s : string) : option (string * string) :=
  match s with
  | EmptyString => None
  | String a s => if decide (a = c) then Some (EmptyString, s)
                  else match split_once c s with
                       | Some (before, after) => Some (String a before, after)
                       | None => None
                       end
  end.
Fixpoint rsplit_once (c : ascii) (s : string) : option (string * string) :=
  match s with
  | EmptyString => None
  | String a s => match rsplit_once c s with
                  | Some (before, after) => Some (String a before, after)
                  | None => if decide (a = c) then Some (EmptyString, s) else None
                  end
  end.
Definition has_char (c : ascii) (s : string) : bool :=
  match split_once c s with Some _ => true | None => false end.

(** [raw.parse::<u16>()]: an optional plus sign and digits. *)
Definition digit (a : ascii) : option Z :=
  let n := Z.of_N (N_of_ascii a) in if decide (48 <= n <= 57) then Some (n - 48) else None.
Fixpoint digits_acc (acc : Z) (s : string) : option Z :=
  match s with
  | EmptyString => Some acc
  | String a s => d ← digit a; digits_acc (10 * acc + d) s
  end.
Definition parse_u16 (raw : string) : option Z :=
  let ds := match raw with
            | String a s => if decide (a = "+"%char) then s else raw
            | EmptyString => EmptyString
            end in
  if decide (ds = EmptyString) then None
  else n ← digits_acc 0 ds; if decide (n < 65536) then Some n else None.

Definition parse_port (address raw : string) : outcome IoError Z :=
  ok_or (parse_u16 raw) (InvalidInput ("invalid port " +:+ raw +:+ " in address " +:+ address)).

(** [split_host_port].  Debug-quoted text in messages is shown plainly. *)
Definition split_host_port (address : string) : outcome IoError (string * Z) :=
  match address with
  | String "[" rest =>
      match split_once "]"%char rest with
      | None => Err (InvalidInput ("unclosed '[' in address " +:+ address))
      | Some (host, after) =>
          match after with
          | String ":" raw => port ← parse_port address raw; Ok (host, port)
          | EmptyString => Ok (host, DEFAULT_PORT)
          | _ => Err (InvalidInput ("garbage after ']' in address " +:+ address))
          end
      end
  | _ =>
      match rsplit_once ":"%char address with
      | Some (host, raw_port) =>
          if has_char ":"%char host then Ok (address, DEFAULT_PORT)
          else port ← parse_port address raw_port; Ok (host, port)
      | None => Ok (address, DEFAULT_PORT)
      end
  end.

(** [ServerAddress::parse]. *)
Definition parse_address (address : string) : outcome IoError ServerAddress :=
  '(host, port) ← split_host_port address;
  if decide (host = EmptyString) then Err (InvalidInput ("no host in address " +:+ address))
  else Ok (mkAddress host port).

(** * The exchange *)

Definition string_bytes (s : string) : bytes :=
  (λ a, Z.of_N (N_of_ascii a)) <$> String.list_ascii_of_string s.

(** [port.to_be_bytes()]. *)
Definition be_u16 (n : Z) : bytes := [n / 256; n mod 256].

(** [handshake_payload]. *)
Definition handshake_payload (a : ServerAddress) : outcome IoError bytes :=
  packet_id ← write_varint 0;
  version ← write_varint STATUS_PROTOCOL_VERSION;
  host ← write_string (string_bytes (sa_host a));
  next_state ← write_varint 1;
  Ok (packet_id ++ version ++ host ++ be_u16 (sa_port a) ++ next_state).

(** [read_status_response]. *)
Definition read_status_response (r : bytes) : outcome IoError (bytes * bytes) :=
  '(response, r) ← read_frame MAX_STATUS_FRAME r;
  '(packet_id, cursor) ← read_varint response;
  if decide (packet_id = 0) then
    '(declared, cursor) ← read_varint cursor;
    if decide (declared < 0) then Err (InvalidData "negative status JSON length")
    else
      '(json, _) ← read_exact (Z.to_nat declared) cursor;
      s ← from_utf8 json "status JSON is not UTF-8";
      Ok (s, r)
  else Err (InvalidData ("expected status response packet 0x00, got " +:+ pretty packet_id)).

(** [query] on a connected stream: what it sends, and the status JSON once the
    pong has echoed the ping; [incoming] is what the server sends. *)
Definition query_exchange (a : ServerAddress) (incoming : bytes) : outcome IoError (bytes * bytes) :=
  hello ← handshake_payload a;
  f1 ← write_frame hello;
  f2 ← write_frame [0];
  '(raw_json, incoming) ← read_status_response incoming;
  ping_id ← write_varint 1;
  let ping := ping_id ++ PING_NONCE in
  f3 ← write_frame ping;
  '(echoed, _) ← read_frame (Z.of_nat (length ping)) incoming;
  if decide (echoed = ping) then Ok (f1 ++ f2 ++ f3, raw_json)
  else Err (InvalidData "pong did not echo the ping payload").

(** * Addresses read back *)

Lemma digit_pretty d : (d < 10)%N → digit (pretty_N_char d) = Some (Z.of_N d).
Proof.
  intros Hd. assert (d ∈ [0; 1; 2; 3; 4; 5; 6; 7; 8; 9])%N as H.
  { destruct (decide (d = 9)%N) as [->|]; [set_solver|]. destruct d as [|p]; [set_solver|].
    do 4 (destruct p; try lia; try set_solver). }
  repeat (apply elem_of_cons in H as [->|H]; [done|]). by inversion H.
Qed.

Lemma digits_pretty_go x s : digits_acc 0 (pretty_N_go x s) = digits_acc (Z.of_N x) s.
Proof.
  revert s. induction (N.lt_wf_0 x) as [x _ IH]. intros s.
  destruct (decide (x = 0%N)) as [->|Hx]; [by rewrite pretty_N_go_0|].
  rewrite pretty_N_go_step by lia. rewrite IH by (apply N.div_lt; lia). cbn [digits_acc].
  rewrite digit_pretty by (apply N.mod_lt; lia). simpl. f_equal.
  pose proof (N.div_mod x 10 ltac:(lia)) as H. rewrite H at 3. lia.
Qed.

Lemma digits_pretty n : 0 <= n → digits_acc 0 (pretty n) = Some n.
Proof.
  intros Hn. destruct n as [|p|p]; [done| |lia].
  assert (pretty (Z.pos p) = pretty_N_go (N.pos p) EmptyString) as -> by reflexivity.
  by rewrite digits_pretty_go.
Qed.

Lemma pretty_N_go_plus x s : (∀ s', s ≠ String "+" s') → ∀ s', pretty_N_go x s ≠ String "+" s'.
Proof.
  revert s. induction (N.lt_wf_0 x) as [x _ IH]; intros s Hs.
  destruct (decide (x = 0%N)) as [->|Hx]; [by rewrite pretty_N_go_0|].
  rewrite pretty_N_go_step by lia. apply IH; [apply N.div_lt; lia|].
  intros s' [= Hc _]. revert Hc. unfold pretty_N_char. by repeat case_match.
Qed.

Lemma parse_u16_pretty n : 0 <= n < 65536 → parse_u16 (pretty n) = Some n.
Proof.
  intros Hn. unfold parse_u16.
  assert (∀ s', pretty n ≠ String "+" s') as Hplus.
  { destruct n as [|p|p]; [done| |lia]. by apply pretty_N_go_plus. }
  assert (pretty n ≠ EmptyString) as Hne.
  { intros H. pose proof (digits_pretty n ltac:(lia)) as Hd. rewrite H in Hd. injection Hd as <-. done. }
  destruct (pretty n) as [|a s] eqn:Hp; [done|].
  destruct (decide (a = "+"%char)) as [->|_]; [by destruct (Hplus s)|].
  rewrite decide_False by done. rewrite <- Hp, digits_pretty by lia. simpl. by rewrite decide_True by lia.
Qed.

Definition no_char (c : ascii) (s : string) : Prop := split_once c s = None.

Lemma split_once_app c s1 s2 : no_char c s1 → split_once c (s1 +:+ String c s2) = Some (s1, s2).
Proof.
  unfold no_char. induction s1 as [|a s1 IH]; simpl.
  - by rewrite decide_True.
  - case_decide; [done|]. destruct (split_once c s1) as [[]|]; [done|].
    by rewrite IH.
Qed.

Lemma rsplit_once_none c s : no_char c s → rsplit_once c s = None.
Proof.
  unfold no_char. induction s as [|a s IH]; simpl; [done|]. case_decide; [done|].
  destruct (split_once c s) as [[]|]; [done|]. by rewrite IH.
Qed.

Lemma rsplit_once_app c s1 s2 : no_char c s2 → rsplit_once c (s1 +:+ String c s2) = Some (s1, s2).
Proof.
  intros H2. induction s1 as [|a s1 IH].
  - simpl. rewrite rsplit_once_none by done. by rewrite decide_True.
  - rewrite append_cons. simpl. by rewrite IH.
Qed.

Lemma no_char_pretty c n : 0 <= n → digit c = None → no_char c (pretty n).
Proof.
  intros Hn Hc. pose proof (digits_pretty n Hn) as Hd. revert Hd. generalize 0 as acc, (pretty n) as s.
  intros acc s. revert acc. unfold no_char. induction s as [|a s IH]; intros acc; simpl; [done|].
  case_decide as Ha; [subst; by rewrite Hc|]. destruct (digit a); simpl; [|done].
  intros Hd. by rewrite (IH _ Hd).
Qed.

(** A host name or IPv4 address: no colon, no opening bracket. *)
Definition plain_host (h : string) : Prop :=
  h ≠ EmptyString ∧ no_char ":" h ∧ ∀ s, h ≠ String "[" s.

(** The unbracketed branch of [split_host_port]. *)
Lemma split_plain address :
  (∀ s, address ≠ String "[" s) →
  split_host_port address =
  match rsplit_once ":"%char address with
  | Some (host, raw_port) =>
      if has_char ":"%char host then Ok (address, DEFAULT_PORT)
      else port ← parse_port address raw_port; Ok (host, port)
  | None => Ok (address, DEFAULT_PORT)
  end.
Proof.
  intros H. destruct address as [|a s]; [done|].
  destruct a as [[] [] [] [] [] [] [] []]; try reflexivity. by destruct (H s).
Qed.

Lemma digits_acc_nonneg acc s n : 0 <= acc → digits_acc acc s = Some n → 0 <= n.
Proof.
  revert acc. induction s as [|a s IH]; intros acc Ha; simpl; [by intros [= <-]|].
  unfold digit. case_decide; simpl; [|done]. apply IH. lia.
Qed.

Lemma parse_port_ends address raw : ends (parse_port address raw) (λ p, 0 <= p < 65536) (λ _, True).
Proof.
  unfold parse_port, parse_u16.
  match goal with |- ends (ok_or ?o _) _ _ => destruct o as [n|] eqn:Hn; [|done] end. simpl. revert Hn.
  destruct raw as [|a s]; [done|]. do 2 case_decide; try done;
    (destruct (digits_acc 0 _) as [m|] eqn:Hm; simpl; [|done]; case_decide; [|done]; intros [= <-];
     apply digits_acc_nonneg in Hm; lia).
Qed.

(** The bracketed branch of [split_host_port]. *)
Definition bracketed (address rest : string) : outcome IoError (string * Z) :=
  match split_once "]"%char rest with
  | None => Err (InvalidInput ("unclosed '[' in address " +:+ address))
  | Some (host, String ":" raw) => port ← parse_port address raw; Ok (host, port)
  | Some (host, EmptyString) => Ok (host, DEFAULT_PORT)
  | Some _ => Err (InvalidInput ("garbage after ']' in address " +:+ address))
  end.

Lemma split_host_port_ends address :
  ends (split_host_port address) (λ r, 0 <= r.2 < 65536) (λ _, True).
Proof.
  assert (∀ h a raw, ends (port ← parse_port a raw; Ok (h, port)) (λ r : string * Z, 0 <= r.2 < 65536) (λ _, True)) as Hp.
  { intros h a raw. pose proof (parse_port_ends a raw). by destruct (parse_port a raw). }
  destruct address as [|a s]; [done|]. destruct (decide (a = "["%char)) as [->|Ha].
  - change (ends (bracketed (String "[" s) s) (λ r, 0 <= r.2 < 65536) (λ _, True)). unfold bracketed.
    destruct (split_once _ s) as [[host [|c after]]|]; [done| |done].
    destruct (decide (c = ":"%char)) as [->|Hc]; [apply Hp|].
    by destruct c as [[] [] [] [] [] [] [] []].
  - rewrite split_plain by (intros s'; congruence).
    destruct (rsplit_once _ _) as [[host raw]|]; [|done]. destruct (has_char _ host); [done|apply Hp].
Qed.

(** Server addresses: [host:port], [host], [[v6]:port], [[v6]] and a bare
    IPv6 address (more than one colon) are parsed to that host and port (25565
    by default), for every port; and whatever is accepted has a host and a
    16-bit port. *)
Lemma address_parse_correct host v6 port address :
  plain_host host → v6 ≠ EmptyString → no_char "]" v6 → 0 <= port < 65536 →
  parse_address (host +:+ ":" +:+ pretty port) = Ok (mkAddress host port) ∧
  parse_address host = Ok (mkAddress host DEFAULT_PORT) ∧
  parse_address ("[" +:+ v6 +:+ "]:" +:+ pretty port) = Ok (mkAddress v6 port) ∧
  parse_address ("[" +:+ v6 +:+ "]") = Ok (mkAddress v6 DEFAULT_PORT) ∧
  match parse_address address with
  | Ok a => sa_host a ≠ EmptyString ∧ 0 <= sa_port a < 65536
  | Err _ => True
  | Panic => False
  end.
Proof.
  intros (Hne & Hcolon & Hbr) Hv6 Hv6b Hport.
  assert (has_char ":"%char host = false) as Hhas by (unfold has_char; by rewrite Hcolon).
  assert (no_char ":" (pretty port)) as Hpp by (apply no_char_pretty; [lia|done]).
  assert (∀ a, parse_port a (pretty port) = Ok port) as Hparse
    by (intros; unfold parse_port; by rewrite parse_u16_pretty).
  unfold parse_address. split_and!.
  - rewrite split_plain.
    + change (host +:+ ":" +:+ pretty port) with (host +:+ String ":" (pretty port)).
      rewrite rsplit_once_app, Hhas, Hparse by done. simpl. by rewrite decide_False.
    + intros s. destruct host as [|a h]; [done|]. rewrite append_cons. intros [= -> _]. by destruct (Hbr h).
  - rewrite split_plain, rsplit_once_none by done. simpl. by rewrite decide_False.
  - change (split_host_port ("[" +:+ v6 +:+ "]:" +:+ pretty port)) with
      (bracketed ("[" +:+ v6 +:+ "]:" +:+ pretty port) (v6 +:+ String "]" (String ":" (pretty port)))).
    unfold bracketed. rewrite split_once_app, Hparse by done. simpl. by rewrite decide_False.
  - change (split_host_port ("[" +:+ v6 +:+ "]")) with
      (bracketed ("[" +:+ v6 +:+ "]") (v6 +:+ String "]" EmptyString)).
    unfold bracketed. rewrite split_once_app by done. simpl. by rewrite decide_False.
  - pose proof (split_host_port_ends address) as He.
    destruct (split_host_port address) as [[h p]|e|]; simpl in *; [|done..]. by case_decide.
Qed.

(** * A conforming server *)

(** What a server sends: the status response, then the echoed ping. *)
Definition server_says (json : bytes) : outcome IoError bytes :=
  id ← write_varint 0;
  body ← write_string json;
  f1 ← write_frame (id ++ body);
  ping_id ← write_varint 1;
  f2 ← write_frame (ping_id ++ PING_NONCE);
  Ok (f1 ++ f2).

(** How a server reads the handshake: packet id, protocol, host, port, state. *)
Definition read_handshake (hello : bytes) : outcome IoError (Z * Z * bytes * Z * Z) :=
  '(id, r) ← read_varint hello;
  '(version, r) ← read_varint r;
  '(host, r) ← read_string 255 r;
  '(port, r) ← read_exact 2 r;
  '(state, _) ← read_varint r;
  Ok (id, version, host, match port with [h; l] => h * 256 + l | _ => 0 end, state).

Lemma handshake_ok a :
  valid_utf8 (string_bytes (sa_host a)) = true → (length (string_bytes (sa_host a)) ≤ 255)%nat →
  0 <= sa_port a < 65536 →
  ∃ hello, handshake_payload a = Ok hello ∧ (length hello ≤ 300)%nat ∧
    read_handshake hello = Ok (0, -1, string_bytes (sa_host a), sa_port a, 1).
Proof.
  intros Hu Hlen Hport. unfold handshake_payload. set (host := string_bytes (sa_host a)) in *.
  destruct (varint_ok_all (-1)) as (v & Hv & Hvl & _ & Hvr); [unfold i32; lia|].
  assert (Z.of_nat (length host) <= i32_max) as Hi by (unfold i32_max; lia).
  destruct (varint_ok_all (Z.of_nat (length host)) (i32_length host Hi)) as (w & Hw & Hwl & _ & Hwr).
  change (write_varint STATUS_PROTOCOL_VERSION) with (write_varint (-1)). rewrite Hv.
  unfold write_string. rewrite decide_True, Hw by done.
  assert (write_varint 0 = Ok [0]) as -> by done. assert (write_varint 1 = Ok [1]) as -> by done.
  cbn [mbind outcome_bind]. eexists. split; [reflexivity|]. split.
  - rewrite !length_app. simpl. lia.
  - unfold read_handshake. cbn [app]. assert (∀ r, read_varint (0 :: r) = Ok (0, r)) as -> by done.
    cbn [mbind outcome_bind]. rewrite Hvr. cbn [mbind outcome_bind].
    unfold read_string. rewrite <- (assoc_L (++)), Hwr. cbn [mbind outcome_bind].
    rewrite !decide_False by lia. rewrite Nat2Z.id, read_exact_app. cbn [mbind outcome_bind].
    unfold from_utf8. rewrite Hu. cbn [mbind outcome_bind].
    change (be_u16 (sa_port a) ++ [1]) with ([sa_port a / 256; sa_port a mod 256] ++ [1]).
    assert (∀ h l : Z, read_exact 2 ([h; l] ++ [1]) = Ok ([h; l], [1])) as -> by done.
    cbn [mbind outcome_bind]. assert (read_varint [1] = Ok (1, [])) as -> by done. cbn [mbind outcome_bind].
    by rewrite (Z.mul_comm _ 256), <- Z.div_mod by lia.
Qed.

(** The status exchange: against a conforming server, which answers with a
    status document and echoes the ping, [query] returns exactly that document,
    and what it sends first decodes at the server to a status handshake for
    the requested host and port. *)
Lemma query_conforms a json tl :
  valid_utf8 (string_bytes (sa_host a)) = true → (length (string_bytes (sa_host a)) ≤ 255)%nat →
  0 <= sa_port a < 65536 →
  valid_utf8 json = true → Z.of_nat (length json) + 6 <= MAX_STATUS_FRAME →
  ∃ incoming sent hello rest,
    server_says json = Ok incoming ∧ query_exchange a (incoming ++ tl) = Ok (sent, json) ∧
    read_frame 300 sent = Ok (hello, rest) ∧
    read_handshake hello = Ok (0, -1, string_bytes (sa_host a), sa_port a, 1).
Proof.
  intros Hu Hlen Hport Hj Hjl. destruct (handshake_ok a Hu Hlen Hport) as (hello & Hh & Hhl & Hread).
  unfold MAX_STATUS_FRAME in *.
  assert (Z.of_nat (length json) <= i32_max) as Hi by (unfold i32_max; lia).
  destruct (varint_ok_all (Z.of_nat (length json)) (i32_length json Hi)) as (w & Hw & Hwl & _ & Hwr).
  destruct (frame_ok hello 300) as (f1 & Hf1 & Hf1r); [unfold i32_max; lia|lia|].
  destruct (frame_ok ([0] ++ w ++ json) (2 ^ 20)) as (f2 & Hf2 & Hf2r);
    [unfold i32_max; rewrite !length_app; simpl; lia|rewrite !length_app; simpl; lia|].
  destruct (frame_ok ([1] ++ PING_NONCE) 9) as (f3 & Hf3 & Hf3r); [unfold i32_max; simpl; lia|simpl; lia|].
  assert (write_varint 0 = Ok [0]) as H0 by done. assert (write_varint 1 = Ok [1]) as H1 by done.
  assert (∃ f4, write_frame [0] = Ok f4) as [f4 Hf4] by (eexists; reflexivity).
  exists (f2 ++ f3), (f1 ++ f4 ++ f3), hello, (f4 ++ f3). split_and!.
  - unfold server_says, write_string. rewrite H0, decide_True, Hw by done. cbn [mbind outcome_bind].
    rewrite Hf2, H1. cbn [mbind outcome_bind]. by rewrite Hf3.
  - unfold query_exchange. rewrite Hh. cbn [mbind outcome_bind]. rewrite Hf1, Hf4. cbn [mbind outcome_bind].
    unfold read_status_response, MAX_STATUS_FRAME. rewrite <- (assoc_L (++)), Hf2r. cbn [mbind outcome_bind app].
    assert (∀ r, read_varint (0 :: r) = Ok (0, r)) as -> by done. cbn [mbind outcome_bind].
    rewrite decide_True, Hwr by done. cbn [mbind outcome_bind]. rewrite decide_False, Nat2Z.id by lia.
    rewrite <- (app_nil_r json) at 2. rewrite read_exact_app. cbn [mbind outcome_bind].
    unfold from_utf8. rewrite Hj. cbn [mbind outcome_bind]. rewrite H1. cbn [mbind outcome_bind].
    rewrite Hf3. cbn [mbind outcome_bind]. change (Z.of_nat (length ([1] ++ PING_NONCE))) with 9.
    rewrite Hf3r. cbn [mbind outcome_bind]. by rewrite decide_True.
  - apply Hf1r.
  - exact Hread.
Qed.

Example address_parse_correct_demo : parse_address "mc.example.org:25570" = Ok (mkAddress "mc.example.org" 25570).
Proof.
  refine (proj1 (address_parse_correct "mc.example.org" "::1" 25570 EmptyString _ _ _ _)); [|discriminate|reflexivity|lia].
  split; [discriminate|]. split; [reflexivity|]. intros s. discriminate.
Defined.

Example query_conforms_demo :
  ∃ incoming sent hello rest,
    server_says [123; 125] = Ok incoming ∧ query_exchange (mkAddress "h" 25565) (incoming ++ []) = Ok (sent, [123; 125]) ∧
    read_frame 300 sent = Ok (hello, rest) ∧
    read_handshake hello = Ok (0, -1, string_bytes "h", 25565, 1).
Proof.
  refine (query_conforms (mkAddress "h" 25565) [123; 125] [] _ _ _ _ _);
    [reflexivity|simpl; lia|simpl; lia|reflexivity|unfold MAX_STATUS_FRAME; simpl; lia].
Defined.
