(* ===== verification/FlecsAst.v ===== *)
(** The Flecs query language of [packages/flecs-query/core/src]: the AST
    ([ast.rs]), parse errors ([error.rs]) and the canonical rendering
    ([fmt.rs]).

    A Rust [String] is the list of its chars; offsets and spans count the bytes
    of their UTF-8 encoding. *)

From stdpp Require Import base gmap sets list strings.
From Stdlib Require Import Ascii.
From S2P Require Import Prelude Chars.

(** * AST *)

Inductive RefExpr :=
| RName (name : text)
| RThis
| RVar (name : text)
| RWildcard
| RAny
| REntity (id : N)
| RValue (inner : RefExpr)
| RImplied.
#[export] Instance RefExpr_eq_dec : EqDecision RefExpr.
Proof. solve_decision. Defined.

Record Traversal := mkTraversal {
  tv_self : bool; tv_up : bool; tv_cascade : bool; tv_desc : bool; tv_rel : option text }.
#[export] Instance Traversal_eq_dec : EqDecision Traversal.
Proof. solve_decision. Defined.

(** [Traversal::default] and [Traversal::is_empty]. *)
Definition Traversal_default : Traversal := mkTraversal false false false false None.
Definition Traversal_is_empty (t : Traversal) : bool :=
  negb (tv_self t) && negb (tv_up t) && negb (tv_cascade t) && negb (tv_desc t) && bool_decide (tv_rel t = None).

Record Ref := mkRef { rf_expr : RefExpr; rf_traversal : option Traversal }.
#[export] Instance Ref_eq_dec : EqDecision Ref.
Proof. solve_decision. Defined.

(** [Ref::plain]. *)
Definition plain (e : RefExpr) : Ref := mkRef e None.

Inductive Oper := OAnd | OOr | ONot | OOptional | OAndFrom | OOrFrom | ONotFrom.
#[export] Instance Oper_eq_dec : EqDecision Oper.
Proof. solve_decision. Defined.

Inductive Access := ADefault | AIn | AOut | AInOut | ANone | AFilter.
#[export] Instance Access_eq_dec : EqDecision Access.
Proof. solve_decision. Defined.

Inductive ExtraOper := XAnd | XOr.
#[export] Instance ExtraOper_eq_dec : EqDecision ExtraOper.
Proof. solve_decision. Defined.

Inductive IdFlag := AutoOverride | Toggle.
#[export] Instance IdFlag_eq_dec : EqDecision IdFlag.
Proof. solve_decision. Defined.

Inductive Src := SImplicit | SEmpty | SExplicit (r : Ref).
#[export] Instance Src_eq_dec : EqDecision Src.
Proof. solve_decision. Defined.

Record IdTerm := mkIdTerm {
  id_flag : option IdFlag; id_first : Ref; id_src : Src; id_second : option Ref;
  id_extra : list Ref; id_extra_oper : ExtraOper }.
#[export] Instance IdTerm_eq_dec : EqDecision IdTerm.
Proof. solve_decision. Defined.

Inductive EqOp := EqEq | EqMatch.
#[export] Instance EqOp_eq_dec : EqDecision EqOp.
Proof. solve_decision. Defined.

Inductive EqOperand := EqRef (e : RefExpr) | EqName (name : text).
#[export] Instance EqOperand_eq_dec : EqDecision EqOperand.
Proof. solve_decision. Defined.

Record EqTerm := mkEqTerm { eq_left : RefExpr; eq_op : EqOp; eq_right : EqOperand }.
#[export] Instance EqTerm_eq_dec : EqDecision EqTerm.
Proof. solve_decision. Defined.

Inductive Term :=
| mkTerm (access : option Access) (oper : Oper) (body : TermBody)
with TermBody :=
| BId (id : IdTerm)
| BEq (eq : EqTerm)
| BScope (terms : list Term).

Definition tm_access (t : Term) : option Access := let '(mkTerm a _ _) := t in a.
Definition tm_oper (t : Term) : Oper := let '(mkTerm _ o _) := t in o.
Definition tm_body (t : Term) : TermBody := let '(mkTerm _ _ b) := t in b.

(** [Query]. *)
Definition Query : Type := list Term.

(** * Errors *)

Record Span := mkSpan { sp_start : nat; sp_end : nat }.

(** [Span::at]. *)
Definition span_at (offset : nat) : Span := mkSpan offset offset.

Record ParseError := mkParseError { pe_message : string; pe_span : Span }.

(** [while !src.is_char_boundary(start) { start -= 1; }]. *)
Fixpoint snap (t : text) (start : nat) : nat :=
  match split_at start t with
  | Some _ => start
  | None => match start with O => O | S start => snap t start end
  end.

(** The text after the last newline, and up to the first one. *)
Fixpoint last_line (t : text) : text :=
  match t with
  | [] => []
  | c :: t' => if decide (newline ∈ t) then last_line t' else t
  end.
Fixpoint first_line (t : text) : text :=
  match t with
  | [] => []
  | c :: t => if decide (c = newline) then [] else c :: first_line t
  end.

(** [ParseError::render]; slicing off a char boundary would panic. *)
Definition render (e : ParseError) (src : text) : outcome ParseError string :=
  '(pre, post) ← unwrap (split_at (snap src (sp_start (pe_span e) `min` blen src)) src);
  let line := last_line pre ++ first_line post in
  let column := length (last_line pre) in
  Ok ("error: " +:+ pe_message e +:+ utf8 (newline :: chars_of " | ") +:+ utf8 line
        +:+ utf8 (newline :: chars_of " | ") +:+ utf8 (replicate column (ch " ")) +:+ "^").

(** * Rendering *)

Definition is_ident_start (c : char) : bool :=
  is_ascii_alphabetic c || bool_decide (c = ch "_" ∨ c = ch "$" ∨ c = ch "#").
Definition is_ident_continue (c : char) : bool := is_ident_start c || is_ascii_digit c.

(** [EscapedName]; [depth] is [template_depth]. *)
Fixpoint escaped_name (depth : nat) (s : text) : text :=
  match s with
  | [] => []
  | c :: s1 =>
      if decide (c = ch "<") then c :: escaped_name (S depth) s1
      else if decide (c = ch ">") then c :: escaped_name (pred depth) s1
      else if decide (0 < depth) then c :: escaped_name depth s1
      else if decide (c = ch "\") then
        match s1 with
        | [] => [ch "\"]
        | next :: s2 => ch "\" :: next :: escaped_name depth s2
        end
      else if is_ascii_alphabetic c || is_ascii_digit c || bool_decide (c ∈ chars_of "_$#.*")
      then c :: escaped_name depth s1
      else ch "\" :: c :: escaped_name depth s1
  end.

(** [EscapedString]. *)
Definition quote : char := 34%N.
Definition escaped_string (s : text) : text :=
  concat ((λ c, if decide (c = quote ∨ c = ch "\") then [ch "\"; c] else [c]) <$> s).

Fixpoint show_expr (e : RefExpr) : text :=
  match e with
  | RName name => escaped_name 0 name
  | RThis => chars_of "$this"
  | RVar name => ch "$" :: name
  | RWildcard => [ch "*"]
  | RAny => [ch "_"]
  | REntity id => ch "#" :: print_nat id
  | RValue inner => ch "@" :: show_expr inner
  | RImplied => []
  end.

(** The [for] loop over the flags in [Traversal::fmt]: [first] is the flag of
    that name. *)
Fixpoint show_flags (first : bool) (flags : list (bool * string)) : text * bool :=
  match flags with
  | [] => ([], first)
  | (set, flag) :: flags =>
      if set then
        let '(out, first') := show_flags false flags in
        ((if first then [] else [ch "|"]) ++ chars_of flag ++ out, first')
      else show_flags first flags
  end.

Definition show_traversal (t : Traversal) : text :=
  let '(out, first) := show_flags true
    [(tv_self t, "self"); (tv_up t, "up"); (tv_cascade t, "cascade"); (tv_desc t, "desc")] in
  out ++ match tv_rel t with
         | Some rel => (if first then [] else [ch " "]) ++ rel
         | None => []
         end.

Definition show_ref (r : Ref) : text :=
  match rf_expr r, rf_traversal r with
  | RImplied, Some t => show_traversal t
  | RImplied, None => []
  | e, Some t => show_expr e ++ ch "|" :: show_traversal t
  | e, None => show_expr e
  end.

(** [write_eq]. *)
Definition show_eq (e : EqTerm) (negated : bool) : text :=
  let operand :=
    match eq_right e with
    | EqRef r => show_expr r
    | EqName name => quote :: escaped_string name ++ [quote]
    end in
  show_expr (eq_left e) ++ ch " " ::
  match eq_op e, negated, eq_right e with
  | EqEq, false, _ => chars_of "== " ++ operand
  | EqEq, true, _ => chars_of "!= " ++ operand
  | EqMatch, true, EqName name => chars_of "~= " ++ quote :: ch "!" :: escaped_string name ++ [quote]
  | EqMatch, _, _ => chars_of "~= " ++ operand
  end.

Definition show_id (id : IdTerm) : text :=
  let separator := match id_extra_oper id with XAnd => chars_of ", " | XOr => chars_of " || " end in
  let extras := concat ((λ r, separator ++ show_ref r) <$> id_extra id) in
  match id_flag id with
  | Some AutoOverride => chars_of "auto_override|"
  | Some Toggle => chars_of "toggle|"
  | None => []
  end ++
  match id_src id, id_second id with
  | SImplicit, None => show_ref (id_first id)
  | SImplicit, Some second =>
      ch "(" :: show_ref (id_first id) ++ chars_of ", " ++ show_ref second ++ extras ++ [ch ")"]
  | SEmpty, _ => show_ref (id_first id) ++ chars_of "()"
  | SExplicit src, second =>
      show_ref (id_first id) ++ ch "(" :: show_ref src ++
      match second with
      | Some second => chars_of ", " ++ show_ref second ++ extras
      | None => []
      end ++ [ch ")"]
  end.

Definition show_access (a : Access) : text :=
  chars_of match a with
           | ADefault => "[default]" | AIn => "[in]" | AOut => "[out]"
           | AInOut => "[inout]" | ANone => "[none]" | AFilter => "[filter]"
           end.

Definition is_eq (b : TermBody) : bool := match b with BEq _ => true | _ => false end.

Definition show_oper (o : Oper) (negated_eq : bool) : text :=
  chars_of match o with
           | OAnd | OOr => EmptyString
           | ONot => if negated_eq then EmptyString else "!"
           | OOptional => "?"
           | OAndFrom => "and|"
           | OOrFrom => "or|"
           | ONotFrom => "not|"
           end.

(** [write_terms], given [Term::fmt]; [previous] is the operator of the term
    before, if any. *)
Section write.
Variable show : Term → text.
Fixpoint write_terms (previous : option Oper) (terms : list Term) : text :=
  match terms with
  | [] => []
  | t :: terms =>
      match previous with
      | Some OOr => chars_of " || "
      | Some _ => chars_of ", "
      | None => []
      end ++ show t ++ write_terms (Some (tm_oper t)) terms
  end.
End write.

(** [Term::fmt]. *)
Fixpoint show_term (t : Term) : text :=
  let '(mkTerm access oper body) := t in
  let negated_eq := bool_decide (oper = ONot) && is_eq body in
  match access with Some a => show_access a ++ [ch " "] | None => [] end ++
  show_oper oper negated_eq ++
  match body with
  | BId id => show_id id
  | BEq eq => show_eq eq negated_eq
  | BScope terms => ch "{" :: write_terms show_term None terms ++ [ch "}"]
  end.

(** [Query::fmt]. *)
Definition show_query (q : Query) : text :=
  if decide (q = []) then chars_of "0" else write_terms show_term None q.
