(* ===== verification/FlecsParse.v ===== *)
(** The tokenizer ([token.rs]) and the parser ([parser.rs]) of
    [packages/flecs-query/core/src].

    The source is the list of its chars and an offset counts bytes.  The code
    indexes bytes, but only ever tests them against ASCII characters and moves
    by whole chars (inside comments it moves by bytes, none of which inside a
    char is an ASCII one), so that its offsets are always on char boundaries. *)

From stdpp Require Import base gmap sets list strings pretty.
From Stdlib Require Import Ascii.
From S2P Require Import Prelude Chars FlecsAst.

(** * Tokens *)

Inductive TokenKind :=
| KIdent | KNumber | KStr | KStar | KComma | KLParen | KRParen | KLBracket | KRBracket
| KLBrace | KRBrace | KBang | KQuestion | KPipe | KOrOr | KEqEq | KNeq | KMatch | KAt | KEof.
#[export] Instance TokenKind_eq_dec : EqDecision TokenKind.
Proof. solve_decision. Defined.

(** [TokenKind::describe]. *)
Definition describe (k : TokenKind) : string :=
  match k with
  | KIdent => "identifier" | KNumber => "number" | KStr => "string" | KStar => "'*'"
  | KComma => "','" | KLParen => "'('" | KRParen => "')'" | KLBracket => "'['"
  | KRBracket => "']'" | KLBrace => "'{'" | KRBrace => "'}'" | KBang => "'!'"
  | KQuestion => "'?'" | KPipe => "'|'" | KOrOr => "'||'" | KEqEq => "'=='"
  | KNeq => "'!='" | KMatch => "'~='" | KAt => "'@'" | KEof => "end of expression"
  end.

Record Token := mkToken { tk_kind : TokenKind; tk_text : text; tk_span : Span }.

(** * Lexer *)

(** The rest of the source and the byte offset where it starts. *)
Record Cursor := mkCursor { cur_chars : text; cur_pos : nat }.

Definition error {A} (message : string) (span : Span) : outcome ParseError A :=
  Err (mkParseError message span).

Definition is_ascii_whitespace (c : char) : bool := existsb (N.eqb c) [9; 10; 12; 13; 32]%N.

(** Where [skip_trivia] is: between comments, in a line comment, or in a block
    comment that opened at [start]. *)
Inductive Trivia := Between | InLine | InBlock (start : nat).

(** [skip_trivia]. *)
Fixpoint skip_trivia (mode : Trivia) (cs : text) (pos : nat) : outcome ParseError Cursor :=
  match cs with
  | [] => match mode with
          | InBlock start => error "missing */ for multiline comment" (span_at start)
          | _ => Ok (mkCursor [] pos)
          end
  | c :: cs1 =>
      match mode with
      | Between =>
          if is_ascii_whitespace c then skip_trivia Between cs1 (S pos)
          else if decide (c = ch "/") then
            match cs1 with
            | d :: cs2 =>
                if decide (d = ch "/") then skip_trivia InLine cs2 (2 + pos)
                else if decide (d = ch "*") then skip_trivia (InBlock pos) cs2 (2 + pos)
                else Ok (mkCursor cs pos)
            | [] => Ok (mkCursor cs pos)
            end
          else Ok (mkCursor cs pos)
      | InLine =>
          if decide (c = newline) then skip_trivia Between cs1 (S pos)
          else skip_trivia InLine cs1 (len_utf8 c + pos)
      | InBlock start =>
          match cs1 with
          | d :: cs2 =>
              if decide (c = ch "*" ∧ d = ch "/") then skip_trivia Between cs2 (2 + pos)
              else skip_trivia (InBlock start) cs1 (len_utf8 c + pos)
          | [] => skip_trivia (InBlock start) cs1 (len_utf8 c + pos)
          end
      end
  end.

(** [punct], [wide_punct] and [punct_width]: [cs] is what follows. *)
Definition punct_width (kind : TokenKind) (start width : nat) (cs : text) : Token * Cursor :=
  (mkToken kind [] (mkSpan start (width + start)), mkCursor cs (width + start)).

(** The digits of [lex_number]. *)
Fixpoint lex_digits (acc cs : text) (pos : nat) : text * Cursor :=
  match cs with
  | c :: cs1 => if is_ascii_digit c then lex_digits (acc ++ [c]) cs1 (S pos) else (acc, mkCursor cs pos)
  | [] => (acc, mkCursor [] pos)
  end.

(** [lex_number]: [c] is the first character, a minus sign or a digit. *)
Definition lex_number (c : char) (cs : text) (start : nat) : Token * Cursor :=
  let '(t, cur) := lex_digits [c] cs (S start) in
  (mkToken KNumber t (mkSpan start (cur_pos cur)), cur).

(** The [loop] of [lex_string]. *)
Fixpoint lex_string (start : nat) (acc cs : text) (pos : nat) : outcome ParseError (Token * Cursor) :=
  match cs with
  | [] => error "unterminated string" (span_at start)
  | c :: cs1 =>
      if decide (c = quote) then Ok (mkToken KStr acc (mkSpan start (S pos)), mkCursor cs1 (S pos))
      else if decide (c = ch "\") then
        match cs1 with
        | escaped :: cs2 => lex_string start (acc ++ [escaped]) cs2 (1 + len_utf8 escaped + pos)
        | [] => error "unterminated string" (span_at start)
        end
      else lex_string start (acc ++ [c]) cs1 (len_utf8 c + pos)
  end.

(** The [loop] over the template arguments of an identifier. *)
Fixpoint lex_template (start depth : nat) (acc cs : text) (pos : nat) : outcome ParseError (text * Cursor) :=
  match cs with
  | [] => error "< without > in identifier" (span_at start)
  | t :: cs1 =>
      let step (depth : nat) :=
        if decide (depth = 0) then Ok (acc ++ [t], mkCursor cs1 (len_utf8 t + pos))
        else lex_template start depth (acc ++ [t]) cs1 (len_utf8 t + pos) in
      if decide (t = ch "<") then step (S depth)
      else if decide (t = ch ">") then match depth with O => Panic | S d => step d end
      else step depth
  end.

(** The [while] of [lex_ident]; [prev] is the character before [cs]. *)
Fixpoint lex_ident_loop (start : nat) (prev : char) (acc cs : text) (pos : nat)
  : outcome ParseError (text * Cursor) :=
  match cs with
  | [] => Ok (acc, mkCursor [] pos)
  | c :: cs1 =>
      if decide (c = ch "." ∧ head cs1 = Some (ch ".")) then Ok (acc, mkCursor cs pos)
      else if is_ident_continue c || bool_decide (c = ch ".") then
        lex_ident_loop start c (acc ++ [c]) cs1 (S pos)
      else if decide (c = ch "\") then
        match cs1 with
        | [] => Ok (acc, mkCursor [] (S pos))
        | escaped :: cs2 =>
            if decide (escaped = ch ".") then
              lex_ident_loop start escaped (acc ++ [ch "\"; ch "."]) cs2 (2 + pos)
            else lex_ident_loop start escaped (acc ++ [escaped]) cs2 (1 + len_utf8 escaped + pos)
        end
      else if decide (c = ch "*" ∧ prev = ch ".") then
        lex_ident_loop start c (acc ++ [c]) cs1 (S pos)
      else if decide (c = ch "<") then lex_template start 0 acc cs pos
      else if decide (c = ch ">") then error "> without < in identifier" (span_at pos)
      else Ok (acc, mkCursor cs pos)
  end.

(** [lex_ident] at [c], an [is_ident_start]. *)
Definition lex_ident (c : char) (cs : text) (start : nat) : outcome ParseError (Token * Cursor) :=
  '(t, cur) ← lex_ident_loop start c [] (c :: cs) start;
  Ok (mkToken KIdent t (mkSpan start (cur_pos cur)), cur).

(** The [match c] of [lex]: the token at [start] that begins with [c]. *)
Definition lex_token (c : char) (cs : text) (start : nat) : outcome ParseError (Token * Cursor) :=
  let punct kind := Ok (punct_width kind start 1 cs) in
  let wide_punct kind := Ok (punct_width kind start 2 (tail cs)) in
  let next d := bool_decide (head cs = Some d) in
  if decide (c = ch ",") then punct KComma
  else if decide (c = ch "(") then punct KLParen
  else if decide (c = ch ")") then punct KRParen
  else if decide (c = ch "[") then punct KLBracket
  else if decide (c = ch "]") then punct KRBracket
  else if decide (c = ch "{") then punct KLBrace
  else if decide (c = ch "}") then punct KRBrace
  else if decide (c = ch "?") then punct KQuestion
  else if decide (c = ch "@") then punct KAt
  else if decide (c = ch "*") then punct KStar
  else if decide (c = ch "|") then if next (ch "|") then wide_punct KOrOr else punct KPipe
  else if bool_decide (c = ch "=") && next (ch "=") then wide_punct KEqEq
  else if decide (c = ch "!") then if next (ch "=") then wide_punct KNeq else punct KBang
  else if bool_decide (c = ch "~") && next (ch "=") then wide_punct KMatch
  else if decide (c = quote) then lex_string start [] cs (S start)
  else if bool_decide (c = ch "-") && existsb is_ascii_digit (take 1 cs) then Ok (lex_number c cs start)
  else if is_ascii_digit c then Ok (lex_number c cs start)
  else if is_ident_start c then lex_ident c cs start
  else error ("unknown token '" +:+ utf8_char c +:+ "'") (span_at start).

(** The [loop] of [lex].  Every iteration but the last consumes a character, so
    one more than their number is enough fuel. *)
Fixpoint lex_loop (fuel : nat) (tokens : list Token) (cur : Cursor) : outcome ParseError (list Token) :=
  match fuel with
  | O => Panic
  | S fuel =>
      cur ← skip_trivia Between (cur_chars cur) (cur_pos cur);
      match cur_chars cur with
      | [] => Ok (tokens ++ [mkToken KEof [] (span_at (cur_pos cur))])
      | c :: cs =>
          '(token, cur) ← lex_token c cs (cur_pos cur);
          lex_loop fuel (tokens ++ [token]) cur
      end
  end.

(** [lex]. *)
Definition lex (src : text) : outcome ParseError (list Token) :=
  lex_loop (S (length src)) [] (mkCursor src 0).

(** * Parser *)

Definition TERM_ARG_COUNT_MAX : nat := 16.
Definition SCOPE_DEPTH_MAX : nat := 64.

Inductive ScopeContext := TopLevel | InScope.
#[export] Instance ScopeContext_eq_dec : EqDecision ScopeContext.
Proof. solve_decision. Defined.

Record Parser := mkParser { ps_tokens : list Token; ps_index : nat; ps_scope_depth : nat }.

(** Parser methods: [&mut self] threaded through, errors as outcomes. *)
Definition parser (A : Type) : Type := Parser → outcome ParseError (A * Parser).
#[export] Instance parser_ret : MRet parser := λ A a ps, Ok (a, ps).
#[export] Instance parser_bind : MBind parser := λ A B k m ps,
  match m ps with
  | Ok (a, ps') => k a ps'
  | Err e => Err e
  | Panic => Panic
  end.
Definition lift {A} (m : outcome ParseError A) : parser A := λ ps, a ← m; Ok (a, ps).

(** [peek] and [bump]; an index past the tokens would panic. *)
Definition peek : parser Token := λ ps, t ← unwrap (ps_tokens ps !! ps_index ps); Ok (t, ps).
Definition bump : parser Token := λ ps,
  t ← unwrap (ps_tokens ps !! ps_index ps);
  Ok (t, mkParser (ps_tokens ps)
           (if decide (ps_index ps + 1 < length (ps_tokens ps)) then ps_index ps + 1 else ps_index ps)
           (ps_scope_depth ps)).

(** [unexpected]. *)
Definition unexpected {A} (token : Token) (expected : string) : outcome ParseError A :=
  let found := match tk_kind token with
               | KIdent | KNumber => describe (tk_kind token) +:+ " '" +:+ utf8 (tk_text token) +:+ "'"
               | k => describe k
               end in
  error ("expected " +:+ expected +:+ ", found " +:+ found) (tk_span token).

Definition expect (kind : TokenKind) (expected : string) : parser Token :=
  token ← bump;
  if decide (tk_kind token = kind) then mret token else lift (unexpected token expected).

(** [digits.parse::<u64>()]: an optional plus sign and digits. *)
Definition parse_u64 (digits : text) : option N :=
  let ds := match digits with
            | c :: t => if decide (c = ch "+") then t else digits
            | [] => []
            end in
  if decide (ds = []) then None
  else if forallb is_ascii_digit ds then
    if decide (digits_value ds < 2 ^ 64)%Z then Some (Z.to_N (digits_value ds)) else None
  else None.

Definition entity_id (digits : text) (span : Span) : outcome ParseError RefExpr :=
  match parse_u64 digits with
  | Some id => Ok (REntity id)
  | None => error ("invalid entity id '" +:+ utf8 digits +:+ "'") span
  end.

Definition classify (token : Token) : outcome ParseError RefExpr :=
  match tk_kind token with
  | KStar => Ok RWildcard
  | KNumber => entity_id (tk_text token) (tk_span token)
  | KIdent =>
      let t := tk_text token in
      if decide (t = chars_of "$this") then Ok RThis
      else if decide (t = chars_of "_") then Ok RAny
      else match t with
      | c :: rest =>
          if decide (c = ch "$") then Ok (RVar rest)
          else if decide (c = ch "#") then entity_id rest (tk_span token)
          else Ok (RName t)
      | [] => Ok (RName t)
      end
  | _ => error "expected identifier" (tk_span token)
  end.

Definition is_traversal_flag (word : text) : bool :=
  bool_decide (word = chars_of "self" ∨ word = chars_of "up" ∨ word = chars_of "cascade" ∨ word = chars_of "desc").

(** [IdTerm::component]. *)
Definition component (first : Ref) : IdTerm := mkIdTerm None first SImplicit None [] XAnd.

(** The flags of [traversal]; every iteration consumes a token. *)
Definition set_flag (word : Token) (t : Traversal) : outcome ParseError Traversal :=
  let w := tk_text word in
  if decide (w = chars_of "self") then Ok (mkTraversal true (tv_up t) (tv_cascade t) (tv_desc t) (tv_rel t))
  else if decide (w = chars_of "up") then Ok (mkTraversal (tv_self t) true (tv_cascade t) (tv_desc t) (tv_rel t))
  else if decide (w = chars_of "cascade") then Ok (mkTraversal (tv_self t) (tv_up t) true (tv_desc t) (tv_rel t))
  else if decide (w = chars_of "desc") then Ok (mkTraversal (tv_self t) (tv_up t) (tv_cascade t) true (tv_rel t))
  else error ("expected traversal flag, found '" +:+ utf8 w +:+ "'") (tk_span word).

Fixpoint traversal_loop (fuel : nat) (t : Traversal) : parser Traversal :=
  match fuel with
  | O => λ _, Panic
  | S fuel =>
      word ← expect KIdent "traversal flag";
      t ← lift (set_flag word t);
      next ← peek;
      match tk_kind next with
      | KPipe => _ ← bump; traversal_loop fuel t
      | KIdent =>
          if is_traversal_flag (tk_text next) then mret t
          else rel ← bump; mret (mkTraversal (tv_self t) (tv_up t) (tv_cascade t) (tv_desc t) (Some (tk_text rel)))
      | _ => mret t
      end
  end.

Definition traversal (fuel : nat) : parser Traversal := traversal_loop fuel Traversal_default.

(** The operand kinds [classify] accepts. *)
Definition is_operand (k : TokenKind) : bool :=
  match k with KIdent | KNumber | KStar => true | _ => false end.

(** [if self.peek().kind == Pipe { self.bump(); Some(self.traversal()?) } else { None }]. *)
Definition pipe_traversal (fuel : nat) : parser (option Traversal) :=
  next ← peek;
  if decide (tk_kind next = KPipe) then _ ← bump; t ← traversal fuel; mret (Some t) else mret None.

Definition arg_ref (fuel : nat) : parser Ref :=
  token ← peek;
  if decide (tk_kind token = KIdent ∧ is_traversal_flag (tk_text token) = true) then
    t ← traversal fuel; mret (mkRef RImplied (Some t))
  else if decide (tk_kind token = KAt) then
    _ ← bump;
    inner ← bump;
    if is_operand (tk_kind inner) then e ← lift (classify inner); mret (plain (RValue e))
    else lift (unexpected inner "identifier")
  else if is_operand (tk_kind token) then
    _ ← bump;
    e ← lift (classify token);
    t ← pipe_traversal fuel;
    mret (mkRef e t)
  else lift (unexpected token "identifier").

(** The assignment of [arg_list] for one argument. *)
Definition set_arg (index : nat) (r : Ref) (id : IdTerm) : IdTerm :=
  let '(mkIdTerm flag first src second extra oper) := id in
  match index with
  | 0 => mkIdTerm flag first (SExplicit r) second extra oper
  | 1 => mkIdTerm flag first src (Some r) extra oper
  | _ => mkIdTerm flag first src second (extra ++ [r]) oper
  end.
Definition set_extra_oper (oper : ExtraOper) (id : IdTerm) : IdTerm :=
  let '(mkIdTerm flag first src second extra _) := id in mkIdTerm flag first src second extra oper.

Fixpoint arg_list (fuel : nat) (id : IdTerm) (index : nat) : parser IdTerm :=
  match fuel with
  | O => λ _, Panic
  | S fuel =>
      if decide (TERM_ARG_COUNT_MAX < index) then
        token ← peek; lift (error "too many arguments in term" (tk_span token))
      else
        r ← arg_ref (S fuel);
        let id := set_arg index r id in
        separator ← bump;
        let continue_ (oper : ExtraOper) : parser IdTerm :=
          if decide (1 < index ∧ id_extra_oper id ≠ oper) then
            lift (error "cannot mix operators in extra term arguments" (tk_span separator))
          else arg_list fuel (set_extra_oper oper id) (S index) in
        match tk_kind separator with
        | KRParen => mret id
        | KComma => continue_ XAnd
        | KOrOr => continue_ XOr
        | _ => lift (unexpected separator "',' or ')'")
        end
  end.

Definition args (fuel : nat) (first : Ref) : parser TermBody :=
  let id := component first in
  token ← peek;
  if decide (tk_kind token = KRParen) then
    _ ← bump; mret (BId (mkIdTerm None first SEmpty None [] XAnd))
  else id ← arg_list fuel id 0; mret (BId id).

Definition pair_body (fuel : nat) : parser TermBody :=
  first_token ← bump;
  if is_operand (tk_kind first_token) then
    first ← lift (classify first_token);
    t ← pipe_traversal fuel;
    _ ← expect KComma "','";
    id ← arg_list fuel (component (mkRef first t)) 1;
    mret (BId id)
  else lift (unexpected first_token "identifier").

(** The right operand of [eq_body] and whether the predicate is negated. *)
Definition eq_operand (op : EqOp) (negate : bool) : parser (EqOperand * bool) :=
  token ← bump;
  if is_operand (tk_kind token) then r ← lift (classify token); mret (EqRef r, negate)
  else if decide (tk_kind token = KStr) then
    match op, tk_text token with
    | EqMatch, c :: stripped =>
        if decide (c = ch "!") then mret (EqName stripped, true) else mret (EqName (tk_text token), negate)
    | _, _ => mret (EqName (tk_text token), negate)
    end
  else lift (unexpected token "identifier or string").

(** [eq_body]; [oper] is passed and returned. *)
Definition eq_body (left : RefExpr) (op : EqOp) (negate : bool) (oper : Oper) : parser (TermBody * Oper) :=
  if decide (oper = OAnd) then
    r ← eq_operand op negate;
    mret (BEq (mkEqTerm left op r.1), if (r.2 : bool) then ONot else oper)
  else
    token ← peek; lift (error "cannot mix operator with equality expression" (tk_span token)).

Definition id_body (fuel : nat) (first : RefExpr) (oper : Oper) : parser (TermBody * Oper) :=
  token ← peek;
  match tk_kind token with
  | KEqEq => _ ← bump; eq_body first EqEq false oper
  | KNeq => _ ← bump; eq_body first EqEq true oper
  | KMatch => _ ← bump; eq_body first EqMatch false oper
  | KPipe =>
      _ ← bump;
      t ← traversal fuel;
      let first := mkRef first (Some t) in
      next ← peek;
      if decide (tk_kind next = KLParen) then _ ← bump; b ← args fuel first; mret (b, oper)
      else mret (BId (component first), oper)
  | KLParen => _ ← bump; b ← args fuel (plain first); mret (b, oper)
  | _ => mret (BId (component (plain first)), oper)
  end.

Inductive KeywordPrefix := KwOper (oper : Oper) | KwFlag (flag : IdFlag).

Definition keyword_of (word : text) : option KeywordPrefix :=
  if decide (word = chars_of "and") then Some (KwOper OAndFrom)
  else if decide (word = chars_of "or") then Some (KwOper OOrFrom)
  else if decide (word = chars_of "not") then Some (KwOper ONotFrom)
  else if decide (word = chars_of "auto_override") then Some (KwFlag AutoOverride)
  else if decide (word = chars_of "toggle") then Some (KwFlag Toggle)
  else None.

Definition keyword : parser (option KeywordPrefix) :=
  word ← peek;
  if decide (tk_kind word = KIdent) then
    match keyword_of (tk_text word) with
    | Some k => _ ← bump; _ ← expect KPipe "'|'"; mret (Some k)
    | None => mret None
    end
  else mret None.

Definition ref_expr : parser RefExpr := token ← bump; lift (classify token).

Definition set_id_flag (flag : option IdFlag) (b : TermBody) : TermBody :=
  match b with
  | BId (mkIdTerm _ first src second extra oper) => BId (mkIdTerm flag first src second extra oper)
  | b => b
  end.

Definition keyword_operand (fuel : nat) (flag : option IdFlag) (oper : Oper) : parser (TermBody * Oper) :=
  token ← peek;
  '(body, oper) ←
    (if decide (tk_kind token = KLParen) then _ ← bump; b ← pair_body fuel; mret (b, oper)
     else first ← ref_expr; id_body fuel first oper);
  mret (set_id_flag flag body, oper).

Definition access_of (word : Token) : outcome ParseError Access :=
  let w := tk_text word in
  if decide (w = chars_of "default") then Ok ADefault
  else if decide (w = chars_of "in") then Ok AIn
  else if decide (w = chars_of "out") then Ok AOut
  else if decide (w = chars_of "inout") then Ok AInOut
  else if decide (w = chars_of "none") then Ok ANone
  else if decide (w = chars_of "filter") then Ok AFilter
  else error ("invalid access modifier '" +:+ utf8 w +:+ "'") (tk_span word).

Definition access : parser (option Access) :=
  token ← peek;
  if decide (tk_kind token = KLBracket) then
    _ ← bump;
    word ← expect KIdent "access modifier";
    a ← lift (access_of word);
    _ ← expect KRBracket "']'";
    mret (Some a)
  else mret None.

(** [self.scope_depth += 1] and [-= 1]. *)
Definition depth_add : parser nat := λ ps,
  Ok (S (ps_scope_depth ps), mkParser (ps_tokens ps) (ps_index ps) (S (ps_scope_depth ps))).
Definition depth_sub : parser () := λ ps,
  match ps_scope_depth ps with
  | O => Panic
  | S d => Ok ((), mkParser (ps_tokens ps) (ps_index ps) d)
  end.

(** The operator prefix of [term]. *)
Definition oper_prefix : parser Oper :=
  token ← peek;
  match tk_kind token with
  | KBang => _ ← bump; mret ONot
  | KQuestion => _ ← bump; mret OOptional
  | _ => mret OAnd
  end.

(** The body of [term] after the access modifier [a] and the prefix [oper],
    given the parser of a scope's terms; [oper] is passed and returned. *)
Definition term_body (fuel : nat) (scope : parser (list Term)) (a : option Access) (oper : Oper)
  : parser (TermBody * Oper) :=
  token ← peek;
  match tk_kind token with
  | KLBrace =>
      if decide (a = None) then
        brace ← bump;
        depth ← depth_add;
        if decide (SCOPE_DEPTH_MAX < depth) then
          lift (error ("scopes nested deeper than " +:+ pretty SCOPE_DEPTH_MAX) (tk_span brace))
        else
          inner ← scope;
          _ ← depth_sub;
          mret (BScope inner, oper)
      else lift (unexpected token "term")
  | KLParen => _ ← bump; b ← pair_body fuel; mret (b, oper)
  | KIdent | KNumber | KStar =>
      k ← (if decide (oper = OAnd) then keyword else mret None);
      match k with
      | Some (KwOper keyword_oper) => keyword_operand fuel None keyword_oper
      | Some (KwFlag flag) => keyword_operand fuel (Some flag) oper
      | None => first ← ref_expr; id_body fuel first oper
      end
  | _ => lift (unexpected token "term")
  end.

(** [term]. *)
Definition term (fuel : nat) (scope : parser (list Term)) : parser Term :=
  a ← access;
  oper ← oper_prefix;
  '(body, oper) ← term_body fuel scope a oper;
  mret (mkTerm a oper body).

(** The separator after [t] in [terms]: the term as it stays in the list. *)
Definition separator (t : Term) : parser Term :=
  token ← peek;
  match tk_kind token with
  | KComma => _ ← bump; mret t
  | KOrOr =>
      or ← bump;
      let '(mkTerm a oper body) := t in
      if decide (oper = OAnd) then
        next ← peek;
        if decide (tk_kind next = KEof ∨ tk_kind next = KRBrace) then
          lift (error "expected term after '||'" (tk_span or))
        else mret (mkTerm a OOr body)
      else lift (error "cannot mix operators in || expression" (tk_span or))
  | KEof | KRBrace => mret t
  | _ => lift (unexpected token "',' or end of expression")
  end.

(** The [loop] of [terms].  Every iteration consumes a token, in the nested
    calls too, so the number of tokens is enough fuel. *)
Fixpoint terms (fuel : nat) (context : ScopeContext) (acc : list Term) : parser (list Term) :=
  match fuel with
  | O => λ _, Panic
  | S fuel =>
      token ← peek;
      if decide (tk_kind token = KEof) then
        if decide (context = InScope) then lift (unexpected token "'}'") else mret acc
      else if decide (tk_kind token = KRBrace ∧ context = InScope) then _ ← bump; mret acc
      else
        t ← term fuel (terms fuel InScope []);
        t ← separator t;
        terms fuel context (acc ++ [t])
  end.

(** [parse]. *)
Definition parse (src : text) : outcome ParseError Query :=
  if decide (src = chars_of "0") then Ok []
  else
    tokens ← lex src;
    '(q, _) ← terms (S (length tokens)) TopLevel [] (mkParser tokens 0 0);
    Ok q.
