(* ===== verification/FlecsSound.v ===== *)
(** The Flecs query parser always answers: it never panics, its errors point
    into the source at char boundaries, and what it accepts obeys the grammar
    of [packages/flecs-query/core/src/lib.rs]. *)

From stdpp Require Import base gmap sets list strings pretty.
From Stdlib Require Import Ascii.
From S2P Require Import Prelude Chars FlecsAst FlecsParse.

(** * Well-formed queries *)

Definition plain_oper (o : Oper) : bool := bool_decide (o = OAnd ∨ o = OOr).

(** The text of an identifier token. *)
Definition is_word (w : text) : bool := match w with c :: _ => is_ident_start c | [] => false end.

Definition is_name (w : text) : bool :=
  match w with
  | c :: _ => (is_ascii_alphabetic c || bool_decide (c = ch "_")) && negb (bool_decide (w = chars_of "_"))
  | [] => false
  end.

(** What an operand token denotes. *)
Definition operand_ok (e : RefExpr) : bool :=
  match e with
  | RName w => is_name w
  | RVar w => negb (bool_decide (w = chars_of "this"))
  | REntity id => bool_decide (id < 2 ^ 64)%N
  | RThis | RWildcard | RAny => true
  | RValue _ | RImplied => false
  end.

Definition traversal_ok (t : Traversal) : bool :=
  (tv_self t || tv_up t || tv_cascade t || tv_desc t) &&
  match tv_rel t with Some w => is_word w && negb (is_traversal_flag w) | None => true end.

Definition opt_ok {A} (f : A → bool) (o : option A) : bool := match o with Some a => f a | None => true end.

(** The reference before the arguments, and an argument. *)
Definition first_ok (r : Ref) : bool := operand_ok (rf_expr r) && opt_ok traversal_ok (rf_traversal r).

Definition is_flag_name (e : RefExpr) : bool :=
  match e with RName w => is_traversal_flag w | _ => false end.

Definition arg_ok (r : Ref) : bool :=
  match rf_expr r, rf_traversal r with
  | RImplied, Some t => traversal_ok t
  | RValue e, None => operand_ok e
  | e, t => operand_ok e && negb (is_flag_name e) && opt_ok traversal_ok t
  end.

Definition targets_ok (id : IdTerm) : bool :=
  match id_second id with
  | Some second => arg_ok second && forallb arg_ok (id_extra id) && bool_decide (length (id_extra id) < TERM_ARG_COUNT_MAX)
  | None => bool_decide (id_extra id = []) && bool_decide (id_extra_oper id = XAnd)
  end.

Definition id_ok (id : IdTerm) : bool :=
  first_ok (id_first id) && targets_ok id &&
  match id_src id with
  | SImplicit => true
  | SEmpty => bool_decide (id_second id = None)
  | SExplicit r => arg_ok r
  end.

Definition is_keyword (e : RefExpr) : bool :=
  match e with RName w => match keyword_of w with Some _ => true | None => false end | _ => false end.

(** [(First, second)]: implicit source. *)
Definition is_pair (id : IdTerm) : bool :=
  match id_src id, id_second id with SImplicit, Some _ => true | _, _ => false end.

Definition id_term_ok (o : Oper) (id : IdTerm) : bool :=
  id_ok id &&
  match id_flag id with
  | Some _ => plain_oper o
  | None => negb (plain_oper o) || is_pair id || negb (is_keyword (rf_expr (id_first id)))
  end.

Definition eq_term_ok (o : Oper) (e : EqTerm) : bool :=
  bool_decide (o = OAnd ∨ o = OOr ∨ o = ONot) && operand_ok (eq_left e) &&
  match eq_right e with
  | EqRef r => operand_ok r && negb (bool_decide (eq_op e = EqMatch ∧ o = ONot))
  | EqName w => negb (bool_decide (eq_op e = EqMatch ∧ o ≠ ONot ∧ head w = Some (ch "!")))
  end.

Definition scope_oper (o : Oper) : bool := bool_decide (o = OAnd ∨ o = OOr ∨ o = ONot ∨ o = OOptional).

Definition ends_closed (q : list Term) : bool := negb (bool_decide (tm_oper <$> last q = Some OOr)).

(** A term inside [d] more scopes at most. *)
Fixpoint term_ok (d : nat) (t : Term) : bool :=
  let '(mkTerm access oper body) := t in
  match body with
  | BId id => id_term_ok oper id
  | BEq e => eq_term_ok oper e
  | BScope q =>
      bool_decide (access = None) && scope_oper oper &&
      match d with O => false | S d => forallb (term_ok d) q && ends_closed q end
  end.

Definition terms_ok (d : nat) (q : list Term) : bool := forallb (term_ok d) q && ends_closed q.

Definition well_formed (q : Query) : bool := terms_ok SCOPE_DEPTH_MAX q.

(** * Spans *)

(** A span of the source that starts and ends at char boundaries. *)
Definition located (source : text) (s : Span) : Prop :=
  ∃ pre mid post, source = pre ++ mid ++ post ∧ sp_start s = blen pre ∧ sp_end s = blen pre + blen mid.

(** [cur] is [cur0] after some characters. *)
Definition advances (cur0 cur : Cursor) : Prop :=
  ∃ t, cur_chars cur0 = t ++ cur_chars cur ∧ cur_pos cur = blen t + cur_pos cur0.

Lemma cursor_advances_refl cur : advances cur cur.
Proof. by exists []. Qed.

Lemma cursor_advances_trans c1 c2 c3 : advances c1 c2 → advances c2 c3 → advances c1 c3.
Proof.
  intros (t1 & H1 & P1) (t2 & H2 & P2). exists (t1 ++ t2).
  rewrite H1, H2, P2, P1, blen_app, (assoc_L (++)). split; [done|lia].
Qed.

Lemma cursor_advances_cons c cs pos cur n :
  n = len_utf8 c → advances (mkCursor cs (n + pos)) cur → advances (mkCursor (c :: cs) pos) cur.
Proof.
  intros -> (t & H & P). exists (c :: t). simpl in *. rewrite H, P. split; [done|].
  unfold blen. csimpl. lia.
Qed.

Lemma cursor_advances_length c1 c2 : advances c1 c2 → length (cur_chars c2) ≤ length (cur_chars c1).
Proof. intros (t & -> & _). rewrite length_app. lia. Qed.

Lemma cursor_advances_located source c1 c2 :
  advances (mkCursor source 0) c1 → advances c1 c2 → located source (mkSpan (cur_pos c1) (cur_pos c2)).
Proof.
  intros (pre & H1 & P1) (mid & H2 & P2). exists pre, mid, (cur_chars c2). simpl in *.
  rewrite H1, H2, P1, P2. split_and!; [done|lia|lia].
Qed.

Lemma advances_at source c : advances (mkCursor source 0) c → located source (span_at (cur_pos c)).
Proof. intros H. apply (cursor_advances_located source c c); [done|apply cursor_advances_refl]. Qed.

Lemma ascii_len c : (c < 128)%N → len_utf8 c = 1.
Proof. intros. unfold len_utf8. by rewrite decide_True by lia. Qed.

Lemma ident_continue_ascii c : is_ident_continue c = true → (c < 128)%N.
Proof.
  unfold is_ident_continue, is_ident_start, is_ascii_alphabetic, is_ascii_digit.
  rewrite !orb_true_iff, !in_range_spec, bool_decide_eq_true. unfold ch. simpl. lia.
Qed.

Create HintDb flecs.
#[export] Hint Resolve cursor_advances_refl advances_at : flecs.

(** What a lexing function that starts at [start] after [cur0] may end with. *)
Definition lexes (source : text) (cur0 : Cursor) {A} (r : outcome ParseError (A * Cursor)) (Q : A → Cursor → Prop) : Prop :=
  match r with
  | Ok (a, cur) => advances cur0 cur ∧ Q a cur
  | Err e => located source (pe_span e)
  | Panic => False
  end.

Lemma token_lexes_cons {A} source c cs pos n (r : outcome ParseError (A * Cursor)) Q :
  n = len_utf8 c → lexes source (mkCursor cs (n + pos)) r Q → lexes source (mkCursor (c :: cs) pos) r Q.
Proof. destruct r as [[]| |]; simpl; [|done..]. intros. split; [eapply cursor_advances_cons; naive_solver|naive_solver]. Qed.

Section lexer.
Variable source : text.

Definition within (cur : Cursor) : Prop := advances (mkCursor source 0) cur.

Lemma within_next c cs pos n :
  n = len_utf8 c → within (mkCursor (c :: cs) pos) → within (mkCursor cs (n + pos)).
Proof.
  intros Hn Hw. eapply cursor_advances_trans; [exact Hw|]. eapply cursor_advances_cons; [exact Hn|apply cursor_advances_refl].
Qed.

Lemma skip_trivia_ok n mode cs pos :
  length cs ≤ n → within (mkCursor cs pos) →
  match mode with InBlock start => located source (span_at start) | _ => True end →
  match skip_trivia mode cs pos with
  | Ok cur => advances (mkCursor cs pos) cur
  | Err e => located source (pe_span e)
  | Panic => False
  end.
Proof.
  revert mode cs pos. induction n as [|n IH]; intros mode cs pos Hn Hw Hm;
    (destruct cs as [|c cs]; [destruct mode; simpl; auto with flecs|]); simpl in Hn; [lia|].
  assert (∀ mode' cs' pos', length cs' ≤ n → advances (mkCursor (c :: cs) pos) (mkCursor cs' pos') →
    match mode' with InBlock start => located source (span_at start) | _ => True end →
    match skip_trivia mode' cs' pos' with
    | Ok cur => advances (mkCursor (c :: cs) pos) cur
    | Err e => located source (pe_span e)
    | Panic => False
    end) as Hgo.
  { intros mode' cs' pos' Hl Ha Hm'. specialize (IH mode' cs' pos' Hl (cursor_advances_trans _ _ _ Hw Ha) Hm').
    destruct (skip_trivia mode' cs' pos'); [by eapply cursor_advances_trans|done..]. }
  assert (∀ k, k = len_utf8 c → advances (mkCursor (c :: cs) pos) (mkCursor cs (k + pos))) as H1.
  { intros k Hk. eapply cursor_advances_cons; [exact Hk|apply cursor_advances_refl]. }
  assert (∀ d cs2, cs = d :: cs2 → len_utf8 c = 1 → len_utf8 d = 1 →
    advances (mkCursor (c :: cs) pos) (mkCursor cs2 (2 + pos))) as H2.
  { intros d cs2 -> Hc Hd. apply (cursor_advances_cons _ _ _ _ 1); [done|]. apply (cursor_advances_cons _ _ _ _ 1); [done|apply cursor_advances_refl]. }
  simpl. destruct mode as [| |start].
  - destruct (is_ascii_whitespace c) eqn:Hs.
    { apply Hgo; [lia| |done]. apply (H1 1). unfold is_ascii_whitespace in Hs.
      apply existsb_exists in Hs as (x & Hx & ->%N.eqb_eq). symmetry.
      by repeat (destruct Hx as [<-|Hx]; [done|]). }
    case_decide as Hc; [subst c|apply cursor_advances_refl]. destruct cs as [|d cs2]; [apply cursor_advances_refl|].
    simpl in Hn. case_decide as Hd; [subst d; apply Hgo; [lia|by eapply H2|done]|].
    case_decide; [subst d; apply Hgo; [lia|by eapply H2|apply (advances_at _ _ Hw)]|apply cursor_advances_refl].
  - case_decide as Hc; [subst c|]; (apply Hgo; [lia| |done]); [by apply (H1 1)|by apply H1].
  - destruct cs as [|d cs2]; [apply Hgo; [simpl; lia|by apply H1|done]|].
    simpl in Hn. case_decide as Hcd; (apply Hgo; [simpl; lia| |done]); [|by apply H1].
    destruct Hcd as [-> ->]. by eapply H2.
Qed.

Lemma lex_digits_advances acc cs pos : advances (mkCursor cs pos) (lex_digits acc cs pos).2.
Proof.
  revert acc pos. induction cs as [|c cs IH]; intros acc pos; simpl; [apply cursor_advances_refl|].
  destruct (is_ascii_digit c) eqn:Hd; [|apply cursor_advances_refl].
  apply (cursor_advances_cons _ _ _ _ 1); [|apply IH]. symmetry. apply ascii_len.
  apply in_range_spec in Hd. lia.
Qed.

Lemma string_lexes n start acc cs pos :
  length cs ≤ n → located source (span_at start) →
  lexes source (mkCursor cs pos) (lex_string start acc cs pos)
    (λ t cur, tk_kind t = KStr ∧ tk_span t = mkSpan start (cur_pos cur)).
Proof.
  revert acc cs pos. induction n as [|n IH]; intros acc cs pos Hn Hs;
    (destruct cs as [|c cs]; [done|]); simpl in Hn; [lia|]. simpl.
  case_decide as Hq; [subst c; split; [apply (cursor_advances_cons _ _ _ _ 1); [done|apply cursor_advances_refl]|done]|].
  case_decide as Hb; [subst c|by apply (token_lexes_cons _ _ _ _ (len_utf8 c)); [|apply IH; [lia|]]].
  destruct cs as [|e cs]; [done|]. simpl in Hn.
  apply (token_lexes_cons _ _ _ _ 1); [done|]. apply (token_lexes_cons _ _ _ _ (len_utf8 e)); [done|].
  replace (len_utf8 e + (1 + pos)) with (S (len_utf8 e + pos)) by lia. by apply IH; [lia|].
Qed.

Lemma lex_template_lexes start depth acc cs pos :
  located source (span_at start) → 0 < depth ∨ head cs = Some (ch "<") ∨ cs = [] →
  lexes source (mkCursor cs pos) (lex_template start depth acc cs pos) (λ t _, ∃ r, t = acc ++ r).
Proof.
  revert depth acc pos. induction cs as [|t cs IH]; intros depth acc pos Hs Hd; [done|]. cbn [lex_template].
  assert (∀ d, lexes source (mkCursor (t :: cs) pos)
    (if decide (d = 0) then Ok (acc ++ [t], mkCursor cs (len_utf8 t + pos))
     else lex_template start d (acc ++ [t]) cs (len_utf8 t + pos)) (λ t _, ∃ r, t = acc ++ r)) as Hstep.
  { intros d. apply (token_lexes_cons _ _ _ _ (len_utf8 t)); [done|]. case_decide.
    - split; [apply cursor_advances_refl|eauto].
    - specialize (IH d (acc ++ [t]) (len_utf8 t + pos) Hs ltac:(lia)).
      destruct (lex_template _ _ _ _ _) as [[]| |]; simpl in *; [|done..].
      destruct IH as (? & r & ->). rewrite <- (assoc_L (++)). eauto. }
  case_decide as Ho; [apply (Hstep (S depth))|]. case_decide as Hc; [|apply (Hstep depth)].
  destruct depth as [|d]; [|apply (Hstep d)]. simpl in Hd. destruct Hd as [?|[Hd|?]]; [lia| |done]. subst t. by injection Hd.
Qed.

Lemma lex_ident_loop_lexes n start prev acc cs pos :
  length cs ≤ n → located source (span_at start) → within (mkCursor cs pos) →
  lexes source (mkCursor cs pos) (lex_ident_loop start prev acc cs pos) (λ t _, ∃ r, t = acc ++ r).
Proof.
  assert (∀ (r : outcome ParseError (text * Cursor)) cur acc acc' x, acc' = acc ++ x →
    lexes source cur r (λ t _, ∃ r, t = acc' ++ r) → lexes source cur r (λ t _, ∃ r, t = acc ++ r)) as Hw.
  { intros r cur a a' x ->. destruct r as [[]| |]; simpl; [|done..].
    intros (? & r & ->). rewrite <- (assoc_L (++)). eauto. }
  revert prev acc cs pos. induction n as [|n IH]; intros prev acc cs pos Hn Hs Hcur;
    (destruct cs as [|c cs]; [simpl; split; [apply cursor_advances_refl|exists []; by rewrite app_nil_r]|]);
    simpl in Hn; [lia|].
  assert (lexes source (mkCursor (c :: cs) pos) (Ok (acc, mkCursor (c :: cs) pos)) (λ t _, ∃ r, t = acc ++ r)) as Hstop
    by (split; [apply cursor_advances_refl|exists []; by rewrite app_nil_r]).
  assert (∀ k, k = len_utf8 c → lexes source (mkCursor (c :: cs) pos)
    (lex_ident_loop start c (acc ++ [c]) cs (k + pos)) (λ t _, ∃ r, t = acc ++ r)) as Hpush.
  { intros k Hk. apply (Hw _ _ _ _ [c] eq_refl). apply (token_lexes_cons _ _ _ _ k); [done|].
    apply IH; [lia|done|]. by eapply within_next. }
  cbn [lex_ident_loop]. case_decide as Hdd; [exact Hstop|].
  destruct (is_ident_continue c || bool_decide (c = ch ".")) eqn:Hi.
  { apply (Hpush 1). symmetry. apply ascii_len. apply orb_true_iff in Hi as [Hi|Hi].
    - by apply ident_continue_ascii.
    - by apply bool_decide_eq_true in Hi as ->. }
  destruct (decide (c = ch "\")) as [Hb|Hb].
  { subst c. destruct cs as [|e cs].
    - split; [apply (cursor_advances_cons _ _ _ _ 1); [done|apply cursor_advances_refl]|exists []; by rewrite app_nil_r].
    - simpl in Hn. assert (within (mkCursor (e :: cs) (1 + pos))) as Hw1 by (eapply within_next; [|done]; done).
      apply (token_lexes_cons _ _ _ _ 1); [done|]. apply (token_lexes_cons _ _ _ _ (len_utf8 e)); [done|].
      assert (within (mkCursor cs (len_utf8 e + (1 + pos)))) as Hw2 by (by eapply within_next).
      destruct (decide (e = ch ".")) as [He|He].
      + subst e. apply (Hw _ _ acc _ [ch "\"; ch "."] eq_refl). apply (IH _ _ cs (2 + pos)); [lia|done..].
      + apply (Hw _ _ acc _ [e] eq_refl). rewrite <- Nat.add_assoc.
        replace (1 + (len_utf8 e + pos)) with (len_utf8 e + (1 + pos)) by lia. apply IH; [lia|done..]. }
  destruct (decide (c = ch "*" ∧ prev = ch ".")) as [Hstar|_]; [destruct Hstar as [-> _]; by apply (Hpush 1)|].
  destruct (decide (c = ch "<")) as [Hlt|Hlt].
  { subst c. apply lex_template_lexes; [done|]. right. by left. }
  destruct (decide (c = ch ">")); [simpl; by apply (advances_at source (mkCursor (c :: cs) pos))|exact Hstop].
Qed.

(** What the lexer promises of a token. *)
Definition token_ok (t : Token) : Prop :=
  located source (tk_span t) ∧ (tk_kind t = KIdent → is_word (tk_text t) = true).

Lemma token_lexes c cs pos :
  within (mkCursor (c :: cs) pos) →
  lexes source (mkCursor (c :: cs) pos) (lex_token c cs pos)
    (λ t cur, token_ok t ∧ length (cur_chars cur) ≤ length cs).
Proof.
  intros Hw. assert (located source (span_at pos)) as Hs by apply (advances_at _ _ Hw).
  assert (∀ k, k ≠ KIdent → len_utf8 c = 1 → lexes source (mkCursor (c :: cs) pos) (Ok (punct_width k pos 1 cs))
    (λ t cur, token_ok t ∧ length (cur_chars cur) ≤ length cs)) as Hp1.
  { intros k Hk Hc. assert (advances (mkCursor (c :: cs) pos) (mkCursor cs (1 + pos))) as Ha
      by (apply (cursor_advances_cons _ _ _ _ 1); [done|apply cursor_advances_refl]).
    split; [done|]. split; [|done]. split; [|done]. apply (cursor_advances_located _ _ _ Hw Ha). }
  assert (∀ k d, k ≠ KIdent → len_utf8 c = 1 → head cs = Some d → len_utf8 d = 1 →
    lexes source (mkCursor (c :: cs) pos) (Ok (punct_width k pos 2 (tail cs)))
    (λ t cur, token_ok t ∧ length (cur_chars cur) ≤ length cs)) as Hp2.
  { intros k d Hk Hc Hd Hdl. destruct cs as [|d' cs]; [done|]. simplify_eq/=.
    assert (advances (mkCursor (c :: d :: cs) pos) (mkCursor cs (2 + pos))) as Ha
      by (apply (cursor_advances_cons _ _ _ _ 1); [done|]; apply (cursor_advances_cons _ _ _ _ 1); [done|apply cursor_advances_refl]).
    split; [done|]. split; [|simpl; lia]. split; [|done]. apply (cursor_advances_located _ _ _ Hw Ha). }
  assert (len_utf8 c = 1 → lexes source (mkCursor (c :: cs) pos) (Ok (lex_number c cs pos))
    (λ t cur, token_ok t ∧ length (cur_chars cur) ≤ length cs)) as Hnum.
  { intros Hc. unfold lex_number. pose proof (lex_digits_advances [c] cs (S pos)) as Ha.
    destruct (lex_digits _ _ _) as [t cur].
    simpl in Ha. pose proof (cursor_advances_cons _ _ pos _ 1 (eq_sym Hc) Ha) as Ha'.
    split; [done|]. split; [|by apply cursor_advances_length in Ha]. split; [|done]. apply (cursor_advances_located _ _ _ Hw Ha'). }
  unfold lex_token.
  repeat (case_decide as Hc; [subst c; by apply Hp1|clear Hc]).
  case_decide as Hc; [subst c; case_bool_decide; [by eapply Hp2|by apply Hp1]|clear Hc].
  destruct (bool_decide (c = ch "=") && _) eqn:He.
  { apply andb_true_iff in He as [->%bool_decide_eq_true He%bool_decide_eq_true]. by eapply Hp2. }
  clear He. case_decide as Hc; [subst c; case_bool_decide; [by eapply Hp2|by apply Hp1]|clear Hc].
  destruct (bool_decide (c = ch "~") && _) eqn:Ht.
  { apply andb_true_iff in Ht as [->%bool_decide_eq_true Ht%bool_decide_eq_true]. by eapply Hp2. }
  clear Ht. case_decide as Hq.
  { subst c. pose proof (string_lexes (length cs) pos [] cs (S pos) (le_n _) Hs) as H.
    destruct (lex_string _ _ _ _) as [[t cur]| |]; [|done..]. destruct H as (Ha & Hk & Hsp).
    pose proof (cursor_advances_cons quote cs pos _ 1 eq_refl Ha) as Ha'. split; [done|].
    split; [|by apply cursor_advances_length in Ha]. split; [rewrite Hsp; apply (cursor_advances_located _ _ _ Hw Ha')|congruence]. }
  destruct (bool_decide (c = ch "-") && _) eqn:Hm.
  { apply andb_true_iff in Hm as [->%bool_decide_eq_true _]. by apply Hnum. }
  destruct (is_ascii_digit c) eqn:Hd.
  { apply Hnum, ascii_len. apply in_range_spec in Hd. lia. }
  destruct (is_ident_start c) eqn:Hi; [|done].
  unfold lex_ident. cbn [lex_ident_loop]. assert (is_ident_continue c = true) as Hcc by (unfold is_ident_continue; by rewrite Hi).
  pose proof (ascii_len c (ident_continue_ascii c Hcc)) as Hlen.
  rewrite Hcc, decide_False by (intros [-> _]; discriminate). cbn [orb app].
  pose proof (lex_ident_loop_lexes (length cs) pos c [c] cs (S pos) (le_n _) Hs) as H.
  assert (within (mkCursor cs (S pos))) as Hw' by (by apply (within_next c _ pos 1)).
  specialize (H Hw'). destruct (lex_ident_loop _ _ _ _ _) as [[t cur]| |]; simpl; [|done..].
  destruct H as (Ha & r & ->). pose proof (cursor_advances_cons c cs pos _ 1 (eq_sym Hlen) Ha) as Ha'.
  split; [done|]. split; [|by apply cursor_advances_length in Ha]. split; [apply (cursor_advances_located _ _ _ Hw Ha')|done].
Qed.

(** The tokens [lex] returns end with the end of the expression. *)
Definition token_list (ts : list Token) : Prop :=
  Forall token_ok ts ∧ ∃ t, last ts = Some t ∧ tk_kind t = KEof.

Lemma lex_loop_ok fuel acc cur :
  within cur → length (cur_chars cur) < fuel → Forall token_ok acc →
  match lex_loop fuel acc cur with
  | Ok ts => token_list ts
  | Err e => located source (pe_span e)
  | Panic => False
  end.
Proof.
  revert acc cur. induction fuel as [|fuel IH]; intros acc [cs0 p0] Hw Hf Hacc; [lia|]. simpl.
  pose proof (skip_trivia_ok (length cs0) Between cs0 p0 (le_n _) Hw I) as Hskip.
  destruct (skip_trivia Between cs0 p0) as [[cs p]| |]; simpl; [|done..].
  pose proof (cursor_advances_trans _ _ _ Hw Hskip) as Hw'. apply cursor_advances_length in Hskip. simpl in *.
  destruct cs as [|c cs].
  { split; [|rewrite last_snoc; eauto]. apply Forall_app. split; [done|]. constructor; [|done].
    split; [|done]. apply (advances_at _ _ Hw'). }
  pose proof (token_lexes c cs p Hw') as Ht. destruct (lex_token c cs p) as [[t cur]| |]; simpl; [|done..].
  destruct Ht as (Ha & Hok & Hl). apply IH; [by eapply cursor_advances_trans|simpl in *; lia|].
  apply Forall_app; auto.
Qed.

Lemma lex_ok :
  match lex source with
  | Ok ts => token_list ts
  | Err e => located source (pe_span e)
  | Panic => False
  end.
Proof. apply lex_loop_ok; [apply cursor_advances_refl|simpl; lia|done]. Qed.

End lexer.

(** * Parsing stays in the source and in the grammar *)

Section parser.
Variables (source : text) (ts : list Token).
Hypothesis Hts : token_list source ts.

Definition parsing (ps : Parser) : Prop := ps_tokens ps = ts ∧ ps_index ps < length ts.
Definition current (t : Token) (ps : Parser) : Prop := ts !! ps_index ps = Some t.
Definition at_ (d n : nat) (ps : Parser) : Prop := ps_scope_depth ps = d ∧ n ≤ ps_index ps.

(** From a state in [P], [m] does not panic, ends in [Q], and its errors are
    located in the source. *)
Definition triple {A} (P : Parser → Prop) (m : parser A) (Q : A → Parser → Prop) : Prop :=
  ∀ ps, parsing ps → P ps →
  match m ps with
  | Ok (a, ps') => parsing ps' ∧ Q a ps'
  | Err e => located source (pe_span e)
  | Panic => False
  end.

Lemma triple_bind {A B} P (m : parser A) Q1 (k : A → parser B) Q2 :
  triple P m Q1 → (∀ a, triple (Q1 a) (k a) Q2) → triple P (m ≫= k) Q2.
Proof.
  intros Hm Hk ps Hps HP. specialize (Hm ps Hps HP). unfold mbind, parser_bind.
  destruct (m ps) as [[a ps']| |]; [|done..]. destruct Hm as [Hps' HQ]. by apply Hk.
Qed.

Lemma triple_ret {A} (P : Parser → Prop) (a : A) (Q : A → Parser → Prop) : (∀ ps, P ps → Q a ps) → triple P (mret a) Q.
Proof. intros HQ ps Hps HP. split; [done|auto]. Qed.

Lemma triple_pre {A} (P P' : Parser → Prop) (m : parser A) Q :
  (∀ ps, P ps → P' ps) → triple P' m Q → triple P m Q.
Proof. intros HP Hm ps Hps H. apply Hm; auto. Qed.

Lemma triple_post {A} P (m : parser A) (Q Q' : A → Parser → Prop) :
  (∀ a ps, Q a ps → Q' a ps) → triple P m Q → triple P m Q'.
Proof.
  intros HQ Hm ps Hps HP. specialize (Hm ps Hps HP). destruct (m ps) as [[]| |]; [|done..]. naive_solver.
Qed.

Lemma triple_fact {A} (F : Prop) P (m : parser A) Q : (F → triple P m Q) → triple (λ ps, F ∧ P ps) m Q.
Proof. intros H ps Hps [HF HP]. by apply H. Qed.

(** [let '(a, b) ← ..]. *)
Lemma triple_err {A} P msg sp (Q : A → Parser → Prop) : located source sp → triple P (lift (error msg sp)) Q.
Proof. by intros Hsp ps Hps _. Qed.

Lemma triple_unexpected {A} P t what (Q : A → Parser → Prop) : token_ok source t → triple P (lift (unexpected t what)) Q.
Proof. intros [Hsp _] ps Hps _. done. Qed.

Lemma triple_lift {A} P (m : outcome ParseError A) (F : A → Prop) (Q : A → Parser → Prop) :
  ends m F (λ e, located source (pe_span e)) → (∀ a ps, F a → P ps → Q a ps) → triple P (lift m) Q.
Proof. intros Hm HQ ps Hps HP. unfold lift. destruct m; simpl in *; [split; auto|done..]. Qed.

Lemma current_exists ps : parsing ps → ∃ t, current t ps ∧ token_ok source t.
Proof.
  intros [_ Hlt]. destruct (lookup_lt_is_Some_2 ts _ Hlt) as [t Ht]. exists t. split; [done|].
  destruct Hts as [Hall _]. rewrite Forall_forall in Hall. eapply Hall, list_elem_of_lookup_2, Ht.
Qed.

Lemma current_not_last t ps : parsing ps → current t ps → tk_kind t ≠ KEof → ps_index ps + 1 < length ts.
Proof.
  intros [_ Hlt] Ht Hk. destruct Hts as (_ & t' & Hl & Hk'). rewrite last_lookup in Hl.
  assert (ps_index ps ≠ pred (length ts)); [|lia]. intros He. unfold current in Ht. congruence.
Qed.

Lemma triple_peek {A} P (k : Token → parser A) Q :
  (∀ t, token_ok source t → triple (λ ps, P ps ∧ current t ps) (k t) Q) → triple P (peek ≫= k) Q.
Proof.
  intros Hk ps Hps HP. destruct (current_exists ps Hps) as (t & Ht & Hok).
  unfold mbind, parser_bind, peek. destruct Hps as [Heq Hlt]. rewrite Heq. unfold current in Ht.
  rewrite Ht. simpl. by apply Hk.
Qed.

(** The position after a token. *)
Definition past (t : Token) (n : nat) : nat := if decide (tk_kind t = KEof) then n else S n.

Lemma triple_bump_at {A} d n t (k : Token → parser A) Q :
  triple (at_ d (past t n)) (k t) Q → triple (λ ps, at_ d n ps ∧ current t ps) (bump ≫= k) Q.
Proof.
  intros Hk ps Hps [[Hd Hn] Ht]. pose proof (current_not_last t ps Hps Ht) as Hl.
  destruct Hps as [Heq Hlt]. unfold mbind, parser_bind, bump. rewrite Heq. unfold current in Ht. rewrite Ht.
  cbn [unwrap mbind outcome_bind]. apply Hk.
  - split; [done|]. cbn [ps_index]. case_decide; lia.
  - split; [done|]. cbn [ps_index]. unfold past. case_decide; case_decide; try lia. specialize (Hl ltac:(done)). lia.
Qed.

Lemma triple_bump {A} d n (k : Token → parser A) Q :
  (∀ t, token_ok source t → triple (at_ d (past t n)) (k t) Q) → triple (at_ d n) (bump ≫= k) Q.
Proof.
  intros Hk ps Hps Hat. destruct (current_exists ps Hps) as (t & Ht & Hok).
  by apply (triple_bump_at d n t k Q (Hk t Hok)).
Qed.

Lemma past_ge t n : n ≤ past t n.
Proof. unfold past. case_decide; lia. Qed.

Lemma past_kind t n : tk_kind t ≠ KEof → past t n = S n.
Proof. intros. unfold past. by rewrite decide_False. Qed.

Lemma triple_weaken {A} d n n' (m : parser A) Q : n' ≤ n → triple (at_ d n') m Q → triple (at_ d n) m Q.
Proof. intros Hle. apply triple_pre. intros ps [? ?]. split; [done|lia]. Qed.

Lemma triple_expect {A} d n kind what (k : Token → parser A) Q :
  kind ≠ KEof →
  (∀ t, token_ok source t → tk_kind t = kind → triple (at_ d (S n)) (k t) Q) →
  triple (at_ d n) (expect kind what ≫= k) Q.
Proof.
  intros Hkind Hk. eapply (triple_bind _ _ (λ t ps, (token_ok source t ∧ tk_kind t = kind) ∧ at_ d (S n) ps)).
  - apply triple_bump. intros t Ht. destruct (decide (tk_kind t = kind)) as [He|].
    + apply triple_ret. intros ps Hps. split; [done|]. rewrite past_kind in Hps by congruence. done.
    + by apply triple_unexpected.
  - intros t. apply triple_fact. intros [? ?]. auto.
Qed.

(** Where [token_ok] tokens have a word. *)
Lemma set_flag_ok word t :
  token_ok source word → traversal_ok t = true ∨ t = Traversal_default →
  ends (set_flag word t) (λ t', traversal_ok t' = true ∧ tv_rel t' = tv_rel t) (λ e, located source (pe_span e)).
Proof.
  intros [Hsp _] Ht. unfold set_flag.
  repeat (case_decide; [simpl; unfold traversal_ok in *; simpl; destruct Ht as [Ht| ->];
    [apply andb_true_iff in Ht as [_ ->]; rewrite ?orb_true_r; done|done]|]). done.
Qed.

Lemma triple_traversal_loop fuel d n t :
  length ts ≤ n + fuel → (traversal_ok t = true ∨ t = Traversal_default) → tv_rel t = None →
  triple (at_ d n) (traversal_loop fuel t) (λ t ps, traversal_ok t = true ∧ at_ d (S n) ps).
Proof.
  revert n t. induction fuel as [|fuel IH]; intros n t Hf Ht Hr.
  { intros ps [_ ?] [_ ?]. lia. }
  cbn [traversal_loop]. apply triple_expect; [done|]. intros word Hword _.
  eapply (triple_bind _ _ (λ t' ps, (traversal_ok t' = true ∧ tv_rel t' = None) ∧ at_ d (S n) ps)).
  { eapply triple_lift; [by apply set_flag_ok|]. intros t' ps [? ->]. done. }
  intros t'. apply triple_fact. intros [Ht' Hr']. apply triple_peek. intros next Hnext.
  destruct (tk_kind next) eqn:Hk; try (apply triple_ret; by intros ps [? ?]).
  - destruct (is_traversal_flag (tk_text next)) eqn:Hf'; [apply triple_ret; by intros ps [? ?]|].
    apply triple_bump_at, triple_ret. intros ps Hps. rewrite past_kind in Hps by congruence.
    split; [|destruct Hps; split; [done|lia]].
    unfold traversal_ok in *. simpl. rewrite Hf'. destruct Hnext as [_ ->]; [|done].
    apply andb_true_iff in Ht' as [-> _]. done.
  - apply triple_bump_at. rewrite past_kind by congruence. eapply triple_post, IH; [|lia|by left|done].
    intros a ps [? [? ?]]. split; [done|]. split; [done|lia].
Qed.

Lemma triple_traversal fuel d n :
  length ts ≤ n + fuel →
  triple (at_ d n) (traversal fuel) (λ t ps, traversal_ok t = true ∧ at_ d (S n) ps).
Proof. intros. apply triple_traversal_loop; auto. Qed.

Lemma triple_pipe_traversal fuel d n :
  length ts ≤ n + fuel →
  triple (at_ d n) (pipe_traversal fuel) (λ t ps, opt_ok traversal_ok t = true ∧ at_ d n ps).
Proof.
  intros Hf. apply triple_peek. intros next Hnext. case_decide as Hk.
  - apply triple_bump_at. rewrite past_kind by congruence. eapply triple_bind; [apply triple_traversal; lia|].
    intros t. apply triple_ret. intros ps [? [? ?]]. split; [done|]. split; [done|lia].
  - apply triple_ret. by intros ps [? ?].
Qed.

(** ** Operands *)

Lemma entity_id_ok digits sp :
  located source sp → ends (entity_id digits sp) (λ e, operand_ok e = true ∧ ∀ w, e ≠ RName w) (λ e, located source (pe_span e)).
Proof.
  intros Hsp. unfold entity_id, parse_u64. destruct (decide _); [done|].
  destruct (forallb _ _); [|done]. set (z := digits_value _). clearbody z.
  case_decide as Hlt; [|done]. split; [|done]. apply bool_decide_eq_true.
  change (2 ^ 64)%N with 18446744073709551616%N. change (2 ^ 64)%Z with 18446744073709551616%Z in Hlt. lia.
Qed.

Lemma classify_ok t :
  token_ok source t →
  ends (classify t) (λ e, operand_ok e = true ∧ ∀ w, e = RName w → tk_kind t = KIdent ∧ tk_text t = w)
    (λ e, located source (pe_span e)).
Proof.
  intros [Hsp Hword]. unfold classify.
  assert (∀ digits, ends (entity_id digits (tk_span t))
    (λ e, operand_ok e = true ∧ ∀ w, e = RName w → tk_kind t = KIdent ∧ tk_text t = w) (λ e, located source (pe_span e))) as He.
  { intros digits. eapply ends_weaken; [by apply entity_id_ok| |done]. naive_solver. }
  destruct (tk_kind t) eqn:Hk; simpl; try done.
  specialize (Hword eq_refl). destruct (tk_text t) as [|c rest] eqn:Htext; [done|].
  case_decide as Hthis; [done|]. case_decide as Hany; [done|]. case_decide as Hd.
  { subst c. simpl. split; [|done]. apply negb_true_iff, bool_decide_eq_false. intros ->. by apply Hthis. }
  case_decide as Hh; [apply He|]. split; [|naive_solver].
  cbn [is_word operand_ok is_name] in *. unfold is_ident_start in Hword.
  apply andb_true_iff. split; [|by apply negb_true_iff, bool_decide_eq_false].
  apply orb_true_iff in Hword as [->|Hc%bool_decide_eq_true]; [done|].
  destruct Hc as [->|[?|?]]; [by rewrite orb_true_r|done..].
Qed.

Lemma triple_classify {A} d n t (k : RefExpr → parser A) Q :
  token_ok source t →
  (∀ e, operand_ok e = true → (∀ w, e = RName w → tk_kind t = KIdent ∧ tk_text t = w) → triple (at_ d n) (k e) Q) →
  triple (at_ d n) (lift (classify t) ≫= k) Q.
Proof.
  intros Ht Hk. eapply (triple_bind _ _ (λ e ps, (operand_ok e = true ∧ ∀ w, e = RName w → tk_kind t = KIdent ∧ tk_text t = w) ∧ at_ d n ps)).
  - eapply triple_lift; [by apply classify_ok|]. naive_solver.
  - intros e. apply triple_fact. intros [? ?]. auto.
Qed.

Lemma triple_arg_ref fuel d n :
  length ts ≤ n + fuel →
  triple (at_ d n) (arg_ref fuel) (λ r ps, arg_ok r = true ∧ at_ d (S n) ps).
Proof.
  intros Hf. apply triple_peek. intros t Ht. destruct (decide (tk_kind t = KIdent ∧ _)) as [_|Hflag].
  { eapply triple_pre; [intros ps [H _]; exact H|].
    eapply triple_bind; [by apply triple_traversal|]. intros tv. apply triple_ret. by intros ps [? ?]. }
  destruct (decide (tk_kind t = KAt)) as [Hat|].
  { apply triple_bump_at. rewrite past_kind by congruence. apply triple_bump. intros inner Hi.
    destruct (is_operand _); [|by apply triple_unexpected].
    apply triple_classify; [done|]. intros e He _. apply triple_ret. intros ps [? Hle]. split; [done|].
    split; [done|]. pose proof (past_ge inner (S n)). lia. }
  destruct (is_operand (tk_kind t)) eqn:Ho; [|by apply triple_unexpected].
  apply triple_bump_at. rewrite past_kind by (intros He; by rewrite He in Ho).
  apply triple_classify; [done|]. intros e He Hname.
  eapply triple_bind; [apply triple_pipe_traversal; lia|]. intros tv. apply triple_ret. intros ps [Htv ?].
  split; [|done]. unfold arg_ok. simpl.
  assert (is_flag_name e = false) as Hnf.
  { destruct e; try done. simpl. destruct (Hname _ eq_refl) as [Hk <-]. apply not_true_is_false. naive_solver. }
  destruct e; simpl in *; try done; rewrite ?He, ?Hnf, Htv; done.
Qed.

(** ** Arguments and term bodies *)

(** What [arg_list] has collected before argument [index]. *)
Definition collected (first : Ref) (pair : bool) (index : nat) (id : IdTerm) : Prop :=
  id_flag id = None ∧ id_first id = first ∧
  match id_src id with
  | SImplicit => pair = true ∨ index = 0
  | SEmpty => False
  | SExplicit r => pair = false ∧ arg_ok r = true ∧ 0 < index
  end ∧
  match id_second id with
  | None => index ≤ 1 ∧ id_extra id = [] ∧ (index = 0 → id_extra_oper id = XAnd)
  | Some second => 2 ≤ index ∧ arg_ok second = true ∧ forallb arg_ok (id_extra id) = true ∧
                   length (id_extra id) = index - 2
  end.

(** A finished component or pair term. *)
Definition finished (first : Ref) (pair : bool) (id : IdTerm) : Prop :=
  id_flag id = None ∧ id_first id = first ∧ is_pair id = pair ∧ id_ok id = true.

Lemma component_finished first : first_ok first = true → finished first false (component first).
Proof. intros H. unfold finished, id_ok. simpl. by rewrite H. Qed.

(** One more argument: the last one, or one before the next. *)
Lemma set_arg_finished first pair index r id :
  first_ok first = true → arg_ok r = true → index ≤ TERM_ARG_COUNT_MAX → (pair = true → 0 < index) →
  collected first pair index id → finished first pair (set_arg index r id).
Proof.
  intros Hf Hr Hi Hp (Hflag & Hfirst & Hsrc & Hsec). destruct id as [flag f src second extra oper]. simpl in *. subst.
  unfold finished, id_ok, targets_ok, is_pair, TERM_ARG_COUNT_MAX in *.
  destruct index as [|[|index]]; simpl.
  - destruct second; [lia|]. destruct Hsec as (_ & -> & Ho). rewrite Hf, Hr, Ho by done. simpl.
    destruct src as [| |r']; [|done|lia]. destruct Hsrc as [->|_]; [lia|].
    split_and!; try done. destruct pair; [|done]. specialize (Hp eq_refl). lia.
  - destruct second; [lia|]. destruct Hsec as (_ & -> & _). rewrite Hf, Hr. simpl.
    destruct src as [| |r']; simpl in *; [|done|]; [by destruct Hsrc as [->|?]|]. by destruct Hsrc as (-> & -> & _).
  - destruct second as [second|]; [|lia]. destruct Hsec as (_ & Hs & Hx & Hl).
    rewrite forallb_app, Hx, Hs, Hf. simpl. rewrite Hr, length_app, Hl. simpl.
    rewrite bool_decide_eq_true_2 by lia.
    destruct src as [| |r']; simpl in *; [|done|]; [by destruct Hsrc as [->|?]|]. by destruct Hsrc as (-> & -> & _).
Qed.

Lemma set_arg_collected first pair index r id oper :
  arg_ok r = true → (pair = true → 0 < index) →
  collected first pair index id → collected first pair (S index) (set_extra_oper oper (set_arg index r id)).
Proof.
  intros Hr Hp (Hflag & Hfirst & Hsrc & Hsec). destruct id as [flag f src second extra o]. simpl in *. subst.
  unfold collected. destruct index as [|[|index]]; simpl.
  - destruct second; [lia|]. destruct Hsec as (_ & -> & _). split_and!; try done; try lia.
    destruct pair; [|done]. specialize (Hp eq_refl). lia.
  - destruct second; [lia|]. destruct Hsec as (_ & -> & _). split_and!; try done; try lia.
    destruct src; naive_solver lia.
  - destruct second as [second|]; [|lia]. destruct Hsec as (_ & Hs & Hx & Hl).
    rewrite forallb_app, Hx, length_app, Hl. simpl. rewrite Hr. split_and!; try done; try lia.
    destruct src; naive_solver lia.
Qed.

Lemma triple_arg_list fuel d n first pair index id :
  length ts ≤ n + fuel → first_ok first = true → (pair = true → 0 < index) → collected first pair index id →
  triple (at_ d n) (arg_list fuel id index) (λ id ps, finished first pair id ∧ at_ d n ps).
Proof.
  revert n index id. induction fuel as [|fuel IH]; intros n index id Hf Hfirst Hp Hid.
  { intros ps [_ ?] [_ ?]. lia. }
  cbn [arg_list]. destruct (decide (TERM_ARG_COUNT_MAX < index)) as [|Hmax].
  { apply triple_peek. intros t Ht. apply triple_err, Ht. }
  eapply triple_bind; [by apply triple_arg_ref|]. intros r. apply triple_fact. intros Hr.
  apply triple_bump. intros sep Hsep.
  assert (∀ oper : ExtraOper, triple (at_ d (past sep (S n)))
    (if decide (1 < index ∧ id_extra_oper (set_arg index r id) ≠ oper)
     then lift (error "cannot mix operators in extra term arguments" (tk_span sep))
     else arg_list fuel (set_extra_oper oper (set_arg index r id)) (S index))
    (λ id ps, finished first pair id ∧ at_ d n ps)) as Hcont.
  { intros oper. destruct (decide _); [apply triple_err, Hsep|].
    eapply triple_weaken; [apply past_ge|]. eapply triple_post, IH; [|lia|done|lia|by apply set_arg_collected].
    intros a ps [? [? ?]]. split; [done|]. split; [done|lia]. }
  destruct (tk_kind sep); try (by apply triple_unexpected); try apply Hcont.
  apply triple_ret. intros ps [? Hle]. split; [by apply set_arg_finished; [| |lia| |]|].
  split; [done|]. pose proof (past_ge sep (S n)). lia.
Qed.

Definition is_finished (first : Ref) (pair : bool) (b : TermBody) : Prop :=
  match b with BId id => finished first pair id | _ => False end.

Lemma triple_args fuel d n first :
  length ts ≤ n + fuel → first_ok first = true →
  triple (at_ d n) (args fuel first) (λ b ps, is_finished first false b ∧ at_ d n ps).
Proof.
  intros Hf Hfirst. apply triple_peek. intros t Ht. case_decide as Hk.
  - apply triple_bump_at, triple_ret. intros ps [? Hle]. split.
    + unfold is_finished, finished, id_ok. simpl. by rewrite Hfirst.
    + pose proof (past_ge t n). split; [done|lia].
  - eapply triple_pre; [intros ps [H _]; exact H|].
    eapply triple_bind; [eapply (triple_arg_list _ _ _ first false); [done..|]|].
    + unfold collected. simpl. split_and!; auto.
    + intros id. apply triple_ret. by intros ps [? ?].
Qed.

Lemma triple_pair_body fuel d n :
  length ts ≤ n + fuel →
  triple (at_ d n) (pair_body fuel) (λ b ps, (∃ first, is_finished first true b) ∧ at_ d n ps).
Proof.
  intros Hf. apply triple_bump. intros t Ht. destruct (is_operand _) eqn:Ho; [|by apply triple_unexpected].
  rewrite past_kind by (intros He; by rewrite He in Ho).
  apply triple_classify; [done|]. intros e He _.
  eapply triple_bind; [apply triple_pipe_traversal; lia|]. intros tv. apply triple_fact. intros Htv.
  apply triple_expect; [done|]. intros _ _ _.
  assert (first_ok (mkRef e tv) = true) as Hfirst by (unfold first_ok; simpl; by rewrite He, Htv).
  eapply triple_bind; [eapply (triple_arg_list _ _ _ (mkRef e tv) true); [lia|done|lia|]|].
  - unfold collected. simpl. split_and!; auto.
  - intros id. apply triple_ret. intros ps [? [? ?]]. split; [by exists (mkRef e tv)|]. split; [done|lia].
Qed.

(** What follows the first reference of a term. *)
Definition body_ok (first : RefExpr) (oper : Oper) (r : TermBody * Oper) : Prop :=
  match r.1 with
  | BId id => r.2 = oper ∧ is_finished (id_first id) false r.1 ∧ rf_expr (id_first id) = first
  | BEq e => oper = OAnd ∧ r.2 ≠ OOr ∧ eq_term_ok r.2 e = true
  | BScope _ => False
  end.

Lemma finished_body first tv b oper :
  is_finished (mkRef first tv) false b → body_ok first oper (b, oper).
Proof.
  destruct b as [id| |]; simpl; [|done..]. intros H. unfold body_ok. simpl.
  destruct H as (? & Hf & ? & ?). rewrite Hf. done.
Qed.

Lemma triple_eq_body left op negate d n oper :
  operand_ok left = true → (op = EqMatch → negate = false) →
  triple (at_ d n) (eq_body left op negate oper) (λ r ps, body_ok left oper r ∧ at_ d n ps).
Proof.
  intros Hleft Hneg. unfold eq_body. destruct (decide (oper = OAnd)) as [->|]; [|apply triple_peek; intros t Ht; apply triple_err, Ht].
  eapply (triple_bind _ _ (λ r ps, eq_term_ok (if (r.2 : bool) then ONot else OAnd) (mkEqTerm left op r.1) = true ∧ at_ d n ps)).
  - apply triple_bump. intros t Ht. assert (∀ ps, at_ d (past t n) ps → at_ d n ps) as Hat.
    { intros ps [? ?]. split; [done|]. pose proof (past_ge t n). lia. }
    destruct (is_operand _).
    + apply triple_classify; [done|]. intros e He _. apply triple_ret. intros ps Hps. split; [|auto].
      unfold eq_term_ok. simpl. rewrite Hleft, He. destruct op; [by destruct negate|by rewrite Hneg].
    + case_decide; [|by apply triple_unexpected].
      assert (∀ w : text, op ≠ EqMatch ∨ head w ≠ Some (ch "!") →
        eq_term_ok (if negate then ONot else OAnd) (mkEqTerm left op (EqName w)) = true) as Hname.
      { intros w Hw. unfold eq_term_ok. simpl. rewrite Hleft, bool_decide_eq_true_2 by (destruct negate; auto).
        simpl. apply negb_true_iff, bool_decide_eq_false. naive_solver. }
      destruct op; [apply triple_ret; intros ps Hps; split; [apply Hname; by left|auto]|].
      destruct (tk_text t) as [|c w]; [apply triple_ret; intros ps Hps; split; [apply Hname; by right|auto]|].
      case_decide as Hc; apply triple_ret; intros ps Hps; (split; [|auto]); [|simpl; apply Hname; naive_solver].
      unfold eq_term_ok. simpl. by rewrite Hleft.
  - intros [operand neg]. apply triple_ret. intros ps [? ?]. split; [|done]. by destruct neg.
Qed.

Lemma triple_id_body fuel d n first oper :
  length ts ≤ n + fuel → operand_ok first = true →
  triple (at_ d n) (id_body fuel first oper) (λ r ps, body_ok first oper r ∧ at_ d n ps).
Proof.
  intros Hf Hfirst. apply triple_peek. intros t Ht.
  assert (first_ok (plain first) = true) as Hplain by (unfold first_ok; simpl; by rewrite Hfirst).
  assert (∀ op negate, (op = EqMatch → negate = false) → triple (λ ps, at_ d n ps ∧ current t ps)
    (_ ← bump; eq_body first op negate oper) (λ r ps, body_ok first oper r ∧ at_ d n ps)) as Heq.
  { intros op negate Hn. apply triple_bump_at. eapply triple_weaken; [apply past_ge|]. by apply triple_eq_body. }
  destruct (tk_kind t) eqn:Hk;
    try (apply triple_ret; intros ps [? _]; split; [by eapply finished_body, component_finished|done]);
    try (by apply Heq).
  - apply triple_bump_at. rewrite past_kind by congruence.
    eapply triple_bind; [eapply triple_weaken, (triple_args _ d n); [lia|done..]|].
    intros b. apply triple_ret. intros ps [? ?]. split; [by eapply finished_body|done].
  - apply triple_bump_at. rewrite past_kind by congruence.
    eapply triple_bind; [apply triple_traversal; lia|]. intros tv. apply triple_fact. intros Htv.
    assert (first_ok (mkRef first (Some tv)) = true) as Hfv by (unfold first_ok; simpl; by rewrite Hfirst, Htv).
    apply triple_peek. intros next Hnext. case_decide.
    + apply triple_bump_at. rewrite past_kind by congruence.
      eapply triple_bind; [eapply triple_weaken, (triple_args _ d n); [lia|done..]|].
      intros b. apply triple_ret. intros ps [? ?]. split; [by eapply finished_body|done].
    + apply triple_ret. intros ps [[? ?] _]. split; [by eapply finished_body, component_finished|split; [done|lia]].
Qed.

(** ** Terms *)

Definition term_done (d n : nat) (a : option Access) (r : TermBody * Oper) (ps : Parser) : Prop :=
  (r.2 ≠ OOr ∧ term_ok (SCOPE_DEPTH_MAX - d) (mkTerm a r.2 r.1) = true) ∧ at_ d n ps.

Lemma body_term D a first oper r :
  body_ok first oper r → oper ≠ OOr → (oper = OAnd → is_keyword first = false) →
  r.2 ≠ OOr ∧ term_ok D (mkTerm a r.2 r.1) = true.
Proof.
  destruct r as [b o]. unfold body_ok. simpl. destruct b as [id|e|]; [|intros (_ & ? & ?) _ _; by destruct D|done].
  intros (-> & (Hflag & _ & _ & Hok) & Hfirst) Ho Hkw. split; [done|].
  assert (id_term_ok oper id = true) as H; [|by destruct D].
  unfold id_term_ok. rewrite Hok, Hflag, Hfirst. destruct (decide (oper = OAnd)) as [->|].
  - rewrite Hkw by done. by rewrite orb_true_r.
  - unfold plain_oper. by rewrite bool_decide_eq_false_2 by naive_solver.
Qed.

Lemma pair_term D a first oper b :
  is_finished first true b → oper ≠ OOr → oper ≠ OOr ∧ term_ok D (mkTerm a oper b) = true.
Proof.
  destruct b as [id| |]; simpl; [|done..]. intros (Hflag & _ & Hpair & Hok) Ho. split; [done|].
  assert (id_term_ok oper id = true) as H; [|by destruct D].
  unfold id_term_ok. by rewrite Hok, Hflag, Hpair, orb_true_r.
Qed.

(** The term body after a keyword, with its flag or operator. *)
Lemma flagged_term D a flag oper b o first :
  (flag = None → plain_oper oper = false) → (flag ≠ None → oper = OAnd) →
  (∃ pair, is_finished (id_first first) pair b ∧ o = oper) ∨ body_ok (rf_expr (id_first first)) oper (b, o) →
  o ≠ OOr ∧ term_ok D (mkTerm a o (set_id_flag flag b)) = true.
Proof.
  intros Hn Hs Hb. assert (oper ≠ OOr) as Ho.
  { intros ->. destruct flag; [by specialize (Hs ltac:(done))|by specialize (Hn eq_refl)]. }
  assert (∀ f pair id, b = BId id → finished f pair id → o = oper → o ≠ OOr ∧ term_ok D (mkTerm a o (set_id_flag flag b)) = true) as Hid.
  { intros f pair id -> (_ & _ & _ & Hok) ->. split; [done|].
    destruct id as [fl fi src second extra xo].
    assert (id_term_ok oper (mkIdTerm flag fi src second extra xo) = true) as H; [|by destruct D].
    unfold id_term_ok.
    change (id_ok (mkIdTerm flag fi src second extra xo)) with (id_ok (mkIdTerm fl fi src second extra xo)).
    rewrite Hok. destruct flag; cbn [id_flag]; [by rewrite Hs|by rewrite Hn]. }
  destruct Hb as [(pair & Hb & ->)|Hb]; [destruct b; [by eapply Hid|done..]|].
  destruct b as [id|e|]; unfold body_ok in Hb; simpl in Hb.
  - destruct Hb as (-> & Hfin & _). by eapply Hid.
  - destruct Hb as (_ & ? & ?). by destruct D.
  - done.
Qed.

Lemma triple_ref_expr {A} d n t (k : RefExpr → parser A) Q :
  token_ok source t →
  (∀ e, operand_ok e = true → (∀ w, e = RName w → tk_kind t = KIdent ∧ tk_text t = w) →
        is_operand (tk_kind t) = true → triple (at_ d (S n)) (k e) Q) →
  triple (λ ps, at_ d n ps ∧ current t ps) (ref_expr ≫= k) Q.
Proof.
  intros Ht Hk. eapply (triple_bind _ _ (λ e ps, (operand_ok e = true ∧ (∀ w, e = RName w → tk_kind t = KIdent ∧ tk_text t = w) ∧
    is_operand (tk_kind t) = true) ∧ at_ d (S n) ps)).
  - apply triple_bump_at. destruct (is_operand (tk_kind t)) eqn:Ho.
    + rewrite past_kind by (intros He; by rewrite He in Ho).
      eapply triple_lift; [by apply classify_ok|]. intros e ps [? ?] ?. auto.
    + unfold classify. destruct (tk_kind t); try done; apply triple_err, Ht.
  - intros e. apply triple_fact. intros (? & ? & ?). auto.
Qed.

Lemma triple_keyword_operand fuel d n a flag oper :
  length ts ≤ n + fuel → (flag = None → plain_oper oper = false) → (flag ≠ None → oper = OAnd) →
  triple (at_ d n) (keyword_operand fuel flag oper) (term_done d n a).
Proof.
  intros Hf Hn Hs. apply triple_peek. intros t Ht.
  eapply (triple_bind _ _ (λ r ps, (∃ first, (∃ pair, is_finished (id_first first) pair r.1 ∧ r.2 = oper) ∨
    body_ok (rf_expr (id_first first)) oper r) ∧ at_ d n ps)).
  - case_decide.
    + apply triple_bump_at. rewrite past_kind by congruence.
      eapply triple_bind; [apply triple_pair_body; lia|]. intros b. apply triple_fact. intros [first Hb].
      apply triple_ret. intros ps [? ?]. split; [exists (component first); left; by exists true|split; [done|lia]].
    + apply triple_ref_expr; [done|]. intros e He _ _.
      eapply triple_post, triple_id_body; [|lia|done]. intros r ps [? [? ?]].
      split; [exists (component (plain e)); by right|split; [done|lia]].
  - intros [b o]. apply triple_fact. intros [first Hb]. apply triple_ret. intros ps Hps.
    split; [|done]. by eapply flagged_term.
Qed.

Lemma keyword_of_oper w k o : keyword_of w = Some k → k = KwOper o → plain_oper o = false.
Proof. unfold keyword_of. intros H ->. repeat case_decide; by simplify_eq. Qed.

Lemma triple_keyword d n t :
  triple (λ ps, at_ d n ps ∧ current t ps) keyword (λ k ps,
    match k with
    | Some k => (∀ o, k = KwOper o → plain_oper o = false) ∧ at_ d (S n) ps
    | None => (tk_kind t = KIdent → keyword_of (tk_text t) = None) ∧ at_ d n ps ∧ current t ps
    end).
Proof.
  apply triple_peek. intros t' Ht'. eapply triple_pre with (P' := λ ps, t' = t ∧ at_ d n ps ∧ current t ps).
  { intros ps [[? Hc] Hc']. unfold current in *. split; [congruence|done]. }
  apply triple_fact. intros ->. case_decide as Hk; [|apply triple_ret; by intros ps [? ?]].
  destruct (keyword_of _) eqn:Hkw; [|apply triple_ret; by intros ps [? ?]].
  apply triple_bump_at. rewrite past_kind by congruence. apply triple_expect; [done|]. intros _ _ _.
  apply triple_ret. intros ps [? ?]. split; [intros o; by eapply keyword_of_oper|]. split; [done|lia].
Qed.

Lemma triple_access d n : triple (at_ d n) access (λ _, at_ d n).
Proof.
  apply triple_peek. intros t Ht. case_decide; [|apply triple_ret; by intros ps [? ?]].
  apply triple_bump_at. eapply triple_weaken; [apply past_ge|]. apply triple_expect; [done|]. intros word Hw _.
  eapply (triple_bind _ _ (λ _, at_ d n)).
  - eapply (triple_lift _ _ (λ _, True)); [|intros a ps _ [? ?]; split; [done|lia]].
    unfold access_of. repeat (case_decide; [done|]). apply Hw.
  - intros a. apply triple_expect; [done|]. intros _ _ _. apply triple_ret. intros ps [? ?]. split; [done|lia].
Qed.

Lemma triple_oper_prefix d n :
  triple (at_ d n) oper_prefix (λ o ps, (o = OAnd ∨ o = ONot ∨ o = OOptional) ∧ at_ d n ps).
Proof.
  apply triple_peek. intros t Ht.
  destruct (tk_kind t); try (apply triple_ret; intros ps [? _]; auto);
    apply triple_bump_at; (eapply triple_weaken; [apply past_ge|]); apply triple_ret; auto.
Qed.

(** The bracketed scope of a term. *)
Definition scope_body (scope : parser (list Term)) (oper : Oper) : parser (TermBody * Oper) :=
  brace ← bump;
  depth ← depth_add;
  if decide (SCOPE_DEPTH_MAX < depth) then
    lift (error ("scopes nested deeper than " +:+ pretty SCOPE_DEPTH_MAX) (tk_span brace))
  else inner ← scope; _ ← depth_sub; mret (BScope inner, oper).

Lemma triple_scope d n t scope oper :
  token_ok source t → tk_kind t = KLBrace → (oper = OAnd ∨ oper = ONot ∨ oper = OOptional) →
  (S d ≤ SCOPE_DEPTH_MAX →
   triple (at_ (S d) (S n)) scope (λ q ps, terms_ok (SCOPE_DEPTH_MAX - S d) q = true ∧ at_ (S d) (S n) ps)) →
  triple (λ ps, at_ d n ps ∧ current t ps) (scope_body scope oper) (term_done d (S n) None).
Proof.
  intros Ht Hk Ho Hscope. apply triple_bump_at. rewrite past_kind by congruence.
  eapply (triple_bind _ _ (λ depth ps, depth = S d ∧ at_ (S d) (S n) ps)).
  { intros ps [? ?] [<- ?]. split; [done|]. split; [done|]. by split. }
  intros depth. apply triple_fact. intros ->. destruct (decide _) as [|Hd]; [apply triple_err, Ht|].
  eapply triple_bind; [apply Hscope; lia|]. intros inner. apply triple_fact. intros Hq.
  eapply (triple_bind _ _ (λ _, at_ d (S n))).
  - intros ps [? ?] [Hdep ?]. unfold depth_sub. rewrite Hdep. split; [done|]. by split.
  - intros _. apply triple_ret. intros ps Hps. split; [|done]. cbn [fst snd]. split; [naive_solver|].
    replace (SCOPE_DEPTH_MAX - d) with (S (SCOPE_DEPTH_MAX - S d)) by lia. revert Hq. generalize (SCOPE_DEPTH_MAX - S d).
    intros D Hq. cbn [term_ok]. apply andb_true_iff. split; [|exact Hq].
    apply andb_true_iff. split; [done|]. apply bool_decide_eq_true. naive_solver.
Qed.

Lemma triple_term fuel d n scope :
  length ts ≤ S n + fuel →
  (∀ n', n < n' → S d ≤ SCOPE_DEPTH_MAX →
   triple (at_ (S d) n') scope (λ q ps, terms_ok (SCOPE_DEPTH_MAX - S d) q = true ∧ at_ (S d) n' ps)) →
  triple (at_ d n) (term fuel scope)
    (λ t ps, (tm_oper t ≠ OOr ∧ term_ok (SCOPE_DEPTH_MAX - d) t = true) ∧ at_ d (S n) ps).
Proof.
  intros Hf Hscope. eapply triple_bind; [apply triple_access|]. intros a.
  eapply triple_bind; [apply triple_oper_prefix|]. intros oper. apply triple_fact. intros Ho.
  apply (triple_bind _ _ (term_done d (S n) a)); [|intros [b o]; by apply triple_ret].
  apply triple_peek. intros t Ht.
  assert (is_operand (tk_kind t) = true → triple (λ ps, at_ d n ps ∧ current t ps)
    (k ← (if decide (oper = OAnd) then keyword else mret None);
     match k with
     | Some (KwOper keyword_oper) => keyword_operand fuel None keyword_oper
     | Some (KwFlag flag) => keyword_operand fuel (Some flag) oper
     | None => first ← ref_expr; id_body fuel first oper
     end) (term_done d (S n) a)) as Hoperand.
  { intros Hop.
    eapply (triple_bind _ _ (λ k ps, match k with
      | Some kw => (oper = OAnd ∧ ∀ o, kw = KwOper o → plain_oper o = false) ∧ at_ d (S n) ps
      | None => (oper = OAnd → tk_kind t = KIdent → keyword_of (tk_text t) = None) ∧ at_ d n ps ∧ current t ps end)).
    - case_decide as Ha; [|apply triple_ret; naive_solver].
      eapply triple_post, triple_keyword. intros [k|] ps Hk; naive_solver.
    - intros [[kw|flag]|].
      + apply triple_fact. intros [-> Hw]. apply triple_keyword_operand; [lia|auto|done].
      + apply triple_fact. intros [-> _]. by apply triple_keyword_operand; [lia|done|].
      + apply triple_fact. intros Hkw. apply triple_ref_expr; [done|]. intros e He Hname _.
        eapply triple_post, triple_id_body; [|lia|done]. intros r ps [Hr Hps]. split; [|done].
        eapply body_term; [done|naive_solver|]. intros ->. destruct e; try done. simpl.
        destruct (Hname _ eq_refl) as [Hk <-]. by rewrite Hkw. }
  destruct (tk_kind t) eqn:Hk; try (by apply triple_unexpected); try (by apply Hoperand).
  - apply triple_bump_at. rewrite past_kind by congruence.
    eapply triple_bind; [apply triple_pair_body; lia|]. intros b. apply triple_fact. intros [first Hb].
    apply triple_ret. intros ps Hps. split; [|done]. eapply pair_term; [done|naive_solver].
  - destruct (decide (a = None)) as [->|]; [|by apply triple_unexpected].
    apply (triple_scope d n t scope oper); [done..|]. intros Hd. apply Hscope; [lia|done].
Qed.

Lemma eq_term_ok_or e : eq_term_ok OOr e = eq_term_ok OAnd e.
Proof.
  unfold eq_term_ok. rewrite !bool_decide_eq_true_2 by auto. f_equal.
  destruct (eq_right e); f_equal; f_equal; apply bool_decide_ext; naive_solver.
Qed.

Lemma term_ok_or D a b : term_ok D (mkTerm a OAnd b) = true → term_ok D (mkTerm a OOr b) = true.
Proof. destruct b as [id|e|q]; destruct D; simpl; try done; by rewrite eq_term_ok_or. Qed.

(** A term list that ends with an [||] has not ended yet. *)
Definition open_or (acc : list Term) (ps : Parser) : Prop :=
  tm_oper <$> last acc = Some OOr → ∀ t, current t ps → tk_kind t ≠ KEof ∧ tk_kind t ≠ KRBrace.

Lemma triple_separator d n D t :
  tm_oper t ≠ OOr → term_ok D t = true →
  triple (at_ d n) (separator t)
    (λ t' ps, term_ok D t' = true ∧ at_ d n ps ∧ open_or [t'] ps).
Proof.
  intros Ho Ht. apply triple_peek. intros sep Hsep.
  assert (∀ ps, open_or [t] ps) as Hopen by (intros ps H; simpl in H; congruence).
  destruct (tk_kind sep) eqn:Hk; try (by apply triple_unexpected);
    try (apply triple_ret; intros ps [? _]; auto).
  - apply triple_bump_at. eapply triple_weaken; [apply past_ge|]. apply triple_ret. auto.
  - destruct t as [a oper b]. apply triple_bump_at. rewrite past_kind by congruence.
    destruct (decide (oper = OAnd)) as [->|]; [|apply triple_err, Hsep].
    apply triple_peek. intros next Hnext. case_decide as Hend; [apply triple_err, Hsep|].
    apply triple_ret. intros ps [[? ?] Hc]. split; [by apply term_ok_or|]. split; [split; [done|lia]|].
    intros _ t Hc'. unfold current in *. assert (t = next) as -> by congruence. naive_solver.
Qed.

Lemma triple_terms fuel d n context acc :
  length ts ≤ n + fuel → forallb (term_ok (SCOPE_DEPTH_MAX - d)) acc = true →
  triple (λ ps, at_ d n ps ∧ open_or acc ps) (terms fuel context acc)
    (λ q ps, terms_ok (SCOPE_DEPTH_MAX - d) q = true ∧ at_ d n ps).
Proof.
  revert d n context acc. induction fuel as [|fuel IH]; intros d n context acc Hf Hacc.
  { intros ps [_ ?] [[_ ?] _]. lia. }
  cbn [terms]. apply triple_peek. intros t Ht.
  assert (∀ ps, (at_ d n ps ∧ open_or acc ps) ∧ current t ps → tk_kind t = KEof ∨ tk_kind t = KRBrace →
    terms_ok (SCOPE_DEPTH_MAX - d) acc = true) as Hdone.
  { intros ps [[_ Hopen] Hc] Hend. unfold terms_ok, ends_closed. rewrite Hacc. apply negb_true_iff, bool_decide_eq_false.
    intros Hor. specialize (Hopen Hor t Hc). naive_solver. }
  destruct (decide (tk_kind t = KEof)) as [He|He].
  { destruct (decide (context = InScope)); [by apply triple_unexpected|].
    apply triple_ret. intros ps Hps. split; [apply (Hdone ps Hps); by left|apply Hps]. }
  destruct (decide (tk_kind t = KRBrace ∧ context = InScope)) as [[Hb _]|_].
  { intros ps Hps Hat. assert (terms_ok (SCOPE_DEPTH_MAX - d) acc = true) as Hok by (apply (Hdone ps Hat); by right).
    revert ps Hps Hat. change (triple (λ ps, (at_ d n ps ∧ open_or acc ps) ∧ current t ps) (_ ← bump; mret acc)
      (λ q ps, terms_ok (SCOPE_DEPTH_MAX - d) q = true ∧ at_ d n ps)).
    apply triple_pre with (P' := λ ps, at_ d n ps ∧ current t ps); [naive_solver|].
    apply triple_bump_at. eapply triple_weaken; [apply past_ge|]. by apply triple_ret. }
  apply triple_pre with (P' := at_ d n); [naive_solver|].
  eapply triple_bind; [apply triple_term; [lia|]|].
  - intros n' Hn' Hd. eapply triple_pre, IH; [|lia|done]. intros ps Hps. split; [done|]. intros [=].
  - intros u. apply triple_fact. intros [Ho Hu].
    eapply triple_bind; [by apply (triple_separator _ _ (SCOPE_DEPTH_MAX - d))|]. intros u'. apply triple_fact. intros Hu'.
    eapply triple_pre, triple_post, IH with (n := S n); [| |lia|].
    + intros ps [? Hopen]. split; [done|]. intros Hl. apply Hopen. by rewrite last_snoc in Hl.
    + intros q ps [? [? ?]]. split; [done|]. split; [done|lia].
    + rewrite forallb_app, Hacc. simpl. by rewrite Hu'.
Qed.

End parser.

(** The parser, on every source. *)
Lemma parse_ends src :
  ends (parse src) (λ q, well_formed q = true) (λ e, located src (pe_span e)).
Proof.
  unfold parse. case_decide; [done|]. pose proof (lex_ok src) as Hlex.
  destruct (lex src) as [ts|e|]; [|done..]. cbn [mbind outcome_bind].
  destruct Hlex as [Hall (t & Hl & Hk)].
  assert (parsing ts (mkParser ts 0 0)) as Hps.
  { split; [done|]. simpl. destruct ts; [done|simpl; lia]. }
  pose proof (triple_terms src ts (conj Hall (ex_intro _ t (conj Hl Hk))) (S (length ts)) 0 0 TopLevel []
    ltac:(lia) eq_refl (mkParser ts 0 0) Hps) as Hrun.
  specialize (Hrun ltac:(done)).
  destruct (terms _ _ _ _) as [[q ps]| |]; [|done..]. exact (proj1 (proj2 Hrun)).
Qed.

(** * Rendered errors *)

(** The caret of a located error is under the character it starts at. *)
Lemma render_located e src :
  located src (pe_span e) →
  ∃ pre post, src = pre ++ post ∧ sp_start (pe_span e) = blen pre ∧
    render e src = Ok ("error: " +:+ pe_message e +:+ utf8 (newline :: chars_of " | ")
      +:+ utf8 (last_line pre ++ first_line post) +:+ utf8 (newline :: chars_of " | ")
      +:+ utf8 (replicate (length (last_line pre)) (ch " ")) +:+ "^").
Proof.
  intros (pre & mid & post & -> & Hs & _). exists pre, (mid ++ post). split; [done|]. split; [done|].
  unfold render. rewrite Hs, Nat.min_l by (rewrite blen_app; lia).
  assert (snap (pre ++ mid ++ post) (blen pre) = blen pre) as ->.
  { pose proof (split_at_app pre (mid ++ post)) as H. by destruct (blen pre); simpl; rewrite ?H. }
  by rewrite split_at_app.
Qed.

(** A pair of source, target and [n] extra targets. *)
Definition targets (n : nat) : text := chars_of "R(s,t" ++ concat (replicate n (chars_of ",a")) ++ chars_of ")".

(** C28. The Flecs query parser answers on every source: it never panics or
    runs out of steps; a syntax error carries a span of the source that starts
    and ends between chars, and renders as the line it starts in with a caret
    under its first character; and an accepted query obeys the grammar:
    operators go with the bodies that admit them, an [||] is followed by a
    term, scopes nest at most 64 deep and a pair has at most 15 extra targets.
    That is one less than the comment on [TERM_ARG_COUNT_MAX] allows, by which
    a term can carry 16 of them: 15 are accepted, 16 are too many. *)
Theorem query_parse_sound :
  (∃ q, parse (targets 15) = Ok q) ∧
  (∃ e, parse (targets 16) = Err e ∧ pe_message e = "too many arguments in term") ∧
  ∀ src,
  match parse src with
  | Ok q => well_formed q = true
  | Err e =>
      located src (pe_span e) ∧
      ∃ pre post, src = pre ++ post ∧ sp_start (pe_span e) = blen pre ∧
        render e src = Ok ("error: " +:+ pe_message e +:+ utf8 (newline :: chars_of " | ")
          +:+ utf8 (last_line pre ++ first_line post) +:+ utf8 (newline :: chars_of " | ")
          +:+ utf8 (replicate (length (last_line pre)) (ch " ")) +:+ "^")
  | Panic => False
  end.
Proof.
  split; [eexists; vm_compute; reflexivity|]. split; [eexists; split; [vm_compute; reflexivity|done]|].
  intros src. pose proof (parse_ends src) as H. destruct (parse src) as [q|e|]; [done| |done].
  split; [done|]. by apply render_located.
Qed.
