(* ===== verification/FlecsPrint.v ===== *)
(** Printing a Flecs query and parsing it back ([fmt.rs] against [token.rs] and
    [parser.rs]): what the canonical form preserves, and what it does not. *)

From stdpp Require Import base gmap sets list strings pretty.
From Stdlib Require Import Ascii.
From S2P Require Import Prelude Chars FlecsAst FlecsParse FlecsSound.

(** * Names the canonical form preserves *)

(** Balanced template arguments up to the end of the name. *)
Fixpoint template_ok (depth : nat) (s : text) : bool :=
  match s with
  | [] => false
  | c :: s1 =>
      let d := if decide (c = ch "<") then S depth else if decide (c = ch ">") then pred depth else depth in
      if decide (d = 0) then bool_decide (s1 = []) else template_ok d s1
  end.

(** A name after the character [prev]: lookup dots come one at a time, a [*]
    only after a dot, a backslash only before a dot, angle brackets only as
    template arguments.  A [raw] name, which is printed without escapes, has
    identifier characters only. *)
Fixpoint name_ok (raw : bool) (prev : char) (s : text) : bool :=
  match s with
  | [] => true
  | c :: s1 =>
      if decide (c = ch "<") then template_ok 0 s
      else if decide (c = ch ">") then false
      else if decide (c = ch "\") then
        match s1 with
        | d :: s2 => bool_decide (d = ch ".") && name_ok raw d s2
        | [] => false
        end
      else if decide (c = ch ".") then negb (bool_decide (head s1 = Some (ch "."))) && name_ok raw c s1
      else if decide (c = ch "*") then bool_decide (prev = ch ".") && name_ok raw c s1
      else (negb raw || is_ident_continue c) && name_ok raw c s1
  end.

Fixpoint expr_lossless (e : RefExpr) : bool :=
  match e with
  | RName w => name_ok false (ch "_") w
  | RVar w => name_ok true (ch "$") w
  | RValue e => expr_lossless e
  | _ => true
  end.

Definition traversal_lossless (t : Traversal) : bool :=
  match tv_rel t with Some w => name_ok true (ch "_") w | None => true end.

Definition ref_lossless (r : Ref) : bool :=
  expr_lossless (rf_expr r) && opt_ok traversal_lossless (rf_traversal r).

(** [Rel(src || second)] leaves an [extra_oper] that is never printed. *)
Definition id_lossless (id : IdTerm) : bool :=
  ref_lossless (id_first id) &&
  match id_src id with SExplicit r => ref_lossless r | _ => true end &&
  opt_ok ref_lossless (id_second id) && forallb ref_lossless (id_extra id) &&
  negb (bool_decide (id_extra id = [] ∧ id_extra_oper id = XOr)).

(** [toggle|and == x] leaves a keyword as the left operand. *)
Definition eq_lossless (e : EqTerm) : bool :=
  expr_lossless (eq_left e) && negb (is_keyword (eq_left e)) &&
  match eq_right e with EqRef r => expr_lossless r | EqName _ => true end.

Fixpoint term_lossless (t : Term) : bool :=
  let '(mkTerm _ _ body) := t in
  match body with
  | BId id => id_lossless id
  | BEq e => eq_lossless e
  | BScope q => forallb term_lossless q
  end.

Definition lossless (q : Query) : bool := forallb term_lossless q.

(** * The lexer reads printed text back *)

(** A token without its span. *)
Definition lexeme : Type := TokenKind * text.
Definition lexeme_of (t : Token) : lexeme := (tk_kind t, tk_text t).
Definition eof : lexeme := (KEof, []).

(** [cs] lexes as [ks] and the end of the expression. *)
Definition lexed (cs : text) (ks : list lexeme) : Prop :=
  ∀ fuel acc pos, length cs < fuel →
  ∃ ts, lex_loop fuel acc (mkCursor cs pos) = Ok (acc ++ ts) ∧ lexeme_of <$> ts = ks ++ [eof].

(** Characters that end an identifier in the canonical form. *)
Definition delimiter (c : char) : bool := bool_decide (c ∈ chars_of " ,()|}]").
Definition delimited (cs : text) : bool := match cs with c :: _ => delimiter c | [] => true end.

Lemma lexed_nil : lexed [] [].
Proof.
  intros [|fuel] acc pos Hf; [simpl in Hf; lia|]. simpl. eexists. split; [reflexivity|]. done.
Qed.

(** [lex_loop] after a token that [lex_token] reads off the front. *)
Lemma lexed_token k s c cs rest ks :
  is_ascii_whitespace c = false → c ≠ ch "/" → length rest ≤ length cs →
  (∀ pos, ∃ t pos', lex_token c cs pos = Ok (t, mkCursor rest pos') ∧ lexeme_of t = (k, s)) →
  lexed rest ks → lexed (c :: cs) ((k, s) :: ks).
Proof.
  intros Hw Hs Hl Ht Hrest fuel acc pos Hf. destruct fuel as [|fuel]; [lia|].
  destruct (Ht pos) as (t & pos' & Hlex & Hk). simpl in Hf.
  destruct (Hrest fuel (acc ++ [t]) pos') as (ts & Hloop & Hks); [lia|].
  exists (t :: ts). split; [|csimpl; by rewrite Hk, Hks].
  cbn [lex_loop cur_chars cur_pos skip_trivia]. rewrite Hw, decide_False by done.
  cbn [mbind outcome_bind cur_chars cur_pos]. rewrite Hlex. cbn [mbind outcome_bind].
  rewrite Hloop. by rewrite <- (assoc_L (++)).
Qed.

Lemma lexed_space cs ks : lexed cs ks → lexed (ch " " :: cs) ks.
Proof.
  intros H [|fuel] acc pos Hf; [lia|]. destruct (H (S fuel) acc (S pos)) as (ts & Hl & Hk); [simpl in Hf; lia|].
  exists ts. split; [|done]. rewrite <- Hl. reflexivity.
Qed.

(** One-character tokens. *)
Definition punct_kind (c : char) : option TokenKind :=
  if decide (c = ch ",") then Some KComma
  else if decide (c = ch "(") then Some KLParen
  else if decide (c = ch ")") then Some KRParen
  else if decide (c = ch "[") then Some KLBracket
  else if decide (c = ch "]") then Some KRBracket
  else if decide (c = ch "{") then Some KLBrace
  else if decide (c = ch "}") then Some KRBrace
  else if decide (c = ch "?") then Some KQuestion
  else if decide (c = ch "@") then Some KAt
  else if decide (c = ch "*") then Some KStar
  else None.

Lemma lexed_punct c k cs ks : punct_kind c = Some k → lexed cs ks → lexed (c :: cs) ((k, []) :: ks).
Proof.
  intros Hk H. unfold punct_kind in Hk.
  repeat (case_decide; [simplify_eq; eapply lexed_token; [done..| |exact H];
    intros pos; eexists _, _; split; reflexivity|]). done.
Qed.

Lemma lexed_pipe cs ks : head cs ≠ Some (ch "|") → lexed cs ks → lexed (ch "|" :: cs) ((KPipe, []) :: ks).
Proof.
  intros Hh H. apply (lexed_token KPipe [] _ cs cs); [done..| |exact H].
  intros pos. exists (mkToken KPipe [] (mkSpan pos (1 + pos))), (1 + pos). split; [|done]. unfold lex_token.
  repeat (rewrite decide_False by done). rewrite decide_True by done. by rewrite bool_decide_eq_false_2.
Qed.

Lemma lexed_bang cs ks : head cs ≠ Some (ch "=") → lexed cs ks → lexed (ch "!" :: cs) ((KBang, []) :: ks).
Proof.
  intros Hh H. apply (lexed_token KBang [] _ cs cs); [done..| |exact H].
  intros pos. exists (mkToken KBang [] (mkSpan pos (1 + pos))), (1 + pos). split; [|done]. unfold lex_token.
  repeat (rewrite decide_False by done). rewrite bool_decide_eq_false_2 by done. cbn [andb].
  rewrite decide_True by done. by rewrite bool_decide_eq_false_2.
Qed.

Lemma lexed_wide s k cs ks :
  (s, k) ∈ [("||", KOrOr); ("==", KEqEq); ("!=", KNeq); ("~=", KMatch)] →
  lexed cs ks → lexed (chars_of s ++ cs) ((k, []) :: ks).
Proof.
  intros Hin H. repeat (apply elem_of_cons in Hin as [Hin|Hin]; [simplify_eq/=|]); [..|by inversion Hin];
    (eapply lexed_token; [done|done| | |exact H]; [simpl; lia|]; intros pos; eexists _, _; split; reflexivity).
Qed.

(** ** Identifiers *)

Lemma template_printed d s : template_ok d s = true → (0 < d ∨ head s = Some (ch "<")) → escaped_name d s = s.
Proof.
  revert d. induction s as [|c s IH]; intros d Ht Hd; [done|]. cbn [template_ok] in Ht. cbn [escaped_name].
  set (d' := if decide (c = ch "<") then S d else if decide (c = ch ">") then pred d else d) in Ht.
  assert (escaped_name d' s = s) as Hrest.
  { destruct (decide (d' = 0)) as [Hz|Hz]; [by apply bool_decide_eq_true in Ht as ->|apply IH; [done|lia]]. }
  unfold d' in Hrest. destruct (decide (c = ch "<")); [by rewrite Hrest|].
  destruct (decide (c = ch ">")); [by rewrite Hrest|].
  rewrite decide_True; [by rewrite Hrest|]. destruct Hd as [?|[= ->]]; [done|done].
Qed.

Lemma template_lexed start d acc s rest pos :
  template_ok d s = true → (0 < d ∨ head s = Some (ch "<")) →
  ∃ pos', lex_template start d acc (s ++ rest) pos = Ok (acc ++ s, mkCursor rest pos').
Proof.
  revert d acc pos. induction s as [|c s IH]; intros d acc pos Ht Hd; [done|].
  cbn [template_ok] in Ht. cbn [lex_template app].
  assert (∀ d', (if decide (d' = 0) then bool_decide (s = []) else template_ok d' s) = true →
    ∃ pos', (if decide (d' = 0) then Ok (acc ++ [c], mkCursor (s ++ rest) (len_utf8 c + pos))
             else lex_template start d' (acc ++ [c]) (s ++ rest) (len_utf8 c + pos))
            = Ok (acc ++ c :: s, mkCursor rest pos')) as Hstep.
  { intros d' H. case_decide.
    - apply bool_decide_eq_true in H as ->. by eexists.
    - destruct (IH d' (acc ++ [c]) (len_utf8 c + pos)) as [pos' Hl]; [done|lia|].
      exists pos'. rewrite Hl. by rewrite <- (assoc_L (++)). }
  destruct (decide (c = ch "<")); [by apply Hstep|]. destruct (decide (c = ch ">")); [|by apply Hstep].
  destruct d; [destruct Hd as [?|[= ->]]; [lia|done]|]. by apply Hstep.
Qed.

(** [escaped_name] outside of template arguments. *)
Lemma escaped_plain c s :
  is_ident_continue c = true ∨ c = ch "." ∨ c = ch "*" → escaped_name 0 (c :: s) = c :: escaped_name 0 s.
Proof.
  intros Hc. cbn [escaped_name]. assert (c ≠ ch "<" ∧ c ≠ ch ">" ∧ c ≠ ch "\") as (? & ? & ?).
  { destruct Hc as [Hc|[->| ->]]; [|done..]. by split_and!; intros ->. }
  rewrite !decide_False by (done || lia).
  assert (is_ascii_alphabetic c || is_ascii_digit c || bool_decide (c ∈ chars_of "_$#.*") = true) as ->; [|done].
  destruct Hc as [Hc|[->| ->]]; [|done..]. unfold is_ident_continue, is_ident_start in Hc.
  destruct (is_ascii_alphabetic c); [done|]. destruct (is_ascii_digit c); [done|]. rewrite orb_false_r in Hc.
  apply bool_decide_eq_true in Hc. apply bool_decide_eq_true.
  destruct Hc as [->|[->| ->]]; apply list_elem_of_lookup; [by exists 0|by exists 1|by exists 2].
Qed.

Lemma escaped_other c s :
  is_ident_continue c = false → c ∉ chars_of "<>\.*" → escaped_name 0 (c :: s) = ch "\" :: c :: escaped_name 0 s.
Proof.
  intros Hc Hn. change (chars_of "<>\.*") with [ch "<"; ch ">"; ch "\"; ch "."; ch "*"] in Hn.
  rewrite !not_elem_of_cons in Hn. destruct Hn as (? & ? & ? & ? & ? & _). cbn [escaped_name].
  rewrite !decide_False by (done || lia).
  unfold is_ident_continue, is_ident_start in Hc. apply orb_false_iff in Hc as [[Ha Hb]%orb_false_iff Hd].
  rewrite Ha, Hd. apply bool_decide_eq_false in Hb.
  rewrite bool_decide_eq_false_2; [done|]. change (chars_of "_$#.*") with [ch "_"; ch "$"; ch "#"; ch "."; ch "*"].
  rewrite !not_elem_of_cons. pose proof (not_elem_of_nil c). naive_solver.
Qed.

(** The cases of [name_ok]. *)
Lemma name_ok_inv raw prev c s :
  name_ok raw prev (c :: s) = true →
  (c = ch "<" ∧ template_ok 0 (c :: s) = true) ∨
  (∃ s2, c = ch "\" ∧ s = ch "." :: s2 ∧ name_ok raw (ch ".") s2 = true) ∨
  (c = ch "." ∧ head s ≠ Some (ch ".") ∧ name_ok raw c s = true) ∨
  (c = ch "*" ∧ prev = ch "." ∧ name_ok raw c s = true) ∨
  (c ∉ chars_of "<>\.*" ∧ (raw = true → is_ident_continue c = true) ∧ name_ok raw c s = true).
Proof.
  cbn [name_ok]. destruct (decide (c = ch "<")); [tauto|]. destruct (decide (c = ch ">")); [done|].
  destruct (decide (c = ch "\")).
  { destruct s as [|d s2]; [done|]. intros [->%bool_decide_eq_true ?]%andb_true_iff. right. left. eauto. }
  destruct (decide (c = ch ".")).
  { intros [?%negb_true_iff%bool_decide_eq_false ?]%andb_true_iff. right. right. by left. }
  destruct (decide (c = ch "*")); [intros [?%bool_decide_eq_true ?]%andb_true_iff; do 3 right; by left|].
  intros [Hr ?]%andb_true_iff. do 4 right. split_and!; [|by intros ->|done].
  change (chars_of "<>\.*") with [ch "<"; ch ">"; ch "\"; ch "."; ch "*"].
  rewrite !not_elem_of_cons. pose proof (not_elem_of_nil c). naive_solver.
Qed.

(** A raw name is printed as it is. *)
Lemma name_raw n prev s :
  length s ≤ n → name_ok true prev s = true → name_ok false prev s = true ∧ escaped_name 0 s = s.
Proof.
  revert prev s. induction n as [|n IH]; intros prev [|c s] Hn H; try done; [simpl in Hn; lia|]. simpl in Hn.
  destruct (name_ok_inv _ _ _ _ H) as [[-> Ht]|[(s2 & -> & -> & H2)|[(-> & Hh & H2)|[(-> & -> & H2)|(Hc & Hi & H2)]]]].
  - split; [exact Ht|]. apply template_printed; [done|by right].
  - simpl in Hn. destruct (IH _ s2 ltac:(lia) H2) as [H2' He]. split; [exact H2'|].
    transitivity (ch "\" :: ch "." :: escaped_name 0 s2); [done|by rewrite He].
  - destruct (IH _ s ltac:(lia) H2) as [H2' He]. rewrite escaped_plain, He by auto. split; [|done].
    cbn [name_ok]. by rewrite H2', bool_decide_eq_false_2.
  - destruct (IH _ s ltac:(lia) H2) as [H2' He]. rewrite escaped_plain, He by auto. split; [|done]. exact H2'.
  - destruct (IH _ s ltac:(lia) H2) as [H2' He]. rewrite escaped_plain, He by auto. split; [|done].
    change (chars_of "<>\.*") with [ch "<"; ch ">"; ch "\"; ch "."; ch "*"] in Hc.
    rewrite !not_elem_of_cons in Hc. destruct Hc as (? & ? & ? & ? & ? & _). cbn [name_ok].
    rewrite !decide_False by done. exact H2'.
Qed.

Lemma escaped_head s : head (escaped_name 0 s) = Some (ch ".") → head s = Some (ch ".").
Proof.
  destruct s as [|c s]; [done|]. cbn [escaped_name].
  destruct (decide (c = ch "<")); [intros H; exact H|]. destruct (decide (c = ch ">")); [intros H; exact H|].
  destruct (decide (0 < 0)); [lia|]. destruct (decide (c = ch "\")); [by destruct s|].
  destruct (_ || _); [intros H; exact H|done].
Qed.

Lemma delimited_stop start prev acc rest pos :
  delimited rest = true → lex_ident_loop start prev acc rest pos = Ok (acc, mkCursor rest pos).
Proof.
  destruct rest as [|c rest]; [done|]. intros Hd%bool_decide_eq_true.
  change (chars_of " ,()|}]") with [ch " "; ch ","; ch "("; ch ")"; ch "|"; ch "}"; ch "]"] in Hd.
  repeat (apply elem_of_cons in Hd as [->|Hd]; [cbn [lex_ident_loop]; rewrite decide_False by naive_solver; reflexivity|]).
  by apply not_elem_of_nil in Hd.
Qed.

Lemma delimited_not_dot rest : delimited rest = true → head rest ≠ Some (ch ".").
Proof. destruct rest as [|c rest]; [done|]. by intros Hd [= ->]. Qed.

(** Scanning a name up to a delimiter. *)
Lemma name_lexed n start prev acc s rest pos :
  length s ≤ n → name_ok false prev s = true → delimited rest = true →
  ∃ pos', lex_ident_loop start prev acc (escaped_name 0 s ++ rest) pos = Ok (acc ++ s, mkCursor rest pos').
Proof.
  intros Hn Hs Hrest. revert prev acc s pos Hn Hs. induction n as [|n IH]; intros prev acc s pos Hn Hs;
    (destruct s as [|c s]; [rewrite app_nil_r; eexists; by apply delimited_stop|]); simpl in Hn; [lia|].
  assert (∀ p a s' q, length s' ≤ n → name_ok false p s' = true → acc ++ c :: s = a ++ s' →
    ∃ pos', lex_ident_loop start p a (escaped_name 0 s' ++ rest) q = Ok (acc ++ c :: s, mkCursor rest pos')) as Hgo.
  { intros p a s' q Hl Hok ->. by apply IH. }
  destruct (name_ok_inv _ _ _ _ Hs) as [[-> Ht]|[(s2 & -> & -> & H2)|[(-> & Hh & H2)|[(-> & -> & H2)|(Hc & _ & H2)]]]].
  - rewrite template_printed by auto. cbn [lex_ident_loop app].
    rewrite decide_False by naive_solver.
    apply (template_lexed start 0 acc (ch "<" :: s) rest pos); [done|by right].
  - change (escaped_name 0 (ch "\" :: ch "." :: s2)) with (ch "\" :: ch "." :: escaped_name 0 s2).
    cbn [lex_ident_loop app]. rewrite decide_False by naive_solver.
    simpl in Hn. apply Hgo; [lia|done|]. by rewrite <- (assoc_L (++)).
  - rewrite escaped_plain by auto. cbn [lex_ident_loop app]. rewrite decide_False.
    2: { intros [_ Hd]. destruct (escaped_name 0 s) as [|c' s'] eqn:He.
      - by apply (delimited_not_dot rest).
      - apply Hh, escaped_head. by rewrite He. }
    apply Hgo; [lia|done|]. by rewrite <- (assoc_L (++)).
  - rewrite escaped_plain by auto. cbn [lex_ident_loop app]. rewrite decide_False by naive_solver.
    apply Hgo; [lia|done|]. by rewrite <- (assoc_L (++)).
  - destruct (is_ident_continue c) eqn:Hi.
    + rewrite escaped_plain by auto. cbn [lex_ident_loop app]. rewrite decide_False by (intros [-> _]; done).
      rewrite Hi. apply Hgo; [lia|done|]. by rewrite <- (assoc_L (++)).
    + rewrite escaped_other by done. cbn [lex_ident_loop app]. rewrite decide_False by naive_solver.
      change (is_ident_continue (ch "\") || bool_decide (ch "\" = ch ".")) with false. cbv iota.
      rewrite decide_True by done.
      rewrite decide_False by (intros ->; apply Hc, list_elem_of_lookup; by exists 3).
      apply Hgo; [lia|done|]. by rewrite <- (assoc_L (++)).
Qed.

Lemma lex_token_ident c cs pos : is_ident_start c = true → lex_token c cs pos = lex_ident c cs pos.
Proof.
  intros Hc. unfold lex_token.
  assert (∀ d, is_ident_start d = false → c ≠ d) as Hne by (intros d Hd ->; congruence).
  rewrite !(decide_False (P := c = _)) by (by apply Hne).
  rewrite !(bool_decide_eq_false_2 (c = _)) by (by apply Hne). cbn [andb]. rewrite Hc.
  destruct (is_ascii_digit c) eqn:Hd; [|done]. apply in_range_spec in Hd.
  unfold is_ident_start, is_ascii_alphabetic in Hc. rewrite !orb_true_iff, !in_range_spec, bool_decide_eq_true in Hc.
  unfold ch in Hc. simpl in Hc. lia.
Qed.

Lemma ident_not_trivia c : is_ident_start c = true → is_ascii_whitespace c = false ∧ c ≠ ch "/".
Proof.
  intros Hc. split; [|by intros ->]. apply not_true_is_false. intros Hw.
  apply existsb_exists in Hw as (x & Hx & ->%N.eqb_eq). by repeat (destruct Hx as [<-|Hx]; [done|]).
Qed.

(** The head of a word is not a [*], so what comes before does not matter. *)
Lemma name_ok_word raw p p' w : is_word w = true → name_ok raw p w = true → name_ok raw p' w = true.
Proof.
  destruct w as [|c w]; [done|]. simpl. intros Hc. destruct (decide (c = ch "*")) as [->|]; [done|auto].
Qed.

Lemma lexed_word w rest ks p :
  is_word w = true → name_ok false p w = true → delimited rest = true →
  lexed rest ks → lexed (escaped_name 0 w ++ rest) ((KIdent, w) :: ks).
Proof.
  intros Hw Hok Hrest H. destruct w as [|c w]; [done|]. simpl in Hw.
  assert (is_ident_continue c = true) as Hc by (unfold is_ident_continue; by rewrite Hw).
  destruct (ident_not_trivia c Hw) as [? ?].
  pose proof (name_ok_word false p c (c :: w) Hw Hok) as Hok'.
  rewrite escaped_plain by auto. cbn [app].
  apply (lexed_token KIdent (c :: w) c _ rest); [done..|rewrite length_app; lia| |exact H].
  intros pos. destruct (name_lexed (length (c :: w)) pos c [] (c :: w) rest pos) as [pos' Hl]; [done..|].
  rewrite escaped_plain in Hl by auto.
  exists (mkToken KIdent (c :: w) (mkSpan pos pos')), pos'. split; [|done].
  rewrite lex_token_ident by done. unfold lex_ident. cbn [app] in Hl. by rewrite Hl.
Qed.

Lemma lexed_raw w rest ks p :
  is_word w = true → name_ok true p w = true → delimited rest = true →
  lexed rest ks → lexed (w ++ rest) ((KIdent, w) :: ks).
Proof.
  intros Hw Hok Hrest H. destruct (name_raw (length w) p w (le_n _) Hok) as [Hok' <-].
  rewrite (proj2 (name_raw (length w) p w (le_n _) Hok)) at 2. by eapply lexed_word.
Qed.

(** ** Strings *)

Lemma string_lexed start acc s rest pos :
  ∃ pos', lex_string start acc (escaped_string s ++ quote :: rest) pos
          = Ok (mkToken KStr (acc ++ s) (mkSpan start pos'), mkCursor rest pos').
Proof.
  revert acc pos. induction s as [|c s IH]; intros acc pos; [rewrite app_nil_r; by eexists|].
  unfold escaped_string. csimpl. rewrite <- (assoc_L (++)).
  change (concat _) with (escaped_string s). replace (acc ++ c :: s) with ((acc ++ [c]) ++ s) by (by rewrite <- (assoc_L (++))).
  destruct (decide (c = quote ∨ c = ch "\")) as [Hc|Hc]; cbn [app lex_string].
  - rewrite (decide_False (P := ch "\" = quote)) by done. rewrite decide_True by done. apply IH.
  - rewrite !decide_False by tauto. apply IH.
Qed.

Lemma lexed_string s rest ks :
  lexed rest ks → lexed (quote :: escaped_string s ++ quote :: rest) ((KStr, s) :: ks).
Proof.
  intros H. apply (lexed_token KStr s quote _ rest); [done..|rewrite length_app; simpl; lia| |exact H].
  intros pos. destruct (string_lexed pos [] s rest (S pos)) as [pos' Hl].
  exists (mkToken KStr s (mkSpan pos pos')), pos'. split; [|done]. exact Hl.
Qed.

(** * The tokens of the canonical form *)

Definition punct (k : TokenKind) : lexeme := (k, []).
Definition word (s : string) : lexeme := (KIdent, chars_of s).

Fixpoint expr_lexemes (e : RefExpr) : list lexeme :=
  match e with
  | RName w => [(KIdent, w)]
  | RThis => [word "$this"]
  | RVar w => [(KIdent, ch "$" :: w)]
  | RWildcard => [punct KStar]
  | RAny => [word "_"]
  | REntity id => [(KIdent, ch "#" :: print_nat id)]
  | RValue e => punct KAt :: expr_lexemes e
  | RImplied => []
  end.

Fixpoint flag_lexemes (first : bool) (flags : list (bool * string)) : list lexeme :=
  match flags with
  | [] => []
  | (set, flag) :: flags =>
      if (set : bool) then (if first then [] else [punct KPipe]) ++ word flag :: flag_lexemes false flags
      else flag_lexemes first flags
  end.

Definition traversal_lexemes (t : Traversal) : list lexeme :=
  flag_lexemes true [(tv_self t, "self"); (tv_up t, "up"); (tv_cascade t, "cascade"); (tv_desc t, "desc")] ++
  match tv_rel t with Some rel => [(KIdent, rel)] | None => [] end.

Definition is_implied (e : RefExpr) : bool := match e with RImplied => true | _ => false end.

Definition ref_lexemes (r : Ref) : list lexeme :=
  expr_lexemes (rf_expr r) ++
  match rf_traversal r with
  | Some t => (if is_implied (rf_expr r) then [] else [punct KPipe]) ++ traversal_lexemes t
  | None => []
  end.

Lemma name_ok_idents raw p s : Forall (λ c, is_ident_continue c = true) s → name_ok raw p s = true.
Proof.
  intros H. revert p. induction H as [|c s Hc _ IH]; intros p; [done|]. cbn [name_ok].
  rewrite !decide_False by (intros ->; done). by rewrite Hc, orb_true_r, IH.
Qed.

Lemma entity_text_ok id : name_ok true (ch "_") (ch "#" :: print_nat id) = true.
Proof.
  apply name_ok_idents. constructor; [done|]. eapply Forall_impl; [apply print_nat_ok|].
  intros c Hc. unfold is_ident_continue. by rewrite Hc, orb_true_r.
Qed.

Lemma lexed_expr e rest ks :
  operand_ok e = true → expr_lossless e = true → delimited rest = true → lexed rest ks →
  lexed (show_expr e ++ rest) (expr_lexemes e ++ ks).
Proof.
  intros Ho Hl Hrest H. destruct e as [w| |w| | |id| |]; simpl in Ho; try done; cbn [show_expr expr_lexemes app].
  - apply (lexed_word w rest ks (ch "_")); [|done..]. unfold is_name in Ho. destruct w as [|c w]; [done|].
    apply andb_true_iff in Ho as [Hc _]. unfold is_word, is_ident_start.
    apply orb_true_iff in Hc as [->| ->%bool_decide_eq_true]; [done|]. by rewrite orb_true_r.
  - by apply (lexed_raw (chars_of "$this") rest ks (ch "_")).
  - by apply (lexed_raw (ch "$" :: w) rest ks (ch "_")).
  - by apply lexed_punct.
  - by apply (lexed_raw (chars_of "_") rest ks (ch "_")).
  - apply (lexed_raw (ch "#" :: print_nat id) rest ks (ch "_")); [done|apply entity_text_ok|done..].
Qed.

(** What the canonical form starts with never joins a [|] or a [!] before it. *)
Definition opens (cs : text) : Prop := ∃ c r, cs = c :: r ∧ c ≠ ch "|" ∧ c ≠ ch "=".

Lemma opens_app cs rest : opens cs → opens (cs ++ rest).
Proof. intros (c & r & -> & ?). by exists c, (r ++ rest). Qed.

Lemma opens_word w : is_word w = true → opens w.
Proof. destruct w as [|c w]; [done|]. intros Hc. exists c, w. by split_and!; [|(intros ->)..]. Qed.

Lemma opens_expr e : operand_ok e = true → opens (show_expr e).
Proof.
  destruct e as [w| |w| | |id| |]; simpl; intros Ho; try done; try (by eexists _, _).
  unfold is_name in Ho. destruct w as [|c w]; [done|]. apply andb_true_iff in Ho as [Hc _].
  assert (is_ident_continue c = true) as Hi.
  { unfold is_ident_continue, is_ident_start.
    apply orb_true_iff in Hc as [->| ->%bool_decide_eq_true]; done. }
  rewrite escaped_plain by auto. exists c, (escaped_name 0 w). by split_and!; [|(intros ->)..].
Qed.

Lemma lexed_pipe_opens cs ks : opens cs → lexed cs ks → lexed (ch "|" :: cs) (punct KPipe :: ks).
Proof. intros (c & r & -> & ? & _). apply lexed_pipe. naive_solver. Qed.

Lemma show_flags_first first flags : (show_flags first flags).2 = first && forallb (λ f, negb f.1) flags.
Proof.
  revert first. induction flags as [|[[] f] flags IH]; intros first; simpl; [by rewrite andb_true_r| |apply IH].
  specialize (IH false). destruct (show_flags false flags). simpl in *. by rewrite IH, andb_false_r.
Qed.

Lemma lexed_flags first flags rest ks :
  Forall (λ f, is_word (chars_of f.2) = true ∧ name_ok true (ch "_") (chars_of f.2) = true) flags →
  delimited rest = true → lexed rest ks →
  lexed ((show_flags first flags).1 ++ rest) (flag_lexemes first flags ++ ks).
Proof.
  intros Hall Hrest H. revert first. induction Hall as [|[set f] flags [Hw Hn] _ IH]; intros first; [done|].
  simpl. destruct set; [|apply IH]. specialize (IH false).
  destruct (show_flags false flags) as [out b] eqn:Hs. simpl in *. rewrite <- !(assoc_L (++)).
  assert (delimited (out ++ rest) = true) as Hd.
  { destruct flags as [|[s0 f0] flags']; [by injection Hs as <- _|]. clear -Hs Hrest.
    revert Hs. generalize ((s0, f0) :: flags'). intros l Hs. clear flags' s0 f0.
    revert out b Hs. induction l as [|[[] f] l IH]; intros out b; simpl; [by intros [= <- _]| |apply IH].
    destruct (show_flags false l). by intros [= <- _]. }
  assert (lexed (chars_of f ++ out ++ rest) (word f :: flag_lexemes false flags ++ ks)) as Hword
    by (by eapply lexed_raw).
  destruct first; [done|]. cbn [app]. apply lexed_pipe_opens; [|done]. by apply opens_app, opens_word.
Qed.

Definition flags_of (t : Traversal) : list (bool * string) :=
  [(tv_self t, "self"); (tv_up t, "up"); (tv_cascade t, "cascade"); (tv_desc t, "desc")].

Lemma flags_words t :
  Forall (λ f, is_word (chars_of f.2) = true ∧ name_ok true (ch "_") (chars_of f.2) = true) (flags_of t).
Proof. repeat constructor. Qed.

Lemma show_traversal_eq t :
  traversal_ok t = true →
  show_traversal t = (show_flags true (flags_of t)).1 ++
    match tv_rel t with Some rel => ch " " :: rel | None => [] end.
Proof.
  intros [Hf _]%andb_true_iff. unfold show_traversal. fold (flags_of t).
  pose proof (show_flags_first true (flags_of t)) as H. destruct (show_flags true (flags_of t)) as [out b].
  simpl in *. destruct b; [|done].
  destruct (tv_self t), (tv_up t), (tv_cascade t), (tv_desc t); done.
Qed.

Lemma opens_traversal t : traversal_ok t = true → opens (show_traversal t).
Proof.
  intros Ht. rewrite show_traversal_eq by done. apply andb_true_iff in Ht as [Hf _].
  apply opens_app. unfold flags_of.
  destruct (tv_self t), (tv_up t), (tv_cascade t), (tv_desc t); try done;
    (eexists _, _; split; [reflexivity|done]).
Qed.

Lemma lexed_traversal t rest ks :
  traversal_ok t = true → traversal_lossless t = true → delimited rest = true → lexed rest ks →
  lexed (show_traversal t ++ rest) (traversal_lexemes t ++ ks).
Proof.
  intros Ht Hl Hrest H. rewrite show_traversal_eq by done. apply andb_true_iff in Ht as [_ Hrel].
  unfold traversal_lexemes, traversal_lossless in *. fold (flags_of t). rewrite <- !(assoc_L (++)).
  destruct (tv_rel t) as [w|].
  - apply lexed_flags; [apply flags_words|done|]. cbn [app]. apply lexed_space.
    apply andb_true_iff in Hrel as [Hw _]. by eapply lexed_raw.
  - apply lexed_flags; [apply flags_words|done..].
Qed.

(** References, with the shape they have before and inside of parentheses. *)
Definition ref_ok (r : Ref) : bool := first_ok r || arg_ok r.

Lemma ref_ok_inv r :
  ref_ok r = true →
  (∃ t, r = mkRef RImplied (Some t) ∧ traversal_ok t = true) ∨
  (∃ e, r = mkRef (RValue e) None ∧ operand_ok e = true) ∨
  (operand_ok (rf_expr r) = true ∧ opt_ok traversal_ok (rf_traversal r) = true).
Proof.
  destruct r as [e t]. unfold ref_ok, first_ok, arg_ok. simpl. rewrite orb_true_iff, andb_true_iff.
  intros [[? ?]|H]; [right; right; by split|].
  destruct e; destruct t; simpl in *; try done; 
    try (left; eexists; by split); try (right; left; eexists; by split);
    right; right; repeat (first [by split | apply andb_true_iff in H as [H ?]]).
Qed.

Lemma show_ref_operand e t :
  operand_ok e = true →
  show_ref (mkRef e t) = show_expr e ++ match t with Some t => ch "|" :: show_traversal t | None => [] end ∧
  ref_lexemes (mkRef e t) = expr_lexemes e ++ match t with Some t => punct KPipe :: traversal_lexemes t | None => [] end.
Proof.
  intros He. unfold ref_lexemes. simpl. destruct t.
  - assert (is_implied e = false) as -> by (by destruct e). split; [by destruct e|done].
  - split; [|done]. rewrite app_nil_r. by destruct e.
Qed.

Lemma opens_ref r : ref_ok r = true → opens (show_ref r).
Proof.
  intros [(t & -> & Ht)|[(e & -> & He)|[He Ht]]]%ref_ok_inv.
  - by apply opens_traversal.
  - by eexists _, _.
  - destruct r as [e t]. simpl in *. rewrite (proj1 (show_ref_operand e t He)). by apply opens_app, opens_expr.
Qed.

Lemma lexed_ref r rest ks :
  ref_ok r = true → ref_lossless r = true → delimited rest = true → lexed rest ks →
  lexed (show_ref r ++ rest) (ref_lexemes r ++ ks).
Proof.
  intros Hr [Hle Hlt]%andb_true_iff Hrest H.
  apply ref_ok_inv in Hr as [(t & -> & Ht)|[(e & -> & He)|[He Ht]]]; simpl in Hle, Hlt.
  - unfold ref_lexemes. by apply lexed_traversal.
  - unfold ref_lexemes. simpl. rewrite app_nil_r. apply lexed_punct; [done|]. by apply lexed_expr.
  - destruct r as [e t]. simpl in *. destruct (show_ref_operand e t He) as [-> ->].
    rewrite <- !(assoc_L (++)). destruct t as [t|]; [|by apply lexed_expr].
    apply lexed_expr; [done..|]. cbn [app].
    apply lexed_pipe_opens; [by apply opens_app, opens_traversal|]. by apply lexed_traversal.
Qed.

(** ** Terms *)

Definition extra_kind (o : ExtraOper) : TokenKind := match o with XAnd => KComma | XOr => KOrOr end.
Definition extra_lexemes (o : ExtraOper) (rs : list Ref) : list lexeme :=
  concat ((λ r, punct (extra_kind o) :: ref_lexemes r) <$> rs).

Definition flag_word (f : IdFlag) : string := match f with AutoOverride => "auto_override" | Toggle => "toggle" end.

Definition pair_lexemes (first second : Ref) (o : ExtraOper) (extra : list Ref) : list lexeme :=
  punct KLParen :: ref_lexemes first ++ punct KComma :: ref_lexemes second ++ extra_lexemes o extra ++ [punct KRParen].

Definition args_lexemes (src : Ref) (second : option Ref) (o : ExtraOper) (extra : list Ref) : list lexeme :=
  ref_lexemes src ++
  match second with Some s => punct KComma :: ref_lexemes s ++ extra_lexemes o extra | None => [] end ++ [punct KRParen].

Definition id_lexemes (id : IdTerm) : list lexeme :=
  match id_flag id with Some f => [word (flag_word f); punct KPipe] | None => [] end ++
  match id_src id, id_second id with
  | SImplicit, None => ref_lexemes (id_first id)
  | SImplicit, Some second => pair_lexemes (id_first id) second (id_extra_oper id) (id_extra id)
  | SEmpty, _ => ref_lexemes (id_first id) ++ [punct KLParen; punct KRParen]
  | SExplicit src, second =>
      ref_lexemes (id_first id) ++ punct KLParen :: args_lexemes src second (id_extra_oper id) (id_extra id)
  end.

Definition eq_kind (op : EqOp) (negated : bool) : TokenKind :=
  match op with EqEq => if negated then KNeq else KEqEq | EqMatch => KMatch end.

Definition eq_string (op : EqOp) (negated : bool) (w : text) : text :=
  match op with EqMatch => if negated then ch "!" :: w else w | EqEq => w end.

Definition eq_lexemes (e : EqTerm) (negated : bool) : list lexeme :=
  expr_lexemes (eq_left e) ++ punct (eq_kind (eq_op e) negated) ::
  match eq_right e with
  | EqRef r => expr_lexemes r
  | EqName w => [(KStr, eq_string (eq_op e) negated w)]
  end.

Definition access_word (a : Access) : string :=
  match a with
  | ADefault => "default" | AIn => "in" | AOut => "out" | AInOut => "inout" | ANone => "none" | AFilter => "filter"
  end.

Definition access_lexemes (a : option Access) : list lexeme :=
  match a with Some a => [punct KLBracket; word (access_word a); punct KRBracket] | None => [] end.

Definition oper_lexemes (o : Oper) (negated_eq : bool) : list lexeme :=
  match o with
  | OAnd | OOr => []
  | ONot => if negated_eq then [] else [punct KBang]
  | OOptional => [punct KQuestion]
  | OAndFrom => [word "and"; punct KPipe]
  | OOrFrom => [word "or"; punct KPipe]
  | ONotFrom => [word "not"; punct KPipe]
  end.

Definition separator_lexeme (o : Oper) : lexeme := punct (match o with OOr => KOrOr | _ => KComma end).

Section terms.
Variable f : Term → list lexeme.
Fixpoint terms_lexemes (previous : option Oper) (q : list Term) : list lexeme :=
  match q with
  | [] => []
  | t :: q => match previous with Some o => [separator_lexeme o] | None => [] end ++
              f t ++ terms_lexemes (Some (tm_oper t)) q
  end.
End terms.

Fixpoint term_lexemes (t : Term) : list lexeme :=
  let '(mkTerm access oper body) := t in
  access_lexemes access ++ oper_lexemes oper (bool_decide (oper = ONot) && is_eq body) ++
  match body with
  | BId id => id_lexemes id
  | BEq e => eq_lexemes e (bool_decide (oper = ONot))
  | BScope q => punct KLBrace :: terms_lexemes term_lexemes None q ++ [punct KRBrace]
  end.

Lemma first_ref_ok r : first_ok r = true → ref_ok r = true.
Proof. unfold ref_ok. by intros ->. Qed.
Lemma arg_ref_ok r : arg_ok r = true → ref_ok r = true.
Proof. unfold ref_ok. intros ->. apply orb_true_r. Qed.

Lemma lexed_words s rest ks :
  is_word (chars_of s) = true → name_ok true (ch "_") (chars_of s) = true → delimited rest = true →
  lexed rest ks → lexed (chars_of s ++ rest) (word s :: ks).
Proof. intros. by eapply lexed_raw. Qed.

Lemma lexed_extras o rs rest ks :
  forallb arg_ok rs = true → forallb ref_lossless rs = true → delimited rest = true → lexed rest ks →
  let sep := match o with XAnd => chars_of ", " | XOr => chars_of " || " end in
  delimited (concat ((λ r, sep ++ show_ref r) <$> rs) ++ rest) = true ∧
  lexed (concat ((λ r, sep ++ show_ref r) <$> rs) ++ rest) (extra_lexemes o rs ++ ks).
Proof.
  intros Ha Hl Hrest H sep. unfold extra_lexemes. induction rs as [|r rs IH]; [done|].
  simpl in Ha, Hl. apply andb_true_iff in Ha as [Har Ha], Hl as [Hlr Hl]. destruct (IH Ha Hl) as [Hd Hlex].
  csimpl. rewrite <- !(assoc_L (++)). cbn [app].
  assert (lexed (show_ref r ++ concat ((λ r, sep ++ show_ref r) <$> rs) ++ rest)
    (ref_lexemes r ++ concat ((λ r, punct (extra_kind o) :: ref_lexemes r) <$> rs) ++ ks)) as Hr
    by (apply lexed_ref; [by apply arg_ref_ok|done..]).
  destruct o; (split; [done|]).
  - apply lexed_punct; [done|]. by apply lexed_space.
  - apply lexed_space. apply (lexed_wide "||" KOrOr); [by left|]. by apply lexed_space.
Qed.

Lemma lexed_args src second o extra rest ks :
  arg_ok src = true → ref_lossless src = true →
  match second with
  | Some s => arg_ok s = true ∧ ref_lossless s = true ∧ forallb arg_ok extra = true ∧ forallb ref_lossless extra = true
  | None => True
  end → lexed rest ks →
  lexed (show_ref src ++ match second with
    | Some s => chars_of ", " ++ show_ref s ++
        concat ((λ r, match o with XAnd => chars_of ", " | XOr => chars_of " || " end ++ show_ref r) <$> extra)
    | None => []
    end ++ ch ")" :: rest) (args_lexemes src second o extra ++ ks).
Proof.
  intros Ha Hl Hs H. unfold args_lexemes. rewrite <- !(assoc_L (++)).
  assert (lexed (ch ")" :: rest) (punct KRParen :: ks)) as Hclose by (by apply lexed_punct).
  destruct second as [s|].
  - destruct Hs as (Has & Hls & Hax & Hlx).
    destruct (lexed_extras o extra (ch ")" :: rest) _ Hax Hlx eq_refl Hclose) as [Hd Hx].
    cbn [app]. rewrite <- !(assoc_L (++)). apply lexed_ref; [by apply arg_ref_ok|done..|].
    apply lexed_punct; [done|]. apply lexed_space. apply lexed_ref; [by apply arg_ref_ok|done..].
  - by apply lexed_ref; [apply arg_ref_ok| |..].
Qed.

(** A term body after its flag, if any. *)
Definition unflagged (id : IdTerm) : IdTerm :=
  mkIdTerm None (id_first id) (id_src id) (id_second id) (id_extra id) (id_extra_oper id).

Lemma opens_unflagged id : id_ok id = true → opens (show_id (unflagged id)).
Proof.
  intros [[Hf _]%andb_true_iff _]%andb_true_iff. apply first_ref_ok in Hf. unfold show_id. simpl.
  destruct (id_src id); [destruct (id_second id)|..]; try (by apply opens_ref); try (by apply opens_app, opens_ref).
  by eexists _, _.
Qed.

Lemma lexed_unflagged id rest ks :
  id_ok id = true → id_lossless id = true → delimited rest = true → lexed rest ks →
  lexed (show_id (unflagged id) ++ rest) (id_lexemes (unflagged id) ++ ks).
Proof.
  intros [[Hf Ht]%andb_true_iff Hs]%andb_true_iff [[[[Hlf Hls]%andb_true_iff Hl2]%andb_true_iff Hlx]%andb_true_iff _]%andb_true_iff
    Hrest H. apply first_ref_ok in Hf. destruct id as [flag first src second extra o]. simpl in *.
  unfold show_id, id_lexemes. simpl.
  assert (match second with
    | Some s => arg_ok s = true ∧ ref_lossless s = true ∧ forallb arg_ok extra = true ∧ forallb ref_lossless extra = true
    | None => True end) as Hsec.
  { unfold targets_ok in Ht. simpl in Ht. destruct second as [s|]; [|done].
    apply andb_true_iff in Ht as [[? ?]%andb_true_iff _]. done. }
  destruct src as [| |src].
  - destruct second as [s|]; [|by apply lexed_ref]. destruct Hsec as (Has & Hls2 & Hax & Hlx2).
    assert (lexed (ch ")" :: rest) (punct KRParen :: ks)) as Hclose by (by apply lexed_punct).
    destruct (lexed_extras o extra (ch ")" :: rest) _ Hax Hlx2 eq_refl Hclose) as [Hd Hx].
    unfold pair_lexemes. cbn [app]. rewrite <- !(assoc_L (++)). cbn [app]. rewrite <- !(assoc_L (++)).
    apply lexed_punct; [done|]. apply lexed_ref; [done..|].
    apply (lexed_punct (ch ",")); [done|]. apply lexed_space. by apply lexed_ref; [apply arg_ref_ok| |..].
  - rewrite <- !(assoc_L (++)). apply lexed_ref; [done..|]. apply lexed_punct; [done|]. by apply lexed_punct.
  - rewrite <- !(assoc_L (++)). cbn [app]. rewrite <- !(assoc_L (++)).
    apply lexed_ref; [done..|]. apply lexed_punct; [done|]. by apply lexed_args.
Qed.

Lemma lexed_id id rest ks :
  id_ok id = true → id_lossless id = true → delimited rest = true → lexed rest ks →
  lexed (show_id id ++ rest) (id_lexemes id ++ ks).
Proof.
  intros Hok Hl Hrest H. pose proof (lexed_unflagged id rest ks Hok Hl Hrest H) as Hu.
  pose proof (opens_app _ rest (opens_unflagged id Hok)) as Ho.
  destruct (id_flag id) as [f|] eqn:Hf.
  - assert (show_id id = chars_of (flag_word f) ++ ch "|" :: show_id (unflagged id)) as ->.
    { unfold show_id. rewrite Hf. by destruct f. }
    assert (id_lexemes id = word (flag_word f) :: punct KPipe :: id_lexemes (unflagged id)) as ->.
    { unfold id_lexemes. by rewrite Hf. }
    rewrite <- (assoc_L (++)). cbn [app]. apply lexed_words; [by destruct f..|done|]. by apply lexed_pipe_opens.
  - assert (id = unflagged id) as -> by (destruct id; simpl in *; by rewrite Hf). done.
Qed.

Lemma opens_id id : id_ok id = true → opens (show_id id).
Proof.
  intros Hok. destruct (id_flag id) as [f|] eqn:Hf.
  - unfold show_id. rewrite Hf. destruct f; (eexists _, _; split; [reflexivity|done]).
  - assert (id = unflagged id) as -> by (destruct id; simpl in *; by rewrite Hf). by apply opens_unflagged.
Qed.

Lemma lexed_eq e o rest ks :
  eq_term_ok o e = true → eq_lossless e = true → delimited rest = true → lexed rest ks →
  lexed (show_eq e (bool_decide (o = ONot)) ++ rest) (eq_lexemes e (bool_decide (o = ONot)) ++ ks).
Proof.
  intros [[Ho Hl]%andb_true_iff Hr]%andb_true_iff [[Hll _]%andb_true_iff Hlr]%andb_true_iff Hrest H.
  destruct e as [left op operand]. unfold show_eq, eq_lexemes. simpl in *.
  rewrite <- !(assoc_L (++)). cbn [app]. apply lexed_expr; [done..|]. apply lexed_space.
  set (neg := bool_decide (o = ONot)) in *.
  assert (∀ s k txt ks', (s, k) ∈ [("||", KOrOr); ("==", KEqEq); ("!=", KNeq); ("~=", KMatch)] → lexed txt ks' →
    lexed (chars_of s ++ ch " " :: txt) (punct k :: ks')) as Hop.
  { intros s k txt ks' Hin Htxt. apply lexed_wide; [done|]. by apply lexed_space. }
  destruct operand as [r|w].
  - apply andb_true_iff in Hr as [Hr Hneg].
    assert (lexed (show_expr r ++ rest) (expr_lexemes r ++ ks)) as Hright by (by apply lexed_expr).
    assert (op = EqMatch → neg = false) as Hm.
    { intros ->. apply negb_true_iff, bool_decide_eq_false in Hneg. apply bool_decide_eq_false. naive_solver. }
    destruct op; [destruct neg|rewrite Hm by done];
      [apply (Hop "!=" KNeq)|apply (Hop "==" KEqEq)|apply (Hop "~=" KMatch)]; set_solver.
  - assert (∀ w', lexed (quote :: escaped_string w' ++ quote :: rest) ((KStr, w') :: ks)) as Hstr
      by (intros; by apply lexed_string).
    destruct op, neg; cbn [app eq_kind eq_string]; rewrite <- ?(assoc_L (++)); cbn [app];
      [apply (Hop "!=" KNeq)|apply (Hop "==" KEqEq)|apply (Hop "~=" KMatch)|apply (Hop "~=" KMatch)];
      try set_solver.
    apply (Hstr (ch "!" :: w)).
Qed.

Lemma lexed_oper o neg cs ks :
  opens cs → lexed cs ks → lexed (show_oper o neg ++ cs) (oper_lexemes o neg ++ ks).
Proof.
  intros Hopen H. pose proof Hopen as (c & r & Hc & Hp & He).
  assert (∀ s, is_word (chars_of s) = true → name_ok true (ch "_") (chars_of s) = true →
    lexed (chars_of s ++ ch "|" :: cs) (word s :: punct KPipe :: ks)) as Hw.
  { intros s ? ?. apply lexed_words; [done..|]. by apply lexed_pipe_opens. }
  destruct o; cbn [show_oper oper_lexemes]; try done.
  - destruct neg; [done|]. apply lexed_bang; [|done]. rewrite Hc. naive_solver.
  - by apply lexed_punct.
  - by apply (Hw "and").
  - by apply (Hw "or").
  - by apply (Hw "not").
Qed.

Lemma lexed_access a cs ks :
  lexed cs ks → lexed (match a with Some a => show_access a ++ [ch " "] | None => [] end ++ cs) (access_lexemes a ++ ks).
Proof.
  intros H. destruct a as [a|]; [|done].
  assert (lexed (ch "[" :: chars_of (access_word a) ++ ch "]" :: ch " " :: cs) (access_lexemes (Some a) ++ ks)) as Hl.
  { apply lexed_punct; [done|]. apply lexed_words; [by destruct a..|done|].
    apply lexed_punct; [done|]. by apply lexed_space. }
  by destruct a.
Qed.

Lemma opens_eq e neg : operand_ok (eq_left e) = true → opens (show_eq e neg).
Proof. intros. unfold show_eq. by apply opens_app, opens_expr. Qed.

Lemma lexed_separated (P : Term → Prop) previous q rest ks :
  (∀ t rest ks, P t → delimited rest = true → lexed rest ks → lexed (show_term t ++ rest) (term_lexemes t ++ ks)) →
  Forall P q → delimited rest = true → lexed rest ks →
  (previous ≠ None → delimited (write_terms show_term previous q ++ rest) = true) ∧
  lexed (write_terms show_term previous q ++ rest) (terms_lexemes term_lexemes previous q ++ ks).
Proof.
  intros Hterm Hall Hrest H. revert previous. induction Hall as [|t q Ht _ IH]; intros previous; [done|].
  destruct (IH (Some (tm_oper t))) as [Hd Hl]. specialize (Hd ltac:(done)).
  cbn [write_terms terms_lexemes]. rewrite <- !(assoc_L (++)).
  pose proof (Hterm t _ _ Ht Hd Hl) as Hlt.
  destruct previous as [o|]; [|done]. split; [by destruct o|].
  assert (o = OOr ∨ o ≠ OOr) as [->|Ho] by (destruct (decide (o = OOr)); auto).
  - apply lexed_space. apply (lexed_wide "||" KOrOr); [by left|]. by apply lexed_space.
  - assert (match o with OOr => chars_of " || " | _ => chars_of ", " end = chars_of ", ") as -> by (by destruct o).
    assert (separator_lexeme o = punct KComma) as -> by (by destruct o).
    apply lexed_punct; [done|]. by apply lexed_space.
Qed.

Lemma lexed_term d t rest ks :
  term_ok d t = true → term_lossless t = true → delimited rest = true → lexed rest ks →
  lexed (show_term t ++ rest) (term_lexemes t ++ ks).
Proof.
  revert t rest ks. induction d as [d IH] using lt_wf_ind. intros [a o body] rest ks Hok Hl Hrest H.
  cbn [show_term term_lexemes]. rewrite <- !(assoc_L (++)). apply lexed_access.
  destruct body as [id|e|q].
  - assert (id_ok id = true) as Hid by (destruct d; by apply andb_true_iff in Hok as [? _]).
    apply lexed_oper; [by apply opens_app, opens_id|]. by apply lexed_id.
  - assert (eq_term_ok o e = true) as He by (by destruct d). simpl in Hl. rewrite andb_true_r.
    apply lexed_oper; [|by apply lexed_eq].
    apply opens_app, opens_eq. by apply andb_true_iff in He as [[_ ?]%andb_true_iff _].
  - destruct d as [|d]; simpl in Hok; [by rewrite andb_false_r in Hok|].
    apply andb_true_iff in Hok as [_ [Hq _]%andb_true_iff]. cbn [app]. rewrite <- !(assoc_L (++)).
    apply lexed_oper; [by eexists _, _|]. apply lexed_punct; [done|].
    eapply (lexed_separated (λ t, term_ok d t = true ∧ term_lossless t = true)); [| |done|by apply lexed_punct].
    + intros t rest' ks' [? ?]. apply (IH d); [lia|done..].
    + simpl in Hl. rewrite forallb_forall in Hq, Hl. apply Forall_forall. intros t Ht%list_elem_of_In. auto.
Qed.

Lemma lexed_query q :
  well_formed q = true → lossless q = true → lexed (write_terms show_term None q) (terms_lexemes term_lexemes None q).
Proof.
  intros [Hq _]%andb_true_iff Hl.
  destruct (lexed_separated (λ t, term_ok SCOPE_DEPTH_MAX t = true ∧ term_lossless t = true) None q [] [])
    as [_ Hlex]; [| |done|apply lexed_nil|by rewrite !app_nil_r in Hlex].
  - intros t rest ks [? ?]. by eapply lexed_term.
  - unfold lossless in Hl. rewrite forallb_forall in Hq, Hl. apply Forall_forall. intros t Ht%list_elem_of_In. auto.
Qed.
