(* ===== verification/FlecsRoundTrip.v ===== *)
(** The Flecs parser reads the tokens of a canonical form back, hence
    [parse (show_query q) = q]. *)

From stdpp Require Import base gmap sets list strings pretty.
From Stdlib Require Import Ascii.
From S2P Require Import Prelude Chars FlecsAst FlecsParse FlecsSound FlecsPrint.

(** * Parser methods on the tokens ahead *)

Definition remaining (ps : Parser) : list lexeme := lexeme_of <$> drop (ps_index ps) (ps_tokens ps).

(** In scope depth [d], with the tokens [ks] ahead, [m] returns [a] and has
    [ks'] ahead. *)
Definition runs {A} (d : nat) (ks : list lexeme) (m : parser A) (a : A) (ks' : list lexeme) : Prop :=
  ∀ ps, remaining ps = ks → ps_scope_depth ps = d →
  ∃ ps', m ps = Ok (a, ps') ∧ remaining ps' = ks' ∧ ps_scope_depth ps' = d.

Lemma qruns_bind {A B} d ks1 (m : parser A) a ks2 (k : A → parser B) b ks3 :
  runs d ks1 m a ks2 → runs d ks2 (k a) b ks3 → runs d ks1 (m ≫= k) b ks3.
Proof.
  intros Hm Hk ps Hps Hd. destruct (Hm ps Hps Hd) as (ps' & Heq & Hr & Hd').
  destruct (Hk ps' Hr Hd') as (ps'' & Heq' & ?). exists ps''. unfold mbind, parser_bind. by rewrite Heq.
Qed.

Lemma qruns_ret {A} d ks (a : A) : runs d ks (mret a) a ks.
Proof. intros ps Hps Hd. by exists ps. Qed.

Lemma runs_lift {A B} d ks (m : outcome ParseError A) a (k : A → parser B) b ks' :
  m = Ok a → runs d ks (k a) b ks' → runs d ks (lift m ≫= k) b ks'.
Proof. intros -> Hk. eapply qruns_bind; [|exact Hk]. intros ps Hps Hd. by exists ps. Qed.

Lemma qremaining_inv ps x r :
  remaining ps = x :: r →
  ∃ t, ps_tokens ps !! ps_index ps = Some t ∧ lexeme_of t = x ∧
    lexeme_of <$> drop (ps_index ps + 1) (ps_tokens ps) = r ∧
    length (ps_tokens ps) = ps_index ps + S (length r).
Proof.
  unfold remaining. intros H. destruct (drop _ _) as [|t l] eqn:Hd; [done|]. simplify_eq/=.
  exists t. pose proof (f_equal length Hd) as Hlen. rewrite length_drop in Hlen. simpl in Hlen.
  rewrite length_fmap. split_and!; [|done| |lia].
  - rewrite <- (Nat.add_0_r (ps_index ps)), <- lookup_drop, Hd. done.
  - f_equal. by rewrite <- drop_drop, Hd.
Qed.

Lemma qruns_peek {A} d x r (k : Token → parser A) a ks' :
  (∀ t, lexeme_of t = x → runs d (x :: r) (k t) a ks') → runs d (x :: r) (peek ≫= k) a ks'.
Proof.
  intros Hk ps Hps Hd. destruct (qremaining_inv ps x r Hps) as (t & Ht & Hx & _).
  unfold mbind, parser_bind, peek. rewrite Ht. by apply (Hk t Hx).
Qed.

Lemma qruns_bump {A} d x r (k : Token → parser A) a ks' :
  r ≠ [] → (∀ t, lexeme_of t = x → runs d r (k t) a ks') → runs d (x :: r) (bump ≫= k) a ks'.
Proof.
  intros Hr Hk ps Hps Hd. destruct (qremaining_inv ps x r Hps) as (t & Ht & Hx & Hrest & Hlen).
  unfold mbind, parser_bind, bump. rewrite Ht. apply (Hk t Hx); [|done].
  unfold remaining. cbn [ps_index ps_tokens]. rewrite decide_True; [done|]. destruct r; [done|simpl in Hlen; lia].
Qed.

Lemma qruns_expect {A} d x r kind what (k : Token → parser A) a ks' :
  x.1 = kind → r ≠ [] → (∀ t, lexeme_of t = x → runs d r (k t) a ks') →
  runs d (x :: r) (expect kind what ≫= k) a ks'.
Proof.
  intros <- Hr Hk ps Hps Hd. destruct (qremaining_inv ps x r Hps) as (t & Ht & Hx & Hrest & Hlen).
  unfold mbind, parser_bind, expect, mbind, parser_bind, bump. rewrite Ht. cbn [unwrap mbind outcome_bind].
  rewrite decide_True by (by rewrite <- Hx). apply (Hk t Hx); [|done].
  unfold remaining. cbn [ps_index ps_tokens]. rewrite decide_True; [done|]. destruct r; [done|simpl in Hlen; lia].
Qed.

Lemma kind_of t x : lexeme_of t = x → tk_kind t = x.1.
Proof. by intros <-. Qed.
Lemma text_of t x : lexeme_of t = x → tk_text t = x.2.
Proof. by intros <-. Qed.

Lemma app_not_nil {A} (l r : list A) : r ≠ [] → l ++ r ≠ [].
Proof. by destruct l. Qed.

(** Peek or bump a known token and look at its kind. *)
Ltac look_at :=
  let t := fresh "t" in let Ht := fresh "Ht" in
  intros t Ht; rewrite ?(kind_of _ _ Ht), ?(text_of _ _ Ht); cbn [fst snd punct word].
Ltac peek_as := apply qruns_peek; look_at.
Ltac bump_as := apply qruns_bump; [try done; auto using app_not_nil|]; look_at.

(** * Traversals and operands *)

(** Tokens that end a reference. *)
Definition ends_ref (ks : list lexeme) : Prop :=
  ∃ x r, ks = x :: r ∧ x.1 ≠ KPipe ∧ x.1 ≠ KIdent.

Lemma ends_ref_not_nil ks : ends_ref ks → ks ≠ [].
Proof. by intros (x & r & -> & _). Qed.

Definition rel_lexemes (t : Traversal) : list lexeme := match tv_rel t with Some rel => [(KIdent, rel)] | None => [] end.

Lemma runs_flag_end d fuel w t t' rel ks :
  set_flag (mkToken KIdent w (span_at 0)) t = Ok t' → tv_rel t' = None →
  match rel with Some w => is_traversal_flag w = false | None => True end → ends_ref ks →
  runs d ((KIdent, w) :: match rel with Some r => [(KIdent, r)] | None => [] end ++ ks)
    (traversal_loop (S fuel) t)
    (mkTraversal (tv_self t') (tv_up t') (tv_cascade t') (tv_desc t') rel) ks.
Proof.
  intros Hset Hnone Hrel Hks. pose proof (ends_ref_not_nil ks Hks) as Hne. cbn [traversal_loop].
  apply qruns_expect; [done|auto using app_not_nil|]. intros word Hword.
  assert (set_flag word t = Ok t') as Hset'.
  { revert Hset. unfold set_flag. rewrite (text_of _ _ Hword). simpl. by repeat case_decide. }
  eapply runs_lift; [exact Hset'|]. destruct rel as [r|]; cbn [app].
  - peek_as. rewrite Hrel. bump_as. apply qruns_ret.
  - destruct Hks as (x & r & -> & Hp & Hi). apply qruns_peek. intros u Hu. rewrite (kind_of _ _ Hu).
    destruct t' as [s up c dd rel]. simpl in Hnone |- *. subst rel. destruct (x.1); try done; apply qruns_ret.
Qed.

Lemma runs_flag_more d fuel w t t' a x r ks' :
  set_flag (mkToken KIdent w (span_at 0)) t = Ok t' →
  runs d (x :: r) (traversal_loop fuel t') a ks' →
  runs d ((KIdent, w) :: punct KPipe :: x :: r) (traversal_loop (S fuel) t) a ks'.
Proof.
  intros Hset Hnext. cbn [traversal_loop]. apply qruns_expect; [done..|]. intros word Hword.
  assert (set_flag word t = Ok t') as Hset'.
  { revert Hset. unfold set_flag. rewrite (text_of _ _ Hword). simpl. by repeat case_decide. }
  eapply runs_lift; [exact Hset'|]. peek_as. bump_as. done.
Qed.

Lemma runs_traversal d fuel t ks :
  traversal_ok t = true → length (traversal_lexemes t) ≤ fuel → ends_ref ks →
  runs d (traversal_lexemes t ++ ks) (traversal fuel) t ks.
Proof.
  intros [Hf Hrel]%andb_true_iff Hlen Hks. unfold traversal, traversal_lexemes in *. rewrite <- (assoc_L (++)).
  destruct t as [s up c dd rel]. simpl in Hrel, Hf.
  assert (match rel with Some w => is_traversal_flag w = false | None => True end) as Hr.
  { destruct rel; [|done]. apply andb_true_iff in Hrel as [_ ?]. by apply negb_true_iff. }
  clear Hrel. rewrite length_app in Hlen.
  destruct s, up, c, dd; try done; simpl in Hlen; cbn [flag_lexemes app tv_self tv_up tv_cascade tv_desc tv_rel];
    repeat (destruct fuel as [|fuel]; [lia|];
      first [ eapply runs_flag_more; [reflexivity|]
            | eapply (runs_flag_end _ _ _ _ (mkTraversal _ _ _ _ None) rel); [reflexivity|done..] ]).
Qed.

(** The token of an operand. *)
Definition operand_lexeme (e : RefExpr) : lexeme := default eof (head (expr_lexemes e)).

Lemma parse_print_entity id : (id < 2 ^ 64)%N → parse_u64 (print_nat id) = Some id.
Proof.
  intros Hid. destruct (print_nat_ok id) as (Hv & Hd & Hne). unfold parse_u64.
  destruct (print_nat id) as [|c t] eqn:Ht; [done|]. inversion Hd as [|? ? Hc _]; subst.
  rewrite (decide_False (P := c = ch "+")) by (intros ->; done). rewrite decide_False by done.
  rewrite forallb_Forall by done. rewrite Hv, decide_True.
  - f_equal. lia.
  - change (2 ^ 64)%N with 18446744073709551616%N in Hid. change (2 ^ 64)%Z with 18446744073709551616%Z. lia.
Qed.

Lemma operand_token e :
  operand_ok e = true →
  expr_lexemes e = [operand_lexeme e] ∧ is_operand (operand_lexeme e).1 = true ∧
  (∀ t, lexeme_of t = operand_lexeme e → classify t = Ok e) ∧
  (is_flag_name e = false → (operand_lexeme e).1 = KIdent → is_traversal_flag (operand_lexeme e).2 = false) ∧
  (is_keyword e = false → (operand_lexeme e).1 = KIdent → keyword_of (operand_lexeme e).2 = None).
Proof.
  intros Ho. assert (∀ c (w : text), c = ch "$" ∨ c = ch "#" → is_traversal_flag (c :: w) = false ∧ keyword_of (c :: w) = None) as Hsig.
  { intros c w Hc. split; [apply bool_decide_eq_false; naive_solver|].
    unfold keyword_of. rewrite !decide_False by (intros [=]; naive_solver). done. }
  destruct e as [w| |w| | |id| |]; try done; (split; [done|]); (split; [done|]); (split; [|]);
    try (by split_and!); try (split; intros _ _; apply Hsig; auto).
  - intros t Ht. unfold classify. rewrite (kind_of _ _ Ht), (text_of _ _ Ht). simpl in *. unfold is_name in Ho.
    destruct w as [|c w]; [done|]. apply andb_true_iff in Ho as [Hc Hn%negb_true_iff%bool_decide_eq_false].
    assert (c ≠ ch "$" ∧ c ≠ ch "#") as [Hd Hh] by (split; intros ->; done).
    rewrite (decide_False (P := c :: w = chars_of "$this")) by (intros [= ->]; done).
    rewrite !decide_False by done. done.
  - simpl. unfold is_keyword. split; [done|]. intros Hk _. by destruct (keyword_of w).
  - intros t Ht. unfold classify. by rewrite (kind_of _ _ Ht), (text_of _ _ Ht).
  - intros t Ht. change (operand_lexeme (RVar w)) with (KIdent, ch "$" :: w) in Ht.
    unfold classify. rewrite (kind_of _ _ Ht), (text_of _ _ Ht). cbn [fst snd].
    apply negb_true_iff, bool_decide_eq_false in Ho.
    rewrite (decide_False (P := _ = chars_of "$this")) by (intros [=]; done).
    rewrite (decide_False (P := _ = chars_of "_")) by (by intros [=]). by rewrite decide_True.
  - intros t Ht. unfold classify. by rewrite (kind_of _ _ Ht).
  - intros t Ht. unfold classify. by rewrite (kind_of _ _ Ht), (text_of _ _ Ht).
  - intros t Ht. change (operand_lexeme (REntity id)) with (KIdent, ch "#" :: print_nat id) in Ht.
    unfold classify. rewrite (kind_of _ _ Ht), (text_of _ _ Ht). cbn [fst snd].
    apply bool_decide_eq_true in Ho.
    rewrite (decide_False (P := _ = chars_of "$this")) by (by intros [=]).
    rewrite (decide_False (P := _ = chars_of "_")) by (by intros [=]).
    rewrite decide_False by done. rewrite decide_True by done. unfold entity_id. by rewrite parse_print_entity.
Qed.

Definition pipe_lexemes (t : option Traversal) : list lexeme :=
  match t with Some t => punct KPipe :: traversal_lexemes t | None => [] end.

Lemma ref_lexemes_operand e t :
  operand_ok e = true → ref_lexemes (mkRef e t) = operand_lexeme e :: pipe_lexemes t.
Proof.
  intros He. rewrite (proj2 (show_ref_operand e t He)). destruct (operand_token e He) as [-> _]. by destruct t.
Qed.

Lemma traversal_lexemes_cons t : traversal_ok t = true →
  ∃ w r, traversal_lexemes t = (KIdent, w) :: r ∧ is_traversal_flag w = true.
Proof.
  intros [Hf _]%andb_true_iff. unfold traversal_lexemes.
  destruct (tv_self t), (tv_up t), (tv_cascade t), (tv_desc t); try done; eexists _, _; (split; [reflexivity|done]).
Qed.

Lemma runs_pipe_traversal d fuel t ks :
  opt_ok traversal_ok t = true → length (pipe_lexemes t) ≤ fuel → ends_ref ks →
  runs d (pipe_lexemes t ++ ks) (pipe_traversal fuel) t ks.
Proof.
  intros Ht Hf Hks. pose proof (ends_ref_not_nil ks Hks) as Hne. unfold pipe_traversal. destruct t as [t|]; simpl in *.
  - peek_as. rewrite decide_True by done. bump_as. eapply qruns_bind; [apply runs_traversal; [done|lia|done]|].
    apply qruns_ret.
  - destruct Hks as (x & r & -> & Hp & _). apply qruns_peek. intros u Hu. rewrite (kind_of _ _ Hu), decide_False by done.
    apply qruns_ret.
Qed.

Lemma runs_arg_ref d fuel r ks :
  arg_ok r = true → length (ref_lexemes r) ≤ fuel → ends_ref ks →
  runs d (ref_lexemes r ++ ks) (arg_ref fuel) r ks.
Proof.
  intros Ha Hf Hks. pose proof (ends_ref_not_nil ks Hks) as Hne.
  destruct (ref_ok_inv r (arg_ref_ok r Ha)) as [(t & -> & Ht)|[(e & -> & He)|[He Ht]]].
  - unfold ref_lexemes in *. simpl in *. destruct (traversal_lexemes_cons t Ht) as (w & l & Hw & Hflag).
    rewrite Hw. cbn [app]. peek_as. rewrite decide_True by done.
    change ((KIdent, w) :: l ++ ks) with (((KIdent, w) :: l) ++ ks). rewrite <- Hw.
    eapply qruns_bind; [apply runs_traversal; [done|lia|done]|]. apply qruns_ret.
  - unfold ref_lexemes. simpl. destruct (operand_token e He) as (-> & Ho & Hc & _). cbn [app].
    peek_as. rewrite decide_False by naive_solver. rewrite decide_True by done. bump_as.
    apply qruns_bump; [done|]. intros u Hu. rewrite (kind_of _ _ Hu), Ho. eapply runs_lift; [by apply Hc|]. apply qruns_ret.
  - destruct r as [e t]. simpl in He, Ht. assert (is_flag_name e = false) as Hnf.
    { unfold arg_ok in Ha. simpl in Ha. destruct e; try done. simpl in *. destruct t; simpl in Ha;
        by apply andb_true_iff in Ha as [[_ ?%negb_true_iff]%andb_true_iff _]. }
    rewrite ref_lexemes_operand in * by done. destruct (operand_token e He) as (_ & Ho & Hc & Hn & _).
    specialize (Hn Hnf). cbn [app]. apply qruns_peek. intros u Hu. rewrite (kind_of _ _ Hu), (text_of _ _ Hu).
    rewrite decide_False by (intros [Hk Hfl]; rewrite (Hn Hk) in Hfl; done).
    rewrite decide_False by (intros Hk; by rewrite Hk in Ho). rewrite Ho.
    apply qruns_bump; [auto using app_not_nil|]. intros _ _.
    eapply runs_lift; [by apply Hc|]. eapply qruns_bind; [apply runs_pipe_traversal; [done|simpl in Hf; lia|done]|].
    apply qruns_ret.
Qed.

(** * Argument lists *)

Lemma ref_lexemes_not_nil r : ref_ok r = true → 0 < length (ref_lexemes r).
Proof.
  intros [(t & -> & Ht)|[(e & -> & He)|[He Ht]]]%ref_ok_inv.
  - unfold ref_lexemes. simpl. destruct (traversal_lexemes_cons t Ht) as (w & l & -> & _). simpl. lia.
  - unfold ref_lexemes. simpl. lia.
  - destruct r as [e t]. simpl in *. rewrite ref_lexemes_operand by done. simpl. lia.
Qed.

(** The last argument. *)
Lemma runs_arg_last d fuel id index r ks :
  arg_ok r = true → index ≤ TERM_ARG_COUNT_MAX → length (ref_lexemes r) ≤ S fuel → ks ≠ [] →
  runs d (ref_lexemes r ++ punct KRParen :: ks) (arg_list (S fuel) id index) (set_arg index r id) ks.
Proof.
  intros Hr Hi Hf Hks. cbn [arg_list]. rewrite decide_False by lia.
  eapply qruns_bind; [apply runs_arg_ref; [done..|by eexists _, _]|]. bump_as. apply qruns_ret.
Qed.

(** An argument and the separator after it. *)
Lemma runs_arg_step d fuel id index r o ks a ks' :
  arg_ok r = true → index ≤ TERM_ARG_COUNT_MAX → length (ref_lexemes r) ≤ S fuel → ks ≠ [] →
  (1 < index → id_extra_oper id = o) →
  runs d ks (arg_list fuel (set_extra_oper o (set_arg index r id)) (S index)) a ks' →
  runs d (ref_lexemes r ++ punct (extra_kind o) :: ks) (arg_list (S fuel) id index) a ks'.
Proof.
  intros Hr Hi Hf Hks Ho Hnext. cbn [arg_list]. rewrite decide_False by lia.
  eapply qruns_bind; [apply runs_arg_ref; [done..|exists (punct (extra_kind o)), ks; by destruct o]|].
  assert (id_extra_oper (set_arg index r id) = id_extra_oper id) as Heq by (by destruct id, index as [|[]]).
  apply qruns_bump; [done|]. intros u Hu. rewrite (kind_of _ _ Hu), Heq.
  destruct o; cbn [extra_kind punct fst]; (rewrite decide_False by naive_solver); done.
Qed.

Definition with_extra (id : IdTerm) (rs : list Ref) : IdTerm :=
  mkIdTerm (id_flag id) (id_first id) (id_src id) (id_second id) (id_extra id ++ rs) (id_extra_oper id).

(** The extra targets. *)
Lemma runs_extras d fuel id index r rs ks :
  forallb arg_ok (r :: rs) = true → 2 ≤ index → index + length rs ≤ TERM_ARG_COUNT_MAX → ks ≠ [] →
  length (ref_lexemes r ++ extra_lexemes (id_extra_oper id) rs) < fuel →
  runs d (ref_lexemes r ++ extra_lexemes (id_extra_oper id) rs ++ punct KRParen :: ks) (arg_list fuel id index)
    (with_extra id (r :: rs)) ks.
Proof.
  revert fuel id index r. induction rs as [|r' rs IH]; intros fuel id index r [Hr Hrs]%andb_true_iff Hi Hmax Hks Hf;
    (destruct fuel as [|fuel]; [lia|]); rewrite length_app in Hf.
  - assert (with_extra id [r] = set_arg index r id) as -> by (by destruct id, index as [|[]]; [lia|lia|]).
    apply runs_arg_last; [done|simpl in Hmax; lia|lia|done].
  - unfold extra_lexemes in *. csimpl. csimpl in Hf. simpl in Hmax. rewrite <- (assoc_L (++)).
    apply runs_arg_step; [done|lia|lia|by auto using app_not_nil|done|].
    set (id' := set_extra_oper (id_extra_oper id) (set_arg index r id)).
    assert (id_extra_oper id' = id_extra_oper id) as Ho by (by destruct id, index as [|[]]).
    assert (with_extra id (r :: r' :: rs) = with_extra id' (r' :: rs)) as ->.
    { destruct id, index as [|[]]; [lia|lia|]. unfold with_extra. simpl. by rewrite <- (assoc_L (++)). }
    rewrite <- Ho. apply (IH fuel id' (S index) r'); [done|lia|lia|done|]. rewrite Ho. lia.
Qed.

Lemma extra_cons o r rs : extra_lexemes o (r :: rs) = punct (extra_kind o) :: ref_lexemes r ++ extra_lexemes o rs.
Proof. reflexivity. Qed.

(** The targets of a pair: [second], then the extra ones. *)
Lemma runs_targets d fuel flag first src second extra o ks :
  arg_ok second = true → forallb arg_ok extra = true → length extra < TERM_ARG_COUNT_MAX → ks ≠ [] →
  (extra = [] → o = XAnd) → length (ref_lexemes second ++ extra_lexemes o extra) < fuel →
  runs d (ref_lexemes second ++ extra_lexemes o extra ++ punct KRParen :: ks)
    (arg_list fuel (mkIdTerm flag first src None [] XAnd) 1)
    (mkIdTerm flag first src (Some second) extra o) ks.
Proof.
  intros Hs Hx Hlen Hks Ho Hf. destruct fuel as [|fuel]; [lia|]. rewrite length_app in Hf. unfold TERM_ARG_COUNT_MAX in *.
  destruct extra as [|r rs].
  - rewrite Ho by done. apply (runs_arg_last d fuel (mkIdTerm flag first src None [] XAnd) 1); [done|unfold TERM_ARG_COUNT_MAX; lia|lia|done].
  - rewrite extra_cons in *. simpl in Hlen, Hf. rewrite length_app in Hf. cbn [app]. rewrite <- (assoc_L (++)).
    apply (runs_arg_step d fuel (mkIdTerm flag first src None [] XAnd) 1);
      [done|unfold TERM_ARG_COUNT_MAX; lia|lia|by auto using app_not_nil|lia|].
    apply (runs_extras d fuel (mkIdTerm flag first src (Some second) [] o) 2); [done|lia|unfold TERM_ARG_COUNT_MAX; lia|done|].
    cbn [id_extra_oper]. rewrite length_app. lia.
Qed.

(** * Term bodies *)

Definition finishes (id : IdTerm) : Prop :=
  id_flag id = None ∧ id_ok id = true ∧ (id_extra id = [] → id_extra_oper id = XAnd).

(** What is left of a component term after its first token. *)
Definition tail_lexemes (id : IdTerm) : list lexeme :=
  pipe_lexemes (rf_traversal (id_first id)) ++
  match id_src id with
  | SImplicit => []
  | SEmpty => [punct KLParen; punct KRParen]
  | SExplicit src => punct KLParen :: args_lexemes src (id_second id) (id_extra_oper id) (id_extra id)
  end.

Lemma runs_args d fuel id ks :
  finishes id → id_src id ≠ SImplicit → ks ≠ [] → length (tail_lexemes id) ≤ fuel →
  runs d (match id_src id with
    | SExplicit src => args_lexemes src (id_second id) (id_extra_oper id) (id_extra id)
    | _ => [punct KRParen]
    end ++ ks) (args fuel (id_first id)) (BId id) ks.
Proof.
  destruct id as [flag first src second extra o]. intros (Hflag & Hok & Hx) Hsrc Hks Hf. simpl in *. subst flag.
  unfold tail_lexemes in Hf. rewrite length_app in Hf. unfold id_ok, targets_ok in Hok. simpl in *.
  apply andb_true_iff in Hok as [[Hfirst Ht]%andb_true_iff Hs]. unfold args. destruct src as [| |src]; [done| |].
  - apply bool_decide_eq_true in Hs as ->. simpl in Ht.
    apply andb_true_iff in Ht as [->%bool_decide_eq_true ->%bool_decide_eq_true].
    cbn [app]. peek_as. rewrite decide_True by done. bump_as. apply qruns_ret.
  - assert (∃ x r, args_lexemes src second o extra ++ ks = x :: r ∧ x.1 ≠ KRParen) as (x & r & Hx0 & Hxk).
    { unfold args_lexemes. rewrite <- (assoc_L (++)).
      destruct (ref_ok_inv src (arg_ref_ok src Hs)) as [(t & -> & Ht')|[(e & -> & He)|[He Ht']]].
      - unfold ref_lexemes. simpl. destruct (traversal_lexemes_cons t Ht') as (w & l & -> & _). by eexists _, _.
      - unfold ref_lexemes. by eexists _, _.
      - destruct src as [e t]. simpl in He. rewrite ref_lexemes_operand by done. eexists _, _. split; [reflexivity|].
        destruct (operand_token e He) as (_ & Ho & _). intros Hk. by rewrite Hk in Ho. }
    rewrite Hx0. apply qruns_peek. intros u Hu. rewrite (kind_of _ _ Hu), decide_False by done. rewrite <- Hx0.
    eapply qruns_bind; [|apply qruns_ret]. unfold args_lexemes in *. rewrite <- !(assoc_L (++)).
    destruct fuel as [|fuel]; [simpl in Hf; lia|]. simpl in Hf. rewrite !length_app in Hf. destruct second as [s|].
    + apply andb_true_iff in Ht as [[Hs2 Hxs]%andb_true_iff Hlen%bool_decide_eq_true].
      cbn [app]. rewrite <- (assoc_L (++)).
      apply (runs_arg_step d fuel (component first) 0 src XAnd); [done|lia|lia|by auto using app_not_nil|lia|].
      apply (runs_targets d fuel None first (SExplicit src) s extra o); [done..|]. simpl in Hf. rewrite length_app in *. lia.
    + apply andb_true_iff in Ht as [->%bool_decide_eq_true ->%bool_decide_eq_true].
      apply (runs_arg_last d fuel (component first) 0 src); [done|lia|lia|done].
Qed.

(** Tokens that end a term. *)
Definition ends_term (ks : list lexeme) : Prop :=
  ∃ x r, ks = x :: r ∧ x.1 ∈ [KComma; KOrOr; KRBrace; KEof].

Lemma ends_term_ref ks : ends_term ks → ends_ref ks.
Proof. intros (x & r & -> & Hx). exists x, r. split_and!; [done|intros He; rewrite He in Hx; set_solver..]. Qed.

Lemma ends_term_not_nil ks : ends_term ks → ks ≠ [].
Proof. by intros (x & r & -> & _). Qed.

Definition paren_lexemes (id : IdTerm) : list lexeme :=
  match id_src id with
  | SImplicit => []
  | SEmpty => [punct KLParen; punct KRParen]
  | SExplicit src => punct KLParen :: args_lexemes src (id_second id) (id_extra_oper id) (id_extra id)
  end.

(** After the first reference: arguments, or none. *)
Lemma runs_paren d fuel id oper ks :
  finishes id → is_pair id = false → ends_term ks → length (tail_lexemes id) ≤ fuel →
  runs d (paren_lexemes id ++ ks)
    (next ← peek;
     if decide (tk_kind next = KLParen) then _ ← bump; b ← args fuel (id_first id); mret (b, oper)
     else mret (BId (component (id_first id)), oper : Oper)) (BId id, oper) ks.
Proof.
  intros Hfin Hpair Hks Hf. pose proof (ends_term_not_nil ks Hks) as Hne.
  destruct (decide (id_src id = SImplicit)) as [Hsrc|Hsrc].
  - unfold paren_lexemes. rewrite Hsrc. destruct Hks as (x & r & -> & Hx). cbn [app].
    apply qruns_peek. intros u Hu. rewrite (kind_of _ _ Hu), decide_False by (intros He; rewrite He in Hx; set_solver).
    destruct Hfin as (Hflag & Hok & _). destruct id as [flag first src second extra o]. simpl in *. subst.
    unfold is_pair in Hpair. simpl in Hpair. destruct second; [done|].
    apply andb_true_iff in Hok as [[_ Ht]%andb_true_iff _].
    apply andb_true_iff in Ht as [He%bool_decide_eq_true Ho%bool_decide_eq_true]. simpl in He, Ho. subst. apply qruns_ret.
  - pose proof (runs_args d fuel id ks Hfin Hsrc Hne Hf) as Hargs. unfold paren_lexemes.
    destruct (id_src id) as [| |src]; [done|..]; cbn [app] in *; peek_as; rewrite decide_True by done; bump_as;
      (eapply qruns_bind; [exact Hargs|apply qruns_ret]).
Qed.

Lemma runs_id_body d fuel id oper ks :
  finishes id → is_pair id = false → ends_term ks → length (tail_lexemes id) ≤ fuel →
  runs d (tail_lexemes id ++ ks) (id_body fuel (rf_expr (id_first id)) oper) (BId id, oper) ks.
Proof.
  intros Hfin Hpair Hks Hf. pose proof (runs_paren d fuel id oper ks Hfin Hpair Hks Hf) as Hparen.
  pose proof (ends_term_not_nil ks Hks) as Hne.
  unfold tail_lexemes in *. fold (paren_lexemes id) in *. rewrite <- (assoc_L (++)). unfold id_body.
  assert (ends_ref (paren_lexemes id ++ ks)) as Hend.
  { unfold paren_lexemes. destruct (id_src id); [by apply ends_term_ref|by eexists _, _..]. }
  destruct (id_first id) as [e [t|]] eqn:Hfirst; cbn [rf_expr rf_traversal pipe_lexemes app] in *.
  - assert (traversal_ok t = true) as Ht.
    { destruct Hfin as (_ & Hok & _). apply andb_true_iff in Hok as [[Hf1 _]%andb_true_iff _].
      rewrite Hfirst in Hf1. by apply andb_true_iff in Hf1 as [_ ?]. }
    peek_as. bump_as. eapply qruns_bind; [apply runs_traversal; [done| |done]|exact Hparen].
    simpl in Hf. rewrite length_app in Hf. lia.
  - assert (∀ x r, paren_lexemes id ++ ks = x :: r → x.1 ∈ [KComma; KOrOr; KRBrace; KEof; KLParen]) as Hkind.
    { unfold paren_lexemes. destruct (id_src id); [destruct Hks as (x0 & r0 & -> & Hx0)|..]; cbn [app];
        intros x r1 [= <- <-]; [|set_solver..]. repeat (apply elem_of_cons in Hx0 as [->|Hx0]; [set_solver|]). by inversion Hx0. }
    destruct Hend as (x & r & Hxr & _). rewrite Hxr in *. specialize (Hkind x r eq_refl).
    intros ps Hps Hd. destruct (Hparen ps Hps Hd) as (ps' & Heq & Hrest). exists ps'. split; [|done].
    rewrite <- Heq. unfold mbind, parser_bind. destruct (qremaining_inv ps x r Hps) as (u & Hu & Hux & _).
    unfold peek. rewrite Hu. cbn [unwrap mbind outcome_bind]. rewrite (kind_of _ _ Hux).
    repeat (apply elem_of_cons in Hkind as [->|Hkind]; [done|]). by inversion Hkind.
Qed.

(** The text of a component term is its first token and the rest. *)
Lemma id_lexemes_component id :
  finishes id → is_pair id = false →
  id_lexemes id = operand_lexeme (rf_expr (id_first id)) :: tail_lexemes id.
Proof.
  intros (Hflag & Hok & _) Hpair. unfold id_lexemes, tail_lexemes. rewrite Hflag. cbn [app].
  apply andb_true_iff in Hok as [[Hf _]%andb_true_iff _]. apply andb_true_iff in Hf as [He _].
  destruct (id_first id) as [e t] eqn:Hfirst. simpl in He. rewrite ref_lexemes_operand by done. cbn [rf_traversal rf_expr].
  unfold is_pair in Hpair. destruct (id_src id); [destruct (id_second id); [done|]|..]; cbn [app]; [by rewrite app_nil_r|done..].
Qed.

Lemma runs_pair_body d fuel id ks :
  finishes id → is_pair id = true → ks ≠ [] → length (id_lexemes id) ≤ fuel →
  ∃ r, id_lexemes id = punct KLParen :: r ∧ runs d (r ++ ks) (pair_body fuel) (BId id) ks.
Proof.
  destruct id as [flag first src second extra o]. intros (Hflag & Hok & Hx) Hpair Hks Hf. simpl in *. subst flag.
  unfold is_pair in Hpair. simpl in Hpair. destruct src; try done. destruct second as [second|]; [|done].
  unfold id_lexemes, pair_lexemes in *. simpl in *. eexists. split; [reflexivity|].
  unfold id_ok, targets_ok in Hok. simpl in Hok.
  apply andb_true_iff in Hok as [[Hfirst [[Hs Hxs]%andb_true_iff Hlen%bool_decide_eq_true]%andb_true_iff]%andb_true_iff _].
  destruct first as [e t]. apply andb_true_iff in Hfirst as [He Ht]. simpl in He, Ht.
  rewrite ref_lexemes_operand in * by done. destruct (operand_token e He) as (_ & Ho & Hc & _).
  cbn [app]. rewrite <- !(assoc_L (++)). cbn [app]. rewrite <- !(assoc_L (++)). simpl in Hf. rewrite !length_app in Hf. simpl in Hf. rewrite !length_app in Hf.
  unfold pair_body. apply qruns_bump; [auto using app_not_nil|]. intros u Hu. rewrite (kind_of _ _ Hu), Ho.
  eapply runs_lift; [by apply Hc|]. eapply qruns_bind; [apply runs_pipe_traversal; [done|lia|by eexists _, _]|].
  apply qruns_expect; [done|auto using app_not_nil|]. intros _ _.
  eapply qruns_bind; [|apply qruns_ret]. apply (runs_targets d fuel None (mkRef e t) SImplicit second extra o); [done..|].
  rewrite length_app. lia.
Qed.

(** * Predicates *)

Lemma runs_eq_body d fuel e o ks :
  eq_term_ok o e = true → ks ≠ [] →
  runs d (tail (eq_lexemes e (bool_decide (o = ONot))) ++ ks) (id_body fuel (eq_left e) OAnd)
    (BEq e, if decide (o = ONot) then ONot else OAnd) ks.
Proof.
  intros [[Ho Hl]%andb_true_iff Hr]%andb_true_iff Hks. destruct e as [left op operand]. unfold eq_lexemes. simpl in *.
  destruct (operand_token left Hl) as [-> _]. cbn [app tail]. unfold id_body.
  set (neg := bool_decide (o = ONot)) in *.
  assert ((if decide (o = ONot) then ONot else OAnd) = if neg then ONot else OAnd) as ->
    by (unfold neg; rewrite bool_decide_decide; by destruct (decide (o = ONot))).
  assert (∀ n0, (op = EqEq → n0 = neg) → (op = EqMatch → n0 = false) →
    runs d (match operand with EqRef r => expr_lexemes r | EqName w => [(KStr, eq_string op neg w)] end ++ ks)
      (eq_body left op n0 OAnd) (BEq (mkEqTerm left op operand), if neg then ONot else OAnd) ks) as Hbody.
  { intros n0 H1 H2. unfold eq_body. rewrite decide_True by done.
    eapply (qruns_bind _ _ _ (operand, neg)); [|apply qruns_ret]. unfold eq_operand. destruct operand as [r|w].
    - apply andb_true_iff in Hr as [Hr Hm%negb_true_iff%bool_decide_eq_false].
      destruct (operand_token r Hr) as (-> & Hop & Hc & _). apply qruns_bump; [done|]. intros u Hu.
      rewrite (kind_of _ _ Hu), Hop. eapply runs_lift; [by apply Hc|].
      assert (n0 = neg) as ->; [|apply qruns_ret]. destruct op; [by apply H1|]. rewrite H2 by done.
      symmetry. apply bool_decide_eq_false. naive_solver.
    - apply negb_true_iff, bool_decide_eq_false in Hr. cbn [app]. bump_as. cbn [is_operand]. rewrite decide_True by done.
      destruct op; [rewrite H1 by done; apply qruns_ret|]. rewrite H2 by done. cbn [eq_string].
      destruct neg eqn:Hneg; [apply qruns_ret|]. apply bool_decide_eq_false in Hneg.
      destruct w as [|c w]; [apply qruns_ret|]. rewrite decide_False; [apply qruns_ret|]. intros ->. by apply Hr. }
  destruct op; [destruct neg eqn:Hneg|]; cbn [eq_kind]; peek_as; bump_as; try (by apply Hbody);
    destruct operand; try done; apply app_not_nil; done.
Qed.

(** * Terms *)

Lemma runs_ref_expr d e ks : operand_ok e = true → ks ≠ [] → runs d (operand_lexeme e :: ks) ref_expr e ks.
Proof.
  intros He Hks. destruct (operand_token e He) as (_ & _ & Hc & _). unfold ref_expr.
  apply qruns_bump; [done|]. intros u Hu. rewrite (Hc u Hu). intros ps Hps Hd. by exists ps.
Qed.

Lemma finishes_first id : finishes id → operand_ok (rf_expr (id_first id)) = true.
Proof.
  intros (_ & Hok & _). apply andb_true_iff in Hok as [[Hf _]%andb_true_iff _]. by apply andb_true_iff in Hf as [? _].
Qed.

(** A component term from its first token on. *)
Lemma runs_component d fuel id oper ks :
  finishes id → is_pair id = false → ends_term ks → length (id_lexemes id) ≤ fuel →
  runs d (id_lexemes id ++ ks) (first ← ref_expr; id_body fuel first oper) (BId id, oper) ks.
Proof.
  intros Hfin Hpair Hks Hf. rewrite id_lexemes_component in * by done. cbn [app].
  eapply qruns_bind; [apply runs_ref_expr; [by apply finishes_first|]|].
  - apply app_not_nil. by apply ends_term_not_nil.
  - apply runs_id_body; [done..|]. simpl in Hf. lia.
Qed.

Definition flagged (flag : option IdFlag) (id : IdTerm) : IdTerm :=
  mkIdTerm flag (id_first id) (id_src id) (id_second id) (id_extra id) (id_extra_oper id).

Lemma runs_keyword_operand d fuel flag oper id ks :
  finishes id → ends_term ks → length (id_lexemes id) ≤ fuel →
  runs d (id_lexemes id ++ ks) (keyword_operand fuel flag oper) (BId (flagged flag id), oper) ks.
Proof.
  intros Hfin Hks Hf. pose proof (ends_term_not_nil ks Hks) as Hne. unfold keyword_operand.
  assert (BId (flagged flag id) = set_id_flag flag (BId id)) as -> by (by destruct id).
  destruct (is_pair id) eqn:Hpair.
  - destruct (runs_pair_body d fuel id ks Hfin Hpair Hne Hf) as (r & Hr & Hrun). rewrite Hr. cbn [app].
    peek_as. eapply (qruns_bind _ _ _ (BId id, oper)); [|apply qruns_ret].
    rewrite decide_True by done. bump_as. eapply qruns_bind; [exact Hrun|apply qruns_ret].
  - pose proof (runs_component d fuel id oper ks Hfin Hpair Hks Hf) as Hrun.
    rewrite id_lexemes_component in * by done. cbn [app] in *. apply qruns_peek. intros u Hu.
    destruct (operand_token _ (finishes_first id Hfin)) as (_ & Ho & _).
    rewrite (kind_of _ _ Hu), decide_False by (intros He; by rewrite He in Ho).
    eapply (qruns_bind _ _ _ (BId id, oper)); [exact Hrun|apply qruns_ret].
Qed.

Lemma runs_keyword_none d x r : (x.1 = KIdent → keyword_of x.2 = None) → runs d (x :: r) keyword None (x :: r).
Proof.
  intros Hx. unfold keyword. apply qruns_peek. intros u Hu. rewrite (kind_of _ _ Hu), (text_of _ _ Hu).
  case_decide; [rewrite Hx by done|]; apply qruns_ret.
Qed.

Lemma runs_keyword_some d w k r :
  keyword_of w = Some k → r ≠ [] → runs d ((KIdent, w) :: punct KPipe :: r) keyword (Some k) r.
Proof.
  intros Hk Hr. unfold keyword. peek_as. rewrite decide_True by done. rewrite Hk. bump_as.
  apply qruns_expect; [done..|]. intros _ _. apply qruns_ret.
Qed.

(** The prefix [!] or [?] that [oper_prefix] reads. *)
Definition prefix_of (o : Oper) (neg_eq : bool) : Oper :=
  match o with ONot => if neg_eq then OAnd else ONot | OOptional => OOptional | _ => OAnd end.
Definition prefix_lexemes (o : Oper) (neg_eq : bool) : list lexeme :=
  match o with ONot => if neg_eq then [] else [punct KBang] | OOptional => [punct KQuestion] | _ => [] end.
Definition keyword_lexemes (o : Oper) : list lexeme :=
  match o with
  | OAndFrom => [word "and"; punct KPipe]
  | OOrFrom => [word "or"; punct KPipe]
  | ONotFrom => [word "not"; punct KPipe]
  | _ => []
  end.

Lemma oper_lexemes_split o neg : oper_lexemes o neg = prefix_lexemes o neg ++ keyword_lexemes o.
Proof. by destruct o, neg. Qed.

Lemma runs_oper_prefix d o neg x r :
  x.1 ≠ KBang → x.1 ≠ KQuestion → runs d (prefix_lexemes o neg ++ x :: r) oper_prefix (prefix_of o neg) (x :: r).
Proof.
  intros Hb Hq. assert (runs d (x :: r) oper_prefix OAnd (x :: r)) as Hnone.
  { unfold oper_prefix. apply qruns_peek. intros u Hu. rewrite (kind_of _ _ Hu). destruct (x.1); try done; apply qruns_ret. }
  destruct o; try exact Hnone.
  - destruct neg; [exact Hnone|]. unfold oper_prefix. cbn [prefix_lexemes app]. peek_as. bump_as. apply qruns_ret.
  - unfold oper_prefix. cbn [prefix_lexemes app]. peek_as. bump_as. apply qruns_ret.
Qed.

Lemma runs_access d a x r : x.1 ≠ KLBracket → runs d (access_lexemes a ++ x :: r) access a (x :: r).
Proof.
  intros Hx. unfold access. destruct a as [a|]; cbn [access_lexemes app].
  - peek_as. rewrite decide_True by done. bump_as. apply qruns_expect; [done..|]. intros u Hu.
    eapply runs_lift; [unfold access_of; rewrite (text_of _ _ Hu); destruct a; reflexivity|].
    apply qruns_expect; [done..|]. intros _ _. apply qruns_ret.
  - apply qruns_peek. intros u Hu. rewrite (kind_of _ _ Hu), decide_False by done. apply qruns_ret.
Qed.

(** The tokens of a body, keyword included, and what the parser makes of it. *)
Definition body_lexemes (o : Oper) (body : TermBody) : list lexeme :=
  keyword_lexemes o ++
  match body with
  | BId id => id_lexemes id
  | BEq e => eq_lexemes e (bool_decide (o = ONot))
  | BScope q => punct KLBrace :: terms_lexemes term_lexemes None q ++ [punct KRBrace]
  end.

(** Before the separator, the operator of an [||] is not known yet. *)
Definition unor (o : Oper) : Oper := match o with OOr => OAnd | o => o end.

Lemma runs_scope d fuel scope q a oper ks :
  a = None → S d ≤ SCOPE_DEPTH_MAX → ks ≠ [] →
  runs (S d) (terms_lexemes term_lexemes None q ++ punct KRBrace :: ks) scope q ks →
  runs d (punct KLBrace :: terms_lexemes term_lexemes None q ++ punct KRBrace :: ks)
    (term_body fuel scope a oper) (BScope q, oper) ks.
Proof.
  intros -> Hd Hks Hscope. unfold term_body. peek_as. rewrite decide_True by done. bump_as.
  intros ps Hps Hdep. destruct (Hscope (mkParser (ps_tokens ps) (ps_index ps) (S d))) as (ps' & Heq & Hr & Hd'); [done..|].
  exists (mkParser (ps_tokens ps') (ps_index ps') d). split; [|done].
  unfold mbind, parser_bind, depth_add. rewrite Hdep, decide_False by lia. rewrite Heq. unfold depth_sub. by rewrite Hd'.
Qed.

(** The first token of a body. *)
Lemma body_lexemes_head D a o body :
  term_ok D (mkTerm a o body) = true →
  ∃ x r, body_lexemes o body = x :: r ∧ x.1 ∈ [KIdent; KStar; KLParen; KLBrace].
Proof.
  intros Hok. unfold body_lexemes. destruct (keyword_lexemes o) as [|x r] eqn:Hk.
  - cbn [app]. assert (∀ e, operand_ok e = true → (operand_lexeme e).1 ∈ [KIdent; KStar; KLParen; KLBrace]) as Hop.
    { intros e He. destruct e; try done; simpl; set_solver. }
    destruct body as [id|e|q]; [..|eexists _, _; split; [reflexivity|set_solver]].
    + assert (id_ok id = true) as Hid by (destruct D; by apply andb_true_iff in Hok as [? _]).
      apply andb_true_iff in Hid as [[Hf _]%andb_true_iff _]. apply andb_true_iff in Hf as [He _].
      unfold id_lexemes, pair_lexemes. destruct (id_flag id); [eexists _, _; split; [reflexivity|set_solver]|].
      destruct (id_first id) as [e t]. simpl in He. rewrite ref_lexemes_operand by done.
      destruct (id_src id); [destruct (id_second id)|..]; eexists _, _; (split; [reflexivity|]); [set_solver|auto..].
    + assert (eq_term_ok o e = true) as He by (by destruct D). apply andb_true_iff in He as [[_ He]%andb_true_iff _].
      unfold eq_lexemes. destruct (operand_token _ He) as [-> _]. eexists _, _. split; [reflexivity|auto].
  - exists x, (r ++ match body with
      | BId id => id_lexemes id
      | BEq e => eq_lexemes e (bool_decide (o = ONot))
      | BScope q => punct KLBrace :: terms_lexemes term_lexemes None q ++ [punct KRBrace] end).
    split; [done|]. destruct o; simplify_eq/=; set_solver.
Qed.

Lemma lossless_finishes id : id_ok id = true → id_lossless id = true → finishes (unflagged id).
Proof.
  intros Hok [_ Ho]%andb_true_iff. split; [done|]. split; [exact Hok|]. cbn [unflagged id_extra id_extra_oper].
  intros He. apply negb_true_iff, bool_decide_eq_false in Ho. destruct (id_extra_oper id); [done|naive_solver].
Qed.

Definition term_prefix (o : Oper) (body : TermBody) : Oper := prefix_of o (is_eq body).

(** Bodies that start with an operand which is not a keyword there. *)
Lemma runs_operand_body d fuel scope a oper x r (b : TermBody * Oper) ks :
  is_operand x.1 = true → (oper = OAnd → x.1 = KIdent → keyword_of x.2 = None) →
  runs d (x :: r) (first ← ref_expr; id_body fuel first oper) b ks →
  runs d (x :: r) (term_body fuel scope a oper) b ks.
Proof.
  intros Hx Hkw Hrun. unfold term_body. apply qruns_peek. intros u Hu. rewrite (kind_of _ _ Hu).
  assert (runs d (x :: r) (k ← (if decide (oper = OAnd) then keyword else mret None);
    match k with
    | Some (KwOper keyword_oper) => keyword_operand fuel None keyword_oper
    | Some (KwFlag flag) => keyword_operand fuel (Some flag) oper
    | None => first ← ref_expr; id_body fuel first oper
    end) b ks) as Hk.
  { eapply (qruns_bind _ _ _ None); [|exact Hrun]. case_decide; [|apply qruns_ret].
    apply runs_keyword_none. auto. }
  destruct (x.1); done.
Qed.

(** Bodies after a keyword. *)
Lemma runs_keyword_body d fuel scope a w k r b ks :
  keyword_of w = Some k → r ≠ [] →
  runs d r match k with
           | KwOper keyword_oper => keyword_operand fuel None keyword_oper
           | KwFlag flag => keyword_operand fuel (Some flag) OAnd
           end b ks →
  runs d ((KIdent, w) :: punct KPipe :: r) (term_body fuel scope a OAnd) b ks.
Proof.
  intros Hk Hr Hrun. unfold term_body. peek_as. rewrite decide_True by done.
  eapply (qruns_bind _ _ _ (Some k)); [by apply runs_keyword_some|]. by destruct k.
Qed.

Lemma runs_id_term d fuel scope a o id ks :
  id_term_ok o id = true → id_lossless id = true → ends_term ks → length (body_lexemes o (BId id)) ≤ fuel →
  runs d (body_lexemes o (BId id) ++ ks) (term_body fuel scope a (term_prefix o (BId id))) (BId id, unor o) ks.
Proof.
  intros [Hok Hflag]%andb_true_iff Hl Hks Hf. pose proof (lossless_finishes id Hok Hl) as Hfin.
  pose proof (ends_term_not_nil ks Hks) as Hne. unfold body_lexemes, term_prefix in *. cbn [is_eq] in *.
  destruct (id_flag id) as [flag|] eqn:Hid.
  - assert (o = OAnd ∨ o = OOr) as Ho by (by apply bool_decide_eq_true in Hflag).
    assert (id_lexemes id = word (flag_word flag) :: punct KPipe :: id_lexemes (unflagged id)) as Heq
      by (unfold id_lexemes; by rewrite Hid).
    assert (keyword_lexemes o = [] ∧ prefix_of o false = OAnd ∧ unor o = OAnd) as (Hkl & -> & ->) by (by destruct Ho as [->| ->]).
    rewrite Hkl, Heq in *. cbn [app] in *.
    apply (runs_keyword_body d fuel scope a _ (KwFlag flag)); [by destruct flag|by auto using app_not_nil|].
    assert (BId id = BId (flagged (Some flag) (unflagged id))) as -> by (destruct id; simpl in *; by rewrite Hid).
    apply runs_keyword_operand; [done..|]. simpl in Hf. lia.
  - assert (unflagged id = id) as Hun by (destruct id; simpl in *; by rewrite Hid). rewrite Hun in Hfin.
    destruct (keyword_lexemes o) as [|x r] eqn:Hkl.
    + cbn [app] in *. destruct (is_pair id) eqn:Hpair.
      * destruct (runs_pair_body d fuel id ks Hfin Hpair Hne Hf) as (r & Hr & Hrun). rewrite Hr. cbn [app].
        unfold term_body. peek_as. bump_as. eapply qruns_bind; [exact Hrun|]. destruct o; try done; apply qruns_ret.
      * assert (prefix_of o false = unor o) as -> by (by destruct o).
        pose proof (runs_component d fuel id (unor o) ks Hfin Hpair Hks Hf) as Hrun.
        destruct (operand_token _ (finishes_first id Hfin)) as (_ & Hop & _ & _ & Hkw).
        rewrite id_lexemes_component in * by done. cbn [app] in *. apply runs_operand_body; [done| |done].
        intros Ho. apply Hkw. destruct o; try done; simpl in Hflag; by apply negb_true_iff.
    + assert (∃ w, x :: r = [word w; punct KPipe] ∧ keyword_of (chars_of w) = Some (KwOper o) ∧ prefix_of o false = OAnd ∧ unor o = o)
        as (w & Hw & Hkw & -> & ->) by (destruct o; try done; eexists; split_and!; done).
      rewrite Hw in *. cbn [app] in *.
      apply (runs_keyword_body d fuel scope a _ (KwOper o)); [done|by auto using app_not_nil|].
      assert (BId id = BId (flagged None id)) as -> by (destruct id; simpl in *; by rewrite Hid).
      apply runs_keyword_operand; [done..|]. simpl in Hf. lia.
Qed.

Lemma runs_eq_term d fuel scope a o e ks :
  eq_term_ok o e = true → eq_lossless e = true → ends_term ks →
  runs d (body_lexemes o (BEq e) ++ ks) (term_body fuel scope a (term_prefix o (BEq e))) (BEq e, unor o) ks.
Proof.
  intros Hok [[_ Hkw%negb_true_iff]%andb_true_iff _]%andb_true_iff Hks. pose proof (ends_term_not_nil ks Hks) as Hne.
  pose proof Hok as [[Ho%bool_decide_eq_true Hl]%andb_true_iff _]%andb_true_iff.
  pose proof (runs_eq_body d fuel e o ks Hok Hne) as Hrun.
  assert (keyword_lexemes o = [] ∧ prefix_of o true = OAnd ∧ unor o = if decide (o = ONot) then ONot else OAnd)
    as (Hk & Hp & ->) by (by destruct Ho as [->|[->| ->]]).
  unfold body_lexemes, term_prefix. cbn [is_eq]. rewrite Hk, Hp. cbn [app].
  destruct (operand_token _ Hl) as (Hlex & Hop & _ & _ & Hkey).
  unfold eq_lexemes in *. rewrite Hlex in *. cbn [app tail] in *.
  apply runs_operand_body; [done|auto|].
  eapply qruns_bind; [apply runs_ref_expr; [done|by auto using app_not_nil]|]. exact Hrun.
Qed.

Lemma term_lexemes_split a o body :
  term_lexemes (mkTerm a o body) = access_lexemes a ++ prefix_lexemes o (is_eq body) ++ body_lexemes o body.
Proof.
  cbn [term_lexemes]. unfold body_lexemes. rewrite oper_lexemes_split, <- !(assoc_L (++)).
  f_equal. f_equal. by destruct o, body.
Qed.

Lemma runs_term d fuel scope a o body ks :
  term_ok (SCOPE_DEPTH_MAX - d) (mkTerm a o body) = true → term_lossless (mkTerm a o body) = true → ends_term ks →
  length (term_lexemes (mkTerm a o body)) ≤ fuel →
  (∀ q, body = BScope q → S d ≤ SCOPE_DEPTH_MAX →
     runs (S d) (terms_lexemes term_lexemes None q ++ punct KRBrace :: ks) scope q ks) →
  runs d (term_lexemes (mkTerm a o body) ++ ks) (term fuel scope) (mkTerm a (unor o) body) ks.
Proof.
  intros Hok Hl Hks Hf Hscope. pose proof (ends_term_not_nil ks Hks) as Hne.
  rewrite term_lexemes_split in *. rewrite !length_app in Hf. rewrite <- !(assoc_L (++)).
  assert (runs d (body_lexemes o body ++ ks) (term_body fuel scope a (term_prefix o body)) (body, unor o) ks) as Hbody.
  { destruct body as [id|e|q].
    - apply runs_id_term; [by destruct (SCOPE_DEPTH_MAX - d)|done..|lia].
    - apply runs_eq_term; [by destruct (SCOPE_DEPTH_MAX - d)|done..].
    - destruct (SCOPE_DEPTH_MAX - d) as [|D] eqn:HD; [simpl in Hok; by rewrite andb_false_r in Hok|].
      apply andb_true_iff in Hok as [[Ha%bool_decide_eq_true Ho%bool_decide_eq_true]%andb_true_iff _].
      unfold body_lexemes, term_prefix in *. cbn [is_eq]. assert (keyword_lexemes o = [] ∧ prefix_of o false = unor o) as [-> ->]
        by (by destruct Ho as [->|[->|[->| ->]]]).
      cbn [app]. rewrite <- (assoc_L (++)). apply runs_scope; [done|lia|done|]. apply Hscope; [done|lia]. }
  destruct (body_lexemes_head _ _ _ _ Hok) as (x & r & Hx & Hkind). rewrite Hx in *. cbn [app] in *.
  assert (x.1 ≠ KLBracket ∧ x.1 ≠ KBang ∧ x.1 ≠ KQuestion) as (? & ? & ?)
    by (split_and!; intros He; rewrite He in Hkind; set_solver).
  unfold term. apply (qruns_bind _ _ _ a (prefix_lexemes o (is_eq body) ++ x :: r ++ ks)).
  - destruct (prefix_lexemes o (is_eq body)) as [|y l] eqn:Hp; cbn [app]; apply runs_access; [done|].
    by destruct o, (is_eq body); simplify_eq/=.
  - eapply qruns_bind; [by apply runs_oper_prefix|]. eapply qruns_bind; [exact Hbody|]. apply qruns_ret.
Qed.

(** ** Term lists *)

Lemma runs_separator_end d a o body ks :
  o ≠ OOr → (∃ x r, ks = x :: r ∧ (x.1 = KEof ∨ x.1 = KRBrace)) →
  runs d ks (separator (mkTerm a (unor o) body)) (mkTerm a o body) ks.
Proof.
  intros Ho (x & r & -> & Hx). unfold separator. apply qruns_peek. intros u Hu. rewrite (kind_of _ _ Hu).
  assert (unor o = o) as -> by (by destruct o). destruct Hx as [->| ->]; apply qruns_ret.
Qed.

Lemma runs_separator_next d a o body x r :
  x.1 ≠ KEof → x.1 ≠ KRBrace →
  runs d (separator_lexeme o :: x :: r) (separator (mkTerm a (unor o) body)) (mkTerm a o body) (x :: r).
Proof.
  intros He Hb. unfold separator. destruct (decide (o = OOr)) as [->|Ho].
  - peek_as. bump_as. cbn [unor]. rewrite decide_True by done. apply qruns_peek. intros v Hv.
    rewrite (kind_of _ _ Hv), decide_False by naive_solver. apply qruns_ret.
  - assert (separator_lexeme o = punct KComma ∧ unor o = o) as [-> ->] by (by destruct o).
    peek_as. bump_as. apply qruns_ret.
Qed.

Lemma term_lexemes_head D t ks :
  term_ok D t = true → ∃ x r, term_lexemes t ++ ks = x :: r ∧ x.1 ≠ KEof ∧ x.1 ≠ KRBrace ∧ x.1 ≠ KNumber.
Proof.
  destruct t as [a o body]. intros Hok. rewrite term_lexemes_split.
  destruct (body_lexemes_head _ _ _ _ Hok) as (x & r & -> & Hk).
  destruct a; [by eexists _, _|]. cbn [access_lexemes app].
  destruct (prefix_lexemes o (is_eq body)) as [|y l] eqn:Hp.
  - eexists _, _. split; [reflexivity|]. split_and!; intros He; rewrite He in Hk; set_solver.
  - eexists _, _. split; [reflexivity|]. by destruct o, (is_eq body); simplify_eq/=.
Qed.

(** The token that closes a term list, and what is ahead after it. *)
Definition closing (context : ScopeContext) (ks : list lexeme) : list lexeme :=
  match context with TopLevel => [eof] | InScope => punct KRBrace :: ks end.
Definition after (context : ScopeContext) (ks : list lexeme) : list lexeme :=
  match context with TopLevel => [eof] | InScope => ks end.

Lemma closing_end context ks : ∃ x r, closing context ks = x :: r ∧ (x.1 = KEof ∨ x.1 = KRBrace).
Proof. destruct context; eexists _, _; (split; [reflexivity|auto]). Qed.

Lemma runs_terms fuel d context acc q ks :
  terms_ok (SCOPE_DEPTH_MAX - d) q = true → forallb term_lossless q = true → ks ≠ [] →
  length (terms_lexemes term_lexemes None q) < fuel →
  runs d (terms_lexemes term_lexemes None q ++ closing context ks) (terms fuel context acc) (acc ++ q) (after context ks).
Proof.
  revert d context acc q ks. induction fuel as [|fuel IH]; intros d context acc q ks Hok Hl Hks Hf; [lia|].
  cbn [terms]. destruct q as [|[a o body] q].
  { rewrite app_nil_r. cbn [terms_lexemes app]. destruct context; cbn [closing after]; peek_as.
    - rewrite decide_True by done. rewrite decide_False by done. apply qruns_ret.
    - rewrite decide_False by done. rewrite decide_True by done. bump_as. apply qruns_ret. }
  apply andb_true_iff in Hok as [[Ht Hq]%andb_true_iff Hend]. apply andb_true_iff in Hl as [Hlt Hlq].
  cbn [terms_lexemes app tm_oper] in *. rewrite <- (assoc_L (++)). rewrite length_app in Hf.
  set (rest := terms_lexemes term_lexemes (Some o) q ++ closing context ks).
  destruct (term_lexemes_head _ _ rest Ht) as (x & r & Hx & He & Hb & _). rewrite Hx.
  apply qruns_peek. intros u Hu. rewrite (kind_of _ _ Hu). rewrite decide_False by done. rewrite decide_False by naive_solver.
  rewrite <- Hx. clear x r Hx He Hb u Hu. subst rest.
  assert (0 < length (term_lexemes (mkTerm a o body))) as Hpos.
  { destruct (term_lexemes_head _ _ [] Ht) as (x & r & Hx & _). rewrite app_nil_r in Hx. rewrite Hx. simpl. lia. }
  assert (ends_term (terms_lexemes term_lexemes (Some o) q ++ closing context ks)) as Hnext.
  { destruct q; cbn [terms_lexemes app].
    - destruct context; eexists _, _; (split; [reflexivity|set_solver]).
    - eexists _, _. split; [reflexivity|]. destruct o; set_solver. }
  eapply qruns_bind; [apply runs_term; [done..|lia|]|].
  - intros q' -> Hd. cbn [term_lexemes] in Hf. rewrite !length_app in Hf. simpl in Hf. rewrite length_app in Hf.
    apply (IH (S d) InScope [] q' (terms_lexemes term_lexemes (Some o) q ++ closing context ks)); [| |by apply ends_term_not_nil|lia].
    + destruct (SCOPE_DEPTH_MAX - d) as [|D] eqn:HD; [lia|]. replace (SCOPE_DEPTH_MAX - S d) with D by lia.
      by apply andb_true_iff in Ht as [_ ?].
    + done.
  - replace (acc ++ mkTerm a o body :: q) with ((acc ++ [mkTerm a o body]) ++ q) by (by rewrite <- (assoc_L (++))).
    assert (q ≠ [] → ends_closed q = true) as Hend'.
    { intros Hne. unfold ends_closed in *. destruct q; [done|]. exact Hend. }
    destruct q as [|t2 q].
    + eapply qruns_bind.
      * apply runs_separator_end; [|apply closing_end]. intros ->. done.
      * apply (IH d context (acc ++ [mkTerm a o body]) [] ks); [done..|]. simpl. lia.
    + cbn [terms_lexemes app].
      assert (term_ok (SCOPE_DEPTH_MAX - d) t2 = true) as Ht2 by (by apply andb_true_iff in Hq as [? _]).
      destruct (term_lexemes_head _ _ (terms_lexemes term_lexemes (Some (tm_oper t2)) q ++ closing context ks) Ht2)
        as (x & r & Hx & He & Hb & _).
      apply (qruns_bind _ _ _ (mkTerm a o body) (x :: r)).
      * rewrite <- (assoc_L (++)), Hx. by apply runs_separator_next.
      * rewrite <- Hx, (assoc_L (++)).
        apply (IH d context (acc ++ [mkTerm a o body]) (t2 :: q) ks); [|done..|].
        -- apply andb_true_iff. split; [exact Hq|by apply Hend'].
        -- simpl in Hf |- *. lia.
Qed.

(** * The round trip *)

(** A printed query is not the text of the empty one. *)
Lemma written_not_zero t q :
  well_formed (t :: q) = true → lossless (t :: q) = true → write_terms show_term None (t :: q) ≠ chars_of "0".
Proof.
  intros Hwf Hl Heq. pose proof (lexed_query (t :: q) Hwf Hl) as Hlex. rewrite Heq in Hlex.
  destruct (Hlex 2 [] 0) as (ts & Hloop & Hts); [simpl; lia|].
  assert (ts = [mkToken KNumber (chars_of "0") (mkSpan 0 1); mkToken KEof [] (span_at 1)]) as -> by (by injection Hloop as <-).
  apply andb_true_iff in Hwf as [[Ht _]%andb_true_iff _]. cbn [terms_lexemes app] in Hts. rewrite <- (assoc_L (++)) in Hts.
  destruct (term_lexemes_head _ _ (terms_lexemes term_lexemes (Some (tm_oper t)) q ++ [eof]) Ht) as (x & r & Hx & _ & _ & Hn).
  rewrite Hx in Hts. injection Hts as <- _. by apply Hn.
Qed.

Lemma parse_show q :
  well_formed q = true → lossless q = true → parse (show_query q) = Ok q.
Proof.
  intros Hwf Hl. destruct q as [|t q]; [done|].
  assert (show_query (t :: q) = write_terms show_term None (t :: q)) as -> by done.
  unfold parse. rewrite decide_False by (by apply written_not_zero).
  destruct (lexed_query (t :: q) Hwf Hl (S (length (write_terms show_term None (t :: q)))) [] 0) as (ts & Hlex & Hts); [lia|].
  unfold lex. rewrite Hlex. cbn [app mbind outcome_bind].
  assert (length ts = length (terms_lexemes term_lexemes None (t :: q)) + 1) as Hlen.
  { rewrite <- (length_fmap lexeme_of), Hts, length_app. done. }
  destruct (runs_terms (S (length ts)) 0 TopLevel [] (t :: q) [eof] Hwf Hl ltac:(done) ltac:(lia) (mkParser ts 0 0))
    as (ps' & Hrun & _); [done..|].
  by rewrite Hrun.
Qed.

(** What the canonical form loses: the operator of a pair without extra targets,
    which is printed as a comma; escaped names and variables; a left operand that
    is a keyword. *)
Lemma canonical_form_loses :
  (∃ q q', parse (chars_of "Rel($this || a)") = Ok q ∧ parse (show_query q) = Ok q' ∧ q ≠ q') ∧
  (∃ q q', parse (chars_of "a\\b") = Ok q ∧ parse (show_query q) = Ok q' ∧ q ≠ q') ∧
  (∃ q e, parse (chars_of "$a\ b") = Ok q ∧ parse (show_query q) = Err e) ∧
  (∃ q e, parse (chars_of "toggle|and == x") = Ok q ∧ parse (show_query q) = Err e).
Proof.
  split_and!; do 2 eexists.
  - split; [vm_compute; reflexivity|]. split; [vm_compute; reflexivity|]. discriminate.
  - split; [vm_compute; reflexivity|]. split; [vm_compute; reflexivity|]. discriminate.
  - split; [vm_compute; reflexivity|vm_compute; reflexivity].
  - split; [vm_compute; reflexivity|vm_compute; reflexivity].
Qed.

(** C20. The canonical form of a query parses back to the query, under the
    conditions of [lossless]: its names have dots one at a time, a backslash only
    before a dot, a star only after one, and angle brackets only as template
    arguments; its variables and relationships have identifier characters only; no
    pair without extra targets has the operator of [||]; and no left operand of
    an equality is a keyword.  The parser's own queries are well-formed, so each
    of these parses back if [lossless].  Without the conditions the documented round
    trip of [fmt.rs] fails: the parser accepts [Rel($this || a)] and an escaped
    backslash, which read back as other queries, and an escaped variable and
    [toggle|and == x], which do not read back. *)
Theorem query_roundtrip :
  (∀ q, well_formed q = true → lossless q = true → parse (show_query q) = Ok q) ∧
  (∀ src q, parse src = Ok q → lossless q = true → parse (show_query q) = Ok q) ∧
  (∃ q q', parse (chars_of "Rel($this || a)") = Ok q ∧ parse (show_query q) = Ok q' ∧ q ≠ q') ∧
  (∃ q q', parse (chars_of "a\\b") = Ok q ∧ parse (show_query q) = Ok q' ∧ q ≠ q') ∧
  (∃ q e, parse (chars_of "$a\ b") = Ok q ∧ parse (show_query q) = Err e) ∧
  (∃ q e, parse (chars_of "toggle|and == x") = Ok q ∧ parse (show_query q) = Err e).
Proof.
  split; [exact parse_show|]. split; [|exact canonical_form_loses].
  intros src q Hp Hl. apply parse_show; [|done]. pose proof (parse_ends src) as He. by rewrite Hp in He.
Qed.

Lemma query_roundtrip_witness :
  parse (show_query [mkTerm (Some AIn) OOr (BId (component (plain (RName (chars_of "A.b\. c"))))); mkTerm None ONot (BScope [])])
  = Ok [mkTerm (Some AIn) OOr (BId (component (plain (RName (chars_of "A.b\. c"))))); mkTerm None ONot (BScope [])].
Proof.
  apply (proj1 query_roundtrip); vm_compute; reflexivity.
Defined.

