(* ===== verification/EditApplier.v ===== *)
(** Byte-range edits of [packages/edit-applier/src/lib.rs]: the overlap check
    and the right-to-left splicing, against left-to-right rewriting.

    A [String] is the list of its chars and a range counts bytes; a range that
    does not start and end between chars makes [replace_range] panic. *)

From stdpp Require Import base gmap sets list strings sorting.
From S2P Require Import Prelude Chars.

(** * Data *)

Record Edit := mkEdit { ed_file : nat; ed_start : nat; ed_end : nat; ed_replacement : text }.
#[export] Instance Edit_eq_dec : EqDecision Edit.
Proof. solve_decision. Defined.

Abbreviation PathBuf := text.
Definition Source : Type := PathBuf * text.
Record FileRewrite := mkRewrite { rw_path : PathBuf; rw_content : text }.
Record OverlapError := mkOverlap {
  ov_path : PathBuf; first_start : nat; first_end : nat; second_start : nat; second_end : nat }.

(** The derived [Ord]: the fields in turn, numbers by value and the
    replacement lexicographically.  (The order of UTF-8 strings by bytes is
    their order by chars.) *)
Fixpoint lex_le (a b : text) : bool :=
  match a, b with
  | [], _ => true
  | _ :: _, [] => false
  | x :: a, y :: b => (x <? y)%N || (x =? y)%N && lex_le a b
  end.

Definition edit_key (e : Edit) : text :=
  N.of_nat (ed_file e) :: N.of_nat (ed_start e) :: N.of_nat (ed_end e) :: ed_replacement e.
Definition edit_le (e f : Edit) : Prop := lex_le (edit_key e) (edit_key f) = true.
#[export] Instance edit_le_dec : RelDecision edit_le.
Proof. intros e f. unfold edit_le. apply _. Defined.

(** [edits.sort()]. *)
Definition sort_edits (es : list Edit) : list Edit := merge_sort edit_le es.

(** * Operations *)

Fixpoint check_overlaps (paths : list PathBuf) (edits : list Edit) : outcome OverlapError () :=
  match edits with
  | first :: (second :: _) as rest =>
      if bool_decide (ed_file first = ed_file second) && bool_decide (ed_start second < ed_end first) then
        path ← unwrap (paths !! ed_file first);
        Err (mkOverlap path (ed_start first) (ed_end first) (ed_start second) (ed_end second))
      else check_overlaps paths rest
  | _ => Ok ()
  end.

(** [content.replace_range(start..end, replacement)]. *)
Definition replace_range {E} (content : text) (e : Edit) : outcome E text :=
  match split_at (ed_start e) content, split_at (ed_end e) content with
  | Some (pre, _), Some (_, post) =>
      if decide (ed_start e ≤ ed_end e) then Ok (pre ++ ed_replacement e ++ post) else Panic
  | _, _ => Panic
  end.

(** [by_file[edit.file].push(edit)] for every edit. *)
Definition by_file {E} (n : nat) (edits : list Edit) : outcome E (list (list Edit)) :=
  foldM (λ groups e,
    match groups !! ed_file e with
    | Some g => Ok (<[ed_file e := g ++ [e]]> groups)
    | None => Panic
    end) (replicate n []) edits.

Definition rewrite_file {E} (files : list Source) (file : nat) (file_edits : list Edit) :
    outcome E FileRewrite :=
  '(path, content) ← unwrap (files !! file);
  content ← foldM replace_range content (reverse (sort_edits file_edits));
  Ok (mkRewrite path content).

Definition apply {E} (files : list Source) (edits : list Edit) : outcome E (list FileRewrite) :=
  groups ← by_file (length files) edits;
  foldM (λ out '(file, file_edits), r ← rewrite_file files file file_edits; Ok (out ++ [r])) []
    (filter (λ p, p.2 ≠ []) (imap pair groups)).

(** * The order of edits *)

#[export] Instance lex_le_trans : Transitive (λ a b, lex_le a b = true).
Proof.
  intros a. induction a as [|x a IH]; intros [|y b] [|z c]; simpl; try done.
  rewrite !orb_true_iff, !andb_true_iff, !N.ltb_lt, !N.eqb_eq.
  intros [?|[-> ?]] [?|[-> ?]]; [left; lia|by left..|right; split; [done|eauto]].
Qed.

Lemma lex_le_antisymm a b : lex_le a b = true → lex_le b a = true → a = b.
Proof.
  revert b. induction a as [|x a IH]; intros [|y b]; simpl; try done.
  rewrite !orb_true_iff, !andb_true_iff, !N.ltb_lt, !N.eqb_eq.
  intros [?|[-> ?]] [?|[? ?]]; try lia. f_equal; auto.
Qed.

Lemma lex_le_total a b : lex_le a b = true ∨ lex_le b a = true.
Proof.
  revert b. induction a as [|x a IH]; intros [|y b]; simpl; auto.
  rewrite !orb_true_iff, !andb_true_iff, !N.ltb_lt, !N.eqb_eq.
  destruct (N.lt_trichotomy x y) as [?|[->|?]]; auto. destruct (IH b); auto.
Qed.

#[export] Instance edit_le_trans : Transitive edit_le.
Proof. intros e f g. apply lex_le_trans. Qed.
#[export] Instance edit_le_total : Total edit_le.
Proof. intros e f. apply lex_le_total. Qed.
#[export] Instance edit_le_antisymm : AntiSymm (=) edit_le.
Proof.
  intros [] [] H1 H2. pose proof (lex_le_antisymm _ _ H1 H2) as H. unfold edit_key in H; simpl in H.
  simplify_eq. f_equal; by apply Nat2N.inj.
Qed.

Lemma edit_le_file e f : edit_le e f → ed_file e ≤ ed_file f.
Proof. unfold edit_le, edit_key. simpl. rewrite orb_true_iff, andb_true_iff, N.ltb_lt, N.eqb_eq. lia. Qed.

Lemma sort_edits_perm es : sort_edits es ≡ₚ es.
Proof. apply merge_sort_Permutation. Qed.

Lemma sort_edits_sorted es : StronglySorted edit_le (sort_edits es).
Proof. apply StronglySorted_merge_sort; apply _. Qed.

Lemma sort_edits_unique es es' :
  StronglySorted edit_le es → es ≡ₚ es' → sort_edits es' = es.
Proof.
  intros Hs Hp. apply (StronglySorted_unique edit_le); [apply sort_edits_sorted|done|].
  by rewrite sort_edits_perm, Hp.
Qed.

(** * The overlap check *)

(** Neighbours in the same file do not overlap. *)
Definition apart (e f : Edit) : Prop := ed_file e = ed_file f → ed_end e ≤ ed_start f.

Lemma check_overlaps_apart paths es : check_overlaps paths es = Ok () ↔ Sorted apart es.
Proof.
  induction es as [|e [|f es] IH]; cbn [check_overlaps].
  - split; [constructor|done].
  - split; [repeat constructor|done].
  - destruct (_ && _) eqn:Hov.
    + rewrite andb_true_iff, !bool_decide_eq_true in Hov. split.
      * destruct (paths !! ed_file e); done.
      * intros Hs. inversion Hs as [|? ? ? Hhd]; subst. inversion Hhd as [|? ? Ha]; subst.
        unfold apart in Ha. lia.
    + rewrite andb_false_iff, !bool_decide_eq_false in Hov. rewrite IH. split.
      * intros. constructor; [done|]. constructor. unfold apart. lia.
      * by inversion 1.
Qed.

(** The neighbours within one file are neighbours in the sorted list. *)
Lemma apart_filter i es :
  StronglySorted edit_le es → Sorted apart es →
  Sorted (λ e f, ed_end e ≤ ed_start f) (filter (λ e, ed_file e = i) es).
Proof.
  induction 1 as [|e es Hs IH Hall]; [constructor|]. inversion 1 as [|? ? Hap Hhd]; subst.
  rewrite filter_cons. case_decide as Hi; [|auto]. constructor; [auto|].
  destruct es as [|f es]; [constructor|]. inversion Hhd as [|? ? Ha]; subst. inversion Hall as [|? ? Hef Hall']; subst.
  inversion Hs as [|? ? ? Hall2]; subst. apply edit_le_file in Hef.
  destruct (decide (ed_file f = ed_file e)) as [Hf|Hf].
  - rewrite filter_cons_True by done. constructor. by apply Ha.
  - assert (filter (λ g, ed_file g = ed_file e) (f :: es) = []) as ->; [|constructor].
    apply elem_of_nil_inv. intros g [Hg Hin]%list_elem_of_filter.
    assert (ed_file f ≤ ed_file g); [|lia]. apply elem_of_cons in Hin as [->|Hin]; [done|].
    rewrite Forall_forall in Hall2. by apply edit_le_file, Hall2.
Qed.

(** In a sorted list of ranges, checking neighbours is checking every pair. *)
Lemma check_overlaps_pairs paths es :
  StronglySorted edit_le es → Forall (λ e, ed_start e ≤ ed_end e) es →
  check_overlaps paths es = Ok () ↔ StronglySorted apart es.
Proof.
  intros Hs Hwf. rewrite check_overlaps_apart. split; [|apply StronglySorted_Sorted].
  intros Hap. induction Hap as [|e es Hap IH Hhd]; [constructor|].
  inversion Hs as [|? ? Hs' Hall]; subst. inversion Hwf as [|? ? He Hwf']; subst.
  specialize (IH Hs' Hwf'). constructor; [done|].
  destruct es as [|f es]; [constructor|]. inversion Hhd as [|? ? Hef]; subst.
  inversion IH as [|? ? _ Hf]; subst. inversion Hs' as [|? ? _ Hle]; subst.
  inversion Hall as [|? ? Hle' _]; subst. inversion Hwf' as [|? ? Hwff _]; subst.
  constructor; [done|]. rewrite Forall_forall in Hf, Hle |- *. intros g Hg Heq.
  pose proof (edit_le_file _ _ Hle'). pose proof (edit_le_file _ _ (Hle g Hg)).
  specialize (Hf g Hg). unfold apart in *. lia.
Qed.

Lemma StronglySorted_filter {A} (R : relation A) (P : A → Prop) `{∀ x, Decision (P x)} l :
  StronglySorted R l → StronglySorted R (filter P l).
Proof.
  induction 1 as [|x l Hs IH Hall]; [constructor|]. rewrite filter_cons. case_decide; [|done].
  constructor; [done|]. rewrite Forall_forall in Hall |- *. intros y [_ Hy]%list_elem_of_filter. auto.
Qed.

(** * Splicing one file *)

(** Left-to-right rewriting of the text from byte [pos] on: what lies between
    the edits is kept, what they cover is replaced. *)
Inductive Rewrites (pos : nat) : text → list Edit → text → Prop :=
| rewrites_nil t : Rewrites pos t [] t
| rewrites_cons keep gone rest e es out :
    pos + blen keep = ed_start e → ed_start e + blen gone = ed_end e →
    Rewrites (ed_end e) rest es out →
    Rewrites pos (keep ++ gone ++ rest) (e :: es) (keep ++ ed_replacement e ++ out).

(** The range of an edit lies in the text, between chars. *)
Definition valid_in (t : text) (e : Edit) : Prop :=
  ∃ pre gone post, t = pre ++ gone ++ post ∧ ed_start e = blen pre ∧ ed_end e = blen (pre ++ gone).

Lemma replace_range_Ok {E} t e out :
  replace_range (E:=E) t e = Ok out ↔
  ∃ pre gone post, t = pre ++ gone ++ post ∧ ed_start e = blen pre ∧ ed_end e = blen (pre ++ gone) ∧
    out = pre ++ ed_replacement e ++ post.
Proof.
  unfold replace_range. split.
  - destruct (split_at (ed_start e) t) as [[pre r1]|] eqn:E1; [|done].
    destruct (split_at (ed_end e) t) as [[r2 post]|] eqn:E2; [|done].
    case_decide as Hle; [|done]. intros [= <-].
    apply split_at_Some in E1 as [-> H1], E2 as [Heq H2].
    destruct (app_eq_blen pre r1 r2 post) as (gone & -> & ->); [done|lia|].
    by exists pre, gone, post.
  - intros (pre & gone & post & -> & -> & -> & ->). rewrite split_at_app, app_assoc, split_at_app.
    rewrite decide_True by (rewrite blen_app; lia). done.
Qed.

(** Right-to-left splicing, the leftmost edit last. *)
Lemma splice_cons {E} t e es :
  foldM (replace_range (E:=E)) t (reverse (e :: es)) =
  foldM replace_range t (reverse es) ≫= λ c, replace_range c e.
Proof.
  rewrite reverse_cons, foldM_app. destruct (foldM _ t (reverse es)) as [c| |]; simpl; [|done..].
  by destruct (replace_range c e).
Qed.

Lemma rewrites_splice {E} pre t es out :
  Rewrites (blen pre) t es out → foldM (replace_range (E:=E)) (pre ++ t) (reverse es) = Ok (pre ++ out).
Proof.
  remember (blen pre) as pos eqn:Hpos. intros H. revert pre Hpos.
  induction H as [|pos keep gone rest e es out H1 H2 _ IH]; intros pre ->; [done|].
  rewrite splice_cons. specialize (IH (pre ++ keep ++ gone)).
  rewrite <- !app_assoc in IH. rewrite IH by (rewrite !blen_app; lia). simpl.
  apply replace_range_Ok. exists (pre ++ keep), gone, out. rewrite <- !app_assoc, !blen_app.
  split_and!; [done|lia..|done].
Qed.

Lemma valid_rewrites pre t es :
  Sorted (λ e f, ed_end e ≤ ed_start f) es → Forall (valid_in (pre ++ t)) es →
  (∀ e, head es = Some e → blen pre ≤ ed_start e) →
  ∃ out, Rewrites (blen pre) t es out.
Proof.
  intros Hs. revert pre t. induction Hs as [|e es Hs IH Hhd]; intros pre t Hv Hpos; [eexists; constructor|].
  inversion Hv as [|? ? (a & gone & rest & Ht & H1 & H2) Hv']; subst.
  destruct (app_eq_blen pre t a (gone ++ rest)) as (keep & -> & ->); [done| |].
  { rewrite <- H1. by apply Hpos. }
  rewrite !blen_app in H1. rewrite !blen_app in H2.
  destruct (IH (pre ++ keep ++ gone) rest) as [out Hout].
  - by rewrite <- !app_assoc.
  - intros f Hf. destruct es; simplify_eq/=. inversion Hhd; subst. rewrite !blen_app. lia.
  - rewrite !blen_app, Nat.add_assoc, <- H2 in Hout. exists (keep ++ ed_replacement e ++ out).
    constructor; [lia..|done].
Qed.

(** Splicing changes nothing before the first edit. *)
Lemma splice_prefix t e es out :
  Rewrites 0 t (e :: es) out → ∃ p r r', t = p ++ r ∧ out = p ++ r' ∧ blen p = ed_start e.
Proof. inversion 1; subst. by eexists keep, _, _. Qed.

Lemma splice_Ok {E} t es c :
  Sorted (λ e f, ed_end e ≤ ed_start f) es →
  foldM (replace_range (E:=E)) t (reverse es) = Ok c ↔ Forall (valid_in t) es ∧ Rewrites 0 t es c.
Proof.
  intros Hs. split; [|intros [_ H]; by apply (rewrites_splice [])].
  revert c. induction Hs as [|e es Hs IH Hhd]; intros c; [intros [= <-]; split; constructor|].
  rewrite splice_cons. intros (c' & Hc' & Hr)%bind_Ok. destruct (IH _ Hc') as [Hv Hw].
  assert (valid_in t e) as Hve.
  { apply replace_range_Ok in Hr as (pre & gone & post & -> & H1 & H2 & ->).
    destruct es as [|f es]; [inversion Hw; subst; by exists pre, gone, post|].
    inversion Hhd as [|? ? Hef]; subst.
    destruct (splice_prefix _ _ _ _ Hw) as (p & r & r' & -> & Heq & Hp).
    rewrite app_assoc in Heq. destruct (app_eq_blen _ _ _ _ Heq) as (k & -> & _); [lia|].
    exists pre, gone, (k ++ r). by rewrite <- !app_assoc. }
  split; [by constructor|].
  destruct (valid_rewrites [] t (e :: es)) as [out Hout]; [by constructor|by constructor|intros; apply Nat.le_0_l|].
  pose proof (rewrites_splice (E:=E) [] t (e :: es) out Hout) as Ho. cbn [app] in Ho. rewrite splice_cons, Hc' in Ho.
  simpl in Ho. rewrite Hr in Ho. by injection Ho as <-.
Qed.

(** * All files *)

Definition edits_of (edits : list Edit) (i : nat) : list Edit := filter (λ e, ed_file e = i) edits.

(** The files some edit is for, in the order of the files. *)
Definition edited (files : list Source) (edits : list Edit) : list nat :=
  filter (λ i, edits_of edits i ≠ []) (seq 0 (length files)).

Lemma by_file_Ok {E} n edits :
  by_file (E:=E) n edits =
  if decide (Forall (λ e, ed_file e < n) edits) then Ok (edits_of edits <$> seq 0 n) else Panic.
Proof.
  unfold by_file. induction edits as [|e edits IH] using rev_ind.
  { rewrite decide_True by constructor. simpl. f_equal. induction n; [done|].
    by rewrite seq_S, fmap_app, <- IHn, replicate_S_end. }
  rewrite foldM_app, IH. destruct (decide (Forall _ edits)) as [Hall|Hall]; simpl; last first.
  { rewrite decide_False; [done|]. by rewrite Forall_app; intros []. }
  rewrite list_lookup_fmap. destruct (decide (ed_file e < n)) as [Hlt|Hge].
  - rewrite lookup_seq_lt by done. cbn [fmap option_fmap option_map].
    rewrite decide_True by (by apply Forall_snoc). f_equal. apply list_eq. intros j.
    rewrite list_lookup_fmap. destruct (decide (j < n)); last first.
    { rewrite lookup_ge_None_2 by (rewrite length_insert, length_fmap, length_seq; lia).
      by rewrite lookup_seq_ge by lia. }
    rewrite (lookup_seq_lt _ _ j) by done. cbn [fmap option_fmap option_map]. unfold edits_of. rewrite filter_app.
    destruct (decide (j = ed_file e)) as [->|Hne].
    + rewrite list_lookup_insert_eq by (rewrite length_fmap, length_seq; lia).
      by rewrite filter_cons_True, filter_nil.
    + rewrite list_lookup_insert_ne, list_lookup_fmap, lookup_seq_lt by done.
      rewrite filter_cons_False, filter_nil, app_nil_r by (simpl; congruence). done.
  - rewrite lookup_seq_ge by lia. simpl.
    rewrite decide_False; [done|]. rewrite Forall_app. by intros [_ [? _]%Forall_cons].
Qed.

Lemma imap_pair_seq {A} (f : nat → A) n : imap pair (f <$> seq 0 n) = (λ i, (i, f i)) <$> seq 0 n.
Proof.
  apply list_eq. intros i. rewrite list_lookup_imap, !list_lookup_fmap.
  destruct (decide (i < n)); [by rewrite !lookup_seq_lt|by rewrite !lookup_seq_ge by lia].
Qed.

(** [apply] rewrites the edited files one after the other. *)
Lemma apply_eq {E} files edits :
  apply (E:=E) files edits =
  if decide (Forall (λ e, ed_file e < length files) edits) then
    foldM (λ out i, r ← rewrite_file files i (edits_of edits i); Ok (out ++ [r])) [] (edited files edits)
  else Panic.
Proof.
  unfold apply. rewrite by_file_Ok. case_decide; [|done]. simpl. rewrite imap_pair_seq.
  unfold edited.
  match goal with |- foldM ?f _ ?l = foldM ?g _ ?k => enough (∀ out, foldM f out l = foldM g out k) as Hgen by apply Hgen end.
  induction (seq 0 (length files)) as [|i l IH]; intros out; [done|].
  csimpl. rewrite !filter_cons. simpl. case_decide; [|apply IH]. simpl.
  destruct (rewrite_file files i _); simpl; [apply IH|done..].
Qed.

(** The edit is for one of the files, and its range lies in it. *)
Definition valid_edit (files : list Source) (e : Edit) : Prop :=
  ∃ path t, files !! ed_file e = Some (path, t) ∧ valid_in t e.

(** The rewrite of file [i]: its text with its edits applied left to right. *)
Definition rewritten (files : list Source) (edits : list Edit) (i : nat) (r : FileRewrite) : Prop :=
  ∃ t, files !! i = Some (rw_path r, t) ∧ Rewrites 0 t (sort_edits (edits_of edits i)) (rw_content r).

(** The edits of one file, sorted, do not overlap. *)
Lemma sort_edits_of edits i :
  Sorted apart (sort_edits edits) →
  Sorted (λ e f, ed_end e ≤ ed_start f) (sort_edits (edits_of edits i)).
Proof.
  intros Hap. replace (sort_edits (edits_of edits i)) with (edits_of (sort_edits edits) i).
  - apply apart_filter; [apply sort_edits_sorted|done].
  - symmetry. apply sort_edits_unique; [|by unfold edits_of; rewrite sort_edits_perm].
    apply StronglySorted_filter, sort_edits_sorted.
Qed.

Lemma rewrite_file_Ok {E} files edits i r :
  Sorted apart (sort_edits edits) →
  rewrite_file (E:=E) files i (edits_of edits i) = Ok r ↔
  Forall (valid_edit files) (edits_of edits i) ∧ rewritten files edits i r.
Proof.
  intros Hap.
  pose proof (sort_edits_of edits i Hap) as Hs.
  assert (∀ path t, files !! i = Some (path, t) →
    Forall (valid_edit files) (edits_of edits i) ↔ Forall (valid_in t) (sort_edits (edits_of edits i))) as Hv.
  { intros path t Ht. rewrite (sort_edits_perm (edits_of edits i)), !Forall_forall. split; intros H e He.
    - destruct (H e He) as (path' & t' & Ht' & ?). apply list_elem_of_filter in He as [Hi _]. naive_solver.
    - exists path, t. split; [|auto]. apply list_elem_of_filter in He as [Hi _]. by rewrite Hi. }
  unfold rewrite_file, rewritten. destruct (files !! i) as [[path t]|]; simpl; [|naive_solver].
  rewrite (Hv path t) by done. split.
  - intros (c & Hc & [= <-])%bind_Ok. apply splice_Ok in Hc as [? ?]; [|done]. split; [done|by exists t].
  - intros (Hval & t' & [= -> ->] & Hw).
    rewrite (proj2 (splice_Ok _ _ _ Hs) (conj Hval Hw)). by destruct r.
Qed.

Lemma valid_edit_file files e : valid_edit files e → ed_file e < length files.
Proof. intros (? & ? & H & _). by eapply lookup_lt_Some. Qed.

Lemma elem_of_edited files edits e :
  e ∈ edits → ed_file e < length files → ed_file e ∈ edited files edits.
Proof.
  intros He Hlt. apply list_elem_of_filter. split; [|apply elem_of_seq; lia].
  intros Hnil. assert (e ∈ edits_of edits (ed_file e)) as H by (by apply list_elem_of_filter).
  rewrite Hnil in H. by apply elem_of_nil in H.
Qed.

Lemma Forall2_elem_l {A B} (P : A → B → Prop) l k x : Forall2 P l k → x ∈ l → ∃ y, P x y.
Proof. intros H (i & Hi)%list_elem_of_lookup. destruct (Forall2_lookup_l _ _ _ _ _ H Hi) as (y & _ & ?). eauto. Qed.

(** Every edit is valid when those of each edited file are. *)
Lemma valid_edits files edits :
  Forall (λ e, ed_file e < length files) edits →
  Forall (valid_edit files) edits ↔
  ∀ i, i ∈ edited files edits → Forall (valid_edit files) (edits_of edits i).
Proof.
  rewrite (Forall_forall _ edits). intros Hall. split.
  - rewrite Forall_forall. intros Hv i _. rewrite Forall_forall. intros e [_ ?]%list_elem_of_filter. auto.
  - intros Hv. rewrite Forall_forall. intros e He.
    specialize (Hv _ (elem_of_edited files edits e He (Hall e He))). rewrite Forall_forall in Hv.
    apply Hv. by apply list_elem_of_filter.
Qed.

Lemma apply_Ok {E} files edits out :
  Sorted apart (sort_edits edits) →
  apply (E:=E) files edits = Ok out ↔
  Forall (valid_edit files) edits ∧ Forall2 (rewritten files edits) (edited files edits) out.
Proof.
  intros Hap. rewrite apply_eq. case_decide as Hall; last first.
  { split; [done|]. intros [Hv _]. destruct Hall. eapply Forall_impl; [done|apply valid_edit_file]. }
  rewrite foldM_collect_Ok, valid_edits by done. split.
  - intros (bs & -> & H). cbn [app]. split.
    + intros i Hi. destruct (Forall2_elem_l _ _ _ _ H Hi) as [r Hr].
      by apply rewrite_file_Ok in Hr as [? _].
    + eapply Forall2_impl; [exact H|]. intros i r Hr. by apply rewrite_file_Ok in Hr as [_ ?].
  - intros [Hv H]. exists out. split; [done|]. apply Forall2_same_length_lookup_2.
    + by eapply Forall2_length.
    + intros k i r Hi Hr. apply rewrite_file_Ok; [done|]. split.
      * eapply Hv, list_elem_of_lookup_2, Hi.
      * eapply Forall2_lookup_lr; done.
Qed.

Lemma splices_total {E} files edits :
  Sorted apart (sort_edits edits) → Forall (valid_edit files) edits →
  ∃ out, apply (E:=E) files edits = Ok out.
Proof.
  intros Hap Hv. destruct (Forall_choice (rewritten files edits) (edited files edits)) as [out Hout].
  - rewrite Forall_forall. intros i [_ Hi]%list_elem_of_filter.
    apply elem_of_seq in Hi as [_ Hi]. destruct (lookup_lt_is_Some_2 files i Hi) as [[path t] Ht].
    destruct (valid_rewrites [] t (sort_edits (edits_of edits i))) as [c Hc].
    + by apply sort_edits_of.
    + rewrite sort_edits_perm. rewrite Forall_forall in Hv |- *.
      intros e [Hi' He]%list_elem_of_filter. destruct (Hv e He) as (x & x0 & Ht' & ?).
      rewrite Hi' in Ht'. assert (Some (path, t) = Some (x, x0)) as [= -> ->] by (rewrite <- Ht'; exact (eq_sym Ht)). done.
    + intros. apply Nat.le_0_l.
    + exists (mkRewrite path c). by exists t.
  - exists out. by apply apply_Ok.
Qed.

(** ** Claims *)

(** C37. The right-to-left splicing of [apply] refines left-to-right rewriting:
    when the sorted edits pass the overlap check, [apply] succeeds exactly if
    every edit is for one of the files and its range lies in that file between
    chars (otherwise it panics), and then returns, in the order of the files,
    one rewrite per file with an edit: the text between the ranges kept, each
    range replaced, insertions at one place in the order of their text. *)
Theorem apply_refines_rewriting {E} files edits :
  check_overlaps files.*1 (sort_edits edits) = Ok () →
  ((∃ out, apply (E:=E) files edits = Ok out) ↔ Forall (valid_edit files) edits) ∧
  ∀ out, apply (E:=E) files edits = Ok out → Forall2 (rewritten files edits) (edited files edits) out.
Proof.
  intros Hap%check_overlaps_apart. split; [split|].
  - by intros [out [Hv _]%apply_Ok].
  - by apply splices_total.
  - by intros out [_ ?]%apply_Ok.
Qed.

(** [apply] does not depend on the order the edits are given in, and the
    overlap check of the sorted edits, which compares neighbours, accepts them
    exactly when no two edits of a file overlap. *)
Lemma edits_order_irrelevant {E} files edits edits' :
  edits ≡ₚ edits' →
  apply (E:=E) files edits = apply files edits' ∧
  (Forall (λ e, ed_start e ≤ ed_end e) edits →
   check_overlaps files.*1 (sort_edits edits) = Ok () ↔ StronglySorted apart (sort_edits edits')).
Proof.
  intros Hp. assert (∀ i, sort_edits (edits_of edits i) = sort_edits (edits_of edits' i)) as Hi.
  { intros i. apply sort_edits_unique; [apply sort_edits_sorted|]. unfold edits_of. by rewrite sort_edits_perm, Hp. }
  assert (sort_edits edits = sort_edits edits') as Hs.
  { apply sort_edits_unique; [apply sort_edits_sorted|]. by rewrite sort_edits_perm. }
  split.
  - rewrite !apply_eq. assert (edited files edits = edited files edits') as ->.
    { apply list_filter_iff. intros i.
      assert (edits_of edits i ≡ₚ edits_of edits' i) as HP by (unfold edits_of; by rewrite Hp).
      split; intros Hne Heq; apply Hne; rewrite Heq in HP;
        [by apply Permutation_nil_r in HP|by apply Permutation_nil in HP]. }
    assert (∀ i, rewrite_file (E:=E) files i (edits_of edits i) = rewrite_file files i (edits_of edits' i)) as Hr.
    { intros i. unfold rewrite_file. by rewrite Hi. }
    destruct (decide (Forall _ edits)) as [Ha|Ha]; rewrite Hp in Ha;
      [rewrite decide_True by done|by rewrite decide_False].
    apply foldM_ext. intros out i. by rewrite Hr.
  - intros Hwf. rewrite <- Hs. apply check_overlaps_pairs; [apply sort_edits_sorted|by rewrite sort_edits_perm].
Qed.

(** Two files, the first with a two-byte char; edits in no particular order. *)
Definition demo_files : list Source :=
  [(chars_of "a.rs", 233%N :: chars_of "bcdef"); (chars_of "b.rs", []); (chars_of "c.rs", chars_of "xyz")].
Definition demo_edits : list Edit :=
  [mkEdit 0 4 6 (chars_of "XX"); mkEdit 2 1 1 (chars_of "_"); mkEdit 0 0 2 (chars_of "e"); mkEdit 0 4 4 (chars_of "+")].
Definition demo_rewrites : list FileRewrite :=
  [mkRewrite (chars_of "a.rs") (chars_of "ebc+XXf"); mkRewrite (chars_of "c.rs") (chars_of "x_yz")].

Lemma apply_refines_rewriting_witness :
  apply (E:=()) demo_files demo_edits = Ok demo_rewrites ∧
  Forall2 (rewritten demo_files demo_edits) (edited demo_files demo_edits) demo_rewrites ∧
  Forall (valid_edit demo_files) demo_edits.
Proof.
  destruct (apply_refines_rewriting (E:=()) demo_files demo_edits ltac:(vm_compute; reflexivity)) as [Hiff Hout].
  assert (apply (E:=()) demo_files demo_edits = Ok demo_rewrites) as H by (vm_compute; reflexivity).
  split; [exact H|]. split; [exact (Hout _ H)|]. apply Hiff. exists demo_rewrites. exact H.
Defined.

Example edits_order_irrelevant_demo :
  apply (E:=()) demo_files demo_edits = apply demo_files (reverse demo_edits) ∧
  check_overlaps demo_files.*1 (sort_edits demo_edits) = Ok ().
Proof.
  destruct (edits_order_irrelevant (E:=()) demo_files demo_edits (reverse demo_edits)) as [Ha Hc].
  - symmetry. apply reverse_Permutation.
  - split; [exact Ha|]. apply Hc; [repeat constructor|]. vm_compute.
    repeat (constructor; try (intros; simpl in *; lia)).
Defined.
