(* ===== verification/JsonValue.v ===== *)
(** [serde_json] values as the packages use them: [Number], [Value], the
    insertion-ordered [Map] (an [IndexMap], feature [preserve_order]) and the
    equality of values, which ignores the order of keys. *)

From stdpp Require Import base gmap sets list strings.
From Stdlib Require Import SpecFloat.
From S2P Require Import Prelude Chars.

(** * [IndexMap]

    An association list in insertion order; a map the code builds has every
    key once. *)
Section index_map.
Context {V : Type}.
Implicit Types (m : list (text * V)) (k : text) (v : V).

Fixpoint get k m : option V :=
  match m with
  | [] => None
  | (k', v) :: m => if decide (k = k') then Some v else get k m
  end.

(** [insert]: in place when the key is present, at the end otherwise. *)
Fixpoint insert_key k v m : list (text * V) :=
  match m with
  | [] => [(k, v)]
  | (k', v') :: m => if decide (k = k') then (k', v) :: m else (k', v') :: insert_key k v m
  end.

(** [shift_remove]: [None] when the key is absent. *)
Fixpoint shift_remove k m : option (list (text * V)) :=
  match m with
  | [] => None
  | (k', v') :: m => if decide (k = k') then Some m else ((k', v') ::.) <$> shift_remove k m
  end.

Definition contains_key k m : bool := match get k m with Some _ => true | None => false end.

(** [map.get(k)] with what follows in the case it is present. *)
Definition get_or {A} k (absent : A) (present : V → A) : list (text * V) → A :=
  fix go m :=
    match m with
    | [] => absent
    | (k', v) :: m => if decide (k = k') then present v else go m
    end.

Lemma get_or_get {A} k m (absent : A) (present : V → A) :
  get_or k absent present m = match get k m with Some v => present v | None => absent end.
Proof. induction m as [|[k' v] m IH]; simpl; [done|]. by case_decide. Qed.

Lemma get_Some_elem k v m : get k m = Some v → (k, v) ∈ m.
Proof.
  induction m as [|[k' v'] m IH]; simpl; [done|]. case_decide; intros; simplify_eq; [by left|right; auto].
Qed.

Lemma get_None k m : get k m = None ↔ k ∉ m.*1.
Proof.
  induction m as [|[k' v'] m IH]; csimpl; [set_solver|]. case_decide; [set_solver|]. rewrite IH. set_solver.
Qed.

Lemma elem_keys k m : k ∈ m.*1 ↔ is_Some (get k m).
Proof.
  pose proof (get_None k m) as H. destruct (get k m) as [v|] eqn:E.
  - split; [eauto|]. intros _. by apply get_Some_elem, (list_elem_of_fmap_2 fst) in E.
  - split; [intros Hk; by apply H in Hk|by intros []].
Qed.

Lemma elem_get k v m : NoDup m.*1 → (k, v) ∈ m → get k m = Some v.
Proof.
  induction m as [|[k' v'] m IH]; csimpl; [set_solver|]. rewrite NoDup_cons. intros [Hk Hm].
  rewrite elem_of_cons. intros [[= -> ->]|Hin]; [by rewrite decide_True|].
  rewrite decide_False; [auto|]. intros ->. apply Hk. by apply (list_elem_of_fmap_2 fst) in Hin.
Qed.

Lemma get_insert_key k v m j : get j (insert_key k v m) = if decide (j = k) then Some v else get j m.
Proof.
  induction m as [|[k' v'] m IH]; simpl; [done|]. destruct (decide (k = k')) as [->|]; simpl.
  - by destruct (decide (j = k')).
  - rewrite IH. destruct (decide (j = k')), (decide (j = k)); congruence.
Qed.

Lemma keys_insert_key k v m :
  (insert_key k v m).*1 = if decide (k ∈ m.*1) then m.*1 else m.*1 ++ [k].
Proof.
  induction m as [|[k' v'] m IH]; csimpl; [done|].
  destruct (decide (k = k')) as [->|]; csimpl.
  - match goal with |- context [if ?d then _ else _] => destruct d as [H|H] end; [done|destruct H; by left].
  - rewrite IH. destruct (decide (k ∈ m.*1));
      match goal with |- context [if ?d then _ else _] => destruct d end; first [done|exfalso; set_solver].
Qed.

Lemma NoDup_insert_key k v m : NoDup m.*1 → NoDup (insert_key k v m).*1.
Proof.
  intros. rewrite keys_insert_key. destruct (decide (k ∈ m.*1)); [done|]. apply NoDup_app.
  split_and!; [done|set_solver|apply NoDup_singleton].
Qed.

Lemma insert_key_fresh k v m : k ∉ m.*1 → insert_key k v m = m ++ [(k, v)].
Proof.
  induction m as [|[k' v'] m IH]; csimpl; [done|]. intros H. rewrite decide_False by set_solver.
  by rewrite IH by set_solver.
Qed.

Lemma insert_key_twice k v v' m : insert_key k v' (insert_key k v m) = insert_key k v' m.
Proof.
  induction m as [|[j w] m IH]; simpl; [by rewrite decide_True|].
  destruct (decide (k = j)) eqn:E; simpl; rewrite E; by rewrite ?IH.
Qed.

Lemma shift_remove_Some k m :
  NoDup m.*1 → k ∈ m.*1 →
  ∃ m', shift_remove k m = Some m' ∧ NoDup m'.*1 ∧
    (∀ j, j ∈ m'.*1 → j ∈ m.*1) ∧ ∀ j, get j m' = if decide (j = k) then None else get j m.
Proof.
  induction m as [|[k' v'] m IH]; csimpl; [set_solver|]. rewrite NoDup_cons, elem_of_cons. intros [Hk' Hnd] Hk.
  destruct (decide (k = k')) as [->|Hne].
  - exists m. split_and!; [done..|set_solver|]. intros j. destruct (decide (j = k')) as [->|]; [|done].
    by apply get_None.
  - destruct IH as (m' & -> & Hnd' & Hsub & Hget); [done|naive_solver|]. exists ((k', v') :: m').
    csimpl. split_and!; [done|apply NoDup_cons; split; [auto|done]|set_solver|].
    intros j. rewrite Hget. destruct (decide (j = k')), (decide (j = k)); congruence.
Qed.
End index_map.

(** * Numbers *)

(** [f64]: IEEE 754 binary64, with the comparison of [==]. *)
Abbreviation f64 := spec_float.

(** [f64::is_finite]. *)
Definition is_finite (x : f64) : bool :=
  match x with S754_zero _ | S754_finite _ _ _ => true | _ => false end.

(** [serde_json::Number]: a [u64], a negative [i64] or a finite [f64]. *)
Inductive Number := PosInt (n : Z) | NegInt (n : Z) | Float (x : f64).

Definition number_eqb (a b : Number) : bool :=
  match a, b with
  | PosInt n, PosInt m | NegInt n, NegInt m => (n =? m)%Z
  | Float x, Float y => SFeqb x y
  | _, _ => false
  end.

(** [Number::as_f64], rounding to nearest. *)
Definition as_f64 (n : Number) : f64 :=
  match n with
  | PosInt n | NegInt n => binary_normalize 53 1024 n 0 false
  | Float x => x
  end.

Definition number_wf (n : Number) : bool :=
  match n with
  | PosInt n => bool_decide (0 <= n < 2 ^ 64)%Z
  | NegInt n => bool_decide (- 2 ^ 63 <= n < 0)%Z
  | Float x => is_finite x
  end.

(** * Values *)

Inductive Value :=
| Null
| Bool (b : bool)
| Num (n : Number)
| Str (s : text)
| Arr (items : list Value)
| Obj (map : list (text * Value)).

(** [==].  Arrays are compared in order; two maps are equal when they have as
    many entries and every entry of the first is one of the second. *)
Fixpoint value_eqb (a b : Value) : bool :=
  match a, b with
  | Null, Null => true
  | Bool x, Bool y => eqb x y
  | Num x, Num y => number_eqb x y
  | Str s, Str t => bool_decide (s = t)
  | Arr xs, Arr ys =>
      (fix go (xs ys : list Value) : bool :=
         match xs, ys with
         | [], [] => true
         | x :: xs, y :: ys => value_eqb x y && go xs ys
         | _, _ => false
         end) xs ys
  | Obj m, Obj n =>
      bool_decide (length m = length n) &&
      forallb (λ '(k, v), match get k n with Some w => value_eqb v w | None => false end) m
  | _, _ => false
  end.

(** What every value built by the library satisfies: numbers are in range, no
    key is repeated, and a [Vec] has at most [isize::MAX] elements. *)
Fixpoint value_wf (v : Value) : bool :=
  match v with
  | Null | Bool _ | Str _ => true
  | Num n => number_wf n
  | Arr items => bool_decide (Z.of_nat (length items) < 2 ^ 63)%Z && forallb value_wf items
  | Obj m => bool_decide (NoDup m.*1) && forallb (λ '(_, v), value_wf v) m
  end.

(** * Induction on values *)

Definition Value_nested_ind (P : Value → Prop)
    (HNull : P Null) (HBool : ∀ b, P (Bool b)) (HNum : ∀ n, P (Num n)) (HStr : ∀ s, P (Str s))
    (HArr : ∀ items, Forall P items → P (Arr items))
    (HObj : ∀ m, Forall (λ kv, P kv.2) m → P (Obj m)) : ∀ v, P v :=
  fix go v :=
    match v with
    | Null => HNull
    | Bool b => HBool b
    | Num n => HNum n
    | Str s => HStr s
    | Arr items =>
        HArr items ((fix all (l : list Value) : Forall P l :=
          match l with
          | [] => List.Forall_nil P
          | v :: l => List.Forall_cons P v l (go v) (all l)
          end) items)
    | Obj m =>
        HObj m ((fix all (l : list (text * Value)) : Forall (λ kv, P kv.2) l :=
          match l with
          | [] => List.Forall_nil _
          | kv :: l => List.Forall_cons (λ kv, P kv.2) kv l (go kv.2) (all l)
          end) m)
    end.

(** * Equality of values *)

Lemma value_eqb_Arr xs ys :
  value_eqb (Arr xs) (Arr ys) = true ↔ Forall2 (λ x y, value_eqb x y = true) xs ys.
Proof.
  cbn [value_eqb]. revert ys. induction xs as [|x xs IH]; intros [|y ys]; try (by split; [|inversion 1]).
  rewrite andb_true_iff, IH. split; [intros []; by constructor|by inversion 1].
Qed.

Lemma value_eqb_Obj m n :
  value_eqb (Obj m) (Obj n) = true ↔
  length m = length n ∧ ∀ k v, (k, v) ∈ m → ∃ w, get k n = Some w ∧ value_eqb v w = true.
Proof.
  cbn [value_eqb]. rewrite andb_true_iff, bool_decide_eq_true, forallb_forall. f_equiv. split.
  - intros H k v Hin. apply list_elem_of_In in Hin. specialize (H _ Hin). simpl in H.
    destruct (get k n); [eauto|done].
  - intros H [k v] Hin%list_elem_of_In. destruct (H _ _ Hin) as (w & -> & ?). done.
Qed.

(** Under distinct keys, two objects are equal when their lookups are. *)
Lemma value_eqb_lookups m n :
  NoDup m.*1 → NoDup n.*1 →
  (∀ k, option_Forall2 (λ v w, value_eqb v w = true) (get k m) (get k n)) →
  value_eqb (Obj m) (Obj n) = true.
Proof.
  intros Hm Hn H. apply value_eqb_Obj. split.
  - rewrite <- (length_fmap fst m), <- (length_fmap fst n). apply Permutation_length, NoDup_Permutation; [done..|].
    intros k. rewrite !elem_keys. destruct (H k) as [v w _|]; split; intros [? ?]; by eauto.
  - intros k v Hin%elem_get; [|done]. specialize (H k). rewrite Hin in H. inversion H; eauto.
Qed.

Lemma number_eqb_refl n : number_wf n = true → number_eqb n n = true.
Proof.
  destruct n as [n|n|[]]; simpl; rewrite ?Z.eqb_refl; try done. intros _.
  unfold SFeqb, SFcompare. by destruct s; rewrite Z.compare_refl, Pos.compare_cont_refl.
Qed.

Lemma value_wf_Obj m :
  value_wf (Obj m) = true ↔ NoDup m.*1 ∧ ∀ k v, (k, v) ∈ m → value_wf v = true.
Proof.
  cbn [value_wf]. rewrite andb_true_iff, bool_decide_eq_true, forallb_forall. f_equiv. split.
  - intros H k v Hin. by apply (H (k, v)), list_elem_of_In.
  - intros H [k v] Hin%list_elem_of_In. eauto.
Qed.

Lemma value_wf_Arr items :
  value_wf (Arr items) = true ↔
  (Z.of_nat (length items) < 2 ^ 63)%Z ∧ Forall (λ v, value_wf v = true) items.
Proof.
  cbn [value_wf]. rewrite andb_true_iff, bool_decide_eq_true, forallb_forall, Forall_forall. f_equiv.
  split; intros H v ?; apply H; by apply list_elem_of_In.
Qed.

Lemma value_eqb_refl v : value_wf v = true → value_eqb v v = true.
Proof.
  induction v as [|b|n|s|items IH|m IH] using Value_nested_ind; intros Hwf; cbn [value_eqb].
  - done.
  - by destruct b.
  - by apply number_eqb_refl.
  - by apply bool_decide_eq_true.
  - apply value_wf_Arr in Hwf as [_ Hwf]. apply value_eqb_Arr.
    induction IH; inversion Hwf; subst; constructor; auto.
  - apply value_wf_Obj in Hwf as [Hnd Hwf]. apply value_eqb_Obj. split; [done|]. intros k v Hin.
    exists v. split; [by apply elem_get|]. rewrite Forall_forall in IH. apply (IH (k, v)); eauto.
Qed.
