(* ===== verification/DeltaDiff.v ===== *)
(** Logical diffs of [packages/index-delta/src]: the differ over JSON values
    and its addresses ([diff.rs]), and the replay of addressed operations
    ([apply.rs], the part shared by JSON, YAML and plist files).

    A [String] is the list of its chars; [Vec] and map lookups that yield a
    mutable place are written with the continuation that updates it. *)

From stdpp Require Import base gmap sets list strings.
From Stdlib Require Import Ascii SpecFloat.
From S2P Require Import Prelude Chars JsonValue.

(** * Strings *)

(** [str::replace] of a char, and of a two-char string. *)
Definition replace_char (c : char) (by_ : text) (t : text) : text :=
  flat_map (λ x, if decide (x = c) then by_ else [x]) t.
Fixpoint replace_pair (a b : char) (by_ : text) (t : text) : text :=
  match t with
  | x :: (y :: rest) as t' =>
      if bool_decide (x = a) && bool_decide (y = b) then by_ ++ replace_pair a b by_ rest
      else x :: replace_pair a b by_ t'
  | _ => t
  end.

(** [str::split] on a char. *)
Fixpoint split_on (c : char) (t : text) : list text :=
  match t with
  | [] => [[]]
  | x :: t =>
      if decide (x = c) then [] :: split_on c t
      else match split_on c t with
           | [] => [[x]]
           | s :: rest => (x :: s) :: rest
           end
  end.

(** [usize::to_string] and [str::parse::<usize>]: an optional [+], then decimal
    digits of a number below [2^64]. *)
Definition index_to_string (i : nat) : text := print_nat (N.of_nat i).
Definition parse_usize (t : text) : option nat :=
  let ds := match t with c :: ds => if decide (c = ch "+") then ds else t | [] => t end in
  if bool_decide (ds ≠ []) && forallb is_ascii_digit ds && bool_decide (digits_value ds < 2 ^ 64)%Z then
    Some (Z.to_nat (digits_value ds))
  else None.

(** [[T]::split_last]. *)
Fixpoint split_last {A} (l : list A) : option (list A * A) :=
  match l with
  | [] => None
  | x :: l => match split_last l with
              | None => Some ([], x)
              | Some (parents, last) => Some (x :: parents, last)
              end
  end.

(** * Formats and operations *)

Inductive Format := Json | Toml | Yaml | Plist | Keyvalue | PlainText.

Inductive Op :=
| Add (path : text) (value : Value)
| Remove (path : text) (from : Value)
| Replace (path : text) (from to : Value)
| TextDiff (diff : text)
| Binary.

Definition address (op : Op) : option text :=
  match op with
  | Add path _ | Remove path _ | Replace path _ _ => Some path
  | TextDiff _ | Binary => None
  end.

Inductive Addressing := Pointer | Dotted.

Definition addressing (format : Format) : Addressing :=
  match format with
  | Toml | Keyvalue => Dotted
  | Json | Yaml | Plist | PlainText => Pointer
  end.

Definition separator (format : Format) : char :=
  match addressing format with Pointer => ch "/" | Dotted => ch "." end.

(** * Addresses *)

Definition escape (segment : text) : text :=
  replace_char (ch "/") [ch "~"; ch "1"] (replace_char (ch "~") [ch "~"; ch "0"] segment).
Definition unescape (segment : text) : text :=
  replace_pair (ch "~") (ch "0") [ch "~"] (replace_pair (ch "~") (ch "1") [ch "/"] segment).

Definition render (addr : Addressing) (segments : list text) : text :=
  match addr with
  | Pointer => flat_map (λ segment, ch "/" :: escape segment) segments
  | Dotted => join [ch "."] segments
  end.

Definition parse_address (format : Format) (path : text) : list text :=
  match addressing format with
  | Pointer => unescape <$> drop 1 (split_on (ch "/") path)
  | Dotted => split_on (ch ".") path
  end.

(** * The differ *)

(** [&items[..n]]. *)
Definition take_items (n : nat) (items : list Value) : Value := Arr (take n items).

(** Elements from index [from] on, each with its index rendered. *)
Definition indexed (items : list Value) (from : nat) : list (text * Value) :=
  drop from (imap (λ index item, (index_to_string index, item)) items).

Definition push_leaf_ops (addr : Addressing) (path : list text)
    (items : list (text * Value)) (make : text → Value → Op) : list Op :=
  (λ '(segment, value), make (render addr (path ++ [segment])) value) <$> items.

Section diff_arrays.
Variable diff_values : list text → Value → Value → list Op.

(** The loop over two arrays of one length. *)
Fixpoint diff_items (path : list text) (index : nat) (old_items new_items : list Value) : list Op :=
  match old_items, new_items with
  | old_item :: old_items, new_item :: new_items =>
      diff_values (path ++ [index_to_string index]) old_item new_item ++
      diff_items path (S index) old_items new_items
  | _, _ => []
  end.

Definition diff_arrays (addr : Addressing) (path : list text) (old_items new_items : list Value) : list Op :=
  let shared := length old_items `min` length new_items in
  let prefix_equal := value_eqb (take_items shared old_items) (take_items shared new_items) in
  if decide (length old_items = length new_items) then diff_items path 0 old_items new_items
  else if prefix_equal && bool_decide (length old_items < length new_items) then
    push_leaf_ops addr path (indexed new_items (length old_items)) Add
  else if prefix_equal then
    push_leaf_ops addr path (reverse (indexed old_items (length new_items))) Remove
  else [Replace (render addr path) (Arr old_items) (Arr new_items)].
End diff_arrays.

(** The operations [diff_values] pushes, in order. *)
Fixpoint diff_values (addr : Addressing) (path : list text) (old new : Value) {struct old} : list Op :=
  if value_eqb old new then []
  else
    match old, new with
    | Obj old_map, Obj new_map =>
        flat_map (λ '(key, old_item),
          match get key new_map with
          | Some new_item => diff_values addr (path ++ [key]) old_item new_item
          | None => [Remove (render addr (path ++ [key])) old_item]
          end) old_map ++
        push_leaf_ops addr path (filter (λ kv, contains_key kv.1 old_map = false) new_map) Add
    | Arr old_items, Arr new_items =>
        diff_arrays (λ path old new, diff_values addr path old new) addr path old_items new_items
    | _, _ => [Replace (render addr path) old new]
    end.

(** * Overlap of two diffs *)

Definition starts_with (c : char) (t : text) : bool :=
  match t with x :: _ => bool_decide (x = c) | [] => false end.

Definition related (sep : char) (a b : text) : bool :=
  let prefixed longer shorter :=
    match strip_prefix shorter longer with Some rest => starts_with sep rest | None => false end in
  bool_decide (a = b) || prefixed a b || prefixed b a.

(** [Vec::dedup]: consecutive repetitions. *)
Fixpoint dedup (l : list text) : list text :=
  match l with
  | x :: (y :: _) as rest => if decide (x = y) then dedup rest else x :: dedup rest
  | _ => l
  end.

Definition unaddressed (ops : list Op) : bool := existsb (λ op, bool_decide (address op = None)) ops.

Definition overlap (format : Format) (yours incoming : list Op) : list text :=
  if bool_decide (yours ≠ []) && bool_decide (incoming ≠ []) && (unaddressed yours || unaddressed incoming) then
    [chars_of "(entire file)"]
  else
    dedup (filter (λ yours_path,
      existsb (related (separator format) yours_path) (omap address incoming) = true)
      (omap address yours)).

(** * Replaying operations *)

Inductive ApplyError :=
| NotAnIndex (path last : text)
| IndexOutOfRange (path : text) (index : nat)
| ParentNotContainer (path : text)
| SegmentNotFound (path segment : text)
| KeyNotPresent (path key : text)
| RemoveRoot
| UnaddressedOp.

Abbreviation result := (outcome ApplyError).

(** Walk to the value at [segments] and update it with [k]. *)
Fixpoint navigate (segments : list text) (full : text) (k : Value → result Value) (root : Value) : result Value :=
  match segments with
  | [] => k root
  | segment :: rest =>
      match root with
      | Obj map =>
          match get segment map with
          | Some child => child ← navigate rest full k child; Ok (Obj (insert_key segment child map))
          | None => Err (SegmentNotFound full segment)
          end
      | Arr items =>
          match parse_usize segment with
          | Some index =>
              match items !! index with
              | Some child => child ← navigate rest full k child; Ok (Arr (<[index := child]> items))
              | None => Err (SegmentNotFound full segment)
              end
          | None => Err (SegmentNotFound full segment)
          end
      | _ => Err (SegmentNotFound full segment)
      end
  end.

(** The update of the parent in [set_value] and in [remove_value]. *)
Definition set_child (path last : text) (new parent : Value) : result Value :=
  match parent with
  | Obj map => Ok (Obj (insert_key last new map))
  | Arr items =>
      index ← ok_or (parse_usize last) (NotAnIndex path last);
      if decide (index = length items) then Ok (Arr (items ++ [new]))
      else if decide (index < length items) then Ok (Arr (<[index := new]> items))
      else Err (IndexOutOfRange path index)
  | _ => Err (ParentNotContainer path)
  end.

Definition remove_child (path last : text) (parent : Value) : result Value :=
  match parent with
  | Obj map => map ← ok_or (shift_remove last map) (KeyNotPresent path last); Ok (Obj map)
  | Arr items =>
      index ← ok_or (parse_usize last) (NotAnIndex path last);
      if decide (length items ≤ index) then Err (IndexOutOfRange path index)
      else Ok (Arr (delete index items))
  | _ => Err (ParentNotContainer path)
  end.

Definition set_value (format : Format) (path : text) (new root : Value) : result Value :=
  match split_last (parse_address format path) with
  | None => Ok new
  | Some (parents, last) => navigate parents path (set_child path last new) root
  end.

Definition remove_value (format : Format) (path : text) (root : Value) : result Value :=
  match split_last (parse_address format path) with
  | None => Err RemoveRoot
  | Some (parents, last) => navigate parents path (remove_child path last) root
  end.

Definition apply_op (format : Format) (root : Value) (op : Op) : result Value :=
  match op with
  | Add path value => set_value format path value root
  | Replace path _ to => set_value format path to root
  | Remove path _ => remove_value format path root
  | TextDiff _ | Binary => Err UnaddressedOp
  end.

Definition apply_structured (root : Value) (format : Format) (ops : list Op) : result Value :=
  foldM (apply_op format) root ops.
