(* ===== verification/DeltaProps.v ===== *)
(** Correctness of the logical differ of [packages/index-delta/src]: addresses
    read back, a diff is empty exactly when the values are equal, and replaying
    a diff on the old value gives the new one. *)

From stdpp Require Import base gmap sets list strings.
From Stdlib Require Import Ascii SpecFloat.
From S2P Require Import Prelude Chars JsonValue DeltaDiff.

(** * Addresses *)

Abbreviation tilde := (ch "~").
Abbreviation slash := (ch "/").

(** The escaped form of one char. *)
Definition escape_char (c : char) : text :=
  if decide (c = tilde) then [tilde; ch "0"] else if decide (c = slash) then [tilde; ch "1"] else [c].

Lemma escape_flat_map s : escape s = flat_map escape_char s.
Proof.
  unfold escape, replace_char. induction s as [|c s IH]; [done|]. cbn [flat_map].
  rewrite flat_map_app, IH. f_equal. unfold escape_char.
  destruct (decide (c = ch "~")) as [->|]; [done|]. cbn [flat_map]. rewrite app_nil_r.
  by destruct (decide (c = ch "/")).
Qed.

Lemma escape_no_slash s : slash ∉ escape s.
Proof.
  rewrite escape_flat_map. induction s as [|c s IH]; cbn [flat_map]; [set_solver|].
  rewrite elem_of_app. intros [H|H]; [|done]. unfold escape_char in H. repeat case_decide; set_solver.
Qed.

Section replace_pair.
Context (a b : char) (by_ : text).

Lemma replace_pair_other x t : x ≠ a → replace_pair a b by_ (x :: t) = x :: replace_pair a b by_ t.
Proof. intros H. destruct t; [done|]. cbn [replace_pair]. by rewrite bool_decide_false. Qed.

Lemma replace_pair_hit t : replace_pair a b by_ (a :: b :: t) = by_ ++ replace_pair a b by_ t.
Proof. cbn [replace_pair]. rewrite (bool_decide_true (a = a)), (bool_decide_true (b = b)) by done. done. Qed.

Lemma replace_pair_miss y t : y ≠ b → replace_pair a b by_ (a :: y :: t) = a :: replace_pair a b by_ (y :: t).
Proof. intros H. cbn [replace_pair]. by rewrite (bool_decide_true (a = a)), (bool_decide_false (y = b)). Qed.
End replace_pair.

Lemma unescape_escape s : unescape (escape s) = s.
Proof.
  rewrite escape_flat_map. unfold unescape.
  assert (replace_pair (ch "~") (ch "1") [ch "/"] (flat_map escape_char s) =
          flat_map (λ c, if decide (c = tilde) then [tilde; ch "0"] else [c]) s) as ->.
  { induction s as [|c s IH]; [done|]. cbn [flat_map].
    destruct (decide (c = tilde)) as [->|Ht]; [|destruct (decide (c = slash)) as [->|Hs]]; cbn [app].
    - change (escape_char tilde) with [tilde; ch "0"]. cbn [app]. by rewrite replace_pair_miss, replace_pair_other, IH by done.
    - change (escape_char slash) with [tilde; ch "1"]. cbn [app]. by rewrite replace_pair_hit, IH.
    - assert (escape_char c = [c]) as -> by (unfold escape_char; by rewrite !decide_False).
      cbn [app]. by rewrite replace_pair_other, IH. }
  induction s as [|c s IH]; [done|]. cbn [flat_map]. destruct (decide (c = tilde)) as [->|Ht]; cbn [app].
  - by rewrite replace_pair_hit, IH.
  - by rewrite replace_pair_other, IH.
Qed.

Lemma split_on_none c s : c ∉ s → split_on c s = [s].
Proof.
  induction s as [|x s IH]; simpl; [done|]. intros H. rewrite decide_False by set_solver.
  by rewrite IH by set_solver.
Qed.

Lemma split_on_sep c s t : c ∉ s → split_on c (s ++ c :: t) = s :: split_on c t.
Proof.
  induction s as [|x s IH]; simpl; intros H; [by rewrite decide_True|].
  rewrite decide_False by set_solver. by rewrite IH by set_solver.
Qed.

Lemma split_render_pointer s segments :
  slash ∉ s → split_on slash (s ++ render Pointer segments) = s :: (escape <$> segments).
Proof.
  revert s. induction segments as [|g segments IH]; intros s Hs; cbn [render flat_map]; csimpl.
  - rewrite app_nil_r. by apply split_on_none.
  - cbn [app]. rewrite split_on_sep by done. f_equal. apply IH, escape_no_slash.
Qed.

Lemma parse_render_pointer format segments :
  addressing format = Pointer → parse_address format (render Pointer segments) = segments.
Proof.
  intros H. unfold parse_address. rewrite H.
  pose proof (split_render_pointer [] segments ltac:(apply not_elem_of_nil)) as Hs. cbn [app] in Hs.
  rewrite Hs. change (unescape <$> (escape <$> segments) = segments).
  clear Hs. induction segments as [|g segments IH]; csimpl; [done|]. by rewrite unescape_escape, IH.
Qed.

(** Indices read back. *)
Lemma parse_index i : (Z.of_nat i < 2 ^ 64)%Z → parse_usize (index_to_string i) = Some i.
Proof.
  intros Hi. unfold parse_usize, index_to_string.
  destruct (print_nat_ok (N.of_nat i)) as (Hv & Hd & Hne). rewrite nat_N_Z in Hv.
  assert (match print_nat (N.of_nat i) with
          | c :: ds => if decide (c = ch "+") then ds else print_nat (N.of_nat i)
          | [] => print_nat (N.of_nat i)
          end = print_nat (N.of_nat i)) as ->.
  { destruct (print_nat (N.of_nat i)) as [|c ds]; [done|]. inversion Hd as [|? ? Hc]; subst.
    rewrite decide_False; [done|]. intros ->. done. }
  rewrite Hv, bool_decide_true, (forallb_Forall _ _ Hd), bool_decide_true by done. simpl. by rewrite Nat2Z.id.
Qed.

Lemma split_last_snoc {A} (l : list A) x : split_last (l ++ [x]) = Some (l, x).
Proof. induction l as [|y l IH]; [done|]. cbn [app split_last]. by rewrite IH. Qed.

(** * Replaying at a child *)

(** Operations by segments: the value to set, or [None] to remove. *)
Abbreviation seg_op := (list text * option Value)%type.

Definition apply_seg (full : text) (root : Value) (op : seg_op) : result Value :=
  match split_last op.1, op.2 with
  | None, Some new => Ok new
  | None, None => Err RemoveRoot
  | Some (parents, last), Some new => navigate parents full (set_child full last new) root
  | Some (parents, last), None => navigate parents full (remove_child full last) root
  end.

(** The place [navigate] steps to. *)
Definition child (segment : text) (root : Value) : option Value :=
  match root with
  | Obj map => get segment map
  | Arr items => parse_usize segment ≫= λ index, items !! index
  | _ => None
  end.

Definition put (segment : text) (v root : Value) : Value :=
  match root with
  | Obj map => Obj (insert_key segment v map)
  | Arr items => match parse_usize segment with Some index => Arr (<[index := v]> items) | None => root end
  | _ => root
  end.

Lemma navigate_cons segment rest full k root v :
  child segment root = Some v →
  navigate (segment :: rest) full k root =
  navigate rest full k v ≫= λ v', Ok (put segment v' root).
Proof.
  destruct root as [| | | |items|map]; simpl; try done.
  - destruct (parse_usize segment) as [i|]; [|done]. simpl. by intros ->.
  - by intros ->.
Qed.

Lemma child_put segment v v' root : child segment root = Some v → child segment (put segment v' root) = Some v'.
Proof.
  destruct root as [| | | |items|map]; simpl; try done.
  - destruct (parse_usize segment) as [i|] eqn:E; [|done]. simpl. rewrite E. simpl. intros H.
    apply list_lookup_insert_eq. by eapply lookup_lt_Some.
  - intros _. by rewrite get_insert_key, decide_True.
Qed.

Lemma put_put segment v v' root : put segment v' (put segment v root) = put segment v' root.
Proof.
  destruct root as [| | | |items|map]; simpl; try done.
  - destruct (parse_usize segment) as [i|] eqn:E; simpl; rewrite E; [|done]. by rewrite list_insert_insert_eq.
  - by rewrite insert_key_twice.
Qed.

Lemma set_child_put full segment new v root :
  child segment root = Some v → set_child full segment new root = Ok (put segment new root).
Proof.
  destruct root as [| | | |items|map]; simpl; try done.
  destruct (parse_usize segment) as [i|]; [|done]. simpl. intros H%lookup_lt_Some.
  rewrite decide_False, decide_True by lia. done.
Qed.

(** An operation at a child is the operation below it. *)
Lemma apply_seg_below full s v v' root op :
  child s root = Some v → apply_seg full v op = Ok v' →
  apply_seg full root (s :: op.1, op.2) = Ok (put s v' root).
Proof.
  intros Hc. destruct op as [segs new]. unfold apply_seg. cbn [fst snd split_last].
  destruct (split_last segs) as [[parents last]|]; destruct new as [new|]; try done.
  - intros H. rewrite (navigate_cons _ _ _ _ _ v) by done. by rewrite H.
  - intros H. rewrite (navigate_cons _ _ _ _ _ v) by done. by rewrite H.
  - intros [= <-]. simpl. by eapply set_child_put.
Qed.

(** The path in the error messages does not matter to a success. *)
Lemma navigate_full full full' segments k k' root r :
  (∀ x y, k x = Ok y → k' x = Ok y) →
  navigate segments full k root = Ok r → navigate segments full' k' root = Ok r.
Proof.
  intros Hk. revert root r. induction segments as [|s segments IH]; intros root r; simpl; [apply Hk|].
  destruct root as [| | | |items|map]; try done.
  - destruct (parse_usize s) as [i|]; [|done]. destruct (items !! i) as [c|]; [|done].
    intros (c' & Hc & H)%bind_Ok. by rewrite (IH _ _ Hc).
  - destruct (get s map) as [c|]; [|done]. intros (c' & Hc & H)%bind_Ok. by rewrite (IH _ _ Hc).
Qed.

Lemma set_child_full full full' last new x y : set_child full last new x = Ok y → set_child full' last new x = Ok y.
Proof. destruct x; simpl; try done. destruct (parse_usize last); [|done]. simpl. by repeat case_decide. Qed.

Lemma remove_child_full full full' last x y : remove_child full last x = Ok y → remove_child full' last x = Ok y.
Proof.
  destruct x as [| | | |items|map]; simpl; try done.
  - destruct (parse_usize last); [|done]. simpl. by repeat case_decide.
  - by destruct (shift_remove last map).
Qed.

Lemma apply_seg_full full full' root op r : apply_seg full root op = Ok r → apply_seg full' root op = Ok r.
Proof.
  unfold apply_seg. destruct (split_last op.1) as [[parents last]|], op.2 as [new|]; try done.
  - apply navigate_full. intros x y. apply set_child_full.
  - apply navigate_full. intros x y. apply remove_child_full.
Qed.

(** Running operations one after the other. *)
Definition runs (ops : list seg_op) (root r : Value) : Prop := foldM (apply_seg []) root ops = Ok r.

Lemma runs_nil root : runs [] root root.
Proof. done. Qed.

Lemma runs_app ops1 ops2 root r1 r2 : runs ops1 root r1 → runs ops2 r1 r2 → runs (ops1 ++ ops2) root r2.
Proof. unfold runs. intros H1 H2. rewrite foldM_app, H1. done. Qed.

Lemma runs_one op root r : apply_seg [] root op = Ok r → runs [op] root r.
Proof. unfold runs. simpl. by intros ->. Qed.

Definition below (s : text) (op : seg_op) : seg_op := (s :: op.1, op.2).

(** The operations on a child, replayed from its parent. *)
Lemma runs_below s ops root v v' :
  child s root = Some v → runs ops v v' →
  ∃ r, runs (below s <$> ops) root r ∧ (ops = [] → r = root) ∧ (ops ≠ [] → r = put s v' root) ∧ child s r = Some v'.
Proof.
  revert root v. induction ops as [|op ops IH]; intros root v Hc Hr.
  { unfold runs in Hr. simplify_eq/=. exists root. split_and!; [apply runs_nil|done..]. }
  unfold runs in Hr. cbn [foldM] in Hr. destruct (apply_seg [] v op) as [v1| |] eqn:H1; [|done..].
  pose proof (apply_seg_below _ _ _ _ _ _ Hc H1) as Hop.
  destruct (IH (put s v1 root) v1) as (r & Hr' & Hnil & Hcons & Hch); [by eapply child_put|done|].
  exists r. split_and!; [|done| |done].
  - csimpl. by apply (runs_app [below s op] _ _ (put s v1 root)); [apply runs_one|].
  - intros _. destruct ops as [|op' ops]; [|by rewrite Hcons, put_put].
    rewrite Hnil by done. unfold runs in Hr. by simplify_eq/=.
Qed.

(** * Differences by segments *)

Definition lower (op : Op) : seg_op :=
  match op with
  | Add path value => (parse_address Json path, Some value)
  | Replace path _ to => (parse_address Json path, Some to)
  | Remove path _ => (parse_address Json path, None)
  | TextDiff _ | Binary => ([], None)
  end.

Definition addressed (op : Op) : Prop := is_Some (address op).

Lemma parse_address_pointer format path : addressing format = Pointer → parse_address format path = parse_address Json path.
Proof. intros H. unfold parse_address. by rewrite H. Qed.

(** Replaying addressed operations. *)
Lemma runs_apply format ops root r :
  addressing format = Pointer → Forall addressed ops → runs (lower <$> ops) root r →
  apply_structured root format ops = Ok r.
Proof.
  intros Hf Ha. unfold apply_structured, runs. revert root. induction Ha as [|op ops Hop _ IH]; intros root; [done|].
  csimpl. destruct (apply_seg [] root (lower op)) as [r1| |] eqn:H1; [|done..].
  assert (apply_op format root op = Ok r1) as ->; [|apply IH].
  destruct op as [path value|path from|path from to|diff|]; simpl in *; try (by destruct Hop).
  all: apply (apply_seg_full _ path) in H1; revert H1; unfold apply_seg, set_value, remove_value; simpl;
    rewrite (parse_address_pointer format) by done; by destruct (split_last _) as [[]|].
Qed.

Lemma elem_lower_leaf p items make op :
  op ∈ push_leaf_ops Pointer p items make →
  ∃ segment value, (segment, value) ∈ items ∧ op = make (render Pointer (p ++ [segment])) value.
Proof. intros ([s v] & -> & ?)%list_elem_of_fmap. eauto. Qed.

(** What [push_leaf_ops] pushes, by segments. *)
Lemma lower_adds p items :
  lower <$> push_leaf_ops Pointer p items Add = (λ sv, (p ++ [sv.1], Some sv.2)) <$> items.
Proof.
  unfold push_leaf_ops. rewrite <- list_fmap_compose. apply list_fmap_ext. intros _ [s v] _.
  unfold compose, lower. by rewrite parse_render_pointer.
Qed.

Lemma lower_removes p items :
  lower <$> push_leaf_ops Pointer p items Remove = (λ sv, (p ++ [sv.1], None)) <$> items.
Proof.
  unfold push_leaf_ops. rewrite <- list_fmap_compose. apply list_fmap_ext. intros _ [s v] _.
  unfold compose, lower. by rewrite parse_render_pointer.
Qed.

Lemma lower_replace p old new : lower (Replace (render Pointer p) old new) = (p, Some new).
Proof. unfold lower. by rewrite parse_render_pointer. Qed.

Lemma lower_remove p old : lower (Remove (render Pointer p) old) = (p, None).
Proof. unfold lower. by rewrite parse_render_pointer. Qed.

Definition diff_at (p : list text) (old new : Value) : list seg_op := lower <$> diff_values Pointer p old new.
Definition prefix_op (p : list text) (op : seg_op) : seg_op := (p ++ op.1, op.2).

Lemma prefix_op_twice p q (ops : list seg_op) : prefix_op p <$> (prefix_op q <$> ops) = prefix_op (p ++ q) <$> ops.
Proof.
  rewrite <- list_fmap_compose. apply list_fmap_ext. intros _ [s o] _. unfold compose, prefix_op. simpl.
  by rewrite app_assoc.
Qed.

(** The operations on the entries both objects have, or only the old one. *)
Definition entries_at (p : list text) (old_map new_map : list (text * Value)) : list seg_op :=
  flat_map (λ kv, match get kv.1 new_map with
                  | Some new_item => diff_at (p ++ [kv.1]) kv.2 new_item
                  | None => [(p ++ [kv.1], None)]
                  end) old_map.

Fixpoint items_at (p : list text) (index : nat) (old_items new_items : list Value) : list seg_op :=
  match old_items, new_items with
  | o :: old_items, n :: new_items =>
      diff_at (p ++ [index_to_string index]) o n ++ items_at p (S index) old_items new_items
  | _, _ => []
  end.

Definition added (old_map new_map : list (text * Value)) : list (text * Value) :=
  filter (λ kv, contains_key kv.1 old_map = false) new_map.

Lemma fmap_flat_map {A B C} (g : B → C) (f : A → list B) l : g <$> flat_map f l = flat_map (λ x, g <$> f x) l.
Proof. induction l as [|x l IH]; [done|]. cbn [flat_map]. by rewrite fmap_app, IH. Qed.

Lemma flat_map_ext_in {A B} (f g : A → list B) l : (∀ x, x ∈ l → f x = g x) → flat_map f l = flat_map g l.
Proof.
  induction l as [|x l IH]; intros H; [done|]. cbn [flat_map].
  rewrite H by left. by rewrite IH by (intros; apply H; by right).
Qed.

Lemma diff_at_equal p old new : value_eqb old new = true → diff_at p old new = [].
Proof. unfold diff_at. intros H. by destruct old; cbn [diff_values]; rewrite H. Qed.

Lemma diff_at_Obj p m n :
  value_eqb (Obj m) (Obj n) = false →
  diff_at p (Obj m) (Obj n) = entries_at p m n ++ ((λ sv, (p ++ [sv.1], Some sv.2)) <$> added m n).
Proof.
  intros H. unfold diff_at. change (diff_values Pointer p (Obj m) (Obj n)) with
    (if value_eqb (Obj m) (Obj n) then [] else
      flat_map (λ '(key, old_item),
          match get key n with
          | Some new_item => diff_values Pointer (p ++ [key]) old_item new_item
          | None => [Remove (render Pointer (p ++ [key])) old_item]
          end) m ++ push_leaf_ops Pointer p (added m n) Add).
  rewrite H, fmap_app, lower_adds, fmap_flat_map. f_equal. apply flat_map_ext_in. intros [k v] _. cbn [fst snd].
  destruct (get k n); [done|]. exact (f_equal (λ x, [x]) (lower_remove (p ++ [k]) v)).
Qed.

Lemma lower_diff_items p index olds news :
  lower <$> diff_items (λ p o n, diff_values Pointer p o n) p index olds news = items_at p index olds news.
Proof.
  revert index news. induction olds as [|o olds IH]; intros index [|n news]; try done.
  cbn [diff_items items_at]. by rewrite fmap_app, IH.
Qed.

Lemma diff_at_Arr p xs ys :
  value_eqb (Arr xs) (Arr ys) = false →
  diff_at p (Arr xs) (Arr ys) =
  let shared := length xs `min` length ys in
  if decide (length xs = length ys) then items_at p 0 xs ys
  else if value_eqb (take_items shared xs) (take_items shared ys) then
    if decide (length xs < length ys) then (λ sv, (p ++ [sv.1], Some sv.2)) <$> indexed ys (length xs)
    else (λ sv, (p ++ [sv.1], None)) <$> reverse (indexed xs (length ys))
  else [(p, Some (Arr ys))].
Proof.
  intros H. unfold diff_at.
  change (diff_values Pointer p (Arr xs) (Arr ys)) with (if value_eqb (Arr xs) (Arr ys) then [] else
    diff_arrays (λ p o n, diff_values Pointer p o n) Pointer p xs ys).
  rewrite H. unfold diff_arrays. cbv zeta. destruct (decide (length xs = length ys)); [apply lower_diff_items|].
  destruct (value_eqb (take_items _ xs) _); simpl.
  - case_bool_decide; [by rewrite decide_True, lower_adds|by rewrite decide_False, lower_removes].
  - exact (f_equal (λ x, [x]) (lower_replace p (Arr xs) (Arr ys))).
Qed.

(** Otherwise the value is replaced. *)
Lemma diff_at_other p old new :
  value_eqb old new = false →
  (∀ m n, old = Obj m → new = Obj n → False) → (∀ xs ys, old = Arr xs → new = Arr ys → False) →
  diff_at p old new = [(p, Some new)].
Proof.
  intros H Ho Ha. unfold diff_at.
  assert (diff_values Pointer p old new = [Replace (render Pointer p) old new]) as ->.
  { destruct old, new; cbn [diff_values]; rewrite H; first [done|exfalso; eauto]. }
  exact (f_equal (λ x, [x]) (lower_replace p old new)).
Qed.

Lemma diff_at_prefix_other p old new :
  value_eqb old new = false →
  (∀ m n, old = Obj m → new = Obj n → False) → (∀ xs ys, old = Arr xs → new = Arr ys → False) →
  diff_at p old new = prefix_op p <$> diff_at [] old new.
Proof. intros. rewrite !diff_at_other by done. csimpl. unfold prefix_op. simpl. by rewrite app_nil_r. Qed.

(** A diff at a path is the diff at the root, addressed from there. *)
Lemma diff_at_prefix p old new : diff_at p old new = prefix_op p <$> diff_at [] old new.
Proof.
  revert p new. induction old as [|b|n|s|items IH|m IH] using Value_nested_ind; intros p new.
  all: match goal with |- diff_at _ ?a ?b = _ => destruct (value_eqb a b) eqn:Heq end;
    [by rewrite !diff_at_equal|].
  1-4: apply diff_at_prefix_other; naive_solver.
  - destruct new as [| | | |ys|]; try (apply diff_at_prefix_other; naive_solver).
    rewrite !diff_at_Arr by done. cbv zeta. destruct (decide (length items = length ys)).
    + generalize 0. clear -IH. revert ys. induction IH as [|x xs Hx _ IH]; intros [|y ys] i; try done.
      cbn [items_at]. rewrite fmap_app, <- IH, Hx, (Hx ([] ++ _)), prefix_op_twice. done.
    + clear Heq. destruct (value_eqb _ _); [destruct (decide (length items < length ys))|].
      * by rewrite <- list_fmap_compose.
      * by rewrite <- list_fmap_compose.
      * csimpl. unfold prefix_op. simpl. by rewrite app_nil_r.
  - destruct new as [| | | | |n]; try (apply diff_at_prefix_other; naive_solver).
    rewrite !diff_at_Obj, fmap_app by done. f_equal; [|by rewrite <- list_fmap_compose].
    unfold entries_at. rewrite fmap_flat_map. apply flat_map_ext_in. intros [k v] Hin. cbn [fst snd].
    destruct (get k n) as [w|]; [|done]. rewrite Forall_forall in IH. specialize (IH _ Hin). simpl in IH.
    rewrite IH, (IH ([] ++ _)), prefix_op_twice. done.
Qed.

Lemma diff_at_key s old new : diff_at [s] old new = below s <$> diff_at [] old new.
Proof. apply diff_at_prefix. Qed.

(** * Replaying a diff *)

(** [ops] turn [old] into a value equal to [new]. *)
Definition turns (old new : Value) : Prop :=
  ∃ v, runs (diff_at [] old new) old v ∧ value_eqb v new = true.

Lemma turns_equal old new : value_eqb old new = true → turns old new.
Proof. intros H. exists old. by rewrite diff_at_equal. Qed.

Lemma turns_replace old new :
  diff_at [] old new = [([], Some new)] → value_wf new = true → turns old new.
Proof. intros H Hwf. exists new. rewrite H. split; [done|]. by apply value_eqb_refl. Qed.

(** The diff of a child, replayed from the parent. *)
Lemma turns_child s root old new :
  child s root = Some old → turns old new →
  ∃ r v, runs (diff_at [s] old new) root r ∧ child s r = Some v ∧ value_eqb v new = true ∧
    (r = root ∨ r = put s v root).
Proof.
  intros Hc (v & Hr & Hv). rewrite diff_at_key.
  destruct (runs_below s _ _ _ _ Hc Hr) as (r & Hruns & Hnil & Hcons & Hch). exists r, v. split_and!; [done..|].
  destruct (diff_at [] old new); [left; auto|right; auto].
Qed.

(** The entries of the old object, one after the other. *)
Lemma runs_entries l m n :
  NoDup l.*1 → NoDup m.*1 → (∀ k o, (k, o) ∈ l → get k m = Some o) →
  (∀ k o w, (k, o) ∈ l → get k n = Some w → turns o w) →
  ∃ m', runs (entries_at [] l n) (Obj m) (Obj m') ∧ NoDup m'.*1 ∧
    ∀ k, if decide (k ∈ l.*1) then option_Forall2 (λ v w, value_eqb v w = true) (get k m') (get k n)
         else get k m' = get k m.
Proof.
  revert m. induction l as [|[k o] l IH]; intros m Hl Hm Hget Hturn.
  { exists m. split_and!; [apply runs_nil|done|]. intros k. by rewrite decide_False by set_solver. }
  revert Hl. csimpl. rewrite NoDup_cons. intros [Hk Hl].
  assert (∃ m1, runs match get k n with
                     | Some w => diff_at [k] o w
                     | None => [([k], None)]
                     end (Obj m) (Obj m1) ∧ NoDup m1.*1 ∧
            option_Forall2 (λ v w, value_eqb v w = true) (get k m1) (get k n) ∧
            ∀ j, j ≠ k → get j m1 = get j m) as (m1 & Hr1 & Hm1 & Hk1 & Hj1).
  { pose proof (Hget k o ltac:(by left)) as Hko. destruct (get k n) as [w|] eqn:Hw.
    - destruct (turns_child k (Obj m) o w) as (r & v & Hr & Hc & Hv & Hput); [done|eapply Hturn; [by left|done]|].
      assert (∃ m1, r = Obj m1 ∧ NoDup m1.*1 ∧ ∀ j, j ≠ k → get j m1 = get j m) as (m1 & -> & Hm1 & Hj).
      { destruct Hput as [->| ->]; simpl; [by eauto|]. eexists; split_and!; [done|by apply NoDup_insert_key|].
        intros j Hj. by rewrite get_insert_key, decide_False. }
      exists m1. split_and!; [done..| |done]. simpl in Hc. rewrite Hc. by constructor.
    - destruct (shift_remove_Some k m) as (m1 & Hrem & Hm1 & _ & Hj); [done|apply elem_keys; eauto|].
      exists m1. split_and!; [|done| |].
      + apply runs_one. unfold apply_seg. simpl. by rewrite Hrem.
      + rewrite Hj, decide_True by done. constructor.
      + intros j Hne. by rewrite Hj, decide_False. }
  destruct (IH m1) as (m' & Hr' & Hm' & Hall); [done..| | |].
  - intros j oj Hin. rewrite Hj1; [apply Hget; by right|].
    intros ->. apply Hk. by apply (list_elem_of_fmap_2 fst) in Hin.
  - intros j oj w Hin. apply Hturn. by right.
  - exists m'. split_and!; [by eapply runs_app|done|].
    intros j. specialize (Hall j). destruct (decide (j ∈ k :: l.*1)) as [[->|Hin]%elem_of_cons|Hout].
    + rewrite decide_False in Hall by done. by rewrite Hall.
    + by rewrite decide_True in Hall.
    + apply not_elem_of_cons in Hout as [Hne Hout]. rewrite decide_False in Hall by done. by rewrite Hall, Hj1.
Qed.

(** The new entries. *)
Lemma runs_added (l m : list (text * Value)) :
  NoDup l.*1 → NoDup m.*1 →
  ∃ m', runs ((λ sv, ([sv.1], Some sv.2)) <$> l) (Obj m) (Obj m') ∧ NoDup m'.*1 ∧
    ∀ k, get k m' = match get k l with Some v => Some v | None => get k m end.
Proof.
  revert m. induction l as [|[k v] l IH]; intros m; csimpl.
  { intros _ Hm. exists m. by split_and!; [apply runs_nil|..]. }
  rewrite NoDup_cons. intros [Hk Hl] Hm.
  destruct (IH (insert_key k v m)) as (m' & Hr & Hm' & Hget); [done|by apply NoDup_insert_key|].
  exists m'. split_and!; [|done|].
  - apply (runs_app [([k], Some v)] _ _ (Obj (insert_key k v m))); [|done]. by apply runs_one.
  - intros j. rewrite Hget, get_insert_key. case_decide as Hj; [|done]. subst.
    apply get_None in Hk. by rewrite Hk.
Qed.

Lemma get_added k m n : get k (added m n) = if contains_key k m then None else get k n.
Proof.
  unfold added. induction n as [|[j v] n IH]; simpl; [by destruct (contains_key k m)|].
  rewrite filter_cons. case_decide as Hj; simpl in Hj |- *; rewrite IH.
  - destruct (decide (k = j)) as [->|]; [by rewrite Hj|done].
  - destruct (decide (k = j)) as [->|]; [|done]. by destruct (contains_key j m).
Qed.

Lemma NoDup_filter_keys (P : text * Value → Prop) `{∀ kv, Decision (P kv)} (n : list (text * Value)) :
  NoDup n.*1 → NoDup (filter P n).*1.
Proof.
  intros Hn. eapply sublist_NoDup; [done|]. apply fmap_sublist, sublist_filter.
Qed.

Lemma turns_Obj m n :
  value_wf (Obj m) = true → value_wf (Obj n) = true →
  Forall (λ kv, ∀ w, value_wf kv.2 = true → value_wf w = true → turns kv.2 w) m → turns (Obj m) (Obj n).
Proof.
  intros [Hm Hmw]%value_wf_Obj [Hn Hnw]%value_wf_Obj IH.
  destruct (value_eqb (Obj m) (Obj n)) eqn:Heq; [by apply turns_equal|].
  unfold turns. rewrite diff_at_Obj by done.
  destruct (runs_entries m m n) as (m1 & Hr1 & Hm1 & Hk1); [done..|intros; by apply elem_get| |].
  { intros k o w Hin Hw. rewrite Forall_forall in IH. apply (IH (k, o)); [done|by eapply Hmw|].
    eapply Hnw, get_Some_elem, Hw. }
  destruct (runs_added (added m n) m1) as (m2 & Hr2 & Hm2 & Hk2); [by apply NoDup_filter_keys|done|].
  exists (Obj m2). split; [by eapply runs_app|]. apply value_eqb_lookups; [done..|].
  intros k. rewrite Hk2, get_added. specialize (Hk1 k). unfold contains_key.
  destruct (get k m) as [v|] eqn:E.
  - rewrite decide_True in Hk1 by (apply elem_keys; eauto). done.
  - apply get_None in E as E'. rewrite decide_False in Hk1 by done. rewrite Hk1.
    destruct (get k n) as [w|] eqn:Hw; [|constructor].
    constructor. eapply value_eqb_refl, Hnw, get_Some_elem, Hw.
Qed.

(** Elements of an array, each with its index, from [k] on. *)
Definition numbered (k : nat) (l : list Value) : list (text * Value) :=
  imap (λ i x, (index_to_string (k + i), x)) l.

Lemma indexed_numbered l k : indexed l k = numbered k (drop k l).
Proof.
  unfold indexed, numbered. apply list_eq. intros i.
  rewrite lookup_drop, !list_lookup_imap, lookup_drop. done.
Qed.

Lemma child_index i items : (Z.of_nat i < 2 ^ 64)%Z → child (index_to_string i) (Arr items) = items !! i.
Proof. intros. simpl. by rewrite parse_index. Qed.

Lemma put_index i v items : (Z.of_nat i < 2 ^ 64)%Z → put (index_to_string i) v (Arr items) = Arr (<[i := v]> items).
Proof. intros. simpl. by rewrite parse_index. Qed.

Lemma runs_items pre olds news :
  length olds = length news → (Z.of_nat (length pre + length olds) < 2 ^ 64)%Z →
  Forall (λ o, ∀ w, w ∈ news → turns o w) olds →
  ∃ res, runs (items_at [] (length pre) olds news) (Arr (pre ++ olds)) (Arr (pre ++ res)) ∧
    Forall2 (λ v w, value_eqb v w = true) res news.
Proof.
  intros Hlen Hbound Hall. revert pre news Hlen Hbound Hall.
  induction olds as [|o olds IH]; intros pre [|n news] Hlen Hbound Hall; try done.
  { exists []. split; [apply runs_nil|constructor]. }
  inversion Hall as [|? ? Ho Hall']; subst. simpl in Hlen, Hbound. cbn [items_at].
  destruct (turns_child (index_to_string (length pre)) (Arr (pre ++ o :: olds)) o n) as (r & v & Hr & Hc & Hv & Hput).
  { rewrite child_index by lia. by apply list_lookup_middle. }
  { apply Ho. by left. }
  assert (r = Arr ((pre ++ [v]) ++ olds)) as ->.
  { rewrite <- app_assoc. destruct Hput as [->| ->].
    - rewrite child_index, list_lookup_middle in Hc by (done || lia). by simplify_eq.
    - rewrite put_index by lia. by rewrite insert_app_r_alt, Nat.sub_diag by lia. }
  destruct (IH (pre ++ [v]) news) as (res & Hres & Heq); [lia|rewrite length_app; simpl; lia| |].
  { eapply Forall_impl; [done|]. intros ? H w ?. apply H. by right. }
  rewrite length_app, Nat.add_comm in Hres. cbn [length plus] in Hres. rewrite <- !app_assoc in Hres.
  exists (v :: res). split; [|by constructor].
  eapply runs_app; [exact Hr|]. rewrite <- app_assoc. exact Hres.
Qed.

Lemma runs_appended pre l :
  (Z.of_nat (length pre + length l) < 2 ^ 64)%Z →
  runs ((λ sv, ([sv.1], Some sv.2)) <$> numbered (length pre) l) (Arr pre) (Arr (pre ++ l)).
Proof.
  revert pre. induction l as [|x l IH]; intros pre Hb; [by rewrite app_nil_r|]. simpl in Hb.
  change (x :: l) with ([x] ++ l). unfold numbered. rewrite imap_app. cbn [imap]. rewrite fmap_app.
  eapply runs_app.
  - apply runs_one. unfold apply_seg. simpl. rewrite Nat.add_0_r, parse_index by lia. simpl. by rewrite decide_True.
  - rewrite app_assoc. replace (length pre) with (length pre) by done.
    specialize (IH (pre ++ [x])). unfold numbered in IH. rewrite length_app in IH. cbn [length] in IH.
    erewrite (imap_ext _ _ l); [apply IH; lia|]. intros i y _. simpl. by rewrite <- Nat.add_assoc.
Qed.

Lemma runs_truncated pre l :
  (Z.of_nat (length pre + length l) < 2 ^ 64)%Z →
  runs ((λ sv, ([sv.1], None)) <$> reverse (numbered (length pre) l)) (Arr (pre ++ l)) (Arr pre).
Proof.
  induction l as [|x l IH] using rev_ind; intros Hb; [rewrite app_nil_r; apply runs_nil|].
  rewrite length_app in Hb. cbn [length] in Hb. unfold numbered. rewrite imap_app, reverse_app. cbn [imap].
  rewrite fmap_app. eapply runs_app; [|apply IH; lia]. apply runs_one. unfold apply_seg. cbn [fst snd split_last].
  simpl. rewrite Nat.add_0_r, parse_index by lia. simpl. rewrite !length_app. cbn [length].
  rewrite decide_False by lia. rewrite app_assoc, delete_take_drop.
  rewrite take_app_length', drop_ge, app_nil_r by (rewrite ?length_app; simpl; lia). done.
Qed.

Lemma turns_Arr xs ys :
  value_wf (Arr xs) = true → value_wf (Arr ys) = true →
  Forall (λ x, ∀ w, value_wf x = true → value_wf w = true → turns x w) xs → turns (Arr xs) (Arr ys).
Proof.
  intros [Hx Hxw]%value_wf_Arr [Hy Hyw]%value_wf_Arr IH.
  destruct (value_eqb (Arr xs) (Arr ys)) eqn:Heq; [by apply turns_equal|].
  unfold turns. rewrite diff_at_Arr by done. cbv zeta.
  destruct (decide (length xs = length ys)) as [Hlen|Hlen].
  { destruct (runs_items [] xs ys) as (res & Hr & Hres); [done|simpl; lia| |].
    - rewrite Forall_forall in IH, Hxw, Hyw |- *. auto.
    - exists (Arr res). split; [done|]. by apply value_eqb_Arr. }
  destruct (value_eqb (take_items _ xs) (take_items _ ys)) eqn:Hpre; [|].
  - apply value_eqb_Arr in Hpre. destruct (decide (length xs < length ys)) as [Hlt|Hge].
    + rewrite indexed_numbered. exists (Arr (xs ++ drop (length xs) ys)). split.
      * apply runs_appended. rewrite length_drop. lia.
      * apply value_eqb_Arr. rewrite <- (take_drop (length xs) ys) at 2. apply Forall2_app.
        -- rewrite Nat.min_l, firstn_all in Hpre by lia. done.
        -- apply Forall_Forall2_diag. apply Forall_drop. eapply Forall_impl; [done|apply value_eqb_refl].
    + rewrite indexed_numbered. exists (Arr (take (length ys) xs)). split.
      * rewrite <- (take_drop (length ys) xs) at 2.
        pose proof (runs_truncated (take (length ys) xs) (drop (length ys) xs)) as H.
        rewrite length_take_le in H by lia. apply H. rewrite length_drop. lia.
      * apply value_eqb_Arr. rewrite Nat.min_r, (firstn_all ys) in Hpre by lia. done.
  - exists (Arr ys). split; [done|]. apply value_eqb_refl. by apply value_wf_Arr.
Qed.

Lemma diff_turns old new : value_wf old = true → value_wf new = true → turns old new.
Proof.
  revert new. induction old as [|b|n|s|items IH|m IH] using Value_nested_ind; intros new Hold Hnew.
  all: match goal with |- turns ?a ?b => destruct (value_eqb a b) eqn:Heq end; [by apply turns_equal|].
  1-4: apply turns_replace; [apply diff_at_other; naive_solver|done].
  - destruct new as [| | | |ys|]; try (apply turns_replace; [apply diff_at_other; naive_solver|done]).
    apply turns_Arr; [done..|]. eapply Forall_impl; [exact IH|]. auto.
  - destruct new as [| | | | |n]; try (apply turns_replace; [apply diff_at_other; naive_solver|done]).
    apply turns_Obj; [done..|]. eapply Forall_impl; [exact IH|]. auto.
Qed.

(** An operation on a value below the path [p]. *)
Definition rendered (addr : Addressing) (op : Op) : Prop := ∃ p, address op = Some (render addr p).

Lemma push_leaf_rendered addr p items make :
  (∀ path value, address (make path value) = Some path) → Forall (rendered addr) (push_leaf_ops addr p items make).
Proof. intros H. apply Forall_fmap, Forall_true. intros [s v]. eexists. apply H. Qed.

(** Values are only ever diffed into addressed operations. *)
Lemma diff_rendered addr p old new : Forall (rendered addr) (diff_values addr p old new).
Proof.
  revert p new. induction old as [|b|n|s|items IH|m IH] using Value_nested_ind; intros p new.
  all: cbn [diff_values]; match goal with |- context [value_eqb ?a ?b] => destruct (value_eqb a b) end; [constructor|].
  1-4: destruct new; repeat constructor; by eexists.
  - destruct new as [| | | |ys|]; try (repeat constructor; by eexists). unfold diff_arrays. cbv zeta.
    case_decide; [|repeat case_match; try (by apply push_leaf_rendered); repeat constructor; by eexists].
    clear -IH. generalize 0. revert ys.
    induction IH as [|x xs Hx _ IH]; intros [|y ys] i; cbn [diff_items]; try constructor.
    apply Forall_app. split; [apply Hx|apply IH].
  - destruct new as [| | | | |n]; try (repeat constructor; by eexists). apply Forall_app. split.
    + induction IH as [|[k v] m Hv _ IH]; cbn [flat_map]; [constructor|]. apply Forall_app. split; [|apply IH].
      destruct (get k n); [apply Hv|]. repeat constructor. by eexists.
    + by apply push_leaf_rendered.
Qed.

Lemma diff_addressed addr p old new : Forall addressed (diff_values addr p old new).
Proof. eapply Forall_impl; [apply diff_rendered|]. intros op [? H]. by eexists. Qed.

(** ** Claims *)

(** C38. A logical diff is a patch: for the formats addressed by JSON pointers,
    the diff of two values is empty exactly when they are equal, and replaying
    it on the old value, in order, never fails and gives a value equal to the
    new one (whatever chars the keys contain, for every depth and for arrays
    that grow, shrink or change). *)
Theorem replay_diff format old new :
  addressing format = Pointer → value_wf old = true → value_wf new = true →
  (diff_values (addressing format) [] old new = [] ↔ value_eqb old new = true) ∧
  ∃ v, apply_structured old format (diff_values (addressing format) [] old new) = Ok v ∧ value_eqb v new = true.
Proof.
  intros Hf Hold Hnew. destruct (diff_turns old new Hold Hnew) as (v & Hr & Hv). rewrite Hf. split; [split|].
  - intros Hnil. unfold diff_at in Hr. rewrite Hnil in Hr. unfold runs in Hr. by simplify_eq/=.
  - intros Heq. by destruct old; cbn [diff_values]; rewrite Heq.
  - exists v. split; [|done]. apply runs_apply; [done|apply diff_addressed|done].
Qed.

Definition demo_old : Value :=
  Obj [(chars_of "keep", Num (PosInt 1)); (chars_of "drop", Null);
       (chars_of "a/b~", Obj [(chars_of "deep", Bool true)]);
       (chars_of "rules", Arr [Num (PosInt 1); Num (NegInt (-2))]); (chars_of "cut", Arr [Null; Bool true; Null])].
Definition demo_new : Value :=
  Obj [(chars_of "rules", Arr [Num (PosInt 1); Num (NegInt (-2)); Str (chars_of "x")]); (chars_of "cut", Arr [Null]);
       (chars_of "a/b~", Obj [(chars_of "deep", Bool false)]); (chars_of "keep", Num (PosInt 1)); ([], Arr [])].

Lemma replay_diff_witness :
  length (diff_values (addressing Yaml) [] demo_old demo_new) = 6 ∧
  (diff_values (addressing Yaml) [] demo_old demo_new = [] ↔ value_eqb demo_old demo_new = true) ∧
  ∃ v, apply_structured demo_old Yaml (diff_values (addressing Yaml) [] demo_old demo_new) = Ok v ∧
    value_eqb v demo_new = true.
Proof.
  split; [vm_compute; reflexivity|].
  apply (replay_diff Yaml demo_old demo_new); vm_compute; reflexivity.
Defined.

(** * Overlap *)

Lemma render_pointer_inj a b : render Pointer a = render Pointer b → a = b.
Proof. intros H. by rewrite <- (parse_render_pointer Json a), H, parse_render_pointer. Qed.

Lemma prefixed_iff a b :
  match strip_prefix (render Pointer b) (render Pointer a) with
  | Some rest => starts_with slash rest
  | None => false
  end = true ↔ ∃ s c, a = b ++ s :: c.
Proof.
  split.
  - destruct (strip_prefix _ _) as [[|x rest]|] eqn:E; [done| |done]. apply strip_prefix_Some in E. cbn [starts_with].
    intros ->%bool_decide_eq_true. apply (f_equal (split_on slash)) in E.
    pose proof (split_render_pointer [] a ltac:(apply not_elem_of_nil)) as Ha.
    cbn [app] in Ha. rewrite Ha in E. clear Ha.
    assert (∀ s0, slash ∉ s0 → split_on slash ((s0 ++ render Pointer b) ++ slash :: rest) =
              s0 :: (escape <$> b) ++ split_on slash rest) as Hsplit.
    { clear. induction b as [|g b IH]; intros s0 Hs; cbn [render flat_map]; csimpl.
      - rewrite app_nil_r. by apply split_on_sep.
      - rewrite <- app_assoc. cbn [app]. rewrite split_on_sep by done. f_equal.
        apply (IH (escape g)), escape_no_slash. }
    pose proof (Hsplit [] ltac:(apply not_elem_of_nil)) as Hb. cbn [app] in Hb. rewrite Hb in E.
    injection E as E. apply fmap_app_inv in E as (l & k & Hl & Hk & ->).
    assert (l = b) as ->.
    { clear -Hl. revert b Hl. induction l as [|x l IH]; intros [|y b]; csimpl; try done.
      intros [= H1 H2]. f_equal; [|auto]. by rewrite <- (unescape_escape x), <- H1, unescape_escape. }
    destruct k as [|s c]; [|by exists s, c]. exfalso. revert Hk. csimpl.
    destruct rest as [|y rest]; cbn [split_on]; [done|]. repeat case_match; done.
  - intros (s & c & ->). unfold render. rewrite flat_map_app, strip_prefix_app. cbn [flat_map app starts_with].
    by apply bool_decide_eq_true.
Qed.

Lemma related_iff a b :
  related slash (render Pointer a) (render Pointer b) = true ↔ a `prefix_of` b ∨ b `prefix_of` a.
Proof.
  unfold related. rewrite !orb_true_iff, bool_decide_eq_true, !prefixed_iff. split.
  - intros [[->%render_pointer_inj|(s & c & ->)]|(s & c & ->)]; [by left|right|left]; by eexists.
  - intros [[[|s c] ->]|[[|s c] ->]]; rewrite ?app_nil_r; eauto.
Qed.

Lemma elem_of_dedup x l : x ∈ dedup l ↔ x ∈ l.
Proof.
  induction l as [|y [|z l] IH]; [done|done|]. cbn [dedup]. destruct (decide (y = z)) as [->|]; [|set_solver].
  rewrite IH. set_solver.
Qed.

Lemma unaddressed_false ops : Forall addressed ops → unaddressed ops = false.
Proof.
  intros H. unfold unaddressed. induction H as [|op ops [p Hp] _ IH]; [done|]. simpl. by rewrite Hp, IH.
Qed.

Lemma elem_of_overlap format yours incoming path :
  Forall addressed yours → Forall addressed incoming →
  path ∈ overlap format yours incoming ↔
  path ∈ omap address yours ∧ ∃ q, q ∈ omap address incoming ∧ related (separator format) path q = true.
Proof.
  intros H1 H2. unfold overlap. rewrite !unaddressed_false by done. rewrite andb_false_r.
  rewrite elem_of_dedup, list_elem_of_filter, existsb_exists. setoid_rewrite list_elem_of_In. naive_solver.
Qed.

Lemma elem_of_addresses p (ops : list Op) : p ∈ omap address ops ↔ ∃ op, op ∈ ops ∧ address op = Some p.
Proof. by rewrite list_elem_of_omap. Qed.

(** The overlap of two diffs of one document (at pointer addresses) lists
    exactly the addresses of the first that some operation of the second lies
    at, above or below, compared segment by segment: keys that merely start
    alike, or that contain the separator, do not count. *)
Lemma overlap_correct format base a b path :
  addressing format = Pointer →
  let yours := diff_values Pointer [] base a in
  let incoming := diff_values Pointer [] base b in
  path ∈ overlap format yours incoming ↔
  ∃ p q op op', path = render Pointer p ∧ op ∈ yours ∧ address op = Some (render Pointer p) ∧
    op' ∈ incoming ∧ address op' = Some (render Pointer q) ∧ (p `prefix_of` q ∨ q `prefix_of` p).
Proof.
  intros Hf yours incoming. assert (separator format = slash) as Hsep by (unfold separator; by rewrite Hf).
  rewrite elem_of_overlap by apply diff_addressed. rewrite Hsep. setoid_rewrite elem_of_addresses.
  pose proof (diff_rendered Pointer [] base a) as Ha. pose proof (diff_rendered Pointer [] base b) as Hb.
  rewrite Forall_forall in Ha, Hb. split.
  - intros [(op & Hop & Hp) (q & (op' & Hop' & Hq) & Hrel)].
    destruct (Ha op Hop) as [p Hp'], (Hb op' Hop') as [q' Hq']. rewrite Hp in Hp'. rewrite Hq in Hq'. simplify_eq.
    apply related_iff in Hrel. exists p, q', op, op'. done.
  - intros (p & q & op & op' & -> & Hop & Hp & Hop' & Hq & Hrel). split; [by exists op|].
    exists (render Pointer q). split; [by exists op'|]. by apply related_iff.
Qed.

Definition demo_theirs : Value :=
  Obj [(chars_of "rules", Arr [Num (PosInt 1); Num (NegInt (-2)); Null; Null]); (chars_of "a", Null);
       (chars_of "keep", Num (PosInt 1)); (chars_of "cut", Arr [Null; Bool true; Null]); (chars_of "drop", Null)].

Example overlap_correct_demo :
  overlap Json (diff_values Pointer [] demo_old demo_new) (diff_values Pointer [] demo_old demo_theirs) =
    [chars_of "/a~1b~0/deep"; chars_of "/rules/2"] ∧
  ∃ p q op op', chars_of "/rules/2" = render Pointer p ∧ op ∈ diff_values Pointer [] demo_old demo_new ∧
    address op = Some (render Pointer p) ∧
    op' ∈ diff_values Pointer [] demo_old demo_theirs ∧ address op' = Some (render Pointer q) ∧
    (p `prefix_of` q ∨ q `prefix_of` p).
Proof.
  split; [vm_compute; reflexivity|].
  apply (overlap_correct Json demo_old demo_new demo_theirs); [reflexivity|].
  vm_compute. right. left.
Defined.

(** Diffs that do not overlap need not be independent: after one side has
    truncated an array, the append of the other is out of range, and in the
    other order the truncation takes the wrong elements. *)
Definition three : Value := Arr [Num (PosInt 0); Num (PosInt 1); Num (PosInt 2)].
Definition truncated : Value := Arr [Num (PosInt 0)].
Definition appended : Value := Arr [Num (PosInt 0); Num (PosInt 1); Num (PosInt 2); Num (PosInt 3)].

Example disjoint_diffs_conflict :
  let yours := diff_values Pointer [] three truncated in
  let incoming := diff_values Pointer [] three appended in
  overlap Json yours incoming = [] ∧
  apply_structured three Json (yours ++ incoming) = Err (IndexOutOfRange (chars_of "/3") 3) ∧
  apply_structured three Json (incoming ++ yours) = Ok (Arr [Num (PosInt 0); Num (PosInt 3)]).
Proof. vm_compute. auto. Qed.
