(* ===== verification/McNbt.v ===== *)
(** The JSON description of NBT documents, [packages/minecraft/nbt/src/lib.rs]:
    the decoder from [serde_json] values to typed tags, and the documents it can
    produce.

    The tags are the variants of [quartz_nbt::NbtTag], matched exhaustively by
    the code; a compound is an insertion-ordered map (feature
    [preserve_order]).  Error messages are values of a type. *)

From stdpp Require Import base gmap sets list strings.
From Stdlib Require Import Ascii SpecFloat.
From S2P Require Import Prelude Chars JsonValue.
Open Scope Z_scope.

Definition TAG_KEY : text := chars_of "__minecraftNbt".
Definition VALUE_KEY : text := chars_of "value".

(** * Data *)

(** [f32]: IEEE 754 binary32. *)
Abbreviation f32 := spec_float.

Inductive NbtTag :=
| NbtByte (n : Z) | NbtShort (n : Z) | NbtInt (n : Z) | NbtLong (n : Z)
| NbtFloat (x : f32) | NbtDouble (x : f64)
| NbtByteArray (ns : list Z) | NbtString (s : text)
| NbtList (tags : list NbtTag) | NbtCompound (tags : list (text * NbtTag))
| NbtIntArray (ns : list Z) | NbtLongArray (ns : list Z).

Record Document := mkDocument { root_name : text; compound : list (text * NbtTag) }.

Inductive NbtError :=
| RootNameMissing
| MissingValue (context : option (text * text))
| RootNotCompound (found : text)
| NoNullTag (path : text)
| RootWrapperInside (path : text)
| TagRequires (path tag what : text)
| UnsupportedTag (path tag : text)
| NotHomogeneous (path expected found : text)
| NumberNotFinite (path : text)
| OutsideFloatRange (path tag : text) (value : f64)
| OutsideRange (path tag : text) (value min max : Z)
| TooLargeForNbt (path tag : text) (value : Z)
| TryFromInt.

Abbreviation result := (outcome NbtError).

Definition tag_kind (tag : NbtTag) : text :=
  chars_of match tag with
  | NbtByte _ => "byte"
  | NbtShort _ => "short"
  | NbtInt _ => "int"
  | NbtLong _ => "long"
  | NbtFloat _ => "float"
  | NbtDouble _ => "double"
  | NbtByteArray _ => "byteArray"
  | NbtString _ => "string"
  | NbtList _ => "list"
  | NbtCompound _ => "compound"
  | NbtIntArray _ => "intArray"
  | NbtLongArray _ => "longArray"
  end.

(** * Numbers *)

(** [Number::as_i64] and [as_u64]. *)
Definition as_i64_opt (n : Number) : option Z :=
  match n with
  | PosInt n => if decide (n < 2 ^ 63) then Some n else None
  | NegInt n => Some n
  | Float _ => None
  end.
Definition as_u64 (n : Number) : option Z := match n with PosInt n => Some n | _ => None end.

(** [x as f32]: round to nearest, ties to even. *)
Definition to_f32 (x : f64) : f32 :=
  match x with
  | S754_finite s m e => binary_normalize 24 128 (cond_Zopp s (Zpos m)) e s
  | _ => x
  end.

(** [f64::from(f32::MAX)] and [f64::from(f32::MIN)]: [(2^24 - 1) * 2^104]. *)
Definition f32_max : f64 := S754_finite false (Z.to_pos ((2 ^ 24 - 1) * 2 ^ 29)) 75.
Definition f32_min : f64 := S754_finite true (Z.to_pos ((2 ^ 24 - 1) * 2 ^ 29)) 75.

Definition in_f32_range (x : f64) : bool := SFleb f32_min x && SFleb x f32_max.

(** [iN::try_from]. *)
Definition try_from (min max value : Z) : result Z :=
  if decide (min <= value <= max) then Ok value else Err TryFromInt.

Definition as_i64 (path tag : text) (value : Value) : result Z :=
  match value with
  | Num number =>
      match as_i64_opt number with
      | Some value => Ok value
      | None =>
          match as_u64 number with
          | Some value => if decide (value < 2 ^ 63) then Ok value else Err (TooLargeForNbt path tag value)
          | None => Err (TagRequires path tag (chars_of "an integer value"))
          end
      end
  | _ => Err (TagRequires path tag (chars_of "an integer value"))
  end.

Definition ranged_i64 (path tag : text) (value : Value) (min max : Z) : result Z :=
  value ← as_i64 path tag value;
  if decide (min <= value <= max) then Ok value else Err (OutsideRange path tag value min max).

Definition nbt_float (path tag : text) (value : f64) : result NbtTag :=
  if in_f32_range value then Ok (NbtFloat (to_f32 value)) else Err (OutsideFloatRange path tag value).

Definition float_tag (path tag : text) (value : Value) (build : f64 → result NbtTag) : result NbtTag :=
  let e := TagRequires path tag (chars_of "a finite numeric value") in
  match value with
  | Num n => if is_finite (as_f64 n) then build (as_f64 n) else Err e
  | _ => Err e
  end.

Definition integer_tag (path tag : text) (value : Value) (min max : Z) (build : Z → result NbtTag) : result NbtTag :=
  value ← ranged_i64 path tag value min max;
  build value.

Definition element_path (path : text) (index : nat) : text :=
  path ++ [ch "["] ++ print_nat (N.of_nat index) ++ [ch "]"].

Fixpoint ranged_elements (path tag : text) (index : nat) (values : list Value) (min max : Z) (out : list Z) :
    result (list Z) :=
  match values with
  | [] => Ok out
  | value :: values =>
      n ← ranged_i64 (element_path path index) tag value min max;
      ranged_elements path tag (S index) values min max (out ++ [n])
  end.

Definition integer_array_tag (path tag : text) (value : Value) (min max : Z) (build : list Z → result NbtTag) :
    result NbtTag :=
  match value with
  | Arr values => out ← ranged_elements path tag 0 values min max []; build out
  | _ => Err (TagRequires path tag (chars_of "an array value"))
  end.

(** [values.into_iter().map(iN::try_from).collect()]. *)
Definition try_from_all (min max : Z) (values : list Z) : result (list Z) :=
  foldM (λ out value, n ← try_from min max value; Ok (out ++ [n])) [] values.

Definition decode_implicit_number (path : text) (value : Number) : result NbtTag :=
  match value with
  | Float x => if is_finite x then Ok (NbtDouble x) else Err (NumberNotFinite path)
  | _ =>
      n ← as_i64 path (chars_of "number") (Num value);
      match try_from (- 2 ^ 31) (2 ^ 31 - 1) n with
      | Ok n => Ok (NbtInt n)
      | _ => Ok (NbtLong n)
      end
  end.

(** * Tags *)

Definition tag_name (object : list (text * Value)) : option text :=
  match get TAG_KEY object with Some (Str tag) => Some tag | _ => None end.

Section decode.
Variable decode_tag : text → Value → result NbtTag.

(** The loops of [decode_compound] and of [decode_list]. *)
Fixpoint decode_entries (path : text) (object : list (text * Value)) (compound : list (text * NbtTag)) :
    result (list (text * NbtTag)) :=
  match object with
  | [] => Ok compound
  | (key, value) :: object =>
      tag ← decode_tag (path ++ [ch "."] ++ key) value;
      decode_entries path object (insert_key key tag compound)
  end.

Definition decode_compound (path : text) (object : list (text * Value)) : result (list (text * NbtTag)) :=
  decode_entries path object [].

Fixpoint decode_elements (path : text) (index : nat) (values : list Value) (element_kind : option text)
    (tags : list NbtTag) : result (list NbtTag) :=
  match values with
  | [] => Ok tags
  | value :: values =>
      tag ← decode_tag (element_path path index) value;
      let current_kind := tag_kind tag in
      match element_kind with
      | Some expected_kind =>
          if decide (current_kind = expected_kind) then
            decode_elements path (S index) values element_kind (tags ++ [tag])
          else Err (NotHomogeneous (element_path path index) expected_kind current_kind)
      | None => decode_elements path (S index) values (Some current_kind) (tags ++ [tag])
      end
  end.

Definition decode_list (path : text) (values : list Value) : result (list NbtTag) :=
  decode_elements path 0 values None [].

(** [decode_explicit_tag] once its value has been found. *)
Definition decode_tagged (path tag : text) (value : Value) : result NbtTag :=
  let named name := bool_decide (tag = chars_of name) in
  if named "byte" then
    integer_tag path tag value (- 2 ^ 7) (2 ^ 7 - 1) (λ v, NbtByte <$> try_from (- 2 ^ 7) (2 ^ 7 - 1) v)
  else if named "short" then
    integer_tag path tag value (- 2 ^ 15) (2 ^ 15 - 1) (λ v, NbtShort <$> try_from (- 2 ^ 15) (2 ^ 15 - 1) v)
  else if named "int" then
    integer_tag path tag value (- 2 ^ 31) (2 ^ 31 - 1) (λ v, NbtInt <$> try_from (- 2 ^ 31) (2 ^ 31 - 1) v)
  else if named "long" then
    integer_tag path tag value (- 2 ^ 63) (2 ^ 63 - 1) (λ v, Ok (NbtLong v))
  else if named "float" then float_tag path tag value (nbt_float path tag)
  else if named "double" then float_tag path tag value (λ v, Ok (NbtDouble v))
  else if named "string" then
    match value with
    | Str s => Ok (NbtString s)
    | _ => Err (TagRequires path tag (chars_of "a string value"))
    end
  else if named "byteArray" then
    integer_array_tag path tag value (- 2 ^ 7) (2 ^ 7 - 1)
      (λ vs, NbtByteArray <$> try_from_all (- 2 ^ 7) (2 ^ 7 - 1) vs)
  else if named "intArray" then
    integer_array_tag path tag value (- 2 ^ 31) (2 ^ 31 - 1)
      (λ vs, NbtIntArray <$> try_from_all (- 2 ^ 31) (2 ^ 31 - 1) vs)
  else if named "longArray" then
    integer_array_tag path tag value (- 2 ^ 63) (2 ^ 63 - 1) (λ vs, Ok (NbtLongArray vs))
  else if named "list" then
    match value with
    | Arr values => NbtList <$> decode_list path values
    | _ => Err (TagRequires path tag (chars_of "an array value"))
    end
  else if named "compound" then
    match value with
    | Obj object => NbtCompound <$> decode_compound path object
    | _ => Err (TagRequires path tag (chars_of "an object value"))
    end
  else Err (UnsupportedTag path tag).

Definition decode_explicit_tag (path tag : text) (object : list (text * Value)) : result NbtTag :=
  if decide (tag = chars_of "root") then Err (RootWrapperInside path)
  else get_or VALUE_KEY (Err (MissingValue (Some (path, tag)))) (decode_tagged path tag) object.
End decode.

Fixpoint decode_tag (path : text) (value : Value) {struct value} : result NbtTag :=
  match value with
  | Obj object =>
      match tag_name object with
      | None => NbtCompound <$> decode_compound (λ p v, decode_tag p v) path object
      | Some tag => decode_explicit_tag (λ p v, decode_tag p v) path tag object
      end
  | Arr values => NbtList <$> decode_list (λ p v, decode_tag p v) path values
  | Str s => Ok (NbtString s)
  | Bool b => Ok (NbtByte (if b then 1 else 0))
  | Num n => decode_implicit_number path n
  | Null => Err (NoNullTag path)
  end.

Definition decode_document (value : Value) (default_root_name : text) : result Document :=
  '(root_name, root_value) ←
    match value with
    | Obj object =>
        if decide (tag_name object = Some (chars_of "root")) then
          match get (chars_of "name") object with
          | Some (Str root_name) =>
              root_value ← ok_or (get VALUE_KEY object) (MissingValue None);
              Ok (root_name, root_value)
          | _ => Err RootNameMissing
          end
        else Ok (default_root_name, value)
    | _ => Ok (default_root_name, value)
    end;
  tag ← decode_tag [ch "$"] root_value;
  match tag with
  | NbtCompound compound => Ok (mkDocument root_name compound)
  | other => Err (RootNotCompound (tag_kind other))
  end.

(** * Typed tags *)

Definition i8_ok (n : Z) : Prop := - 2 ^ 7 <= n <= 2 ^ 7 - 1.
Definition i16_ok (n : Z) : Prop := - 2 ^ 15 <= n <= 2 ^ 15 - 1.
Definition i32_ok (n : Z) : Prop := - 2 ^ 31 <= n <= 2 ^ 31 - 1.
Definition i64_ok (n : Z) : Prop := - 2 ^ 63 <= n <= 2 ^ 63 - 1.

(** A length a [Vec] can have. *)
Definition vec_ok {A} (l : list A) : Prop := Z.of_nat (length l) < 2 ^ 63.

(** NBT's types: integers in the range of their tag, floats rounded from a
    finite number in the range of [f32], lists of one kind of element,
    compounds with distinct names. *)
Inductive typed : NbtTag → Prop :=
| typed_byte n : i8_ok n → typed (NbtByte n)
| typed_short n : i16_ok n → typed (NbtShort n)
| typed_int n : i32_ok n → typed (NbtInt n)
| typed_long n : i64_ok n → typed (NbtLong n)
| typed_float x : is_finite x = true → in_f32_range x = true → typed (NbtFloat (to_f32 x))
| typed_double x : is_finite x = true → typed (NbtDouble x)
| typed_byte_array ns : vec_ok ns → Forall i8_ok ns → typed (NbtByteArray ns)
| typed_string s : typed (NbtString s)
| typed_list kind tags :
    vec_ok tags → Forall (λ t, tag_kind t = kind) tags → Forall typed tags → typed (NbtList tags)
| typed_compound tags : NoDup tags.*1 → Forall (λ kt, typed kt.2) tags → typed (NbtCompound tags)
| typed_int_array ns : vec_ok ns → Forall i32_ok ns → typed (NbtIntArray ns)
| typed_long_array ns : vec_ok ns → Forall i64_ok ns → typed (NbtLongArray ns).

(** ** What is decoded is typed *)

Lemma as_i64_ok path tag v n : value_wf v = true → as_i64 path tag v = Ok n → i64_ok n.
Proof.
  unfold i64_ok. destruct v as [| |[m|m|x]| | |]; simpl; try done.
  - intros H%bool_decide_eq_true. repeat case_decide; intros; simplify_eq; lia.
  - intros H%bool_decide_eq_true [= ->]. lia.
Qed.

Lemma ranged_i64_ok path tag v min max n : ranged_i64 path tag v min max = Ok n → min <= n <= max.
Proof. unfold ranged_i64. intros (m & _ & H)%bind_Ok. case_decide; naive_solver. Qed.

Lemma ranged_elements_ok path tag i vs min max out ns :
  Forall (λ n, min <= n <= max) out → ranged_elements path tag i vs min max out = Ok ns →
  Forall (λ n, min <= n <= max) ns ∧ length ns = (length out + length vs)%nat.
Proof.
  revert i out. induction vs as [|v vs IH]; intros i out Hout; simpl; [intros [= <-]; split; [done|lia]|].
  intros (n & Hn%ranged_i64_ok & H)%bind_Ok. apply IH in H as [? ->]; [|by apply Forall_snoc].
  split; [done|]. rewrite length_app. simpl. lia.
Qed.

Lemma try_from_Ok min max n m : try_from min max n = Ok m → m = n ∧ min <= m <= max.
Proof. unfold try_from. case_decide; naive_solver. Qed.

Lemma try_from_all_Ok min max ns ms : try_from_all min max ns = Ok ms → ms = ns ∧ Forall (λ n, min <= n <= max) ms.
Proof.
  unfold try_from_all.
  assert (∀ out, foldM (λ out value, n ← try_from min max value; Ok (out ++ [n])) out ns = Ok ms →
    ms = out ++ ns ∧ Forall (λ n, min <= n <= max) ns) as Hgen; last first.
  { intros H. by apply Hgen in H as [-> ?]. }
  induction ns as [|n ns IH]; intros out; simpl; [intros [= <-]; by rewrite app_nil_r|].
  unfold try_from at 1. case_decide; simpl; [|done]. intros Hf. apply IH in Hf as [-> ?].
  rewrite <- app_assoc. split; [done|by constructor].
Qed.

Lemma integer_tag_Ok path tag v min max build t :
  integer_tag path tag v min max build = Ok t → ∃ n, min <= n <= max ∧ build n = Ok t.
Proof. intros (n & Hn%ranged_i64_ok & H)%bind_Ok. eauto. Qed.

Lemma integer_array_tag_Ok path tag v min max build t :
  value_wf v = true → integer_array_tag path tag v min max build = Ok t →
  ∃ ns, vec_ok ns ∧ Forall (λ n, min <= n <= max) ns ∧ build ns = Ok t.
Proof.
  destruct v as [| | | |vs|]; try done. intros [Hlen _]%value_wf_Arr (ns & Hns & H)%bind_Ok.
  apply ranged_elements_ok in Hns as [? Hl]; [|constructor]. exists ns. split_and!; [|done..].
  unfold vec_ok. rewrite Hl. simpl. lia.
Qed.

Lemma float_tag_Ok path tag v build t :
  float_tag path tag v build = Ok t → ∃ x, is_finite x = true ∧ build x = Ok t.
Proof. destruct v; simpl; try done. destruct (is_finite _) eqn:E; [eauto|done]. Qed.

Lemma fmap_Ok {E A B} (f : A → B) (m : outcome E A) b : f <$> m = Ok b ↔ ∃ a, m = Ok a ∧ b = f a.
Proof. destruct m; simpl; naive_solver. Qed.

Section decode_typed.
Variable dec : text → Value → result NbtTag.
Definition decodes_typed (v : Value) : Prop := ∀ path t, dec path v = Ok t → typed t.

Lemma decode_compound_typed path object c :
  Forall (λ kv, decodes_typed kv.2) object → decode_compound dec path object = Ok c → typed (NbtCompound c).
Proof.
  intros Hall. unfold decode_compound.
  assert (∀ acc, NoDup acc.*1 → Forall (λ kt, typed kt.2) acc → decode_entries dec path object acc = Ok c →
    NoDup c.*1 ∧ Forall (λ kt, typed kt.2) c) as Hgen; last first.
  { intros H. apply Hgen in H as [? ?]; [by constructor|constructor..]. }
  induction Hall as [|[k v] object Hv _ IH]; intros acc Hnd Hacc; simpl; [by intros [= <-]|].
  intros (t & Ht & H)%bind_Ok. apply IH in H; [done|by apply NoDup_insert_key|].
  apply Hv in Ht. clear -Hacc Ht. induction Hacc as [|[j w] acc Hw Hacc IH]; simpl; [by repeat constructor|].
  case_decide; [by constructor|]. by constructor.
Qed.

Lemma decode_elements_typed path vs tags out i kind :
  Forall decodes_typed vs → Forall typed tags →
  match kind with Some k => Forall (λ t, tag_kind t = k) tags | None => tags = [] end →
  decode_elements dec path i vs kind tags = Ok out →
  Forall typed out ∧ length out = (length tags + length vs)%nat ∧ ∃ k, Forall (λ t, tag_kind t = k) out.
Proof.
  intros Hall. revert i kind tags. induction Hall as [|v vs Hv _ IH]; intros i kind tags Ht Hk; simpl.
  { intros [= <-]. split_and!; [done|lia|]. destruct kind; [eauto|]. subst. by exists []. }
  intros (t & Hdec%Hv & H)%bind_Ok.
  assert (∀ kind', decode_elements dec path (S i) vs (Some kind') (tags ++ [t]) = Ok out →
    Forall (λ t, tag_kind t = kind') (tags ++ [t]) →
    Forall typed out ∧ length out = (length tags + S (length vs))%nat ∧ ∃ k, Forall (λ t, tag_kind t = k) out) as Hgo.
  { intros kind' Hd Hk'. apply IH in Hd as (? & -> & ?); [|by apply Forall_snoc|done].
    rewrite length_app. simpl. split_and!; [done|lia|done]. }
  destruct kind as [kind|].
  - case_decide; [|done]. apply (Hgo _ H). by apply Forall_snoc.
  - subst. apply (Hgo _ H). by repeat constructor.
Qed.

Lemma decode_list_typed path vs out :
  value_wf (Arr vs) = true → Forall decodes_typed vs → decode_list dec path vs = Ok out → typed (NbtList out).
Proof.
  intros [Hlen _]%value_wf_Arr Hall H. apply decode_elements_typed in H as (? & Hl & k & ?); [|done|constructor|done].
  apply (typed_list k); [|done..]. unfold vec_ok. rewrite Hl. simpl. lia.
Qed.

(** The decodings below a value. *)
Definition parts_typed (v : Value) : Prop :=
  match v with
  | Arr vs => Forall decodes_typed vs
  | Obj m => Forall (λ kv, decodes_typed kv.2) m
  | _ => True
  end.

Lemma decode_tagged_typed path tag v t :
  value_wf v = true → parts_typed v → decode_tagged dec path tag v = Ok t → typed t.
Proof.
  intros Hwf Hparts. unfold decode_tagged. cbv zeta.
  repeat (case_bool_decide as Htag; [clear Htag|clear Htag]).
  - intros (n & _ & (m & [-> ?]%try_from_Ok & ->)%fmap_Ok)%integer_tag_Ok. by constructor.
  - intros (n & _ & (m & [-> ?]%try_from_Ok & ->)%fmap_Ok)%integer_tag_Ok. by constructor.
  - intros (n & _ & (m & [-> ?]%try_from_Ok & ->)%fmap_Ok)%integer_tag_Ok. by constructor.
  - intros (n & ? & [= <-])%integer_tag_Ok. by constructor.
  - intros (x & ? & H)%float_tag_Ok. unfold nbt_float in H. destruct (in_f32_range x) eqn:?; simplify_eq.
    by constructor.
  - intros (x & ? & [= <-])%float_tag_Ok. by constructor.
  - destruct v; try done. intros [= <-]. constructor.
  - intros (ns & ? & _ & (ms & [-> ?]%try_from_all_Ok & ->)%fmap_Ok)%integer_array_tag_Ok; [|done]. by constructor.
  - intros (ns & ? & _ & (ms & [-> ?]%try_from_all_Ok & ->)%fmap_Ok)%integer_array_tag_Ok; [|done]. by constructor.
  - intros (ns & ? & ? & [= <-])%integer_array_tag_Ok; [|done]. by constructor.
  - destruct v; try done. intros (ts & H & ->)%fmap_Ok. by eapply decode_list_typed.
  - destruct v; try done. intros (ts & H & ->)%fmap_Ok. by eapply decode_compound_typed.
  - done.
Qed.
End decode_typed.

Lemma decode_tag_typed v : value_wf v = true → decodes_typed decode_tag v ∧ parts_typed decode_tag v.
Proof.
  induction v as [|b|n|s|vs IH|m IH] using Value_nested_ind; intros Hwf; (split; [intros path t|]); try done.
  - intros [= <-]. constructor. unfold i8_ok. destruct b; lia.
  - cbn [decode_tag]. unfold decode_implicit_number. destruct n as [n|n|x].
    1-2: intros (k & Hk%as_i64_ok & H)%bind_Ok; [|done]; destruct (try_from _ _ k) eqn:E;
      [apply try_from_Ok in E as [-> ?]|..]; simplify_eq; by constructor.
    destruct (is_finite x) eqn:?; [|done]. intros [= <-]. by constructor.
  - intros [= <-]. constructor.
  - cbn [decode_tag]. intros (ts & H & ->)%fmap_Ok. eapply decode_list_typed; [done| |exact H].
    apply value_wf_Arr in Hwf as [_ Hwf]. rewrite Forall_forall in IH, Hwf |- *. intros v Hv. by apply IH; [|apply Hwf].
  - simpl. apply value_wf_Arr in Hwf as [_ Hwf]. rewrite Forall_forall in IH, Hwf |- *.
    intros v Hv. by apply IH; [|apply Hwf].
  - apply value_wf_Obj in Hwf as [_ Hwf]. rewrite Forall_forall in IH. cbn [decode_tag].
    destruct (tag_name m) as [tag|].
    + unfold decode_explicit_tag. case_decide; [done|]. rewrite get_or_get.
      destruct (get VALUE_KEY m) as [v|] eqn:Hv; [|done]. apply get_Some_elem in Hv.
      apply decode_tagged_typed; [by eapply Hwf|by apply (IH _ Hv); eapply Hwf].
    + intros (ts & H & ->)%fmap_Ok. eapply decode_compound_typed; [|exact H].
      rewrite Forall_forall. intros [k v] Hv. apply (IH _ Hv). by eapply Hwf.
  - simpl. apply value_wf_Obj in Hwf as [_ Hwf]. rewrite Forall_forall in IH |- *. intros [k v] Hv.
    apply (IH _ Hv). by eapply Hwf.
Qed.

(** ** Every typed tag is described by some JSON *)

Definition NbtTag_nested_ind (P : NbtTag → Prop)
    (HByte : ∀ n, P (NbtByte n)) (HShort : ∀ n, P (NbtShort n)) (HInt : ∀ n, P (NbtInt n))
    (HLong : ∀ n, P (NbtLong n)) (HFloat : ∀ x, P (NbtFloat x)) (HDouble : ∀ x, P (NbtDouble x))
    (HByteArray : ∀ ns, P (NbtByteArray ns)) (HString : ∀ s, P (NbtString s))
    (HList : ∀ tags, Forall P tags → P (NbtList tags))
    (HCompound : ∀ tags, Forall (λ kt, P kt.2) tags → P (NbtCompound tags))
    (HIntArray : ∀ ns, P (NbtIntArray ns)) (HLongArray : ∀ ns, P (NbtLongArray ns)) : ∀ t, P t :=
  fix go t :=
    match t with
    | NbtByte n => HByte n | NbtShort n => HShort n | NbtInt n => HInt n | NbtLong n => HLong n
    | NbtFloat x => HFloat x | NbtDouble x => HDouble x
    | NbtByteArray ns => HByteArray ns | NbtString s => HString s
    | NbtList tags =>
        HList tags ((fix all (l : list NbtTag) : Forall P l :=
          match l with [] => List.Forall_nil P | t :: l => List.Forall_cons P t l (go t) (all l) end) tags)
    | NbtCompound tags =>
        HCompound tags ((fix all (l : list (text * NbtTag)) : Forall (λ kt, P kt.2) l :=
          match l with
          | [] => List.Forall_nil _
          | kt :: l => List.Forall_cons (λ kt, P kt.2) kt l (go kt.2) (all l)
          end) tags)
    | NbtIntArray ns => HIntArray ns | NbtLongArray ns => HLongArray ns
    end.

(** The explicit wrapper of a tag. *)
Definition wrap (tag : string) (v : Value) : Value := Obj [(TAG_KEY, Str (chars_of tag)); (VALUE_KEY, v)].
Definition json_int (n : Z) : Value := Num (if decide (0 <= n) then PosInt n else NegInt n).

Lemma decode_wrap path tag v :
  tag ≠ "root"%string →
  decode_tag path (wrap tag v) = decode_tagged (λ p v, decode_tag p v) path (chars_of tag) v.
Proof.
  intros H. cbn [wrap decode_tag]. unfold tag_name. cbn [get].
  rewrite decide_True by done. unfold decode_explicit_tag. rewrite decide_False.
  - cbn [get_or]. rewrite decide_False by done. by rewrite decide_True.
  - by intros Heq%(inj chars_of).
Qed.

Lemma wrap_wf tag v : value_wf v = true → value_wf (wrap tag v) = true.
Proof.
  intros Hv. apply value_wf_Obj. split; [|intros k w; rewrite !elem_of_cons; set_solver].
  apply NoDup_cons. split; [|apply NoDup_singleton]. by intros [=]%list_elem_of_singleton.
Qed.

Lemma json_int_wf n : i64_ok n → value_wf (json_int n) = true.
Proof. unfold i64_ok, json_int. intros. case_decide; simpl; apply bool_decide_eq_true; lia. Qed.

Lemma ranged_json_int path tag n min max :
  i64_ok n → min <= n <= max → ranged_i64 path tag (json_int n) min max = Ok n.
Proof.
  unfold i64_ok. intros Hn Hm. unfold ranged_i64, as_i64, json_int.
  destruct (decide (0 <= n)); simpl; [rewrite decide_True by lia|]; simpl; by rewrite decide_True.
Qed.

Lemma try_from_in min max n : min <= n <= max → try_from min max n = Ok n.
Proof. intros. unfold try_from. by rewrite decide_True. Qed.

Lemma integer_json_int path tag n min max build :
  i64_ok n → min <= n <= max → integer_tag path tag (json_int n) min max build = build n.
Proof. intros. unfold integer_tag. by rewrite ranged_json_int. Qed.

Lemma elements_json_ints path tag i ns min max out :
  Forall i64_ok ns → Forall (λ n, min <= n <= max) ns →
  ranged_elements path tag i (json_int <$> ns) min max out = Ok (out ++ ns).
Proof.
  intros Hi. revert i out. induction Hi as [|n ns Hn _ IH]; intros i out Hr; csimpl; [by rewrite app_nil_r|].
  inversion Hr; subst. rewrite ranged_json_int by done. simpl. rewrite IH by done. by rewrite <- app_assoc.
Qed.

Lemma integer_array_json_ints path tag ns min max build :
  Forall i64_ok ns → Forall (λ n, min <= n <= max) ns →
  integer_array_tag path tag (Arr (json_int <$> ns)) min max build = build ns.
Proof. intros. simpl. by rewrite elements_json_ints. Qed.

Lemma try_from_all_in min max ns : Forall (λ n, min <= n <= max) ns → try_from_all min max ns = Ok ns.
Proof.
  intros H. unfold try_from_all. rewrite (foldM_collect _ id).
  - by rewrite list_fmap_id.
  - intros n Hn. rewrite Forall_forall in H. by apply try_from_in, H.
Qed.

Lemma json_ints_wf ns : vec_ok ns → Forall i64_ok ns → value_wf (Arr (json_int <$> ns)) = true.
Proof.
  intros Hl H. apply value_wf_Arr. split; [by rewrite length_fmap|].
  apply Forall_fmap. eapply Forall_impl; [done|apply json_int_wf].
Qed.

Lemma narrow_ok (P : Z → Prop) ns : (∀ n, P n → i64_ok n) → Forall P ns → Forall i64_ok ns.
Proof. intros H Hns. eapply Forall_impl; [exact Hns|exact H]. Qed.

(** [v] describes [t]. *)
Definition describes (t : NbtTag) (v : Value) : Prop := value_wf v = true ∧ ∀ path, decode_tag path v = Ok t.

Lemma describes_wrap tag v t :
  tag ≠ "root"%string → value_wf v = true →
  (∀ path, decode_tagged (λ p v, decode_tag p v) path (chars_of tag) v = Ok t) → describes t (wrap tag v).
Proof. intros Htag Hv H. split; [by apply wrap_wf|]. intros path. by rewrite decode_wrap. Qed.

Lemma decode_elements_described path i kind tags vs out :
  Forall2 describes tags vs → Forall (λ t, tag_kind t = kind) tags →
  decode_elements (λ p v, decode_tag p v) path i vs (Some kind) out = Ok (out ++ tags).
Proof.
  intros H. revert i out. induction H as [|t v tags vs [_ Hv] _ IH]; intros i out Hk; simpl; [by rewrite app_nil_r|].
  inversion Hk; subst. rewrite Hv. simpl. rewrite decide_True by done. rewrite IH by done. by rewrite <- app_assoc.
Qed.

Lemma decode_list_described path kind tags vs :
  Forall2 describes tags vs → Forall (λ t, tag_kind t = kind) tags →
  decode_list (λ p v, decode_tag p v) path vs = Ok tags.
Proof.
  intros H Hk. unfold decode_list. destruct H as [|t v tags vs [_ Hv] H]; [done|]. cbn [decode_elements].
  inversion Hk; subst. rewrite Hv. simpl. by rewrite (decode_elements_described _ _ _ tags).
Qed.

Lemma decode_compound_described path tags object :
  Forall2 (λ kt kv, kt.1 = kv.1 ∧ describes kt.2 kv.2) tags object → NoDup tags.*1 →
  decode_compound (λ p v, decode_tag p v) path object = Ok tags.
Proof.
  intros H. unfold decode_compound.
  assert (∀ acc, NoDup (acc ++ tags).*1 →
    decode_entries (λ p v, decode_tag p v) path object acc = Ok (acc ++ tags)) as Hgen; [|apply (Hgen [])].
  induction H as [|[k t] [k' v] tags object [Hk [_ Hv]] _ IH]; intros acc Hnd; simpl; [by rewrite app_nil_r|].
  simpl in Hk, Hv. subst k'. rewrite Hv. simpl. rewrite insert_key_fresh.
  - rewrite IH; by rewrite <- app_assoc.
  - rewrite fmap_app, NoDup_app in Hnd. destruct Hnd as (_ & Hd & _). intros Hin. apply (Hd k); [done|]. csimpl. by left.
Qed.

(** Compare the tag names in the goal. *)
Ltac compare_names :=
  repeat match goal with
  | |- context [bool_decide (chars_of ?a = chars_of ?b)] =>
      let r := eval vm_compute in (bool_decide (chars_of a = chars_of b)) in
      change (bool_decide (chars_of a = chars_of b)) with r
  end; cbv iota.

(** Describe a tag by its explicit wrapper around [v]. *)
Ltac described name v :=
  exists (wrap name v); apply describes_wrap; [done| |intros ?; unfold decode_tagged; cbv zeta; compare_names].

Lemma integer_described tag n min max (mk : Z → NbtTag) path :
  - 2 ^ 63 <= min → max <= 2 ^ 63 - 1 → min <= n <= max →
  integer_tag path tag (json_int n) min max (λ v, mk <$> try_from min max v) = Ok (mk n).
Proof.
  intros. rewrite integer_json_int by (unfold i64_ok; lia). by rewrite try_from_in.
Qed.

Lemma integers_described tag ns min max (mk : list Z → NbtTag) path :
  Forall i64_ok ns → Forall (λ n, min <= n <= max) ns →
  integer_array_tag path tag (Arr (json_int <$> ns)) min max (λ vs, mk <$> try_from_all min max vs) = Ok (mk ns).
Proof. intros. rewrite integer_array_json_ints by done. by rewrite try_from_all_in. Qed.

Lemma i8_i64 n : i8_ok n → i64_ok n.
Proof. unfold i8_ok, i64_ok. lia. Qed.
Lemma i16_i64 n : i16_ok n → i64_ok n.
Proof. unfold i16_ok, i64_ok. lia. Qed.
Lemma i32_i64 n : i32_ok n → i64_ok n.
Proof. unfold i32_ok, i64_ok. lia. Qed.

Lemma typed_described t : typed t → ∃ v, describes t v.
Proof.
  induction t as [n|n|n|n|x|x|ns|s|tags IH|tags IH|ns|ns] using NbtTag_nested_ind; intros Ht; inversion Ht; subst.
  - described "byte" (json_int n); [by apply json_int_wf, i8_i64|by apply integer_described].
  - described "short" (json_int n); [by apply json_int_wf, i16_i64|by apply integer_described].
  - described "int" (json_int n); [by apply json_int_wf, i32_i64|by apply integer_described].
  - described "long" (json_int n); [by apply json_int_wf|by rewrite integer_json_int].
  - rename x0 into y. described "float" (Num (Float y)); [done|].
    unfold float_tag, nbt_float. simpl. by rewrite H0, H1.
  - described "double" (Num (Float x)); [done|]. simpl. by rewrite H0.
  - described "byteArray" (Arr (json_int <$> ns)); [apply json_ints_wf; [done|]|apply integers_described; [|done]];
      by eapply narrow_ok; [apply i8_i64|].
  - exists (Str s). by split.
  - match goal with H : Forall typed tags |- _ => rename H into Hall end.
    destruct (Forall_choice describes tags) as [vs Hvs]; [by rewrite Forall_forall in IH, Hall |- *; auto|].
    exists (Arr vs). split.
    + apply value_wf_Arr. split; [by rewrite <- (Forall2_length _ _ _ Hvs)|].
      eapply Forall2_Forall_r; [exact Hvs|]. apply Forall_true. by intros ? ? [].
    + intros path. cbn [decode_tag]. by rewrite (decode_list_described _ kind tags).
  - match goal with H : Forall _ tags |- _ => rename H into Hall end.
    destruct (Forall_choice (λ kt kv, kt.1 = kv.1 ∧ describes kt.2 kv.2) tags) as [object Hobj].
    { rewrite Forall_forall in IH, Hall |- *. intros [k t] Hin.
      destruct (IH _ Hin (Hall _ Hin)) as [v Hv]. by exists (k, v). }
    described "compound" (Obj object); [|by rewrite (decode_compound_described _ tags)].
    assert (object.*1 = tags.*1) as Hkeys.
    { clear -Hobj. induction Hobj as [|? ? ? ? [Hk _] _ IH]; csimpl; by rewrite ?Hk, ?IH. }
    apply value_wf_Obj. rewrite Hkeys. split; [done|]. intros k v Hin.
    apply list_elem_of_lookup in Hin as [i Hi]. destruct (Forall2_lookup_r _ _ _ _ _ Hobj Hi) as (kt & _ & _ & [? _]). done.
  - described "intArray" (Arr (json_int <$> ns)); [apply json_ints_wf; [done|]|apply integers_described; [|done]];
      by eapply narrow_ok; [apply i32_i64|].
  - described "longArray" (Arr (json_int <$> ns)); [by apply json_ints_wf|by rewrite integer_array_json_ints].
Qed.

(** C39. The type of NBT documents: a document is decoded from some JSON value
    exactly when its compound is well-typed, that is when every integer is in
    the range of its tag, every float is a finite number (rounded, for [float],
    from one in the range of [f32]), every list has elements of one kind and
    every compound distinct names, at every depth. *)
Theorem decode_document_image default name tags :
  (∃ v, value_wf v = true ∧ decode_document v default = Ok (mkDocument name tags)) ↔ typed (NbtCompound tags).
Proof.
  split.
  - intros (v & Hwf & H). unfold decode_document in H.
    apply bind_Ok in H as ([root_name root] & Hroot & (t & Ht & H)%bind_Ok).
    assert (value_wf root = true) as Hwf'.
    { destruct v as [| | | | |m]; try (by simplify_eq). case_decide; [|by simplify_eq].
      destruct (get (chars_of "name") m) as [[]|]; try done.
      apply bind_Ok in Hroot as (r & Hr & [= <- <-]). destruct (get VALUE_KEY m) as [w|] eqn:E; [|done].
      apply Ok_inj in Hr as <-. apply value_wf_Obj in Hwf as [_ Hwf]. eapply Hwf, get_Some_elem, E. }
    apply decode_tag_typed in Hwf' as [Htyped _]. apply Htyped in Ht. by destruct t; simplify_eq.
  - intros Ht. destruct (typed_described _ Ht) as (v & Hwf & Hdec).
    exists (Obj [(TAG_KEY, Str (chars_of "root")); (chars_of "name", Str name); (VALUE_KEY, v)]). split.
    + apply value_wf_Obj. split; [apply (bool_decide_eq_true_1 (NoDup [TAG_KEY; chars_of "name"; VALUE_KEY])); vm_compute; reflexivity|].
      intros k w. rewrite !elem_of_cons, elem_of_nil. naive_solver.
    + unfold decode_document, tag_name. cbn [get]. rewrite (decide_True (P := TAG_KEY = TAG_KEY)) by done.
      rewrite decide_True by done. simpl.
      rewrite Hdec. done.
Qed.

(** Numbers without a tag are ints when they fit, longs otherwise; a float tag
    rounds; a list of two kinds and a number beyond [f32] are refused. *)
Example decode_implicit :
  decode_tag [] (Arr [Num (PosInt 7); Num (NegInt (-1))]) = Ok (NbtList [NbtInt 7; NbtInt (-1)]) ∧
  decode_tag [] (Num (PosInt (2 ^ 31))) = Ok (NbtLong (2 ^ 31)) ∧
  decode_tag (chars_of "$") (Arr [Num (PosInt 7); Num (PosInt (2 ^ 40))]) =
    Err (NotHomogeneous (chars_of "$[1]") (chars_of "int") (chars_of "long")) ∧
  decode_tag [] (wrap "float" (Num (PosInt (2 ^ 24 + 1)))) = Ok (NbtFloat (S754_finite false (2 ^ 23)%positive 1)) ∧
  decode_tag [] (wrap "float" (Num (Float (S754_finite false (2 ^ 52)%positive 76)))) =
    Err (OutsideFloatRange [] (chars_of "float") (S754_finite false (2 ^ 52)%positive 76)).
Proof. vm_compute. auto. Qed.
