(* ===== verification/NixDag.v ===== *)
(** Structural metrics over a Nix build plan, [packages/nix-dag/src/graph.rs]:
    reachability as a bit matrix of machine words, Kahn's algorithm, depths,
    the critical path and the carrier analysis; and the edges of a plan as
    [plan.rs] indexes them.

    A [u64] is an integer below [2^64]; node ids and counts are naturals.  An
    index out of range, an overlapping pair of rows and a counter below zero
    are panics. *)

From stdpp Require Import base gmap sets list strings sorting.
From S2P Require Import Prelude Chars.

Definition MAX_NODES : nat := Nat.pow 2 5 * 2875.

(** * Plans *)

Record EnvRef := mkEnvRef { er_target : nat; er_key : nat; er_carrier : bool }.
Record Node := mkNode {
  nd_drv_path : text; nd_name : text;
  nd_deps : list nat; nd_env_refs : list EnvRef }.
Record Plan := mkPlan {
  pl_nodes : list Node; pl_dependents : list (list nat);
  pl_env_keys : list text; pl_unresolved_outputs : nat }.

Definition plan_len (plan : Plan) : nat := length (pl_nodes plan).

(** [Vec::dedup_by_key]: of neighbours with equal keys the first stays. *)
Fixpoint dedup_after {A K} `{EqDecision K} (f : A → K) (k : K) (l : list A) : list A :=
  match l with
  | [] => []
  | x :: l => if decide (f x = k) then dedup_after f k l else x :: dedup_after f (f x) l
  end.
Definition dedup_by {A K} `{EqDecision K} (f : A → K) (l : list A) : list A :=
  match l with
  | [] => []
  | x :: l => x :: dedup_after f (f x) l
  end.

(** [deps.sort_unstable(); deps.dedup();] *)
Definition index_deps (inputs : list nat) : list nat := dedup_by id (merge_sort le inputs).

Inductive DagError :=
| TooManyNodes (len : nat)
| NotADag (cyclic total : nat)
| FanOutOverflow.

Abbreviation result := (outcome DagError).

(** [v[i]]. *)
Definition index {A} (v : list A) (i : nat) : result A := unwrap (v !! i).

(** The reverse edges: [dependents[dep].push(id)]. *)
Definition push_at (dependents : list (list nat)) (dep id : nat) : result (list (list nat)) :=
  l ← index dependents dep; Ok (<[dep := l ++ [id]]> dependents).
Definition build_dependents (nodes : list Node) : result (list (list nat)) :=
  foldM (λ dependents '(id, node), foldM (λ dependents dep, push_at dependents dep id) dependents (nd_deps node))
    (replicate (length nodes) []) (imap pair nodes).

(** * Reachability *)

Record Reachability := mkReach { words : nat; data : list Z }.

Definition div_ceil (a b : nat) : nat := (a + (b - 1)) / b.

Definition Reachability_new (nodes : nat) : Reachability :=
  let words := div_ceil nodes 64 in mkReach words (replicate (words * nodes) 0%Z).

Definition bit_mask (bit : nat) : Z := Z.shiftl 1 (Z.of_nat (bit mod 64)).

Definition set (r : Reachability) (row bit : nat) : result Reachability :=
  let at_ := row * words r + bit / 64 in
  w ← index (data r) at_;
  Ok (mkReach (words r) (<[at_ := Z.lor w (bit_mask bit)]> (data r))).

Definition get (r : Reachability) (row bit : nat) : result bool :=
  w ← index (data r) (row * words r + bit / 64);
  Ok (negb (Z.land w (bit_mask bit) =? 0)%Z).

(** [&v[start..start + len]]. *)
Definition slice {A} (v : list A) (start len : nat) : result (list A) :=
  if decide (start + len ≤ length v) then Ok (take len (drop start v)) else Panic.

(** [v[start..start + len]] overwritten by [w]. *)
Definition overwrite {A} (v : list A) (start : nat) (w : list A) : list A :=
  take start v ++ w ++ drop (start + length w) v.

(** [split_at_mut] panics when the point is past the end. *)
Definition split_at_mut {A} (v : list A) (mid : nat) : result (list A * list A) :=
  if decide (mid ≤ length v) then Ok (take mid v, drop mid v) else Panic.

Definition union_into (r : Reachability) (dst src : nat) : result Reachability :=
  let dst_start := dst * words r in
  let src_start := src * words r in
  if decide (dst_start < src_start) then
    '(lo, hi) ← split_at_mut (data r) src_start;
    dst_row ← slice lo dst_start (words r);
    src_row ← slice hi 0 (words r);
    Ok (mkReach (words r) (overwrite lo dst_start (zip_with Z.lor dst_row src_row) ++ hi))
  else
    '(lo, hi) ← split_at_mut (data r) dst_start;
    dst_row ← slice hi 0 (words r);
    src_row ← slice lo src_start (words r);
    Ok (mkReach (words r) (lo ++ overwrite hi 0 (zip_with Z.lor dst_row src_row))).

(** [u64::count_ones]. *)
Definition count_ones (w : Z) : nat := length (filter (λ i, Z.testbit w (Z.of_nat i) = true) (seq 0 64)).

Definition count (r : Reachability) (row : nat) : result nat :=
  row ← slice (data r) (row * words r) (words r);
  Ok (sum_list (count_ones <$> row)).

(** * Dependency order *)

(** One iteration for a popped node: its dependents lose a dependency. *)
Definition visit_dependent (st : list nat * list nat) (dependent : nat) : result (list nat * list nat) :=
  let '(remaining, queue) := st in
  n ← index remaining dependent;
  match n with
  | O => Panic
  | S n => Ok (<[dependent := n]> remaining, if decide (n = 0) then queue ++ [dependent] else queue)
  end.

(** The [while let Some(id) = queue.pop()] loop; [fuel] bounds its iterations. *)
Fixpoint topological_loop (fuel : nat) (plan : Plan) (remaining queue order : list nat) : result (list nat) :=
  match last queue with
  | None => Ok order
  | Some id =>
      match fuel with
      | O => Panic
      | S fuel =>
          dependents ← index (pl_dependents plan) id;
          '(remaining, queue) ← foldM visit_dependent (remaining, removelast queue) dependents;
          topological_loop fuel plan remaining queue (order ++ [id])
      end
  end.

Definition topological_order (plan : Plan) : result (list nat) :=
  let remaining := (λ node, length (nd_deps node)) <$> pl_nodes plan in
  let queue := filter (λ id, remaining !! id = Some 0) (seq 0 (plan_len plan)) in
  order ← topological_loop (plan_len plan) plan remaining queue [];
  if decide (length order = plan_len plan) then Ok order
  else Err (NotADag (plan_len plan - length order) (plan_len plan)).

(** * Metrics *)

(** [Iterator::max_by_key], the elements paired with their keys: the last of
    the greatest. *)
Definition max_by_key (l : list (nat * nat)) : option nat :=
  fst <$> foldl (λ best x, match best with
                           | Some b => if decide (b.2 ≤ x.2) then Some x else best
                           | None => Some x
                           end) None l.

(** Each id with its depth. *)
Definition with_depth (depth : list nat) (ids : list nat) : result (list (nat * nat)) :=
  foldM (λ out id, d ← index depth id; Ok (out ++ [(id, d)])) [] ids.

(** A row joined with the rows of its neighbours, and with the neighbours. *)
Definition join_neighbours (neighbours : list nat) (r : Reachability) (id : nat) : result Reachability :=
  foldM (λ r other, r ← union_into r id other; set r id other) r neighbours.

(** Transitive dependents, by counting the rows built in reverse order. *)
Definition blast_radius (plan : Plan) (order : list nat) : result (list nat) :=
  reach ← foldM (λ r id, dependents ← index (pl_dependents plan) id; join_neighbours dependents r id)
    (Reachability_new (plan_len plan)) (reverse order);
  foldM (λ out id, c ← count reach id; Ok (out ++ [c])) [] (seq 0 (plan_len plan)).

(** Transitive dependencies. *)
Definition closure_of (plan : Plan) (order : list nat) : result Reachability :=
  foldM (λ r id, node ← index (pl_nodes plan) id; join_neighbours (nd_deps node) r id)
    (Reachability_new (plan_len plan)) order.

Definition depths (plan : Plan) (order : list nat) : result (list nat) :=
  foldM (λ depth id,
    node ← index (pl_nodes plan) id;
    below ← foldM (λ out dep, d ← index depth dep; Ok (out ++ [d + 1])) [] (nd_deps node);
    _ ← index depth id;
    Ok (<[id := max_list below]> depth)) (replicate (plan_len plan) 0) order.

Definition level_widths (depth : list nat) : result (list nat) :=
  let levels := max_list depth + 1 in
  foldM (λ widths level, w ← index widths level; Ok (<[level := w + 1]> widths)) (replicate levels 0) depth.

(** The loop of [critical_path]; [fuel] bounds its iterations. *)
Fixpoint critical_loop (fuel : nat) (plan : Plan) (depth : list nat) (at_ : nat) (path : list nat) : result (list nat) :=
  node ← index (pl_nodes plan) at_;
  deps ← with_depth depth (nd_deps node);
  match max_by_key deps with
  | None => Ok path
  | Some next =>
      match fuel with
      | O => Panic
      | S fuel => critical_loop fuel plan depth next (path ++ [next])
      end
  end.

Definition critical_path (plan : Plan) (depth : list nat) : result (list nat) :=
  ids ← with_depth depth (seq 0 (plan_len plan));
  match max_by_key ids with
  | None => Ok []
  | Some at_ => critical_loop (plan_len plan) plan depth at_ [at_]
  end.

(** * Carriers *)

Record CarrierCounts := mkCounts { carried : nat; sole : nat }.
Record TopCarrier := mkTop { tc_key : nat; tc_count : nat }.

(** The references at the front that have this target, and the others. *)
Fixpoint same_target (target : nat) (refs : list EnvRef) : list EnvRef * list EnvRef :=
  match refs with
  | r :: rest =>
      if decide (er_target r = target) then let '(run, rest) := same_target target rest in (r :: run, rest)
      else ([], refs)
  | [] => ([], [])
  end.

(** Whether some other dependency reaches the target. *)
Fixpoint reached_otherwise (closure : Reachability) (target : nat) (deps : list nat) : result bool :=
  match deps with
  | [] => Ok false
  | dep :: deps =>
      if decide (dep = target) then reached_otherwise closure target deps
      else b ← get closure dep target; if b : bool then Ok true else reached_otherwise closure target deps
  end.

(** One run of references to one target.  The dependencies are sorted, so that
    [binary_search] finds the target exactly when it is one of them. *)
Definition carrier_run (closure : Reachability) (node : Node) (target : nat) (run : list EnvRef)
    (st : list CarrierCounts * list (nat * nat)) : result (list CarrierCounts * list (nat * nat)) :=
  let '(counts, key_tally) := st in
  if forallb er_carrier run && bool_decide (target ∈ nd_deps node) then
    c ← index counts target;
    let counts := <[target := mkCounts (carried c + 1) (sole c)]> counts in
    let key_tally := key_tally ++ ((λ r, (target, er_key r)) <$> run) in
    otherwise ← reached_otherwise closure target (nd_deps node);
    if otherwise : bool then Ok (counts, key_tally)
    else
      c ← index counts target;
      Ok (<[target := mkCounts (carried c) (sole c + 1)]> counts, key_tally)
  else Ok st.

(** The [while at < env_refs.len()] loop over the references still ahead. *)
Fixpoint carrier_runs (fuel : nat) (closure : Reachability) (node : Node) (refs : list EnvRef)
    (st : list CarrierCounts * list (nat * nat)) : result (list CarrierCounts * list (nat * nat)) :=
  match refs with
  | [] => Ok st
  | r :: _ =>
      match fuel with
      | O => Panic
      | S fuel =>
          let '(run, rest) := same_target (er_target r) refs in
          st ← carrier_run closure node (er_target r) run st;
          carrier_runs fuel closure node rest st
      end
  end.

Definition pair_le (a b : nat * nat) : Prop := a.1 < b.1 ∨ a.1 = b.1 ∧ a.2 ≤ b.2.
#[export] Instance pair_le_dec : RelDecision pair_le.
Proof. intros a b. unfold pair_le. apply _. Defined.

(** The pairs at the front equal to this one. *)
Fixpoint take_while_eq (p : nat * nat) (tally : list (nat * nat)) : list (nat * nat) :=
  match tally with
  | q :: tally => if decide (q = p) then q :: take_while_eq p tally else []
  | [] => []
  end.

(** The tally's runs of equal pairs: the first most frequent key per target. *)
Fixpoint tally_runs (fuel : nat) (tally : list (nat * nat)) (top : list (option TopCarrier)) :
    result (list (option TopCarrier)) :=
  match tally with
  | [] => Ok top
  | (target, key) :: _ =>
      match fuel with
      | O => Panic
      | S fuel =>
          let n := length (take_while_eq (target, key) tally) in
          best ← index top target;
          let better := match best with Some best => bool_decide (tc_count best < n) | None => true end in
          tally_runs fuel (drop n tally) (if better then <[target := Some (mkTop key n)]> top else top)
      end
  end.

Record CarrierAnalysis := mkCarriers { per_node : list CarrierCounts; top : list (option TopCarrier) }.

Definition carrier_counts (plan : Plan) (closure : Reachability) : result CarrierAnalysis :=
  '(counts, key_tally) ←
    foldM (λ st node, carrier_runs (length (nd_env_refs node)) closure node (nd_env_refs node) st)
      (replicate (plan_len plan) (mkCounts 0 0), []) (pl_nodes plan);
  let key_tally := merge_sort pair_le key_tally in
  top ← tally_runs (length key_tally) key_tally (replicate (plan_len plan) None);
  Ok (mkCarriers counts top).

(** * All metrics *)

Record Metrics := mkMetrics {
  fan_out : list nat; blast : list nat; own_closure : list nat;
  carrier : list CarrierCounts; top_carrier_key : list (option TopCarrier);
  widths : list nat; path : list nat }.

(** [u32::try_from(len)]. *)
Definition count_u32 (n : nat) : result nat :=
  if decide (Z.of_nat n < 2 ^ 32)%Z then Ok n else Err FanOutOverflow.

Definition compute (plan : Plan) : result Metrics :=
  if decide (MAX_NODES < plan_len plan) then Err (TooManyNodes (plan_len plan))
  else
    order ← topological_order plan;
    blast ← blast_radius plan order;
    closure ← closure_of plan order;
    own_closure ← foldM (λ out id, c ← count closure id; Ok (out ++ [c])) [] (seq 0 (plan_len plan));
    depth ← depths plan order;
    widths ← level_widths depth;
    carriers ← carrier_counts plan closure;
    path ← critical_path plan depth;
    fan_out ← foldM (λ out dependents, n ← count_u32 (length dependents); Ok (out ++ [n])) [] (pl_dependents plan);
    Ok (mkMetrics fan_out blast own_closure (per_node carriers) (top carriers) widths path).
