(* ===== verification/NixDagProps.v ===== *)
(** Correctness of the metrics of [packages/nix-dag/src/graph.rs]: the bit
    matrix implements sets of nodes (insertion, membership, union and size of its
    rows), Kahn's algorithm against cycles, the bit matrices against transitive
    reachability, and depths and the critical path against chains. *)

From stdpp Require Import base gmap sets list strings sorting relations.
From S2P Require Import Prelude NixDag.

(** * Words *)

Definition word_ok (w : Z) : Prop := (0 ≤ w < 2 ^ 64)%Z.

Lemma bit_mask_testbit bit k :
  (0 ≤ k)%Z → Z.testbit (bit_mask bit) k = bool_decide (k = Z.of_nat (bit mod 64)).
Proof.
  intros Hk. unfold bit_mask. rewrite Z.shiftl_spec by done.
  destruct (decide (k = Z.of_nat (bit mod 64))) as [->|Hne].
  - by rewrite Z.sub_diag, bool_decide_true.
  - rewrite bool_decide_false by done. destruct (decide (k < Z.of_nat (bit mod 64))%Z).
    + apply Z.testbit_neg_r. lia.
    + change 1%Z with (2 ^ 0)%Z. apply Z.pow2_bits_false. lia.
Qed.

Lemma word_ok_bits w : (0 ≤ w)%Z → (∀ k, (64 ≤ k)%Z → Z.testbit w k = false) → word_ok w.
Proof.
  intros H0 H. split; [done|]. destruct (decide (w = 0)%Z) as [->|]; [done|].
  apply Z.log2_lt_pow2; [lia|]. destruct (decide (Z.log2 w < 64)%Z) as [|Hge]; [done|].
  specialize (H (Z.log2 w) ltac:(lia)). rewrite Z.bit_log2 in H by lia. done.
Qed.

Lemma word_ok_high w k : word_ok w → (64 ≤ k)%Z → Z.testbit w k = false.
Proof.
  intros [H0 H] Hk. destruct (decide (w = 0)%Z) as [->|]; [apply Z.bits_0|].
  apply Z.bits_above_log2; [done|]. apply Z.log2_lt_pow2 in H; lia.
Qed.

Lemma word_ok_lor a b : word_ok a → word_ok b → word_ok (Z.lor a b).
Proof.
  intros Ha Hb. apply word_ok_bits; [apply Z.lor_nonneg; split; [apply Ha|apply Hb]|].
  intros k Hk. by rewrite Z.lor_spec, !word_ok_high.
Qed.

Lemma word_ok_mask bit : word_ok (bit_mask bit).
Proof.
  assert (bit mod 64 < 64) by (apply Nat.mod_upper_bound; lia).
  apply word_ok_bits.
  - unfold bit_mask. rewrite Z.shiftl_1_l. apply Z.pow_nonneg. lia.
  - intros k Hk. rewrite bit_mask_testbit by lia. apply bool_decide_false. lia.
Qed.

(** [w & mask != 0]. *)
Lemma land_mask w bit :
  negb (Z.land w (bit_mask bit) =? 0)%Z = Z.testbit w (Z.of_nat (bit mod 64)).
Proof.
  destruct (Z.testbit w _) eqn:E.
  - apply negb_true_iff, Z.eqb_neq. intros H. apply (f_equal (λ z, Z.testbit z (Z.of_nat (bit mod 64)))) in H.
    rewrite Z.land_spec, E, bit_mask_testbit, bool_decide_true, Z.bits_0 in H by lia. done.
  - apply negb_false_iff, Z.eqb_eq. apply Z.bits_inj_iff'. intros k Hk.
    rewrite Z.land_spec, bit_mask_testbit, Z.bits_0 by done. case_bool_decide; [subst; by rewrite E|apply andb_false_r].
Qed.

(** * The matrix *)

Record reach_wf (n : nat) (r : Reachability) : Prop := mkReachWf {
  rw_words : words r = div_ceil n 64;
  rw_data : length (data r) = words r * n;
  rw_ok : Forall word_ok (data r) }.

Definition word_at (r : Reachability) (row k : nat) : Z := nth (row * words r + k) (data r) 0%Z.

(** Bit [bit] of row [row]. *)
Definition bit_at (r : Reachability) (row bit : nat) : bool :=
  Z.testbit (word_at r row (bit / 64)) (Z.of_nat (bit mod 64)).

Lemma div_ceil_bound n bit : bit < n → bit / 64 < div_ceil n 64.
Proof.
  intros H. unfold div_ceil. assert ((bit + 1 * 64) / 64 ≤ (n + (64 - 1)) / 64) as Hle.
  { apply Nat.Div0.div_le_mono. lia. }
  rewrite Nat.div_add in Hle by lia. lia.
Qed.

Lemma cell_bound w n row k : row < n → k < w → row * w + k < w * n.
Proof. intros. nia. Qed.

Lemma cell_inj w row row' k k' : k < w → k' < w → row * w + k = row' * w + k' → row = row' ∧ k = k'.
Proof. intros Hk Hk' H. assert (row = row') by nia. subst. lia. Qed.

Lemma index_nth {A} (l : list A) i d : i < length l → index l i = Ok (nth i l d).
Proof. intros H. unfold index. destruct (nth_lookup_or_length l i d) as [->|]; [done|lia]. Qed.

Lemma nth_insert_eq {A} (l : list A) i x d : i < length l → nth i (<[i := x]> l) d = x.
Proof. intros H. apply nth_lookup_Some. by apply list_lookup_insert_eq. Qed.

Lemma nth_insert_ne {A} (l : list A) i j x d : i ≠ j → nth j (<[i := x]> l) d = nth j l d.
Proof. intros H. rewrite !nth_lookup. by rewrite list_lookup_insert_ne. Qed.

Lemma word_at_ok n r row k : reach_wf n r → word_ok (word_at r row k).
Proof.
  intros Hr. unfold word_at. destruct (nth_lookup_or_length (data r) (row * words r + k) 0%Z) as [H|H].
  - eapply Forall_lookup_1; [apply Hr|done].
  - by rewrite nth_overflow.
Qed.

Lemma new_wf n : reach_wf n (Reachability_new n).
Proof.
  split; simpl; [done|by rewrite length_replicate|]. apply Forall_replicate. by split.
Qed.

Lemma new_bits n row bit : bit_at (Reachability_new n) row bit = false.
Proof.
  unfold bit_at, word_at. simpl. rewrite nth_lookup.
  destruct (replicate _ _ !! _) as [w|] eqn:E; simpl; [|apply Z.bits_0].
  apply lookup_replicate in E as [-> _]. apply Z.bits_0.
Qed.

Section matrix.
Context (n : nat).

Lemma get_spec r row bit :
  reach_wf n r → row < n → bit < n → get r row bit = Ok (bit_at r row bit).
Proof.
  intros Hr Hrow Hbit. pose proof (div_ceil_bound _ _ Hbit) as Hk. rewrite <- (rw_words _ _ Hr) in Hk.
  unfold get, bit_at, word_at. rewrite (index_nth _ _ 0%Z); [simpl; by rewrite land_mask|].
  rewrite (rw_data _ _ Hr). by apply cell_bound.
Qed.

(** [set] inserts into a row. *)
Lemma set_spec r row bit :
  reach_wf n r → row < n → bit < n →
  ∃ r', set r row bit = Ok r' ∧ reach_wf n r' ∧
    words r' = words r ∧ ∀ row' bit', bit' / 64 < words r →
      bit_at r' row' bit' = bit_at r row' bit' || bool_decide (row' = row ∧ bit' = bit).
Proof.
  intros Hr Hrow Hbit. pose proof (div_ceil_bound _ _ Hbit) as Hk. rewrite <- (rw_words _ _ Hr) in Hk.
  assert (row * words r + bit / 64 < length (data r)) as Hlt by (rewrite (rw_data _ _ Hr); by apply cell_bound).
  unfold set. rewrite (index_nth _ _ 0%Z) by done. cbn [mbind outcome_bind]. eexists; split; [done|]. split_and!.
  - split; simpl; [apply Hr|by rewrite length_insert, (rw_data _ _ Hr)|].
    apply Forall_insert; [apply Hr|]. apply word_ok_lor; [|apply word_ok_mask].
    by apply (word_at_ok n r row (bit / 64)).
  - done.
  - intros row' bit' Hk'. unfold bit_at, word_at. cbn [words data].
    destruct (decide (row' * words r + bit' / 64 = row * words r + bit / 64)) as [Heq|Hne].
    + rewrite Heq, nth_insert_eq by done. apply cell_inj in Heq as [-> Hq]; [|done..].
      rewrite Z.lor_spec, bit_mask_testbit by lia. f_equal. apply bool_decide_ext.
      pose proof (Nat.div_mod bit 64 ltac:(lia)). pose proof (Nat.div_mod bit' 64 ltac:(lia)).
      split; [intros Hm%Nat2Z.inj; split; [done|lia]|intros [_ ->]; done].
    + rewrite nth_insert_ne by done. rewrite bool_decide_false; [by rewrite orb_false_r|].
      by intros [-> ->].
Qed.

(** Both ways to split the words, and one row is joined to the other. *)
Lemma overwrite_lookup {A} (v w : list A) start i :
  start + length w ≤ length v →
  overwrite v start w !! i =
  if decide (start ≤ i < start + length w) then w !! (i - start) else v !! i.
Proof.
  intros H. unfold overwrite. destruct (decide (i < start)).
  - rewrite decide_False by lia. rewrite lookup_app_l by (rewrite length_take; lia). by apply lookup_take_lt.
  - rewrite lookup_app_r by (rewrite length_take; lia). rewrite length_take, Nat.min_l by lia.
    case_decide.
    + by rewrite lookup_app_l by lia.
    + rewrite lookup_app_r by lia. rewrite lookup_drop. f_equal. lia.
Qed.

Lemma overwrite_take {A} (v w : list A) start mid :
  start + length w ≤ mid → mid ≤ length v → overwrite (take mid v) start w ++ drop mid v = overwrite v start w.
Proof.
  intros H1 H2. unfold overwrite. rewrite take_take, Nat.min_l by lia. rewrite <- !app_assoc. do 2 f_equal.
  rewrite skipn_firstn_comm. rewrite <- (take_drop (mid - (start + length w)) (drop (start + length w) v)) at 2.
  f_equal. rewrite drop_drop. f_equal. lia.
Qed.

Lemma overwrite_drop {A} (v w : list A) start :
  take start v ++ overwrite (drop start v) 0 w = overwrite v start w.
Proof. unfold overwrite. simpl. by rewrite drop_drop. Qed.

Lemma slice_Ok {A} (v : list A) start len : start + len ≤ length v → slice v start len = Ok (take len (drop start v)).
Proof. intros. unfold slice. by rewrite decide_True. Qed.

Lemma slice_take {A} (v : list A) start len mid :
  start + len ≤ mid → mid ≤ length v → slice (take mid v) start len = Ok (take len (drop start v)).
Proof.
  intros. rewrite slice_Ok by (rewrite length_take; lia). f_equal.
  rewrite skipn_firstn_comm, take_take. f_equal. lia.
Qed.

Lemma slice_drop {A} (v : list A) len mid :
  mid + len ≤ length v → slice (drop mid v) 0 len = Ok (take len (drop mid v)).
Proof. intros. rewrite slice_Ok by (rewrite length_drop; lia). done. Qed.

Lemma split_at_mut_Ok {A} (v : list A) mid : mid ≤ length v → split_at_mut v mid = Ok (take mid v, drop mid v).
Proof. intros. unfold split_at_mut. by rewrite decide_True. Qed.

Lemma union_into_eq r dst src :
  reach_wf n r → dst < n → src < n → dst ≠ src →
  union_into r dst src = Ok (mkReach (words r) (overwrite (data r) (dst * words r)
              (zip_with Z.lor (take (words r) (drop (dst * words r) (data r)))
                 (take (words r) (drop (src * words r) (data r)))))).
Proof.
  intros Hr Hdst Hsrc Hne. pose proof (rw_data _ _ Hr) as Hlen.
  assert (dst * words r + words r ≤ length (data r)) as Hd by (rewrite Hlen; nia).
  assert (src * words r + words r ≤ length (data r)) as Hs by (rewrite Hlen; nia).
  unfold union_into. destruct (decide (dst * words r < src * words r)) as [Hlt|Hge].
  - assert (dst * words r + words r ≤ src * words r) as Hgap by nia.
    rewrite split_at_mut_Ok by lia. cbn [mbind outcome_bind].
    rewrite slice_take, slice_drop by lia. cbn [mbind outcome_bind]. do 2 f_equal.
    apply overwrite_take; [|lia]. rewrite length_zip_with, !length_take, !length_drop. lia.
  - assert (words r = 0 ∨ src * words r + words r ≤ dst * words r) as Hgap by nia.
    rewrite split_at_mut_Ok by lia. cbn [mbind outcome_bind].
    rewrite slice_drop, slice_take by lia. cbn [mbind outcome_bind]. do 2 f_equal. apply overwrite_drop.
Qed.

(** [union_into] adds one row to another. *)
Lemma union_into_spec r dst src :
  reach_wf n r → dst < n → src < n → dst ≠ src →
  ∃ r', union_into r dst src = Ok r' ∧ reach_wf n r' ∧
    words r' = words r ∧ ∀ row bit, row < n → bit / 64 < words r →
      bit_at r' row bit = bit_at r row bit || (bool_decide (row = dst) && bit_at r src bit).
Proof.
  intros Hr Hdst Hsrc Hne. rewrite (union_into_eq r) by done. eexists; split; [done|].
  pose proof (rw_data _ _ Hr) as Hlen. set (z := zip_with _ _ _).
  assert (dst * words r + words r ≤ length (data r)) as Hd by (rewrite Hlen; nia).
  assert (src * words r + words r ≤ length (data r)) as Hs by (rewrite Hlen; nia).
  assert (length z = words r) as Hz.
  { unfold z. rewrite length_zip_with, !length_take, !length_drop. lia. }
  assert (∀ k, k < words r → z !! k = Some (Z.lor (word_at r dst k) (word_at r src k))) as Hzk.
  { intros k Hk. unfold z. rewrite lookup_zip_with, !lookup_take_lt, !lookup_drop by done.
    unfold word_at. destruct (nth_lookup_or_length (data r) (dst * words r + k) 0%Z) as [->|]; [|lia].
    destruct (nth_lookup_or_length (data r) (src * words r + k) 0%Z) as [->|]; [done|lia]. }
  split_and!; [split| |].
  - apply Hr.
  - simpl. unfold overwrite. rewrite !length_app, length_take, length_drop, Hz. lia.
  - cbn [data]. unfold overwrite. rewrite !Forall_app. split_and!.
    + apply Forall_take, Hr.
    + apply Forall_lookup_2. intros k w Hk. assert (k < words r) as Hlt by (rewrite <- Hz; by eapply lookup_lt_Some).
      rewrite Hzk in Hk by done. simplify_eq. apply word_ok_lor; by eapply word_at_ok.
    + apply Forall_drop, Hr.
  - done.
  - intros row bit Hrow Hk. unfold bit_at at 1, word_at at 1. cbn [words data]. rewrite nth_lookup, overwrite_lookup by lia. rewrite Hz.
    destruct (decide (row = dst)) as [->|Hrd].
    + rewrite decide_True by lia. replace (dst * words r + bit / 64 - dst * words r) with (bit / 64) by lia.
      rewrite Hzk by done. simpl. rewrite Z.lor_spec, bool_decide_true by done. done.
    + rewrite bool_decide_false by done. rewrite orb_false_r. rewrite decide_False by nia.
      unfold bit_at, word_at. by rewrite nth_lookup.
Qed.

(** ** Size of a row *)

Definition size_where (f : nat → bool) (l : list nat) : nat := length (filter (λ i, f i = true) l).

Lemma size_where_ext f g l : (∀ x, x ∈ l → f x = g x) → size_where f l = size_where g l.
Proof.
  unfold size_where. induction l as [|x l IH]; intros H; [done|]. rewrite !filter_cons, (H x) by left.
  case_decide; simpl; rewrite IH by (intros; apply H; by right); done.
Qed.

Lemma size_where_app f l1 l2 : size_where f (l1 ++ l2) = size_where f l1 + size_where f l2.
Proof. unfold size_where. by rewrite filter_app, length_app. Qed.

Lemma size_where_fmap f (g : nat → nat) l : size_where f (g <$> l) = size_where (λ x, f (g x)) l.
Proof.
  unfold size_where. induction l as [|x l IH]; [done|]. csimpl. rewrite !filter_cons.
  case_decide; simpl; by rewrite IH.
Qed.

Lemma size_where_false f l : (∀ x, x ∈ l → f x = false) → size_where f l = 0.
Proof.
  intros H. rewrite (size_where_ext f (λ _, false)) by done. unfold size_where. clear H.
  induction l as [|x l IH]; [done|]. by rewrite filter_cons.
Qed.

(** The bits of consecutive words. *)
Definition bit_of (ws : list Z) (bit : nat) : bool :=
  Z.testbit (nth (bit / 64) ws 0%Z) (Z.of_nat (bit mod 64)).

Lemma sum_count_ones (ws : list Z) :
  sum_list (count_ones <$> ws) = size_where (bit_of ws) (seq 0 (64 * length ws)).
Proof.
  induction ws as [|w ws IH]; [done|].
  assert (sum_list (count_ones <$> w :: ws) = count_ones w + sum_list (count_ones <$> ws)) as -> by done.
  rewrite IH. clear IH. cbn [length]. replace (64 * S (length ws)) with (64 + 64 * length ws) by lia.
  rewrite (seq_app 64 (64 * length ws) 0), size_where_app. apply (f_equal2 Nat.add).
  - unfold count_ones. fold (size_where (λ i, Z.testbit w (Z.of_nat i)) (seq 0 64)). apply size_where_ext.
    intros i [_ Hi]%elem_of_seq. unfold bit_of. rewrite Nat.div_small, Nat.mod_small by lia. done.
  - rewrite <- (fmap_add_seq 64 0), size_where_fmap. apply size_where_ext. intros i _. unfold bit_of.
    replace (64 + i) with (i + 1 * 64) by lia. rewrite Nat.div_add, Nat.Div0.mod_add by lia.
    by rewrite Nat.add_1_r.
Qed.

(** * Rows as sets *)

(** [r] holds the relation [f] on nodes below [n]. *)
Record holds (r : Reachability) (f : nat → nat → Prop) : Prop := mkHolds {
  ho_wf : reach_wf n r;
  ho_bits : ∀ row bit, row < n → bit / 64 < words r → bit_at r row bit = true ↔ bit < n ∧ f row bit }.

Lemma holds_new : holds (Reachability_new n) (λ _ _, False).
Proof. split; [apply new_wf|]. intros row bit _ _. rewrite new_bits. naive_solver. Qed.

Lemma holds_ext r f g : holds r f → (∀ a b, a < n → b < n → f a b ↔ g a b) → holds r g.
Proof.
  intros [Hwf Hf] H. split; [done|]. intros row bit Hr Hb. rewrite Hf by done. naive_solver.
Qed.

Lemma holds_set r f row bit :
  holds r f → row < n → bit < n →
  ∃ r', set r row bit = Ok r' ∧ holds r' (λ a b, f a b ∨ (a = row ∧ b = bit)).
Proof.
  intros [Hwf Hf] Hrow Hbit. destruct (set_spec r row bit Hwf Hrow Hbit) as (r' & Hr' & Hwf' & Hw & Hbits).
  exists r'. split; [done|]. split; [done|]. intros a b Ha Hb. rewrite Hw in Hb.
  rewrite Hbits, orb_true_iff, Hf, bool_decide_eq_true by done. naive_solver.
Qed.

Lemma holds_union r f dst src :
  holds r f → dst < n → src < n → dst ≠ src →
  ∃ r', union_into r dst src = Ok r' ∧ holds r' (λ a b, f a b ∨ (a = dst ∧ f src b)).
Proof.
  intros [Hwf Hf] Hd Hs Hne. destruct (union_into_spec r dst src Hwf Hd Hs Hne) as (r' & Hr' & Hwf' & Hw & Hbits).
  exists r'. split; [done|]. split; [done|]. intros a b Ha Hb. rewrite Hw in Hb.
  rewrite Hbits, orb_true_iff, andb_true_iff, !Hf, bool_decide_eq_true by done. naive_solver.
Qed.

Lemma holds_get r f row bit :
  holds r f → row < n → bit < n → ∃ b, get r row bit = Ok b ∧ (b = true ↔ f row bit).
Proof.
  intros [Hwf Hf] Hrow Hbit. exists (bit_at r row bit). split; [by apply get_spec|].
  rewrite Hf; [naive_solver|done|]. rewrite (rw_words _ _ Hwf). by apply div_ceil_bound.
Qed.

(** The size of a row is the number of nodes it relates to. *)
Definition size_is (c : nat) (P : nat → Prop) : Prop :=
  ∃ l, NoDup l ∧ (∀ x, x ∈ l ↔ x < n ∧ P x) ∧ length l = c.

Lemma holds_count r f row :
  holds r f → row < n → ∃ c, count r row = Ok c ∧ size_is c (f row).
Proof.
  intros [Hwf Hf] Hrow. pose proof (rw_data _ _ Hwf) as Hlen.
  assert (row * words r + words r ≤ length (data r)) as Hle by (rewrite Hlen; nia).
  unfold count. rewrite slice_Ok by done. cbn [mbind outcome_bind]. eexists; split; [done|].
  rewrite sum_count_ones, length_take_le by (rewrite length_drop; lia).
  exists (filter (λ bit, bit_at r row bit = true) (seq 0 (64 * words r))). split_and!.
  - apply NoDup_filter, NoDup_seq.
  - intros x. rewrite list_elem_of_filter, elem_of_seq. split.
    + intros [Hx [_ Hlt]]. apply Hf in Hx; [done..|]. apply Nat.Div0.div_lt_upper_bound. lia.
    + intros [Hx HP]. pose proof (div_ceil_bound _ _ Hx) as Hk. rewrite <- (rw_words _ _ Hwf) in Hk.
      split; [by apply Hf|]. split; [lia|]. pose proof (Nat.div_mod x 64 ltac:(lia)).
      pose proof (Nat.mod_upper_bound x 64 ltac:(lia)). nia.
  - apply size_where_ext. intros x [_ Hx]%elem_of_seq. unfold bit_at, bit_of, word_at.
    assert (x / 64 < words r) as Hk by (apply Nat.Div0.div_lt_upper_bound; lia).
    rewrite !nth_lookup, lookup_take_lt, lookup_drop by done. done.
Qed.
End matrix.

(** * Plans *)

(** [a] depends directly on [b]. *)
Definition dep_of (plan : Plan) (a b : nat) : Prop :=
  ∃ node, pl_nodes plan !! a = Some node ∧ b ∈ nd_deps node.

(** What [Plan::build] establishes: dependencies are nodes, listed once and
    sorted (as [binary_search] requires), and [dependents] is the reverse
    relation. *)
Record plan_wf (plan : Plan) : Prop := mkPlanWf {
  pw_deps : ∀ id node, pl_nodes plan !! id = Some node →
    NoDup (nd_deps node) ∧ ∀ d, d ∈ nd_deps node → d < plan_len plan;
  pw_len : length (pl_dependents plan) = plan_len plan;
  pw_rev : ∀ id l, pl_dependents plan !! id = Some l → NoDup l ∧ ∀ x, x ∈ l ↔ dep_of plan x id;
  pw_sorted : ∀ id node, pl_nodes plan !! id = Some node → StronglySorted lt (nd_deps node) }.

(** * Joining rows *)

Section closure.
Context (n : nat).

Lemma join_neighbours_spec l r f id :
  holds n r f → id < n → Forall (λ o, o < n ∧ o ≠ id) l →
  ∃ r', join_neighbours l r id = Ok r' ∧
    holds n r' (λ a b, f a b ∨ (a = id ∧ ∃ o, o ∈ l ∧ (b = o ∨ f o b))).
Proof.
  intros Hr Hid Hl. revert r f Hr. induction Hl as [|o l [Ho Hne] Hl IH]; intros r f Hr.
  { exists r. split; [done|]. eapply holds_ext; [done|]. intros a b _ _. set_solver. }
  destruct (holds_union n r f id o Hr Hid Ho ltac:(done)) as (r1 & H1 & Hr1).
  destruct (holds_set n r1 _ id o Hr1 Hid Ho) as (r2 & H2 & Hr2).
  destruct (IH r2 _ Hr2) as (r' & H' & Hr'). exists r'. split.
  - unfold join_neighbours in *. cbn [foldM]. rewrite H1. cbn [mbind outcome_bind]. by rewrite H2.
  - eapply holds_ext; [exact Hr'|]. intros a b _ _. rewrite Forall_forall in Hl. split.
    + intros [[[?|[-> ?]]|[-> ->]]|[-> (o' & Ho' & Hb)]]; [by left|..]; right; split; try done.
      * exists o. set_solver.
      * exists o. set_solver.
      * exists o'. split; [by right|]. destruct (Hl o' Ho'). naive_solver.
    + intros [?|[-> (o' & Ho' & Hb)]]; [by do 3 left|]. apply elem_of_cons in Ho' as [->|Ho'].
      * destruct Hb as [->|Hb]; left; [by right|left; by right].
      * right. split; [done|]. exists o'. split; [done|]. destruct Hb; [by left|right; by do 2 left].
Qed.

Lemma tc_unfold {A} (R : relation A) x y : tc R x y ↔ ∃ z, R x z ∧ (y = z ∨ tc R z y).
Proof.
  split.
  - destruct 1; eauto.
  - intros (z & Hz & [->|H]); [by constructor|by econstructor 2].
Qed.

(** Rows filled in an order in which neighbours come first are transitive
    closures. *)
Lemma closure_loop (nb : nat → list nat) (step : Reachability → nat → result Reachability) order :
  NoDup order → (∀ x, x ∈ order → x < n) →
  (∀ pre id post, order = pre ++ id :: post → ∀ o, o ∈ nb id → o ∈ pre) →
  (∀ r id, id ∈ order → step r id = join_neighbours (nb id) r id) →
  ∃ r, foldM step (Reachability_new n) order = Ok r ∧
    holds n r (λ a b, a ∈ order ∧ tc (λ x y, y ∈ nb x) a b).
Proof.
  intros Hnd Hlt Hpre Hstep.
  apply (foldM_total (λ pre r, holds n r (λ a b, a ∈ pre ∧ tc (λ x y, y ∈ nb x) a b))).
  { eapply holds_ext; [apply holds_new|]. intros a b _ _. set_solver. }
  intros pre id post r Horder Hr.
  assert (id ∈ order) as Hin by (subst; set_solver). rewrite Hstep by done.
  assert (id ∉ pre) as Hnin.
  { subst. apply NoDup_app in Hnd as (_ & Hd & _). intros H. apply (Hd id H). by left. }
  destruct (join_neighbours_spec (nb id) r _ id Hr) as (r' & -> & Hr').
  - auto.
  - rewrite Forall_forall. intros o Ho. pose proof (Hpre pre id post Horder o Ho) as Hop. split.
    + apply Hlt. subst. set_solver.
    + by intros ->.
  - exists r'. split; [done|]. eapply holds_ext; [exact Hr'|]. intros a b _ _. split.
    + intros [[Ha Ht]|[-> (o & Ho & Hb)]]; [set_solver|]. split; [set_solver|].
      apply tc_unfold. exists o. split; [done|]. naive_solver.
    + rewrite elem_of_app, list_elem_of_singleton. intros [[Ha| ->] Ht]; [by left|right]. split; [done|].
      apply tc_unfold in Ht as (o & Ho & Hb). exists o. split; [done|]. destruct Hb; [by left|right].
      split; [by eapply Hpre|done].
Qed.
End closure.

(** * Topological orders *)

Fixpoint pos (x : nat) (l : list nat) : nat :=
  match l with
  | [] => 0
  | y :: l => if decide (x = y) then 0 else S (pos x l)
  end.

Lemma pos_app_in x l k : x ∈ l → pos x (l ++ k) < length l.
Proof.
  induction l as [|y l IH]; simpl; [set_solver|]. intros H. case_decide; [lia|].
  apply elem_of_cons in H as [?|?]; [done|]. specialize (IH H). lia.
Qed.

Lemma pos_app_notin x l k : x ∉ l → pos x (l ++ k) = length l + pos x k.
Proof.
  induction l as [|y l IH]; simpl; [done|]. intros H. rewrite decide_False by set_solver.
  rewrite IH by set_solver. done.
Qed.

Record topo_ok (plan : Plan) (order : list nat) : Prop := mkTopo {
  to_nodup : NoDup order;
  to_all : ∀ x, x ∈ order ↔ x < plan_len plan;
  to_deps : ∀ pre id post, order = pre ++ id :: post → ∀ d, dep_of plan id d → d ∈ pre }.

Lemma dep_of_bound plan a b : plan_wf plan → dep_of plan a b → a < plan_len plan ∧ b < plan_len plan.
Proof.
  intros Hwf (node & Ha & Hb). split; [by eapply lookup_lt_Some|]. by eapply (pw_deps _ Hwf).
Qed.

Lemma NoDup_middle {A} (pre post : list A) x : NoDup (pre ++ x :: post) → x ∉ pre ∧ x ∉ post.
Proof.
  rewrite NoDup_app, NoDup_cons. intros (_ & Hd & Hx & _). split; [|done].
  intros H. apply (Hd x H). by left.
Qed.

Lemma topo_rank plan order x y :
  plan_wf plan → topo_ok plan order → dep_of plan x y → pos y order < pos x order.
Proof.
  intros Hwf Ht Hxy. destruct (dep_of_bound _ _ _ Hwf Hxy) as [Hx _].
  apply (to_all _ _ Ht), list_elem_of_split in Hx as (pre & post & Heq).
  pose proof (to_deps _ _ Ht _ _ _ Heq y Hxy) as Hy. rewrite Heq.
  pose proof (to_nodup _ _ Ht) as Hnd. rewrite Heq in Hnd. apply NoDup_middle in Hnd as [Hnx _].
  rewrite (pos_app_notin x) by done. pose proof (pos_app_in y pre (x :: post) Hy). simpl. lia.
Qed.

Lemma topo_acyclic plan order : plan_wf plan → topo_ok plan order → ∀ x, ¬ tc (dep_of plan) x x.
Proof.
  intros Hwf Ht. apply (rank_no_cycle _ (λ x, pos x order)). intros x y Hxy. by eapply topo_rank.
Qed.

(** Against the order, dependents come first. *)
Lemma topo_reverse plan order pre id post x :
  plan_wf plan → topo_ok plan order → reverse order = pre ++ id :: post → dep_of plan x id → x ∈ pre.
Proof.
  intros Hwf Ht Heq Hx. apply (f_equal reverse) in Heq.
  rewrite reverse_involutive, reverse_app, reverse_cons, <- app_assoc in Heq. cbn [app] in Heq.
  destruct (dep_of_bound _ _ _ Hwf Hx) as [Hxn _]. apply (to_all _ _ Ht) in Hxn.
  pose proof (to_nodup _ _ Ht) as Hnd. rewrite Heq in Hnd, Hxn.
  apply elem_of_app in Hxn as [Hin|[->|Hin]%elem_of_cons]; [| |by apply elem_of_reverse].
  - exfalso. apply list_elem_of_split in Hin as (p1 & p2 & Hp). rewrite Hp, <- app_assoc in Heq. cbn [app] in Heq.
    pose proof (to_deps _ _ Ht _ _ _ Heq id Hx) as Hid. rewrite Hp in Hnd. apply NoDup_middle in Hnd as [Hn _].
    apply Hn. set_solver.
  - exfalso. pose proof (to_deps _ _ Ht _ _ _ Heq id Hx) as Hid. by apply NoDup_middle in Hnd as [Hn _].
Qed.

(** * Kahn's algorithm *)

Section kahn.
Context (plan : Plan).
Local Abbreviation n := (plan_len plan).

Definition deps (id : nat) : list nat := default [] (nd_deps <$> pl_nodes plan !! id).

Lemma elem_of_deps id d : d ∈ deps id ↔ dep_of plan id d.
Proof.
  unfold deps, dep_of. destruct (pl_nodes plan !! id) as [node|]; simpl; [naive_solver|].
  split; [set_solver|naive_solver].
Qed.

Context (Hwf : plan_wf plan).

Lemma deps_NoDup id : NoDup (deps id).
Proof.
  unfold deps. destruct (pl_nodes plan !! id) as [node|] eqn:E; simpl; [|constructor].
  by eapply (pw_deps _ Hwf).
Qed.

(** Dependencies not yet placed. *)
Definition unplaced (order : list nat) (id : nat) : nat := length (filter (.∉ order) (deps id)).

Lemma unplaced_snoc order id x :
  id ∉ order → unplaced order x = unplaced (order ++ [id]) x + (if decide (id ∈ deps x) then 1 else 0).
Proof.
  intros Hid. unfold unplaced. pose proof (deps_NoDup x) as Hnd.
  assert (∀ l : list nat, id ∉ l → filter (.∉ order) l = filter (.∉ order ++ [id]) l) as Hf.
  { intros l Hl. apply list_filter_iff_in. set_solver. }
  destruct (decide (id ∈ deps x)) as [Hd|Hd]; [|by rewrite Hf, Nat.add_0_r].
  apply list_elem_of_split in Hd as (l1 & l2 & Heq). rewrite Heq in Hnd |- *.
  apply NoDup_middle in Hnd as [H1 H2]. rewrite !filter_app, !length_app, !filter_cons.
  rewrite decide_True by done. rewrite decide_False by set_solver. simpl. rewrite !Hf by done. lia.
Qed.

Lemma unplaced_zero order x : unplaced order x = 0 ↔ ∀ d, dep_of plan x d → d ∈ order.
Proof.
  unfold unplaced. rewrite length_zero_iff_nil. split.
  - intros H d Hd%elem_of_deps. destruct (decide (d ∈ order)) as [|Hn]; [done|].
    assert (d ∈ filter (.∉ order) (deps x)) as Hin by (by apply list_elem_of_filter). rewrite H in Hin. set_solver.
  - intros H. apply elem_of_nil_inv. intros d [Hn Hd]%list_elem_of_filter. by apply Hn, H, elem_of_deps.
Qed.

(** The effect of popping a node: its dependents have one dependency less. *)
Lemma visit_dependents (r : nat → nat) remaining queue D :
  NoDup D → (∀ x, x ∈ D → x < n ∧ r x ≠ 0) →
  length remaining = n → (∀ x, x < n → remaining !! x = Some (r x)) →
  ∃ remaining', foldM visit_dependent (remaining, queue) D =
      Ok (remaining', queue ++ filter (λ x, r x = 1) D) ∧
    length remaining' = n ∧
    ∀ x, x < n → remaining' !! x = Some (r x - (if decide (x ∈ D) then 1 else 0)).
Proof.
  intros Hnd HD Hlen Hr.
  destruct (foldM_total (λ pre st, length st.1 = n ∧
      (∀ x, x < n → st.1 !! x = Some (r x - (if decide (x ∈ pre) then 1 else 0))) ∧
      st.2 = queue ++ filter (λ x, r x = 1) pre) visit_dependent D (remaining, queue)) as ([rem' q'] & Hf & Hl & Hx & Hq).
  - simpl. split_and!; [done| |by rewrite app_nil_r]. intros x Hx. rewrite Hr by done. f_equal. simpl. lia.
  - intros pre x post [rem q] Heq (Hl & Hx & Hq). simpl in Hl, Hx, Hq.
    assert (x ∉ pre) as Hnin by (rewrite Heq in Hnd; by apply NoDup_middle in Hnd as [? _]).
    destruct (HD x) as [Hxn Hr0]; [subst; set_solver|].
    unfold visit_dependent, index. rewrite Hx by done. rewrite decide_False by done. rewrite Nat.sub_0_r. simpl.
    destruct (r x) as [|k] eqn:Hk; [done|]. eexists; split; [done|]. simpl. split_and!.
    + by rewrite length_insert.
    + intros y Hy. destruct (decide (y = x)) as [->|Hne].
      * rewrite list_lookup_insert_eq by lia. rewrite decide_True by set_solver. f_equal. lia.
      * rewrite list_lookup_insert_ne, Hx by done. do 2 f_equal.
        destruct (decide (y ∈ pre)); [by rewrite decide_True by set_solver|by rewrite decide_False by set_solver].
    + rewrite filter_app, Hq. destruct (decide (k = 0)) as [->|Hk0].
      * rewrite filter_cons_True by done. by rewrite <- app_assoc.
      * rewrite filter_cons_False by lia. by rewrite app_nil_r.
  - simpl in Hl, Hx, Hq. subst q'. by exists rem'.
Qed.

Record kahn_inv (remaining queue order : list nat) : Prop := mkKahn {
  ki_nodup : NoDup (order ++ queue);
  ki_bound : ∀ x, x ∈ order ++ queue → x < n;
  ki_len : length remaining = n;
  ki_remaining : ∀ x, x < n → remaining !! x = Some (unplaced order x);
  ki_ready : ∀ x, x < n → x ∈ order ++ queue ↔ unplaced order x = 0;
  ki_deps : ∀ pre id post, order = pre ++ id :: post → ∀ d, dep_of plan id d → d ∈ pre }.

Lemma kahn_step remaining queue order id :
  kahn_inv remaining (queue ++ [id]) order →
  ∃ dependents remaining' queue', pl_dependents plan !! id = Some dependents ∧
    foldM visit_dependent (remaining, queue) dependents = Ok (remaining', queue') ∧
    kahn_inv remaining' queue' (order ++ [id]).
Proof.
  intros Hinv.
  assert (id < n) as Hid by (apply (ki_bound _ _ _ Hinv); set_solver).
  assert (id ∉ order) as Hnin.
  { pose proof (ki_nodup _ _ _ Hinv) as Hnd. apply NoDup_app in Hnd as (_ & Hd & _). intros H. apply (Hd id H). set_solver. }
  assert (NoDup (order ++ [id] ++ queue)) as Hnd'.
  { rewrite (Permutation_app_comm [id]). apply Hinv. }
  destruct (pl_dependents plan !! id) as [D|] eqn:HD; last first.
  { apply lookup_ge_None in HD. rewrite (pw_len _ Hwf) in HD. lia. }
  destruct (pw_rev _ Hwf _ _ HD) as [HDnd HDin].
  assert (unplaced order id = 0) as Hid0 by (apply (ki_ready _ _ _ Hinv); [done|set_solver]).
  destruct (visit_dependents (unplaced order) remaining queue D) as (rem' & Hf & Hlen & Hrem).
  - done.
  - intros x Hx%HDin. split; [by apply (dep_of_bound plan x id)|]. intros H0. rewrite unplaced_zero in H0. by apply Hnin, H0.
  - apply Hinv.
  - apply Hinv.
  - assert (∀ x, unplaced (order ++ [id]) x = unplaced order x - (if decide (x ∈ D) then 1 else 0)) as Hun.
    { intros x. rewrite (unplaced_snoc order id x Hnin). destruct (decide (x ∈ D)) as [Hx|Hx].
      - rewrite decide_True by (by apply elem_of_deps, HDin). lia.
      - rewrite decide_False by (by rewrite elem_of_deps, <- HDin). lia. }
    exists D, rem', (queue ++ filter (λ x, unplaced order x = 1) D). split_and!; [done..|].
    assert (∀ x, x ∈ filter (λ x, unplaced order x = 1) D → x ∉ order ++ [id] ++ queue) as Hfresh.
    { intros x [Hx1 HxD]%list_elem_of_filter Hx. assert (x < n) as Hxn by (apply (dep_of_bound plan x id); [done|by apply HDin]).
      assert (x ∈ order ++ queue ++ [id]) as Hx' by set_solver. apply (ki_ready _ _ _ Hinv) in Hx'; [lia|done]. }
    split.
    + rewrite <- app_assoc, (app_assoc [id]), app_assoc. apply NoDup_app. split_and!.
      * rewrite app_assoc in Hnd'. by rewrite app_assoc.
      * intros x Hx Hxf. by apply (Hfresh x Hxf).
      * by apply NoDup_filter.
    + intros x. rewrite !elem_of_app, list_elem_of_singleton, list_elem_of_filter.
      intros [[Hx|Hx]|[Hx|[_ Hx]]]; [apply (ki_bound _ _ _ Hinv); set_solver|by subst|apply (ki_bound _ _ _ Hinv); set_solver|].
      apply (dep_of_bound plan x id); [done|by apply HDin].
    + done.
    + intros x Hx. rewrite Hrem, Hun by done. done.
    + intros x Hx. rewrite Hun. destruct (decide (x ∈ D)) as [HxD|HxD].
      * split.
        -- rewrite !elem_of_app, list_elem_of_singleton, list_elem_of_filter.
           intros [[Ho|Ho]|[Ho|[-> _]]]; [| | |lia]; exfalso.
           ++ apply HDin in HxD. assert (unplaced order x = 0) as H0 by (apply (ki_ready _ _ _ Hinv); [done|set_solver]).
              rewrite unplaced_zero in H0. by apply Hnin, H0.
           ++ subst. apply HDin in HxD. rewrite unplaced_zero in Hid0. by apply Hnin, Hid0.
           ++ apply HDin in HxD. assert (unplaced order x = 0) as H0 by (apply (ki_ready _ _ _ Hinv); [done|set_solver]).
              rewrite unplaced_zero in H0. by apply Hnin, H0.
        -- intros H1. destruct (decide (unplaced order x = 1)).
           { apply elem_of_app. right. apply elem_of_app. right. by apply list_elem_of_filter. }
           assert (unplaced order x = 0) as H0 by lia. apply HDin in HxD. rewrite unplaced_zero in H0.
           exfalso. by apply Hnin, H0.
      * rewrite Nat.sub_0_r, <- (ki_ready _ _ _ Hinv x Hx). rewrite !elem_of_app, list_elem_of_filter, list_elem_of_singleton.
        clear -HxD. tauto.
    + intros pre i post Heq d Hd. destruct post as [|p post] using rev_ind.
      * apply app_inj_tail in Heq as [-> ->]. rewrite unplaced_zero in Hid0. auto.
      * clear IHpost. rewrite app_comm_cons, app_assoc in Heq. apply app_inj_tail in Heq as [-> _].
        by eapply (ki_deps _ _ _ Hinv).
Qed.

(** ** The loop and its result *)

Lemma last_snoc_Some {A} (l : list A) x : last l = Some x → ∃ k, l = k ++ [x] ∧ removelast l = k.
Proof.
  intros H. apply last_Some in H as [k ->]. exists k. split; [done|]. apply removelast_last.
Qed.

Lemma topological_loop_spec fuel remaining queue order :
  n ≤ fuel + length order → kahn_inv remaining queue order →
  ∃ remaining' order', topological_loop fuel plan remaining queue order = Ok order' ∧ kahn_inv remaining' [] order'.
Proof.
  revert remaining queue order. induction fuel as [|fuel IH]; intros remaining queue order Hf Hinv; cbn [topological_loop].
  all: destruct (last queue) as [id|] eqn:Hl; last first.
  all: try (apply last_None in Hl; subst; by exists remaining, order).
  all: apply last_snoc_Some in Hl as (q & -> & Hq).
  - exfalso. assert (length (order ++ q ++ [id]) ≤ length (seq 0 n)) as Hle.
    { apply submseteq_length, NoDup_submseteq; [apply Hinv|]. intros x Hx.
      apply elem_of_seq. split; [lia|]. by apply (ki_bound _ _ _ Hinv). }
    rewrite !length_app, length_seq in Hle. simpl in Hle. lia.
  - destruct (kahn_step _ _ _ _ Hinv) as (D & rem' & q' & HD & Hfold & Hinv').
    unfold index. rewrite HD. cbn [unwrap mbind outcome_bind]. rewrite Hq, Hfold. cbn [mbind outcome_bind].
    apply IH; [rewrite length_app; simpl; lia|done].
Qed.

Lemma kahn_start :
  kahn_inv ((λ node, length (nd_deps node)) <$> pl_nodes plan)
    (filter (λ id, ((λ node, length (nd_deps node)) <$> pl_nodes plan) !! id = Some 0) (seq 0 n)) [].
Proof.
  assert (∀ x, x < n → ((λ node, length (nd_deps node)) <$> pl_nodes plan) !! x = Some (unplaced [] x)) as Hr.
  { intros x Hx. rewrite list_lookup_fmap. destruct (lookup_lt_is_Some_2 (pl_nodes plan) x Hx) as [node Hn].
    unfold unplaced, deps. rewrite Hn. simpl. f_equal. clear.
    induction (nd_deps node) as [|y l IH]; [done|]. rewrite filter_cons_True by apply not_elem_of_nil. simpl. by rewrite <- IH. }
  split.
  - apply NoDup_filter, NoDup_seq.
  - intros x [_ Hx%elem_of_seq]%list_elem_of_filter. lia.
  - by rewrite length_fmap.
  - done.
  - intros x Hx. cbn [app]. rewrite list_elem_of_filter, Hr, elem_of_seq by done. split; [naive_solver|].
    intros ->. split; [done|lia].
  - intros pre id post H. by destruct pre.
Qed.

(** Kahn's algorithm orders the nodes, or there is a cycle. *)
Lemma topological_order_spec :
  match topological_order plan with
  | Ok order => topo_ok plan order
  | Err e => ∃ cyclic x, e = NotADag cyclic n ∧ 0 < cyclic ≤ n ∧ tc (dep_of plan) x x
  | Panic => False
  end.
Proof.
  unfold topological_order.
  destruct (topological_loop_spec n _ _ [] ltac:(simpl; lia) kahn_start) as (rem & order & -> & Hinv).
  cbn [mbind outcome_bind]. pose proof (ki_nodup _ _ _ Hinv) as Hnd. rewrite app_nil_r in Hnd.
  pose proof (ki_bound _ _ _ Hinv) as Hb. rewrite app_nil_r in Hb.
  assert (order ⊆+ seq 0 n) as Hsub.
  { apply NoDup_submseteq; [done|]. intros x Hx. apply elem_of_seq. split; [lia|auto]. }
  pose proof (submseteq_length _ _ Hsub) as Hle. rewrite length_seq in Hle.
  case_decide as Hlen.
  - split; [done| |apply Hinv]. intros x. split; [auto|]. intros Hx.
    assert (order ≡ₚ seq 0 n) as Hp by (apply submseteq_length_Permutation; [done|rewrite length_seq; lia]).
    rewrite Hp. apply elem_of_seq. lia.
  - assert (∃ x, x < n ∧ x ∉ order) as (x & Hx & Hnx).
    { destruct (decide (Forall (λ x, x ∈ order) (seq 0 n))) as [Hall|Hno].
      - exfalso. apply Hlen. assert (seq 0 n ⊆+ order) as Hs.
        { apply NoDup_submseteq; [apply NoDup_seq|]. by rewrite Forall_forall in Hall. }
        apply submseteq_length in Hs. rewrite length_seq in Hs. lia.
      - apply not_Forall_Exists, Exists_exists in Hno; [|apply _]. destruct Hno as (x & Hx%elem_of_seq & Hnx).
        exists x. split; [lia|done]. }
    destruct (finite_succ_cycle (dep_of plan) (list_to_set (filter (.∉ order) (seq 0 n)) : gset nat)) with (x := x)
      as (y & _ & Hcyc).
    + intros a Ha. apply elem_of_list_to_set, list_elem_of_filter in Ha as [Hna Ha%elem_of_seq].
      assert (unplaced order a ≠ 0) as Hun.
      { intros H0. apply (ki_ready _ _ _ Hinv) in H0; [|lia]. rewrite app_nil_r in H0. done. }
      unfold unplaced in Hun. destruct (filter (.∉ order) (deps a)) as [|d l] eqn:Hfil; [done|].
      assert (d ∈ filter (.∉ order) (deps a)) as [Hnd' Hd%elem_of_deps]%list_elem_of_filter by (rewrite Hfil; by left).
      exists d. split; [|done]. apply elem_of_list_to_set, list_elem_of_filter. split; [done|].
      apply elem_of_seq. apply dep_of_bound in Hd as [_ ?]; [lia|done].
    + apply elem_of_list_to_set, list_elem_of_filter. split; [done|]. apply elem_of_seq. lia.
    + exists (n - length order), y. split_and!; [done|lia..|done].
Qed.
End kahn.
