(* ===== verification/NixDagMetrics.v ===== *)
(** What [Metrics::compute] of [packages/nix-dag/src/graph.rs] reports: the
    numbers of transitive dependents and dependencies, the levels and the
    longest chain of a plan, and which nodes are only carried in environment
    variables: per node, how many of its direct dependents carry it only so, and
    for how many of those nothing else leads to it. *)

From stdpp Require Import base gmap sets list strings sorting relations.
From S2P Require Import Prelude NixDag NixDagProps.

Section metrics.
Context (plan : Plan) (Hwf : plan_wf plan).
Local Abbreviation n := (plan_len plan).

(** * Reachability *)

Lemma tc_iff {A} (R S : relation A) : (∀ x y, R x y ↔ S x y) → ∀ x y, tc R x y ↔ tc S x y.
Proof.
  intros H x y. split; (induction 1 as [a b Hab|a b c Hab _ IH];
    [apply tc_once; by apply H|eapply tc_l; [apply H; exact Hab|exact IH]]).
Qed.

Lemma tc_reverse {A} (R : relation A) x y : tc (λ a b, R b a) x y ↔ tc R y x.
Proof.
  split; induction 1 as [a b Hab|a b c Hab _ IH]; [by constructor| |by constructor|].
  - by eapply tc_r.
  - by eapply tc_r; [exact IH|].
Qed.

Lemma index_node id : id < n → ∃ node, index (pl_nodes plan) id = Ok node ∧ pl_nodes plan !! id = Some node.
Proof. intros Hid. destruct (lookup_lt_is_Some_2 _ _ Hid) as [node Hn]. exists node. unfold index. by rewrite Hn. Qed.

Lemma closure_of_spec order :
  topo_ok plan order → ∃ r, closure_of plan order = Ok r ∧ holds n r (tc (dep_of plan)).
Proof.
  intros Ht. unfold closure_of.
  destruct (closure_loop n (deps plan) (λ r id, node ← index (pl_nodes plan) id; join_neighbours (nd_deps node) r id) order)
    as (r & Hr & Hh).
  - apply (to_nodup _ _ Ht).
  - intros x Hx. by apply (to_all _ _ Ht).
  - intros pre id post Heq o Ho%elem_of_deps. by eapply (to_deps _ _ Ht).
  - intros r id Hid%(to_all _ _ Ht). destruct (index_node id Hid) as (node & -> & Hn). simpl.
    unfold deps. by rewrite Hn.
  - exists r. split; [done|]. eapply holds_ext; [exact Hh|]. intros a b Ha _. simpl.
    rewrite (tc_iff _ (dep_of plan)) by (intros; apply elem_of_deps). rewrite (to_all _ _ Ht). naive_solver.
Qed.

(** A count per node. *)
Lemma counts_spec r f :
  holds n r f →
  ∃ cs, foldM (λ out id, c ← count r id; Ok (out ++ [c])) [] (seq 0 n) = Ok cs ∧
    Forall2 (λ id c, size_is n c (f id)) (seq 0 n) cs.
Proof.
  intros Hr. destruct (foldM_collect_total (λ id c, size_is n c (f id)) (count r) (seq 0 n) []) as (cs & Hcs & HF); [|by exists cs].
  intros id Hid%elem_of_seq. destruct (holds_count n r f id Hr) as (c & Hc & Hs); [lia|]. eauto.
Qed.

Lemma blast_radius_spec order :
  topo_ok plan order →
  ∃ cs, blast_radius plan order = Ok cs ∧
    Forall2 (λ id c, size_is n c (λ x, tc (dep_of plan) x id)) (seq 0 n) cs.
Proof.
  intros Ht. unfold blast_radius.
  set (nb := λ id, default [] (pl_dependents plan !! id)).
  assert (∀ id x, x ∈ nb id ↔ dep_of plan x id) as Hnb.
  { intros id x. unfold nb. destruct (pl_dependents plan !! id) as [l|] eqn:E; simpl; [by apply (pw_rev _ Hwf)|].
    split; [set_solver|]. intros Hd. apply dep_of_bound in Hd as [_ Hid]; [|done].
    apply lookup_ge_None in E. rewrite (pw_len _ Hwf) in E. lia. }
  destruct (closure_loop n nb (λ r id, dependents ← index (pl_dependents plan) id; join_neighbours dependents r id) (reverse order))
    as (r & Hr & Hh).
  - rewrite reverse_Permutation. apply (to_nodup _ _ Ht).
  - intros x. rewrite elem_of_reverse. intros Hx. by apply (to_all _ _ Ht).
  - intros pre id post Heq o Ho%Hnb. by eapply topo_reverse.
  - intros r id. rewrite elem_of_reverse. intros Hid%(to_all _ _ Ht). unfold nb, index.
    rewrite <- (pw_len _ Hwf) in Hid. by destruct (lookup_lt_is_Some_2 _ _ Hid) as [l ->].
  - rewrite Hr. cbn [mbind outcome_bind]. apply counts_spec. eapply holds_ext; [exact Hh|].
    intros a b Ha _. simpl. rewrite elem_of_reverse, (to_all _ _ Ht).
    rewrite (tc_iff _ (λ x y, dep_of plan y x)) by (intros; apply Hnb). rewrite tc_reverse. naive_solver.
Qed.

(** * Chains *)

(** A chain: each node depends on the next. *)
Fixpoint chain (x : nat) (l : list nat) : Prop :=
  match l with
  | [] => x < n
  | y :: l => dep_of plan x y ∧ chain y l
  end.

(** The longest chain from [x] has [k] steps. *)
Definition longest (x k : nat) : Prop :=
  (∃ l, chain x l ∧ length l = k) ∧ ∀ l, chain x l → length l ≤ k.

Lemma chain_bound order x l : topo_ok plan order → chain x l → length l ≤ pos x order ∧ x < n.
Proof.
  intros Ht. revert x. induction l as [|y l IH]; intros x; simpl; [intros; split; [lia|done]|].
  intros [Hd [Hl _]%IH]. pose proof (topo_rank _ _ _ _ Hwf Ht Hd).
  split; [lia|]. by apply (dep_of_bound plan x y).
Qed.

Lemma pos_lt x l : x ∈ l → pos x l < length l.
Proof. intros H. rewrite <- (app_nil_r l) at 1. by apply pos_app_in. Qed.

Lemma longest_bound order x k : topo_ok plan order → longest x k → k < n.
Proof.
  intros Ht [(l & Hc & <-) _]. pose proof (chain_bound order x l Ht Hc) as [Hl Hx].
  assert (length order = n) as Hlen.
  { rewrite <- (length_seq n 0). apply Permutation_length, NoDup_Permutation; [apply Ht|apply NoDup_seq|].
    intros y. rewrite (to_all _ _ Ht), elem_of_seq. lia. }
  pose proof (pos_lt x order) as Hp. rewrite (to_all _ _ Ht) in Hp. specialize (Hp Hx). lia.
Qed.

Lemma max_list_attained l : l ≠ [] → max_list l ∈ l.
Proof.
  induction l as [|x l IH]; [done|]. intros _. simpl. destruct l as [|y l]; [simpl; rewrite Nat.max_0_r; by left|].
  specialize (IH ltac:(done)). destruct (Nat.max_spec x (max_list (y :: l))) as [[_ ->]|[_ ->]]; [by right|by left].
Qed.

(** The depth of a node from those of its dependencies. *)
Lemma longest_step id ds ks :
  id < n → (∀ d, d ∈ ds ↔ dep_of plan id d) → Forall2 (λ d k, ∃ k', k = k' + 1 ∧ longest d k') ds ks →
  longest id (max_list ks).
Proof.
  intros Hid Hds HF. split.
  - destruct (decide (ks = [])) as [->|Hne]; [by exists []|].
    apply max_list_attained, list_elem_of_lookup in Hne as [i Hi].
    destruct (Forall2_lookup_r _ _ _ _ _ HF Hi) as (d & Hd & k' & -> & (l & Hc & <-) & _).
    exists (d :: l). split; [|simpl; lia]. split; [|done]. apply Hds. by eapply list_elem_of_lookup_2.
  - intros [|y l]; simpl; [lia|]. intros [Hy Hc]. apply Hds, list_elem_of_lookup in Hy as [i Hi].
    destruct (Forall2_lookup_l _ _ _ _ _ HF Hi) as (k & Hk & k' & -> & _ & Hmax).
    specialize (Hmax l Hc). apply list_elem_of_lookup_2, max_list_elem_of_le in Hk. lia.
Qed.

Lemma depths_spec order :
  topo_ok plan order →
  ∃ depth, depths plan order = Ok depth ∧ length depth = n ∧ ∀ x, x < n → ∃ k, depth !! x = Some k ∧ longest x k.
Proof.
  intros Ht. unfold depths.
  destruct (foldM_total (λ pre depth, length depth = n ∧ ∀ x, x ∈ pre → ∃ k, depth !! x = Some k ∧ longest x k)
    (λ depth id,
      node ← index (pl_nodes plan) id;
      below ← foldM (λ out dep, d ← index depth dep; Ok (out ++ [d + 1])) [] (nd_deps node);
      _ ← index depth id;
      Ok (<[id := max_list below]> depth)) order (replicate n 0)) as (depth & Hd & Hlen & Hall).
  - split; [by rewrite length_replicate|set_solver].
  - intros pre id post depth Heq [Hlen Hpre].
    assert (id < n) as Hid by (apply Ht; subst; set_solver).
    destruct (index_node id Hid) as (node & -> & Hn). cbn [mbind outcome_bind].
    destruct (foldM_collect_total (λ d k, ∃ k', k = k' + 1 ∧ longest d k')
      (λ dep, d ← index depth dep; Ok (d + 1)) (nd_deps node) []) as (ks & Hks & HF).
    { intros d Hdin. destruct (Hpre d) as (k & Hk & Hlong); [by eapply (to_deps _ _ Ht); [exact Heq|by exists node]|].
      exists (k + 1). unfold index. rewrite Hk. simpl. eauto. }
    cbn [app] in Hks.
    assert (foldM (λ out dep, d ← index depth dep; Ok (out ++ [d + 1])) [] (nd_deps node) = Ok ks) as ->.
    { rewrite <- Hks. apply foldM_ext. intros out d. by destruct (index depth d). }
    cbn [mbind outcome_bind]. unfold index.
    destruct (lookup_lt_is_Some_2 depth id) as [k0 ->]; [lia|]. cbn [unwrap mbind outcome_bind].
    eexists; split; [done|]. split; [by rewrite length_insert|]. intros x Hx.
    destruct (decide (x = id)) as [->|Hne].
    + exists (max_list ks). split; [apply list_lookup_insert_eq; lia|]. eapply longest_step; [done| |exact HF].
      intros d. unfold dep_of. rewrite Hn. naive_solver.
    + rewrite list_lookup_insert_ne by done. apply Hpre. set_solver.
  - exists depth. split_and!; [done..|]. intros x Hx. apply Hall. by apply Ht.
Qed.

Lemma level_widths_spec depth :
  ∃ ws, level_widths depth = Ok ws ∧ length ws = max_list depth + 1 ∧
    ∀ k, k ≤ max_list depth → ws !! k = Some (length (filter (λ d, d = k) depth)).
Proof.
  unfold level_widths.
  destruct (foldM_total (λ pre ws, length ws = max_list depth + 1 ∧
      ∀ k, k ≤ max_list depth → ws !! k = Some (length (filter (λ d, d = k) pre)))
    (λ widths level, w ← index widths level; Ok (<[level := w + 1]> widths)) depth
    (replicate (max_list depth + 1) 0)) as (ws & ? & ? & ?); [| |by exists ws].
  - split; [by rewrite length_replicate|]. intros k Hk. apply lookup_replicate_2. lia.
  - intros pre d post ws Heq [Hlen Hws].
    assert (d ≤ max_list depth) as Hd by (apply max_list_elem_of_le; subst; set_solver).
    unfold index. rewrite Hws by done. simpl. eexists; split; [done|]. split; [by rewrite length_insert|].
    intros k Hk. rewrite filter_app, length_app, filter_cons. destruct (decide (k = d)) as [->|Hne].
    + rewrite list_lookup_insert_eq by lia. by rewrite decide_True.
    + rewrite list_lookup_insert_ne, Hws by done. rewrite decide_False by done. simpl. f_equal. lia.
Qed.

(** * The critical path *)

Lemma max_by_key_spec l :
  match max_by_key l with
  | None => l = []
  | Some x => ∃ k, (x, k) ∈ l ∧ ∀ y j, (y, j) ∈ l → j ≤ k
  end.
Proof.
  unfold max_by_key.
  assert (∀ (o : option (nat * nat)) pre,
    match o with None => pre = [] | Some b => b ∈ pre ∧ ∀ c, c ∈ pre → c.2 ≤ b.2 end →
    match foldl (λ best x, match best with
                           | Some b => if decide (b.2 ≤ x.2) then Some x else best
                           | None => Some x
                           end) o l with
    | None => pre ++ l = []
    | Some b => b ∈ pre ++ l ∧ ∀ c, c ∈ pre ++ l → c.2 ≤ b.2
    end) as Hgen; last first.
  { specialize (Hgen None [] eq_refl). destruct (foldl _ None l) as [[x k]|]; simpl; [|done].
    destruct Hgen as [Hin Hmax]. exists k. split; [done|]. intros y j Hj. apply (Hmax (y, j) Hj). }
  induction l as [|x l IH]; intros o pre Ho; simpl; [by rewrite app_nil_r|].
  specialize (IH (match o with Some b => if decide (b.2 ≤ x.2) then Some x else o | None => Some x end) (pre ++ [x])).
  rewrite <- app_assoc in IH. apply IH. destruct o as [b|].
  - destruct Ho as [Hb Hmax]. case_decide.
    + split; [set_solver|]. intros c [Hc| ->%list_elem_of_singleton]%elem_of_app; [specialize (Hmax c Hc); lia|done].
    + split; [set_solver|]. intros c [Hc| ->%list_elem_of_singleton]%elem_of_app; [by apply Hmax|lia].
  - subst. split; [set_solver|]. by intros c ->%list_elem_of_singleton.
Qed.

Section critical.
Context (depth : list nat) (Hdepth : ∀ x, x < n → ∃ k, depth !! x = Some k ∧ longest x k).

Lemma with_depth_spec ids :
  (∀ x, x ∈ ids → x < n) →
  ∃ l, with_depth depth ids = Ok l ∧ ∀ x k, (x, k) ∈ l ↔ x ∈ ids ∧ depth !! x = Some k.
Proof.
  intros Hids. destruct (foldM_collect_total (λ x p, p.1 = x ∧ depth !! x = Some p.2)
    (λ id, d ← index depth id; Ok (id, d)) ids []) as (l & Hl & HF).
  { intros x Hx. destruct (Hdepth x (Hids x Hx)) as (k & Hk & _). exists (x, k). unfold index. by rewrite Hk. }
  exists l. split.
  - cbn [app] in Hl. rewrite <- Hl. unfold with_depth. apply foldM_ext. intros out id. by destruct (index depth id).
  - intros x k. split.
    + intros [i Hi]%list_elem_of_lookup. destruct (Forall2_lookup_r _ _ _ _ _ HF Hi) as (y & Hy & Hy1 & Hy2).
      simpl in *. subst. split; [by eapply list_elem_of_lookup_2|done].
    + intros [[i Hi]%list_elem_of_lookup Hk]. destruct (Forall2_lookup_l _ _ _ _ _ HF Hi) as ([y j] & Hy & Hy1 & Hy2).
      simpl in *. simplify_eq. by eapply list_elem_of_lookup_2.
Qed.

Lemma longest_next x k y j :
  longest x k → dep_of plan x y → longest y j →
  (∀ z i, dep_of plan x z → longest z i → i ≤ j) → k = S j.
Proof.
  intros [(l & Hc & Hl) Hmax] Hxy [(m & Hm & Hlm) _] Hbest.
  assert (S j ≤ k) by (rewrite <- Hlm; apply (Hmax (y :: m)); by split).
  destruct l as [|z l]; simpl in Hl; [lia|]. destruct Hc as [Hxz Hc].
  destruct (dep_of_bound plan x z Hwf Hxz) as [_ Hz]. destruct (Hdepth z Hz) as (i & _ & Hi).
  pose proof (Hbest z i Hxz Hi). destruct Hi as [_ Hi]. specialize (Hi l Hc). lia.
Qed.

Lemma longest_fun x k j : longest x k → longest x j → k = j.
Proof. intros [(l & Hl & <-) H1] [(m & Hm & <-) H2]. specialize (H1 m Hm). specialize (H2 l Hl). lia. Qed.

Lemma critical_loop_spec fuel x k path :
  x < n → longest x k → k ≤ fuel →
  ∃ rest, critical_loop fuel plan depth x path = Ok (path ++ rest) ∧ chain x rest ∧ length rest = k.
Proof.
  revert x k path. induction fuel as [|fuel IH]; intros x k path Hx Hk Hf; cbn [critical_loop].
  all: destruct (index_node x Hx) as (node & -> & Hn); cbn [mbind outcome_bind].
  all: destruct (with_depth_spec (nd_deps node)) as (l & -> & Hl); [by apply (pw_deps _ Hwf _ _ Hn)|]; cbn [mbind outcome_bind].
  all: pose proof (max_by_key_spec l) as Hbest; destruct (max_by_key l) as [y|].
  - exfalso. destruct Hbest as (j & [Hy _]%Hl & _). assert (k = 0) by lia. subst.
    destruct Hk as [_ Hmax]. assert (chain x [y]) as Hc; [|by apply Hmax in Hc; simpl in Hc; lia].
    split; [by exists node|]. by apply (pw_deps _ Hwf _ _ Hn).
  - exists []. rewrite app_nil_r. split_and!; [done..|]. simpl. lia.
  - destruct Hbest as (j & [Hy Hj]%Hl & Hmax).
    assert (y < n) as Hyn by (by apply (pw_deps _ Hwf _ _ Hn)).
    destruct (Hdepth y Hyn) as (j' & Hj' & Hlong). simplify_eq.
    assert (k = S j) as ->.
    { eapply longest_next; [done|by exists node|done|]. intros z i (node' & Hn' & Hz) Hi. simplify_eq.
      assert (z < n) as Hzn by (by apply (pw_deps _ Hwf _ _ Hn)). destruct (Hdepth z Hzn) as (i' & Hi' & Hlong').
      apply (longest_fun z i i') in Hlong'; [subst|done]. apply (Hmax z). by apply Hl. }
    destruct (IH y j (path ++ [y]) Hyn Hlong ltac:(lia)) as (rest & -> & Hc & Hlen).
    exists (y :: rest). rewrite <- app_assoc. split_and!; [done| |simpl; lia]. split; [by exists node|done].
  - exists []. rewrite app_nil_r. split_and!; [done..|]. subst. simpl.
    destruct Hk as [([|z m] & Hc & <-) _]; [done|]. destruct Hc as [(node' & Hn' & Hz) _]. simplify_eq.
    assert (z < n) as Hzn by (by eapply (pw_deps _ Hwf); eassumption). destruct (Hdepth z Hzn) as (i & Hi & _).
    exfalso. assert ((z, i) ∈ []) as Hin by (by apply Hl). set_solver.
Qed.

Lemma critical_path_spec :
  (∀ x k, longest x k → k < n) →
  ∃ p, critical_path plan depth = Ok p ∧
    (n = 0 → p = []) ∧ (0 < n → ∃ x rest, p = x :: rest ∧ chain x rest) ∧
    ∀ x l, chain x l → S (length l) ≤ length p.
Proof.
  intros Hbound. unfold critical_path.
  destruct (with_depth_spec (seq 0 n)) as (l & -> & Hl); [intros x Hx%elem_of_seq; lia|]. cbn [mbind outcome_bind].
  pose proof (max_by_key_spec l) as Hbest. destruct (max_by_key l) as [x|].
  - destruct Hbest as (k & [Hx%elem_of_seq Hk]%Hl & Hmax). destruct (Hdepth x ltac:(lia)) as (k' & Hk' & Hlong). simplify_eq.
    destruct (critical_loop_spec n x k [x]) as (rest & -> & Hc & Hlen); [lia|done|apply Hbound in Hlong; lia|].
    exists (x :: rest). split_and!; [done|lia|eauto|]. intros y m Hm. cbn [length]. rewrite Hlen.
    assert (y < n) as Hy by (destruct m; [done|destruct Hm as [Hd _]; by apply (dep_of_bound plan) in Hd as [? _]]).
    destruct (Hdepth y Hy) as (j & Hj & Hlj). assert (j ≤ k) by (apply (Hmax y), Hl; split; [apply elem_of_seq; lia|done]).
    destruct Hlj as [_ Hlj]. specialize (Hlj m Hm). lia.
  - exists []. split_and!; [done..| |].
    + intros Hn. exfalso. destruct (Hdepth 0 Hn) as (k & Hk & _).
      assert ((0, k) ∈ l) as Hin by (apply Hl; split; [apply elem_of_seq; lia|done]). subst. set_solver.
    + intros x m Hm. exfalso. assert (x < n) as Hx by (destruct m; [done|destruct Hm as [Hd _]; by apply (dep_of_bound plan) in Hd as [? _]]).
      destruct (Hdepth x Hx) as (k & Hk & _).
      assert ((x, k) ∈ l) as Hin by (apply Hl; split; [apply elem_of_seq; lia|done]). subst. set_solver.
Qed.
End critical.
End metrics.

(** * Runs of references *)

Definition refs_to (t : nat) (refs : list EnvRef) : list EnvRef := filter (λ r, er_target r = t) refs.

Abbreviation sorted_refs := (StronglySorted (λ a b, er_target a ≤ er_target b)).

Lemma refs_to_none t refs : Forall (λ r, er_target r ≠ t) refs → refs_to t refs = [].
Proof.
  intros H. apply elem_of_nil_inv. intros r [Ht Hr]%list_elem_of_filter.
  rewrite Forall_forall in H. by apply (H r).
Qed.

Lemma refs_to_all t refs : Forall (λ r, er_target r = t) refs → refs_to t refs = refs.
Proof. unfold refs_to. induction 1 as [|r refs Hr _ IH]; [done|]. by rewrite filter_cons_True, IH. Qed.

Lemma same_target_spec t r refs run rest :
  sorted_refs (r :: refs) → er_target r = t → same_target t (r :: refs) = (run, rest) →
  r :: refs = run ++ rest ∧ run ≠ [] ∧ Forall (λ r, er_target r = t) run ∧
  Forall (λ r, er_target r ≠ t) rest ∧ sorted_refs rest.
Proof.
  intros Hs Ht. cbn [same_target]. rewrite decide_True by done.
  assert (∀ refs run rest, sorted_refs refs → Forall (λ r, t ≤ er_target r) refs → same_target t refs = (run, rest) →
    refs = run ++ rest ∧ Forall (λ r, er_target r = t) run ∧ Forall (λ r, er_target r ≠ t) rest ∧ sorted_refs rest) as Hgen.
  { clear. induction refs as [|q refs IH]; intros run rest Hs Hle; simpl.
    { intros [= <- <-]. split_and!; constructor. }
    inversion Hs as [|? ? Hs' Hall]; subst. inversion Hle as [|? ? Hq Hle']; subst. case_decide as Hqt.
    - destruct (same_target t refs) as [run' rest'] eqn:E. intros [= <- <-].
      destruct (IH run' rest' Hs' Hle' eq_refl) as (-> & ? & ? & ?). split_and!; [done|by constructor|done..].
    - intros [= <- <-]. split_and!; [done|constructor| |done]. constructor; [done|].
      rewrite Forall_forall in Hall |- *. intros p Hp. specialize (Hall p Hp). lia. }
  destruct (same_target t refs) as [run' rest'] eqn:E. intros [= <- <-].
  inversion Hs as [|? ? Hs' Hall]; subst.
  destruct (Hgen refs run' rest' Hs' Hall E) as (-> & ? & ? & ?). split_and!; [done|done|by constructor|done..].
Qed.

(** One reference per target and variable. *)
Definition distinct_refs (refs : list EnvRef) : Prop :=
  sorted_refs refs ∧ NoDup ((λ r, (er_target r, er_key r)) <$> refs).

Section carriers.
Context (plan : Plan) (Hwf : plan_wf plan).
Local Abbreviation n := (plan_len plan).
Context (closure : Reachability) (Hclosure : holds n closure (tc (dep_of plan))).

(** The dependency is only named in carrier variables. *)
Definition carries (deps : list nat) (refs : list EnvRef) (t : nat) : Prop :=
  t ∈ deps ∧ refs_to t refs ≠ [] ∧ forallb er_carrier (refs_to t refs) = true.

(** Some other dependency depends on it. *)
Definition other_route (deps : list nat) (t : nat) : Prop := ∃ d, d ∈ deps ∧ d ≠ t ∧ tc (dep_of plan) d t.

#[export] Instance carries_dec deps refs t : Decision (carries deps refs t).
Proof. unfold carries. apply _. Defined.

Lemma reached_otherwise_spec t ds :
  t < n → (∀ d, d ∈ ds → d < n) → ∃ b, reached_otherwise closure t ds = Ok b ∧ (b = true ↔ other_route ds t).
Proof.
  intros Ht. unfold other_route. induction ds as [|d ds IH]; intros Hds; cbn [reached_otherwise].
  { exists false. split; [done|]. set_solver. }
  destruct IH as (b & Hb & Hiff); [set_solver|]. destruct (decide (d = t)) as [->|Hne].
  - exists b. split; [done|]. rewrite Hiff. set_solver.
  - destruct (holds_get n closure _ d t Hclosure (Hds d ltac:(by left)) Ht) as (g & -> & Hg). simpl.
    destruct g.
    + exists true. split; [done|]. split; [|done]. intros _. exists d. split_and!; [by left|done|by apply Hg].
    + exists b. split; [done|]. rewrite Hiff. split; [set_solver|].
      intros (e & He & Het & Hte). apply elem_of_cons in He as [->|He]; [by apply Hg in Hte|eauto].
Qed.

(** One more, or not. *)
Definition plus (c c' : nat) (P : Prop) : Prop := (P ∧ c' = c + 1) ∨ (¬ P ∧ c' = c).

(** What one node adds to the counts. *)
Definition adds (ds : list nat) (refs : list EnvRef) (counts counts' : list CarrierCounts) : Prop :=
  length counts' = length counts ∧
  ∀ t c, counts !! t = Some c → ∃ c', counts' !! t = Some c' ∧
    plus (carried c) (carried c') (carries ds refs t) ∧
    plus (sole c) (sole c') (carries ds refs t ∧ ¬ other_route ds t).

Definition tally_ok (tally : list (nat * nat)) : Prop := Forall (λ p, p.1 < n) tally.

Lemma carrier_run_spec node t run counts tally :
  t < n → (∀ d, d ∈ nd_deps node → d < n) → length counts = n → tally_ok tally →
  run ≠ [] → Forall (λ r, er_target r = t) run →
  ∃ counts' tally', carrier_run closure node t run (counts, tally) = Ok (counts', tally') ∧
    adds (nd_deps node) run counts counts' ∧ tally_ok tally'.
Proof.
  intros Ht Hds Hlen Htally Hne Hrun. unfold carrier_run.
  assert (∀ u, u ≠ t → ¬ carries (nd_deps node) run u) as Hother.
  { intros u Hu (_ & Hr & _). apply Hr, refs_to_none. eapply Forall_impl; [exact Hrun|]. intros r ->. done. }
  assert (carries (nd_deps node) run t ↔ forallb er_carrier run && bool_decide (t ∈ nd_deps node) = true) as Hc.
  { unfold carries. rewrite refs_to_all, andb_true_iff, bool_decide_eq_true by done. naive_solver. }
  destruct (forallb er_carrier run && bool_decide (t ∈ nd_deps node)); last first.
  { exists counts, tally. split_and!; [done| |done]. split; [done|]. intros u c Hu. exists c. split; [done|].
    assert (¬ carries (nd_deps node) run u) as Hn.
    { destruct (decide (u = t)) as [->|]; [by rewrite Hc|by apply Hother]. }
    split; right; naive_solver. }
  destruct (lookup_lt_is_Some_2 counts t) as [c Hct]; [lia|]. unfold index. rewrite Hct. cbn [unwrap mbind outcome_bind].
  destruct (reached_otherwise_spec t (nd_deps node) Ht Hds) as (b & -> & Hb). cbn [mbind outcome_bind].
  assert (tally_ok (tally ++ ((λ r, (t, er_key r)) <$> run))) as Htally'.
  { apply Forall_app. split; [done|]. by apply Forall_fmap, Forall_true. }
  assert (carries (nd_deps node) run t) as Hct' by (by apply Hc).
  assert (∀ c0 c1 counts1, counts !! t = Some c0 → carried c1 = carried c0 + 1 →
    plus (sole c0) (sole c1) (carries (nd_deps node) run t ∧ ¬ other_route (nd_deps node) t) →
    counts1 = <[t := c1]> counts → adds (nd_deps node) run counts counts1) as Hadds.
  { intros c0 c1 counts1 H0 H1 H2 ->. split; [by rewrite length_insert|]. intros u cu Hu.
    destruct (decide (u = t)) as [->|Hut].
    - simplify_eq. exists c1. split; [apply list_lookup_insert_eq; lia|]. split; [left; done|done].
    - exists cu. split; [by rewrite list_lookup_insert_ne|]. pose proof (Hother u Hut). split; right; naive_solver. }
  destruct b.
  - eexists _, _. split; [done|]. split; [|done]. apply (Hadds c (mkCounts (carried c + 1) (sole c))); [done|done| |done].
    right. naive_solver.
  - rewrite list_lookup_insert_eq by lia. cbn [unwrap mbind outcome_bind]. eexists _, _. split; [done|]. split; [|done].
    rewrite list_insert_insert_eq. apply (Hadds c (mkCounts (carried c + 1) (sole c + 1))); [done|done| |done]. left. naive_solver.
Qed.

(** A run of one target and references to others. *)
Lemma carries_app ds u run rest t :
  Forall (λ r, er_target r = u) run → Forall (λ r, er_target r ≠ u) rest →
  carries ds (run ++ rest) t ↔ carries ds run t ∨ carries ds rest t.
Proof.
  intros Hrun Hrest. unfold carries, refs_to. rewrite filter_app. destruct (decide (t = u)) as [->|Htr].
  - fold (refs_to u rest). rewrite (refs_to_none _ rest), app_nil_r by done. naive_solver.
  - assert (filter (λ q, er_target q = t) run = []) as ->; [|naive_solver].
    apply refs_to_none. eapply Forall_impl; [exact Hrun|]. intros q ->. done.
Qed.

Lemma carries_excl ds u run rest t :
  Forall (λ r, er_target r = u) run → Forall (λ r, er_target r ≠ u) rest →
  ¬ (carries ds run t ∧ carries ds rest t).
Proof.
  intros Hrun Hrest [(_ & H1 & _) (_ & H2 & _)]. destruct (decide (t = u)) as [->|Htr].
  - apply H2. by apply refs_to_none.
  - apply H1, refs_to_none. eapply Forall_impl; [exact Hrun|]. intros q ->. done.
Qed.

Lemma carrier_runs_spec fuel node refs counts tally :
  length refs ≤ fuel → sorted_refs refs → (∀ r, r ∈ refs → er_target r < n) →
  (∀ d, d ∈ nd_deps node → d < n) → length counts = n → tally_ok tally →
  ∃ counts' tally', carrier_runs fuel closure node refs (counts, tally) = Ok (counts', tally') ∧
    adds (nd_deps node) refs counts counts' ∧ tally_ok tally'.
Proof.
  revert refs counts tally. induction fuel as [|fuel IH]; intros [|r refs] counts tally Hf Hs Hin Hds Hlen Htally; simpl in Hf; try lia.
  1-2: exists counts, tally; split_and!; [done| |done]; split; [done|]; intros t c Hc; exists c; split; [done|];
    assert (¬ carries (nd_deps node) [] t) by (intros (_ & H & _); by apply H); split; right; naive_solver.
  cbn [carrier_runs]. destruct (same_target (er_target r) (r :: refs)) as [run rest] eqn:E.
  destruct (same_target_spec _ _ _ _ _ Hs eq_refl E) as (Heq & Hne & Hrun & Hrest & Hsr). rewrite Heq in Hin |- *.
  destruct (carrier_run_spec node (er_target r) run counts tally) as (counts1 & tally1 & -> & [Hl1 Ha1] & Ht1);
    [|done..|]. { apply (Hin r). rewrite <- Heq. by left. }
  cbn [mbind outcome_bind].
  destruct (IH rest counts1 tally1) as (counts2 & tally2 & -> & [Hl2 Ha2] & Ht2); [|done| |done|lia|done|].
  { apply (f_equal length) in Heq. rewrite length_app in Heq. simpl in Heq. destruct run; [done|]. simpl in Heq. lia. }
  { intros q Hq. apply Hin. set_solver. }
  exists counts2, tally2. split_and!; [done| |done]. split; [lia|]. intros t c Hc.
  destruct (Ha1 t c Hc) as (c1 & Hc1 & Hp1 & Hs1). destruct (Ha2 t c1 Hc1) as (c2 & Hc2 & Hp2 & Hs2).
  exists c2. split; [done|].
  pose proof (carries_app (nd_deps node) _ _ _ t Hrun Hrest) as Hiff.
  pose proof (carries_excl (nd_deps node) _ _ _ t Hrun Hrest) as Hexcl.
  unfold plus in *. rewrite Hiff. split; [clear Hs1 Hs2|clear Hp1 Hp2].
  - destruct Hp1 as [[? E1]|[? E1]], Hp2 as [[? E2]|[? E2]]; [exfalso; tauto|left|left|right]; (split; [tauto|lia]).
  - destruct Hs1 as [[? E1]|[? E1]], Hs2 as [[? E2]|[? E2]]; [exfalso; tauto|left|left|right]; (split; [tauto|lia]).
Qed.

(** ** All nodes *)

Definition refs_wf : Prop :=
  ∀ id node, pl_nodes plan !! id = Some node →
    distinct_refs (nd_env_refs node) ∧ ∀ r, r ∈ nd_env_refs node → er_target r < n.

(** The dependents that name [t] only in carriers, and those among them with no
    other route to it. *)
Definition carried_by (t x : nat) : Prop :=
  ∃ node, pl_nodes plan !! x = Some node ∧ carries (nd_deps node) (nd_env_refs node) t.
Definition solely_by (t x : nat) : Prop :=
  ∃ node, pl_nodes plan !! x = Some node ∧ carries (nd_deps node) (nd_env_refs node) t ∧
    ¬ other_route (nd_deps node) t.

Lemma size_is_plus (P : nat → Prop) c c' k :
  k < n → size_is n c (λ x, x < k ∧ P x) → plus c c' (P k) → size_is n c' (λ x, x < S k ∧ P x).
Proof.
  intros Hk (l & Hnd & Hl & <-) [[HP ->]|[HP ->]].
  - exists (l ++ [k]). split_and!.
    + apply NoDup_app. split_and!; [done| |apply NoDup_singleton]. intros x Hx%Hl ->%list_elem_of_singleton. lia.
    + intros x. rewrite elem_of_app, list_elem_of_singleton, Hl. split.
      * intros [(? & ? & ?)| ->]; (split_and!; [lia|lia|done]).
      * intros (? & ? & ?). destruct (decide (x = k)) as [->|]; [by right|]. left. split_and!; [done|lia|done].
    + rewrite length_app. done.
  - exists l. split_and!; [done| |done]. intros x. rewrite Hl. split.
    + intros (? & ? & ?). split_and!; [done|lia|done].
    + intros (? & ? & ?). split_and!; [done| |done]. destruct (decide (x = k)) as [->|]; [done|lia].
Qed.

Definition counts_ok (k : nat) (counts : list CarrierCounts) : Prop :=
  length counts = n ∧ ∀ t c, counts !! t = Some c →
    size_is n (carried c) (λ x, x < k ∧ carried_by t x) ∧ size_is n (sole c) (λ x, x < k ∧ solely_by t x).

Lemma counts_ok_step k node counts counts' :
  pl_nodes plan !! k = Some node → counts_ok k counts →
  adds (nd_deps node) (nd_env_refs node) counts counts' → counts_ok (S k) counts'.
Proof.
  intros Hk [Hlen Hok] [Hlen' Hadd]. assert (k < n) as Hkn by (by eapply lookup_lt_Some).
  split; [lia|]. intros t c' Hc'. destruct (lookup_lt_is_Some_2 counts t) as [c Hc].
  { apply lookup_lt_Some in Hc'. lia. }
  destruct (Hok t c Hc) as [H1 H2]. destruct (Hadd t c Hc) as (c2 & Hc2 & Hp1 & Hp2). simplify_eq.
  split.
  - apply (size_is_plus (carried_by t) (carried c)); [done..|]. assert (carried_by t k ↔ carries (nd_deps node) (nd_env_refs node) t) as Hiff.
    { unfold carried_by. rewrite Hk. naive_solver. }
    unfold plus in *. rewrite Hiff. done.
  - apply (size_is_plus (solely_by t) (sole c)); [done..|]. assert (solely_by t k ↔ carries (nd_deps node) (nd_env_refs node) t ∧ ¬ other_route (nd_deps node) t) as Hiff.
    { unfold solely_by. rewrite Hk. naive_solver. }
    unfold plus in *. rewrite Hiff. done.
Qed.

Lemma tally_runs_total fuel tally top :
  length tally ≤ fuel → tally_ok tally → length top = n → ∃ top', tally_runs fuel tally top = Ok top' ∧ length top' = n.
Proof.
  revert tally top. induction fuel as [|fuel IH]; intros [|[t k] tally] top Hf Hok Hlen; simpl in Hf; try lia.
  1-2: by exists top.
  inversion Hok as [|? ? Ht Hok']; subst. simpl in Ht.
  cbn [tally_runs]. destruct (lookup_lt_is_Some_2 top t) as [best Hbest]; [lia|].
  unfold index. rewrite Hbest. cbn [unwrap mbind outcome_bind].
  assert (1 ≤ length (take_while_eq (t, k) ((t, k) :: tally))) as Hn.
  { cbn [take_while_eq]. rewrite decide_True by done. simpl. lia. }
  apply IH.
  - rewrite length_drop. cbn [length] in *. lia.
  - by apply Forall_drop.
  - case_match; [by rewrite length_insert|done].
Qed.

Lemma carrier_counts_spec :
  refs_wf → ∃ a, carrier_counts plan closure = Ok a ∧ counts_ok n (per_node a) ∧ length (top a) = n.
Proof.
  intros Hrefs. unfold carrier_counts.
  destruct (foldM_total (λ pre st, counts_ok (length pre) st.1 ∧ tally_ok st.2)
    (λ st node, carrier_runs (length (nd_env_refs node)) closure node (nd_env_refs node) st)
    (pl_nodes plan) (replicate n (mkCounts 0 0), [])) as ([counts tally] & -> & Hok & Htally).
  - split; [|constructor]. split; [cbn [fst]; by rewrite length_replicate|]. simpl. intros t c [-> _]%lookup_replicate.
    simpl. split; (exists []; split_and!; [constructor|intros x; split; [set_solver|lia]|done]).
  - intros pre node post [counts tally] Heq [Hok Ht]. simpl in Hok, Ht.
    assert (pl_nodes plan !! length pre = Some node) as Hk by (rewrite Heq; by apply list_lookup_middle).
    destruct (Hrefs _ _ Hk) as [[Hs _] Hin]. destruct (pw_deps _ Hwf _ _ Hk) as [_ Hds].
    destruct (carrier_runs_spec (length (nd_env_refs node)) node (nd_env_refs node) counts tally)
      as (counts' & tally' & -> & Hadd & Ht'); [done|done|done|done|apply Hok|done|].
    eexists; split; [done|]. split; [|done]. rewrite length_app, Nat.add_1_r. by eapply counts_ok_step.
  - cbn [mbind outcome_bind fst snd] in *.
    destruct (tally_runs_total (length (merge_sort pair_le tally)) (merge_sort pair_le tally) (replicate n None))
      as (top' & -> & Hl); [done| |by rewrite length_replicate|].
    { unfold tally_ok. by rewrite merge_sort_Permutation. }
    cbn [mbind outcome_bind]. eexists; split; [done|]. done.
Qed.
End carriers.
