(* ===== verification/NixDagCompute.v ===== *)
(** [Metrics::compute] of [packages/nix-dag/src/graph.rs] as a whole.  The top
    carrier of a node, [carrier_counts]: the tally counts, per target and variable,
    the nodes that carry the target in it, and the scan of its sorted runs finds
    the first of the most frequent variables.  Then: plans are well-formed once
    their reverse edges are indexed, and the metrics are what they are named
    after. *)

From stdpp Require Import base gmap sets list strings sorting relations.
From S2P Require Import Prelude NixDag NixDagProps NixDagMetrics.

(** * Occurrences *)

Definition occ (p : nat * nat) (tally : list (nat * nat)) : nat := length (filter (λ q, q = p) tally).

Lemma occ_app p a b : occ p (a ++ b) = occ p a + occ p b.
Proof. unfold occ. by rewrite filter_app, length_app. Qed.

Lemma occ_none p tally : p ∉ tally → occ p tally = 0.
Proof.
  intros Hp. unfold occ. replace (filter (λ q, q = p) tally) with (@nil (nat * nat)); [done|].
  symmetry. apply elem_of_nil_inv. by intros q [-> Hq]%list_elem_of_filter.
Qed.

Lemma occ_all p tally : Forall (λ q, q = p) tally → occ p tally = length tally.
Proof. unfold occ. induction 1 as [|q l Hq _ IH]; [done|]. rewrite filter_cons_True by done. simpl. by rewrite IH. Qed.

Lemma occ_replicate p m : occ p (replicate m p) = m.
Proof. rewrite occ_all; [by rewrite length_replicate|]. apply Forall_forall. by intros q Hq%elem_of_replicate_inv. Qed.

Lemma occ_nodup p tally : NoDup tally → occ p tally = if decide (p ∈ tally) then 1 else 0.
Proof.
  intros Hnd. case_decide as Hp; [|by apply occ_none].
  apply list_elem_of_split in Hp as (a & b & ->). apply NoDup_app in Hnd as (Ha & Hab & Hb).
  apply NoDup_cons in Hb as [Hb _]. change (p :: b) with ([p] ++ b). rewrite !occ_app, (occ_none p a), (occ_none p b) by set_solver.
  rewrite occ_all by (by constructor). simpl. lia.
Qed.

Lemma occ_perm p a b : a ≡ₚ b → occ p a = occ p b.
Proof. intros H. unfold occ. by rewrite H. Qed.

(** * The tally *)

Section tally.
Context (plan : Plan).
Local Abbreviation n := (plan_len plan).

(** The reference is in the variable [k]. *)
Definition in_variable (refs : list EnvRef) (t k : nat) : Prop := ∃ r, r ∈ refs ∧ er_target r = t ∧ er_key r = k.

(** The nodes that carry [t] in the variable [k]. *)
Definition carried_in (t k x : nat) : Prop :=
  ∃ node, pl_nodes plan !! x = Some node ∧ carries (nd_deps node) (nd_env_refs node) t ∧
    in_variable (nd_env_refs node) t k.

(** What one node adds to the tally. *)
Definition tallies (ds : list nat) (refs : list EnvRef) (more : list (nat * nat)) : Prop :=
  NoDup more ∧ ∀ t k, (t, k) ∈ more ↔ carries ds refs t ∧ in_variable refs t k.

Lemma carrier_run_tally closure node t run counts tally counts' tally' :
  run ≠ [] → Forall (λ r, er_target r = t) run → NoDup ((λ r, (er_target r, er_key r)) <$> run) →
  carrier_run closure node t run (counts, tally) = Ok (counts', tally') →
  ∃ more, tally' = tally ++ more ∧ tallies (nd_deps node) run more.
Proof.
  intros Hne Hrun Hnd. unfold carrier_run.
  assert (carries (nd_deps node) run t ↔ forallb er_carrier run && bool_decide (t ∈ nd_deps node) = true) as Hc.
  { unfold carries. rewrite refs_to_all, andb_true_iff, bool_decide_eq_true by done. naive_solver. }
  assert (∀ u, carries (nd_deps node) run u → u = t) as Hother.
  { intros u (_ & Hr & _). destruct (decide (u = t)) as [|Hu]; [done|]. exfalso. apply Hr, refs_to_none.
    eapply Forall_impl; [exact Hrun|]. intros r ->. done. }
  destruct (forallb er_carrier run && bool_decide (t ∈ nd_deps node)); last first.
  { intros [= <- <-]. exists []. split; [by rewrite app_nil_r|]. split; [constructor|]. intros u k.
    split; [by intros ?%elem_of_nil|]. intros [Hu _]. pose proof (Hother u Hu) as ->. by apply Hc in Hu. }
  intros H. exists ((λ r, (t, er_key r)) <$> run).
  assert ((λ r, (er_target r, er_key r)) <$> run = (λ r, (t, er_key r)) <$> run) as E.
  { apply list_fmap_ext. intros i r Hr. by rewrite (Forall_lookup_1 _ _ _ _ Hrun Hr). }
  split.
  - simplify_outcome. destruct a0; simplify_outcome; [by injection H as _ <-|by injection H as _ <-].
  - split; [by rewrite <- E|]. intros u k. rewrite list_elem_of_fmap. unfold in_variable. split.
    + intros (r & [= -> ->] & Hr). split; [by apply Hc|]. exists r. rewrite Forall_forall in Hrun. auto.
    + intros [Hu (r & Hr & Ht & Hk)]. exists r. by rewrite Hk, (Hother u Hu).
Qed.

Lemma carrier_runs_tally fuel closure node refs counts tally counts' tally' :
  distinct_refs refs → carrier_runs fuel closure node refs (counts, tally) = Ok (counts', tally') →
  ∃ more, tally' = tally ++ more ∧ tallies (nd_deps node) refs more.
Proof.
  revert refs counts tally. induction fuel as [|fuel IH]; intros [|r refs] counts tally [Hs Hnd]; cbn [carrier_runs];
    [|done| |].
  1-2: intros [= <- <-]; exists []; split; [by rewrite app_nil_r|]; split; [constructor|]; intros t k;
    (split; [by intros ?%elem_of_nil|]); intros [(_ & H & _) _]; by destruct H.
  destruct (same_target (er_target r) (r :: refs)) as [run rest] eqn:E.
  destruct (same_target_spec _ _ _ _ _ Hs eq_refl E) as (Heq & Hne & Hrun & Hrest & Hsr). rewrite Heq in Hnd |- *.
  rewrite fmap_app in Hnd. apply NoDup_app in Hnd as (Hnd1 & _ & Hnd2).
  intros H. apply bind_Ok in H as ([counts1 tally1] & H1 & H2).
  apply carrier_run_tally in H1 as (more1 & -> & Hm1 & Hin1); [|done..].
  apply IH in H2 as (more2 & -> & Hm2 & Hin2); [|by split].
  pose proof (λ t, carries_app (nd_deps node) _ _ _ t Hrun Hrest) as Hiff.
  pose proof (λ t, carries_excl (nd_deps node) _ _ _ t Hrun Hrest) as Hexcl.
  exists (more1 ++ more2). split; [by rewrite app_assoc|]. split.
  - apply NoDup_app. split_and!; [done| |done]. intros [t k] [H1 _]%Hin1 [H2 _]%Hin2. by apply (Hexcl t).
  - intros t k. rewrite elem_of_app, Hin1, Hin2, Hiff. unfold in_variable.
    rewrite Forall_forall in Hrun. rewrite Forall_forall in Hrest. split.
    + intros [[Ht (q & ? & ?)]|[Ht (q & ? & ?)]]; (split; [tauto|]); exists q; set_solver.
    + intros [[Ht|Ht] (q & [Hq|Hq]%elem_of_app & Hqt & Hqk)].
      * left. eauto.
      * exfalso. destruct Ht as (_ & Hr & _). apply Hr, refs_to_none. rewrite Forall_forall. intros p Hp Hpt.
        apply (Hrest q Hq). rewrite Hqt, <- Hpt. by apply Hrun.
      * exfalso. destruct Ht as (_ & Hr & _). apply Hr, refs_to_none. rewrite Forall_forall. intros p Hp Hpt.
        apply (Hrest p Hp). rewrite Hpt, <- Hqt. by apply Hrun.
      * right. eauto.
Qed.

Lemma nodes_tally closure counts tally :
  (∀ id node, pl_nodes plan !! id = Some node → distinct_refs (nd_env_refs node)) →
  foldM (λ st node, carrier_runs (length (nd_env_refs node)) closure node (nd_env_refs node) st)
    (replicate n (mkCounts 0 0), []) (pl_nodes plan) = Ok (counts, tally) →
  ∀ t k, size_is n (occ (t, k) tally) (carried_in t k).
Proof.
  intros Hrefs H t k.
  assert (size_is n (occ (t, k) tally) (λ x, x < n ∧ carried_in t k x)) as (l & Hnd & Hin & Hlen).
  { eapply (foldM_inv (λ pre st, size_is n (occ (t, k) st.2) (λ x, x < length pre ∧ carried_in t k x))) in H; [exact H| |].
    { exists []. split_and!; [constructor| |done]. intros x. simpl. split; [by intros ?%elem_of_nil|lia]. }
    clear H counts tally.
    intros pre node post [c1 t1] [c2 t2] Heq IH Hrun. cbn [snd] in *.
    assert (pl_nodes plan !! length pre = Some node) as Hk by (rewrite Heq; by apply list_lookup_middle).
    apply carrier_runs_tally in Hrun as (more & -> & Hmore & Hin); [|by eapply Hrefs].
    rewrite occ_app, (occ_nodup _ more) by done. rewrite length_app, Nat.add_1_r.
    apply (size_is_plus plan (carried_in t k) (occ (t, k) t1)); [by eapply lookup_lt_Some|done|].
    assert (carried_in t k (length pre) ↔ (t, k) ∈ more) as Hiff.
    { rewrite Hin. unfold carried_in. rewrite Hk. naive_solver. }
    unfold plus. rewrite Hiff. case_decide; [by left|right; split; [done|lia]]. }
  exists l. split_and!; [done| |done]. intros x. rewrite Hin. tauto.
Qed.
End tally.

Lemma size_is_unique n c c' P : size_is n c P → size_is n c' P → c = c'.
Proof.
  intros (l & Hnd & Hl & <-) (l' & Hnd' & Hl' & <-). apply Permutation_length, NoDup_Permutation; [done..|].
  intros x. by rewrite Hl, Hl'.
Qed.

(** * The runs of the sorted tally *)

#[export] Instance pair_le_antisymm : AntiSymm (=) pair_le.
Proof. intros [a b] [c d]. unfold pair_le. simpl. intros ? ?. f_equal; lia. Qed.
#[export] Instance pair_le_total : Total pair_le.
Proof. intros a b. unfold pair_le. lia. Qed.
#[export] Instance pair_le_trans : Transitive pair_le.
Proof. intros a b c. unfold pair_le. lia. Qed.

(** The first of the most frequent keys of [t], if there is one. *)
Definition best_of (tally : list (nat * nat)) (t : nat) (best : option TopCarrier) : Prop :=
  match best with
  | None => ∀ k, occ (t, k) tally = 0
  | Some b => 0 < tc_count b ∧ occ (t, tc_key b) tally = tc_count b ∧
      ∀ k, occ (t, k) tally ≤ tc_count b ∧ (occ (t, k) tally = tc_count b → tc_key b ≤ k)
  end.

Lemma best_of_ext l l' t best : (∀ k, occ (t, k) l' = occ (t, k) l) → best_of l t best → best_of l' t best.
Proof. intros H. unfold best_of. destruct best; setoid_rewrite H; done. Qed.

(** A run longer than the best so far replaces it. *)
Lemma best_of_run pre t key m best :
  (∀ k, (t, k) ∈ pre → k ≤ key) → (t, key) ∉ pre → 0 < m → best_of pre t best →
  best_of (pre ++ replicate m (t, key)) t
    (if match best with Some b => bool_decide (tc_count b < m) | None => true end then Some (mkTop key m) else best).
Proof.
  intros Hle Hkey Hm Hbest.
  assert (∀ k, occ (t, k) (pre ++ replicate m (t, key)) = if decide (k = key) then m else occ (t, k) pre) as Hocc.
  { intros k. rewrite occ_app. case_decide as Hk.
    - subst. by rewrite (occ_none _ pre), occ_replicate.
    - rewrite (occ_none _ (replicate m _)); [lia|]. intros [= ->]%elem_of_replicate_inv. done. }
  destruct best as [b|]; [case_bool_decide as Hlt|]; unfold best_of in *; setoid_rewrite Hocc; simpl.
  - destruct Hbest as (_ & _ & Hb). rewrite decide_True by done. split_and!; [done|done|]. intros k.
    case_decide; [lia|]. destruct (Hb k). lia.
  - destruct Hbest as (Hpos & Hb0 & Hb).
    assert ((t, tc_key b) ∈ pre) as Hin.
    { destruct (decide ((t, tc_key b) ∈ pre)) as [|Hn]; [done|]. apply occ_none in Hn. lia. }
    rewrite decide_False by (intros E; by rewrite E in Hin). split_and!; [done|done|]. intros k.
    case_decide as Hk; [|apply Hb]. subst. specialize (Hle _ Hin). lia.
  - rewrite decide_True by done. split_and!; [done|done|]. intros k. rewrite Hbest. case_decide; lia.
Qed.

Lemma take_while_eq_split p tally :
  StronglySorted pair_le tally → Forall (pair_le p) tally →
  ∃ rest, tally = replicate (length (take_while_eq p tally)) p ++ rest ∧
    drop (length (take_while_eq p tally)) tally = rest ∧ p ∉ rest.
Proof.
  induction 1 as [|q tally Hs IH Hall]; intros Hp; simpl; [exists []; split_and!; [done|done|apply not_elem_of_nil]|].
  inversion Hp as [|? ? Hpq Hp']; subst. case_decide as Hq.
  - subst. destruct (IH Hp') as (rest & H1 & H2 & H3). exists rest. simpl. split_and!; [by f_equal|done|done].
  - exists (q :: tally). split_and!; [done|done|]. intros [->|Hin]%elem_of_cons; [done|].
    rewrite Forall_forall in Hall. specialize (Hall p Hin). apply Hq. destruct p, q. unfold pair_le in *. simpl in *. f_equal; lia.
Qed.

Lemma tally_runs_best fuel tally pre top top' :
  StronglySorted pair_le (pre ++ tally) → (∀ p, p ∈ pre → p ∉ tally) →
  (∀ t o, top !! t = Some o → best_of pre t o) → tally_runs fuel tally top = Ok top' →
  ∀ t o, top' !! t = Some o → best_of (pre ++ tally) t o.
Proof.
  revert tally pre top. induction fuel as [|fuel IH]; intros [|[t0 k0] tally] pre top Hs Hdis Htop; cbn [tally_runs];
    [|done| |].
  1-2: intros [= <-]; by rewrite app_nil_r.
  intros H. apply bind_Ok in H as (best & Hb%unwrap_Ok & H). revert H.
  set (l := (t0, k0) :: tally) in *.
  assert (StronglySorted pair_le l) as Hsl by (by eapply StronglySorted_app_1_r).
  assert (Forall (pair_le (t0, k0)) l) as Hle.
  { inversion Hsl as [|? ? _ Hall]; subst. constructor; [right; done|done]. }
  destruct (take_while_eq_split (t0, k0) l Hsl Hle) as (rest & Hl & -> & Hrest).
  assert (0 < length (take_while_eq (t0, k0) l)) as Hm.
  { unfold l. cbn [take_while_eq]. rewrite decide_True by done. simpl. lia. }
  revert Hl Hm. generalize (length (take_while_eq (t0, k0) l)). intros m Hl Hm H. rewrite Hl in Hs, Hdis |- *.
  rewrite app_assoc in Hs |- *. refine (IH rest _ _ Hs _ _ H).
  - intros p [Hp|Hp]%elem_of_app; [intros Hr; apply (Hdis p Hp); set_solver|].
    apply elem_of_replicate_inv in Hp as ->. done.
  - intros t o Ho. destruct (decide (t = t0)) as [->|Ht].
    + assert (best_of (pre ++ replicate m (t0, k0)) t0
        (if match best with Some b => bool_decide (tc_count b < m) | None => true end then Some (mkTop k0 m) else best)) as Hbest.
      { apply best_of_run; [| |done|by apply Htop].
        - intros k Hk. rewrite <- app_assoc in Hs. apply StronglySorted_app in Hs as (Hs & _).
          specialize (Hs (t0, k) (t0, k0) Hk). assert ((t0, k0) ∈ replicate m (t0, k0) ++ rest) as Hin.
          { apply elem_of_app. left. apply elem_of_replicate. split; [done|lia]. }
          specialize (Hs Hin). unfold pair_le in Hs. simpl in Hs. lia.
        - intros Hk. apply (Hdis _ Hk), elem_of_app. left. apply elem_of_replicate. split; [done|lia]. }
      destruct (match best with Some b => bool_decide (tc_count b < m) | None => true end).
      * rewrite list_lookup_insert_eq in Ho by (by eapply lookup_lt_Some). by injection Ho as <-.
      * rewrite Hb in Ho. by injection Ho as <-.
    + apply (best_of_ext pre).
      * intros k. rewrite occ_app, (occ_none _ (replicate _ _)); [lia|]. intros [= -> ->]%elem_of_replicate_inv. done.
      * apply Htop. destruct (match best with Some b => bool_decide (tc_count b < m) | None => true end); [|done].
        by rewrite list_lookup_insert_ne in Ho.
Qed.

(** * The top carriers *)

Section top.
Context (plan : Plan) (Hwf : plan_wf plan).
Local Abbreviation n := (plan_len plan).
Context (closure : Reachability) (Hclosure : holds n closure (tc (dep_of plan))).

(** The variable most of the nodes that carry [t] carry it in, the first of them
    when several do, with their number. *)
Definition top_ok (tops : list (option TopCarrier)) : Prop :=
  length tops = n ∧ ∀ t best, tops !! t = Some best →
  match best with
  | None => ∀ x, ¬ carried_by plan t x
  | Some b => 0 < tc_count b ∧ size_is n (tc_count b) (carried_in plan t (tc_key b)) ∧
      ∀ k c, size_is n c (carried_in plan t k) → c ≤ tc_count b ∧ (c = tc_count b → tc_key b ≤ k)
  end.

Lemma carried_by_in t x : carried_by plan t x → x < n ∧ ∃ k, carried_in plan t k x.
Proof.
  intros (node & Hx & Hc). split; [by eapply lookup_lt_Some|].
  destruct Hc as (Ht & Hr & Hall). destruct (refs_to t (nd_env_refs node)) as [|r l] eqn:E; [done|].
  assert (r ∈ refs_to t (nd_env_refs node)) as [Hrt Hrin]%list_elem_of_filter by (rewrite E; left).
  exists (er_key r), node. split_and!; [done| |by exists r]. unfold carries. by rewrite E.
Qed.

Lemma carrier_counts_top a : refs_wf plan → carrier_counts plan closure = Ok a → top_ok (top a).
Proof.
  intros Hrefs Ha. destruct (carrier_counts_spec plan Hwf closure Hclosure Hrefs) as (a' & Ha' & _ & Hlen).
  assert (a' = a) as -> by congruence. split; [done|]. clear Ha'.
  unfold carrier_counts in Ha. apply bind_Ok in Ha as ([counts tally] & Hn & Ha).
  apply bind_Ok in Ha as (tops & Ht & [= <-]). simpl.
  pose proof (nodes_tally plan closure counts tally (λ id node H, proj1 (Hrefs id node H)) Hn) as Htally.
  assert (∀ t o, tops !! t = Some o → best_of ([] ++ merge_sort pair_le tally) t o) as Hbest.
  { refine (tally_runs_best _ _ [] _ _ (StronglySorted_merge_sort pair_le tally) _ _ Ht); [by intros p ?%elem_of_nil|].
    by intros t o [-> _]%lookup_replicate. }
  intros t o Ho. specialize (Hbest t o Ho). simpl in Hbest.
  assert (∀ k, occ (t, k) (merge_sort pair_le tally) = occ (t, k) tally) as Hocc.
  { intros k. apply occ_perm, merge_sort_Permutation. }
  apply (best_of_ext _ tally) in Hbest; [|done]. destruct o as [b|].
  - destruct Hbest as (Hpos & Hb0 & Hb). split_and!; [done|rewrite <- Hb0; apply Htally|].
    intros k c Hc. rewrite (size_is_unique _ _ _ _ Hc (Htally t k)). apply Hb.
  - intros x [Hx [k Hk]]%carried_by_in. destruct (Htally t k) as (l & _ & Hin & Hlen'). rewrite Hbest in Hlen'.
    destruct l; [|done]. by apply (not_elem_of_nil x), Hin.
Qed.
End top.

(** * Plans are well-formed *)

Lemma StronglySorted_weaken {A} (R S : relation A) l :
  (∀ x y, R x y → S x y) → StronglySorted R l → StronglySorted S l.
Proof. intros HRS. induction 1; constructor; [done|]. eapply Forall_impl; [done|]. auto. Qed.

Lemma dedup_after_sorted {A K} `{EqDecision K} (f : A → K) (R : relation K) `{!AntiSymm (=) R} k l :
  StronglySorted (λ x y, R (f x) (f y)) l → Forall (λ x, R k (f x)) l →
  StronglySorted (λ x y, R (f x) (f y) ∧ f x ≠ f y) (dedup_after f k l) ∧
  Forall (λ x, R k (f x) ∧ k ≠ f x) (dedup_after f k l).
Proof.
  revert k. induction l as [|x l IH]; intros k Hs Hk; simpl; [split; constructor|].
  inversion Hs as [|? ? Hs' Hx]; subst. inversion Hk as [|? ? Hkx Hk']; subst. case_decide as Heq; [by apply IH|].
  destruct (IH (f x) Hs' Hx) as [H1 H2]. split; [by constructor|]. constructor; [done|].
  rewrite Forall_forall in H2, Hk' |- *. intros z Hz. destruct (H2 z Hz) as [Hxz Hne].
  assert (z ∈ l) as Hzl.
  { clear -Hz. revert Hz. generalize (f x). induction l as [|y l IH]; intros k; simpl; [done|].
    case_decide; [intros H'; right; by eapply IH|]. intros [->|H']%elem_of_cons; [by left|right; by eapply IH]. }
  split; [by apply Hk'|]. intros ->. apply Heq. by apply (anti_symm R).
Qed.

Lemma elem_of_dedup_after {A K} `{EqDecision K} (f : A → K) k l x :
  x ∈ l → f x = k ∨ ∃ y, y ∈ dedup_after f k l ∧ f y = f x.
Proof.
  revert k. induction l as [|y l IH]; intros k; simpl; [by intros ?%elem_of_nil|].
  intros [->|Hx]%elem_of_cons; case_decide as Hy; [by left|right; exists y; split; [left|done]|by apply IH|].
  destruct (IH (f y) Hx) as [->|(z & ? & ?)]; right; [exists y; split; [left|done]|exists z; split; [by right|done]].
Qed.

Lemma dedup_after_subset {A K} `{EqDecision K} (f : A → K) k l x : x ∈ dedup_after f k l → x ∈ l.
Proof.
  revert k. induction l as [|y l IH]; intros k; simpl; [done|].
  case_decide; [intros H'; right; by eapply IH|]. intros [->|H']%elem_of_cons; [by left|right; by eapply IH].
Qed.

Lemma dedup_by_subset {A K} `{EqDecision K} (f : A → K) l x : x ∈ dedup_by f l → x ∈ l.
Proof.
  destruct l as [|y l]; [done|]. simpl. intros [->|Hx]%elem_of_cons; [by left|right].
  by apply (dedup_after_subset f (f y)).
Qed.

(** Deduplicating a list sorted by the key leaves one element per key. *)
Lemma dedup_by_spec {A K} `{EqDecision K} (f : A → K) (R : relation K) `{!AntiSymm (=) R} l :
  StronglySorted (λ x y, R (f x) (f y)) l →
  StronglySorted (λ x y, R (f x) (f y) ∧ f x ≠ f y) (dedup_by f l) ∧
  (∀ x, x ∈ dedup_by f l → x ∈ l) ∧ ∀ x, x ∈ l → ∃ y, y ∈ dedup_by f l ∧ f y = f x.
Proof.
  destruct l as [|x l]; simpl; intros Hs.
  { split_and!; [constructor|done|]. by intros ? ?%elem_of_nil. }
  inversion Hs as [|? ? Hs' Hx]; subst. destruct (dedup_after_sorted f R (f x) l Hs' Hx) as [H1 H2].
  split_and!; [by constructor| |].
  - intros y. apply (dedup_by_subset f (x :: l)).
  - intros y [->|Hy]%elem_of_cons; [exists x; split; [left|done]|].
    destruct (elem_of_dedup_after f (f x) l y Hy) as [->|(z & ? & ?)];
      [exists x; split; [left|done]|exists z; split; [by right|done]].
Qed.

Lemma sorted_NoDup l : StronglySorted lt l → NoDup l.
Proof.
  induction 1 as [|x l _ IH Hall]; [constructor|]. constructor; [|done]. intros Hx.
  rewrite Forall_forall in Hall. specialize (Hall x Hx). lia.
Qed.

(** The dependencies of a node, indexed: sorted, without repetitions. *)
Lemma index_deps_spec inputs :
  StronglySorted lt (index_deps inputs) ∧ ∀ d, d ∈ index_deps inputs ↔ d ∈ inputs.
Proof.
  unfold index_deps. destruct (dedup_by_spec id le (merge_sort le inputs)) as (Hs & Hin & Hex).
  { apply StronglySorted_merge_sort; apply _. }
  split.
  - eapply StronglySorted_weaken; [|exact Hs]. unfold id. intros x y [??]. lia.
  - intros d. split; [intros Hd%Hin; by rewrite merge_sort_Permutation in Hd|].
    intros Hd. destruct (Hex d) as (y & ? & Hy); [by rewrite merge_sort_Permutation|].
    unfold id in Hy. by subst.
Qed.

Lemma push_ats (id : nat) ds dependents :
  NoDup ds → (∀ d, d ∈ ds → d < length dependents) →
  ∃ dependents', foldM (λ dependents dep, push_at dependents dep id) dependents ds = Ok dependents' ∧
    length dependents' = length dependents ∧
    ∀ d l, dependents !! d = Some l → dependents' !! d = Some (if decide (d ∈ ds) then l ++ [id] else l).
Proof.
  intros Hnd Hds.
  destruct (foldM_total (λ pre dependents', length dependents' = length dependents ∧
      ∀ d l, dependents !! d = Some l → dependents' !! d = Some (if decide (d ∈ pre) then l ++ [id] else l))
    (λ dependents dep, push_at dependents dep id) ds dependents) as (d' & ? & ? & ?); [| |by exists d'].
  - split; [done|]. intros d l Hd. by rewrite decide_False by set_solver.
  - intros pre d post deps' Heq [Hlen Hd'].
    destruct (lookup_lt_is_Some_2 dependents d) as [l Hl]; [apply Hds; subst; set_solver|].
    assert (d ∉ pre) as Hnin by (rewrite Heq in Hnd; by apply NoDup_middle in Hnd as [? _]).
    unfold push_at, index. rewrite (Hd' d l Hl), decide_False by done. simpl. eexists; split; [done|].
    split; [by rewrite length_insert|]. intros e k He. destruct (decide (e = d)) as [->|Hne].
    + simplify_eq. rewrite list_lookup_insert_eq by (rewrite Hlen; by eapply lookup_lt_Some).
      by rewrite decide_True by set_solver.
    + rewrite list_lookup_insert_ne, (Hd' e k He) by done.
      destruct (decide (e ∈ pre)); [by rewrite decide_True by set_solver|by rewrite decide_False by set_solver].
Qed.

(** What [build] establishes from dependencies that are nodes. *)
Lemma build_wf nodes keys unresolved :
  (∀ id node, nodes !! id = Some node →
    StronglySorted lt (nd_deps node) ∧ ∀ d, d ∈ nd_deps node → d < length nodes) →
  ∃ dependents, build_dependents nodes = Ok dependents ∧ plan_wf (mkPlan nodes dependents keys unresolved).
Proof.
  intros Hnodes. unfold build_dependents.
  destruct (foldM_total (λ pre dependents, length dependents = length nodes ∧
      ∀ d, d < length nodes → ∃ l, dependents !! d = Some l ∧ NoDup l ∧
        ∀ x, x ∈ l ↔ x < length pre ∧ ∃ node, nodes !! x = Some node ∧ d ∈ nd_deps node)
    (λ dependents '(id, node), foldM (λ dependents dep, push_at dependents dep id) dependents (nd_deps node))
    (imap pair nodes) (replicate (length nodes) [])) as (dependents & Hd & Hlen & Hrev).
  - split; [by rewrite length_replicate|]. intros d Hd. exists []. split; [by apply lookup_replicate_2|].
    split; [constructor|]. intros x. simpl. split; [set_solver|lia].
  - intros pre [id node] post dependents Heq [Hlen Hpre].
    assert (imap pair nodes !! length pre = Some (id, node)) as Hk by (rewrite Heq; by apply list_lookup_middle).
    rewrite list_lookup_imap in Hk. destruct (nodes !! length pre) as [node'|] eqn:Hn; [|done]. simpl in Hk.
    injection Hk as <- <-. destruct (Hnodes _ _ Hn) as [Hs Hds].
    destruct (push_ats (length pre) (nd_deps node') dependents) as (d' & -> & Hl' & Hd'); [by apply sorted_NoDup|rewrite Hlen; done|].
    eexists; split; [done|]. split; [lia|]. intros d Hd. destruct (Hpre d Hd) as (l & Hl & Hnd & Hin).
    rewrite (Hd' d l Hl). eexists; split; [done|]. rewrite length_app. simpl.
    case_decide as Hdin.
    + split.
      * apply NoDup_app. split_and!; [done| |apply NoDup_singleton].
        intros x Hx ->%list_elem_of_singleton. apply Hin in Hx. lia.
      * intros x. rewrite elem_of_app, list_elem_of_singleton, Hin. split.
        -- intros [[? ?]| ->]; [split; [lia|done]|]. split; [lia|]. eauto.
        -- intros [Hx Hex]. destruct (decide (x = length pre)); [by right|left]. split; [lia|done].
    + split; [done|]. intros x. rewrite Hin. split; intros [Hx Hex]; (split; [|done]); [lia|].
      destruct (decide (x = length pre)) as [->|]; [|lia]. exfalso. destruct Hex as (node & Hn' & ?). by simplify_eq.
  - exists dependents. split; [done|]. split; simpl.
    + intros id node Hn. destruct (Hnodes id node Hn) as [Hs ?]. split; [by apply sorted_NoDup|done].
    + done.
    + intros id l Hl. destruct (Hrev id) as (l' & Hl' & Hnd & Hin).
      { apply lookup_lt_Some in Hl. lia. }
      simplify_eq. split; [done|]. intros x. rewrite Hin, length_imap. unfold dep_of. simpl. split; [naive_solver|].
      intros (node & Hn & ?). split; [by eapply lookup_lt_Some|eauto].
    + intros id node Hn. by destruct (Hnodes id node Hn).
Qed.

(** * The metrics *)

(** Every number of a node is the size of the set it is named after. *)
Record metrics_ok (plan : Plan) (m : Metrics) : Prop := mkMetricsOk {
  mo_fan_out : Forall2 (λ id c, size_is (plan_len plan) c (λ x, dep_of plan x id)) (seq 0 (plan_len plan)) (fan_out m);
  mo_blast : Forall2 (λ id c, size_is (plan_len plan) c (λ x, tc (dep_of plan) x id)) (seq 0 (plan_len plan)) (blast m);
  mo_closure : Forall2 (λ id c, size_is (plan_len plan) c (tc (dep_of plan) id)) (seq 0 (plan_len plan)) (own_closure m);
  mo_carrier : counts_ok plan (plan_len plan) (carrier m);
  mo_top : top_ok plan (top_carrier_key m);
  mo_widths : ∃ depth, length depth = plan_len plan ∧
    (∀ x, x < plan_len plan → ∃ k, depth !! x = Some k ∧ longest plan x k) ∧
    length (widths m) = max_list depth + 1 ∧
    ∀ k, k ≤ max_list depth → widths m !! k = Some (length (filter (λ d, d = k) depth));
  mo_path : (plan_len plan = 0 → path m = []) ∧
    (0 < plan_len plan → ∃ x rest, path m = x :: rest ∧ chain plan x rest) ∧
    ∀ x l, chain plan x l → S (length l) ≤ length (path m) }.

Lemma max_nodes_u32 : (Z.of_nat MAX_NODES < 2 ^ 32)%Z.
Proof. unfold MAX_NODES. rewrite Nat2Z.inj_mul, Nat2Z.inj_pow. lia. Qed.

Lemma fan_out_spec plan :
  plan_wf plan → plan_len plan ≤ MAX_NODES →
  ∃ cs, foldM (λ out dependents, n ← count_u32 (length dependents); Ok (out ++ [n])) [] (pl_dependents plan) = Ok cs ∧
    Forall2 (λ id c, size_is (plan_len plan) c (λ x, dep_of plan x id)) (seq 0 (plan_len plan)) cs.
Proof.
  intros Hwf Hmax. exists (length <$> pl_dependents plan). split.
  - apply (foldM_collect (λ dependents : list nat, count_u32 (length dependents)) length (pl_dependents plan) []).
    intros l [id Hl]%list_elem_of_lookup.
    destruct (pw_rev _ Hwf _ _ Hl) as [Hnd Hin]. unfold count_u32. rewrite decide_True; [done|].
    assert (length l ≤ plan_len plan); [|pose proof max_nodes_u32; lia].
    rewrite <- (length_seq (plan_len plan) 0). apply submseteq_length, NoDup_submseteq; [done|].
    intros x Hx%Hin. apply elem_of_seq. apply (dep_of_bound plan x id Hwf) in Hx as [? _]. lia.
  - apply Forall2_same_length_lookup_2; [by rewrite length_fmap, length_seq, (pw_len _ Hwf)|].
    intros i id c Hid Hc. apply lookup_seq in Hid as [-> _]. rewrite list_lookup_fmap in Hc. simpl in Hc.
    destruct (pl_dependents plan !! i) as [l|] eqn:Hl; [|done]. simplify_eq/=.
    destruct (pw_rev _ Hwf _ _ Hl) as [Hnd Hin]. exists l. split_and!; [done| |done].
    intros x. rewrite Hin. split; [|by intros []]. intros Hx. split; [|done]. by apply (dep_of_bound plan x i Hwf).
Qed.

Lemma compute_spec plan :
  plan_wf plan → refs_wf plan → plan_len plan ≤ MAX_NODES →
  match compute plan with
  | Ok m => (∀ x, ¬ tc (dep_of plan) x x) ∧ metrics_ok plan m
  | Err e => ∃ cyclic x, e = NotADag cyclic (plan_len plan) ∧ tc (dep_of plan) x x
  | Panic => False
  end.
Proof.
  intros Hwf Hrefs Hmax. unfold compute. rewrite decide_False by lia.
  pose proof (topological_order_spec plan Hwf) as Ht.
  destruct (topological_order plan) as [order|e|]; cbn [mbind outcome_bind];
    [|destruct Ht as (c & x & ? & _ & ?); by exists c, x|done].
  destruct (blast_radius_spec plan Hwf order Ht) as (bl & -> & Hbl). cbn [mbind outcome_bind].
  destruct (closure_of_spec plan order Ht) as (closure & -> & Hcl). cbn [mbind outcome_bind].
  destruct (counts_spec plan closure _ Hcl) as (cl & -> & Hown). cbn [mbind outcome_bind].
  destruct (depths_spec plan Hwf order Ht) as (depth & -> & Hdl & Hdepth). cbn [mbind outcome_bind].
  destruct (level_widths_spec plan Hwf depth) as (ws & -> & Hwl & Hw). cbn [mbind outcome_bind].
  destruct (carrier_counts_spec plan Hwf closure Hcl Hrefs) as (ca & Ha & Hca & _).
  pose proof (carrier_counts_top plan Hwf closure Hcl ca Hrefs Ha) as Htop. rewrite Ha. cbn [mbind outcome_bind].
  destruct (critical_path_spec plan Hwf depth Hdepth) as (p & -> & Hp0 & Hp1 & Hp2).
  { intros x k. by apply (longest_bound plan Hwf order). }
  cbn [mbind outcome_bind].
  destruct (fan_out_spec plan Hwf Hmax) as (fo & -> & Hfo). cbn [mbind outcome_bind].
  split; [by eapply topo_acyclic|]. split; simpl; [done|done|done|done|done| |done]. by exists depth.
Qed.


(** C4. [Metrics::compute] on a well-formed plan (as [build] makes them) never
    panics: it refuses exactly the plans of more than MAX_NODES nodes and those
    with a dependency cycle, and otherwise
    its word-level bit matrices and loops report the reference numbers: fan-out,
    blast radius and closure of a node are the sizes of its sets of direct
    dependents, transitive dependents and transitive dependencies; its carrier
    counts those of the dependents that name it only in carrier variables, and of
    those with no other route to it; its top carrier is the first of the variables
    that most of them carry it in; the widths are the numbers of nodes per
    depth (longest chain below a node); and the critical path is a longest
    chain of the plan. *)
Theorem compute_correct plan :
  plan_wf plan → refs_wf plan →
  match compute plan with
  | Ok m => plan_len plan ≤ MAX_NODES ∧ (∀ x, ¬ tc (dep_of plan) x x) ∧ metrics_ok plan m
  | Err e =>
      MAX_NODES < plan_len plan ∧ e = TooManyNodes (plan_len plan) ∨
      plan_len plan ≤ MAX_NODES ∧ ∃ cyclic x, e = NotADag cyclic (plan_len plan) ∧ tc (dep_of plan) x x
  | Panic => False
  end.
Proof.
  intros Hwf Hrefs. destruct (decide (plan_len plan ≤ MAX_NODES)) as [Hmax|Hmax].
  - pose proof (compute_spec plan Hwf Hrefs Hmax) as Hc. destruct (compute plan); [done|by right|done].
  - unfold compute. rewrite decide_True by lia. left. split; [lia|done].
Qed.

(** The plan of the tests: two libraries, one of them carried to two nodes by an
    environment variable, and reached by one of these otherwise too. *)
Definition demo_nodes : list Node :=
  [mkNode [] [] [] []; mkNode [] [] [] []; mkNode [] [] [0; 1] [mkEnvRef 1 0 true];
   mkNode [] [] [0; 1; 5] [mkEnvRef 1 0 true]; mkNode [] [] [2; 3] []; mkNode [] [] [1] []].
Definition demo_plan : Plan := mkPlan demo_nodes [[2; 3]; [2; 3; 5]; [4]; [4]; []; [3]] [[]] 0.
Definition demo_metrics : Metrics :=
  mkMetrics [2; 3; 1; 1; 0; 1] [3; 4; 1; 1; 0; 2] [0; 0; 2; 3; 5; 1]
    [mkCounts 0 0; mkCounts 2 1; mkCounts 0 0; mkCounts 0 0; mkCounts 0 0; mkCounts 0 0]
    [None; Some (mkTop 0 2); None; None; None; None] [2; 2; 1; 1] [4; 3; 5; 1].

Lemma nix_demo_wf : plan_wf demo_plan ∧ refs_wf demo_plan.
Proof.
  split.
  - destruct (build_wf demo_nodes [[]] 0) as (d & Hd & Hwf).
    + intros id node Hid.
      do 6 (destruct id as [|id]; [injection Hid as <-; split;
        [repeat constructor; lia|intros d Hd; vm_compute; set_unfold in Hd; lia]|]). done.
    + assert (d = [[2; 3]; [2; 3; 5]; [4]; [4]; []; [3]]) as ->; [|done].
      vm_compute in Hd. by injection Hd.
  - intros id node Hid.
    do 6 (destruct id as [|id]; [injection Hid as <-; split;
      [split; [repeat constructor|apply (bool_decide_unpack _); by vm_compute]
      |intros r Hr; vm_compute; set_unfold in Hr; destruct_or?; subst; simpl; lia]|]). done.
Qed.

Lemma compute_correct_witness :
  compute demo_plan = Ok demo_metrics ∧ (∀ x, ¬ tc (dep_of demo_plan) x x) ∧ metrics_ok demo_plan demo_metrics.
Proof.
  split; [vm_compute; reflexivity|].
  pose proof (compute_correct demo_plan (proj1 nix_demo_wf) (proj2 nix_demo_wf)) as H.
  assert (compute demo_plan = Ok demo_metrics) as E by (vm_compute; reflexivity). rewrite E in H. exact (proj2 H).
Defined.

(** The error counts every node that cannot be ordered, not only those that
    "sit on a cycle": the third node merely depends on one. *)
Definition cyclic_plan : Plan := mkPlan [mkNode [] [] [1] []; mkNode [] [] [0] []; mkNode [] [] [0] []] [[1; 2]; [0]; []] [] 0.
Example cycle_count_overstates :
  topological_order cyclic_plan = Err (NotADag 3 3) ∧ ¬ tc (dep_of cyclic_plan) 2 2.
Proof.
  split; [vm_compute; reflexivity|].
  assert (∀ x y, tc (dep_of cyclic_plan) x y → y ≠ 2) as H; [|intros Ht; by apply H in Ht].
  induction 1 as [x y (node & Hn & Hy)|x y z _ _ IH]; [|done].
  destruct x as [|[|[|x]]]; simpl in Hn; simplify_eq; set_solver.
Qed.
