(* ===== verification/NixPlan.v ===== *)
(** Reading a Nix build plan: [Plan::build] of [packages/nix-dag/src/plan.rs],
    from the derivations [nix derivation show --recursive] prints to the nodes,
    the reverse edges and the store paths hidden in environment variables.

    A [BTreeMap] is the list of its entries in key order, a [HashMap] a finite
    map, strings are lists of chars.  Byte positions that do not fall on a char
    boundary are panics, as are missing map entries that are indexed. *)

From stdpp Require Import base gmap sets list strings sorting.
From Stdlib Require Import Ascii.
From S2P Require Import Prelude Chars NixDag.

(** * What nix prints *)

Record ShowDrv := mkShowDrv {
  sd_name : option text;
  sd_inputs : list text;                    (* the keys of [inputs.drvs] *)
  sd_outputs : list (text * option text);   (* output name, [path] *)
  sd_env : list (text * text) }.

Definition STRUCTURAL_KEYS : list text := chars_of <$>
  ["PATH"; "allowedReferences"; "allowedRequisites"; "args"; "builder"; "buildInputs"; "depsBuildBuild";
   "depsBuildBuildPropagated"; "depsBuildTarget"; "depsBuildTargetPropagated"; "depsHostHost";
   "depsHostHostPropagated"; "depsTargetTarget"; "depsTargetTargetPropagated"; "disallowedReferences";
   "disallowedRequisites"; "nativeBuildInputs"; "outputs"; "propagatedBuildInputs";
   "propagatedNativeBuildInputs"; "src"; "srcs"; "stdenv"; "system"]%string.

Definition STORE_PREFIX : text := chars_of "/nix/store/".

(** * Names *)

(** [str::as_bytes]. *)
Definition as_bytes (t : text) : list ascii := String.list_ascii_of_string (utf8 t).

Definition is_hash_byte (b : ascii) : bool :=
  in_range 97 122 (N_of_ascii b) || in_range 48 57 (N_of_ascii b).

Definition is_hash_prefixed (base : text) : bool :=
  let bytes := as_bytes base in
  bool_decide (33 < length bytes) && bool_decide (bytes !! 32 = Some "-"%char) &&
  forallb is_hash_byte (take 32 bytes).

Definition store_basename (path : text) : text := last_segment path.

(** [str::strip_suffix]. *)
Definition strip_suffix (s t : text) : option text := reverse <$> strip_prefix (reverse s) (reverse t).

(** [base[33..]] is a panic off a char boundary. *)
Definition readable_name (path : text) : result text :=
  let base := store_basename path in
  let base := match strip_suffix (chars_of ".drv") base with Some base => base | None => base end in
  if is_hash_prefixed base then '(_, name) ← unwrap (Chars.split_at 33 base); Ok name else Ok base.

Definition is_store_name_char (c : char) : bool :=
  is_ascii_alphabetic c || is_ascii_digit c ||
  bool_decide (c ∈ [ch "+"; ch "-"; ch "."; ch "_"; ch "?"; ch "="]).

(** * Environment values *)

(** [value.match_indices(STORE_PREFIX)]: what follows each of the matches, which
    do not overlap; [skip] chars are still part of the last one. *)
Fixpoint match_tails (skip : nat) (t : text) : list text :=
  match t with
  | [] => []
  | _ :: rest =>
      match skip with
      | S skip => match_tails skip rest
      | O => match strip_prefix STORE_PREFIX t with
             | Some tail => tail :: match_tails (length STORE_PREFIX - 1) rest
             | None => match_tails 0 rest
             end
      end
  end.

(** [&tail[..end]], the end being the first char outside the class. *)
Fixpoint take_while (p : char → bool) (t : text) : text :=
  match t with
  | c :: t => if p c then c :: take_while p t else []
  | [] => []
  end.

Definition store_roots (value : text) : list text :=
  let roots := omap (λ tail,
    let root := take_while is_store_name_char tail in
    if is_hash_prefixed root then Some root else None) (match_tails 0 value) in
  dedup_by id (merge_sort text_le roots).

(** [str::split] on any of these chars. *)
Fixpoint split_any (separators : list char) (t : text) : list text :=
  match t with
  | [] => [[]]
  | c :: t =>
      if decide (c ∈ separators) then [] :: split_any separators t
      else match split_any separators t with
           | token :: tokens => (c :: token) :: tokens
           | [] => [[c]]
           end
  end.

(** The [for] loop of [is_carrier_value] over the tokens. *)
Fixpoint carrier_tokens (saw_token : bool) (tokens : list text) : bool :=
  match tokens with
  | [] => saw_token
  | [] :: tokens => carrier_tokens saw_token tokens
  | token :: tokens =>
      match strip_prefix STORE_PREFIX token with
      | None => false
      | Some rest => if is_hash_prefixed rest then carrier_tokens true tokens else false
      end
  end.
Definition is_carrier_value (value : text) : bool :=
  carrier_tokens false (split_any [ch " "; ch "009"; ch "010"; ch "013"; ch ":"] value).

(** * Building a plan *)

Abbreviation derivations := (list (text * ShowDrv)).

Definition index_of (ds : derivations) : gmap text nat :=
  foldl (λ index '(id, key), <[key := id]> index) ∅ (imap pair (fst <$> ds)).

(** One output: its base name is produced by [id]. *)
Definition add_output (id : nat) (st : gmap text nat * bool) (out : text * option text) : gmap text nat * bool :=
  let '(producer, resolved) := st in
  match out.2 with
  | Some path => (<[store_basename path := id]> producer, true)
  | None => (producer, resolved)
  end.

Definition add_outputs (ids : gmap text nat) (st : gmap text nat * nat) (entry : text * ShowDrv) :
    result (gmap text nat * nat) :=
  let '(producer, unresolved_outputs) := st in
  id ← unwrap (ids !! entry.1);
  let '(producer, resolved) := foldl (add_output id) (producer, false) (sd_outputs entry.2) in
  let unresolved := negb resolved && negb (bool_decide (sd_outputs entry.2 = [])) in
  Ok (producer, if unresolved then unresolved_outputs + 1 else unresolved_outputs).

(** [filter_map(|input| index.get(input))], sorted and deduplicated. *)
Definition node_deps (ids : gmap text nat) (drv : ShowDrv) : list nat :=
  index_deps (omap (λ input, ids !! input) (sd_inputs drv)).

(** The interned environment variable names. *)
Record Keys := mkKeys { env_keys : list text; key_ids : gmap text nat }.

(** [key_ids.entry(name).or_insert_with(..)]. *)
Definition intern (keys : Keys) (name : text) : Keys * nat :=
  match key_ids keys !! name with
  | Some key_id => (keys, key_id)
  | None =>
      let key_id := length (env_keys keys) in
      (mkKeys (env_keys keys ++ [name]) (<[name := key_id]> (key_ids keys)), key_id)
  end.

Definition is_carrier (name value : text) : bool :=
  negb (bool_decide (name ∈ STRUCTURAL_KEYS)) && is_carrier_value value.

(** One variable of the environment. *)
Definition scan_variable (producer : gmap text nat) (st : Keys * list EnvRef) (variable : text * text) :
    Keys * list EnvRef :=
  let '(keys, env_refs) := st in
  let '(name, value) := variable in
  if contains STORE_PREFIX value then
    let carrier := is_carrier name value in
    let '(keys, key_id) := intern keys name in
    (keys, env_refs ++
      omap (λ root, (λ target, mkEnvRef target key_id carrier) <$> producer !! root) (store_roots value))
  else st.

Definition ref_key (r : EnvRef) : nat * nat := (er_target r, er_key r).
Definition ref_le (a b : EnvRef) : Prop := pair_le (ref_key a) (ref_key b).
#[export] Instance ref_le_dec : RelDecision ref_le.
Proof. intros a b. unfold ref_le. apply _. Defined.

Definition build_node (ids producer : gmap text nat) (st : Keys * list Node) (entry : text * ShowDrv) :
    result (Keys * list Node) :=
  let '(keys, nodes) := st in
  let '(key, drv) := entry in
  let '(keys, env_refs) := foldl (scan_variable producer) (keys, []) (sd_env drv) in
  name ← match sd_name drv with Some name => Ok name | None => readable_name key end;
  Ok (keys, nodes ++ [mkNode key name (node_deps ids drv) (dedup_by ref_key (merge_sort ref_le env_refs))]).

Definition build (ds : derivations) : result Plan :=
  let ids := index_of ds in
  '(producer, unresolved_outputs) ← foldM (add_outputs ids) (∅, 0) ds;
  '(keys, nodes) ← foldM (build_node ids producer) (mkKeys [] ∅, []) ds;
  dependents ← build_dependents nodes;
  Ok (mkPlan nodes dependents (env_keys keys) unresolved_outputs).
