(* ===== verification/NixPlanProps.v ===== *)
(** Correctness of [Plan::build], [packages/nix-dag/src/plan.rs]: the nodes are
    the derivations in order, their dependencies the inputs that are in the
    closure, and their environment references exactly the store paths of the
    variables that some derivation of the closure produces. *)

From stdpp Require Import base gmap sets list strings sorting relations.
From Stdlib Require Import Ascii.
From S2P Require Import Prelude Chars NixDag NixDagProps NixDagMetrics NixDagCompute NixPlan.

(** * Well-formed input *)

(** The keys of a [BTreeMap] are distinct; chars are Unicode scalar values. *)
Definition text_wf (t : text) : Prop := Forall (λ c, (c < 0x110000)%N) t.
Record drvs_wf (ds : derivations) : Prop := mkDrvsWf {
  dw_keys : NoDup ds.*1;
  dw_env : ∀ id key drv, ds !! id = Some (key, drv) → NoDup (sd_env drv).*1;
  dw_text : ∀ id key drv, ds !! id = Some (key, drv) → text_wf key }.

(** * Names *)

Lemma as_bytes_cons c t :
  as_bytes (c :: t) = String.list_ascii_of_string (utf8_char c) ++ as_bytes t.
Proof.
  unfold as_bytes. simpl. generalize (utf8 t). generalize (utf8_char c). intros s1 s2.
  induction s1 as [|a s1 IH]; simpl; [done|]. by rewrite IH.
Qed.

Lemma lead_byte lead c k b :
  (128 <= lead)%N → (lead + b <= 256)%N → (k ≠ 0)%N → (c < k * b)%N → (128 <= lead + c / k < 256)%N.
Proof. intros H1 H2 Hk Hc%N.Div0.div_lt_upper_bound. revert Hc. generalize (c / k)%N. lia. Qed.

(** A char whose first byte is ASCII is one byte long. *)
Lemma utf8_char_ascii c b bs :
  (c < 0x110000)%N → String.list_ascii_of_string (utf8_char c) = b :: bs → (N_of_ascii b < 128)%N → bs = [] ∧ len_utf8 c = 1.
Proof.
  intros Hc. unfold utf8_char, len_utf8, byte_of.
  assert (∀ n, (128 <= n < 256)%N → ¬ (N_of_ascii (ascii_of_N n) < 128)%N) as Hbyte.
  { intros n Hn. rewrite N_ascii_embedding; lia. }
  repeat (case_decide; try lia); cbn [String.list_ascii_of_string]; intros [= <- <-] Hb; [done|exfalso..];
    revert Hb; apply Hbyte.
  - apply (lead_byte 192 c 64 32); lia.
  - apply (lead_byte 224 c 4096 16); lia.
  - apply (lead_byte 240 c 262144 5); lia.
Qed.

(** An ASCII prefix ends at a char boundary. *)
Lemma split_at_ascii t n :
  text_wf t → n ≤ length (as_bytes t) → Forall (λ b, (N_of_ascii b < 128)%N) (take n (as_bytes t)) →
  ∃ pre post, Chars.split_at n t = Some (pre, post).
Proof.
  intros Ht. revert n. induction Ht as [|c t Hc Ht IH]; intros [|n] Hn Hall; [by eexists _, _..|simpl in Hn; lia|by eexists _, _|].
  rewrite as_bytes_cons in Hn, Hall.
  destruct (String.list_ascii_of_string (utf8_char c)) as [|b bs] eqn:Hb.
  { exfalso. revert Hb. unfold utf8_char. by repeat case_decide. }
  simpl in Hall. inversion Hall as [|? ? H1 H2]; subst.
  destruct (utf8_char_ascii c b bs Hc Hb H1) as [-> Hl]. simpl in Hn, H2.
  destruct (IH n ltac:(lia) H2) as (pre & post & E). cbn [Chars.split_at].
  rewrite Hl, decide_True by lia. rewrite Nat.sub_1_r. simpl. rewrite E. by eexists _, _.
Qed.

Lemma hash_byte_ascii b : is_hash_byte b = true → (N_of_ascii b < 128)%N.
Proof. unfold is_hash_byte. rewrite orb_true_iff, !in_range_spec. lia. Qed.

Lemma hash_prefixed_split base :
  text_wf base → is_hash_prefixed base = true → ∃ pre post, Chars.split_at 33 base = Some (pre, post).
Proof.
  intros Ht. unfold is_hash_prefixed. rewrite !andb_true_iff, !bool_decide_eq_true.
  intros [[Hlen H32] Hall]. apply Is_true_true_2, forallb_True in Hall. apply split_at_ascii; [done|lia|].
  rewrite (take_S_r _ 32 _ H32). apply Forall_snoc; [|vm_compute; done].
  eapply Forall_impl; [exact Hall|]. intros b Hb%Is_true_true. by apply hash_byte_ascii.
Qed.

Lemma after_slashes_wf cur t : text_wf cur → text_wf t → text_wf (after_slashes cur t).
Proof.
  intros Hcur Ht. revert cur Hcur. induction Ht as [|c t Hc Ht IH]; intros cur Hcur; simpl; [done|].
  case_decide; by apply IH.
Qed.

Lemma readable_name_total path : text_wf path → ∃ name, readable_name path = Ok name.
Proof.
  intros Ht. unfold readable_name.
  assert (text_wf (store_basename path)) as Hb by (by apply after_slashes_wf).
  destruct (strip_suffix _ _) as [base|] eqn:E.
  - assert (text_wf base) as Hbase.
    { unfold strip_suffix in E. destruct (strip_prefix _ _) as [r|] eqn:E'; [|done]. simpl in E. simplify_eq.
      apply strip_prefix_Some in E'. unfold text_wf in *. rewrite <- (reverse_involutive (store_basename path)), E' in Hb.
      rewrite reverse_app in Hb. by apply Forall_app in Hb as [? _]. }
    destruct (is_hash_prefixed base) eqn:Hh; [|by eexists].
    destruct (hash_prefixed_split base) as (? & ? & ->); [done..|]. by eexists.
  - destruct (is_hash_prefixed _) eqn:Hh; [|by eexists].
    destruct (hash_prefixed_split (store_basename path)) as (? & ? & ->); [done..|]. by eexists.
Qed.

(** * Indexes *)

Lemma index_of_spec (ds : derivations) key id :
  NoDup ds.*1 → index_of ds !! key = Some id ↔ ∃ drv, ds !! id = Some (key, drv).
Proof.
  intros Hnd. unfold index_of.
  assert (foldl (λ (index : gmap text nat) '(id, key), <[key := id]> index) ∅ (imap pair ds.*1) !! key = Some id ↔
    (id, key) ∈ imap pair ds.*1) as ->.
  { apply (foldl_inv (λ pre (m : gmap text nat), ∀ id, m !! key = Some id ↔ (id, key) ∈ pre)).
    - intros i. by rewrite lookup_empty, elem_of_nil.
    - intros pre [i k] post m Heq Hm j. rewrite elem_of_app, list_elem_of_singleton, <- Hm.
      assert (ds.*1 !! i = Some k) as Hk.
      { assert ((i, k) ∈ imap pair ds.*1) as (j' & ? & [= -> ->] & ?)%elem_of_lookup_imap_1 by (rewrite Heq; set_solver). done. }
      destruct (decide (k = key)) as [->|Hne].
      + rewrite lookup_insert_eq. split; [intros [= ->]; by right|]. intros [Hj|[= ->]]; [|done].
        assert ((j, key) ∈ imap pair ds.*1) as (j' & ? & [= -> ->] & Hj')%elem_of_lookup_imap_1
          by (rewrite Heq; apply elem_of_app; left; by apply Hm).
        f_equal. by eapply NoDup_lookup.
      + rewrite lookup_insert_ne by done. naive_solver. }
  split.
  - intros (i & k & [= -> ->] & Hk)%elem_of_lookup_imap_1. rewrite list_lookup_fmap in Hk.
    destruct (ds !! i) as [[k' drv]|]; simplify_eq/=. eauto.
  - intros [drv Hd]. apply elem_of_lookup_imap. exists id, key. split; [done|]. by rewrite list_lookup_fmap, Hd.
Qed.

(** The base names a derivation produces. *)
Definition out_roots (drv : ShowDrv) : list text := omap (λ out, store_basename <$> out.2) (sd_outputs drv).

Definition produces (ds : derivations) (t : nat) (root : text) : Prop :=
  ∃ key drv, ds !! t = Some (key, drv) ∧ root ∈ out_roots drv.

(** The derivation a base name is attributed to: the last that produces it. *)
Definition produced_by (ds : derivations) (root : text) (t : nat) : Prop :=
  produces ds t root ∧ ∀ t', produces ds t' root → t' ≤ t.

(** Derivations with outputs, none of which has a path. *)
Definition unresolved (drv : ShowDrv) : Prop := out_roots drv = [] ∧ sd_outputs drv ≠ [].
#[export] Instance unresolved_dec drv : Decision (unresolved drv).
Proof. unfold unresolved. apply _. Defined.

Lemma add_output_spec id outs m :
  ∃ m', foldl (add_output id) (m, false) outs =
      (m', negb (bool_decide (omap (λ out, store_basename <$> out.2) outs = []))) ∧
    ∀ root, m' !! root = if decide (root ∈ omap (λ out, store_basename <$> out.2) outs) then Some id else m !! root.
Proof.
  set (f := λ out : text * option text, store_basename <$> out.2).
  destruct (foldl (add_output id) (m, false) outs) as [m' b] eqn:E.
  pose proof (foldl_inv (λ pre st, st.2 = negb (bool_decide (omap f pre = [])) ∧
    ∀ root, st.1 !! root = if decide (root ∈ omap f pre) then Some id else m !! root)
    (add_output id) outs (m, false)) as Hinv.
  rewrite E in Hinv. destruct Hinv as [H1 H2]; [| |simpl in *; subst; by eexists].
  - split; [done|]. intros root. by rewrite decide_False by (simpl; apply not_elem_of_nil).
  - intros pre [name path] post [m1 b1] _ [H1 H2]. simpl in H1, H2. rewrite !omap_app. unfold add_output. simpl.
    destruct path as [path|]; simpl.
    + split; [by destruct (omap f pre)|]. intros root.
      destruct (decide (root = store_basename path)) as [->|Hne].
      * rewrite lookup_insert_eq, decide_True; [done|]. set_solver.
      * rewrite lookup_insert_ne, H2 by done. destruct (decide (root ∈ omap f pre)).
        -- rewrite decide_True; [done|set_solver].
        -- rewrite decide_False; [done|set_solver].
    + rewrite app_nil_r. split; [done|]. intros root. apply H2.
Qed.

Lemma produced_by_snoc (pre : derivations) key drv root t :
  produced_by (pre ++ [(key, drv)]) root t ↔
  if decide (root ∈ out_roots drv) then t = length pre else produced_by pre root t.
Proof.
  assert (∀ t, produces (pre ++ [(key, drv)]) t root ↔ produces pre t root ∨ (t = length pre ∧ root ∈ out_roots drv)) as Hp.
  { clear t. intros t. unfold produces. split.
    - intros (k & d & Hd & Hr). apply lookup_snoc_Some in Hd as [[? ?]|[-> [= -> ->]]]; eauto.
    - intros [(k & d & Hd & Hr)|[-> Hr]]; [exists k, d|exists key, drv]; (split; [|done]).
      + rewrite lookup_app_l; [done|by eapply lookup_lt_Some].
      + by apply list_lookup_middle. }
  assert (∀ t, produces pre t root → t < length pre) as Hlt.
  { clear t. intros t (k & d & Hd & _). by eapply lookup_lt_Some. }
  unfold produced_by. setoid_rewrite Hp. case_decide as Hr; split.
  - intros [[Ht|[-> _]] Hmax]; [|done]. specialize (Hmax (length pre) ltac:(by right)). apply Hlt in Ht. lia.
  - intros ->. split; [by right|]. intros t' [Ht'%Hlt|[-> _]]; lia.
  - intros [[Ht|[_ ?]] Hmax]; [|done]. split; [done|]. auto.
  - intros [Ht Hmax]. split; [by left|]. intros t' [?|[_ ?]]; [by apply Hmax|done].
Qed.

Lemma add_outputs_spec (ds : derivations) :
  NoDup ds.*1 →
  ∃ producer, foldM (add_outputs (index_of ds)) (∅, 0) ds =
      Ok (producer, length (filter (λ e, unresolved e.2) ds)) ∧
    ∀ root t, producer !! root = Some t ↔ produced_by ds root t.
Proof.
  intros Hnd.
  destruct (foldM_total (λ pre st, st.2 = length (filter (λ e, unresolved e.2) pre) ∧
      ∀ root t, st.1 !! root = Some t ↔ produced_by pre root t) (add_outputs (index_of ds)) ds (∅, 0))
    as ([producer u] & -> & Hu & Hp); [| |simpl in *; subst; by eexists].
  - split; [done|]. intros root t. simpl. rewrite lookup_empty. split; [done|]. intros [(? & ? & ? & _) _]. done.
  - intros pre [key drv] post [m u] Heq [Hu Hm]. simpl in Hu, Hm. unfold add_outputs. cbn [fst snd].
    assert (index_of ds !! key = Some (length pre)) as ->.
    { apply index_of_spec; [done|]. exists drv. rewrite Heq. by apply list_lookup_middle. }
    cbn [unwrap mbind outcome_bind]. destruct (add_output_spec (length pre) (sd_outputs drv) m) as (m' & -> & Hm').
    fold (out_roots drv) in *. eexists; split; [done|]. cbn [fst snd]. split.
    + rewrite filter_app, length_app, <- Hu, filter_cons, filter_nil. unfold unresolved. cbn [snd].
      destruct (bool_decide_reflect (out_roots drv = [])), (bool_decide_reflect (sd_outputs drv = []));
        (case_decide; [|tauto || (simpl; lia)]); simpl; try lia; tauto.
    + intros root t. rewrite produced_by_snoc, Hm'. case_decide; [naive_solver|apply Hm].
Qed.

(** * Interned names *)

Definition keys_ok (keys : Keys) : Prop := ∀ name k, key_ids keys !! name = Some k ↔ env_keys keys !! k = Some name.

Lemma keys_inj keys i j name :
  keys_ok keys → env_keys keys !! i = Some name → env_keys keys !! j = Some name → i = j.
Proof. intros Hk Hi%Hk Hj%Hk. congruence. Qed.

Lemma intern_spec keys name :
  keys_ok keys → ∃ keys' k, intern keys name = (keys', k) ∧ keys_ok keys' ∧
    env_keys keys `prefix_of` env_keys keys' ∧ env_keys keys' !! k = Some name.
Proof.
  intros Hk. unfold intern. destruct (key_ids keys !! name) as [k|] eqn:E.
  { exists keys, k. split_and!; [done|done|done|by apply Hk]. }
  eexists _, _. split; [done|]. simpl. split_and!; [|by apply prefix_app_r|by apply list_lookup_middle].
  intros n k. simpl. destruct (decide (n = name)) as [->|Hne].
  - rewrite lookup_insert_eq. split; [intros [= <-]; by apply list_lookup_middle|].
    intros [[_ H%Hk]|[<- _]]%lookup_snoc_Some; [by rewrite E in H|done].
  - rewrite lookup_insert_ne, (Hk n k), lookup_snoc_Some by done. split; [|naive_solver].
    intros H. left. split; [by eapply lookup_lt_Some|done].
Qed.

(** ** References *)

Section scan.
Context (producer : gmap text nat).

(** The variable refers to the derivation through its name. *)
Definition names_target (env : list (text * text)) (name value : text) (t : nat) : Prop :=
  (name, value) ∈ env ∧ ∃ root, root ∈ store_roots value ∧ producer !! root = Some t.

Definition refs_sound (keys : list text) (env : list (text * text)) (refs : list EnvRef) : Prop :=
  ∀ r, r ∈ refs → ∃ name value, keys !! er_key r = Some name ∧
    names_target env name value (er_target r) ∧ er_carrier r = is_carrier name value.
Definition refs_complete (keys : list text) (env : list (text * text)) (refs : list EnvRef) : Prop :=
  ∀ name value t, names_target env name value t → ∃ r, r ∈ refs ∧ er_target r = t ∧ keys !! er_key r = Some name.

Lemma refs_sound_mono keys keys' env env' refs :
  keys `prefix_of` keys' → env ⊆ env' → refs_sound keys env refs → refs_sound keys' env' refs.
Proof.
  intros Hk He H r Hr. destruct (H r Hr) as (name & value & H1 & (? & H2) & ?). exists name, value.
  split_and!; [by eapply prefix_lookup_Some|split; [by apply He|done]|done].
Qed.

Lemma refs_complete_mono keys keys' env refs :
  keys `prefix_of` keys' → refs_complete keys env refs → refs_complete keys' env refs.
Proof.
  intros Hk H name value t Ht. destruct (H name value t Ht) as (r & ? & ? & ?). exists r.
  split_and!; [done..|by eapply prefix_lookup_Some].
Qed.

Lemma match_tails_contains skip t tail : tail ∈ match_tails skip t → contains STORE_PREFIX t = true.
Proof.
  revert skip. induction t as [|c t IH]; intros skip; [by intros ?%elem_of_nil|]. cbn [match_tails contains].
  destruct skip as [|skip].
  - destruct (strip_prefix STORE_PREFIX (c :: t)) as [rest|]; [done|apply IH].
  - intros H%IH. by destruct (strip_prefix STORE_PREFIX (c :: t)).
Qed.

(** The roots are hash-prefixed runs of store name chars after the prefix. *)
Lemma match_tails_spec skip t tail : tail ∈ match_tails skip t → ∃ pre, t = pre ++ STORE_PREFIX ++ tail.
Proof.
  revert skip. induction t as [|c t IH]; intros skip; [by intros ?%elem_of_nil|]. cbn [match_tails].
  destruct skip as [|skip]; [destruct (strip_prefix STORE_PREFIX (c :: t)) as [rest|] eqn:E|].
  - intros [->|H]%elem_of_cons; [exists []; exact (strip_prefix_Some _ _ _ E)|].
    apply IH in H as [pre ->]. by exists (c :: pre).
  - intros [pre ->]%IH. by exists (c :: pre).
  - intros [pre ->]%IH. by exists (c :: pre).
Qed.

Lemma store_roots_spec value root :
  root ∈ store_roots value →
  contains STORE_PREFIX value = true ∧ is_hash_prefixed root = true ∧
  ∃ pre tail, value = pre ++ STORE_PREFIX ++ tail ∧ root = take_while is_store_name_char tail.
Proof.
  unfold store_roots. intros Hr%dedup_by_subset. rewrite merge_sort_Permutation in Hr.
  apply list_elem_of_omap in Hr as (tail & Ht & Heq).
  simpl in Heq. destruct (is_hash_prefixed _) eqn:E; [|done]. injection Heq as <-.
  destruct (match_tails_spec _ _ _ Ht) as [pre ->]. split_and!; [|done|by eexists _, _].
  by eapply match_tails_contains.
Qed.

Lemma scan_variables_spec env keys :
  keys_ok keys →
  ∃ keys' refs, foldl (scan_variable producer) (keys, []) env = (keys', refs) ∧ keys_ok keys' ∧
    env_keys keys `prefix_of` env_keys keys' ∧
    refs_sound (env_keys keys') env refs ∧ refs_complete (env_keys keys') env refs.
Proof.
  intros Hk. destruct (foldl (scan_variable producer) (keys, []) env) as [keys' refs] eqn:E.
  exists keys', refs. split; [done|].
  pose proof (foldl_inv (λ pre st, keys_ok st.1 ∧ env_keys keys `prefix_of` env_keys st.1 ∧
    refs_sound (env_keys st.1) pre st.2 ∧ refs_complete (env_keys st.1) pre st.2)
    (scan_variable producer) env (keys, [])) as Hinv.
  rewrite E in Hinv. apply Hinv; clear Hinv E.
  { split_and!; [done|done| |]; [by intros ? ?%elem_of_nil|]. by intros ? ? ? [?%elem_of_nil _]. }
  intros pre [name value] post [k1 r1] _ (Hk1 & Hp & Hs & Hc). cbn [fst snd] in *. unfold scan_variable.
  destruct (contains STORE_PREFIX value) eqn:Hv; last first.
  { cbn [fst snd]. split_and!; [done|done|exact (refs_sound_mono _ _ pre (pre ++ [(name, value)]) r1 (reflexivity _) ltac:(set_solver) Hs)|].
    intros n v t (Hin & root & Hroot & Ht). apply elem_of_app in Hin as [Hin|Hin%list_elem_of_singleton].
    - apply (Hc n v). split; [done|]. eauto.
    - injection Hin as -> ->. destruct (store_roots_spec _ _ Hroot) as [Hv' _]. congruence. }
  destruct (intern_spec k1 name Hk1) as (k2 & key & -> & Hk2 & Hp2 & Hkey). cbn [fst snd]. split_and!; [done|by etrans| |].
  - intros r [Hr|Hr]%elem_of_app; [exact (refs_sound_mono _ _ pre (pre ++ [(name, value)]) r1 Hp2 ltac:(set_solver) Hs r Hr)|].
    apply list_elem_of_omap in Hr as (root & Hroot & Hr). destruct (producer !! root) as [t|] eqn:Ht; [|done].
    injection Hr as <-. exists name, value. cbn. split_and!; [done| |done]. split; [set_solver|eauto].
  - intros n v t (Hin & root & Hroot & Ht). apply elem_of_app in Hin as [Hin|Hin%list_elem_of_singleton].
    + destruct (refs_complete_mono _ _ _ _ Hp2 Hc n v t) as (r & ? & ? & ?); [split; eauto|]. exists r. set_solver.
    + injection Hin as -> ->. exists (mkEnvRef t key (is_carrier name value)). split_and!; [|done|done].
      apply elem_of_app. right. apply list_elem_of_omap. exists root. by rewrite Ht.
Qed.
End scan.

(** ** Sorting them *)

#[export] Instance ref_le_total : Total ref_le.
Proof. intros a b. apply (total pair_le). Qed.
#[export] Instance ref_le_trans : Transitive ref_le.
Proof. intros a b c. apply (transitivity (R := pair_le)). Qed.

Lemma sorted_refs_spec producer keys env refs :
  NoDup env.*1 → refs_sound producer keys env refs →
  let out := dedup_by ref_key (merge_sort ref_le refs) in
  StronglySorted (λ a b, ref_le a b ∧ ref_key a ≠ ref_key b) out ∧ ∀ r, r ∈ out ↔ r ∈ refs.
Proof.
  intros Hnd Hs. simpl. destruct (dedup_by_spec ref_key pair_le (merge_sort ref_le refs)) as (H1 & H2 & H3).
  { apply StronglySorted_merge_sort; apply _. }
  split; [done|]. intros r. split; [intros Hr%H2; by rewrite merge_sort_Permutation in Hr|].
  intros Hr. destruct (H3 r) as (q & Hq & Hkey); [by rewrite merge_sort_Permutation|].
  assert (q ∈ refs) as Hq' by (apply H2 in Hq; by rewrite merge_sort_Permutation in Hq).
  destruct (Hs r Hr) as (n1 & v1 & Hn1 & (Hin1 & _) & Hc1). destruct (Hs q Hq') as (n2 & v2 & Hn2 & (Hin2 & _) & Hc2).
  injection Hkey as Ht Hk. rewrite Hk, Hn1 in Hn2. injection Hn2 as ->.
  pose proof (NoDup_fmap_inj_on fst env (n2, v1) (n2, v2) Hnd Hin1 Hin2 eq_refl) as [= ->].
  destruct r, q. simpl in *. by subst.
Qed.

(** * Nodes *)

(** The variable names an output of the derivation [t]. *)
Definition refers (ds : derivations) (drv : ShowDrv) (name value : text) (t : nat) : Prop :=
  (name, value) ∈ sd_env drv ∧ ∃ root, root ∈ store_roots value ∧ produced_by ds root t.

Record node_of (ds : derivations) (keys : list text) (key : text) (drv : ShowDrv) (node : Node) : Prop := mkNodeOf {
  no_path : nd_drv_path node = key;
  no_name : match sd_name drv with Some name => nd_name node = name | None => readable_name key = Ok (nd_name node) end;
  no_deps : StronglySorted lt (nd_deps node) ∧
    ∀ j, j ∈ nd_deps node ↔ ∃ input drv', input ∈ sd_inputs drv ∧ ds !! j = Some (input, drv');
  no_sorted : StronglySorted (λ a b, ref_le a b ∧ ref_key a ≠ ref_key b) (nd_env_refs node);
  no_sound : ∀ r, r ∈ nd_env_refs node → ∃ name value, keys !! er_key r = Some name ∧
    refers ds drv name value (er_target r) ∧ er_carrier r = is_carrier name value;
  no_complete : ∀ name value t, refers ds drv name value t →
    ∃ r, r ∈ nd_env_refs node ∧ er_target r = t ∧ keys !! er_key r = Some name }.

Lemma node_of_mono ds keys keys' key drv node :
  keys `prefix_of` keys' → node_of ds keys key drv node → node_of ds keys' key drv node.
Proof.
  intros Hp [H1 H2 H3 H4 H5 H6]. split; [done..| |].
  - intros r Hr. destruct (H5 r Hr) as (name & value & ? & ? & ?). exists name, value.
    split_and!; [by eapply prefix_lookup_Some|done..].
  - intros name value t Ht. destruct (H6 name value t Ht) as (r & ? & ? & ?). exists r.
    split_and!; [done..|by eapply prefix_lookup_Some].
Qed.

Lemma node_deps_spec (ds : derivations) drv :
  NoDup ds.*1 →
  StronglySorted lt (node_deps (index_of ds) drv) ∧
  ∀ j, j ∈ node_deps (index_of ds) drv ↔ ∃ input drv', input ∈ sd_inputs drv ∧ ds !! j = Some (input, drv').
Proof.
  intros Hnd. unfold node_deps.
  destruct (index_deps_spec (omap (λ input, index_of ds !! input) (sd_inputs drv))) as [Hs Hin].
  split; [done|]. intros j. rewrite Hin, list_elem_of_omap. split.
  - intros (input & Hi & [drv' Hd]%(index_of_spec ds input j Hnd)). eauto.
  - intros (input & drv' & Hi & Hd). exists input. split; [done|]. apply index_of_spec; [done|]. eauto.
Qed.

Lemma build_node_spec ds producer keys nodes id key drv :
  drvs_wf ds → ds !! id = Some (key, drv) → (∀ root t, producer !! root = Some t ↔ produced_by ds root t) →
  keys_ok keys →
  ∃ keys' node, build_node (index_of ds) producer (keys, nodes) (key, drv) = Ok (keys', nodes ++ [node]) ∧
    keys_ok keys' ∧ env_keys keys `prefix_of` env_keys keys' ∧ node_of ds (env_keys keys') key drv node.
Proof.
  intros Hwf Hid Hprod Hk. unfold build_node.
  destruct (scan_variables_spec producer (sd_env drv) keys Hk) as (keys' & refs & -> & Hk' & Hp & Hs & Hc).
  destruct (sorted_refs_spec producer (env_keys keys') (sd_env drv) refs (dw_env _ Hwf _ _ _ Hid) Hs) as [Hsorted Hin].
  assert (∃ name, match sd_name drv with Some name => Ok name | None => readable_name key end = Ok name) as [name Hname].
  { destruct (sd_name drv); [by eexists|]. apply readable_name_total. by eapply dw_text. }
  rewrite Hname. cbn [mbind outcome_bind]. eexists _, _. split; [done|]. split_and!; [done|done|].
  split; cbn [nd_drv_path nd_name nd_deps nd_env_refs]; [done| |by apply node_deps_spec, Hwf|done| |].
  - by destruct (sd_name drv); simplify_eq.
  - intros r Hr%Hin. destruct (Hs r Hr) as (n & v & ? & (? & root & ? & ?%Hprod) & ?). exists n, v.
    split_and!; [done| |done]. split; [done|]. eauto.
  - intros n v t (Hv & root & Hr & Ht%Hprod). destruct (Hc n v t) as (r & Hr' & ? & ?); [split; eauto|].
    exists r. by rewrite Hin.
Qed.

(** What a plan says about the derivations it was built from. *)
Record plan_of (ds : derivations) (plan : Plan) : Prop := mkPlanOf {
  po_len : plan_len plan = length ds;
  po_node : ∀ id key drv, ds !! id = Some (key, drv) →
    ∃ node, pl_nodes plan !! id = Some node ∧ node_of ds (pl_env_keys plan) key drv node;
  po_keys : NoDup (pl_env_keys plan);
  po_unresolved : pl_unresolved_outputs plan = length (filter (λ e, unresolved e.2) ds) }.

Lemma build_nodes_spec ds producer :
  drvs_wf ds → (∀ root t, producer !! root = Some t ↔ produced_by ds root t) →
  ∃ keys nodes, foldM (build_node (index_of ds) producer) (mkKeys [] ∅, []) ds = Ok (keys, nodes) ∧
    keys_ok keys ∧ length nodes = length ds ∧
    ∀ id key drv, ds !! id = Some (key, drv) → ∃ node, nodes !! id = Some node ∧ node_of ds (env_keys keys) key drv node.
Proof.
  intros Hwf Hprod.
  destruct (foldM_total (λ pre st, keys_ok st.1 ∧ length st.2 = length pre ∧
      ∀ id key drv, pre !! id = Some (key, drv) → ∃ node, st.2 !! id = Some node ∧ node_of ds (env_keys st.1) key drv node)
    (build_node (index_of ds) producer) ds (mkKeys [] ∅, [])) as ([keys nodes] & -> & ? & ? & ?); [| |by exists keys, nodes].
  - split_and!; [|done|done]. intros name k. simpl. rewrite lookup_empty. done.
  - intros pre [key drv] post [keys nodes] Heq (Hk & Hlen & Hpre). cbn [fst snd] in *.
    assert (ds !! length pre = Some (key, drv)) as Hid by (rewrite Heq; by apply list_lookup_middle).
    destruct (build_node_spec ds producer keys nodes _ _ _ Hwf Hid Hprod Hk) as (keys' & node & -> & Hk' & Hp & Hn).
    eexists; split; [done|]. cbn [fst snd]. split_and!; [done|rewrite !length_app; simpl; lia|].
    intros i k d [[_ Hi]|[-> [= <- <-]]]%lookup_snoc_Some.
    + destruct (Hpre i k d Hi) as (n & Hn' & ?). exists n. split; [by apply lookup_app_l_Some|by eapply node_of_mono].
    + exists node. rewrite <- Hlen. split; [by apply list_lookup_middle|done].
Qed.

Lemma ref_sorted_distinct refs :
  StronglySorted (λ a b, ref_le a b ∧ ref_key a ≠ ref_key b) refs → distinct_refs refs.
Proof.
  intros H. split.
  - eapply StronglySorted_weaken; [|exact H]. intros a b [Hab _]. unfold ref_le, pair_le, ref_key in Hab. simpl in Hab. lia.
  - induction H as [|r l _ IH Hall]; csimpl; constructor; [|done]. intros (q & Hq & Hin)%list_elem_of_fmap.
    rewrite Forall_forall in Hall. by destruct (Hall q Hin) as [_ ?].
Qed.

Lemma build_spec ds :
  drvs_wf ds → ∃ plan, build ds = Ok plan ∧ plan_wf plan ∧ refs_wf plan ∧ plan_of ds plan.
Proof.
  intros Hwf. unfold build. destruct (add_outputs_spec ds (dw_keys _ Hwf)) as (producer & -> & Hprod).
  cbn [mbind outcome_bind]. destruct (build_nodes_spec ds producer Hwf Hprod) as (keys & nodes & -> & Hk & Hlen & Hnodes).
  cbn [mbind outcome_bind].
  assert (∀ id node, nodes !! id = Some node → ∃ key drv, ds !! id = Some (key, drv) ∧ node_of ds (env_keys keys) key drv node) as Hinv.
  { intros id node Hn. destruct (ds !! id) as [[key drv]|] eqn:Hd.
    - destruct (Hnodes id key drv Hd) as (n' & ? & ?). simplify_eq. eauto.
    - apply lookup_ge_None in Hd. apply lookup_lt_Some in Hn. lia. }
  destruct (build_wf nodes (env_keys keys) (length (filter (λ e, unresolved e.2) ds))) as (dependents & -> & Hpw).
  { intros id node Hn. destruct (Hinv id node Hn) as (key & drv & _ & Hno). destruct (no_deps _ _ _ _ _ Hno) as [Hs Hd].
    split; [done|]. intros d (? & ? & _ & Hds)%Hd. apply lookup_lt_Some in Hds. lia. }
  cbn [mbind outcome_bind]. eexists. split; [done|]. split_and!; [done| |].
  - intros id node Hn. destruct (Hinv id node Hn) as (key & drv & _ & Hno). split.
    + apply ref_sorted_distinct. by eapply no_sorted.
    + intros r (? & ? & _ & (_ & root & _ & (? & ? & Ht & _) & _) & _)%(no_sound _ _ _ _ _ Hno).
      apply lookup_lt_Some in Ht. unfold plan_len. simpl. lia.
  - split; simpl; [done|done| |done]. apply NoDup_alt. intros i j name Hi Hj. by eapply keys_inj.
Qed.

(** C40. [Plan::build] never panics, and the plan it makes of the derivations of a
    closure is theirs: node by node in order, named as nix names them or after
    their path; a node depends on exactly the inputs that are in the closure;
    its environment references are, one per target and variable, exactly the
    store paths in variable values whose base name some derivation of the closure
    outputs (the last one when several do), as carriers when the variable is not
    structural and holds store paths only; and derivations none of whose outputs
    has a path are counted.  Every such plan is well-formed for the metrics. *)
Theorem build_correct ds :
  drvs_wf ds → ∃ plan, build ds = Ok plan ∧ plan_wf plan ∧ refs_wf plan ∧ plan_of ds plan.
Proof. apply build_spec. Qed.

(** The closure of the tests: a library, and a derivation that names it in one
    carrier variable and in its build script. *)
Definition demo_hash : text := chars_of "abcdefghijklmnopqrstuvwxyz012345".
Definition demo_lib : text := demo_hash ++ chars_of "-lib".
Definition demo_drvs : derivations :=
  [(demo_lib ++ chars_of ".drv", mkShowDrv None [] [(chars_of "out", Some demo_lib)] []);
   (demo_hash ++ chars_of "-user.drv", mkShowDrv (Some (chars_of "user")) [demo_lib ++ chars_of ".drv"; chars_of "gone"]
      [(chars_of "out", None)]
      [(chars_of "IX_LIB_DIR", STORE_PREFIX ++ demo_lib ++ chars_of "/lib");
       (chars_of "buildPhase", chars_of "gcc -L" ++ STORE_PREFIX ++ demo_lib ++ chars_of "/lib")])].
Definition demo_built : Plan :=
  mkPlan [mkNode (demo_lib ++ chars_of ".drv") (chars_of "lib") [] [];
          mkNode (demo_hash ++ chars_of "-user.drv") (chars_of "user") [0] [mkEnvRef 0 0 true; mkEnvRef 0 1 false]]
    [[1]; []] [chars_of "IX_LIB_DIR"; chars_of "buildPhase"] 1.

Lemma demo_drvs_wf : drvs_wf demo_drvs.
Proof.
  split; [by vm_compute; apply (bool_decide_unpack _)| |].
  - intros [|[|id]] key drv [= <- <-]; [constructor|]. apply (bool_decide_unpack _). by vm_compute.
  - intros [|[|id]] key drv [= <- <-]; apply (bool_decide_unpack _); by vm_compute.
Qed.

Lemma build_correct_witness :
  build demo_drvs = Ok demo_built ∧ plan_wf demo_built ∧ refs_wf demo_built ∧ plan_of demo_drvs demo_built.
Proof.
  destruct (build_correct demo_drvs demo_drvs_wf) as (plan & Hb & H).
  assert (build demo_drvs = Ok demo_built) as E by (vm_compute; reflexivity).
  split; [exact E|]. rewrite E in Hb. injection Hb as <-. exact H.
Defined.
