(* ===== verification/SearchStore.v ===== *)
(** The store behind search and ingestion: documents and metadata
    ([packages/source/meta/src/lib.rs]), filters ([packages/mixedbread/src/filter.rs]),
    the [Store] trait as an interface, and the in-memory store
    ([packages/search-core/src/backend.rs]); and what sequences of uploads and
    deletions do to a keyed store, whether they finish or fail half-way: the
    lemmas the passes over a store share. *)

From stdpp Require Import base gmap sets list strings.
From Stdlib Require Import SpecFloat Init.Byte.
From S2P Require Import Prelude Chars JsonValue StateErr.

(** * Documents *)

Definition Source : Type := text.
Definition SOURCE : text := chars_of "source".

Record Document := mkDocument {
  doc_external_id : text; doc_file_name : text; doc_mime : text; doc_body : list byte;
  doc_meta_json : Value; doc_content_hash : text }.

(** [Value::get] with a string. *)
Definition value_get (k : text) (v : Value) : option Value := match v with Obj m => get k m | _ => None end.
Definition as_str (v : Value) : option text := match v with Str s => Some s | _ => None end.
Definition as_array (v : Value) : option (list Value) := match v with Arr items => Some items | _ => None end.
Definition value_as_f64 (v : Value) : option f64 := match v with Num n => Some (as_f64 n) | _ => None end.

(** * Filters *)

Inductive Operator :=
| OpEq | OpNotEq | OpGt | OpGte | OpLt | OpLte | OpIn | OpNotIn | OpLike | OpNotLike | OpStartsWith | OpRegex.

Record Condition := mkCondition { cond_key : text; cond_operator : Operator; cond_value : Value }.

Inductive Filter :=
| FCondition (condition : Condition)
| FGroup (all any none : option (list Filter)).

Definition filter_eq (key : text) (value : Value) : Filter := FCondition (mkCondition key OpEq value).
Definition filter_all (filters : list Filter) : Filter := FGroup (Some filters) None None.

Definition json_contains (haystack : Value) (needle : option Value) : bool :=
  match needle with
  | None => false
  | Some needle =>
      match as_array haystack with
      | Some items => existsb (λ item, value_eqb item needle) items
      | None => value_eqb haystack needle
      end
  end.

Definition opt_value_eqb (a : option Value) (b : Value) : bool :=
  match a with Some a => value_eqb a b | None => false end.

(** [>], [>=], [<], [<=] on numbers. *)
Definition compares (op : Operator) (value bound : f64) : bool :=
  match op with
  | OpGt => SFltb bound value
  | OpGte => SFleb bound value
  | OpLt => SFltb value bound
  | _ => SFleb value bound
  end.

Definition matches_condition (meta : Value) (condition : Condition) : bool :=
  let actual := value_get (cond_key condition) meta in
  match cond_operator condition with
  | OpEq => opt_value_eqb actual (cond_value condition)
  | OpNotEq => negb (opt_value_eqb actual (cond_value condition))
  | OpIn => json_contains (cond_value condition) actual
  | OpNotIn => negb (json_contains (cond_value condition) actual)
  | OpStartsWith =>
      match actual ≫= as_str, as_str (cond_value condition) with
      | Some value, Some prefix => match strip_prefix prefix value with Some _ => true | None => false end
      | _, _ => false
      end
  | OpLike =>
      match actual ≫= as_str, as_str (cond_value condition) with
      | Some value, Some needle => contains needle value
      | _, _ => false
      end
  | OpGt | OpGte | OpLt | OpLte =>
      match actual ≫= value_as_f64, value_as_f64 (cond_value condition) with
      | Some value, Some bound => compares (cond_operator condition) value bound
      | _, _ => false
      end
  | OpNotLike | OpRegex => false
  end.

Fixpoint matches_filter (meta : Value) (filter : Filter) : bool :=
  match filter with
  | FCondition condition => matches_condition meta condition
  | FGroup all any none =>
      match all with Some fs => forallb (matches_filter meta) fs | None => true end &&
      match any with Some fs => existsb (matches_filter meta) fs | None => true end &&
      match none with Some fs => negb (existsb (matches_filter meta) fs) | None => true end
  end.

(** [filters.is_none_or(|f| matches_filter(&document.meta_json, f))]. *)
Definition passes (filters : option Filter) (document : Document) : bool :=
  match filters with Some f => matches_filter (doc_meta_json document) f | None => true end.

(** * The interface *)

Record StoredRecord := mkRecord {
  rec_external_id : text; rec_content_hash : option text; rec_source : option text;
  rec_file_id : option text; rec_created_at : option text }.

Inductive FileStatus := Pending | InProgress | Completed | Failed | Cancelled | Unknown.

Definition is_settled (status : FileStatus) : bool :=
  match status with Pending | InProgress => false | _ => true end.

(** The operations of the trait that ingestion uses. *)
Class Store (St E : Type) := {
  ensure_store : text → SM St E ();
  list_external_ids : text → option Filter → SM St E (gset text);
  list_records : text → option Filter → SM St E (list StoredRecord);
  upload : text → Document → SM St E ();
  delete : text → text → SM St E ();
  file_status : text → text → SM St E (option FileStatus) }.

(** Orders the program does not control: iteration over a hash map, the
    completion of futures that run together. *)
Class Arrange := {
  arrange : ∀ {A}, list A → list A;
  arrange_perm : ∀ {A} (l : list A), arrange l ≡ₚ l }.

(** * [MemoryStore] *)

Inductive MemoryError := InvalidMetadata (external_id key : text).

Record Stored := mkStored { stored_document : Document; stored_source : Source }.
Record Inner := mkInner { files : gmap text Stored; upload_calls : nat }.

Definition source_of (document : Document) : outcome MemoryError Source :=
  ok_or (value_get SOURCE (doc_meta_json document) ≫= as_str) (InvalidMetadata (doc_external_id document) SOURCE).

Section memory.
Context `{Arrange}.

Definition matching (filters : option Filter) (inner : Inner) : list Stored :=
  filter (λ stored, passes filters (stored_document stored) = true) (arrange (map_to_list (files inner)).*2).

Definition memory_list_external_ids (filters : option Filter) : SM Inner MemoryError (gset text) := λ inner,
  (Ok (list_to_set ((λ stored, doc_external_id (stored_document stored)) <$> matching filters inner)), inner).

Definition memory_record (stored : Stored) : StoredRecord :=
  mkRecord (doc_external_id (stored_document stored)) (Some (doc_content_hash (stored_document stored)))
    (Some (stored_source stored)) None None.
Definition memory_list_records (filters : option Filter) : SM Inner MemoryError (list StoredRecord) := λ inner,
  (Ok (memory_record <$> matching filters inner), inner).

Definition memory_upload (document : Document) : SM Inner MemoryError () := λ inner,
  match source_of document with
  | Ok source => (Ok (), mkInner (<[doc_external_id document := mkStored document source]> (files inner))
                          (upload_calls inner + 1))
  | Err e => (Err e, inner)
  | Panic => (Panic, inner)
  end.

Definition memory_delete (external_id : text) : SM Inner MemoryError () := λ inner,
  (Ok (), mkInner (base.delete external_id (files inner)) (upload_calls inner)).

Definition memory_file_status (external_id : text) : SM Inner MemoryError (option FileStatus) := λ inner,
  (Ok (match files inner !! external_id with Some _ => Some Completed | None => None end), inner).

#[export] Instance MemoryStore : Store Inner MemoryError := {
  ensure_store _ := λ inner, (Ok (), inner);
  list_external_ids _ := memory_list_external_ids;
  list_records _ := memory_list_records;
  upload _ := memory_upload;
  delete _ := memory_delete;
  file_status _ := memory_file_status }.
End memory.

(** * What a store promises *)

(** A document's source, as its metadata has it. *)
Definition doc_source (document : Document) : option Source := value_get SOURCE (doc_meta_json document) ≫= as_str.

(** The filter selecting one source's records. *)
Definition source_filter (source : Source) : Filter := filter_eq SOURCE (Str source).

(** The record lists the document. *)
Definition lists (r : StoredRecord) (d : Document) : Prop :=
  rec_external_id r = doc_external_id d ∧ rec_content_hash r = Some (doc_content_hash d) ∧ rec_source r = doc_source d.

(** The documents of one source. *)
Definition of_source (src : Source) (m : gmap text Document) : list Document :=
  filter (λ d, doc_source d = Some src) (map_to_list m).*2.

(** A store keyed by external id: [holds s m] says that the store named [name]
    holds the documents [m].  Operations that fail leave it as it was, and reads
    do not change it. *)
Class KeyedStore (St E : Type) `{Store St E} (name : text) := {
  holds : St → gmap text Document → Prop;
  holds_keys : ∀ s m, holds s m → ∀ k d, m !! k = Some d → doc_external_id d = k;
  holds_ensure : ∀ s m, holds s m → holds (ensure_store name s).2 m;
  holds_ids : ∀ s m filters, holds s m → holds (list_external_ids name filters s).2 m ∧
    ∀ ids s', list_external_ids name filters s = (Ok ids, s') →
      ∀ k, k ∈ ids ↔ ∃ d, m !! k = Some d ∧ passes filters d = true;
  holds_records : ∀ s m src, holds s m → holds (list_records name (Some (source_filter src)) s).2 m ∧
    ∀ rs s', list_records name (Some (source_filter src)) s = (Ok rs, s') →
      ∃ docs, docs ≡ₚ of_source src m ∧ Forall2 lists rs docs;
  holds_upload : ∀ s m d, holds s m →
    match upload name d s with
    | (Ok _, s') => holds s' (<[doc_external_id d := d]> m)
    | (_, s') => holds s' m
    end;
  holds_delete : ∀ s m k, holds s m →
    match delete name k s with
    | (Ok _, s') => holds s' (base.delete k m)
    | (_, s') => holds s' m
    end;
  holds_status : ∀ s m k, holds s m → holds (file_status name k s).2 m }.

Section memory_keyed.
Context `{Arrange} (name : text).

Definition memory_holds (inner : Inner) (m : gmap text Document) : Prop :=
  m = stored_document <$> files inner ∧
  ∀ k st, files inner !! k = Some st →
    doc_external_id (stored_document st) = k ∧ doc_source (stored_document st) = Some (stored_source st).

Lemma matches_source_filter src meta :
  matches_filter meta (source_filter src) = true ↔ value_get SOURCE meta ≫= as_str = Some src.
Proof.
  unfold source_filter, filter_eq. cbn [matches_filter]. unfold matches_condition. cbn [cond_operator cond_key cond_value].
  destruct (value_get SOURCE meta) as [[]|]; cbn; try (split; [done|intros [=]]).
  rewrite bool_decide_eq_true. split; [by intros ->|by intros [= ->]].
Qed.

Lemma matching_source inner m src :
  memory_holds inner m →
  (stored_document <$> matching (Some (source_filter src)) inner) ≡ₚ of_source src m.
Proof.
  intros [-> _]. unfold matching, of_source.
  rewrite (arrange_perm ((map_to_list (files inner)).*2)), map_to_list_fmap, <- !list_fmap_compose.
  rewrite !list_filter_fmap, <- !list_fmap_compose.
  rewrite (list_filter_iff_in (λ kst, passes (Some (source_filter src)) (stored_document kst.2) = true)
    (λ kst, doc_source ((snd ∘ prod_map id stored_document) kst) = Some src)); [done|].
  intros [k st] _. apply matches_source_filter.
Qed.

#[export] Instance MemoryStore_keyed : KeyedStore Inner MemoryError name.
Proof.
  refine {| holds := memory_holds |}.
  - intros s m [-> Hk] k d. rewrite lookup_fmap. intros (st & Hst & ->)%fmap_Some. by apply Hk.
  - done.
  - intros s m filters [-> Hk]. split; [done|]. intros ids s' [= <- _] k.
    rewrite elem_of_list_to_set, lookup_fmap. unfold matching. split.
    + intros (st & -> & [Hp Hin]%list_elem_of_filter)%list_elem_of_fmap. rewrite arrange_perm in Hin.
      apply list_elem_of_fmap in Hin as ([k' st'] & -> & Hin%elem_of_map_to_list). simpl in *.
      destruct (Hk _ _ Hin) as [-> _]. rewrite Hin. eauto.
    + intros (d & (st & Hst & ->)%fmap_Some & Hp). apply list_elem_of_fmap. exists st. split; [symmetry; by apply Hk|].
      apply list_elem_of_filter. split; [done|]. rewrite arrange_perm.
      apply list_elem_of_fmap. exists (k, st). split; [done|]. by apply elem_of_map_to_list.
  - intros s m src Hm. split; [done|]. intros rs s' [= <- _].
    exists (stored_document <$> matching (Some (source_filter src)) s). split; [by apply matching_source|].
    destruct Hm as [_ Hk]. apply Forall2_fmap_r, Forall2_fmap_l, Forall_Forall2_diag, Forall_forall.
    intros st [_ Hin]%list_elem_of_filter. rewrite arrange_perm in Hin.
    apply list_elem_of_fmap in Hin as ([k st'] & -> & Hin%elem_of_map_to_list).
    split_and!; [done|done|]. simpl. symmetry. by eapply Hk.
  - intros s m d Hm. cbn. unfold memory_upload, source_of.
    destruct (value_get SOURCE (doc_meta_json d) ≫= as_str) as [src|] eqn:Hs; simpl; [|done].
    destruct Hm as [-> Hk]. split; [cbn [files]; by rewrite fmap_insert|]. simpl. intros k st.
    intros [[<- <-]|[_ Hst]]%lookup_insert_Some; [done|by apply Hk].
  - intros s m k [-> Hk]. cbn. split; [cbn [files]; by rewrite fmap_delete|]. simpl. intros k' st [_ Hst]%lookup_delete_Some. by apply Hk.
  - done.
Defined.
End memory_keyed.

(** * A small store *)

Definition demo_doc (id src body : string) : Document :=
  mkDocument (chars_of id) (chars_of id) (chars_of "text/plain") []
    (Obj [(chars_of "source", Str (chars_of src))]) (chars_of body).
#[export] Instance in_order : Arrange := {| arrange A l := l; arrange_perm A l := reflexivity l |}.
Definition stored (d : Document) (src : string) : Stored := mkStored d (chars_of src).
Definition demo_store : Inner :=
  mkInner {[chars_of "a" := stored (demo_doc "a" "git" "1") "git"; chars_of "b" := stored (demo_doc "b" "git" "1") "git";
            chars_of "c" := stored (demo_doc "c" "slack" "1") "slack"]} 3.

Lemma demo_holds : memory_holds demo_store (stored_document <$> files demo_store).
Proof.
  split; [done|]. apply map_Forall_lookup.
  apply (bool_decide_unpack (map_Forall (λ k st, doc_external_id (stored_document st) = k ∧
    doc_source (stored_document st) = Some (stored_source st)) (files demo_store))). by vm_compute.
Qed.

(** * Documents by their id *)

Definition by_id (docs : list Document) : gmap text Document :=
  list_to_map ((λ d, (doc_external_id d, d)) <$> docs).

Abbreviation ids docs := (doc_external_id <$> docs).

Lemma by_id_keys docs : ((λ d, (doc_external_id d, d)) <$> docs).*1 = ids docs.
Proof. by rewrite <- list_fmap_compose. Qed.

Lemma lookup_by_id docs k d :
  NoDup (ids docs) → by_id docs !! k = Some d ↔ d ∈ docs ∧ doc_external_id d = k.
Proof.
  intros Hnd. unfold by_id. rewrite <- elem_of_list_to_map by (by rewrite by_id_keys).
  rewrite list_elem_of_fmap. split; [intros (d' & [= -> ->] & ?); done|]. intros [? <-]. by exists d.
Qed.

Lemma lookup_by_id_None docs k : by_id docs !! k = None ↔ k ∉ ids docs.
Proof. unfold by_id. by rewrite <- not_elem_of_list_to_map, by_id_keys. Qed.

Lemma by_id_perm docs docs' : NoDup (ids docs) → docs ≡ₚ docs' → by_id docs = by_id docs'.
Proof. intros Hnd Hp. apply list_to_map_proper; [by rewrite by_id_keys|by rewrite Hp]. Qed.

Lemma insert_by_id pre d m :
  doc_external_id d ∉ ids pre →
  <[doc_external_id d := d]> (by_id pre ∪ m) = by_id (pre ++ [d]) ∪ m.
Proof.
  intros Hd. unfold by_id. rewrite fmap_app, list_to_map_app. simpl. rewrite insert_union_l. f_equal.
  rewrite insert_empty, <- insert_union_singleton_r; [done|].
  apply not_elem_of_list_to_map. by rewrite by_id_keys.
Qed.

(** * What a pass may change *)

(** Some of the documents were uploaded, some of the ids deleted. *)
Definition touches (docs : list Document) (dels : text → Prop) (m m' : gmap text Document) : Prop :=
  ∀ k, m' !! k = m !! k ∨ (∃ d, d ∈ docs ∧ doc_external_id d = k ∧ m' !! k = Some d) ∨ (dels k ∧ m' !! k = None).

Lemma touches_refl docs dels m : touches docs dels m m.
Proof. by left. Qed.

Lemma touches_trans docs dels m1 m2 m3 : touches docs dels m1 m2 → touches docs dels m2 m3 → touches docs dels m1 m3.
Proof. intros H1 H2 k. destruct (H2 k) as [->|H]; [apply H1|by right]. Qed.

Lemma touches_insert docs dels m d : d ∈ docs → touches docs dels m (<[doc_external_id d := d]> m).
Proof.
  intros Hd k. destruct (decide (k = doc_external_id d)) as [->|].
  - right; left. exists d. by rewrite lookup_insert_eq.
  - left. by rewrite lookup_insert_ne.
Qed.

Lemma touches_delete docs (dels : text → Prop) m k : dels k → touches docs dels m (base.delete k m).
Proof.
  intros Hk j. destruct (decide (j = k)) as [->|]; [right; right; by rewrite lookup_delete_eq|left; by rewrite lookup_delete_ne].
Qed.

Lemma touches_mono docs docs' (dels dels' : text → Prop) m m' :
  docs ⊆ docs' → (∀ k, dels k → dels' k) → touches docs dels m m' → touches docs' dels' m m'.
Proof. intros Hd Hk H k. destruct (H k) as [?|[(d & ? & ? & ?)|[? ?]]]; [by left|right; left; eauto|right; right; eauto]. Qed.

Section effects.
Context {St E : Type} `{KeyedStore St E name}.

(** The store holds what [m] became by touching it. *)
Definition touched (docs : list Document) (dels : text → Prop) (m : gmap text Document) (s : St) : Prop :=
  ∃ m', holds s m' ∧ touches docs dels m m'.

Lemma touched_refl docs dels m s : holds s m → touched docs dels m s.
Proof. intros. exists m. split; [done|apply touches_refl]. Qed.

Lemma touched_upload docs dels m d s :
  d ∈ docs → touched docs dels m s → touched docs dels m (upload name d s).2.
Proof.
  intros Hd (m' & Hm & Ht). pose proof (holds_upload s m' d Hm) as Hu.
  destruct (upload name d s) as [[[]|e|] s']; [|by exists m'..].
  eexists. split; [done|]. eapply touches_trans; [done|by apply touches_insert].
Qed.

Lemma touched_delete docs (dels : text → Prop) m k s :
  dels k → touched docs dels m s → touched docs dels m (SearchStore.delete name k s).2.
Proof.
  intros Hk (m' & Hm & Ht). pose proof (holds_delete s m' k Hm) as Hu.
  destruct (SearchStore.delete name k s) as [[[]|e|] s']; [|by exists m'..].
  eexists. split; [done|]. eapply touches_trans; [done|by apply touches_delete].
Qed.

Lemma touched_ensure docs dels m s : touched docs dels m s → touched docs dels m (ensure_store name s).2.
Proof. intros (m' & Hm & Ht). exists m'. split; [by apply holds_ensure|done]. Qed.

Lemma touched_status docs dels m k s : touched docs dels m s → touched docs dels m (file_status name k s).2.
Proof. intros (m' & Hm & Ht). exists m'. split; [by apply holds_status|done]. Qed.

(** Wrapping the error leaves the state. *)
Lemma context_state {F A} (f : E → F) (c : SM St E A) s : (context f c s).2 = (c s).2.
Proof. unfold context. by destruct (c s). Qed.

Lemma bind_state {F A B} (P : St → Prop) (c : SM St F A) (k : A → SM St F B) s :
  P (c s).2 → (∀ a s', c s = (Ok a, s') → P s' → P (k a s').2) → P ((c ≫= k) s).2.
Proof.
  intros Hc Hk. unfold mbind, sm_bind. destruct (c s) as [[a|e|] s1] eqn:Hcs; simpl in *; [|done..].
  by apply Hk.
Qed.

Lemma ret_state {F A} (P : St → Prop) (a : A) s : P s → P ((mret a : SM St F A) s).2.
Proof. done. Qed.
End effects.
