(* ===== verification/SearchSync.v ===== *)
(** Uploading a checkout, and waiting until the store has embedded it:
    [packages/search-core/src/sync.rs], with the metadata check of
    [packages/source/meta/src/lib.rs].

    Reading a file and serializing JSON are functions the code is given.  Time
    is what [Instant::elapsed] reads after each poll.  The progress callback of
    [sync] only observes and is left out; what [on_poll] is told is returned. *)

From stdpp Require Import base gmap sets list strings.
From Stdlib Require Import Init.Byte.
From S2P Require Import Prelude Chars JsonValue StateErr SearchStore.
Local Open Scope outcome_scope.

(** * Metadata limits *)

Definition MAX_METADATA_BYTES : N := 128 * 1024.
Definition MAX_METADATA_KEYS : nat := 256.

Inductive MetadataError :=
| TooLarge (external_id : text) (bytes : N)
| TooManyKeys (external_id : text) (count : nat)
| Encode (external_id : text).

Section check.
Context (to_vec : Value → option (list byte)).

Definition check_metadata (external_id : text) (meta : Value) : outcome MetadataError (list byte) :=
  let keys := match meta with Obj m => length m | _ => 0 end in
  guard! bool_decide (keys ≤ MAX_METADATA_KEYS) else TooManyKeys external_id keys;
  bytes ← ok_or (to_vec meta) (Encode external_id);
  let len := N.of_nat (length bytes) in
  guard! bool_decide (len <= MAX_METADATA_BYTES)%N else TooLarge external_id len;
  Ok bytes.
End check.

(** * Errors *)

Inductive SyncError (E : Type) :=
| StoreError (e : E)
| TooManyFiles (count max : nat)
| ReadFile (path : text)
| MetadataLimit (e : MetadataError).
Arguments StoreError {E}.
Arguments TooManyFiles {E}.
Arguments ReadFile {E}.
Arguments MetadataLimit {E}.

(** * Waiting *)

Record StoreStatus := mkStatus { pending : nat; in_progress : nat }.

Definition POLL_INTERVAL : Z := 500.

Section wait.
Context {St E : Type} `{Store St E} `{Arrange} (name : text).
Context (elapsed : nat → Z) (timeout : Z).

(** What one poll says of one file. *)
Definition poll_result (st : StoreStatus * list text) (result : outcome E (text * option FileStatus)) :
    SM St E (StoreStatus * list text) :=
  let '(status, remaining) := st in
  '(id, file_status) ← lift result;
  mret match file_status with
       | Some Pending => (mkStatus (pending status + 1) (in_progress status), remaining ++ [id])
       | Some InProgress => (mkStatus (pending status) (in_progress status + 1), remaining ++ [id])
       | Some _ | None => (status, remaining)
       end.

Definition poll (remaining : list text) : SM St E (StoreStatus * list text) :=
  polled ← collected (λ id, status ← file_status name id; mret (id, status)) (arrange remaining);
  foldS poll_result (mkStatus 0 0, []) polled.

(** The [loop]: [polls] is what [on_poll] has been told, and [fuel] bounds the
    polls that follow. *)
Fixpoint wait_loop (fuel : nat) (polls : list StoreStatus) (remaining : list text) :
    SM St E (bool * list StoreStatus) :=
  '(status, remaining) ← poll remaining;
  let now := elapsed (length polls) in
  let polls := polls ++ [status] in
  if decide (remaining = []) then mret (true, polls)
  else if decide (timeout <= now)%Z then mret (false, polls)
  else match fuel with
       | O => lift Panic
       | S fuel => wait_loop fuel polls remaining
       end.

Definition wait_until_indexed (external_ids : list text) : SM St E (bool * list StoreStatus) :=
  wait_loop (Z.to_nat (timeout / POLL_INTERVAL) + 1) [] external_ids.
End wait.

(** * Uploading *)

Record FileEntry := mkFileEntry { fe_rel_path : text; fe_hash : text; fe_mtime_ms : Z; fe_size : Z }.
Record Manifest := mkManifest { entries : list FileEntry }.
Record SyncReport := mkSyncReport {
  sr_uploaded : nat; sr_skipped : nat; sr_total : nat; sr_uploaded_ids : list text }.

Definition file_name_of (rel_path : text) : text := last_segment rel_path.

Section sync.
Context {St E : Type} `{Store St E} `{Arrange} (name : text).
Context (to_vec : Value → option (list byte)) (read_file : text → option (list byte)).

Definition code_meta (repo : text) (entry : FileEntry) : Value :=
  Obj [(chars_of "source", Str (chars_of "code")); (chars_of "external_id", Str (fe_hash entry));
       (chars_of "content_hash", Str (fe_hash entry)); (chars_of "title", Str (fe_rel_path entry));
       (chars_of "repo", Str repo); (chars_of "path", Str (fe_rel_path entry))].

Definition code_document (repo : text) (entry : FileEntry) (body : list byte) : outcome (SyncError E) Document :=
  let meta_json := code_meta repo entry in
  _ ← map_err MetadataLimit (check_metadata to_vec (fe_hash entry) meta_json);
  Ok (mkDocument (fe_hash entry) (file_name_of (fe_rel_path entry)) (chars_of "text/plain") body meta_json (fe_hash entry)).

Definition upload_entry (repo : text) (entry : FileEntry) : SM St (SyncError E) () :=
  content ← lift (ok_or (read_file (fe_rel_path entry)) (ReadFile (fe_rel_path entry)));
  document ← lift (code_document repo entry content);
  context StoreError (upload name document).

(** [filter(|e| seen.insert(e.hash))] over the entries the store lacks. *)
Fixpoint unseen (seen : gset text) (l : list FileEntry) : list FileEntry :=
  match l with
  | [] => []
  | e :: l => if decide (fe_hash e ∈ seen) then unseen seen l else e :: unseen ({[fe_hash e]} ∪ seen) l
  end.

Definition code_scope (repo : text) : Filter :=
  filter_all [filter_eq SOURCE (Str (chars_of "code")); filter_eq (chars_of "repo") (Str repo)].

Definition sync (manifest : Manifest) (repo : text) (max_files : nat) : SM St (SyncError E) SyncReport :=
  _ ← context StoreError (ensure_store name);
  remote ← context StoreError (list_external_ids name (Some (code_scope repo)));
  let to_upload := unseen ∅ (filter (λ e, fe_hash e ∉ remote) (entries manifest)) in
  let total := length (entries manifest) in
  let upload_target := length to_upload in
  let skipped := total - upload_target in
  if decide (max_files < upload_target) then raise (TooManyFiles upload_target max_files)
  else
    let uploaded_ids := fe_hash <$> to_upload in
    results ← collected (upload_entry repo) (arrange to_upload);
    uploaded ← foldS (λ n r, _ ← lift r; mret (n + 1)) 0 results;
    mret (mkSyncReport uploaded skipped total uploaded_ids).
End sync.
