(* ===== verification/SearchSyncProps.v ===== *)
(** [packages/search-core/src/sync.rs]: waiting ends, and says what it saw;
    uploading a checkout adds what the store lacks and deletes nothing. *)

From stdpp Require Import base gmap sets list strings.
From Stdlib Require Import Init.Byte.
From S2P Require Import Prelude Chars JsonValue StateErr SearchStore SearchSync.
Local Open Scope outcome_scope.

(** * Waiting *)

Section wait.
Context {St E : Type} `{Store St E} `{Arrange} (name : text).
Context (elapsed : nat → Z) (timeout : Z).

(** Futures return; they do not panic. *)
Context (status_returns : ∀ id s, (file_status name id s).1 ≠ Panic).
(** Every round sleeps for the interval before the next. *)
Context (slept : ∀ i, (Z.of_nat i * POLL_INTERVAL <= elapsed i)%Z).
(** What the store says of files while the wait lasts: its state changes as it
    likes within [I], in which reading a status is a read of [obs]. *)
Context (I : St → Prop).
Context (status_inv : ∀ id s, I s → I (file_status name id s).2).

(** A file that some state of the wait had settled. *)
Definition settled_somewhere (id : text) : Prop :=
  ∃ s s' st, I s ∧ file_status name id s = (Ok st, s') ∧ match st with Some st => is_settled st = true | None => True end.

(** What a status request may answer. *)
Definition answers (id : text) (r : outcome E (text * option FileStatus)) : Prop :=
  match r with
  | Ok (id', st) => id' = id ∧ (match st with Some st => is_settled st = true | None => True end → settled_somewhere id)
  | Err _ => True
  | Panic => False
  end.

Definition ask (id : text) : SM St E (text * option FileStatus) := status ← file_status name id; mret (id, status).

Lemma ask_results ids s rs s' :
  I s → run_all ask ids s = (rs, s') →
  I s' ∧ Forall2 answers ids rs.
Proof.
  revert s rs. induction ids as [|id ids IH]; intros s rs Hs; cbn [run_all]; [intros [= <- <-]; split; [done|constructor]|].
  destruct (ask id s) as [r s1] eqn:Hr. destruct (run_all ask ids s1) as [rs1 s2] eqn:E1. intros [= <- <-].
  unfold ask, mbind, sm_bind, mret, sm_ret in Hr. pose proof (status_inv id s Hs) as Hs1. pose proof (status_returns id s) as Hnp.
  destruct (file_status name id s) as [[st|e|] s1'] eqn:Hf; simpl in *; simplify_eq.
  - destruct (IH s1 rs1 Hs1 E1) as [? ?]. split; [done|]. constructor; [|done]. split; [done|].
    intros Hst. by exists s, s1, st.
  - destruct (IH s1 rs1 Hs1 E1) as [? ?]. split; [done|]. by constructor.
Qed.

(** The ids a poll keeps watching are some of those asked about, and those it
    drops were settled. *)
Lemma poll_results_spec ids rs status remaining (s : St) r s' :
  Forall2 answers ids rs →
  foldS poll_result (status, remaining) rs s = (r, s') →
  s' = s ∧ match r with
  | Ok (status', remaining') => ∃ more, remaining' = remaining ++ more ∧
      pending status' + in_progress status' = pending status + in_progress status + length more ∧
      ∀ id, id ∈ ids → id ∈ more ∨ settled_somewhere id
  | Err _ => True
  | Panic => False
  end.
Proof.
  intros HF. revert status remaining. induction HF as [|id res ids rs Hr HF IH]; intros status remaining; cbn [foldS].
  { intros [= <- <-]. split; [done|]. exists []. rewrite app_nil_r. split_and!; [done|simpl; lia|by intros ? ?%elem_of_nil]. }
  unfold mbind, sm_bind, poll_result at 1, lift. unfold mbind, sm_bind.
  destruct res as [[id' st]|e|]; [|by intros [= <- <-]|done]. destruct Hr as [-> Hset]. simpl.
  assert (∃ status1 more1, (match st with
     | Some Pending => (mkStatus (pending status + 1) (in_progress status), remaining ++ [id])
     | Some InProgress => (mkStatus (pending status) (in_progress status + 1), remaining ++ [id])
     | Some _ | None => (status, remaining) end) = (status1, remaining ++ more1) ∧
     pending status1 + in_progress status1 = pending status + in_progress status + length more1 ∧
     (id ∈ more1 ∨ settled_somewhere id)) as (status1 & more1 & -> & Hn & Hid).
  { destruct st as [[]|]; eexists _, _; (split; [reflexivity || by rewrite app_nil_r|]); simpl;
      (split; [lia|]); first [by left; left|right; by apply Hset]. }
  intros Hrest. destruct (IH status1 (remaining ++ more1) Hrest) as [-> Hr']. split; [done|].
  destruct r as [[status' remaining']|e|]; [|done..]. destruct Hr' as (more & -> & Hn' & Hall).
  exists (more1 ++ more). rewrite app_assoc, length_app. split_and!; [done|lia|].
  intros id' [->|Hin]%elem_of_cons; [|destruct (Hall id' Hin)]; set_solver.
Qed.

Lemma poll_spec remaining s r s' :
  I s → poll name remaining s = (r, s') →
  I s' ∧ match r with
  | Ok (status, remaining') => pending status + in_progress status = length remaining' ∧
      ∀ id, id ∈ remaining → id ∈ remaining' ∨ settled_somewhere id
  | Err _ => True
  | Panic => False
  end.
Proof.
  intros Hs. unfold poll, collected. unfold mbind at 1, sm_bind at 1.
  destruct (run_all _ (arrange remaining) s) as [rs s1] eqn:Ha.
  destruct (ask_results _ _ _ _ Hs Ha) as [Hs1 HF]. intros Hf.
  destruct (poll_results_spec _ _ _ _ _ _ _ HF Hf) as [-> Hr]. split; [done|].
  destruct r as [[status remaining']|e|]; [|done..]. destruct Hr as (more & -> & Hn & Hall). split; [done|].
  intros id Hid. apply Hall. by rewrite arrange_perm.
Qed.

Lemma wait_loop_spec fuel polls remaining s r s' :
  I s → (timeout <= elapsed (length polls + fuel))%Z →
  wait_loop name elapsed timeout fuel polls remaining s = (r, s') →
  I s' ∧ match r with
  | Ok (true, polls') => (∀ id, id ∈ remaining → settled_somewhere id) ∧ last polls' = Some (mkStatus 0 0)
  | Ok (false, polls') => (timeout <= elapsed (length polls' - 1))%Z ∧
      ∃ st, last polls' = Some st ∧ 0 < pending st + in_progress st
  | Err _ => True
  | Panic => False
  end.
Proof.
  revert polls remaining s. induction fuel as [|fuel IH]; intros polls remaining s Hs Ht; cbn [wait_loop];
    unfold mbind at 1, sm_bind at 1; destruct (poll name remaining s) as [[[status remaining']|e|] s1] eqn:Hp;
    destruct (poll_spec _ _ _ _ Hs Hp) as [Hs1 Hr]; try done; try (by intros [= <- <-]).
  all: destruct Hr as [Hn Hall].
  all: case_decide as Hrem; [intros [= <- <-]; split; [done|]; subst; split;
    [intros id Hid; destruct (Hall id Hid) as [?%elem_of_nil|?]; done|
     rewrite last_snoc; f_equal; destruct status; simpl in *; f_equal; lia]|].
  all: assert (0 < pending status + in_progress status) by (rewrite Hn; destruct remaining'; [done|simpl; lia]).
  all: case_decide as Hto; [intros [= <- <-]; split; [done|]; rewrite last_snoc, length_app; simpl;
    split; [by replace (length polls + 1 - 1) with (length polls) by lia|eauto]|].
  - exfalso. apply Hto. by rewrite Nat.add_0_r in Ht.
  - intros Hw. apply IH in Hw; [|done|rewrite length_app; simpl; by replace (length polls + 1 + fuel) with (length polls + S fuel) by lia].
    destruct Hw as [? Hw]. split; [done|]. destruct r as [[[] polls']|e|]; [|done..].
    destruct Hw as [Hset Hlast]. split; [|done]. intros id Hid. destruct (Hall id Hid); [by apply Hset|done].
Qed.

Lemma wait_spec ids s r s' :
  I s → wait_until_indexed name elapsed timeout ids s = (r, s') →
  I s' ∧ match r with
  | Ok (true, polls) => (∀ id, id ∈ ids → settled_somewhere id) ∧ last polls = Some (mkStatus 0 0)
  | Ok (false, polls) => (timeout <= elapsed (length polls - 1))%Z ∧
      ∃ st, last polls = Some st ∧ 0 < pending st + in_progress st
  | Err _ => True
  | Panic => False
  end.
Proof.
  intros Hs. apply wait_loop_spec; [done|]. simpl.
  assert (timeout < (timeout / POLL_INTERVAL + 1) * POLL_INTERVAL)%Z as Hd.
  { unfold POLL_INTERVAL. pose proof (Z.div_mod timeout 500 ltac:(lia)). pose proof (Z.mod_pos_bound timeout 500 ltac:(lia)). lia. }
  etrans; [|apply slept]. unfold POLL_INTERVAL in *. lia.
Qed.
End wait.

(** * Uploading *)

Lemma unseen_spec seen l :
  NoDup (fe_hash <$> unseen seen l) ∧
  (∀ e, e ∈ unseen seen l → e ∈ l ∧ fe_hash e ∉ seen) ∧
  ∀ e, e ∈ l → fe_hash e ∈ seen ∨ fe_hash e ∈ fe_hash <$> unseen seen l.
Proof.
  revert seen. induction l as [|e l IH]; intros seen; cbn [unseen].
  { split_and!; [constructor|by intros ? ?%elem_of_nil|by intros ? ?%elem_of_nil]. }
  case_decide as He.
  - destruct (IH seen) as (H1 & H2 & H3). split_and!; [done| |].
    + intros e' He'. destruct (H2 e' He'). split; [by right|done].
    + intros e' [->|He']%elem_of_cons; [by left|by apply H3].
  - destruct (IH ({[fe_hash e]} ∪ seen)) as (H1 & H2 & H3). split_and!.
    + csimpl. constructor; [|done]. intros (e' & Heq & He')%list_elem_of_fmap. destruct (H2 e' He') as [_ Hn]. set_solver.
    + intros e' [->|He']%elem_of_cons; [split; [left|done]|]. destruct (H2 e' He') as [? Hn]. split; [by right|set_solver].
    + intros e' [->|He']%elem_of_cons; csimpl; [right; left|]. destruct (H3 e' He') as [?|?]; set_solver.
Qed.

(** The blob is in the repository's scope already. *)
Definition has_blob (repo : text) (m : gmap text Document) (e : FileEntry) : bool :=
  match m !! fe_hash e with Some d => passes (Some (code_scope repo)) d | None => false end.

(** The entries a checkout adds to the documents [m]. *)
Definition new_entries (repo : text) (manifest : Manifest) (m : gmap text Document) : list FileEntry :=
  unseen ∅ (filter (λ e, has_blob repo m e = false) (entries manifest)).

Section sync.
Context {St E : Type} `{KeyedStore St E name} `{Arrange}.
Context (to_vec : Value → option (list byte)) (read_file : text → option (list byte)).

(** The document of an entry, when its file can be read and its metadata fits. *)
Definition entry_document (repo : text) (entry : FileEntry) : option Document :=
  content ← read_file (fe_rel_path entry);
  match code_document (E:=E) to_vec repo entry content with Ok d => Some d | _ => None end.

Lemma entry_document_id repo e d : entry_document repo e = Some d → doc_external_id d = fe_hash e.
Proof.
  unfold entry_document. destruct (read_file _) as [content|]; [|done]. simpl. unfold code_document.
  destruct (map_err _ _) as [bytes|er|]; simpl; [|done..]. by intros [= <-].
Qed.

Lemma upload_entry_cases repo e s :
  (upload_entry name to_vec read_file repo e s).2 = s ∧
    (∀ u, (upload_entry name to_vec read_file repo e s).1 ≠ Ok u) ∨
  ∃ d, entry_document repo e = Some d ∧
    upload_entry name to_vec read_file repo e s = context StoreError (upload name d) s.
Proof.
  unfold upload_entry, entry_document, mbind, sm_bind, lift.
  destruct (read_file (fe_rel_path e)) as [content|]; simpl; [|by left].
  destruct (code_document to_vec repo e content) as [d|er|]; [right; by exists d|left; done|left; done].
Qed.


Lemma new_entries_NoDup repo manifest m : NoDup (fe_hash <$> new_entries repo manifest m).
Proof. apply unseen_spec. Qed.

Lemma documents_NoDup repo l :
  NoDup (fe_hash <$> l) → NoDup (ids (omap (entry_document repo) l)).
Proof.
  induction l as [|e l IH]; csimpl; [constructor|]. intros [He Hnd]%NoDup_cons.
  destruct (entry_document repo e) as [d|] eqn:Hd; [|by apply IH]. csimpl. constructor; [|by apply IH].
  intros (d' & Heq & (e' & Hin & He')%list_elem_of_omap)%list_elem_of_fmap. apply He.
  rewrite <- (entry_document_id _ _ _ Hd), Heq, (entry_document_id _ _ _ He'). by apply list_elem_of_fmap_2.
Qed.

Lemma uploads_touched repo l m s :
  touched (omap (entry_document repo) l) (λ _, False) m s →
  touched (omap (entry_document repo) l) (λ _, False) m (run_all (upload_entry name to_vec read_file repo) (arrange l) s).2.
Proof.
  intros Hs. apply run_all_inv; [done|]. intros e s1 He Hs1. rewrite arrange_perm in He.
  destruct (upload_entry_cases repo e s1) as [[-> _]|(d & Hd & ->)]; [done|].
  rewrite context_state. apply touched_upload; [|done]. apply list_elem_of_omap. eauto.
Qed.

(** Counting the uploads: it succeeds when all of them did. *)
Lemma count_uploads {F} (rs : list (outcome F ())) acc (s : St) n s' :
  foldS (λ n r, _ ← lift r; mret (n + 1)) acc rs s = (Ok n, s') →
  s' = s ∧ n = acc + length rs ∧ Forall (λ r, ∃ b, r = Ok b) rs.
Proof.
  revert acc. induction rs as [|r rs IH]; intros acc; cbn [foldS].
  - intros [= <- <-]. simpl. split_and!; [done|lia|constructor].
  - intros (k & s1 & (u & s2 & Hl & [= <- <-])%sm_bind_Ok & Hrest)%sm_bind_Ok. unfold lift in Hl.
    destruct r as [u'|e|]; simplify_eq/=. apply IH in Hrest as (-> & -> & ?). split_and!; [done|lia|].
    constructor; [by eexists|done].
Qed.

Lemma run_all_length {F A B} (f : A → SM St F B) l s : length (run_all f l s).1 = length l.
Proof.
  revert s. induction l as [|a l IH]; intros s; cbn [run_all]; [done|].
  destruct (f a s) as [r s1]. specialize (IH s1). destruct (run_all f l s1). simpl in *. by rewrite IH.
Qed.

Lemma uploads_Ok repo l m s rs s' :
  NoDup (fe_hash <$> l) → holds s m →
  run_all (upload_entry name to_vec read_file repo) (arrange l) s = (rs, s') → Forall (λ r, ∃ b, r = Ok b) rs →
  holds s' (by_id (omap (entry_document repo) l) ∪ m) ∧ Forall (λ e, is_Some (entry_document repo e)) l.
Proof.
  intros Hnd Hm Hr Hall.
  assert (NoDup (ids (omap (entry_document repo) (arrange l)))) as Hnd'.
  { apply documents_NoDup. by rewrite arrange_perm. }
  rewrite <- (arrange_perm l) at 2.
  rewrite <- (by_id_perm (omap (entry_document repo) (arrange l)) (omap (entry_document repo) l)) by (done || by rewrite arrange_perm).
  refine (run_all_Ok (λ pre s, holds s (by_id (omap (entry_document repo) pre) ∪ m) ∧
    Forall (λ e, is_Some (entry_document repo e)) pre) _ (arrange l) s rs s' _ _ Hr Hall).
  - unfold by_id. simpl. rewrite (left_id ∅ (∪)). split; [done|constructor].
  - intros pre e post s1 [] s2 Heq [Hpre Hsome] Hup. destruct (upload_entry_cases repo e s1) as [[_ Hno]|(d & Hd & Hup')].
    { exfalso. apply (Hno ()). by rewrite Hup. }
    rewrite Hup' in Hup. apply context_Ok in Hup. pose proof (holds_upload s1 _ d Hpre) as Hu. rewrite Hup in Hu.
    split; [|apply Forall_app; split; [done|]; by repeat constructor; rewrite Hd].
    rewrite omap_app. simpl. rewrite Hd. rewrite insert_by_id in Hu; [done|].
    rewrite Heq, omap_app, fmap_app in Hnd'. simpl in Hnd'. rewrite Hd in Hnd'. apply NoDup_app in Hnd' as (_ & Hdis & _).
    intros Hin. apply (Hdis _ Hin). left.
Qed.

Lemma remote_filter (repo : text) (m : gmap text Document) (remote : gset text) (l : list FileEntry) :
  (∀ k, k ∈ remote ↔ ∃ d, m !! k = Some d ∧ passes (Some (code_scope repo)) d = true) →
  filter (λ e, fe_hash e ∉ remote) l = filter (λ e, has_blob repo m e = false) l.
Proof.
  intros Hr. apply list_filter_iff_in. intros e _. rewrite Hr. unfold has_blob.
  destruct (m !! fe_hash e) as [d|]; [|split; [done|by intros _ (? & [=] & _)]].
  rewrite <- not_true_iff_false. split; intros Hn Hp; apply Hn; [by exists d|]. by destruct Hp as (d0 & [= ->] & ?).
Qed.

Lemma new_entries_cover repo manifest m e :
  e ∈ entries manifest → is_Some (m !! fe_hash e) ∨ fe_hash e ∈ fe_hash <$> new_entries repo manifest m.
Proof.
  intros He. destruct (has_blob repo m e) eqn:Hb.
  - left. unfold has_blob in Hb. by destruct (m !! fe_hash e).
  - right. destruct (unseen_spec ∅ (filter (λ e, has_blob repo m e = false) (entries manifest))) as (_ & _ & Hc).
    destruct (Hc e) as [?|?]; [by apply list_elem_of_filter|set_solver|done].
Qed.

(** Only the limit raises [TooManyFiles]. *)
Definition not_too_many (e : SyncError E) : Prop := match e with TooManyFiles _ _ => False | _ => True end.

Lemma upload_entry_errs repo e : errs not_too_many (upload_entry name to_vec read_file repo e).
Proof.
  unfold upload_entry. apply errs_bind.
  { intros s er s'. unfold lift. by destruct (read_file _); intros [= <- <-]. }
  intros content _ _ _. apply errs_bind; [|intros; by apply errs_context].
  intros s er s'. unfold lift, code_document. intros [= He <-].
  destruct (check_metadata _ _ _); simpl in He; by simplify_eq.
Qed.

Lemma count_errs repo l (s : St) acc (s1 : St) e s' :
  foldS (λ n r, _ ← lift r; mret (n + 1)) acc (run_all (upload_entry name to_vec read_file repo) l s).1 s1 = (Err e, s') →
  not_too_many e.
Proof.
  pose proof (run_all_errs not_too_many (upload_entry name to_vec read_file repo) l s (upload_entry_errs repo)) as HF.
  rewrite Forall_forall in HF. revert s1 e s'. apply (errs_foldS not_too_many). intros n r Hr. apply errs_bind; [|intros; apply errs_ret].
  intros s1 e s'. unfold lift. intros [= -> <-]. by apply (HF _ Hr).
Qed.

Lemma sync_spec manifest repo max_files m s r s' :
  holds s m → sync name to_vec read_file manifest repo max_files s = (r, s') →
  let fresh := new_entries repo manifest m in
  let docs := omap (entry_document repo) fresh in
  touched docs (λ _, False) m s' ∧
  match r with
  | Ok report =>
      report = mkSyncReport (length fresh) (length (entries manifest) - length fresh) (length (entries manifest)) (fe_hash <$> fresh) ∧
      length fresh ≤ max_files ∧ Forall (λ e, is_Some (entry_document repo e)) fresh ∧
      holds s' (by_id docs ∪ m)
  | Err (TooManyFiles count max) => holds s' m ∧ count = length fresh ∧ max = max_files ∧ max_files < count
  | _ => True
  end.
Proof.
  intros Hm. unfold sync. intros Hs. cbv zeta. revert Hs. unfold mbind at 1, sm_bind at 1. unfold context at 1.
  pose proof (holds_ensure s m Hm) as Hm1.
  destruct (ensure_store name s) as [[[]|e|] s1]; simpl in *; try (by intros [= <- <-]; split; [by apply touched_refl|]).
  unfold mbind at 1, sm_bind at 1. unfold context at 1. destruct (holds_ids s1 m (Some (code_scope repo)) Hm1) as [Hm2 Hids].
  destruct (list_external_ids name (Some (code_scope repo)) s1) as [[remote|e|] s2]; simpl in *;
    try (by intros [= <- <-]; split; [by apply touched_refl|]).
  rewrite (remote_filter repo m remote) by (by eapply Hids).
  change (unseen ∅ (filter (λ e, has_blob repo m e = false) (entries manifest))) with (new_entries repo manifest m).
  set (fresh := new_entries repo manifest m). case_decide as Hmax.
  { intros [= <- <-]. split; [by apply touched_refl|done]. }
  unfold mbind at 1, sm_bind at 1, collected.
  pose proof (uploads_touched repo fresh m s2 (touched_refl _ _ _ s2 Hm2)) as Ht.
  destruct (run_all (upload_entry name to_vec read_file repo) (arrange fresh) s2) as [rs s3] eqn:Hr. simpl in Ht.
  unfold mbind at 1, sm_bind at 1.
  destruct (foldS (λ n r0, _ ← lift r0; mret (n + 1)) 0 rs s3) as [[n|e|] s4] eqn:Hc; simpl.
  - intros [= <- <-]. apply count_uploads in Hc as (-> & -> & Hall). split; [done|].
    destruct (uploads_Ok repo fresh m s2 rs s3 (new_entries_NoDup repo manifest m) Hm2 Hr Hall) as [Hh Hsome].
    pose proof (run_all_length (upload_entry name to_vec read_file repo) (arrange fresh) s2) as Hlen.
    rewrite Hr, arrange_perm in Hlen. simpl in *. rewrite Hlen. split_and!; [done|lia|done|done].
  - intros [= <- <-].
    assert (s4 = s3) as ->.
    { replace s4 with (foldS (λ n r0, _ ← lift r0; mret (n + 1)) 0 rs s3).2 by (by rewrite Hc).
      apply (foldS_inv (λ s, s = s3)); [done|]. intros acc r0 s5 _ ->. by destruct r0. }
    split; [done|]. pose proof (count_errs repo (arrange fresh) s2 0 s3 e s3) as He. rewrite Hr in He.
    specialize (He Hc). by destruct e.
  - intros [= <- <-].
    assert (s4 = s3) as ->.
    { replace s4 with (foldS (λ n r0, _ ← lift r0; mret (n + 1)) 0 rs s3).2 by (by rewrite Hc).
      apply (foldS_inv (λ s, s = s3)); [done|]. intros acc r0 s5 _ ->. by destruct r0. }
    done.
Qed.
End sync.

(** * Claims *)

(** [wait_until_indexed] ends, for every store whose status requests return and
    every clock on which each round takes at least the poll interval: within
    timeout / interval + 1 sleeps.  [true] means that every file was seen settled
    or gone, in some state the store was in, and that the last poll reported
    nothing pending; [false] means that the timeout had passed while the last poll
    still reported files pending or in progress. *)
Lemma wait_ends `{HS : Store St E} `{HA : Arrange} name (elapsed : nat → Z) timeout (I : St → Prop) external_ids s :
  (∀ id s, (file_status name id s).1 ≠ Panic) →
  (∀ i, (Z.of_nat i * POLL_INTERVAL <= elapsed i)%Z) →
  (∀ id s, I s → I (file_status name id s).2) → I s →
  let '(r, s') := wait_until_indexed name elapsed timeout external_ids s in
  I s' ∧ match r with
  | Ok (true, polls) => (∀ id, id ∈ external_ids → settled_somewhere name I id) ∧ last polls = Some (mkStatus 0 0)
  | Ok (false, polls) => (timeout <= elapsed (length polls - 1)%nat)%Z ∧
      ∃ st, last polls = Some st ∧ 0 < pending st + in_progress st
  | Err _ => True
  | Panic => False
  end.
Proof.
  intros Hret Hslept Hinv Hs. destruct (wait_until_indexed name elapsed timeout external_ids s) as [r s'] eqn:Hw.
  by apply (wait_spec name elapsed timeout Hret Hslept I Hinv external_ids s).
Qed.

(** [sync] on a store keyed by content hash never deletes, and overwrites only
    what is new: the first entry of each hash that the repository's scope of the
    store lacks.  When it succeeds, every file of the manifest is in the store, the
    new ones as their code documents, and the report lists and counts them; when
    there are more of them than allowed it stops with the number, before any
    upload. *)
Lemma sync_adds `{HS : KeyedStore St E name} `{HA : Arrange} to_vec read_file manifest repo max_files m (s : St) :
  holds s m →
  let fresh := new_entries repo manifest m in
  let docs := omap (entry_document (E:=E) to_vec read_file repo) fresh in
  let '(r, s') := sync name to_vec read_file manifest repo max_files s in
  touched docs (λ _, False) m s' ∧
  match r with
  | Ok report =>
      report = mkSyncReport (length fresh) (length (entries manifest) - length fresh) (length (entries manifest)) (fe_hash <$> fresh) ∧
      length fresh ≤ max_files ∧
      ∃ m', holds s' m' ∧ (∀ e, e ∈ entries manifest → is_Some (m' !! fe_hash e)) ∧
        (∀ e, e ∈ fresh → m' !! fe_hash e = entry_document (E:=E) to_vec read_file repo e) ∧
        (∀ k, k ∉ fe_hash <$> fresh → m' !! k = m !! k)
  | Err (TooManyFiles count max) => holds s' m ∧ count = length fresh ∧ max = max_files ∧ max_files < count
  | _ => True
  end.
Proof.
  intros Hm. cbv zeta. destruct (sync name to_vec read_file manifest repo max_files s) as [r s'] eqn:Hs.
  destruct (sync_spec to_vec read_file manifest repo max_files m s r s' Hm Hs) as [Ht Hr]. split; [exact Ht|].
  destruct r as [report|e|]; [|exact Hr|done]. destruct Hr as (-> & Hmax & Hsome & Hh). split; [done|]. split; [done|].
  pose proof (documents_NoDup (E:=E) to_vec read_file repo _ (new_entries_NoDup repo manifest m)) as Hnd.
  eexists. split; [exact Hh|]. rewrite Forall_forall in Hsome.
  assert (∀ e, e ∈ new_entries repo manifest m →
    (by_id (omap (entry_document (E:=E) to_vec read_file repo) (new_entries repo manifest m)) ∪ m) !! fe_hash e =
      entry_document (E:=E) to_vec read_file repo e) as Hnew.
  { intros e He. destruct (Hsome e He) as [d Hd]. rewrite Hd. apply lookup_union_Some_l, lookup_by_id; [done|].
    split; [apply list_elem_of_omap; eauto|by eapply entry_document_id]. }
  assert (∀ k, k ∉ fe_hash <$> new_entries repo manifest m →
    (by_id (omap (entry_document (E:=E) to_vec read_file repo) (new_entries repo manifest m)) ∪ m) !! k = m !! k) as Hold.
  { intros k Hk. apply lookup_union_r, lookup_by_id_None.
    intros (d & -> & (e & He & Hd)%list_elem_of_omap)%list_elem_of_fmap. apply Hk.
    rewrite (entry_document_id _ _ _ _ _ Hd). by apply list_elem_of_fmap_2. }
  split; [|done]. intros e He. destruct (decide (fe_hash e ∈ fe_hash <$> new_entries repo manifest m)) as [Hin|Hout].
  - apply list_elem_of_fmap in Hin as (e' & Heq & Hin). rewrite Heq, Hnew by done. by apply Hsome.
  - rewrite Hold by done. by destruct (new_entries_cover repo manifest m e He).
Qed.

(** A store that has embedded every file after it was asked three times. *)
Definition slow : Store nat () :=
  {| ensure_store _ := mret (); list_external_ids _ _ := mret ∅; list_records _ _ := mret [];
     upload _ _ := mret (); SearchStore.delete _ _ := mret ();
     file_status _ _ := λ n, (Ok (Some (if decide (n < 3) then Pending else Completed)), S n) |}.

Example wait_ends_demo :
  @wait_until_indexed nat () slow in_order [] (λ i, Z.of_nat i * 500)%Z 1000 [chars_of "a"; chars_of "b"] 0 =
    (Ok (true, [mkStatus 2 0; mkStatus 1 0; mkStatus 0 0]), 5) ∧
  @settled_somewhere nat () slow [] (λ _, True) (chars_of "b").
Proof.
  split; [vm_compute; reflexivity|].
  pose proof (@wait_ends nat () slow in_order [] (λ i, Z.of_nat i * 500)%Z 1000 (λ _, True) [chars_of "a"; chars_of "b"] 0
    ltac:(intros id s; discriminate) ltac:(intros i; reflexivity) ltac:(intros; exact I) I) as H.
  replace (@wait_until_indexed nat () slow in_order [] (λ i, Z.of_nat i * 500)%Z 1000 [chars_of "a"; chars_of "b"] 0)
    with (@Ok () _ (true, [mkStatus 2 0; mkStatus 1 0; mkStatus 0 0]), 5) in H by (vm_compute; reflexivity).
  apply (proj1 (proj2 H)). right. left.
Defined.

Definition demo_manifest : Manifest :=
  mkManifest [mkFileEntry (chars_of "src/a.rs") (chars_of "h1") 0 0; mkFileEntry (chars_of "src/b.rs") (chars_of "h1") 0 0;
              mkFileEntry (chars_of "c.md") (chars_of "h2") 0 0].

Example sync_adds_demo :
  ∃ s', sync (St:=Inner) (E:=MemoryError) [] (λ _, Some []) (λ _, Some []) demo_manifest (chars_of "r") 10 demo_store =
      (Ok (mkSyncReport 2 1 3 [chars_of "h1"; chars_of "h2"]), s') ∧
    ∃ m', memory_holds s' m' ∧ ∀ e, e ∈ entries demo_manifest → is_Some (m' !! fe_hash e).
Proof.
  pose proof (sync_adds (St:=Inner) (E:=MemoryError) (name:=[]) (λ _, Some []) (λ _, Some []) demo_manifest (chars_of "r") 10
    _ demo_store demo_holds) as H. cbv zeta in H.
  destruct (sync (St:=Inner) (E:=MemoryError) [] (λ _, Some []) (λ _, Some []) demo_manifest (chars_of "r") 10 demo_store)
    as [r s'] eqn:Hr.
  assert (r = Ok (mkSyncReport 2 1 3 [chars_of "h1"; chars_of "h2"])) as ->.
  { apply (f_equal fst) in Hr. simpl in Hr. rewrite <- Hr. vm_compute. reflexivity. }
  exists s'. split; [reflexivity|]. destruct H as (_ & _ & _ & m' & H1 & H2 & _). exists m'. exact (conj H1 H2).
Defined.
