(* ===== verification/Reconcile.v ===== *)
(** Reconciling one source's documents into a shared store, and collecting its
    garbage: [packages/sink/mixedbread/src/lib.rs], against the [Store]
    interface. *)

From stdpp Require Import base gmap sets list strings sorting.
From S2P Require Import Prelude Chars JsonValue StateErr SearchStore SearchSync.

Inductive ReconcileError (E : Type) :=
| ScopeLeak (scope : text) (count : nat) (example : text)
| StoreFailed (e : E).
Arguments ScopeLeak {E}.
Arguments StoreFailed {E}.

(** * Reports *)

Record ReplaceReport := mkReplaceReport {
  rr_uploaded : nat; rr_skipped : nat; rr_deleted : nat; rr_total : nat }.
Record ReconcileReport := mkReconcileReport { rc_uploaded : nat; rc_skipped : nat; rc_total : nat }.
Record ApplyReport := mkApplyReport { ar_uploaded : nat; ar_deleted : nat }.
Record GcReport := mkGcReport { gr_deleted : nat; gr_deduped : nat; gr_kept : nat }.

(** * Scope *)

Definition verify_scope {E} (source : Source) (records : list StoredRecord) : outcome (ReconcileError E) () :=
  match filter (λ r, rec_source r ≠ Some source) records with
  | example :: rest => Err (ScopeLeak source (length rest + 1) (rec_external_id example))
  | [] => Ok ()
  end.

(** * Garbage *)

Record GcPlan := mkGcPlan { deletes : list text; vanished : nat; duplicates : nat }.

(** [map.entry(key).or_default().push(record)] on a [BTreeMap]. *)
Fixpoint push_group (k : text) (r : StoredRecord) (groups : list (text * list StoredRecord)) :
    list (text * list StoredRecord) :=
  match groups with
  | [] => [(k, [r])]
  | (k', rs) :: groups' =>
      if decide (k = k') then (k', rs ++ [r]) :: groups'
      else if text_leb k k' then (k, [r]) :: groups
      else (k', rs) :: push_group k r groups'
  end.

(** The loops that group records by a key some of them have. *)
Definition group_by (key : StoredRecord → option text) (records : list StoredRecord) : list (text * list StoredRecord) :=
  foldl (λ groups record, match key record with
                          | Some k => push_group k record groups
                          | None => groups
                          end) [] records.

(** The loop over the records of a vanished external id. *)
Definition condemn (external_id : text) (st : list text * nat * bool) (record : StoredRecord) : list text * nat * bool :=
  let '(deletes, vanished, deleted_by_external_id) := st in
  match rec_file_id record with
  | Some file_id => (deletes ++ [file_id], vanished + 1, deleted_by_external_id)
  | None => if deleted_by_external_id : bool then st else (deletes ++ [external_id], vanished + 1, true)
  end.

Definition by_hash (group : list StoredRecord) : list (text * list StoredRecord) :=
  group_by rec_content_hash group.

(** [(created_at, file_id)], absent values first. *)
Definition opt_text_leb (a b : option text) : bool :=
  match a, b with
  | None, _ => true
  | Some _, None => false
  | Some a, Some b => text_leb a b
  end.
Definition newer_le (a b : StoredRecord) : Prop :=
  (if decide (rec_created_at a = rec_created_at b) then opt_text_leb (rec_file_id a) (rec_file_id b)
   else opt_text_leb (rec_created_at a) (rec_created_at b)) = true.
#[export] Instance newer_le_dec : RelDecision newer_le.
Proof. intros a b. unfold newer_le. apply _. Defined.

Definition trim_twins (st : list text * nat) (twins : list StoredRecord) : list text * nat :=
  if decide (length twins < 2) then st
  else
    foldl (λ '(deletes, duplicates) record,
      match rec_file_id record with
      | Some file_id => (deletes ++ [file_id], duplicates + 1)
      | None => (deletes, duplicates)
      end) st (removelast (merge_sort newer_le twins)).

Definition plan_group (produced : gset text) (plan : GcPlan) (entry : text * list StoredRecord) : GcPlan :=
  let '(external_id, group) := entry in
  if decide (external_id ∈ produced) then
    let '(deletes, duplicates) := foldl trim_twins (deletes plan, duplicates plan) (by_hash group).*2 in
    mkGcPlan deletes (vanished plan) duplicates
  else
    let '(deletes, vanished, _) := foldl (condemn external_id) (deletes plan, vanished plan, false) group in
    mkGcPlan deletes vanished (duplicates plan).

Definition plan_gc (records : list StoredRecord) (produced : gset text) : GcPlan :=
  foldl (plan_group produced) (mkGcPlan [] 0 0) (group_by (Some ∘ rec_external_id) records).

(** * Passes *)

Section reconcile.
Context {St E : Type} `{Store St E} `{Arrange} (name : text).
Context (elapsed : nat → Z) (index_timeout : Z).

Local Abbreviation M := (SM St (ReconcileError E)).

Definition upload_and_wait (documents : list Document) : M nat :=
  let uploaded_ids := doc_external_id <$> documents in
  results ← collected (λ document, context StoreFailed (upload name document)) (arrange documents);
  _ ← all_ok results;
  let uploaded := length uploaded_ids in
  _ ← (if decide (uploaded ≠ 0) then
         context StoreFailed (wait_until_indexed name elapsed index_timeout uploaded_ids)
       else mret (true, []));
  mret uploaded.

Record SyncOutcome := mkOutcome { so_remote : gmap text (option text); so_uploaded : nat; so_skipped : nat }.

Definition remote_of (records : list StoredRecord) : gmap text (option text) :=
  foldl (λ remote record, <[rec_external_id record := rec_content_hash record]> remote) ∅ records.

(** Whether the stored content hash is the document's. *)
Definition unchanged (remote : gmap text (option text)) (document : Document) : bool :=
  match remote !! doc_external_id document with
  | Some (Some stored) => bool_decide (stored = doc_content_hash document)
  | _ => false
  end.

Definition sync_source (source : Source) (documents : list Document) : M SyncOutcome :=
  _ ← context StoreFailed (ensure_store name);
  records ← context StoreFailed (list_records name (Some (source_filter source)));
  _ ← lift (verify_scope source records);
  let remote := remote_of records in
  let to_upload := filter (λ document, unchanged remote document = false) documents in
  let skipped := length documents - length to_upload in
  uploaded ← upload_and_wait to_upload;
  mret (mkOutcome remote uploaded skipped).

(** [Reconciler::reconcile]. *)
Definition reconcile (source : Source) (documents : list Document) : M ReconcileReport :=
  outcome ← sync_source source documents;
  mret (mkReconcileReport (so_uploaded outcome) (so_skipped outcome) (length documents)).

Definition replace (source : Source) (documents : list Document) : M ReplaceReport :=
  outcome ← sync_source source documents;
  let desired : gset text := list_to_set (doc_external_id <$> documents) in
  deleted ← foldS (λ deleted external_id,
      if decide (external_id ∈ desired) then mret deleted
      else (_ ← context StoreFailed (delete name external_id); mret (deleted + 1)))
    0 (arrange (map_to_list (so_remote outcome)).*1);
  mret (mkReplaceReport (so_uploaded outcome) (so_skipped outcome) deleted (length documents)).

Definition apply (upserts : list Document) (deletes : list text) : M ApplyReport :=
  _ ← context StoreFailed (ensure_store name);
  uploaded ← upload_and_wait upserts;
  removed ← (if decide (deletes = []) then mret 0
             else
               existing ← context StoreFailed (list_external_ids name None);
               foldS (λ removed external_id,
                 if decide (external_id ∈ existing) then
                   (_ ← context StoreFailed (delete name external_id); mret (removed + 1))
                 else mret removed) 0 deletes);
  mret (mkApplyReport uploaded removed).

Definition gc (source : Source) (produced : gset text) : M GcReport :=
  records ← context StoreFailed (list_records name (Some (source_filter source)));
  _ ← lift (verify_scope source records);
  let plan := plan_gc records produced in
  _ ← foldS (λ _ key, context StoreFailed (delete name key)) () (deletes plan);
  mret (mkGcReport (vanished plan) (duplicates plan) (size produced)).
End reconcile.
