(* ===== verification/ReconcileGc.v ===== *)
(** The garbage collection plan of [packages/sink/mixedbread/src/lib.rs]: what
    vanished is deleted, of exact duplicates the newest stays, and nothing else
    is touched. *)

From stdpp Require Import base gmap sets list strings sorting.
From S2P Require Import Prelude Chars JsonValue SearchStore Reconcile.

(** * Groups *)

Definition text_lt (a b : text) : Prop := text_leb a b = true ∧ a ≠ b.

Lemma text_lt_trans a b c : text_lt a b → text_lt b c → text_lt a c.
Proof.
  intros [H1 Hne] [H2 _]. split; [by eapply text_leb_trans|]. intros ->. apply Hne. by apply text_leb_antisymm.
Qed.

Abbreviation sorted_keys groups := (StronglySorted text_lt groups.*1).

Lemma sorted_keys_NoDup (groups : list (text * list StoredRecord)) : sorted_keys groups → NoDup groups.*1.
Proof.
  induction groups as [|[k rs] groups IH]; csimpl; [constructor|]. intros Hs. inversion Hs as [|? ? Hs' Hall]; subst.
  constructor; [|by apply IH]. intros Hk. rewrite Forall_forall in Hall. by destruct (Hall k Hk).
Qed.

Lemma get_before (groups : list (text * list StoredRecord)) k :
  Forall (text_lt k) groups.*1 → get k groups = None.
Proof. intros Hall. apply get_None. intros Hk. rewrite Forall_forall in Hall. by destruct (Hall k Hk). Qed.

Lemma push_group_keys k r groups j : j ∈ (push_group k r groups).*1 → j = k ∨ j ∈ groups.*1.
Proof.
  induction groups as [|[k' rs] groups IH]; csimpl; [set_solver|].
  destruct (decide (k = k')); csimpl; [set_solver|]. destruct (text_leb k k'); csimpl; set_solver.
Qed.

Lemma push_group_spec k r groups :
  sorted_keys groups →
  sorted_keys (push_group k r groups) ∧
  ∀ j, get j (push_group k r groups) = if decide (j = k) then Some (default [] (get k groups) ++ [r]) else get j groups.
Proof.
  induction groups as [|[k' rs] groups IH]; csimpl; intros Hs.
  { split; [repeat constructor|]. intros j. by case_decide. }
  inversion Hs as [|? ? Hs' Hall]; subst. destruct (decide (k = k')) as [->|Hne]; csimpl.
  { split; [done|]. intros j. case_decide; done. }
  destruct (text_leb k k') eqn:Hle; csimpl.
  - assert (text_lt k k') as Hlt by done.
    assert (Forall (text_lt k) groups.*1) as Hall'.
    { eapply Forall_impl; [exact Hall|]. intros j. by apply text_lt_trans. }
    split; [constructor; [done|by constructor]|]. intros j. case_decide; [|done]. by rewrite (get_before groups) by done.
  - destruct (IH Hs') as [H1 H2]. split.
    + constructor; [done|]. rewrite Forall_forall in Hall |- *. intros j [->|Hj]%push_group_keys; [|by apply Hall].
      split; [|done]. destruct (text_leb_total k k'); congruence.
    + intros j. rewrite H2. destruct (decide (j = k')) as [->|]; [by rewrite decide_False|done].
Qed.

(** Every group holds the records with its key, in their order. *)
Lemma group_by_spec key records :
  NoDup (group_by key records).*1 ∧
  ∀ k rs, (k, rs) ∈ group_by key records ↔ rs ≠ [] ∧ rs = filter (λ r, key r = Some k) records.
Proof.
  assert (sorted_keys (group_by key records) ∧ ∀ k, get k (group_by key records) =
    match filter (λ r, key r = Some k) records with [] => None | rs => Some rs end) as [Hs Hget].
  { unfold group_by. apply (foldl_inv (λ pre groups, sorted_keys groups ∧ ∀ k, get k groups =
      match filter (λ r, key r = Some k) pre with [] => None | rs => Some rs end)).
    - split; [constructor|done].
    - intros pre r post groups _ [Hs Hget]. destruct (key r) as [k|] eqn:Hk.
      + destruct (push_group_spec k r groups Hs) as [Hs' Hget']. split; [done|]. intros j.
        rewrite Hget', filter_app, filter_cons, filter_nil, Hk. destruct (decide (j = k)) as [->|Hne].
        * rewrite decide_True, Hget by done. by destruct (filter _ pre).
        * rewrite decide_False, app_nil_r by congruence. apply Hget.
      + split; [done|]. intros j. rewrite filter_app, filter_cons, filter_nil, Hk, decide_False, app_nil_r by done. apply Hget. }
  pose proof (sorted_keys_NoDup _ Hs) as Hnd. split; [done|]. intros k rs. split.
  - intros Hin%elem_get; [|done]. rewrite Hget in Hin. by destruct (filter _ records); simplify_eq.
  - intros [Hne ->]. apply get_Some_elem. rewrite Hget. by destruct (filter _ records).
Qed.

(** * Newer records *)

Lemma opt_text_leb_trans a b c : opt_text_leb a b = true → opt_text_leb b c = true → opt_text_leb a c = true.
Proof. destruct a, b, c; try done. apply text_leb_trans. Qed.
Lemma opt_text_leb_total a b : opt_text_leb a b = true ∨ opt_text_leb b a = true.
Proof. destruct a as [a|], b as [b|]; [apply text_leb_total|by right|by left|by left]. Qed.
Lemma opt_text_leb_antisymm a b : opt_text_leb a b = true → opt_text_leb b a = true → a = b.
Proof. destruct a, b; try done. intros. f_equal. by apply text_leb_antisymm. Qed.

#[export] Instance newer_le_total : Total newer_le.
Proof.
  intros a b. unfold newer_le. destruct (decide (rec_created_at a = rec_created_at b)) as [->|Hne].
  - rewrite decide_True by done. apply opt_text_leb_total.
  - rewrite decide_False by congruence. apply opt_text_leb_total.
Qed.
#[export] Instance newer_le_trans : Transitive newer_le.
Proof.
  intros a b c. unfold newer_le.
  destruct (decide (rec_created_at a = rec_created_at b)) as [Hab|Hab], (decide (rec_created_at b = rec_created_at c)) as [Hbc|Hbc].
  - rewrite decide_True by congruence. apply opt_text_leb_trans.
  - rewrite decide_False by congruence. by rewrite Hab.
  - rewrite decide_False by congruence. by rewrite <- Hbc.
  - intros H1 H2. pose proof (opt_text_leb_trans _ _ _ H1 H2) as H3. case_decide as Hac; [|done].
    exfalso. rewrite <- Hac in H2. apply Hab. by apply opt_text_leb_antisymm.
Qed.

(** * What the plan deletes *)

Definition twin_keys (twins : list StoredRecord) : list text := omap rec_file_id (removelast (merge_sort newer_le twins)).
Definition dup_keys (group : list StoredRecord) : list text := concat (twin_keys <$> (by_hash group).*2).
Definition gone_keys (external_id : text) (group : list StoredRecord) : list text :=
  (foldl (condemn external_id) ([], 0, false) group).1.1.

Lemma condemn_spec ext group ds v b :
  ∃ ks b', foldl (condemn ext) (ds, v, b) group = (ds ++ ks, v + length ks, b') ∧
    foldl (condemn ext) ([], 0, b) group = (ks, length ks, b') ∧
    (∀ k, k ∈ ks → (∃ r, r ∈ group ∧ rec_file_id r = Some k) ∨ (k = ext ∧ ∃ r, r ∈ group ∧ rec_file_id r = None)) ∧
    (∀ r f, r ∈ group → rec_file_id r = Some f → f ∈ ks) ∧
    ((∃ r, r ∈ group ∧ rec_file_id r = None) → b = true ∨ ext ∈ ks).
Proof.
  revert ds v b. induction group as [|r group IH]; intros ds v b; cbn [foldl].
  { exists [], b. rewrite app_nil_r, Nat.add_0_r. split_and!; [done|done|by intros ? ?%elem_of_nil|by intros ? ? ?%elem_of_nil|].
    by intros (? & ?%elem_of_nil & _). }
  assert (∀ k b1, ∃ ks b', foldl (condemn ext) (ds ++ [k], v + 1, b1) group = (ds ++ k :: ks, v + length (k :: ks), b') ∧
    foldl (condemn ext) ([k], 1, b1) group = (k :: ks, length (k :: ks), b') ∧
    (∀ k, k ∈ ks → (∃ r, r ∈ group ∧ rec_file_id r = Some k) ∨ (k = ext ∧ ∃ r, r ∈ group ∧ rec_file_id r = None)) ∧
    (∀ r f, r ∈ group → rec_file_id r = Some f → f ∈ ks) ∧
    ((∃ r, r ∈ group ∧ rec_file_id r = None) → b1 = true ∨ ext ∈ ks)) as Hpush.
  { intros k b1. destruct (IH (ds ++ [k]) (v + 1) b1) as (ks & b' & H1 & H2 & H3 & H4 & H5).
    destruct (IH [k] 1 b1) as (ks' & b'' & H1' & H2' & _). assert (ks' = ks ∧ b'' = b') as [-> ->] by (rewrite H2 in H2'; naive_solver).
    exists ks, b'. rewrite H1, H1', <- app_assoc. split_and!; [simpl; do 2 f_equal; lia|done|done|done|done]. }
  unfold condemn at 2 4. destruct (rec_file_id r) as [f|] eqn:Hf; [|destruct b].
  - destruct (Hpush f b) as (ks & b' & H1 & H2 & H3 & H4 & H5). exists (f :: ks), b'. split_and!; [done|done| | |].
    + intros k [->|Hk]%elem_of_cons; [left; exists r; split; [left|done]|].
      destruct (H3 k Hk) as [(q & ? & ?)|[-> (q & ? & ?)]]; [left|right; split; [done|]]; exists q; (split; [by right|done]).
    + intros q g [->|Hq]%elem_of_cons Hg; [rewrite Hf in Hg; simplify_eq; left|right; by eapply H4].
    + intros (q & [->|Hq]%elem_of_cons & Hn); [congruence|]. destruct H5 as [?|?]; [by eauto|by left|right; by right].
  - destruct (IH ds v true) as (ks & b' & H1 & H2 & H3 & H4 & H5). exists ks, b'. split_and!; [done|done| | |by left].
    + intros k Hk. destruct (H3 k Hk) as [(q & ? & ?)|[-> (q & ? & ?)]]; [left|right; split; [done|]]; exists q; (split; [by right|done]).
    + intros q g [->|Hq]%elem_of_cons Hg; [congruence|by eapply H4].
  - destruct (Hpush ext true) as (ks & b' & H1 & H2 & H3 & H4 & H5). exists (ext :: ks), b'. split_and!; [done|done| | |].
    + intros k [->|Hk]%elem_of_cons; [right; split; [done|]; exists r; split; [left|done]|].
      destruct (H3 k Hk) as [(q & ? & ?)|[-> (q & ? & ?)]]; [left|right; split; [done|]]; exists q; (split; [by right|done]).
    + intros q g [->|Hq]%elem_of_cons Hg; [congruence|right; by eapply H4].
    + intros _. right. left.
Qed.

(** Every key once: no file is deleted twice. *)
Lemma condemn_NoDup ext group b :
  NoDup (omap rec_file_id group) → ext ∉ omap rec_file_id group →
  NoDup (foldl (condemn ext) ([], 0, b) group).1.1 ∧ (b = true → ext ∉ (foldl (condemn ext) ([], 0, b) group).1.1).
Proof.
  revert b. induction group as [|r group IH]; intros b; cbn [foldl omap list_omap].
  { intros _ _. split; [constructor|]. intros _. apply not_elem_of_nil. }
  assert (∀ k b1, (foldl (condemn ext) ([k], 1, b1) group).1.1 = k :: (foldl (condemn ext) ([], 0, b1) group).1.1) as Hcons.
  { intros k b1. by destruct (condemn_spec ext group [k] 1 b1) as (ks & b' & -> & -> & _). }
  unfold condemn at 2 4. destruct (rec_file_id r) as [f|] eqn:Hf; [|destruct b].
  - intros Hnd Hext. apply NoDup_cons in Hnd as [Hfn Hnd]. apply not_elem_of_cons in Hext as [Hef Hext].
    destruct (IH b Hnd Hext) as [H1 H2]. simpl app. simpl Nat.add. rewrite Hcons. split.
    + constructor; [|done]. intros Hin. destruct (condemn_spec ext group [] 0 b) as (ks & b' & _ & E & H3 & _).
      rewrite E in Hin. destruct (H3 f Hin) as [(q & Hq & Hqf)|[-> _]]; [|done]. apply Hfn, list_elem_of_omap. eauto.
    + intros Hb. apply not_elem_of_cons. split; [done|by apply H2].
  - intros Hnd Hext. by apply IH.
  - intros Hnd Hext. destruct (IH true Hnd Hext) as [H1 H2]. simpl app. simpl Nat.add. rewrite Hcons. split; [|done].
    constructor; [by apply H2|done].
Qed.

Lemma trim_twins_spec ds n twins :
  trim_twins (ds, n) twins = (ds ++ twin_keys twins, n + length (twin_keys twins)).
Proof.
  unfold trim_twins, twin_keys. case_decide as Hlen.
  - assert (removelast (merge_sort newer_le twins) = []) as ->; [|by rewrite app_nil_r, Nat.add_0_r].
    pose proof (merge_sort_Permutation newer_le twins) as Hp%Permutation_length.
    destruct (merge_sort newer_le twins) as [|x [|y l]]; [done|done|simpl in Hp; lia].
  - generalize (removelast (merge_sort newer_le twins)). intros l. revert ds n. induction l as [|r l IH]; intros ds n; cbn [foldl omap list_omap].
    { by rewrite app_nil_r, Nat.add_0_r. }
    destruct (rec_file_id r) as [f|]; rewrite IH; [|done]. rewrite <- app_assoc. simpl. f_equal. lia.
Qed.

Lemma trim_all_spec ds n groups :
  foldl trim_twins (ds, n) groups = (ds ++ concat (twin_keys <$> groups), n + length (concat (twin_keys <$> groups))).
Proof.
  revert ds n. induction groups as [|g groups IH]; intros ds n; csimpl; [by rewrite app_nil_r, Nat.add_0_r|].
  rewrite trim_twins_spec, IH, <- app_assoc, length_app. f_equal. lia.
Qed.

Definition group_keys (produced : gset text) (entry : text * list StoredRecord) : list text :=
  if decide (entry.1 ∈ produced) then dup_keys entry.2 else gone_keys entry.1 entry.2.

Lemma plan_group_spec produced plan entry :
  let plan' := plan_group produced plan entry in
  deletes plan' = deletes plan ++ group_keys produced entry ∧
  vanished plan' + duplicates plan' = vanished plan + duplicates plan + length (group_keys produced entry).
Proof.
  destruct entry as [ext group]. unfold plan_group, group_keys. cbn [fst snd]. case_decide as Hp.
  - rewrite trim_all_spec. simpl. unfold dup_keys. split; [done|lia].
  - destruct (condemn_spec ext group (deletes plan) (vanished plan) false) as (ks & b & -> & H2 & _).
    unfold gone_keys. rewrite H2. simpl. split; [done|lia].
Qed.

Lemma plan_gc_spec records produced :
  deletes (plan_gc records produced) =
    concat (group_keys produced <$> group_by (Some ∘ rec_external_id) records) ∧
  vanished (plan_gc records produced) + duplicates (plan_gc records produced) = length (deletes (plan_gc records produced)).
Proof.
  unfold plan_gc. generalize (group_by (Some ∘ rec_external_id) records). intros groups.
  assert (∀ plan, deletes (foldl (plan_group produced) plan groups) = deletes plan ++ concat (group_keys produced <$> groups) ∧
    vanished (foldl (plan_group produced) plan groups) + duplicates (foldl (plan_group produced) plan groups) =
      vanished plan + duplicates plan + length (concat (group_keys produced <$> groups))) as H.
  { induction groups as [|g groups IH]; intros plan; csimpl; [by rewrite app_nil_r, Nat.add_0_r|].
    destruct (plan_group_spec produced plan g) as [H1 H2]. destruct (IH (plan_group produced plan g)) as [-> ->].
    rewrite H1, H2, <- app_assoc, length_app. split; [done|lia]. }
  destruct (H (mkGcPlan [] 0 0)) as [-> ->]. simpl. done.
Qed.

(** * The plan *)

Lemma NoDup_concat_groups {K A B} (groups : list (K * B)) (f : K * B → list A) :
  NoDup groups.*1 → (∀ g, g ∈ groups → NoDup (f g)) →
  (∀ g g' x, g ∈ groups → g' ∈ groups → x ∈ f g → x ∈ f g' → g.1 = g'.1) → NoDup (concat (f <$> groups)).
Proof.
  induction groups as [|g groups IH]; csimpl; [constructor|]. intros Hnd Hf Hdis. apply NoDup_cons in Hnd as [Hg Hnd].
  apply NoDup_app. split_and!; [apply Hf; left| |].
  - intros x Hx (l & Hl & Hxl)%elem_of_concat. apply list_elem_of_fmap in Hl as (g' & -> & Hg').
    apply Hg. rewrite (Hdis g g' x); [|by left|by right|done|done]. by apply list_elem_of_fmap_2.
  - apply IH; [done|intros; apply Hf; by right|]. intros g1 g2 x ? ?. apply Hdis; by right.
Qed.

Lemma omap_filter_NoDup {A B} (f : A → option B) (P : A → Prop) `{!∀ x, Decision (P x)} (l : list A) :
  NoDup (omap f l) → NoDup (omap f (filter P l)).
Proof.
  intros Hnd. eapply sublist_NoDup; [exact Hnd|]. clear Hnd. induction l as [|x l IH]; [done|]. csimpl.
  rewrite filter_cons. case_decide; csimpl; destruct (f x); try done; by constructor.
Qed.

(** An element of a list whose keys are distinct is there once. *)
Lemma omap_NoDup_inj {A B} (f : A → option B) (l : list A) x y b :
  NoDup (omap f l) → x ∈ l → y ∈ l → f x = Some b → f y = Some b → x = y.
Proof.
  intros Hnd Hx Hy Hfx Hfy. induction l as [|z l IH]; [by apply elem_of_nil in Hx|]. csimpl in Hnd.
  apply elem_of_cons in Hx as [->|Hx], Hy as [->|Hy]; [done| | |].
  - rewrite Hfx in Hnd. apply NoDup_cons in Hnd as [Hb _]. exfalso. apply Hb, list_elem_of_omap. eauto.
  - rewrite Hfy in Hnd. apply NoDup_cons in Hnd as [Hb _]. exfalso. apply Hb, list_elem_of_omap. eauto.
  - apply IH; [|done..]. destruct (f z); [by apply NoDup_cons in Hnd as [_ ?]|done].
Qed.

Section plan.
Context (records : list StoredRecord) (produced : gset text).
(** File ids are unique, and none is an external id. *)
Context (Hids : NoDup (omap rec_file_id records)).
Context (Hdisj : ∀ r r', r ∈ records → r' ∈ records → rec_file_id r ≠ Some (rec_external_id r')).

Local Abbreviation ds := (deletes (plan_gc records produced)).

(** The deletion keys hit the record. *)
Definition targeted (keys : list text) (r : StoredRecord) : Prop :=
  match rec_file_id r with Some f => f ∈ keys | None => rec_external_id r ∈ keys end.

(** Two file objects of one external id with the same content. *)
Definition twins_of (r r' : StoredRecord) : Prop :=
  rec_external_id r = rec_external_id r' ∧ is_Some (rec_content_hash r) ∧ rec_content_hash r = rec_content_hash r'.

Definition group_of (ext : text) : list StoredRecord := filter (λ r, rec_external_id r = ext) records.
Definition twins_in (ext hash : text) : list StoredRecord := filter (λ r, rec_content_hash r = Some hash) (group_of ext).

Lemma groups_spec ext group :
  (ext, group) ∈ group_by (Some ∘ rec_external_id) records ↔ group ≠ [] ∧ group = group_of ext.
Proof.
  destruct (group_by_spec (Some ∘ rec_external_id) records) as [_ ->]. unfold group_of.
  rewrite (list_filter_iff_in (λ r, (Some ∘ rec_external_id) r = Some ext) (λ r, rec_external_id r = ext)); [done|].
  intros r _. simpl. split; [by intros [= ->]|by intros ->].
Qed.

Lemma elem_of_group_of r ext : r ∈ group_of ext ↔ r ∈ records ∧ rec_external_id r = ext.
Proof. unfold group_of. rewrite list_elem_of_filter. tauto. Qed.

Lemma elem_of_twins_in r ext hash :
  r ∈ twins_in ext hash ↔ r ∈ records ∧ rec_external_id r = ext ∧ rec_content_hash r = Some hash.
Proof. unfold twins_in. rewrite list_elem_of_filter, elem_of_group_of. tauto. Qed.

(** The keys of a group are those of its records. *)
Lemma elem_of_dup_keys ext k :
  k ∈ dup_keys (group_of ext) ↔ ∃ hash, k ∈ twin_keys (twins_in ext hash).
Proof.
  unfold dup_keys. rewrite elem_of_concat. destruct (group_by_spec rec_content_hash (group_of ext)) as [_ Hh].
  fold (by_hash (group_of ext)) in Hh. split.
  - intros (l & Hl & Hk). apply list_elem_of_fmap in Hl as (tw & -> & Htw).
    apply list_elem_of_fmap in Htw as ([hash tw'] & -> & Hin). apply Hh in Hin as [_ ->]. by exists hash.
  - intros [hash Hk]. exists (twin_keys (twins_in ext hash)). split; [|done]. apply list_elem_of_fmap_2.
    apply list_elem_of_fmap. exists (hash, twins_in ext hash). split; [done|]. apply Hh. split; [|done].
    intros E. rewrite E in Hk. by apply elem_of_nil in Hk.
Qed.

Lemma elem_of_deletes k :
  k ∈ ds ↔ ∃ ext, group_of ext ≠ [] ∧
    if decide (ext ∈ produced) then k ∈ dup_keys (group_of ext) else k ∈ gone_keys ext (group_of ext).
Proof.
  destruct (plan_gc_spec records produced) as [-> _]. rewrite elem_of_concat. split.
  - intros (l & Hl & Hk). apply list_elem_of_fmap in Hl as ([ext g] & -> & [Hne ->]%groups_spec).
    exists ext. split; [done|]. unfold group_keys in Hk. cbn [fst snd] in Hk. by case_decide.
  - intros (ext & Hne & Hk). exists (group_keys produced (ext, group_of ext)). split.
    + apply list_elem_of_fmap_2. by apply groups_spec.
    + unfold group_keys. cbn [fst snd]. by case_decide.
Qed.

Lemma elem_of_gone_keys ext k :
  k ∈ gone_keys ext (group_of ext) ↔
  (∃ r, r ∈ group_of ext ∧ rec_file_id r = Some k) ∨ (k = ext ∧ ∃ r, r ∈ group_of ext ∧ rec_file_id r = None).
Proof.
  destruct (condemn_spec ext (group_of ext) [] 0 false) as (ks & b & _ & E & H3 & H4 & H5).
  unfold gone_keys. rewrite E. cbn [fst]. split; [apply H3|].
  intros [(r & Hr & Hf)|[-> Hn]]; [by eapply H4|by destruct (H5 Hn)].
Qed.

(** The twins in order of age, the newest apart. *)
Lemma twin_keys_spec tw :
  tw ≠ [] → ∃ older newest, tw ≡ₚ older ++ [newest] ∧ twin_keys tw = omap rec_file_id older ∧
    ∀ q, q ∈ older → newer_le q newest.
Proof.
  intros Hne. unfold twin_keys. pose proof (merge_sort_Permutation newer_le tw) as Hp.
  pose proof (StronglySorted_merge_sort newer_le tw) as Hs.
  destruct (merge_sort newer_le tw) as [|x l _] using rev_ind; [by apply Permutation_nil_l in Hp|].
  exists l, x. rewrite removelast_last. split_and!; [by rewrite Hp|done|].
  intros q Hq. by eapply (StronglySorted_app_1_elem_of newer_le l [x]) in Hs; [| |left].
Qed.

(** The records of one hash of a surviving id, the newest apart. *)
Lemma twins_split r hash :
  r ∈ records → rec_content_hash r = Some hash →
  ∃ older newest, twins_in (rec_external_id r) hash ≡ₚ older ++ [newest] ∧
    twin_keys (twins_in (rec_external_id r) hash) = omap rec_file_id older ∧ ∀ q, q ∈ older → newer_le q newest.
Proof.
  intros Hr Hh. apply twin_keys_spec. intros E. apply (not_elem_of_nil r). rewrite <- E. by apply elem_of_twins_in.
Qed.

Lemma group_of_ne r : r ∈ records → group_of (rec_external_id r) ≠ [].
Proof. intros Hr E. apply (not_elem_of_nil r). rewrite <- E. by apply elem_of_group_of. Qed.

(** A twin key is the file id of a record of its group. *)
Lemma twin_key_owner ext hash k :
  k ∈ twin_keys (twins_in ext hash) →
  ∃ q, q ∈ records ∧ rec_external_id q = ext ∧ rec_content_hash q = Some hash ∧ rec_file_id q = Some k.
Proof.
  intros Hk. destruct (twin_keys_spec (twins_in ext hash)) as (older & newest & Hperm & E & _).
  { intros E. rewrite E in Hk. by apply elem_of_nil in Hk. }
  rewrite E in Hk. apply list_elem_of_omap in Hk as (q & Hq & Hqf).
  assert (q ∈ twins_in ext hash) as (? & ? & ?)%elem_of_twins_in by (rewrite Hperm; set_solver). by exists q.
Qed.

(** A key is a file id of its group, or the external id of a vanished group. *)
Lemma key_owner ext k :
  k ∈ group_keys produced (ext, group_of ext) →
  ∃ q, q ∈ records ∧ rec_external_id q = ext ∧
    (rec_file_id q = Some k ∨ k = ext ∧ rec_file_id q = None ∧ ext ∉ produced).
Proof.
  unfold group_keys. cbn [fst snd]. case_decide as Hp.
  - intros [hash (q & ? & ? & ? & ?)%twin_key_owner]%elem_of_dup_keys. exists q. auto.
  - intros [(q & [? ?]%elem_of_group_of & ?)|[-> (q & [? ?]%elem_of_group_of & ?)]]%elem_of_gone_keys; exists q; auto 6.
Qed.

Lemma deletes_group k : k ∈ ds ↔ ∃ ext, group_of ext ≠ [] ∧ k ∈ group_keys produced (ext, group_of ext).
Proof. rewrite elem_of_deletes. unfold group_keys. cbn [fst snd]. f_equiv. intros ext. by case_decide. Qed.

(** File ids and external ids tell records apart. *)
Lemma same_file r q f : r ∈ records → q ∈ records → rec_file_id r = Some f → rec_file_id q = Some f → r = q.
Proof. by apply omap_NoDup_inj. Qed.

(** A key of a surviving group is the file id of a twin that is not the newest. *)
Lemma deletes_file_id r f :
  r ∈ records → rec_file_id r = Some f → rec_external_id r ∈ produced → f ∈ ds →
  ∃ hash, rec_content_hash r = Some hash ∧ f ∈ twin_keys (twins_in (rec_external_id r) hash).
Proof.
  intros Hr Hf Hp (ext & _ & Hk)%deletes_group.
  destruct (key_owner ext f Hk) as (q & Hq & Hqe & [Hqf|(-> & _ & _)]); last first.
  { exfalso. subst. exact (Hdisj r q Hr Hq Hf). }
  assert (r = q) as <- by (by eapply same_file). subst. unfold group_keys in Hk. cbn [fst snd] in Hk.
  rewrite decide_True in Hk by done. apply elem_of_dup_keys in Hk as [hash Hk].
  destruct (twin_key_owner _ _ _ Hk) as (q & Hq' & _ & Hh & Hqf'). exists hash.
  by assert (r = q) as <- by (by eapply same_file).
Qed.

(** An external id is a key of vanished records only. *)
Lemma deletes_external_id r : r ∈ records → rec_external_id r ∈ ds → rec_external_id r ∉ produced.
Proof.
  intros Hr (ext & _ & Hk)%deletes_group. destruct (key_owner _ _ Hk) as (q & Hq & Hqe & [Hqf|(E & _ & Hp)]).
  - exfalso. exact (Hdisj q r Hq Hr Hqf).
  - by rewrite E.
Qed.

Lemma twin_not_kept r hash older newest f :
  twins_in (rec_external_id r) hash ≡ₚ older ++ [newest] → rec_file_id newest = Some f → f ∉ omap rec_file_id older.
Proof.
  intros Hp Hf Hin. assert (NoDup (omap rec_file_id (older ++ [newest]))) as Hnd.
  { rewrite <- Hp. unfold twins_in, group_of. by do 2 apply omap_filter_NoDup. }
  rewrite omap_app in Hnd. simpl in Hnd. rewrite Hf in Hnd. apply NoDup_app in Hnd as (_ & Hnd & _).
  apply (Hnd f Hin). left.
Qed.

Lemma vanished_targeted r : r ∈ records → rec_external_id r ∉ produced → targeted ds r.
Proof.
  intros Hr Hp. unfold targeted.
  assert (r ∈ group_of (rec_external_id r)) as Hg by (by apply elem_of_group_of).
  destruct (rec_file_id r) as [f|] eqn:Hf; apply elem_of_deletes; exists (rec_external_id r);
    (split; [by apply group_of_ne|]); rewrite decide_False by done; apply elem_of_gone_keys; [left|right]; eauto.
Qed.

Lemma survivor_targeted r :
  r ∈ records → rec_external_id r ∈ produced → targeted ds r →
  ∃ keeper, keeper ∈ records ∧ twins_of r keeper ∧ newer_le r keeper ∧ ¬ targeted ds keeper.
Proof.
  intros Hr Hp Ht. unfold targeted in Ht. destruct (rec_file_id r) as [f|] eqn:Hf; last first.
  { exfalso. by apply (deletes_external_id r). }
  destruct (deletes_file_id r f Hr Hf Hp Ht) as (hash & Hh & Hk).
  destruct (twins_split r hash Hr Hh) as (older & newest & Hperm & E & Hnew).
  rewrite E in Hk. apply list_elem_of_omap in Hk as (q & Hq & Hqf).
  assert (q ∈ twins_in (rec_external_id r) hash) as (Hqr & Hqe & Hqh)%elem_of_twins_in by (rewrite Hperm; set_solver).
  assert (r = q) as -> by (by eapply same_file).
  assert (newest ∈ twins_in (rec_external_id q) hash) as (Hnr & Hne & Hnh)%elem_of_twins_in by (rewrite Hperm; set_solver).
  exists newest. split_and!; [done| |by apply Hnew|].
  - split_and!; [done|by eexists|congruence].
  - unfold targeted. destruct (rec_file_id newest) as [g|] eqn:Hg.
    + intros Hk. destruct (deletes_file_id newest g Hnr Hg ltac:(by rewrite Hne) Hk) as (hash' & Hh' & Hk').
      assert (hash' = hash) as -> by congruence. rewrite Hne, E in Hk'. by eapply twin_not_kept.
    + intros Hk%deletes_external_id; [|done]. by rewrite Hne in Hk.
Qed.

Lemma survivor_newest r r' :
  r ∈ records → r' ∈ records → rec_external_id r ∈ produced → twins_of r r' → rec_file_id r ≠ None →
  ¬ targeted ds r → newer_le r' r.
Proof.
  intros Hr Hr' Hp (He & [hash Hh] & Heq) Hf Ht. destruct (twins_split r hash Hr Hh) as (older & newest & Hperm & E & Hnew).
  assert (r ∈ older ++ [newest]) as Hin by (rewrite <- Hperm; by apply elem_of_twins_in).
  assert (r' ∈ older ++ [newest]) as Hin' by (rewrite <- Hperm; apply elem_of_twins_in; split_and!; congruence).
  apply elem_of_app in Hin as [Hin| ->%list_elem_of_singleton].
  - exfalso. apply Ht. unfold targeted. destruct (rec_file_id r) as [f|] eqn:Hff; [|done].
    apply elem_of_deletes. exists (rec_external_id r). split; [by apply group_of_ne|]. rewrite decide_True by done.
    apply elem_of_dup_keys. exists hash. rewrite E. apply list_elem_of_omap. eauto.
  - apply elem_of_app in Hin' as [?| ->%list_elem_of_singleton]; [by apply Hnew|].
    destruct (total newer_le newest newest); done.
Qed.

Lemma deletes_sound k :
  k ∈ ds → ∃ r, r ∈ records ∧
    (rec_file_id r = Some k ∨ rec_external_id r = k ∧ rec_file_id r = None ∧ rec_external_id r ∉ produced).
Proof.
  intros (ext & _ & (q & Hq & <- & [Hf|(-> & Hf & Hp)])%key_owner)%deletes_group; exists q; auto.
Qed.

Lemma twin_keys_NoDup ext hash : NoDup (twin_keys (twins_in ext hash)).
Proof.
  destruct (decide (twins_in ext hash = [])) as [->|Hne]; [constructor|].
  destruct (twin_keys_spec _ Hne) as (older & newest & Hperm & -> & _).
  assert (NoDup (omap rec_file_id (older ++ [newest]))) as Hn.
  { rewrite <- Hperm. unfold twins_in, group_of. by do 2 apply omap_filter_NoDup. }
  rewrite omap_app in Hn. by apply NoDup_app in Hn as [? _].
Qed.

Lemma dup_keys_NoDup ext : NoDup (dup_keys (group_of ext)).
Proof.
  unfold dup_keys. rewrite <- list_fmap_compose.
  destruct (group_by_spec rec_content_hash (group_of ext)) as [Hnd Hh]. fold (by_hash (group_of ext)) in *.
  assert (∀ hash tw, (hash, tw) ∈ by_hash (group_of ext) → tw = twins_in ext hash) as Htw by (by intros ? ? [_ ->]%Hh).
  apply NoDup_concat_groups; [done| |].
  - intros [hash tw] ->%Htw. apply twin_keys_NoDup.
  - intros [h1 t1] [h2 t2] x ->%Htw ->%Htw. simpl.
    intros (q1 & Hr1 & _ & Hh1 & Hf1)%twin_key_owner (q2 & Hr2 & _ & Hh2 & Hf2)%twin_key_owner.
    assert (q1 = q2) as -> by (by eapply same_file). congruence.
Qed.

Lemma deletes_NoDup : NoDup ds.
Proof.
  destruct (plan_gc_spec records produced) as [-> _].
  destruct (group_by_spec (Some ∘ rec_external_id) records) as [Hnd _].
  apply NoDup_concat_groups; [done| |].
  - intros [ext g] [_ ->]%groups_spec. unfold group_keys. cbn [fst snd]. case_decide as Hp; [apply dup_keys_NoDup|].
    apply condemn_NoDup; [by apply omap_filter_NoDup|].
    intros (q & [Hq <-]%elem_of_group_of & Hqf)%list_elem_of_omap. exact (Hdisj q q Hq Hq Hqf).
  - intros [e1 g1] [e2 g2] x [_ ->]%groups_spec [_ ->]%groups_spec. cbn [fst].
    intros (q1 & Hr1 & <- & [Hf1|(-> & _ & _)])%key_owner (q2 & Hr2 & <- & [Hf2|(E & _ & _)])%key_owner.
    + by assert (q1 = q2) as -> by (by eapply same_file).
    + exfalso. subst. exact (Hdisj q1 q2 Hr1 Hr2 Hf1).
    + exfalso. exact (Hdisj q2 q1 Hr2 Hr1 Hf2).
    + done.
Qed.
End plan.

(** C12. The plan of a garbage collection, over a listing whose file ids are
    distinct and are not external ids: every record whose external id the source
    no longer produces is deleted; a surviving record is deleted only if a twin
    (same external id and content hash) at least as new is kept, and a twin that
    has a file id and is kept is the newest; every key deleted is the file id of
    a listed record or the external id of a vanished one without, and no key is
    deleted twice; and the two counts add up to the deletions. *)
Theorem plan_gc_correct records produced :
  NoDup (omap rec_file_id records) →
  (∀ r r', r ∈ records → r' ∈ records → rec_file_id r ≠ Some (rec_external_id r')) →
  let ds := deletes (plan_gc records produced) in
  (∀ r, r ∈ records → rec_external_id r ∉ produced → targeted ds r) ∧
  (∀ r, r ∈ records → rec_external_id r ∈ produced → targeted ds r →
    ∃ keeper, keeper ∈ records ∧ twins_of r keeper ∧ newer_le r keeper ∧ ¬ targeted ds keeper) ∧
  (∀ r r', r ∈ records → r' ∈ records → rec_external_id r ∈ produced → twins_of r r' → rec_file_id r ≠ None →
    ¬ targeted ds r → newer_le r' r) ∧
  (∀ k, k ∈ ds → ∃ r, r ∈ records ∧
    (rec_file_id r = Some k ∨ rec_external_id r = k ∧ rec_file_id r = None ∧ rec_external_id r ∉ produced)) ∧
  NoDup ds ∧
  vanished (plan_gc records produced) + duplicates (plan_gc records produced) = length ds.
Proof.
  intros Hids Hdisj ds. split_and!.
  - intros r. by apply vanished_targeted.
  - intros r. by apply survivor_targeted.
  - intros r r'. by apply survivor_newest.
  - intros k. by apply deletes_sound.
  - by apply deletes_NoDup.
  - apply plan_gc_spec.
Qed.

(** One id with two copies of the same content and one of another, and one that
    vanished. *)
Definition demo_record (ext hash file at_ : string) : StoredRecord :=
  mkRecord (chars_of ext) (Some (chars_of hash)) (Some (chars_of "git")) (Some (chars_of file)) (Some (chars_of at_)).
Definition demo_records : list StoredRecord :=
  [demo_record "a" "h1" "f1" "2026-02"; demo_record "b" "h1" "f2" "2026-01"; demo_record "a" "h1" "f3" "2026-01";
   demo_record "a" "h2" "f4" "2026-01"].

Lemma plan_gc_correct_witness :
  deletes (plan_gc demo_records {[chars_of "a"]}) = [chars_of "f3"; chars_of "f2"] ∧
  NoDup (deletes (plan_gc demo_records {[chars_of "a"]})).
Proof.
  split; [vm_compute; reflexivity|].
  apply (plan_gc_correct demo_records {[chars_of "a"]}).
  - apply (bool_decide_unpack _). by vm_compute.
  - assert (Forall (λ r, Forall (λ r', rec_file_id r ≠ Some (rec_external_id r')) demo_records) demo_records) as HF
      by (apply (bool_decide_unpack _); by vm_compute).
    rewrite Forall_forall in HF. intros r r' Hr Hr'. specialize (HF r Hr). rewrite Forall_forall in HF. by apply HF.
Defined.
