(* ===== verification/ReconcilePasses.v ===== *)
(** The passes of [packages/sink/mixedbread/src/lib.rs].  The steps they share:
    the check that a listing stays in its scope, uploads followed by waiting, the
    deletion loops, and the documents of a source in a keyed store.  The passes as
    wholes: [replace], [apply] and its replay after a crash, and what a leaking
    listing stops. *)

From stdpp Require Import base gmap sets list strings sorting.
From Stdlib Require Import Init.Byte.
From S2P Require Import Prelude Chars JsonValue StateErr SearchStore SearchSync SearchSyncProps Reconcile.

(** * The scope check *)

Lemma verify_scope_spec {E} src records :
  match @verify_scope E src records with
  | Ok _ => ∀ r, r ∈ records → rec_source r = Some src
  | Err e => ∃ count r, e = ScopeLeak src count (rec_external_id r) ∧ 0 < count ∧ r ∈ records ∧ rec_source r ≠ Some src
  | Panic => False
  end.
Proof.
  unfold verify_scope. destruct (filter (λ r, rec_source r ≠ Some src) records) as [|r rest] eqn:Hf.
  - intros r Hr. destruct (decide (rec_source r = Some src)) as [|Hne]; [done|]. exfalso.
    apply (not_elem_of_nil r). rewrite <- Hf. by apply list_elem_of_filter.
  - assert (r ∈ filter (λ r, rec_source r ≠ Some src) records) as [? ?]%list_elem_of_filter by (rewrite Hf; left).
    exists (length rest + 1), r. split_and!; [done|lia|done|done].
Qed.

Section passes.
Context {St E : Type} `{Store St E} `{Arrange} (name : text).
Context (elapsed : nat → Z) (timeout : Z).

Lemma lift_state {F A} (m : outcome F A) (s : St) : (lift m s).2 = s.
Proof. done. Qed.

(** Waiting only reads statuses. *)
Lemma wait_loop_state (P : St → Prop) fuel polls remaining s :
  (∀ id s, P s → P (file_status name id s).2) → P s →
  P (wait_loop name elapsed timeout fuel polls remaining s).2.
Proof.
  intros HP. revert polls remaining s. induction fuel as [|fuel IH]; intros polls remaining s Hs; cbn [wait_loop];
    (apply bind_state; [|intros [status remaining'] s1 _ Hs1; repeat case_decide; [done|done|]; [done||by apply IH]]).
  all: unfold poll; apply bind_state; [|intros rs s1 _ Hs1; apply foldS_inv; [done|]; intros [st rem] r s2 _ Hs2].
  1,3: unfold collected; destruct (run_all _ _ s) as [rs s1] eqn:Hr; simpl;
    replace s1 with (run_all (λ id, status ← file_status name id; mret (id, status)) (arrange remaining) s).2 by (by rewrite Hr);
    apply run_all_inv; [done|]; intros id s2 _ Hs2; apply bind_state; [by apply HP|done].
  all: unfold poll_result; apply bind_state; [done|]; by intros [id file] s3 _ Hs3.
Qed.

Lemma upload_and_wait_state (P : St → Prop) docs s :
  (∀ id s, P s → P (file_status name id s).2) → (∀ d s, d ∈ docs → P s → P (upload name d s).2) → P s →
  P (upload_and_wait name elapsed timeout docs s).2.
Proof.
  intros Hst Hup Hs. unfold upload_and_wait. apply bind_state.
  { unfold collected. destruct (run_all _ _ s) as [rs s1] eqn:Hr. simpl.
    replace s1 with (run_all (λ document, context (E:=E) StoreFailed (upload name document)) (arrange docs) s).2 by (by rewrite Hr).
    apply run_all_inv; [done|]. intros d s2 Hd Hs2. rewrite context_state. apply Hup; [|done]. by rewrite arrange_perm in Hd. }
  intros rs s1 _ Hs1. apply bind_state; [by rewrite all_ok_state|]. intros [] s2 _ Hs2.
  apply bind_state; [|done]. case_decide; [|done]. rewrite context_state. unfold wait_until_indexed.
  by apply wait_loop_state.
Qed.
End passes.

(** Only the scope check raises [ScopeLeak]. *)
Definition store_failed {E} (e : ReconcileError E) : Prop := match e with ScopeLeak _ _ _ => False | _ => True end.

Lemma upload_and_wait_errs {St E} `{Store St E} `{Arrange} name elapsed timeout docs :
  errs store_failed (upload_and_wait name elapsed timeout docs).
Proof.
  unfold upload_and_wait. apply errs_bind; [by intros s e s'; unfold collected; destruct (run_all _ _ _)|].
  intros rs s s' Hc. apply errs_bind.
  - apply errs_all_ok. unfold collected in Hc. destruct (run_all _ _ s) as [rs' s1] eqn:Hr. injection Hc as <- _.
    replace rs' with (run_all (λ document, context StoreFailed (upload name document)) (arrange docs) s).1 by (by rewrite Hr).
    apply run_all_errs. intros d. by apply errs_context.
  - intros [] _ _ _. apply errs_bind; [|intros; apply errs_ret]. case_decide; [by apply errs_context|apply errs_ret].
Qed.

(** * Over a keyed store *)

Section deleting.
Context {St E : Type} `{KeyedStore St E name}.

(** Deleting the ids of a list that satisfy a condition. *)
Lemma delete_loop_Ok (P : text → Prop) `{!∀ k, Decision (P k)} (step : nat → text → SM St (ReconcileError E) nat) l m s acc n s' :
  (∀ n k, step n k = if decide (P k) then (_ ← context StoreFailed (SearchStore.delete name k); mret (n + 1)) else mret n) →
  holds s m → foldS step acc l s = (Ok n, s') →
  n = acc + length (filter P l) ∧
  ∃ m', holds s' m' ∧ ∀ k, m' !! k = if decide (k ∈ l ∧ P k) then None else m !! k.
Proof.
  intros Hstep Hm Hf. refine (foldS_Ok (λ pre n s, n = acc + length (filter P pre) ∧
    ∃ m', holds s m' ∧ ∀ k, m' !! k = if decide (k ∈ pre ∧ P k) then None else m !! k) step l acc s n s' _ _ Hf).
  - split; [by rewrite filter_nil, Nat.add_0_r|]. exists m. split; [done|]. intros k. rewrite decide_False; [done|].
    by intros [?%elem_of_nil _].
  - intros pre k post n1 s1 n2 s2 _ [Hn (m1 & Hm1 & Hl)]. rewrite Hstep, filter_app, length_app, filter_cons, filter_nil.
    case_decide as HP.
    + intros ([] & s3 & Hd%context_Ok & [= <- <-])%sm_bind_Ok. simpl. split; [lia|].
      pose proof (holds_delete s1 m1 k Hm1) as Hdel. rewrite Hd in Hdel. eexists. split; [exact Hdel|]. intros j.
      destruct (decide (j = k)) as [->|Hne].
      * rewrite lookup_delete_eq, decide_True; [done|]. split; [set_solver|done].
      * rewrite lookup_delete_ne, Hl by done. destruct (decide (j ∈ pre ∧ P j)) as [[? ?]|Hno].
        -- rewrite decide_True; [done|]. split; [set_solver|done].
        -- rewrite decide_False; [done|]. intros [[?|?%list_elem_of_singleton]%elem_of_app ?]; naive_solver.
    + intros [= <- <-]. simpl. split; [lia|]. exists m1. split; [done|]. intros j. rewrite Hl.
      destruct (decide (j ∈ pre ∧ P j)) as [[? ?]|Hno].
      * rewrite decide_True; [done|]. split; [set_solver|done].
      * rewrite decide_False; [done|]. intros [[?| ->%list_elem_of_singleton]%elem_of_app ?]; naive_solver.
Qed.
End deleting.

Section keyed.
Context {St E : Type} `{KeyedStore St E name} `{Arrange}.
Context (elapsed : nat → Z) (timeout : Z).

(** Uploading documents with distinct ids. *)
Lemma upload_and_wait_touched docs all dels m s :
  docs ⊆ all → touched all dels m s → touched all dels m (upload_and_wait name elapsed timeout docs s).2.
Proof.
  intros Hsub. apply upload_and_wait_state.
  - intros id s1. apply touched_status.
  - intros d s1 Hd. apply touched_upload. by apply Hsub.
Qed.

Lemma upload_and_wait_Ok docs m s n s' :
  NoDup (ids docs) → holds s m → upload_and_wait name elapsed timeout docs s = (Ok n, s') →
  n = length docs ∧ holds s' (by_id docs ∪ m).
Proof.
  intros Hnd Hm. unfold upload_and_wait.
  intros (rs & s1 & Hc & (u & s2 & Ha & (w & s3 & Hw & Hn)%sm_bind_Ok)%sm_bind_Ok)%sm_bind_Ok.
  injection Hn as <- <-. split; [by rewrite length_fmap|].
  apply all_ok_Ok in Ha as [-> Hall]. unfold collected in Hc.
  destruct (run_all _ (arrange docs) s) as [rs' s1'] eqn:Hr. injection Hc as -> ->.
  assert (NoDup (ids (arrange docs))) as Hnd' by (by rewrite arrange_perm).
  assert (holds s1 (by_id docs ∪ m)) as Hs1.
  { rewrite <- (by_id_perm (arrange docs) docs) by (done || apply arrange_perm).
    refine (run_all_Ok (λ pre s, holds s (by_id pre ∪ m)) _ (arrange docs) s rs s1 _ _ Hr Hall).
    - unfold by_id. simpl. by rewrite (left_id ∅ (∪)).
    - intros pre d post s2 [] s2' Heq Hpre Hup%context_Ok. pose proof (holds_upload s2 _ d Hpre) as Hu. rewrite Hup in Hu.
      rewrite insert_by_id in Hu; [done|]. rewrite Heq, fmap_app in Hnd'. apply NoDup_app in Hnd' as (_ & Hdis & _).
      intros Hin. apply (Hdis _ Hin). left. }
  case_decide; [|by injection Hw as _ <-]. apply context_Ok in Hw. unfold wait_until_indexed in Hw.
  replace s3 with (wait_loop name elapsed timeout (Z.to_nat (timeout / POLL_INTERVAL) + 1) [] (ids docs) s1).2 by (by rewrite Hw).
  apply wait_loop_state; [|done]. intros id s4 Hs4. by apply holds_status.
Qed.

(** ** Listing a source *)

Lemma elem_of_of_source src m d : d ∈ of_source src m ↔ doc_source d = Some src ∧ ∃ k, m !! k = Some d.
Proof.
  unfold of_source. rewrite list_elem_of_filter, list_elem_of_fmap. f_equiv. split.
  - intros ([k d'] & -> & Hin%elem_of_map_to_list). by exists k.
  - intros [k Hk]. exists (k, d). split; [done|]. by apply elem_of_map_to_list.
Qed.

(** The store has the document's content already. *)
Definition same_stored (src : Source) (m : gmap text Document) (d : Document) : Prop :=
  match m !! doc_external_id d with
  | Some d0 => doc_source d0 = Some src ∧ doc_content_hash d0 = doc_content_hash d
  | None => False
  end.
#[export] Instance same_stored_dec src m d : Decision (same_stored src m d).
Proof. unfold same_stored. destruct (m !! doc_external_id d); apply _. Defined.

Definition keyed (m : gmap text Document) : Prop := ∀ k d, m !! k = Some d → doc_external_id d = k.

Lemma remote_of_lookup rs k :
  remote_of rs !! k = rec_content_hash <$> last (filter (λ r, rec_external_id r = k) rs).
Proof.
  unfold remote_of. apply (foldl_inv (λ pre remote, remote !! k = rec_content_hash <$> last (filter (λ r, rec_external_id r = k) pre))).
  - by rewrite lookup_empty.
  - intros pre r post remote _ IH. rewrite filter_app, filter_cons, filter_nil. case_decide as Hk.
    + rewrite last_snoc, Hk, lookup_insert_eq. done.
    + by rewrite app_nil_r, lookup_insert_ne.
Qed.

Lemma remote_spec src m rs docs k h :
  keyed m → Forall2 lists rs docs → docs ≡ₚ of_source src m →
  remote_of rs !! k = Some h ↔
  ∃ d, m !! k = Some d ∧ doc_source d = Some src ∧ h = Some (doc_content_hash d).
Proof.
  intros Hkey HF Hp.
  assert (∀ r, r ∈ rs → ∃ d, d ∈ docs ∧ lists r d) as Hrs.
  { intros r [i Hr]%list_elem_of_lookup. destruct (Forall2_lookup_l _ _ _ _ _ HF Hr) as (d & Hd & ?).
    exists d. split; [by eapply list_elem_of_lookup_2|done]. }
  assert (∀ d, d ∈ docs → ∃ r, r ∈ rs ∧ lists r d) as Hds.
  { intros d [i Hd]%list_elem_of_lookup. destruct (Forall2_lookup_r _ _ _ _ _ HF Hd) as (r & Hr & ?).
    exists r. split; [by eapply list_elem_of_lookup_2|done]. }
  assert (∀ d, d ∈ docs ↔ doc_source d = Some src ∧ ∃ k, m !! k = Some d) as Hdocs.
  { intros d. by rewrite Hp, elem_of_of_source. }
  rewrite remote_of_lookup. split.
  - destruct (last _) as [r|] eqn:Hl; [|done]. intros [= <-].
    assert (r ∈ filter (λ r, rec_external_id r = k) rs) as [Hrk Hr]%list_elem_of_filter.
    { apply last_Some in Hl as [l' ->]. set_solver. }
    destruct (Hrs r Hr) as (d & [Hs [k' Hk']]%Hdocs & He & Hh & _). exists d.
    rewrite <- (Hkey _ _ Hk'), <- He, Hrk in Hk'. split_and!; [done|done|congruence].
  - intros (d & Hk & Hs & ->). destruct (Hds d) as (r & Hr & He & Hh & _); [apply Hdocs; eauto|].
    assert (r ∈ filter (λ r, rec_external_id r = k) rs) as Hin.
    { apply list_elem_of_filter. split; [|done]. by rewrite He, (Hkey _ _ Hk). }
    destruct (last (filter (λ r, rec_external_id r = k) rs)) as [r'|] eqn:Hl.
    + simpl. f_equal. assert (r' ∈ filter (λ r, rec_external_id r = k) rs) as [Hrk' Hr']%list_elem_of_filter.
      { apply last_Some in Hl as [l' ->]. set_solver. }
      destruct (Hrs r' Hr') as (d' & [_ [k' Hk']]%Hdocs & He' & Hh' & _).
      rewrite <- (Hkey _ _ Hk'), <- He', Hrk' in Hk'. congruence.
    + apply last_None in Hl. rewrite Hl in Hin. by apply elem_of_nil in Hin.
Qed.

Lemma unchanged_spec src m remote d :
  (∀ k h, remote !! k = Some h ↔ ∃ d, m !! k = Some d ∧ doc_source d = Some src ∧ h = Some (doc_content_hash d)) →
  unchanged remote d = true ↔ same_stored src m d.
Proof.
  intros Hr. unfold unchanged, same_stored. destruct (remote !! doc_external_id d) as [[h|]|] eqn:Hd.
  - apply Hr in Hd as (d0 & -> & Hs & [= ->]). rewrite bool_decide_eq_true. tauto.
  - apply Hr in Hd as (d0 & _ & _ & [=]).
  - split; [done|]. destruct (m !! doc_external_id d) as [d0|] eqn:Hm; [|done]. intros [Hs _].
    assert (remote !! doc_external_id d = Some (Some (doc_content_hash d0))) as Hr' by (apply Hr; eauto). congruence.
Qed.

(** ** Uploading what changed *)

Definition changed (src : Source) (m : gmap text Document) (docs : list Document) : list Document :=
  filter (λ d, ¬ same_stored src m d) docs.

Lemma sync_source_spec src docs m s r s' :
  holds s m → NoDup (ids docs) → sync_source name elapsed timeout src docs s = (r, s') →
  touched docs (λ _, False) m s' ∧
  match r with
  | Ok outcome =>
      (∀ k h, so_remote outcome !! k = Some h ↔
        ∃ d, m !! k = Some d ∧ doc_source d = Some src ∧ h = Some (doc_content_hash d)) ∧
      so_uploaded outcome = length (changed src m docs) ∧
      so_skipped outcome = length docs - length (changed src m docs) ∧
      holds s' (by_id (changed src m docs) ∪ m)
  | Err (ScopeLeak _ _ _) => False
  | _ => True
  end.
Proof.
  intros Hm Hnd Hs. split.
  - replace s' with (sync_source name elapsed timeout src docs s).2 by (by rewrite Hs). unfold sync_source.
    apply bind_state; [rewrite context_state; by apply touched_ensure, touched_refl|]. intros [] s1 _ Hs1.
    apply bind_state.
    { rewrite context_state. destruct Hs1 as (m1 & Hm1 & Ht). exists m1. split; [by apply holds_records|done]. }
    intros rs s2 _ Hs2. apply bind_state; [done|]. intros [] s3 _ Hs3.
    apply bind_state; [|done]. apply upload_and_wait_touched; [|done]. intros d [_ Hd]%list_elem_of_filter. done.
  - revert Hs. unfold sync_source. unfold mbind at 1, sm_bind at 1. unfold context at 1.
    pose proof (holds_ensure s m Hm) as Hm1. destruct (ensure_store name s) as [[[]|e|] s1]; simpl in *; try (by intros [= <- <-]).
    unfold mbind at 1, sm_bind at 1. unfold context at 1.
    destruct (holds_records s1 m src Hm1) as [Hm2 Hrs].
    destruct (list_records name (Some (source_filter src)) s1) as [[rs|e|] s2]; simpl in *; try (by intros [= <- <-]).
    destruct (Hrs rs s2 eq_refl) as (listed & Hp & HF). clear Hrs.
    unfold mbind at 1, sm_bind at 1, lift at 1. pose proof (verify_scope_spec (E:=E) src rs) as Hv.
    destruct (verify_scope src rs) as [[]|e|]; [| |done]; last first.
    { exfalso. destruct Hv as (c & r' & _ & _ & Hin & Hne). apply Hne.
      apply list_elem_of_lookup in Hin as [i Hi]. destruct (Forall2_lookup_l _ _ _ _ _ HF Hi) as (d & Hd & _ & _ & ->).
      apply list_elem_of_lookup_2 in Hd. rewrite Hp in Hd. by apply elem_of_of_source in Hd as [? _]. }
    assert (keyed m) as Hkey by (intros k d; by eapply holds_keys).
    pose proof (λ k h, remote_spec src m rs listed k h Hkey HF Hp) as Hremote.
    assert (filter (λ d, unchanged (remote_of rs) d = false) docs = changed src m docs) as ->.
    { apply list_filter_iff_in. intros d _. rewrite <- (unchanged_spec src m (remote_of rs) d Hremote).
      by destruct (unchanged _ _). }
    unfold mbind, sm_bind. destruct (upload_and_wait name elapsed timeout (changed src m docs) s2) as [[n|e|] s3] eqn:Hu;
      intros [= <- <-]; [| |done].
    + destruct (upload_and_wait_Ok (changed src m docs) m s2 n s3) as [-> Hm3]; [|done|done|].
      { unfold changed. eapply sublist_NoDup; [exact Hnd|]. apply fmap_sublist, sublist_filter. }
      done.
    + by eapply upload_and_wait_errs in Hu.
Qed.
End keyed.

Section passes.
Context {St E : Type} `{KeyedStore St E name} `{Arrange}.
Context (elapsed : nat → Z) (timeout : Z).

(** * Replace *)

(** What a replace makes of the documents [m]. *)
Record replaced (src : Source) (docs : list Document) (m m' : gmap text Document) : Prop := mkReplaced {
  rp_docs : ∀ d, d ∈ docs → m' !! doc_external_id d = if decide (same_stored src m d) then m !! doc_external_id d else Some d;
  rp_gone : ∀ k d, k ∉ ids docs → m !! k = Some d → doc_source d = Some src → m' !! k = None;
  rp_kept : ∀ k, k ∉ ids docs → (∀ d, m !! k = Some d → doc_source d ≠ Some src) → m' !! k = m !! k }.

(** The records of the source are then exactly the documents, by id and hash. *)
Lemma replaced_mirrors src docs m m' :
  Forall (λ d, doc_source d = Some src) docs → replaced src docs m m' →
  (∀ d, d ∈ docs → same_stored src m' d) ∧
  ∀ k d', m' !! k = Some d' → doc_source d' = Some src → k ∈ ids docs.
Proof.
  intros Hsrc [HD HG HK]. rewrite Forall_forall in Hsrc. split.
  - intros d Hd. unfold same_stored. rewrite HD by done. case_decide as Hs; [|by split; [apply Hsrc|]].
    unfold same_stored in Hs. by destruct (m !! doc_external_id d).
  - intros k d' Hk Hs. destruct (decide (k ∈ ids docs)) as [|Hn]; [done|]. exfalso.
    destruct (m !! k) as [d|] eqn:Hm.
    + destruct (decide (doc_source d = Some src)) as [Hds|Hds].
      * by rewrite (HG k d Hn Hm Hds) in Hk.
      * rewrite (HK k Hn) in Hk; [congruence|]. intros d0. rewrite Hm. by intros [= <-].
    + rewrite (HK k Hn) in Hk; [congruence|]. intros d0. by rewrite Hm.
Qed.

Lemma replaced_same src docs m m' : (∀ d, d ∈ docs → same_stored src m d) →
  (∀ k d, m !! k = Some d → doc_source d = Some src → k ∈ ids docs) → replaced src docs m m' → m' = m.
Proof.
  intros Hsame Hids [HD HG HK]. apply map_eq. intros k. destruct (decide (k ∈ ids docs)) as [Hk|Hk].
  - apply list_elem_of_fmap in Hk as (d & -> & Hd). by rewrite HD, decide_True by auto.
  - apply HK; [done|]. intros d Hd Hs. by apply Hk, (Hids k d).
Qed.

(** How many records of the source the documents leave out. *)
Definition absent (src : Source) (m : gmap text Document) (docs : list Document) : list Document :=
  filter (λ d, doc_external_id d ∉ ids docs) (of_source src m).

Lemma remote_keys (src : Source) (m : gmap text Document) (remote : gmap text (option text)) :
  keyed m →
  (∀ k h, remote !! k = Some h ↔ ∃ d, m !! k = Some d ∧ doc_source d = Some src ∧ h = Some (doc_content_hash d)) →
  (map_to_list remote).*1 ≡ₚ ids (of_source src m).
Proof.
  intros Hkey Hr. apply NoDup_Permutation.
  - apply NoDup_fst_map_to_list.
  - unfold of_source. eapply sublist_NoDup; [|apply fmap_sublist, sublist_filter].
    rewrite <- list_fmap_compose.
    rewrite (list_fmap_ext _ fst); [apply NoDup_fst_map_to_list|].
    intros i [k d] Hi. apply list_elem_of_lookup_2, elem_of_map_to_list in Hi. by apply Hkey.
  - intros k. rewrite !list_elem_of_fmap. split.
    + intros ([k' h] & -> & Hin%elem_of_map_to_list). apply Hr in Hin as (d & Hk & Hs & ->). exists d.
      simpl. split; [symmetry; by apply Hkey|]. apply elem_of_of_source. eauto.
    + intros (d & -> & [Hs [k0 Hk]]%elem_of_of_source). exists (doc_external_id d, Some (doc_content_hash d)).
      split; [done|]. apply elem_of_map_to_list, Hr. exists d. by rewrite (Hkey _ _ Hk).
Qed.

Lemma uploaded_lookup src m docs d :
  NoDup (ids docs) → d ∈ docs →
  (by_id (changed src m docs) ∪ m) !! doc_external_id d = if decide (same_stored src m d) then m !! doc_external_id d else Some d.
Proof.
  intros Hnd Hd. assert (NoDup (ids (changed src m docs))) as Hnd'.
  { eapply sublist_NoDup; [exact Hnd|]. apply fmap_sublist, sublist_filter. }
  case_decide as Hs.
  - rewrite lookup_union_r; [done|]. apply lookup_by_id_None. intros (d' & He & [Hs' Hd']%list_elem_of_filter)%list_elem_of_fmap.
    by rewrite (NoDup_fmap_inj_on doc_external_id docs d d' Hnd Hd Hd' He) in Hs.
  - apply lookup_union_Some_l, lookup_by_id; [done|]. split; [|done]. by apply list_elem_of_filter.
Qed.

Lemma uploaded_other src m docs k :
  k ∉ ids docs → (by_id (changed src m docs) ∪ m) !! k = m !! k.
Proof.
  intros Hk. apply lookup_union_r, lookup_by_id_None. intros (d & -> & [_ Hd]%list_elem_of_filter)%list_elem_of_fmap.
  by apply Hk, list_elem_of_fmap_2.
Qed.

Lemma replace_touched src docs m s :
  holds s m → NoDup (ids docs) →
  touched docs (λ k, k ∉ ids docs ∧ ∃ d, m !! k = Some d ∧ doc_source d = Some src) m (replace name elapsed timeout src docs s).2.
Proof.
  intros Hm Hnd. unfold replace. apply bind_state.
  - destruct (sync_source name elapsed timeout src docs s) as [r s1] eqn:Hs.
    destruct (sync_source_spec elapsed timeout src docs m s r s1 Hm Hnd Hs) as [(m1 & Hm1 & Ht) _].
    exists m1. split; [done|]. eapply touches_mono; [done| |done]. done.
  - intros outcome s1 Hs Hs1.
    destruct (sync_source_spec elapsed timeout src docs m s _ s1 Hm Hnd Hs) as [_ (Hremote & _)].
    apply bind_state; [|done]. apply foldS_inv; [done|]. intros n k s2 Hk Hs2. case_decide as Hd; [done|].
    apply bind_state; [|done]. rewrite context_state. apply touched_delete; [|done]. split.
    + by rewrite elem_of_list_to_set in Hd.
    + rewrite arrange_perm in Hk. apply list_elem_of_fmap in Hk as ([k' h] & -> & Hin%elem_of_map_to_list).
      apply Hremote in Hin as (d & ? & ? & _). eauto.
Qed.

Lemma replace_Ok src docs m s report s' :
  holds s m → NoDup (ids docs) → replace name elapsed timeout src docs s = (Ok report, s') →
  report = mkReplaceReport (length (changed src m docs)) (length docs - length (changed src m docs))
             (length (absent src m docs)) (length docs) ∧
  ∃ m', holds s' m' ∧ replaced src docs m m'.
Proof.
  intros Hm Hnd. unfold replace. intros (outcome & s1 & Hs & (n & s2 & Hd & [= <- <-])%sm_bind_Ok)%sm_bind_Ok.
  destruct (sync_source_spec elapsed timeout src docs m s _ s1 Hm Hnd Hs) as [_ (Hremote & -> & -> & Hm1)].
  assert (keyed m) as Hkey by (intros k d; by eapply holds_keys).
  set (desired := list_to_set (ids docs) : gset text) in *.
  apply (delete_loop_Ok (λ k, k ∉ desired) _ _ (by_id (changed src m docs) ∪ m)) in Hd as [-> (m' & Hm' & Hl)]; [|intros ? ?; repeat case_decide; done|done].
  assert (∀ k, k ∉ desired ↔ k ∉ ids docs) as Hdes by (intros k; unfold desired; by rewrite elem_of_list_to_set).
  split.
  - f_equal. simpl. unfold absent. rewrite arrange_perm, (remote_keys src m) by done.
    rewrite list_filter_fmap, length_fmap. f_equal. apply list_filter_iff_in. intros d _. apply Hdes.
  - exists m'. split; [done|].
    assert (∀ k, k ∈ arrange (map_to_list (so_remote outcome)).*1 ↔ ∃ d, m !! k = Some d ∧ doc_source d = Some src) as Hkeys.
    { intros k. rewrite arrange_perm, (remote_keys src m), list_elem_of_fmap by done. split.
      - intros (d & -> & [Hds [k0 Hk]]%elem_of_of_source). exists d. by rewrite (Hkey _ _ Hk).
      - intros (d & Hk & Hds). exists d. split; [symmetry; by apply Hkey|]. apply elem_of_of_source. eauto. }
    split.
    + intros d Hd. rewrite Hl, decide_False; [by apply uploaded_lookup|]. intros [_ Hn]. apply Hdes in Hn.
      by apply Hn, list_elem_of_fmap_2.
    + intros k d Hk Hmk Hds. rewrite Hl, decide_True; [done|]. split; [apply Hkeys; eauto|by apply Hdes].
    + intros k Hk Hds. rewrite Hl, decide_False, uploaded_other; [done|done|].
      intros [(d & ? & ?)%Hkeys _]. by apply (Hds d).
Qed.

Lemma replace_errs src docs m s e s' :
  holds s m → NoDup (ids docs) → replace name elapsed timeout src docs s = (Err e, s') → store_failed e.
Proof.
  intros Hm Hnd. unfold replace. unfold mbind at 1, sm_bind at 1.
  destruct (sync_source name elapsed timeout src docs s) as [[outcome|e1|] s1] eqn:Hs; [| |done].
  - revert s1 Hs. intros s1 _. assert (∀ c : SM St (ReconcileError E) ReplaceReport, errs store_failed c → c s1 = (Err e, s') → store_failed e) as Hc by (intros c; naive_solver).
    apply Hc. apply errs_bind; [|intros; apply errs_ret]. apply errs_foldS. intros n k _. case_decide; [apply errs_ret|].
    apply errs_bind; [by apply errs_context|intros; apply errs_ret].
  - intros [= <- <-]. destruct (sync_source_spec elapsed timeout src docs m s _ s1 Hm Hnd Hs) as [_ ?]. by destruct e1.
Qed.

(** * Apply *)

(** The documents after an apply. *)
Definition applied (upserts : list Document) (dels : list text) (m : gmap text Document) : gmap text Document :=
  filter (λ kd, kd.1 ∉ dels) (by_id upserts ∪ m).

Lemma lookup_applied upserts dels m k :
  applied upserts dels m !! k = if decide (k ∈ dels) then None else (by_id upserts ∪ m) !! k.
Proof.
  unfold applied. case_decide as Hk.
  - apply map_lookup_filter_None. right. intros d _ Hn. by apply Hn.
  - rewrite map_lookup_filter. destruct ((by_id upserts ∪ m) !! k) as [d|]; simpl; [|done].
    by rewrite option_guard_True.
Qed.

(** An attempt that failed half-way does not matter to the next. *)
Lemma applied_touched upserts dels m m1 :
  NoDup (ids upserts) → touches upserts (λ k, k ∈ dels) m m1 → applied upserts dels m1 = applied upserts dels m.
Proof.
  intros Hnd Ht. apply map_eq. intros k. rewrite !lookup_applied. case_decide as Hk; [done|].
  destruct (by_id upserts !! k) as [d|] eqn:Hb; [by rewrite !(lookup_union_Some_l _ _ _ _ Hb)|].
  rewrite !lookup_union_r by done. apply lookup_by_id_None in Hb.
  destruct (Ht k) as [->|[(d & Hd & <- & _)|[? _]]]; [done| |done].
  exfalso. by apply Hb, list_elem_of_fmap_2.
Qed.

Lemma apply_touched upserts dels m s :
  touched upserts (λ k, k ∈ dels) m s →
  touched upserts (λ k, k ∈ dels) m (apply name elapsed timeout upserts dels s).2.
Proof.
  intros Hs. unfold apply. apply bind_state; [rewrite context_state; by apply touched_ensure|]. intros [] s1 _ Hs1.
  apply bind_state; [by apply upload_and_wait_touched|]. intros n s2 _ Hs2.
  apply bind_state; [|done]. case_decide as Hd; [done|]. apply bind_state.
  { rewrite context_state. destruct Hs2 as (m1 & Hm1 & Ht). exists m1. split; [by apply (holds_ids s2 m1 None)|done]. }
  intros existing s3 _ Hs3. apply foldS_inv; [done|]. intros acc k s4 Hk Hs4. case_decide; [|done].
  apply bind_state; [|done]. rewrite context_state. by apply touched_delete.
Qed.

Lemma apply_pass_Ok upserts dels m s report s' :
  holds s m → NoDup (ids upserts) → apply name elapsed timeout upserts dels s = (Ok report, s') →
  holds s' (applied upserts dels m) ∧
  report = mkApplyReport (length upserts) (length (filter (λ k, k ∈ dom (by_id upserts ∪ m)) dels)).
Proof.
  intros Hm Hnd. unfold apply.
  intros ([] & s1 & He%context_Ok & (n & s2 & Hu & (removed & s3 & Hd & [= <- <-])%sm_bind_Ok)%sm_bind_Ok)%sm_bind_Ok.
  pose proof (holds_ensure s m Hm) as Hm1. rewrite He in Hm1. simpl in Hm1.
  destruct (upload_and_wait_Ok elapsed timeout upserts m s1 n s2 Hnd Hm1 Hu) as [-> Hm2].
  set (m2 := by_id upserts ∪ m) in *. case_decide as Hdels.
  - injection Hd as <- <-. subst dels. split; [|done].
    assert (applied upserts [] m = m2) as ->; [|done]. apply map_eq. intros k.
    rewrite lookup_applied, decide_False; [done|apply not_elem_of_nil].
  - apply sm_bind_Ok in Hd as (existing & s4 & Hl%context_Ok & Hd).
    destruct (holds_ids s2 m2 None Hm2) as [Hm4 Hex]. rewrite Hl in Hm4. simpl in Hm4. specialize (Hex _ _ Hl).
    apply (delete_loop_Ok (λ k, k ∈ existing) _ _ m2) in Hd as [-> (m3 & Hm3 & Hl3)]; [|done|done].
    assert (∀ k, k ∈ existing ↔ k ∈ dom m2) as Hdom.
    { intros k. rewrite Hex, elem_of_dom. split; [intros (d & ? & _); eauto|intros [d ?]; eauto]. }
    split.
    + assert (applied upserts dels m = m3) as ->; [|done]. apply map_eq. intros k. rewrite lookup_applied, Hl3.
      destruct (decide (k ∈ dels)) as [Hk|Hk]; [|by rewrite decide_False by tauto].
      destruct (decide (k ∈ existing)) as [Hke|Hke]; [by rewrite decide_True|]. rewrite decide_False by tauto.
      symmetry. apply not_elem_of_dom. by rewrite <- Hdom.
    + f_equal. simpl. f_equal. apply list_filter_iff_in. intros k _. apply Hdom.
Qed.
End passes.

(** * Panics *)

(** The futures of the store return. *)
Record store_returns {St E} `{Store St E} (name : text) : Prop := {
  sr_ensure : returns (ensure_store name);
  sr_records : ∀ filters, returns (list_records name filters);
  sr_upload : ∀ d, returns (upload name d);
  sr_delete : ∀ k, returns (SearchStore.delete name k);
  sr_status : ∀ id, returns (file_status name id) }.

(** Every poll but the first comes after a sleep of the interval. *)
Definition polls_apart (elapsed : nat → Z) : Prop := ∀ i, (Z.of_nat i * POLL_INTERVAL <= elapsed i)%Z.

Lemma replace_returns {St E} `{Store St E} `{Arrange} name elapsed timeout src docs :
  store_returns name → polls_apart elapsed → returns (replace name elapsed timeout src docs).
Proof.
  intros Hr Hp. unfold replace. apply returns_bind; [|intros outcome _ _ _; apply returns_bind; [|done]].
  - unfold sync_source. apply returns_bind; [apply returns_context, sr_ensure, Hr|]. intros _ _ _ _.
    apply returns_bind; [apply returns_context, sr_records, Hr|]. intros rs _ _ _.
    apply returns_bind.
    { apply returns_lift. pose proof (verify_scope_spec (E:=E) src rs) as Hv. by destruct (verify_scope src rs). }
    intros [] _ _ _. apply returns_bind; [|done]. unfold upload_and_wait. apply returns_all_ok.
    { intros d. apply returns_context, sr_upload, Hr. }
    apply returns_bind; [|done]. case_decide; [|done]. apply returns_context. intros s Hpanic.
    destruct (wait_until_indexed _ _ _ _ s) as [r s'] eqn:Hw. simpl in Hpanic. subst r.
    by destruct (wait_spec name elapsed timeout (sr_status _ Hr) Hp (λ _, True) (λ _ _ _, I) _ _ _ _ I Hw).
  - apply returns_foldS. intros n k _. case_decide; [done|].
    apply returns_bind; [apply returns_context, sr_delete, Hr|done].
Qed.

(** * Claims *)

(** C11. [MixedbreadReconciler::replace] of a source by documents with different
    external ids that all carry the source, on a store keyed by external id.
    However it ends, it has only uploaded documents it was given and deleted records
    of the source that are not among them.  When it succeeds, the source's records
    are exactly the documents by id and content hash (those with the stored hash
    kept as they were, the others replaced), no other record has changed, the
    report counts what was uploaded, skipped and deleted, and a second replace
    uploads and deletes nothing.  It never blames the scope.  It does end, and does
    not panic, if the store's futures do and every poll of the wait for the
    index, after the first, follows a sleep of the interval. *)
Theorem replace_correct `{HS : KeyedStore St E name} `{HA : Arrange} elapsed timeout src docs m (s : St) :
  holds s m → NoDup (ids docs) → Forall (λ d, doc_source d = Some src) docs →
  let '(r, s') := replace name elapsed timeout src docs s in
  touched docs (λ k, k ∉ ids docs ∧ ∃ d, m !! k = Some d ∧ doc_source d = Some src) m s' ∧
  match r with
  | Ok report => ∃ m', holds s' m' ∧ replaced src docs m m' ∧
      (∀ d, d ∈ docs → same_stored src m' d) ∧
      (∀ k d', m' !! k = Some d' → doc_source d' = Some src → k ∈ ids docs) ∧
      report = mkReplaceReport (length (changed src m docs)) (length docs - length (changed src m docs))
                 (length (absent src m docs)) (length docs) ∧
      ∀ report' s'', replace name elapsed timeout src docs s' = (Ok report', s'') →
        report' = mkReplaceReport 0 (length docs) 0 (length docs) ∧ holds s'' m'
  | Err e => store_failed e
  | Panic => ¬ (store_returns name ∧ polls_apart elapsed)
  end.
Proof.
  intros Hm Hnd Hsrc. destruct (replace name elapsed timeout src docs s) as [r s'] eqn:Hr.
  pose proof (replace_touched elapsed timeout src docs m s Hm Hnd) as Ht. rewrite Hr in Ht. split; [exact Ht|].
  destruct r as [report|e|]; [|by eapply replace_errs|].
  2:{ intros [Hret Hp]. apply (replace_returns name elapsed timeout src docs Hret Hp s). by rewrite Hr. }
  destruct (replace_Ok elapsed timeout src docs m s report s' Hm Hnd Hr) as [-> (m' & Hm' & Hrep)].
  destruct (replaced_mirrors src docs m m' Hsrc Hrep) as [Hsame Hids]. exists m'. split_and!; [done..|].
  intros report' s'' Hr'. destruct (replace_Ok elapsed timeout src docs m' s' report' s'' Hm' Hnd Hr') as [-> (m'' & Hm'' & Hrep')].
  rewrite (replaced_same src docs m' m'' Hsame Hids Hrep') in Hm''. split; [|exact Hm''].
  assert (changed src m' docs = []) as ->.
  { apply elem_of_nil_inv. intros d [Hn Hd]%list_elem_of_filter. by apply Hn, Hsame. }
  assert (absent src m' docs = []) as ->; [|simpl; by rewrite Nat.sub_0_r].
  apply elem_of_nil_inv. intros d [Hn [Hs [k Hk]]%elem_of_of_source]%list_elem_of_filter.
  apply Hn. rewrite (holds_keys _ _ Hm' k d Hk). by apply (Hids k d).
Qed.

(** [MixedbreadReconciler::apply] can be replayed after a crash: from any state
    that attempts which failed half-way may have left (some upserts uploaded, some
    tombstones deleted), an attempt that fails leaves such a state again, and one
    that succeeds leaves the documents a single successful apply would have:
    every upsert as given, every tombstone gone, everything else untouched. *)
Lemma apply_replays `{HS : KeyedStore St E name} `{HA : Arrange} elapsed timeout upserts dels m (s : St) :
  NoDup (ids upserts) → touched upserts (λ k, k ∈ dels) m s →
  let '(r, s') := apply name elapsed timeout upserts dels s in
  touched upserts (λ k, k ∈ dels) m s' ∧
  ∀ report, r = Ok report → ar_uploaded report = length upserts ∧ holds s' (applied upserts dels m).
Proof.
  intros Hnd Hs. pose proof (apply_touched elapsed timeout upserts dels m s Hs) as Ht.
  destruct (apply name elapsed timeout upserts dels s) as [r s'] eqn:Hr. split; [exact Ht|]. intros report ->.
  destruct Hs as (m1 & Hm1 & Hto). destruct (apply_pass_Ok elapsed timeout upserts dels m1 s report s' Hm1 Hnd Hr) as [Hh ->].
  by rewrite (applied_touched _ _ m) in Hh.
Qed.

(** Whatever the store does: when the listing of a source contains a record
    that does not carry that source, [replace], [reconcile] and [gc] stop with
    [ScopeLeak], naming such a record, and leave the store as the listing left
    it: nothing is uploaded and nothing is deleted. *)
Lemma scope_leak_stops `{HS : Store St E} `{HA : Arrange} name elapsed timeout src docs produced (s s1 s2 : St) rs :
  ensure_store name s = (Ok (), s1) → list_records name (Some (source_filter src)) s1 = (Ok rs, s2) →
  (∃ r, r ∈ rs ∧ rec_source r ≠ Some src) →
  ∃ count r, 0 < count ∧ r ∈ rs ∧ rec_source r ≠ Some src ∧
    let leak := ScopeLeak src count (rec_external_id r) in
    replace name elapsed timeout src docs s = (Err leak, s2) ∧
    reconcile name elapsed timeout src docs s = (Err leak, s2) ∧
    gc name src produced s1 = (Err leak, s2).
Proof.
  intros Hensure Hlist (q & Hq & Hqs). pose proof (verify_scope_spec (E:=E) src rs) as Hv.
  destruct (verify_scope src rs) as [[]|e|] eqn:Hver; [by destruct (Hqs (Hv q Hq))| |done].
  destruct Hv as (count & r & -> & Hpos & Hr & Hrs). exists count, r.
  assert (sync_source name elapsed timeout src docs s = (Err (ScopeLeak src count (rec_external_id r)), s2)) as Hsync.
  { unfold sync_source, mbind, sm_bind, context, lift. rewrite Hensure. simpl. rewrite Hlist. simpl. by rewrite Hver. }
  cbv zeta. split_and!; [done..| | |].
  - unfold replace, mbind, sm_bind. by rewrite Hsync.
  - unfold reconcile, mbind, sm_bind. by rewrite Hsync.
  - unfold gc, mbind, sm_bind, context, lift. rewrite Hlist. simpl. by rewrite Hver.
Qed.

(** * Witnesses *)

Definition demo_docs : list Document := [demo_doc "a" "git" "2"; demo_doc "d" "git" "1"].

Lemma memory_returns : store_returns (St:=Inner) [] ∧ polls_apart (λ i, 500 * Z.of_nat i)%Z.
Proof.
  split; [|intros i; unfold POLL_INTERVAL; lia]. split; try done.
  intros d s. cbn. unfold memory_upload, source_of. by destruct (value_get SOURCE (doc_meta_json d) ≫= as_str).
Qed.

Lemma replace_correct_witness :
  ∃ s', replace (St:=Inner) [] (λ i, 500 * Z.of_nat i)%Z 1000 (chars_of "git") demo_docs demo_store =
      (Ok (mkReplaceReport 2 0 1 2), s') ∧
    ∃ m', memory_holds s' m' ∧ replaced (chars_of "git") demo_docs (stored_document <$> files demo_store) m'.
Proof.
  pose proof (replace_correct (St:=Inner) (name:=[]) (λ i, 500 * Z.of_nat i)%Z 1000 (chars_of "git") demo_docs _ demo_store
    demo_holds ltac:(apply (bool_decide_unpack _); vm_compute; exact I)
    ltac:(apply (bool_decide_unpack _); vm_compute; exact I)) as H.
  destruct (replace (St:=Inner) [] (λ i, 500 * Z.of_nat i)%Z 1000 (chars_of "git") demo_docs demo_store) as [r s'] eqn:Hr.
  assert (r = Ok (mkReplaceReport 2 0 1 2)) as ->.
  { apply (f_equal fst) in Hr. simpl in Hr. rewrite <- Hr. vm_compute. reflexivity. }
  exists s'. split; [reflexivity|]. destruct H as (_ & m' & H1 & H2 & _). exists m'. exact (conj H1 H2).
Defined.

Example apply_replays_demo :
  ∃ s', apply (St:=Inner) [] (λ i, 500 * Z.of_nat i)%Z 1000 demo_docs [chars_of "b"; chars_of "gone"] demo_store =
      (Ok (mkApplyReport 2 1), s') ∧
    memory_holds s' (applied demo_docs [chars_of "b"; chars_of "gone"] (stored_document <$> files demo_store)).
Proof.
  pose proof (apply_replays (St:=Inner) (name:=[]) (λ i, 500 * Z.of_nat i)%Z 1000 demo_docs [chars_of "b"; chars_of "gone"]
    (stored_document <$> files demo_store) demo_store ltac:(apply (bool_decide_unpack _); vm_compute; exact I)
    (touched_refl _ _ _ demo_store demo_holds)) as H.
  destruct (apply (St:=Inner) [] (λ i, 500 * Z.of_nat i)%Z 1000 demo_docs [chars_of "b"; chars_of "gone"] demo_store) as [r s'] eqn:Hr.
  assert (r = Ok (mkApplyReport 2 1)) as ->.
  { apply (f_equal fst) in Hr. simpl in Hr. rewrite <- Hr. vm_compute. reflexivity. }
  exists s'. split; [reflexivity|]. destruct H as [_ H]. exact (proj2 (H _ eq_refl)).
Defined.

(** A store that drops the filter of a listing. *)
Definition leaky : Store Inner MemoryError :=
  {| ensure_store := ensure_store; list_external_ids := list_external_ids;
     list_records name _ := list_records name None; upload := upload; SearchStore.delete := SearchStore.delete;
     file_status := file_status |}.

Example scope_leak_stops_demo :
  ∃ count r, rec_source r ≠ Some (chars_of "git") ∧
    @replace Inner MemoryError leaky in_order [] (λ i, 500 * Z.of_nat i)%Z 1000 (chars_of "git") demo_docs demo_store =
      (Err (ScopeLeak (chars_of "git") count (rec_external_id r)), demo_store).
Proof.
  destruct (@scope_leak_stops Inner MemoryError leaky in_order [] (λ i, 500 * Z.of_nat i)%Z 1000 (chars_of "git") demo_docs ∅
    demo_store demo_store demo_store (memory_record <$> matching None demo_store)) as (count & r & _ & _ & H1 & H2 & _).
  - reflexivity.
  - reflexivity.
  - exists (memory_record (stored (demo_doc "c" "slack" "1") "slack")). split; [|intros [=]].
    apply list_elem_of_lookup. first [exists 0; vm_compute; reflexivity|exists 1; vm_compute; reflexivity|exists 2; vm_compute; reflexivity].
  - exists count, r. exact (conj H1 H2).
Defined.
