(* ===== verification/PanesProto.v ===== *)
(** The wire protocol of panes, [packages/panes/protocol/src/lib.rs]: the
    messages between the compositor in the guest and the host that shows its
    windows, their length-prefixed frames, and key repeat timing.

    A byte is an integer in 0..255, a reader the bytes still to come; a writer
    is what has been written and how much more it takes before it fails.  The
    [postcard] encoding of a message is a parameter. *)

From stdpp Require Import base gmap sets list strings.
From Stdlib Require Import SpecFloat.
From S2P Require Import Prelude StateErr Chars JsonValue McWire.
Local Open Scope Z_scope.

Definition VERSION_MAJOR : Z := 1.
Definition VERSION_MINOR : Z := 3.

Abbreviation WindowId := Z.

(** Sizes and positions in pixels are naturals, bounded where the code bounds
    them. *)
Record Rect := mkRect { r_x : nat; r_y : nat; r_w : nat; r_h : nat }.
#[export] Instance Rect_eq_dec : EqDecision Rect.
Proof. solve_decision. Defined.

Inductive Encoding := Raw | Lz4.
#[export] Instance Encoding_eq_dec : EqDecision Encoding.
Proof. solve_decision. Defined.

Record Tile := mkTile { tl_rect : Rect; tl_encoding : Encoding; tl_payload : bytes }.

Record CursorImage := mkCursorImage {
  ci_width : Z; ci_height : Z; ci_hotspot : Z * Z; ci_bgra : bytes }.

(** Guest to host. *)
Inductive ToHost :=
| GuestHello (major minor : Z)
| WindowNew (id : WindowId) (title app_id : text) (width height : nat) (scale : Z)
| WindowTitle (id : WindowId) (title : text)
| WindowMinMax (id : WindowId) (min max : option (Z * Z))
| WindowFrame (id : WindowId) (seq : Z) (width height : nat) (full : bool) (tiles : list Tile)
| WindowGone (id : WindowId)
| Cursor (id : WindowId) (image : option CursorImage)
| Pong (nonce : Z)
| PointerLock (id : WindowId) (locked : bool)
| WindowScale (id : WindowId) (scale : Z).

Inductive ButtonState := Pressed | Released.

Inductive AxisSource := Wheel | Finger | Continuous.
#[export] Instance AxisSource_eq_dec : EqDecision AxisSource.
Proof. solve_decision. Defined.

(** Host to guest. *)
Inductive ToGuest :=
| HostHello (major minor refresh_mhz scale : Z) (encodings : list Encoding)
| Ack (id : WindowId) (seq : Z)
| Configure (id : WindowId) (width height scale : Z) (activated : bool)
| CloseRequest (id : WindowId)
| PointerMotion (id : WindowId) (x y : f64)
| PointerButton (id : WindowId) (button : Z) (state : ButtonState)
| PointerAxis (id : WindowId) (source : AxisSource) (horizontal vertical : f64)
    (v120 : option (Z * Z)) (stop : bool)
| PointerLeave (id : WindowId)
| Key (id : WindowId) (keycode : Z) (state : ButtonState)
| Ping (nonce : Z)
| PointerRelative (id : WindowId) (dx dy : f64)
| KeyRepeat (delay_ms interval_ms : Z).

(** * Key repeat *)

Record RepeatInfo := mkRepeatInfo { ri_rate : Z; ri_delay : Z }.

Definition clamp_to_i32 (value : Z) : Z := if decide (value < 2 ^ 31) then value else i32_max.

(** [u32] arithmetic that overflows when [1000 + interval / 2] does not fit. *)
Definition wl_repeat_info (delay_ms interval_ms : Z) : outcome () RepeatInfo :=
  rate ←
    (if decide (interval_ms = 0) then Ok 0
     else if decide (1000 + interval_ms / 2 <= u32_max)
     then Ok (clamp_to_i32 ((1000 + interval_ms / 2) / interval_ms)) else Panic);
  Ok (mkRepeatInfo rate (clamp_to_i32 delay_ms)).

(** * Frames *)

Inductive WireError :=
| Io (e : IoError)
| Codec
| TooLarge (n : Z).

Definition MAX_FRAME : Z := 64 * 1024 * 1024.

(** [u32::to_le_bytes], [u32::from_le_bytes]. *)
Definition to_le_bytes (n : Z) : bytes :=
  [n mod 256; n / 256 mod 256; n / 65536 mod 256; n / 16777216 mod 256].
Definition from_le_bytes (bs : bytes) : Z := foldr (λ b n, b + 256 * n) 0 bs.

(** [postcard::to_stdvec] and [postcard::from_bytes] at one message type. *)
Class Postcard (A : Type) := {
  to_stdvec : A → option bytes;
  from_bytes : bytes → option A;
}.

(** What was written, and how many bytes the writer still takes. *)
Record Writer := mkWriter { w_out : bytes; w_room : option nat }.

(** [w.write_all(bytes)]: a failing write may leave a part behind. *)
Definition write_all (bs : bytes) : SM Writer WireError () := λ w,
  match w_room w with
  | None => (Ok (), mkWriter (w_out w ++ bs) None)
  | Some room =>
      if decide (length bs ≤ room)%nat
      then (Ok (), mkWriter (w_out w ++ bs) (Some (room - length bs)%nat))
      else (Err (Io (OtherIo "write zero"%string)), mkWriter (w_out w ++ take room bs) (Some 0%nat))
  end.

Section messages.
Context {A : Type} `{Postcard A}.

Definition write_msg (msg : A) : SM Writer WireError () :=
  bytes ← lift (ok_or (to_stdvec msg) Codec);
  let n := Z.of_nat (length bytes) in
  if decide (u32_max < n) then raise (TooLarge n)
  else if decide (MAX_FRAME < n) then raise (TooLarge n)
  else _ ← write_all (to_le_bytes n); write_all bytes.

(** The message, and the reader after it. *)
Definition read_msg_bounded (cap : Z) (r : bytes) : outcome WireError (A * bytes) :=
  '(len, r) ← map_err Io (read_exact 4 r);
  let len := from_le_bytes len in
  if decide (cap < len) then Err (TooLarge len)
  else
    '(buf, r) ← map_err Io (read_exact (Z.to_nat len) r);
    msg ← ok_or (from_bytes buf) Codec;
    Ok (msg, r).

Definition read_msg (r : bytes) : outcome WireError (A * bytes) := read_msg_bounded MAX_FRAME r.

(** [reader_loop] of the compositor's [transport.rs]: the messages it passes
    on before the error that ends it. *)
Fixpoint reader_turns (fuel : nat) (msgs : list A) (r : bytes) : outcome () (list A * WireError) :=
  match fuel with
  | O => Panic
  | S fuel =>
      match read_msg r with
      | Ok (msg, r) => reader_turns fuel (msgs ++ [msg]) r
      | Err e => Ok (msgs, e)
      | Panic => Panic
      end
  end.
Definition reader_loop (r : bytes) : outcome () (list A * WireError) := reader_turns (S (length r)) [] r.

End messages.

(** Decoding gives back what was encoded. *)
Class PostcardLaws (A : Type) `{Postcard A} : Prop :=
  from_to_bytes : ∀ (m : A) bs, to_stdvec m = Some bs → from_bytes bs = Some m.

(** * Frames are read back *)

Lemma from_to_le_bytes n : 0 <= n <= u32_max → from_le_bytes (to_le_bytes n) = n.
Proof.
  unfold u32_max, from_le_bytes, to_le_bytes. intros Hn. cbn [foldr].
  Z.to_euclidean_division_equations. lia.
Qed.

Lemma from_le_bytes_bound bs : Forall byte bs → 0 <= from_le_bytes bs < 256 ^ Z.of_nat (length bs).
Proof.
  unfold byte. induction 1 as [|b bs Hb _ IH]; [done|].
  change (from_le_bytes (b :: bs)) with (b + 256 * from_le_bytes bs). cbn [length].
  rewrite Nat2Z.inj_succ, Z.pow_succ_r by lia. lia.
Qed.

(** A message takes at least the four bytes of its length. *)
Lemma read_msg_bounded_spec `{Postcard A} cap r :
  match read_msg_bounded cap r with
  | Ok (_, r') => (length r' + 4 ≤ length r)%nat
  | Err _ => True
  | Panic => False
  end.
Proof.
  unfold read_msg_bounded, read_exact. case_decide as Hlen; [|done]. cbn [map_err mbind outcome_bind].
  case_decide; [done|]. case_decide as Hbody; [|done]. cbn [map_err mbind outcome_bind].
  destruct (from_bytes _); [|done]. cbn. rewrite !length_drop in *. lia.
Qed.

Section roundtrip.
Context {A : Type} `{PostcardLaws A}.

(** The frame of a message, when it has one. *)
Definition frame_of (msg : A) : option bytes :=
  bs ← to_stdvec msg;
  if decide (Z.of_nat (length bs) <= MAX_FRAME) then Some (to_le_bytes (Z.of_nat (length bs)) ++ bs) else None.

Lemma read_exact_front bs r : read_exact (length bs) (bs ++ r) = Ok (bs, r).
Proof. unfold read_exact. rewrite length_app, decide_True by lia. by rewrite take_app_length, drop_app_length. Qed.

Lemma write_msg_frame msg f out : frame_of msg = Some f →
  write_msg msg (mkWriter out None) = (Ok (), mkWriter (out ++ f) None).
Proof.
  unfold frame_of, write_msg. intros (bs & Hbs & Hf)%bind_Some. rewrite Hbs.
  case_decide as Hlen; [|done]. apply (inj Some) in Hf. subst f.
  unfold mbind, sm_bind, lift. cbn [ok_or].
  rewrite !decide_False by (unfold u32_max, MAX_FRAME in *; lia).
  unfold write_all. cbn [w_room w_out]. by rewrite <- app_assoc.
Qed.

Lemma write_msg_no_frame msg w : frame_of msg = None →
  ∃ e, write_msg msg w = (Err e, w) ∧ (e = Codec ∨ ∃ n, e = TooLarge n ∧ MAX_FRAME < n).
Proof.
  unfold frame_of, write_msg. unfold mbind at 2, sm_bind, lift.
  destruct (to_stdvec msg) as [bs|] eqn:Hbs; cbn; [|eauto].
  case_decide as Hlen; [done|intros _].
  case_decide; [|rewrite decide_True by lia]; (eexists; split; [done|right; eexists; split; [done|lia]]).
Qed.

Lemma read_frame_of cap msg f r : frame_of msg = Some f → MAX_FRAME <= cap ∨ Z.of_nat (length f) <= cap + 4 →
  read_msg_bounded cap (f ++ r) = Ok (msg, r).
Proof.
  unfold frame_of, read_msg_bounded. intros (bs & Hbs & Hf)%bind_Some Hcap.
  case_decide as Hlen; [|done]. apply (inj Some) in Hf. subst f. rewrite <- app_assoc.
  change 4%nat with (length (to_le_bytes (Z.of_nat (length bs)))) at 1.
  rewrite read_exact_front. cbn [map_err mbind outcome_bind].
  rewrite from_to_le_bytes by (unfold u32_max, MAX_FRAME in *; lia).
  rewrite length_app in Hcap. change (length (to_le_bytes (Z.of_nat (length bs)))) with 4%nat in Hcap.
  rewrite decide_False by (unfold MAX_FRAME in *; lia).
  rewrite Nat2Z.id, read_exact_front. cbn [map_err mbind outcome_bind].
  by rewrite (from_to_bytes msg bs Hbs).
Qed.

(** A stream of frames is read to its end. *)
Lemma reader_turns_frames fuel acc msgs fs : Forall2 (λ m f, frame_of m = Some f) msgs fs →
  (length msgs < fuel)%nat → reader_turns fuel acc (concat fs) = Ok (acc ++ msgs, Io UnexpectedEof).
Proof.
  intros H2. revert fuel acc. induction H2 as [|m f msgs fs Hf _ IH]; intros [|fuel] acc Hfuel; cbn in Hfuel; try lia.
  - cbn. by rewrite app_nil_r.
  - cbn [concat reader_turns]. unfold read_msg. rewrite (read_frame_of MAX_FRAME m f) by (done || by left).
    rewrite IH by lia. by rewrite <- app_assoc.
Qed.

Lemma frame_of_length m f : frame_of m = Some f → (4 ≤ length f)%nat.
Proof.
  unfold frame_of. intros (bs & _ & Hf)%bind_Some. case_decide; [|done]. apply (inj Some) in Hf. subst f.
  rewrite length_app. cbn. lia.
Qed.

Lemma reader_loop_frames msgs fs : Forall2 (λ m f, frame_of m = Some f) msgs fs →
  reader_loop (concat fs) = Ok (msgs, Io UnexpectedEof).
Proof.
  intros H2. apply (reader_turns_frames _ []); [done|].
  induction H2 as [|m f msgs fs Hf%frame_of_length _ IH]; cbn; [lia|]. rewrite length_app. lia.
Qed.

End roundtrip.
