(* ===== verification/PanesQueue.v ===== *)
(** The host's outgoing queue, [packages/panes/host/src/send_queue.rs]: a
    bounded FIFO between the main thread and the socket's writer thread that
    coalesces continuous input, and its use by [conn.rs].

    The [Mutex] makes each critical section one step; the [Condvar] is the
    status of the one thread that waits on it.  A panic inside a critical
    section poisons the mutex.  [f64] additions are those of IEEE 754; whether
    [i32] additions are checked or wrap is a flag of the build. *)

From stdpp Require Import base gmap sets list strings.
From Stdlib Require Import SpecFloat.
From S2P Require Import Prelude StateErr Chars JsonValue McWire PanesProto.
Local Open Scope Z_scope.

Definition SEND_QUEUE_BOUND : nat := 512.

Inductive CoalesceKey :=
| KeyMotion (id : WindowId)
| KeyRelative (id : WindowId)
| KeyAxis (id : WindowId) (source : AxisSource)
| KeyAck (id : WindowId).
#[export] Instance CoalesceKey_eq_dec : EqDecision CoalesceKey.
Proof. solve_decision. Defined.

(** [CoalesceKey::for_msg]. *)
Definition for_msg (msg : ToGuest) : option CoalesceKey :=
  match msg with
  | PointerMotion id _ _ => Some (KeyMotion id)
  | PointerRelative id _ _ => Some (KeyRelative id)
  | PointerAxis id source _ _ _ false => Some (KeyAxis id source)
  | Ack id _ => Some (KeyAck id)
  | PointerAxis _ _ _ _ _ true
  | HostHello _ _ _ _ _ | Configure _ _ _ _ _ | CloseRequest _ | PointerButton _ _ _
  | PointerLeave _ | Key _ _ _ | Ping _ | KeyRepeat _ _ => None
  end.

Record Entry := mkEntry { en_key : option CoalesceKey; en_msg : ToGuest }.

(** [State]; of the hook, whether it is still to be taken. *)
Record State := mkState { entries : list Entry; open : bool; on_close : bool }.

(** What the mutex guards, and whether it is poisoned. *)
Record Shared := mkShared { guarded : State; poisoned : bool }.

Inductive SendQueueError := Full | Disconnected.

(** [channel_with_on_close]. *)
Definition channel : Shared := mkShared (mkState [] true true) false.

Definition f64_add (a b : f64) : f64 := SFadd 53 1024 a b.

(** A critical section: its result, the shared state it leaves, whether it
    notifies the condition variable, and whether it took the hook. *)
Record Critical (R : Type) := mkCritical {
  se_result : R; se_shared : Shared; se_notify : bool; se_hook : bool }.
Arguments mkCritical {R}.
Arguments se_result {R}.
Arguments se_shared {R}.
Arguments se_notify {R}.
Arguments se_hook {R}.

Section ops.
Context (overflow_checks : bool).

(** [a + b] on [i32]; [None] when it panics. *)
Definition i32_add (a b : Z) : option Z :=
  if decide (i32 (a + b)) then Some (a + b)
  else if overflow_checks then None else Some (cast_signed (cast_unsigned (a + b))).

(** The merge of the wheel steps of two axis messages. *)
Definition merge_v120 (a b : option (Z * Z)) : option (option (Z * Z)) :=
  match a, b with
  | Some (h, v), Some (next_h, next_v) =>
      h ← i32_add h next_h; v ← i32_add v next_v; Some (Some (h, v))
  | Some value, None | None, Some value => Some (Some value)
  | None, None => Some None
  end.

(** [coalesce]: the queued message afterwards, and whether it panicked. *)
Definition coalesce (queued next : ToGuest) : ToGuest * bool :=
  match queued, next with
  | PointerRelative id dx dy, PointerRelative _ next_dx next_dy =>
      (PointerRelative id (f64_add dx next_dx) (f64_add dy next_dy), false)
  | PointerAxis id source horizontal vertical v120 stop,
    PointerAxis _ _ next_horizontal next_vertical next_v120 _ =>
      let merged := PointerAxis id source (f64_add horizontal next_horizontal) (f64_add vertical next_vertical) in
      match merge_v120 v120 next_v120 with
      | Some v120 => (merged v120 stop, false)
      | None => (merged v120 stop, true)
      end
  | Ack id seq, Ack _ next_seq => (Ack id (if decide (next_seq >= seq) then next_seq else seq), false)
  | _, _ => (next, false)
  end.

(** The scan of [send] from the back: the first entry of this key before the
    last barrier takes the message. *)
Fixpoint scan (key : CoalesceKey) (msg : ToGuest) (back : list Entry) : option (list Entry * bool) :=
  match back with
  | [] => None
  | e :: back =>
      match en_key e with
      | None => None
      | Some k =>
          if decide (k = key) then
            let '(m, panicked) := coalesce (en_msg e) msg in Some (mkEntry (Some k) m :: back, panicked)
          else '(back, panicked) ← scan key msg back; Some (e :: back, panicked)
      end
  end.

(** [close_locked]: the state, and whether the caller now holds the hook. *)
Definition close_locked (st : State) : State * bool :=
  (mkState (entries st) false false, on_close st).

(** [SendQueue::send]. *)
Definition send (msg : ToGuest) (sh : Shared) : Critical (outcome SendQueueError ()) :=
  let key := for_msg msg in
  let st := guarded sh in
  if poisoned sh then mkCritical (Err Disconnected) sh false false
  else if negb (open st) then mkCritical (Err Disconnected) sh false false
  else
    match key ≫= λ key, scan key msg (reverse (entries st)) with
    | Some (back, panicked) =>
        let st := mkState (reverse back) (open st) (on_close st) in
        mkCritical (if panicked : bool then Panic else Ok ()) (mkShared st panicked) false false
    | None =>
        if decide (length (entries st) = SEND_QUEUE_BOUND) then
          let '(st, hook) := close_locked st in
          mkCritical (Err Full) (mkShared st false) true hook
        else
          mkCritical (Ok ())
            (mkShared (mkState (entries st ++ [mkEntry key msg]) (open st) (on_close st)) false) true false
    end.

(** [SendQueue::is_open]. *)
Definition is_open (sh : Shared) : bool := if poisoned sh then false else open (guarded sh).

(** [Drop for SendQueue] and [Drop for SendQueueReceiver]. *)
Definition drop_handle (sh : Shared) : Critical () :=
  if poisoned sh then mkCritical () sh true false
  else let '(st, hook) := close_locked (guarded sh) in mkCritical () (mkShared st false) true hook.

Inductive Poll := Returns (msg : option ToGuest) | Waits.

(** One turn of the loop of [SendQueueReceiver::recv], the lock being taken. *)
Definition recv_turn (sh : Shared) : Poll * Shared :=
  if poisoned sh then (Returns None, sh)
  else
    match entries (guarded sh) with
    | e :: rest =>
        (Returns (Some (en_msg e)), mkShared (mkState rest (open (guarded sh)) (on_close (guarded sh))) false)
    | [] => (if open (guarded sh) then Waits else Returns None, sh)
    end.

(** [SendQueueReceiver::try_recv]. *)
Definition try_recv (sh : Shared) : option ToGuest * Shared :=
  if poisoned sh then (None, sh)
  else
    match entries (guarded sh) with
    | e :: rest => (Some (en_msg e), mkShared (mkState rest (open (guarded sh)) (on_close (guarded sh))) false)
    | [] => (None, sh)
    end.

(** * The two threads *)

(** The writer thread: outside [recv], asleep in it, woken, or gone. *)
Inductive Receiver := Running | Asleep | Woken | Gone.

(** Whether the sender's handle is alive; the hooks taken and not run yet;
    and how often the hook has run. *)
Record Sys := mkSys {
  shared : Shared; sender : bool; receiver : Receiver; hooks : nat; runs : nat }.

Definition start : Sys := mkSys channel true Running 0 0.

Inductive Event :=
| Sent (msg : ToGuest) (result : outcome SendQueueError ())
| Received (msg : ToGuest)
| Ended
| Empty
| Other.

(** [notify_one] and [notify_all] wake the one thread that may be asleep. *)
Definition wake (notify : bool) (r : Receiver) : Receiver :=
  match r with Asleep => if notify then Woken else Asleep | _ => r end.

Definition after {R} (se : Critical R) (sender : bool) (r : Receiver) (s : Sys) : Sys :=
  mkSys (se_shared se) sender (wake (se_notify se) r) (hooks s + if se_hook se then 1 else 0) (runs s).

Definition received (p : Poll) : Receiver * Event :=
  match p with
  | Returns (Some msg) => (Running, Received msg)
  | Returns None => (Running, Ended)
  | Waits => (Asleep, Other)
  end.

Inductive step : Sys → Event → Sys → Prop :=
| step_send s msg : sender s = true →
    step s (Sent msg (se_result (send msg (shared s)))) (after (send msg (shared s)) true (receiver s) s)
| step_drop_sender s : sender s = true →
    step s Other (after (drop_handle (shared s)) false (receiver s) s)
| step_recv s : receiver s ≠ Gone →
    (** a call of [recv], or its next turn: a sleeper may also wake spuriously *)
    step s (received (recv_turn (shared s)).1).2
      (mkSys (recv_turn (shared s)).2 (sender s) (received (recv_turn (shared s)).1).1 (hooks s) (runs s))
| step_try_recv s msg : receiver s = Running → (try_recv (shared s)).1 = Some msg →
    step s (Received msg) (mkSys (try_recv (shared s)).2 (sender s) Running (hooks s) (runs s))
| step_try_none s : receiver s = Running → (try_recv (shared s)).1 = None →
    step s Empty (mkSys (try_recv (shared s)).2 (sender s) Running (hooks s) (runs s))
| step_drop_receiver s : receiver s = Running →
    step s Other (after (drop_handle (shared s)) (sender s) Gone s)
| step_hook s : (0 < hooks s)%nat →
    step s Other (mkSys (shared s) (sender s) (receiver s) (hooks s - 1) (runs s + 1)).

(** The executions of a queue, with what was observed. *)
Inductive run : list Event → Sys → Prop :=
| run_start : run [] start
| run_step tr s ev s' : run tr s → step s ev s' → run (tr ++ [ev]) s'.

(** * Use by the connection: [write_loop] of [conn.rs] *)

Section write_loop.
Context `{Postcard ToGuest}.

(** A turn of the loop writes what [recv] returned and what [try_recv] then
    returned until it was empty; [BufWriter] passes bytes on unchanged. *)
Definition write_burst (burst : ToGuest * list ToGuest) : SM Writer WireError () :=
  _ ← write_msg burst.1;
  foldS (λ _ next, write_msg next) () burst.2.

(** [write_loop], until [recv] returns [None] after these bursts. *)
Definition write_loop (bursts : list (ToGuest * list ToGuest)) : SM Writer WireError () :=
  foldS (λ _ burst, write_burst burst) () bursts.

End write_loop.
End ops.
