(* ===== verification/PanesQueueProps.v ===== *)
(** What the host's outgoing queue promises ([packages/panes/host/src/send_queue.rs]):
    coalescing keeps the meaning of the input, the queue is bounded, the close
    hook runs once, and no wakeup of the writer thread is lost. *)

From stdpp Require Import base gmap sets list strings.
From Stdlib Require Import SpecFloat.
From S2P Require Import Prelude StateErr Chars JsonValue McWire PanesProto PanesQueue.
Local Open Scope Z_scope.

(** * Groups: what one queued message stands for *)

Definition group : Type := ToGuest * list ToGuest.

Definition members (g : group) : list ToGuest := g.1 :: g.2.

(** A barrier stands for itself, a coalesced message for messages of one key. *)
Definition group_ok (g : group) : Prop :=
  match for_msg g.1 with
  | None => g.2 = []
  | Some k => Forall (λ m, for_msg m = Some k) g.2
  end.

(** The messages that must not be reordered among each other: the barriers and
    those of one key. *)
Definition matters (k : CoalesceKey) (m : ToGuest) : Prop := for_msg m = None ∨ for_msg m = Some k.
#[export] Instance matters_dec k m : Decision (matters k m).
Proof. unfold matters. apply _. Defined.

Definition accepted (tr : list Event) : list ToGuest :=
  omap (λ ev, match ev with Sent m (Ok _) => Some m | _ => None end) tr.
Definition delivered (tr : list Event) : list ToGuest :=
  omap (λ ev, match ev with Received m => Some m | _ => None end) tr.

Section props.
Context (oc : bool).

Definition merged (g : group) : ToGuest := foldl (λ q n, (coalesce oc q n).1) g.1 g.2.

Definition entry_of (g : group) : Entry := mkEntry (for_msg g.1) (merged g).

Lemma merged_snoc g m : merged (g.1, g.2 ++ [m]) = (coalesce oc (merged g) m).1.
Proof. unfold merged. cbn [fst snd]. by rewrite foldl_app. Qed.

Lemma entry_of_snoc g m : entry_of (g.1, g.2 ++ [m]) = mkEntry (for_msg g.1) (coalesce oc (merged g) m).1.
Proof. unfold entry_of. by rewrite merged_snoc. Qed.

(** No message of the group made its coalescing panic. *)
Definition calm (g : group) : Prop :=
  ∀ l1 m l2, g.2 = l1 ++ m :: l2 → (coalesce oc (merged (g.1, l1)) m).2 = false.

Lemma calm_snoc g m : calm g → (coalesce oc (merged g) m).2 = false → calm (g.1, g.2 ++ [m]).
Proof.
  intros Hg Hm l1 m' l2 Hl. cbn [fst snd] in *. destruct l2 as [|x l2 _] using rev_ind.
  - apply app_inj_tail in Hl as [<- <-]. by destruct g.
  - rewrite app_comm_cons, app_assoc in Hl. apply app_inj_tail in Hl as [Hl _]. by eapply Hg.
Qed.

Lemma calm_init m ms m' : calm (m, ms ++ [m']) → calm (m, ms) ∧ (coalesce oc (merged (m, ms)) m').2 = false.
Proof.
  intros H. split; [|by apply (H ms m' [])]. intros l1 x l2 Hl. cbn [fst snd] in *. subst ms.
  apply (H l1 x (l2 ++ [m'])). cbn. by rewrite <- app_assoc.
Qed.

(** The entry that takes a message is the last of its key, and only entries of
    other keys follow it. *)
Lemma scan_spec key msg gs back p : scan oc key msg (reverse (entry_of <$> gs)) = Some (back, p) →
  ∃ gs1 g gs2, gs = gs1 ++ g :: gs2 ∧ for_msg g.1 = Some key ∧
    Forall (λ h, ∃ k, for_msg h.1 = Some k ∧ k ≠ key) gs2 ∧
    reverse back = entry_of <$> (gs1 ++ (g.1, g.2 ++ [msg]) :: gs2) ∧
    p = (coalesce oc (merged g) msg).2.
Proof.
  revert back. induction gs as [|h gs IH] using rev_ind; intros back; [done|].
  rewrite fmap_app, reverse_app. cbn [fmap list_fmap]. change (reverse [entry_of h]) with [entry_of h].
  cbn [app scan entry_of en_key en_msg].
  destruct (for_msg h.1) as [k|] eqn:Hk; [|done]. case_decide as Hkey.
  - destruct (coalesce oc (merged h) msg) as [m q] eqn:Hc. intros [= <- <-]. subst k.
    exists gs, h, []. split_and!; [done|done|by constructor| |by rewrite Hc].
    by rewrite reverse_cons, reverse_involutive, fmap_app, list_fmap_singleton, entry_of_snoc, Hk, Hc.
  - intros ([back' q] & Hscan & Heq)%bind_Some. simplify_eq.
    destruct (IH _ Hscan) as (gs1 & g & gs2 & -> & Hg & Hgs2 & Hback & Hp).
    exists gs1, g, (gs2 ++ [h]). rewrite <- app_assoc. split_and!; [done|done| | |done].
    + apply Forall_app_2; [done|]. constructor; [|done]. by exists k.
    + rewrite reverse_cons, Hback, app_comm_cons, app_assoc, (fmap_app _ _ [h]).
      done.
Qed.

(** The order that matters, over the groups. *)
Definition same_order (gs : list group) (ms : list ToGuest) : Prop :=
  ∀ k, filter (matters k) (concat (members <$> gs)) = filter (matters k) ms.

Lemma same_order_snoc gs ms m : same_order gs ms → same_order (gs ++ [(m, [])]) (ms ++ [m]).
Proof. intros H k. by rewrite fmap_app, concat_app, !filter_app, H. Qed.

Lemma same_order_coalesce gs1 g gs2 ms m key :
  for_msg m = Some key → Forall group_ok gs2 → Forall (λ h, ∃ k, for_msg h.1 = Some k ∧ k ≠ key) gs2 →
  same_order (gs1 ++ g :: gs2) ms → same_order (gs1 ++ (g.1, g.2 ++ [m]) :: gs2) (ms ++ [m]).
Proof.
  intros Hm Hok Hgs2 H k. rewrite filter_app, <- (H k), !fmap_app, !concat_app, !filter_app. cbn [fmap list_fmap concat].
  rewrite !filter_app, <- !app_assoc. f_equal.
  change (members (g.1, g.2 ++ [m])) with (members g ++ [m]). rewrite filter_app, <- app_assoc. f_equal.
  destruct (decide (k = key)) as [->|Hne].
  - assert (filter (matters key) (concat (members <$> gs2)) = []) as ->; [|by rewrite app_nil_r].
    apply elem_of_nil_inv. intros x [Hx Hin]%list_elem_of_filter.
    apply list_elem_of_In, in_concat in Hin as (l & Hl%list_elem_of_In & Hxl%list_elem_of_In).
    apply list_elem_of_fmap in Hl as (h & -> & Hh). rewrite Forall_forall in Hgs2, Hok.
    destruct (Hgs2 h Hh) as (k & Hk & Hne). specialize (Hok h Hh). unfold group_ok in Hok. rewrite Hk in Hok.
    assert (for_msg x = Some k) as Hxk by
      (apply elem_of_cons in Hxl as [->|Hxl]; [done|by rewrite Forall_forall in Hok; apply Hok]).
    destruct Hx as [Hx|Hx]; congruence.
  - rewrite (filter_cons_False _ m), filter_nil; [by rewrite app_nil_r|].
    intros [Hx|Hx]; congruence.
Qed.

(** * The invariant of coalescing *)

Definition explains (gd gp : list group) (acc dl : list ToGuest) (sh : Shared) : Prop :=
  dl = merged <$> gd ∧ Forall (λ g, group_ok g ∧ calm g) (gd ++ gp) ∧ same_order (gd ++ gp) acc ∧
  (poisoned sh = false → entries (guarded sh) = entry_of <$> gp).

Lemma explains_send gd gp acc dl sh msg : explains gd gp acc dl sh →
  let se := send oc msg sh in
  ∃ gp', explains gd gp' (acc ++ match se_result se with Ok _ => [msg] | _ => [] end) dl (se_shared se).
Proof.
  intros (Hd & Hok & Hord & He). unfold send.
  destruct (poisoned sh) eqn:Hp; [exists gp; unfold explains; cbn; by rewrite app_nil_r, Hp|].
  specialize (He eq_refl).
  destruct (open (guarded sh)) eqn:Ho; cbn [negb]; [|exists gp; unfold explains; cbn; by rewrite app_nil_r].
  destruct (for_msg msg ≫= _) as [[back p]|] eqn:Hscan.
  - apply bind_Some in Hscan as (key & Hkey & Hscan). rewrite He in Hscan.
    apply scan_spec in Hscan as (gs1 & g & gs2 & -> & Hg & Hgs2 & Hback & Hpan).
    destruct p; cbn [se_result se_shared].
    { exists (gs1 ++ g :: gs2). unfold explains. cbn. by rewrite app_nil_r. }
    exists (gs1 ++ (g.1, g.2 ++ [msg]) :: gs2). unfold explains. cbn [poisoned guarded entries].
    rewrite app_assoc in Hord, Hok. rewrite !app_assoc.
    apply Forall_app in Hok as [Hok1 [[Hok2 Hcalm] Hok3]%Forall_cons].
    split_and!; [done| |eapply same_order_coalesce; [done| |done|done]; by eapply Forall_impl; [exact Hok3|intros ? []]|by intros _].
    apply Forall_app_2; [done|]. constructor; [|done]. split; [|by apply calm_snoc].
    unfold group_ok in *. cbn [fst snd]. rewrite Hg in *. by apply Forall_app_2; [|constructor].
  - case_decide; cbn [se_result se_shared close_locked]; [exists gp; unfold explains; cbn; by rewrite app_nil_r|].
    exists (gp ++ [(msg, [])]). unfold explains. cbn [poisoned guarded entries]. rewrite !app_assoc.
    split_and!; [done| |by apply same_order_snoc|intros _; by rewrite He, fmap_app].
    apply Forall_app_2; [done|]. constructor; [|done]. split; [|by intros [|? ?]].
    unfold group_ok. cbn [fst snd]. by destruct (for_msg msg).
Qed.

Lemma explains_same gd gp acc dl sh sh' : explains gd gp acc dl sh →
  (poisoned sh' = false → poisoned sh = false ∧ entries (guarded sh') = entries (guarded sh)) →
  explains gd gp acc dl sh'.
Proof.
  intros (Hd & Hok & Hord & He) Hs. split_and!; [done..|]. intros Hp. destruct (Hs Hp) as [Hp' ->]. auto.
Qed.

Lemma explains_drop gd gp acc dl sh : explains gd gp acc dl sh →
  explains gd gp acc dl (se_shared (drop_handle sh)).
Proof.
  intros H. eapply explains_same; [done|]. unfold drop_handle. by destruct (poisoned sh) eqn:Hp; cbn; [rewrite Hp|].
Qed.

Lemma explains_pop gd gp acc dl sh e rest st' : explains gd gp acc dl sh → poisoned sh = false →
  entries (guarded sh) = e :: rest → entries (guarded st') = rest →
  ∃ gd' gp', explains gd' gp' acc (dl ++ [en_msg e]) st'.
Proof.
  intros (Hd & Hok & Hord & He) Hp Hes Hst. rewrite Hes in He. specialize (He Hp).
  destruct gp as [|g gp]; [done|]. injection He as -> ->.
  exists (gd ++ [g]), gp. rewrite Hd. unfold explains. rewrite <- app_assoc, fmap_app.
  split_and!; [done..|]. by intros _.
Qed.

Lemma omap_snoc {A B} (f : A → option B) l a :
  omap f (l ++ [a]) = omap f l ++ match f a with Some b => [b] | None => [] end.
Proof. rewrite omap_app. cbn. by destruct (f a). Qed.

Lemma run_explained tr s : run oc tr s →
  ∃ gd gp, explains gd gp (accepted tr) (delivered tr) (shared s).
Proof.
  induction 1 as [|tr s ev s' _ (gd & gp & IH) Hstep].
  { exists [], []. split_and!; [done|by constructor|by intros k|done]. }
  unfold accepted, delivered. rewrite !omap_snoc. fold (accepted tr) (delivered tr).
  destruct Hstep as [s msg Hs|s Hs|s Hr|s msg Hr Ht|s Hr Ht|s Hr|s Hh]; cbn [shared after]; rewrite ?app_nil_r.
  - destruct (explains_send gd gp _ _ _ msg IH) as (gp' & H'). exists gd, gp'.
    by destruct (se_result (send oc msg (shared s))).
  - exists gd, gp. by apply explains_drop.
  - unfold recv_turn. destruct (poisoned (shared s)) eqn:Hp; cbn; rewrite ?app_nil_r; [by exists gd, gp|].
    destruct (entries (guarded (shared s))) as [|e rest] eqn:He; cbn.
    + destruct (open (guarded (shared s))); cbn; rewrite ?app_nil_r; by exists gd, gp.
    + rewrite app_nil_r. by eapply explains_pop.
  - unfold try_recv in *. destruct (poisoned (shared s)) eqn:Hp; [done|].
    destruct (entries (guarded (shared s))) as [|e rest] eqn:He; [done|]. cbn in *.
    injection Ht as <-. by eapply explains_pop.
  - exists gd, gp. unfold try_recv in *. destruct (poisoned (shared s)); [done|].
    by destruct (entries (guarded (shared s))).
  - exists gd, gp. by apply explains_drop.
  - by exists gd, gp.
Qed.

(** * What a merged message says *)

(** The sum of one axis of wheel steps. *)
Definition total (l : list Z) : Z := foldl Z.add 0 l.

(** [x] is [n] as [i32] has it: itself, unless it left the range in a build that
    wraps. *)
Definition as_i32 (n x : Z) : Prop := x = n ∨ oc = false ∧ i32 x ∧ x mod 2 ^ 32 = n mod 2 ^ 32.

(** The wheel steps of a group: the sum over the messages that have some. *)
Definition summed (w : option (Z * Z)) (steps : list (Z * Z)) : Prop :=
  match w with
  | None => steps = []
  | Some (h, v) => steps ≠ [] ∧ as_i32 (total steps.*1) h ∧ as_i32 (total steps.*2) v
  end.

(** Of pointer positions the last counts, of acks (which are cumulative) the
    highest; deltas and wheel steps are summed in the order they were sent. *)
Definition faithful (g : group) : Prop :=
  match for_msg g.1 with
  | None => merged g = g.1
  | Some (KeyMotion id) => last (members g) = Some (merged g)
  | Some (KeyAck id) =>
      ∃ s, merged g = Ack id s ∧ Ack id s ∈ members g ∧ ∀ s', Ack id s' ∈ members g → s' <= s
  | Some (KeyRelative id) =>
      ∃ d ds, members g = (λ d, PointerRelative id d.1 d.2) <$> (d :: ds) ∧
        merged g = PointerRelative id (foldl f64_add d.1 ds.*1) (foldl f64_add d.2 ds.*2)
  | Some (KeyAxis id source) =>
      ∃ (a : f64 * f64 * option (Z * Z)) l w,
        members g = (λ a, PointerAxis id source a.1.1 a.1.2 a.2 false) <$> (a :: l) ∧
        merged g = PointerAxis id source (foldl f64_add a.1.1 l.*1.*1) (foldl f64_add a.1.2 l.*1.*2) w false ∧
        summed w (omap snd (a :: l))
  end.

Lemma i32_add_sum n x b y : as_i32 n x → i32_add oc x b = Some y → as_i32 (n + b) y.
Proof.
  unfold as_i32, i32_add. intros Hx. case_decide as Hi.
  - intros [= <-]. destruct Hx as [->|(Ho & _ & Hm)]; [by left|]. right. split_and!; [done..|].
    by rewrite Z.add_mod, Hm, <- Z.add_mod by lia.
  - destruct oc; [done|]. intros [= <-]. right.
    assert (i32 (cast_signed (cast_unsigned (x + b))) ∧
      cast_signed (cast_unsigned (x + b)) mod 2 ^ 32 = (x + b) mod 2 ^ 32) as [H1 H2].
    { unfold cast_signed, cast_unsigned, i32. pose proof (Z.mod_pos_bound (x + b) (2 ^ 32) ltac:(lia)).
      case_decide; split; try lia; [by rewrite Z.mod_mod by lia|].
      replace ((x + b) mod 2 ^ 32 - 2 ^ 32) with ((x + b) mod 2 ^ 32 + (-1) * 2 ^ 32) by lia.
      by rewrite Z.mod_add, Z.mod_mod by lia. }
    split_and!; [done..|]. rewrite H2. destruct Hx as [->|(_ & _ & Hm)]; [done|].
    by rewrite Z.add_mod, Hm, <- Z.add_mod by lia.
Qed.

Lemma summed_snoc w steps next w' : summed w steps → merge_v120 oc w next = Some w' →
  summed w' (steps ++ option_list next).
Proof.
  unfold summed. destruct next as [[nh nv]|]; cbn [option_list]; [|by destruct w as [[h v]|]; intros Hs [= <-]; rewrite app_nil_r].
  destruct w as [[h v]|]; cbn.
  - intros (Hne & Hh & Hv) (h' & Ah & (v' & Av & [= <-])%bind_Some)%bind_Some.
    split; [by destruct steps|]. unfold total. rewrite !fmap_app, !foldl_app. cbn. by split; eapply i32_add_sum.
  - intros -> [= <-]. by split_and!; [|left..].
Qed.

Lemma omap_snd_snoc {A B} (l : list (A * option B)) a : omap snd (l ++ [a]) = omap snd l ++ option_list a.2.
Proof. rewrite omap_app. cbn. by destruct a.2. Qed.

Lemma members_snoc g m : members (g.1, g.2 ++ [m]) = members g ++ [m].
Proof. done. Qed.

Lemma faithful_snoc g m k : for_msg g.1 = Some k → for_msg m = Some k → (coalesce oc (merged g) m).2 = false →
  faithful g → faithful (g.1, g.2 ++ [m]).
Proof.
  unfold faithful. rewrite merged_snoc, members_snoc. cbn [fst]. intros -> Hm Hcalm.
  destruct k as [id|id|id source|id];
    destruct m as [| id' s' | | | id' x y | | id' src' h v w [] | | | | id' dx dy |]; try done; cbn in Hm; simplify_eq.
  - rewrite last_snoc. by destruct (merged g).
  - intros (d & ds & Hmem & ->). exists d, (ds ++ [(dx, dy)]). cbn [coalesce fst].
    rewrite app_comm_cons, !fmap_app, !foldl_app, Hmem. done.
  - intros (a & l & w' & Hmem & Hmerged & Hw). rewrite Hmerged in Hcalm |- *. cbn [coalesce fst] in *.
    destruct (merge_v120 oc w' w) as [w2|] eqn:Hv; [|done]. cbn [fst].
    exists a, (l ++ [(h, v, w)]), w2. rewrite app_comm_cons, !fmap_app, !foldl_app, omap_snd_snoc, Hmem.
    split_and!; [done..|]. by eapply summed_snoc.
  - intros (s & Hs & Hin & Hmax). rewrite Hs. cbn [coalesce fst]. eexists. split; [done|]. split.
    + case_decide; [set_solver|]. by apply elem_of_app; left.
    + intros s2 [H2%Hmax|H2%list_elem_of_singleton]%elem_of_app; [case_decide; lia|].
      injection H2 as ->. case_decide; lia.
Qed.

Lemma group_faithful g : group_ok g → calm g → faithful g.
Proof.
  destruct g as [m ms]. unfold group_ok. cbn [fst snd]. destruct (for_msg m) as [k|] eqn:Hk.
  - induction ms as [|m' ms IH] using rev_ind; intros Hms Hcalm.
    + unfold faithful. cbn [fst]. rewrite Hk. unfold merged, members. cbn [fst snd foldl].
      destruct m as [| id' s' | | | id' x y | | id' src' h v w [] | | | | id' dx dy |];
        try done; injection Hk as <-.
      * exists s'. split_and!; [done|set_solver|]. intros s2 H2%list_elem_of_singleton. injection H2 as ->. lia.
      * done.
      * exists (h, v, w), [], w. split_and!; [done..|]. destruct w as [[wh wv]|]; [|done]. by split_and!; [|left..].
      * by exists (dx, dy), [].
    + apply Forall_app in Hms as [Hms [Hm' _]%Forall_cons]. apply calm_init in Hcalm as [Hcalm Hlast].
      by apply (faithful_snoc (m, ms) m' k); [..|apply IH].
  - intros -> _. unfold faithful. cbn [fst]. by rewrite Hk.
Qed.

(** * The invariant of the queue and its threads *)

Definition queue_inv (s : Sys) : Prop :=
  let st := guarded (shared s) in
  (length (entries st) ≤ SEND_QUEUE_BOUND)%nat ∧
  (hooks s + runs s + (if on_close st then 1 else 0) = 1)%nat ∧
  (open st = true ↔ on_close st = true) ∧
  (poisoned (shared s) = true → oc = true) ∧
  (receiver s = Asleep → entries st = [] ∧ open st = true ∧ poisoned (shared s) = false).

Lemma scan_length key msg back back' p : scan oc key msg back = Some (back', p) → length back' = length back.
Proof.
  revert back'. induction back as [|e back IH]; intros back'; cbn; [done|].
  destruct (en_key e) as [k|]; [|done]. case_decide.
  - destruct (coalesce oc (en_msg e) msg). by intros [= <- _].
  - intros ([back2 q] & Hs & Heq)%bind_Some. simplify_eq. cbn. f_equal. eauto.
Qed.

Lemma coalesce_panics q m : (coalesce oc q m).2 = true → oc = true.
Proof.
  destruct oc eqn:Hoc; [done|]. destruct q, m; cbn; try done.
  assert (∀ a b, ∃ c, i32_add false a b = Some c) as Hadd by (intros a b; unfold i32_add; case_decide; eauto).
  destruct v120 as [[h1 v1]|], v0 as [[h2 v2]|]; cbn; try done.
  destruct (Hadd h1 h2) as [? ->], (Hadd v1 v2) as [? ->]. done.
Qed.

Lemma scan_panics key msg back back' : scan oc key msg back = Some (back', true) → oc = true.
Proof.
  revert back'. induction back as [|e back IH]; intros back'; cbn; [done|].
  destruct (en_key e) as [k|]; [|done]. case_decide.
  - destruct (coalesce oc (en_msg e) msg) as [m p] eqn:Hc. intros [= _ ->].
    apply (coalesce_panics (en_msg e) msg). by rewrite Hc.
  - intros ([back2 q] & Hs & Heq)%bind_Some. simplify_eq. eauto.
Qed.
Lemma inv_same s alive : queue_inv s →
  queue_inv (mkSys (shared s) alive (wake false (receiver s)) (hooks s + 0) (runs s)).
Proof. unfold queue_inv. cbn. rewrite Nat.add_0_r. by destruct (receiver s). Qed.

Lemma send_inv tr s msg : run oc tr s → queue_inv s → queue_inv (after (send oc msg (shared s)) true (receiver s) s).
Proof.
  intros _ Hinv. pose proof Hinv as (Hlen & Hhook & Hopen & Hpo & Hsleep). unfold send.
  destruct (poisoned (shared s)) eqn:Hp; [by apply inv_same|].
  destruct (open (guarded (shared s))) eqn:Ho; cbn [negb]; [|by apply inv_same].
  unfold queue_inv.
  destruct (for_msg msg ≫= _) as [[back p]|] eqn:Hscan.
  - apply bind_Some in Hscan as (key & _ & Hscan). cbn. rewrite Nat.add_0_r, length_reverse.
    rewrite (scan_length _ _ _ _ _ Hscan), length_reverse. split_and!; [done..| |].
    + intros ->. by eapply scan_panics.
    + destruct (receiver s) eqn:Hr; try done. intros _. destruct (Hsleep eq_refl) as (He & _). by rewrite He in Hscan.
  - case_decide as Hfull; cbn.
    + assert (on_close (guarded (shared s)) = true) as Hc by (by apply Hopen). rewrite Hc in *.
      split_and!; try done; [lia|]. by destruct (receiver s).
    + rewrite Nat.add_0_r, length_app. cbn. split_and!; try done; [lia|by destruct (receiver s)].
Qed.

Lemma drop_inv s alive r : queue_inv s → r = receiver s ∨ r = Gone →
  queue_inv (after (drop_handle (shared s)) alive r s).
Proof.
  intros (Hlen & Hhook & Hopen & Hpo & Hsleep) Hr. unfold drop_handle, queue_inv in *.
  destruct (poisoned (shared s)) eqn:Hp; cbn.
  - rewrite Nat.add_0_r, Hp. split_and!; try done. by destruct r.
  - destruct (on_close (guarded (shared s))); split_and!; try done; try lia; by destruct r.
Qed.

Lemma inv_running s es : queue_inv s → (length es ≤ length (entries (guarded (shared s))))%nat →
  queue_inv (mkSys (mkShared (mkState es (open (guarded (shared s))) (on_close (guarded (shared s))))
    (poisoned (shared s))) (sender s) Running (hooks s) (runs s)).
Proof. intros (Hlen & Hhook & Hopen & Hpo & Hsleep) Hes. unfold queue_inv. cbn. split_and!; try done. lia. Qed.

Lemma inv_still s : queue_inv s → queue_inv (mkSys (shared s) (sender s) Running (hooks s) (runs s)).
Proof. intros (Hlen & Hhook & Hopen & Hpo & Hsleep). by split_and!. Qed.

Lemma recv_inv s : queue_inv s →
  queue_inv (mkSys (recv_turn (shared s)).2 (sender s) (received (recv_turn (shared s)).1).1 (hooks s) (runs s)).
Proof.
  intros Hinv. unfold recv_turn. destruct (poisoned (shared s)) eqn:Hp; [by apply inv_still|].
  destruct (entries (guarded (shared s))) as [|e rest] eqn:He.
  - destruct (open (guarded (shared s))) eqn:Ho; [|by apply inv_still].
    destruct Hinv as (Hlen & Hhook & Hopen & Hpo & Hsleep). unfold queue_inv. cbn. by rewrite He, Ho, Hp in *.
  - cbn. rewrite <- Hp. apply inv_running; [done|]. rewrite He. cbn. lia.
Qed.

Lemma try_recv_inv s : queue_inv s →
  queue_inv (mkSys (try_recv (shared s)).2 (sender s) Running (hooks s) (runs s)).
Proof.
  intros Hinv. unfold try_recv. destruct (poisoned (shared s)) eqn:Hp; [by apply inv_still|].
  destruct (entries (guarded (shared s))) as [|e rest] eqn:He; [by apply inv_still|].
  cbn. rewrite <- Hp. apply inv_running; [done|]. rewrite He. cbn. lia.
Qed.

Lemma run_inv tr s : run oc tr s → queue_inv s.
Proof.
  induction 1 as [|tr s ev s' Hrun IH Hstep]; [by split_and!; cbn; try lia|].
  destruct Hstep as [s msg Hs|s Hs|s Hr|s msg Hr Ht|s Hr Ht|s Hr|s Hh].
  - by eapply send_inv.
  - apply drop_inv; auto.
  - by apply recv_inv.
  - by apply try_recv_inv.
  - by apply try_recv_inv.
  - apply drop_inv; auto.
  - destruct IH as (Hlen & Hhook & Hopen & Hpo & Hsleep). unfold queue_inv. cbn. split_and!; try done. lia.
Qed.

(** * From the queue to the guest's reader *)

Section wire.
Context `{PostcardLaws ToGuest}.

Lemma foldS_write msgs fs out : Forall2 (λ m f, frame_of m = Some f) msgs fs →
  foldS (λ _ next, write_msg next) () msgs (mkWriter out None) = (Ok (), mkWriter (out ++ concat fs) None).
Proof.
  intros H2. revert out. induction H2 as [|m f msgs fs Hf _ IH]; intros out; cbn; [by rewrite app_nil_r|].
  unfold mbind, sm_bind. rewrite (write_msg_frame _ _ _ Hf), IH. by rewrite <- app_assoc.
Qed.

Lemma write_loop_frames bursts fs out :
  Forall2 (λ m f, frame_of m = Some f) (concat ((λ b : ToGuest * list ToGuest, b.1 :: b.2) <$> bursts)) fs →
  write_loop bursts (mkWriter out None) = (Ok (), mkWriter (out ++ concat fs) None).
Proof.
  revert fs out. induction bursts as [|[m ms] bursts IH]; intros fs out H2.
  { inversion H2; subst. cbn. by rewrite app_nil_r. }
  cbn [fmap list_fmap concat fst snd] in H2. apply Forall2_app_inv_l in H2 as (fs1 & fs2 & H1 & H2 & ->).
  unfold write_loop. cbn [foldS]. unfold mbind, sm_bind at 1.
  assert (write_burst (m, ms) (mkWriter out None) = (Ok (), mkWriter (out ++ concat fs1) None)) as ->.
  { inversion H1 as [|? f ? fs1' Hf Hfs]; subst. unfold write_burst, mbind, sm_bind. cbn [fst snd].
    rewrite (write_msg_frame _ _ _ Hf), (foldS_write _ _ _ Hfs). cbn [concat]. by rewrite <- app_assoc. }
  fold (write_loop bursts). rewrite (IH fs2 _ H2). by rewrite concat_app, <- app_assoc.
Qed.

Lemma wire_reads bursts msgs :
  msgs = concat ((λ b : ToGuest * list ToGuest, b.1 :: b.2) <$> bursts) → Forall (λ m, is_Some (frame_of m)) msgs →
  ∃ wire, write_loop bursts (mkWriter [] None) = (Ok (), mkWriter wire None) ∧
    reader_loop wire = Ok (msgs, Io UnexpectedEof).
Proof.
  intros -> Hmsgs.
  assert (∃ fs, Forall2 (λ m f, frame_of m = Some f) (concat ((λ b : ToGuest * list ToGuest, b.1 :: b.2) <$> bursts)) fs)
    as [fs Hfs].
  { induction Hmsgs as [|m ms [f Hf] _ [fs IH]]; [by exists []|]. exists (f :: fs). by constructor. }
  exists (concat fs). split; [by apply (write_loop_frames _ fs [])|by apply reader_loop_frames].
Qed.

End wire.
End props.

(** C19. The outgoing input stream.  Whatever the two threads do, the messages
    the guest gets are the accepted messages in groups, and so are those still
    queued, as long as the mutex is not poisoned (an overflow of the wheel steps
    poisons it in a build that checks for it; what is queued then is not sent any
    more): a barrier (a click, a key, a scroll stop, ...) is alone and
    unchanged, a coalesced message stands for messages of one key by their
    last position, highest ack, sum of deltas or sum of wheel steps (over the
    messages that have steps; wrapped to 32 bits in a build that wraps); and over
    all groups no message was lost, duplicated, or moved across a barrier or
    another of its key.  What the writer thread writes, the guest's reader reads
    back as those messages. *)
Theorem input_stream_correct oc tr s : run oc tr s →
  ∃ gd gp,
    delivered tr = merged oc <$> gd ∧
    (poisoned (shared s) = false → en_msg <$> entries (guarded (shared s)) = merged oc <$> gp) ∧
    (∀ k, filter (matters k) (concat (members <$> (gd ++ gp))) = filter (matters k) (accepted tr)) ∧
    Forall (λ g, group_ok g ∧ faithful oc g) (gd ++ gp) ∧
    ∀ (P : Postcard ToGuest) (PL : PostcardLaws ToGuest) bursts,
      delivered tr = concat ((λ b : ToGuest * list ToGuest, b.1 :: b.2) <$> bursts) →
      Forall (λ m, is_Some (frame_of m)) (delivered tr) →
      ∃ wire, write_loop bursts (mkWriter [] None) = (Ok (), mkWriter wire None) ∧
        reader_loop wire = Ok (delivered tr, Io UnexpectedEof).
Proof.
  intros (gd & gp & Hd & Hok & Hord & He)%run_explained. exists gd, gp. split_and!; [done| |done| |].
  - intros Hp. rewrite (He Hp), <- list_fmap_compose. by apply list_fmap_ext.
  - eapply Forall_impl; [done|]. intros g [Hg Hc]. split; [done|by apply group_faithful].
  - intros P PL bursts. apply wire_reads.
Qed.

(** The queue and its threads.  At every moment the queue holds at most 512
    messages; the close hook has been taken exactly when the queue is closed,
    and runs at most once; the writer thread only sleeps while the queue is
    open and empty, so no wakeup is lost; a send is refused exactly on a closed
    queue, closes it exactly when the queue is full, and panics only in builds
    with overflow checks; and after closing, the messages that were accepted
    are still received, then the end. *)
Lemma queue_safe oc tr s : run oc tr s →
  let sh := shared s in
  (length (entries (guarded sh)) ≤ SEND_QUEUE_BOUND)%nat ∧
  (hooks s + runs s ≤ 1)%nat ∧ (open (guarded sh) = false ↔ (hooks s + runs s = 1)%nat) ∧
  (receiver s = Asleep → entries (guarded sh) = [] ∧ is_open sh = true) ∧
  (∀ msg, let se := send oc msg sh in
    match se_result se with
    | Ok _ => is_open sh = true ∧ poisoned (se_shared se) = false
    | Err Disconnected => is_open sh = false ∧ se_shared se = sh
    | Err Full => is_open sh = true ∧ length (entries (guarded sh)) = SEND_QUEUE_BOUND ∧
        is_open (se_shared se) = false ∧ entries (guarded (se_shared se)) = entries (guarded sh)
    | Panic => is_open sh = true ∧ oc = true
    end) ∧
  (poisoned sh = false → ∀ e rest, entries (guarded sh) = e :: rest →
    ∃ sh', recv_turn sh = (Returns (Some (en_msg e)), sh') ∧ entries (guarded sh') = rest ∧ is_open sh' = is_open sh) ∧
  (is_open sh = false → entries (guarded sh) = [] → recv_turn sh = (Returns None, sh)).
Proof.
  intros Hinv%run_inv. destruct Hinv as (Hlen & Hhook & Hopen & Hpo & Hsleep). cbn zeta. unfold is_open.
  split; [exact Hlen|]. split; [lia|]. split; [|split; [|split; [|split]]].
  - destruct (open _), (on_close _); naive_solver lia.
  - intros (He & Ho & Hp)%Hsleep. by rewrite Hp.
  - intros msg. unfold send. destruct (poisoned (shared s)) eqn:Hp; [done|].
    destruct (open (guarded (shared s))) eqn:Ho; [|done]. cbn [negb].
    destruct (for_msg msg ≫= _) as [[back [|]]|] eqn:Hscan; cbn; [|done|by case_decide].
    split; [done|]. apply bind_Some in Hscan as (key & _ & Hscan). by eapply scan_panics.
  - intros Hp e rest He. unfold recv_turn. rewrite Hp, He. by eexists.
  - unfold recv_turn. intros Hc He. destruct (poisoned (shared s)); [done|]. by rewrite He, Hc.
Qed.

(** * Witnesses *)

(** A codec for two kinds of messages. *)
#[export] Instance demo_postcard : Postcard ToGuest := {|
  to_stdvec m := match m with Ping n => Some [0; n] | Ack id seq => Some [1; id; seq] | _ => None end;
  from_bytes bs :=
    match bs with
    | [0; n] => Some (Ping n)
    | [1; id; seq] => Some (Ack id seq)
    | _ => None
    end |}.

Lemma demo_postcard_laws : PostcardLaws ToGuest.
Proof. by intros [] bs [= <-]. Qed.

Definition demo_sends : list ToGuest :=
  [Ack 7 10; PointerMotion 7 (S754_zero false) (S754_zero false);
   PointerAxis 7 Wheel (S754_zero false) (S754_zero false) (Some (120, 0)) false;
   Ack 7 8; Ping 3; Ack 7 12;
   PointerAxis 7 Wheel (S754_zero false) (S754_zero false) (Some (0, -120)) false].

(** The messages sent one after the other. *)
Fixpoint send_all (oc : bool) (msgs : list ToGuest) (tr : list Event) (s : Sys) : list Event * Sys :=
  match msgs with
  | [] => (tr, s)
  | msg :: msgs =>
      send_all oc msgs (tr ++ [Sent msg (se_result (send oc msg (shared s)))])
        (after (send oc msg (shared s)) true (receiver s) s)
  end.

Lemma send_all_run oc msgs tr s : run oc tr s → sender s = true →
  run oc (send_all oc msgs tr s).1 (send_all oc msgs tr s).2.
Proof.
  revert tr s. induction msgs as [|msg msgs IH]; intros tr s Hrun Hs; cbn; [done|].
  apply IH; [|done]. by eapply run_step; [|apply step_send].
Qed.

Definition demo_sent : list Event * Sys := send_all true demo_sends [] start.

Definition demo_tr : list Event := demo_sent.1 ++ [Received (Ack 7 10)].
Definition demo_sys : Sys :=
  mkSys (recv_turn (shared demo_sent.2)).2 true Running 0 0.

Lemma demo_run : run true demo_tr demo_sys.
Proof.
  refine (run_step true _ demo_sent.2 _ _ (send_all_run true demo_sends [] start (run_start true) eq_refl) _).
  by apply (step_recv true demo_sent.2).
Qed.

Lemma input_stream_correct_witness :
  entries (guarded (shared demo_sys)) ≠ [] ∧
  ∃ gd gp, delivered demo_tr = merged true <$> gd ∧
    (∀ k, filter (matters k) (concat (members <$> (gd ++ gp))) = filter (matters k) (accepted demo_tr)) ∧
    ∃ wire, write_loop [(Ack 7 10, [])] (mkWriter [] None) = (Ok (), mkWriter wire None) ∧
      reader_loop wire = Ok (delivered demo_tr, Io UnexpectedEof).
Proof.
  split; [by vm_compute|].
  destruct (input_stream_correct true demo_tr demo_sys demo_run) as (gd & gp & Hd & _ & Hord & _ & Hwire).
  exists gd, gp. split_and!; [done..|]. apply (Hwire _ demo_postcard_laws [(Ack 7 10, [])]); [by vm_compute|].
  assert (delivered demo_tr = [Ack 7 10]) as -> by (by vm_compute).
  constructor; [by eexists; vm_compute|constructor].
Defined.

Example queue_safe_demo : (length (entries (guarded (shared demo_sys))) ≤ SEND_QUEUE_BOUND)%nat ∧
  (hooks demo_sys + runs demo_sys ≤ 1)%nat.
Proof. destruct (queue_safe true demo_tr demo_sys demo_run) as (Hlen & Hhooks & _). by split. Defined.
