(* ===== verification/PanesJitter.v ===== *)
(** Audio playback on the host: the jitter buffer between the socket and the
    render callback, [packages/panes/host/src/jitter.rs], and the connection
    that feeds it, [audio.rs].

    A sample is an integer of 16 bits, the callback's output a list of [f32].
    The mutex makes [push] and [pop_f32] single steps; counters are naturals
    far below their 64 bits. *)

From stdpp Require Import base gmap sets list strings.
From Stdlib Require Import SpecFloat.
From S2P Require Import Prelude Chars JsonValue McWire PanesProto.
Local Open Scope nat_scope.

Abbreviation f32 := spec_float.

Inductive PopOutcome := Priming | Playing | Underrun.
#[export] Instance PopOutcome_eq_dec : EqDecision PopOutcome.
Proof. solve_decision. Defined.

Record Stats := mkStats { underruns : nat; dropped_samples : nat }.

Record Inner := mkInner { queue : list Z; primed : bool; stats : Stats }.

Record JitterBuffer := mkJitter { inner : Inner; target : nat; jb_max : nat }.

(** [JitterBuffer::new]. *)
Definition new (target max : nat) : outcome () JitterBuffer :=
  if decide (0 < target ∧ target < max) then Ok (mkJitter (mkInner [] false (mkStats 0 0)) target max)
  else Panic.

(** [JitterBuffer::push]. *)
Definition push (samples : list Z) (b : JitterBuffer) : JitterBuffer :=
  let i := inner b in
  let total := length (queue i) + length samples in
  if decide (jb_max b < total) then
    let excess := total - target b in
    let from_queue := excess `min` length (queue i) in
    let from_new := excess - from_queue in
    mkJitter
      (mkInner (drop from_queue (queue i) ++ drop from_new samples) (primed i)
         (mkStats (underruns (stats i)) (dropped_samples (stats i) + excess)))
      (target b) (jb_max b)
  else mkJitter (mkInner (queue i ++ samples) (primed i) (stats i)) (target b) (jb_max b).

(** [f32::from(sample) / 32768.0]. *)
Definition f32_from (sample : Z) : f32 := binary_normalize 24 128 sample 0 false.
Definition to_f32 (sample : Z) : f32 := SFdiv 24 128 (f32_from sample) (f32_from 32768).
Definition silence : f32 := S754_zero false.

(** [JitterBuffer::pop_f32] into an output of [len] slots. *)
Definition pop_f32 (len : nat) (b : JitterBuffer) : PopOutcome * list f32 * JitterBuffer :=
  let i := inner b in
  if negb (primed i) && bool_decide (length (queue i) < target b) then (Priming, replicate len silence, b)
  else
    let n := length (queue i) `min` len in
    let out := to_f32 <$> take n (queue i) in
    let rest := drop n (queue i) in
    if decide (n < len) then
      (Underrun, out ++ replicate (len - n) silence,
        mkJitter
          (mkInner rest false (mkStats (underruns (stats i) + 1) (dropped_samples (stats i)))) (target b) (jb_max b))
    else (Playing, out, mkJitter (mkInner rest true (stats i)) (target b) (jb_max b)).

(** * The connection *)

Inductive AudioToHost :=
| AudioHello (major minor rate channels : Z)
| Pcm (payload : bytes).

Inductive AudioError :=
| SendHello (e : WireError)
| ReadHello (e : WireError)
| SpokeBeforeHello
| AudioMajor (major : Z)
| ZeroChannels
| OutputFailed
| NotWholeFrames (n : nat)
| SecondHello.

Definition AUDIO_MAJOR : Z := 1.
Definition AUDIO_MAX_FRAME : Z := 256 * 1024.
Definition TARGET_MS : nat := 24.
Definition MAX_MS : nat := 96.

(** [SampleFormat::bytes_per_sample] of [S16le], the one format. *)
Definition bytes_per_sample : nat := 2.

(** [i16::from_le_bytes] over [chunks_exact(2)]. *)
Definition i16_from_le_bytes (lo hi : Z) : Z :=
  let n := (lo + 256 * hi)%Z in if decide (n < 2 ^ 15)%Z then n else (n - 2 ^ 16)%Z.
Fixpoint samples_of (payload : bytes) : list Z :=
  match payload with
  | lo :: hi :: payload => i16_from_le_bytes lo hi :: samples_of payload
  | _ => []
  end.

Section connection.
Context `{Postcard AudioToHost}.

(** The [loop] of [run_connection]: how it ends, and the samples pushed. *)
Fixpoint pcm_loop (fuel frame_bytes : nat) (pushes : list (list Z)) (r : bytes) :
    outcome AudioError () * list (list Z) :=
  match fuel with
  | O => (Panic, pushes)
  | S fuel =>
      match read_msg_bounded AUDIO_MAX_FRAME r with
      | Ok (Pcm payload, r) =>
          if decide (length payload mod frame_bytes = 0) then
            pcm_loop fuel frame_bytes (pushes ++ [samples_of payload]) r
          else (Err (NotWholeFrames (length payload)), pushes)
      | Ok (AudioHello _ _ _ _, _) => (Err SecondHello, pushes)
      | Err _ => (Ok (), pushes)
      | Panic => (Panic, pushes)
      end
  end.

(** [run_connection], the host's own Hello having been sent: the buffer that
    plays, how the connection ends, and what it pushed.  Whether the output
    device opens is given. *)
Definition run_connection (opens : bool) (r : bytes) :
    outcome AudioError (JitterBuffer * (outcome AudioError () * list (list Z))) :=
  '(first, r) ← map_err ReadHello (read_msg_bounded AUDIO_MAX_FRAME r);
  match first with
  | Pcm _ => Err SpokeBeforeHello
  | AudioHello major _ rate channels =>
      if negb (bool_decide (major = AUDIO_MAJOR)) then Err (AudioMajor major)
      else if negb (bool_decide (1 <= channels)%Z) then Err ZeroChannels
      else
        let per_ms := Z.to_nat (rate * channels / 1000) in
        jitter ← map_err (λ _, OutputFailed) (new (TARGET_MS * per_ms) (MAX_MS * per_ms));
        if negb opens then Err OutputFailed
        else
          let frame_bytes := Z.to_nat channels * bytes_per_sample in
          Ok (jitter, pcm_loop (S (length r)) frame_bytes [] r)
  end.

End connection.

(** * The buffer's history *)

Inductive Op := Push (samples : list Z) | Pop (len : nat).

(** The operations in the order the mutex serialises them, with the outputs
    of the pops. *)
Fixpoint exec (ops : list Op) (b : JitterBuffer) : list (nat * PopOutcome * list f32) * JitterBuffer :=
  match ops with
  | [] => ([], b)
  | Push samples :: ops => exec ops (push samples b)
  | Pop len :: ops =>
      let '(o, out, b) := pop_f32 len b in
      let '(outs, b) := exec ops b in ((len, o, out) :: outs, b)
  end.

Definition pushed (ops : list Op) : list Z := concat ((λ op, match op with Push l => l | Pop _ => [] end) <$> ops).

(** What one pop played: its output is the samples, then silence. *)
Definition plays (pop : nat * PopOutcome * list f32) (p : list Z) : Prop :=
  let '(len, o, out) := pop in
  length p ≤ len ∧ out = (to_f32 <$> p) ++ replicate (len - length p) silence ∧
  match o with Priming => p = [] | Playing => length p = len | Underrun => length p < len end.

Definition jitter_wf (b : JitterBuffer) : Prop :=
  0 < target b < jb_max b ∧ length (queue (inner b)) ≤ jb_max b.

Lemma new_spec target max : match new target max with
  | Ok b => jitter_wf b ∧ queue (inner b) = [] ∧ stats (inner b) = mkStats 0 0 ∧ 0 < target < max
  | Err _ => False
  | Panic => ¬ (0 < target < max)
  end.
Proof. unfold new. case_decide; [|done]. unfold jitter_wf. cbn. split_and!; done || lia. Qed.

(** A push keeps the newest samples. *)
Lemma push_spec samples b : jitter_wf b → ∃ n,
  jitter_wf (push samples b) ∧
  queue (inner (push samples b)) = drop n (queue (inner b) ++ samples) ∧
  n ≤ length (queue (inner b)) + length samples ∧
  dropped_samples (stats (inner (push samples b))) = dropped_samples (stats (inner b)) + n ∧
  underruns (stats (inner (push samples b))) = underruns (stats (inner b)) ∧
  (n = 0 ∨ length (queue (inner (push samples b))) = target b) ∧
  (n = 0 ↔ length (queue (inner b)) + length samples ≤ jb_max b) ∧
  target (push samples b) = target b ∧ jb_max (push samples b) = jb_max b.
Proof.
  intros [Ht Hq]. unfold push. set (q := queue (inner b)) in *. case_decide as Hmax; cbn.
  - exists (length q + length samples - target b).
    assert (drop (length q + length samples - target b) (q ++ samples) =
      drop ((length q + length samples - target b) `min` length q) q ++
      drop (length q + length samples - target b - (length q + length samples - target b) `min` length q) samples) as E.
    { generalize (length q + length samples - target b). intros e. rewrite drop_app.
      destruct (Nat.min_spec e (length q)) as [[? ->]|[? ->]].
      - rewrite Nat.sub_diag. by replace (e - length q) with 0 by lia.
      - by rewrite (drop_ge q e), (drop_ge q (length q)) by lia. }
    rewrite <- E.
    assert (length (drop (length q + length samples - target b) (q ++ samples)) = target b) as L
      by (rewrite length_drop, length_app; lia).
    unfold jitter_wf. cbn. rewrite L. split_and!; try done; lia.
  - exists 0. rewrite drop_0. unfold jitter_wf. cbn. rewrite length_app. split_and!; try done; lia.
Qed.

Lemma length_take_silence n q len : n ≤ length q → n ≤ len →
  length ((to_f32 <$> take n q) ++ replicate (len - n) silence) = len.
Proof. intros. rewrite length_app, length_fmap, length_take, length_replicate. lia. Qed.

(** A pop plays the oldest samples. *)
Lemma pop_spec len b o out b' : jitter_wf b → pop_f32 len b = (o, out, b') → ∃ p,
  plays (len, o, out) p ∧ jitter_wf b' ∧ queue (inner b) = p ++ queue (inner b') ∧
  dropped_samples (stats (inner b')) = dropped_samples (stats (inner b)) ∧
  underruns (stats (inner b')) = underruns (stats (inner b)) + (if decide (o = Underrun) then 1 else 0) ∧
  (o = Priming ↔ primed (inner b) = false ∧ length (queue (inner b)) < target b) ∧
  (primed (inner b') = true ↔ o = Playing) ∧
  target b' = target b ∧ jb_max b' = jb_max b.
Proof.
  intros [Ht Hq]. unfold pop_f32. set (q := queue (inner b)) in *.
  destruct (negb (primed (inner b)) && bool_decide (length q < target b)) eqn:Hprime.
  - apply andb_true_iff in Hprime as [Hp%negb_true_iff Hl%bool_decide_eq_true]. intros [= <- <- <-].
    exists []. cbn. rewrite Nat.sub_0_r. split_and!; try done; try lia; rewrite Hp; naive_solver.
  - assert (¬ (primed (inner b) = false ∧ length q < target b)) as Hnot.
    { intros [Hp Hl]. rewrite Hp, bool_decide_eq_true_2 in Hprime by done. done. }
    remember (length q `min` len) as n eqn:Hmin.
    assert (n ≤ len ∧ n ≤ length q ∧ (n < len → n = length q)) as (Hl & Hn & Hu) by lia. clear Hmin.
    assert (length (take n q) = n) as Ht' by (rewrite length_take; lia).
    destruct (decide (n < len)) as [Hlen|Hlen]; intros Heq; simplify_eq; exists (take n q); unfold plays, jitter_wf; cbn -[length];
      rewrite ?Ht', ?take_drop, ?length_drop; split_and!; try done; try lia; try (split; [done|tauto || done]).
    replace (len - n) with 0 by lia. by rewrite app_nil_r.
Qed.

Lemma pushed_Push samples ops : pushed (Push samples :: ops) = samples ++ pushed ops.
Proof. done. Qed.
Lemma pushed_Pop len ops : pushed (Pop len :: ops) = pushed ops.
Proof. done. Qed.

(** The pops of a history played, in order and without repetition, what the
    pushes brought; what is missing was dropped. *)
Lemma exec_spec ops b outs b' : jitter_wf b → exec ops b = (outs, b') → ∃ played,
  Forall2 plays outs played ∧ jitter_wf b' ∧
  (concat played ++ queue (inner b')) `sublist_of` (queue (inner b) ++ pushed ops) ∧
  queue (inner b') `suffix_of` (queue (inner b) ++ pushed ops) ∧
  length (queue (inner b)) + length (pushed ops) + dropped_samples (stats (inner b)) =
    length (concat played) + length (queue (inner b')) + dropped_samples (stats (inner b')) ∧
  underruns (stats (inner b')) =
    underruns (stats (inner b)) + length (filter (λ pop : nat * PopOutcome * list f32, pop.1.2 = Underrun) outs) ∧
  target b' = target b ∧ jb_max b' = jb_max b.
Proof.
  revert b outs b'. induction ops as [|[samples|len] ops IH]; intros b outs b' Hwf; cbn [exec].
  - intros [= <- <-]. exists []. cbn. rewrite app_nil_r. split_and!; try done; lia.
  - intros Hex. destruct (push_spec samples b Hwf) as (n & Hwf1 & Hq & Hn & Hdrop & Hund & _ & _ & Ht & Hm).
    destruct (IH _ _ _ Hwf1 Hex) as (played & Hplays & Hwf' & Hsub & Hsuf & Hlen & Hu & Ht' & Hm').
    exists played. rewrite pushed_Push, app_assoc. rewrite Hq in Hsub, Hsuf, Hlen.
    assert (drop n (queue (inner b) ++ samples) `suffix_of` (queue (inner b) ++ samples)) as Hdropped
      by apply suffix_drop.
    split_and!; try done; try lia; try congruence.
    + etrans; [done|]. apply sublist_app; [|done]. destruct Hdropped as [k Hk]. rewrite Hk at 2. by apply sublist_inserts_l.
    + etrans; [done|]. destruct Hdropped as [k Hk]. exists k. by rewrite app_assoc, <- Hk.
    + rewrite length_drop, length_app in Hlen. rewrite length_app. lia.
  - destruct (pop_f32 len b) as [[o out] b1] eqn:Hpop. destruct (exec ops b1) as [outs1 b2] eqn:Hex.
    intros [= <- <-]. destruct (pop_spec _ _ _ _ _ Hwf Hpop) as (p & Hp & Hwf1 & Hq & Hdrop & Hund & _ & _ & Ht & Hm).
    destruct (IH _ _ _ Hwf1 Hex) as (played & Hplays & Hwf' & Hsub & Hsuf & Hlen & Hu & Ht' & Hm').
    exists (p :: played). rewrite pushed_Pop. cbn [concat]. rewrite Hq, <- !app_assoc. split_and!; try done; try congruence.
    + by constructor.
    + by apply sublist_app.
    + by apply suffix_app_r.
    + rewrite !length_app. lia.
    + rewrite Hu, Hund. rewrite filter_cons. cbn. case_decide; cbn; lia.
Qed.

(** Whether the pops so far left the buffer playing: one was satisfied, and none
    ran out since. *)
Definition playing (p : bool) (outs : list (nat * PopOutcome * list f32)) : bool :=
  foldl (λ p pop, match pop.1.2 with Priming => p | Playing => true | Underrun => false end) p outs.

(** What a pop comes to, from that and from the samples that are buffered, and how
    many of them it plays. *)
Definition pop_outcome (tgt len : nat) (p : bool) (fill : nat) : PopOutcome :=
  if decide (p = false ∧ fill < tgt) then Priming else if decide (fill < len) then Underrun else Playing.
Definition pop_count (len fill : nat) (o : PopOutcome) : nat :=
  match o with Priming => 0 | Playing => len | Underrun => fill end.

Lemma pop_outcome_spec len b o out b' : pop_f32 len b = (o, out, b') →
  let q := queue (inner b) in
  let n := pop_count len (length q) o in
  o = pop_outcome (target b) len (primed (inner b)) (length q) ∧
  out = (to_f32 <$> take n q) ++ replicate (len - n) silence.
Proof.
  unfold pop_f32, pop_outcome. cbv zeta.
  destruct (primed (inner b)) eqn:Hp; cbn [negb andb].
  - rewrite (decide_False (P := true = false ∧ _)) by naive_solver.
    destruct (decide (length (queue (inner b)) `min` len < len)) as [Hlt|Hge]; intros [= <- <- <-]; cbn [pop_count].
    + rewrite decide_True by lia. by replace (length (queue (inner b)) `min` len) with (length (queue (inner b))) by lia.
    + rewrite decide_False by lia. replace (length (queue (inner b)) `min` len) with len by lia.
      by rewrite Nat.sub_diag, app_nil_r.
  - case_bool_decide as Hq; [intros [= <- <- <-]; cbn [pop_count]; rewrite decide_True by done; by rewrite Nat.sub_0_r|].
    rewrite (decide_False (P := false = false ∧ _)) by naive_solver.
    destruct (decide (length (queue (inner b)) `min` len < len)) as [Hlt|Hge]; intros [= <- <- <-]; cbn [pop_count].
    + rewrite decide_True by lia. by replace (length (queue (inner b)) `min` len) with (length (queue (inner b))) by lia.
    + rewrite decide_False by lia. replace (length (queue (inner b)) `min` len) with len by lia.
      by rewrite Nat.sub_diag, app_nil_r.
Qed.

Lemma push_primed samples b : primed (inner (push samples b)) = primed (inner b).
Proof. unfold push. by case_decide. Qed.

Lemma exec_primed ops b outs b' : jitter_wf b → exec ops b = (outs, b') →
  primed (inner b') = playing (primed (inner b)) outs.
Proof.
  revert b outs b'. induction ops as [|[samples|len] ops IH]; intros b outs b' Hwf; cbn [exec].
  - by intros [= <- <-].
  - intros Hex. destruct (push_spec samples b Hwf) as (n & Hwf1 & _).
    rewrite (IH _ _ _ Hwf1 Hex). by rewrite push_primed.
  - destruct (pop_f32 len b) as [[o out] b1] eqn:Hpop. destruct (exec ops b1) as [outs1 b2] eqn:Hex.
    intros [= <- <-]. destruct (pop_spec _ _ _ _ _ Hwf Hpop) as (p & _ & Hwf1 & _ & _ & _ & Hprime & Hplay & _ & _).
    rewrite (IH _ _ _ Hwf1 Hex). unfold playing. cbn [foldl fst snd]. f_equal.
    destruct (primed (inner b1)) eqn:Hb1; [by rewrite (proj1 Hplay eq_refl)|].
    destruct o; [by destruct (proj1 Hprime eq_refl) as [-> _]|by discriminate (proj2 Hplay eq_refl)|done].
Qed.

Lemma exec_app ops1 ops2 b : exec (ops1 ++ ops2) b =
  let '(outs1, b1) := exec ops1 b in let '(outs2, b2) := exec ops2 b1 in (outs1 ++ outs2, b2).
Proof.
  revert b. induction ops1 as [|[samples|len] ops1 IH]; intros b; cbn [app exec].
  - by destruct (exec ops2 b).
  - by rewrite IH.
  - destruct (pop_f32 len b) as [[o out] b1]. rewrite IH. destruct (exec ops1 b1) as [outs1 b2].
    by destruct (exec ops2 b2).
Qed.

(** A pop in the middle of a history. *)
Lemma exec_pop_at ops1 len ops2 b outs b' outs1 b1 : jitter_wf b →
  exec (ops1 ++ Pop len :: ops2) b = (outs, b') → exec ops1 b = (outs1, b1) →
  let q := queue (inner b1) in
  let o := pop_outcome (target b) len (playing (primed (inner b)) outs1) (length q) in
  let n := pop_count len (length q) o in
  outs !! length outs1 = Some (len, o, (to_f32 <$> take n q) ++ replicate (len - n) silence).
Proof.
  intros Hwf Hex Hex1. rewrite exec_app, Hex1 in Hex. cbn [exec] in Hex.
  destruct (exec_spec _ _ _ _ Hwf Hex1) as (_ & _ & _ & _ & _ & _ & _ & Ht & _).
  destruct (pop_f32 len b1) as [[o out] b2] eqn:Hpop. destruct (exec ops2 b2) as [outs2 b3].
  injection Hex as <- <-. rewrite list_lookup_middle by done. cbv zeta.
  rewrite <- (exec_primed _ _ _ _ Hwf Hex1), <- Ht.
  destruct (pop_outcome_spec _ _ _ _ _ Hpop) as [Ho Hout]. by rewrite <- Ho, Hout.
Qed.

(** * Samples are exact *)

(** [x] is [sample / 2^15]. *)
Definition is_exact (sample : Z) (x : f32) : bool :=
  match x with
  | S754_zero false => bool_decide (sample = 0)%Z
  | S754_finite s m e => bool_decide (e ≤ -15)%Z && bool_decide (cond_Zopp s (Zpos m) = sample * 2 ^ (-15 - e))%Z
  | _ => false
  end.

(** A test on all the integers of a range of [2 ^ k]. *)
Fixpoint check_range (test : Z → bool) (k : nat) (lo : Z) : bool :=
  match k with
  | O => test lo
  | S k => check_range test k lo && check_range test k (lo + 2 ^ Z.of_nat k)%Z
  end.

Lemma check_range_spec test k lo n : check_range test k lo = true → (lo ≤ n < lo + 2 ^ Z.of_nat k)%Z → test n = true.
Proof.
  revert lo. induction k as [|k IH]; intros lo.
  - cbn. intros Ht Hn. by replace n with lo by lia.
  - cbn [check_range]. intros [H1 H2]%andb_true_iff Hn.
    rewrite Nat2Z.inj_succ, Z.pow_succ_r in Hn by lia.
    destruct (decide (n < lo + 2 ^ Z.of_nat k)%Z); [apply (IH lo)|apply (IH (lo + 2 ^ Z.of_nat k)%Z)]; done || lia.
Qed.

Lemma to_f32_exact n : (- 2 ^ 15 ≤ n < 2 ^ 15)%Z → is_exact n (to_f32 n) = true.
Proof.
  intros Hn. apply (check_range_spec (λ n, is_exact n (to_f32 n)) 16 (- 2 ^ 15)); [by vm_compute|].
  change (Z.of_nat 16) with 16%Z. lia.
Qed.

(** * The connection feeds the buffer *)

Section connection_props.
Context `{PostcardLaws AudioToHost}.

Lemma pcm_loop_total fuel fb pushes r : length r < fuel → (pcm_loop fuel fb pushes r).1 ≠ Panic.
Proof.
  revert pushes r. induction fuel as [|fuel IH]; intros pushes r Hr; [lia|]. cbn.
  pose proof (read_msg_bounded_spec AUDIO_MAX_FRAME r) as Hread.
  destruct (read_msg_bounded AUDIO_MAX_FRAME r) as [[[|payload] r']|e|]; try done.
  case_decide; [|done]. apply IH. lia.
Qed.

(** A stream of whole sample frames is pushed, sample by sample. *)
Lemma pcm_loop_frames fuel fb pushes payloads fs :
  Forall2 (λ p f, frame_of (Pcm p) = Some f ∧ (Z.of_nat (length f) <= AUDIO_MAX_FRAME + 4)%Z ∧ length p mod fb = 0)
    payloads fs → length payloads < fuel →
  pcm_loop fuel fb pushes (concat fs) = (Ok (), pushes ++ (samples_of <$> payloads)).
Proof.
  intros H2. revert fuel pushes. induction H2 as [|p f payloads fs (Hf & Hcap & Hmod) _ IH];
    intros [|fuel] pushes Hfuel; cbn in Hfuel; try lia; cbn [concat pcm_loop].
  - cbn. by rewrite app_nil_r.
  - rewrite (read_frame_of AUDIO_MAX_FRAME _ f) by (done || by right). cbn match. rewrite decide_True by done.
    rewrite IH by lia. cbn. by rewrite <- app_assoc.
Qed.

Lemma frames_length payloads fs (P : bytes → bytes → Prop) :
  Forall2 (λ p f, frame_of (Pcm p) = Some f ∧ P p f) payloads fs → length payloads ≤ length (concat fs).
Proof.
  induction 1 as [|p f payloads fs [Hf%frame_of_length _] _ IH]; cbn; [lia|]. rewrite length_app. lia.
Qed.

End connection_props.

(** C30. Playback.  Over any interleaving of pushes and pops on a new buffer:
    what is played, and then what is still buffered, is what was pushed, in
    order, with gaps only where the overrun rule dropped samples (which are
    counted); every output is the played samples converted exactly, then
    silence.  At any point of the history, a pop finds the buffer priming, and
    plays nothing of it, exactly when nothing has played since the start or the last
    underrun and fewer than [target] samples are buffered; otherwise it plays the
    oldest samples, as many as it asks for, or all there are, which is
    the underrun.  The buffer never exceeds its cap and holds the newest samples
    pushed; underruns are counted; and from there a push drops samples exactly
    when the cap would be exceeded, and then leaves the newest [target] ones. *)
Theorem playback_correct tgt max b ops outs b' : new tgt max = Ok b → exec ops b = (outs, b') →
  (∃ played, Forall2 plays outs played ∧
    (concat played ++ queue (inner b')) `sublist_of` pushed ops ∧
    length (pushed ops) =
      length (concat played) + length (queue (inner b')) + dropped_samples (stats (inner b'))) ∧
  (∀ ops1 len ops2 outs1 b1, ops = ops1 ++ Pop len :: ops2 → exec ops1 b = (outs1, b1) →
    let q := queue (inner b1) in
    let o := pop_outcome tgt len (playing false outs1) (length q) in
    let n := pop_count len (length q) o in
    outs !! length outs1 = Some (len, o, (to_f32 <$> take n q) ++ replicate (len - n) silence)) ∧
  queue (inner b') `suffix_of` pushed ops ∧
  length (queue (inner b')) ≤ max ∧
  underruns (stats (inner b')) = length (filter (λ pop : nat * PopOutcome * list f32, pop.1.2 = Underrun) outs) ∧
  (∀ samples, let q := queue (inner b') ++ samples in
    queue (inner (push samples b')) = if decide (length q ≤ max) then q else drop (length q - tgt) q) ∧
  (∀ n, (- 2 ^ 15 ≤ n < 2 ^ 15)%Z → is_exact n (to_f32 n) = true).
Proof.
  intros Hnew Hex. pose proof (new_spec tgt max) as Hspec. rewrite Hnew in Hspec.
  destruct Hspec as (Hwf & Hq & Hs & Htm). unfold new in Hnew. rewrite decide_True in Hnew by done. simplify_eq.
  destruct (exec_spec _ _ _ _ Hwf Hex) as (played & Hplays & [Ht Hm] & Hsub & Hsuf & Hlen & Hu & Ht' & Hm').
  cbn in Hsub, Hsuf, Hlen, Hu, Ht', Hm'. split; [exists played; split_and!; [done..|lia]|].
  split; [intros ops1 len ops2 outs1 b1 -> Hex1; by apply (exec_pop_at _ _ _ _ _ _ _ _ Hwf Hex Hex1)|].
  split; [done|]. split; [lia|]. split; [done|]. split; [|by apply to_f32_exact].
  intros samples. destruct (push_spec samples b') as (n & _ & -> & Hn & _ & _ & Htgt & Hcap & _ & _); [done|].
  cbn zeta. rewrite length_app. rewrite Hm' in Hcap. case_decide as Hd.
  - apply Hcap in Hd as ->. by rewrite drop_0.
  - destruct Htgt as [->|Htgt]; [tauto|]. f_equal. rewrite Ht', length_drop, length_app in Htgt. lia.
Qed.

Lemma playback_correct_witness : ∃ b outs b',
  new 4 8 = Ok b ∧ exec [Push [1; 2; 3; 4; 5; 6; 7; 8]%Z; Push [9; 10]%Z; Pop 3; Pop 2; Pop 1] b = (outs, b') ∧
  (λ pop : nat * PopOutcome * list f32, pop.1.2) <$> outs = [Playing; Underrun; Priming] ∧
  length (queue (inner b')) ≤ 8.
Proof.
  do 3 eexists. split; [done|]. split; [reflexivity|]. split; [done|].
  eapply (playback_correct 4 8 _ [Push [1; 2; 3; 4; 5; 6; 7; 8]%Z; Push [9; 10]%Z; Pop 3; Pop 2; Pop 1]);
    reflexivity.
Defined.

(** * The connection as a whole *)

Definition i16 (n : Z) : Prop := (- 2 ^ 15 ≤ n < 2 ^ 15)%Z.

Lemma samples_of_spec n p : length p ≤ n → Forall byte p →
  Forall i16 (samples_of p) ∧ length (samples_of p) = length p / 2.
Proof.
  revert p. induction n as [|n IH]; intros [|lo [|hi p]] Hn Hp; cbn in Hn; try lia; try (by split; [constructor|]).
  apply Forall_cons in Hp as [Hlo [Hhi Hp]%Forall_cons]. destruct (IH p ltac:(lia) Hp) as [HI HL].
  cbn [samples_of length]. split.
  - constructor; [|done]. unfold i16, i16_from_le_bytes, byte in *. case_decide; lia.
  - rewrite HL. replace (S (S (length p))) with (length p + 1 * 2) by lia. rewrite Nat.div_add by lia. lia.
Qed.

Lemma new_per_ms n : new (TARGET_MS * n) (MAX_MS * n) = Panic ↔ n = 0.
Proof. unfold new, TARGET_MS, MAX_MS. case_decide; split; try done; lia. Qed.

Lemma new_no_err tgt max e : new tgt max ≠ Err e.
Proof. unfold new. by case_decide. Qed.

Lemma run_connection_panics `{PostcardLaws AudioToHost} opens r :
  run_connection opens r = Panic ↔ ∃ minor rate channels r',
    read_msg_bounded AUDIO_MAX_FRAME r = Ok (AudioHello AUDIO_MAJOR minor rate channels, r') ∧
    (1 ≤ channels)%Z ∧ (rate * channels < 1000)%Z.
Proof.
  unfold run_connection. pose proof (read_msg_bounded_spec AUDIO_MAX_FRAME r) as Hread.
  destruct (read_msg_bounded AUDIO_MAX_FRAME r) as [[[major minor rate channels|payload] r']|e|]; cbn; [|naive_solver..].
  case_bool_decide as Hmajor; cbn [negb]; [|naive_solver].
  case_bool_decide as Hch; cbn [negb]; [|split; [done|naive_solver lia]].
  pose proof (new_per_ms (Z.to_nat (rate * channels / 1000))) as Hnew.
  assert (Z.to_nat (rate * channels / 1000) = 0 ↔ (rate * channels < 1000)%Z) as Hz.
  { pose proof (Z.div_lt_upper_bound (rate * channels) 1000 1). pose proof (Z.div_le_lower_bound (rate * channels) 1000 1). lia. }
  rewrite Hz in Hnew. destruct (new _ _) as [b|e|] eqn:Hb; cbn [map_err mbind outcome_bind].
  - assert (¬ (rate * channels < 1000)%Z) as Hno by (by rewrite <- Hnew).
    destruct opens; cbn; (split; [done|]); intros (? & ? & ? & ? & [=] & ? & ?); by subst.
  - by apply new_no_err in Hb.
  - split; [|done]. intros _. do 4 eexists. split; [by rewrite Hmajor|]. split; [done|by rewrite <- Hnew].
Qed.

(** The audio connection.  Its buffer's parameters come from the guest's
    Hello, and it panics exactly when that advertises less than one sample per
    millisecond over all channels; otherwise it always ends, and when the guest
    follows the protocol it ends cleanly, having pushed the samples of every
    payload in order, each of them in the range of 16 bits. *)
Lemma audio_connection_correct `{PL : PostcardLaws AudioToHost} opens r :
  (run_connection opens r = Panic ↔ ∃ minor rate channels r',
    read_msg_bounded AUDIO_MAX_FRAME r = Ok (AudioHello AUDIO_MAJOR minor rate channels, r') ∧
    (1 ≤ channels)%Z ∧ (rate * channels < 1000)%Z) ∧
  (∀ b ends pushes, run_connection opens r = Ok (b, (ends, pushes)) → ends ≠ Panic) ∧
  (∀ minor rate channels hello payloads fs, r = hello ++ concat fs → opens = true →
    frame_of (AudioHello AUDIO_MAJOR minor rate channels) = Some hello →
    (Z.of_nat (length hello) <= AUDIO_MAX_FRAME + 4)%Z → (1 ≤ channels)%Z → (1000 ≤ rate * channels)%Z →
    Forall2 (λ p f, frame_of (Pcm p) = Some f ∧ (Z.of_nat (length f) <= AUDIO_MAX_FRAME + 4)%Z ∧
      length p mod (Z.to_nat channels * bytes_per_sample) = 0) payloads fs →
    ∃ b, new (TARGET_MS * Z.to_nat (rate * channels / 1000)) (MAX_MS * Z.to_nat (rate * channels / 1000)) = Ok b ∧
      run_connection opens r = Ok (b, (Ok (), samples_of <$> payloads))) ∧
  (∀ p, Forall byte p → Forall i16 (samples_of p) ∧ length (samples_of p) = length p / 2).
Proof.
  split; [by apply run_connection_panics|]. split; [|split; [|intros p; by apply (samples_of_spec (length p))]].
  - intros b ends pushes. unfold run_connection.
    destruct (map_err _ _) as [[[major minor rate channels|payload] r']|e|]; cbn -[pcm_loop]; try done.
    do 2 (destruct (negb _); [done|]). destruct (map_err _ _) as [jb|e|]; cbn -[pcm_loop]; [|done..].
    destruct (negb opens); [done|]. intros [_ Hends]%Ok_inj%pair_equal_spec ->.
    apply (pcm_loop_total (S (length r')) (Z.to_nat channels * bytes_per_sample) [] r'); [lia|by rewrite Hends].
  - intros minor rate channels hello payloads fs -> -> Hhello Hcap Hch Hrate H2.
    assert (Z.to_nat (rate * channels / 1000) ≠ 0) as Hms.
    { pose proof (Z.div_le_lower_bound (rate * channels) 1000 1). lia. }
    pose proof (new_per_ms (Z.to_nat (rate * channels / 1000))) as Hnew.
    unfold run_connection. rewrite (read_frame_of AUDIO_MAX_FRAME _ hello) by (done || by right).
    cbn [map_err mbind outcome_bind]. rewrite !bool_decide_eq_true_2 by done. cbn [negb].
    destruct (new _ _) as [b|e|] eqn:Hb; [|by apply new_no_err in Hb|tauto].
    exists b. split; [done|]. cbn [map_err mbind outcome_bind].
    by rewrite (pcm_loop_frames _ _ _ _ _ H2) by (pose proof (frames_length _ _ _ H2); lia).
Qed.

(** A codec for these messages. *)
#[export] Instance demo_audio_postcard : Postcard AudioToHost := {|
  to_stdvec m := Some match m with
    | AudioHello major minor rate channels => [0; major; minor; rate; channels]%Z
    | Pcm payload => 1%Z :: payload
    end;
  from_bytes bs :=
    match bs with
    | [0; major; minor; rate; channels]%Z => Some (AudioHello major minor rate channels)
    | (1 :: payload)%Z => Some (Pcm payload)
    | _ => None
    end |}.

Lemma demo_audio_laws : PostcardLaws AudioToHost.
Proof. by intros [] bs [= <-]. Qed.

(** One channel at 500 Hz brings the thread down; two at 48 kHz play. *)
Example audio_connection_correct_demo :
  run_connection true ([5; 0; 0; 0] ++ [0; 1; 0; 500; 1])%Z = Panic ∧
  ∃ b, run_connection true ([5; 0; 0; 0; 0; 1; 0; 48000; 2] ++ concat [[5; 0; 0; 0; 1; 255; 255; 1; 0]])%Z =
    Ok (b, (Ok (), [[-1; 1]%Z])).
Proof.
  split.
  - apply (audio_connection_correct (PL := demo_audio_laws) true). exists 0%Z, 500%Z, 1%Z, []. split; [reflexivity|]. lia.
  - destruct (audio_connection_correct (PL := demo_audio_laws) true
      ([5; 0; 0; 0; 0; 1; 0; 48000; 2] ++ concat [[5; 0; 0; 0; 1; 255; 255; 1; 0]])%Z) as (_ & _ & Hok & _).
    destruct (Hok 0%Z 48000%Z 2%Z [5; 0; 0; 0; 0; 1; 0; 48000; 2]%Z [[255; 255; 1; 0]%Z] [[5; 0; 0; 0; 1; 255; 255; 1; 0]%Z])
      as (b & _ & Hb); try (reflexivity || lia); [by vm_compute|by constructor|]. by exists b.
Defined.
