(* ===== verification/PanesFrame.v ===== *)
(** Damage tracking in the guest's compositor,
    [packages/panes/compositor/src/frame.rs]: the pixels a window last
    committed, the mirror of what the host holds, and the tiles that bring the
    one to the other.

    Widths and heights come from Wayland as positive [i32]s, so that the [u32]
    and [usize] arithmetic on them does not overflow: they are naturals.  An
    image is a list of bytes; slices out of range are panics.  The LZ4 codec is
    a parameter.  Bands that the code scans and encodes in parallel, collecting
    in order, are scanned in order. *)

From stdpp Require Import base gmap sets list strings.
From S2P Require Import Prelude Chars McWire PanesProto.
Local Open Scope nat_scope.

Definition BAND_ROWS : nat := 256.
Definition BYTES_PER_PIXEL : nat := 4.

(** [lz4_flex::compress] and [lz4_flex::block::decompress] to at most [n] bytes. *)
Class Lz4Codec := {
  compress : bytes → bytes;
  decompress : bytes → nat → option bytes;
}.
Class Lz4Laws `{!Lz4Codec} : Prop :=
  decompress_compress : ∀ raw, decompress (compress raw) (length raw) = Some raw.

(** [data[start..start + len]]. *)
Definition slice (data : bytes) (start len : nat) : outcome () bytes :=
  if decide (start + len ≤ length data) then Ok (take len (drop start data)) else Panic.

(** [dst[start..start + src.len()].copy_from_slice(src)]. *)
Definition copy_slice (dst : bytes) (start : nat) (src : bytes) : outcome () bytes :=
  if decide (start + length src ≤ length dst)
  then Ok (take start dst ++ src ++ drop (start + length src) dst) else Panic.

Record Pixels := mkPixels { px_data : bytes; px_width : nat; px_height : nat }.

Record EncodedFrame := mkFrame {
  ef_width : nat; ef_height : nat; ef_full : bool; ef_tiles : list Tile }.

Record FrameStore := mkStore { current : option Pixels; sent : option Pixels; fs_dirty : bool }.

(** [FrameStore::default]. *)
Definition FrameStore_default : FrameStore := mkStore None None false.

(** [FrameStore::commit]. *)
Definition commit (bgra : bytes) (width height : nat) (s : FrameStore) : FrameStore :=
  mkStore (Some (mkPixels bgra width height)) (sent s) true.

Definition has_content (s : FrameStore) : bool := bool_decide (is_Some (current s)).
Definition width (s : FrameStore) : nat := from_option px_width 0 (current s).
Definition height (s : FrameStore) : nat := from_option px_height 0 (current s).

(** [FrameStore::invalidate]. *)
Definition invalidate (s : FrameStore) : FrameStore := mkStore (current s) None (has_content s).

(** The [while] loop of [full_bands]. *)
Fixpoint full_bands_loop (fuel w h y : nat) (rects : list Rect) : outcome () (list Rect) :=
  if decide (y < h) then
    match fuel with
    | O => Panic
    | S fuel =>
        let n := BAND_ROWS `min` (h - y) in
        full_bands_loop fuel w h (y + n) (rects ++ [mkRect 0 y w n])
    end
  else Ok rects.

Definition full_bands (w h : nat) : outcome () (list Rect) := full_bands_loop h w h 0 [].

(** [row_changed] of [diff_bands]. *)
Definition row_changed (prev next : bytes) (row_len row : nat) : outcome () bool :=
  a ← slice prev (row * row_len) row_len;
  b ← slice next (row * row_len) row_len;
  Ok (negb (bool_decide (a = b))).

(** The rows of one band: the first and the last that changed. *)
Definition changed_rows (prev next : bytes) (row_len band stop : nat) : outcome () (option nat * nat) :=
  foldM (λ '(first, last) row,
    changed ← row_changed prev next row_len row;
    if changed : bool then Ok (Some (default row first), row) else Ok (first, last))
    (None, 0) (seq band (stop - band)).

(** One band of [diff_bands]. *)
Definition diff_band (prev next : bytes) (w h index : nat) : outcome () (option Rect) :=
  let row_len := w * BYTES_PER_PIXEL in
  let band := index * BAND_ROWS in
  let stop := (band + BAND_ROWS) `min` h in
  '(first, last) ← changed_rows prev next row_len band stop;
  Ok (option_map (λ first, mkRect 0 first w (last - first + 1)) first).

(** [u32::div_ceil]. *)
Definition div_ceil (a b : nat) : nat := (a + (b - 1)) / b.

Definition diff_bands (prev next : bytes) (w h : nat) : outcome () (list Rect) :=
  foldM (λ rects index,
    r ← diff_band prev next w h index;
    Ok (rects ++ option_list r))
    [] (seq 0 (div_ceil h BAND_ROWS)).

(** [extract_rect]. *)
Definition extract_rect (frame : bytes) (frame_width : nat) (rect : Rect) : outcome () bytes :=
  let frame_row := frame_width * BYTES_PER_PIXEL in
  let x_bytes := r_x rect * BYTES_PER_PIXEL in
  let w_bytes := r_w rect * BYTES_PER_PIXEL in
  foldM (λ out row, bs ← slice frame (row * frame_row + x_bytes) w_bytes; Ok (out ++ bs))
    [] (seq (r_y rect) (r_h rect)).

Section store.
Context `{Lz4Codec}.

(** [encode_tile]. *)
Definition encode_tile (frame : bytes) (frame_width : nat) (rect : Rect) (allow_lz4 : bool) : outcome () Tile :=
  raw ← extract_rect frame frame_width rect;
  let compressed := compress raw in
  if allow_lz4 && bool_decide (length compressed * 10 < length raw * 9)
  then Ok (mkTile rect Lz4 compressed)
  else Ok (mkTile rect Raw raw).

(** [sent.data[start..end].copy_from_slice(&current.data[start..end])]. *)
Definition copy_band (row : nat) (from : bytes) (dst : bytes) (rect : Rect) : outcome () bytes :=
  src ← slice from (r_y rect * row) (r_h rect * row);
  copy_slice dst (r_y rect * row) src.

(** [FrameStore::take_frame]. *)
Definition take_frame (allow_lz4 : bool) (s : FrameStore) : outcome () (option EncodedFrame * FrameStore) :=
  if negb (fs_dirty s) then Ok (None, s)
  else
    match current s with
    | None => Ok (None, mkStore None (sent s) false)
    | Some cur =>
        let same := match sent s with
          | Some m => if decide (px_width m = px_width cur ∧ px_height m = px_height cur) then Some m else None
          | None => None
          end in
        rects ← match same with
          | Some m => diff_bands (px_data m) (px_data cur) (px_width cur) (px_height cur)
          | None => full_bands (px_width cur) (px_height cur)
          end;
        if decide (rects = []) then Ok (None, mkStore (Some cur) (sent s) false)
        else
          tiles ← foldM (λ tiles rect,
            t ← encode_tile (px_data cur) (px_width cur) rect allow_lz4; Ok (tiles ++ [t])) [] rects;
          mirror ← match same with
            | Some m =>
                data ← foldM (copy_band (px_width cur * BYTES_PER_PIXEL) (px_data cur)) (px_data m) rects;
                Ok (mkPixels data (px_width m) (px_height m))
            | None => Ok cur
            end;
          Ok (Some (mkFrame (px_width cur) (px_height cur) (bool_decide (same = None)) tiles),
              mkStore (Some cur) (Some mirror) false)
    end.

End store.

(** * From client buffers *)

(** [px[3] = 0xFF] over [chunks_exact_mut(4)]. *)
Fixpoint opaque (bs : bytes) : bytes :=
  match bs with
  | b :: g :: r :: _ :: bs => b :: g :: r :: 255%Z :: opaque bs
  | bs => bs
  end.

(** [pack_bgra]. *)
Definition pack_bgra (src : bytes) (stride w h : nat) (force_opaque : bool) : outcome () bytes :=
  let row := w * BYTES_PER_PIXEL in
  out ← foldM (λ out y, bs ← slice src (y * stride) row; Ok (out ++ bs)) [] (seq 0 h);
  Ok (if force_opaque then opaque out else out).

Inductive ShmFormat := Argb8888 | Xrgb8888 | OtherFormat.

(** [BufferData] of the [wl_shm] buffer: [i32]s from the client. *)
Record BufferData := mkBufferData {
  bd_offset : Z; bd_width : Z; bd_height : Z; bd_stride : Z; bd_format : ShmFormat }.

(** [copy_shm] of [compositor/handlers.rs] over a pool of bytes. *)
Definition copy_shm (pool : bytes) (data : BufferData) : outcome () (option Pixels) :=
  match bd_format data with
  | OtherFormat => Ok None
  | format =>
      let force_opaque := match format with Xrgb8888 => true | _ => false end in
      if decide (0 <= bd_width data ∧ 0 <= bd_height data ∧ 0 <= bd_stride data ∧ 0 <= bd_offset data)%Z then
        let w := Z.to_nat (bd_width data) in
        let h := Z.to_nat (bd_height data) in
        let stride := Z.to_nat (bd_stride data) in
        let offset := Z.to_nat (bd_offset data) in
        let stop := offset + stride * h in
        if decide (length pool < stop ∨ stride < w * BYTES_PER_PIXEL) then Ok None
        else
          src ← slice pool offset (stride * h);
          bgra ← pack_bgra src stride w h force_opaque;
          Ok (Some (mkPixels bgra w h))
      else Ok None
  end.
