(* ===== verification/PanesFrameProps.v ===== *)
(** What the compositor's frames carry
    ([packages/panes/compositor/src/frame.rs]): tiles that cover the damage and
    decode to the committed pixels, over a mirror that is exactly what the
    host was sent. *)

From stdpp Require Import base gmap sets list strings.
From S2P Require Import Prelude Chars McWire PanesProto PanesFrame.
Local Open Scope nat_scope.

(** * Slices *)

Lemma slice_ok data start len : start + len ≤ length data → slice data start len = Ok (take len (drop start data)).
Proof. intros. unfold slice. by rewrite decide_True. Qed.

Lemma length_slice (data : bytes) start len : start + len ≤ length data → length (take len (drop start data)) = len.
Proof. intros. rewrite length_take, length_drop. lia. Qed.

Lemma lookup_slice (data : bytes) start len k :
  take len (drop start data) !! k = if decide (k < len) then data !! (start + k) else None.
Proof. case_decide; [by rewrite lookup_take_lt, lookup_drop|by rewrite lookup_take_ge by lia]. Qed.

Lemma copy_slice_spec dst start src : start + length src ≤ length dst → ∃ dst',
  copy_slice dst start src = Ok dst' ∧ length dst' = length dst ∧
  ∀ k, dst' !! k = if decide (start ≤ k < start + length src) then src !! (k - start) else dst !! k.
Proof.
  intros H. unfold copy_slice. rewrite decide_True by done. eexists. split; [done|]. split.
  { rewrite !length_app, length_take, length_drop. lia. }
  intros k. case_decide.
  - rewrite lookup_app_r by (rewrite length_take; lia).
    replace (k - length (take start dst)) with (k - start) by (rewrite length_take; lia).
    by rewrite lookup_app_l by lia.
  - destruct (decide (k < start)).
    + rewrite lookup_app_l by (rewrite length_take; lia). by rewrite lookup_take_lt.
    + rewrite lookup_app_r by (rewrite length_take; lia). rewrite length_take.
      rewrite lookup_app_r by lia. rewrite lookup_drop. f_equal. lia.
Qed.

(** Reading consecutive rows gives them as one slice. *)
Lemma read_rows (data : bytes) rl y n acc : (y + n) * rl ≤ length data →
  foldM (λ out row, bs ← slice data (row * rl + 0) rl; Ok (out ++ bs)) acc (seq y n) =
    (Ok (acc ++ take (n * rl) (drop (y * rl) data)) : outcome () bytes).
Proof.
  revert y acc. induction n as [|n IH]; intros y acc H; cbn [seq foldM].
  - cbn. by rewrite app_nil_r.
  - rewrite Nat.add_0_r, slice_ok by nia. cbn [mbind outcome_bind]. rewrite IH by nia.
    rewrite <- app_assoc. do 2 f_equal. cbn [Nat.mul]. rewrite <- (take_take_drop _ rl), drop_drop.
    by rewrite (Nat.add_comm (y * rl)).
Qed.

(** * Bands *)

Section bands.
Context (w h : nat).

Abbreviation rl := (w * BYTES_PER_PIXEL).

(** A full-width band inside the frame. *)
Definition band (r : Rect) : Prop := r_x r = 0 ∧ r_w r = w ∧ 0 < r_h r ∧ r_y r + r_h r ≤ h.

Definition covers_row (r : Rect) (y : nat) : Prop := r_y r ≤ y < r_y r + r_h r.

Lemma full_bands_loop_spec fuel y rects : y ≤ h → h - y ≤ fuel → ∃ rs,
  full_bands_loop fuel w h y rects = Ok (rects ++ rs) ∧ Forall band rs ∧
  (∀ row, y ≤ row < h → ∃ r, r ∈ rs ∧ covers_row r row) ∧ sum_list (r_h <$> rs) = h - y ∧
  (rs = [] ↔ y = h).
Proof.
  revert y rects. induction fuel as [|fuel IH]; intros y rects Hy Hfuel; cbn [full_bands_loop]; case_decide as Hlt; try lia.
  - exists []. rewrite app_nil_r. split_and!; [done..|lia| |]; cbn; [lia|]. split; [lia|done].
  - assert (0 < BAND_ROWS `min` (h - y) ≤ h - y) as Hn by (unfold BAND_ROWS; lia).
    revert Hn. generalize (BAND_ROWS `min` (h - y)). intros n Hn.
    destruct (IH (y + n) (rects ++ [mkRect 0 y w n])) as (rs & -> & Hband & Hcov & Hsum & Hnil); [lia..|].
    exists (mkRect 0 y w n :: rs). rewrite <- app_assoc. split_and!; [done| | | |].
    + constructor; [|done]. unfold band. cbn. lia.
    + intros row Hrow. destruct (decide (row < y + n)).
      * eexists. split; [by left|]. unfold covers_row. cbn. lia.
      * destruct (Hcov row ltac:(lia)) as (r & Hr & ?). exists r. split; [by right|done].
    + cbn. lia.
    + split; [done|lia].
  - exists []. rewrite app_nil_r. split_and!; [done..|lia| |]; cbn; [lia|]. split; [lia|done].
Qed.

Lemma full_bands_spec : ∃ rs, full_bands w h = Ok rs ∧ Forall band rs ∧
  (∀ row, row < h → ∃ r, r ∈ rs ∧ covers_row r row) ∧ sum_list (r_h <$> rs) = h ∧ (rs = [] ↔ h = 0).
Proof.
  destruct (full_bands_loop_spec h 0 []) as (rs & Hrs & Hband & Hcov & Hsum & Hnil); [lia..|].
  exists rs. split_and!; [done..| |lia|rewrite Hnil; lia]. intros row Hrow. apply Hcov. lia.
Qed.

Lemma seq_split y n pre row post : seq y n = pre ++ row :: post → y ≤ row < y + n ∧ ∀ x, x ∈ pre → y ≤ x < row.
Proof.
  intros H.
  assert (seq y n !! length pre = Some row) as Hrow by (rewrite H, list_lookup_middle; done).
  apply lookup_seq in Hrow as [-> Hn]. split; [lia|].
  intros x [i Hi]%list_elem_of_lookup. pose proof (lookup_lt_Some _ _ _ Hi).
  assert (seq y n !! i = Some x) as Hx by (rewrite H, lookup_app_l by done; done).
  apply lookup_seq in Hx as [-> _]. lia.
Qed.

Section diff.
Context (prev next : bytes) (Hprev : length prev = h * rl) (Hnext : length next = h * rl).

Definition same_row (row : nat) : Prop := take rl (drop (row * rl) prev) = take rl (drop (row * rl) next).

Lemma row_changed_spec row : row < h → ∃ b, row_changed prev next rl row = Ok b ∧ (b = false ↔ same_row row).
Proof.
  intros Hrow. unfold row_changed. rewrite !slice_ok by nia. cbn [mbind outcome_bind]. eexists. split; [done|].
  rewrite negb_false_iff. apply bool_decide_eq_true.
Qed.

Lemma changed_rows_spec y stop : y ≤ stop → stop ≤ h → ∃ first last,
  changed_rows prev next rl y stop = Ok (first, last) ∧
  match first with
  | None => ∀ row, y ≤ row < stop → same_row row
  | Some f => y ≤ f ≤ last ∧ last < stop ∧ ∀ row, y ≤ row < stop → same_row row ∨ f ≤ row ≤ last
  end.
Proof.
  intros Hy Hstop.
  pose (I := λ (l : list nat) (s : option nat * nat), match s.1 with
    | None => ∀ row, row ∈ l → same_row row
    | Some f => f ∈ l ∧ s.2 ∈ l ∧ f ≤ s.2 ∧ ∀ row, row ∈ l → same_row row ∨ f ≤ row ≤ s.2
    end).
  destruct (foldM_total I (λ '(first, last) row,
    changed ← row_changed prev next rl row;
    if changed : bool then Ok (Some (default row first), row) else Ok (first, last)) (seq y (stop - y)) (None, 0))
    as ([first last] & Hok & HI).
  - intros row Hrow. by apply not_elem_of_nil in Hrow.
  - intros pre row post [first last] Hsplit HI. apply seq_split in Hsplit as [Hrow Hpre].
    destruct (row_changed_spec row) as (b & -> & Hb); [lia|]. cbn [mbind outcome_bind].
    destruct b; (eexists; split; [done|]); unfold I in *; cbn in *.
    + destruct first as [f|]; cbn.
      * destruct HI as (Hf & Hl & Hle & HI). pose proof (Hpre f Hf). split_and!; [set_solver..|lia|].
        intros r [Hr| ->%list_elem_of_singleton]%elem_of_app; [|lia].
        pose proof (Hpre r Hr). destruct (HI r Hr); [by left|right; lia].
      * split_and!; [set_solver..|lia|].
        intros r [Hr| ->%list_elem_of_singleton]%elem_of_app; [left; auto|lia].
    + destruct Hb as [Hb _]. specialize (Hb eq_refl). destruct first as [f|].
      * destruct HI as (Hf & Hl & Hle & HI). split_and!; [set_solver..|lia|].
        intros r [Hr| ->%list_elem_of_singleton]%elem_of_app; [auto|by left].
      * intros r [Hr| ->%list_elem_of_singleton]%elem_of_app; auto.
  - exists first, last. split; [done|]. unfold I in HI. cbn in HI. destruct first as [f|].
    + destruct HI as (Hf%elem_of_seq & Hl%elem_of_seq & Hle & HI). split_and!; try lia.
      intros row Hrow. apply HI, elem_of_seq. lia.
    + intros row Hrow. apply HI, elem_of_seq. lia.
Qed.

Lemma div_ceil_spec a b row : 0 < b → row < a → row / b < div_ceil a b.
Proof.
  intros Hb Ha. unfold div_ceil. apply Nat.div_lt_upper_bound; [lia|].
  pose proof (Nat.div_mod (a + (b - 1)) b ltac:(lia)). pose proof (Nat.mod_upper_bound (a + (b - 1)) b ltac:(lia)). nia.
Qed.

Lemma div_ceil_lt a b i : 0 < b → i < div_ceil a b → i * b < a.
Proof.
  intros Hb Hi. unfold div_ceil in Hi.
  pose proof (Nat.div_mod (a + (b - 1)) b ltac:(lia)). nia.
Qed.

Lemma diff_bands_spec : ∃ rs, diff_bands prev next w h = Ok rs ∧ Forall band rs ∧
  ∀ row, row < h → same_row row ∨ ∃ r, r ∈ rs ∧ covers_row r row.
Proof.
  assert (0 < BAND_ROWS) as HB by (unfold BAND_ROWS; lia).
  destruct (foldM_total (λ (l : list nat) (rs : list Rect), Forall band rs ∧
      ∀ i row, i ∈ l → row < h → row / BAND_ROWS = i → same_row row ∨ ∃ r, r ∈ rs ∧ covers_row r row)
    (λ rects index, r ← diff_band prev next w h index; Ok (rects ++ option_list r))
    (seq 0 (div_ceil h BAND_ROWS)) []) as (rs & Hok & Hband & Hcov).
  - split; [constructor|]. intros i row Hi. by apply not_elem_of_nil in Hi.
  - intros pre i post rs Hsplit [Hband Hcov]. apply seq_split in Hsplit as [Hi _].
    pose proof (div_ceil_lt h BAND_ROWS i HB ltac:(lia)) as Hih.
    unfold diff_band. cbn zeta.
    destruct (changed_rows_spec (i * BAND_ROWS) ((i * BAND_ROWS + BAND_ROWS) `min` h)) as (first & last & -> & Hrows); [lia..|].
    cbn [mbind outcome_bind]. eexists. split; [done|].
    assert (∀ row, row < h → row / BAND_ROWS = i → i * BAND_ROWS ≤ row < (i * BAND_ROWS + BAND_ROWS) `min` h) as Hin.
    { intros row Hrow <-. pose proof (Nat.div_mod row BAND_ROWS ltac:(lia)).
      pose proof (Nat.mod_upper_bound row BAND_ROWS ltac:(lia)). lia. }
    destruct first as [f|]; cbn [option_map option_list].
    + destruct Hrows as (Hf & Hl & Hrows). split.
      * apply Forall_app_2; [done|]. constructor; [|done]. unfold band. cbn. lia.
      * intros j row [Hj| ->%list_elem_of_singleton]%elem_of_app Hrow Hdiv.
        -- destruct (Hcov j row Hj Hrow Hdiv) as [|(r & ? & ?)]; [by left|right; exists r; set_solver].
        -- destruct (Hrows row (Hin row Hrow Hdiv)); [by left|right]. eexists. split; [by apply elem_of_app; right; left|].
           unfold covers_row. cbn. lia.
    + rewrite app_nil_r. split; [done|].
      intros j row [Hj| ->%list_elem_of_singleton]%elem_of_app Hrow Hdiv; [by eapply Hcov|left; auto].
  - exists rs. split; [done|]. split; [done|]. intros row Hrow. apply (Hcov (row / BAND_ROWS) row); [|done..].
    apply elem_of_seq. pose proof (div_ceil_spec h BAND_ROWS row HB Hrow). lia.
Qed.

End diff.
End bands.

(** * The mirror after a frame *)

Section mirror.
Context (w h : nat) (prev next : bytes).

Abbreviation rl := (w * BYTES_PER_PIXEL).
Context (Hprev : length prev = h * rl) (Hnext : length next = h * rl).

Lemma copy_band_spec dst r : length dst = h * rl → band w h r → ∃ dst',
  copy_band rl next dst r = Ok dst' ∧ length dst' = h * rl ∧
  ∀ k, dst' !! k = if decide (r_y r * rl ≤ k < (r_y r + r_h r) * rl) then next !! k else dst !! k.
Proof.
  intros Hdst (_ & _ & Hh & Hin). unfold copy_band. rewrite slice_ok by nia. cbn [mbind outcome_bind].
  destruct (copy_slice_spec dst (r_y r * rl) (take (r_h r * rl) (drop (r_y r * rl) next))) as (dst' & -> & Hlen & Hk).
  { rewrite length_slice by nia. nia. }
  exists dst'. split_and!; [done|congruence|]. intros k. rewrite Hk, length_slice by nia.
  rewrite Nat.mul_add_distr_r. case_decide; [|done].
  rewrite lookup_slice, decide_True by lia. f_equal. lia.
Qed.

Lemma same_row_lookup k : k < h * rl → same_row w prev next (k / rl) → prev !! k = next !! k.
Proof.
  intros Hk Hrow. assert (0 < rl) as Hrl by lia.
  pose proof (Nat.div_mod k rl ltac:(lia)) as E. pose proof (Nat.mod_upper_bound k rl ltac:(lia)) as Hm.
  apply (f_equal (.!! (k mod rl))) in Hrow. rewrite !lookup_slice, !decide_True in Hrow by done.
  replace (k / rl * rl + k mod rl) with k in Hrow by lia. done.
Qed.

(** Copying bands that cover every changed row makes the mirror the frame. *)
Lemma copy_bands_spec rs : Forall (band w h) rs →
  (∀ row, row < h → same_row w prev next row ∨ ∃ r, r ∈ rs ∧ covers_row r row) →
  foldM (copy_band rl next) prev rs = Ok next.
Proof.
  intros Hband Hcov. rewrite Forall_forall in Hband.
  destruct (foldM_total (λ (l : list Rect) (d : bytes), length d = h * rl ∧
    ∀ k, d !! k = next !! k ∨ (d !! k = prev !! k ∧ ∀ r, r ∈ l → ¬ (r_y r * rl ≤ k < (r_y r + r_h r) * rl)))
    (copy_band rl next) rs prev) as (d & -> & Hlen & Hk).
  - split; [done|]. intros k. right. split; [done|]. intros r Hr. by apply not_elem_of_nil in Hr.
  - intros pre r post d -> [Hlen Hk]. destruct (copy_band_spec d r Hlen) as (d' & Hd' & Hlen' & Hk'); [set_solver|].
    exists d'. split_and!; [done..|]. intros k. rewrite Hk'. case_decide as Hin; [by left|].
    destruct (Hk k) as [|[? Hno]]; [by left|right]. split; [done|].
    intros r' [Hr'| ->%list_elem_of_singleton]%elem_of_app; auto.
  - f_equal. apply list_eq. intros k. destruct (Hk k) as [|[-> Hno]]; [done|].
    destruct (decide (k < h * rl)) as [Hlt|]; [|by rewrite !lookup_ge_None_2 by lia].
    assert (0 < rl) as Hrl by lia.
    pose proof (Nat.div_mod k rl ltac:(lia)) as E. pose proof (Nat.mod_upper_bound k rl ltac:(lia)) as Hm.
    assert (k / rl < h) as Hrow by (apply Nat.div_lt_upper_bound; lia).
    destruct (Hcov (k / rl) Hrow) as [|(r & Hr & Hrow')]; [by apply same_row_lookup|].
    destruct (Hno r Hr). unfold covers_row in Hrow'. nia.
Qed.

End mirror.

(** * Tiles *)

Section tiles.
Context `{Lz4Laws}.

(** What the host decodes a tile to. *)
Definition decoded (t : Tile) : option bytes :=
  match tl_encoding t with
  | Raw => Some (tl_payload t)
  | Lz4 => decompress (tl_payload t) (r_w (tl_rect t) * r_h (tl_rect t) * BYTES_PER_PIXEL)
  end.

(** The rows of a band. *)
Definition band_rows (data : bytes) (w : nat) (r : Rect) : bytes :=
  take (r_h r * (w * BYTES_PER_PIXEL)) (drop (r_y r * (w * BYTES_PER_PIXEL)) data).

Lemma extract_rect_band w h data r : length data = h * (w * BYTES_PER_PIXEL) → band w h r →
  extract_rect data w r = Ok (band_rows data w r).
Proof.
  intros Hlen (Hx & Hw & Hh & Hin). unfold extract_rect. cbn zeta. rewrite Hx, Hw, Nat.mul_0_l.
  rewrite read_rows by nia. done.
Qed.

Lemma length_band_rows w h data r : length data = h * (w * BYTES_PER_PIXEL) → band w h r →
  length (band_rows data w r) = r_w r * r_h r * BYTES_PER_PIXEL.
Proof. intros Hlen (Hx & Hw & Hh & Hin). unfold band_rows. rewrite length_slice by nia. rewrite Hw. lia. Qed.

Lemma encode_tile_spec w h data r lz4 : length data = h * (w * BYTES_PER_PIXEL) → band w h r → ∃ t,
  encode_tile data w r lz4 = Ok t ∧ tl_rect t = r ∧ decoded t = Some (band_rows data w r) ∧
  (tl_encoding t = Lz4 → lz4 = true).
Proof.
  intros Hlen Hr. unfold encode_tile. rewrite (extract_rect_band w h) by done. cbn [mbind outcome_bind].
  destruct (lz4 && _) eqn:Hc; eexists; (split; [done|]); cbn; split_and!; try done.
  - unfold decoded. cbn. by rewrite <- (length_band_rows w h data r), decompress_compress by done.
  - by apply andb_true_iff in Hc as [-> _].
Qed.

End tiles.

(** * Frames *)

Definition pixels_wf (p : Pixels) : Prop := length (px_data p) = px_height p * (px_width p * BYTES_PER_PIXEL).

Definition store_wf (s : FrameStore) : Prop :=
  (∀ p, current s = Some p → pixels_wf p) ∧ (∀ p, sent s = Some p → pixels_wf p).

Section frames.
Context `{Lz4Laws}.

Abbreviation row_of p := (px_width p * BYTES_PER_PIXEL).

(** The frame [f] brings a host that holds [held] to [cur]. *)
Definition carries (held : option Pixels) (cur : Pixels) (f : EncodedFrame) : Prop :=
  ef_width f = px_width cur ∧ ef_height f = px_height cur ∧
  Forall (λ t, band (px_width cur) (px_height cur) (tl_rect t) ∧
    decoded t = Some (band_rows (px_data cur) (px_width cur) (tl_rect t))) (ef_tiles f) ∧
  let covered row := ∃ t, t ∈ ef_tiles f ∧ covers_row (tl_rect t) row in
  if ef_full f then
    (∀ row, row < px_height cur → covered row) ∧ sum_list (r_h ∘ tl_rect <$> ef_tiles f) = px_height cur
  else ∃ m, held = Some m ∧ px_width m = px_width cur ∧ px_height m = px_height cur ∧
    ∀ row, row < px_height cur → same_row (px_width cur) (px_data m) (px_data cur) row ∨ covered row.

Lemma encode_tiles_spec cur rs lz4 : pixels_wf cur → Forall (band (px_width cur) (px_height cur)) rs → ∃ ts,
  foldM (λ tiles rect, t ← encode_tile (px_data cur) (px_width cur) rect lz4; Ok (tiles ++ [t])) [] rs =
    (Ok ts : outcome () (list Tile)) ∧
  tl_rect <$> ts = rs ∧
  Forall (λ t, decoded t = Some (band_rows (px_data cur) (px_width cur) (tl_rect t))) ts ∧
  Forall (λ t, tl_encoding t = Lz4 → lz4 = true) ts.
Proof.
  intros Hwf Hband.
  destruct (foldM_collect_total (λ r t, tl_rect t = r ∧ decoded t = Some (band_rows (px_data cur) (px_width cur) r) ∧
      (tl_encoding t = Lz4 → lz4 = true))
    (λ rect, encode_tile (px_data cur) (px_width cur) rect lz4 : outcome () Tile) rs []) as (ts & Hts & H2).
  - intros r Hr. rewrite Forall_forall in Hband.
    destruct (encode_tile_spec (px_width cur) (px_height cur) (px_data cur) r lz4) as (t & Ht & Hrect & Hdec & Hraw); eauto.
  - exists ts. split; [done|]. clear Hts Hband. induction H2 as [|r t rs ts (Hr & Hd & Hl) _ (IH1 & IH2 & IH3)]; [done|].
    cbn. split_and!; [by rewrite Hr, IH1|constructor; [by rewrite Hr|done]|by constructor].
Qed.

Lemma covered_rects (ts : list Tile) row :
  (∃ t, t ∈ ts ∧ covers_row (tl_rect t) row) ↔ ∃ r, r ∈ tl_rect <$> ts ∧ covers_row r row.
Proof. setoid_rewrite list_elem_of_fmap. naive_solver. Qed.

Lemma Forall_rects (P : Rect → Prop) (ts : list Tile) : Forall P (tl_rect <$> ts) → Forall (λ t, P (tl_rect t)) ts.
Proof. by rewrite Forall_fmap. Qed.

Lemma all_rows_same cur m : pixels_wf cur → pixels_wf m → px_width m = px_width cur → px_height m = px_height cur →
  (∀ row, row < px_height cur → same_row (px_width cur) (px_data m) (px_data cur) row) → m = cur.
Proof.
  intros Hcur Hm Hw Hh Hrows. destruct m as [dm wm hm], cur as [dc wc hc]. unfold pixels_wf in *. cbn in *. subst.
  f_equal. pose proof (copy_bands_spec wc hc dm dc Hm Hcur [] ltac:(constructor)) as Hcopy.
  cbn in Hcopy. assert (∀ row, row < hc → same_row wc dm dc row ∨ ∃ r : Rect, r ∈ [] ∧ covers_row r row) as Hrows2 by auto.
  by apply Hcopy in Hrows2 as [= ->].
Qed.

Lemma take_frame_spec lz4 s : store_wf s → ∃ r s',
  take_frame lz4 s = Ok (r, s') ∧ store_wf s' ∧ current s' = current s ∧ fs_dirty s' = false ∧
  match r with
  | Some f => ∃ cur, current s = Some cur ∧ carries (sent s) cur f ∧ sent s' = Some cur ∧
      Forall (λ t, tl_encoding t = Lz4 → lz4 = true) (ef_tiles f)
  | None => sent s' = sent s ∧
      (fs_dirty s = false ∨ ∀ cur, current s = Some cur → sent s = Some cur ∨ px_height cur = 0)
  end.
Proof.
  intros [Hcur Hsent]. unfold take_frame. destruct (fs_dirty s) eqn:Hd; cbn [negb].
  2: { exists None, s. split_and!; auto. by split. }
  destruct (current s) as [cur|] eqn:Hc; [|exists None, (mkStore None (sent s) false); split_and!; [done|by split|done..|by right]].
  specialize (Hcur cur eq_refl). cbn zeta. set (same := match sent s with Some m => _ | None => _ end).
  assert (match same with
    | Some m => sent s = Some m ∧ px_width m = px_width cur ∧ px_height m = px_height cur
    | None => True end) as Hsame.
  { unfold same. destruct (sent s); [|done]. by case_decide. }
  clearbody same. destruct same as [m|].
  - destruct Hsame as (Hm & Hw & Hh). specialize (Hsent m Hm).
    assert (length (px_data m) = px_height cur * row_of cur) as Hlen by (unfold pixels_wf in Hsent; congruence).
    destruct (diff_bands_spec (px_width cur) (px_height cur) (px_data m) (px_data cur) Hlen Hcur) as (rs & -> & Hband & Hcov).
    cbn [mbind outcome_bind]. case_decide as Hnil.
    { subst rs. exists None, (mkStore (Some cur) (sent s) false). split_and!; [done|split; cbn; [naive_solver|]|done..|].
      - intros p Hp. rewrite Hm in Hp. by simplify_eq.
      - right. intros c [= <-]. left. rewrite Hm. f_equal. apply all_rows_same; [done..|].
        intros row Hrow. destruct (Hcov row Hrow) as [|(r & Hr & _)]; [done|]. by apply not_elem_of_nil in Hr. }
    destruct (encode_tiles_spec cur rs lz4 Hcur Hband) as (ts & -> & Hrects & Hdec & Hraw). cbn [mbind outcome_bind].
    rewrite (copy_bands_spec (px_width cur) (px_height cur)) by done. cbn [mbind outcome_bind].
    eexists _, _. split; [done|]. rewrite bool_decide_eq_false_2 by done.
    assert (mkPixels (px_data cur) (px_width m) (px_height m) = cur) as -> by (rewrite Hw, Hh; by destruct cur).
    split_and!; [by split; cbn; naive_solver|done..|]. exists cur. split_and!; [done| |done|done].
    split_and!; [done..| |].
    + apply Forall_and. split; [|done]. apply Forall_rects. cbn [ef_tiles]. by rewrite Hrects.
    + exists m. split_and!; [done..|]. intros row Hrow. cbn. rewrite covered_rects, Hrects. auto.
  - destruct (full_bands_spec (px_width cur) (px_height cur)) as (rs & -> & Hband & Hcov & Hsum & Hnil).
    cbn [mbind outcome_bind]. case_decide as Hempty.
    { exists None, (mkStore (Some cur) (sent s) false). split_and!; [done|by split; cbn; naive_solver|done..|].
      right. intros c [= <-]. right. by apply Hnil. }
    destruct (encode_tiles_spec cur rs lz4 Hcur Hband) as (ts & -> & Hrects & Hdec & Hraw). cbn [mbind outcome_bind].
    eexists _, _. split; [done|]. rewrite bool_decide_eq_true_2 by done.
    split_and!; [by split; cbn; naive_solver|done..|]. exists cur. split_and!; [done| |done|done].
    split_and!; [done..| |].
    + apply Forall_and. split; [|done]. apply Forall_rects. cbn [ef_tiles]. by rewrite Hrects.
    + cbn [ef_full ef_tiles]. split; [|by rewrite list_fmap_compose, Hrects].
      intros row Hrow. rewrite covered_rects, Hrects. auto.
Qed.

End frames.

(** * Client buffers *)

Lemma read_strided (data : bytes) stride row y n acc : (∀ i, i < n → (y + i) * stride + row ≤ length data) → ∃ out,
  foldM (λ out y, bs ← slice data (y * stride) row; Ok (out ++ bs)) acc (seq y n) =
    (Ok (acc ++ out) : outcome () bytes) ∧
  length out = n * row ∧
  ∀ i j, i < n → j < row → out !! (i * row + j) = data !! ((y + i) * stride + j).
Proof.
  revert y acc. induction n as [|n IH]; intros y acc Hin; cbn [seq foldM].
  - exists []. rewrite app_nil_r. split_and!; [done..|lia].
  - pose proof (Hin 0 ltac:(lia)) as H0. rewrite Nat.add_0_r in H0.
    rewrite slice_ok by done. cbn [mbind outcome_bind].
    destruct (IH (S y) (acc ++ take row (drop (y * stride) data))) as (out & -> & Hlen & Hout).
    { intros i Hi. specialize (Hin (S i) ltac:(lia)). by replace (S y + i) with (y + S i) by lia. }
    eexists. rewrite <- app_assoc. split; [done|]. split.
    { rewrite length_app, length_slice, Hlen by done. lia. }
    intros [|i] j Hi Hj.
    + rewrite Nat.mul_0_l, Nat.add_0_r, lookup_app_l by (rewrite length_slice; lia).
      by rewrite lookup_slice, decide_True by done.
    + rewrite lookup_app_r by (rewrite length_slice by done; lia). rewrite length_slice by done.
      replace (S i * row + j - row) with (i * row + j) by lia. rewrite Hout by lia. f_equal. lia.
Qed.

Lemma opaque_spec n bs : length bs = n * 4 →
  length (opaque bs) = n * 4 ∧
  ∀ k, k < n * 4 → opaque bs !! k = if decide (k mod 4 = 3) then Some 255%Z else bs !! k.
Proof.
  revert bs. induction n as [|n IH]; intros bs Hbs; [split; [by destruct bs|lia]|].
  destruct bs as [|b [|g [|r [|x bs]]]]; try (cbn in Hbs; lia).
  destruct (IH bs) as [Hlen Hk]; [cbn in Hbs; lia|]. cbn [opaque length]. split; [lia|].
  intros k Hlt. destruct k as [|[|[|[|k]]]]; try done. cbn [lookup list_lookup].
  replace (S (S (S (S k))) mod 4) with (k mod 4); [apply Hk; lia|].
  replace (S (S (S (S k)))) with (k + 1 * 4) by lia. by rewrite Nat.Div0.mod_add.
Qed.

Lemma pack_bgra_spec src stride w h fo : h * stride ≤ length src → w * BYTES_PER_PIXEL ≤ stride → ∃ out,
  pack_bgra src stride w h fo = Ok out ∧ length out = h * (w * BYTES_PER_PIXEL) ∧
  ∀ y j, y < h → j < w * BYTES_PER_PIXEL → out !! (y * (w * BYTES_PER_PIXEL) + j) =
    if fo && bool_decide (j mod 4 = 3) then Some 255%Z else src !! (y * stride + j).
Proof.
  intros Hsrc Hstride. unfold pack_bgra.
  destruct (read_strided src stride (w * BYTES_PER_PIXEL) 0 h []) as (out & -> & Hlen & Hout).
  { intros i Hi. nia. }
  cbn [mbind outcome_bind app]. destruct fo; eexists; (split; [done|]); [|by split; [|intros; rewrite Hout by done]].
  assert (length out = h * w * 4) as Hlen4 by (unfold BYTES_PER_PIXEL in Hlen; lia).
  destruct (opaque_spec (h * w) out) as [Hlen' Hk]; [done|]. split; [unfold BYTES_PER_PIXEL; lia|].
  intros y j Hy Hj. rewrite Hk, Hout by (unfold BYTES_PER_PIXEL in *; nia). cbn [andb Nat.add].
  replace ((y * (w * BYTES_PER_PIXEL) + j) mod 4) with (j mod 4).
  { case_bool_decide; [by rewrite decide_True|by rewrite decide_False]. }
  unfold BYTES_PER_PIXEL. replace (y * (w * 4) + j) with (j + y * w * 4) by lia. by rewrite Nat.Div0.mod_add.
Qed.

(** What a client buffer is read as. *)
Definition reads (pool : bytes) (data : BufferData) (p : Pixels) : Prop :=
  Z.of_nat (px_width p) = bd_width data ∧ Z.of_nat (px_height p) = bd_height data ∧ pixels_wf p ∧
  ∀ y j, y < px_height p → j < px_width p * BYTES_PER_PIXEL →
    px_data p !! (y * (px_width p * BYTES_PER_PIXEL) + j) =
      match bd_format data with
      | Xrgb8888 => if decide (j mod 4 = 3) then Some 255%Z
          else pool !! (Z.to_nat (bd_offset data) + y * Z.to_nat (bd_stride data) + j)
      | _ => pool !! (Z.to_nat (bd_offset data) + y * Z.to_nat (bd_stride data) + j)
      end.

Lemma copy_shm_spec pool data : ∃ r, copy_shm pool data = Ok r ∧ ∀ p, r = Some p → reads pool data p.
Proof.
  assert (∀ fo, fo = match bd_format data with Xrgb8888 => true | _ => false end → bd_format data ≠ OtherFormat →
    ∀ w h stride offset, Z.of_nat w = bd_width data → Z.of_nat h = bd_height data →
    stride = Z.to_nat (bd_stride data) → offset = Z.to_nat (bd_offset data) →
    offset + stride * h ≤ length pool → w * BYTES_PER_PIXEL ≤ stride → ∃ bgra,
      (src ← slice pool offset (stride * h); pack_bgra src stride w h fo) = Ok bgra ∧
      reads pool data (mkPixels bgra w h)) as Hread.
  { intros fo Hfo Hfmt w h stride offset Hw Hh -> -> Hin Hrow. rewrite slice_ok by done. cbn [mbind outcome_bind].
    edestruct (pack_bgra_spec (take (Z.to_nat (bd_stride data) * h) (drop (Z.to_nat (bd_offset data)) pool)) (Z.to_nat (bd_stride data)) w h fo)
      as (out & -> & Hlen & Hout); [rewrite length_slice by done; lia|done|].
    eexists. split; [done|]. split_and!; [done..|]. cbn. intros y j Hy Hj. rewrite Hout by done.
    rewrite lookup_slice, decide_True by nia. rewrite Nat.add_assoc. subst fo.
    destruct (bd_format data); cbn [andb]; [done| |done].
    case_bool_decide; [by rewrite decide_True|by rewrite decide_False]. }
  unfold copy_shm.
  destruct (bd_format data) eqn:Hfmt; [| |by exists None];
    (case_decide as Hpos; [|by exists None]); cbn zeta; (case_decide as Hgeo; [by exists None|]);
    edestruct (Hread _ eq_refl ltac:(congruence) (Z.to_nat (bd_width data)) (Z.to_nat (bd_height data)) _ _
      ltac:(lia) ltac:(lia) eq_refl eq_refl) as (bgra & Hb & Hr); [lia..| |lia|lia|];
    apply bind_Ok in Hb as (src & Hsrc & Hpack);
    exists (Some (mkPixels bgra (Z.to_nat (bd_width data)) (Z.to_nat (bd_height data)))); (split; [|by intros p [= <-]]);
    rewrite Hsrc; cbn [mbind outcome_bind]; by rewrite Hpack.
Qed.
