(* ===== verification/PanesSurface.v ===== *)
(** A guest window on the host, [packages/panes/host/src/window.rs]: its
    double-buffered surface, how frames from the guest enter it, and how it is
    presented and acknowledged on the ticks of the display link.

    Metal is a parameter: textures are values whose texels can be read and whose
    regions can be replaced.  The GPU executes the draws of a queue in the order
    they were committed, so its progress is the number it has completed.  A
    [u32] size is a natural; sums that would overflow exceed every size, so the
    checked additions are plain ones.  Logging, tracing and the window's chrome
    are left out. *)

From stdpp Require Import base gmap sets list strings.
From S2P Require Import Prelude Chars McWire PanesProto PanesFrame.
Local Open Scope nat_scope.

(** [MTLTexture]: [replaceRegion] with [w * 4] bytes per row, and the four
    bytes at a position. *)
Class Metal := {
  texture : Type;
  replace_region : texture → Rect → bytes → texture;
  texel : texture → nat → nat → bytes;
}.

(** The pixel at an index of a packed image. *)
Definition px (bs : bytes) (i : nat) : bytes := take BYTES_PER_PIXEL (drop (BYTES_PER_PIXEL * i) bs).

Definition inside (r : Rect) (x y : nat) : Prop := r_x r ≤ x < r_x r + r_w r ∧ r_y r ≤ y < r_y r + r_h r.
#[export] Instance inside_dec r x y : Decision (inside r x y).
Proof. unfold inside. apply _. Defined.

(** Packed rows over a region of an image. *)
Definition blit (r : Rect) (bs : bytes) (image : nat → nat → bytes) : nat → nat → bytes := λ x y,
  if decide (inside r x y) then px bs ((y - r_y r) * r_w r + (x - r_x r)) else image x y.

(** [replaceRegion] replaces the region and nothing else. *)
Class MetalLaws `{!Metal} : Prop :=
  texel_replace : ∀ t r bs x y, length bs = r_w r * r_h r * BYTES_PER_PIXEL →
    texel (replace_region t r bs) x y = blit r bs (texel t) x y.

Definition IDLE_TICKS_TO_PAUSE : nat := 30.
Definition MAX_DIM : Z := 16384.

Record BufferSize := mkSize { bs_width : nat; bs_height : nat }.
#[export] Instance BufferSize_eq_dec : EqDecision BufferSize.
Proof. solve_decision. Defined.

Record PendingTile := mkPending { pt_rect : Rect; pt_bytes : bytes }.

Section window.
Context `{Metal} `{Lz4Codec}.

Record Slot := mkSlot { sl_texture : texture; absorbed : nat; last_draw : option nat }.

(** [Slot::in_flight], the GPU having completed the first [completed] draws. *)
Definition in_flight (completed : nat) (s : Slot) : bool :=
  match last_draw s with Some d => bool_decide (completed ≤ d) | None => false end.

(** [Surface]; of the two slots, whether the current one is the second. *)
Record Surface := mkSurface {
  slots : Slot * Slot; second : bool; log : list PendingTile; size : BufferSize }.

(** [Surface::new] with the textures Metal made. *)
Definition Surface_new (textures : option texture * option texture) (size : BufferSize) : option Surface :=
  t1 ← textures.1; t2 ← textures.2;
  Some (mkSurface (mkSlot t1 0 None, mkSlot t2 0 None) false [] size).

Definition with_absorbed (s : Slot) (n : nat) : Slot := mkSlot (sl_texture s) n (last_draw s).

(** [Surface::push]. *)
Definition push (rect : Rect) (bytes : bytes) (s : Surface) : Surface :=
  let s :=
    if decide (r_x rect = 0 ∧ r_y rect = 0 ∧ r_w rect = bs_width (size s) ∧ r_h rect = bs_height (size s)) then
      mkSurface (with_absorbed (slots s).1 0, with_absorbed (slots s).2 0) (second s) [] (size s)
    else s in
  mkSurface (slots s) (second s) (log s ++ [mkPending rect bytes]) (size s).

(** The upload of the log behind a slot. *)
Definition upload_log (l : list PendingTile) (s : Slot) : Slot :=
  mkSlot (foldl (λ t tile, replace_region t (pt_rect tile) (pt_bytes tile)) (sl_texture s) (drop (absorbed s) l))
    (length l) (last_draw s).

(** [Surface::compact]. *)
Definition compact (s : Surface) : Surface :=
  let n := absorbed (slots s).1 `min` absorbed (slots s).2 in
  if decide (0 < n) then
    mkSurface (with_absorbed (slots s).1 (absorbed (slots s).1 - n),
               with_absorbed (slots s).2 (absorbed (slots s).2 - n))
      (second s) (drop n (log s)) (size s)
  else s.

(** One turn of the loop of [absorb_drained]: the slot, and whether it was
    uploaded to. *)
Definition absorb_slot (completed : nat) (l : list PendingTile) (s : Slot) : Slot * bool :=
  if bool_decide (absorbed s < length l) && negb (in_flight completed s) then (upload_log l s, true) else (s, false).

(** [Surface::absorb_drained], and the slots uploaded to. *)
Definition absorb_drained (completed : nat) (s : Surface) : Surface * (bool * bool) :=
  let '(s1, u1) := absorb_slot completed (log s) (slots s).1 in
  let '(s2, u2) := absorb_slot completed (log s) (slots s).2 in
  (compact (mkSurface (s1, s2) (second s) (log s) (size s)), (u1, u2)).

(** The presentation state of [PaneWindow]; of the link, whether it is paused. *)
Record PaneWindow := mkWindow {
  surface : option Surface; pending_ack : option Z; dirty : bool; occluded : bool;
  idle_ticks : nat; paused : bool }.

Definition PaneWindow_new : PaneWindow := mkWindow None None false false 0 true.

(** [in_bounds] of [apply_frame]. *)
Definition in_bounds (w h : nat) (r : Rect) : bool :=
  bool_decide (0 < r_w r) && bool_decide (0 < r_h r) &&
  bool_decide (r_x r + r_w r ≤ w) && bool_decide (r_y r + r_h r ≤ h).

(** The bytes of a tile, when it decodes to the size of its rect. *)
Definition tile_bytes (t : Tile) : option bytes :=
  let expected := r_w (tl_rect t) * r_h (tl_rect t) * 4 in
  match tl_encoding t with
  | Raw => if decide (length (tl_payload t) = expected) then Some (tl_payload t) else None
  | Lz4 =>
      bytes ← decompress (tl_payload t) expected;
      if decide (length bytes = expected) then Some bytes else None
  end.

(** The loop over the tiles. *)
Definition push_tiles (w h : nat) (tiles : list Tile) (s : Surface) : Surface :=
  foldl (λ s t,
    if in_bounds w h (tl_rect t) then
      match tile_bytes t with Some bytes => push (tl_rect t) bytes s | None => s end
    else s) s tiles.

(** The area of the tiles in bounds. *)
Definition covered_area (w h : nat) (tiles : list Tile) : nat :=
  sum_list ((λ t, r_w (tl_rect t) * r_h (tl_rect t)) <$> filter (λ t, in_bounds w h (tl_rect t) = true) tiles).

(** The surface a frame of this size goes to, and whether it is fresh; none
    when the host cannot take the frame. *)
Definition surface_for (textures : option texture * option texture) (w h : nat) (win : PaneWindow) :
    option Surface * option (Surface * bool) :=
  if decide (w = 0 ∨ h = 0) then (surface win, None)
  else if decide (MAX_DIM < Z.of_nat w ∨ MAX_DIM < Z.of_nat h)%Z then (surface win, None)
  else
    match surface win with
    | Some s =>
        if decide (size s = mkSize w h) then (Some s, Some (s, false))
        else let s := Surface_new textures (mkSize w h) in (s, (λ s, (s, true)) <$> s)
    | None => let s := Surface_new textures (mkSize w h) in (s, (λ s, (s, true)) <$> s)
    end.

(** The damage of a frame entering the surface. *)
Definition ingest (fresh : bool) (w h : nat) (full : bool) (tiles : list Tile) (s : Surface) : Surface :=
  let s :=
    if (full || fresh) && bool_decide (covered_area w h tiles < w * h)
    then push (mkRect 0 0 w h) (replicate (w * h * 4) 0%Z) s else s in
  push_tiles w h tiles s.

(** [PaneWindow::apply_frame]. *)
Definition apply_frame (textures : option texture * option texture) (seq : Z) (w h : nat) (full : bool)
    (tiles : list Tile) (win : PaneWindow) : bool * PaneWindow :=
  match surface_for textures w h win with
  | (kept, None) => (false, mkWindow kept None false (occluded win) (idle_ticks win) (paused win))
  | (_, Some (s, fresh)) =>
      (true, mkWindow (Some (ingest fresh w h full tiles s)) (Some seq) true (occluded win) 0 false)
  end.

(** [PaneWindow::mark_dirty]. *)
Definition mark_dirty (win : PaneWindow) : PaneWindow :=
  match surface win with
  | Some _ => mkWindow (surface win) (pending_ack win) true (occluded win) 0 false
  | None => win
  end.

(** [PaneWindow::set_occluded]; the rate of the link is left out. *)
Definition set_occluded (o : bool) (win : PaneWindow) : PaneWindow :=
  let win := mkWindow (surface win) (pending_ack win) (dirty win) o (idle_ticks win) (paused win) in
  if o then win else mark_dirty win.

(** What a tick did besides changing the window: the texture drawn, the slots
    uploaded to, the draw's slot, and the ack to send. *)
Record Tick := mkTick {
  tk_drawn : option texture; tk_uploads : bool * bool; tk_ack : option Z }.

Definition quiet : Tick := mkTick None (false, false) None.

Definition get_slot (k : bool) (p : Slot * Slot) : Slot := if k then p.2 else p.1.
Definition set_slot (k : bool) (s : Slot) (p : Slot * Slot) : Slot * Slot := if k then (p.1, s) else (s, p.2).

(** [PaneWindow::present]: [completed] draws are done, the next one would get
    the number [draw], and [draws] says whether Metal gives a command buffer. *)
Definition present (completed draw : nat) (draws : bool) (win : PaneWindow) : Tick * PaneWindow :=
  if negb (dirty win) then
    let idle := S (idle_ticks win) in
    (quiet, mkWindow (surface win) (pending_ack win) false (occluded win) idle
      (if decide (IDLE_TICKS_TO_PAUSE ≤ idle) then true else paused win))
  else
    match surface win with
    | None => (quiet, win)
    | Some s =>
        if occluded win then
          let '(s, uploads) := absorb_drained completed s in
          (mkTick None uploads (pending_ack win), mkWindow (Some s) None false true 0 (paused win))
        else
          let index := if decide (absorbed (get_slot (second s) (slots s)) = length (log s)) then second s
            else negb (second s) in
          let slot := get_slot index (slots s) in
          let behind := negb (bool_decide (absorbed slot = length (log s))) in
          if behind && in_flight completed slot then (quiet, win)
          else
            let slot := if behind then upload_log (log s) slot else slot in
            let uploads := if behind then (negb index, index) else (false, false) in
            if draws then
              let slot := mkSlot (sl_texture slot) (absorbed slot) (Some draw) in
              (mkTick (Some (sl_texture slot)) uploads (pending_ack win),
               mkWindow (Some (compact (mkSurface (set_slot index slot (slots s)) index (log s) (size s))))
                 None false (occluded win) 0 (paused win))
            else
              (mkTick None uploads None,
               mkWindow (Some (mkSurface (set_slot index slot (slots s)) index (log s) (size s)))
                 (pending_ack win) true (occluded win) (idle_ticks win) (paused win))
    end.

End window.
