(* ===== verification/PanesSurfaceProps.v ===== *)
(** The double-buffered surface of [packages/panes/host/src/window.rs]: what a
    tick presents is the image the frames painted, uploads never touch a
    texture the GPU may still be reading, and no ack is withheld for good.
    The guest's frames reach that image: [frame.rs] of the compositor against
    [apply_frame] of the host's window, which is followed through what later
    frames depend on: its size and its image. *)

From stdpp Require Import base gmap sets list strings.
From S2P Require Import Prelude Chars McWire PanesProto PanesFrame PanesSurface PanesFrameProps.
Local Open Scope nat_scope.

(** * The image of a window *)

(** What the frames have painted; [None] where nothing was since the surface
    was made. *)
Definition Screen : Type := nat → nat → option bytes.

Definition blank : Screen := λ _ _, None.

Definition paint (r : Rect) (bs : bytes) (scr : Screen) : Screen := λ x y,
  if decide (inside r x y) then Some (px bs ((y - r_y r) * r_w r + (x - r_x r))) else scr x y.

Definition paint_all (l : list (Rect * bytes)) (scr : Screen) : Screen :=
  foldl (λ scr t, paint t.1 t.2 scr) scr l.

(** A size the host can present. *)
Definition presentable (w h : nat) : Prop := ¬ (w = 0 ∨ h = 0) ∧ ¬ (MAX_DIM < Z.of_nat w ∨ MAX_DIM < Z.of_nat h)%Z.
#[export] Instance presentable_dec w h : Decision (presentable w h).
Proof. unfold presentable. apply _. Defined.

Section screen.
Context `{Lz4Codec}.

(** The tiles of a frame the host accepts. *)
Definition accepted (w h : nat) (tiles : list Tile) : list (Rect * bytes) :=
  omap (λ t, if in_bounds w h (tl_rect t) then pair (tl_rect t) <$> tile_bytes t else None) tiles.

(** The image after a frame. *)
Definition screen_after (fresh full : bool) (w h : nat) (tiles : list Tile) (scr : Screen) : Screen :=
  let base := if fresh then blank else scr in
  let base :=
    if (full || fresh) && bool_decide (covered_area w h tiles < w * h)
    then paint (mkRect 0 0 w h) (replicate (w * h * 4) 0%Z) base else base in
  paint_all (accepted w h tiles) base.

End screen.

(** * Replaying the log *)

Definition replay (l : list PendingTile) (im : nat → nat → bytes) : nat → nat → bytes :=
  foldl (λ im t, blit (pt_rect t) (pt_bytes t) im) im l.

Lemma blit_ext r bs im im' x y : im x y = im' x y → blit r bs im x y = blit r bs im' x y.
Proof. unfold blit. by case_decide. Qed.

Lemma replay_ext l im im' x y : im x y = im' x y → replay l im x y = replay l im' x y.
Proof. revert im im'. induction l as [|t l IH]; intros im im' E; cbn; [done|]. apply IH. by apply blit_ext. Qed.

Lemma replay_app l1 l2 im : replay (l1 ++ l2) im = replay l2 (replay l1 im).
Proof. unfold replay. apply foldl_app. Qed.

(** A tile the host may upload to a surface of this size. *)
Definition tile_fits (sz : BufferSize) (t : PendingTile) : Prop :=
  in_bounds (bs_width sz) (bs_height sz) (pt_rect t) = true ∧
  length (pt_bytes t) = r_w (pt_rect t) * r_h (pt_rect t) * BYTES_PER_PIXEL.

Section surfaces.
Context `{MetalLaws} `{Lz4Codec}.

Definition slot_shows (sz : BufferSize) (l : list PendingTile) (scr : Screen) (s : Slot) : Prop :=
  absorbed s ≤ length l ∧
  ∀ x y p, x < bs_width sz → y < bs_height sz → scr x y = Some p →
    replay (drop (absorbed s) l) (texel (sl_texture s)) x y = p.

(** Either texture, with what it has not absorbed, shows the image. *)
Definition surface_shows (s : Surface) (scr : Screen) : Prop :=
  Forall (tile_fits (size s)) (log s) ∧
  slot_shows (size s) (log s) scr (slots s).1 ∧ slot_shows (size s) (log s) scr (slots s).2.

Lemma texel_upload l t x y sz : Forall (tile_fits sz) l →
  texel (foldl (λ t tile, replace_region t (pt_rect tile) (pt_bytes tile)) t l) x y = replay l (texel t) x y.
Proof.
  intros Hl. revert t. induction Hl as [|tile l [_ Hlen] _ IH]; intros t; cbn; [done|].
  rewrite IH. apply replay_ext. by apply texel_replace.
Qed.

Lemma slot_upload sz l scr s : Forall (tile_fits sz) l → slot_shows sz l scr s →
  slot_shows sz l scr (upload_log l s) ∧ absorbed (upload_log l s) = length l.
Proof.
  intros Hl [Ha Hs]. split; [|done]. split; [done|]. intros x y p Hx Hy Hp. cbn. rewrite drop_all. cbn.
  rewrite (texel_upload _ _ _ _ sz) by (by apply Forall_drop). by apply Hs.
Qed.

(** A texture that absorbed the whole log shows the image. *)
Lemma slot_texel sz l scr s x y p : slot_shows sz l scr s → absorbed s = length l →
  x < bs_width sz → y < bs_height sz → scr x y = Some p → texel (sl_texture s) x y = p.
Proof. intros [_ Hs] Ha Hx Hy Hp. specialize (Hs x y p Hx Hy Hp). by rewrite Ha, drop_all in Hs. Qed.

Lemma slot_push sz l scr s t : slot_shows sz l scr s →
  slot_shows sz (l ++ [t]) (paint (pt_rect t) (pt_bytes t) scr) s.
Proof.
  intros [Ha Hs]. split; [rewrite length_app; lia|]. intros x y p Hx Hy Hp.
  rewrite drop_app_le, replay_app by done. cbn. unfold paint, blit in *. case_decide; [by simplify_eq|]. by apply Hs.
Qed.

Lemma push_shows r bs s scr : surface_shows s scr → tile_fits (size s) (mkPending r bs) →
  surface_shows (push r bs s) (paint r bs scr).
Proof.
  intros (Hlog & Hs1 & Hs2) Hfits. unfold push. case_decide as Hfull; unfold surface_shows; cbn.
  - destruct Hfull as (Hx & Hy & Hw & Hh). split; [by constructor|].
    assert (∀ sl, slot_shows (size s) [mkPending r bs] (paint r bs scr) (with_absorbed sl 0)) as Hall; [|by split].
    intros sl. split; [cbn; lia|]. intros x y p Hlx Hly Hp. cbn. unfold paint, blit in *.
    rewrite decide_True in Hp by (unfold inside; lia). rewrite decide_True by (unfold inside; lia). by simplify_eq.
  - split; [by apply Forall_app_2; [|constructor]|]. split; by apply (slot_push _ _ _ _ (mkPending r bs)).
Qed.

Lemma push_size r bs s : size (push r bs s) = size s.
Proof. unfold push. by case_decide. Qed.

Lemma push_draws r bs s k : last_draw (get_slot k (slots (push r bs s))) = last_draw (get_slot k (slots s)).
Proof. unfold push. case_decide; by destruct k. Qed.

Lemma slot_drop sz l scr s n : n ≤ absorbed s → slot_shows sz l scr s →
  slot_shows sz (drop n l) scr (with_absorbed s (absorbed s - n)).
Proof.
  intros Hn [Ha Hs]. split; [cbn; rewrite length_drop; lia|]. intros x y p Hx Hy Hp. cbn.
  rewrite drop_drop. replace (n + (absorbed s - n)) with (absorbed s) by lia. by apply Hs.
Qed.

Lemma compact_shows s scr : surface_shows s scr → surface_shows (compact s) scr.
Proof.
  intros (Hlog & Hs1 & Hs2). unfold compact. case_decide; [|done]. split; [by apply Forall_drop|].
  cbn. split; apply slot_drop; lia || done.
Qed.

Lemma compact_size s : size (compact s) = size s.
Proof. unfold compact. by case_decide. Qed.

Lemma compact_draws s k : last_draw (get_slot k (slots (compact s))) = last_draw (get_slot k (slots s)).
Proof. unfold compact. case_decide; by destruct k. Qed.

Lemma tile_bytes_length t bs : tile_bytes t = Some bs →
  length bs = r_w (tl_rect t) * r_h (tl_rect t) * BYTES_PER_PIXEL.
Proof.
  unfold tile_bytes. destruct (tl_encoding t); [case_decide; intros; by simplify_eq|].
  intros (bs' & _ & Hbs)%bind_Some. case_decide; by simplify_eq.
Qed.

Lemma push_tiles_shows tiles s scr : surface_shows s scr →
  let s' := push_tiles (bs_width (size s)) (bs_height (size s)) tiles s in
  surface_shows s' (paint_all (accepted (bs_width (size s)) (bs_height (size s)) tiles) scr) ∧ size s' = size s ∧
  ∀ k, last_draw (get_slot k (slots s')) = last_draw (get_slot k (slots s)).
Proof.
  revert s scr. induction tiles as [|t tiles IH]; intros s scr Hs; cbn -[in_bounds]; [done|].
  destruct (in_bounds _ _ (tl_rect t)) eqn:Hin; [|by apply IH].
  destruct (tile_bytes t) as [bs|] eqn:Hbs; cbn -[in_bounds]; [|by apply IH].
  destruct (IH (push (tl_rect t) bs s) (paint (tl_rect t) bs scr)) as (HA & HB & HC).
  { apply push_shows; [done|]. split; [done|by apply tile_bytes_length]. }
  rewrite push_size in *. split_and!; [done..|]. intros k. by rewrite HC, push_draws.
Qed.

Lemma ingest_shows (fresh full : bool) w h tiles s scr : 0 < w → 0 < h → size s = mkSize w h →
  surface_shows s (if fresh then blank else scr) →
  surface_shows (ingest fresh w h full tiles s) (screen_after fresh full w h tiles scr) ∧
  size (ingest fresh w h full tiles s) = mkSize w h ∧
  ∀ k, last_draw (get_slot k (slots (ingest fresh w h full tiles s))) = last_draw (get_slot k (slots s)).
Proof.
  intros Hw Hh Hsz Hs. unfold ingest, screen_after. destruct (_ && _) eqn:Hclear.
  - destruct (push_tiles_shows tiles (push (mkRect 0 0 w h) (replicate (w * h * 4) 0%Z) s)
      (paint (mkRect 0 0 w h) (replicate (w * h * 4) 0%Z) (if fresh then blank else scr))) as (HA & HB & HC).
    { apply push_shows; [done|]. rewrite Hsz. split; cbn; [|by rewrite length_replicate].
      unfold in_bounds. cbn. by rewrite !bool_decide_eq_true_2 by lia. }
    rewrite push_size, Hsz in *. split_and!; [done..|]. intros k. by rewrite HC, push_draws.
  - destruct (push_tiles_shows tiles s (if fresh then blank else scr)) as (HA & HB & HC); [done|].
    rewrite Hsz in *. by split_and!.
Qed.

Lemma Surface_new_shows (textures : option texture * option texture) sz s : Surface_new textures sz = Some s →
  surface_shows s blank ∧ size s = sz ∧ ∀ k, last_draw (get_slot k (slots s)) = None.
Proof.
  unfold Surface_new. intros (t1 & _ & (t2 & _ & [= <-])%bind_Some)%bind_Some. unfold surface_shows, slot_shows. cbn.
  split_and!; [constructor|lia|done|lia|done|done|by intros []].
Qed.

Lemma surface_for_spec (textures : option texture * option texture) w h win kept s (fresh : bool) : surface_for textures w h win = (kept, Some (s, fresh)) →
  0 < w ∧ 0 < h ∧
  if fresh then Surface_new textures (mkSize w h) = Some s
  else surface win = Some s ∧ size s = mkSize w h.
Proof.
  unfold surface_for. case_decide; [done|]. case_decide; [done|].
  assert (0 < w ∧ 0 < h) as [Hw Hh] by lia.
  destruct (surface win) as [s0|]; [case_decide|].
  - intros [= <- <- <-]. done.
  - destruct (Surface_new _ _); [|done]. intros [= <- <- <-]. done.
  - destruct (Surface_new _ _); [|done]. intros [= <- <- <-]. done.
Qed.

End surfaces.

(** * The host's window as a system *)

Section host.
Context `{MetalLaws} `{Lz4Codec}.

(** The window; the draws the GPU has completed and those committed; how many
    surfaces there have been; which slot of which surface each draw samples;
    and the image the frames have painted. *)
Record Host := mkHost {
  win : PaneWindow; completed : nat; committed : nat; generation : nat;
  sampled : list (nat * nat * bool); screen : Screen }.

Definition host_start : Host := mkHost PaneWindow_new 0 0 0 [] blank.

(** A frame from the guest. *)
Definition on_frame (textures : option texture * option texture) (seq : Z) (w h : nat) (full : bool)
    (tiles : list Tile) (s : Host) : Host :=
  let '(gen, scr) :=
    match (surface_for textures w h (win s)).2 with
    | Some (_, fresh) =>
        (if fresh : bool then S (generation s) else generation s, screen_after fresh full w h tiles (screen s))
    | None => (generation s, screen s)
    end in
  mkHost (apply_frame textures seq w h full tiles (win s)).2 (completed s) (committed s) gen (sampled s) scr.

Definition tick_of (draws : bool) (s : Host) : Tick * PaneWindow := present (completed s) (committed s) draws (win s).

(** The slot a tick has drawn is the current one. *)
Definition drawn_slot (w : PaneWindow) : bool := from_option second false (surface w).

(** A tick of the display link. *)
Definition on_tick (draws : bool) (s : Host) : Host :=
  let '(tk, w) := tick_of draws s in
  match tk_drawn tk with
  | Some _ => mkHost w (completed s) (S (committed s)) (generation s)
      ((committed s, generation s, drawn_slot w) :: sampled s) (screen s)
  | None => mkHost w (completed s) (committed s) (generation s) (sampled s) (screen s)
  end.

Definition with_win (w : PaneWindow) (s : Host) : Host :=
  mkHost w (completed s) (committed s) (generation s) (sampled s) (screen s).

Inductive host_step : Host → Host → Prop :=
| host_frame s textures seq w h full tiles : host_step s (on_frame textures seq w h full tiles s)
| host_tick s draws : host_step s (on_tick draws s)
| host_occluded s o : host_step s (with_win (set_occluded o (win s)) s)
| host_dirty s : host_step s (with_win (mark_dirty (win s)) s)
| host_gpu s n : completed s ≤ n ≤ committed s →
    host_step s (mkHost (win s) n (committed s) (generation s) (sampled s) (screen s)).

Inductive host_reachable : Host → Prop :=
| host_init : host_reachable host_start
| host_next s s' : host_reachable s → host_step s s' → host_reachable s'.

(** * Its invariant *)

(** The draws that sample this surface are accounted for by its slots. *)
Definition draws_tracked (s : Host) (sf : Surface) : Prop :=
  (∀ d k, (d, generation s, k) ∈ sampled s → ∃ d', last_draw (get_slot k (slots sf)) = Some d' ∧ d ≤ d') ∧
  (∀ k d, last_draw (get_slot k (slots sf)) = Some d → d < committed s).

Definition host_inv (s : Host) : Prop :=
  completed s ≤ committed s ∧
  (∀ d g k, (d, g, k) ∈ sampled s → g ≤ generation s) ∧
  (∀ sf, surface (win s) = Some sf → surface_shows sf (screen s) ∧ draws_tracked s sf) ∧
  (pending_ack (win s) ≠ None → dirty (win s) = true ∧ surface (win s) ≠ None ∧ paused (win s) = false).

Lemma tracked_draws s s' sf sf' : draws_tracked s sf → generation s' = generation s → sampled s' = sampled s →
  committed s' = committed s → (∀ k, last_draw (get_slot k (slots sf')) = last_draw (get_slot k (slots sf))) →
  draws_tracked s' sf'.
Proof.
  intros [Hd Hc] Hg Hs Hcm Hk. unfold draws_tracked. rewrite Hg, Hs, Hcm. split.
  - intros d k Hin. rewrite Hk. by apply Hd.
  - intros k d. rewrite Hk. by apply Hc.
Qed.

Lemma inv_frame s textures seq w h full tiles : host_inv s → host_inv (on_frame textures seq w h full tiles s).
Proof.
  intros (Hcomp & Hgen & Hsf & Hack). unfold on_frame, apply_frame.
  destruct (surface_for textures w h (win s)) as [kept [[sf fresh]|]] eqn:Hfor; cbn [snd].
  - apply surface_for_spec in Hfor as (Hw & Hh & Hfor).
    assert (size sf = mkSize w h ∧ surface_shows sf (if fresh then blank else screen s)) as [Hsz Hshows].
    { destruct fresh; [|by destruct Hfor as [Hs%Hsf ?]; split; [|apply Hs]]. by apply Surface_new_shows in Hfor as (? & ? & _). }
    destruct (ingest_shows fresh full w h tiles sf (screen s) Hw Hh Hsz Hshows) as (Hsh & Hsize & Hdr).
    split_and!; cbn; try done.
    + intros d g k Hin. specialize (Hgen d g k Hin). destruct fresh; lia.
    + intros sf' [= <-]. split; [done|]. destruct fresh.
      * apply Surface_new_shows in Hfor as (_ & _ & Hnone). split; cbn.
        -- intros d k Hin. specialize (Hgen _ _ _ Hin). lia.
        -- intros k d. by rewrite Hdr, Hnone.
      * destruct Hfor as [Hfor _]. apply Hsf in Hfor as [_ Htr]. by eapply tracked_draws.
  - split_and!; cbn; try done. intros sf ->. apply Hsf.
    unfold surface_for in Hfor. repeat case_decide; simplify_eq; [done..|].
    destruct (surface (win s)) as [sf0|] eqn:Hs; [case_decide; [done|]|]; destruct (Surface_new _ _); cbn in Hfor; by simplify_eq.
Qed.

Lemma absorb_slot_spec sz l scr c sl : Forall (tile_fits sz) l → slot_shows sz l scr sl →
  slot_shows sz l scr (absorb_slot c l sl).1 ∧ last_draw (absorb_slot c l sl).1 = last_draw sl ∧
  ((absorb_slot c l sl).2 = true → in_flight c sl = false).
Proof.
  intros Hl Hs. unfold absorb_slot. destruct (_ && _) eqn:Hc; cbn; [|done].
  apply andb_true_iff in Hc as [_ Hc%negb_true_iff]. split; [by apply slot_upload|done].
Qed.

Lemma absorb_drained_spec c sf scr : surface_shows sf scr →
  let '(sf', u) := absorb_drained c sf in
  surface_shows sf' scr ∧ size sf' = size sf ∧
  (∀ k, last_draw (get_slot k (slots sf')) = last_draw (get_slot k (slots sf))) ∧
  (∀ k : bool, (if k then u.2 else u.1) = true → in_flight c (get_slot k (slots sf)) = false).
Proof.
  intros (Hl & Hs1 & Hs2). unfold absorb_drained.
  destruct (absorb_slot_spec _ _ _ c _ Hl Hs1) as (HA1 & HA2 & HA3).
  destruct (absorb_slot_spec _ _ _ c _ Hl Hs2) as (HB1 & HB2 & HB3).
  destruct (absorb_slot c (log sf) (slots sf).1) as [s1 u1], (absorb_slot c (log sf) (slots sf).2) as [s2 u2].
  cbn in HA1, HA2, HA3, HB1, HB2, HB3. split_and!.
  - by apply compact_shows.
  - by rewrite compact_size.
  - intros k. rewrite compact_draws. by destruct k.
  - by intros [].
Qed.

(** No draw that the GPU has not completed samples the slot. *)
Definition slot_free (s : Host) (k : bool) : Prop :=
  ∀ d, (d, generation s, k) ∈ sampled s → d < completed s.

Lemma not_in_flight_free s sf k : draws_tracked s sf → in_flight (completed s) (get_slot k (slots sf)) = false →
  slot_free s k.
Proof.
  intros [Hd _] Hfl d Hin. destruct (Hd d k Hin) as (d' & Hd' & Hle). unfold in_flight in Hfl. rewrite Hd' in Hfl.
  apply bool_decide_eq_false in Hfl. lia.
Qed.

Definition uploads_safe (s : Host) (u : bool * bool) : Prop := (u.1 = true → slot_free s false) ∧ (u.2 = true → slot_free s true).

(** The texture shows the image wherever it was painted. *)
Definition texture_shows (sz : BufferSize) (scr : Screen) (t : texture) : Prop :=
  ∀ x y p, x < bs_width sz → y < bs_height sz → scr x y = Some p → texel t x y = p.

Definition surface_size (w : PaneWindow) : BufferSize := from_option size (mkSize 0 0) (surface w).

Lemma get_set_slot k j sl p : get_slot j (set_slot k sl p) = if decide (j = k) then sl else get_slot j p.
Proof. by destruct k, j. Qed.

Lemma set_slot_shows sz l scr k sl p : slot_shows sz l scr sl →
  slot_shows sz l scr p.1 → slot_shows sz l scr p.2 →
  slot_shows sz l scr (set_slot k sl p).1 ∧ slot_shows sz l scr (set_slot k sl p).2.
Proof. by destruct k. Qed.

Lemma get_slot_shows sz l scr k p : slot_shows sz l scr p.1 → slot_shows sz l scr p.2 → slot_shows sz l scr (get_slot k p).
Proof. by destruct k. Qed.

Lemma tracked_present s s' sf sl k : draws_tracked s sf → generation s' = generation s →
  sampled s' = (committed s, generation s, k) :: sampled s → committed s' = S (committed s) →
  last_draw sl = Some (committed s) →
  ∀ sf', (∀ j, last_draw (get_slot j (slots sf')) = last_draw (get_slot j (set_slot k sl (slots sf)))) →
  draws_tracked s' sf'.
Proof.
  intros [Hd Hc] Hg Hs Hcm Hsl sf' Hk. unfold draws_tracked. rewrite Hg, Hs, Hcm. split.
  - intros d j [Heq|Hin]%elem_of_cons; rewrite Hk, get_set_slot.
    + simplify_eq. rewrite decide_True by done. eauto.
    + destruct (Hd d j Hin) as (d' & Hd' & Hle). case_decide; [|eauto]. exists (committed s). split; [done|].
      apply Hc in Hd'. lia.
  - intros j d. rewrite Hk, get_set_slot. case_decide; [rewrite Hsl; intros [= <-]; lia|]. intros ?%Hc. lia.
Qed.

(** What a tick does, and that it keeps the invariant. *)
Lemma tick_spec s draws : host_inv s →
  host_inv (on_tick draws s) ∧
  let '(tk, w) := tick_of draws s in
  uploads_safe s (tk_uploads tk) ∧
  (∀ t, tk_drawn tk = Some t → texture_shows (surface_size (win s)) (screen s) t) ∧
  (tk_ack tk ≠ None → tk_ack tk = pending_ack (win s) ∧ pending_ack w = None ∧
    (tk_drawn tk ≠ None ∨ occluded (win s) = true)) ∧
  (pending_ack (win s) ≠ None → occluded (win s) = true ∨ (draws = true ∧ completed s = committed s) →
    tk_ack tk = pending_ack (win s)).
Proof.
  intros Hinv. pose proof Hinv as (Hcomp & Hgen & Hsf & Hack). unfold on_tick, tick_of, present.
  destruct (dirty (win s)) eqn:Hdirty; cbn [negb].
  2: { split; [split_and!; try done|split_and!; try done].
       - intros Hp. by destruct (Hack Hp).
       - intros Hp. by destruct (Hack Hp). }
  destruct (surface (win s)) as [sf|] eqn:Hsurf.
  2: { split; [exact Hinv|split_and!; try done]. intros Hp. by destruct (Hack Hp) as (_ & ? & _). }
  destruct (Hsf sf eq_refl) as [Hsh Htr]. pose proof Hsh as (Hl & Hs1 & Hs2).
  destruct (occluded (win s)) eqn:Hocc.
  { pose proof (absorb_drained_spec (completed s) sf (screen s) Hsh) as Habs.
    destruct (absorb_drained (completed s) sf) as [sf' u]. destruct Habs as (HA & HB & HC & HD). cbn.
    split; [split_and!; cbn; try done|].
    - intros sf2 [= <-]. split; [done|]. by eapply tracked_draws.
    - split; [split; intros Hu|split; [done|split; [intros _; split_and!; auto|auto]]].
      + apply (not_in_flight_free s sf); [done|by apply (HD false)].
      + apply (not_in_flight_free s sf); [done|by apply (HD true)]. }
  set (index := if decide _ then second sf else negb (second sf)).
  set (slot := get_slot index (slots sf)).
  assert (slot_shows (size sf) (log sf) (screen s) slot) as Hslot by (by apply get_slot_shows).
  destruct (negb (bool_decide (absorbed slot = length (log sf))) && in_flight (completed s) slot) eqn:Hbusy.
  { split; [exact Hinv|split_and!; try done].
    intros Hp [|[_ Hall]]; [done|]. apply andb_true_iff in Hbusy as [_ Hbusy]. unfold in_flight in Hbusy.
    destruct (last_draw slot) as [d|] eqn:Hd; [|done]. apply bool_decide_eq_true in Hbusy.
    destruct Htr as [_ Hc]. apply Hc in Hd. lia. }
  set (behind := negb (bool_decide (absorbed slot = length (log sf)))) in *.
  set (slot' := if behind then upload_log (log sf) slot else slot).
  assert (slot_shows (size sf) (log sf) (screen s) slot' ∧ absorbed slot' = length (log sf) ∧
    last_draw slot' = last_draw slot) as (Hslot' & Habs & Hld).
  { unfold slot', behind. case_bool_decide; cbn; [done|]. by destruct (slot_upload _ _ _ _ Hl Hslot). }
  assert (uploads_safe s (if behind then (negb index, index) else (false, false))) as Hup.
  { destruct behind; [|done]. cbn in Hbusy. split; cbn; intros Hi; apply (not_in_flight_free s sf); auto;
      by destruct index. }
  destruct draws; cbn [tk_drawn tk_uploads tk_ack].
  - split.
    + split_and!; cbn.
      * lia.
      * intros d g k [Heq|Hin]%elem_of_cons; [by simplify_eq|by eapply Hgen].
      * intros sf' [= <-]. split.
        -- apply compact_shows. split; [done|]. cbn. by apply set_slot_shows.
        -- eapply (tracked_present s _ sf (mkSlot (sl_texture slot') (absorbed slot') (Some (committed s))) index Htr); cbn; try done.
           ++ unfold drawn_slot. cbn. unfold compact. by case_decide.
           ++ intros j. by rewrite compact_draws.
      * done.
    + split_and!; [done| | |done].
      * intros t [= <-] x y p Hx Hy Hp. unfold surface_size in Hx, Hy. rewrite Hsurf in Hx, Hy. cbn in Hx, Hy.
        by eapply slot_texel.
      * intros _. split_and!; [done..|by left].
  - split.
    + split_and!; cbn; try done.
      * intros sf' [= <-]. split; [split; [done|]; cbn; by apply set_slot_shows|].
        eapply tracked_draws; [done..|]. intros j. cbn. rewrite get_set_slot. case_decide; [subst; by rewrite Hld|done].
      * intros Hp. by destruct (Hack Hp) as (_ & _ & ?).
    + split_and!; try done. intros Hp [|[? _]]; done.
Qed.

Lemma host_reachable_inv s : host_reachable s → host_inv s.
Proof.
  induction 1 as [|s s' _ IH Hstep].
  { split_and!; cbn; try done. intros d g k Hin. by apply not_elem_of_nil in Hin. }
  destruct Hstep as [s textures seq w h full tiles|s draws|s o|s|s n Hn].
  - by apply inv_frame.
  - by apply tick_spec.
  - destruct IH as (Hcomp & Hgen & Hsf & Hack). unfold set_occluded, mark_dirty. destruct o; cbn; [by split_and!|].
    destruct (surface (win s)) eqn:Hs; split_and!; cbn; rewrite ?Hs; done.
  - destruct IH as (Hcomp & Hgen & Hsf & Hack). unfold mark_dirty.
    destruct (surface (win s)) eqn:Hs; split_and!; cbn; rewrite ?Hs; done.
  - destruct IH as (Hcomp & Hgen & Hsf & Hack). split_and!; cbn; try done. lia.
Qed.
(** ** Acks *)

(** A frame is taken when it has a size the host can present and there are
    textures of this size, the window's or new ones. *)
Definition can_take (textures : option texture * option texture) (w h : nat) (win : PaneWindow) : Prop :=
  presentable w h ∧ (size <$> surface win = Some (mkSize w h) ∨ is_Some textures.1 ∧ is_Some textures.2).

Lemma surface_for_takes (textures : option texture * option texture) w h win :
  is_Some (surface_for textures w h win).2 ↔ can_take textures w h win.
Proof.
  unfold surface_for, can_take, presentable.
  case_decide as Hz; cbn; [split; [by intros []|tauto]|]. case_decide as Hm; cbn; [split; [by intros []|tauto]|].
  assert (is_Some ((λ s, (s, true)) <$> Surface_new textures (mkSize w h)) ↔ is_Some textures.1 ∧ is_Some textures.2) as Hnew.
  { unfold Surface_new. destruct textures as [[t1|] [t2|]]; cbn; split; try done; by intros [[] []]. }
  destruct (surface win) as [s|]; cbn; [case_decide as Hs; cbn|].
  - split; [intros _; split; [done|left; by rewrite Hs]|by eauto].
  - rewrite Hnew. naive_solver.
  - rewrite Hnew. naive_solver.
Qed.

Lemma apply_frame_acks (textures : option texture * option texture) seq w h full tiles win :
  let '(taken, win') := apply_frame textures seq w h full tiles win in
  (taken = true ↔ can_take textures w h win) ∧ pending_ack win' = (if taken then Some seq else None) ∧
  (taken = true → dirty win' = true ∧ paused win' = false).
Proof.
  unfold apply_frame. pose proof (surface_for_takes textures w h win) as Ht.
  destruct (surface_for textures w h win) as [kept [[sf fresh]|]]; cbn [snd] in Ht |- *.
  - split_and!; [|done..]. rewrite <- Ht. split; [by eauto|done].
  - split_and!; [|done..]. rewrite <- Ht. split; [done|by intros []].
Qed.

(** A tick that sends no ack keeps the one that is pending. *)
Lemma present_keeps_ack c d draws win :
  tk_ack (present c d draws win).1 = None → pending_ack (present c d draws win).2 = pending_ack win.
Proof.
  unfold present. destruct (dirty win); cbn [negb]; [|done]. destruct (surface win) as [sf|]; [|done].
  destruct (occluded win); [by destruct (absorb_drained c sf)|].
  destruct (_ && in_flight _ _); [done|]. by destruct draws.
Qed.

Lemma mark_dirty_keeps_ack win : pending_ack (mark_dirty win) = pending_ack win.
Proof. unfold mark_dirty. by destruct (surface win) eqn:Hs. Qed.

Lemma set_occluded_keeps_ack o win : pending_ack (set_occluded o win) = pending_ack win.
Proof. unfold set_occluded. destruct o; [done|]. by rewrite mark_dirty_keeps_ack. Qed.
End host.

(** C24. The double-buffered surface.  In every reachable state of a window,
    whatever frames came, however the ticks, the occlusion and the GPU
    interleaved: a texture that a tick presents shows the image the frames
    painted; a tick uploads to a texture only when every draw that samples it
    is done (no tearing).  A frame is taken exactly when its size is presentable
    (not empty, at most 16384 each way) and the window has a surface of this size
    or Metal makes two textures; then its ack is pending and the link ticks, and
    otherwise none is pending, since the caller acks it at once.  A pending ack is
    kept by ticks that send none, by occlusion and by redraws; a tick sends only
    the pending ack, and only when it presents or nobody sees the window; and the
    next tick of a covered window, or of one whose draws are done (and Metal
    gives a command buffer), does send it. *)
Theorem surface_correct `{ML : MetalLaws} `{LC : Lz4Codec} (s : Host) draws : host_reachable s →
  let '(tk, w) := tick_of draws s in
  (∀ t, tk_drawn tk = Some t → texture_shows (surface_size (win s)) (screen s) t) ∧
  ((tk_uploads tk).1 = true → slot_free s false) ∧ ((tk_uploads tk).2 = true → slot_free s true) ∧
  (∀ textures seq wd h full tiles,
    let '(taken, w') := apply_frame textures seq wd h full tiles (win s) in
    (taken = true ↔ can_take textures wd h (win s)) ∧ pending_ack w' = (if taken then Some seq else None) ∧
    (taken = true → dirty w' = true ∧ paused w' = false)) ∧
  (∀ o, pending_ack (set_occluded o (win s)) = pending_ack (win s)) ∧
  pending_ack (mark_dirty (win s)) = pending_ack (win s) ∧
  (tk_ack tk = None → pending_ack w = pending_ack (win s)) ∧
  (tk_ack tk ≠ None → tk_ack tk = pending_ack (win s) ∧ pending_ack w = None ∧
    (tk_drawn tk ≠ None ∨ occluded (win s) = true)) ∧
  (pending_ack (win s) ≠ None → paused (win s) = false ∧
    (occluded (win s) = true ∨ (draws = true ∧ completed s = committed s) → tk_ack tk = pending_ack (win s))).
Proof.
  intros Hinv%host_reachable_inv. pose proof Hinv as (_ & _ & _ & Hack).
  destruct (tick_spec s draws Hinv) as (_ & Htick).
  pose proof (present_keeps_ack (completed s) (committed s) draws (win s)) as Hkeep. fold (tick_of draws s) in Hkeep.
  destruct (tick_of draws s) as [tk w]. destruct Htick as ([Hu1 Hu2] & Hdrawn & Hacks & Hreleased).
  split_and!; try done.
  - intros textures seq wd h full tiles. apply apply_frame_acks.
  - intros o. apply set_occluded_keeps_ack.
  - apply mark_dirty_keeps_ack.
  - intros Hp. split; [by apply Hack|by apply Hreleased].
Qed.

(** * A tile that does not decode *)

(** A full frame promises that the host discards what it held, but a tile in
    bounds that does not decode counts as covering its area: when the only tile
    of a full frame is of this kind, the window keeps showing its old image, and
    acknowledges the frame. *)
Lemma undecodable_tile_keeps_image `{ML : MetalLaws} `{LC : Lz4Codec} (s : Host) textures sf seq w h tile :
  surface (win s) = Some sf → size sf = mkSize w h → 0 < w → 0 < h →
  (Z.of_nat w ≤ MAX_DIM)%Z → (Z.of_nat h ≤ MAX_DIM)%Z →
  tl_rect tile = mkRect 0 0 w h → tile_bytes tile = None →
  let s' := on_frame textures seq w h true [tile] s in
  screen s' = screen s ∧ surface (win s') = Some sf ∧ pending_ack (win s') = Some seq.
Proof.
  intros Hsf Hsz Hw Hh Hmw Hmh Hrect Hbad.
  assert (in_bounds w h (tl_rect tile) = true) as Hin.
  { rewrite Hrect. unfold in_bounds. cbn. by rewrite !bool_decide_eq_true_2 by lia. }
  assert (covered_area w h [tile] = w * h) as Hcov.
  { unfold covered_area. rewrite filter_cons_True by done. cbn. rewrite Hrect. cbn. lia. }
  cbn zeta. unfold on_frame, apply_frame, surface_for. rewrite !decide_False by lia. rewrite Hsf, decide_True by done.
  cbn [snd fst]. unfold screen_after, ingest. rewrite Hcov, bool_decide_eq_false_2 by lia. rewrite andb_false_r.
  unfold accepted, push_tiles. cbn -[in_bounds]. rewrite Hin, Hbad. done.
Qed.

(** * Witness *)

(** Textures as functions, and a codec that does not compress. *)
Definition demo_metal : Metal := {|
  texture := nat → nat → bytes; replace_region t r bs := blit r bs t; texel t := t |}.
Lemma demo_metal_laws : @MetalLaws demo_metal.
Proof. done. Qed.
Definition demo_lz4 : Lz4Codec := {|
  compress raw := raw; decompress bs n := if decide (length bs ≤ n) then Some bs else None |}.
Lemma demo_lz4_laws : @Lz4Laws demo_lz4.
Proof. intros raw. cbn. by rewrite decide_True. Qed.

Definition demo_host : @Host demo_metal :=
  @on_frame demo_metal demo_lz4 (Some (λ _ _, []), Some (λ _ _, [])) 1 2 1 true
    [mkTile (mkRect 0 0 2 1) Raw [1; 2; 3; 4; 5; 6; 7; 8]%Z] (@host_start demo_metal).

Lemma demo_host_reachable : @host_reachable demo_metal demo_lz4 demo_host.
Proof. eapply host_next; [apply host_init|apply host_frame]. Qed.

Lemma surface_correct_witness : ∃ t,
  tk_drawn (@tick_of demo_metal true demo_host).1 = Some t ∧ texel t 1 0 = [5; 6; 7; 8]%Z ∧
  tk_ack (@tick_of demo_metal true demo_host).1 = Some 1%Z.
Proof.
  pose proof (surface_correct (ML := demo_metal_laws) (LC := demo_lz4) demo_host true demo_host_reachable) as Hc.
  destruct (tick_of true demo_host) as [tk w] eqn:Htick. destruct Hc as (Hdrawn & _ & _ & _ & _ & _ & _ & _ & Hrel).
  pose proof (f_equal fst Htick) as Htk. cbn [fst] in *. subst tk. eexists. split; [done|]. split.
  - apply (Hdrawn _ eq_refl); [vm_compute; lia..|by vm_compute].
  - by apply Hrel; [|right].
Defined.

Definition pixel (p : Pixels) (x y : nat) : bytes := px (px_data p) (y * px_width p + x).

(** The size of a window's surface, if it has one, and its image. *)
Definition View : Type := option BufferSize * Screen.

Definition dims (p : Pixels) : BufferSize := mkSize (px_width p) (px_height p).

Section mirror.
Context `{Lz4Laws}.

(** A message from the guest, seen from the window [id]. *)
Definition view_step (id : WindowId) (v : option View) (msg : ToHost) : option View :=
  match msg with
  | WindowNew i _ _ _ _ _ => if decide (i = id) then match v with Some _ => v | None => Some (None, blank) end else v
  | WindowGone i => if decide (i = id) then None else v
  | WindowFrame i _ w h full tiles =>
      if decide (i = id) then
        match v with
        | Some (sz, scr) =>
            if decide (presentable w h) then
              Some (Some (mkSize w h), screen_after (bool_decide (sz ≠ Some (mkSize w h))) full w h tiles scr)
            else v
        | None => None
        end
      else v
  | _ => v
  end.

(** The window shows these pixels. *)
Definition view_shows (v : View) (p : Pixels) : Prop :=
  v.1 = Some (dims p) ∧ ∀ x y, x < px_width p → y < px_height p → v.2 x y = Some (pixel p x y).

(** The window shows what the guest's mirror says, if that is presentable. *)
Definition view_mirrors (v : option View) (held : option Pixels) : Prop :=
  ∀ m, held = Some m → presentable (px_width m) (px_height m) → ∃ w, v = Some w ∧ view_shows w m.

(** * Painting consistent tiles *)

Lemma paint_all_spec (l : list (Rect * bytes)) (scr : Screen) (target : nat → nat → bytes) x y :
  (∀ t, t ∈ l → inside t.1 x y → px t.2 ((y - r_y t.1) * r_w t.1 + (x - r_x t.1)) = target x y) →
  (scr x y = Some (target x y) ∨ ∃ t, t ∈ l ∧ inside t.1 x y) →
  paint_all l scr x y = Some (target x y).
Proof.
  unfold paint_all. revert scr. induction l as [|t l IH]; intros scr Hok Hcov; cbn.
  { destruct Hcov as [|(t & Ht & _)]; [done|]. by apply not_elem_of_nil in Ht. }
  apply IH; [intros; apply Hok; [by right|done]|]. unfold paint. case_decide as Hin.
  - left. f_equal. apply Hok; [by left|done].
  - destruct Hcov as [|(t' & [->|Ht']%elem_of_cons & Hin')]; [by left|done|right; eauto].
Qed.

(** A pixel of a band is the pixel of the frame. *)
Lemma band_pixel cur r x y : pixels_wf cur → band (px_width cur) (px_height cur) r → inside r x y →
  px (band_rows (px_data cur) (px_width cur) r) ((y - r_y r) * r_w r + (x - r_x r)) = pixel cur x y.
Proof.
  intros Hwf (Hx & Hw & Hh & Hin) [Hxi Hyi]. rewrite Hx, Hw, Nat.sub_0_r in *. unfold pixel, px, band_rows, BYTES_PER_PIXEL in *.
  apply list_eq. intros k. rewrite !lookup_slice. case_decide; [|done].
  rewrite decide_True by nia. f_equal. nia.
Qed.

Lemma same_row_pixel m cur x y : pixels_wf m → pixels_wf cur → px_width m = px_width cur →
  px_height m = px_height cur → x < px_width cur → y < px_height cur →
  same_row (px_width cur) (px_data m) (px_data cur) y → pixel m x y = pixel cur x y.
Proof.
  intros Hm Hc Hw Hh Hx Hy Hrow. unfold pixel, px, BYTES_PER_PIXEL. rewrite Hw.
  apply list_eq. intros k. rewrite !lookup_slice. case_decide; [|done].
  apply (f_equal (.!! (4 * x + k))) in Hrow. rewrite !lookup_slice in Hrow.
  rewrite !decide_True in Hrow by (unfold BYTES_PER_PIXEL; nia). unfold BYTES_PER_PIXEL in Hrow.
  by replace (4 * (y * px_width cur + x) + k) with (y * (px_width cur * 4) + (4 * x + k)) by nia.
Qed.

Lemma band_in_bounds cur r : 0 < px_width cur → band (px_width cur) (px_height cur) r →
  in_bounds (px_width cur) (px_height cur) r = true.
Proof.
  intros Hw (Hx & Hrw & Hh & Hin). unfold in_bounds. by rewrite !bool_decide_eq_true_2 by lia.
Qed.

Lemma decoded_bytes t bs : decoded t = Some bs → length bs = r_w (tl_rect t) * r_h (tl_rect t) * BYTES_PER_PIXEL →
  tile_bytes t = Some bs.
Proof.
  unfold decoded, tile_bytes, BYTES_PER_PIXEL. destruct (tl_encoding t).
  - intros [= <-] Hlen. by rewrite decide_True.
  - intros -> Hlen. cbn. by rewrite decide_True.
Qed.

(** The host accepts every tile of a frame. *)
Lemma frame_accepted held cur f : pixels_wf cur → 0 < px_width cur → carries held cur f →
  accepted (px_width cur) (px_height cur) (ef_tiles f) =
    (λ t, (tl_rect t, band_rows (px_data cur) (px_width cur) (tl_rect t))) <$> ef_tiles f.
Proof.
  intros Hwf Hw (_ & _ & Htiles & _). unfold accepted. induction Htiles as [|t ts [Hband Hdec] _ IH]; cbn; [done|].
  rewrite band_in_bounds by done.
  rewrite (decoded_bytes t _ Hdec) by (eapply length_band_rows; [apply Hwf|done]). cbn. by rewrite IH.
Qed.

(** * A frame of the guest brings the window to its pixels *)

Lemma view_frame v held cur f id seq : pixels_wf cur → (∀ m, held = Some m → pixels_wf m) →
  v ≠ None → view_mirrors v held → carries held cur f →
  let v' := view_step id v (WindowFrame id seq (ef_width f) (ef_height f) (ef_full f) (ef_tiles f)) in
  v' ≠ None ∧ view_mirrors v' (Some cur).
Proof.
  intros Hwf Hheld Hv Hmir Hcar. destruct v as [[sz scr]|]; [|done]. pose proof Hcar as (Hfw & Hfh & Htiles & Hcov).
  cbn [view_step]. rewrite decide_True by done. rewrite Hfw, Hfh. case_decide as Hok; [split; [done|]|].
  2: { split; [done|]. intros m [= <-] Hp. done. }
  intros m [= <-] _. eexists. split; [done|]. split; [done|]. cbn [snd]. intros x y Hx Hy.
  assert (0 < px_width cur) as Hw by lia.
  unfold screen_after. rewrite (frame_accepted held cur f) by done.
  rewrite Forall_forall in Htiles. apply paint_all_spec.
  { intros t' Ht' Hin. apply list_elem_of_fmap in Ht' as (t & -> & Ht). cbn in *.
    destruct (Htiles t Ht) as [Hband _]. by apply band_pixel. }
  assert (∀ row, row < px_height cur → (∃ t, t ∈ ef_tiles f ∧ covers_row (tl_rect t) row) → row = y →
    ∃ t, t ∈ (λ t, (tl_rect t, band_rows (px_data cur) (px_width cur) (tl_rect t))) <$> ef_tiles f ∧ inside t.1 x y) as Hcover.
  { intros row Hrow (t & Ht & Hc) ->. eexists. split; [by apply list_elem_of_fmap_2|]. cbn.
    destruct (Htiles t Ht) as [(Hrx & Hrw & _) _]. unfold inside, covers_row in *. lia. }
  destruct (ef_full f) eqn:Hfull.
  - right. destruct Hcov as [Hrows _]. by eapply Hcover; [|apply Hrows|].
  - destruct Hcov as (m & Hm & Hmw & Hmh & Hrows).
    destruct (Hmir m Hm) as ([sz' scr'] & [= <- <-] & Hsz & Hscr); [by rewrite Hmw, Hmh|]. cbn in Hsz, Hscr.
    assert (sz = Some (mkSize (px_width cur) (px_height cur))) as Hszc by (rewrite Hsz; unfold dims; by rewrite Hmw, Hmh).
    rewrite bool_decide_eq_false_2 by (intros ?; done). cbn [orb andb].
    destruct (Hrows y Hy) as [Hsame|Hc]; [left|right; by eapply Hcover].
    rewrite Hscr by lia. f_equal. apply same_row_pixel; auto.
Qed.

End mirror.
