(* ===== verification/PanesApp.v ===== *)
(** One exported window in the guest's compositor,
    [packages/panes/compositor/src/compositor/mod.rs] and [handlers.rs]: the
    connection to the host, the pacing of its frames by acks, the watchdog, and
    the frame callbacks of its client; and the host's side of the connection
    for this window, [packages/panes/host/src/app.rs].

    The build without the [gpu] feature is modelled.  Of Wayland, a commit is
    what [smithay] hands the handler; frame callbacks are whether the client
    waits for one.  Messages about input and window configuration do not touch
    this state.

    Then the host's application, what feeds it in [conn.rs], and the whole system:
    a client and the compositor in the guest, a connection that may break and be
    made again, and the host's windows.  The guest's side sees the host through
    the channel of [HostEvent]s that the threads of a connection post to; an
    action of the system is a step of one party.  AppKit's part in the windows
    (titles, sizes, capture) is left out. *)

From stdpp Require Import base gmap sets list strings.
From S2P Require Import Prelude Chars McWire PanesProto PanesFrame PanesSurface PanesSurfaceProps.
Local Open Scope nat_scope.

Definition INFLIGHT_WATCHDOG_TICKS : nat := 10.
Definition INFLIGHT_WATCHDOG_MAX_TICKS : nat := 80.
Definition MINOR_WINDOW_SCALE : Z := 3.

(** [HostLink]: what the connection's Hello negotiated. *)
Record HostLink := mkLink {
  hl_generation : Z; hl_ready : bool; hl_lz4 : bool; hl_scale : Z; hl_minor : Z }.

(** [Pane]. *)
Record Pane := mkPane {
  pn_id : WindowId; store : FrameStore; announced : bool; pn_seq : Z; inflight : option Z;
  inflight_ticks : nat; watchdog_ticks : nat; pn_title : text; pn_app_id : text;
  pn_min : option (Z * Z); pn_max : option (Z * Z); pn_scale : Z; announced_scale : Z }.

(** [Pane::new]. *)
Definition Pane_new (id : WindowId) : Pane :=
  mkPane id FrameStore_default false 0 None 0 INFLIGHT_WATCHDOG_TICKS [] [] None None 1 1.

(** The connection, the pane, what was handed to the connection's writer, and
    whether the client waits for a frame callback. *)
Record Guest := mkGuest { g_host : option HostLink; g_pane : Pane; outbox : list ToHost; waiting : bool }.

Definition with_pane (p : Pane) (g : Guest) : Guest := mkGuest (g_host g) p (outbox g) (waiting g).

(** [if let Some(host) = &self.host { host.send(msg) }]. *)
Definition host_send (msg : ToHost) (g : Guest) : Guest :=
  match g_host g with
  | Some _ => mkGuest (g_host g) (g_pane g) (outbox g ++ [msg]) (waiting g)
  | None => g
  end.

(** [fire_frame_callbacks]. *)
Definition fire_frame_callbacks (g : Guest) : Guest := mkGuest (g_host g) (g_pane g) (outbox g) false.

(** The ready host, if any. *)
Definition ready_host (g : Guest) : option HostLink :=
  match g_host g with Some h => if hl_ready h then Some h else None | None => None end.

Definition saturating_mul (a b : Z) : Z := Z.min (a * b) u32_max.

(** [wire_bounds]. *)
Definition wire_bounds (bounds : option (Z * Z)) (scale : Z) : option (Z * Z) :=
  option_map (λ b, (saturating_mul b.1 scale, saturating_mul b.2 scale)) bounds.

Definition set_store (st : FrameStore) (p : Pane) : Pane :=
  mkPane (pn_id p) st (announced p) (pn_seq p) (inflight p) (inflight_ticks p) (watchdog_ticks p)
    (pn_title p) (pn_app_id p) (pn_min p) (pn_max p) (pn_scale p) (announced_scale p).
Definition set_announced (a : bool) (scale : Z) (p : Pane) : Pane :=
  mkPane (pn_id p) (store p) a (pn_seq p) (inflight p) (inflight_ticks p) (watchdog_ticks p)
    (pn_title p) (pn_app_id p) (pn_min p) (pn_max p) (pn_scale p) scale.
Definition set_pacing (seq : Z) (i : option Z) (ticks watchdog : nat) (p : Pane) : Pane :=
  mkPane (pn_id p) (store p) (announced p) seq i ticks watchdog
    (pn_title p) (pn_app_id p) (pn_min p) (pn_max p) (pn_scale p) (announced_scale p).
Definition set_meta (title app_id : text) (mn mx : option (Z * Z)) (scale : Z) (p : Pane) : Pane :=
  mkPane (pn_id p) (store p) (announced p) (pn_seq p) (inflight p) (inflight_ticks p) (watchdog_ticks p)
    title app_id mn mx scale (announced_scale p).

(** [sync_window_scale]. *)
Definition sync_window_scale (g : Guest) : Guest :=
  let p := g_pane g in
  if negb (announced p) || bool_decide (pn_scale p = announced_scale p) then g
  else
    match ready_host g with
    | Some h =>
        if decide (MINOR_WINDOW_SCALE ≤ hl_minor h)%Z then
          host_send (WindowScale (pn_id p) (pn_scale p)) (with_pane (set_announced true (pn_scale p) p) g)
        else g
    | None => g
    end.

(** [sync_min_max]. *)
Definition sync_min_max (mn mx : option (Z * Z)) (g : Guest) : Guest :=
  let p := g_pane g in
  if decide (pn_min p = mn ∧ pn_max p = mx) then g
  else
    let p := set_meta (pn_title p) (pn_app_id p) mn mx (pn_scale p) p in
    let g := with_pane p g in
    if announced p then
      host_send (WindowMinMax (pn_id p) (wire_bounds mn (announced_scale p)) (wire_bounds mx (announced_scale p))) g
    else g.

(** The announcement in [pump]. *)
Definition announce (g : Guest) : Guest :=
  let p := set_announced (announced (g_pane g)) (pn_scale (g_pane g)) (g_pane g) in
  let g := host_send (WindowNew (pn_id p) (pn_title p) (pn_app_id p) (width (store p)) (height (store p)) (pn_scale p)) g in
  let g :=
    if bool_decide (pn_min p ≠ None ∨ pn_max p ≠ None) then
      host_send (WindowMinMax (pn_id p) (wire_bounds (pn_min p) (announced_scale p))
        (wire_bounds (pn_max p) (announced_scale p))) g
    else g in
  with_pane (set_store (invalidate (store p)) (set_announced true (announced_scale p) p)) g.

Section pane.
Context `{Lz4Codec}.

(** [pump]. *)
Definition pump (g : Guest) : outcome () Guest :=
  match ready_host g with
  | None => Ok g
  | Some h =>
      match inflight (g_pane g) with
      | Some _ => Ok g
      | None =>
          if negb (has_content (store (g_pane g))) then Ok (fire_frame_callbacks g)
          else
            let g := if announced (g_pane g) then g else announce g in
            '(frame, st) ← take_frame (hl_lz4 h) (store (g_pane g));
            let p := set_store st (g_pane g) in
            match frame with
            | Some f =>
                let seq := (pn_seq p + 1)%Z in
                let p := set_pacing seq (Some seq) 0 (watchdog_ticks p) p in
                Ok (host_send (WindowFrame (pn_id p) seq (ef_width f) (ef_height f) (ef_full f) (ef_tiles f))
                  (with_pane p g))
            | None => Ok (fire_frame_callbacks (with_pane p g))
            end
      end
  end.

(** * A commit of the client *)

Inductive BufferAssignment :=
| NewBuffer (copied : option Pixels) (scale : Z)
| Removed.

(** What a commit carries: whether the first configure was sent, the buffer
    (as [copy_shm] read it), the size bounds, and a request for a callback. *)
Record Commit := mkCommit {
  cm_configured : bool; cm_buffer : option BufferAssignment;
  cm_min : option (Z * Z); cm_max : option (Z * Z); cm_callback : bool }.

(** [intake_buffer]. *)
Definition intake_buffer (b : option BufferAssignment) (g : Guest) : Guest :=
  let p := g_pane g in
  match b with
  | Some (NewBuffer (Some px) scale) =>
      let p := set_meta (pn_title p) (pn_app_id p) (pn_min p) (pn_max p) (Z.max scale 1) p in
      with_pane (set_store (commit (px_data px) (px_width px) (px_height px) (store p)) p) g
  | Some (NewBuffer None _) => g
  | Some Removed =>
      let g := if announced p then host_send (WindowGone (pn_id p)) g else g in
      with_pane (set_store FrameStore_default
        (set_announced false (announced_scale p) (set_pacing (pn_seq p) None 0 (watchdog_ticks p) p))) g
  | None => g
  end.

(** [CompositorHandler::commit] on the window's surface. *)
Definition on_commit (c : Commit) (g : Guest) : outcome () Guest :=
  let g := mkGuest (g_host g) (g_pane g) (outbox g) (waiting g || cm_callback c) in
  if negb (cm_configured c) then Ok (fire_frame_callbacks g)
  else pump (sync_min_max (cm_min c) (cm_max c) (sync_window_scale (intake_buffer (cm_buffer c) g))).

(** [title_changed]. *)
Definition title_changed (title : text) (g : Guest) : Guest :=
  let p := g_pane g in
  if decide (pn_title p = title) then g
  else
    let g := with_pane (set_meta title (pn_app_id p) (pn_min p) (pn_max p) (pn_scale p) p) g in
    if announced p then host_send (WindowTitle (pn_id p) title) g else g.

(** [app_id_changed]. *)
Definition app_id_changed (app_id : text) (g : Guest) : Guest :=
  let p := g_pane g in with_pane (set_meta (pn_title p) app_id (pn_min p) (pn_max p) (pn_scale p) p) g.

(** * Events from the host *)

(** [on_ack]. *)
Definition on_ack (id : WindowId) (seq : Z) (g : Guest) : outcome () Guest :=
  let p := g_pane g in
  if decide (id = pn_id p) then
    match inflight p with
    | Some awaited =>
        if decide (awaited ≤ seq)%Z then
          pump (fire_frame_callbacks (with_pane (set_pacing (pn_seq p) None 0 INFLIGHT_WATCHDOG_TICKS p) g))
        else Ok g
    | None => Ok g
    end
  else Ok g.

(** [on_hello]. *)
Definition on_hello (major minor scale : Z) (encodings : list Encoding) (g : Guest) : outcome () Guest :=
  if decide (major = VERSION_MAJOR) then
    let ready h := mkLink (hl_generation h) true (bool_decide (Lz4 ∈ encodings)) (Z.max scale 1) minor in
    pump (mkGuest (ready <$> g_host g) (g_pane g) (outbox g) (waiting g))
  else Ok (mkGuest None (g_pane g) (outbox g) (waiting g)).

Definition is_ready (g : Guest) : bool := bool_decide (is_Some (ready_host g)).

(** [on_host_msg]. *)
Definition on_host_msg (msg : ToGuest) (g : Guest) : outcome () Guest :=
  match msg with
  | HostHello major minor _ scale encodings => on_hello major minor scale encodings g
  | _ =>
      if negb (is_ready g) then Ok g
      else
        match msg with
        | Ack id seq => on_ack id seq g
        | Ping nonce => Ok (host_send (Pong nonce) g)
        | _ => Ok g
        end
  end.

Inductive HostEvent :=
| Connected (generation : Z)
| Message (generation : Z) (msg : ToGuest)
| Disconnected (generation : Z).

Definition of_generation (generation : Z) (g : Guest) : bool :=
  match g_host g with Some h => bool_decide (hl_generation h = generation) | None => false end.

(** [on_host_event]. *)
Definition on_host_event (ev : HostEvent) (g : Guest) : outcome () Guest :=
  match ev with
  | Connected generation =>
      match g_host g with
      | Some _ => Ok g
      | None =>
          Ok (host_send (GuestHello VERSION_MAJOR VERSION_MINOR)
            (mkGuest (Some (mkLink generation false false 1 0)) (g_pane g) [] (waiting g)))
      end
  | Disconnected generation =>
      if of_generation generation g then
        let p := g_pane g in
        let p := set_store (invalidate (store p))
          (set_announced false (announced_scale p) (set_pacing (pn_seq p) None 0 INFLIGHT_WATCHDOG_TICKS p)) in
        Ok (mkGuest None p (outbox g) (waiting g))
      else Ok g
  | Message generation msg => if of_generation generation g then on_host_msg msg g else Ok g
  end.

(** [on_tick]. *)
Definition on_tick (g : Guest) : outcome () Guest :=
  if is_ready g then
    let p := g_pane g in
    match inflight p with
    | None => Ok g
    | Some _ =>
        let ticks := S (inflight_ticks p) in
        if decide (ticks < watchdog_ticks p) then
          Ok (with_pane (set_pacing (pn_seq p) (inflight p) ticks (watchdog_ticks p) p) g)
        else
          let watchdog := (watchdog_ticks p * 2) `min` INFLIGHT_WATCHDOG_MAX_TICKS in
          let p := set_store (invalidate (store p)) (set_pacing (pn_seq p) None 0 watchdog p) in
          pump (fire_frame_callbacks (with_pane p g))
    end
  else Ok (fire_frame_callbacks g).

End pane.

Definition MINOR_KEY_REPEAT : Z := 2.

Section app.
Context `{Metal} `{Lz4Codec}.

(** The host's [App]: whether there is a connection to write to, the minor
    version of the guest, and the windows. *)
Record App := mkApp { out : bool; peer_minor : Z; windows : gmap WindowId Host }.

Definition App_new : App := mkApp false 0 ∅.

Definition with_windows (ws : gmap WindowId Host) (a : App) : App := mkApp (out a) (peer_minor a) ws.

(** [handle_msg], with the messages it queues to the guest. *)
Definition handle_msg (textures : option texture * option texture) (msg : ToHost) (a : App) : App * list ToGuest :=
  match msg with
  | WindowNew id _ _ _ _ _ =>
      match windows a !! id with
      | Some _ => (a, [])
      | None => (with_windows (<[id := host_start]> (windows a)) a, [])
      end
  | WindowFrame id seq w h full tiles =>
      match windows a !! id with
      | None => (a, [])
      | Some s =>
          let applied := (apply_frame textures seq w h full tiles (win s)).1 in
          (with_windows (<[id := on_frame textures seq w h full tiles s]> (windows a)) a,
           if negb applied && out a then [Ack id seq] else [])
      end
  | WindowGone id => (with_windows (delete id (windows a)) a, [])
  | _ => (a, [])
  end.

(** [conn::Event]. *)
Inductive AppEvent :=
| AppConnected
| AppHello (minor : Z)
| AppMsg (msg : ToHost)
| AppDisconnected.

(** [send_key_repeat], with the user's timing. *)
Definition send_key_repeat (repeat : Z * Z) (a : App) : list ToGuest :=
  if decide (peer_minor a < MINOR_KEY_REPEAT)%Z then []
  else if out a then [KeyRepeat repeat.1 repeat.2] else [].

(** [on_event]. *)
Definition on_event (textures : option texture * option texture) (repeat : Z * Z) (ev : AppEvent) (a : App) :
    App * list ToGuest :=
  match ev with
  | AppConnected => (mkApp true (peer_minor a) (windows a), [])
  | AppHello minor => let a := mkApp (out a) minor (windows a) in (a, send_key_repeat repeat a)
  | AppDisconnected => (mkApp false 0 ∅, [])
  | AppMsg msg => handle_msg textures msg a
  end.

(** [display_tick]. *)
Definition display_tick (id : WindowId) (draws : bool) (a : App) : App * list ToGuest :=
  match windows a !! id with
  | None => (a, [])
  | Some s =>
      (with_windows (<[id := PanesSurfaceProps.on_tick draws s]> (windows a)) a,
       match tk_ack (tick_of draws s).1 with
       | Some seq => if out a then [Ack id seq] else []
       | None => []
       end)
  end.

(** Changes of a window that send nothing: [window_occlusion_changed],
    [mark_dirty], and the GPU completing draws. *)
Inductive WindowChange :=
| Occlusion (o : bool)
| Redraw
| GpuCompletes (n : nat).

Definition change_window (c : WindowChange) (s : Host) : Host :=
  match c with
  | Occlusion o => with_win (set_occluded o (win s)) s
  | Redraw => with_win (mark_dirty (win s)) s
  | GpuCompletes n =>
      if decide (completed s ≤ n ≤ committed s)
      then mkHost (win s) n (committed s) (generation s) (sampled s) (screen s) else s
  end.

(** * The system *)

(** The guest; the generation of the connection, while it is up; the host; the
    guest's channel of events; and the generation of the next connection. *)
Record Sys := mkSys {
  guest : Guest; conn : option Z; app : App; events : list HostEvent; next_generation : Z }.

Definition Sys_new (id : WindowId) : Sys := mkSys (mkGuest None (Pane_new id) [] false) None App_new [] 1.

(** The guest's link is the connection that is up. *)
Definition gen_of (g : Guest) : option Z := hl_generation <$> g_host g.
Definition linked (s : Sys) : bool := bool_decide (conn s ≠ None ∧ gen_of (guest s) = conn s).

Definition clear_outbox (g : Guest) : Guest := mkGuest (g_host g) (g_pane g) [] (waiting g).

(** What is written to a connection that is gone is lost. *)
Definition settle (s : Sys) : Sys :=
  if linked s then s else mkSys (clear_outbox (guest s)) (conn s) (app s) (events s) (next_generation s).

(** The connection ends, with all that it carried. *)
Definition break (s : Sys) : Sys :=
  mkSys (clear_outbox (guest s)) None (on_event (None, None) (0, 0)%Z AppDisconnected (app s)).1 (events s)
    (next_generation s).

Definition with_guest (g : Guest) (s : Sys) : Sys := settle (mkSys g (conn s) (app s) (events s) (next_generation s)).

(** The host's application has moved on, and sent these messages. *)
Definition with_app (r : App * list ToGuest) (s : Sys) : Sys :=
  mkSys (guest s) (conn s) r.1
    (events s ++ match conn s with Some gen => Message gen <$> r.2 | None => [] end) (next_generation s).

(** A client's buffer: shared memory, or none. *)
Inductive ClientBuffer :=
| Attach (pool : bytes) (data : BufferData) (scale : Z)
| Detach.

Inductive Action :=
| ClientCommits (configured : bool) (buffer : option ClientBuffer) (mn mx : option (Z * Z)) (callback : bool)
| ClientTitle (title : text)
| ClientAppId (app_id : text)
| GuestTick
| GuestHandles
| GuestNotices (generation : Z)
| HostConnects (refresh_mhz scale : Z)
| LinkBreaks
| HostReceives (textures : option texture * option texture) (repeat : Z * Z)
| HostTicks (id : WindowId) (draws : bool)
| HostChanges (id : WindowId) (c : WindowChange)
| HostSends (msg : ToGuest)
| Drops (i : nat).

Definition read_buffer (b : option ClientBuffer) : outcome () (option BufferAssignment) :=
  match b with
  | Some (Attach pool data scale) => copied ← copy_shm pool data; Ok (Some (NewBuffer copied scale))
  | Some Detach => Ok (Some Removed)
  | None => Ok None
  end.

(** An event in the guest's channel that may never be handled: an ack that a
    later one absorbed, or a message of a connection that is gone. *)
Definition may_drop (s : Sys) (ev : HostEvent) : bool :=
  match ev with
  | Message _ (Ack _ _) => true
  | Message gen _ => negb (bool_decide (conn s = Some gen))
  | _ => false
  end.

(** [supervise] and [run_connection] of [conn.rs]. *)
Definition host_connects (refresh_mhz scale : Z) (s : Sys) : Sys :=
  let gen := next_generation s in
  mkSys (guest s) (Some gen) (on_event (None, None) (0, 0)%Z AppConnected (app s)).1
    (events s ++ [Connected gen; Message gen (HostHello VERSION_MAJOR VERSION_MINOR refresh_mhz scale [Raw; Lz4])])
    (gen + 1).

(** A turn of [read_loop] of [conn.rs]; [textures] are those that Metal makes if
    it is asked for some, [None] where it cannot. *)
Definition host_receives (textures : option texture * option texture) (repeat : Z * Z) (msg : ToHost) (s : Sys) : Sys :=
  match msg with
  | GuestHello major minor =>
      if decide (major = VERSION_MAJOR)
      then with_app (on_event textures repeat (AppHello minor) (app s)) s else break s
  | _ => with_app (on_event textures repeat (AppMsg msg) (app s)) s
  end.

(** The guest refuses a connection while it has one. *)
Definition refused (ev : HostEvent) (s : Sys) : bool :=
  match ev, g_host (guest s) with
  | Connected gen, Some _ => bool_decide (conn s = Some gen)
  | _, _ => false
  end.

Definition sys_exec (a : Action) (s : Sys) : outcome () Sys :=
  match a with
  | ClientCommits configured buffer mn mx callback =>
      buffer ← read_buffer buffer;
      g ← on_commit (mkCommit configured buffer mn mx callback) (guest s);
      Ok (with_guest g s)
  | ClientTitle title => Ok (with_guest (title_changed title (guest s)) s)
  | ClientAppId app_id => Ok (with_guest (app_id_changed app_id (guest s)) s)
  | GuestTick => g ← PanesApp.on_tick (guest s); Ok (with_guest g s)
  | GuestHandles =>
      match events s with
      | [] => Ok s
      | ev :: rest =>
          g ← on_host_event ev (guest s);
          let s' := mkSys (guest s) (conn s) (app s) rest (next_generation s) in
          Ok (with_guest g (if refused ev s then break s' else s'))
      end
  | GuestNotices gen =>
      if decide (conn s ≠ Some gen ∧ (gen < next_generation s)%Z)
      then Ok (mkSys (guest s) (conn s) (app s) (events s ++ [Disconnected gen]) (next_generation s)) else Ok s
  | HostConnects refresh_mhz scale =>
      match conn s with Some _ => Ok s | None => Ok (host_connects refresh_mhz scale s) end
  | LinkBreaks => Ok (break s)
  | HostReceives textures repeat =>
      match outbox (guest s) with
      | msg :: rest =>
          if linked s then
            let g := mkGuest (g_host (guest s)) (g_pane (guest s)) rest (waiting (guest s)) in
            Ok (host_receives textures repeat msg (mkSys g (conn s) (app s) (events s) (next_generation s)))
          else Ok s
      | [] => Ok s
      end
  | HostTicks id draws => Ok (with_app (display_tick id draws (app s)) s)
  | HostChanges id c =>
      Ok (with_app (with_windows (alter (change_window c) id (windows (app s))) (app s), []) s)
  | HostSends msg =>
      match msg with HostHello _ _ _ _ _ => Ok s | _ => Ok (with_app (app s, [msg]) s) end
  | Drops i =>
      match events s !! i with
      | Some ev =>
          if may_drop s ev
          then Ok (mkSys (guest s) (conn s) (app s) (delete i (events s)) (next_generation s)) else Ok s
      | None => Ok s
      end
  end.

Inductive sys_reachable (id : WindowId) : Sys → Prop :=
| sys_start : sys_reachable id (Sys_new id)
| sys_next s a s' : sys_reachable id s → sys_exec a s = Ok s' → sys_reachable id s'.

End app.
