(* ===== verification/PanesDisplay.v ===== *)
(** The panes system end to end: once a window's queue and its frame in flight
    are through, the host shows the pixels the client last committed, whatever
    connections were lost in between; and no client waits forever for the
    callback that lets it draw again. *)

From stdpp Require Import base gmap sets list strings.
From S2P Require Import Prelude Chars McWire PanesProto PanesFrame PanesFrameProps PanesSurface PanesSurfaceProps PanesApp.
Local Open Scope nat_scope.

(** * The guest *)

(** A mirror that is not marked dirty is what was committed. *)
Definition up_to_date (st : FrameStore) : Prop :=
  ∀ cur, current st = Some cur → sent st = Some cur ∨ px_height cur = 0.

Section guest.
Context `{Lz4Laws}.

(** What holds of a pane whatever happened. *)
Definition core (g : Guest) : Prop :=
  let p := g_pane g in
  store_wf (store p) ∧ (fs_dirty (store p) = false → up_to_date (store p)) ∧
  (ready_host g = None → announced p = false ∧ inflight p = None) ∧
  (announced p = false → sent (store p) = None) ∧
  (inflight p = None → inflight_ticks p = 0) ∧
  inflight_ticks p < watchdog_ticks p ≤ INFLIGHT_WATCHDOG_MAX_TICKS.

(** What holds between events: with nothing in flight there is nothing to send
    and nobody waits. *)
Definition settled (g : Guest) : Prop :=
  ready_host g ≠ None → inflight (g_pane g) = None →
  waiting g = false ∧ (current (store (g_pane g)) ≠ None → announced (g_pane g) = true) ∧ up_to_date (store (g_pane g)).

(** The window on the host after all that was sent to it. *)
Definition final (v : option View) (g : Guest) : option View := foldl (view_step (pn_id (g_pane g))) v (outbox g).
#[local] Arguments final : simpl never.

Definition shown (v : option View) (g : Guest) : Prop :=
  (announced (g_pane g) = true → final v g ≠ None) ∧ view_mirrors (final v g) (sent (store (g_pane g))).

(** The parts of the state that this is about are the same. *)
Definition same (g g' : Guest) : Prop :=
  g_host g' = g_host g ∧ waiting g' = waiting g ∧ pn_id (g_pane g') = pn_id (g_pane g) ∧
  store (g_pane g') = store (g_pane g) ∧ announced (g_pane g') = announced (g_pane g) ∧
  inflight (g_pane g') = inflight (g_pane g) ∧ inflight_ticks (g_pane g') = inflight_ticks (g_pane g) ∧
  watchdog_ticks (g_pane g') = watchdog_ticks (g_pane g) ∧ ∀ v, final v g' = final v g.

Lemma same_refl g : same g g.
Proof. by split_and!. Qed.

Lemma same_trans g1 g2 g3 : same g1 g2 → same g2 g3 → same g1 g3.
Proof.
  intros (A1 & A2 & A3 & A4 & A5 & A6 & A7 & A8 & A9) (B1 & B2 & B3 & B4 & B5 & B6 & B7 & B8 & B9).
  split_and!; congruence.
Qed.

Lemma same_ready g g' : same g g' → ready_host g' = ready_host g.
Proof. intros (Hh & _). unfold ready_host. by rewrite Hh. Qed.

Lemma same_core g g' : same g g' → core g → core g'.
Proof.
  intros Hs. pose proof (same_ready _ _ Hs) as Hr. destruct Hs as (_ & _ & _ & Hst & Ha & Hi & Ht & Hw & _).
  unfold core. cbn zeta. by rewrite Hr, Hst, Ha, Hi, Ht, Hw.
Qed.

Lemma same_settled g g' : same g g' → settled g → settled g'.
Proof.
  intros Hs. pose proof (same_ready _ _ Hs) as Hr. destruct Hs as (_ & Hwt & _ & Hst & Ha & Hi & Ht & Hw & _).
  unfold settled. by rewrite Hr, Hst, Ha, Hi, Hwt.
Qed.

Lemma same_shown g g' v : same g g' → shown v g → shown v g'.
Proof. intros (_ & _ & _ & Hst & Ha & _ & _ & _ & Hf). unfold shown. by rewrite Hst, Ha, Hf. Qed.

(** A message that changes no view. *)
Definition silent (id : WindowId) (msg : ToHost) : Prop := ∀ v, view_step id v msg = v.

Lemma final_snoc v h p ob w msg :
  final v (mkGuest h p (ob ++ [msg]) w) = view_step (pn_id p) (final v (mkGuest h p ob w)) msg.
Proof. unfold final. cbn. by rewrite foldl_app. Qed.

Lemma same_send msg g : silent (pn_id (g_pane g)) msg → same g (host_send msg g).
Proof.
  intros Hq. unfold host_send. destruct (g_host g) eqn:Hh; [|apply same_refl]. split_and!; cbn; try done.
  intros v. rewrite final_snoc, Hq. done.
Qed.

Lemma same_meta g t a mn mx sc : same g (with_pane (set_meta t a mn mx sc (g_pane g)) g).
Proof. by split_and!. Qed.

Lemma same_scale g : same g (sync_window_scale g).
Proof.
  unfold sync_window_scale. destruct (announced (g_pane g)) eqn:Ha; cbn [negb orb]; [|apply same_refl].
  case_bool_decide; [apply same_refl|]. destruct (ready_host g); [|apply same_refl].
  case_decide; [|apply same_refl]. eapply same_trans; [|by apply same_send]. by split_and!.
Qed.

Lemma same_min_max mn mx g : same g (sync_min_max mn mx g).
Proof.
  unfold sync_min_max. case_decide; [apply same_refl|]. cbn. destruct (announced (g_pane g)); [|apply same_meta].
  eapply same_trans; [apply same_meta|by apply same_send].
Qed.

Lemma same_title t g : same g (title_changed t g).
Proof.
  unfold title_changed. case_decide; [apply same_refl|]. destruct (announced (g_pane g)); [|apply same_meta].
  eapply same_trans; [apply same_meta|by apply same_send].
Qed.

(** * Pump *)

Lemma ready_send msg g : ready_host (host_send msg g) = ready_host g.
Proof. unfold host_send, ready_host. by destruct (g_host g) eqn:E; cbn; rewrite ?E. Qed.

Lemma ready_host_some g h : ready_host g = Some h → g_host g = Some h.
Proof. unfold ready_host. destruct (g_host g); [case_match|]; congruence. Qed.

(** The announcement: the host will have the window, and no pixels of it. *)
Lemma announce_spec g h : ready_host g = Some h → core g → inflight (g_pane g) = None →
  let g' := announce g in
  core g' ∧ g_host g' = g_host g ∧ waiting g' = waiting g ∧ pn_id (g_pane g') = pn_id (g_pane g) ∧
  inflight (g_pane g') = None ∧ announced (g_pane g') = true ∧ watchdog_ticks (g_pane g') = watchdog_ticks (g_pane g) ∧
  current (store (g_pane g')) = current (store (g_pane g)) ∧ ∀ v, shown v g → shown v g'.
Proof.
  intros Hr ((Hc & _) & _ & _ & _ & Hti & Htw) Hi.
  pose proof (ready_host_some _ _ Hr) as Hh. unfold announce. cbn zeta.
  set (p0 := set_announced (announced (g_pane g)) (pn_scale (g_pane g)) (g_pane g)).
  set (msg := WindowNew _ _ _ _ _ _). set (g1 := host_send msg g).
  assert (g_host g1 = g_host g ∧ waiting g1 = waiting g ∧ g_pane g1 = g_pane g ∧ outbox g1 = outbox g ++ [msg])
    as (E1 & E2 & E3 & E4) by (unfold g1, host_send; by rewrite Hh).
  set (g2 := if bool_decide _ then _ else g1).
  assert (same g1 g2) as (F1 & F2 & F3 & _ & _ & _ & _ & _ & F9).
  { unfold g2. case_bool_decide; [by apply same_send|apply same_refl]. }
  clearbody g2. unfold core, with_pane, ready_host. cbn. rewrite F1, E1, F2, E2. split_and!; try done.
  - unfold has_content. intros Hno cur Hcur. cbn in Hcur. rewrite Hcur in Hno. by apply bool_decide_eq_false in Hno as [].
  - rewrite Hh. unfold ready_host in Hr. rewrite Hh in Hr. by destruct (hl_ready h).
  - lia.
  - lia.
  - intros v [_ Hmir]. unfold shown. cbn. split; [|by intros].
    intros _. specialize (F9 v). unfold final in *. cbn in *. rewrite F3, E3 in F9. rewrite F9, E4, foldl_app. cbn.
    rewrite decide_True by done. by case_match.
Qed.

(** What every event of the guest does: it ends settled, on the same
    connection, and keeps what the host will show what it was told. *)
Definition guest_ok (g g' : Guest) : Prop :=
  core g' ∧ settled g' ∧ gen_of g' = gen_of g ∧ pn_id (g_pane g') = pn_id (g_pane g) ∧ ∀ v, shown v g → shown v g'.

Lemma pump_spec g : core g → ∃ g',
  pump g = Ok g' ∧ guest_ok g g' ∧ g_host g' = g_host g ∧ (waiting g' = true → waiting g = true) ∧
  inflight_ticks (g_pane g') = inflight_ticks (g_pane g).
Proof.
  intros Hcore. pose proof Hcore as (Hwf & Hclean & Hnr & Hna & Hti & Htw). unfold pump, guest_ok.
  destruct (ready_host g) as [h|] eqn:Hr; [|by eexists; split_and!].
  destruct (inflight (g_pane g)) as [sq|] eqn:Hi.
  { exists g. split_and!; try done. intros _ Hno. by rewrite Hi in Hno. }
  destruct (has_content (store (g_pane g))) eqn:Hc; cbn [negb].
  2: { eexists. split; [done|]. split_and!; try done. intros _ _. apply bool_decide_eq_false in Hc. unfold up_to_date. cbn.
       split_and!; [done|intros Hcur|intros cur Hcur]; destruct Hc; [by apply not_eq_None_Some|by eexists]. }
  set (g1 := if announced (g_pane g) then g else announce g).
  assert (core g1 ∧ g_host g1 = g_host g ∧ waiting g1 = waiting g ∧ pn_id (g_pane g1) = pn_id (g_pane g) ∧
    inflight (g_pane g1) = None ∧ announced (g_pane g1) = true ∧ watchdog_ticks (g_pane g1) = watchdog_ticks (g_pane g) ∧
    ∀ v, shown v g → shown v g1) as (Hcore1 & Eh & Ew & Eid & Ei & Ea & Ewd & Es).
  { unfold g1. destruct (announced (g_pane g)) eqn:Ha; [by split_and!|].
    destruct (announce_spec g h Hr Hcore Hi) as (A1 & A2 & A3 & A4 & A5 & A6 & A7 & A8 & A9). by split_and!. }
  clearbody g1. destruct Hcore1 as (Hwf1 & Hclean1 & Hnr1 & Hna1 & Hti1 & Htw1).
  destruct (take_frame_spec (hl_lz4 h) (store (g_pane g1)) Hwf1) as (r & st & -> & Hwf' & Hcur' & Hd' & Hr').
  cbn [mbind outcome_bind].
  assert (ready_host g1 = Some h) as Hr1 by (unfold ready_host in *; by rewrite Eh).
  pose proof (ready_host_some _ _ Hr1) as Hh1.
  destruct r as [f|].
  - destruct Hr' as (cur & Hcur & Hcarry & Hsent & _). eexists. split; [done|]. unfold host_send, with_pane. cbn. rewrite Hh1.
    unfold core, settled, gen_of, ready_host. cbn. rewrite <- Eh, Hh1. split_and!; try done.
    + intros _ c Hc'. rewrite Hcur' in Hc'. left. congruence.
    + unfold ready_host in Hr1. rewrite Hh1 in Hr1. by destruct (hl_ready h).
    + congruence.
    + lia.
    + rewrite Ewd. lia.
    + intros v Hv. destruct (Es v Hv) as [Hann Hmir]. specialize (Hann Ea). unfold shown. cbn. rewrite final_snoc. cbn [pn_id].
      change (final v (mkGuest _ _ (outbox g1) _)) with (final v g1).
      destruct (view_frame (final v g1) (sent (store (g_pane g1))) cur f (pn_id (g_pane g1)) (pn_seq (g_pane g1) + 1)%Z)
        as [Hne Hm]; [by destruct Hwf1 as [Hw _]; apply Hw|by destruct Hwf1|done..|]. rewrite Hsent. by split.
    + by rewrite Ew.
    + by rewrite (Hti eq_refl).
  - destruct Hr' as [Hsent Hok]. eexists. split; [done|]. unfold core, settled, gen_of, ready_host. cbn. rewrite <- Eh, Hh1.
    assert (up_to_date st) as Hup.
    { intros c Hc'. rewrite Hcur' in Hc'. rewrite Hsent. destruct Hok as [Hd|Hok]; [by apply Hclean1|by apply Hok]. }
    split_and!; try done.
    + unfold ready_host in Hr1. rewrite Hh1 in Hr1. by destruct (hl_ready h).
    + by rewrite Ea.
    + lia.
    + lia.
    + intros v Hv. destruct (Es v Hv) as [Hann Hmir]. unfold shown. cbn. rewrite Hsent. by split.
    + by rewrite (Hti1 Ei), (Hti eq_refl).
Qed.

(** * The guest's events *)

(** A client that keeps waiting on a link that stays has waited [n] more ticks. *)
Definition delays (n : nat) (g g' : Guest) : Prop :=
  waiting g = true → waiting g' = true → (is_Some (g_host g) → is_Some (g_host g')) →
  inflight_ticks (g_pane g) + n ≤ inflight_ticks (g_pane g').

Definition handles (n : nat) (g : Guest) (r : outcome () Guest) : Prop :=
  ∃ g', r = Ok g' ∧ guest_ok g g' ∧ delays n g g'.

Lemma handles_Ok n g g' : core g' → settled g' → gen_of g' = gen_of g → pn_id (g_pane g') = pn_id (g_pane g) →
  (∀ v, shown v g → shown v g') → delays n g g' → handles n g (Ok g').
Proof. intros. exists g'. split; [done|]. split; [|done]. do 4 (split; [done|]). done. Qed.

Lemma handles_same g g' : core g → settled g → same g g' → handles 0 g (Ok g').
Proof.
  intros Hc Hs E. pose proof E as (Hh & _ & Hid & _ & _ & _ & Ht & _). apply handles_Ok.
  - by eapply same_core.
  - by eapply same_settled.
  - unfold gen_of. by rewrite Hh.
  - done.
  - intros v. by apply same_shown.
  - intros _ _ _. lia.
Qed.

(** An event that ends with a pump. *)
Lemma handles_pump n g g1 : core g1 → gen_of g1 = gen_of g → pn_id (g_pane g1) = pn_id (g_pane g) →
  (∀ v, shown v g → shown v g1) →
  (waiting g1 = true → inflight_ticks (g_pane g) + n ≤ inflight_ticks (g_pane g1)) → handles n g (pump g1).
Proof.
  intros Hc Hg Hid Hs Hd. destruct (pump_spec g1 Hc) as (g' & -> & (A1 & A2 & A3 & A4 & A5) & Hh & Hw & Ht).
  apply handles_Ok; [done|done|congruence|congruence|auto|].
  intros _ Hw' _. rewrite Ht. auto.
Qed.

Lemma ready_gen g h : g_host g = Some h → ready_host g = None → hl_ready h = false.
Proof. intros Hh. unfold ready_host. rewrite Hh. by destruct (hl_ready h). Qed.

Definition assigns_wf (b : option BufferAssignment) : Prop :=
  ∀ p scale, b = Some (NewBuffer (Some p) scale) → pixels_wf p.

Lemma intake_spec b g : core g → assigns_wf b →
  let g' := intake_buffer b g in
  core g' ∧ g_host g' = g_host g ∧ waiting g' = waiting g ∧ pn_id (g_pane g') = pn_id (g_pane g) ∧
  (∀ v, shown v g → shown v g') ∧
  (inflight_ticks (g_pane g') = inflight_ticks (g_pane g) ∨
    inflight (g_pane g') = None ∧ current (store (g_pane g')) = None).
Proof.
  intros Hcore Hb. pose proof Hcore as ((Hc & Hs) & Hclean & Hnr & Hna & Hti & Htw).
  destruct b as [[[p|] scale|]|]; cbn; [|by split_and!; auto| |by split_and!; auto].
  - specialize (Hb p scale eq_refl). unfold core. cbn. split_and!; try done; [|lia|lia|by left].
    split; cbn; [|done]. intros q [= <-]. by destruct p.
  - set (g1 := if announced (g_pane g) then _ else g).
    assert (g_host g1 = g_host g ∧ waiting g1 = waiting g) as [Eh Ew].
    { unfold g1, host_send. destruct (announced _); [|done]. by destruct (g_host g) eqn:E. }
    unfold core, ready_host. cbn. rewrite Eh. split_and!; try done; [lia|lia|by right].
Qed.

Lemma on_commit_spec c g : core g → settled g → assigns_wf (cm_buffer c) → handles 0 g (on_commit c g).
Proof.
  intros Hcore Hset Hb. unfold on_commit. set (g0 := mkGuest _ _ _ _).
  assert (core g0) as Hc0 by done.
  destruct (cm_configured c); cbn [negb].
  2: { apply handles_Ok; [done| |done|done|done|by intros _ [=]].
       intros Hr Hi. destruct (Hset Hr Hi) as (_ & ? & ?). by split_and!. }
  destruct (intake_spec (cm_buffer c) g0 Hc0 Hb) as (A1 & A2 & A3 & A4 & A5 & A6).
  set (g1 := intake_buffer (cm_buffer c) g0) in *. clearbody g1.
  pose proof (same_trans _ _ _ (same_scale g1) (same_min_max (cm_min c) (cm_max c) (sync_window_scale g1))) as E.
  set (g2 := sync_min_max _ _ _) in *. clearbody g2.
  pose proof (same_core _ _ E A1) as Hc2. pose proof (same_ready _ _ E) as Hr2.
  pose proof E as (E1 & E2 & E3 & E4 & E5 & E6 & E7 & E8 & E9).
  assert (handles 0 g (pump g2) ∨ ready_host g2 ≠ None ∧ inflight (g_pane g2) = None ∧ current (store (g_pane g2)) = None)
    as [|(Hr & Hi & Hcur)]; [|done|].
  - destruct A6 as [Ht|[Hi Hcur]].
    + left. apply handles_pump; [done|unfold gen_of; by rewrite E1, A2|by rewrite E3, A4| |by rewrite E7, Ht; cbn; lia].
      intros v Hv. eapply same_shown, A5; done.
    + destruct (ready_host g2) as [h|] eqn:Hr; [right; by rewrite E6, E4|left].
      apply handles_pump; [done|unfold gen_of; by rewrite E1, A2|by rewrite E3, A4| |].
      * intros v Hv. eapply same_shown, A5; done.
      * intros _. destruct Hcore as (_ & _ & Hnr & _ & Hti & _). rewrite Hti; [lia|]. apply Hnr.
        unfold ready_host in *. rewrite E1, A2 in Hr. done.
  - destruct (pump_spec g2 Hc2) as (g' & Hp & (B1 & B2 & B3 & B4 & B5) & Hh & Hw & Ht). rewrite Hp. apply handles_Ok.
    + done.
    + done.
    + rewrite B3. unfold gen_of. by rewrite E1, A2.
    + by rewrite B4, E3, A4.
    + intros v Hv. eapply B5, same_shown, A5; done.
    + intros _ Hwt. unfold pump in Hp. destruct (ready_host g2); [|done]. rewrite Hi in Hp.
      unfold has_content in Hp. rewrite Hcur in Hp. rewrite bool_decide_eq_false_2 in Hp by (by intros []).
      cbn in Hp. by injection Hp as <-.
Qed.

Lemma up_to_date_invalidate st : fs_dirty (invalidate st) = false → up_to_date (invalidate st).
Proof. cbn. intros Hno cur Hcur. cbn in Hcur. unfold has_content in Hno. rewrite Hcur in Hno. by apply bool_decide_eq_false in Hno as []. Qed.

Lemma invalidate_wf st : store_wf st → store_wf (invalidate st).
Proof. intros [Hc _]. split; [done|]. by intros p [=]. Qed.

Lemma not_ready_pane g : ready_host g = None → core g → announced (g_pane g) = false ∧ inflight (g_pane g) = None ∧
  sent (store (g_pane g)) = None ∧ inflight_ticks (g_pane g) = 0.
Proof. intros Hr (_ & _ & Hnr & Hna & Hti & _). destruct (Hnr Hr) as [Ha Hi]. split_and!; auto. Qed.

Lemma unannounced_shown v g : announced (g_pane g) = false → sent (store (g_pane g)) = None → shown v g.
Proof. intros Ha Hs. unfold shown. rewrite Ha, Hs. split; [done|]. by intros m [=]. Qed.

Lemma on_ack_spec id seq g : core g → settled g → handles 0 g (on_ack id seq g).
Proof.
  intros Hc Hs. unfold on_ack. case_decide; [|by apply handles_same; [..|apply same_refl]].
  destruct (inflight (g_pane g)) as [awaited|] eqn:Hi; [|by apply handles_same; [..|apply same_refl]].
  case_decide; [|by apply handles_same; [..|apply same_refl]].
  apply handles_pump; [|done..]. destruct Hc as (K1 & K2 & K3 & K4 & K5 & K6).
  unfold core. cbn. unfold INFLIGHT_WATCHDOG_TICKS, INFLIGHT_WATCHDOG_MAX_TICKS. split_and!; try done; [|lia|lia].
  intros Hr. by destruct (K3 Hr).
Qed.

Lemma on_hello_spec minor scale encodings g : core g → handles 0 g (on_hello VERSION_MAJOR minor scale encodings g).
Proof.
  intros Hc. unfold on_hello. rewrite decide_True by done. destruct Hc as (K1 & K2 & K3 & K4 & K5 & K6).
  apply handles_pump; try done; [| |cbn; lia].
  - unfold core, ready_host in *. cbn. split_and!; try done; [|lia|lia].
    destruct (g_host g); cbn; [done|auto].
  - unfold gen_of. cbn. by destruct (g_host g).
Qed.

Lemma on_tick_spec g : core g → settled g → handles 1 g (PanesApp.on_tick g).
Proof.
  intros Hc Hs. unfold PanesApp.on_tick, is_ready. destruct (ready_host g) as [h|] eqn:Hr.
  2: { rewrite bool_decide_eq_false_2 by (by intros []). by apply handles_Ok. }
  rewrite bool_decide_eq_true_2 by (by eexists).
  destruct (inflight (g_pane g)) as [awaited|] eqn:Hi.
  2: { apply handles_Ok; try done. intros Hw. destruct Hs as [Hw' _]; [by rewrite Hr|done|congruence]. }
  pose proof Hc as (K1 & K2 & K3 & K4 & K5 & K6). case_decide as Hlt.
  - apply handles_Ok; try done.
    + unfold core. cbn. split_and!; try done; [|lia]. intros Hno.
      change (ready_host g = None) in Hno. congruence.
    + intros _ _ _. cbn. lia.
  - apply handles_pump; try done; [|by intros v [Ha Hm]; split; [|by intros m [=]]].
    unfold core. cbn. unfold INFLIGHT_WATCHDOG_MAX_TICKS in *. split_and!; try done;
      [by apply invalidate_wf|by apply up_to_date_invalidate| |lia|lia].
    intros Hno. change (ready_host g = None) in Hno. congruence.
Qed.

(** The host's Hello speaks this version. *)
Definition hello_ok (msg : ToGuest) : Prop :=
  match msg with HostHello major _ _ _ _ => major = VERSION_MAJOR | _ => True end.

Lemma on_host_msg_spec msg g : core g → settled g → hello_ok msg → handles 0 g (on_host_msg msg g).
Proof.
  intros Hc Hs Hok.
  assert (handles 0 g (Ok g)) as Hsame by (by apply handles_same; [..|apply same_refl]).
  destruct msg; cbn in Hok |- *; [subst; by apply on_hello_spec|..]; (destruct (is_ready g); cbn; [|done]); try done.
  - by apply on_ack_spec.
  - apply handles_same; [done..|by apply same_send].
Qed.

(** A new connection starts from nothing. *)
Lemma on_connected_spec gen g : core g → g_host g = None → ∃ g',
  on_host_event (Connected gen) g = Ok g' ∧ core g' ∧ settled g' ∧ gen_of g' = Some gen ∧
  pn_id (g_pane g') = pn_id (g_pane g) ∧ (∀ v, shown v g') ∧ inflight_ticks (g_pane g') = inflight_ticks (g_pane g).
Proof.
  intros Hc Hh. cbn. rewrite Hh. assert (ready_host g = None) as Hr by (unfold ready_host; by rewrite Hh).
  destruct (not_ready_pane g Hr Hc) as (Ha & Hi & Hsent & Ht). eexists. split; [done|]. split_and!; try done.
  - destruct Hc as (K1 & K2 & _ & K4 & K5 & K6). unfold core. cbn. do 2 (split; [done|]). done.
  - intros v. by apply unannounced_shown.
Qed.

(** After a lost connection nothing of it is left. *)
Lemma on_disconnected_spec gen g : core g → of_generation gen g = true → ∃ g',
  on_host_event (Disconnected gen) g = Ok g' ∧ core g' ∧ settled g' ∧ g_host g' = None ∧
  pn_id (g_pane g') = pn_id (g_pane g).
Proof.
  intros Hc Hg. cbn. rewrite Hg. eexists. split; [done|]. destruct Hc as (K1 & K2 & K3 & K4 & K5 & K6). split_and!; try done.
  unfold core. cbn. unfold INFLIGHT_WATCHDOG_TICKS, INFLIGHT_WATCHDOG_MAX_TICKS.
  split; [by apply invalidate_wf|]. split; [by apply up_to_date_invalidate|]. split_and!; try done; lia.
Qed.

End guest.

(** * The host *)

Section host.
Context `{MetalLaws} `{Lz4Codec}.

Definition view_of (s : Host) : View := (size <$> surface (win s), screen s).

(** A frame that enters a window, whose textures can be made if it needs some. *)
Lemma view_of_frame (ts : option texture * option texture) seq w h full tiles s id :
  (presentable w h → can_take ts w h (win s)) →
  Some (view_of (on_frame ts seq w h full tiles s)) =
    view_step id (Some (view_of s)) (WindowFrame id seq w h full tiles).
Proof.
  intros Htake. cbn [view_step]. rewrite decide_True by done. unfold view_of, on_frame, apply_frame, surface_for.
  unfold can_take, presentable in *.
  destruct (decide (w = 0 ∨ h = 0)) as [Hz|Hz].
  { rewrite decide_False by tauto. done. }
  destruct (decide (_ < _ ∨ _)%Z) as [Hb|Hb].
  { rewrite decide_False by tauto. done. }
  rewrite decide_True by tauto. destruct Htake as [_ Htake]; [done|].
  assert (∀ sf (fresh : bool), size (ingest fresh w h full tiles sf) = size sf) as Hsize.
  { intros sf fresh. unfold ingest. assert (∀ l sf, size (push_tiles w h l sf) = size sf) as Ht.
    { induction l as [|t' l IH]; intros sf'; cbn -[in_bounds]; [done|]. unfold push_tiles in IH. rewrite IH.
      destruct (in_bounds _ _ _); [|done]. destruct (tile_bytes t'); [by rewrite push_size|done]. }
    rewrite Ht. destruct (_ && _); [by rewrite push_size|done]. }
  destruct (surface (win s)) as [sf|] eqn:Hsf; cbn [fmap option_fmap option_map].
  - destruct (decide (size sf = mkSize w h)) as [He|He]; cbn.
    + rewrite Hsize, He. by rewrite bool_decide_eq_false_2 by (by intros []).
    + destruct Htake as [Htake|[[t1 Ht1] [t2 Ht2]]]; [cbn in Htake; congruence|]. destruct ts; cbn in Ht1, Ht2; subst.
      cbn. rewrite Hsize. cbn. rewrite bool_decide_eq_true_2 by congruence. done.
  - destruct Htake as [Htake|[[t1 Ht1] [t2 Ht2]]]; [done|]. destruct ts; cbn in Ht1, Ht2; subst.
    cbn. rewrite Hsize. cbn. done.
Qed.

Lemma view_of_tick draws s : view_of (PanesSurfaceProps.on_tick draws s) = view_of s.
Proof.
  unfold view_of, PanesSurfaceProps.on_tick, tick_of, present.
  destruct (dirty (win s)); cbn [negb]; [|done]. destruct (surface (win s)) as [sf|] eqn:Hsf; [|by cbn; rewrite Hsf].
  destruct (occluded (win s)).
  - unfold absorb_drained. destruct (absorb_slot _ _ (slots sf).1), (absorb_slot _ _ (slots sf).2). cbn. by rewrite compact_size.
  - destruct (_ && _); cbn; [by rewrite Hsf|]. destruct draws; cbn; [by rewrite compact_size|done].
Qed.

Lemma view_of_change c s : view_of (change_window c s) = view_of s.
Proof.
  destruct c as [o| |n]; cbn; unfold view_of, set_occluded, mark_dirty.
  - destruct o; cbn; [done|]. by destruct (surface (win s)) eqn:E; cbn; rewrite ?E.
  - by destruct (surface (win s)) eqn:E; cbn; rewrite ?E.
  - by case_decide.
Qed.

(** The message is no frame that the host could present and does not take, for
    want of textures. *)
Definition taken (id : WindowId) (ts : option texture * option texture) (msg : ToHost) (a : App) : Prop :=
  match msg with
  | WindowFrame i _ w h _ _ =>
      i = id → presentable w h →
      match windows a !! id with Some s => can_take ts w h (win s) | None => True end
  | _ => True
  end.
#[export] Instance can_take_dec (ts : option texture * option texture) w h win : Decision (can_take ts w h win).
Proof. unfold can_take. apply _. Defined.
#[export] Instance taken_dec id ts msg a : Decision (taken id ts msg a).
Proof. destruct msg; cbn; try (left; exact I). destruct (windows a !! id); apply _. Defined.

Lemma handle_msg_view (ts : option texture * option texture) msg a id : taken id ts msg a →
  view_of <$> windows (handle_msg ts msg a).1 !! id = view_step id (view_of <$> windows a !! id) msg.
Proof.
  intros Htaken. destruct msg as [| i ? ? ? ? ?| | |i sq w h fl tl|i| | | |]; cbn -[view_step]; try done.
  - destruct (windows a !! i) eqn:Hi; cbn; case_decide; simplify_eq; rewrite ?Hi; cbn; simplify_map_eq; done.
  - destruct (windows a !! i) as [s|] eqn:Hi; cbn -[view_step].
    + destruct (decide (i = id)) as [->|Hne].
      * rewrite lookup_insert_eq, Hi. apply view_of_frame. intros Hp. cbn in Htaken. specialize (Htaken eq_refl Hp).
        by rewrite Hi in Htaken.
      * rewrite lookup_insert_ne by done. cbn. by rewrite decide_False.
    + cbn. case_decide; [subst|done]. by rewrite Hi.
  - cbn. case_decide; [subst; by rewrite lookup_delete_eq|by rewrite lookup_delete_ne].
Qed.

Lemma handle_msg_reachable ts msg a :
  (∀ id s, windows a !! id = Some s → host_reachable s) →
  ∀ id s, windows (handle_msg ts msg a).1 !! id = Some s → host_reachable s.
Proof.
  intros Hall id s. destruct msg as [| i ? ? ? ? ?| | |i sq w h fl tl|i| | | |]; cbn; try apply Hall.
  - destruct (windows a !! i) eqn:Hi; cbn; [apply Hall|].
    intros [[<- <-]|[_ Hs]]%lookup_insert_Some; [apply host_init|by eapply Hall].
  - destruct (windows a !! i) as [s0|] eqn:Hi; cbn; [|apply Hall].
    intros [[<- <-]|[_ Hs]]%lookup_insert_Some; [|by eapply Hall]. eapply host_next; [by eapply Hall|apply host_frame].
  - intros [_ Hs]%lookup_delete_Some. by eapply Hall.
Qed.

(** A frame whose textures cannot be made is acknowledged all the same, so that
    the guest takes its pixels for held; a later partial frame then starts from
    zeros outside its tiles. *)
Lemma allocation_failure_loses_pixels (t : texture * texture) t2 seq seq' w h tiles0 tiles s x y :
  surface (win s) = None → presentable w h → x < w → y < h → covered_area w h tiles < w * h →
  (∀ tile, tile ∈ accepted w h tiles → ¬ inside tile.1 x y) →
  let s1 := on_frame (None, t2) seq w h true tiles0 s in
  let s2 := on_frame (Some t.1, Some t.2) seq' w h false tiles s1 in
  (apply_frame (None, t2) seq w h true tiles0 (win s)).1 = false ∧ screen s2 x y = Some [0; 0; 0; 0]%Z.
Proof.
  intros Hsf [Hnz Hmax] Hx Hy Hcov Hout. cbn zeta.
  assert (surface (win (on_frame (None, t2) seq w h true tiles0 s)) = None ∧
    (apply_frame (None, t2) seq w h true tiles0 (win s)).1 = false) as [Hs1 ->].
  { unfold on_frame, apply_frame, surface_for. rewrite !decide_False, Hsf by done. done. }
  split; [done|]. set (s1 := on_frame (None, t2) seq w h true tiles0 s) in *. clearbody s1.
  unfold on_frame, surface_for. rewrite !decide_False, Hs1 by done. cbn [snd fmap option_fmap option_map screen Surface_new].
  cbn. unfold screen_after. cbn [orb andb]. rewrite bool_decide_eq_true_2 by done.
  assert (∀ l scr, (∀ tile : Rect * bytes, tile ∈ l → ¬ inside tile.1 x y) → paint_all l scr x y = scr x y) as Hpaint.
  { unfold paint_all. induction l as [|tile l IH]; intros scr Hl; cbn; [done|]. rewrite IH by (intros; apply Hl; by right).
    unfold paint. rewrite decide_False by (apply Hl; by left). done. }
  rewrite Hpaint by done. unfold paint. cbn. rewrite decide_True by (unfold inside; cbn; lia). f_equal.
  unfold px, BYTES_PER_PIXEL. rewrite drop_replicate, take_replicate.
  replace (4 `min` _) with 4 by nia. done.
Qed.

End host.

(** * The system's invariant *)

(** An event of the guest's channel, over the connection that is up and the
    generations used so far. *)
Definition event_ok (conn : option Z) (next : Z) (ev : HostEvent) : Prop :=
  match ev with
  | Connected gen => (gen < next)%Z
  | Message _ msg => hello_ok msg
  | Disconnected gen => (gen < next)%Z ∧ conn ≠ Some gen
  end.

Section system.
Context `{MetalLaws} `{Lz4Laws}.

(** Whether Metal made the textures of every presentable frame of the window, since
    the connection was made, given whether it did so far. *)
Definition textured (id : WindowId) (a : Action) (s : Sys) (ok : bool) : bool :=
  match a with
  | HostConnects _ _ => match conn s with Some _ => ok | None => true end
  | HostReceives ts _ =>
      match outbox (guest s) with
      | msg :: _ => if linked s then ok && bool_decide (taken id ts msg (app s)) else ok
      | [] => ok
      end
  | _ => ok
  end.

Record sys_inv (id : WindowId) (ok : bool) (s : Sys) : Prop := {
  inv_id : pn_id (g_pane (guest s)) = id;
  inv_core : core (guest s);
  inv_settled : settled (guest s);
  inv_conn : ∀ gen, conn s = Some gen → (gen < next_generation s)%Z;
  inv_gen : ∀ gen, gen_of (guest s) = Some gen → (gen < next_generation s)%Z;
  inv_events : Forall (event_ok (conn s) (next_generation s)) (events s);
  inv_shown : linked s = true → ok = true → shown (view_of <$> windows (app s) !! id) (guest s);
  inv_unlinked : linked s = false → windows (app s) = ∅ ∧ outbox (guest s) = [];
  inv_windows : ∀ i w, windows (app s) !! i = Some w → host_reachable w;
}.

Lemma linked_true s : linked s = true ↔ conn s ≠ None ∧ gen_of (guest s) = conn s.
Proof. apply bool_decide_eq_true. Qed.

Lemma unlinked_conn s : conn s = None → linked s = false.
Proof. intros Hc. apply bool_decide_eq_false. by intros []. Qed.

Lemma core_clear g : core g → core (clear_outbox g).
Proof. done. Qed.

Lemma settled_clear g : settled g → settled (clear_outbox g).
Proof. done. Qed.

Lemma linked_settle s : linked (settle s) = linked s.
Proof. unfold settle. by destruct (linked s) eqn:E. Qed.

Lemma inv_guest id ok s g : sys_inv id ok s → guest_ok (guest s) g → sys_inv id ok (with_guest g s).
Proof.
  intros Hinv (Hc & Hs & Hg & Hid & Hshown). unfold with_guest. set (s1 := mkSys g _ _ _ _).
  assert (linked s1 = linked s) as Hl by (unfold linked, s1; cbn; by rewrite Hg).
  unfold settle. rewrite Hl. destruct (linked s) eqn:Hls; split; cbn; try apply Hinv.
  - by rewrite Hid; apply Hinv.
  - done.
  - done.
  - rewrite Hg. apply Hinv.
  - intros _ Hok. apply Hshown. by apply Hinv.
  - by rewrite Hl.
  - by rewrite Hid; apply Hinv.
  - by apply core_clear.
  - by apply settled_clear.
  - unfold gen_of in *. cbn. rewrite Hg. apply Hinv.
  - change (linked s1 = true → ok = true → shown (view_of <$> windows (app s) !! id) (clear_outbox g)). by rewrite Hl.
  - intros _. split; [by apply (inv_unlinked id ok s Hinv)|done].
Qed.

Lemma inv_break id ok s : sys_inv id ok s → sys_inv id ok (break s).
Proof.
  intros Hinv. split; cbn; try apply Hinv.
  - done.
  - eapply Forall_impl; [apply Hinv|]. intros [gen|gen msg|gen] Hev; [exact Hev..|]. split; [apply Hev|done].
  - done.
  - done.
  - by intros i w Hw.
Qed.

Lemma inv_with_events id ok s evs : sys_inv id ok s → Forall (event_ok (conn s) (next_generation s)) evs →
  sys_inv id ok (mkSys (guest s) (conn s) (app s) evs (next_generation s)).
Proof. intros Hinv Hevs. split; cbn; try apply Hinv. done. Qed.

(** The host's application moves on, its window's view as it was. *)
Lemma inv_app id ok s r : sys_inv id ok s →
  (view_of <$> windows r.1 !! id = view_of <$> windows (app s) !! id) →
  (windows (app s) = ∅ → windows r.1 = ∅) →
  (∀ i w, windows r.1 !! i = Some w → host_reachable w) → Forall hello_ok r.2 →
  sys_inv id ok (with_app r s).
Proof.
  intros Hinv Hview Hempty Hreach Hmsgs. split; cbn; try apply Hinv.
  - apply Forall_app_2; [apply Hinv|]. destruct (conn s); [|done]. apply Forall_fmap. by eapply Forall_impl; [exact Hmsgs|].
  - intros Hl Hok. rewrite Hview. by apply Hinv.
  - intros Hl. destruct (inv_unlinked id ok s Hinv Hl). auto.
  - done.
Qed.

Lemma reachable_tick draws w : host_reachable w → host_reachable (PanesSurfaceProps.on_tick draws w).
Proof. intros Hw. eapply host_next; [done|apply host_tick]. Qed.

Lemma reachable_change c w : host_reachable w → host_reachable (change_window c w).
Proof.
  intros Hw. destruct c as [o| |n]; cbn.
  - eapply host_next; [done|apply host_occluded].
  - eapply host_next; [done|apply host_dirty].
  - case_decide; [|done]. eapply host_next; [done|]. by apply host_gpu.
Qed.

Lemma display_tick_spec id j draws a : (∀ i w, windows a !! i = Some w → host_reachable w) →
  let r := display_tick j draws a in
  view_of <$> windows r.1 !! id = view_of <$> windows a !! id ∧ (windows a = ∅ → windows r.1 = ∅) ∧
  (∀ i w, windows r.1 !! i = Some w → host_reachable w) ∧ Forall hello_ok r.2.
Proof.
  intros Hall. unfold display_tick. destruct (windows a !! j) as [w|] eqn:Hw; cbn; [|by split_and!; [..|constructor]].
  split_and!.
  - destruct (decide (j = id)) as [->|Hne]; [|by rewrite lookup_insert_ne].
    rewrite lookup_insert_eq, Hw. cbn. by rewrite view_of_tick.
  - intros He. rewrite He in Hw. done.
  - intros i w' [[<- <-]|[_ Hs]]%lookup_insert_Some; [|by eapply Hall]. eapply reachable_tick, Hall. done.
  - destruct (tk_ack _); [|constructor]. destruct (out a); by repeat constructor.
Qed.

(** * Every action keeps it *)

Definition ticks (a : Action) : nat := match a with GuestTick => 1 | _ => 0 end.

(** An action goes through and keeps the invariant. *)
Definition keeps (id : WindowId) (ok : bool) (a : Action) (s : Sys) : Prop :=
  ∃ s', sys_exec a s = Ok s' ∧ sys_inv id (textured id a s ok) s' ∧ delays (ticks a) (guest s) (guest s').

Lemma delays_refl g : delays 0 g g.
Proof. intros _ _ _. lia. Qed.

Lemma delays_with_guest n s0 g s : delays n s0 g → delays n s0 (guest (with_guest g s)).
Proof. unfold with_guest, settle. by destruct (linked _). Qed.

(** An event of the guest. *)
Lemma keeps_guest id ok n s r : sys_inv id ok s → handles n (guest s) r → ∃ s',
  (g ← r; Ok (with_guest g s)) = (Ok s' : outcome () Sys) ∧ sys_inv id ok s' ∧ delays n (guest s) (guest s').
Proof.
  intros Hinv (g & -> & Hok & Hd). eexists. split; [done|]. split; [by apply inv_guest|by apply delays_with_guest].
Qed.

Lemma read_buffer_wf b : ∃ r, read_buffer b = Ok r ∧ assigns_wf r.
Proof.
  destruct b as [[pool data scale|]|]; cbn; [|by eexists..].
  destruct (copy_shm_spec pool data) as (r & -> & Hr). cbn. eexists. split; [done|].
  intros p sc [= -> ->]. by destruct (Hr p eq_refl) as (_ & _ & Hwf & _).
Qed.

(** A guest that starts anew while no connection carries its messages. *)
Lemma inv_new_guest id ok s g : sys_inv id ok s → linked s = false → core g → settled g →
  pn_id (g_pane g) = pn_id (g_pane (guest s)) → (∀ gen, gen_of g = Some gen → (gen < next_generation s)%Z) →
  (gen_of g ≠ None → ∀ v, shown v g) → sys_inv id ok (with_guest g s).
Proof.
  intros Hinv Hl Hc Hs Hid Hgen Hsh. destruct (inv_unlinked id ok s Hinv Hl) as [Hw Ho].
  unfold with_guest. set (s1 := mkSys g _ _ _ _). unfold settle. destruct (linked s1) eqn:Hl1; split; cbn; try apply Hinv; try done.
  - rewrite Hid. apply Hinv.
  - intros _ _. apply Hsh. apply linked_true in Hl1 as [Hn Hg]. cbn in *. congruence.
  - by rewrite Hl1.
  - rewrite Hid. apply Hinv.
  - change (linked s1 = true → ok = true → shown (view_of <$> windows (app s) !! id) (clear_outbox g)). by rewrite Hl1.
Qed.

Lemma inv_rest id ok s ev rest : sys_inv id ok s → events s = ev :: rest →
  event_ok (conn s) (next_generation s) ev ∧
  sys_inv id ok (mkSys (guest s) (conn s) (app s) rest (next_generation s)).
Proof.
  intros Hinv He. pose proof (inv_events id ok s Hinv) as Hev. rewrite He in Hev. apply Forall_cons in Hev as [Hev Hrest].
  split; [done|]. by apply inv_with_events.
Qed.

Lemma of_generation_gen gen g : of_generation gen g = true → gen_of g = Some gen.
Proof. unfold of_generation, gen_of. destruct (g_host g); [|done]. intros Hg%bool_decide_eq_true. cbn. by rewrite Hg. Qed.

Lemma keeps_handles id ok s : sys_inv id ok s → keeps id ok GuestHandles s.
Proof.
  intros Hinv. unfold keeps. cbn [sys_exec ticks textured]. destruct (events s) as [|ev rest] eqn:He.
  { exists s. split_and!; [done|done|apply delays_refl]. }
  destruct (inv_rest id ok s ev rest Hinv He) as [Hev Hinv1].
  set (s1 := mkSys (guest s) (conn s) (app s) rest (next_generation s)) in *.
  pose proof (inv_core id ok s Hinv) as Hc. pose proof (inv_settled id ok s Hinv) as Hs.
  assert (handles 0 (guest s1) (Ok (guest s1))) as Hstay by (by apply handles_same; [..|apply same_refl]).
  destruct ev as [gen|gen msg|gen].
  - destruct (g_host (guest s)) as [h|] eqn:Hh.
    + cbn [on_host_event]. unfold refused. rewrite Hh. cbn [mbind outcome_bind]. case_bool_decide.
      * exists (break s1). split; [|split; [by apply inv_break|intros _ _ _; cbn; lia]].
        unfold with_guest, settle. by rewrite unlinked_conn.
      * by apply (keeps_guest id ok 0 s1) in Hstay.
    + destruct (on_connected_spec gen (guest s) Hc Hh) as (g & -> & Hcg & Hsg & Hgen & Hid & Hsh & Ht).
      cbn [mbind outcome_bind]. unfold refused. rewrite Hh. eexists. split; [done|]. split.
      * apply inv_new_guest; [done| |done|done|done| |done].
        -- apply bool_decide_eq_false. cbn. unfold gen_of. rewrite Hh. cbn. intros [Hn Hg]. congruence.
        -- intros gen'. rewrite Hgen. intros [= <-]. exact Hev.
      * apply delays_with_guest. intros _ _ _. rewrite Ht. lia.
  - cbn [on_host_event refused]. destruct (of_generation gen (guest s)); [|by apply (keeps_guest id ok 0 s1) in Hstay].
    apply (keeps_guest id ok 0 s1); [done|]. by apply on_host_msg_spec.
  - destruct (of_generation gen (guest s)) eqn:Hg; [|cbn [on_host_event refused]; rewrite Hg; by apply (keeps_guest id ok 0 s1) in Hstay].
    destruct (on_disconnected_spec gen (guest s) Hc Hg) as (g & -> & Hcg & Hsg & Hnone & Hid).
    cbn [mbind outcome_bind refused]. eexists. split; [done|]. apply of_generation_gen in Hg. split.
    + apply inv_new_guest; try done.
      * apply bool_decide_eq_false. cbn. rewrite Hg. intros [_ Heq]. destruct Hev as [_ []]. done.
      * intros gen'. unfold gen_of. by rewrite Hnone.
      * unfold gen_of. by rewrite Hnone.
    + apply delays_with_guest. intros _ _ Hlink. unfold gen_of in Hg. rewrite Hnone in Hlink.
      destruct (g_host (guest s)); [|done]. by destruct Hlink as [? ?].
Qed.

(** The host reads a message. *)
Lemma inv_receives id ok ok' s msg rest r : sys_inv id ok s → linked s = true → outbox (guest s) = msg :: rest →
  (ok' = true → ok = true ∧ view_of <$> windows r.1 !! id = view_step id (view_of <$> windows (app s) !! id) msg) →
  (∀ i w, windows r.1 !! i = Some w → host_reachable w) → Forall hello_ok r.2 →
  sys_inv id ok' (with_app r (mkSys (mkGuest (g_host (guest s)) (g_pane (guest s)) rest (waiting (guest s)))
    (conn s) (app s) (events s) (next_generation s))).
Proof.
  intros Hinv Hl Ho Hview Hreach Hmsgs. split; cbn; try apply Hinv; try done.
  - apply Forall_app_2; [apply Hinv|]. destruct (conn s); [|done]. apply Forall_fmap. by eapply Forall_impl; [exact Hmsgs|].
  - intros _ [Hok Hv]%Hview. destruct (inv_shown id ok s Hinv Hl Hok) as [Hann Hmir]. unfold shown, final in *. cbn in *.
    rewrite Ho in Hann, Hmir. cbn in Hann, Hmir. rewrite (inv_id id ok s Hinv) in *. by rewrite Hv.
  - change (linked s = false → windows r.1 = ∅ ∧ rest = []). by rewrite Hl.
Qed.

Lemma handle_msg_hello ts msg a : Forall hello_ok (handle_msg ts msg a).2.
Proof.
  destruct msg as [| i ? ? ? ? ?| | |i sq w h fl tl|i| | | |]; cbn; try done.
  - by destruct (windows a !! i).
  - destruct (windows a !! i); cbn; [|done]. destruct (_ && _); by repeat constructor.
Qed.

Lemma keeps_receives id ok t repeat s : sys_inv id ok s → keeps id ok (HostReceives t repeat) s.
Proof.
  intros Hinv. unfold keeps. cbn [sys_exec ticks textured]. destruct (outbox (guest s)) as [|msg rest] eqn:Ho.
  { exists s. split_and!; [done|done|apply delays_refl]. }
  destruct (linked s) eqn:Hl; [|exists s; split_and!; [done|done|apply delays_refl]].
  eexists. split; [done|]. split; [|unfold host_receives; destruct msg; try case_decide; intros _ _ _; cbn; lia].
  assert (∀ m, msg = m → sys_inv id (ok && bool_decide (taken id t m (app s))) (with_app (handle_msg t m (app s))
    (mkSys (mkGuest (g_host (guest s)) (g_pane (guest s)) rest (waiting (guest s))) (conn s) (app s) (events s)
      (next_generation s)))) as Hmsg.
  { intros m <-. apply (inv_receives id ok _ s msg); [done..| | |apply handle_msg_hello].
    { intros [Hok Ht%bool_decide_eq_true]%andb_true_iff. split; [done|by apply handle_msg_view]. }
    apply handle_msg_reachable, (inv_windows id ok s Hinv). }
  unfold host_receives. destruct msg; try by apply Hmsg.
  rewrite (bool_decide_eq_true_2 (taken id t _ (app s))), andb_true_r by done.
  case_decide; [|exact (inv_break id ok s Hinv)].
  eapply (inv_receives id ok ok s); [done..| |apply Hinv|]; [done|]. cbn. unfold send_key_repeat. cbn.
  case_decide; [done|]. destruct (out (app s)); by repeat constructor.
Qed.

Lemma exec_keeps id ok a s : sys_inv id ok s → keeps id ok a s.
Proof.
  intros Hinv. pose proof (inv_core id ok s Hinv) as Hc. pose proof (inv_settled id ok s Hinv) as Hs.
  destruct a as [configured buffer mn mx cb|title|app_id| | |gen|rf sc| |t repeat|j draws|j c|msg|i];
    [| | | |by apply keeps_handles| | | |by apply keeps_receives| | | |]; unfold keeps; cbn [sys_exec ticks textured].
  - destruct (read_buffer_wf buffer) as (b & -> & Hb). cbn [mbind outcome_bind].
    apply keeps_guest; [done|]. by apply on_commit_spec.
  - apply (keeps_guest id ok 0 s (Ok _)); [done|]. apply handles_same; [done..|apply same_title].
  - apply (keeps_guest id ok 0 s (Ok _)); [done|]. apply handles_same; [done..|apply same_meta].
  - apply keeps_guest; [done|]. by apply on_tick_spec.
  - case_decide as Hg; (eexists; split; [done|split; [|apply delays_refl]]); [|done].
    apply inv_with_events; [done|]. apply Forall_app_2; [apply Hinv|]. constructor; [|done]. cbn. tauto.
  - destruct (conn s) eqn:Hcn; (eexists; split; [done|split; [|apply delays_refl]]); [done|].
    pose proof (unlinked_conn s Hcn) as Hl. destruct (inv_unlinked id ok s Hinv Hl) as [Hw Ho].
    assert (linked (host_connects rf sc s) = false) as Hl'.
    { apply bool_decide_eq_false. cbn. intros [_ Hg]. apply (inv_gen id ok s Hinv) in Hg. lia. }
    split; try apply Hinv; cbn.
    + intros gen [= <-]. lia.
    + intros gen Hg. apply (inv_gen id ok s Hinv) in Hg. lia.
    + apply Forall_app_2.
      * eapply Forall_impl; [apply Hinv|]. intros [gen|gen msg|gen]; cbn; [lia|done|].
        intros [Hlt _]. split; [lia|]. intros [= Heq]. lia.
      * repeat constructor. cbn. lia.
    + by rewrite Hl'.
    + done.
  - eexists. split; [done|]. split; [by apply inv_break|intros _ _ _; cbn; lia].
  - eexists. split; [done|]. split; [|apply delays_refl].
    destruct (display_tick_spec id j draws (app s) (inv_windows id ok s Hinv)) as (A1 & A2 & A3 & A4). by apply inv_app.
  - eexists. split; [done|]. split; [|apply delays_refl]. apply inv_app; cbn; try done.
    + destruct (decide (j = id)) as [->|Hne]; [|by rewrite lookup_alter_ne].
      rewrite lookup_alter_eq. destruct (windows (app s) !! id); cbn; [by rewrite view_of_change|done].
    + intros ->. apply map_eq. intros i. destruct (decide (j = i)) as [->|Hne]; [by rewrite lookup_alter_eq, lookup_empty|by rewrite lookup_alter_ne].
    + intros i w Hw. destruct (decide (j = i)) as [->|Hne].
      * rewrite lookup_alter_eq in Hw. apply fmap_Some in Hw as (w0 & Hw0 & ->).
        apply reachable_change. by eapply (inv_windows id ok s Hinv).
      * rewrite lookup_alter_ne in Hw by done. by eapply (inv_windows id ok s Hinv).
  - assert (hello_ok msg → sys_inv id ok (with_app (app s, [msg]) s)) as Hsend.
    { intros Hm. apply inv_app; cbn; try done; [apply Hinv|by repeat constructor]. }
    destruct msg; (eexists; split; [done|split; [|apply delays_refl]]); try done; by apply Hsend.
  - destruct (events s !! i) as [ev|] eqn:Hev; [destruct (may_drop s ev)|];
      (eexists; split; [done|split; [|apply delays_refl]]); [|done|done].
    apply inv_with_events; [done|]. apply Forall_delete, Hinv.
Qed.

Lemma inv_start id : sys_inv id true (Sys_new id).
Proof.
  split; try done.
  - unfold core. cbn. unfold INFLIGHT_WATCHDOG_TICKS, INFLIGHT_WATCHDOG_MAX_TICKS. split; [by split|]. split; [by intros _ cur [=]|].
    split_and!; try done; lia.
Qed.

(** The system's runs, with whether the textures of all frames were made. *)
Inductive sys_run (id : WindowId) : bool → Sys → Prop :=
| run_starts : sys_run id true (Sys_new id)
| run_goes ok s a s' : sys_run id ok s → sys_exec a s = Ok s' → sys_run id (textured id a s ok) s'.

Lemma sys_run_inv id ok s : sys_run id ok s → sys_inv id ok s.
Proof.
  induction 1 as [|ok s a s' _ IH He]; [apply inv_start|].
  destruct (exec_keeps id ok a s IH) as (s2 & He2 & Hinv & _). congruence.
Qed.

Lemma inv_weaken id ok s : sys_inv id ok s → sys_inv id false s.
Proof. intros Hinv. split; try apply Hinv; done. Qed.

Lemma reachable_run id s : sys_reachable id s ↔ ∃ ok, sys_run id ok s.
Proof.
  split.
  - induction 1 as [|s a s' _ [ok IH] He]; [eexists; apply run_starts|]. eexists. by eapply run_goes.
  - intros [ok Hr]. induction Hr as [|ok s a s' _ IH He]; [apply sys_start|by eapply sys_next].
Qed.

Lemma reachable_inv id s : sys_reachable id s → sys_inv id false s.
Proof. intros [ok Hr]%reachable_run. by eapply inv_weaken, sys_run_inv. Qed.

(** A quiet state: the connection has nothing more to bring to the host, and
    the window has no frame in flight. *)
Definition quiet (s : Sys) : Prop :=
  linked s = true ∧ outbox (guest s) = [] ∧ ready_host (guest s) ≠ None ∧ inflight (g_pane (guest s)) = None.

(** The window on the host has the size of these pixels, and whatever a tick
    of the display presents shows them. *)
Definition displays (w : Host) (p : Pixels) : Prop :=
  surface_size (win w) = dims p ∧
  ∀ draws t x y, tk_drawn (tick_of draws w).1 = Some t → x < px_width p → y < px_height p → texel t x y = pixel p x y.

Lemma shows_displays w p : host_reachable w → view_shows (view_of w) p → displays w p.
Proof.
  intros Hw [Hsz Hscr]. cbn in Hsz, Hscr.
  assert (surface_size (win w) = dims p) as Hsize by (unfold surface_size; by destruct (surface (win w)); simplify_eq/=).
  split; [done|]. intros draws t x y Ht Hx Hy.
  destruct (tick_spec w draws (host_reachable_inv w Hw)) as [_ Htick].
  destruct (tick_of draws w) as [tk w']. destruct Htick as (_ & Hdrawn & _).
  apply (Hdrawn t Ht); [by rewrite Hsize..|by apply Hscr].
Qed.

Lemma quiet_displays id s cur : sys_inv id true s → quiet s →
  current (store (g_pane (guest s))) = Some cur → presentable (px_width cur) (px_height cur) →
  ∃ w, windows (app s) !! id = Some w ∧ displays w cur.
Proof.
  intros Hinv (Hl & Ho & Hr & Hi) Hcur Hp.
  destruct (inv_settled id true s Hinv Hr Hi) as (_ & _ & Hup).
  destruct (Hup cur Hcur) as [Hsent|Hz]; [|unfold presentable in Hp; lia].
  destruct (inv_shown id true s Hinv Hl eq_refl) as [_ Hmir]. unfold final in Hmir. rewrite Ho in Hmir. cbn in Hmir.
  destruct (Hmir cur Hsent Hp) as (v & Hv & Hshows).
  destruct (windows (app s) !! id) as [w|] eqn:Hw; [|done]. cbn in Hv. injection Hv as <-.
  exists w. split; [done|]. apply shows_displays; [by eapply (inv_windows id true s Hinv)|done].
Qed.

(** A client that waits for its callback while [n] ticks of the guest pass and
    its link is not given up. *)
Inductive waits (s : Sys) : nat → Sys → Prop :=
| waits_now : waiting (guest s) = true → waits s 0 s
| waits_more n s1 a s2 : waits s n s1 → sys_exec a s1 = Ok s2 → waiting (guest s2) = true →
    (is_Some (g_host (guest s1)) → is_Some (g_host (guest s2))) → waits s (n + ticks a) s2.

Lemma waits_spec id s n s' : sys_inv id false s → waits s n s' →
  sys_inv id false s' ∧ waiting (guest s') = true ∧ n ≤ inflight_ticks (g_pane (guest s')).
Proof.
  intros Hinv Hw. induction Hw as [Hw|n s1 a s2 _ (Hi & Hw1 & Hn) He Hw2 Hlink]; [split_and!; [done..|lia]|].
  destruct (exec_keeps id false a s1 Hi) as (s2' & He' & Hinv'%inv_weaken & Hd). rewrite He in He'. injection He' as <-.
  specialize (Hd Hw1 Hw2 Hlink). split_and!; [done..|lia].
Qed.

End system.

(** C1. What the host displays.  However the client's commits, the ticks and
    messages of both sides, and the loss and the making of connections
    interleave, whatever acks the host sends and whatever textures Metal makes:
    no party panics.  Since the connection was made, let Metal have made the
    textures of every presentable frame of the window that needed new ones (a
    frame whose textures are not made is dropped, and acked, and its pixels are
    missing later: [allocation_failure_loses_pixels]).  Then, once the messages of
    the connection are through and no frame is in flight, if the client's last
    commit has a presentable size (neither side 0 nor above 16384), the host has
    the window, at that size, and every texture that a tick of its display
    presents shows exactly the committed pixels. *)
Theorem display_correct `{ML : MetalLaws} `{LL : Lz4Laws} id made (s : Sys) : sys_run id made s →
  (∀ a, ∃ s', sys_exec a s = Ok s' ∧ sys_run id (textured id a s made) s') ∧
  ∀ cur, made = true → quiet s → current (store (g_pane (guest s))) = Some cur →
    presentable (px_width cur) (px_height cur) →
    ∃ w, windows (app s) !! id = Some w ∧ displays w cur.
Proof.
  intros Hs. pose proof (sys_run_inv id made s Hs) as Hinv. split.
  - intros a. destruct (exec_keeps id made a s Hinv) as (s' & He & _). exists s'. split; [done|by eapply run_goes].
  - intros cur ->. by apply quiet_displays.
Qed.

(** C29. No client is left waiting.  A client that waits for the callback of its
    last commit while a host is ready has a frame in flight, so that an ack is
    due; the ack of that frame, or of a later one, releases the client at once;
    and whatever the host does, also if it never sends an ack, the client does
    not wait for 80 ticks of the guest while its link is not given up. *)
Theorem callbacks_released `{ML : MetalLaws} `{LL : Lz4Laws} id (s : Sys) : sys_reachable id s →
  (waiting (guest s) = true → ready_host (guest s) ≠ None → ∃ seq, inflight (g_pane (guest s)) = Some seq) ∧
  (∀ seq awaited, inflight (g_pane (guest s)) = Some awaited → (awaited ≤ seq)%Z →
    ∃ g, on_host_msg (Ack id seq) (guest s) = Ok g ∧ waiting g = false) ∧
  ∀ n s', waits s n s' → n < INFLIGHT_WATCHDOG_MAX_TICKS.
Proof.
  intros Hs. pose proof (reachable_inv id s Hs) as Hinv. pose proof (inv_core id false s Hinv) as Hc. split_and!.
  - intros Hw Hr. destruct (inflight (g_pane (guest s))) as [seq|] eqn:Hi; [by exists seq|].
    destruct (inv_settled id false s Hinv Hr Hi) as [? _]. congruence.
  - intros seq awaited Hi Hle. pose proof (on_host_msg_spec (Ack id seq) (guest s) Hc (inv_settled id false s Hinv) I) as Hok.
    destruct Hc as (K1 & K2 & K3 & K4 & K5 & K6). unfold on_host_msg, is_ready, on_ack.
    rewrite bool_decide_eq_true_2; [|apply not_eq_None_Some; intros Hn; destruct (K3 Hn); congruence].
    cbn [negb]. rewrite decide_True by (by rewrite (inv_id id false s Hinv)). rewrite Hi, decide_True by done.
    set (g1 := fire_frame_callbacks _).
    destruct (pump_spec g1) as (g & Hp & _ & _ & Hw & _).
    { unfold core, g1, ready_host in *. cbn. unfold INFLIGHT_WATCHDOG_TICKS, INFLIGHT_WATCHDOG_MAX_TICKS.
      split; [done|]. split_and!; try done; [|lia|lia]. intros Hn. by destruct (K3 Hn). }
    exists g. split; [done|]. destruct (waiting g); [|done]. by specialize (Hw eq_refl).
  - intros n s' Hw. destruct (waits_spec id s n s' Hinv Hw) as (Hinv' & _ & Hn).
    destruct (inv_core id false s' Hinv') as (_ & _ & _ & _ & _ & Ht). lia.
Qed.

(** * Witnesses *)

Definition demo_texture : @texture demo_metal := (λ _ _, []) : nat → nat → bytes.

(** A commit of two pixels before there is a host; a host that connects, reads
    what the guest sends, presents, and acks. *)
Definition demo_actions : list (@Action demo_metal) :=
  [ClientCommits true (Some (Attach [1; 2; 3; 4; 5; 6; 7; 8]%Z (mkBufferData 0 2 1 8 Argb8888) 1)) None None true;
   HostConnects 60000 2; GuestHandles; GuestHandles] ++
  replicate 3 (HostReceives (Some demo_texture, Some demo_texture) (375, 90)%Z).

Definition demo_present : list (@Action demo_metal) := [HostTicks 1%Z true; GuestHandles; GuestHandles].

Definition run (acts : list (@Action demo_metal)) (s : @Sys demo_metal) : @Sys demo_metal :=
  foldl (λ s a, match @sys_exec demo_metal demo_lz4 a s with Ok s' => s' | _ => s end) s acts.

Lemma run_reachable id acts s : @sys_reachable demo_metal demo_lz4 id s → @sys_reachable demo_metal demo_lz4 id (run acts s).
Proof.
  revert s. induction acts as [|a acts IH]; intros s Hs; cbn; [done|]. apply IH.
  destruct (sys_exec a s) eqn:He; [by eapply sys_next|done..].
Qed.

(** The same, with whether the textures were made. *)
Definition made_after (id : WindowId) (acts : list (@Action demo_metal)) (sm : @Sys demo_metal * bool) :
    @Sys demo_metal * bool :=
  foldl (λ sm a, match @sys_exec demo_metal demo_lz4 a sm.1 with
    | Ok s' => (s', @textured demo_metal id a sm.1 sm.2)
    | _ => sm
    end) sm acts.

Lemma made_run id acts sm : @sys_run demo_metal demo_lz4 id sm.2 sm.1 →
  @sys_run demo_metal demo_lz4 id (made_after id acts sm).2 (made_after id acts sm).1.
Proof.
  revert sm. induction acts as [|a acts IH]; intros [s m] Hs; cbn; [done|]. apply IH.
  cbn in *. destruct (sys_exec a s) eqn:He; [by eapply run_goes|done..].
Qed.

Lemma made_run_start id acts :
  @sys_run demo_metal demo_lz4 id (made_after id acts (@Sys_new demo_metal id, true)).2 (run acts (@Sys_new demo_metal id)).
Proof.
  assert (∀ sm, (made_after id acts sm).1 = run acts sm.1) as H1.
  { induction acts as [|a acts IH]; intros [s m]; [done|]. unfold made_after, run in *. cbn [foldl]. rewrite IH. cbn [fst].
    by destruct (sys_exec a s). }
  pose proof (made_run id acts (@Sys_new demo_metal id, true) (run_starts id)) as Hs. by rewrite H1 in Hs.
Qed.

Definition demo_waiting : @Sys demo_metal := run demo_actions (@Sys_new demo_metal 1).
Definition demo_quiet : @Sys demo_metal := run (demo_actions ++ demo_present) (@Sys_new demo_metal 1).

Definition demo_made : bool := (made_after 1 (demo_actions ++ demo_present) (@Sys_new demo_metal 1, true)).2.

Lemma demo_quiet_run : @sys_run demo_metal demo_lz4 1 demo_made demo_quiet.
Proof.
  exact (made_run_start 1 (demo_actions ++ demo_present)).
Qed.

Lemma display_correct_witness : ∃ w, windows (app demo_quiet) !! 1%Z = Some w ∧
  displays w (mkPixels [1; 2; 3; 4; 5; 6; 7; 8]%Z 2 1) ∧
  tk_drawn (tick_of (H := demo_metal) true (change_window Redraw w)).1 ≠ None.
Proof.
  destruct (display_correct (ML := demo_metal_laws) (LL := demo_lz4_laws) 1%Z demo_made demo_quiet demo_quiet_run) as [_ Hshow].
  destruct (Hshow (mkPixels [1; 2; 3; 4; 5; 6; 7; 8]%Z 2 1)) as (w & Hw & Hd).
  - by vm_compute.
  - do 2 (split; [by vm_compute|]). split; by vm_compute.
  - by vm_compute.
  - split; vm_compute; by intros [Hx|Hx].
  - exists w. split; [done|]. split; [done|].
    assert ((λ w', bool_decide (is_Some (tk_drawn (tick_of (H := demo_metal) true (change_window Redraw w')).1))) <$>
      windows (app demo_quiet) !! 1%Z = Some true) as Hb by (by vm_compute).
    rewrite Hw in Hb. apply (inj Some), bool_decide_eq_true in Hb. by apply not_eq_None_Some.
Defined.

Lemma callbacks_released_witness : ∃ seq, inflight (g_pane (guest demo_waiting)) = Some seq ∧
  (∃ g, @on_host_msg demo_lz4 (Ack 1 seq) (guest demo_waiting) = Ok g ∧ waiting g = false) ∧
  ∀ n s', @waits demo_metal demo_lz4 demo_waiting n s' → n < INFLIGHT_WATCHDOG_MAX_TICKS.
Proof.
  assert (sys_reachable 1 demo_waiting) as Hs by (apply run_reachable, sys_start).
  destruct (callbacks_released (ML := demo_metal_laws) (LL := demo_lz4_laws) 1%Z demo_waiting Hs) as (Hinfl & Hack & Hwait).
  destruct Hinfl as [seq Hseq]; [by vm_compute|by vm_compute|]. exists seq. split; [done|]. split; [|exact Hwait].
  by eapply (Hack seq seq); [|lia].
Defined.
