(* ===== verification/AstLines.v ===== *)
(** Merging by lines, [packages/ast-merge/diff/src/lines.rs]: the diff3 merge
    that [git] falls back to, and the simple merge of function bodies; with the
    results of [conflict.rs].

    The diff algorithm is the [similar] crate's and a parameter. *)

From stdpp Require Import base gmap sets list strings.
From S2P Require Import Prelude Chars.
Local Open Scope nat_scope.

(** * Results *)

Record Region := mkRegion { rg_start : nat; rg_end : nat; rg_text : text }.
Record Conflict := mkConflict { cf_base : option Region; cf_left : Region; cf_right : Region }.
Record MergeResult := mkResult { content : text; mr_conflicts : list Conflict; success : bool }.

Definition result_success (content : text) : MergeResult := mkResult content [] true.
Definition with_conflicts (content : text) (conflicts : list Conflict) : MergeResult := mkResult content conflicts false.

(** * Diffs of the [similar] crate *)

(** [Range<usize>]. *)
Record Range := mkRange { start : nat; stop : nat }.

Inductive ChangeTag := TagEqual | TagDelete | TagInsert.

(** A [DiffOp], by its tag and its ranges. *)
Record DiffOp := mkOp { is_equal : bool; old_range : Range; new_range : Range }.

(** [capture_diff_slices] and [TextDiff::diff_slices(..).iter_all_changes()]
    with the patience algorithm. *)
Class Similar := {
  capture_diff_slices : list text → list text → list DiffOp;
  all_changes : list text → list text → list (ChangeTag * text);
}.

(** [xs[s..e]]. *)
Definition cut {A} (xs : list A) (s e : nat) : list A := take (e - s) (drop s xs).
Arguments cut : simpl never.
Definition sub_slice {A} (xs : list A) (s e : nat) : outcome () (list A) :=
  if decide (s ≤ e ∧ e ≤ length xs) then Ok (cut xs s e) else Panic.

(** [a - b] on [usize]. *)
Definition usub (a b : nat) : outcome () nat := if decide (b ≤ a) then Ok (a - b) else Panic.

(** The ops take both sequences apart from these positions on, in order. *)
Fixpoint covers {A} (old new : list A) (i j : nat) (ops : list DiffOp) : Prop :=
  match ops with
  | [] => i = length old ∧ j = length new
  | op :: ops =>
      start (old_range op) = i ∧ start (new_range op) = j ∧
      i ≤ stop (old_range op) ∧ j ≤ stop (new_range op) ∧
      stop (old_range op) ≤ length old ∧ stop (new_range op) ≤ length new ∧
      (is_equal op = true → cut old i (stop (old_range op)) = cut new j (stop (new_range op))) ∧
      covers old new (stop (old_range op)) (stop (new_range op)) ops
  end.

(** The changes spell both sequences. *)
Definition olds (changes : list (ChangeTag * text)) : list text :=
  omap (λ c, match c.1 with TagInsert => None | _ => Some c.2 end) changes.
Definition news (changes : list (ChangeTag * text)) : list text :=
  omap (λ c, match c.1 with TagDelete => None | _ => Some c.2 end) changes.

Class SimilarLaws `{!Similar} : Prop := {
  capture_covers : ∀ old new, covers old new 0 0 (capture_diff_slices old new);
  changes_old : ∀ old new, olds (all_changes old new) = old;
  changes_new : ∀ old new, news (all_changes old new) = new;
  changes_same : ∀ ls, all_changes ls ls = pair TagEqual <$> ls;
}.

(** * The diff3 merge *)

Record Hunk := mkHunk { hk_base : Range; hk_side : Range }.

(** [push_lines]. *)
Definition push_lines (output : text) (ls : list text) : text :=
  foldl (λ output line, output ++ line ++ [newline]) output ls.

Section merge.
Context `{Similar}.

(** [hunks]. *)
Definition hunks (base side : list text) : list Hunk :=
  (λ op, mkHunk (old_range op) (new_range op)) <$>
    filter (λ op, is_equal op = false) (capture_diff_slices base side).

Record SideCursor := mkCursor { sc_hunks : list Hunk; sc_next : nat; sc_last : option Hunk; sc_pos : nat }.

(** [SideCursor::new]. *)
Definition SideCursor_new (hunks : list Hunk) : SideCursor := mkCursor hunks 0 None 0.

(** [SideCursor::peek_start]. *)
Definition peek_start (c : SideCursor) : option nat := start ∘ hk_base <$> sc_hunks c !! sc_next c.

(** [SideCursor::consume], from whether it grew already: the end, the cursor,
    and whether it grew. *)
Fixpoint consume_loop (fuel : nat) (stop_at : nat) (grew : bool) (c : SideCursor) :
    outcome () (nat * SideCursor * bool) :=
  match sc_hunks c !! sc_next c with
  | Some hunk =>
      if decide (start (hk_base hunk) ≤ stop_at) then
        match fuel with
        | O => Panic
        | S fuel =>
            consume_loop fuel (stop_at `max` stop (hk_base hunk)) true
              (mkCursor (sc_hunks c) (S (sc_next c)) (Some hunk) (sc_pos c))
        end
      else Ok (stop_at, c, grew)
  | None => Ok (stop_at, c, grew)
  end.

Definition consume (stop_at : nat) (c : SideCursor) : outcome () (nat * SideCursor * bool) :=
  consume_loop (length (sc_hunks c)) stop_at false c.

(** [while left.consume(&mut end) | right.consume(&mut end) {}]. *)
Fixpoint grow (fuel : nat) (stop_at : nat) (left right : SideCursor) :
    outcome () (nat * SideCursor * SideCursor) :=
  '(stop_at, left, grew_left) ← consume stop_at left;
  '(stop_at, right, grew_right) ← consume stop_at right;
  if grew_left || grew_right : bool then
    match fuel with
    | O => Panic
    | S fuel => grow fuel stop_at left right
    end
  else Ok (stop_at, left, right).

(** [SideCursor::region_end]. *)
Definition region_end (region_start stop_at : nat) (c : SideCursor) : outcome () nat :=
  match sc_last c with
  | None => d ← usub stop_at region_start; Ok (sc_pos c + d)
  | Some hunk => d ← usub stop_at (stop (hk_base hunk)); Ok (stop (hk_side hunk) + d)
  end.

Definition LEFT_MARKER : text := chars_of "<<<<<<< LEFT".
Definition BASE_MARKER : text := chars_of "||||||| BASE".
Definition SEPARATOR : text := chars_of "=======".
Definition RIGHT_MARKER : text := chars_of ">>>>>>> RIGHT".

(** What the loop of [based] carries. *)
Record Progress := mkProgress {
  pg_output : text; pg_conflicts : list Conflict; pg_cursor : nat; pg_left : SideCursor; pg_right : SideCursor }.

Definition with_pos (c : SideCursor) (pos : nat) : SideCursor := mkCursor (sc_hunks c) (sc_next c) (sc_last c) pos.
Definition without_last (c : SideCursor) : SideCursor := mkCursor (sc_hunks c) (sc_next c) None (sc_pos c).

(** The text of a region, and the conflict it is, if it is one. *)
Definition resolve (output : text) (region_start stop_at left_pos left_end right_pos right_end : nat)
    (base_seg left_seg right_seg : list text) : text * option Conflict :=
  if decide (left_seg = right_seg) then (push_lines output left_seg, None)
  else if decide (left_seg = base_seg) then (push_lines output right_seg, None)
  else if decide (right_seg = base_seg) then (push_lines output left_seg, None)
  else
    let output := output ++ LEFT_MARKER ++ [newline] in
    let output := push_lines output left_seg in
    let output := output ++ BASE_MARKER ++ [newline] in
    let output := push_lines output base_seg in
    let output := output ++ SEPARATOR ++ [newline] in
    let output := push_lines output right_seg in
    let output := output ++ RIGHT_MARKER ++ [newline] in
    (output,
     Some (mkConflict
       (if bool_decide (base_seg = []) then None else Some (mkRegion region_start stop_at (join [newline] base_seg)))
       (mkRegion left_pos left_end (join [newline] left_seg))
       (mkRegion right_pos right_end (join [newline] right_seg)))).

(** One turn of the loop, at the next hunk. *)
Definition based_turn (base left right : list text) (next : nat) (p : Progress) : outcome () Progress :=
  between ← sub_slice base (pg_cursor p) next;
  let output := push_lines (pg_output p) between in
  d ← usub next (pg_cursor p);
  let l := with_pos (pg_left p) (sc_pos (pg_left p) + d) in
  let r := with_pos (pg_right p) (sc_pos (pg_right p) + d) in
  '(stop_at, l, r) ← grow (length (sc_hunks l) + length (sc_hunks r)) next (without_last l) (without_last r);
  left_end ← region_end next stop_at l;
  right_end ← region_end next stop_at r;
  base_seg ← sub_slice base next stop_at;
  left_seg ← sub_slice left (sc_pos l) left_end;
  right_seg ← sub_slice right (sc_pos r) right_end;
  let '(output, conflict) :=
    resolve output next stop_at (sc_pos l) left_end (sc_pos r) right_end base_seg left_seg right_seg in
  Ok (mkProgress output (pg_conflicts p ++ option_list conflict) stop_at (with_pos l left_end) (with_pos r right_end)).

(** [[left.peek_start(), right.peek_start()].into_iter().flatten().min()]. *)
Definition next_start (l r : SideCursor) : option nat :=
  match peek_start l, peek_start r with
  | Some a, Some b => Some (a `min` b)
  | Some a, None => Some a
  | None, b => b
  end.

Fixpoint based_loop (fuel : nat) (base left right : list text) (p : Progress) : outcome () Progress :=
  match next_start (pg_left p) (pg_right p) with
  | None => Ok p
  | Some next =>
      match fuel with
      | O => Panic
      | S fuel => p ← based_turn base left right next p; based_loop fuel base left right p
      end
  end.

(** [based]. *)
Definition based (base left right : text) : outcome () MergeResult :=
  if decide (left = right) then Ok (result_success left)
  else if decide (base = left) then Ok (result_success right)
  else if decide (base = right) then Ok (result_success left)
  else
    let base_lines := lines base in
    let left_lines := lines left in
    let right_lines := lines right in
    let left_hunks := hunks base_lines left_lines in
    let right_hunks := hunks base_lines right_lines in
    p ← based_loop (length left_hunks + length right_hunks) base_lines left_lines right_lines
      (mkProgress [] [] 0 (SideCursor_new left_hunks) (SideCursor_new right_hunks));
    rest ← sub_slice base_lines (pg_cursor p) (length base_lines);
    let output := push_lines (pg_output p) rest in
    Ok (if bool_decide (pg_conflicts p = []) then result_success output else with_conflicts output (pg_conflicts p)).

(** * The merge of bodies *)

Record Outcome := mkOutcome { oc_content : text; has_conflict : bool }.

(** [ChangeMaps]: the base lines deleted, and the lines inserted before a base
    line. *)
Record ChangeMaps := mkChanges { deletions : gset nat; insertions : gmap nat (list text) }.

(** The loop body of [build_change_maps], and the function. *)
Definition change_step (st : nat * ChangeMaps) (change : ChangeTag * text) : nat * ChangeMaps :=
  let '(base_idx, m) := st in
  match change.1 with
  | TagEqual => (S base_idx, m)
  | TagDelete => (S base_idx, mkChanges ({[base_idx]} ∪ deletions m) (insertions m))
  | TagInsert => (base_idx, mkChanges (deletions m)
      (<[base_idx := default [] (insertions m !! base_idx) ++ [change.2]]> (insertions m)))
  end.
Definition build_change_maps (changes : list (ChangeTag * text)) : ChangeMaps :=
  (foldl change_step (0, mkChanges ∅ ∅) changes).2.

(** The insertions of both sides at a position, and whether they disagree. *)
Definition merge_insertions (li ri : option (list text)) : list text * bool :=
  let disagree := match li, ri with Some l, Some r => negb (bool_decide (l = r)) | _, _ => false end in
  let keep line := match li with Some l => bool_decide (line ∉ l) | None => true end in
  (default [] li ++ filter (λ line, keep line = true) (default [] ri), disagree).

(** The loop body of [inner] at a base line. *)
Definition inner_line (l r : ChangeMaps) (st : list text * bool) (line : nat * text) : list text * bool :=
  let '(result, has_conflict) := st in
  let '(i, base_line) := line in
  let '(inserted, disagree) := merge_insertions (insertions l !! i) (insertions r !! i) in
  let kept := if bool_decide (i ∉ deletions l ∧ i ∉ deletions r) then [base_line] else [] in
  (result ++ inserted ++ kept, has_conflict || disagree).

(** [inner]. *)
Definition inner (base left right : text) : Outcome :=
  let base_lines := lines base in
  let left_lines := lines left in
  let right_lines := lines right in
  if decide (left_lines = right_lines) then mkOutcome left false
  else
    let l := build_change_maps (all_changes base_lines left_lines) in
    let r := build_change_maps (all_changes base_lines right_lines) in
    let '(result, has_conflict) := foldl (inner_line l r) ([], false) (imap pair base_lines) in
    let '(inserted, disagree) :=
      merge_insertions (insertions l !! length base_lines) (insertions r !! length base_lines) in
    mkOutcome (join [newline] (result ++ inserted)) (has_conflict || disagree).

End merge.
