(* ===== verification/AstLinesProps.v ===== *)
(** The diff3 merge of [packages/ast-merge/diff/src/lines.rs]: it takes the
    three files apart into stretches that all share and regions that somebody
    edited, resolves every region that one side edited, and reports as
    conflicts exactly those where the edits of both sides touch and differ.
    The merge of function bodies, [inner]: what its change maps mean, and what it
    makes of bodies that only one side edited. *)

From stdpp Require Import base gmap sets list strings.
From S2P Require Import Prelude Chars AstLines.
Local Open Scope nat_scope.

(** * Slices *)

Lemma sub_slice_Ok {A} (xs : list A) s e : s ≤ e → e ≤ length xs → sub_slice xs s e = Ok (cut xs s e).
Proof. intros. unfold sub_slice. by rewrite decide_True. Qed.

Lemma usub_Ok a b : b ≤ a → usub a b = Ok (a - b).
Proof. intros. unfold usub. by rewrite decide_True. Qed.

Lemma length_cut {A} (xs : list A) s e : s ≤ e → e ≤ length xs → length (cut xs s e) = e - s.
Proof. intros. unfold cut. rewrite length_take, length_drop. lia. Qed.

Lemma cut_app {A} (xs : list A) s m e : s ≤ m → m ≤ e → cut xs s m ++ cut xs m e = cut xs s e.
Proof.
  intros. unfold cut. replace (drop m xs) with (drop (m - s) (drop s xs)) by (rewrite drop_drop; f_equal; lia).
  rewrite take_take_drop. f_equal. lia.
Qed.

Lemma cut_nil {A} (xs : list A) s : cut xs s s = [].
Proof. unfold cut. by rewrite Nat.sub_diag. Qed.

Lemma cut_full {A} (xs : list A) : cut xs 0 (length xs) = xs.
Proof. unfold cut. rewrite Nat.sub_0_r, drop_0. by apply take_ge. Qed.

Lemma cut_to_end {A} (xs : list A) s : s ≤ length xs → cut xs s (length xs) = drop s xs.
Proof. intros. unfold cut. apply take_ge. rewrite length_drop. lia. Qed.

(** Equal slices have equal prefixes. *)
Lemma cut_prefix {A} (xs ys : list A) i j n k : k ≤ n → cut xs i (i + n) = cut ys j (j + n) →
  cut xs i (i + k) = cut ys j (j + k).
Proof.
  intros Hk He. unfold cut in *. replace (i + n - i) with n in He by lia. replace (j + n - j) with n in He by lia.
  replace (i + k - i) with k by lia. replace (j + k - j) with k by lia.
  apply (f_equal (take k)) in He. rewrite !take_take in He. by replace (k `min` n) with k in He by lia.
Qed.

Lemma cut_suffix {A} (xs ys : list A) i j n k : k ≤ n → cut xs i (i + n) = cut ys j (j + n) →
  cut xs (i + k) (i + n) = cut ys (j + k) (j + n).
Proof.
  intros Hk He. unfold cut in *. replace (i + n - i) with n in He by lia. replace (j + n - j) with n in He by lia.
  apply (f_equal (drop k)) in He. rewrite !skipn_firstn_comm, !drop_drop in He. replace (i + n - (i + k)) with (n - k) by lia.
  by replace (j + n - (j + k)) with (n - k) by lia.
Qed.

(** * Alignment *)

Section aligned.
Context (base side : list text).

(** From these positions on, the side is the base with these hunks applied. *)
Fixpoint aligned (hs : list Hunk) (b s : nat) : Prop :=
  match hs with
  | [] => b ≤ length base ∧ s ≤ length side ∧ length base - b = length side - s ∧
      cut base b (length base) = cut side s (length side)
  | h :: hs =>
      b ≤ start (hk_base h) ∧ s ≤ start (hk_side h) ∧ start (hk_base h) - b = start (hk_side h) - s ∧
      cut base b (start (hk_base h)) = cut side s (start (hk_side h)) ∧
      start (hk_base h) ≤ stop (hk_base h) ≤ length base ∧ start (hk_side h) ≤ stop (hk_side h) ≤ length side ∧
      aligned hs (stop (hk_base h)) (stop (hk_side h))
  end.

Lemma aligned_bounds hs b s : aligned hs b s → b ≤ length base ∧ s ≤ length side.
Proof. destruct hs; cbn; [tauto|]. lia. Qed.

(** Equal lines before the hunks. *)
Lemma aligned_extend hs b s n : b + n ≤ length base → s + n ≤ length side →
  cut base b (b + n) = cut side s (s + n) → aligned hs (b + n) (s + n) → aligned hs b s.
Proof.
  intros Hb Hs He. destruct hs as [|h hs]; cbn.
  - intros (_ & _ & Hlen & Hc). split_and!; [lia..|].
    rewrite <- (cut_app base b (b + n)), <- (cut_app side s (s + n)) by lia. by rewrite He, Hc.
  - intros (H1 & H2 & H3 & Hc & H5 & H6 & H7). split_and!; [lia..| |lia|lia|lia|lia|done].
    rewrite <- (cut_app base b (b + n)), <- (cut_app side s (s + n)) by lia. by rewrite He, Hc.
Qed.

(** Before the next hunk both move in step. *)
Lemma aligned_advance hs b s e : aligned hs b s → b ≤ e → e ≤ length base →
  (∀ h, head hs = Some h → e ≤ start (hk_base h)) →
  aligned hs e (s + (e - b)) ∧ cut base b e = cut side s (s + (e - b)) ∧ s + (e - b) ≤ length side.
Proof.
  intros Hal Hbe He Hhd. destruct hs as [|h hs]; cbn in *.
  - destruct Hal as (H1 & H2 & H3 & Hc).
    assert (cut base b (b + (length base - b)) = cut side s (s + (length base - b))) as Hc'.
    { by replace (b + (length base - b)) with (length base) by lia; replace (s + (length base - b)) with (length side) by lia. }
    split_and!; [lia..| | |lia].
    + pose proof (cut_suffix base side b s (length base - b) (e - b) ltac:(lia) Hc') as Hs.
      replace (b + (e - b)) with e in Hs by lia. replace (b + (length base - b)) with (length base) in Hs by lia.
      by replace (s + (length base - b)) with (length side) in Hs by lia.
    + pose proof (cut_prefix base side b s (length base - b) (e - b) ltac:(lia) Hc') as Hs. by replace (b + (e - b)) with e in Hs by lia.
  - destruct Hal as (H1 & H2 & H3 & Hc & H5 & H6 & H7). specialize (Hhd h eq_refl).
    set (n := start (hk_base h) - b) in *.
    assert (cut base b (b + n) = cut side s (s + n)) as Hc'.
    { by replace (b + n) with (start (hk_base h)) by lia; replace (s + n) with (start (hk_side h)) by lia. }
    split_and!; [lia..| |lia|lia|lia|lia|done| |lia].
    + pose proof (cut_suffix base side b s n (e - b) ltac:(lia) Hc') as Hs.
      replace (b + (e - b)) with e in Hs by lia. replace (b + n) with (start (hk_base h)) in Hs by lia.
      by replace (s + n) with (start (hk_side h)) in Hs by lia.
    + pose proof (cut_prefix base side b s n (e - b) ltac:(lia) Hc') as Hs. by replace (b + (e - b)) with e in Hs by lia.
Qed.

(** Every hunk lies after the position, and they come in order. *)
Lemma aligned_after hs b s h : aligned hs b s → h ∈ hs →
  b ≤ start (hk_base h) ≤ stop (hk_base h) ∧ stop (hk_base h) ≤ length base ∧
  s ≤ start (hk_side h) ≤ stop (hk_side h) ∧ stop (hk_side h) ≤ length side.
Proof.
  revert b s. induction hs as [|h' hs IH]; intros b s Hal; [by intros ?%not_elem_of_nil|].
  destruct Hal as (H1 & H2 & H3 & Hc & H5 & H6 & H7). intros [->|Hin]%elem_of_cons; [lia|].
  destruct (IH _ _ H7 Hin). lia.
Qed.

(** After some hunks, the position is the end of the last one. *)
Lemma aligned_skip hs rest h b s : aligned (hs ++ rest) b s → last hs = Some h →
  aligned rest (stop (hk_base h)) (stop (hk_side h)) ∧ s ≤ stop (hk_side h).
Proof.
  revert b s. induction hs as [|h' hs IH]; intros b s Hal Hlast; [done|].
  destruct Hal as (H1 & H2 & H3 & Hc & H5 & H6 & H7). destruct hs as [|h'' hs].
  - cbn in Hlast. injection Hlast as <-. cbn in H7. split; [done|lia].
  - destruct (IH _ _ H7) as [HA HB]; [done|]. split; [done|lia].
Qed.

Lemma covers_aligned ops b s : covers base side b s ops → b ≤ length base → s ≤ length side →
  aligned ((λ op, mkHunk (old_range op) (new_range op)) <$> filter (λ op, is_equal op = false) ops) b s.
Proof.
  revert b s. induction ops as [|op ops IH]; intros b s Hc Hb Hs.
  - destruct Hc as [-> ->]. cbn. split_and!; [lia..|]. by rewrite !cut_nil.
  - destruct Hc as (H1 & H2 & H3 & H4 & H5 & H6 & Heq & Hc). specialize (IH _ _ Hc H5 H6).
    destruct (is_equal op) eqn:He.
    + rewrite filter_cons_False by congruence. specialize (Heq eq_refl).
      assert (stop (old_range op) - b = stop (new_range op) - s) as Hn.
      { apply (f_equal length) in Heq. by rewrite !length_cut in Heq by lia. }
      apply (aligned_extend _ _ _ (stop (old_range op) - b)); [lia|lia| |].
      * rewrite Hn at 2. by replace (b + (stop (old_range op) - b)) with (stop (old_range op)) by lia;
          replace (s + (stop (new_range op) - s)) with (stop (new_range op)) by lia.
      * rewrite Hn at 2. by replace (b + (stop (old_range op) - b)) with (stop (old_range op)) by lia;
          replace (s + (stop (new_range op) - s)) with (stop (new_range op)) by lia.
    + rewrite filter_cons_True by done. cbn. rewrite H1, H2, !cut_nil. split_and!; try lia; done.
Qed.

End aligned.

(** * Regions *)

Definition touching (h1 h2 : Hunk) : Prop :=
  start (hk_base h1) ≤ stop (hk_base h2) ∧ start (hk_base h2) ≤ stop (hk_base h1).

Definition spans (h : Hunk) (p : nat) : Prop := start (hk_base h) ≤ p ≤ stop (hk_base h).

(** The hunks of both sides that were consumed fill the region without a gap,
    and if both sides have some, two of them touch. *)
Definition region (rs re : nat) (cl cr : list Hunk) : Prop :=
  rs ≤ re ∧ (∀ h, h ∈ cl ++ cr → rs ≤ start (hk_base h) ≤ stop (hk_base h) ∧ stop (hk_base h) ≤ re) ∧
  (cl ++ cr = [] ∧ re = rs ∨ ∀ p, rs ≤ p ≤ re → ∃ h, h ∈ cl ++ cr ∧ spans h p) ∧
  (cl ≠ [] → cr ≠ [] → ∃ hl hr, hl ∈ cl ∧ hr ∈ cr ∧ touching hl hr).

Lemma region_swap rs re cl cr : region rs re cl cr → region rs re cr cl.
Proof.
  intros (Hle & Hin & Hcov & Ht). split_and!; [done| | |].
  - intros h Hh. apply Hin. set_solver.
  - destruct Hcov as [[[-> ->]%app_nil Hre]|Hcov]; [by left|right]. intros p Hp.
    destruct (Hcov p Hp) as (h & Hh & ?). exists h. set_solver.
  - intros Hr Hl. destruct (Ht Hl Hr) as (hl & hr & ? & ? & ? & ?). by exists hr, hl.
Qed.

Lemma region_consume rs re cl cr h : region rs re cl cr →
  rs ≤ start (hk_base h) ≤ stop (hk_base h) → start (hk_base h) ≤ re →
  region rs (re `max` stop (hk_base h)) (cl ++ [h]) cr.
Proof.
  intros (Hle & Hin & Hcov & Ht) Hh Hs. split_and!; [lia| | |].
  - intros h' Hh'. assert (h' ∈ cl ++ cr ∨ h' = h) as [Hc| ->] by set_solver; [destruct (Hin h' Hc); lia|lia].
  - right. intros p Hp. destruct (decide (p ≤ re)) as [Hpe|Hpe].
    + destruct Hcov as [[_ Hre]|Hcov].
      * exists h. split; [set_solver|]. unfold spans. lia.
      * destruct (Hcov p ltac:(lia)) as (h' & Hh' & ?). exists h'. split; [set_solver|done].
    + exists h. split; [set_solver|]. unfold spans. lia.
  - intros _ Hr. destruct Hcov as [[[_ ->]%app_nil _]|Hcov]; [done|].
    destruct (Hcov (start (hk_base h)) ltac:(lia)) as (h' & [Hl|Hr']%elem_of_app & Hsp).
    + destruct (Ht ltac:(by intros ->; apply not_elem_of_nil in Hl) Hr) as (hl & hr & ? & ? & ?). exists hl, hr. set_solver.
    + exists h, h'. split_and!; [set_solver|done|]. unfold touching, spans in *. lia.
Qed.

(** * Consuming hunks *)

Definition remaining (c : SideCursor) : list Hunk := drop (sc_next c) (sc_hunks c).

(** The cursor has moved past these hunks. *)
Definition moved (c : SideCursor) (taken : list Hunk) (c' : SideCursor) : Prop :=
  remaining c = taken ++ remaining c' ∧ sc_hunks c' = sc_hunks c ∧ sc_pos c' = sc_pos c ∧
  sc_last c' = match last taken with Some h => Some h | None => sc_last c end.

Lemma moved_refl c : moved c [] c.
Proof. done. Qed.

Lemma moved_trans c1 t1 c2 t2 c3 : moved c1 t1 c2 → moved c2 t2 c3 → moved c1 (t1 ++ t2) c3.
Proof.
  intros (A1 & A2 & A3 & A4) (B1 & B2 & B3 & B4). split_and!; try congruence.
  - by rewrite A1, B1, app_assoc.
  - rewrite B4, A4, last_app. by destruct (last t2).
Qed.

Definition beyond (re : nat) (c : SideCursor) : Prop := ∀ h, head (remaining c) = Some h → re < start (hk_base h).

Lemma remaining_length c : length (remaining c) ≤ length (sc_hunks c).
Proof. unfold remaining. rewrite length_drop. lia. Qed.

Section consume.
Context (rs : nat).

(** Hunks that a region may consume. *)
Definition ahead (c : SideCursor) : Prop := ∀ h, h ∈ remaining c → rs ≤ start (hk_base h) ≤ stop (hk_base h).

Lemma moved_ahead c t c' : moved c t c' → ahead c → ahead c'.
Proof. intros (He & _) Ha h Hh. apply Ha. rewrite He. set_solver. Qed.

Lemma consume_loop_spec fuel re grew c cl cr : length (remaining c) ≤ fuel → ahead c → region rs re cl cr →
  ∃ taken re' c', consume_loop fuel re grew c = Ok (re', c', grew || bool_decide (taken ≠ [])) ∧
    moved c taken c' ∧ region rs re' (cl ++ taken) cr ∧ re ≤ re' ∧ beyond re' c' ∧ (taken = [] → re' = re).
Proof.
  revert re grew c cl. induction fuel as [|fuel IH]; intros re grew c cl Hfuel Hahead Hreg.
  - assert (remaining c = []) as Hnil by (by apply nil_length_inv; lia).
    exists [], re, c. cbn. rewrite app_nil_r, orb_false_r.
    assert (sc_hunks c !! sc_next c = None) as ->.
    { apply lookup_ge_None. apply (f_equal length) in Hnil. unfold remaining in Hnil. rewrite length_drop in Hnil. cbn in Hnil. lia. }
    split_and!; [done..| |done]. intros h. by rewrite Hnil.
  - cbn [consume_loop]. destruct (sc_hunks c !! sc_next c) as [hunk|] eqn:Hn.
    + assert (remaining c = hunk :: drop (S (sc_next c)) (sc_hunks c)) as Hrem by (unfold remaining; by rewrite (drop_S _ hunk)).
      case_decide as Hs.
      * set (c1 := mkCursor _ _ _ _).
        assert (moved c [hunk] c1) as Hm by (by split_and!).
        destruct (IH (re `max` stop (hk_base hunk)) true c1 (cl ++ [hunk])) as (taken & re' & c' & Hok & Hm' & Hreg' & Hle & Hb & Hnil).
        -- rewrite Hrem in Hfuel. cbn in Hfuel. unfold remaining, c1. cbn. lia.
        -- by eapply moved_ahead.
        -- apply region_consume; [done| |done]. apply Hahead. rewrite Hrem. by left.
        -- exists (hunk :: taken), re', c'. rewrite Hok. cbn [orb]. rewrite bool_decide_eq_true_2, orb_true_r by done.
           split_and!; [done|by apply (moved_trans c [hunk] c1)|by rewrite <- app_assoc in Hreg'|lia|done|done].
      * exists [], re, c. rewrite app_nil_r, orb_false_r. split_and!; [done..| |done].
        intros h. rewrite Hrem. intros [= <-]. lia.
    + exists [], re, c. rewrite app_nil_r, orb_false_r. split_and!; [done..| |done].
      intros h. unfold remaining. rewrite drop_ge by (by apply lookup_ge_None). done.
Qed.

Lemma consume_spec re c cl cr : ahead c → region rs re cl cr →
  ∃ taken re' c', consume re c = Ok (re', c', bool_decide (taken ≠ [])) ∧
    moved c taken c' ∧ region rs re' (cl ++ taken) cr ∧ re ≤ re' ∧ beyond re' c' ∧ (taken = [] → re' = re).
Proof. intros. apply (consume_loop_spec _ _ false); [apply remaining_length|done..]. Qed.

Lemma grow_spec fuel re l r cl cr : length (remaining l) + length (remaining r) ≤ fuel → ahead l → ahead r →
  region rs re cl cr → ∃ tl tr re' l' r',
    grow fuel re l r = Ok (re', l', r') ∧ moved l tl l' ∧ moved r tr r' ∧ region rs re' (cl ++ tl) (cr ++ tr) ∧
    beyond re' l' ∧ beyond re' r'.
Proof.
  revert re l r cl cr. induction fuel as [|fuel IH]; intros re l r cl cr Hfuel Hl Hr Hreg;
    destruct (consume_spec re l cl cr Hl Hreg) as (tl & re1 & l1 & HcL & HmL & Hreg1 & Hle1 & Hb1 & Hn1);
    apply region_swap in Hreg1;
    destruct (consume_spec re1 r cr (cl ++ tl) Hr Hreg1) as (tr & re2 & r1 & HcR & HmR & Hreg2 & Hle2 & Hb2 & Hn2);
    apply region_swap in Hreg2; cbn [grow]; rewrite HcL; cbn [mbind outcome_bind]; rewrite HcR; cbn [mbind outcome_bind];
    pose proof HmL as (ErL & _); pose proof HmR as (ErR & _);
    pose proof (f_equal length ErL) as ElL; pose proof (f_equal length ErR) as ElR; rewrite length_app in ElL, ElR.
  - assert (tl = []) as -> by (apply nil_length_inv; lia). assert (tr = []) as -> by (apply nil_length_inv; lia).
    exists [], [], re2, l1, r1. rewrite !bool_decide_eq_false_2 by (by intros []). cbn.
    specialize (Hn2 eq_refl). subst re2. by do 5 (split; [done|]).
  - destruct (decide (tl = [] ∧ tr = [])) as [[-> ->]|Hg].
    + exists [], [], re2, l1, r1. rewrite !bool_decide_eq_false_2 by (by intros []). cbn.
      specialize (Hn2 eq_refl). subst re2. by do 5 (split; [done|]).
    + assert (bool_decide (tl ≠ []) || bool_decide (tr ≠ []) = true) as ->.
      { apply orb_true_iff. rewrite !bool_decide_eq_true. destruct (decide (tl = [])); [right; naive_solver|by left]. }
      destruct (IH re2 l1 r1 (cl ++ tl) (cr ++ tr)) as (tl' & tr' & re' & l' & r' & Hok & HmL' & HmR' & Hreg' & ? & ?).
      * assert (length tl + length tr ≠ 0); [|lia]. intros Hz. apply Hg. split; apply nil_length_inv; lia.
      * by eapply moved_ahead.
      * by eapply moved_ahead.
      * done.
      * exists (tl ++ tl'), (tr ++ tr'), re', l', r'. rewrite !app_assoc.
        split; [done|]. split; [by eapply moved_trans|]. split; [by eapply moved_trans|]. done.
Qed.

End consume.

(** The end of the region on a side: the rest is aligned from there. *)
Lemma region_end_spec base side re rs c taken c' : aligned base side (remaining c) rs (sc_pos c) → sc_last c = None →
  moved c taken c' → rs ≤ re → re ≤ length base → (∀ h, h ∈ taken → stop (hk_base h) ≤ re) → beyond re c' →
  ∃ e, region_end rs re c' = Ok e ∧ sc_pos c ≤ e ∧ e ≤ length side ∧ aligned base side (remaining c') re e ∧
    (taken = [] → cut side (sc_pos c) e = cut base rs re) ∧
    (∀ h, h ∈ taken → sc_pos c ≤ start (hk_side h) ∧ stop (hk_side h) ≤ e).
Proof.
  intros Hal Hlast (Erem & Ehs & Epos & El) Hrs Hre Hstops Hbeyond. rewrite Erem in Hal. unfold region_end.
  rewrite El, Hlast. destruct (last taken) as [h|] eqn:Ht.
  - destruct (aligned_skip _ _ _ _ _ _ _ Hal Ht) as [Hrest Hpos].
    assert (h ∈ taken) as Hin by (apply last_Some in Ht as (? & ->); set_solver).
    specialize (Hstops h Hin) as Hstop. rewrite usub_Ok by done. cbn [mbind outcome_bind]. eexists. split; [done|].
    destruct (aligned_advance _ _ _ _ _ re Hrest) as (HA & HB & HC); [done|done| |].
    { intros h' Hh'. apply Hbeyond in Hh'. lia. }
    split_and!; [lia|done|done| |].
    + intros ->. done.
    + intros h' Hh'. destruct (aligned_after base side (taken ++ remaining c') _ _ h' Hal) as (_ & _ & HE & _); [set_solver|].
      split; [lia|]. apply last_Some in Ht as (t' & ->). apply elem_of_app in Hh' as [Hh'| ->%list_elem_of_singleton]; [|lia].
      rewrite <- app_assoc in Hal. cbn in Hal.
      assert (stop (hk_side h') ≤ start (hk_side h)); [|].
      * clear -Hal Hh'. revert Hal. generalize (sc_pos c). revert rs. induction t' as [|h1 t' IH]; intros rs s Hal; [by apply not_elem_of_nil in Hh'|].
        cbn in Hal. destruct Hal as (H1 & H2 & H3 & Hc & H5 & H6 & H7).
        apply elem_of_cons in Hh' as [->|Hh']; [|by eapply IH].
        destruct (aligned_after _ _ _ _ _ h H7) as (_ & _ & ? & _); [set_solver|lia].
      * destruct (aligned_after base side _ _ _ h Hal) as (_ & _ & ? & _); [set_solver|]. lia.
  - apply last_None in Ht as ->. rewrite usub_Ok by done. cbn [mbind outcome_bind]. eexists. split; [done|].
    rewrite Epos. cbn in Hal. destruct (aligned_advance _ _ _ _ _ re Hal) as (HA & HB & HC); [done|done| |].
    { intros h' Hh'. apply Hbeyond in Hh'. lia. }
    split_and!; [lia|done|done|done|]. intros h ?%not_elem_of_nil. done.
Qed.

(** * The three files in chunks *)

(** What all three files share, and a region that was edited: its lines in the
    base, on the left and on the right. *)
Inductive Chunk :=
| Shared (ls : list text)
| Edited (b l r : list text).

Definition chunk_base (c : Chunk) : list text := match c with Shared ls => ls | Edited b _ _ => b end.
Definition chunk_left (c : Chunk) : list text := match c with Shared ls => ls | Edited _ l _ => l end.
Definition chunk_right (c : Chunk) : list text := match c with Shared ls => ls | Edited _ _ r => r end.

(** Both sides edited, differently. *)
Definition conflicting (b l r : list text) : Prop := l ≠ r ∧ l ≠ b ∧ r ≠ b.
#[export] Instance conflicting_dec b l r : Decision (conflicting b l r).
Proof. unfold conflicting. apply _. Defined.

(** The lines a merge has for a chunk: the edit if one side made it or both the
    same, else all three between markers. *)
Definition chunk_lines (c : Chunk) : list text :=
  match c with
  | Shared ls => ls
  | Edited b l r =>
      if decide (conflicting b l r) then LEFT_MARKER :: l ++ BASE_MARKER :: b ++ SEPARATOR :: r ++ [RIGHT_MARKER]
      else if decide (l = b) then r else l
  end.

Definition unlines (ls : list text) : text := concat ((λ line, line ++ [newline]) <$> ls).

Definition conflict_of (bp lp rp : nat) (b l r : list text) : Conflict :=
  mkConflict (if decide (b = []) then None else Some (mkRegion bp (bp + length b) (join [newline] b)))
    (mkRegion lp (lp + length l) (join [newline] l)) (mkRegion rp (rp + length r) (join [newline] r)).

(** The conflicts among the chunks, at these lines of the files. *)
Fixpoint conflicts_at (bp lp rp : nat) (chunks : list Chunk) : list Conflict :=
  match chunks with
  | [] => []
  | c :: cs =>
      match c with
      | Edited b l r => if decide (conflicting b l r) then [conflict_of bp lp rp b l r] else []
      | Shared _ => []
      end ++ conflicts_at (bp + length (chunk_base c)) (lp + length (chunk_left c)) (rp + length (chunk_right c)) cs
  end.

(** Edits lie where the hunks are: they span every line of an edited region, and
    where both sides changed something, two hunks of both sides touch. *)
Fixpoint placed (lh rh : list Hunk) (bp : nat) (chunks : list Chunk) : Prop :=
  match chunks with
  | [] => True
  | c :: cs =>
      match c with
      | Shared _ => True
      | Edited b l r =>
          (∀ p, bp ≤ p ≤ bp + length b → ∃ h, h ∈ lh ++ rh ∧ spans h p) ∧
          (l ≠ b → r ≠ b → ∃ hl hr, hl ∈ lh ∧ hr ∈ rh ∧ touching hl hr ∧
            bp ≤ start (hk_base hl) ∧ stop (hk_base hl) ≤ bp + length b ∧
            bp ≤ start (hk_base hr) ∧ stop (hk_base hr) ≤ bp + length b)
      end ∧ placed lh rh (bp + length (chunk_base c)) cs
  end.

Lemma push_lines_app output ls : push_lines output ls = output ++ unlines ls.
Proof.
  unfold push_lines, unlines. revert output. induction ls as [|l ls IH]; intros output; cbn; [by rewrite app_nil_r|].
  by rewrite IH, <- !app_assoc.
Qed.

Lemma unlines_app a b : unlines (a ++ b) = unlines a ++ unlines b.
Proof. unfold unlines. by rewrite fmap_app, concat_app. Qed.

Lemma unlines_cons a b : unlines (a :: b) = a ++ newline :: unlines b.
Proof. unfold unlines. cbn. by rewrite <- app_assoc. Qed.

Lemma concat_snoc {A} (f : Chunk → list A) cs c : concat (f <$> (cs ++ [c])) = concat (f <$> cs) ++ f c.
Proof. rewrite fmap_app, concat_app. cbn. by rewrite app_nil_r. Qed.

Lemma conflicts_at_app bp lp rp cs ds :
  conflicts_at bp lp rp (cs ++ ds) = conflicts_at bp lp rp cs ++
    conflicts_at (bp + length (concat (chunk_base <$> cs))) (lp + length (concat (chunk_left <$> cs)))
      (rp + length (concat (chunk_right <$> cs))) ds.
Proof.
  revert bp lp rp. induction cs as [|c cs IH]; intros bp lp rp; cbn -[Nat.add]; [by rewrite !Nat.add_0_r|].
  rewrite IH, <- app_assoc, !length_app, !Nat.add_assoc. done.
Qed.

Lemma placed_app lh rh bp cs ds : placed lh rh bp cs →
  placed lh rh (bp + length (concat (chunk_base <$> cs))) ds → placed lh rh bp (cs ++ ds).
Proof.
  revert bp. induction cs as [|c cs IH]; intros bp; cbn -[Nat.add]; [by rewrite Nat.add_0_r|].
  rewrite length_app, Nat.add_assoc. intros [Hc Hcs] Hds. split; [done|by apply IH].
Qed.

(** [resolve] renders a region and tells a conflict. *)
Lemma resolve_spec output bp re lp le rp rend b l r :
  re = bp + length b → le = lp + length l → rend = rp + length r →
  resolve output bp re lp le rp rend b l r =
    (output ++ unlines (chunk_lines (Edited b l r)),
     if decide (conflicting b l r) then Some (conflict_of bp lp rp b l r) else None).
Proof.
  intros -> -> ->. unfold resolve. cbn [chunk_lines].
  destruct (decide (l = r)) as [<-|Hlr].
  { rewrite !(decide_False (P := conflicting b l l)) by (unfold conflicting; tauto).
    rewrite push_lines_app. destruct (decide (l = b)); by subst. }
  destruct (decide (l = b)) as [->|Hlb].
  { rewrite !(decide_False (P := conflicting b b r)) by (unfold conflicting; tauto).
    by rewrite push_lines_app. }
  destruct (decide (r = b)) as [->|Hrb].
  { rewrite !(decide_False (P := conflicting b l b)) by (unfold conflicting; tauto).
    by rewrite push_lines_app. }
  rewrite !(decide_True (P := conflicting b l r)) by (unfold conflicting; tauto).
  rewrite !push_lines_app. f_equal.
  - repeat (rewrite ?unlines_cons, ?unlines_app). rewrite <- !app_assoc. done.
  - do 2 f_equal. unfold conflict_of. case_bool_decide; [by rewrite decide_True|by rewrite decide_False].
Qed.

(** * The loop *)

Section loop.
Context (base left right : list text) (lh rh : list Hunk).

(** What was merged so far, in chunks. *)
Record merged_so_far (p : Progress) (chunks : list Chunk) : Prop := {
  so_output : pg_output p = unlines (concat (chunk_lines <$> chunks));
  so_conflicts : pg_conflicts p = conflicts_at 0 0 0 chunks;
  so_base : concat (chunk_base <$> chunks) = cut base 0 (pg_cursor p);
  so_left : concat (chunk_left <$> chunks) = cut left 0 (sc_pos (pg_left p));
  so_right : concat (chunk_right <$> chunks) = cut right 0 (sc_pos (pg_right p));
  so_aligned_left : aligned base left (remaining (pg_left p)) (pg_cursor p) (sc_pos (pg_left p));
  so_aligned_right : aligned base right (remaining (pg_right p)) (pg_cursor p) (sc_pos (pg_right p));
  so_hunks_left : sc_hunks (pg_left p) = lh;
  so_hunks_right : sc_hunks (pg_right p) = rh;
  so_placed : placed lh rh 0 chunks;
}.

Lemma next_start_spec l r next : next_start l r = Some next →
  (∀ h, head (remaining l) = Some h → next ≤ start (hk_base h)) ∧
  (∀ h, head (remaining r) = Some h → next ≤ start (hk_base h)) ∧
  ∃ h, (head (remaining l) = Some h ∨ head (remaining r) = Some h) ∧ start (hk_base h) = next.
Proof.
  assert (∀ c, peek_start c = start ∘ hk_base <$> head (remaining c)) as Hpeek.
  { intros c. unfold peek_start, remaining. destruct (sc_hunks c !! sc_next c) as [h|] eqn:Hn.
    - by rewrite (drop_S _ h).
    - by rewrite drop_ge by (by apply lookup_ge_None). }
  unfold next_start. rewrite !Hpeek.
  destruct (head (remaining l)) as [hl|], (head (remaining r)) as [hr|]; cbn; intros [= <-].
  - split; [intros h [= <-]; lia|]. split; [intros h [= <-]; lia|].
    destruct (Nat.min_spec (start (hk_base hl)) (start (hk_base hr))) as [[_ ->]|[_ ->]]; eauto.
  - split; [by intros h [= <-]|]. split; [done|]. eauto.
  - split; [done|]. split; [by intros h [= <-]|]. eauto.
Qed.

Lemma remaining_hunks c h : h ∈ remaining c → h ∈ sc_hunks c.
Proof. unfold remaining. intros Hh. rewrite <- (take_drop (sc_next c) (sc_hunks c)). set_solver. Qed.

Lemma turn_spec p chunks next : merged_so_far p chunks → next_start (pg_left p) (pg_right p) = Some next → ∃ p' chunks',
  based_turn base left right next p = Ok p' ∧ merged_so_far p' chunks' ∧
  length (remaining (pg_left p')) + length (remaining (pg_right p')) <
    length (remaining (pg_left p)) + length (remaining (pg_right p)).
Proof.
  intros Hp Hnext. destruct Hp as [Hout Hconf Hb Hl Hr Hal Har Hhl Hhr Hpl].
  destruct (next_start_spec _ _ _ Hnext) as (HnL & HnR & h0 & Hh0 & Hs0).
  destruct p as [out confs cursor l r]. cbn in *.
  assert (next ≤ length base ∧ cursor ≤ next) as [Hnb Hcn].
  { assert (h0 ∈ remaining l ∨ h0 ∈ remaining r) as [Hin|Hin].
    { destruct Hh0 as [Hh|Hh]; [left|right]; apply head_Some_elem_of in Hh; done. }
    - destruct (aligned_after _ _ _ _ _ _ Hal Hin). lia.
    - destruct (aligned_after _ _ _ _ _ _ Har Hin). lia. }
  destruct (aligned_advance _ _ _ _ _ next Hal) as (Hal1 & HcL & HbL); [done..|].
  destruct (aligned_advance _ _ _ _ _ next Har) as (Har1 & HcR & HbR); [done..|].
  unfold based_turn. cbn. rewrite sub_slice_Ok by done. cbn [mbind outcome_bind]. rewrite usub_Ok by done.
  cbn [mbind outcome_bind].
  set (l1 := without_last (with_pos l (sc_pos l + (next - cursor)))).
  set (r1 := without_last (with_pos r (sc_pos r + (next - cursor)))).
  destruct (grow_spec next (length (sc_hunks l) + length (sc_hunks r)) next l1 r1 [] []) as
    (tl & tr & re & l' & r' & -> & HmL & HmR & Hreg & HbyL & HbyR).
  { change (remaining l1) with (remaining l). change (remaining r1) with (remaining r).
    pose proof (remaining_length l). pose proof (remaining_length r). lia. }
  { intros h Hh. destruct (aligned_after _ _ _ _ _ h Hal1 Hh). lia. }
  { intros h Hh. destruct (aligned_after _ _ _ _ _ h Har1 Hh). lia. }
  { split_and!; [done|by intros h ?%not_elem_of_nil|by left|done]. }
  cbn [mbind outcome_bind app] in *. pose proof Hreg as (Hre & Hin & Hcov & Htouch).
  assert (tl ++ tr ≠ []) as Hsome.
  { intros Hnil. destruct Hcov as [[_ ->]|Hcov]; [|destruct (Hcov next ltac:(lia)) as (h & Hh & _); rewrite Hnil in Hh; by apply not_elem_of_nil in Hh].
    apply app_nil in Hnil as [-> ->]. destruct HmL as (EL & _), HmR as (ER & _). cbn in EL, ER.
    destruct Hh0 as [Hh|Hh].
    - assert (next < start (hk_base h0)); [|lia]. apply HbyL. rewrite <- EL. exact Hh.
    - assert (next < start (hk_base h0)); [|lia]. apply HbyR. rewrite <- ER. exact Hh. }
  pose proof HmL as (EL & EhL & EpL & _). pose proof HmR as (ER & EhR & EpR & _).
  change (remaining l1) with (remaining l) in EL. change (remaining r1) with (remaining r) in ER.
  assert (re ≤ length base) as Hreb.
  { destruct Hcov as [[Hnil _]|Hcov]; [done|]. destruct (Hcov re ltac:(lia)) as (h & Hh & Hsp). unfold spans in Hsp.
    apply elem_of_app in Hh as [Hh|Hh].
    - destruct (aligned_after _ _ _ _ _ h Hal) as (_ & ? & _); [rewrite EL; set_solver|lia].
    - destruct (aligned_after _ _ _ _ _ h Har) as (_ & ? & _); [rewrite ER; set_solver|lia]. }
  destruct (region_end_spec base left re next l1 tl l') as (le & -> & Hle1 & Hle2 & HalE & HnilL & _); try done.
  { intros h Hh. apply Hin. set_solver. }
  cbn [mbind outcome_bind].
  destruct (region_end_spec base right re next r1 tr r') as (rend & -> & Hre1 & Hre2 & HarE & HnilR & _); try done.
  { intros h Hh. apply Hin. set_solver. }
  cbn [mbind outcome_bind]. rewrite EpL, EpR. cbn [sc_pos without_last with_pos l1 r1] in *.
  rewrite (sub_slice_Ok base), (sub_slice_Ok left), (sub_slice_Ok right) by done. cbn [mbind outcome_bind].
  set (bs := cut base next re). set (ls := cut left _ le). set (rs := cut right _ rend).
  assert (length bs = re - next) as Lb by (by apply length_cut).
  assert (length ls = le - (sc_pos l + (next - cursor))) as Ll by (apply length_cut; lia).
  assert (length rs = rend - (sc_pos r + (next - cursor))) as Lr by (apply length_cut; lia).
  rewrite resolve_spec by lia.
  pose proof (aligned_bounds _ _ _ _ _ Hal) as [Bb Bl]. pose proof (aligned_bounds _ _ _ _ _ Har) as [_ Br].
  eexists _, (chunks ++ [Shared (cut base cursor next); Edited bs ls rs]). split; [done|].
  assert (∀ {A} (f : Chunk → list A) c1 c2, concat (f <$> (chunks ++ [c1; c2])) = concat (f <$> chunks) ++ f c1 ++ f c2) as Hsnoc.
  { intros A f c1 c2. rewrite fmap_app, concat_app. cbn. by rewrite app_nil_r. }
  assert (length (concat (chunk_base <$> chunks)) = cursor ∧ length (concat (chunk_left <$> chunks)) = sc_pos l ∧
    length (concat (chunk_right <$> chunks)) = sc_pos r) as (Cb & Cl & Cr).
  { split_and!; [rewrite Hb|rewrite Hl|rewrite Hr]; rewrite length_cut; lia. }
  split; [split; cbn [pg_output pg_conflicts pg_cursor pg_left pg_right sc_pos with_pos remaining sc_hunks sc_next]|].
  - rewrite Hsnoc, push_lines_app, Hout, !unlines_app, <- !app_assoc. done.
  - rewrite Hconf, conflicts_at_app, Cb, Cl, Cr. f_equal. cbn [conflicts_at chunk_base chunk_left chunk_right app].
    rewrite !length_cut by lia. rewrite app_nil_r.
    replace (0 + cursor + (next - cursor)) with next by lia. rewrite !Nat.add_0_l. by case_decide.
  - rewrite Hsnoc, Hb. cbn. unfold bs. by rewrite !cut_app by lia.
  - rewrite Hsnoc, Hl. cbn. rewrite HcL. unfold ls. by rewrite !cut_app by lia.
  - rewrite Hsnoc, Hr. cbn. rewrite HcR. unfold rs. by rewrite !cut_app by lia.
  - exact HalE.
  - exact HarE.
  - rewrite EhL. exact Hhl.
  - rewrite EhR. exact Hhr.
  - apply placed_app; [done|]. rewrite Cb. cbn [placed chunk_base Nat.add]. rewrite length_cut by lia.
    replace (cursor + (next - cursor)) with next by lia. rewrite Lb. replace (next + (re - next)) with re by lia.
    assert (∀ h, h ∈ tl → h ∈ lh) as HtL by (intros h Hh; rewrite <- Hhl; apply remaining_hunks; rewrite EL; set_solver).
    assert (∀ h, h ∈ tr → h ∈ rh) as HtR by (intros h Hh; rewrite <- Hhr; apply remaining_hunks; rewrite ER; set_solver).
    split; [done|]. split; [|done]. split.
    + intros q Hq. destruct Hcov as [[? _]|Hcov]; [done|]. destruct (Hcov q Hq) as (h & [Hh|Hh]%elem_of_app & ?); exists h; set_solver.
    + intros HlE HrE. destruct Htouch as (hl & hr & Hhl' & Hhr' & Ht).
      * intros ->. by apply HlE, HnilL.
      * intros ->. by apply HrE, HnilR.
      * exists hl, hr. destruct (Hin hl) as [? ?]; [set_solver|]. destruct (Hin hr) as [? ?]; [set_solver|].
        split_and!; [auto|auto|done|lia..].
  - cbn [pg_left pg_right]. change (remaining (with_pos l' le)) with (remaining l').
    change (remaining (with_pos r' rend)) with (remaining r'). rewrite EL, ER, !length_app.
    destruct tl, tr; cbn; [done|lia..].
Qed.

Lemma loop_spec fuel p chunks : merged_so_far p chunks →
  length (remaining (pg_left p)) + length (remaining (pg_right p)) ≤ fuel → ∃ p' chunks',
  based_loop fuel base left right p = Ok p' ∧ merged_so_far p' chunks' ∧
  remaining (pg_left p') = [] ∧ remaining (pg_right p') = [].
Proof.
  assert (∀ p, next_start (pg_left p) (pg_right p) = None →
    remaining (pg_left p) = [] ∧ remaining (pg_right p) = []) as Hdone.
  { intros q. unfold next_start, peek_start, remaining.
    destruct (sc_hunks (pg_left q) !! _) eqn:H1, (sc_hunks (pg_right q) !! _) eqn:H2; try done.
    intros _. by rewrite !drop_ge by (by apply lookup_ge_None). }
  revert p chunks. induction fuel as [|fuel IH]; intros p chunks Hp Hfuel; cbn [based_loop];
    destruct (next_start _ _) as [next|] eqn:Hn; try (exists p, chunks; by split_and!; [..|apply Hdone|apply Hdone]).
  - exists p, chunks. destruct (turn_spec p chunks next Hp Hn) as (? & ? & _ & _ & ?). lia.
  - destruct (turn_spec p chunks next Hp Hn) as (p1 & chunks1 & -> & Hp1 & Hlt). cbn [mbind outcome_bind].
    apply (IH p1 chunks1 Hp1). lia.
Qed.

End loop.

(** * The merge *)

Section based.
Context `{Similar}.

(** The three files as chunks, and the result as what they make. *)
Record merge_of (base left right : text) (res : MergeResult) (chunks : list Chunk) : Prop := {
  mo_base : concat (chunk_base <$> chunks) = lines base;
  mo_left : concat (chunk_left <$> chunks) = lines left;
  mo_right : concat (chunk_right <$> chunks) = lines right;
  mo_placed : placed (hunks (lines base) (lines left)) (hunks (lines base) (lines right)) 0 chunks;
  mo_content : content res = unlines (concat (chunk_lines <$> chunks));
  mo_conflicts : mr_conflicts res = conflicts_at 0 0 0 chunks;
  mo_success : success res = bool_decide (mr_conflicts res = []);
}.

Lemma based_spec `{!SimilarLaws} base left right :
  left ≠ right → base ≠ left → base ≠ right →
  ∃ res chunks, based base left right = Ok res ∧ merge_of base left right res chunks.
Proof.
  intros Hlr Hbl Hbr. unfold based. rewrite !decide_False by done.
  set (bl := lines base). set (ll := lines left). set (rl := lines right).
  set (lh := hunks bl ll). set (rh := hunks bl rl).
  destruct (loop_spec bl ll rl lh rh (length lh + length rh)
    (mkProgress [] [] 0 (SideCursor_new lh) (SideCursor_new rh)) []) as (p & chunks & -> & Hp & Hl & Hr).
  { split; cbn; try done.
    - apply covers_aligned; [apply capture_covers|lia..].
    - apply covers_aligned; [apply capture_covers|lia..]. }
  { done. }
  cbn [mbind outcome_bind]. destruct Hp as [Hout Hconf Hb HL HR HalL HalR _ _ Hpl].
  rewrite Hl in HalL. rewrite Hr in HalR. destruct HalL as (Hc & Hls & _ & HeL), HalR as (_ & Hrs & _ & HeR).
  rewrite sub_slice_Ok by done. cbn [mbind outcome_bind]. rewrite push_lines_app.
  eexists _, (chunks ++ [Shared (cut bl (pg_cursor p) (length bl))]). split; [done|].
  assert (conflicts_at 0 0 0 (chunks ++ [Shared (cut bl (pg_cursor p) (length bl))]) = pg_conflicts p) as Hconf'.
  { rewrite conflicts_at_app, Hconf. cbn. by rewrite app_nil_r. }
  split.
  - rewrite concat_snoc, Hb. cbn. rewrite cut_app by lia. apply cut_full.
  - rewrite concat_snoc, HL. cbn. rewrite HeL, cut_app by lia. apply cut_full.
  - rewrite concat_snoc, HR. cbn. rewrite HeR, cut_app by lia. apply cut_full.
  - apply placed_app; [done|]. done.
  - rewrite concat_snoc, unlines_app, <- Hout. by case_bool_decide.
  - rewrite Hconf'. case_bool_decide as He; by rewrite ?He.
  - case_bool_decide as He; cbn; [done|]. by rewrite bool_decide_eq_false_2.
Qed.

Lemma based_total `{!SimilarLaws} base left right : ∃ res, based base left right = Ok res.
Proof.
  destruct (decide (left = right)) as [E1|Hlr]; [|destruct (decide (base = left)) as [E2|Hbl];
    [|destruct (decide (base = right)) as [E3|Hbr]]].
  1-3: unfold based; rewrite ?decide_False, decide_True by done; by eexists.
  destruct (based_spec base left right Hlr Hbl Hbr) as (res & _ & Hres & _). by exists res.
Qed.

End based.

(** * A diff, to run the merge with *)

(** The length of the common prefix. *)
Fixpoint common (xs ys : list text) : nat :=
  match xs, ys with
  | x :: xs, y :: ys => if decide (x = y) then S (common xs ys) else 0
  | _, _ => 0
  end.

(** What follows the common prefix is replaced. *)
#[export] Instance prefix_diff : Similar := {|
  capture_diff_slices old new :=
    let n := common old new in
    [mkOp true (mkRange 0 n) (mkRange 0 n); mkOp false (mkRange n (length old)) (mkRange n (length new))];
  all_changes old new :=
    let n := common old new in
    ((λ l, (TagEqual, l)) <$> take n old) ++ ((λ l, (TagDelete, l)) <$> drop n old) ++
      ((λ l, (TagInsert, l)) <$> drop n new);
|}.

Lemma common_spec xs ys :
  common xs ys ≤ length xs ∧ common xs ys ≤ length ys ∧ take (common xs ys) xs = take (common xs ys) ys.
Proof.
  revert ys. induction xs as [|x xs IH]; intros [|y ys]; cbn; [split_and!; (done || lia)..|].
  case_decide as Hxy; cbn; [|split_and!; (done || lia)]. subst. destruct (IH ys) as (? & ? & ?).
  split_and!; [lia..|by f_equal].
Qed.

Lemma omap_tagged {A B C} (t : A) (f : A * B → option C) (g : B → C) (ls : list B) :
  (∀ l, f (t, l) = Some (g l)) → omap f ((λ l, (t, l)) <$> ls) = g <$> ls.
Proof. intros Hf. induction ls as [|l ls IH]; cbn; [done|]. by rewrite Hf, IH. Qed.

Lemma omap_untagged {A B C} (t : A) (f : A * B → option C) (ls : list B) :
  (∀ l, f (t, l) = None) → omap f ((λ l, (t, l)) <$> ls) = [].
Proof. intros Hf. induction ls as [|l ls IH]; cbn; [done|]. by rewrite Hf. Qed.

Lemma common_same ls : common ls ls = length ls.
Proof. induction ls as [|l ls IH]; cbn; [done|]. rewrite decide_True by done. by rewrite IH. Qed.

#[export] Instance prefix_diff_laws : SimilarLaws.
Proof.
  split; [intros old new; destruct (common_spec old new) as (Ho & Hn & He)..|].
  4: { intros ls. cbn. rewrite common_same, firstn_all, drop_all. cbn. by rewrite app_nil_r. }
  - cbn. split_and!; try done; try lia. intros _. unfold cut. by rewrite !Nat.sub_0_r, !drop_0.
  - unfold olds. cbn [all_changes prefix_diff]. rewrite !omap_app.
    rewrite !(omap_tagged _ _ id), omap_untagged, !list_fmap_id, app_nil_r by done. apply take_drop.
  - unfold news. cbn [all_changes prefix_diff]. rewrite !omap_app.
    rewrite (omap_tagged TagEqual _ id), (omap_untagged TagDelete), (omap_tagged TagInsert _ id), !list_fmap_id by done.
    rewrite He. apply take_drop.
Qed.

(** * Claims *)

(** C17. The line merge of three files never panics, and its loops end. Files
    that agree in part merge trivially: if both sides are equal, or one is the
    base, the result is the other side, unconflicted. Otherwise the three files
    fall into chunks, in order: stretches that all three share, and regions
    edited, every line of which, and the gap before and after it, some hunk of
    either side spans; and where both sides changed a region there are two hunks
    of both sides in it that touch. The result is the chunks one after the other,
    each with a final newline: a region that one side edited, or both alike, is
    that edit, and any other is what left, base and right have of it between
    markers. The conflicts reported are exactly these regions, with their lines
    in each file and their texts, and the merge is a success if and only if there
    are none. *)
Theorem based_correct `{SimilarLaws} base left right :
  ∃ res, based base left right = Ok res ∧
    (left = right → res = result_success left) ∧
    (base = left → res = result_success right) ∧
    (base = right → res = result_success left) ∧
    (left ≠ right → base ≠ left → base ≠ right → ∃ chunks, merge_of base left right res chunks).
Proof.
  destruct (decide (left = right)) as [->|Hlr].
  { exists (result_success right). unfold based. rewrite decide_True by done. naive_solver. }
  destruct (decide (base = left)) as [->|Hbl].
  { exists (result_success right). unfold based. rewrite decide_False, decide_True by done. naive_solver. }
  destruct (decide (base = right)) as [->|Hbr].
  { exists (result_success left). unfold based. rewrite !decide_False, decide_True by done. naive_solver. }
  destruct (based_spec base left right Hlr Hbl Hbr) as (res & chunks & -> & Hm). exists res. split; [done|]. naive_solver.
Qed.

Definition sample (middle : string) : text :=
  chars_of "a" ++ newline :: chars_of middle ++ newline :: chars_of "c" ++ [newline].

Lemma based_correct_witness :
  (∃ c, based (sample "b") (sample "x") (sample "y") =
    Ok (with_conflicts (chars_of "a" ++ newline :: LEFT_MARKER ++ newline :: chars_of "x" ++ newline :: chars_of "c" ++
      newline :: BASE_MARKER ++ newline :: chars_of "b" ++ newline :: chars_of "c" ++ newline :: SEPARATOR ++
      newline :: chars_of "y" ++ newline :: chars_of "c" ++ newline :: RIGHT_MARKER ++ [newline]) [c])) ∧
  ∃ res, based (sample "b") (sample "x") (sample "y") = Ok res ∧ ∃ chunks, merge_of (sample "b") (sample "x") (sample "y") res chunks.
Proof.
  split; [eexists; vm_compute; reflexivity|].
  destruct (based_correct (sample "b") (sample "x") (sample "y")) as (res & Hres & _ & _ & _ & Hm).
  exists res. split; [done|]. apply Hm; by vm_compute.
Defined.

(** Lines that end in CRLF lose their CR when the merge is by lines, also where
    nobody edited them, and a last line without a newline gets one. *)
Example based_normalises :
  let crlf := [13%N; newline] in
  content <$> (match based (chars_of "a" ++ crlf ++ chars_of "b") (chars_of "a" ++ crlf ++ chars_of "b" ++ crlf)
      (chars_of "a" ++ crlf ++ chars_of "c") with
    | Ok res => Some res
    | _ => None
    end) = Some (chars_of "a" ++ newline :: chars_of "c" ++ [newline]).
Proof. vm_compute. reflexivity. Qed.

(** * Change maps *)

(** What the changes make of one line of the base, and of all: what is inserted
    before it, and the line, unless it is deleted. *)
Definition edit_line (m : ChangeMaps) (i : nat) (line : text) : list text :=
  default [] (insertions m !! i) ++ if bool_decide (i ∈ deletions m) then [] else [line].
Definition edited (m : ChangeMaps) (base : list text) : list text :=
  concat (imap (edit_line m) base) ++ default [] (insertions m !! length base).

(** Changes before this line only. *)
Definition changes_before (n : nat) (m : ChangeMaps) : Prop :=
  (∀ i, i ∈ deletions m → i < n) ∧ (∀ i, n < i → insertions m !! i = None).

Lemma concat_imap_ext {A B} (f g : nat → A → list B) l :
  (∀ i x, l !! i = Some x → f i x = g i x) → concat (imap f l) = concat (imap g l).
Proof. intros Hfg. f_equal. apply imap_ext. done. Qed.

Lemma concat_imap_snoc {A B} (f : nat → A → list B) l x :
  concat (imap f (l ++ [x])) = concat (imap f l) ++ f (length l) x.
Proof. rewrite imap_app, concat_app. cbn. by rewrite Nat.add_0_r, app_nil_r. Qed.

Lemma olds_snoc cs c : olds (cs ++ [c]) = olds cs ++ match c.1 with TagInsert => [] | _ => [c.2] end.
Proof. unfold olds. rewrite omap_app. cbn. by destruct c as [[] ?]. Qed.
Lemma news_snoc cs c : news (cs ++ [c]) = news cs ++ match c.1 with TagDelete => [] | _ => [c.2] end.
Proof. unfold news. rewrite omap_app. cbn. by destruct c as [[] ?]. Qed.

(** The change maps turn the old lines into the new ones. *)
Lemma change_maps_spec changes :
  let '(base_idx, m) := foldl change_step (0, mkChanges ∅ ∅) changes in
  base_idx = length (olds changes) ∧ changes_before base_idx m ∧ edited m (olds changes) = news changes.
Proof.
  induction changes as [|[tag x] changes IH] using rev_ind; [split; [done|]; split; [by split; [set_solver|]|done]|].
  rewrite foldl_app, olds_snoc, news_snoc. cbn [foldl]. destruct (foldl change_step _ changes) as [base_idx m].
  destruct IH as (-> & [Hd Hi] & IH). unfold edited in *. destruct tag; cbn [change_step fst snd].
  - rewrite length_app. cbn [length]. rewrite Nat.add_1_r. split; [done|]. split.
    + split; [intros i ?%Hd; lia|]. intros i ?. apply Hi. lia.
    + rewrite concat_imap_snoc, Hi by lia. cbn. rewrite app_nil_r. unfold edit_line at 2.
      rewrite bool_decide_eq_false_2 by (intros ?%Hd; lia). by rewrite app_assoc, IH.
  - rewrite length_app. cbn [length]. rewrite Nat.add_1_r. split; [done|]. split.
    + split; cbn; [intros i; rewrite elem_of_union, elem_of_singleton; intros [->|?%Hd]; lia|]. intros i ?. apply Hi. lia.
    + rewrite concat_imap_snoc. cbn [insertions]. rewrite Hi by lia. cbn [default]. rewrite !app_nil_r.
      unfold edit_line at 2. cbn [deletions insertions]. rewrite bool_decide_eq_true_2 by set_solver. rewrite app_nil_r, <- IH.
      f_equal. apply concat_imap_ext. intros i y Hy%lookup_lt_Some. unfold edit_line. cbn.
      rewrite (bool_decide_ext _ (i ∈ deletions m)); [done|]. set_solver by lia.
  - rewrite app_nil_r. split; [done|]. split.
    + split; cbn; [done|]. intros i ?. rewrite lookup_insert_ne by lia. by apply Hi.
    + cbn [insertions]. rewrite lookup_insert_eq. cbn [default]. unfold id. rewrite app_assoc, <- IH. do 2 f_equal.
      apply concat_imap_ext. intros i y Hy%lookup_lt_Some. unfold edit_line. cbn. by rewrite lookup_insert_ne by lia.
Qed.

Lemma build_change_maps_spec changes : edited (build_change_maps changes) (olds changes) = news changes.
Proof.
  unfold build_change_maps. pose proof (change_maps_spec changes) as Hspec.
  destruct (foldl change_step _ changes) as [? m]. by destruct Hspec as (_ & _ & ?).
Qed.

Lemma change_maps_equal ls : build_change_maps (pair TagEqual <$> ls) = mkChanges ∅ ∅.
Proof.
  unfold build_change_maps. generalize 0. induction ls as [|l ls IH]; intros n; [done|]. cbn. apply IH.
Qed.

(** * One side *)

Definition no_changes : ChangeMaps := mkChanges ∅ ∅.

Lemma merge_insertions_one li : merge_insertions li None = (default [] li, false) ∧ merge_insertions None li = (default [] li, false).
Proof.
  unfold merge_insertions. cbn. rewrite app_nil_r. split; [by destruct li|]. destruct li as [ls|]; cbn; [|done]. f_equal.
  induction ls as [|l ls IH]; [done|]. rewrite filter_cons_True by done. by rewrite IH.
Qed.

(** The loop with the changes of one side. *)
Lemma inner_loop_one m base : 
  foldl (inner_line m no_changes) ([], false) (imap pair base) = (concat (imap (edit_line m) base), false) ∧
  foldl (inner_line no_changes m) ([], false) (imap pair base) = (concat (imap (edit_line m) base), false).
Proof.
  induction base as [|x base [IHl IHr]] using rev_ind; [done|].
  rewrite imap_app, !foldl_app, IHl, IHr, concat_imap_snoc. cbn [imap foldl]. rewrite Nat.add_0_r. unfold inner_line, no_changes.
  cbn [insertions deletions]. rewrite lookup_empty. destruct (merge_insertions_one (insertions m !! length base)) as [-> ->].
  unfold edit_line. cbn [orb]. rewrite !app_assoc.
  split; do 2 f_equal; destruct (decide (length base ∈ deletions m)) as [Hin|Hin];
    [rewrite bool_decide_eq_false_2, bool_decide_eq_true_2 by (set_solver)|rewrite bool_decide_eq_true_2, bool_decide_eq_false_2 by set_solver|
     rewrite bool_decide_eq_false_2, bool_decide_eq_true_2 by set_solver|rewrite bool_decide_eq_true_2, bool_decide_eq_false_2 by set_solver]; done.
Qed.

(** * Both sides *)

(** Both insert before line [i], and not the same. *)
Definition disagree_at (l r : ChangeMaps) (i : nat) : Prop :=
  ∃ li ri, insertions l !! i = Some li ∧ insertions r !! i = Some ri ∧ li ≠ ri.

Lemma merge_insertions_disagree l r i : (merge_insertions (insertions l !! i) (insertions r !! i)).2 = true ↔ disagree_at l r i.
Proof.
  unfold merge_insertions, disagree_at. cbn.
  destruct (insertions l !! i) as [li|], (insertions r !! i) as [ri|]; [|naive_solver..].
  rewrite negb_true_iff, bool_decide_eq_false. naive_solver.
Qed.

Lemma inner_loop_conflict l r base :
  (foldl (inner_line l r) ([], false) (imap pair base)).2 = true ↔ ∃ i, i < length base ∧ disagree_at l r i.
Proof.
  induction base as [|x base IH] using rev_ind; [split; [done|by intros (? & ? & _); cbn in *; lia]|].
  rewrite imap_app, foldl_app. cbn [imap foldl]. rewrite Nat.add_0_r. destruct (foldl (inner_line l r) _ _) as [result conflict].
  unfold inner_line. pose proof (merge_insertions_disagree l r (length base)) as Hd.
  destruct (merge_insertions _ _) as [inserted disagree]. cbn [snd] in *.
  rewrite orb_true_iff, IH, Hd, length_app. cbn [length]. split.
  - intros [(i & ? & ?)|?]; [exists i; split; [lia|done]|exists (length base); split; [lia|done]].
  - intros (i & Hi & Hdi). destruct (decide (i = length base)) as [->|]; [by right|left]. exists i. split; [lia|done].
Qed.

(** The merge of three bodies line by line. If only one side has other lines
    than the base, the result has the lines of that side, without a conflict; if
    both have the same lines, it is the left. In general there is a conflict
    exactly if both sides insert before one line of the base, or at the end, and
    what they insert differs. *)
Lemma inner_correct `{SimilarLaws} base left right :
  let l := build_change_maps (all_changes (lines base) (lines left)) in
  let r := build_change_maps (all_changes (lines base) (lines right)) in
  (lines left = lines right → inner base left right = mkOutcome left false) ∧
  (lines left ≠ lines right → lines left = lines base → inner base left right = mkOutcome (join [newline] (lines right)) false) ∧
  (lines left ≠ lines right → lines right = lines base → inner base left right = mkOutcome (join [newline] (lines left)) false) ∧
  (lines left ≠ lines right →
    (has_conflict (inner base left right) = true ↔ ∃ i, i ≤ length (lines base) ∧ disagree_at l r i)).
Proof.
  intros l r. unfold inner. fold l r.
  assert (∀ ls, build_change_maps (all_changes ls ls) = no_changes) as Hsame by (intros; rewrite changes_same; apply change_maps_equal).
  assert (edited l (lines base) = lines left ∧ edited r (lines base) = lines right) as [Hl Hr].
  { pose proof (build_change_maps_spec (all_changes (lines base) (lines left))) as HL.
    pose proof (build_change_maps_spec (all_changes (lines base) (lines right))) as HR.
    rewrite changes_old, changes_new in HL, HR. done. }
  unfold edited in Hl, Hr.
  split; [intros He; by rewrite decide_True|]. split; [|split]; intros Hne; rewrite decide_False by done.
  - intros He. assert (l = no_changes) as -> by (unfold l; by rewrite He). rewrite (proj2 (inner_loop_one _ _)).
    cbn [insertions no_changes]. rewrite lookup_empty, (proj2 (merge_insertions_one _)). by rewrite Hr.
  - intros He. assert (r = no_changes) as -> by (unfold r; by rewrite He). rewrite (proj1 (inner_loop_one _ _)).
    cbn [insertions no_changes]. rewrite lookup_empty, (proj1 (merge_insertions_one _)). by rewrite Hl.
  - pose proof (inner_loop_conflict l r (lines base)) as Hc. pose proof (merge_insertions_disagree l r (length (lines base))) as Hd.
    destruct (foldl (inner_line l r) _ _) as [result conflict]. destruct (merge_insertions _ _) as [inserted disagree].
    cbn [has_conflict snd] in *. rewrite orb_true_iff, Hc, Hd. split.
    + intros [(i & ? & ?)|?]; [exists i; split; [lia|done]|by exists (length (lines base))].
    + intros (i & Hi & Hdi). destruct (decide (i = length (lines base))) as [->|]; [by right|left]. exists i. split; [lia|done].
Qed.

Example inner_correct_demo : inner (sample "b") (sample "b") (sample "y") = mkOutcome (join [newline] (lines (sample "y"))) false.
Proof. apply (inner_correct (sample "b") (sample "b") (sample "y")); by vm_compute. Defined.

(** A line that one side deletes and the other changes is no conflict: the change
    is kept, and nobody is told. *)
Example deleted_and_changed : inner (chars_of "b") [] (chars_of "y") = mkOutcome (chars_of "y") false.
Proof. vm_compute. reflexivity. Qed.
