(* ===== verification/AstGit.v ===== *)
(** Conflict markers, [packages/ast-merge/git]: the conflicts that git and the
    line merge leave in a file ([src/parse.rs]), a conflict written with the
    names and the marker size that are configured ([src/format.rs]), and the
    records of both ([src/types.rs]). *)

From stdpp Require Import base sets list strings.
From Stdlib Require Import Ascii.
From S2P Require Import Prelude Chars.
Local Open Scope nat_scope.

(** * Records *)

Record ParsedConflict := mkParsed {
  pc_before : text; pc_left : text; pc_base : option text; pc_right : text; pc_after : text;
  pc_left_name : text; pc_right_name : text; pc_base_name : option text }.

Record ParsedFile := mkFile { pf_conflicts : list ParsedConflict; has_conflicts : bool; pf_content : text }.

Record DisplaySettings := mkSettings {
  marker_size : nat; diff3_style : bool; left_name : text; right_name : text; base_name : text }.

Definition DEFAULT_MARKER_SIZE : nat := 7.

(** [DisplaySettings::default]. *)
Definition default_settings : DisplaySettings :=
  mkSettings DEFAULT_MARKER_SIZE true (chars_of "ours") (chars_of "theirs") (chars_of "base").

(** * Parsing *)

(** The chars [c] at the head of a line, and what follows them. *)
Fixpoint run (c : char) (line : text) : nat * text :=
  match line with
  | x :: rest => if decide (x = c) then let '(n, rest) := run c rest in (S n, rest) else (0, line)
  | [] => (0, [])
  end.

(** The regex of a named marker, for a char that is not a space: seven of it or
    more, a space, and to the end of the line the name, which is captured. *)
Definition named_marker (c : char) (line : text) : option text :=
  let '(n, rest) := run c line in
  match rest with
  | sp :: name => if decide (7 ≤ n ∧ sp = ch " " ∧ newline ∉ name) then Some name else None
  | [] => None
  end.

Definition left_marker : text → option text := named_marker (ch "<").
Definition base_marker : text → option text := named_marker (ch "|").
Definition right_marker : text → option text := named_marker (ch ">").

(** The regex of the separator: nothing but [=], seven or more. *)
Definition separator (line : text) : bool :=
  let '(n, rest) := run (ch "=") line in bool_decide (7 ≤ n ∧ rest = []).

Record LeftSectionResult := mkLeftSection {
  ls_left_lines : list text; ls_base_lines : option (list text); ls_base_name : option text; ls_next_index : nat }.

(** [read_left_section]: the loop at index [i], with the lines from there. *)
Fixpoint left_section_loop (left_lines rest : list text) (i : nat) : LeftSectionResult :=
  match rest with
  | [] => mkLeftSection left_lines None None i
  | line :: rest =>
      match base_marker line with
      | Some name => mkLeftSection left_lines (Some []) (Some name) (i + 1)
      | None =>
          if separator line then mkLeftSection left_lines None None (i + 1)
          else left_section_loop (left_lines ++ [line]) rest (i + 1)
      end
  end.
Definition read_left_section (ls : list text) (i : nat) : LeftSectionResult := left_section_loop [] (drop i ls) i.

Record BaseSectionResult := mkBaseSection { bs_base_lines : option (list text); bs_next_index : nat }.

(** [read_base_section]. *)
Fixpoint base_section_loop (base rest : list text) (i : nat) : BaseSectionResult :=
  match rest with
  | [] => mkBaseSection (Some base) i
  | line :: rest =>
      if separator line then mkBaseSection (Some base) (i + 1)
      else base_section_loop (base ++ [line]) rest (i + 1)
  end.
Definition read_base_section (ls : list text) (i : nat) (base_lines : option (list text)) : BaseSectionResult :=
  match base_lines with
  | None => mkBaseSection None i
  | Some base => base_section_loop base (drop i ls) i
  end.

Record RightSectionResult := mkRightSection { rs_right_lines : list text; rs_right_name : text; rs_next_index : nat }.

(** [read_right_section]. *)
Fixpoint right_section_loop (right_lines rest : list text) (i : nat) : RightSectionResult :=
  match rest with
  | [] => mkRightSection right_lines (chars_of "RIGHT") i
  | line :: rest =>
      match right_marker line with
      | Some name => mkRightSection right_lines name (i + 1)
      | None => right_section_loop (right_lines ++ [line]) rest (i + 1)
      end
  end.
Definition read_right_section (ls : list text) (i : nat) : RightSectionResult := right_section_loop [] (drop i ls) i.

(** A conflict whose left marker is at index [start]: what is recorded, and the
    index after it. *)
Definition parse_conflict (ls : list text) (conflict_start : nat) (left_name : text) : ParsedConflict * nat :=
  let left_result := read_left_section ls (conflict_start + 1) in
  let base_result := read_base_section ls (ls_next_index left_result) (ls_base_lines left_result) in
  let right_result := read_right_section ls (bs_next_index base_result) in
  let i := rs_next_index right_result in
  (mkParsed (join [newline] (take conflict_start ls)) (join [newline] (ls_left_lines left_result))
     (join [newline] <$> bs_base_lines base_result) (join [newline] (rs_right_lines right_result))
     (join [newline] (drop i ls)) left_name (rs_right_name right_result) (ls_base_name left_result), i).

(** The loop of [conflicts] at index [i]. *)
Fixpoint conflicts_loop (fuel : nat) (ls : list text) (found : list ParsedConflict) (i : nat) :
    outcome () (list ParsedConflict) :=
  match ls !! i with
  | None => Ok found
  | Some line =>
      match fuel with
      | O => Panic
      | S fuel =>
          match left_marker line with
          | None => conflicts_loop fuel ls found (i + 1)
          | Some left_name =>
              let '(conflict, i) := parse_conflict ls i left_name in
              conflicts_loop fuel ls (found ++ [conflict]) i
          end
      end
  end.

(** [conflicts]. *)
Definition conflicts (content : text) : outcome () ParsedFile :=
  let ls := lines content in
  found ← conflicts_loop (length ls) ls [] 0;
  Ok (mkFile found (negb (bool_decide (found = []))) content).

(** * Writing *)

Record ConflictInput := mkInput { ci_left : text; ci_base : option text; ci_right : text }.

(** A section's text, ended by a newline unless it is empty. *)
Definition section_text (t : text) : text :=
  t ++ (if negb (ends_with newline t) && negb (bool_decide (t = [])) then [newline] else []).

(** [conflict]. *)
Definition conflict (input : ConflictInput) (s : DisplaySettings) : text :=
  let output := replicate (marker_size s) (ch "<") ++ [ch " "] ++ left_name s ++ [newline] in
  let output := output ++ section_text (ci_left input) in
  let output :=
    match diff3_style s, ci_base input with
    | true, Some base_content =>
        output ++ replicate (marker_size s) (ch "|") ++ [ch " "] ++ base_name s ++ [newline] ++ section_text base_content
    | _, _ => output
    end in
  let output := output ++ replicate (marker_size s) (ch "=") ++ [newline] in
  let output := output ++ section_text (ci_right input) in
  output ++ replicate (marker_size s) (ch ">") ++ [ch " "] ++ right_name s ++ [newline].

(** [s.split(c).next()]: what precedes the first [c]. *)
Fixpoint before_char (c : char) (t : text) : text :=
  match t with
  | x :: t => if decide (x = c) then [] else x :: before_char c t
  | [] => []
  end.

(** [extract_oid_from_marker]. *)
Definition extract_oid_from_marker (marker : text) : option text :=
  s ← strip_prefix [ch "<"] marker;
  let s := trim_start (N.eqb (ch "<")) s in
  Some (trim (before_char (ch ":") (trim s))).
