(* ===== verification/AstGitProps.v ===== *)
(** Conflict markers are read back: what the line merge and [format.rs] write,
    [parse.rs] takes apart into the same conflicts, as long as no line of the
    files looks like a marker. *)

From stdpp Require Import base gmap sets list strings.
From Stdlib Require Import Ascii.
From S2P Require Import Prelude Chars AstLines AstLinesProps AstGit.
Local Open Scope nat_scope.

(** * Lines *)

Definition cr : char := 13%N.

(** A line as [str::lines] yields them. *)
Definition line_like (l : text) : Prop := newline ∉ l ∧ last l ≠ Some cr.

Lemma lines_from_app line l t : newline ∉ l → lines_from line (l ++ newline :: t) = strip_cr (line ++ l) :: lines_from [] t.
Proof.
  revert line. induction l as [|c l IH]; intros line Hl; cbn.
  - by rewrite app_nil_r.
  - apply not_elem_of_cons in Hl as [Hc Hl]. rewrite decide_False by congruence. rewrite IH by done. by rewrite <- app_assoc.
Qed.

Lemma strip_cr_id l : last l ≠ Some cr → strip_cr l = l.
Proof. unfold strip_cr, cr. intros Hl. destruct (last l) as [c|]; [|done]. rewrite decide_False; congruence. Qed.

Lemma lines_unlines_app ls t : Forall line_like ls → lines (unlines ls ++ t) = ls ++ lines t.
Proof.
  unfold lines. induction ls as [|l ls IH]; intros Hls; [done|]. apply Forall_cons in Hls as [[Hn Hc] Hls].
  rewrite unlines_cons, <- app_assoc. cbn [app]. rewrite lines_from_app by done. cbn [app].
  by rewrite strip_cr_id, IH by done.
Qed.

Lemma lines_unlines ls : Forall line_like ls → lines (unlines ls) = ls.
Proof. intros Hls. pose proof (lines_unlines_app ls [] Hls) as He. by rewrite !app_nil_r in He. Qed.

(** Lines have no newline in them. *)
Lemma lines_from_no_newline line t : newline ∉ line → Forall (λ l, newline ∉ l) (lines_from line t).
Proof.
  revert line. induction t as [|c t IH]; intros line Hl; cbn.
  - destruct line; [done|]. by constructor.
  - case_decide as Hc.
    + constructor; [|apply IH, not_elem_of_nil]. unfold strip_cr. destruct (last line) as [x|] eqn:Hx; [|done].
      case_decide; [|done]. apply last_Some in Hx as (l' & ->). rewrite removelast_last. set_solver.
    + apply IH. rewrite not_elem_of_app, list_elem_of_singleton. naive_solver.
Qed.

Lemma lines_no_newline t : Forall (λ l, newline ∉ l) (lines t).
Proof. apply lines_from_no_newline, not_elem_of_nil. Qed.

(** * Reading sections *)

(** A line that nobody takes for a marker, and that keeps its end. *)
Record plain (l : text) : Prop := {
  plain_left : left_marker l = None;
  plain_base : base_marker l = None;
  plain_separator : separator l = false;
  plain_right : right_marker l = None;
  plain_end : last l ≠ Some cr;
}.

Lemma left_section_plain acc ls rest i : Forall plain ls →
  left_section_loop acc (ls ++ rest) i = left_section_loop (acc ++ ls) rest (i + length ls).
Proof.
  revert acc i. induction ls as [|l ls IH]; intros acc i Hls; cbn; [by rewrite app_nil_r, Nat.add_0_r|].
  apply Forall_cons in Hls as [[] Hls]. rewrite plain_base0, plain_separator0, IH by done.
  rewrite <- app_assoc. cbn. f_equal. lia.
Qed.

Lemma base_section_plain acc ls rest i : Forall plain ls →
  base_section_loop acc (ls ++ rest) i = base_section_loop (acc ++ ls) rest (i + length ls).
Proof.
  revert acc i. induction ls as [|l ls IH]; intros acc i Hls; cbn; [by rewrite app_nil_r, Nat.add_0_r|].
  apply Forall_cons in Hls as [[] Hls]. rewrite plain_separator0, IH by done.
  rewrite <- app_assoc. cbn. f_equal. lia.
Qed.

Lemma right_section_plain acc ls rest i : Forall plain ls →
  right_section_loop acc (ls ++ rest) i = right_section_loop (acc ++ ls) rest (i + length ls).
Proof.
  revert acc i. induction ls as [|l ls IH]; intros acc i Hls; cbn; [by rewrite app_nil_r, Nat.add_0_r|].
  apply Forall_cons in Hls as [[] Hls]. rewrite plain_right0, IH by done.
  rewrite <- app_assoc. cbn. f_equal. lia.
Qed.

(** The base section of a block, if it has one: its marker and its lines. *)
Definition base_block (base : option (text * list text)) : list text :=
  match base with Some (bm, b) => bm :: b | None => [] end.

(** A block of markers and lines. *)
Definition block (lm : text) (l : list text) (base : option (text * list text)) (sep : text) (r : list text) (rm : text) :
    list text :=
  lm :: l ++ base_block base ++ sep :: r ++ [rm].

(** An equation of concatenations, or of their lengths. *)
Ltac block_eq :=
  subst; cbn; repeat (rewrite length_app; cbn); repeat (rewrite <- app_assoc; cbn); done || lia.

Lemma parse_block pre lm l base sep r rm post ln rn bn :
  Forall plain l → Forall plain r →
  (∀ bm b, base = Some (bm, b) → base_marker bm = bn ∧ is_Some bn ∧ Forall plain b) → (base = None → bn = None) →
  base_marker sep = None → separator sep = true → right_marker rm = Some rn →
  parse_conflict (pre ++ block lm l base sep r rm ++ post) (length pre) ln =
    (mkParsed (join [newline] pre) (join [newline] l) (join [newline] ∘ snd <$> base) (join [newline] r)
       (join [newline] post) ln rn bn,
     length pre + length (block lm l base sep r rm)).
Proof.
  intros Hl Hr Hb Hbn Hsb Hs Hrm. unfold parse_conflict, block. set (ls := pre ++ _).
  assert (ls = pre ++ [lm] ++ l ++ base_block base ++ [sep] ++ r ++ [rm] ++ post) as Hls.
  { unfold ls. cbn. rewrite <- !app_assoc. cbn. by rewrite <- !app_assoc. }
  assert (∀ k xs ys, ls = xs ++ ys → length xs = k → drop k ls = ys) as Hdrop.
  { intros k xs ys -> <-. apply drop_app_length. }
  assert (take (length pre) ls = pre) as Htake by (unfold ls; apply take_app_length).
  unfold read_left_section, read_right_section.
  rewrite (Hdrop _ (pre ++ [lm]) (l ++ base_block base ++ [sep] ++ r ++ [rm] ++ post)) by block_eq.
  rewrite left_section_plain by done. cbn [app]. rewrite Htake. clearbody ls.
  destruct base as [[bm b]|]; cbn [base_block app left_section_loop].
  - destruct (Hb bm b eq_refl) as (Hbm & [bn' ->] & Hpb). rewrite Hbm.
    cbn [ls_next_index ls_base_lines ls_left_lines ls_base_name read_base_section].
    rewrite (Hdrop _ (pre ++ [lm] ++ l ++ [bm]) (b ++ [sep] ++ r ++ [rm] ++ post)) by block_eq.
    rewrite base_section_plain by done. cbn [app base_section_loop]. rewrite Hs. cbn [bs_next_index bs_base_lines].
    rewrite (Hdrop _ (pre ++ [lm] ++ l ++ [bm] ++ b ++ [sep]) (r ++ [rm] ++ post)) by block_eq.
    rewrite right_section_plain by done. cbn [app right_section_loop]. rewrite Hrm.
    cbn [rs_next_index rs_right_lines rs_right_name].
    rewrite (Hdrop _ (pre ++ [lm] ++ l ++ [bm] ++ b ++ [sep] ++ r ++ [rm]) post) by block_eq.
    cbn. f_equal. block_eq.
  - rewrite (Hbn eq_refl), Hsb, Hs.
    cbn [ls_next_index ls_base_lines ls_left_lines ls_base_name read_base_section bs_next_index bs_base_lines].
    rewrite (Hdrop _ (pre ++ [lm] ++ l ++ [sep]) (r ++ [rm] ++ post)) by block_eq.
    rewrite right_section_plain by done. cbn [app right_section_loop]. rewrite Hrm.
    cbn [rs_next_index rs_right_lines rs_right_name].
    rewrite (Hdrop _ (pre ++ [lm] ++ l ++ [sep] ++ r ++ [rm]) post) by block_eq.
    cbn. f_equal. block_eq.
Qed.

(** * The loop *)

Lemma conflicts_loop_plain fuel ls found pre mid post : ls = pre ++ mid ++ post → Forall plain mid →
  conflicts_loop (length mid + fuel) ls found (length pre) = conflicts_loop fuel ls found (length pre + length mid).
Proof.
  revert pre. induction mid as [|l mid IH]; intros pre Hls Hp; [cbn [length Nat.add]; by rewrite Nat.add_0_r|].
  apply Forall_cons in Hp as [[] Hp]. cbn [length Nat.add conflicts_loop].
  assert (ls !! length pre = Some l) as -> by (rewrite Hls; apply list_lookup_middle; done).
  rewrite plain_left0. specialize (IH (pre ++ [l])). rewrite length_app in IH. cbn in IH. rewrite IH by block_eq.
  f_equal. lia.
Qed.

Lemma conflicts_loop_end fuel ls found : conflicts_loop fuel ls found (length ls) = Ok found.
Proof. assert (ls !! length ls = None) as He by (by apply lookup_ge_None). destruct fuel; cbn [conflicts_loop]; by rewrite He. Qed.

Lemma conflicts_loop_conflict fuel ls found i line ln : ls !! i = Some line → left_marker line = Some ln →
  conflicts_loop (S fuel) ls found i =
    let '(conflict, i) := parse_conflict ls i ln in conflicts_loop fuel ls (found ++ [conflict]) i.
Proof. intros Hi Hln. cbn [conflicts_loop]. by rewrite Hi, Hln. Qed.

(** What the parser finds in the chunks of a merge. *)
Fixpoint parsed_chunks (before : list text) (chunks : list Chunk) : list ParsedConflict :=
  match chunks with
  | [] => []
  | c :: cs =>
      match c with
      | Edited b l r =>
          if decide (conflicting b l r) then
            [mkParsed (join [newline] before) (join [newline] l) (Some (join [newline] b)) (join [newline] r)
               (join [newline] (concat (chunk_lines <$> cs))) (chars_of "LEFT") (chars_of "RIGHT") (Some (chars_of "BASE"))]
          else []
      | Shared _ => []
      end ++ parsed_chunks (before ++ chunk_lines c) cs
  end.

Definition plain_chunk (c : Chunk) : Prop :=
  Forall plain (chunk_base c) ∧ Forall plain (chunk_left c) ∧ Forall plain (chunk_right c).

Lemma chunk_lines_block b l r : conflicting b l r →
  chunk_lines (Edited b l r) = block LEFT_MARKER l (Some (BASE_MARKER, b)) SEPARATOR r RIGHT_MARKER.
Proof. intros Hc. cbn. by rewrite decide_True. Qed.

Lemma chunk_lines_plain c : plain_chunk c →
  (∃ b l r, c = Edited b l r ∧ conflicting b l r) ∨
  Forall plain (chunk_lines c) ∧ (∀ before cs, parsed_chunks before (c :: cs) = parsed_chunks (before ++ chunk_lines c) cs).
Proof.
  intros (Hb & Hl & Hr). destruct c as [ls|b l r]; [by right|]. cbn in *.
  destruct (decide (conflicting b l r)); [left; eauto|right]. split; [by case_decide|done].
Qed.

Lemma parse_chunks chunks ls found pre fuel : Forall plain_chunk chunks →
  ls = pre ++ concat (chunk_lines <$> chunks) → length (concat (chunk_lines <$> chunks)) ≤ fuel →
  conflicts_loop fuel ls found (length pre) = Ok (found ++ parsed_chunks pre chunks).
Proof.
  revert found pre fuel. induction chunks as [|c chunks IH]; intros found pre fuel Hp Hls Hfuel.
  - cbn in Hls. rewrite app_nil_r in Hls. subst. rewrite conflicts_loop_end. by rewrite app_nil_r.
  - apply Forall_cons in Hp as [Hc Hp]. cbn [fmap list_fmap concat] in Hls, Hfuel. rewrite length_app in Hfuel.
    destruct (chunk_lines_plain c Hc) as [(b & l & r & -> & Hconf)|[Hpl Hpc]].
    + rewrite (chunk_lines_block b l r Hconf) in Hls, Hfuel. destruct Hc as (Hb & Hl & Hr).
      destruct fuel as [|fuel]; [cbn in Hfuel; lia|].
      rewrite (conflicts_loop_conflict _ _ _ _ LEFT_MARKER (chars_of "LEFT")).
      2: { rewrite Hls. by apply list_lookup_middle. }
      2: { by vm_compute. }
      rewrite Hls. erewrite (parse_block pre _ l (Some (BASE_MARKER, b)) _ r _ _ _ (chars_of "RIGHT") (Some (chars_of "BASE")));
        [|done|done| |done|by vm_compute|by vm_compute|by vm_compute].
      2: { intros ? ? [= <- <-]. split; [by vm_compute|]. split; [done|]. exact Hb. }
      rewrite <- Hls, <- length_app. rewrite IH; [|done|by rewrite <- app_assoc|cbn in Hfuel; lia].
      cbn [parsed_chunks]. rewrite (chunk_lines_block b l r Hconf), decide_True by done. by rewrite <- app_assoc.
    + rewrite Hpc. replace fuel with (length (chunk_lines c) + (fuel - length (chunk_lines c))) by lia.
      rewrite (conflicts_loop_plain _ _ _ _ _ _ Hls Hpl), <- length_app. apply IH; [done|by rewrite <- app_assoc|lia].
Qed.

(** A conflict parsed is a block of the file, and the conflict recorded. *)
Definition recovers (ls : list text) (pc : ParsedConflict) (c : Conflict) : Prop :=
  ∃ pre l b r post,
    ls = pre ++ block LEFT_MARKER l (Some (BASE_MARKER, b)) SEPARATOR r RIGHT_MARKER ++ post ∧
    pc = mkParsed (join [newline] pre) (join [newline] l) (Some (join [newline] b)) (join [newline] r)
      (join [newline] post) (chars_of "LEFT") (chars_of "RIGHT") (Some (chars_of "BASE")) ∧
    rg_text (cf_left c) = join [newline] l ∧ from_option rg_text [] (cf_base c) = join [newline] b ∧
    rg_text (cf_right c) = join [newline] r.

Lemma parsed_chunks_recover chunks before bp lp rp :
  Forall2 (recovers (before ++ concat (chunk_lines <$> chunks))) (parsed_chunks before chunks) (conflicts_at bp lp rp chunks).
Proof.
  revert before bp lp rp. induction chunks as [|c chunks IH]; intros before bp lp rp; [by constructor|].
  cbn [parsed_chunks conflicts_at fmap list_fmap concat]. rewrite app_assoc. apply Forall2_app; [|apply IH].
  destruct c as [ls|b l r]; [done|]. case_decide as Hc; [|done]. rewrite chunk_lines_block by done.
  constructor; [|done]. exists before, l, b, r, (concat (chunk_lines <$> chunks)). split; [by rewrite <- app_assoc|].
  split; [done|]. cbn. split; [done|]. split; [|done]. by case_decide; subst.
Qed.

(** * The line merge, read back *)

Lemma Forall_concat_fmap {A B} (P : A → Prop) (f : B → list A) cs :
  Forall P (concat (f <$> cs)) ↔ Forall (λ c, Forall P (f c)) cs.
Proof. by rewrite Forall_concat, Forall_fmap. Qed.

Section recover.
Context `{SimilarLaws}.

Lemma plain_chunks base left right res chunks : merge_of base left right res chunks →
  Forall plain (lines base) → Forall plain (lines left) → Forall plain (lines right) → Forall plain_chunk chunks.
Proof.
  intros [Hb Hl Hr _ _ _ _]. rewrite <- Hb, <- Hl, <- Hr, !Forall_concat_fmap. intros HB HL HR.
  apply Forall_forall. intros c Hc.
  split; [|split]; [by apply (proj1 (Forall_forall _ _) HB)|by apply (proj1 (Forall_forall _ _) HL)|by apply (proj1 (Forall_forall _ _) HR)].
Qed.

Lemma line_like_chunks base left right res chunks : merge_of base left right res chunks →
  Forall plain_chunk chunks → Forall line_like (concat (chunk_lines <$> chunks)).
Proof.
  intros [Hb Hl Hr _ _ _ _] Hp. pose proof (lines_no_newline base) as HB. pose proof (lines_no_newline left) as HL.
  pose proof (lines_no_newline right) as HR. rewrite <- Hb in HB. rewrite <- Hl in HL. rewrite <- Hr in HR.
  rewrite Forall_concat_fmap in HB, HL, HR. apply Forall_concat_fmap, Forall_forall. intros c Hc.
  pose proof (proj1 (Forall_forall _ _) Hp c Hc) as (PB & PL & PR).
  pose proof (proj1 (Forall_forall _ _) HB c Hc) as NB. pose proof (proj1 (Forall_forall _ _) HL c Hc) as NL.
  pose proof (proj1 (Forall_forall _ _) HR c Hc) as NR. cbn in *.
  assert (∀ ls, Forall plain ls → Forall (λ l, newline ∉ l) ls → Forall line_like ls) as Hlike.
  { intros ls Hpl Hn. apply Forall_forall. intros l Hin. split; [by apply (proj1 (Forall_forall _ _) Hn)|].
    apply (proj1 (Forall_forall _ _) Hpl l Hin). }
  destruct c as [ls|b l r]; cbn in *; [auto|]. case_decide; [|case_decide; auto].
  repeat first [apply Forall_cons; split|apply Forall_app; split|by auto|by apply Forall_nil_2]; split; apply (bool_decide_unpack _); by vm_compute.
Qed.

Lemma parse_plain t : Forall plain (lines t) → conflicts t = Ok (mkFile [] false t).
Proof.
  intros Hp. unfold conflicts. rewrite <- (Nat.add_0_r (length (lines t))).
  change (conflicts_loop (length (lines t) + 0) (lines t) [] 0) with
    (conflicts_loop (length (lines t) + 0) (lines t) [] (length (A := text) [])).
  rewrite (conflicts_loop_plain 0 (lines t) [] [] (lines t) []) by (rewrite ?app_nil_r; done).
  cbn [length]. by rewrite Nat.add_0_l, conflicts_loop_end.
Qed.

End recover.

(** C31. What the line merge of three files leaves in the file, the parser of
    conflict markers reads back, if no line of the three files looks like a marker
    or ends in a carriage return. It always finds an answer, keeps the content as
    it is, and reports conflicts exactly when the merge does not report success.
    The conflicts it finds are those the merge recorded, in their order: each is a
    block of the file with the markers, its texts are the lines of the left, the
    base and the right in that block, equal to the texts the merge recorded, its
    names are those the merge writes, and what it calls before and after is all of
    the file that precedes and follows the block. *)
Theorem conflicts_recovered `{SimilarLaws} base left right res :
  based base left right = Ok res →
  Forall plain (lines base) → Forall plain (lines left) → Forall plain (lines right) →
  ∃ file, conflicts (content res) = Ok file ∧ pf_content file = content res ∧
    has_conflicts file = negb (success res) ∧
    Forall2 (recovers (lines (content res))) (pf_conflicts file) (mr_conflicts res).
Proof.
  intros Hres Hb Hl Hr.
  assert (∀ t, res = result_success t → Forall plain (lines t) → ∃ file, conflicts (content res) = Ok file ∧
    pf_content file = content res ∧ has_conflicts file = negb (success res) ∧
    Forall2 (recovers (lines (content res))) (pf_conflicts file) (mr_conflicts res)) as Htriv.
  { intros t -> Ht. exists (mkFile [] false t). cbn [content result_success]. by rewrite parse_plain. }
  destruct (decide (left = right)) as [->|Hlr]; [|destruct (decide (base = left)) as [->|Hbl]];
    [| |destruct (decide (base = right)) as [->|Hbr]].
  1-3: unfold based in Hres; rewrite ?decide_False, decide_True in Hres by done; injection Hres as <-; by eapply Htriv.
  destruct (based_spec base left right Hlr Hbl Hbr) as (res' & chunks & Hres' & Hm).
  rewrite Hres in Hres'. injection Hres' as <-. pose proof (plain_chunks _ _ _ _ _ Hm Hb Hl Hr) as Hp.
  pose proof (line_like_chunks _ _ _ _ _ Hm Hp) as Hlike. destruct Hm as [_ _ _ _ Hcontent Hconf Hsucc].
  unfold conflicts. rewrite Hcontent, lines_unlines by done.
  pose proof (parse_chunks chunks (concat (chunk_lines <$> chunks)) [] [] _ Hp eq_refl (le_n _)) as He.
  cbn [length] in He. rewrite He.
  cbn [mbind outcome_bind app]. eexists. split; [done|]. cbn. split; [done|].
  pose proof (parsed_chunks_recover chunks [] 0 0 0) as Hrec. rewrite <- Hconf in Hrec. cbn [app] in Hrec.
  split; [|done]. rewrite Hsucc. f_equal. apply bool_decide_ext. apply Forall2_length in Hrec.
  rewrite <- !length_zero_iff_nil, Hrec. done.
Qed.

Lemma conflicts_recovered_witness :
  ∃ file res pc, based (sample "b") (sample "x") (sample "y") = Ok res ∧ conflicts (content res) = Ok file ∧
    has_conflicts file = true ∧ pf_conflicts file = [pc] ∧
    pc_left pc = chars_of "x" ++ newline :: chars_of "c" ∧ pc_right pc = chars_of "y" ++ newline :: chars_of "c".
Proof.
  destruct (based (sample "b") (sample "x") (sample "y")) as [res| |] eqn:Hres; [|by vm_compute in Hres..].
  destruct (conflicts_recovered (sample "b") (sample "x") (sample "y") res Hres) as (file & Hf & _ & Hc & _);
    [repeat constructor; by vm_compute..|].
  vm_compute in Hres. injection Hres as <-. exists file. eexists _, (default (mkParsed [] [] None [] [] [] [] None) (head (pf_conflicts file))).
  split; [done|]. split; [done|]. split; [done|]. vm_compute in Hf. injection Hf as <-. by split_and!.
Defined.

(** * A conflict that is written, read back *)

Lemma lines_from_terminated line t rest :
  lines_from line (t ++ newline :: rest) = lines_from line (t ++ [newline]) ++ lines_from [] rest.
Proof.
  revert line. induction t as [|c t IH]; intros line; cbn -[newline]; [by rewrite decide_True|].
  case_decide; [|done]. cbn. by rewrite IH.
Qed.

Lemma lines_from_unterminated line t rest : last t ≠ Some newline → line ++ t ≠ [] →
  Forall (λ l, last l ≠ Some cr) (lines_from line t) →
  lines_from line (t ++ newline :: rest) = lines_from line t ++ lines_from [] rest.
Proof.
  revert line. induction t as [|c t IH]; intros line Hlast Hne Hcr; cbn -[newline].
  - rewrite decide_True by done. rewrite app_nil_r in Hne. cbn in Hcr. destruct line as [|x line]; [done|].
    apply Forall_cons in Hcr as [Hcr _]. by rewrite strip_cr_id.
  - cbn -[newline] in Hcr. assert (t ≠ [] → last t ≠ Some newline) as Ht by (destruct t; [done|by intros _]).
    case_decide as Hc.
    + destruct t as [|y t]; [by subst|]. apply Forall_cons in Hcr as [_ Hcr].
      by rewrite IH by (done || by apply Ht).
    + apply IH; [destruct t; [done|by apply Ht]|by rewrite <- app_assoc; destruct line|done].
Qed.

Lemma lines_section t rest : Forall plain (lines t) → lines (section_text t ++ rest) = lines t ++ lines rest.
Proof.
  intros Hp. unfold section_text, ends_with, lines in *. destruct (decide (t = [])) as [->|Hne]; [done|].
  rewrite (bool_decide_eq_false_2 (t = [])) by done. case_bool_decide as Hl; cbn [negb andb].
  - apply last_Some in Hl as (t' & ->). rewrite app_nil_r, <- app_assoc. apply lines_from_terminated.
  - rewrite <- app_assoc. cbn [app]. apply lines_from_unterminated; [done|done|].
    eapply Forall_impl; [exact Hp|]. intros l []. done.
Qed.

(** A marker line of a char, and its name. *)
Definition marker_line (c : char) (n : nat) (name : text) : text := replicate n c ++ ch " " :: name.

Lemma run_replicate c n rest : head rest ≠ Some c → run c (replicate n c ++ rest) = (n, rest).
Proof.
  intros Hr. induction n as [|n IH]; cbn.
  - destruct rest as [|x rest]; [done|]. cbn in *. by rewrite decide_False by congruence.
  - rewrite decide_True by done. by rewrite IH.
Qed.

Lemma named_marker_line c n name : 7 ≤ n → c ≠ ch " " → newline ∉ name → named_marker c (marker_line c n name) = Some name.
Proof.
  intros Hn Hc Hname. unfold named_marker, marker_line. rewrite run_replicate by (cbn; congruence).
  by rewrite decide_True.
Qed.

Lemma separator_line n : 7 ≤ n → separator (replicate n (ch "=")) = true ∧ base_marker (replicate n (ch "=")) = None.
Proof.
  intros Hn. split.
  - unfold separator. rewrite <- (app_nil_r (replicate n _)), run_replicate by done. by apply bool_decide_eq_true.
  - destruct n; [lia|]. done.
Qed.

Lemma lines_marker c n name rest : c ≠ newline → line_like (ch " " :: name) →
  lines (marker_line c n name ++ newline :: rest) = marker_line c n name :: lines rest.
Proof.
  intros Hc [Hn Hcr]. unfold lines. rewrite lines_from_app; cbn [app].
  - rewrite strip_cr_id; [done|]. unfold marker_line. by rewrite last_app_cons.
  - unfold marker_line. rewrite not_elem_of_app. split; [|done]. rewrite elem_of_replicate. naive_solver.
Qed.

(** Names that may stand on a marker line. *)
Definition name_like (name : text) : Prop := newline ∉ name ∧ last name ≠ Some cr.

Lemma name_line name : name_like name → line_like (ch " " :: name).
Proof.
  intros [Hn Hl]. split.
  - by apply not_elem_of_cons.
  - destruct name; [done|]. exact Hl.
Qed.

Lemma lines_separator n rest : 7 ≤ n → lines (replicate n (ch "=") ++ newline :: rest) = replicate n (ch "=") :: lines rest.
Proof.
  intros Hn. unfold lines. rewrite lines_from_app; cbn [app].
  - rewrite strip_cr_id; [done|]. destruct n; [lia|]. rewrite replicate_S_end, last_snoc. done.
  - rewrite elem_of_replicate. naive_solver.
Qed.

(** A conflict that is written is read back. With marker sizes of seven or
    more, names that fit on a line, and texts no line of which looks like a marker
    or ends in a carriage return, the parser finds in what [conflict] writes
    exactly one conflict, with nothing before or after it: the lines of the left
    and the right, the base exactly if it was given and the style is diff3, and
    the names as they were set. *)
Lemma written_conflict_parses input s :
  7 ≤ marker_size s → name_like (left_name s) → name_like (right_name s) → name_like (base_name s) →
  Forall plain (lines (ci_left input)) → Forall plain (lines (ci_right input)) →
  (∀ b, ci_base input = Some b → Forall plain (lines b)) →
  let base := if diff3_style s then ci_base input else None in
  conflicts (conflict input s) =
    Ok (mkFile
      [mkParsed [] (join [newline] (lines (ci_left input))) (join [newline] ∘ lines <$> base)
         (join [newline] (lines (ci_right input))) [] (left_name s) (right_name s) ((λ _, base_name s) <$> base)]
      true (conflict input s)).
Proof.
  intros Hn Hl Hr Hb PL PR PB base. set (n := marker_size s) in *.
  set (bl := (λ b, (marker_line (ch "|") n (base_name s), lines b)) <$> base).
  assert (lines (conflict input s) = block (marker_line (ch "<") n (left_name s)) (lines (ci_left input)) bl
    (replicate n (ch "=")) (lines (ci_right input)) (marker_line (ch ">") n (right_name s))) as Hlines.
  { unfold conflict. fold n. set (lt := ch "<"). set (bar := ch "|"). set (gt := ch ">").
    assert (∀ c name rest, replicate n c ++ ch " " :: name ++ newline :: rest = marker_line c n name ++ newline :: rest) as Hm.
    { intros. unfold marker_line. by rewrite <- app_assoc. }
    destruct (diff3_style s), (ci_base input) as [b|] eqn:Eb; subst base bl; rewrite <- ?app_assoc; cbn [app fmap option_fmap option_map];
      rewrite <- ?app_assoc; cbn [app].
    all: repeat first [rewrite Hm; rewrite lines_marker by (done || by apply name_line) | rewrite lines_section by auto | rewrite lines_separator by done].
    all: unfold block; cbn [base_block app]; done. }
  unfold conflicts. rewrite Hlines. set (ls := block _ _ _ _ _ _) in *.
  assert (ls = [] ++ ls ++ []) as Hls by (by rewrite app_nil_r).
  assert (∃ k, length ls = S k) as (k & Hk) by (by eexists).
  rewrite Hk, (conflicts_loop_conflict _ _ _ _ (marker_line (ch "<") n (left_name s)) (left_name s)).
  2: { done. }
  2: { apply named_marker_line; [done|done|apply Hl]. }
  pose proof (separator_line n Hn) as [Hsep Hnb].
  pose proof (parse_block [] (marker_line (ch "<") n (left_name s)) (lines (ci_left input)) bl (replicate n (ch "="))
    (lines (ci_right input)) (marker_line (ch ">") n (right_name s)) [] (left_name s) (right_name s) ((λ _, base_name s) <$> base)) as Hpb.
  fold ls in Hpb. rewrite <- Hls in Hpb. cbn [length] in Hpb. rewrite Hpb; [|done|done| | |done|done|].
  - cbn [Nat.add]. rewrite conflicts_loop_end. cbn [mbind outcome_bind app join]. do 3 f_equal.
    unfold bl. by destruct base.
  - intros bm b Hbl. unfold bl in Hbl. destruct base as [b0|] eqn:E0; [|done]. injection Hbl as <- <-.
    split; [|split; [by eexists|]].
    + apply named_marker_line; [done|done|apply Hb].
    + apply PB. unfold base in E0. by destruct (diff3_style s).
  - unfold bl. by destruct base.
  - apply named_marker_line; [done|done|apply Hr].
Qed.

Example written_conflict_parses_demo :
  let input := mkInput (chars_of "x") (Some (chars_of "b")) (chars_of "y" ++ [newline]) in
  conflicts (conflict input default_settings) =
    Ok (mkFile
      [mkParsed [] (chars_of "x") (Some (chars_of "b")) (chars_of "y") [] (chars_of "ours") (chars_of "theirs")
         (Some (chars_of "base"))]
      true (conflict input default_settings)).
Proof.
  intros input. apply (written_conflict_parses input default_settings).
  - apply Nat.leb_le. by vm_compute.
  - split; [apply (bool_decide_unpack _); by vm_compute|by vm_compute].
  - split; [apply (bool_decide_unpack _); by vm_compute|by vm_compute].
  - split; [apply (bool_decide_unpack _); by vm_compute|by vm_compute].
  - repeat constructor; by vm_compute.
  - repeat constructor; by vm_compute.
  - intros b [= <-]. repeat constructor; by vm_compute.
Defined.
