(* ===== verification/AstTree.v ===== *)
(** Syntax trees of [packages/ast-merge/ast] and walks over them ([trees.rs] of
    the diff, [traverse.rs] of the matcher).

    A tree is what the parser of tree-sitter made of a text. The handle of a
    node, which the code compares by [id], is its place in preorder; the hasher
    of [rustc_hash] is a parameter. *)

From stdpp Require Import base gmap sets list strings.
From S2P Require Import Prelude Chars.
Local Open Scope nat_scope.

(** * Trees *)

(** A node, and its children with the fields they are. *)
Inductive Node := mkNode {
  kind : text; kind_id : N; is_extra : bool; start_byte : nat; end_byte : nat;
  fields : list (option text); children : list Node }.

(** [Revision]. *)
Inductive Revision := Base | Left | Right.

Record Tree := mkTree { source : text; root_node : Node }.

(** [str::get] of a range of bytes. *)
Definition get_range (t : text) (s e : nat) : option text :=
  '(pre, _) ← split_at e t;
  snd <$> split_at s pre.

(** [Tree::node_text]. *)
Definition node_text (tree : Tree) (node : Node) : text :=
  default [] (get_range (source tree) (start_byte node) (end_byte node)).

(** [Node::child_by_field_name]: the first child that is this field. *)
Definition child_by_field_name (node : Node) (field : text) : option Node :=
  snd ∘ snd <$> list_find (λ p, p.1 = Some field) (zip (fields node) (children node)).

(** * Hashes *)

(** [FxHasher], and the hash of a string with it. *)
Class Hasher := { hash_state : Type; hasher_default : hash_state;
  hash_str : text → hash_state → hash_state; finish : hash_state → N }.

Section hash.
Context `{Hasher}.

(** [compute_recursive]. *)
Fixpoint compute_recursive (tree : Tree) (node : Node) (hasher : hash_state) : hash_state :=
  let hasher := hash_str (kind node) hasher in
  match children node with
  | [] => hash_str (node_text tree node) hasher
  | cs => foldl (λ hasher child, child hasher) hasher (compute_recursive tree <$> cs)
  end.

(** [compute]. *)
Definition compute (tree : Tree) (node : Node) : N := finish (compute_recursive tree node hasher_default).

End hash.

(** * Walks *)

(** [node_height]. *)
Fixpoint node_height (node : Node) : nat :=
  match children node with
  | [] => 1
  | cs => foldl max 0 (node_height <$> cs) + 1
  end.

(** [assign_node_ids] and [collect_nodes]: the nodes in preorder. *)
Fixpoint collect_nodes (node : Node) : list Node := node :: concat (collect_nodes <$> children node).

Definition tree_size (node : Node) : nat := length (collect_nodes node).

(** A node where it stands: its parent and its place among the children. *)
Record Place := mkPlace { pl_node : Node; pl_parent : option nat; pl_index : nat }.

(** The places of siblings from this id and this index on. *)
Section sibling_places.
Context (places_from : nat → nat → Node → list Place).
Fixpoint sibling_places (next index : nat) (cs : list Node) : list Place :=
  match cs with
  | [] => []
  | c :: cs => places_from next index c ++ sibling_places (next + tree_size c) (S index) cs
  end.
End sibling_places.

(** The places of the nodes in preorder, the first of which has this id. *)
Fixpoint places_from (parent : option nat) (id index : nat) (node : Node) : list Place :=
  mkPlace node parent index :: sibling_places (places_from (Some id)) (S id) 0 (children node).
Definition places (root : Node) : list Place := places_from None 0 0 root.

(** [find_predecessor] of a node with a parent. *)
Definition find_predecessor (node_ids : list Place) (place : Place) : option nat :=
  match pl_index place with
  | 0 => None
  | S prev => fst <$> list_find (λ p, pl_parent p = pl_parent place ∧ pl_index p = prev) node_ids
  end.

(** * Induction *)

Lemma Node_tree_ind (P : Node → Prop) : (∀ n, Forall P (children n) → P n) → ∀ n, P n.
Proof.
  intros Hstep. fix IH 1. intros n. apply Hstep. destruct n as [k ki ex s e fs cs]. cbn.
  induction cs as [|c cs IHcs]; constructor; [apply IH|done].
Qed.

Lemma collect_nodes_unfold n : collect_nodes n = n :: concat (collect_nodes <$> children n).
Proof. by destruct n. Qed.

(** The nodes of a tree where they stand: from this id on, preorder visits the
    node's own nodes. *)
Definition within (root : Node) (id : nat) (node : Node) : Prop :=
  ∃ pre post, collect_nodes root = pre ++ collect_nodes node ++ post ∧ length pre = id.

Lemma within_root root : within root 0 root.
Proof. exists [], []. by rewrite app_nil_r. Qed.

Lemma within_lookup root id node : within root id node → collect_nodes root !! id = Some node.
Proof.
  intros (pre & post & -> & <-). rewrite collect_nodes_unfold. by apply list_lookup_middle.
Qed.

Lemma within_fun root id n1 n2 : within root id n1 → within root id n2 → n1 = n2.
Proof. intros H1%within_lookup H2%within_lookup. congruence. Qed.

(** Children follow their parent, one after the other. *)
Lemma within_children root id node cs1 c cs2 : within root id node → children node = cs1 ++ c :: cs2 →
  within root (S id + sum_list (tree_size <$> cs1)) c.
Proof.
  intros (pre & post & He & Hid) Hcs. rewrite (collect_nodes_unfold node), Hcs in He.
  rewrite fmap_app, concat_app in He. cbn [fmap list_fmap concat] in He.
  exists (pre ++ node :: concat (collect_nodes <$> cs1)), (concat (collect_nodes <$> cs2) ++ post). split.
  - rewrite He. cbn. by repeat (rewrite <- app_assoc; cbn).
  - rewrite length_app. cbn. rewrite Hid. assert (length (concat (collect_nodes <$> cs1)) = sum_list (tree_size <$> cs1)); [|lia].
    clear. induction cs1 as [|c cs IH]; cbn; [done|]. rewrite length_app, IH. done.
Qed.

Lemma concat_lookup_split {A} (ls : list (list A)) k x : concat ls !! k = Some x →
  ∃ ls1 l ls2 j, ls = ls1 ++ l :: ls2 ∧ l !! j = Some x ∧ k = length (concat ls1) + j.
Proof.
  revert k. induction ls as [|l ls IH]; intros k Hk; [done|]. cbn in Hk.
  destruct (decide (k < length l)) as [Hlt|Hge].
  - rewrite lookup_app_l in Hk by done. by exists [], l, ls, k.
  - rewrite lookup_app_r in Hk by lia. destruct (IH _ Hk) as (ls1 & l' & ls2 & j & -> & Hj & Hkj).
    exists (l :: ls1), l', ls2, j. cbn. rewrite length_app. split_and!; [done|done|lia].
Qed.

Lemma lookup_within root id node : collect_nodes root !! id = Some node → within root id node.
Proof.
  revert id node. induction root as [root IH] using Node_tree_ind. intros id node.
  rewrite collect_nodes_unfold. destruct id as [|id]; [intros [= <-]; apply within_root|]. cbn.
  intros (ls1 & l & ls2 & j & Hsplit & Hj & ->)%concat_lookup_split.
  apply fmap_app_inv in Hsplit as (cs1 & cs' & -> & Hcs' & Hcs).
  destruct cs' as [|c cs2]; [done|]. cbn in Hcs'. injection Hcs' as -> ->.
  pose proof (proj1 (Forall_forall _ _) IH c ltac:(rewrite Hcs; set_solver) _ _ Hj) as (pre & post & He & Hlen).
  exists (root :: concat (collect_nodes <$> cs1) ++ pre), (post ++ concat (collect_nodes <$> cs2)). split.
  - rewrite collect_nodes_unfold, Hcs, fmap_app, concat_app. cbn. rewrite He. by rewrite <- !app_assoc.
  - cbn. rewrite length_app. lia.
Qed.

(** The nodes of the places are those of the tree, in preorder. *)
Lemma places_from_nodes parent id index node : pl_node <$> places_from parent id index node = collect_nodes node.
Proof.
  revert parent id index. induction node as [node IH] using Node_tree_ind. intros parent id index.
  destruct node as [k ki ex s e fs cs]. cbn [children] in IH. cbn [places_from children]. rewrite collect_nodes_unfold.
  cbn [fmap list_fmap pl_node children]. f_equal. generalize (S id), 0.
  induction IH as [|c cs Hc _ IHcs]; intros next i; [done|]. cbn [sibling_places].
  rewrite fmap_app, Hc, IHcs. done.
Qed.

Lemma places_nodes root : pl_node <$> places root = collect_nodes root.
Proof. apply places_from_nodes. Qed.

Lemma places_within root id place : places root !! id = Some place → within root id (pl_node place).
Proof. intros Hp. apply lookup_within. rewrite <- places_nodes, list_lookup_fmap, Hp. done. Qed.

Lemma within_places root id node : within root id node → ∃ place, places root !! id = Some place ∧ pl_node place = node.
Proof.
  intros Hw%within_lookup. rewrite <- places_nodes, list_lookup_fmap in Hw.
  destruct (places root !! id) as [place|]; [|done]. injection Hw as <-. by exists place.
Qed.

(** ** Parents and siblings *)

Lemma length_places_from parent id index node : length (places_from parent id index node) = tree_size node.
Proof. unfold tree_size. by rewrite <- (places_from_nodes parent id index), length_fmap. Qed.

Lemma sibling_places_lookup f next index cs k q : (∀ n i c, length (f n i c) = tree_size c) →
  sibling_places f next index cs !! k = Some q ↔
  ∃ cs1 c cs2 j, cs = cs1 ++ c :: cs2 ∧ k = sum_list (tree_size <$> cs1) + j ∧
    f (next + sum_list (tree_size <$> cs1)) (index + length cs1) c !! j = Some q.
Proof.
  intros Hf. revert next index k. induction cs as [|c cs IH]; intros next index k; cbn [sibling_places].
  - split; [done|]. by intros ([] & ? & ? & ? & ? & _).
  - rewrite lookup_app_Some, Hf, IH. split.
    + intros [Hk|(Hge & cs1 & c' & cs2 & j & -> & Hk & Hq)].
      * exists [], c, cs, k. cbn. by rewrite !Nat.add_0_r.
      * exists (c :: cs1), c', cs2, j. cbn [fmap list_fmap sum_list_with length id].
        replace (next + (tree_size c + sum_list (tree_size <$> cs1))) with (next + tree_size c + sum_list (tree_size <$> cs1)) by lia.
        replace (index + S (length cs1)) with (S index + length cs1) by lia. split; [done|]. split; [lia|done].
    + intros (cs1 & c' & cs2 & j & Hcs & -> & Hq). destruct cs1 as [|c1 cs1]; cbn in Hcs; injection Hcs as -> ->.
      * left. cbn in *. by rewrite !Nat.add_0_r in Hq.
      * right. cbn [fmap list_fmap sum_list_with length id] in *. split; [lia|]. exists cs1, c', cs2, j.
        split; [done|]. split; [lia|].
        replace (next + (tree_size c1 + sum_list (tree_size <$> cs1))) with (next + tree_size c1 + sum_list (tree_size <$> cs1)) in Hq by lia.
        by replace (index + S (length cs1)) with (S index + length cs1) in Hq by lia.
Qed.

(** A node other than the root is a child of its parent, at its index. *)
Lemma places_from_parent parent id index node k q : places_from parent id index node !! k = Some q →
  k = 0 ∧ q = mkPlace node parent index ∨
  ∃ p pp cs1 cs2, pl_parent q = Some (id + p) ∧ places_from parent id index node !! p = Some pp ∧
    children (pl_node pp) = cs1 ++ pl_node q :: cs2 ∧ pl_index q = length cs1 ∧ k = S p + sum_list (tree_size <$> cs1).
Proof.
  revert parent id index k. induction node as [node IH] using Node_tree_ind. intros parent id index k.
  assert (places_from parent id index node = mkPlace node parent index ::
    sibling_places (places_from (Some id)) (S id) 0 (children node)) as Hpl by (by destruct node).
  rewrite Hpl. destruct k as [|k]; [intros [= <-]; by left|]. cbn [lookup list_lookup].
  intros (cs1 & c & cs2 & j & Hcs & -> & Hq)%sibling_places_lookup; [|apply length_places_from].
  right. pose proof (proj1 (Forall_forall _ _) IH c ltac:(rewrite Hcs; set_solver) _ _ _ _ Hq)
    as [(-> & ->)|(p & pp & ds1 & ds2 & Hpar & Hpp & Hds & Hidx & ->)].
  - exists 0, (mkPlace node parent index), cs1, cs2. cbn. by rewrite !Nat.add_0_r.
  - exists (S (sum_list (tree_size <$> cs1) + p)), pp, ds1, ds2. split; [rewrite Hpar; f_equal; lia|].
    split; [|split; [done|split; [done|lia]]]. cbn [lookup list_lookup].
    apply sibling_places_lookup; [apply length_places_from|]. exists cs1, c, cs2, p. done.
Qed.

(** And every child of a node has its place. *)
Lemma places_from_child parent id index node p pp cs1 c cs2 : places_from parent id index node !! p = Some pp →
  children (pl_node pp) = cs1 ++ c :: cs2 →
  places_from parent id index node !! (S p + sum_list (tree_size <$> cs1)) = Some (mkPlace c (Some (id + p)) (length cs1)).
Proof.
  revert parent id index p. induction node as [node IH] using Node_tree_ind. intros parent id index p.
  assert (places_from parent id index node = mkPlace node parent index ::
    sibling_places (places_from (Some id)) (S id) 0 (children node)) as Hpl by (by destruct node).
  rewrite Hpl. assert (∀ (x : Place) l n, (x :: l) !! (S n) = l !! n) as Hskip by done. cbn [Nat.add]. rewrite Hskip.
  destruct p as [|p].
  - intros [= <-] Hcs. cbn in Hcs. apply sibling_places_lookup; [apply length_places_from|].
    exists cs1, c, cs2, 0. rewrite !Nat.add_0_r. split; [done|]. split; [done|]. by destruct c.
  - rewrite Hskip. intros (ds1 & d & ds2 & j & Hds & -> & Hq)%sibling_places_lookup Hcs; [|apply length_places_from].
    pose proof (proj1 (Forall_forall _ _) IH d ltac:(rewrite Hds; set_solver) _ _ _ _ Hq Hcs) as Hc.
    apply sibling_places_lookup; [apply length_places_from|].
    exists ds1, d, ds2, (S j + sum_list (tree_size <$> cs1)). split; [done|]. split; [cbn; lia|].
    rewrite Hc. do 3 f_equal. lia.
Qed.

(** The place of a node is known by its parent and its index. *)
Lemma places_index root i j p q : places root !! i = Some p → places root !! j = Some q →
  pl_parent p = pl_parent q → pl_index p = pl_index q → i = j.
Proof.
  intros [[-> ->]|(a & pa & cs1 & cs2 & Hpa & Ha & Hcs & Hi & ->)]%places_from_parent
    [[-> ->]|(b & pb & ds1 & ds2 & Hpb & Hb & Hds & Hj & ->)]%places_from_parent Hpar Hidx; [done|by rewrite Hpb in Hpar|by rewrite Hpa in Hpar|].
  rewrite Hpa, Hpb in Hpar. injection Hpar as Hab. cbn in Hab. subst b. rewrite Ha in Hb. injection Hb as <-.
  rewrite Hcs in Hds. rewrite Hi, Hj in Hidx. apply app_inj_1 in Hds as [-> _]; [done|done].
Qed.

(** The predecessor is the sibling before. *)
Lemma find_predecessor_spec root i p : places root !! i = Some p → pl_parent p ≠ None →
  match find_predecessor (places root) p with
  | None => pl_index p = 0
  | Some a => ∃ pa, places root !! a = Some pa ∧ pl_parent pa = pl_parent p ∧ pl_index p = S (pl_index pa)
  end.
Proof.
  intros Hi Hpar. unfold find_predecessor. destruct (pl_index p) as [|prev] eqn:Hidx; [done|].
  destruct (list_find _ _) as [[a pa]|] eqn:Hf; cbn.
  - apply list_find_Some in Hf as (Ha & [? <-] & _). by exists pa.
  - apply places_from_parent in Hi as [[_ ->]|(b & pb & cs1 & cs2 & Hpb & Hb & Hcs & Hi & _)]; [done|].
    rewrite Hi in Hidx. destruct cs1 as [|x cs1 _] using rev_ind; [done|]. rewrite length_app in Hidx. cbn in Hidx.
    rewrite <- app_assoc in Hcs. pose proof (places_from_child _ _ _ _ _ _ _ _ _ Hb Hcs) as Hx.
    apply list_find_None in Hf. pose proof (proj1 (Forall_forall _ _) Hf _ (list_elem_of_lookup_2 _ _ _ Hx)) as Hn.
    destruct Hn. cbn. split; [by rewrite Hpb|lia].
Qed.
