(* ===== verification/AstMatch.v ===== *)
(** The matcher of [packages/ast-merge/matcher]: the GumTree heuristics that
    pair the nodes of two revisions, first whole subtrees that are equal, then
    leaves, then what remains by how many descendants are paired.

    Nodes are named by their place in preorder. The order in which a hash map is
    iterated, and the hasher, are parameters. *)

From stdpp Require Import base gmap sets list strings sorting.
From Stdlib Require Import SpecFloat.
From S2P Require Import Prelude Chars AstTree.
Local Open Scope nat_scope.

(** * The order of hash maps *)

Class MapOrder := ordered : ∀ {K} `{Countable K} {V}, gmap K V → list (K * V).

(** Every entry comes once. *)
Class MapOrderLaws `{MapOrder} := ordered_perm : ∀ {K} `{Countable K} {V} (m : gmap K V), ordered m ≡ₚ map_to_list m.

(** * Matchings *)

Record Pair := mkPair { a_id : nat; b_id : nat }.
Record Map := mkMap { a_to_b : gmap nat nat; b_to_a : gmap nat nat }.

Definition Map_new : Map := mkMap ∅ ∅.
Definition add_match (m : Map) (a b : nat) : Map := mkMap (<[a := b]> (a_to_b m)) (<[b := a]> (b_to_a m)).
Definition get_match_a_to_b (m : Map) (a : nat) : option nat := a_to_b m !! a.
Definition get_match_b_to_a (m : Map) (b : nat) : option nat := b_to_a m !! b.
Definition is_matched_a (m : Map) (a : nat) : bool := bool_decide (is_Some (a_to_b m !! a)).
Definition is_matched_b (m : Map) (b : nat) : bool := bool_decide (is_Some (b_to_a m !! b)).

(** [add_match] where both are free. *)
Definition match_free (m : Map) (a b : nat) : Map :=
  if is_matched_a m a || is_matched_b m b then m else add_match m a b.

(** * Configuration *)

Abbreviation f64 := spec_float.
Definition f64_from (n : nat) : f64 := binary_normalize 53 1024 (Z.of_nat n) 0 false.

Record Config := mkConfig { min_height : nat; dice_threshold : f64; max_ted_size : nat }.

Definition DEFAULT_MAX_TED_SIZE : nat := 100.
Definition DEFAULT_DICE_THRESHOLD : f64 := SFdiv 53 1024 (f64_from 1) (f64_from 2).
Definition default_config : Config := mkConfig 2 DEFAULT_DICE_THRESHOLD DEFAULT_MAX_TED_SIZE.

(** * Subtrees *)

(** Two lists of siblings from these ids on, pair by pair. *)
Section siblings.
Context (subtrees : Node → Node → nat → nat → Map → Map).
Fixpoint sibling_pairs (cs_a cs_b : list Node) (a b : nat) (matching : Map) : Map :=
  match cs_a, cs_b with
  | child_a :: cs_a, child_b :: cs_b =>
      sibling_pairs cs_a cs_b (a + tree_size child_a) (b + tree_size child_b) (subtrees child_a child_b a b matching)
  | _, _ => matching
  end.
End siblings.

(** [subtrees] of two nodes at these ids. *)
Fixpoint subtrees (node_a node_b : Node) (a b : nat) (matching : Map) : Map :=
  sibling_pairs subtrees (children node_a) (children node_b) (S a) (S b) (match_free matching a b).

(** [subtrees] of the nodes that ids stand for, if they do. *)
Definition subtrees_at (nodes_a nodes_b : list Place) (a b : nat) (matching : Map) : Map :=
  match nodes_a !! a, nodes_b !! b with
  | Some pa, Some pb => subtrees (pl_node pa) (pl_node pb) a b matching
  | _, _ => matching
  end.

(** * Siblings *)

Record Entry := mkEntry { node_id : nat; child_index : nat }.

Definition ROOT_SENTINEL : N := 2 ^ 64 - 1.
Definition ROOT_CHILDREN_SENTINEL : N := 2 ^ 64 - 2.

Record NodeClassification := mkClassification { parent_key : N; class_index : nat }.

(** [classify_node]; the root has id 0. *)
Definition classify_node (place : Place) : NodeClassification :=
  match pl_parent place with
  | None => mkClassification ROOT_SENTINEL 0
  | Some 0 => mkClassification ROOT_CHILDREN_SENTINEL (pl_index place)
  | Some p => mkClassification (N.of_nat p) (pl_index place)
  end.

(** [map.entry(k).or_default().push(x)]. *)
Definition push_entry {K} `{Countable K} {V} (m : gmap K (list V)) (k : K) (x : V) : gmap K (list V) :=
  <[k := default [] (m !! k) ++ [x]]> m.

(** [build_parent_index]: of the ids that are not matched yet. *)
Definition build_parent_index (ids : list nat) (nodes : list Place) (matched : nat → bool) : gmap N (list Entry) :=
  foldl (λ by_parent id,
    if matched id : bool then by_parent
    else
      match nodes !! id with
      | None => by_parent
      | Some place =>
          let c := classify_node place in push_entry by_parent (parent_key c) (mkEntry id (class_index c))
      end) ∅ ids.

(** [sort_by_key(|e| e.child_index)]. *)
Definition by_index (e1 e2 : Entry) : Prop := child_index e1 ≤ child_index e2.
#[export] Instance by_index_dec : RelDecision by_index.
Proof. intros ??. unfold by_index. apply _. Defined.

(** The entries of a parent on either side that are paired: in the order of
    their places, both free when it is their turn. *)
Definition match_entries (nodes_a nodes_b : list Place) (matching : Map) (a_children b_children : list Entry) : Map :=
  foldl (λ matching '(a_entry, b_entry),
    if is_matched_a matching (node_id a_entry) || is_matched_b matching (node_id b_entry) then matching
    else subtrees_at nodes_a nodes_b (node_id a_entry) (node_id b_entry) matching)
    matching (zip (merge_sort by_index a_children) (merge_sort by_index b_children)).

(** The parent on the other side, in [by_position]. *)
Definition other_parent (matching : Map) (a_parent_key : N) : option N :=
  if decide (a_parent_key = ROOT_SENTINEL) then Some ROOT_SENTINEL
  else if decide (a_parent_key = ROOT_CHILDREN_SENTINEL) then Some ROOT_CHILDREN_SENTINEL
  else N.of_nat <$> get_match_a_to_b matching (N.to_nat a_parent_key).

Section matcher.
Context `{MapOrder, Hasher}.

(** [by_position]. *)
Definition by_position (a_ids b_ids : list nat) (nodes_a nodes_b : list Place) (matching : Map) : Map :=
  let a_by_parent := build_parent_index a_ids nodes_a (is_matched_a matching) in
  let b_by_parent := build_parent_index b_ids nodes_b (is_matched_b matching) in
  foldl (λ matching '(a_parent_key, a_children),
    match other_parent matching a_parent_key ≫= λ b_parent_key, b_by_parent !! b_parent_key with
    | None => matching
    | Some b_children => match_entries nodes_a nodes_b matching a_children b_children
    end) matching (ordered a_by_parent).

(** * Phases *)

(** The ids by the hash of their nodes, of those that are chosen. *)
Definition hash_index (tree : Tree) (nodes : list Place) (chosen : nat → Node → bool) : gmap N (list nat) :=
  foldl (λ index '(id, place),
    if chosen id (pl_node place) : bool then push_entry index (compute tree (pl_node place)) id else index)
    ∅ (imap pair nodes).

(** The loop over the hashes of [top_down_phase] and [leaf_sibling_phase]: what
    is done with ids that are alone with their hash on both sides. *)
Definition match_hashes (lone : nat → nat → Map → Map) (nodes_a nodes_b : list Place)
    (hash_to_a hash_to_b : gmap N (list nat)) (matching : Map) : Map :=
  foldl (λ matching '(hash, a_ids),
    match hash_to_b !! hash with
    | None => matching
    | Some b_ids =>
        match a_ids, b_ids with
        | [a], [b] => if is_matched_a matching a || is_matched_b matching b then matching else lone a b matching
        | _, _ => by_position a_ids b_ids nodes_a nodes_b matching
        end
    end) matching (ordered hash_to_a).

(** [GumTree::top_down_phase]. *)
Definition top_down_phase (config : Config) (tree_a tree_b : Tree) (nodes_a nodes_b : list Place) (matching : Map) : Map :=
  let tall (_ : nat) node := bool_decide (min_height config ≤ node_height node) in
  match_hashes (subtrees_at nodes_a nodes_b) nodes_a nodes_b
    (hash_index tree_a nodes_a tall) (hash_index tree_b nodes_b tall) matching.

(** [GumTree::leaf_sibling_phase]. *)
Definition leaf_sibling_phase (config : Config) (tree_a tree_b : Tree) (nodes_a nodes_b : list Place) (matching : Map) : Map :=
  let low node := bool_decide (node_height node < min_height config) in
  match_hashes (λ a b matching, add_match matching a b) nodes_a nodes_b
    (hash_index tree_a nodes_a (λ id node, negb (is_matched_a matching id) && low node))
    (hash_index tree_b nodes_b (λ id node, negb (is_matched_b matching id) && low node)) matching.

(** * Bottom up *)

Record NodeMeta := mkMeta { mt_start : nat; mt_end : nat; descendants : nat; mt_kind_id : N }.

(** The loop of [compute_node_meta] over the nodes that follow. *)
Fixpoint count_inside (s e : nat) (rest : list Node) (count : nat) : nat :=
  match rest with
  | [] => count
  | m :: rest =>
      let count := if decide (s ≤ start_byte m ∧ end_byte m ≤ e) then S count else count in
      if decide (e ≤ start_byte m) then count else count_inside s e rest count
  end.

(** [compute_node_meta]. *)
Fixpoint compute_node_meta (nodes : list Node) : list NodeMeta :=
  match nodes with
  | [] => []
  | n :: rest =>
      mkMeta (start_byte n) (end_byte n) (count_inside (start_byte n) (end_byte n) rest 1) (kind_id n) ::
      compute_node_meta rest
  end.

(** [build_kind_index]. *)
Definition build_kind_index (meta : list NodeMeta) : gmap N (list nat) :=
  foldl (λ index '(id, m), push_entry index (mt_kind_id m) id) ∅ (imap pair meta).

Record MatchedRange := mkMatched { mr_a_start : nat; mr_a_end : nat; mr_b_start : nat; mr_b_end : nat }.

Definition by_a_start (r1 r2 : MatchedRange) : Prop := mr_a_start r1 ≤ mr_a_start r2.
#[local] Instance by_a_start_dec : RelDecision by_a_start.
Proof. intros ??. unfold by_a_start. apply _. Defined.

(** [Index::new]. *)
Definition Index_new (matching : Map) (meta_a meta_b : list NodeMeta) : list MatchedRange :=
  merge_sort by_a_start
    (omap (λ '(a, b),
       ma ← meta_a !! a; mb ← meta_b !! b;
       Some (mkMatched (mt_start ma) (mt_end ma) (mt_start mb) (mt_end mb)))
      (ordered (a_to_b matching))).

(** [partition_point]: what follows the ranges that start before. *)
Fixpoint starting_at (s : nat) (sorted_a : list MatchedRange) : list MatchedRange :=
  match sorted_a with
  | r :: rest => if decide (mr_a_start r < s) then starting_at s rest else sorted_a
  | [] => []
  end.

(** The loop of [count_descendants_in_range]. *)
Fixpoint count_matched (a_end b_start b_end : nat) (ranges : list MatchedRange) (count : nat) : nat :=
  match ranges with
  | [] => count
  | r :: ranges =>
      if decide (a_end ≤ mr_a_start r) then count
      else count_matched a_end b_start b_end ranges
        (if decide (mr_a_end r ≤ a_end ∧ b_start ≤ mr_b_start r ∧ mr_b_end r ≤ b_end) then S count else count)
  end.

(** [Index::count_descendants_in_range]. *)
Definition count_descendants_in_range (index : list MatchedRange) (a_start a_end b_start b_end : nat) : nat :=
  count_matched a_end b_start b_end (starting_at a_start index) 0.

Definition DICE_NUMERATOR_FACTOR : f64 := f64_from 2.
Definition NEAR_PERFECT_DICE : f64 := SFdiv 53 1024 (f64_from 999) (f64_from 1000).

Record Candidate := mkCandidate { cand_b_id : nat; dice : f64 }.

(** [dice] of two nodes. *)
Definition dice_of (matched_count : nat) (ma mb : NodeMeta) : f64 :=
  SFdiv 53 1024 (SFmul 53 1024 DICE_NUMERATOR_FACTOR (f64_from matched_count))
    (SFadd 53 1024 (f64_from (descendants ma)) (f64_from (descendants mb))).

(** The loop of [bottom_up_phase] over the candidates of a node. *)
Fixpoint best_candidate (config : Config) (index : list MatchedRange) (matched_b : nat → bool) (meta_b : list NodeMeta)
    (ma : NodeMeta) (best : option Candidate) (candidates : list nat) : option Candidate :=
  match candidates with
  | [] => best
  | b :: candidates =>
      let continue best := best_candidate config index matched_b meta_b ma best candidates in
      if matched_b b : bool then continue best
      else
        match meta_b !! b with
        | None => continue best
        | Some mb =>
            let matched_count :=
              count_descendants_in_range index (mt_start ma) (mt_end ma) (mt_start mb) (mt_end mb) in
            if decide (descendants ma = 0 ∨ descendants mb = 0) then continue best
            else
              let d := dice_of matched_count ma mb in
              if SFltb d (dice_threshold config) then continue best
              else
                let best :=
                  if match best with None => true | Some c => SFltb (dice c) d end then Some (mkCandidate b d) else best in
                if SFleb NEAR_PERFECT_DICE d then best else continue best
        end
  end.

(** [bottomup::bottom_up_phase]: the best candidates are searched in parallel,
    all against the matching as it was. *)
Definition bottom_up_phase (config : Config) (nodes_a nodes_b : list Place) (matching : Map) : Map :=
  let meta_a := compute_node_meta (pl_node <$> nodes_a) in
  let meta_b := compute_node_meta (pl_node <$> nodes_b) in
  let kind_index_b := build_kind_index meta_b in
  let match_index := Index_new matching meta_a meta_b in
  let unmatched_a := filter (λ id, is_matched_a matching id = false) (seq 0 (length nodes_a)) in
  let matched_b : gset nat := list_to_set (snd <$> ordered (a_to_b matching)) in
  let new_matches :=
    omap (λ a,
      ma ← meta_a !! a;
      candidates ← kind_index_b !! mt_kind_id ma;
      c ← best_candidate config match_index (λ b, bool_decide (b ∈ matched_b)) meta_b ma None candidates;
      Some (mkPair a (cand_b_id c))) unmatched_a in
  foldl (λ matching pair, match_free matching (a_id pair) (b_id pair)) matching new_matches.

(** [GumTree::compute]. *)
Definition gumtree (config : Config) (tree_a tree_b : Tree) : Map :=
  let nodes_a := places (root_node tree_a) in
  let nodes_b := places (root_node tree_b) in
  let matching := if decide (kind_id (root_node tree_a) = kind_id (root_node tree_b)) then add_match Map_new 0 0 else Map_new in
  let matching := top_down_phase config tree_a tree_b nodes_a nodes_b matching in
  let matching := leaf_sibling_phase config tree_a tree_b nodes_a nodes_b matching in
  bottom_up_phase config nodes_a nodes_b matching.

(** [compute] of the crate. *)
Definition match_trees (tree_a tree_b : Tree) : Map := gumtree default_config tree_a tree_b.

End matcher.
