(* ===== verification/AstDice.v ===== *)
(** What the matcher counts when it pairs nodes bottom up ([metadata.rs] of
    [packages/ast-merge/matcher]): the pairs whose bytes lie in those of two nodes,
    and the nodes of a subtree. *)

From stdpp Require Import base gmap sets list strings sorting.
From Stdlib Require Import SpecFloat.
From S2P Require Import Prelude AstTree AstMatch.
Local Open Scope nat_scope.

(** * What is counted *)

(** The bytes of one node lie in those of another. *)
Definition inside (n m : Node) : Prop := start_byte n ≤ start_byte m ∧ end_byte m ≤ end_byte n.
#[export] Instance inside_dec n m : Decision (inside n m).
Proof. unfold inside. apply _. Defined.

(** A pair of nodes whose bytes lie in those of [na] and [nb]. *)
Definition pair_inside (root_a root_b na nb : Node) (pair : nat * nat) : Prop :=
  match collect_nodes root_a !! pair.1, collect_nodes root_b !! pair.2 with
  | Some x, Some y => inside na x ∧ start_byte x < end_byte na ∧ inside nb y
  | _, _ => False
  end.
#[export] Instance pair_inside_dec root_a root_b na nb pair : Decision (pair_inside root_a root_b na nb pair).
Proof. unfold pair_inside. repeat case_match; apply _. Defined.

(** How many pairs of a matching are. *)
Definition pairs_inside (root_a root_b : Node) (m : Map) (na nb : Node) : nat :=
  length (filter (pair_inside root_a root_b na nb) (map_to_list (a_to_b m))).

(** The nodes up to the first that starts where [n] has ended, with that one. *)
Fixpoint up_to_end (n : Node) (following : list Node) : list Node :=
  match following with
  | [] => []
  | m :: following => m :: if decide (end_byte n ≤ start_byte m) then [] else up_to_end n following
  end.

(** How many nodes lie in the bytes of the node [n] at this id, which counts, from
    there on in preorder. *)
Definition size_inside (root : Node) (id : nat) (n : Node) : nat :=
  S (length (filter (inside n) (up_to_end n (drop (S id) (collect_nodes root))))).

(** Twice the pairs over both sizes, in double precision. *)
Definition dice_coefficient (pairs size_a size_b : nat) : spec_float :=
  SFdiv 53 1024 (SFmul 53 1024 (f64_from 2) (f64_from pairs)) (SFadd 53 1024 (f64_from size_a) (f64_from size_b)).

(** One half. *)
Definition half : spec_float := binary_normalize 53 1024 1 (-1) false.

(** * The counters count *)

Lemma count_inside_spec n following count :
  count_inside (start_byte n) (end_byte n) following count = count + length (filter (inside n) (up_to_end n following)).
Proof.
  revert count. induction following as [|m following IH]; intros count; cbn [count_inside up_to_end]; [cbn; lia|].
  destruct (decide (inside n m)) as [Hi|Hi]; unfold inside in Hi; (case_decide as He; [|rewrite IH]).
  - rewrite (decide_True (P:=start_byte n ≤ _ ∧ _)), filter_cons_True by exact Hi. cbn. lia.
  - rewrite (decide_True (P:=start_byte n ≤ _ ∧ _)), filter_cons_True by exact Hi. cbn. lia.
  - by rewrite (decide_False (P:=start_byte n ≤ _ ∧ _)), filter_cons_False by exact Hi.
  - by rewrite (decide_False (P:=start_byte n ≤ _ ∧ _)), filter_cons_False by exact Hi.
Qed.

Lemma compute_node_meta_lookup nodes id m : compute_node_meta nodes !! id = Some m →
  ∃ n, nodes !! id = Some n ∧
    m = mkMeta (start_byte n) (end_byte n) (S (length (filter (inside n) (up_to_end n (drop (S id) nodes))))) (kind_id n).
Proof.
  revert id. induction nodes as [|n nodes IH]; intros [|id]; [done..| |apply IH].
  cbn [compute_node_meta lookup list_lookup]. intros [= <-]. exists n. split; [done|]. by rewrite count_inside_spec.
Qed.

Lemma compute_node_meta_Some nodes id n : nodes !! id = Some n → is_Some (compute_node_meta nodes !! id).
Proof.
  revert id. induction nodes as [|n' nodes IH]; intros [|id]; [done..|by eexists|apply IH].
Qed.

Lemma filter_all {A} (P : A → Prop) `{!∀ x, Decision (P x)} (l : list A) : Forall P l → filter P l = l.
Proof. induction 1 as [|x l Hx Hl IH]; [done|]. by rewrite filter_cons_True, IH. Qed.

Lemma filter_none {A} (P : A → Prop) `{!∀ x, Decision (P x)} (l : list A) : Forall (λ x, ¬ P x) l → filter P l = [].
Proof. induction 1 as [|x l Hx Hl IH]; [done|]. by rewrite filter_cons_False. Qed.

(** The ranges from the first that does not start before. *)
Lemma starting_at_sorted s rs : StronglySorted by_a_start rs →
  StronglySorted by_a_start (starting_at s rs) ∧ starting_at s rs = filter (λ r, s ≤ mr_a_start r) rs.
Proof.
  induction 1 as [|r rs Hs IH Hr]; [by repeat constructor|]. cbn [starting_at]. case_decide as Hlt.
  - rewrite filter_cons_False by lia. exact IH.
  - split; [by constructor|]. symmetry. apply filter_all. constructor; [lia|].
    eapply Forall_impl; [exact Hr|]. unfold by_a_start. cbn. lia.
Qed.

Lemma count_matched_sorted a_end b_start b_end rs count : StronglySorted by_a_start rs →
  count_matched a_end b_start b_end rs count =
    count + length (filter (λ r, mr_a_start r < a_end ∧ mr_a_end r ≤ a_end ∧ b_start ≤ mr_b_start r ∧ mr_b_end r ≤ b_end) rs).
Proof.
  intros Hs. revert count. induction Hs as [|r rs Hs IH Hr]; intros count; cbn [count_matched]; [cbn; lia|].
  case_decide as Hend.
  - rewrite filter_none; [cbn; lia|]. constructor; [lia|]. eapply Forall_impl; [exact Hr|]. unfold by_a_start. cbn. lia.
  - rewrite IH, filter_cons. repeat case_decide; cbn; lia.
Qed.

Lemma length_filter_omap {A B} (f : A → option B) (P : B → Prop) (Q : A → Prop) `{!∀ x, Decision (P x), !∀ x, Decision (Q x)} l :
  (∀ x, x ∈ l → Q x ↔ ∃ y, f x = Some y ∧ P y) → length (filter P (omap f l)) = length (filter Q l).
Proof.
  induction l as [|x l IH]; intros Hf; [done|]. cbn [omap list_omap]. rewrite filter_cons.
  specialize (IH (λ y Hy, Hf y (proj2 (elem_of_cons l y x) (or_intror Hy)))).
  specialize (Hf x (proj2 (elem_of_cons l x x) (or_introl eq_refl))). destruct (f x) as [y|].
  - rewrite filter_cons. repeat case_decide; cbn; rewrite ?IH; try done; naive_solver.
  - case_decide; [naive_solver|]. done.
Qed.

(** The index counts the pairs that lie in the bytes of the two nodes. *)
Lemma count_descendants_spec `{MapOrderLaws} root_a root_b m a b na nb :
  let index := Index_new m (compute_node_meta (collect_nodes root_a)) (compute_node_meta (collect_nodes root_b)) in
  collect_nodes root_a !! a = Some na → collect_nodes root_b !! b = Some nb →
  count_descendants_in_range index (start_byte na) (end_byte na) (start_byte nb) (end_byte nb) =
    pairs_inside root_a root_b m na nb.
Proof.
  intros index Ha Hb. unfold count_descendants_in_range, pairs_inside.
  assert (StronglySorted by_a_start index) as Hs.
  { apply StronglySorted_merge_sort; [intros r1 r2 r3; unfold by_a_start; lia|intros r1 r2; unfold by_a_start; lia]. }
  destruct (starting_at_sorted (start_byte na) index Hs) as [Hs' He]. rewrite count_matched_sorted by done.
  rewrite He, list_filter_filter. cbn [Nat.add]. unfold index, Index_new.
  rewrite merge_sort_Permutation, (ordered_perm (a_to_b m)). apply length_filter_omap.
  intros [x y] _. unfold pair_inside. cbn [fst snd].
  destruct (collect_nodes root_a !! x) as [nx|] eqn:Hx; [|].
  2:{ split; [done|]. intros (r & Hr & _). destruct (compute_node_meta _ !! x) as [mx|] eqn:Hmx; [|done].
      apply compute_node_meta_lookup in Hmx as (? & ? & _). congruence. }
  destruct (compute_node_meta_Some _ _ _ Hx) as [mx Hmx]. rewrite Hmx. cbn [mbind option_bind].
  apply compute_node_meta_lookup in Hmx as (nx' & Hx' & ->). rewrite Hx in Hx'. injection Hx' as <-.
  destruct (collect_nodes root_b !! y) as [ny|] eqn:Hy; [|].
  2:{ split; [done|]. intros (r & Hr & _). destruct (compute_node_meta _ !! y) as [my|] eqn:Hmy; [|done].
      apply compute_node_meta_lookup in Hmy as (? & ? & _). congruence. }
  destruct (compute_node_meta_Some _ _ _ Hy) as [my Hmy]. rewrite Hmy. cbn [mbind option_bind].
  apply compute_node_meta_lookup in Hmy as (ny' & Hy' & ->). rewrite Hy in Hy'. injection Hy' as <-.
  unfold inside. cbn. split.
  - intros ([? ?] & ? & [? ?]). eexists. split; [done|]. cbn. lia.
  - intros (r & [= <-] & ?). cbn in *. lia.
Qed.

(** * The size of a subtree *)

(** A node that has bytes, among which those of its children lie in order. *)
Definition orderly (n : Node) : Prop :=
  start_byte n < end_byte n ∧ (∀ c, c ∈ children n → inside n c) ∧
  ∀ i j c d, i < j → children n !! i = Some c → children n !! j = Some d → end_byte c ≤ start_byte d.

Lemma concat_lookup {A} (ls : list (list A)) k x : concat ls !! k = Some x →
  ∃ i l j, ls !! i = Some l ∧ l !! j = Some x ∧ k = length (concat (take i ls)) + j.
Proof.
  intros (ls1 & l & ls2 & j & -> & Hj & ->)%concat_lookup_split. exists (length ls1), l, j.
  rewrite take_app_length. split_and!; [by apply list_lookup_middle|done|done].
Qed.

Lemma length_concat_take {A} (ls : list (list A)) i i' l : i < i' → ls !! i = Some l →
  length (concat (take i ls)) + length l ≤ length (concat (take i' ls)).
Proof.
  revert i i'. induction ls as [|l' ls IH]; intros i i' Hi Hl; [done|]. destruct i' as [|i']; [lia|].
  destruct i as [|i]; cbn in *; [injection Hl as ->; rewrite length_app; lia|].
  rewrite !length_app. specialize (IH i i' ltac:(lia) Hl). lia.
Qed.

(** The nodes of a subtree lie in its bytes. *)
Lemma inside_subtree root : Forall orderly (collect_nodes root) → Forall (inside root) (collect_nodes root).
Proof.
  induction root as [root IH] using Node_tree_ind. rewrite collect_nodes_unfold.
  intros [(_ & Hin & _) Hcs]%Forall_cons. constructor; [by split|]. apply Forall_forall.
  intros x (cs & Hx & Hcs')%list_elem_of_In%in_concat.
  apply list_elem_of_In, list_elem_of_fmap in Hx as (c & -> & Hc). apply list_elem_of_In in Hcs'.
  rewrite Forall_forall in IH. specialize (IH c Hc). rewrite Forall_forall in Hcs.
  assert (Forall (inside c) (collect_nodes c)) as Hsub.
  { apply IH, Forall_forall. intros y Hy. apply Hcs, list_elem_of_In, in_concat. exists (collect_nodes c).
    split; [|by apply list_elem_of_In]. apply list_elem_of_In. by apply list_elem_of_fmap_2. }
  rewrite Forall_forall in Hsub. destruct (Hsub x Hcs') as [? ?], (Hin c Hc) as [? ?]. split; lia.
Qed.

(** What follows a subtree in preorder starts after it has ended. *)
Lemma after_subtree root id n k y : Forall orderly (collect_nodes root) → within root id n →
  collect_nodes root !! k = Some y → id + tree_size n ≤ k → end_byte n ≤ start_byte y.
Proof.
  revert id n k y. induction root as [root IH] using Node_tree_ind. intros id n k y Hord Hn Hy Hk.
  assert (tree_size n ≠ 0) as Hpos by (unfold tree_size; by rewrite collect_nodes_unfold).
  apply within_lookup in Hn. rewrite collect_nodes_unfold in Hn, Hy, Hord. apply Forall_cons in Hord as [(_ & _ & Hsib) Hord].
  destruct k as [|k]; [lia|]. cbn in Hy. destruct id as [|id].
  { injection Hn as <-. apply lookup_lt_Some in Hy. unfold tree_size in Hk. rewrite collect_nodes_unfold in Hk. cbn in Hk. lia. }
  cbn in Hn. apply concat_lookup in Hn as (i & l & j & Hl & Hj & ->), Hy as (i' & l' & j' & Hl' & Hj' & ->).
  assert (∀ i l, collect_nodes <$> children root !! i = Some l → Forall orderly l) as Hsub.
  { intros i0 l0 Hi0. rewrite Forall_forall in Hord |- *. intros x Hx. apply Hord, list_elem_of_In, in_concat.
    exists l0. rewrite <- !list_elem_of_In. split; [|done]. apply list_elem_of_lookup. exists i0. by rewrite list_lookup_fmap. }
  rewrite list_lookup_fmap in Hl, Hl'.
  pose proof (Hsub _ _ Hl) as Hol. pose proof (Hsub _ _ Hl') as Hol'.
  apply fmap_Some in Hl as (c & Hc & ->), Hl' as (c' & Hc' & ->).
  destruct (lt_eq_lt_dec i i') as [[Hlt| ->]|Hgt].
  - assert (inside c n) as [_ He].
    { pose proof (inside_subtree c Hol) as Hin. rewrite Forall_forall in Hin. apply Hin. by eapply list_elem_of_lookup_2. }
    assert (inside c' y) as [Hs _].
    { pose proof (inside_subtree c' Hol') as Hin. rewrite Forall_forall in Hin. apply Hin. by eapply list_elem_of_lookup_2. }
    specialize (Hsib i i' c c' Hlt Hc Hc'). lia.
  - rewrite Hc in Hc'. injection Hc' as <-. rewrite Forall_forall in IH.
    apply (IH c ltac:(by eapply list_elem_of_lookup_2) j n j' y Hol); [by apply lookup_within|done|lia].
  - assert (length (concat (take i' (collect_nodes <$> children root))) + length (collect_nodes c')
      ≤ length (concat (take i (collect_nodes <$> children root)))).
    { apply length_concat_take; [done|]. by rewrite list_lookup_fmap, Hc'. }
    apply lookup_lt_Some in Hj'. lia.
Qed.

Lemma up_to_end_app n l1 l2 : Forall (λ m, start_byte m < end_byte n) l1 → up_to_end n (l1 ++ l2) = l1 ++ up_to_end n l2.
Proof. induction 1 as [|m l1 Hm Hl IH]; [done|]. cbn. by rewrite decide_False, IH by lia. Qed.

Lemma up_to_end_Forall (P : Node → Prop) n l : Forall P l → Forall P (up_to_end n l).
Proof. induction 1 as [|m l Hm Hl IH]; cbn; [done|]. constructor; [done|]. by case_decide. Qed.

(** In an orderly tree the nodes counted are those of the subtree. *)
Lemma size_inside_orderly root id n : Forall orderly (collect_nodes root) → within root id n → size_inside root id n = tree_size n.
Proof.
  intros Hord Hn. pose proof Hn as (pre & post & He & Hlen). unfold size_inside, tree_size.
  assert (Forall (λ y, end_byte n ≤ start_byte y ∧ start_byte y < end_byte y) post) as Hpost.
  { apply Forall_forall. intros y Hy. apply list_elem_of_lookup in Hy as [j Hj]. split.
    - apply (after_subtree root id n (id + tree_size n + j) y Hord Hn); [|lia].
      rewrite He, <- Hlen. rewrite lookup_app_r by lia. rewrite lookup_app_r by (unfold tree_size; lia).
      rewrite <- Hj. f_equal. unfold tree_size. lia.
    - rewrite Forall_forall in Hord. apply Hord. rewrite He. apply list_elem_of_lookup_2 in Hj. set_solver. }
  assert (Forall orderly (collect_nodes n)) as Hsub by (rewrite He in Hord; by apply Forall_app in Hord as [_ [? _]%Forall_app]).
  pose proof (inside_subtree n Hsub) as Hin. rewrite He. rewrite collect_nodes_unfold in Hsub, Hin |- *.
  set (below := concat (collect_nodes <$> children n)) in *. apply Forall_cons in Hsub as [_ Hsub], Hin as [_ Hin].
  replace (drop (S id) (pre ++ (n :: below) ++ post)) with (below ++ post).
  2:{ change ((n :: below) ++ post) with (n :: below ++ post). rewrite cons_middle, (assoc_L (++)). symmetry.
      apply drop_app_length'. rewrite length_app. cbn. lia. }
  rewrite up_to_end_app, filter_app, length_app, (filter_all _ below Hin).
  - rewrite filter_none; [cbn; lia|]. apply up_to_end_Forall. eapply Forall_impl; [exact Hpost|].
    intros y [? ?] [? ?]. lia.
  - rewrite Forall_forall in Hsub, Hin |- *. intros y Hy. destruct (Hsub y Hy) as [? _], (Hin y Hy) as [? ?]. lia.
Qed.
