(* ===== verification/AstMatchProps.v ===== *)
(** The matcher pairs nodes one to one, keeps every pair it has made, and pairs
    nodes for a reason: they stand at the same place in equal subtrees, or they
    are of one kind and enough pairs lie in the bytes of both. A subtree that is tall enough, and alone with its content in
    both revisions, is paired with its equal. *)

From stdpp Require Import base gmap sets list strings sorting.
From Stdlib Require Import SpecFloat.
From S2P Require Import Prelude Chars AstTree AstMatch AstDice.
Local Open Scope nat_scope.

(** * Matchings that grow *)

(** Both maps say the same. *)
Definition bijective (m : Map) : Prop := ∀ a b, a_to_b m !! a = Some b ↔ b_to_a m !! b = Some a.

(** One matching extends another by pairs in [Q]. *)
Record grows (Q : nat → nat → Prop) (m m' : Map) : Prop := {
  gr_bijective : bijective m → bijective m';
  gr_keeps a b : a_to_b m !! a = Some b → a_to_b m' !! a = Some b;
  gr_keeps_b a b : b_to_a m !! b = Some a → b_to_a m' !! b = Some a;
  gr_reason a b : a_to_b m' !! a = Some b → a_to_b m !! a = Some b ∨ Q a b;
}.

#[export] Instance grows_refl Q : Reflexive (grows Q).
Proof. intros m. split; auto. Qed.

#[export] Instance grows_trans Q : Transitive (grows Q).
Proof.
  intros m1 m2 m3 [A1 A2 A3 A4] [B1 B2 B3 B4]. split; auto. intros a b [H2|?]%B4; [|by right]. by apply A4.
Qed.

Lemma grows_weaken (Q Q' : nat → nat → Prop) m m' : (∀ a b, Q a b → Q' a b) → grows Q m m' → grows Q' m m'.
Proof. intros HQ [A1 A2 A3 A4]. split; [done..|]. intros a b [?|?]%A4; auto. Qed.

Lemma foldl_grows {A} Q (f : Map → A → Map) (l : list A) m :
  (∀ m x, x ∈ l → grows Q m (f m x)) → grows Q m (foldl f m l).
Proof.
  revert m. induction l as [|x l IH]; intros m Hf; cbn; [done|]. etrans; [apply Hf; by left|].
  apply IH. intros m' y Hy. apply Hf. by right.
Qed.

Lemma is_matched_a_true m a : is_matched_a m a = true ↔ is_Some (a_to_b m !! a).
Proof. apply bool_decide_eq_true. Qed.
Lemma is_matched_b_true m b : is_matched_b m b = true ↔ is_Some (b_to_a m !! b).
Proof. apply bool_decide_eq_true. Qed.
Lemma is_matched_a_false m a : is_matched_a m a = false ↔ a_to_b m !! a = None.
Proof. unfold is_matched_a. rewrite bool_decide_eq_false. by rewrite eq_None_not_Some. Qed.
Lemma is_matched_b_false m b : is_matched_b m b = false ↔ b_to_a m !! b = None.
Proof. unfold is_matched_b. rewrite bool_decide_eq_false. by rewrite eq_None_not_Some. Qed.

Lemma add_match_grows (Q : nat → nat → Prop) m a b :
  Q a b → a_to_b m !! a = None → b_to_a m !! b = None → grows Q m (add_match m a b).
Proof.
  intros HQ Ha Hb. split; cbn.
  - unfold bijective. intros Hm a' b'. cbn. destruct (decide (a' = a)) as [->|Hna], (decide (b' = b)) as [->|Hnb].
    + by rewrite !lookup_insert_eq.
    + rewrite lookup_insert_eq, lookup_insert_ne by done. rewrite <- Hm, Ha. naive_solver.
    + rewrite lookup_insert_eq, lookup_insert_ne by done. rewrite Hm, Hb. naive_solver.
    + rewrite !lookup_insert_ne by done. apply Hm.
  - intros a' b' Ha'. rewrite lookup_insert_ne by congruence. done.
  - intros a' b' Hb'. rewrite lookup_insert_ne by congruence. done.
  - intros a' b'. destruct (decide (a' = a)) as [->|Hna].
    + rewrite lookup_insert_eq. intros [= <-]. by right.
    + rewrite lookup_insert_ne by done. by left.
Qed.

Lemma match_free_grows (Q : nat → nat → Prop) m a b : Q a b → grows Q m (match_free m a b).
Proof.
  intros HQ. unfold match_free. destruct (is_matched_a m a) eqn:Ha, (is_matched_b m b) eqn:Hb; cbn; try done.
  apply add_match_grows; [done|by apply is_matched_a_false|by apply is_matched_b_false].
Qed.

(** Afterwards one of the two is taken. *)
Lemma match_free_takes m a b : is_Some (a_to_b (match_free m a b) !! a) ∨ is_Some (b_to_a (match_free m a b) !! b).
Proof.
  unfold match_free. destruct (is_matched_a m a) eqn:Ha; cbn; [left; by apply is_matched_a_true|].
  destruct (is_matched_b m b) eqn:Hb; cbn; [right; by apply is_matched_b_true|].
  left. rewrite lookup_insert_eq. by eexists.
Qed.

Lemma grows_taken Q m m' a b : grows Q m m' → is_Some (a_to_b m !! a) ∨ is_Some (b_to_a m !! b) →
  is_Some (a_to_b m' !! a) ∨ is_Some (b_to_a m' !! b).
Proof.
  intros Hg [[y Hy]|[x Hx]]; [left|right]; eexists; [by eapply gr_keeps|by eapply gr_keeps_b].
Qed.

(** * The phases *)

Section grow.
Context (root_a root_b : Node) (P : Node → Node → Prop).
(** [P] passes to the children that are paired. *)
Hypothesis P_children : ∀ na nb, P na nb → Forall (λ '(ca, cb), P ca cb) (zip (children na) (children nb)).

(** Nodes of the two trees, in [P]. *)
Definition paired (a b : nat) : Prop := ∃ na nb, within root_a a na ∧ within root_b b nb ∧ P na nb.

Lemma subtrees_grows na nb a b m : within root_a a na → within root_b b nb → P na nb →
  grows paired m (subtrees na nb a b m) ∧
  (is_Some (a_to_b (subtrees na nb a b m) !! a) ∨ is_Some (b_to_a (subtrees na nb a b m) !! b)).
Proof.
  revert nb a b m. induction na as [na IH] using Node_tree_ind. intros nb a b m Ha Hb HP.
  assert (∀ cs_a cs_b pre_a pre_b m', children na = pre_a ++ cs_a → children nb = pre_b ++ cs_b →
    Forall (λ '(ca, cb), P ca cb) (zip cs_a cs_b) →
    grows paired m' (sibling_pairs subtrees cs_a cs_b (S a + sum_list (tree_size <$> pre_a)) (S b + sum_list (tree_size <$> pre_b)) m')) as Hpairs.
  { induction cs_a as [|ca cs_a IHcs]; intros [|cb cs_b] pre_a pre_b m' Hca Hcb Hz; try done.
    cbn [zip] in Hz. apply Forall_cons in Hz as [Hc Hz]. cbn [sibling_pairs].
    destruct (proj1 (Forall_forall _ _) IH ca ltac:(rewrite Hca; set_solver) cb
      (S a + sum_list (tree_size <$> pre_a)) (S b + sum_list (tree_size <$> pre_b)) m') as [Hstep _];
      [by eapply within_children|by eapply within_children|done|].
    etrans; [exact Hstep|].
    specialize (IHcs cs_b (pre_a ++ [ca]) (pre_b ++ [cb])
          (subtrees ca cb (S a + sum_list (tree_size <$> pre_a)) (S b + sum_list (tree_size <$> pre_b)) m')).
    rewrite !fmap_app, !sum_list_with_app in IHcs. cbn in IHcs. rewrite !Nat.add_0_r in IHcs.
    rewrite !Nat.add_assoc in IHcs. apply IHcs; [by rewrite <- app_assoc..|done]. }
  pose proof (Hpairs (children na) (children nb) [] [] (match_free m a b) eq_refl eq_refl (P_children _ _ HP)) as Hg.
  cbn [fmap list_fmap sum_list sum_list_with] in Hg. rewrite !Nat.add_0_r in Hg.
  assert (paired a b) as HQ by (by exists na, nb).
  assert (subtrees na nb a b m = sibling_pairs subtrees (children na) (children nb) (S a) (S b) (match_free m a b)) as ->
    by (by destruct na).
  split; [by etrans; [apply match_free_grows|]|]. eapply grows_taken; [exact Hg|]. apply match_free_takes.
Qed.

Lemma subtrees_at_grows a b m : paired a b →
  grows paired m (subtrees_at (places root_a) (places root_b) a b m) ∧
  (is_Some (a_to_b (subtrees_at (places root_a) (places root_b) a b m) !! a) ∨
   is_Some (b_to_a (subtrees_at (places root_a) (places root_b) a b m) !! b)).
Proof.
  intros (na & nb & Ha & Hb & HP). unfold subtrees_at.
  destruct (within_places _ _ _ Ha) as (pa & -> & <-), (within_places _ _ _ Hb) as (pb & -> & <-).
  by apply subtrees_grows.
Qed.

Context `{MapOrder, Hasher}.

(** The ids that [build_parent_index] files are ids it was given. *)
Lemma build_parent_index_ids ids nodes matched key entries e :
  build_parent_index ids nodes matched !! key = Some entries → e ∈ entries → node_id e ∈ ids.
Proof.
  unfold build_parent_index. intros He Hin.
  assert (∀ (done : list nat) (m : gmap N (list Entry)), (∀ k es e, m !! k = Some es → e ∈ es → node_id e ∈ done) →
    ∀ k es e, foldl (λ by_parent id, if matched id : bool then by_parent else
      match nodes !! id with
      | None => by_parent
      | Some place => let c := classify_node place in push_entry by_parent (parent_key c) (mkEntry id (class_index c))
      end) m ids !! k = Some es → e ∈ es → node_id e ∈ done ++ ids) as Hgen.
  { clear. induction ids as [|id ids IH]; intros done m Hm; cbn [foldl]; [by rewrite app_nil_r|].
    intros k es e. rewrite (cons_middle id done ids), app_assoc. apply IH. clear IH. intros k' es' e'.
    assert (∀ k es e, m !! k = Some es → e ∈ es → node_id e ∈ done ++ [id]) as Hm' by (intros; apply elem_of_app; left; eauto).
    destruct (matched id); [apply Hm'|]. destruct (nodes !! id) as [place|]; [|apply Hm'].
    cbn. unfold push_entry. destruct (decide (k' = parent_key (classify_node place))) as [->|Hne].
    - rewrite lookup_insert_eq. intros [= <-]. rewrite elem_of_app, list_elem_of_singleton. intros [He| ->].
      + destruct (m !! _) as [es2|] eqn:Hes; cbn in He; [by eapply Hm'|by apply not_elem_of_nil in He].
      + cbn. set_solver.
    - rewrite lookup_insert_ne by done. apply Hm'. }
  specialize (Hgen [] ∅ ltac:(intros ???; by rewrite lookup_empty) key entries e He Hin). done.
Qed.

(** Ids in [P] on both sides may be paired as siblings. *)
Lemma by_position_grows `{!MapOrderLaws} a_ids b_ids m : (∀ a b, a ∈ a_ids → b ∈ b_ids → paired a b) →
  grows paired m (by_position a_ids b_ids (places root_a) (places root_b) m).
Proof.
  intros Hids. unfold by_position. apply foldl_grows. intros m' [key a_children] Hin.
  assert (build_parent_index a_ids (places root_a) (is_matched_a m) !! key = Some a_children) as Hkey.
  { apply elem_of_map_to_list. by rewrite <- (ordered_perm (build_parent_index a_ids (places root_a) (is_matched_a m))). }
  destruct (other_parent m' key ≫= _) as [b_children|] eqn:Hb; [|done].
  apply bind_Some in Hb as (b_key & _ & Hb). unfold match_entries. apply foldl_grows. intros m2 [ea eb] Hz.
  destruct (is_matched_a m2 _ || is_matched_b m2 _); [done|]. apply subtrees_at_grows, Hids.
  - apply elem_of_zip_l in Hz. rewrite merge_sort_Permutation in Hz. by eapply build_parent_index_ids.
  - apply elem_of_zip_r in Hz. rewrite merge_sort_Permutation in Hz. by eapply build_parent_index_ids.
Qed.

End grow.

(** * Hash tables of ids *)

Lemma foldl_push_spec {A V} `{Countable K} (c : A → bool) (k : A → K) (v : A → V) (l : list A) key :
  let m := foldl (λ m x, if c x then push_entry m (k x) (v x) else m) ∅ l in
  default [] (m !! key) = v <$> filter (λ x, c x = true ∧ k x = key) l ∧ m !! key ≠ Some [].
Proof.
  cbn. induction l as [|x l IH] using rev_ind; cbn; [by rewrite lookup_empty|].
  rewrite foldl_app, filter_app, fmap_app. cbn [foldl]. set (m := foldl _ ∅ l) in *. destruct IH as [IH Hne].
  destruct (c x) eqn:Hc.
  - unfold push_entry. destruct (decide (k x = key)) as [<-|Hk].
    + rewrite lookup_insert_eq, filter_cons_True, IH by done. cbn. split; [done|]. by destruct (v <$> _).
    + rewrite lookup_insert_ne, filter_cons_False, app_nil_r by naive_solver. done.
  - rewrite filter_cons_False, app_nil_r by (intros [? _]; congruence). done.
Qed.

Lemma foldl_same {A B} (f g : A → B → A) (l : list B) m : (∀ m x, f m x = g m x) → foldl f m l = foldl g m l.
Proof. intros Hfg. revert m. induction l as [|x l IH]; intros m; cbn; [done|]. by rewrite Hfg, IH. Qed.

Lemma filter_unique {A} (P : A → Prop) `{!∀ x, Decision (P x)} (l : list A) x :
  NoDup l → x ∈ l → P x → (∀ y, y ∈ l → P y → y = x) → filter P l = [x].
Proof.
  intros Hnd Hx HP Hu. assert (NoDup (filter P l)) as Hnf by (by apply NoDup_filter).
  assert (∀ y, y ∈ filter P l ↔ y = x) as Hall.
  { intros y. rewrite list_elem_of_filter. split; [intros [? ?]; auto|by intros ->]. }
  destruct (filter P l) as [|y l']; [by destruct (not_elem_of_nil x (proj2 (Hall x) eq_refl))|].
  assert (y = x) as -> by (apply Hall; by left). f_equal. destruct l' as [|z l']; [done|].
  assert (z = x) as -> by (apply Hall; set_solver). apply NoDup_cons in Hnf as [Hn _]. set_solver.
Qed.

Section index.
Context `{Hasher}.

Lemma hash_index_lookup tree nodes chosen h :
  default [] (hash_index tree nodes chosen !! h) =
    fst <$> filter (λ p : nat * Place, chosen p.1 (pl_node p.2) = true ∧ compute tree (pl_node p.2) = h) (imap pair nodes) ∧
  hash_index tree nodes chosen !! h ≠ Some [].
Proof.
  pose proof (foldl_push_spec (λ p : nat * Place, chosen p.1 (pl_node p.2)) (λ p, compute tree (pl_node p.2)) fst
    (imap pair nodes) h) as Hspec.
  unfold hash_index. erewrite foldl_same; [exact Hspec|]. by intros m [id place].
Qed.

Lemma elem_of_imap_pair {A} (l : list A) i x : (i, x) ∈ imap pair l ↔ l !! i = Some x.
Proof.
  rewrite elem_of_lookup_imap. split; [by intros (? & ? & [= -> ->] & ?)|by exists i, x].
Qed.

Lemma hash_index_ids tree nodes chosen h ids id : hash_index tree nodes chosen !! h = Some ids → id ∈ ids →
  ∃ place, nodes !! id = Some place ∧ chosen id (pl_node place) = true ∧ compute tree (pl_node place) = h.
Proof.
  intros Hi Hid. destruct (hash_index_lookup tree nodes chosen h) as [He _]. rewrite Hi in He. cbn in He. rewrite He in Hid.
  apply list_elem_of_fmap in Hid as ([id' place] & -> & ([Hc Hh] & Hin)%list_elem_of_filter).
  exists place. split; [by apply elem_of_imap_pair|done].
Qed.

Lemma NoDup_imap_pair {A} (l : list A) : NoDup (imap pair l).
Proof.
  apply (NoDup_fmap_1 fst). rewrite fmap_imap. apply NoDup_alt. intros i j x Hi Hj.
  rewrite list_lookup_imap in Hi, Hj. destruct (l !! i), (l !! j); try done. cbn in *. congruence.
Qed.

(** An id alone with its hash. *)
Lemma hash_index_lone tree nodes chosen id place : nodes !! id = Some place → chosen id (pl_node place) = true →
  (∀ id' place', nodes !! id' = Some place' → chosen id' (pl_node place') = true →
    compute tree (pl_node place') = compute tree (pl_node place) → id' = id) →
  hash_index tree nodes chosen !! compute tree (pl_node place) = Some [id].
Proof.
  intros Hn Hc Hu. destruct (hash_index_lookup tree nodes chosen (compute tree (pl_node place))) as [He Hne].
  rewrite (filter_unique _ _ (id, place)) in He.
  - destruct (hash_index tree nodes chosen !! _) as [ids|]; cbn in He; [by rewrite He|done].
  - apply NoDup_imap_pair.
  - by apply elem_of_imap_pair.
  - done.
  - intros [id' place'] Hin%elem_of_imap_pair [Hc' Hh]. cbn in *. pose proof (Hu id' place' Hin Hc' Hh) as ->.
    by rewrite Hn in Hin; injection Hin as ->.
Qed.

End index.

(** * The phases by hash *)

Section hashes.
Context `{MapOrder, Hasher} (tree_a tree_b : Tree) (P : Node → Node → Prop).
Hypothesis P_children : ∀ na nb, P na nb → Forall (λ '(ca, cb), P ca cb) (zip (children na) (children nb)).
(** Nodes of the two trees with one hash are in [P]. *)
Hypothesis P_hash : ∀ na nb, na ∈ collect_nodes (root_node tree_a) → nb ∈ collect_nodes (root_node tree_b) →
  compute tree_a na = compute tree_b nb → P na nb.

Abbreviation nodes_a := (places (root_node tree_a)).
Abbreviation nodes_b := (places (root_node tree_b)).
Abbreviation Paired := (paired (root_node tree_a) (root_node tree_b) P).

Lemma same_hash_paired chosen_a chosen_b h a_ids b_ids a b :
  hash_index tree_a nodes_a chosen_a !! h = Some a_ids → hash_index tree_b nodes_b chosen_b !! h = Some b_ids →
  a ∈ a_ids → b ∈ b_ids → Paired a b.
Proof.
  intros Ha Hb Hia Hib. destruct (hash_index_ids _ _ _ _ _ _ Ha Hia) as (pa & Hpa & _ & Hha).
  destruct (hash_index_ids _ _ _ _ _ _ Hb Hib) as (pb & Hpb & _ & Hhb).
  exists (pl_node pa), (pl_node pb). pose proof (places_within _ _ _ Hpa) as Wa. pose proof (places_within _ _ _ Hpb) as Wb.
  split; [done|]. split; [done|]. apply P_hash; [| |congruence].
  - apply within_lookup in Wa. by eapply list_elem_of_lookup_2.
  - apply within_lookup in Wb. by eapply list_elem_of_lookup_2.
Qed.

(** What is done with lone ids pairs them. *)
Definition lone_ok (lone : nat → nat → Map → Map) : Prop :=
  ∀ a b m, Paired a b → a_to_b m !! a = None → b_to_a m !! b = None →
    grows Paired m (lone a b m) ∧ (is_Some (a_to_b (lone a b m) !! a) ∨ is_Some (b_to_a (lone a b m) !! b)).

Lemma match_hashes_grows `{!MapOrderLaws} lone chosen_a chosen_b m : lone_ok lone →
  grows Paired m (match_hashes lone nodes_a nodes_b (hash_index tree_a nodes_a chosen_a) (hash_index tree_b nodes_b chosen_b) m) ∧
  ∀ h a b, hash_index tree_a nodes_a chosen_a !! h = Some [a] → hash_index tree_b nodes_b chosen_b !! h = Some [b] →
    let m' := match_hashes lone nodes_a nodes_b (hash_index tree_a nodes_a chosen_a) (hash_index tree_b nodes_b chosen_b) m in
    is_Some (a_to_b m' !! a) ∨ is_Some (b_to_a m' !! b).
Proof.
  intros Hlone. unfold match_hashes. set (f := λ (matching : Map) '(hash, a_ids), _).
  assert (∀ m h a_ids, hash_index tree_a nodes_a chosen_a !! h = Some a_ids → grows Paired m (f m (h, a_ids)) ∧
    ∀ a b, a_ids = [a] → hash_index tree_b nodes_b chosen_b !! h = Some [b] →
      is_Some (a_to_b (f m (h, a_ids)) !! a) ∨ is_Some (b_to_a (f m (h, a_ids)) !! b)) as Hf.
  { clear m. intros m h a_ids Ha. cbn. destruct (hash_index tree_b nodes_b chosen_b !! h) as [b_ids|] eqn:Hb; [|split; [done|naive_solver]].
    assert (∀ a b, a ∈ a_ids → b ∈ b_ids → Paired a b) as Hp by (intros; by eapply same_hash_paired).
    assert (grows Paired m (by_position a_ids b_ids nodes_a nodes_b m)) as Hpos by (by apply by_position_grows).
    destruct a_ids as [|a [|a2 a_ids]]; [split; [exact Hpos|naive_solver]| |split; [exact Hpos|naive_solver]].
    destruct b_ids as [|b [|b2 b_ids]]; [split; [exact Hpos|naive_solver]| |split; [exact Hpos|naive_solver]].
    assert (Paired a b) as Hab by (apply Hp; by left).
    destruct (is_matched_a m a) eqn:Ma; [split; [done|]; intros ?? [= ->] [= ->]; left; by apply is_matched_a_true|].
    destruct (is_matched_b m b) eqn:Mb; [split; [done|]; intros ?? [= ->] [= ->]; right; by apply is_matched_b_true|].
    apply is_matched_a_false in Ma. apply is_matched_b_false in Mb. destruct (Hlone a b m Hab Ma Mb) as [Hg Ht].
    split; [exact Hg|]. by intros ?? [= ->] [= ->]. }
  assert (∀ h a_ids, (h, a_ids) ∈ ordered (hash_index tree_a nodes_a chosen_a) → hash_index tree_a nodes_a chosen_a !! h = Some a_ids) as Hord.
  { intros h a_ids Hin. apply elem_of_map_to_list. by rewrite <- (ordered_perm (hash_index tree_a nodes_a chosen_a)). }
  split.
  - apply foldl_grows. intros m' [h a_ids] Hin. by apply Hf, Hord.
  - intros h a b Ha Hb.
    assert ((h, [a]) ∈ ordered (hash_index tree_a nodes_a chosen_a)) as Hin.
    { rewrite (ordered_perm (hash_index tree_a nodes_a chosen_a)). by apply elem_of_map_to_list. }
    apply list_elem_of_split in Hin as (pre & post & Hin). rewrite Hin in *. rewrite foldl_app. cbn [foldl].
    eapply (grows_taken Paired).
    + apply foldl_grows. intros m' [h' a_ids] Hin'. apply Hf, Hord. set_solver.
    + destruct (Hf (foldl f m pre) h [a] Ha) as [_ Ht]. by apply Ht.
Qed.

Lemma lone_subtrees : lone_ok (subtrees_at nodes_a nodes_b).
Proof. intros a b m Hp _ _. by apply subtrees_at_grows. Qed.

Lemma lone_add_match : lone_ok (λ a b matching, add_match matching a b).
Proof.
  intros a b m Hp Ha Hb. split; [by apply add_match_grows|]. left. cbn. rewrite lookup_insert_eq. by eexists.
Qed.

End hashes.

(** * Bottom up *)

Lemma build_kind_index_ids meta k ids id : build_kind_index meta !! k = Some ids → id ∈ ids →
  ∃ m, meta !! id = Some m ∧ mt_kind_id m = k.
Proof.
  intros Hk Hid. destruct (foldl_push_spec (λ _ : nat * NodeMeta, true) (λ p, mt_kind_id p.2) fst (imap pair meta) k) as [He _].
  assert (build_kind_index meta = foldl (λ m p, push_entry m (mt_kind_id p.2) p.1) ∅ (imap pair meta)) as Hb.
  { apply foldl_same. by intros m [i mm]. }
  rewrite Hb in Hk. cbn in He. rewrite Hk in He. cbn in He. rewrite He in Hid.
  apply list_elem_of_fmap in Hid as ([id' m] & -> & ([_ Hm] & Hin)%list_elem_of_filter).
  exists m. split; [by apply elem_of_imap_pair|done].
Qed.

Lemma best_candidate_spec config index matched_b meta_b ma best cands c :
  best_candidate config index matched_b meta_b ma best cands = Some c →
  best = Some c ∨ cand_b_id c ∈ cands ∧ matched_b (cand_b_id c) = false ∧ ∃ mb, meta_b !! cand_b_id c = Some mb ∧
    let d := dice_of (count_descendants_in_range index (mt_start ma) (mt_end ma) (mt_start mb) (mt_end mb)) ma mb in
    SFltb d (dice_threshold config) = false.
Proof.
  revert best. induction cands as [|b cands IH]; intros best; cbn -[dice_of]; [by left|].
  assert (∀ best', best_candidate config index matched_b meta_b ma best' cands = Some c →
    best' = Some c ∨ cand_b_id c ∈ b :: cands ∧ matched_b (cand_b_id c) = false ∧ ∃ mb, meta_b !! cand_b_id c = Some mb ∧
    let d := dice_of (count_descendants_in_range index (mt_start ma) (mt_end ma) (mt_start mb) (mt_end mb)) ma mb in
    SFltb d (dice_threshold config) = false) as IH'.
  { intros best' [?|(? & ?)]%IH; [by left|right]. split; [by right|done]. }
  destruct (matched_b b) eqn:Hmb; [apply IH'|]. destruct (meta_b !! b) as [mb|] eqn:Hb; [|apply IH'].
  case_decide; [apply IH'|]. destruct (SFltb _ (dice_threshold config)) eqn:Hd; [apply IH'|].
  set (new := if match best with None => true | Some c => _ end then _ else best).
  assert (new = Some c → best = Some c ∨ cand_b_id c ∈ b :: cands ∧ matched_b (cand_b_id c) = false ∧
    ∃ mb, meta_b !! cand_b_id c = Some mb ∧
    let d := dice_of (count_descendants_in_range index (mt_start ma) (mt_end ma) (mt_start mb) (mt_end mb)) ma mb in
    SFltb d (dice_threshold config) = false) as Hnew.
  { unfold new. destruct (match best with None => true | Some _ => _ end); [|by left].
    intros [= <-]. right. split; [by left|]. split; [done|]. by exists mb. }
  destruct (SFleb NEAR_PERFECT_DICE _); [exact Hnew|]. intros [Hn|Hc]%IH'; auto.
Qed.

(** With a candidate that may be taken, one is. *)
Lemma best_candidate_keeps config index matched_b meta_b ma c cands :
  is_Some (best_candidate config index matched_b meta_b ma (Some c) cands).
Proof.
  revert c. induction cands as [|b cands IH]; intros c; cbn -[dice_of]; [by eexists|].
  destruct (matched_b b); [apply IH|]. destruct (meta_b !! b) as [mb|]; [|apply IH].
  case_decide; [apply IH|]. destruct (SFltb _ (dice_threshold config)); [apply IH|].
  destruct (SFltb (dice c) _), (SFleb NEAR_PERFECT_DICE _); (by eexists) || apply IH.
Qed.

Lemma best_candidate_finds config index matched_b meta_b ma best cands b mb :
  b ∈ cands → matched_b b = false → meta_b !! b = Some mb → descendants ma ≠ 0 → descendants mb ≠ 0 →
  SFltb (dice_of (count_descendants_in_range index (mt_start ma) (mt_end ma) (mt_start mb) (mt_end mb)) ma mb)
    (dice_threshold config) = false →
  is_Some (best_candidate config index matched_b meta_b ma best cands).
Proof.
  intros Hb Hfree Hmb Ha0 Hb0 Hd. revert best. induction Hb as [b cands|b b' cands Hb IH]; intros best; cbn -[dice_of].
  - rewrite Hfree, Hmb, decide_False, Hd by lia.
    destruct best as [c|]; [destruct (SFltb (dice c) _)|]; destruct (SFleb NEAR_PERFECT_DICE _);
      (by eexists) || apply best_candidate_keeps.
  - specialize (IH Hfree Hmb). destruct (matched_b b'); [apply IH|]. destruct (meta_b !! b') as [mb'|]; [|apply IH].
    case_decide; [apply IH|]. set (d := dice_of _ ma mb'). destruct (SFltb d (dice_threshold config)); [apply IH|].
    destruct best as [c|]; [destruct (SFltb (dice c) _)|]; destruct (SFleb NEAR_PERFECT_DICE _);
      (by eexists) || apply IH.
Qed.

(** Two nodes of one kind whose Dice coefficient is not below one half: of the
    pairs of the matching that lie in the bytes of both, to the sizes of their
    subtrees. *)
Definition alike (root_a root_b : Node) (matching : Map) (a b : nat) : Prop :=
  ∃ na nb, within root_a a na ∧ within root_b b nb ∧ kind_id na = kind_id nb ∧
    SFltb (dice_coefficient (pairs_inside root_a root_b matching na nb) (size_inside root_a a na) (size_inside root_b b nb))
      half = false.

Section bottom_up.
Context `{MapOrderLaws} (root_a root_b : Node) (m : Map).

Abbreviation meta_a := (compute_node_meta (collect_nodes root_a)).
Abbreviation meta_b := (compute_node_meta (collect_nodes root_b)).
Abbreviation metas_alike ma mb :=
  (SFltb (dice_of (count_descendants_in_range (Index_new m meta_a meta_b) (mt_start ma) (mt_end ma) (mt_start mb) (mt_end mb)) ma mb)
    (dice_threshold default_config) = false).

Lemma threshold_half : dice_threshold default_config = half.
Proof. by vm_compute. Qed.

(** What the phase compares is what [alike] says. *)
Lemma alike_iff a b ma mb na nb : meta_a !! a = Some ma → meta_b !! b = Some mb →
  collect_nodes root_a !! a = Some na → collect_nodes root_b !! b = Some nb →
  metas_alike ma mb ↔
  SFltb (dice_coefficient (pairs_inside root_a root_b m na nb) (size_inside root_a a na) (size_inside root_b b nb)) half = false.
Proof.
  intros Hma Hmb Ha Hb. pose proof (count_descendants_spec root_a root_b m a b na nb Ha Hb) as Hcount.
  apply compute_node_meta_lookup in Hma as (na' & Ha' & ->), Hmb as (nb' & Hb' & ->).
  rewrite Ha in Ha'. rewrite Hb in Hb'. injection Ha' as <-. injection Hb' as <-. cbn [mt_start mt_end] in *.
  rewrite Hcount, threshold_half. done.
Qed.

Lemma alike_metas a b : alike root_a root_b m a b ↔
  ∃ ma mb, meta_a !! a = Some ma ∧ meta_b !! b = Some mb ∧ mt_kind_id ma = mt_kind_id mb ∧ metas_alike ma mb.
Proof.
  split.
  - intros (na & nb & Ha%within_lookup & Hb%within_lookup & Hk & Hd).
    destruct (compute_node_meta_Some _ _ _ Ha) as [ma Hma], (compute_node_meta_Some _ _ _ Hb) as [mb Hmb].
    exists ma, mb. split; [done|]. split; [done|]. split; [|by apply (alike_iff a b ma mb na nb)].
    apply compute_node_meta_lookup in Hma as (na' & Ha' & ->), Hmb as (nb' & Hb' & ->). cbn. congruence.
  - intros (ma & mb & Hma & Hmb & Hk & Hd).
    pose proof (compute_node_meta_lookup _ _ _ Hma) as (na & Ha & Hna). pose proof (compute_node_meta_lookup _ _ _ Hmb) as (nb & Hb & Hnb).
    exists na, nb. split; [by apply lookup_within|]. split; [by apply lookup_within|]. split; [by rewrite Hna, Hnb in Hk|].
    by apply (alike_iff a b ma mb na nb).
Qed.

Lemma bottom_up_grows : grows (alike root_a root_b m) m (bottom_up_phase default_config (places root_a) (places root_b) m).
Proof.
  unfold bottom_up_phase. rewrite !places_nodes. apply foldl_grows. intros m' [a b] Hin. apply match_free_grows. cbn.
  apply list_elem_of_omap in Hin as (a' & _ & Hc).
  apply bind_Some in Hc as (ma & Hma & Hc). apply bind_Some in Hc as (cands & Hcands & Hc).
  apply bind_Some in Hc as (c & Hc & [= <- <-]).
  apply best_candidate_spec in Hc as [|(Hcin & _ & mb & Hmb & Hd)]; [done|].
  destruct (build_kind_index_ids _ _ _ _ Hcands Hcin) as (mb' & Hmb' & Hk). rewrite Hmb in Hmb'. injection Hmb' as <-.
  apply alike_metas. by exists ma, mb.
Qed.

Lemma build_kind_index_has b mb : meta_b !! b = Some mb →
  ∃ ids, build_kind_index meta_b !! mt_kind_id mb = Some ids ∧ b ∈ ids.
Proof.
  intros Hb. destruct (foldl_push_spec (λ _ : nat * NodeMeta, true) (λ p, mt_kind_id p.2) fst (imap pair meta_b) (mt_kind_id mb)) as [He _].
  assert (build_kind_index meta_b = foldl (λ m p, push_entry m (mt_kind_id p.2) p.1) ∅ (imap pair meta_b)) as ->.
  { apply foldl_same. by intros ? [i mm]. }
  cbn in He. assert (b ∈ fst <$> filter (λ x : nat * NodeMeta, true = true ∧ mt_kind_id x.2 = mt_kind_id mb) (imap pair meta_b)) as Hin.
  { apply list_elem_of_fmap. exists (b, mb). split; [done|]. apply list_elem_of_filter. split; [done|]. by apply elem_of_imap_pair. }
  rewrite <- He in Hin. destruct (foldl _ ∅ _ !! mt_kind_id mb) as [ids|]; [by exists ids|]. by apply elem_of_nil in Hin.
Qed.

(** Two free nodes that are alike: the first is paired, or one alike to it is. *)
Lemma bottom_up_takes a b : alike root_a root_b m a b → a_to_b m !! a = None → (∀ a', a_to_b m !! a' ≠ Some b) →
  let m' := bottom_up_phase default_config (places root_a) (places root_b) m in
  is_Some (a_to_b m' !! a) ∨ ∃ b', alike root_a root_b m a b' ∧ is_Some (b_to_a m' !! b').
Proof.
  intros Hab Ha Hb. pose proof bottom_up_grows as Hgrows. cbv zeta. revert Hgrows. unfold bottom_up_phase. rewrite !places_nodes.
  set (matched_b := list_to_set _). set (step := λ (matching : Map) pair, match_free _ _ _).
  set (news := omap _ _). intros _.
  pose proof Hab as (ma & mb & Hma & Hmb & Hk & Hd)%alike_metas.
  destruct (build_kind_index_has b mb Hmb) as (cands & Hcands & Hin). rewrite <- Hk in Hcands.
  assert (b ∉ matched_b) as Hfree.
  { unfold matched_b. rewrite elem_of_list_to_set, list_elem_of_fmap. intros ([a' b'] & -> & Hin').
    rewrite (ordered_perm (a_to_b m)) in Hin'. by apply elem_of_map_to_list, Hb in Hin'. }
  destruct (best_candidate_finds default_config (Index_new m meta_a meta_b) (λ b, bool_decide (b ∈ matched_b)) meta_b ma None cands b mb)
    as [c Hc]; [done|by apply bool_decide_eq_false|done| | |done|].
  { apply compute_node_meta_lookup in Hma as (? & _ & ->). done. }
  { apply compute_node_meta_lookup in Hmb as (? & _ & ->). done. }
  assert (mkPair a (cand_b_id c) ∈ news) as Hnew.
  { apply list_elem_of_omap. exists a. split.
    - apply list_elem_of_filter. split; [by apply is_matched_a_false|]. apply elem_of_seq. split; [lia|].
      rewrite <- (length_fmap pl_node), places_nodes. apply compute_node_meta_lookup in Hma as (na & Hna & _). by apply lookup_lt_Some in Hna.
    - rewrite Hma. cbn [mbind option_bind]. rewrite Hcands. cbn [mbind option_bind]. by rewrite Hc. }
  assert (alike root_a root_b m a (cand_b_id c)) as Hac.
  { apply best_candidate_spec in Hc as [|(Hcin & _ & mc & Hmc & Hdc)]; [done|].
    destruct (build_kind_index_ids _ _ _ _ Hcands Hcin) as (mc' & Hmc' & Hkc). rewrite Hmc in Hmc'. injection Hmc' as <-.
    apply alike_metas. by exists ma, mc. }
  apply list_elem_of_split in Hnew as (pre & post & ->). rewrite foldl_app. cbn [foldl].
  destruct (grows_taken (λ _ _, True) (step (foldl step m pre) (mkPair a (cand_b_id c)))
    (foldl step (step (foldl step m pre) (mkPair a (cand_b_id c))) post) a (cand_b_id c)) as [?|?].
  - apply foldl_grows. intros m' [x y] _. by apply match_free_grows.
  - apply match_free_takes.
  - by left.
  - right. by exists (cand_b_id c).
Qed.

End bottom_up.

(** * Equal subtrees *)

(** Two lists of siblings, one to one. *)
Section all_same.
Context (same : Node → Node → bool).
Fixpoint all_same (cs_a cs_b : list Node) : bool :=
  match cs_a, cs_b with
  | [], [] => true
  | ca :: cs_a, cb :: cs_b => same ca cb && all_same cs_a cs_b
  | _, _ => false
  end.
End all_same.

(** The same kinds in the same places, and the same texts of the leaves. *)
Fixpoint same_tree (tree_a tree_b : Tree) (na nb : Node) : bool :=
  bool_decide (kind na = kind nb) &&
  match children na with
  | [] => match children nb with [] => bool_decide (node_text tree_a na = node_text tree_b nb) | _ => false end
  | cs_a => all_same (same_tree tree_a tree_b) cs_a (children nb)
  end.

(** The hash tells the subtrees of these trees apart. *)
Definition hash_tells `{Hasher} (tree_a tree_b : Tree) : bool :=
  forallb (λ na, forallb (λ nb, negb (bool_decide (compute tree_a na = compute tree_b nb)) || same_tree tree_a tree_b na nb)
    (collect_nodes (root_node tree_b))) (collect_nodes (root_node tree_a)).

Lemma hash_tells_same `{Hasher} tree_a tree_b na nb : hash_tells tree_a tree_b = true →
  na ∈ collect_nodes (root_node tree_a) → nb ∈ collect_nodes (root_node tree_b) →
  compute tree_a na = compute tree_b nb → same_tree tree_a tree_b na nb = true.
Proof.
  unfold hash_tells. rewrite forallb_forall. intros Ht Ha Hb Hh. apply list_elem_of_In in Ha. specialize (Ht _ Ha).
  rewrite forallb_forall in Ht. apply list_elem_of_In in Hb. specialize (Ht _ Hb). by rewrite bool_decide_eq_true_2 in Ht.
Qed.

Lemma all_same_Forall2 same cs_a cs_b : all_same same cs_a cs_b = true ↔ Forall2 (λ ca cb, same ca cb = true) cs_a cs_b.
Proof.
  revert cs_b. induction cs_a as [|ca cs_a IH]; intros [|cb cs_b]; cbn; try (split; [done|by inversion 1]).
  rewrite andb_true_iff, IH, Forall2_cons. done.
Qed.

Lemma same_tree_spec tree_a tree_b na nb : same_tree tree_a tree_b na nb = true →
  kind na = kind nb ∧ Forall2 (λ ca cb, same_tree tree_a tree_b ca cb = true) (children na) (children nb) ∧
  (children na = [] → node_text tree_a na = node_text tree_b nb).
Proof.
  destruct na as [k ki ex s e fs cs]. cbn [same_tree kind children]. rewrite andb_true_iff, bool_decide_eq_true.
  intros [-> Hc]. split; [done|]. destruct cs as [|c cs].
  - destruct (children nb); [|done]. apply bool_decide_eq_true in Hc. done.
  - split; [|done]. by apply all_same_Forall2.
Qed.

Lemma same_tree_children tree_a tree_b na nb : same_tree tree_a tree_b na nb = true →
  Forall (λ '(ca, cb), same_tree tree_a tree_b ca cb = true) (zip (children na) (children nb)).
Proof.
  intros (_ & Hc & _)%same_tree_spec. induction Hc; cbn; by constructor.
Qed.

Lemma same_tree_height tree_a tree_b na nb : same_tree tree_a tree_b na nb = true → node_height na = node_height nb.
Proof.
  revert nb. induction na as [na IH] using Node_tree_ind. intros nb (_ & Hc & _)%same_tree_spec.
  assert (node_height <$> children na = node_height <$> children nb) as He.
  { clear -IH Hc. induction Hc as [|ca cb cs_a cs_b Hab Hc IHc]; [done|]. apply Forall_cons in IH as [IHa IH].
    cbn. by rewrite (IHa _ Hab), IHc. }
  destruct na as [ka kia ea sa na fa cs_a], nb as [kb kib eb sb nb fb cs_b]. cbn [children] in *. cbn [node_height children].
  destruct cs_a, cs_b; try by inversion Hc. by rewrite He.
Qed.

Lemma same_tree_hash `{Hasher} tree_a tree_b na nb h : same_tree tree_a tree_b na nb = true →
  compute_recursive tree_a na h = compute_recursive tree_b nb h.
Proof.
  revert nb h. induction na as [na IH] using Node_tree_ind. intros nb h (Hk & Hc & Ht)%same_tree_spec.
  assert (∀ h, foldl (λ h child, child h) h (compute_recursive tree_a <$> children na) =
    foldl (λ h child, child h) h (compute_recursive tree_b <$> children nb)) as He.
  { clear -IH Hc. induction Hc as [|ca cb cs_a cs_b Hab Hc IHc]; intros h; [done|]. apply Forall_cons in IH as [IHa IH].
    cbn. rewrite (IHa _ h Hab). by apply IHc. }
  destruct na as [ka kia ea sa na fa cs_a], nb as [kb kib eb sb nb fb cs_b].
  cbn [kind children] in *. cbn [compute_recursive kind children]. subst ka.
  destruct cs_a, cs_b; [by rewrite Ht|by inversion Hc|by inversion Hc|apply He].
Qed.

(** * The matching *)

Section correct.
Context `{MapOrderLaws, Hasher} (tree_a tree_b : Tree).

Abbreviation root_a := (root_node tree_a).
Abbreviation root_b := (root_node tree_b).
Abbreviation same := (λ na nb, same_tree tree_a tree_b na nb = true).

(** The matching before any phase, after those by hash, and after all. *)
Definition first_match : Map := if decide (kind_id root_a = kind_id root_b) then add_match Map_new 0 0 else Map_new.
Definition by_top_down : Map :=
  top_down_phase default_config tree_a tree_b (places root_a) (places root_b) first_match.
Definition by_hash : Map :=
  leaf_sibling_phase default_config tree_a tree_b (places root_a) (places root_b) by_top_down.

Lemma first_match_pairs a b : a_to_b first_match !! a = Some b → a = 0 ∧ b = 0 ∧ kind_id root_a = kind_id root_b.
Proof.
  unfold first_match. case_decide; cbn; [|by rewrite lookup_empty]. rewrite lookup_insert_Some, lookup_empty. naive_solver.
Qed.

Lemma first_match_bijective : bijective first_match.
Proof.
  unfold first_match. case_decide; intros a b; cbn; [|by rewrite !lookup_empty].
  rewrite !lookup_insert_Some, !lookup_empty. naive_solver.
Qed.

Section by_hash.
Context (P : Node → Node → Prop).
Hypothesis P_children : ∀ na nb, P na nb → Forall (λ '(ca, cb), P ca cb) (zip (children na) (children nb)).
Hypothesis P_hash : ∀ na nb, na ∈ collect_nodes root_a → nb ∈ collect_nodes root_b →
  compute tree_a na = compute tree_b nb → P na nb.

Lemma by_top_down_grows : grows (paired root_a root_b P) first_match by_top_down.
Proof. exact (proj1 (match_hashes_grows _ _ P P_children P_hash _ _ _ _ (lone_subtrees _ _ P P_children))). Qed.

Lemma by_hash_grows : grows (paired root_a root_b P) by_top_down by_hash.
Proof. exact (proj1 (match_hashes_grows _ _ P P_children P_hash _ _ _ _ (lone_add_match _ _ P))). Qed.

End by_hash.

Lemma match_trees_grows : grows (alike root_a root_b by_hash) by_hash (match_trees tree_a tree_b).
Proof. apply bottom_up_grows. Qed.

(** A subtree that is tall, and alone with its content on both sides, is taken
    top down. *)
Lemma lone_subtree_taken a b na nb : hash_tells tree_a tree_b = true →
  within root_a a na → within root_b b nb → 2 ≤ node_height na → same na nb →
  (∀ a' na', within root_a a' na' → same na' nb → a' = a) →
  (∀ b' nb', within root_b b' nb' → same na nb' → b' = b) →
  is_Some (a_to_b by_top_down !! a) ∨ is_Some (b_to_a by_top_down !! b).
Proof.
  intros Ht Ha Hb Hh Hs Ua Ub.
  assert (∀ r i n, within r i n → n ∈ collect_nodes r) as Hin by (intros ??? ?%within_lookup; by eapply list_elem_of_lookup_2).
  assert (compute tree_a na = compute tree_b nb) as Hab by (unfold compute; f_equal; by apply same_tree_hash).
  destruct (within_places _ _ _ Ha) as (pa & Hpa & <-), (within_places _ _ _ Hb) as (pb & Hpb & <-).
  assert (∀ na nb, na ∈ collect_nodes root_a → nb ∈ collect_nodes root_b → compute tree_a na = compute tree_b nb → same na nb)
    as Hsame by (intros; by apply hash_tells_same).
  eapply (proj2 (match_hashes_grows _ _ same (same_tree_children tree_a tree_b) Hsame _ _ _ _
    (lone_subtrees _ _ same (same_tree_children tree_a tree_b)))).
  - apply hash_index_lone; [exact Hpa|by apply bool_decide_eq_true|].
    intros a' pa' Hpa' _ He. pose proof (places_within _ _ _ Hpa') as Wa. apply (Ua a' (pl_node pa') Wa).
    apply hash_tells_same; [done|by eapply Hin..|congruence].
  - rewrite Hab. apply hash_index_lone; [exact Hpb|apply bool_decide_eq_true; rewrite <- (same_tree_height tree_a tree_b _ _ Hs); done|].
    intros b' pb' Hpb' _ He. pose proof (places_within _ _ _ Hpb') as Wb. apply (Ub b' (pl_node pb') Wb).
    apply hash_tells_same; [done|by eapply Hin..|congruence].
Qed.

Lemma lone_subtree_matched a b na nb : hash_tells tree_a tree_b = true →
  within root_a a na → within root_b b nb → a ≠ 0 → b ≠ 0 → 2 ≤ node_height na → same na nb →
  (∀ a' na', within root_a a' na' → same na' nb → a' = a) →
  (∀ b' nb', within root_b b' nb' → same na nb' → b' = b) →
  a_to_b (match_trees tree_a tree_b) !! a = Some b.
Proof.
  intros Ht Ha Hb Ha0 Hb0 Hh Hs Ua Ub. eapply gr_keeps; [apply match_trees_grows|].
  eapply gr_keeps; [apply (by_hash_grows (λ _ _, True)); [|done]; intros; by apply Forall_true; intros []|].
  assert (grows (paired root_a root_b same) first_match by_top_down) as Hg.
  { apply by_top_down_grows; [apply same_tree_children|]. intros. by apply hash_tells_same. }
  pose proof (gr_bijective _ _ _ Hg first_match_bijective) as Hbij.
  destruct (lone_subtree_taken a b na nb) as [[b' Hb']|[a' Ha']]; try done.
  - destruct (gr_reason _ _ _ Hg _ _ Hb') as [(? & _)%first_match_pairs|(na' & nb' & Wa & Wb & Hs')]; [done|].
    rewrite (within_fun _ _ _ _ Wa Ha) in Hs'. by rewrite <- (Ub b' nb' Wb Hs').
  - apply Hbij in Ha'. destruct (gr_reason _ _ _ Hg _ _ Ha') as [(_ & ? & _)%first_match_pairs|(na' & nb' & Wa & Wb & Hs')]; [done|].
    rewrite (within_fun _ _ _ _ Wb Hb) in Hs'. by rewrite <- (Ua a' na' Wa Hs').
Qed.

End correct.

(** C32. Whatever the order in which hash maps are iterated, the matching of two
    trees pairs nodes one to one: its two maps are inverse to each other, and all
    ids are those of nodes. The roots are paired if they are of one kind. If the
    hash tells the subtrees of the two trees apart, every pair has a reason: it is
    that of the roots, or the two nodes stand at the same place in equal subtrees
    and are equal, or they are of one kind and alike: twice the number of pairs, of
    those made before the last phase, whose bytes lie in the bytes of both (these
    need not be descendants), is at least half of the number of nodes in both
    subtrees, the roots of the subtrees counted. And a subtree of height two or more
    that is found once in each revision, unchanged and not at the root, is paired
    with itself, wherever it has moved. Of two nodes that are alike, and free
    before the last phase, the first is paired, or one alike to it is. In trees
    whose nodes have bytes, those of the children among them in order, the nodes
    that are counted are those of the subtrees. *)
Theorem match_trees_correct `{MapOrderLaws, Hasher} tree_a tree_b :
  let m := match_trees tree_a tree_b in
  let root_a := root_node tree_a in
  let root_b := root_node tree_b in
  let before := by_hash tree_a tree_b in
  bijective m ∧
  (∀ a b, a_to_b m !! a = Some b → a < tree_size root_a ∧ b < tree_size root_b) ∧
  (kind_id root_a = kind_id root_b → a_to_b m !! 0 = Some 0) ∧
  (hash_tells tree_a tree_b = true →
    (∀ a b, a_to_b m !! a = Some b →
      a = 0 ∧ b = 0 ∧ kind_id root_a = kind_id root_b ∨
      paired root_a root_b (λ na nb, same_tree tree_a tree_b na nb = true) a b ∨
      alike root_a root_b before a b) ∧
    (∀ a b na nb, within root_a a na → within root_b b nb → a ≠ 0 → b ≠ 0 → 2 ≤ node_height na →
      same_tree tree_a tree_b na nb = true →
      (∀ a' na', within root_a a' na' → same_tree tree_a tree_b na' nb = true → a' = a) →
      (∀ b' nb', within root_b b' nb' → same_tree tree_a tree_b na nb' = true → b' = b) →
      a_to_b m !! a = Some b)) ∧
  (∀ a b, alike root_a root_b before a b → a_to_b before !! a = None → b_to_a before !! b = None →
    is_Some (a_to_b m !! a) ∨ ∃ b', alike root_a root_b before a b' ∧ is_Some (b_to_a m !! b')) ∧
  (∀ root id n, Forall orderly (collect_nodes root) → within root id n → size_inside root id n = tree_size n).
Proof.
  intros m root_a root_b before.
  assert (∀ (P : Node → Node → Prop) a b,
    (∀ na nb, P na nb → Forall (λ '(ca, cb), P ca cb) (zip (children na) (children nb))) →
    (∀ na nb, na ∈ collect_nodes root_a → nb ∈ collect_nodes root_b → compute tree_a na = compute tree_b nb → P na nb) →
    a_to_b m !! a = Some b → a = 0 ∧ b = 0 ∧ kind_id root_a = kind_id root_b ∨ paired root_a root_b P a b ∨
      alike root_a root_b before a b) as Hreason.
  { intros P a b Hc Hh Hab. apply (gr_reason _ _ _ (match_trees_grows tree_a tree_b)) in Hab as [Hab|]; [|auto].
    apply (gr_reason _ _ _ (by_hash_grows _ _ P Hc Hh)) in Hab as [Hab|]; [|auto].
    apply (gr_reason _ _ _ (by_top_down_grows _ _ P Hc Hh)) in Hab as [Hab|]; [|auto]. left. by apply first_match_pairs. }
  assert (∀ na nb : Node, True → Forall (λ '(ca, cb), True) (zip (children na) (children nb))) as Htriv.
  { intros. by apply Forall_true; intros []. }
  assert (∀ r i n, within r i n → i < tree_size r) as Hsize by (intros ??? ?%within_lookup; by eapply lookup_lt_Some).
  pose proof (by_top_down_grows tree_a tree_b (λ _ _, True) Htriv ltac:(done)) as G1.
  pose proof (by_hash_grows tree_a tree_b (λ _ _, True) Htriv ltac:(done)) as G2.
  pose proof (match_trees_grows tree_a tree_b) as G3.
  assert (bijective before) as Hbij by (by apply G2, G1, first_match_bijective).
  split; [by apply G3|]. split; [|split; [|split; [intros Ht; split|split]]].
  - intros a b Hab. destruct (Hreason (λ _ _, True) a b Htriv ltac:(done) Hab)
      as [(-> & -> & _)|[(na & nb & ? & ? & _)|(na & nb & ? & ? & _)]]; eauto using within_root.
  - intros Hk. apply (gr_keeps _ _ _ G3), (gr_keeps _ _ _ G2), (gr_keeps _ _ _ G1). unfold first_match.
    rewrite decide_True by done. apply lookup_insert_eq.
  - intros a b. apply Hreason; [apply same_tree_children|]. intros. by apply hash_tells_same.
  - intros a b na nb. by apply lone_subtree_matched.
  - intros a b Hab Ha Hb. apply (bottom_up_takes root_a root_b before a b Hab Ha). intros a' Ha'. apply Hbij in Ha'. congruence.
  - intros root id n. apply size_inside_orderly.
Qed.

(** ** Trees to run the matcher with *)

#[export] Instance key_order : MapOrder := λ K _ _ V m, map_to_list m.
#[export] Instance key_order_laws : MapOrderLaws.
Proof. intros K ?? V m. done. Qed.

(** A hash that is the sequence of what was hashed. *)
#[export] Instance exact_hasher : Hasher :=
  {| hash_state := list text; hasher_default := []; hash_str t h := h ++ [t]; finish h := N.pos (encode h) |}.

Definition sample_leaf (e : nat) : Node := mkNode (chars_of "leaf") 3 false (e - 1) e [] [].
Definition sample_item (k : string) (e : nat) : Node := mkNode (chars_of k) 2 false (e - 1) e [None] [sample_leaf e].
Definition sample_tree (t k1 k2 : string) : Tree :=
  mkTree (chars_of t) (mkNode (chars_of "root") 1 false 0 2 [None; None] [sample_item k1 1; sample_item k2 2]).

(** The second item becomes the first one. *)
Lemma match_trees_correct_witness :
  let m := match_trees (sample_tree "xy" "f" "g") (sample_tree "yz" "g" "h") in
  bijective m ∧ a_to_b m !! 0 = Some 0 ∧ a_to_b m !! 3 = Some 1.
Proof.
  destruct (match_trees_correct (sample_tree "xy" "f" "g") (sample_tree "yz" "g" "h")) as (Hb & _ & Hroot & Hm & _).
  split; [exact Hb|]. split; [by apply Hroot|].
  destruct Hm as [_ Hlone]; [by vm_compute|]. apply (Hlone 3 1 (sample_item "g" 2) (sample_item "g" 1)).
  - by apply lookup_within.
  - by apply lookup_within.
  - done.
  - done.
  - apply Nat.leb_le. by vm_compute.
  - by vm_compute.
  - intros a' na' Hw%within_lookup. do 5 (destruct a' as [|a']; [injection Hw as <-; by vm_compute|]). done.
  - intros b' nb' Hw%within_lookup. do 5 (destruct b' as [|b']; [injection Hw as <-; by vm_compute|]). done.
Defined.
