(* ===== verification/AstItems.v ===== *)
(** Structural conflicts of three trees in [packages/ast-merge/diff]: classes
    of nodes that are matched ([mapping.rs]), the triples of parent,
    predecessor and successor of all revisions ([changeset.rs]), and the rule by
    which two of them conflict ([engine.rs]).  Merging lists of items: items that
    are found again by their name or their hash ([items.rs], [items/left.rs],
    [items/right.rs]), the members of one item ([children.rs]) and the bodies of
    functions ([children/body.rs]). *)

From stdpp Require Import base gmap sets list strings.
From Stdlib Require Import Ascii.
From S2P Require Import Prelude Chars AstLines AstTree AstMatch.
Local Open Scope nat_scope.

#[export] Instance Revision_eq_dec : EqDecision Revision.
Proof. solve_decision. Defined.
#[export] Instance Revision_countable : Countable Revision.
Proof.
  refine (inj_countable' (λ r, match r with Base => 0 | Left => 1 | Right => 2 end)
    (λ n, match n with 0 => Base | 1 => Left | _ => Right end) _). by intros [].
Defined.

(** * Classes *)

Record RevisionNode := mkRevisionNode { rn_revision : Revision; rn_node_id : nat }.
Record RevisionNodePair := mkNodePair { np_a : RevisionNode; np_b : RevisionNode }.

Abbreviation RevisionNodeKey := (Revision * nat)%type.
Definition key_of (n : RevisionNode) : RevisionNodeKey := (rn_revision n, rn_node_id n).

(** [Class]. *)
Record NodeClasses := mkClasses {
  node_classes : gmap RevisionNodeKey nat; members : gmap nat (gmap Revision nat); next : nat }.

Definition Class_new : NodeClasses := mkClasses ∅ ∅ 0.

Definition REVISION_COUNT : nat := 3.

(** [Class::add_singleton]. *)
Definition add_singleton (c : NodeClasses) (node : RevisionNode) : nat * NodeClasses :=
  (next c, mkClasses (<[key_of node := next c]> (node_classes c))
     (<[next c := {[rn_revision node := rn_node_id node]}]> (members c)) (S (next c))).

(** [members.entry(class).or_default().insert(revision, node)]. *)
Definition insert_member (ms : gmap nat (gmap Revision nat)) (class_id : nat) (rev : Revision) (node_id : nat) :
    gmap nat (gmap Revision nat) :=
  <[class_id := <[rev := node_id]> (default ∅ (ms !! class_id))]> ms.

(** [Class::add_to_class]. *)
Definition add_to_class (c : NodeClasses) (class_id : nat) (node : RevisionNode) : NodeClasses :=
  mkClasses (<[key_of node := class_id]> (node_classes c))
    (insert_member (members c) class_id (rn_revision node) (rn_node_id node)) (next c).

(** [Class::create_class_with_both]. *)
Definition create_class_with_both (c : NodeClasses) (pair : RevisionNodePair) : NodeClasses :=
  mkClasses (<[key_of (np_b pair) := next c]> (<[key_of (np_a pair) := next c]> (node_classes c)))
    (<[next c := <[rn_revision (np_b pair) := rn_node_id (np_b pair)]>
       {[rn_revision (np_a pair) := rn_node_id (np_a pair)]}]> (members c))
    (S (next c)).

(** [Class::get_class], [get_class_members] and [is_in_all_revisions]. *)
Definition get_class (c : NodeClasses) (node : RevisionNode) : option nat := node_classes c !! key_of node.
Definition get_class_members (c : NodeClasses) (class_id : nat) : option (gmap Revision nat) := members c !! class_id.
Definition is_in_all_revisions (c : NodeClasses) (class_id : nat) : bool :=
  match members c !! class_id with Some ms => bool_decide (size ms = REVISION_COUNT) | None => false end.

Section classes.
Context `{MapOrder}.

(** [Class::unify_classes]. *)
Definition unify_classes (c : NodeClasses) (class_a class_b : nat) : NodeClasses :=
  match members c !! class_b with
  | None => c
  | Some members_b =>
      foldl (λ c '(rev, node_id),
        mkClasses (<[(rev, node_id) := class_a]> (node_classes c)) (insert_member (members c) class_a rev node_id) (next c))
        (mkClasses (node_classes c) (delete class_b (members c)) (next c)) (ordered members_b)
  end.

(** [Class::merge]. *)
Definition merge_classes (c : NodeClasses) (pair : RevisionNodePair) : NodeClasses :=
  match get_class c (np_a pair), get_class c (np_b pair) with
  | Some ca, Some cb => if decide (ca = cb) then c else unify_classes c ca cb
  | Some ca, None => add_to_class c ca (np_b pair)
  | None, Some cb => add_to_class c cb (np_a pair)
  | None, None => create_class_with_both c pair
  end.

(** [merge_matching] and [ThreeWay::build_class_mapping]. *)
Definition merge_matching (mapping : NodeClasses) (matching : Map) (target : Revision) : NodeClasses :=
  foldl (λ mapping '(a, b), merge_classes mapping (mkNodePair (mkRevisionNode Base a) (mkRevisionNode target b)))
    mapping (ordered (a_to_b matching)).
Definition build_class_mapping (base_left_matching base_right_matching : Map) : NodeClasses :=
  merge_matching (merge_matching Class_new base_left_matching Left) base_right_matching Right.

End classes.

(** * Triples *)

(** [PcsTriple]: the parent, the predecessor and the successor. *)
Abbreviation PcsPosition := (option nat * option nat)%type.
Abbreviation PcsTriple := (PcsPosition * nat)%type.

Abbreviation ChangeSet := (gmap PcsTriple (gset Revision)).
Definition ChangeSet_new : ChangeSet := ∅.

(** [ChangeSet::add]. *)
Definition add (cs : ChangeSet) (triple : PcsTriple) (revision : Revision) : ChangeSet :=
  <[triple := {[revision]} ∪ default ∅ (cs !! triple)]> cs.

(** The triple of a node, in [extract_pcs_triples]. *)
Definition triple_of (node_ids : list Place) (id : nat) (place : Place) : PcsTriple :=
  (pl_parent place,
   match pl_parent place with Some _ => find_predecessor node_ids place | None => None end, id).

(** [extract_pcs_triples]. *)
Definition extract_pcs_triples (tree : Tree) (revision : Revision) (changeset : ChangeSet) : ChangeSet :=
  let node_ids := places (root_node tree) in
  foldl (λ changeset '(id, place), add changeset (triple_of node_ids id place) revision) changeset (imap pair node_ids).

(** [ThreeWayTrees]. *)
Record ThreeWayTrees := mkTrees { tr_base : Tree; tr_left : Tree; tr_right : Tree }.

(** [ThreeWay::build_changeset]. *)
Definition build_changeset (trees : ThreeWayTrees) : ChangeSet :=
  extract_pcs_triples (tr_right trees) Right
    (extract_pcs_triples (tr_left trees) Left (extract_pcs_triples (tr_base trees) Base ChangeSet_new)).

(** * Conflicts *)

Record SuccessorEntry := mkSuccessor { successor : nat; revisions : gset Revision }.

(** In this revision, and not in the base. *)
Definition only_in (r : Revision) (e : SuccessorEntry) : bool :=
  bool_decide (r ∈ revisions e) && negb (bool_decide (Base ∈ revisions e)).

(** Both classes are known and equal. *)
Definition same_class (a b : option nat) : bool :=
  match a, b with Some a, Some b => bool_decide (a = b) | _, _ => false end.

(** The test of two entries of one position in [detect_conflicts]. *)
Definition entries_conflict (class_mapping : NodeClasses) (entry_a entry_b : SuccessorEntry) : bool :=
  if decide (successor entry_a = successor entry_b) then false
  else
    let conflict := only_in Left entry_a && only_in Right entry_b || only_in Right entry_a && only_in Left entry_b in
    if negb conflict then false
    else
      let class r e := get_class class_mapping (mkRevisionNode r (successor e)) in
      let convergent := same_class (class Left entry_a) (class Right entry_b) ||
        same_class (class Right entry_a) (class Left entry_b) in
      negb convergent.

(** Two entries, the first before the second, that conflict. *)
Fixpoint some_conflict (class_mapping : NodeClasses) (entries : list SuccessorEntry) : bool :=
  match entries with
  | [] => false
  | e :: rest => existsb (entries_conflict class_mapping e) rest || some_conflict class_mapping rest
  end.

(** [detect_conflicts]. *)
Definition detect_conflicts `{MapOrder} (changeset : ChangeSet) (class_mapping : NodeClasses) : list Conflict :=
  let by_position : gmap PcsPosition (list SuccessorEntry) :=
    foldl (λ by_position '((position, successor), revisions),
      push_entry by_position position (mkSuccessor successor revisions)) ∅ (ordered changeset) in
  if existsb (λ '(_, entries), some_conflict class_mapping entries) (ordered by_position)
  then [mkConflict None (mkRegion 0 0 []) (mkRegion 0 0 [])] else [].

(** * Names *)

(** [ThreeWayNodes], and the lists of [ThreeWay]. *)
Record ThreeWayNodes := mkNodes { nd_base : Node; nd_left : Node; nd_right : Node }.
Record ThreeWayLists := mkLists { tl_base : list Node; tl_left : list Node; tl_right : list Node }.

Record Resolved := mkResolved {
  rv_text : text; rv_kind : text; base_index : option nat; right_predecessor_base_idx : option nat }.

Record IndexedNode := mkIndexed { in_index : nat; in_node : Node }.

(** The kind is one of these. *)
Definition kind_in (kinds : list string) (node : Node) : bool := bool_decide (kind node ∈ chars_of <$> kinds).

(** [get_name]. *)
Definition get_name (tree : Tree) (node : Node) : option text :=
  let named field := node_text tree <$> child_by_field_name node (chars_of field) in
  if kind_in ["function_item"; "struct_item"; "enum_item"; "trait_item"; "type_item"; "const_item"; "static_item";
              "mod_item"; "field_declaration"; "function_signature_item"] node then named "name"
  else if kind_in ["impl_item"] node then named "type"
  else if kind_in ["use_declaration"] node then Some (node_text tree node)
  else None.

(** [build_name_map]: of items with one name, the last. *)
Definition build_name_map (tree : Tree) (items : list Node) : gmap text IndexedNode :=
  foldl (λ by_name '(idx, node),
    match get_name tree node with
    | Some name => <[name := mkIndexed idx node]> by_name
    | None => by_name
    end) ∅ (imap pair items).

(** * Bodies *)

(** [strip_braces]. *)
Definition strip_braces (s : text) : text :=
  let s := trim s in
  match strip_prefix [ch "{"] s ≫= strip_suffix (ch "}") with
  | Some inner => trim_matches (N.eqb newline) inner
  | None => s
  end.

(** [&s[..n]] and [&s[n..]]. *)
Definition slice_to (s : text) (n : nat) : outcome () text := fst <$> unwrap (split_at n s).
Definition slice_from (s : text) (n : nat) : outcome () text := snd <$> unwrap (split_at n s).

(** What surrounds the body of the left node: its prefix and its suffix. *)
Definition around_body (left_tree : Tree) (left_node left_body : Node) : outcome () (text * text) :=
  let left_text := node_text left_tree left_node in
  body_start ← usub (start_byte left_body) (start_byte left_node);
  body_end ← usub (end_byte left_body) (start_byte left_node);
  prefix ← slice_to left_text body_start;
  suffix ← slice_from left_text body_end;
  Ok (prefix, suffix).

(** The fields [body] of three nodes. *)
Definition bodies (nodes : ThreeWayNodes) : option ThreeWayNodes :=
  let body node := child_by_field_name node (chars_of "body") in
  b ← body (nd_base nodes); l ← body (nd_left nodes); r ← body (nd_right nodes);
  Some (mkNodes b l r).

(** [try_reconcile_function]. *)
Definition try_reconcile_function `{Similar} (trees : ThreeWayTrees) (nodes : ThreeWayNodes) : outcome () (option text) :=
  match bodies nodes with
  | None => Ok None
  | Some bs =>
      let base_inner := strip_braces (node_text (tr_base trees) (nd_base bs)) in
      let left_inner := strip_braces (node_text (tr_left trees) (nd_left bs)) in
      let right_inner := strip_braces (node_text (tr_right trees) (nd_right bs)) in
      let merge_result := inner base_inner left_inner right_inner in
      if has_conflict merge_result then Ok None
      else
        '(prefix, suffix) ← around_body (tr_left trees) (nd_left nodes) (nd_left bs);
        let content := oc_content merge_result in
        Ok (Some (prefix ++ [ch "{"; newline] ++ content ++ (if ends_with newline content then [] else [newline]) ++
          [ch "}"] ++ suffix))
  end.

(** [get_meaningful]. *)
Definition get_meaningful (node : Node) : list Node :=
  filter (λ n, is_extra n = false ∧ kind_in ["{"; "}"; "("; ")"; "["; "]"; ","; ";"; "<"; ">"] n = false) (children node).

(** [reconstruct_body]. *)
Definition reconstruct_body (left_tree : Tree) (left_node left_body base_node : Node) (merged_children : list text) :
    outcome () text :=
  '(prefix, suffix) ← around_body left_tree left_node left_body;
  let '(opening, closing) := if starts_with (ch "{") (node_text left_tree left_body) then (ch "{", ch "}") else (ch "(", ch ")") in
  let needs_commas := kind_in ["struct_item"; "enum_item"] base_node in
  let result := prefix ++ [opening; newline] in
  let result :=
    foldl (λ result child,
      result ++ chars_of "    " ++ trim child ++
        (if needs_commas && negb (ends_with (ch ",") (trim child)) then [ch ","] else []) ++ [newline]) result merged_children in
  Ok (result ++ [closing] ++ suffix).

(** What stands for three versions that cannot be merged. *)
Definition conflict_text (left_text base_text right_text : text) : text :=
  LEFT_MARKER ++ [newline] ++ left_text ++ [newline] ++ BASE_MARKER ++ [newline] ++ base_text ++ [newline] ++
    SEPARATOR ++ [newline] ++ right_text ++ [newline] ++ RIGHT_MARKER.

(** * Members of an item *)

Section merge.
Context `{Similar, Hasher} (trees : ThreeWayTrees).
Abbreviation base_tree := (tr_base trees).
Abbreviation left_tree := (tr_left trees).
Abbreviation right_tree := (tr_right trees).

(** The hashes of the base's nodes, with their index. *)
Definition build_hash_map (tree : Tree) (items : list Node) : gmap N nat :=
  foldl (λ by_hash '(idx, node), <[compute tree node := idx]> by_hash) ∅ (imap pair items).

(** The first right item that was not handled and has this property. *)
Definition find_right (right_items : list Node) (handled_right : gset nat) (p : Node → bool) : option (nat * Node) :=
  snd <$> list_find (λ ir, ir.1 ∉ handled_right ∧ p ir.2 = true) (imap pair right_items).

(** An item whose merge is the work of [reconcile_single]. *)
Section children.
Context (reconcile_single : ThreeWayNodes → outcome () text).

(** [children::reconcile_named]: the text, and what was handled. *)
Definition child_named (by_base by_right : gmap text IndexedNode) (name : text) (left_child : Node) (left_hash : N)
    (handled_right : gset nat) : outcome () (text * gset nat) :=
  let left_text := node_text left_tree left_child in
  match by_base !! name, by_right !! name with
  | Some base_entry, Some right_entry =>
      let handled_right := {[in_index right_entry]} ∪ handled_right in
      let base_h := compute base_tree (in_node base_entry) in
      let right_h := compute right_tree (in_node right_entry) in
      if decide (left_hash = right_h) then Ok (left_text, handled_right)
      else if decide (left_hash = base_h) then Ok (node_text right_tree (in_node right_entry), handled_right)
      else if decide (right_h = base_h) then Ok (left_text, handled_right)
      else
        merged ← reconcile_single (mkNodes (in_node base_entry) left_child (in_node right_entry));
        Ok (merged, handled_right)
  | _, right_match =>
      Ok (left_text, match right_match with Some e => {[in_index e]} ∪ handled_right | None => handled_right end)
  end.

(** [children::reconcile_unnamed]. *)
Definition child_unnamed (right_children : list Node) (left_hash : N) (left_child : Node) (handled_right : gset nat) :
    text * gset nat :=
  (node_text left_tree left_child,
   match find_right right_children handled_right (λ r, bool_decide (compute right_tree r = left_hash)) with
   | Some (right_idx, _) => {[right_idx]} ∪ handled_right
   | None => handled_right
   end).

(** A right item that the base does not have, in [collect_new_right] and in
    [collect_new]. *)
Definition is_new (by_base : gmap text IndexedNode) (base_hashes : gmap N nat) (right_item : Node) : bool :=
  match get_name right_tree right_item with
  | None => negb (bool_decide (is_Some (base_hashes !! compute right_tree right_item)))
  | Some name => negb (bool_decide (is_Some (by_base !! name)))
  end.

(** The loop body of [children::reconcile_lists], and the function. *)
Definition child_step (by_base by_right : gmap text IndexedNode) (right_children : list Node)
    (st : list text * gset nat) (left_child : Node) : outcome () (list text * gset nat) :=
  let '(merged_children, handled_right) := st in
  let left_hash := compute left_tree left_child in
  '(t, handled_right) ←
    match get_name left_tree left_child with
    | Some name => child_named by_base by_right name left_child left_hash handled_right
    | None => Ok (child_unnamed right_children left_hash left_child handled_right)
    end;
  Ok (merged_children ++ [t], handled_right).

Definition reconcile_children (lists : ThreeWayLists) : outcome () (list text) :=
  let by_base := build_name_map base_tree (tl_base lists) in
  let by_right := build_name_map right_tree (tl_right lists) in
  let base_hashes := build_hash_map base_tree (tl_base lists) in
  '(merged_children, handled_right) ← foldM (child_step by_base by_right (tl_right lists)) ([], ∅) (tl_left lists);
  Ok (merged_children ++ (node_text right_tree ∘ snd <$>
    filter (λ ir, ir.1 ∉ handled_right ∧ is_new by_base base_hashes ir.2 = true) (imap pair (tl_right lists)))).

(** [try_reconcile]. *)
Definition try_reconcile (nodes : ThreeWayNodes) : outcome () (option text) :=
  if kind_in ["struct_item"; "impl_item"; "enum_item"; "trait_item"] (nd_base nodes) then
    match bodies nodes with
    | None => Ok None
    | Some bs =>
        merged_children ← reconcile_children
          (mkLists (get_meaningful (nd_base bs)) (get_meaningful (nd_left bs)) (get_meaningful (nd_right bs)));
        Some <$> reconstruct_body left_tree (nd_left nodes) (nd_left bs) (nd_base nodes) merged_children
    end
  else Ok None.

End children.

(** [reconcile_single]. *)
Fixpoint reconcile_single (fuel : nat) (nodes : ThreeWayNodes) : outcome () text :=
  let left_text := node_text left_tree (nd_left nodes) in
  let right_text := node_text right_tree (nd_right nodes) in
  let base_hash := compute base_tree (nd_base nodes) in
  let left_hash := compute left_tree (nd_left nodes) in
  let right_hash := compute right_tree (nd_right nodes) in
  if decide (left_hash = right_hash) then Ok left_text
  else if decide (left_hash = base_hash) then Ok right_text
  else if decide (right_hash = base_hash) then Ok left_text
  else
    merged ←
      (if kind_in ["struct_item"; "impl_item"; "enum_item"; "trait_item"] (nd_base nodes) then
         match fuel with
         | O => Panic
         | S fuel => try_reconcile (reconcile_single fuel) nodes
         end
       else Ok None);
    match merged with
    | Some merged => Ok merged
    | None =>
        merged ←
          (if kind_in ["function_item"] (nd_base nodes) then try_reconcile_function trees nodes else Ok None);
        Ok (default (conflict_text left_text (node_text base_tree (nd_base nodes)) right_text) merged)
    end.

(** The calls nest no deeper than the base's tree. *)
Definition merge_single (nodes : ThreeWayNodes) : outcome () text := reconcile_single (node_height (nd_base nodes)) nodes.

(** * Top-level items *)

(** [left::reconcile_named]. *)
Definition reconcile_named (by_base by_right : gmap text IndexedNode) (name : text) (left_item : Node)
    (handled_right : gset nat) : outcome () (Resolved * gset nat) :=
  let left_text := node_text left_tree left_item in
  let left_kind := kind left_item in
  match by_base !! name, by_right !! name with
  | Some base_entry, Some right_entry =>
      merged ← merge_single (mkNodes (in_node base_entry) left_item (in_node right_entry));
      Ok (mkResolved merged left_kind (Some (in_index base_entry)) None, {[in_index right_entry]} ∪ handled_right)
  | Some base_entry, None => Ok (mkResolved left_text left_kind (Some (in_index base_entry)) None, handled_right)
  | None, Some right_entry => Ok (mkResolved left_text left_kind None None, {[in_index right_entry]} ∪ handled_right)
  | None, None => Ok (mkResolved left_text left_kind None None, handled_right)
  end.

(** [left::reconcile_unnamed]. *)
Definition reconcile_unnamed (right_items : list Node) (base_hashes : gmap N nat) (left_hash : N) (left_item : Node)
    (handled_right : gset nat) : Resolved * gset nat :=
  let left_text := node_text left_tree left_item in
  let left_kind := kind left_item in
  match find_right right_items handled_right (λ r, bool_decide (compute right_tree r = left_hash)) with
  | Some (right_idx, _) =>
      (mkResolved left_text left_kind (base_hashes !! left_hash) None, {[right_idx]} ∪ handled_right)
  | None =>
      match base_hashes !! left_hash with
      | None => (mkResolved left_text left_kind None None, handled_right)
      | Some base_idx =>
          let unchanged := (mkResolved left_text left_kind (Some base_idx) None, handled_right) in
          match find_right right_items handled_right (λ r,
            bool_decide (kind r = kind left_item) && bool_decide (get_name right_tree r = None)) with
          | None => unchanged
          | Some (right_idx, right_item) =>
              if decide (is_Some (base_hashes !! compute right_tree right_item)) then unchanged
              else (mkResolved (node_text right_tree right_item) left_kind (Some base_idx) None, {[right_idx]} ∪ handled_right)
          end
      end
  end.

(** The loop body of [reconcile_all], and the function. *)
Definition item_step (right_items : list Node) (by_base by_right : gmap text IndexedNode) (base_hashes : gmap N nat)
    (st : list Resolved * gset nat) (left_item : Node) : outcome () (list Resolved * gset nat) :=
  let '(merged_items, handled_right) := st in
  '(item, handled_right) ←
    match get_name left_tree left_item with
    | Some name => reconcile_named by_base by_right name left_item handled_right
    | None => Ok (reconcile_unnamed right_items base_hashes (compute left_tree left_item) left_item handled_right)
    end;
  Ok (merged_items ++ [item], handled_right).

Definition reconcile_all (lists : ThreeWayLists) (by_base by_right : gmap text IndexedNode) (base_hashes : gmap N nat) :
    outcome () (list Resolved * gset nat) :=
  foldM (item_step (tl_right lists) by_base by_right base_hashes) ([], ∅) (tl_left lists).

(** [build_right_to_base_map]. *)
Definition build_right_to_base_map (right_items : list Node) (by_base : gmap text IndexedNode) (base_hashes : gmap N nat) :
    gmap nat nat :=
  foldl (λ right_to_base '(right_idx, right_item),
    let base_idx :=
      match get_name right_tree right_item with
      | None => base_hashes !! compute right_tree right_item
      | Some name => in_index <$> by_base !! name
      end in
    match base_idx with Some b => <[right_idx := b]> right_to_base | None => right_to_base end) ∅ (imap pair right_items).

(** [(0..idx).rev().find_map(..)]. *)
Fixpoint last_before (right_to_base : gmap nat nat) (idx : nat) : option nat :=
  match idx with
  | O => None
  | S prev => match right_to_base !! prev with Some b => Some b | None => last_before right_to_base prev end
  end.

(** [collect_new]. *)
Definition collect_new (right_items : list Node) (handled_right : gset nat) (by_base : gmap text IndexedNode)
    (base_hashes : gmap N nat) (right_to_base : gmap nat nat) : list Resolved :=
  (λ ir, mkResolved (node_text right_tree ir.2) (kind ir.2) None (last_before right_to_base ir.1)) <$>
    filter (λ ir, ir.1 ∉ handled_right ∧ is_new by_base base_hashes ir.2 = true) (imap pair right_items).

(** The place where [insert_new] puts an item. *)
Definition insert_pos (merged_items : list Resolved) (new_item : Resolved) : nat :=
  match right_predecessor_base_idx new_item with
  | None => default 0 (fst <$> list_find (λ m, rv_kind m ≠ rv_kind new_item) merged_items)
  | Some pred_base_idx =>
      match list_find (λ m, base_index m = Some pred_base_idx) merged_items with
      | Some (p, _) => p + 1
      | None => length merged_items
      end
  end.

(** [insert_new]. *)
Definition insert_new (merged_items new_right_items : list Resolved) : list Resolved :=
  foldl (λ merged_items new_item,
    let p := insert_pos merged_items new_item in
    take p merged_items ++ new_item :: drop p merged_items) merged_items new_right_items.

(** [items::reconcile_lists]: the items, and their text. *)
Definition reconcile_items (lists : ThreeWayLists) : outcome () (list Resolved) :=
  let by_base := build_name_map base_tree (tl_base lists) in
  let by_right := build_name_map right_tree (tl_right lists) in
  let base_hashes := build_hash_map base_tree (tl_base lists) in
  let right_to_base := build_right_to_base_map (tl_right lists) by_base base_hashes in
  '(merged_items, handled_right) ← reconcile_all lists by_base by_right base_hashes;
  Ok (insert_new merged_items (collect_new (tl_right lists) handled_right by_base base_hashes right_to_base)).

Definition reconcile_lists (lists : ThreeWayLists) : outcome () text :=
  merged_items ← reconcile_items lists;
  Ok (concat ((λ item, rv_text item ++ [newline]) <$> merged_items)).

End merge.
