(* ===== verification/AstItemsProps.v ===== *)
(** The merge of lists of items never panics on trees that the parser makes, and
    resolves what only one side changed to that change; items of the left stay,
    in their order, and new items of the right are added once. *)

From stdpp Require Import base gmap sets list strings.
From Stdlib Require Import Ascii.
From S2P Require Import Prelude Chars AstLines AstLinesProps AstTree AstMatch AstMatchProps AstItems.
Local Open Scope nat_scope.

(** * Trees of a parser *)

(** A node spans a part of the text, between two chars, and its children lie
    within. *)
Record node_ok (tree : Tree) (n : Node) : Prop := {
  ok_span : ∃ pre mid post, source tree = pre ++ mid ++ post ∧ blen pre = start_byte n ∧ blen (pre ++ mid) = end_byte n;
  ok_children : Forall (λ c, start_byte n ≤ start_byte c ∧ end_byte c ≤ end_byte n) (children n);
}.

Definition well_formed (tree : Tree) : Prop := Forall (node_ok tree) (collect_nodes (root_node tree)).

Lemma node_text_span tree n pre mid post : source tree = pre ++ mid ++ post → blen pre = start_byte n →
  blen (pre ++ mid) = end_byte n → node_text tree n = mid.
Proof.
  intros Hs Hb He. unfold node_text, get_range. rewrite Hs, app_assoc, <- He, split_at_app. cbn. rewrite <- Hb, split_at_app. done.
Qed.

(** The nodes below a node. *)
Definition below (n : Node) : list Node := concat (collect_nodes <$> children n).

Lemma collect_nodes_self n : n ∈ collect_nodes n.
Proof. rewrite collect_nodes_unfold. by left. Qed.

Lemma collect_nodes_child n c m : c ∈ children n → m ∈ collect_nodes c → m ∈ collect_nodes n.
Proof.
  intros Hc Hm. rewrite collect_nodes_unfold. right. apply elem_of_concat. exists (collect_nodes c).
  split; [by apply list_elem_of_fmap_2|done].
Qed.

Lemma collect_nodes_trans r n m : n ∈ collect_nodes r → m ∈ collect_nodes n → m ∈ collect_nodes r.
Proof.
  revert n m. induction r as [r IH] using Node_tree_ind. intros n m. rewrite (collect_nodes_unfold r).
  intros [->|Hn]%elem_of_cons Hm; [by rewrite <- collect_nodes_unfold|].
  apply elem_of_concat in Hn as (l & (c & -> & Hc)%list_elem_of_fmap & Hn). right. apply elem_of_concat.
  exists (collect_nodes c). split; [by apply list_elem_of_fmap_2|].
  exact (proj1 (Forall_forall _ _) IH c Hc n m Hn Hm).
Qed.

Lemma child_by_field_name_child n f c : child_by_field_name n f = Some c → c ∈ children n.
Proof.
  unfold child_by_field_name. intros ((i & [fo c']) & Hf & He)%fmap_Some. cbn in He. subst c'.
  apply list_find_Some in Hf as (Hl & _). apply list_elem_of_lookup_2, elem_of_zip_r in Hl. done.
Qed.

Lemma child_height n c : c ∈ children n → node_height c < node_height n.
Proof.
  intros Hc. destruct n as [k ki ex s e fs cs]. cbn [children] in Hc. cbn [node_height children].
  assert (∀ l m, c ∈ l → node_height c ≤ foldl max m (node_height <$> l)) as Hmax.
  { assert (∀ l m, m ≤ foldl max m (node_height <$> l)) as Hge.
    { induction l as [|x l IH]; intros m; cbn; [done|]. etrans; [|apply IH]. lia. }
    induction l as [|x l IH]; intros m; [by intros ?%not_elem_of_nil|]. intros [->|Hx]%elem_of_cons; cbn; [|by apply IH].
    etrans; [|apply Hge]. lia. }
  destruct cs as [|x cs]; [by apply not_elem_of_nil in Hc|]. pose proof (Hmax _ 0 Hc). lia.
Qed.

Lemma around_body_total tree n body : node_ok tree n → node_ok tree body → body ∈ children n →
  ∃ ps, around_body tree n body = Ok ps.
Proof.
  intros [(pre & mid & post & Hs & Hb & He) Hch] [(pre' & mid' & post' & Hs' & Hb' & He') _] Hin.
  pose proof (proj1 (Forall_forall _ _) Hch body Hin) as [Hle1 Hle2]. unfold around_body.
  rewrite (node_text_span tree n pre mid post) by done. rewrite Hs in Hs'.
  destruct (app_eq_blen _ _ _ _ Hs') as (x & -> & Hmid); [lia|].
  assert (blen (pre ++ x) ≤ blen ((pre ++ x) ++ mid')) as Hxx by (rewrite (blen_app (pre ++ x)); lia).
  rewrite <- app_assoc in He'. rewrite !blen_app in Hb'. rewrite !blen_app in He'. rewrite !blen_app in He. rewrite !blen_app in Hxx.
  rewrite !usub_Ok by lia. cbn [mbind outcome_bind].
  rewrite app_assoc in Hmid. assert ((pre ++ x ++ mid') ++ post' = (pre ++ mid) ++ post) as Hsplit.
  { rewrite <- !app_assoc, Hs', <- !app_assoc. done. }
  destruct (app_eq_blen _ _ _ _ Hsplit) as (y & Hy & _); [rewrite !blen_app; lia|].
  rewrite <- !app_assoc in Hy. apply app_inv_head in Hy. subst mid.
  unfold slice_to, slice_from. replace (start_byte body - start_byte n) with (blen x) by lia. rewrite split_at_app.
  cbn [unwrap fmap outcome_fmap mbind outcome_bind fst].
  replace (end_byte body - start_byte n) with (blen (x ++ mid')) by (rewrite blen_app; lia). rewrite app_assoc, split_at_app.
  cbn. by eexists.
Qed.

(** * Totality *)

Section total.
Context `{Similar, Hasher} (trees : ThreeWayTrees).
Hypothesis left_ok : well_formed (tr_left trees).

Lemma left_node_ok n : n ∈ collect_nodes (root_node (tr_left trees)) → node_ok (tr_left trees) n.
Proof. apply (proj1 (Forall_forall _ _) left_ok). Qed.

Lemma build_name_map_spec tree items name e : build_name_map tree items !! name = Some e →
  items !! in_index e = Some (in_node e) ∧ get_name tree (in_node e) = Some name.
Proof.
  unfold build_name_map.
  assert (∀ l (m : gmap text IndexedNode), (∀ name e, m !! name = Some e → items !! in_index e = Some (in_node e) ∧ get_name tree (in_node e) = Some name) →
    (∀ i n, (i, n) ∈ l → items !! i = Some n) → ∀ name e, foldl (λ by_name '(idx, node),
      match get_name tree node with Some name => <[name := mkIndexed idx node]> by_name | None => by_name end) m l !! name = Some e →
    items !! in_index e = Some (in_node e) ∧ get_name tree (in_node e) = Some name) as Hgen.
  { clear. induction l as [|[i n] l IH]; intros m Hm Hl nm e; cbn; [apply Hm|]. apply IH; [|intros; apply Hl; by right].
    destruct (get_name tree n) as [n'|] eqn:Hn; [|done]. intros nm' e'.
    rewrite lookup_insert_Some. intros [[<- <-]|[_ ?]]; [|by apply Hm]. cbn. split; [apply Hl; by left|done]. }
  apply Hgen; [intros ??; by rewrite lookup_empty|]. intros i n. by rewrite elem_of_imap_pair.
Qed.

Lemma get_meaningful_children n c : c ∈ get_meaningful n → c ∈ children n.
Proof. by intros [_ ?]%list_elem_of_filter. Qed.

Lemma bodies_spec nodes bs : bodies nodes = Some bs →
  nd_base bs ∈ children (nd_base nodes) ∧ nd_left bs ∈ children (nd_left nodes) ∧ nd_right bs ∈ children (nd_right nodes).
Proof.
  unfold bodies. intros Hb. repeat (apply bind_Some in Hb as (? & ? & Hb)). injection Hb as <-. cbn.
  split; [|split]; by eapply child_by_field_name_child.
Qed.

Lemma reconcile_children_total rs lists :
  (∀ nodes, nd_left nodes ∈ tl_left lists → nd_base nodes ∈ tl_base lists → ∃ t, rs nodes = Ok t) →
  ∃ ts, reconcile_children trees rs lists = Ok ts.
Proof.
  intros Hrs. unfold reconcile_children. set (by_base := build_name_map _ _). set (by_right := build_name_map _ _).
  destruct (foldM_total (λ _ _, True) (child_step trees rs by_base by_right (tl_right lists)) (tl_left lists) ([], ∅))
    as ([merged handled] & -> & _); [done| |by eexists].
  intros pre c post [merged handled] Hl _. unfold child_step. destruct (get_name (tr_left trees) c) as [name|]; [|by eexists].
  unfold child_named. destruct (by_base !! name) as [be|] eqn:Hbe, (by_right !! name) as [re|]; [|by eexists..].
  repeat (case_decide; [by eexists|]). apply build_name_map_spec in Hbe as [Hbe _].
  destruct (Hrs (mkNodes (in_node be) c (in_node re))) as (t & ->); [cbn; rewrite Hl; set_solver|by eapply list_elem_of_lookup_2|].
  by eexists.
Qed.

Lemma reconcile_single_total fuel nodes : node_height (nd_base nodes) ≤ fuel →
  nd_left nodes ∈ collect_nodes (root_node (tr_left trees)) → ∃ t, reconcile_single trees fuel nodes = Ok t.
Proof.
  revert nodes. induction fuel as [|fuel IH]; intros nodes Hh Hl.
  { destruct (nd_base nodes) as [k ki ex s e fs cs]. cbn [node_height children] in Hh. destruct cs; lia. }
  cbn [reconcile_single]. repeat (case_decide; [by eexists|]).
  assert (∃ m, (if kind_in ["struct_item"; "impl_item"; "enum_item"; "trait_item"] (nd_base nodes)
    then try_reconcile trees (reconcile_single trees fuel) nodes else Ok None) = Ok m) as (m & ->).
  { destruct (kind_in _ _) eqn:Hk; [|by eexists]. unfold try_reconcile. rewrite Hk.
    destruct (bodies nodes) as [bs|] eqn:Hbs; [|by eexists]. apply bodies_spec in Hbs as (HB & HL & HR).
    destruct (reconcile_children_total (reconcile_single trees fuel)
      (mkLists (get_meaningful (nd_base bs)) (get_meaningful (nd_left bs)) (get_meaningful (nd_right bs)))) as (ts & ->).
    - intros [b l r]. cbn. intros Hl'%get_meaningful_children Hb'%get_meaningful_children. apply IH; cbn.
      + pose proof (child_height _ _ Hb'). pose proof (child_height _ _ HB). lia.
      + eapply collect_nodes_trans; [exact Hl|]. eapply collect_nodes_child; [exact HL|].
        eapply collect_nodes_child; [exact Hl'|]. apply collect_nodes_self.
    - cbn [mbind outcome_bind]. unfold reconstruct_body.
      destruct (around_body_total (tr_left trees) (nd_left nodes) (nd_left bs)) as ([p s] & ->); [by apply left_node_ok| |done|].
      + apply left_node_ok. eapply collect_nodes_trans; [exact Hl|]. eapply collect_nodes_child; [exact HL|apply collect_nodes_self].
      + cbn. destruct (starts_with _ _); by eexists. }
  cbn [mbind outcome_bind]. destruct m as [m|]; [by eexists|]. destruct (kind_in _ _); [|by eexists].
  unfold try_reconcile_function. destruct (bodies nodes) as [bs|] eqn:Hbs; [|by eexists].
  destruct (has_conflict _); [by eexists|]. apply bodies_spec in Hbs as (_ & HL & _).
  destruct (around_body_total (tr_left trees) (nd_left nodes) (nd_left bs)) as ([p s] & ->); [by apply left_node_ok| |done|by eexists].
  apply left_node_ok. eapply collect_nodes_trans; [exact Hl|]. eapply collect_nodes_child; [exact HL|apply collect_nodes_self].
Qed.

End total.

(** * What becomes of items *)

(** The lists are top-level items of their trees. *)
Definition lists_of (trees : ThreeWayTrees) (lists : ThreeWayLists) : Prop :=
  Forall (λ n, n ∈ collect_nodes (root_node (tr_left trees))) (tl_left lists).

Section items.
Context `{Similar, Hasher} (trees : ThreeWayTrees) (lists : ThreeWayLists).

Abbreviation by_base := (build_name_map (tr_base trees) (tl_base lists)).
Abbreviation by_right := (build_name_map (tr_right trees) (tl_right lists)).
Abbreviation base_hashes := (build_hash_map (tr_base trees) (tl_base lists)).
Abbreviation left_hash li := (compute (tr_left trees) li).
Abbreviation right_hash ri := (compute (tr_right trees) ri).
Abbreviation base_hash bi := (compute (tr_base trees) bi).

(** Three versions of an item are merged by their hashes where two agree. *)
Definition three_way (nodes : ThreeWayNodes) (t : text) : Prop :=
  merge_single trees nodes = Ok t ∧
  (left_hash (nd_left nodes) = right_hash (nd_right nodes) ∨ right_hash (nd_right nodes) = base_hash (nd_base nodes) →
    t = node_text (tr_left trees) (nd_left nodes)) ∧
  (left_hash (nd_left nodes) = base_hash (nd_base nodes) → left_hash (nd_left nodes) ≠ right_hash (nd_right nodes) →
    t = node_text (tr_right trees) (nd_right nodes)).

Lemma merge_single_three_way nodes t : merge_single trees nodes = Ok t → three_way nodes t.
Proof.
  intros Ht. split; [done|]. unfold merge_single in Ht. revert Ht.
  destruct (node_height _); cbn [reconcile_single]; repeat case_decide; intros Ht; split; try by (intros; congruence).
  all: try by (injection Ht as <-). all: intros [?|?]; congruence.
Qed.

(** What a left item becomes: a named item that base and right also have is
    merged with them; one that base does not know, or right no longer has, stays;
    and so does an unnamed one, unless the base has it and right has an unnamed
    item of its kind, unknown to the base, in its place. *)
Definition becomes (li : Node) (r : Resolved) : Prop :=
  rv_kind r = kind li ∧
  match get_name (tr_left trees) li with
  | Some name =>
      match by_base !! name, by_right !! name with
      | Some b, Some e => three_way (mkNodes (in_node b) li (in_node e)) (rv_text r)
      | _, _ => rv_text r = node_text (tr_left trees) li
      end
  | None =>
      rv_text r = node_text (tr_left trees) li ∨
      is_Some (base_hashes !! left_hash li) ∧ ∃ ri, ri ∈ tl_right lists ∧ kind ri = kind li ∧
        get_name (tr_right trees) ri = None ∧ base_hashes !! right_hash ri = None ∧
        rv_text r = node_text (tr_right trees) ri
  end.

(** Why a right item was handled: a left item has its name or its hash, or its
    text was taken over. *)
Definition accounted (lefts : list Node) (merged : list Resolved) (ri : Node) : Prop :=
  (∃ li name, li ∈ lefts ∧ get_name (tr_left trees) li = Some name ∧ get_name (tr_right trees) ri = Some name) ∨
  (∃ li, li ∈ lefts ∧ get_name (tr_left trees) li = None ∧ left_hash li = right_hash ri) ∨
  (∃ r, r ∈ merged ∧ rv_text r = node_text (tr_right trees) ri).

Lemma find_right_Some handled p i ri : find_right (tl_right lists) handled p = Some (i, ri) →
  tl_right lists !! i = Some ri ∧ i ∉ handled ∧ p ri = true.
Proof.
  unfold find_right. intros ((k & [i' ri']) & Hf & [= <- <-])%fmap_Some.
  apply list_find_Some in Hf as (Hl & [Hh Hp] & _). cbn in *. apply list_elem_of_lookup_2, elem_of_imap_pair in Hl. done.
Qed.

Lemma reconcile_all_spec merged handled : reconcile_all trees lists by_base by_right base_hashes = Ok (merged, handled) →
  Forall2 becomes (tl_left lists) merged ∧
  (∀ i, i ∈ handled → ∃ ri, tl_right lists !! i = Some ri ∧ accounted (tl_left lists) merged ri).
Proof.
  unfold reconcile_all. intros Hall.
  apply (foldM_inv (λ pre '(merged, handled), Forall2 becomes pre merged ∧
    ∀ i, i ∈ handled → ∃ ri, tl_right lists !! i = Some ri ∧ accounted pre merged ri)) in Hall; [done|by split; [constructor|set_solver]|].
  clear. intros pre li post [merged handled] [merged' handled'] _ [HF Hacc] Hstep.
  assert (∀ r, ∀ ri, accounted pre merged ri → accounted (pre ++ [li]) (merged ++ [r]) ri) as Hmono.
  { intros r ri [(li' & nm & ? & ?)|[(li' & ? & ?)|(r' & ? & ?)]]; [left; exists li', nm|right; left; exists li'|right; right; exists r'];
      (split; [set_solver|done]). }
  assert (∀ r (i : option nat), becomes li r → (∀ j, i = Some j → ∃ ri, tl_right lists !! j = Some ri ∧ accounted (pre ++ [li]) (merged ++ [r]) ri) →
    Forall2 becomes (pre ++ [li]) (merged ++ [r]) ∧
    ∀ j, j ∈ (match i with Some i => {[i]} ∪ handled | None => handled end) →
      ∃ ri, tl_right lists !! j = Some ri ∧ accounted (pre ++ [li]) (merged ++ [r]) ri) as Hcons.
  { intros r i Hr Hi. split; [by apply Forall2_app; [|constructor]|]. intros j Hj.
    destruct i as [i|]; [apply elem_of_union in Hj as [->%elem_of_singleton|Hj]; [by apply Hi|]|];
      destruct (Hacc j Hj) as (ri & ? & ?); eauto. }
  unfold item_step in Hstep. destruct (get_name (tr_left trees) li) as [name|] eqn:Hname.
  - unfold reconcile_named in Hstep. assert (∀ e r, by_right !! name = Some e → ∀ j, Some (in_index e) = Some j →
      ∃ ri, tl_right lists !! j = Some ri ∧ accounted (pre ++ [li]) (merged ++ [r]) ri) as Hright.
    { intros e r He j [= <-]. apply build_name_map_spec in He as [He Hn]. exists (in_node e). split; [done|].
      left. exists li, name. split; [set_solver|done]. }
    destruct (by_base !! name) as [b|] eqn:Hb, (by_right !! name) as [e|] eqn:He.
    + destruct (merge_single _ _) as [t| |] eqn:Ht; cbn [mbind outcome_bind] in Hstep; [|done|done]. injection Hstep as <- <-.
      apply (Hcons _ (Some (in_index e))); [|by apply Hright]. split; [done|]. rewrite Hname, Hb, He. by apply merge_single_three_way.
    + injection Hstep as <- <-. apply (Hcons _ None); [|done]. split; [done|]. by rewrite Hname, Hb, He.
    + injection Hstep as <- <-. apply (Hcons _ (Some (in_index e))); [|by apply Hright]. split; [done|]. by rewrite Hname, Hb.
    + injection Hstep as <- <-. apply (Hcons _ None); [|done]. split; [done|]. by rewrite Hname, Hb.
  - cbn [mbind outcome_bind] in Hstep. unfold reconcile_unnamed in Hstep.
    destruct (find_right _ _ _) as [[i ri]|] eqn:Hf.
    { apply Ok_inj in Hstep. injection Hstep as <- <-. apply find_right_Some in Hf as (Hi & _ & Hh%bool_decide_eq_true).
      apply (Hcons _ (Some i)); [split; [done|]; rewrite Hname; by left|]. intros j [= <-]. exists ri. split; [done|].
      right; left. exists li. split; [set_solver|]. split; [done|congruence]. }
    destruct (base_hashes !! left_hash li) as [bi|] eqn:Hbi.
    2: { apply Ok_inj in Hstep. injection Hstep as <- <-. apply (Hcons _ None); [|done]. split; [done|]. rewrite Hname. by left. }
    destruct (find_right (tl_right lists) handled (λ r, bool_decide (kind r = kind li) && _)) as [[i ri]|] eqn:Hf2.
    2: { apply Ok_inj in Hstep. injection Hstep as <- <-. apply (Hcons _ None); [|done]. split; [done|]. rewrite Hname. by left. }
    apply find_right_Some in Hf2 as (Hi & _ & [Hk%bool_decide_eq_true Hn%bool_decide_eq_true]%andb_true_iff).
    case_decide as Hbr; apply Ok_inj in Hstep; injection Hstep as <- <-.
    + apply (Hcons _ None); [|done]. split; [done|]. rewrite Hname. by left.
    + apply (Hcons _ (Some i)).
      * split; [done|]. rewrite Hname. right. split; [by rewrite Hbi|]. exists ri. split; [by eapply list_elem_of_lookup_2|].
        split; [done|]. split; [done|]. split; [by apply eq_None_not_Some|done].
      * intros j [= <-]. exists ri. split; [done|]. right; right. eexists. split; [apply elem_of_app; right; by left|done].
Qed.

(** New items are put between the others. *)
Lemma insert_new_spec merged news :
  sublist merged (insert_new merged news) ∧ insert_new merged news ≡ₚ merged ++ news.
Proof.
  unfold insert_new. revert merged. induction news as [|x news IH]; intros merged; cbn [foldl].
  - rewrite app_nil_r. done.
  - set (p := insert_pos merged x). destruct (IH (take p merged ++ x :: drop p merged)) as [Hs Hp]. split.
    + etrans; [|exact Hs]. rewrite <- (take_drop p merged) at 1. apply sublist_app; [done|]. by apply sublist_cons.
    + rewrite Hp. rewrite <- (take_drop p merged) at 3. rewrite <- !app_assoc. cbn. apply Permutation_app_head, Permutation_middle.
Qed.

(** The right items that are added. *)
Definition added (r : Resolved) : Prop :=
  ∃ ri, ri ∈ tl_right lists ∧ is_new trees by_base base_hashes ri = true ∧
    rv_text r = node_text (tr_right trees) ri ∧ rv_kind r = kind ri.

Lemma reconcile_items_spec items : reconcile_items trees lists = Ok items →
  ∃ merged news, Forall2 becomes (tl_left lists) merged ∧ Forall added news ∧
    sublist merged items ∧ items ≡ₚ merged ++ news ∧
    ∀ ri, ri ∈ tl_right lists → is_new trees by_base base_hashes ri = true → accounted (tl_left lists) items ri.
Proof.
  unfold reconcile_items. intros Hitems. destruct (reconcile_all _ _ _ _ _) as [[merged handled]| |] eqn:Hall; [|done..].
  cbn [mbind outcome_bind] in Hitems. apply Ok_inj in Hitems as <-. apply reconcile_all_spec in Hall as [HF Hacc].
  set (news := collect_new _ _ _ _ _ _). destruct (insert_new_spec merged news) as [Hs Hp].
  exists merged, news. split; [done|]. split; [|split; [done|split; [done|]]].
  - apply Forall_forall. intros r ([i ri] & -> & ([_ Hn] & Hin)%list_elem_of_filter)%list_elem_of_fmap.
    apply elem_of_imap_pair, list_elem_of_lookup_2 in Hin. by exists ri.
  - intros ri Hri Hnew. apply list_elem_of_lookup in Hri as (i & Hi). destruct (decide (i ∈ handled)) as [Hh|Hh].
    + destruct (Hacc i Hh) as (ri' & Hi' & Ha). rewrite Hi in Hi'. injection Hi' as <-.
      destruct Ha as [?|[?|(r & Hr & ?)]]; [by left|by right; left|right; right]. exists r. split; [|done]. rewrite Hp. set_solver.
    + right; right. exists (mkResolved (node_text (tr_right trees) ri) (kind ri) None
        (last_before (build_right_to_base_map trees (tl_right lists) by_base base_hashes) i)).
      split; [|done]. rewrite Hp. apply elem_of_app. right. unfold news, collect_new. apply list_elem_of_fmap.
      exists (i, ri). split; [done|]. apply list_elem_of_filter. split; [done|]. by apply elem_of_imap_pair.
Qed.

Lemma reconcile_items_total : well_formed (tr_left trees) → lists_of trees lists → ∃ items, reconcile_items trees lists = Ok items.
Proof.
  intros Hwf Hlists. unfold reconcile_items, reconcile_all.
  destruct (foldM_total (λ _ _, True) (item_step trees (tl_right lists) by_base by_right base_hashes) (tl_left lists) ([], ∅))
    as ([merged handled] & -> & _); [done| |by eexists].
  intros pre li post [merged handled] Hl _. unfold item_step. destruct (get_name (tr_left trees) li) as [name|].
  2: { cbn [mbind outcome_bind]. destruct (reconcile_unnamed _ _ _ _ _ _). by eexists. }
  unfold reconcile_named. destruct (by_base !! name) as [b|], (by_right !! name) as [e|]; [|by eexists..].
  destruct (reconcile_single_total trees Hwf (node_height (in_node b)) (mkNodes (in_node b) li (in_node e))) as (t & Ht).
  - done.
  - cbn. apply (proj1 (Forall_forall _ _) Hlists). rewrite Hl. set_solver.
  - unfold merge_single. cbn [nd_base]. rewrite Ht. by eexists.
Qed.

End items.
