(* ===== verification/AstMerge.v ===== *)
(** The languages of [packages/ast-merge/langs]: their profiles, and how the
    language of a file is found by its name, and by [--language]
    ([cli/src/merge.rs]).  The merge of three trees, [ThreeWay] of
    [packages/ast-merge/diff/src/engine.rs], and the choice between it and the
    line merge in [packages/ast-merge/cli/src/merge.rs]. *)

From stdpp Require Import base sets list strings gmap.
From Stdlib Require Import Ascii.
From S2P Require Import Prelude Chars AstLines AstTree AstMatch AstItems.
Local Open Scope nat_scope.

(** * Profiles *)

(** [Profile]. *)
Record Profile := mkProfile {
  name : string; extensions : list string; file_names : list string;
  atomic_nodes : list string; commutative_parents : list string; comment_nodes : list string }.

Module profiles.

(** ** [profiles/compiled.rs] *)

Definition RUST : Profile := mkProfile "Rust" ["rs"] []
  ["use_declaration"; "attribute_item"; "inner_attribute_item"]
  ["declaration_list"; "use_list"; "enum_variant_list"; "field_declaration_list"]
  ["line_comment"; "block_comment"].
Definition C : Profile := mkProfile "C" ["c"; "h"] []
  ["preproc_include"; "preproc_def"; "preproc_ifdef"; "preproc_ifndef"; "preproc_if"]
  ["field_declaration_list"; "enumerator_list"; "declaration_list"]
  ["comment"].
Definition CPP : Profile := mkProfile "C++" ["cpp"; "cc"; "cxx"; "hpp"; "hh"; "hxx"; "h++"; "c++"] []
  ["preproc_include"; "preproc_def"; "using_declaration"; "namespace_definition"; "template_declaration"]
  ["field_declaration_list"; "enumerator_list"; "declaration_list"; "base_class_clause"]
  ["comment"].
Definition CSHARP : Profile := mkProfile "C#" ["cs"] []
  ["using_directive"; "namespace_declaration"; "attribute"; "attribute_list"]
  ["class_declaration"; "interface_declaration"; "struct_declaration"; "enum_declaration"; "declaration_list"]
  ["comment"; "multiline_comment"].
Definition SWIFT : Profile := mkProfile "Swift" ["swift"] []
  ["import_declaration"; "attribute"]
  ["class_body"; "struct_body"; "protocol_body"; "enum_body"; "extension_body"]
  ["comment"; "multiline_comment"].
Definition GO : Profile := mkProfile "Go" ["go"] []
  ["import_declaration"; "import_spec"]
  ["import_spec_list"; "field_declaration_list"; "interface_type"; "struct_type"]
  ["comment"].

(** ** [profiles/config.rs] *)

Definition JSON : Profile := mkProfile "JSON" ["json"; "jsonc"] ["package.json"; "tsconfig.json"; "composer.json"]
  []
  ["object"]
  [].
Definition TOML : Profile := mkProfile "TOML" ["toml"] ["Cargo.toml"; "pyproject.toml"]
  []
  ["table"; "inline_table"]
  ["comment"].
Definition YAML : Profile := mkProfile "YAML" ["yaml"; "yml"] []
  []
  ["block_mapping"; "flow_mapping"]
  ["comment"].
Definition MARKDOWN : Profile := mkProfile "Markdown"
  ["md"; "markdown"; "mdown"; "mkd"] ["README.md"; "CHANGELOG.md"; "CONTRIBUTING.md"]
  ["code_block"; "fenced_code_block"; "html_block"]
  []
  [].
Definition DOCKERFILE : Profile := mkProfile "Dockerfile" [] ["Dockerfile"; "Containerfile"]
  ["comment_line"]
  []
  ["comment_line"].
Definition NIX : Profile := mkProfile "Nix" ["nix"] ["flake.nix"; "default.nix"; "shell.nix"]
  ["inherit"; "inherit_from"]
  ["attrset_expression"; "formals"]
  ["comment"].

(** ** [profiles/functional.rs] *)

Definition HASKELL : Profile := mkProfile "Haskell" ["hs"; "lhs"] []
  ["import"; "pragma"; "module"]
  ["class_body"; "instance_body"; "data_constructors"; "record_body"]
  ["comment"; "haddock"].
Definition ELIXIR : Profile := mkProfile "Elixir" ["ex"; "exs"] ["mix.exs"]
  ["alias"; "import"; "use"; "require"]
  ["map"; "keyword_list"; "do_block"]
  ["comment"].
Definition OCAML : Profile := mkProfile "OCaml" ["ml"; "mli"] []
  ["open_statement"; "include_statement"]
  ["record_expression"; "record_declaration"; "object_expression"]
  ["comment"].

(** ** [profiles/jvm.rs] *)

Definition JAVA : Profile := mkProfile "Java" ["java"] []
  ["import_declaration"; "package_declaration"; "annotation"]
  ["class_body"; "interface_body"; "enum_body"; "annotation_type_body"; "module_body"]
  ["line_comment"; "block_comment"].
Definition KOTLIN : Profile := mkProfile "Kotlin" ["kt"; "kts"] []
  ["import_header"; "package_header"; "annotation"]
  ["class_body"; "enum_class_body"; "object_literal"; "when_expression"]
  ["line_comment"; "multiline_comment"].
Definition SCALA : Profile := mkProfile "Scala" ["scala"; "sc"] []
  ["import_declaration"; "package_clause"; "annotation"]
  ["template_body"; "block"; "case_block"]
  ["comment"; "block_comment"].

(** ** [profiles/scripting.rs] *)

Definition PYTHON : Profile := mkProfile "Python" ["py"; "pyi"; "bzl"; "bazel"] ["BUILD"; "BUILD.bazel"]
  ["import_statement"; "import_from_statement"; "future_import_statement"]
  ["dictionary"; "set"; "argument_list"; "decorated_definition"]
  ["comment"].
Definition RUBY : Profile := mkProfile "Ruby"
  ["rb"; "rake"; "gemspec"] ["Rakefile"; "Gemfile"; "Guardfile"; "Capfile"]
  ["require"; "require_relative"]
  ["hash"; "class"; "module"; "block"]
  ["comment"].
Definition PHP : Profile := mkProfile "PHP" ["php"; "phtml"; "php3"; "php4"; "php5"; "php7"; "phps"] []
  ["namespace_use_declaration"; "namespace_definition"]
  ["declaration_list"; "class_declaration"; "interface_declaration"; "trait_declaration";
    "array_creation_expression"]
  ["comment"].
Definition BASH : Profile := mkProfile "Bash"
  ["sh"; "bash"; "zsh"] [".bashrc"; ".bash_profile"; ".zshrc"; ".profile"]
  ["command"]
  ["case_statement"]
  ["comment"].
Definition LUA : Profile := mkProfile "Lua" ["lua"] []
  ["require_call"]
  ["table_constructor"; "field_list"]
  ["comment"].

(** ** [profiles/web.rs] *)

Definition JAVASCRIPT : Profile := mkProfile "JavaScript" ["js"; "mjs"; "cjs"; "jsx"] []
  ["import_statement"; "export_statement"]
  ["object"; "named_imports"; "export_clause"; "class_body"]
  ["comment"].
Definition TYPESCRIPT : Profile := mkProfile "TypeScript" ["ts"; "mts"; "cts"] []
  ["import_statement"; "export_statement"; "type_alias_declaration"; "interface_declaration"]
  ["object"; "object_type"; "named_imports"; "export_clause"; "class_body"; "interface_body"; "enum_body"]
  ["comment"].
Definition TSX : Profile := mkProfile "TypeScript TSX" ["tsx"] []
  ["import_statement"; "export_statement"; "type_alias_declaration"; "interface_declaration"]
  ["object"; "object_type"; "named_imports"; "export_clause"; "class_body"; "interface_body"; "enum_body"]
  ["comment"].
Definition HTML : Profile := mkProfile "HTML" ["html"; "htm"; "xhtml"] ["index.html"]
  ["script_element"; "style_element"; "doctype"]
  ["start_tag"]
  ["comment"].
Definition CSS : Profile := mkProfile "CSS" ["css"] []
  ["import_statement"; "charset_statement"]
  ["declaration_list"; "keyframe_block"]
  ["comment"].
Definition SVELTE : Profile := mkProfile "Svelte" ["svelte"] []
  ["script_element"; "style_element"; "import_statement"; "export_statement"]
  ["object"; "start_tag"]
  ["comment"].

End profiles.

(** * Languages *)

Inductive Lang :=
| Rust | JavaScript | TypeScript | TypeScriptTsx | Python | Go | Java | Kotlin | Scala | C
| Cpp | CSharp | Swift | Ruby | Php | Bash | Lua | Haskell | Elixir | OCaml
| Html | Css | Svelte | Json | Toml | Yaml | Markdown | Dockerfile | Nix.

#[export] Instance Lang_eq_dec : EqDecision Lang.
Proof. solve_decision. Defined.

(** [profiles::get], [Lang::profile]. *)
Definition profile (lang : Lang) : Profile :=
  match lang with
  | Rust => profiles.RUST | C => profiles.C | Cpp => profiles.CPP | CSharp => profiles.CSHARP | Swift => profiles.SWIFT
  | Go => profiles.GO | Java => profiles.JAVA | Kotlin => profiles.KOTLIN | Scala => profiles.SCALA | JavaScript => profiles.JAVASCRIPT
  | TypeScript => profiles.TYPESCRIPT | TypeScriptTsx => profiles.TSX | Html => profiles.HTML | Css => profiles.CSS | Svelte => profiles.SVELTE
  | Python => profiles.PYTHON | Ruby => profiles.RUBY | Php => profiles.PHP | Bash => profiles.BASH | Lua => profiles.LUA
  | Haskell => profiles.HASKELL | Elixir => profiles.ELIXIR | OCaml => profiles.OCAML | Json => profiles.JSON | Toml => profiles.TOML
  | Yaml => profiles.YAML | Markdown => profiles.MARKDOWN | Dockerfile => profiles.DOCKERFILE | Nix => profiles.NIX
  end.

(** [Lang::all]. *)
Definition all : list Lang :=
  [Rust; JavaScript; TypeScript; TypeScriptTsx; Python; Go; Java; Kotlin; Scala; C; Cpp; CSharp; Swift; Ruby;
    Php; Bash; Lua; Haskell; Elixir; OCaml; Html; Css; Svelte; Json; Toml; Yaml; Markdown; Dockerfile; Nix].

Definition lang_name (lang : Lang) : string := name (profile lang).

(** [Profile::is_atomic], [is_commutative] and [is_comment]. *)
Definition is_one_of (names : list string) (t : text) : bool := bool_decide (t ∈ chars_of <$> names).
Definition is_atomic (p : Profile) (kind : text) : bool := is_one_of (atomic_nodes p) kind.
Definition is_commutative (p : Profile) (kind : text) : bool := is_one_of (commutative_parents p) kind.
Definition is_comment (p : Profile) (kind : text) : bool := is_one_of (comment_nodes p) kind.

(** * Detection *)

(** The components of a path between its slashes. *)
Fixpoint components (cur path : text) : list text :=
  match path with
  | [] => [cur]
  | c :: path => if decide (c = ch "/") then cur :: components [] path else components (cur ++ [c]) path
  end.

(** [Path::file_name]: the last component, unless it is the parent. *)
Definition file_name (path : text) : option text :=
  match last (filter (λ c, c ≠ [] ∧ c ≠ [ch "."]) (components [] path)) with
  | Some c => if decide (c = [ch "."; ch "."]) then None else Some c
  | None => None
  end.

(** What follows the last dot, if there is one. *)
Fixpoint after_dot (t : text) : option text :=
  match t with
  | [] => None
  | c :: t => match after_dot t with Some e => Some e | None => if decide (c = ch ".") then Some t else None end
  end.

(** [Path::extension]: what follows the last dot that does not come first. *)
Definition extension (path : text) : option text :=
  name ← file_name path;
  match name with [] => None | _ :: rest => after_dot rest end.

(** The first language with this property. *)
Definition first_lang (p : Profile → bool) : option Lang := snd <$> list_find (λ lang, p (profile lang) = true) all.

Definition by_file_name (name : text) : option Lang := first_lang (λ p, is_one_of (file_names p) name).
Definition by_extension (ext : text) : option Lang := first_lang (λ p, is_one_of (extensions p) ext).

(** [detect]. *)
Definition detect (path : text) : option Lang :=
  match file_name path ≫= by_file_name with
  | Some lang => Some lang
  | None => extension path ≫= by_extension
  end.

(** [detect_from_extension]. *)
Definition detect_from_extension (ext : text) : option Lang :=
  by_extension (default ext (strip_prefix [ch "."] ext)).

(** [str::to_lowercase]: ASCII letters as in ASCII. *)
Class Lowercase := to_lowercase : text → text.
Definition ascii_lower (c : char) : char := if in_range 65 90 c then (c + 32)%N else c.
Class LowercaseLaws `{!Lowercase} : Prop :=
  lowercase_ascii : ∀ t, Forall (λ c, (c < 128)%N) t → to_lowercase t = ascii_lower <$> t.

Section names.
Context `{Lowercase}.

(** [detect_by_name]. *)
Definition detect_by_name (name : text) : option Lang :=
  snd <$> list_find (λ lang, to_lowercase (chars_of (lang_name lang)) = to_lowercase name) all.

(** [resolve_language]: an error is a name that is unknown. *)
Definition resolve_language (language : option text) (left : text) : outcome () (option Lang) :=
  match language with
  | None => Ok (detect left)
  | Some name => Some <$> ok_or (detect_by_name name) ()
  end.

End names.

(** * Theorems *)

Lemma all_langs lang : lang ∈ all.
Proof. destruct lang; apply (bool_decide_unpack _); by vm_compute. Qed.

(** No name belongs to two languages. *)
Definition disjoint_on (f : Profile → list string) : bool :=
  forallb (λ l1, forallb (λ l2, bool_decide (l1 = l2) || forallb (λ x, negb (bool_decide (x ∈ f (profile l2)))) (f (profile l1))) all) all.

Lemma disjoint_on_spec f l1 l2 x : disjoint_on f = true → x ∈ f (profile l1) → x ∈ f (profile l2) → l1 = l2.
Proof.
  unfold disjoint_on. rewrite forallb_forall. intros Hd H1 H2.
  specialize (Hd l1 (proj1 (list_elem_of_In _ _) (all_langs l1))). rewrite forallb_forall in Hd.
  specialize (Hd l2 (proj1 (list_elem_of_In _ _) (all_langs l2))). apply orb_true_iff in Hd as [Hd|Hd]; [by apply bool_decide_eq_true in Hd|].
  rewrite forallb_forall in Hd. specialize (Hd x (proj1 (list_elem_of_In _ _) H1)).
  by apply negb_true_iff, bool_decide_eq_false in Hd.
Qed.

Lemma is_one_of_spec names t : is_one_of names t = true ↔ ∃ x, x ∈ names ∧ t = chars_of x.
Proof. unfold is_one_of. rewrite bool_decide_eq_true, list_elem_of_fmap. naive_solver. Qed.

(** The first is the only one. *)
Lemma first_lang_spec f t lang : disjoint_on f = true →
  first_lang (λ p, is_one_of (f p) t) = Some lang ↔ is_one_of (f (profile lang)) t = true.
Proof.
  intros Hd. unfold first_lang. split.
  - intros ((i & l) & (_ & Hp & _)%list_find_Some & [= <-])%fmap_Some. done.
  - intros Hp. destruct (list_find _ all) as [[i l]|] eqn:Hf; cbn.
    + apply list_find_Some in Hf as (_ & Hl & _). apply is_one_of_spec in Hp as (x & Hx & ->), Hl as (y & Hy & Hxy).
      apply (inj chars_of) in Hxy as <-. by rewrite (disjoint_on_spec f _ _ _ Hd Hx Hy).
    + apply list_find_None in Hf. pose proof (proj1 (Forall_forall _ _) Hf lang (all_langs lang)). done.
Qed.

Lemma by_file_name_spec t lang : by_file_name t = Some lang ↔ is_one_of (file_names (profile lang)) t = true.
Proof. apply first_lang_spec. by vm_compute. Qed.

Lemma by_extension_spec t lang : by_extension t = Some lang ↔ is_one_of (extensions (profile lang)) t = true.
Proof. apply first_lang_spec. by vm_compute. Qed.

(** The language of a file is that whose profile lists the name of the file,
    and if none does, that whose profile lists the extension; no two profiles
    list one name or one extension, so that the order in which languages are
    tried does not matter. Every language is found again by its own name, however
    it is capitalised in ASCII; and a name that no language has is an error. *)
Lemma detect_correct `{LowercaseLaws} path lang language :
  (detect path = Some lang ↔
    (∃ name, file_name path = Some name ∧ is_one_of (file_names (profile lang)) name = true) ∨
    (∀ name l, file_name path = Some name → is_one_of (file_names (profile l)) name = false) ∧
      ∃ ext, extension path = Some ext ∧ is_one_of (extensions (profile lang)) ext = true) ∧
  (Forall (λ c, (c < 128)%N) language → ascii_lower <$> language = ascii_lower <$> chars_of (lang_name lang) →
    resolve_language (Some language) path = Ok (Some lang)) ∧
  ((∀ l, to_lowercase (chars_of (lang_name l)) ≠ to_lowercase language) → resolve_language (Some language) path = Err ()).
Proof.
  split; [|split].
  - unfold detect. destruct (file_name path) as [name|] eqn:Hn; cbn [mbind option_bind].
    + destruct (by_file_name name) as [l|] eqn:Hf.
      * apply by_file_name_spec in Hf as Hl. split.
        -- intros [= <-]. left. by exists name.
        -- intros [(name' & [= <-] & Hl')|[Hno _]]; [|by rewrite (Hno name l) in Hl].
           apply by_file_name_spec in Hl'. congruence.
      * assert (∀ l, is_one_of (file_names (profile l)) name = false) as Hno.
        { intros l. apply not_true_iff_false. rewrite <- by_file_name_spec. congruence. }
        rewrite bind_Some. setoid_rewrite by_extension_spec. split.
        -- intros He. right. split; [|done]. by intros ? l [= <-].
        -- intros [(? & [= <-] & Hl)|[_ ?]]; [by rewrite Hno in Hl|done].
    + rewrite bind_Some. setoid_rewrite by_extension_spec. split; [intros He; right; done|]. by intros [(? & ? & _)|[_ ?]].
  - intros Ha Hl. unfold resolve_language, detect_by_name.
    assert (∀ l, Forall (λ c, (c < 128)%N) (chars_of (lang_name l))) as Hascii.
    { intros l. apply Forall_forall. intros c Hc. destruct l; vm_compute in Hc; repeat (apply elem_of_cons in Hc as [->|Hc]; [done|]); by apply not_elem_of_nil in Hc. }
    rewrite (lowercase_ascii language Ha). destruct (list_find _ all) as [[i l]|] eqn:Hf; cbn.
    + apply list_find_Some in Hf as (_ & Hp & _). cbn in Hp. rewrite lowercase_ascii, Hl in Hp by done. do 2 f_equal.
      revert Hp. clear. destruct l, lang; intros Hp; (reflexivity || by vm_compute in Hp).
    + apply list_find_None in Hf. pose proof (proj1 (Forall_forall _ _) Hf lang (all_langs lang)) as Hno. cbn in Hno.
      by rewrite lowercase_ascii, Hl in Hno by done.
  - intros Hno. unfold resolve_language, detect_by_name. rewrite (proj2 (list_find_None _ _)); [done|].
    apply Forall_forall. intros l _. apply Hno.
Qed.

#[export] Instance lower_ascii_only : Lowercase := fmap ascii_lower.
#[export] Instance lower_ascii_only_laws : LowercaseLaws.
Proof. done. Qed.

Example detect_correct_demo :
  detect (chars_of "src/build/Cargo.toml") = Some Toml ∧
  resolve_language (Some (chars_of "tYPEsCRIPT tsx")) (chars_of "x.rs") = Ok (Some TypeScriptTsx) ∧
  resolve_language (Some (chars_of "cobol")) (chars_of "x.rs") = Err ().
Proof.
  split; [|split].
  - apply (detect_correct (chars_of "src/build/Cargo.toml") Toml []). left. exists (chars_of "Cargo.toml"). by vm_compute.
  - apply (detect_correct (chars_of "x.rs") TypeScriptTsx (chars_of "tYPEsCRIPT tsx")); [|by vm_compute].
    repeat (apply Forall_cons; split; [by vm_compute|]). by apply Forall_nil.
  - apply (detect_correct (chars_of "x.rs") Rust (chars_of "cobol")). intros l. destruct l; by vm_compute.
Defined.

(** [get_top_level_items]. *)
Definition get_top_level_items (tree : Tree) : list Node :=
  filter (λ n, is_extra n = false) (children (root_node tree)).

Section merge.
Context `{MapOrder, Similar, Hasher}.

(** [ThreeWay::reconstruct_merged]. *)
Definition reconstruct_merged (trees : ThreeWayTrees) : outcome () text :=
  reconcile_lists trees
    (mkLists (get_top_level_items (tr_base trees)) (get_top_level_items (tr_left trees))
       (get_top_level_items (tr_right trees))).

(** [ThreeWay::merge]. *)
Definition merge (trees : ThreeWayTrees) (base_left_matching base_right_matching : Map) : outcome () MergeResult :=
  let class_mapping := build_class_mapping base_left_matching base_right_matching in
  let changeset := build_changeset trees in
  let conflicts := detect_conflicts changeset class_mapping in
  if bool_decide (conflicts = []) then
    content ← reconstruct_merged trees;
    Ok (result_success content)
  else based (source (tr_base trees)) (source (tr_left trees)) (source (tr_right trees)).

(** What the parser makes of a text: nothing, or a tree, and whether it has
    errors. *)
Record Output := mkOutput { out_root : Node; has_errors : bool }.

(** [tree_based], by the parser of the language; an error is that a text could
    not be parsed. *)
Definition tree_based (parse : text → option Output) (base left right : text) : outcome () MergeResult :=
  b ← ok_or (parse base) ();
  l ← ok_or (parse left) ();
  r ← ok_or (parse right) ();
  if has_errors b || has_errors l || has_errors r then based base left right
  else
    let trees := mkTrees (mkTree base (out_root b)) (mkTree left (out_root l)) (mkTree right (out_root r)) in
    merge trees (match_trees (tr_base trees) (tr_left trees)) (match_trees (tr_base trees) (tr_right trees)).

(** What [run] makes of three files that were read, given the parsers of
    tree-sitter: the language is the one that was named, or that of the left
    file. *)
Definition run `{Lowercase} (parse : Lang → text → option Output) (language : option text) (left_path : text)
    (base left right : text) : outcome () MergeResult :=
  lang ← resolve_language language left_path;
  match lang with
  | Some lang => tree_based (parse lang) base left right
  | None => based base left right
  end.

End merge.
