(* ===== verification/AstMergeProps.v ===== *)
(** The merge of three trees: where one side is the base, or both sides agree,
    there is no structural conflict, and the items of the left come out as they
    are; and in general it finishes, keeps the order of the left, and adds what
    is new on the right. *)

From stdpp Require Import base gmap sets list strings.
From Stdlib Require Import Ascii.
From S2P Require Import Prelude Chars AstLines AstLinesProps AstTree AstMatch AstMatchProps AstItems AstItemsProps AstMerge.
Local Open Scope nat_scope.

(** * Triples *)

Definition triples (tree : Tree) : list PcsTriple :=
  imap (triple_of (places (root_node tree))) (places (root_node tree)).

Lemma elem_of_triples tree t : t ∈ triples tree ↔
  ∃ id place, places (root_node tree) !! id = Some place ∧ t = triple_of (places (root_node tree)) id place.
Proof. unfold triples. rewrite elem_of_lookup_imap. naive_solver. Qed.

(** The position of a triple tells its successor. *)
Lemma triples_successor tree pos s1 s2 : (pos, s1) ∈ triples tree → (pos, s2) ∈ triples tree → s1 = s2.
Proof.
  intros (i & p & Hp & He1)%elem_of_triples (j & q & Hq & He2)%elem_of_triples. unfold triple_of in *.
  injection He1 as -> <-. injection He2 as Hpar Hpred <-.
  destruct (decide (pl_parent p = None)) as [Hnone|Hsome].
  - assert (∀ k x, places (root_node tree) !! k = Some x → pl_parent x = None → k = 0) as Hroot.
    { intros k x [[-> _]|(a & ? & ? & ? & Ha & _)]%places_from_parent Hx; [done|congruence]. }
    rewrite (Hroot _ _ Hp Hnone), (Hroot _ _ Hq ltac:(congruence)). done.
  - assert (pl_parent q ≠ None) as Hsome' by congruence.
    pose proof (find_predecessor_spec _ _ _ Hp Hsome) as Sp. pose proof (find_predecessor_spec _ _ _ Hq Hsome') as Sq.
    apply (places_index _ _ _ _ _ Hp Hq); [done|].
    destruct (pl_parent p), (pl_parent q); try done. rewrite <- Hpred in Sq.
    destruct (find_predecessor _ p) as [a|]; [|congruence].
    destruct Sp as (pa & Ha & _ & ->), Sq as (pa' & Ha' & _ & ->). congruence.
Qed.

Lemma extract_spec tree rev cs t r : r ∈ default ∅ (extract_pcs_triples tree rev cs !! t) ↔
  r ∈ default ∅ (cs !! t) ∨ r = rev ∧ t ∈ triples tree.
Proof.
  unfold extract_pcs_triples, triples. set (ps := places (root_node tree)).
  assert (∀ l (cs : ChangeSet), r ∈ default ∅ (foldl (λ changeset '(id, place), add changeset (triple_of ps id place) rev) cs l !! t) ↔
    r ∈ default ∅ (cs !! t) ∨ r = rev ∧ ∃ ip, ip ∈ l ∧ t = triple_of ps ip.1 ip.2) as Hgen.
  { clear cs. induction l as [|[id place] l IH]; intros cs; cbn [foldl]; [set_solver|].
    rewrite IH. unfold add. destruct (decide (t = triple_of ps id place)) as [->|Hne].
    - rewrite lookup_insert_eq. cbn. set_solver.
    - rewrite lookup_insert_ne by done. split; [|intros [?|(-> & [i p] & [[= -> ->]|Hin]%elem_of_cons & He)]]; [set_solver|by left|done|right; split; [done|]; by exists (i, p)]. }
  rewrite Hgen. split; (intros [?|[? Ht]]; [by left|right; split; [done|]]).
  - destruct Ht as ([i p] & Hin%elem_of_imap_pair & ->). apply elem_of_lookup_imap. by exists i, p.
  - apply elem_of_lookup_imap in Ht as (i & p & -> & Hi). exists (i, p). by rewrite elem_of_imap_pair.
Qed.

(** The revisions of a triple are those whose trees have it. *)
Lemma build_changeset_spec trees t r : r ∈ default ∅ (build_changeset trees !! t) ↔
  t ∈ triples (match r with Base => tr_base trees | Left => tr_left trees | Right => tr_right trees end).
Proof.
  unfold build_changeset. rewrite !extract_spec. unfold ChangeSet_new. rewrite lookup_empty. cbn. destruct r; set_solver.
Qed.

(** * Conflicts *)

Lemma some_conflict_pair m entries : some_conflict m entries = true →
  ∃ e1 e2, e1 ∈ entries ∧ e2 ∈ entries ∧ entries_conflict m e1 e2 = true.
Proof.
  induction entries as [|e entries IH]; cbn; [done|]. intros [He|He]%orb_true_iff.
  - apply existsb_exists in He as (e2 & Hin%list_elem_of_In & He). exists e, e2. set_solver.
  - destruct (IH He) as (e1 & e2 & ? & ? & ?). exists e1, e2. set_solver.
Qed.

Lemma detect_conflicts_pair `{MapOrderLaws} cs m : detect_conflicts cs m ≠ [] →
  ∃ pos e1 e2, cs !! (pos, successor e1) = Some (revisions e1) ∧ cs !! (pos, successor e2) = Some (revisions e2) ∧
    entries_conflict m e1 e2 = true.
Proof.
  unfold detect_conflicts. set (by_position := foldl _ ∅ _). destruct (existsb _ _) eqn:He; [|done]. intros _.
  apply existsb_exists in He as ([pos entries] & Hin%list_elem_of_In & Hc).
  rewrite (ordered_perm by_position) in Hin. apply elem_of_map_to_list in Hin.
  assert (∀ e, e ∈ entries → cs !! (pos, successor e) = Some (revisions e)) as Hentries.
  { intros e Hein. pose proof (foldl_push_spec (λ _ : PcsTriple * gset Revision, true) (λ x, x.1.1)
      (λ x, mkSuccessor x.1.2 x.2) (ordered cs) pos) as [Hf _].
    assert (by_position = foldl (λ m x, push_entry m x.1.1 (mkSuccessor x.1.2 x.2)) ∅ (ordered cs)) as Hb.
    { apply foldl_same. by intros ? [[? ?] ?]. }
    assert (default [] (by_position !! pos) = (λ x : PcsTriple * gset Revision, mkSuccessor x.1.2 x.2) <$>
      filter (λ x, true = true ∧ x.1.1 = pos) (ordered cs)) as Hf' by (rewrite Hb; exact Hf).
    rewrite Hin in Hf'. cbn in Hf'. rewrite Hf' in Hein.
    apply list_elem_of_fmap in Hein as ([[pos' s] rs] & -> & ([_ Hpos] & Hx)%list_elem_of_filter). cbn in *. subst pos'.
    rewrite (ordered_perm cs) in Hx. by apply elem_of_map_to_list in Hx. }
  apply some_conflict_pair in Hc as (e1 & e2 & H1 & H2 & Hc). exists pos, e1, e2. auto.
Qed.

(** Sides that agree, or one that is the base, do not conflict. *)
Lemma no_conflicts `{MapOrderLaws} trees m :
  tr_right trees = tr_base trees ∨ tr_left trees = tr_base trees ∨ tr_left trees = tr_right trees →
  detect_conflicts (build_changeset trees) m = [].
Proof.
  intros Hsame. destruct (decide (detect_conflicts (build_changeset trees) m = [])) as [|Hne]; [done|].
  apply detect_conflicts_pair in Hne as (pos & e1 & e2 & H1 & H2 & Hc). unfold entries_conflict in Hc.
  case_decide as Hs; [done|]. destruct (only_in Left e1 && only_in Right e2 || only_in Right e1 && only_in Left e2) eqn:Ho; [|done].
  assert (∀ r e, build_changeset trees !! (pos, successor e) = Some (revisions e) → only_in r e = true →
    (pos, successor e) ∈ triples (match r with Base => tr_base trees | Left => tr_left trees | Right => tr_right trees end) ∧
    (pos, successor e) ∉ triples (tr_base trees)) as Honly.
  { clear. intros r e He [Hr%bool_decide_eq_true Hb%negb_true_iff%bool_decide_eq_false]%andb_true_iff.
    pose proof (build_changeset_spec trees (pos, successor e)) as Hspec. rewrite He in Hspec. cbn in Hspec.
    split; [by apply (Hspec r)|]. intros Hin. apply Hb. by apply (Hspec Base). }
  apply orb_true_iff in Ho. destruct Ho as [[O1 O2]%andb_true_iff|[O1 O2]%andb_true_iff];
    destruct (Honly _ _ H1 O1) as [A1 B1], (Honly _ _ H2 O2) as [A2 B2]; cbn in A1, A2;
    destruct Hsame as [Hb|[Hb|Hb]]; rewrite ?Hb in *; try done; destruct Hs; by eapply triples_successor.
Qed.

(** * One side unchanged *)

Lemma build_name_map_has tree items node name : node ∈ items → get_name tree node = Some name →
  is_Some (build_name_map tree items !! name).
Proof.
  unfold build_name_map. intros Hin Hn. apply list_elem_of_lookup in Hin as (i & Hi). apply elem_of_imap_pair in Hi.
  revert Hi. generalize (imap pair items). intros l Hl.
  assert (∀ (m : gmap text IndexedNode), (i, node) ∈ l ∨ is_Some (m !! name) → is_Some (foldl (λ by_name '(idx, node),
    match get_name tree node with Some name => <[name := mkIndexed idx node]> by_name | None => by_name end) m l !! name)) as Hgen.
  { clear Hl. induction l as [|[j x] l IH]; intros m Hm; cbn; [destruct Hm as [Hm|]; [by apply not_elem_of_nil in Hm|done]|].
    apply IH. destruct Hm as [[[= <- <-]|?]%elem_of_cons|Hm]; [right; rewrite Hn, lookup_insert_eq; by eexists|by left|right].
    destruct (get_name tree x) as [n|]; [|done]. rewrite lookup_insert_is_Some'. by right. }
  apply Hgen. by left.
Qed.

Lemma build_hash_map_has `{Hasher} tree items node : node ∈ items → is_Some (build_hash_map tree items !! compute tree node).
Proof.
  unfold build_hash_map. intros Hin. apply list_elem_of_lookup in Hin as (i & Hi). apply elem_of_imap_pair in Hi.
  revert Hi. generalize (imap pair items). intros l Hl.
  assert (∀ (m : gmap N nat), (i, node) ∈ l ∨ is_Some (m !! compute tree node) →
    is_Some (foldl (λ by_hash '(idx, node), <[compute tree node := idx]> by_hash) m l !! compute tree node)) as Hgen.
  { clear Hl. induction l as [|[j x] l IH]; intros m Hm; cbn; [destruct Hm as [Hm|]; [by apply not_elem_of_nil in Hm|done]|].
    apply IH. rewrite lookup_insert_is_Some'. destruct Hm as [[[= <- <-]|?]%elem_of_cons|Hm]; [right; by left|by left|right; by right]. }
  apply Hgen. by left.
Qed.

(** No item of the base is taken for this item of the right: none has its name, if
    it has one; none has its hash, if it has no name. *)
Definition unknown_to_base `{Hasher} (trees : ThreeWayTrees) (base_items : list Node) (ri : Node) : Prop :=
  match get_name (tr_right trees) ri with
  | Some name => ∀ b, b ∈ base_items → get_name (tr_base trees) b ≠ Some name
  | None => ∀ b, b ∈ base_items → compute (tr_base trees) b ≠ compute (tr_right trees) ri
  end.

Lemma build_hash_map_keys `{Hasher} tree items h : is_Some (build_hash_map tree items !! h) → ∃ node, node ∈ items ∧ compute tree node = h.
Proof.
  unfold build_hash_map.
  assert (∀ l (m : gmap N nat), is_Some (foldl (λ by_hash '(idx, node), <[compute tree node := idx]> by_hash) m l !! h) →
    is_Some (m !! h) ∨ ∃ (i : nat) node, (i, node) ∈ l ∧ compute tree node = h) as Hgen.
  { induction l as [|[i n] l IH]; intros m; cbn; [by left|]. intros [Hm|(j & node & Hin & He)]%IH; [|right; exists j, node; set_solver].
    apply lookup_insert_is_Some' in Hm as [Hh|Hm]; [right; exists i, n; set_solver|by left]. }
  intros [[? Hm]|(i & node & Hin & He)]%Hgen; [by rewrite lookup_empty in Hm|].
  exists node. split; [|done]. apply elem_of_imap_pair in Hin. by eapply list_elem_of_lookup_2.
Qed.

Lemma is_new_iff `{Hasher} trees base_items ri :
  is_new trees (build_name_map (tr_base trees) base_items) (build_hash_map (tr_base trees) base_items) ri = true ↔
  unknown_to_base trees base_items ri.
Proof.
  unfold is_new, unknown_to_base. destruct (get_name (tr_right trees) ri) as [name|];
    rewrite negb_true_iff, bool_decide_eq_false; split.
  - intros Hn b Hb Hname. apply Hn. by eapply build_name_map_has.
  - intros Hall [e He]. apply build_name_map_spec in He as [Hi He]. apply (Hall (in_node e)); [by eapply list_elem_of_lookup_2|done].
  - intros Hn b Hb Hh. apply Hn. rewrite <- Hh. by apply build_hash_map_has.
  - intros Hall (b & Hb & Hh)%build_hash_map_keys. by apply (Hall b).
Qed.

(** The items as they are on the left, a line each. *)
Definition item_lines (tree : Tree) (items : list Node) : text := concat ((λ n, node_text tree n ++ [newline]) <$> items).

Lemma item_lines_eq tree items (merged : list Resolved) : rv_text <$> merged = node_text tree <$> items →
  concat ((λ item, rv_text item ++ [newline]) <$> merged) = item_lines tree items.
Proof.
  intros He. unfold item_lines. f_equal. change (λ n, node_text tree n ++ [newline]) with ((λ t, t ++ [newline]) ∘ node_text tree).
  change (λ item, rv_text item ++ [newline]) with ((λ t, t ++ [newline]) ∘ rv_text). by rewrite !list_fmap_compose, He.
Qed.

Lemma is_new_known `{Hasher} trees base_items ri : tr_right trees = tr_base trees → ri ∈ base_items →
  is_new trees (build_name_map (tr_base trees) base_items) (build_hash_map (tr_base trees) base_items) ri = false.
Proof.
  intros Hrb Hri. unfold is_new. rewrite Hrb. destruct (get_name (tr_base trees) ri) as [name|] eqn:Hn;
    rewrite bool_decide_eq_true_2; [done|by eapply build_name_map_has|done|by apply build_hash_map_has].
Qed.

Lemma sublist_full {A} (l k : list A) : sublist l k → length k ≤ length l → l = k.
Proof.
  induction 1 as [|x l k Hs IH|x l k Hs IH]; cbn; intros Hlen; [done|by rewrite IH by lia|].
  apply sublist_length in Hs. lia.
Qed.

Lemma reconcile_items_right_unchanged `{Similar, Hasher} trees lists items :
  tr_right trees = tr_base trees → tl_right lists = tl_base lists → reconcile_items trees lists = Ok items →
  rv_text <$> items = node_text (tr_left trees) <$> tl_left lists.
Proof.
  intros Ht Hl Hitems. apply reconcile_items_spec in Hitems as (merged & news & HF & Hnews & Hs & Hp & _).
  assert (news = []) as ->.
  { destruct news as [|r news]; [done|]. apply Forall_cons in Hnews as [(ri & Hri & Hn & _) _]. rewrite Hl in Hri.
    by rewrite is_new_known in Hn. }
  rewrite app_nil_r in Hp. apply Permutation_length in Hp as Hlen.
  assert (items = merged) as -> by (symmetry; apply sublist_full; [done|lia]).
  clear -HF Ht Hl. induction HF as [|li r lefts merged [_ Hr] HF IH]; [done|]. cbn. rewrite IH. f_equal.
  destruct (get_name (tr_left trees) li) as [name|].
  - rewrite Ht, Hl in Hr. destruct (build_name_map _ _ !! name) as [e|]; [|done].
    destruct Hr as (_ & Heq & _). apply Heq. right. cbn. by rewrite Ht.
  - destruct Hr as [Hr|(_ & ri & Hri & _ & _ & Hn & _)]; [done|]. rewrite Ht in Hn. rewrite Hl in Hri.
    apply (build_hash_map_has (tr_base trees)) in Hri as [x Hx]. congruence.
Qed.

(** * Both sides alike *)

(** No two items have one name. *)
Definition unique_names (tree : Tree) (items : list Node) : Prop :=
  ∀ i j a b name, items !! i = Some a → items !! j = Some b → get_name tree a = Some name → get_name tree b = Some name → i = j.

Lemma reconcile_all_alike `{Similar, Hasher} trees lists merged handled :
  tr_left trees = tr_right trees → tl_left lists = tl_right lists → unique_names (tr_left trees) (tl_left lists) →
  reconcile_all trees lists (build_name_map (tr_base trees) (tl_base lists)) (build_name_map (tr_right trees) (tl_right lists))
    (build_hash_map (tr_base trees) (tl_base lists)) = Ok (merged, handled) →
  rv_text <$> merged = node_text (tr_left trees) <$> tl_left lists ∧ ∀ i, i ∈ handled ↔ i < length (tl_left lists).
Proof.
  intros Ht Hl Hu Hall. unfold reconcile_all in Hall.
  apply (foldM_inv (λ pre '(merged, handled), rv_text <$> merged = node_text (tr_left trees) <$> pre ∧
    ∀ i : nat, i ∈ (handled : gset nat) ↔ i < length pre)) in Hall; [done|by split; [done|intros i; cbn; set_solver by lia]|].
  clear Hall merged handled. intros pre li post [merged handled] [merged' handled'] Hpre [Hm Hh] Hstep.
  assert (tl_left lists !! length pre = Some li) as Hli by (rewrite Hpre; by apply list_lookup_middle).
  assert (∀ t h, rv_text t = node_text (tr_left trees) li → h = {[length pre]} ∪ handled →
    rv_text <$> (merged ++ [t]) = node_text (tr_left trees) <$> (pre ++ [li]) ∧ ∀ i, i ∈ h ↔ i < length (pre ++ [li])) as Hcons.
  { intros t h Htx ->. rewrite !fmap_app, Hm. cbn. rewrite Htx. split; [done|]. intros i.
    rewrite elem_of_union, elem_of_singleton, Hh, length_app. cbn. lia. }
  unfold item_step in Hstep. destruct (get_name (tr_left trees) li) as [name|] eqn:Hname.
  - unfold reconcile_named in Hstep.
    assert (∃ e, build_name_map (tr_right trees) (tl_right lists) !! name = Some e ∧ in_index e = length pre ∧ in_node e = li) as (e & He & Hei & Hen).
    { destruct (build_name_map_has (tr_right trees) (tl_right lists) li name) as [e He];
        [rewrite <- Hl; by eapply list_elem_of_lookup_2|by rewrite <- Ht|].
      exists e. split; [done|]. apply build_name_map_spec in He as [Hi Hn]. rewrite <- Hl in Hi. rewrite <- Ht in Hn.
      assert (in_index e = length pre) as Hlen by (by eapply Hu). split; [done|]. rewrite Hlen, Hli in Hi. by injection Hi. }
    rewrite He in Hstep. destruct (build_name_map (tr_base trees) (tl_base lists) !! name) as [b|].
    + destruct (merge_single _ _) as [t| |] eqn:Hs; cbn [mbind outcome_bind] in Hstep; [|done|done]. injection Hstep as <- <-.
      apply Hcons; [|by rewrite Hei]. cbn. apply merge_single_three_way in Hs as (_ & Heq & _). apply Heq. left. cbn.
      by rewrite Ht, Hen.
    + injection Hstep as <- <-. apply Hcons; [done|by rewrite Hei].
  - cbn [mbind outcome_bind] in Hstep. unfold reconcile_unnamed in Hstep.
    assert (find_right (tl_right lists) handled (λ r, bool_decide (compute (tr_right trees) r = compute (tr_left trees) li)) =
      Some (length pre, li)) as Hfind.
    { unfold find_right. erewrite (proj2 (list_find_Some _ _ (length pre) (length pre, li))); [done|]. split_and!.
      - rewrite list_lookup_imap, <- Hl, Hli. done.
      - cbn. rewrite Hh. lia.
      - apply bool_decide_eq_true. cbn. by rewrite Ht.
      - intros j [j' x] Hj Hlt [Hn _]. rewrite list_lookup_imap in Hj. apply fmap_Some in Hj as (y & _ & [= -> ->]).
        cbn in Hn. rewrite Hh in Hn. lia. }
    rewrite Hfind in Hstep. apply Ok_inj in Hstep. injection Hstep as <- <-. by apply Hcons.
Qed.

Lemma reconcile_items_alike `{Similar, Hasher} trees lists items :
  tr_left trees = tr_right trees → tl_left lists = tl_right lists → unique_names (tr_left trees) (tl_left lists) →
  reconcile_items trees lists = Ok items → rv_text <$> items = node_text (tr_left trees) <$> tl_left lists.
Proof.
  intros Ht Hl Hu Hitems. unfold reconcile_items in Hitems.
  destruct (reconcile_all _ _ _ _ _) as [[merged handled]| |] eqn:Hall; [|done..].
  apply reconcile_all_alike in Hall as [Hm Hh]; [|done..]. cbn [mbind outcome_bind] in Hitems. apply Ok_inj in Hitems as <-.
  assert (collect_new trees (tl_right lists) handled (build_name_map (tr_base trees) (tl_base lists))
    (build_hash_map (tr_base trees) (tl_base lists)) (build_right_to_base_map trees (tl_right lists)
      (build_name_map (tr_base trees) (tl_base lists)) (build_hash_map (tr_base trees) (tl_base lists))) = []) as ->; [|done].
  unfold collect_new. rewrite (list_filter_iff_in _ (λ _, False)); [|].
  - by induction (imap pair (tl_right lists)).
  - intros [i ri] Hin%elem_of_imap_pair. split; [|done]. intros [Hn _]. apply Hn. cbn. rewrite Hh, Hl. by eapply lookup_lt_Some.
Qed.

(** * The whole merge *)

Section merge.
Context `{MapOrderLaws, Similar, !SimilarLaws, Hasher}.

Lemma top_level_lists trees b r : lists_of trees (mkLists b (get_top_level_items (tr_left trees)) r).
Proof.
  unfold lists_of, get_top_level_items. cbn. apply Forall_forall. intros n [_ Hn]%list_elem_of_filter.
  eapply collect_nodes_child; [exact Hn|]. apply collect_nodes_self.
Qed.

Lemma reconstruct_merged_total trees : well_formed (tr_left trees) → ∃ items,
  reconcile_items trees (mkLists (get_top_level_items (tr_base trees)) (get_top_level_items (tr_left trees))
    (get_top_level_items (tr_right trees))) = Ok items ∧
  reconstruct_merged trees = Ok (concat ((λ item, rv_text item ++ [newline]) <$> items)).
Proof.
  intros Hwf. destruct (reconcile_items_total trees (mkLists (get_top_level_items (tr_base trees))
    (get_top_level_items (tr_left trees)) (get_top_level_items (tr_right trees))) Hwf (top_level_lists _ _ _)) as (items & Hitems).
  exists items. split; [done|]. unfold reconstruct_merged, reconcile_lists. by rewrite Hitems.
Qed.

(** Without a structural conflict, when the texts of the items are the left's. *)
Lemma merge_as_left trees ml mr : well_formed (tr_left trees) →
  tr_right trees = tr_base trees ∨ tr_left trees = tr_right trees ∧ unique_names (tr_left trees) (get_top_level_items (tr_left trees)) →
  merge trees ml mr = Ok (result_success (item_lines (tr_left trees) (get_top_level_items (tr_left trees)))).
Proof.
  intros Hwf Hsame. unfold merge. rewrite no_conflicts by (destruct Hsame as [?|[? _]]; auto).
  rewrite bool_decide_eq_true_2 by done.
  destruct (reconstruct_merged_total trees Hwf) as (items & Hitems & ->). cbn [mbind outcome_bind]. do 2 f_equal. apply item_lines_eq.
  destruct Hsame as [Hb|[Ha Hu]].
  - apply (reconcile_items_right_unchanged _ _ _ Hb) in Hitems; [done|]. cbn. by rewrite Hb.
  - apply (reconcile_items_alike _ _ _ Ha) in Hitems; [done| |done]. cbn. by rewrite Ha.
Qed.

End merge.

(** * Claims *)

(** C15. The merge of three trees always has a result, if the left tree is one a
    parser makes. If some triples conflict, it is the line merge of the three
    files. If not, it is a success, whose content is a list of items, a line
    each. Every item of the left is among them, in the order of the left: a named
    one is merged with the last of that name in base and right, to the side that
    changed it when only one did, or both alike, and stays as it is if base or
    right has none; one without a name stays as it is, or, if the base has its
    hash, may give way to one of its kind on the right, without a name, whose hash
    the base does not have. The other items are
    items of the right that are unknown to the base: a named one if no item of the
    base has its name (whether or not one has its hash), one without a name if no
    item of the base has its hash. And none of these is lost: each is one of the
    items, by its text, or some item of the left has its name or its hash. *)
Theorem merge_keeps `{MapOrderLaws, Similar, !SimilarLaws, Hasher} trees base_left base_right :
  well_formed (tr_left trees) →
  let lists := mkLists (get_top_level_items (tr_base trees)) (get_top_level_items (tr_left trees))
    (get_top_level_items (tr_right trees)) in
  let conflicts := detect_conflicts (build_changeset trees) (build_class_mapping base_left base_right) in
  ∃ res, merge trees base_left base_right = Ok res ∧
    (conflicts ≠ [] → based (source (tr_base trees)) (source (tr_left trees)) (source (tr_right trees)) = Ok res) ∧
    (conflicts = [] → ∃ items merged news,
      res = result_success (concat ((λ item, rv_text item ++ [newline]) <$> items)) ∧
      sublist merged items ∧ items ≡ₚ merged ++ news ∧
      Forall2 (becomes trees lists) (tl_left lists) merged ∧
      Forall (λ r, ∃ ri, ri ∈ tl_right lists ∧ unknown_to_base trees (tl_base lists) ri ∧
        rv_text r = node_text (tr_right trees) ri ∧ rv_kind r = kind ri) news ∧
      ∀ ri, ri ∈ tl_right lists → unknown_to_base trees (tl_base lists) ri → accounted trees (tl_left lists) items ri).
Proof.
  intros Hwf lists conflicts. unfold merge. fold conflicts.
  destruct (decide (conflicts = [])) as [Hc|Hc].
  - rewrite bool_decide_eq_true_2 by done. destruct (reconstruct_merged_total trees Hwf) as (items & Hitems & ->).
    cbn [mbind outcome_bind]. eexists. split; [done|]. split; [done|]. intros _.
    apply reconcile_items_spec in Hitems as (merged & news & HF & Hnews & Hs & Hp & Hacc).
    exists items, merged, news. split; [done|]. split; [done|]. split; [done|]. split; [done|]. split.
    + eapply Forall_impl; [exact Hnews|]. intros r (ri & Hri & Hn%is_new_iff & Ht & Hk). by exists ri.
    + intros ri Hri Hn. apply Hacc; [done|]. by apply is_new_iff.
  - rewrite bool_decide_eq_false_2 by done.
    destruct (based_total (source (tr_base trees)) (source (tr_left trees)) (source (tr_right trees))) as (res & ->).
    by exists res.
Qed.

(** C16. Merging what the parser accepts with a right side that is still the base,
    or with a right side that made the same changes, takes the left: a success,
    whose content is the items of the left file, a line each, as they are written
    there. For changes that are the same, no two items of the left may have one
    name. *)
Theorem unchanged_side `{MapOrderLaws, Similar, !SimilarLaws, Hasher} (parse : text → option Output) base left ob ol :
  (∀ t o, parse t = Some o → well_formed (mkTree t (out_root o))) →
  parse base = Some ob → parse left = Some ol → has_errors ob = false → has_errors ol = false →
  let tree := mkTree left (out_root ol) in
  let kept := result_success (item_lines tree (get_top_level_items tree)) in
  tree_based parse base left base = Ok kept ∧
  (unique_names tree (get_top_level_items tree) → tree_based parse base left left = Ok kept).
Proof.
  intros Hparse Hb Hl Eb El tree kept. unfold tree_based. rewrite Hb, Hl. cbn. rewrite Eb, El. cbn.
  pose proof (Hparse _ _ Hl) as Hwf. split; [|intros Hu]; apply merge_as_left; cbn; auto.
Qed.

(** * Trees to merge *)

Definition node_okb (tree : Tree) (n : Node) : bool :=
  bool_decide (is_Some (get_range (source tree) (start_byte n) (end_byte n))) &&
  forallb (λ c, bool_decide (start_byte n ≤ start_byte c ∧ end_byte c ≤ end_byte n)) (children n).

Lemma node_okb_ok tree n : node_okb tree n = true → node_ok tree n.
Proof.
  intros [[mid Hg]%bool_decide_eq_true Hc]%andb_true_iff. split.
  - unfold get_range in Hg. apply bind_Some in Hg as ([all post] & He & Hg).
    apply fmap_Some in Hg as ([pre mid'] & Hs & ->). apply split_at_Some in He as [He ->], Hs as [-> ->].
    exists pre, mid', post. by rewrite He, <- app_assoc.
  - apply Forall_forall. intros c Hin. apply list_elem_of_In in Hin. rewrite forallb_forall in Hc.
    by apply Hc, bool_decide_eq_true in Hin.
Qed.

Lemma well_formed_b tree : forallb (node_okb tree) (collect_nodes (root_node tree)) = true → well_formed tree.
Proof.
  rewrite forallb_forall. intros Hall. apply Forall_forall. intros n Hn%list_elem_of_In. by apply node_okb_ok, Hall.
Qed.

(** A module of one-letter statements. *)
Definition letters (t : string) : Tree :=
  let n := String.length t in
  mkTree (chars_of t) (mkNode (chars_of "module") 1 false 0 n (replicate n None)
    ((λ i, mkNode (chars_of "statement") 2 false i (S i) [] []) <$> seq 0 n)).

(** A module of declarations of this kind, of two letters each: a name, and a
    value. *)
Definition declarations (k t : string) : Tree :=
  let n := String.length t in
  let letter i := mkNode (chars_of "letter") 3 false i (S i) [] [] in
  mkTree (chars_of t) (mkNode (chars_of "module") 1 false 0 n (replicate (n / 2) None)
    ((λ i, mkNode (chars_of k) 2 false (2 * i) (2 * i + 2) [Some (chars_of "name"); Some (chars_of "type")] [letter (2 * i); letter (2 * i + 1)])
       <$> seq 0 (n / 2))).

(** The merge of three trees, with the matchings of the matcher. *)
Definition merged (b l r : Tree) : option MergeResult :=
  match merge (mkTrees b l r) (match_trees b l) (match_trees b r) with Ok res => Some res | _ => None end.

(** Items, a line each. *)
Definition on_lines (ls : list string) : text := concat ((λ l, chars_of l ++ [newline]) <$> ls).

Lemma merge_keeps_witness :
  let trees := mkTrees (letters "x") (letters "ax") (letters "xb") in
  ∃ res, merge trees (match_trees (letters "x") (letters "ax")) (match_trees (letters "x") (letters "xb")) = Ok res ∧
    success res = true ∧ content res = on_lines ["a"; "x"; "b"].
Proof.
  intros trees.
  destruct (merge_keeps trees (match_trees (letters "x") (letters "ax")) (match_trees (letters "x") (letters "xb")))
    as (res & Hres & _ & Hitems); [by apply well_formed_b; vm_compute|].
  destruct Hitems as (items & merged & news & Hr & _); [by vm_compute|]. exists res. split; [done|]. split; [by rewrite Hr|].
  assert (merge trees (match_trees (letters "x") (letters "ax")) (match_trees (letters "x") (letters "xb")) =
    Ok (result_success (on_lines ["a"; "x"; "b"]))) as Hc by (by vm_compute).
  rewrite Hres in Hc. apply Ok_inj in Hc. by rewrite Hc.
Defined.

Definition letters_of (t : text) : Tree := letters (String.string_of_list_ascii (ascii_of_N <$> t)).

Lemma unchanged_side_witness :
  let parse t := if decide (t = chars_of "x" ∨ t = chars_of "axb") then Some (mkOutput (root_node (letters_of t)) false) else None in
  tree_based parse (chars_of "x") (chars_of "axb") (chars_of "x") = Ok (result_success (on_lines ["a"; "x"; "b"])).
Proof.
  intros parse.
  destruct (unchanged_side parse (chars_of "x") (chars_of "axb") (mkOutput (root_node (letters "x")) false)
    (mkOutput (root_node (letters "axb")) false)) as [Hb _].
  - intros t o. unfold parse. case_decide as Ht; [|done]. intros [= <-].
    destruct Ht as [-> | ->]; apply well_formed_b; by vm_compute.
  - by vm_compute.
  - by vm_compute.
  - done.
  - done.
  - rewrite Hb. by vm_compute.
Defined.

(** ** What the merge does not do *)

(** An item that the right deletes stays, even if nothing changed on the left. *)
Example right_deletion_ignored :
  content <$> merged (letters "xy") (letters "xy") (letters "x") = Some (on_lines ["x"; "y"]).
Proof. vm_compute. reflexivity. Qed.

(** Items that the right adds one after the other come out in reverse. *)
Example right_additions_reversed :
  content <$> merged (letters "x") (letters "x") (letters "xyz") = Some (on_lines ["x"; "z"; "y"]).
Proof. vm_compute. reflexivity. Qed.

(** An item that both change is a success with conflict markers in it. *)
Example markers_in_success :
  let result := merged (declarations "const_item" "n1") (declarations "const_item" "n2") (declarations "const_item" "n3") in
  success <$> result = Some true ∧ mr_conflicts <$> result = Some [] ∧
  content <$> result = Some (conflict_text (chars_of "n2") (chars_of "n1") (chars_of "n3") ++ [newline]).
Proof. vm_compute. done. Qed.

(** Two implementations for one type are taken for one item: a change of the
    second makes a conflict of the first, that nobody changed. *)
Example same_name_confused :
  content <$> merged (declarations "impl_item" "1T2T") (declarations "impl_item" "1T2T") (declarations "impl_item" "1T3T") =
  Some (conflict_text (chars_of "1T") (chars_of "2T") (chars_of "3T") ++ newline :: on_lines ["3T"]).
Proof. vm_compute. reflexivity. Qed.
