(* ===== verification/NwmEvent.v ===== *)
(** The events of [packages/nix-web-monitor/parser/src/lib.rs]: a line of Nix's
    internal JSON log as a typed event, the texts the monitor recognizes in
    messages, and the stripping of colour codes. *)

From stdpp Require Import base gmap sets list strings.
From Stdlib Require Import Ascii.
From S2P Require Import Prelude Chars JsonValue.

(** * Strings *)

(** [str::starts_with] and [str::ends_with] of a string, [str::strip_suffix]. *)
Definition starts_with_str (p t : text) : bool := bool_decide (p `prefix_of` t).
Definition ends_with_str (p t : text) : bool := bool_decide (p `suffix_of` t).

(** [str::split_once]. *)
Fixpoint split_once (p t : text) : option (text * text) :=
  match strip_prefix p t with
  | Some after => Some ([], after)
  | None => match t with [] => None | c :: t => prod_map (c ::.) id <$> split_once p t end
  end.

(** [text.starts_with(char::is_whitespace)]. *)
Definition starts_with_whitespace (t : text) : bool :=
  match t with c :: _ => is_whitespace c | [] => false end.

(** [str::trim_end]. *)
Definition trim_end (t : text) : text := reverse (trim_start is_whitespace (reverse t)).

(** * Values of serde_json *)

(** [Value::get] of a key, [Value::as_str], [as_u64], [as_i64], [as_array]. *)
Definition value_get (key : text) (v : Value) : option Value :=
  match v with Obj m => get key m | _ => None end.
Definition as_str (v : Value) : option text := match v with Str s => Some s | _ => None end.
Definition as_u64 (v : Value) : option Z := match v with Num (PosInt n) => Some n | _ => None end.
Definition number_as_i64 (n : Number) : option Z :=
  match n with
  | PosInt n => if decide (n < 2 ^ 63)%Z then Some n else None
  | NegInt n => Some n
  | Float _ => None
  end.
Definition as_i64 (v : Value) : option Z := match v with Num n => number_as_i64 n | _ => None end.
Definition as_array (v : Value) : option (list Value) := match v with Arr l => Some l | _ => None end.

(** [serde_json::from_str::<Value>], with the display of its error. *)
Class NixJson := from_json : text → text + Value.

(** [strip_ansi_escapes::strip] read as UTF-8; [None] when what is left is not. *)
Class AnsiStrip := strip_escapes : text → option text.

(** * Events *)

Inductive ParseError :=
| MissingAction
| MissingNumericField (key : text)
| NotUnsignedInteger (key : text)
| NotInteger (key : text)
| NotString (key : text)
| OneTextField
| TwoNumericFields
| FileLinkedFields
| ProgressFields
| NegativeActivityType.

Record ActivityType := mkActivityType { code : Z; type_name : text }.

Inductive FieldValue := FText (value : text) | FNumber (value : Z) | FBool (value : bool) | FNull | FOther (value : Value).

Record ActivityProgress := mkProgress { done : Z; p_expected : Z; running : Z; p_failed : Z }.

Inductive ActivityResult :=
| FileLinked (bytes : Z) (blocks : option Z)
| BuildLogLine (line : text)
| SetPhase (phase : text)
| Progress (progress : ActivityProgress)
| SetExpected (activity_type : ActivityType) (expected : Z)
| PostBuildLogLine (line : text)
| FetchStatus (status : text)
| OtherResult (result_type : Z) (fields : list FieldValue).

Record StartAction := mkStart {
  sa_id : Z; sa_parent : option Z; sa_level : option Z; sa_text : text;
  sa_type : ActivityType; sa_fields : list FieldValue }.
Record MessageAction := mkMessage { ma_level : option Z; ma_message : text; raw_message : option text }.

Inductive NixEvent :=
| Start (action : StartAction)
| Stop (id : Z)
| Result (id : Z) (result : ActivityResult)
| Message (action : MessageAction)
| Unknown (raw : Value).

Inductive ParsedLine := Event (event : NixEvent) | Plain (t : text) | Unparsed (t error : text).

(** The text of [ParseError], from its [Display]. *)
Definition display_error (e : ParseError) : text :=
  match e with
  | MissingAction => chars_of "missing action field"
  | MissingNumericField key => chars_of "missing numeric field " ++ key
  | NotUnsignedInteger key => chars_of "field " ++ key ++ chars_of " must be an unsigned integer"
  | NotInteger key => chars_of "field " ++ key ++ chars_of " must be an integer"
  | NotString key => chars_of "field " ++ key ++ chars_of " must be a string"
  | OneTextField => chars_of "expected one text field"
  | TwoNumericFields => chars_of "expected two numeric fields"
  | FileLinkedFields => chars_of "expected a byte count and an optional block count"
  | ProgressFields => chars_of "expected four numeric progress fields"
  | NegativeActivityType => chars_of "expected activity type must be non-negative"
  end.

(** * Fields *)

Definition required_u64 (raw : Value) (key : string) : outcome ParseError Z :=
  ok_or (value_get (chars_of key) raw ≫= as_u64) (MissingNumericField (chars_of key)).

(** An absent field and [null] are the same; any other value must convert. *)
Definition optional {A} (conv : Value → option A) (error : text → ParseError) (raw : Value) (key : string) :
    outcome ParseError (option A) :=
  match value_get (chars_of key) raw with
  | Some Null | None => Ok None
  | Some value => match conv value with Some a => Ok (Some a) | None => Err (error (chars_of key)) end
  end.
Definition optional_u64 := optional as_u64 NotUnsignedInteger.
Definition optional_i64 := optional as_i64 NotInteger.
Definition optional_string := optional as_str NotString.

Definition field_value (v : Value) : FieldValue :=
  match v with
  | Str t => FText t
  | Num n => match number_as_i64 n with Some i => FNumber i | None => FOther v end
  | Bool b => FBool b
  | Null => FNull
  | Arr _ | Obj _ => FOther v
  end.

Definition fields_of (raw : Value) : list FieldValue :=
  match value_get (chars_of "fields") raw ≫= as_array with
  | Some values => field_value <$> values
  | None => []
  end.

Definition one_text (fields : list FieldValue) : outcome ParseError text :=
  match fields with [FText t] => Ok t | _ => Err OneTextField end.
Definition two_numbers (fields : list FieldValue) : outcome ParseError (Z * Z) :=
  match fields with [FNumber first; FNumber second] => Ok (first, second) | _ => Err TwoNumericFields end.
Definition file_linked_fields (fields : list FieldValue) : outcome ParseError (Z * option Z) :=
  match fields with
  | [FNumber bytes] => Ok (bytes, None)
  | [FNumber bytes; FNumber blocks] => Ok (bytes, Some blocks)
  | _ => Err FileLinkedFields
  end.
Definition parse_progress (fields : list FieldValue) : outcome ParseError ActivityProgress :=
  match fields with
  | [FNumber d; FNumber e; FNumber r; FNumber f] => Ok (mkProgress d e r f)
  | _ => Err ProgressFields
  end.

Definition text_field (fields : list FieldValue) (index : nat) : option text :=
  match fields !! index with Some (FText value) => Some value | _ => None end.

(** [result_code] and [activity_code]. *)
Definition FILE_LINKED : Z := 100.
Definition BUILD_LOG_LINE : Z := 101.
Definition SET_PHASE : Z := 104.
Definition PROGRESS : Z := 105.
Definition SET_EXPECTED : Z := 106.
Definition POST_BUILD_LOG_LINE : Z := 107.
Definition FETCH_STATUS : Z := 108.
Definition BUILDS : Z := 104.
Definition BUILD : Z := 105.
Definition RESOLVE : Z := 111.

Definition activity_name (code : Z) : string :=
  match code with
  | 0 => "unknown"
  | 100 => "copy_path"
  | 101 => "file_transfer"
  | 102 => "realise"
  | 103 => "copy_paths"
  | 104 => "builds"
  | 105 => "build"
  | 106 => "optimise_store"
  | 107 => "verify_paths"
  | 108 => "substitute"
  | 109 => "query_path_info"
  | 110 => "post_build_hook"
  | 111 => "build_waiting"
  | 112 => "fetch_tree"
  | _ => "future"
  end%Z%string.
Definition activity_type_for (code : Z) : ActivityType := mkActivityType code (chars_of (activity_name code)).

(** * Lines *)

Definition parse_start (raw : Value) : outcome ParseError StartAction :=
  code ← required_u64 raw "type";
  id ← required_u64 raw "id";
  parent ← optional_u64 raw "parent";
  level ← optional_i64 raw "level";
  t ← optional_string raw "text";
  Ok (mkStart id parent level (default [] t) (activity_type_for code) (fields_of raw)).

Definition parse_stop (raw : Value) : outcome ParseError Z := required_u64 raw "id".

Definition parse_message (raw : Value) : outcome ParseError MessageAction :=
  level ← optional_i64 raw "level";
  message ← optional_string raw "msg";
  raw_msg ← optional_string raw "raw_msg";
  Ok (mkMessage level (default [] message) raw_msg).

Definition result_of (result_type : Z) (fields : list FieldValue) : outcome ParseError ActivityResult :=
  if decide (result_type = FILE_LINKED) then
    '(bytes, blocks) ← file_linked_fields fields; Ok (FileLinked bytes blocks)
  else if decide (result_type = BUILD_LOG_LINE) then BuildLogLine <$> one_text fields
  else if decide (result_type = SET_PHASE) then SetPhase <$> one_text fields
  else if decide (result_type = PROGRESS) then Progress <$> parse_progress fields
  else if decide (result_type = SET_EXPECTED) then
    '(activity_type_code, expected) ← two_numbers fields;
    if decide (0 ≤ activity_type_code)%Z then Ok (SetExpected (activity_type_for activity_type_code) expected)
    else Err NegativeActivityType
  else if decide (result_type = POST_BUILD_LOG_LINE) then PostBuildLogLine <$> one_text fields
  else if decide (result_type = FETCH_STATUS) then FetchStatus <$> one_text fields
  else Ok (OtherResult result_type fields).

Definition parse_result (raw : Value) : outcome ParseError (Z * ActivityResult) :=
  result_type ← required_u64 raw "type";
  result ← result_of result_type (fields_of raw);
  id ← required_u64 raw "id";
  Ok (id, result).

Definition parse_event (raw : Value) : outcome ParseError NixEvent :=
  action ← ok_or (value_get (chars_of "action") raw ≫= as_str) MissingAction;
  if decide (action = chars_of "start") then Start <$> parse_start raw
  else if decide (action = chars_of "stop") then Stop <$> parse_stop raw
  else if decide (action = chars_of "result") then (λ '(id, result), Result id result) <$> parse_result raw
  else if decide (action = chars_of "msg") then Message <$> parse_message raw
  else Ok (Unknown raw).

Definition NIX_JSON_PREFIX : text := chars_of "@nix ".

Definition parse_line `{!NixJson} (line : text) : ParsedLine :=
  match strip_prefix NIX_JSON_PREFIX line with
  | None => Plain line
  | Some raw_json =>
      match from_json raw_json with
      | inr raw =>
          match parse_event raw with
          | Ok event => Event event
          | Err error => Unparsed line (display_error error)
          | Panic => Unparsed line []
          end
      | inl error => Unparsed line error
      end
  end.

(** * Colour codes *)

(** The inner loop of [strip_orphan_sgr]: the chars it takes after the bracket,
    whether they end a sequence, and the rest. *)
Fixpoint sgr_scan (saw_digit : bool) (taken t : text) : bool * text * text :=
  match t with
  | [] => (false, taken, [])
  | next :: t' =>
      if is_ascii_digit next then sgr_scan true (taken ++ [next]) t'
      else if bool_decide (next = ch ";") && saw_digit then sgr_scan saw_digit (taken ++ [next]) t'
      else if bool_decide (next = ch "m") && saw_digit then (true, taken ++ [next], t')
      else (false, taken, t)
  end.

Fixpoint orphan_loop (fuel : nat) (t out : text) : text :=
  match fuel with
  | O => out
  | S fuel =>
      match t with
      | [] => out
      | c :: t =>
          if decide (c = ch "[") then
            let '(matched, taken, rest) := sgr_scan false [] t in
            orphan_loop fuel rest (if matched then out else out ++ ch "[" :: taken)
          else orphan_loop fuel t (out ++ [c])
      end
  end.
Definition strip_orphan_sgr (t : text) : text := orphan_loop (length t) t [].

Definition strip_ansi `{!AnsiStrip} (t : text) : text := strip_orphan_sgr (default t (strip_escapes t)).

(** * Texts the monitor recognizes *)

Definition DRV_SUFFIX : text := chars_of ".drv".

Definition is_build_plan_header (t : text) : bool := ends_with_str (chars_of "will be built:") (trim_end t).

Definition planned_derivation (t : text) : option text :=
  if starts_with_whitespace t then
    let path := trim t in
    if starts_with_str (chars_of "/nix/store/") path && ends_with_str DRV_SUFFIX path then Some path else None
  else None.

(** One of the two shapes of a builder's failure. *)
Definition failure_after (before between : string) (t : text) : option text :=
  after ← strip_prefix (chars_of before) t;
  '(derivation, _) ← split_once (chars_of between) after;
  if ends_with_str DRV_SUFFIX derivation then Some derivation else None.

Definition parse_builder_failure (t : text) : option text :=
  match failure_after "error: builder for '" "' failed with exit code " t with
  | Some derivation => Some derivation
  | None => failure_after "error: Cannot build '" "'." t
  end.

Definition copy_to_store_source (t : text) : option text :=
  rest ← strip_prefix (chars_of "copying ") t;
  quote ← head rest;
  if negb (bool_decide (quote = ch "'")) && negb (bool_decide (quote = 34%N)) then None
  else
    '(path, after) ← split_once [quote] (tail rest);
    if negb (starts_with (ch "/") path)
       || negb (bool_decide (trim_start is_whitespace after = chars_of "to the store")) then None
    else Some (default path (strip_suffix (ch "/") path)).

(** * The passes over a line end *)

Lemma sgr_scan_taken t saw_digit taken matched taken' rest :
  sgr_scan saw_digit taken t = (matched, taken', rest) → ∃ scanned, taken' = taken ++ scanned ∧ t = scanned ++ rest.
Proof.
  revert saw_digit taken. induction t as [|c t IH]; intros saw_digit taken; simpl.
  { intros [= <- <- <-]. exists []. by rewrite app_nil_r. }
  assert (∀ b, sgr_scan b (taken ++ [c]) t = (matched, taken', rest) →
    ∃ scanned, taken' = taken ++ scanned ∧ c :: t = scanned ++ rest) as Hgo.
  { intros b (scanned & -> & ->)%IH. exists (c :: scanned). by rewrite <- (assoc_L (++)). }
  destruct (is_ascii_digit c); [apply Hgo|]. destruct (bool_decide (c = ch ";") && saw_digit); [apply Hgo|].
  destruct (bool_decide (c = ch "m") && saw_digit); intros [= <- <- <-]; [by exists [c]|].
  exists []. by rewrite app_nil_r.
Qed.

(** Fuel beyond the chars left changes nothing. *)
Lemma orphan_loop_fuel n t out : length t ≤ n → orphan_loop n t out = orphan_loop (length t) t out.
Proof.
  assert (∀ k n1 n2 t out, length t ≤ k → length t ≤ n1 → length t ≤ n2 → orphan_loop n1 t out = orphan_loop n2 t out) as Hgo;
    [|intros; by eapply (Hgo (length t))].
  clear. induction k as [|k IH]; intros n1 n2 t out Hk H1 H2.
  { destruct t; [|simpl in *; lia]. by destruct n1, n2. }
  destruct t as [|c t]; [by destruct n1, n2|]. destruct n1 as [|n1], n2 as [|n2]; simpl in *; try lia.
  case_decide; [|apply IH; lia]. destruct (sgr_scan false [] t) as [[matched taken] rest] eqn:Hs.
  apply sgr_scan_taken in Hs as (scanned & _ & ->). rewrite length_app in *. destruct matched; apply IH; lia.
Qed.

(** The loop only takes sequences away, and a text without one is kept. *)
Lemma orphan_loop_sublist n t out : orphan_loop n t out `sublist_of` out ++ t.
Proof.
  revert t out. induction n as [|n IH]; intros t out; simpl; [by apply sublist_inserts_r|].
  destruct t as [|c t]; [by rewrite ?app_nil_r|]. case_decide as Hc.
  - destruct (sgr_scan false [] t) as [[matched taken] rest] eqn:Hs. apply sgr_scan_taken in Hs as (scanned & -> & ->).
    subst c. simpl. destruct matched; (etrans; [apply IH|]).
    + apply sublist_app; [done|]. apply sublist_cons, sublist_inserts_l. done.
    + by rewrite <- (assoc_L (++)).
  - etrans; [apply IH|]. by rewrite <- (assoc_L (++)).
Qed.

Lemma strip_orphan_sgr_sublist t : strip_orphan_sgr t `sublist_of` t.
Proof. apply (orphan_loop_sublist _ t []). Qed.

Lemma strip_orphan_sgr_plain t : ch "[" ∉ t → strip_orphan_sgr t = t.
Proof.
  unfold strip_orphan_sgr.
  assert (∀ out, ch "[" ∉ t → orphan_loop (length t) t out = out ++ t) as Hgo; [|intros; by apply (Hgo [])].
  induction t as [|c t IH]; intros out Hc; simpl; [by rewrite app_nil_r|].
  apply not_elem_of_cons in Hc as [Hc Ht]. rewrite decide_False by done.
  rewrite IH by done. by rewrite <- (assoc_L (++)).
Qed.

Example strip_orphan_colours :
  strip_orphan_sgr (chars_of "[31;1merror:[0m a[3] [m [1;") = chars_of "error: a[3] [m [1;".
Proof. by vm_compute. Qed.
