(* ===== verification/NwmState.v ===== *)
(** The state of [packages/nix-web-monitor/parser/src/lib.rs]: builds,
    activities, logs and progress of one Nix invocation, the handlers that fold
    the events of the log into it, and the deltas they emit; the activation of
    a switch ([activation.rs]), the machine-wide view ([global.rs]) and the
    compact view of a dashboard ([build_view.rs]).

    The clock is an argument of the handlers that read it.  The tables are
    finite maps; where the code iterates over a [BTreeMap], [by_key] lists the
    entries in ascending order of their keys. *)

From stdpp Require Import base gmap sets list strings sorting.
From Stdlib Require Import Ascii.
From S2P Require Import Prelude Chars JsonValue NwmEvent.

(** * Maps in order *)

Definition key_le {A} (a b : text * A) : Prop := text_le a.1 b.1.
#[export] Instance key_le_dec {A} : RelDecision (@key_le A).
Proof. intros a b. unfold key_le. apply _. Defined.
Definition id_le {A} (a b : Z * A) : Prop := (a.1 ≤ b.1)%Z.
#[export] Instance id_le_dec {A} : RelDecision (@id_le A).
Proof. intros a b. unfold id_le. apply _. Defined.

Definition by_key {A} (m : gmap text A) : list (text * A) := merge_sort key_le (map_to_list m).
Definition by_id {A} (m : gmap Z A) : list (Z * A) := merge_sort id_le (map_to_list m).
Definition ascending (s : gset text) : list text := merge_sort text_le (elements s).

(** * The machine-wide view *)

Record GlobalWhy := mkWhy { root_drv_path : option text; chain : list text; cause : option text }.
Inductive GlobalBuildKind := BuildGoal | Substitution | OtherGoal.
Record GlobalBuild := mkGlobalBuild {
  drv_path : option text; store_path : option text; outputs : list text; kind : GlobalBuildKind;
  pid : option Z; start_time : option Z; user : option text; uid : option Z; log_file : option text;
  why : GlobalWhy; cpu_percent : option Z; rss_bytes : option Z; start_ticks : option Z }.
Record GlobalBuilds := mkGlobal { detected : bool; g_builds : list GlobalBuild; g_status : text }.
Definition GlobalBuilds_default : GlobalBuilds := mkGlobal false [] (chars_of "not available (stock nix)").

#[export] Instance GlobalWhy_eq_dec : EqDecision GlobalWhy.
Proof. solve_decision. Defined.
#[export] Instance GlobalBuildKind_eq_dec : EqDecision GlobalBuildKind.
Proof. solve_decision. Defined.
#[export] Instance GlobalBuild_eq_dec : EqDecision GlobalBuild.
Proof. solve_decision. Defined.
#[export] Instance GlobalBuilds_eq_dec : EqDecision GlobalBuilds.
Proof. solve_decision. Defined.

(** * Activation of a switch *)

Inductive StepStatus := StepRunning | StepDone | StepFailed.
#[export] Instance StepStatus_eq_dec : EqDecision StepStatus.
Proof. solve_decision. Defined.

Record ActivationStep := mkStep {
  s_name : text; s_status : StepStatus; s_lines : list text; s_started_at_ms : Z; s_stopped_at_ms : option Z }.
Record Activation := mkActivation { active : bool; act_command : text; steps : list ActivationStep; act_status : text }.
Definition Activation_default : Activation := mkActivation false [] [] [].

Definition ACTIVATING_PREFIX : text := chars_of "Activating ".
Definition HM_BANNER : text := chars_of "Starting Home Manager activation".

Definition open_step (name : text) (now_ms : Z) (a : Activation) : Activation :=
  mkActivation (active a) (act_command a) (steps a ++ [mkStep name StepRunning [] now_ms None]) (act_status a).

(** [open_step_mut]: a change of the last step, if it is still running. *)
Definition update_open (f : ActivationStep → ActivationStep) (a : Activation) : Activation :=
  match last (steps a) with
  | Some step =>
      if decide (s_status step = StepRunning) then
        mkActivation (active a) (act_command a) (removelast (steps a) ++ [f step]) (act_status a)
      else a
  | None => a
  end.

Definition close_open_step (status : StepStatus) (now_ms : Z) : Activation → Activation :=
  update_open (λ step, mkStep (s_name step) status (s_lines step) (s_started_at_ms step) (Some now_ms)).

Definition begin (command : text) (initial_step : option text) (now_ms : Z) (a : Activation) : Activation :=
  let a := mkActivation true command [] (chars_of "running") in
  match initial_step with Some name => open_step name now_ms a | None => a end.

Definition ingest_line (line : text) (now_ms : Z) (a : Activation) : Activation :=
  let trimmed := trim_end line in
  let append := update_open (λ step,
    mkStep (s_name step) (s_status step) (s_lines step ++ [line]) (s_started_at_ms step) (s_stopped_at_ms step)) in
  if decide (trimmed = HM_BANNER) then a
  else
    match strip_prefix ACTIVATING_PREFIX trimmed with
    | Some name =>
        if negb (bool_decide (name = [])) && negb (existsb is_whitespace name)
        then open_step name now_ms (close_open_step StepDone now_ms a)
        else append a
    | None => append a
    end.

Definition act_finish (success : bool) (now_ms : Z) (a : Activation) : Activation :=
  let a := close_open_step (if success then StepDone else StepFailed) now_ms a in
  mkActivation (active a) (act_command a) (steps a) (chars_of (if success then "done" else "failed")).

Definition set_status (status : text) (a : Activation) : Activation :=
  mkActivation true (act_command a) (steps a) status.

(** * Rows *)

Inductive ActivityStatus := ARunning | AStopped.
#[export] Instance ActivityStatus_eq_dec : EqDecision ActivityStatus.
Proof. solve_decision. Defined.

Record ActivityNode := mkActivity {
  a_id : Z; a_parent : option Z; a_type : ActivityType; a_text : text; a_fields : list FieldValue;
  a_phase : option text; a_progress : option ActivityProgress; a_status : ActivityStatus;
  a_started_tick : Z; a_started_at_ms : Z; a_stopped_at_ms : option Z; a_build : option text;
  a_size_bytes : option Z }.

Inductive BuildStatus := Planned | Running | Stopped | Succeeded | Failed.
#[export] Instance BuildStatus_eq_dec : EqDecision BuildStatus.
Proof. solve_decision. Defined.

(** [log_count] counts log lines, of which there are fewer than 2^64. *)
Record BuildNode := mkBuild {
  derivation : text; b_activity_id : option Z; host : option text; b_phase : option text;
  b_status : BuildStatus; log_count : Z; b_started_at_ms : Z; b_stopped_at_ms : option Z;
  content_addressed : bool }.

Record LogEntry := mkLog { l_index : Z; l_activity_id : option Z; l_level : option Z; l_text : text }.
Record OptimiseStats := mkOptimise { files_linked : Z; bytes_freed : Z }.
Record DerivationEdge := mkEdge { from : text; to : text }.
#[export] Instance DerivationEdge_eq_dec : EqDecision DerivationEdge.
Proof. solve_decision. Defined.

(** Whether the message stream is inside a list of derivations to build. *)
Inductive PlanSection := NoPlan | BuildPlan.
#[export] Instance PlanSection_eq_dec : EqDecision PlanSection.
Proof. solve_decision. Defined.

Record MonitorSnapshot := mkSnapshot {
  sn_command : text; sn_activities : list ActivityNode; sn_builds : list BuildNode; sn_logs : list LogEntry;
  sn_errors : list text; sn_progress : option ActivityProgress; sn_optimise : OptimiseStats;
  sn_global : GlobalBuilds; sn_activation : Activation; sn_diff : option text; sn_expected : gmap text Z;
  sn_dependencies : list DerivationEdge; sn_root_causes : list text; sn_rebuild_reasons : gmap text text;
  sn_exit_code : option Z; sn_finished : bool }.

Inductive Delta :=
| Reset (snapshot : MonitorSnapshot)
| BuildUpsert (build : BuildNode)
| ActivityUpsert (activity : ActivityNode)
| LogsAppend (entries : list LogEntry)
| ProgressSet (progress : ActivityProgress)
| OptimiseSet (optimise : OptimiseStats)
| GlobalSet (global : GlobalBuilds)
| ActivationSet (activation : Activation)
| DiffSet (diff : text)
| ExpectedSet (name : text) (value : Z)
| ErrorAppend (message : text)
| DependenciesSet (edges : list DerivationEdge)
| RootCausesSet (derivations : list text)
| RebuildReasonSet (derivation reason : text)
| Finished (exit_code : option Z).

Record MonitorState := mkMonitor {
  activities : gmap Z ActivityNode;
  builds : gmap text BuildNode;
  logs : list LogEntry;
  errors : list text;
  progress : option ActivityProgress;
  optimise : OptimiseStats;
  global : GlobalBuilds;
  activation : Activation;
  diff : option text;
  expected : gmap text Z;
  exit_code : option Z;
  finished : bool;
  command : text;
  closure_deps : gmap text (gset text);
  last_dependencies : option (list DerivationEdge);
  last_root_causes : option (list text);
  rebuild_reasons : gmap text text;
  plan_section : PlanSection;
  resolved_to_original : gmap text text;
  log_counter : Z;
  outbox : list Delta }.

(** ** Assignments to the fields *)

Definition with_activities (v : gmap Z ActivityNode) (m : MonitorState) : MonitorState :=
  mkMonitor v (builds m) (logs m) (errors m) (progress m) (optimise m) (global m) (activation m) (diff m)
    (expected m) (exit_code m) (finished m) (command m) (closure_deps m) (last_dependencies m)
    (last_root_causes m) (rebuild_reasons m) (plan_section m) (resolved_to_original m) (log_counter m)
    (outbox m).
Definition with_builds (v : gmap text BuildNode) (m : MonitorState) : MonitorState :=
  mkMonitor (activities m) v (logs m) (errors m) (progress m) (optimise m) (global m) (activation m) (diff
    m) (expected m) (exit_code m) (finished m) (command m) (closure_deps m) (last_dependencies m)
    (last_root_causes m) (rebuild_reasons m) (plan_section m) (resolved_to_original m) (log_counter m)
    (outbox m).
Definition with_logs (v : list LogEntry) (m : MonitorState) : MonitorState :=
  mkMonitor (activities m) (builds m) v (errors m) (progress m) (optimise m) (global m) (activation m) (diff
    m) (expected m) (exit_code m) (finished m) (command m) (closure_deps m) (last_dependencies m)
    (last_root_causes m) (rebuild_reasons m) (plan_section m) (resolved_to_original m) (log_counter m)
    (outbox m).
Definition with_errors (v : list text) (m : MonitorState) : MonitorState :=
  mkMonitor (activities m) (builds m) (logs m) v (progress m) (optimise m) (global m) (activation m) (diff
    m) (expected m) (exit_code m) (finished m) (command m) (closure_deps m) (last_dependencies m)
    (last_root_causes m) (rebuild_reasons m) (plan_section m) (resolved_to_original m) (log_counter m)
    (outbox m).
Definition with_progress (v : option ActivityProgress) (m : MonitorState) : MonitorState :=
  mkMonitor (activities m) (builds m) (logs m) (errors m) v (optimise m) (global m) (activation m) (diff m)
    (expected m) (exit_code m) (finished m) (command m) (closure_deps m) (last_dependencies m)
    (last_root_causes m) (rebuild_reasons m) (plan_section m) (resolved_to_original m) (log_counter m)
    (outbox m).
Definition with_optimise (v : OptimiseStats) (m : MonitorState) : MonitorState :=
  mkMonitor (activities m) (builds m) (logs m) (errors m) (progress m) v (global m) (activation m) (diff m)
    (expected m) (exit_code m) (finished m) (command m) (closure_deps m) (last_dependencies m)
    (last_root_causes m) (rebuild_reasons m) (plan_section m) (resolved_to_original m) (log_counter m)
    (outbox m).
Definition with_global (v : GlobalBuilds) (m : MonitorState) : MonitorState :=
  mkMonitor (activities m) (builds m) (logs m) (errors m) (progress m) (optimise m) v (activation m) (diff
    m) (expected m) (exit_code m) (finished m) (command m) (closure_deps m) (last_dependencies m)
    (last_root_causes m) (rebuild_reasons m) (plan_section m) (resolved_to_original m) (log_counter m)
    (outbox m).
Definition with_activation (v : Activation) (m : MonitorState) : MonitorState :=
  mkMonitor (activities m) (builds m) (logs m) (errors m) (progress m) (optimise m) (global m) v (diff m)
    (expected m) (exit_code m) (finished m) (command m) (closure_deps m) (last_dependencies m)
    (last_root_causes m) (rebuild_reasons m) (plan_section m) (resolved_to_original m) (log_counter m)
    (outbox m).
Definition with_diff (v : option text) (m : MonitorState) : MonitorState :=
  mkMonitor (activities m) (builds m) (logs m) (errors m) (progress m) (optimise m) (global m) (activation
    m) v (expected m) (exit_code m) (finished m) (command m) (closure_deps m) (last_dependencies m)
    (last_root_causes m) (rebuild_reasons m) (plan_section m) (resolved_to_original m) (log_counter m)
    (outbox m).
Definition with_expected (v : gmap text Z) (m : MonitorState) : MonitorState :=
  mkMonitor (activities m) (builds m) (logs m) (errors m) (progress m) (optimise m) (global m) (activation
    m) (diff m) v (exit_code m) (finished m) (command m) (closure_deps m) (last_dependencies m)
    (last_root_causes m) (rebuild_reasons m) (plan_section m) (resolved_to_original m) (log_counter m)
    (outbox m).
Definition with_exit_code (v : option Z) (m : MonitorState) : MonitorState :=
  mkMonitor (activities m) (builds m) (logs m) (errors m) (progress m) (optimise m) (global m) (activation
    m) (diff m) (expected m) v (finished m) (command m) (closure_deps m) (last_dependencies m)
    (last_root_causes m) (rebuild_reasons m) (plan_section m) (resolved_to_original m) (log_counter m)
    (outbox m).
Definition with_finished (v : bool) (m : MonitorState) : MonitorState :=
  mkMonitor (activities m) (builds m) (logs m) (errors m) (progress m) (optimise m) (global m) (activation
    m) (diff m) (expected m) (exit_code m) v (command m) (closure_deps m) (last_dependencies m)
    (last_root_causes m) (rebuild_reasons m) (plan_section m) (resolved_to_original m) (log_counter m)
    (outbox m).
Definition with_closure_deps (v : gmap text (gset text)) (m : MonitorState) : MonitorState :=
  mkMonitor (activities m) (builds m) (logs m) (errors m) (progress m) (optimise m) (global m) (activation
    m) (diff m) (expected m) (exit_code m) (finished m) (command m) v (last_dependencies m)
    (last_root_causes m) (rebuild_reasons m) (plan_section m) (resolved_to_original m) (log_counter m)
    (outbox m).
Definition with_last_dependencies (v : option (list DerivationEdge)) (m : MonitorState) : MonitorState :=
  mkMonitor (activities m) (builds m) (logs m) (errors m) (progress m) (optimise m) (global m) (activation
    m) (diff m) (expected m) (exit_code m) (finished m) (command m) (closure_deps m) v (last_root_causes m)
    (rebuild_reasons m) (plan_section m) (resolved_to_original m) (log_counter m) (outbox m).
Definition with_last_root_causes (v : option (list text)) (m : MonitorState) : MonitorState :=
  mkMonitor (activities m) (builds m) (logs m) (errors m) (progress m) (optimise m) (global m) (activation
    m) (diff m) (expected m) (exit_code m) (finished m) (command m) (closure_deps m) (last_dependencies m) v
    (rebuild_reasons m) (plan_section m) (resolved_to_original m) (log_counter m) (outbox m).
Definition with_rebuild_reasons (v : gmap text text) (m : MonitorState) : MonitorState :=
  mkMonitor (activities m) (builds m) (logs m) (errors m) (progress m) (optimise m) (global m) (activation
    m) (diff m) (expected m) (exit_code m) (finished m) (command m) (closure_deps m) (last_dependencies m)
    (last_root_causes m) v (plan_section m) (resolved_to_original m) (log_counter m) (outbox m).
Definition with_plan_section (v : PlanSection) (m : MonitorState) : MonitorState :=
  mkMonitor (activities m) (builds m) (logs m) (errors m) (progress m) (optimise m) (global m) (activation
    m) (diff m) (expected m) (exit_code m) (finished m) (command m) (closure_deps m) (last_dependencies m)
    (last_root_causes m) (rebuild_reasons m) v (resolved_to_original m) (log_counter m) (outbox m).
Definition with_resolved_to_original (v : gmap text text) (m : MonitorState) : MonitorState :=
  mkMonitor (activities m) (builds m) (logs m) (errors m) (progress m) (optimise m) (global m) (activation
    m) (diff m) (expected m) (exit_code m) (finished m) (command m) (closure_deps m) (last_dependencies m)
    (last_root_causes m) (rebuild_reasons m) (plan_section m) v (log_counter m) (outbox m).
Definition with_log_counter (v : Z) (m : MonitorState) : MonitorState :=
  mkMonitor (activities m) (builds m) (logs m) (errors m) (progress m) (optimise m) (global m) (activation
    m) (diff m) (expected m) (exit_code m) (finished m) (command m) (closure_deps m) (last_dependencies m)
    (last_root_causes m) (rebuild_reasons m) (plan_section m) (resolved_to_original m) v (outbox m).
Definition with_outbox (v : list Delta) (m : MonitorState) : MonitorState :=
  mkMonitor (activities m) (builds m) (logs m) (errors m) (progress m) (optimise m) (global m) (activation
    m) (diff m) (expected m) (exit_code m) (finished m) (command m) (closure_deps m) (last_dependencies m)
    (last_root_causes m) (rebuild_reasons m) (plan_section m) (resolved_to_original m) (log_counter m) v.

Definition MonitorState_new (command : text) : MonitorState :=
  mkMonitor ∅ ∅ [] [] None (mkOptimise 0 0) GlobalBuilds_default Activation_default None ∅ None false command
    ∅ None None ∅ NoPlan ∅ 0 [].

Definition NIX_LEVEL_ERROR : Z := 0.
Definition SNAPSHOT_LOG_LIMIT : nat := 500.
Definition STATE_LOG_RETAIN : nat := 5000.
Definition STATE_ERROR_RETAIN : nat := 2000.
Definition u64_max : Z := 2 ^ 64 - 1.
Definition i64_max : Z := 2 ^ 63 - 1.

Definition truncate_head {A} (items : list A) (max : nat) : list A :=
  if decide (max < length items) then drop (length items - max) items else items.

(** * The dependency graph *)

Definition edge_le (a b : DerivationEdge) : Prop :=
  from a = from b ∧ text_le (to a) (to b) ∨ from a ≠ from b ∧ text_le (from a) (from b).
#[export] Instance edge_le_dec : RelDecision edge_le.
Proof. intros a b. unfold edge_le. apply _. Defined.

(** [rendered] derivations reachable from [source], through its closure. *)
Definition reachable (rendered : gset text) (source : text) (closure : gset text) : list text :=
  filter (λ target, target ≠ source ∧ target ∈ rendered) (ascending closure).

(** Another reachable derivation depends on [target] too. *)
Definition implied (closures : gmap text (gset text)) (candidates : list text) (target : text) : bool :=
  existsb (λ mid, negb (bool_decide (mid = target)) &&
    match closures !! mid with Some closure => bool_decide (target ∈ closure) | None => false end) candidates.

Definition edges_from (closures : gmap text (gset text)) (rendered : gset text) (entry : text * gset text) :
    list DerivationEdge :=
  let '(source, closure) := entry in
  if decide (source ∈ rendered) then
    let candidates := reachable rendered source closure in
    mkEdge source <$> filter (λ target, implied closures candidates target = false) candidates
  else [].

Definition dependency_edges (closures : gmap text (gset text)) (rendered : gset text) : list DerivationEdge :=
  merge_sort edge_le (by_key closures ≫= edges_from closures rendered).

(** No input of [derivation] is itself being built, and its inputs are known. *)
Definition no_built_input (closures : gmap text (gset text)) (built : gset text) (derivation : text) : bool :=
  match closures !! derivation with
  | Some closure => negb (existsb (λ input, bool_decide (input ∈ built)) (ascending closure))
  | None => false
  end.

Definition root_cause_derivations (closures : gmap text (gset text)) (built : gset text) : list text :=
  merge_sort text_le (filter (λ derivation, no_built_input closures built derivation = true) (ascending built)).

(** * Operations *)

Definition emit (d : Delta) (m : MonitorState) : MonitorState := with_outbox (outbox m ++ [d]) m.

Definition emit_build (derivation : text) (m : MonitorState) : MonitorState :=
  match builds m !! derivation with Some build => emit (BuildUpsert build) m | None => m end.

Definition emit_activity (id : Z) (m : MonitorState) : MonitorState :=
  match activities m !! id with Some activity => emit (ActivityUpsert activity) m | None => m end.

Definition emit_activation (m : MonitorState) : MonitorState := emit (ActivationSet (activation m)) m.

Definition observed (m : MonitorState) : gset text := dom (builds m).

Definition snapshot (m : MonitorState) : MonitorSnapshot :=
  mkSnapshot (command m) (by_id (activities m)).*2 (by_key (builds m)).*2
    (drop (length (logs m) - SNAPSHOT_LOG_LIMIT) (logs m)) (errors m) (progress m) (optimise m) (global m)
    (activation m) (diff m) (expected m) (dependency_edges (closure_deps m) (observed m))
    (root_cause_derivations (closure_deps m) (observed m)) (rebuild_reasons m) (exit_code m) (finished m).

Definition drain_deltas (m : MonitorState) : list Delta * MonitorState := (outbox m, with_outbox [] m).

Definition is_root_cause (derivation : text) (m : MonitorState) : bool :=
  bool_decide (is_Some (builds m !! derivation)) &&
  match closure_deps m !! derivation with
  | Some closure => negb (existsb (λ input, bool_decide (is_Some (builds m !! input))) (ascending closure))
  | None => false
  end.

Definition set_rebuild_reason (derivation reason : text) (m : MonitorState) : MonitorState :=
  if decide (rebuild_reasons m !! derivation = Some reason) then m
  else emit (RebuildReasonSet derivation reason) (with_rebuild_reasons (<[derivation := reason]> (rebuild_reasons m)) m).

Definition set_activity_size (id size_bytes : Z) (m : MonitorState) : MonitorState :=
  match activities m !! id with
  | None => m
  | Some a =>
      let a := mkActivity (a_id a) (a_parent a) (a_type a) (a_text a) (a_fields a) (a_phase a) (a_progress a)
        (a_status a) (a_started_tick a) (a_started_at_ms a) (a_stopped_at_ms a) (a_build a) (Some size_bytes) in
      emit_activity id (with_activities (<[id := a]> (activities m)) m)
  end.

Definition set_global (g : GlobalBuilds) (m : MonitorState) : MonitorState :=
  if decide (global m = g) then m else let m := with_global g m in emit (GlobalSet (global m)) m.

Definition begin_activation (command : text) (initial_step : option text) (now_ms : Z) (m : MonitorState) :=
  emit_activation (with_activation (begin command initial_step now_ms (activation m)) m).
Definition push_activation_line (line : text) (now_ms : Z) (m : MonitorState) :=
  emit_activation (with_activation (ingest_line line now_ms (activation m)) m).
Definition set_activation_status (status : text) (m : MonitorState) :=
  emit_activation (with_activation (set_status status (activation m)) m).
Definition finish_activation (success : bool) (now_ms : Z) (m : MonitorState) :=
  emit_activation (with_activation (act_finish success now_ms (activation m)) m).

Definition set_diff (d : text) (m : MonitorState) : MonitorState := emit (DiffSet d) (with_diff (Some d) m).

Definition emit_dependencies (edges : list DerivationEdge) (m : MonitorState) : MonitorState :=
  if decide (last_dependencies m = Some edges) then m
  else emit (DependenciesSet edges) (with_last_dependencies (Some edges) m).
Definition emit_root_causes (derivations : list text) (m : MonitorState) : MonitorState :=
  if decide (last_root_causes m = Some derivations) then m
  else emit (RootCausesSet derivations) (with_last_root_causes (Some derivations) m).

Definition record_closure (derivation : text) (closure_drvs : gset text) (m : MonitorState) : MonitorState :=
  let m := with_closure_deps (<[derivation := closure_drvs]> (closure_deps m)) m in
  let edges := dependency_edges (closure_deps m) (observed m) in
  let causes := root_cause_derivations (closure_deps m) (observed m) in
  emit_root_causes causes (emit_dependencies edges m).

(** ** Errors and logs *)

Definition push_error (message : text) (m : MonitorState) : MonitorState :=
  emit (ErrorAppend message) (with_errors (truncate_head (errors m ++ [message]) STATE_ERROR_RETAIN) m).

Definition bump_log_count (b : BuildNode) : BuildNode :=
  mkBuild (derivation b) (b_activity_id b) (host b) (b_phase b) (b_status b) (log_count b + 1) (b_started_at_ms b)
    (b_stopped_at_ms b) (content_addressed b).

(** The row a log line of an activity belongs to. *)
Definition count_log (activity_id : option Z) (m : MonitorState) : MonitorState :=
  match (id ← activity_id; a ← activities m !! id; a_build a) with
  | Some build =>
      match builds m !! build with
      | Some node => with_builds (<[build := bump_log_count node]> (builds m)) m
      | None => m
      end
  | None => m
  end.

Definition push_log (activity_id level : option Z) (t : text) (m : MonitorState) : MonitorState :=
  let index := log_counter m in
  let m := with_log_counter (Z.min (log_counter m + 1) u64_max) m in
  let m := count_log activity_id m in
  let entry := mkLog index activity_id level t in
  emit (LogsAppend [entry]) (with_logs (truncate_head (logs m ++ [entry]) STATE_LOG_RETAIN) m).

(** ** Builds *)

Definition with_status (s : BuildStatus) (b : BuildNode) : BuildNode :=
  mkBuild (derivation b) (b_activity_id b) (host b) (b_phase b) s (log_count b) (b_started_at_ms b)
    (b_stopped_at_ms b) (content_addressed b).

Definition unfinished (b : BuildNode) : bool := bool_decide (b_status b = Stopped ∨ b_status b = Planned).

Definition promote_unfinished_builds (m : MonitorState) : MonitorState :=
  let promoted := (filter (λ entry, unfinished entry.2 = true) (by_key (builds m))).*1 in
  let m := with_builds ((λ b, if unfinished b then with_status Succeeded b else b) <$> builds m) m in
  foldl (λ m derivation, emit_build derivation m) m promoted.

Definition finish (code : option Z) (m : MonitorState) : MonitorState :=
  let m := with_finished true (with_exit_code code m) in
  let m := if decide (code = Some 0%Z) then promote_unfinished_builds m else m in
  emit (Finished code) m.

Definition mark_builds_succeeded : MonitorState → MonitorState := promote_unfinished_builds.

Definition resolve_alias (m : MonitorState) (drv : text) : text := default drv (resolved_to_original m !! drv).

Definition note_resolved_derivation (action : StartAction) (m : MonitorState) : MonitorState :=
  if decide (code (sa_type action) = RESOLVE) then
    match text_field (sa_fields action) 0, text_field (sa_fields action) 1 with
    | Some original, Some resolved =>
        let m := with_resolved_to_original (<[resolved := original]> (resolved_to_original m)) m in
        match builds m !! original with
        | Some b =>
            let b := mkBuild (derivation b) (b_activity_id b) (host b) (b_phase b) (b_status b) (log_count b)
              (b_started_at_ms b) (b_stopped_at_ms b) true in
            emit_build original (with_builds (<[original := b]> (builds m)) m)
        | None => m
        end
    | _, _ => m
    end
  else m.

(** The row of a build that starts: the one there is, or a new one. *)
Definition started_row (id : Z) (h : option text) (now_ms : Z) (ca : bool) (drv : text) (row : option BuildNode) :
    BuildNode :=
  match row with
  | Some b =>
      mkBuild (derivation b) (Some id) (match h with Some _ => h | None => host b end) (b_phase b) Running
        (log_count b) (if decide (b_status b = Running) then b_started_at_ms b else now_ms) None
        (content_addressed b || ca)
  | None => mkBuild drv (Some id) h None Running 0 now_ms None ca
  end.

Definition start_activity (now_ms : Z) (action : StartAction) (m : MonitorState) : MonitorState :=
  let now := Z.of_nat (size (activities m)) in
  let is_build := bool_decide (code (sa_type action) = BUILD) in
  let raw_build := if is_build then text_field (sa_fields action) 0 else None in
  let h := if is_build then h ← text_field (sa_fields action) 1; if decide (h = []) then None else Some h
           else None in
  let ca := match raw_build with Some drv => bool_decide (is_Some (resolved_to_original m !! drv)) | None => false end in
  let build := resolve_alias m <$> raw_build in
  let node := mkActivity (sa_id action) (sa_parent action) (sa_type action) (sa_text action) (sa_fields action)
    None None ARunning now now_ms None build None in
  let m := with_activities (<[sa_id action := node]> (activities m)) m in
  let m := note_resolved_derivation action m in
  let m := match build with
    | Some drv =>
        let row := started_row (sa_id action) h now_ms ca drv (builds m !! drv) in
        emit_build drv (with_builds (<[drv := row]> (builds m)) m)
    | None => m
    end in
  emit_activity (sa_id action) m.

Definition plan_build (now_ms : Z) (drv : text) (m : MonitorState) : MonitorState :=
  match builds m !! drv with
  | Some _ => m
  | None =>
      let row := mkBuild drv None None None Planned 0 now_ms None false in
      emit_build drv (with_builds (<[drv := row]> (builds m)) m)
  end.

Definition note_build_plan (now_ms : Z) (t : text) (m : MonitorState) : MonitorState :=
  if is_build_plan_header t then with_plan_section BuildPlan m
  else
    match (if decide (plan_section m = BuildPlan) then planned_derivation t else None) with
    | Some drv => plan_build now_ms drv m
    | None => if starts_with_whitespace t then m else with_plan_section NoPlan m
    end.

Definition stop_activity (now_ms : Z) (id : Z) (m : MonitorState) : MonitorState :=
  match activities m !! id with
  | None => m
  | Some a =>
      let a := mkActivity (a_id a) (a_parent a) (a_type a) (a_text a) (a_fields a) (a_phase a) (a_progress a)
        AStopped (a_started_tick a) (a_started_at_ms a) (Some now_ms) (a_build a) (a_size_bytes a) in
      let m := with_activities (<[id := a]> (activities m)) m in
      match a_build a with
      | Some build =>
          match builds m !! build with
          | Some b =>
              if decide (b_status b = Running) then
                let b := mkBuild (derivation b) (b_activity_id b) (host b) (b_phase b) Stopped (log_count b)
                  (b_started_at_ms b) (Some now_ms) (content_addressed b) in
                emit_build build (emit_activity id (with_builds (<[build := b]> (builds m)) m))
              else emit_activity id m
          | None => emit_activity id m
          end
      | None => emit_activity id m
      end
  end.

Definition set_phase (id : Z) (phase : text) (m : MonitorState) : MonitorState :=
  match activities m !! id with
  | None => m
  | Some a =>
      let a := mkActivity (a_id a) (a_parent a) (a_type a) (a_text a) (a_fields a) (Some phase) (a_progress a)
        (a_status a) (a_started_tick a) (a_started_at_ms a) (a_stopped_at_ms a) (a_build a) (a_size_bytes a) in
      let m := with_activities (<[id := a]> (activities m)) m in
      match a_build a with
      | Some build =>
          let m := match builds m !! build with
            | Some b =>
                let b := mkBuild (derivation b) (b_activity_id b) (host b) (Some phase) (b_status b) (log_count b)
                  (b_started_at_ms b) (b_stopped_at_ms b) (content_addressed b) in
                with_builds (<[build := b]> (builds m)) m
            | None => m
            end in
          emit_build build (emit_activity id m)
      | None => emit_activity id m
      end
  end.

Definition set_progress (id : Z) (p : ActivityProgress) (m : MonitorState) : MonitorState :=
  let is_build_progress :=
    match activities m !! id with Some a => bool_decide (code (a_type a) = BUILDS) | None => false end in
  let m := match activities m !! id with
    | Some a =>
        let a := mkActivity (a_id a) (a_parent a) (a_type a) (a_text a) (a_fields a) (a_phase a) (Some p)
          (a_status a) (a_started_tick a) (a_started_at_ms a) (a_stopped_at_ms a) (a_build a) (a_size_bytes a) in
        with_activities (<[id := a]> (activities m)) m
    | None => m
    end in
  let m := if is_build_progress then emit (ProgressSet p) (with_progress (Some p) m) else m in
  emit_activity id m.

(** The message of a failure may name the derivation a build was resolved to. *)
Definition failed_row (now_ms : Z) (ca : bool) (drv : text) (row : option BuildNode) : BuildNode :=
  match row with
  | Some b =>
      mkBuild (derivation b) (b_activity_id b) (host b) (b_phase b) Failed (log_count b) (b_started_at_ms b)
        (match b_stopped_at_ms b with None => Some now_ms | Some t => Some t end) (content_addressed b || ca)
  | None => mkBuild drv None None None Failed 0 now_ms (Some now_ms) ca
  end.

Definition mark_failed_build (now_ms : Z) (failure : text) (m : MonitorState) : MonitorState :=
  let original := resolved_to_original m !! failure in
  let ca := bool_decide (is_Some original) in
  let drv := default failure original in
  let row := failed_row now_ms ca drv (builds m !! drv) in
  emit_build drv (with_builds (<[drv := row]> (builds m)) m).

(** ** Lines *)

Section lines.
Context `{!NixJson, !AnsiStrip}.

Definition apply_result (id : Z) (result : ActivityResult) (m : MonitorState) : MonitorState :=
  match result with
  | BuildLogLine line | PostBuildLogLine line => push_log (Some id) None (strip_ansi line) m
  | SetPhase phase => set_phase id phase m
  | Progress p => set_progress id p m
  | SetExpected activity_type value =>
      emit (ExpectedSet (type_name activity_type) value)
        (with_expected (<[type_name activity_type := value]> (expected m)) m)
  | FetchStatus status => push_log (Some id) None (strip_ansi status) m
  | FileLinked bytes _ =>
      let o := mkOptimise (Z.min (files_linked (optimise m) + 1) u64_max)
        (Z.min (bytes_freed (optimise m) + Z.max bytes 0) i64_max) in
      emit (OptimiseSet o) (with_optimise o m)
  | OtherResult _ _ => m
  end.

Definition cleaned_message (action : MessageAction) : text :=
  default (strip_ansi (ma_message action)) (raw_message action).

Definition mark_failure (now_ms : Z) (t : text) (m : MonitorState) : MonitorState :=
  match parse_builder_failure t with Some failure => mark_failed_build now_ms failure m | None => m end.

(** The clock is read for a planned row, and again for a failed one. *)
Definition apply_message (plan_ms fail_ms : Z) (action : MessageAction) (m : MonitorState) : MonitorState :=
  let cleaned := cleaned_message action in
  let m := if decide (ma_level action = Some NIX_LEVEL_ERROR) then push_error cleaned m else m in
  let m := push_log None (ma_level action) cleaned m in
  let m := note_build_plan plan_ms cleaned m in
  mark_failure fail_ms (strip_ansi (ma_message action)) m.

Definition apply_plain (now_ms : Z) (t : text) (m : MonitorState) : MonitorState :=
  let stripped := strip_ansi t in
  push_log None None stripped (mark_failure now_ms stripped m).

Definition apply_event (now_ms later_ms : Z) (event : NixEvent) (m : MonitorState) : MonitorState :=
  match event with
  | Start action => start_activity now_ms action m
  | Stop id => stop_activity now_ms id m
  | Result id result => apply_result id result m
  | Message action => apply_message now_ms later_ms action m
  | Unknown _ => m
  end.

Definition apply_parsed_line (now_ms later_ms : Z) (parsed : ParsedLine) (m : MonitorState) : MonitorState :=
  match parsed with
  | Event event => apply_event now_ms later_ms event m
  | Plain t => apply_plain now_ms t m
  | Unparsed t error =>
      push_log None None t (push_error (chars_of "failed to parse Nix event: " ++ error) m)
  end.

Definition apply_line (now_ms later_ms : Z) (line : text) (m : MonitorState) : MonitorState :=
  apply_parsed_line now_ms later_ms (parse_line line) m.
End lines.

(** * The compact view *)

Record BuildRow := mkRow {
  r_derivation : text; r_name : text; r_status : BuildStatus; r_phase : option text; r_host : option text;
  r_log_count : Z; r_content_addressed : bool }.
Record ActivityRow := mkActivityRow {
  ar_kind : text; ar_text : text; ar_done : Z; ar_expected : Z; ar_size_bytes : option Z }.
Record BuildCounts := mkCounts { c_planned : nat; c_running : nat; c_stopped : nat; c_succeeded : nat; c_failed : nat }.
Record BuildView := mkView {
  v_command : text; v_builds : list BuildRow; v_activities : list ActivityRow; v_counts : BuildCounts;
  v_errors : list text; v_finished : bool; v_exit_code : option Z }.

Definition ERROR_LIMIT : nat := 20.
Definition ACTIVITY_LIMIT : nat := 24.

Definition count_status (c : BuildCounts) (s : BuildStatus) : BuildCounts :=
  let '(mkCounts p r st su f) := c in
  match s with
  | Planned => mkCounts (S p) r st su f
  | Running => mkCounts p (S r) st su f
  | Stopped => mkCounts p r (S st) su f
  | Succeeded => mkCounts p r st (S su) f
  | Failed => mkCounts p r st su (S f)
  end.

Definition strip_suffix_str (s t : text) : option text :=
  if ends_with_str s t then Some (take (length t - length s) t) else None.

Definition derivation_name (drv : text) : text :=
  let base := default drv (strip_suffix_str (chars_of ".drv") (last_segment drv)) in
  match split_once [ch "-"] base with Some (_, name) => name | None => base end.

Definition build_row (b : BuildNode) : BuildRow :=
  mkRow (derivation b) (derivation_name (derivation b)) (b_status b) (b_phase b) (host b) (log_count b)
    (content_addressed b).

Definition shown_activity (a : ActivityNode) : bool :=
  bool_decide (a_status a = ARunning) && bool_decide (a_build a = None)
  && negb (bool_decide (type_name (a_type a) = chars_of "build")) && negb (bool_decide (a_text a = [])).

Definition activity_row (a : ActivityNode) : ActivityRow :=
  let p := default (mkProgress 0 0 0 0) (a_progress a) in
  mkActivityRow (type_name (a_type a)) (a_text a) (done p) (p_expected p) (a_size_bytes a).

Definition build_view (m : MonitorState) : BuildView :=
  let nodes := (by_key (builds m)).*2 in
  let counts := foldl (λ c b, count_status c (b_status b)) (mkCounts 0 0 0 0 0) nodes in
  let running := activity_row <$> filter (λ a, shown_activity a = true) (by_id (activities m)).*2 in
  mkView (command m) (build_row <$> nodes) (take ACTIVITY_LIMIT (reverse running)) counts
    (reverse (take ERROR_LIMIT (reverse (errors m)))) (finished m) (exit_code m).
