(* ===== verification/NwmClient.v ===== *)
(** The two ends of the delta feed of nix-web-monitor: the model the page keeps
    ([server/site/src/lib/monitor-transport.ts]), and the server's tasks around
    the shared state ([server/src/main.rs]: [broadcast_deltas], [serve_socket]),
    as the steps of a system of one monitor and its clients.

    Every step is one critical section of the lock, or one turn of a task
    between two of its awaits. *)

From stdpp Require Import base gmap sets list strings relations.
From S2P Require Import Prelude Chars JsonValue NwmEvent NwmState.

(** * The model of a page *)

Record Working := mkWorking {
  w_command : text; w_activities : gmap Z ActivityNode; w_builds : gmap text BuildNode; w_logs : list LogEntry;
  w_errors : list text; w_progress : option ActivityProgress; w_optimise : OptimiseStats;
  w_global : GlobalBuilds; w_activation : Activation; w_diff : option text; w_expected : gmap text Z;
  w_dependencies : list DerivationEdge; w_root_causes : list text; w_rebuild_reasons : gmap text text;
  w_exit_code : option Z; w_finished : bool }.

Definition create_working : Working :=
  mkWorking [] ∅ ∅ [] [] None (mkOptimise 0 0) (mkGlobal false [] []) (mkActivation false [] [] []) None ∅ [] [] ∅
    None false.

Definition LOG_RETAIN : nat := 5000.
Definition ERROR_RETAIN : nat := 2000.

Definition cap_head {A} (items : list A) (max : nat) : list A :=
  if decide (max < length items) then drop (length items - max) items else items.

(** A map made from a list of rows: a later row replaces an earlier one. *)
Definition rows_by {K} `{Countable K} {V} (key : V → K) (rows : list V) : gmap K V :=
  foldl (λ m row, <[key row := row]> m) ∅ rows.

Definition from_snapshot (s : MonitorSnapshot) : Working :=
  mkWorking (sn_command s) (rows_by a_id (sn_activities s)) (rows_by derivation (sn_builds s)) (sn_logs s)
    (sn_errors s) (sn_progress s) (sn_optimise s) (sn_global s) (sn_activation s) (sn_diff s) (sn_expected s)
    (sn_dependencies s) (sn_root_causes s) (sn_rebuild_reasons s) (sn_exit_code s) (sn_finished s).

Definition bump_log (entry : LogEntry) (activities : gmap Z ActivityNode) (builds : gmap text BuildNode) :
    gmap text BuildNode :=
  match (id ← l_activity_id entry; a ← activities !! id; a_build a) with
  | Some build =>
      match builds !! build with Some node => <[build := bump_log_count node]> builds | None => builds end
  | None => builds
  end.

(** One entry of [logsAppend]. *)
Definition put_log (w : Working) (entry : LogEntry) : Working :=
  mkWorking (w_command w) (w_activities w) (bump_log entry (w_activities w) (w_builds w)) (w_logs w ++ [entry])
    (w_errors w) (w_progress w) (w_optimise w) (w_global w) (w_activation w) (w_diff w) (w_expected w)
    (w_dependencies w) (w_root_causes w) (w_rebuild_reasons w) (w_exit_code w) (w_finished w).

Definition apply_delta (w : Working) (d : Delta) : Working :=
  let '(mkWorking cm ac bu lo er pr op gl av di ex de rc rr xc fi) := w in
  match d with
  | Reset s => from_snapshot s
  | BuildUpsert b => mkWorking cm ac (<[derivation b := b]> bu) lo er pr op gl av di ex de rc rr xc fi
  | ActivityUpsert a => mkWorking cm (<[a_id a := a]> ac) bu lo er pr op gl av di ex de rc rr xc fi
  | LogsAppend entries =>
      let '(mkWorking cm ac bu lo er pr op gl av di ex de rc rr xc fi) := foldl put_log w entries in
      mkWorking cm ac bu (cap_head lo LOG_RETAIN) er pr op gl av di ex de rc rr xc fi
  | ProgressSet p => mkWorking cm ac bu lo er (Some p) op gl av di ex de rc rr xc fi
  | OptimiseSet o => mkWorking cm ac bu lo er pr o gl av di ex de rc rr xc fi
  | GlobalSet g => mkWorking cm ac bu lo er pr op g av di ex de rc rr xc fi
  | ActivationSet a => mkWorking cm ac bu lo er pr op gl a di ex de rc rr xc fi
  | DiffSet d => mkWorking cm ac bu lo er pr op gl av (Some d) ex de rc rr xc fi
  | ExpectedSet name value => mkWorking cm ac bu lo er pr op gl av di (<[name := value]> ex) de rc rr xc fi
  | ErrorAppend message =>
      mkWorking cm ac bu lo (cap_head (er ++ [message]) ERROR_RETAIN) pr op gl av di ex de rc rr xc fi
  | DependenciesSet edges => mkWorking cm ac bu lo er pr op gl av di ex edges rc rr xc fi
  | RootCausesSet derivations => mkWorking cm ac bu lo er pr op gl av di ex de derivations rr xc fi
  | RebuildReasonSet drv reason => mkWorking cm ac bu lo er pr op gl av di ex de rc (<[drv := reason]> rr) xc fi
  | Finished code => mkWorking cm ac bu lo er pr op gl av di ex de rc rr code true
  end.

(** ** What of a message arrives

    A number of JavaScript is a double: of the integers of the wire it has those of
    53 bits; others become the nearest one, the even one of two.  ([log_count] is
    counted up by the page itself, from numbers far below that.) *)
Definition js_number (z : Z) : Z :=
  let a := Z.abs z in
  if decide (a ≤ 2 ^ 53)%Z then z
  else
    let e := (Z.log2 a - 52)%Z in
    let q := Z.shiftr a e in
    let r := (a - Z.shiftl q e)%Z in
    let half := Z.shiftl 1 (e - 1) in
    let q := if decide (r < half ∨ r = half ∧ Z.even q = true)%Z then q else (q + 1)%Z in
    (Z.sgn z * Z.shiftl q e)%Z.

(** The numbers of a message, changed by a function. *)
Section numbers.
Context (f : Z → Z).

Definition num_progress (p : ActivityProgress) : ActivityProgress :=
  mkProgress (f (done p)) (f (p_expected p)) (f (running p)) (f (p_failed p)).
Definition num_activity (a : ActivityNode) : ActivityNode :=
  mkActivity (f (a_id a)) (f <$> a_parent a) (mkActivityType (f (code (a_type a))) (type_name (a_type a))) (a_text a)
    (a_fields a) (a_phase a) (num_progress <$> a_progress a) (a_status a) (f (a_started_tick a))
    (f (a_started_at_ms a)) (f <$> a_stopped_at_ms a) (a_build a) (f <$> a_size_bytes a).
Definition num_build (b : BuildNode) : BuildNode :=
  mkBuild (derivation b) (f <$> b_activity_id b) (host b) (b_phase b) (b_status b) (f (log_count b))
    (f (b_started_at_ms b)) (f <$> b_stopped_at_ms b) (content_addressed b).
Definition num_log (e : LogEntry) : LogEntry :=
  mkLog (f (l_index e)) (f <$> l_activity_id e) (f <$> l_level e) (l_text e).
Definition num_optimise (o : OptimiseStats) : OptimiseStats := mkOptimise (f (files_linked o)) (f (bytes_freed o)).
Definition num_global_build (b : GlobalBuild) : GlobalBuild :=
  mkGlobalBuild (drv_path b) (store_path b) (outputs b) (kind b) (f <$> pid b) (f <$> start_time b) (user b)
    (f <$> uid b) (log_file b) (why b) (f <$> cpu_percent b) (f <$> rss_bytes b) (f <$> start_ticks b).
Definition num_global (g : GlobalBuilds) : GlobalBuilds :=
  mkGlobal (detected g) (num_global_build <$> g_builds g) (g_status g).
Definition num_step (s : ActivationStep) : ActivationStep :=
  mkStep (s_name s) (s_status s) (s_lines s) (f (s_started_at_ms s)) (f <$> s_stopped_at_ms s).
Definition num_activation (a : Activation) : Activation :=
  mkActivation (active a) (act_command a) (num_step <$> steps a) (act_status a).
Definition num_snapshot (s : MonitorSnapshot) : MonitorSnapshot :=
  mkSnapshot (sn_command s) (num_activity <$> sn_activities s) (num_build <$> sn_builds s) (num_log <$> sn_logs s)
    (sn_errors s) (num_progress <$> sn_progress s) (num_optimise (sn_optimise s)) (num_global (sn_global s))
    (num_activation (sn_activation s)) (sn_diff s) (f <$> sn_expected s) (sn_dependencies s) (sn_root_causes s)
    (sn_rebuild_reasons s) (f <$> sn_exit_code s) (sn_finished s).
Definition num_delta (d : Delta) : Delta :=
  match d with
  | Reset s => Reset (num_snapshot s)
  | BuildUpsert b => BuildUpsert (num_build b)
  | ActivityUpsert a => ActivityUpsert (num_activity a)
  | LogsAppend entries => LogsAppend (num_log <$> entries)
  | ProgressSet p => ProgressSet (num_progress p)
  | OptimiseSet o => OptimiseSet (num_optimise o)
  | GlobalSet g => GlobalSet (num_global g)
  | ActivationSet a => ActivationSet (num_activation a)
  | ExpectedSet name value => ExpectedSet name (f value)
  | Finished code => Finished (f <$> code)
  | DiffSet _ | ErrorAppend _ | DependenciesSet _ | RootCausesSet _ | RebuildReasonSet _ _ => d
  end.
End numbers.

(** What the page's schema keeps of a message: all but the [fields] of an
    activity, which it does not declare. *)
Definition without_fields (a : ActivityNode) : ActivityNode :=
  mkActivity (a_id a) (a_parent a) (a_type a) (a_text a) [] (a_phase a) (a_progress a) (a_status a)
    (a_started_tick a) (a_started_at_ms a) (a_stopped_at_ms a) (a_build a) (a_size_bytes a).
Definition parse_snapshot (s : MonitorSnapshot) : MonitorSnapshot :=
  mkSnapshot (sn_command s) (without_fields <$> sn_activities s) (sn_builds s) (sn_logs s) (sn_errors s)
    (sn_progress s) (sn_optimise s) (sn_global s) (sn_activation s) (sn_diff s) (sn_expected s)
    (sn_dependencies s) (sn_root_causes s) (sn_rebuild_reasons s) (sn_exit_code s) (sn_finished s).
Definition parse_delta (d : Delta) : Delta :=
  match d with
  | Reset s => Reset (parse_snapshot s)
  | ActivityUpsert a => ActivityUpsert (without_fields a)
  | _ => d
  end.

(** A frame: its numbers become those of JavaScript, and the schema picks. *)
Definition decode_delta (d : Delta) : Delta := parse_delta (num_delta js_number d).

Definition receive (w : Working) (d : Delta) : Working := apply_delta w (decode_delta d).

(** * The operations of the server on the monitor *)

Inductive Op :=
| OpLine (now_ms later_ms : Z) (line : text)
| OpClosure (drv : text) (closure : gset text)
| OpReason (drv reason : text)
| OpSize (id size_bytes : Z)
| OpGlobal (g : GlobalBuilds)
| OpBegin (command : text) (initial_step : option text) (now_ms : Z)
| OpActivationLine (line : text) (now_ms : Z)
| OpActivationStatus (status : text)
| OpActivationEnd (success : bool) (now_ms : Z)
| OpDiff (d : text)
| OpSucceeded
| OpFinish (code : option Z).

Section system.
Context `{!NixJson, !AnsiStrip}.

Definition run (op : Op) (m : MonitorState) : MonitorState :=
  match op with
  | OpLine now_ms later_ms line => apply_line now_ms later_ms line m
  | OpClosure drv closure => record_closure drv closure m
  | OpReason drv reason => set_rebuild_reason drv reason m
  | OpSize id size_bytes => set_activity_size id size_bytes m
  | OpGlobal g => set_global g m
  | OpBegin command initial_step now_ms => begin_activation command initial_step now_ms m
  | OpActivationLine line now_ms => push_activation_line line now_ms m
  | OpActivationStatus status => set_activation_status status m
  | OpActivationEnd success now_ms => finish_activation success now_ms m
  | OpDiff d => set_diff d m
  | OpSucceeded => mark_builds_succeeded m
  | OpFinish code => finish code m
  end.

(** * The system

    [channel] is everything ever broadcast.  A subscription is a place in it,
    and the ring keeps [DELTA_CHANNEL_CAPACITY] messages. *)

Definition DELTA_CHANNEL_CAPACITY : nat := 1024.

Record Client := mkClient {
  next : nat;                (* place of the receiver in the channel *)
  socket : list Delta;       (* frames sent and not yet read by the page *)
  working : Working;         (* the page's model *)
  pending : list Delta }.    (* ghost: the outbox when the last seed was taken *)

Record System := mkSystem { monitor : MonitorState; channel : list Delta; clients : gmap nat Client }.

(** [subscribe] and the snapshot, under the read lock. *)
Definition seed (m : MonitorState) (sent : list Delta) (frames : list Delta) (w : Working) : Client :=
  mkClient (length sent) (frames ++ [Reset (snapshot m)]) w (outbox m).

(** The tasks that broadcast and send, and the pages. *)
Inductive serve : System → System → Prop :=
| serve_broadcast m sent cs :
    serve (mkSystem m sent cs) (mkSystem (drain_deltas m).2 (sent ++ (drain_deltas m).1) cs)
| serve_connect i m sent cs :
    cs !! i = None → serve (mkSystem m sent cs) (mkSystem m sent (<[i := seed m sent [] create_working]> cs))
| serve_forward i c d m sent cs :
    cs !! i = Some c → length sent - next c ≤ DELTA_CHANNEL_CAPACITY → sent !! next c = Some d →
    serve (mkSystem m sent cs)
      (mkSystem m sent (<[i := mkClient (S (next c)) (socket c ++ [d]) (working c) (pending c)]> cs))
| serve_lagged i c m sent cs :
    cs !! i = Some c → DELTA_CHANNEL_CAPACITY < length sent - next c →
    serve (mkSystem m sent cs) (mkSystem m sent (<[i := seed m sent (socket c) (working c)]> cs))
| serve_read i c d frames m sent cs :
    cs !! i = Some c → socket c = d :: frames →
    serve (mkSystem m sent cs)
      (mkSystem m sent (<[i := mkClient (next c) frames (receive (working c) d) (pending c)]> cs))
| serve_leave i m sent cs : serve (mkSystem m sent cs) (mkSystem m sent (delete i cs)).

(** A step of these, or a task that changes the monitor: it takes the lock for
    the change and again, later, to broadcast what the change emitted. *)
Inductive step : System → System → Prop :=
| step_mutate op m sent cs : step (mkSystem m sent cs) (mkSystem (run op m) sent cs)
| step_serve s s' : serve s s' → step s s'.

Definition start (label : text) : System := mkSystem (MonitorState_new label) [] ∅.

(** What the page will have read once everything under way has arrived. *)
Definition upcoming (s : System) (c : Client) : list Delta :=
  socket c ++ drop (next c) (channel s) ++ outbox (monitor s).

Definition caught_up (s : System) (c : Client) : Prop := upcoming s c = [].
End system.
