(* ===== verification/NwmMirror.v ===== *)
(** The deltas a handler of [NwmState] emits describe its change: a page that
    folds them into a model of the state before has a model of the state after.
    Every handler is a sequence of assignments to rows and emissions; a model
    may be behind in the rows assigned and not yet emitted. *)

From stdpp Require Import base gmap sets list strings sorting relations.
From Stdlib Require Import Lia.
From S2P Require Import Prelude Chars JsonValue NwmEvent NwmState NwmClient.

(** * Well-formed states *)

(** Rows are stored under their own name, and the log is within its bound. *)
Record monitor_wf (m : MonitorState) : Prop := {
  wf_activities : ∀ id a, activities m !! id = Some a → a_id a = id;
  wf_builds : ∀ drv b, builds m !! drv = Some b → derivation b = drv;
  wf_logs : length (logs m) ≤ STATE_LOG_RETAIN }.

(** * Mirrors *)

(** A page's log: the retained log less entries older than its seed. *)
Definition log_tail (page server : list LogEntry) : Prop :=
  ∃ older, server = older ++ page ∧ (older = [] ∨ SNAPSHOT_LOG_LIMIT ≤ length page).

(** A model agrees with the state, but for the activities [A] and builds [B]. *)
Record mirrors_upto (A : gset Z) (B : gset text) (w : Working) (m : MonitorState) : Prop := {
  mu_command : w_command w = command m;
  mu_activities : ∀ id, id ∉ A → w_activities w !! id = without_fields <$> activities m !! id;
  mu_builds : ∀ drv, drv ∉ B → w_builds w !! drv = builds m !! drv;
  mu_logs : log_tail (w_logs w) (logs m);
  mu_errors : w_errors w = errors m;
  mu_progress : w_progress w = progress m;
  mu_optimise : w_optimise w = optimise m;
  mu_global : w_global w = global m;
  mu_activation : w_activation w = activation m;
  mu_diff : w_diff w = diff m;
  mu_expected : w_expected w = expected m;
  mu_reasons : w_rebuild_reasons w = rebuild_reasons m;
  mu_exit_code : w_exit_code w = exit_code m;
  mu_finished : w_finished w = finished m }.

Abbreviation mirrors := (mirrors_upto ∅ ∅).

(** A page that gets a message with its numbers as they were sent. *)
Definition fold_in (w : Working) (d : Delta) : Working := apply_delta w (parse_delta d).

(** Handlers emit changes only; a seed is made for one page. *)
Definition incremental (d : Delta) : Prop := match d with Reset _ => False | _ => True end.

(** A change of the state, the deltas it adds to the outbox, and what they do
    to a model. *)
Definition tracks (A : gset Z) (B : gset text) (A' : gset Z) (B' : gset text) (m m' : MonitorState) : Prop :=
  (monitor_wf m → monitor_wf m') ∧
  ∃ ds, outbox m' = outbox m ++ ds ∧ Forall incremental ds ∧
    (monitor_wf m → ∀ w, mirrors_upto A B w m → mirrors_upto A' B' (foldl fold_in w ds) m').

Lemma tracks_refl A B m : tracks A B A B m m.
Proof. split; [done|]. exists []. by rewrite app_nil_r. Qed.

Lemma tracks_trans A1 B1 A2 B2 A3 B3 m1 m2 m3 :
  tracks A1 B1 A2 B2 m1 m2 → tracks A2 B2 A3 B3 m2 m3 → tracks A1 B1 A3 B3 m1 m3.
Proof.
  intros [Hw1 (ds1 & Ho1 & Hi1 & Hm1)] [Hw2 (ds2 & Ho2 & Hi2 & Hm2)]. split; [auto|].
  exists (ds1 ++ ds2). split; [by rewrite Ho2, Ho1, app_assoc|]. split; [by apply Forall_app|]. intros Hwf w Hw. rewrite foldl_app. auto.
Qed.

(** ** Assignments *)

Lemma tracks_activity A B id a m :
  a_id a = id → tracks A B ({[id]} ∪ A) B m (with_activities (<[id := a]> (activities m)) m).
Proof.
  intros Ha. split.
  - intros []; constructor; simpl; [|done..]. intros i b [[<- <-]|[]]%lookup_insert_Some; [done|]. eauto.
  - exists []. rewrite app_nil_r. split_and!; [done..|]. intros _ w []; constructor; simpl; try done.
    intros i Hi. rewrite lookup_insert_ne by set_solver. set_solver.
Qed.

Lemma tracks_build A B drv b m :
  derivation b = drv → tracks A B A ({[drv]} ∪ B) m (with_builds (<[drv := b]> (builds m)) m).
Proof.
  intros Hb. split.
  - intros []; constructor; simpl; [done| |done]. intros i c [[<- <-]|[]]%lookup_insert_Some; [done|]. eauto.
  - exists []. rewrite app_nil_r. split_and!; [done..|]. intros _ w []; constructor; simpl; try done.
    intros i Hi. rewrite lookup_insert_ne by set_solver. set_solver.
Qed.

(** Fields no page shows. *)
Definition hidden_change (m m' : MonitorState) : Prop :=
  ∃ cd ld lr ps ro lc,
    m' = mkMonitor (activities m) (builds m) (logs m) (errors m) (progress m) (optimise m) (global m) (activation m)
           (diff m) (expected m) (exit_code m) (finished m) (command m) cd ld lr (rebuild_reasons m) ps ro lc
           (outbox m).

Lemma tracks_hidden A B m m' : hidden_change m m' → tracks A B A B m m'.
Proof.
  intros (cd & ld & lr & ps & ro & lc & ->). split; [by intros []; constructor|].
  exists []. rewrite app_nil_r. split_and!; [done..|]. by intros _ w []; constructor.
Qed.

Ltac hidden := apply tracks_hidden; unfold hidden_change; simpl; do 6 eexists; reflexivity.

(** ** Emissions *)

Lemma tracks_emit_activity A B id m :
  is_Some (activities m !! id) → tracks ({[id]} ∪ A) B A B m (emit_activity id m).
Proof.
  intros [a Ha]. unfold emit_activity. rewrite Ha. split; [by intros []; constructor|].
  exists [ActivityUpsert a]. split; [done|]. split; [by repeat constructor|]. intros Hwf w Hw. pose proof (wf_activities _ Hwf _ _ Ha) as Hid.
  destruct w, Hw; constructor; simpl in *; try done. intros i Hi. rewrite Hid.
  destruct (decide (i = id)) as [->|]; [by rewrite lookup_insert_eq, Ha|].
  rewrite lookup_insert_ne by done. set_solver.
Qed.

Lemma tracks_emit_build A B drv m :
  is_Some (builds m !! drv) → tracks A ({[drv]} ∪ B) A B m (emit_build drv m).
Proof.
  intros [b Hb]. unfold emit_build. rewrite Hb. split; [by intros []; constructor|].
  exists [BuildUpsert b]. split; [done|]. split; [by repeat constructor|]. intros Hwf w Hw. pose proof (wf_builds _ Hwf _ _ Hb) as Hid.
  destruct w, Hw; constructor; simpl in *; try done. intros i Hi. rewrite Hid.
  destruct (decide (i = drv)) as [->|]; [by rewrite lookup_insert_eq, Hb|].
  rewrite lookup_insert_ne by done. set_solver.
Qed.

(** Emitting a row again changes nothing. *)
Lemma tracks_emit_build_again A B drv m : drv ∉ B → tracks A B A B m (emit_build drv m).
Proof.
  intros Hdrv. unfold emit_build. destruct (builds m !! drv) as [b|] eqn:Hb; [|apply tracks_refl].
  split; [by intros []; constructor|]. exists [BuildUpsert b]. split; [done|]. split; [by repeat constructor|]. intros Hwf w Hw.
  pose proof (wf_builds _ Hwf _ _ Hb) as Hid. destruct w, Hw; constructor; simpl in *; try done. intros i Hi. rewrite Hid.
  destruct (decide (i = drv)) as [->|]; [by rewrite lookup_insert_eq, Hb|]. by rewrite lookup_insert_ne; auto.
Qed.

(** A field is assigned and the delta with its value emitted. *)
Ltac field_tracks :=
  split; [by intros []; constructor|]; eexists; split; [reflexivity|]; split; [by repeat constructor|]; intros _ w Hw; destruct w, Hw;
  constructor; simpl in *; first [assumption|congruence|subst; reflexivity].

Lemma tracks_set_rebuild_reason drv reason m : tracks ∅ ∅ ∅ ∅ m (set_rebuild_reason drv reason m).
Proof. unfold set_rebuild_reason. case_decide; [apply tracks_refl|]. field_tracks. Qed.

Lemma tracks_set_global g m : tracks ∅ ∅ ∅ ∅ m (set_global g m).
Proof. unfold set_global. case_decide; [apply tracks_refl|]. field_tracks. Qed.

Lemma tracks_activation a m : tracks ∅ ∅ ∅ ∅ m (emit_activation (with_activation a m)).
Proof. field_tracks. Qed.

Lemma tracks_set_diff d m : tracks ∅ ∅ ∅ ∅ m (set_diff d m).
Proof. field_tracks. Qed.

Lemma tracks_push_error message m : tracks ∅ ∅ ∅ ∅ m (push_error message m).
Proof. field_tracks. Qed.

Lemma tracks_optimise o m : tracks ∅ ∅ ∅ ∅ m (emit (OptimiseSet o) (with_optimise o m)).
Proof. field_tracks. Qed.

Lemma tracks_expected name value m :
  tracks ∅ ∅ ∅ ∅ m (emit (ExpectedSet name value) (with_expected (<[name := value]> (expected m)) m)).
Proof. field_tracks. Qed.

Lemma tracks_progress A B p m : tracks A B A B m (emit (ProgressSet p) (with_progress (Some p) m)).
Proof. field_tracks. Qed.

Lemma tracks_emit_dependencies edges m : tracks ∅ ∅ ∅ ∅ m (emit_dependencies edges m).
Proof. unfold emit_dependencies. case_decide; [apply tracks_refl|]. field_tracks. Qed.

Lemma tracks_emit_root_causes drvs m : tracks ∅ ∅ ∅ ∅ m (emit_root_causes drvs m).
Proof. unfold emit_root_causes. case_decide; [apply tracks_refl|]. field_tracks. Qed.

Lemma tracks_record_closure drv closure m : tracks ∅ ∅ ∅ ∅ m (record_closure drv closure m).
Proof.
  unfold record_closure. eapply tracks_trans; [|eapply tracks_trans; [apply tracks_emit_dependencies|apply tracks_emit_root_causes]].
  hidden.
Qed.

(** ** Logs *)

Lemma truncate_app {A} (older page : list A) max :
  truncate_head (older ++ page) max = drop (length (older ++ page) - max) older ++ drop (length page - max) page ∧
  (max < length page → drop (length (older ++ page) - max) older = []).
Proof.
  unfold truncate_head. rewrite length_app. split.
  - case_decide as H.
    + rewrite drop_app. f_equal. f_equal. lia.
    + replace (length older + length page - max) with 0 by lia.
      by replace (length page - max) with 0 by lia.
  - intros. apply drop_ge. lia.
Qed.

Lemma log_tail_push page server entry :
  length server ≤ STATE_LOG_RETAIN → log_tail page server →
  log_tail (cap_head (page ++ [entry]) LOG_RETAIN) (truncate_head (server ++ [entry]) STATE_LOG_RETAIN).
Proof.
  intros Hlen (older & -> & Hold). rewrite <- app_assoc.
  destruct (truncate_app older (page ++ [entry]) STATE_LOG_RETAIN) as [-> Hnil].
  assert (cap_head (page ++ [entry]) LOG_RETAIN = drop (length (page ++ [entry]) - STATE_LOG_RETAIN) (page ++ [entry])) as ->.
  { unfold cap_head, LOG_RETAIN, STATE_LOG_RETAIN. case_decide; [done|].
    by replace (length (page ++ [entry]) - 5000) with 0 by lia. }
  eexists. split; [reflexivity|]. destruct Hold as [->|Hold]; [left; by rewrite drop_nil|right].
  rewrite length_drop, !length_app in *. unfold SNAPSHOT_LOG_LIMIT, STATE_LOG_RETAIN in *. simpl. lia.
Qed.

Lemma length_truncate {A} (l : list A) max : length (truncate_head l max) ≤ max.
Proof. unfold truncate_head. case_decide; [rewrite length_drop|]; lia. Qed.

Lemma count_log_bump activity_id index level t m :
  builds (count_log activity_id m) = bump_log (mkLog index activity_id level t) (activities m) (builds m) ∧
  count_log activity_id m = with_builds (builds (count_log activity_id m)) m.
Proof.
  unfold count_log, bump_log. simpl. destruct (activity_id ≫= _) as [b|]; [|by destruct m].
  destruct (builds m !! b); by destruct m.
Qed.

Lemma bump_log_wf entry ac bu :
  (∀ drv b, bu !! drv = Some b → derivation b = drv) →
  ∀ drv b, bump_log entry ac bu !! drv = Some b → derivation b = drv.
Proof.
  intros Hwf drv b. unfold bump_log. destruct (_ ≫= _) as [k|]; [|auto]. destruct (bu !! k) as [n|] eqn:Hn; [|auto].
  intros [[<- <-]|[]]%lookup_insert_Some; [|auto]. simpl. eauto.
Qed.

Lemma bump_log_ext entry ac ac' bu bu' :
  (∀ id, ac !! id = without_fields <$> ac' !! id) → (∀ drv, bu !! drv = bu' !! drv) →
  ∀ drv, bump_log entry ac bu !! drv = bump_log entry ac' bu' !! drv.
Proof.
  intros Hac Hbu drv. replace bu' with bu by (by apply map_eq). unfold bump_log.
  destruct (l_activity_id entry) as [id|]; simpl; [|done]. rewrite Hac. by destruct (ac' !! id).
Qed.

Lemma tracks_push_log activity_id level t m : tracks ∅ ∅ ∅ ∅ m (push_log activity_id level t m).
Proof.
  unfold push_log. set (m1 := with_log_counter _ m).
  destruct (count_log_bump activity_id (log_counter m) level t m1) as [Hb ->]. rewrite Hb. simpl.
  split.
  - intros []; constructor; simpl; [done|by apply bump_log_wf|apply length_truncate].
  - eexists. split; [reflexivity|]. split; [by repeat constructor|]. intros Hwf w Hw. destruct w, Hw; constructor; simpl in *; try done.
    + intros drv _. apply bump_log_ext; set_solver.
    + by apply log_tail_push; [apply Hwf|].
Qed.

(** ** Builds and activities *)

Lemma tracks_emit_builds drvs B m :
  Forall (λ drv, is_Some (builds m !! drv)) drvs → tracks ∅ (list_to_set drvs ∪ B) ∅ B m (foldl (λ m drv, emit_build drv m) m drvs).
Proof.
  revert B m. induction drvs as [|drv drvs IH]; intros B m Hall; simpl.
  - rewrite (left_id_L ∅ (∪)). apply tracks_refl.
  - inversion Hall as [|? ? Hdrv Hrest]; subst. eapply tracks_trans.
    + rewrite <- (assoc_L (∪)). by apply tracks_emit_build.
    + apply IH. eapply Forall_impl; [done|]. simpl. intros d. unfold emit_build. by destruct (builds m !! drv).
Qed.

Lemma by_key_perm {A} (m : gmap text A) : by_key m ≡ₚ map_to_list m.
Proof. apply merge_sort_Permutation. Qed.
Lemma activities_by_id_perm {A} (m : gmap Z A) : by_id m ≡ₚ map_to_list m.
Proof. apply merge_sort_Permutation. Qed.

Lemma elem_by_key {A} (m : gmap text A) k a : (k, a) ∈ by_key m ↔ m !! k = Some a.
Proof. by rewrite by_key_perm, elem_of_map_to_list. Qed.

Lemma elem_ascending s (t : text) : t ∈ ascending s ↔ t ∈ s.
Proof. unfold ascending. by rewrite merge_sort_Permutation, elem_of_elements. Qed.

Lemma tracks_promote m : tracks ∅ ∅ ∅ ∅ m (promote_unfinished_builds m).
Proof.
  unfold promote_unfinished_builds. set (drvs := (filter _ _).*1). apply (tracks_trans _ _ ∅ (list_to_set drvs ∪ ∅)) with (m2 := with_builds
    ((λ b, if unfinished b then with_status Succeeded b else b) <$> builds m) m).
  2: { apply tracks_emit_builds. apply Forall_forall.
       intros drv ((k & b) & -> & [_ Hb%elem_by_key]%list_elem_of_filter)%list_elem_of_fmap. simpl.
       rewrite lookup_fmap, Hb. by eexists. }
  rewrite (right_id_L ∅ (∪)). split.
  - intros []; constructor; simpl; [done| |done]. intros drv b. rewrite lookup_fmap, fmap_Some.
    intros (c & Hc & ->). destruct (unfinished c); simpl; eauto.
  - exists []. rewrite app_nil_r. split_and!; [done..|]. intros _ w []; constructor; simpl; try done.
    intros drv Hdrv. rewrite lookup_fmap, mu_builds0 by set_solver. destruct (builds m !! drv) as [b|] eqn:Hb; [|done].
    simpl. destruct (unfinished b) eqn:Hu; [|done]. exfalso. apply Hdrv, elem_of_list_to_set, list_elem_of_fmap.
    exists (drv, b). split; [done|]. apply list_elem_of_filter. split; [done|]. by apply elem_by_key.
Qed.

(** The end of the run is recorded first and emitted last. *)
Definition settle (code : option Z) (m : MonitorState) : MonitorState := with_finished true (with_exit_code code m).

Lemma settle_promote code m : promote_unfinished_builds (settle code m) = settle code (promote_unfinished_builds m).
Proof.
  unfold promote_unfinished_builds. simpl. set (drvs := (filter _ _).*1).
  change (with_builds ?b (settle code m)) with (settle code (with_builds b m)).
  generalize (with_builds ((λ b, if unfinished b then with_status Succeeded b else b) <$> builds m) m).
  induction drvs as [|drv drvs IH]; intros m'; simpl; [done|]. rewrite <- IH. f_equal.
  unfold emit_build. simpl. by destruct (builds m' !! drv).
Qed.

Lemma tracks_settle code m : tracks ∅ ∅ ∅ ∅ m (emit (Finished code) (settle code m)).
Proof. field_tracks. Qed.

Lemma tracks_finish code m : tracks ∅ ∅ ∅ ∅ m (finish code m).
Proof.
  unfold finish. change (with_finished true (with_exit_code code m)) with (settle code m).
  case_decide; [|apply tracks_settle]. rewrite settle_promote. eapply tracks_trans; [apply tracks_promote|apply tracks_settle].
Qed.

(** A row assigned and emitted at once. *)
Lemma tracks_upsert_build A B drv b m :
  derivation b = drv → tracks A B A B m (emit_build drv (with_builds (<[drv := b]> (builds m)) m)).
Proof.
  intros Hb. eapply tracks_trans; [by apply tracks_build|]. apply tracks_emit_build. simpl.
  rewrite lookup_insert_eq. by eexists.
Qed.

Lemma tracks_upsert_build_wf A B drv row m :
  (monitor_wf m → derivation row = drv) →
  tracks A B A B m (emit_build drv (with_builds (<[drv := row]> (builds m)) m)).
Proof.
  intros Hrow. destruct (decide (derivation row = drv)); [by apply tracks_upsert_build|].
  split; [intros Hwf; by apply Hrow in Hwf|]. unfold emit_build. simpl. rewrite lookup_insert_eq.
  eexists. split; [reflexivity|]. split; [by repeat constructor|]. intros Hwf. by apply Hrow in Hwf.
Qed.

Lemma tracks_note_resolved A B action m : tracks A B A B m (note_resolved_derivation action m).
Proof.
  unfold note_resolved_derivation. case_decide; [|apply tracks_refl].
  destruct (text_field _ 0) as [original|]; [|apply tracks_refl].
  destruct (text_field _ 1) as [resolved|]; [|apply tracks_refl]. simpl.
  eapply tracks_trans; [apply (tracks_hidden _ _ _ (with_resolved_to_original (<[resolved := original]> (resolved_to_original m)) m)); unfold hidden_change; simpl; do 6 eexists; reflexivity|].
  destruct (builds m !! original) as [b|] eqn:Hb; [|apply tracks_refl].
  apply (tracks_upsert_build_wf A B original _ (with_resolved_to_original _ m)). intros Hwf.
  exact (wf_builds _ Hwf _ _ Hb).
Qed.

Lemma emit_build_activities drv m : activities (emit_build drv m) = activities m.
Proof. unfold emit_build. by destruct (builds m !! drv). Qed.

Lemma note_resolved_activities action m : activities (note_resolved_derivation action m) = activities m.
Proof.
  unfold note_resolved_derivation. case_decide; [|done]. destruct (text_field _ 0); [|done].
  destruct (text_field _ 1); [|done]. simpl. destruct (builds m !! _); [|done]. by rewrite emit_build_activities.
Qed.

Lemma started_row_name id h now_ms ca drv m :
  monitor_wf m → derivation (started_row id h now_ms ca drv (builds m !! drv)) = drv.
Proof. intros Hwf. destruct (builds m !! drv) as [b|] eqn:Hb; simpl; [by apply (wf_builds _ Hwf)|done]. Qed.

Lemma failed_row_name now_ms ca drv m :
  monitor_wf m → derivation (failed_row now_ms ca drv (builds m !! drv)) = drv.
Proof. intros Hwf. destruct (builds m !! drv) as [b|] eqn:Hb; simpl; [by apply (wf_builds _ Hwf)|done]. Qed.

Lemma tracks_start_activity now_ms action m : tracks ∅ ∅ ∅ ∅ m (start_activity now_ms action m).
Proof.
  unfold start_activity. set (build := resolve_alias m <$> _). set (node := mkActivity _ _ _ _ _ _ _ _ _ _ _ _ _).
  set (m1 := with_activities _ m).
  eapply (tracks_trans _ _ ({[sa_id action]} ∪ ∅) ∅); [by apply (tracks_activity ∅ ∅ (sa_id action) node)|].
  eapply tracks_trans; [apply tracks_note_resolved|].
  assert (is_Some (activities (note_resolved_derivation action m1) !! sa_id action)) as Hact.
  { rewrite note_resolved_activities. simpl. rewrite lookup_insert_eq. by eexists. }
  destruct build as [drv|]; [|by apply tracks_emit_activity].
  eapply tracks_trans.
  - apply tracks_upsert_build_wf. apply started_row_name.
  - apply tracks_emit_activity. by rewrite emit_build_activities.
Qed.

Lemma tracks_plan_build now_ms drv m : tracks ∅ ∅ ∅ ∅ m (plan_build now_ms drv m).
Proof. unfold plan_build. destruct (builds m !! drv); [apply tracks_refl|by apply tracks_upsert_build]. Qed.

Lemma tracks_note_build_plan now_ms t m : tracks ∅ ∅ ∅ ∅ m (note_build_plan now_ms t m).
Proof.
  unfold note_build_plan. destruct (is_build_plan_header t); [hidden|].
  destruct (if decide _ then _ else _) as [drv|]; [apply tracks_plan_build|].
  destruct (starts_with_whitespace t); [apply tracks_refl|hidden].
Qed.

Lemma tracks_mark_failed now_ms failure m : tracks ∅ ∅ ∅ ∅ m (mark_failed_build now_ms failure m).
Proof. apply tracks_upsert_build_wf, failed_row_name. Qed.

Lemma tracks_change_activity A B id a b m :
  activities m !! id = Some a → a_id b = a_id a →
  tracks A B ({[id]} ∪ A) B m (with_activities (<[id := b]> (activities m)) m).
Proof.
  intros Ha Hb. destruct (decide (a_id b = id)); [by apply tracks_activity|].
  split; [intros Hwf; pose proof (wf_activities _ Hwf _ _ Ha); congruence|].
  exists []. rewrite app_nil_r. split_and!; [done..|]. intros Hwf. pose proof (wf_activities _ Hwf _ _ Ha). congruence.
Qed.

Lemma tracks_change_build A B drv a b m :
  builds m !! drv = Some a → derivation b = derivation a →
  tracks A B A ({[drv]} ∪ B) m (with_builds (<[drv := b]> (builds m)) m).
Proof.
  intros Ha Hb. destruct (decide (derivation b = drv)); [by apply tracks_build|].
  split; [intros Hwf; pose proof (wf_builds _ Hwf _ _ Ha); congruence|].
  exists []. rewrite app_nil_r. split_and!; [done..|]. intros Hwf. pose proof (wf_builds _ Hwf _ _ Ha). congruence.
Qed.

Lemma tracks_then id a b m m' :
  activities m !! id = Some a → a_id b = a_id a →
  tracks ({[id]} ∪ ∅) ∅ ∅ ∅ (with_activities (<[id := b]> (activities m)) m) m' → tracks ∅ ∅ ∅ ∅ m m'.
Proof. intros Ha Hb. by apply tracks_trans, (tracks_change_activity _ _ id a b). Qed.

Ltac present := simpl; rewrite ?lookup_insert_eq; by eexists.

Lemma tracks_set_activity_size id n m : tracks ∅ ∅ ∅ ∅ m (set_activity_size id n m).
Proof.
  unfold set_activity_size. destruct (activities m !! id) as [a|] eqn:Ha; [|apply tracks_refl].
  eapply tracks_trans; [|apply tracks_emit_activity; present]. by eapply tracks_change_activity.
Qed.

Lemma emit_activity_builds id m : builds (emit_activity id m) = builds m.
Proof. unfold emit_activity. by destruct (activities m !! id). Qed.

Lemma tracks_stop_activity now_ms id m : tracks ∅ ∅ ∅ ∅ m (stop_activity now_ms id m).
Proof.
  unfold stop_activity. destruct (activities m !! id) as [a|] eqn:Ha; [|apply tracks_refl]. simpl.
  set (a' := mkActivity _ _ _ _ _ _ _ _ _ _ _ _ _).
  apply (tracks_then id a a'); [done..|]. set (m1 := with_activities _ m).
  assert (tracks ({[id]} ∪ ∅) ∅ ∅ ∅ m1 (emit_activity id m1)) by (apply tracks_emit_activity; present).
  destruct (a_build a) as [build|]; [|done].
  destruct (builds m !! build) as [b|] eqn:Hb; [|done]. case_decide; [|done].
  set (b' := mkBuild _ _ _ _ _ _ _ _ _).
  apply (tracks_trans _ _ ({[id]} ∪ ∅) ({[build]} ∪ ∅) _ _ _ (with_builds (<[build := b']> (builds m)) m1));
    [by apply (tracks_change_build _ _ build b b' m1)|].
  eapply tracks_trans; [apply tracks_emit_activity; present|].
  apply tracks_emit_build. rewrite emit_activity_builds. present.
Qed.

Lemma tracks_set_phase id phase m : tracks ∅ ∅ ∅ ∅ m (set_phase id phase m).
Proof.
  unfold set_phase. destruct (activities m !! id) as [a|] eqn:Ha; [|apply tracks_refl]. simpl.
  set (a' := mkActivity _ _ _ _ _ _ _ _ _ _ _ _ _).
  apply (tracks_then id a a'); [done..|].
  destruct (a_build a) as [build|]; [|apply tracks_emit_activity; present].
  destruct (builds m !! build) as [b|] eqn:Hb.
  - set (b' := mkBuild _ _ _ _ _ _ _ _ _). set (m1 := with_activities _ m).
    apply (tracks_trans _ _ ({[id]} ∪ ∅) ({[build]} ∪ ∅) _ _ _ (with_builds (<[build := b']> (builds m)) m1));
      [by apply (tracks_change_build _ _ build b b' m1)|].
    eapply tracks_trans; [apply tracks_emit_activity; present|].
    apply tracks_emit_build. rewrite emit_activity_builds. present.
  - eapply tracks_trans; [apply tracks_emit_activity; present|]. by apply tracks_emit_build_again.
Qed.

Lemma tracks_emit_progress A B p m :
  tracks A B A B m (emit (ProgressSet p) (with_progress (Some p) m)).
Proof. field_tracks. Qed.

Lemma tracks_set_progress id p m : tracks ∅ ∅ ∅ ∅ m (set_progress id p m).
Proof.
  unfold set_progress. destruct (activities m !! id) as [a|] eqn:Ha.
  - set (a' := mkActivity _ _ _ _ _ _ _ _ _ _ _ _ _). apply (tracks_then id a a'); [done..|]. case_bool_decide.
    + eapply tracks_trans; [apply tracks_emit_progress|]. apply tracks_emit_activity. present.
    + apply tracks_emit_activity. present.
  - unfold emit_activity. rewrite Ha. apply tracks_refl.
Qed.

Section lines.
Context `{!NixJson, !AnsiStrip}.

Lemma tracks_apply_result id result m : tracks ∅ ∅ ∅ ∅ m (apply_result id result m).
Proof.
  destruct result; simpl; first
    [apply tracks_push_log|apply tracks_set_phase|apply tracks_set_progress|apply tracks_optimise
    |apply tracks_expected|apply tracks_refl].
Qed.

Lemma tracks_mark_failure now_ms t m : tracks ∅ ∅ ∅ ∅ m (mark_failure now_ms t m).
Proof. unfold mark_failure. destruct (parse_builder_failure t); [apply tracks_mark_failed|apply tracks_refl]. Qed.

Lemma tracks_apply_message plan_ms fail_ms action m : tracks ∅ ∅ ∅ ∅ m (apply_message plan_ms fail_ms action m).
Proof.
  unfold apply_message. eapply tracks_trans; [|eapply tracks_trans; [apply tracks_push_log|
    eapply tracks_trans; [apply tracks_note_build_plan|apply tracks_mark_failure]]].
  case_decide; [apply tracks_push_error|apply tracks_refl].
Qed.

Lemma tracks_apply_line now_ms later_ms line m : tracks ∅ ∅ ∅ ∅ m (apply_line now_ms later_ms line m).
Proof.
  unfold apply_line. destruct (parse_line line) as [[action|id|id result|action|raw]|t|t error]; simpl.
  - apply tracks_start_activity.
  - apply tracks_stop_activity.
  - apply tracks_apply_result.
  - apply tracks_apply_message.
  - apply tracks_refl.
  - eapply tracks_trans; [apply tracks_mark_failure|apply tracks_push_log].
  - eapply tracks_trans; [apply tracks_push_error|apply tracks_push_log].
Qed.

(** Every operation emits what it changes. *)
Lemma tracks_run op m : tracks ∅ ∅ ∅ ∅ m (run op m).
Proof.
  destruct op; simpl; first
    [apply tracks_apply_line|apply tracks_record_closure|apply tracks_set_rebuild_reason
    |apply tracks_set_activity_size|apply tracks_set_global|apply tracks_activation|apply tracks_set_diff
    |apply tracks_promote|apply tracks_finish].
Qed.
End lines.
