(* ===== verification/NwmSystem.v ===== *)
(** The pages of nix-web-monitor against the server's state: a page that has
    read everything shows the current rows, progress and results, whenever it
    connected; its log, its errors and its counts of log lines are right too if
    nothing was pending when its last seed was taken, and not otherwise. *)

From stdpp Require Import base gmap sets list strings sorting relations.
From Stdlib Require Import Lia.
From S2P Require Import Prelude Chars JsonValue NwmEvent NwmState NwmClient NwmMirror.

(** * Seeds *)

Lemma rows_by_fold {K} `{Countable K} {V} (key : V → K) (rows : list V) (m : gmap K V) k :
  NoDup (key <$> rows) →
  foldl (λ m row, <[key row := row]> m) m rows !! k =
  match list_find (λ row, key row = k) rows with Some (_, row) => Some row | None => m !! k end.
Proof.
  revert m. induction rows as [|row rows IH]; intros m; csimpl; [done|].
  intros [Hrow Hnd]%NoDup_cons. rewrite IH by done. case_decide as Hk.
  - subst. destruct (list_find _ rows) as [[i r]|] eqn:Hf; simpl; [|by rewrite lookup_insert_eq].
    exfalso. apply list_find_Some in Hf as (Hr & Hkey & _). apply Hrow. rewrite <- Hkey.
    by eapply list_elem_of_fmap_2, list_elem_of_lookup_2.
  - destruct (list_find _ rows) as [[i r]|]; simpl; [done|]. by rewrite lookup_insert_ne.
Qed.

Lemma rows_by_entries {K} `{Countable K} {V} (key : V → K) (entries : list (K * V)) m :
  entries ≡ₚ map_to_list m → (∀ k v, m !! k = Some v → key v = k) → rows_by key entries.*2 = m.
Proof.
  intros Hperm Hkey.
  assert (key <$> entries.*2 = entries.*1) as Hkeys.
  { rewrite <- list_fmap_compose. apply list_fmap_ext. intros i [k v] Hi%list_elem_of_lookup_2. simpl.
    rewrite Hperm, elem_of_map_to_list in Hi. by apply Hkey. }
  assert (NoDup entries.*1) as Hnd by (rewrite Hperm; apply NoDup_fst_map_to_list).
  apply map_eq. intros k. unfold rows_by. rewrite rows_by_fold, lookup_empty by (by rewrite Hkeys).
  destruct (list_find _ _) as [[i v]|] eqn:Hf.
  - apply list_find_Some in Hf as (Hv & Hk & _). apply list_elem_of_lookup_2, list_elem_of_fmap in Hv as ([k' v'] & -> & Hin).
    rewrite Hperm, elem_of_map_to_list in Hin. simpl in *. pose proof (Hkey _ _ Hin). congruence.
  - apply list_find_None in Hf. destruct (m !! k) as [v|] eqn:Hm; [|done]. exfalso.
    rewrite Forall_forall in Hf. apply (Hf v); [|by apply Hkey].
    apply list_elem_of_fmap. exists (k, v). split; [done|]. by rewrite Hperm, elem_of_map_to_list.
Qed.

Lemma rows_by_fmap {K} `{Countable K} {V} (key : V → K) (f : V → V) (rows : list V) :
  (∀ v, key (f v) = key v) → rows_by key (f <$> rows) = f <$> rows_by key rows.
Proof.
  intros Hf. unfold rows_by.
  assert (∀ m : gmap K V, foldl (λ m row, <[key row := row]> m) (f <$> m) (f <$> rows) =
    f <$> foldl (λ m row, <[key row := row]> m) m rows) as Hgen.
  { induction rows as [|row rows IH]; intros m; csimpl; [done|]. by rewrite Hf, <- fmap_insert, IH. }
  by rewrite <- Hgen, fmap_empty.
Qed.

(** A fresh seed is a model of the state. *)
Lemma seed_mirrors w m : monitor_wf m → mirrors (fold_in w (Reset (snapshot m))) m.
Proof.
  intros Hwf. destruct w. constructor; simpl; try done.
  - intros id _. rewrite rows_by_fmap, lookup_fmap by done. f_equal.
    rewrite (rows_by_entries a_id _ (activities m)); [done|apply activities_by_id_perm|apply Hwf].
  - intros drv _. rewrite (rows_by_entries derivation _ (builds m)); [done|apply by_key_perm|apply Hwf].
  - exists (take (length (logs m) - SNAPSHOT_LOG_LIMIT) (logs m)). split; [by rewrite take_drop|].
    rewrite length_drop. destruct (decide (length (logs m) ≤ SNAPSHOT_LOG_LIMIT)); [left|right; lia].
    by replace (length (logs m) - SNAPSHOT_LOG_LIMIT) with 0 by lia.
Qed.

(** * What a page shows of the state *)

Definition uncounted (b : BuildNode) : BuildNode :=
  mkBuild (derivation b) (b_activity_id b) (host b) (b_phase b) (b_status b) 0 (b_started_at_ms b)
    (b_stopped_at_ms b) (content_addressed b).

Inductive Register :=
| RCommand | RActivity (id : Z) | RBuild (drv : text) | RProgress | ROptimise | RGlobal | RActivation | RDiff
| RExpected (name : text) | RReason (drv : text) | REnd.
#[export] Instance Register_eq_dec : EqDecision Register.
Proof. solve_decision. Defined.

Inductive Content :=
| CCommand (c : text) | CActivity (a : ActivityNode) | CBuild (b : BuildNode) | CProgress (p : ActivityProgress)
| COptimise (o : OptimiseStats) | CGlobal (g : GlobalBuilds) | CActivation (a : Activation) | CDiff (d : text)
| CExpected (v : Z) | CReason (r : text) | CEnd (code : option Z) (over : bool).

(** The contents of a page's model and of the state; counts of log lines apart. *)
Definition page_shows (w : Working) (r : Register) : option Content :=
  match r with
  | RCommand => Some (CCommand (w_command w))
  | RActivity id => CActivity <$> w_activities w !! id
  | RBuild drv => CBuild ∘ uncounted <$> w_builds w !! drv
  | RProgress => CProgress <$> w_progress w
  | ROptimise => Some (COptimise (w_optimise w))
  | RGlobal => Some (CGlobal (w_global w))
  | RActivation => Some (CActivation (w_activation w))
  | RDiff => CDiff <$> w_diff w
  | RExpected name => CExpected <$> w_expected w !! name
  | RReason drv => CReason <$> w_rebuild_reasons w !! drv
  | REnd => Some (CEnd (w_exit_code w) (w_finished w))
  end.
Definition state_has (m : MonitorState) (r : Register) : option Content :=
  match r with
  | RCommand => Some (CCommand (command m))
  | RActivity id => CActivity ∘ without_fields <$> activities m !! id
  | RBuild drv => CBuild ∘ uncounted <$> builds m !! drv
  | RProgress => CProgress <$> progress m
  | ROptimise => Some (COptimise (optimise m))
  | RGlobal => Some (CGlobal (global m))
  | RActivation => Some (CActivation (activation m))
  | RDiff => CDiff <$> diff m
  | RExpected name => CExpected <$> expected m !! name
  | RReason drv => CReason <$> rebuild_reasons m !! drv
  | REnd => Some (CEnd (exit_code m) (finished m))
  end.

Lemma mirrors_shows w m : mirrors w m → ∀ r, page_shows w r = state_has m r.
Proof.
  intros [] r. destruct r; simpl; try congruence.
  - rewrite mu_activities by set_solver. by destruct (activities m !! id).
  - by rewrite mu_builds by set_solver.
Qed.

(** What a delta assigns. *)
Definition write (d : Delta) : option (Register * Content) :=
  match d with
  | BuildUpsert b => Some (RBuild (derivation b), CBuild (uncounted b))
  | ActivityUpsert a => Some (RActivity (a_id a), CActivity (without_fields a))
  | ProgressSet p => Some (RProgress, CProgress p)
  | OptimiseSet o => Some (ROptimise, COptimise o)
  | GlobalSet g => Some (RGlobal, CGlobal g)
  | ActivationSet a => Some (RActivation, CActivation a)
  | DiffSet d => Some (RDiff, CDiff d)
  | ExpectedSet name value => Some (RExpected name, CExpected value)
  | RebuildReasonSet drv reason => Some (RReason drv, CReason reason)
  | Finished code => Some (REnd, CEnd code true)
  | Reset _ | LogsAppend _ | ErrorAppend _ | DependenciesSet _ | RootCausesSet _ => None
  end.

Definition overwrite (r : Register) (old : option Content) (d : Delta) : option Content :=
  match write d with Some (r', c) => if decide (r = r') then Some c else old | None => old end.

Lemma put_log_shows w entry r : page_shows (put_log w entry) r = page_shows w r.
Proof.
  destruct r; simpl; try done. unfold bump_log. destruct (_ ≫= _) as [build|]; [|done].
  destruct (w_builds w !! build) as [b|] eqn:Hb; [|done].
  destruct (decide (drv = build)) as [->|]; [by rewrite lookup_insert_eq, Hb|by rewrite lookup_insert_ne].
Qed.

Lemma put_logs_shows w entries r : page_shows (foldl put_log w entries) r = page_shows w r.
Proof. revert w. induction entries as [|e es IH]; intros w; simpl; [done|]. by rewrite IH, put_log_shows. Qed.

Lemma fold_in_shows w d r : incremental d → page_shows (fold_in w d) r = overwrite r (page_shows w r) d.
Proof.
  intros Hd. destruct d; try done.
  3: { rewrite <- (put_logs_shows w entries r). unfold fold_in, overwrite. destruct w. simpl.
       by destruct (foldl _ _ entries), r. }
  all: destruct w, r; unfold overwrite; simpl; try done; try (by case_decide; simplify_eq).
  all: case_decide; simplify_eq; try (by rewrite lookup_insert_eq); rewrite lookup_insert_ne by congruence; done.
Qed.

Lemma fold_all_shows w ds r :
  Forall incremental ds → page_shows (foldl fold_in w ds) r = foldl (overwrite r) (page_shows w r) ds.
Proof.
  revert w. induction ds as [|d ds IH]; intros w; simpl; [done|]. intros [Hd Hds]%Forall_cons_1.
  by rewrite IH, fold_in_shows.
Qed.

(** A sequence of deltas assigns a register or leaves it alone. *)
Lemma overwrite_all r ds :
  (∀ old, foldl (overwrite r) old ds = old) ∨ ∃ c, ∀ old, foldl (overwrite r) old ds = c.
Proof.
  induction ds as [|d ds IH] using rev_ind; simpl; [by left|]. setoid_rewrite foldl_app. simpl.
  unfold overwrite at 1 3. destruct (write d) as [[r' c]|]; [|exact IH].
  case_decide; [right; by eexists|exact IH].
Qed.

(** * The system *)

(** What is pending in the outbox has been assigned already. *)
Definition absorbed (m : MonitorState) : Prop :=
  ∀ r, foldl (overwrite r) (state_has m r) (outbox m) = state_has m r.

Record system_ok (s : System) : Prop := {
  ok_monitor : monitor_wf (monitor s);
  ok_incremental : Forall incremental (outbox (monitor s));
  ok_absorbed : absorbed (monitor s);
  ok_next : ∀ i c, clients s !! i = Some c → next c ≤ length (channel s) }.

(** ** Numbers that arrive as they were sent *)

(** A message whose numbers JavaScript has. *)
Definition exact (d : Delta) : Prop := decode_delta d = parse_delta d.

(** What the server sends, and what a seed would be, at this moment. *)
Definition exact_state (s : System) : Prop := Forall exact (outbox (monitor s)) ∧ exact (Reset (snapshot (monitor s))).

Lemma js_number_exact z : (Z.abs z ≤ 2 ^ 53)%Z → js_number z = z.
Proof. intros Hz. unfold js_number. by rewrite decide_True. Qed.

(** A test of all the numbers of a message. *)
Section all_numbers.
Context (P : Z → bool).
Definition all_option (z : option Z) : bool := from_option P true z.
Definition all_progress (p : ActivityProgress) : bool := P (done p) && P (p_expected p) && P (running p) && P (p_failed p).
Definition all_activity (a : ActivityNode) : bool :=
  P (a_id a) && all_option (a_parent a) && P (code (a_type a)) && from_option all_progress true (a_progress a) &&
  P (a_started_tick a) && P (a_started_at_ms a) && all_option (a_stopped_at_ms a) && all_option (a_size_bytes a).
Definition all_build (b : BuildNode) : bool :=
  all_option (b_activity_id b) && P (log_count b) && P (b_started_at_ms b) && all_option (b_stopped_at_ms b).
Definition all_log (e : LogEntry) : bool := P (l_index e) && all_option (l_activity_id e) && all_option (l_level e).
Definition all_optimise (o : OptimiseStats) : bool := P (files_linked o) && P (bytes_freed o).
Definition all_goal (b : GlobalBuild) : bool :=
  all_option (pid b) && all_option (start_time b) && all_option (uid b) && all_option (cpu_percent b) &&
  all_option (rss_bytes b) && all_option (start_ticks b).
Definition all_step (s : ActivationStep) : bool := P (s_started_at_ms s) && all_option (s_stopped_at_ms s).
Definition all_snapshot (s : MonitorSnapshot) : bool :=
  forallb all_activity (sn_activities s) && forallb all_build (sn_builds s) && forallb all_log (sn_logs s) &&
  from_option all_progress true (sn_progress s) && all_optimise (sn_optimise s) && forallb all_goal (g_builds (sn_global s)) &&
  forallb all_step (steps (sn_activation s)) && bool_decide (map_Forall (λ _ v, P v = true) (sn_expected s)) &&
  all_option (sn_exit_code s).
Definition all_delta (d : Delta) : bool :=
  match d with
  | Reset s => all_snapshot s
  | BuildUpsert b => all_build b
  | ActivityUpsert a => all_activity a
  | LogsAppend entries => forallb all_log entries
  | ProgressSet p => all_progress p
  | OptimiseSet o => all_optimise o
  | GlobalSet g => forallb all_goal (g_builds g)
  | ActivationSet a => forallb all_step (steps a)
  | ExpectedSet _ value => P value
  | Finished code => all_option code
  | DiffSet _ | ErrorAppend _ | DependenciesSet _ | RootCausesSet _ | RebuildReasonSet _ _ => true
  end.

Context (f : Z → Z) (Hf : ∀ z, P z = true → f z = z).

Ltac kept_numbers :=
  repeat match goal with H : _ && _ = true |- _ => apply andb_true_iff in H as [? ?] end;
  repeat match goal with H : P _ = true |- _ => apply Hf in H; rewrite H; clear H end.

Lemma all_option_kept z : all_option z = true → f <$> z = z.
Proof. destruct z as [z|]; [|done]. intros Hz%Hf. csimpl. by rewrite Hz. Qed.
Lemma all_list_kept {A} (t : A → bool) (g : A → A) l :
  (∀ a, t a = true → g a = a) → forallb t l = true → g <$> l = l.
Proof. intros Hg. induction l as [|a l IH]; csimpl; [done|]. intros [Ha Hl]%andb_true_iff. by rewrite Hg, IH. Qed.
Lemma all_progress_kept p : all_progress p = true → num_progress f p = p.
Proof. unfold all_progress, num_progress. intros H. kept_numbers. by destruct p. Qed.
Lemma all_some_progress_kept p : from_option all_progress true p = true → num_progress f <$> p = p.
Proof. destruct p as [p|]; [|done]. intros Hp%all_progress_kept. csimpl. by rewrite Hp. Qed.
Lemma all_activity_kept a : all_activity a = true → num_activity f a = a.
Proof.
  unfold all_activity, num_activity. intros H. kept_numbers.
  rewrite all_some_progress_kept, !all_option_kept by done. by destruct a as [? ? []].
Qed.
Lemma all_build_kept b : all_build b = true → num_build f b = b.
Proof. unfold all_build, num_build. intros H. kept_numbers. rewrite !all_option_kept by done. by destruct b. Qed.
Lemma all_log_kept e : all_log e = true → num_log f e = e.
Proof. unfold all_log, num_log. intros H. kept_numbers. rewrite !all_option_kept by done. by destruct e. Qed.
Lemma all_optimise_kept o : all_optimise o = true → num_optimise f o = o.
Proof. unfold all_optimise, num_optimise. intros H. kept_numbers. by destruct o. Qed.
Lemma all_goal_kept b : all_goal b = true → num_global_build f b = b.
Proof. unfold all_goal, num_global_build. intros H. kept_numbers. rewrite !all_option_kept by done. by destruct b. Qed.
Lemma all_step_kept s : all_step s = true → num_step f s = s.
Proof. unfold all_step, num_step. intros H. kept_numbers. rewrite all_option_kept by done. by destruct s. Qed.
Lemma all_global_kept g : forallb all_goal (g_builds g) = true → num_global f g = g.
Proof. intros H. unfold num_global. rewrite (all_list_kept _ _ _ all_goal_kept H). by destruct g. Qed.
Lemma all_activation_kept a : forallb all_step (steps a) = true → num_activation f a = a.
Proof. intros H. unfold num_activation. rewrite (all_list_kept _ _ _ all_step_kept H). by destruct a. Qed.
Lemma all_expected_kept (m : gmap text Z) : map_Forall (λ _ v, P v = true) m → f <$> m = m.
Proof.
  intros H. apply map_eq. intros k. rewrite lookup_fmap. destruct (m !! k) as [v|] eqn:Hv; [|done].
  csimpl. by rewrite (Hf v (H _ _ Hv)).
Qed.
Lemma all_snapshot_kept s : all_snapshot s = true → num_snapshot f s = s.
Proof.
  unfold all_snapshot, num_snapshot. intros H. kept_numbers.
  rewrite (all_list_kept _ _ _ all_activity_kept), (all_list_kept _ _ _ all_build_kept), (all_list_kept _ _ _ all_log_kept),
    all_some_progress_kept, all_optimise_kept, all_global_kept, all_activation_kept, all_option_kept by done.
  rewrite all_expected_kept by (by eapply bool_decide_eq_true). by destruct s.
Qed.
Lemma all_delta_kept d : all_delta d = true → num_delta f d = d.
Proof.
  destruct d; simpl; try done; intros H; f_equal.
  - by apply all_snapshot_kept.
  - by apply all_build_kept.
  - by apply all_activity_kept.
  - by eapply all_list_kept; [apply all_log_kept|].
  - by apply all_progress_kept.
  - by apply all_optimise_kept.
  - by apply all_global_kept.
  - by apply all_activation_kept.
  - by apply Hf.
  - by apply all_option_kept.
Qed.
End all_numbers.

Definition in_range (z : Z) : bool := bool_decide (Z.abs z ≤ 2 ^ 53)%Z.

Lemma in_range_exact d : all_delta in_range d = true → exact d.
Proof.
  intros Hd. unfold exact, decode_delta. rewrite (all_delta_kept in_range); [done| |done].
  intros z Hz%bool_decide_eq_true. by apply js_number_exact.
Qed.

Definition in_range_state (s : System) : bool :=
  forallb (all_delta in_range) (outbox (monitor s)) && all_snapshot in_range (snapshot (monitor s)).

Lemma in_range_state_exact s : in_range_state s = true → exact_state s.
Proof.
  intros [Ho Hr]%andb_true_iff. split; [|by apply (in_range_exact (Reset _))].
  apply Forall_forall. intros d Hd. apply in_range_exact. rewrite forallb_forall in Ho. by apply Ho, list_elem_of_In.
Qed.

(** All messages on their way arrive as they were sent. *)
Record exact_ok (s : System) : Prop := {
  eo_state : exact_state s;
  eo_channel : Forall exact (channel s);
  eo_sockets : ∀ i c, clients s !! i = Some c → Forall exact (socket c) }.

Record client_ok (m : MonitorState) (sent : list Delta) (c : Client) : Prop := {
  ok_shows : ∀ r, page_shows (foldl fold_in (working c) (socket c ++ drop (next c) sent ++ outbox m)) r = state_has m r;
  ok_exact : pending c = [] → mirrors (foldl fold_in (working c) (socket c ++ drop (next c) sent ++ outbox m)) m }.

Definition pages_ok (s : System) : Prop := ∀ i c, clients s !! i = Some c → client_ok (monitor s) (channel s) c.

Section system.
Context `{!NixJson, !AnsiStrip}.

(** A page of the state before, for reading off what a handler assigns. *)
Lemma run_assigns op m ds r :
  monitor_wf m → outbox (run op m) = outbox m ++ ds → Forall incremental ds ∧
  state_has (run op m) r = foldl (overwrite r) (state_has m r) ds.
Proof.
  intros Hwf Hds. destruct (tracks_run op m) as (_ & ds' & Hds' & Hinc & Hm).
  rewrite Hds' in Hds. apply app_inv_head in Hds as ->. split; [done|].
  pose proof (seed_mirrors create_working m Hwf) as Hseed.
  rewrite <- (mirrors_shows _ _ (Hm Hwf _ Hseed)), <- (mirrors_shows _ _ Hseed). by apply fold_all_shows.
Qed.

Lemma run_absorbed op m : monitor_wf m → absorbed m → absorbed (run op m).
Proof.
  intros Hwf Habs r. destruct (tracks_run op m) as (_ & ds & Hds & _ & _).
  destruct (run_assigns op m ds r Hwf Hds) as [_ Hhas]. rewrite Hds, foldl_app.
  destruct (overwrite_all r ds) as [Hid|(c & Hc)].
  - rewrite Hid in *. by rewrite Hhas, Habs.
  - by rewrite Hhas, !Hc.
Qed.

Lemma run_client_ok op m sent c :
  monitor_wf m → next c ≤ length sent → client_ok m sent c → client_ok (run op m) sent c.
Proof.
  intros Hwf Hn [Hs He]. destruct (tracks_run op m) as (_ & ds & Hds & _ & Hm). split.
  - intros r. destruct (run_assigns op m ds r Hwf Hds) as [Hinc Hhas]. rewrite Hds, !app_assoc, foldl_app.
    rewrite fold_all_shows by done. rewrite <- app_assoc, Hs. by rewrite Hhas.
  - intros Hp. rewrite Hds, !app_assoc, foldl_app. apply (Hm Hwf). rewrite <- app_assoc. by apply He.
Qed.

Lemma broadcast_client_ok m sent c :
  next c ≤ length sent → client_ok m sent c → client_ok (drain_deltas m).2 (sent ++ (drain_deltas m).1) c.
Proof.
  intros Hn [Hs He]. split; simpl; rewrite app_nil_r, drop_app_le by done.
  - done.
  - intros Hp. by destruct (He Hp).
Qed.

Lemma seed_client_ok m sent frames w :
  monitor_wf m → Forall incremental (outbox m) → absorbed m → client_ok m sent (seed m sent frames w).
Proof.
  intros Hwf Hinc Habs. unfold seed. split; simpl; rewrite drop_all; simpl; rewrite <- app_assoc, foldl_app; simpl.
  - intros r. rewrite fold_all_shows by done. rewrite (mirrors_shows _ m) by by apply seed_mirrors. apply Habs.
  - intros ->. by apply seed_mirrors.
Qed.

Lemma mutate_ok op m sent cs : system_ok (mkSystem m sent cs) → system_ok (mkSystem (run op m) sent cs).
Proof.
  intros [Hwf Hinc Habs Hcs]. simpl in *. split; simpl.
  - by apply (tracks_run op m).
  - destruct (tracks_run op m) as (_ & ds & Hds & Hi & _). rewrite Hds. by apply Forall_app.
  - by apply run_absorbed.
  - done.
Qed.

Lemma serve_ok s s' : serve s s' → system_ok s → system_ok s'.
Proof.
  intros Hstep [Hwf Hinc Habs Hcs].
  destruct Hstep as [m sent cs|i m sent cs Hi|i c d m sent cs Hi Hlag Hd|i c m sent cs Hi Hlag
    |i c d frames m sent cs Hi Hsock|i m sent cs]; simpl in *; split; simpl; try done.
  - by destruct Hwf.
  - intros i c Hc%Hcs. rewrite length_app. lia.
  - intros j c [[<- <-]|[]]%lookup_insert_Some; [done|eauto].
  - intros j c' [[<- <-]|[]]%lookup_insert_Some; [|eauto]. apply lookup_lt_Some in Hd. simpl. lia.
  - intros j c' [[<- <-]|[]]%lookup_insert_Some; [done|eauto].
  - intros j c' [[<- <-]|[]]%lookup_insert_Some; [|eauto]. simpl. eauto.
  - intros j c' [_ ?]%lookup_delete_Some. eauto.
Qed.

Lemma step_ok s s' : step s s' → system_ok s → system_ok s'.
Proof. intros [op m sent cs|]; [apply mutate_ok|by apply serve_ok]. Qed.

Lemma start_ok label : system_ok (start label).
Proof.
  split; simpl; [|constructor|done|done].
  constructor; simpl; [intros ??; rewrite lookup_empty; done..|unfold STATE_LOG_RETAIN; lia].
Qed.

Lemma reachable_ok label s : rtc step (start label) s → system_ok s.
Proof.
  intros Hs. pose proof (start_ok label) as Hok. revert Hok.
  induction Hs as [|s1 s2 s3 H12 _ IH]; [done|]. eauto using step_ok.
Qed.

(** ** Runs with exact numbers *)

Definition exact_step (s s' : System) : Prop := step s s' ∧ exact_state s'.

Lemma exact_step_ok s s' : exact_step s s' → exact_ok s → exact_ok s'.
Proof.
  intros [Hstep Hs'] [[Ho Hr] Hch Hso]. split; [done|..].
  - destruct Hstep as [op m sent cs|? ? []]; simpl in *; try done. by apply Forall_app.
  - destruct Hstep as [op m sent cs|s1 s1' Hserve]; [done|].
    destruct Hserve as [m sent cs|i m sent cs Hi|i c d m sent cs Hi Hlag Hd|i c m sent cs Hi Hlag
      |i c d frames m sent cs Hi Hsock|i m sent cs]; simpl in *; try done.
    + intros j c' [[<- <-]|[_ Hc]]%lookup_insert_Some; [by constructor|by eapply Hso].
    + intros j c' [[<- <-]|[_ Hc]]%lookup_insert_Some; [|by eapply Hso]. simpl. apply Forall_app. split; [by eapply Hso|].
      constructor; [|done]. rewrite Forall_forall in Hch. by eapply Hch, list_elem_of_lookup_2.
    + intros j c' [[<- <-]|[_ Hc]]%lookup_insert_Some; [|by eapply Hso]. simpl. apply Forall_app.
      split; [by eapply Hso|by constructor].
    + intros j c' [[<- <-]|[_ Hc]]%lookup_insert_Some; [|by eapply Hso]. specialize (Hso _ _ Hi). rewrite Hsock in Hso.
      simpl. by inversion Hso.
    + intros j c' [_ Hc]%lookup_delete_Some. by eapply Hso.
Qed.

Lemma receive_exact w d : exact d → receive w d = fold_in w d.
Proof. intros Hd. unfold receive, fold_in. by rewrite Hd. Qed.

Lemma serve_pages s s' : serve s s' → system_ok s → exact_ok s → pages_ok s → pages_ok s'.
Proof.
  intros Hstep [Hwf Hinc Habs Hn] Hex Hcs.
  destruct Hstep as [m sent cs|i m sent cs Hi|i c d m sent cs Hi Hlag Hd|i c m sent cs Hi Hlag
    |i c d frames m sent cs Hi Hsock|i m sent cs]; unfold pages_ok in *; simpl in *.
  - intros i c Hc. apply broadcast_client_ok; [by eapply Hn|by apply (Hcs i)].
  - intros j c [[<- <-]|[]]%lookup_insert_Some; [by apply seed_client_ok|eauto].
  - intros j c' [[<- <-]|[]]%lookup_insert_Some; [|eauto]. destruct (Hcs _ _ Hi) as [Hs He].
    pose proof (drop_S _ _ _ Hd) as Hdrop. split; simpl; by rewrite Hdrop, <- app_assoc in *.
  - intros j c' [[<- <-]|[]]%lookup_insert_Some; [by apply seed_client_ok|eauto].
  - intros j c' [[<- <-]|[]]%lookup_insert_Some; [|eauto]. destruct (Hcs _ _ Hi) as [Hs He].
    pose proof (eo_sockets _ Hex _ _ Hi) as Hd. rewrite Hsock in *. inversion_clear Hd as [|? ? Hd1 _].
    split; simpl; by rewrite receive_exact.
  - intros j c' [_ ?]%lookup_delete_Some. eauto.
Qed.

Lemma step_pages s s' : step s s' → system_ok s → exact_ok s → pages_ok s → pages_ok s'.
Proof.
  intros [op m sent cs|]; [|by apply serve_pages]. intros [Hwf Hinc Habs Hn] _ Hcs i c Hc. simpl in *.
  apply run_client_ok; [done|by eapply Hn|by apply (Hcs i)].
Qed.

Lemma start_exact label : exact_ok (start label).
Proof. by split; [split|..]. Qed.

Lemma exact_run_ok label s : rtc exact_step (start label) s → system_ok s ∧ exact_ok s ∧ pages_ok s.
Proof.
  intros Hs. assert (system_ok (start label) ∧ exact_ok (start label) ∧ pages_ok (start label)) as Hok.
  { split; [apply start_ok|]. split; [apply start_exact|done]. }
  revert Hok. induction Hs as [|s1 s2 s3 H12 _ IH]; [done|]. intros (H1 & H2 & H3). pose proof H12 as [Hstep _].
  apply IH. split; [by eapply step_ok|]. split; [by eapply exact_step_ok|by eapply step_pages].
Qed.

(** ** Catching up *)

Lemma reads_all i m sent cs c :
  cs !! i = Some c → next c = length sent →
  ∃ cs' c', rtc serve (mkSystem m sent cs) (mkSystem m sent cs') ∧ cs' !! i = Some c' ∧
    next c' = length sent ∧ socket c' = [].
Proof.
  remember (socket c) as frames eqn:Hf. revert cs c Hf.
  induction frames as [|d frames IH]; intros cs c Hf Hc Hn; [by exists cs, c|].
  destruct (IH (<[i := mkClient (next c) frames (receive (working c) d) (pending c)]> cs)
    (mkClient (next c) frames (receive (working c) d) (pending c))) as (cs' & c' & Hrtc & H'); [done|apply lookup_insert_eq|done|].
  exists cs', c'. split; [|done]. eapply rtc_l; [|exact Hrtc].
  by eapply serve_read.
Qed.

Lemma forwards_all i m sent cs c :
  cs !! i = Some c → next c ≤ length sent → length sent - next c ≤ DELTA_CHANNEL_CAPACITY →
  ∃ cs' c', rtc serve (mkSystem m sent cs) (mkSystem m sent cs') ∧ cs' !! i = Some c' ∧ next c' = length sent.
Proof.
  remember (length sent - next c) as n eqn:Hn. revert cs c Hn.
  induction n as [|n IH]; intros cs c Hn Hc Hle Hcap; [exists cs, c; by split_and!; [|done|lia]|].
  destruct (lookup_lt_is_Some_2 sent (next c)) as [d Hd]; [lia|].
  destruct (IH (<[i := mkClient (S (next c)) (socket c ++ [d]) (working c) (pending c)]> cs)
    (mkClient (S (next c)) (socket c ++ [d]) (working c) (pending c))) as (cs' & c' & Hrtc & H');
    [simpl; lia|apply lookup_insert_eq|simpl; lia|lia|].
  exists cs', c'. split; [|done]. eapply rtc_l; [|exact Hrtc].
  eapply serve_forward; [done|lia|done].
Qed.

(** ** Executions

    The steps as functions, for running the system on examples. *)

Inductive Act := AMutate (op : Op) | ABroadcast | AConnect (i : nat) | AForward (i : nat) | AReseed (i : nat) | ARead (i : nat).

Definition act (a : Act) (s : System) : option System :=
  let '(mkSystem m sent cs) := s in
  match a with
  | AMutate op => Some (mkSystem (run op m) sent cs)
  | ABroadcast => Some (mkSystem (drain_deltas m).2 (sent ++ (drain_deltas m).1) cs)
  | AConnect i =>
      match cs !! i with None => Some (mkSystem m sent (<[i := seed m sent [] create_working]> cs)) | Some _ => None end
  | AForward i =>
      match cs !! i with
      | Some c =>
          match (if decide (length sent - next c ≤ DELTA_CHANNEL_CAPACITY) then sent !! next c else None) with
          | Some d => Some (mkSystem m sent (<[i := mkClient (S (next c)) (socket c ++ [d]) (working c) (pending c)]> cs))
          | None => None
          end
      | None => None
      end
  | AReseed i =>
      match cs !! i with
      | Some c =>
          if decide (DELTA_CHANNEL_CAPACITY < length sent - next c)
          then Some (mkSystem m sent (<[i := seed m sent (socket c) (working c)]> cs)) else None
      | None => None
      end
  | ARead i =>
      match cs !! i with
      | Some c =>
          match socket c with
          | d :: frames => Some (mkSystem m sent (<[i := mkClient (next c) frames (receive (working c) d) (pending c)]> cs))
          | [] => None
          end
      | None => None
      end
  end.

Fixpoint exec (acts : list Act) (s : System) : option System :=
  match acts with
  | [] => Some s
  | a :: acts => match act a s with Some s => exec acts s | None => None end
  end.

Lemma act_serve a s s' :
  act a s = Some s' →
  match a with AMutate op => s' = mkSystem (run op (monitor s)) (channel s) (clients s) | _ => serve s s' end.
Proof.
  destruct s as [m sent cs], a as [op| |i|i|i|i]; simpl.
  - by intros [= <-].
  - intros [= <-]. constructor.
  - destruct (cs !! i) eqn:Hi; [done|]. intros [= <-]. by apply serve_connect.
  - destruct (cs !! i) as [c|] eqn:Hi; [|done]. case_decide; [|done]. destruct (sent !! next c) as [d|] eqn:Hd; [|done].
    intros [= <-]. by apply serve_forward.
  - destruct (cs !! i) as [c|] eqn:Hi; [|done]. case_decide; [|done]. intros [= <-]. by apply serve_lagged.
  - destruct (cs !! i) as [c|] eqn:Hi; [|done]. destruct (socket c) as [|d frames] eqn:Hs; [done|].
    intros [= <-]. by eapply serve_read.
Qed.

Lemma act_step a s s' : act a s = Some s' → step s s'.
Proof. intros Ha%act_serve. destruct a; [|by apply step_serve..]. subst. destruct s. constructor. Qed.

Lemma exec_steps acts s s' : exec acts s = Some s' → rtc step s s'.
Proof.
  revert s. induction acts as [|a acts IH]; intros s; simpl; [by intros [= ->]|].
  destruct (act a s) as [s1|] eqn:Ha; [|done]. intros Hs. eapply rtc_l; [by eapply act_step|by apply IH].
Qed.

(** All numbers are in range in the states of the execution. *)
Fixpoint in_range_acts (acts : list Act) (s : System) : bool :=
  match acts with
  | [] => true
  | a :: acts => match act a s with Some s => in_range_state s && in_range_acts acts s | None => true end
  end.

Lemma exec_exact acts s s' : exec acts s = Some s' → in_range_acts acts s = true → rtc exact_step s s'.
Proof.
  revert s. induction acts as [|a acts IH]; intros s; simpl; [by intros [= ->]|].
  destruct (act a s) as [s1|] eqn:Ha; [|done]. intros Hs [He Hrest]%andb_true_iff.
  eapply rtc_l; [split; [by eapply act_step|by apply in_range_state_exact]|by apply IH].
Qed.
End system.

(** * What pages show *)

(** A log without JSON, of a Nix that writes no colours. *)
Definition plain_json : NixJson := λ _, inl (chars_of "no JSON").
Definition plain_ansi : AnsiStrip := Some.

Definition outcome_of (acts : list Act) : System :=
  default (start []) (@exec plain_json plain_ansi acts (start (chars_of "nix build"))).

Definition failure_line : text := chars_of "error: builder for '/nix/store/a.drv' failed with exit code 1".

(** A page that connects to a quiet monitor, before a build fails. *)
Definition calm : list Act :=
  [AConnect 0; ARead 0; AMutate (OpLine 7 8 failure_line); ABroadcast; AForward 0; AForward 0; ARead 0; ARead 0].

(** A page that connects between a line that is no event and its broadcast. *)
Definition raced : list Act :=
  [AMutate (OpLine 7 8 (chars_of "@nix {")); AConnect 0; ABroadcast; AForward 0; AForward 0; ARead 0; ARead 0; ARead 0].

(** C2. Let the numbers that the server sends, in messages and in snapshots, arrive
    as they were sent ([exact_state]: all of them do that are at most 2^53).  Then
    at any moment, a page that has read all that was sent shows the command,
    the activities (but for the raw fields of Nix, which the page's schema
    drops), the builds, progress, store totals, the machine-wide view,
    the activation, the diff, expectations, reasons and the end of the run
    as the server has them, whenever it connected and however often
    it fell behind and was seeded again.  If also nothing waited to be broadcast
    when its last seed was taken, its errors and its counts of log lines are the
    server's, and its log is the end of the server's log: all of it, or at least the
    500 newest entries, which is what a seed has. *)
Theorem pages_converge `{!NixJson, !AnsiStrip} label s i c :
  rtc exact_step (start label) s → clients s !! i = Some c → caught_up s c →
  (∀ r, page_shows (working c) r = state_has (monitor s) r) ∧
  (pending c = [] → mirrors (working c) (monitor s)).
Proof.
  intros Hs Hc Hup. destruct (exact_run_ok _ _ Hs) as (_ & _ & Hok). destruct (Hok _ _ Hc) as [Hshows Hexact].
  unfold caught_up, upcoming in Hup. rewrite Hup in *. done.
Qed.

Lemma pages_converge_witness :
  ∃ c, clients (outcome_of calm) !! 0 = Some c ∧ is_Some (builds (monitor (outcome_of calm)) !! chars_of "/nix/store/a.drv") ∧
    (∀ r, page_shows (working c) r = state_has (monitor (outcome_of calm)) r) ∧
    mirrors (working c) (monitor (outcome_of calm)).
Proof.
  destruct (clients (outcome_of calm) !! 0) as [c|] eqn:Hc; [|by vm_compute in Hc]. exists c.
  assert (caught_up (outcome_of calm) c ∧ pending c = []) as [Hup Hp].
  { revert Hc. vm_compute. by intros [= <-]. }
  destruct (@pages_converge plain_json plain_ansi (chars_of "nix build") (outcome_of calm) 0 c) as [Hr Hm]; [|done|done|].
  - apply (exec_exact calm); by vm_compute.
  - split_and!; [done|by vm_compute; eexists|exact Hr|by apply Hm].
Defined.

(** Nix numbers its activities from the process id, shifted by 32 bits; of a
    process id of 2097152 or more, which Linux allows, the numbers of neighbours
    are the same in JavaScript.  A page then shows one activity where there are two. *)
Definition id_json : NixJson := λ raw,
  inr (Obj [(chars_of "action", Str (chars_of "start")); (chars_of "type", Num (PosInt 0));
    (chars_of "id", Num (PosInt (digits_value raw)))]).

Definition colliding : list Act :=
  [AConnect 0; ARead 0; AMutate (OpLine 7 8 (chars_of "@nix 9007199254740992"));
   AMutate (OpLine 7 8 (chars_of "@nix 9007199254740993")); ABroadcast; AForward 0; AForward 0; ARead 0; ARead 0].

Example ids_collide :
  let s := default (start []) (@exec id_json plain_ansi colliding (start (chars_of "nix build"))) in
  size (activities (monitor s)) = 2 ∧
  (λ c, (size (w_activities (working c)), upcoming s c)) <$> clients s !! 0 = Some (1, []).
Proof. by vm_compute. Qed.

(** The seed of a page is not exact when a change waits to be broadcast:
    [serve_socket] can take the read lock after a task released the write lock on
    its change and before the task takes it again to broadcast.  The seed has
    the change and its deltas follow, so that the page shows the line, and the
    error, twice, forever. *)
Lemma seed_race :
  ∃ s c, rtc (@step plain_json plain_ansi) (start (chars_of "nix build")) s ∧ clients s !! 0 = Some c ∧ caught_up s c ∧
    logs (monitor s) = [mkLog 0 None None (chars_of "@nix {")] ∧ length (errors (monitor s)) = 1 ∧
    w_logs (working c) = logs (monitor s) ++ logs (monitor s) ∧
    w_errors (working c) = errors (monitor s) ++ errors (monitor s).
Proof.
  exists (outcome_of raced). destruct (clients (outcome_of raced) !! 0) as [c|] eqn:Hc; [|by vm_compute in Hc].
  exists c. split; [apply (exec_steps raced); by vm_compute|]. split; [done|]. revert Hc. vm_compute. by intros [= <-].
Qed.

(** A connected page can always catch up: from any reachable state the
    tasks that broadcast and send, and the page itself, can go on until the page
    has read all there is, and the monitor is as it was, its outbox empty. *)
Lemma pages_catch_up `{!NixJson, !AnsiStrip} label s i :
  rtc step (start label) s → is_Some (clients s !! i) →
  ∃ s' c, rtc serve s s' ∧ clients s' !! i = Some c ∧ caught_up s' c ∧
    with_outbox [] (monitor s') = with_outbox [] (monitor s).
Proof.
  intros Hs [c Hc]. pose proof (reachable_ok _ _ Hs) as Hok. destruct s as [m sent cs]. simpl in *.
  set (m' := (drain_deltas m).2). set (sent' := sent ++ (drain_deltas m).1).
  assert (serve (mkSystem m sent cs) (mkSystem m' sent' cs)) as Hb by constructor.
  assert (next c ≤ length sent') as Hle.
  { pose proof (ok_next _ Hok _ _ Hc). unfold sent'. rewrite length_app. simpl in *. lia. }
  assert (∃ cs1 c1, rtc serve (mkSystem m' sent' cs) (mkSystem m' sent' cs1) ∧ cs1 !! i = Some c1 ∧ next c1 = length sent')
    as (cs1 & c1 & H1 & Hc1 & Hn1).
  { destruct (decide (length sent' - next c ≤ DELTA_CHANNEL_CAPACITY)); [by eapply forwards_all|].
    exists (<[i := seed m' sent' (socket c) (working c)]> cs), (seed m' sent' (socket c) (working c)).
    rewrite lookup_insert_eq. split; [|done]. apply rtc_once.
    eapply serve_lagged; [done|lia]. }
  destruct (reads_all i m' sent' cs1 c1) as (cs2 & c2 & H2 & Hc2 & Hn2 & Hs2); [done..|].
  exists (mkSystem m' sent' cs2), c2. split_and!.
  - eapply rtc_l; [exact Hb|]. by etrans.
  - done.
  - unfold caught_up, upcoming. simpl. by rewrite Hs2, Hn2, drop_all.
  - done.
Qed.

Example pages_catch_up_demo :
  is_Some (clients (outcome_of (take 3 calm)) !! 0) ∧ outbox (monitor (outcome_of (take 3 calm))) ≠ [] ∧
  ∃ s' c, rtc serve (outcome_of (take 3 calm)) s' ∧ clients s' !! 0 = Some c ∧ caught_up s' c ∧
    with_outbox [] (monitor s') = with_outbox [] (monitor (outcome_of (take 3 calm))).
Proof.
  assert (is_Some (clients (outcome_of (take 3 calm)) !! 0)) as Hc by (vm_compute; eexists; done).
  split; [done|]. split; [by vm_compute|].
  apply (@pages_catch_up plain_json plain_ansi (chars_of "nix build")); [|done].
  apply (exec_steps (take 3 calm)). by vm_compute.
Defined.
