(* ===== verification/NwmGraph.v ===== *)
(** The dependency graph of nix-web-monitor: the edges the server reduces the
    closures of derivations to are the transitive reduction of the relation
    "depends on" between the rows shown, and the root causes are the rows that
    depend on no other. *)

From stdpp Require Import base gmap sets list strings sorting relations.
From Stdlib Require Import Lia.
From S2P Require Import Prelude Chars JsonValue NwmEvent NwmState NwmMirror.

(** * Sorted lists *)

#[export] Instance text_le_total : Total text_le.
Proof. intros a b. apply text_leb_total. Qed.
#[export] Instance text_le_trans : Transitive text_le.
Proof. intros a b c. apply text_leb_trans. Qed.
#[export] Instance text_le_antisymm : AntiSymm eq text_le.
Proof. intros a b. apply text_leb_antisymm. Qed.

#[export] Instance edge_le_total : Total edge_le.
Proof.
  intros a b. unfold edge_le. destruct (decide (from a = from b)) as [E|E].
  - destruct (total text_le (to a) (to b)); [left|right]; left; by split.
  - destruct (total text_le (from a) (from b)); [left|right]; right; by split.
Qed.
#[export] Instance edge_le_trans : Transitive edge_le.
Proof.
  intros a b c [[E1 L1]|[E1 L1]] [[E2 L2]|[E2 L2]].
  - left. split; [congruence|by etrans].
  - right. rewrite E1. by split.
  - right. rewrite <- E2. by split.
  - right. split; [|by etrans]. intros E. rewrite E in *. destruct E1. by apply (anti_symm text_le).
Qed.
#[export] Instance edge_le_antisymm : AntiSymm eq edge_le.
Proof.
  intros [a b] [c d] [[E1 L1]|[E1 L1]] [[E2 L2]|[E2 L2]]; simpl in *; try congruence.
  - f_equal; [done|by apply (anti_symm text_le)].
  - destruct E1. by apply (anti_symm text_le).
Qed.

(** Sorted lists without repetition are equal when they have the same elements. *)
Lemma sorted_ext {A} (R : relation A) `{!RelDecision R, !Total R, !Transitive R, !AntiSymm eq R} (l1 l2 : list A) :
  NoDup l1 → NoDup l2 → (∀ x, x ∈ l1 ↔ x ∈ l2) → merge_sort R l1 = merge_sort R l2.
Proof.
  intros H1 H2 H. apply (StronglySorted_unique R); try apply (StronglySorted_merge_sort R).
  rewrite !merge_sort_Permutation. by apply NoDup_Permutation.
Qed.

(** * Edges *)

Section graph.
Context (closures : gmap text (gset text)) (rendered : gset text).

(** [b] is a row that the row [a] depends on, as far as closures are known. *)
Definition depends (a b : text) : Prop :=
  a ∈ rendered ∧ b ∈ rendered ∧ b ≠ a ∧ ∃ C, closures !! a = Some C ∧ b ∈ C.

Definition edge (a b : text) : Prop := mkEdge a b ∈ dependency_edges closures rendered.

Lemma NoDup_ascending s : NoDup (ascending s).
Proof. unfold ascending. rewrite merge_sort_Permutation. apply NoDup_elements. Qed.

Lemma elem_reachable a C b : b ∈ reachable rendered a C ↔ b ∈ C ∧ b ≠ a ∧ b ∈ rendered.
Proof. unfold reachable. rewrite list_elem_of_filter, elem_ascending. tauto. Qed.

Lemma implied_spec candidates b :
  implied closures candidates b = true ↔
  ∃ mid C, mid ∈ candidates ∧ mid ≠ b ∧ closures !! mid = Some C ∧ b ∈ C.
Proof.
  unfold implied. rewrite existsb_exists. split.
  - intros (mid & Hin%list_elem_of_In & [Hne Hc]%andb_true_iff). apply negb_true_iff, bool_decide_eq_false in Hne.
    destruct (closures !! mid) as [C|] eqn:HC; [|done]. apply bool_decide_eq_true in Hc. by exists mid, C.
  - intros (mid & C & Hin & Hne & HC & Hb). exists mid. split; [by apply list_elem_of_In|].
    by rewrite HC, (bool_decide_eq_false_2 (mid = b)), (bool_decide_eq_true_2 (b ∈ C)).
Qed.

Lemma elem_edges_from e entry :
  e ∈ edges_from closures rendered entry ↔
  from e = entry.1 ∧ entry.1 ∈ rendered ∧ to e ∈ reachable rendered entry.1 entry.2 ∧
  implied closures (reachable rendered entry.1 entry.2) (to e) = false.
Proof.
  destruct e as [a b], entry as [x C]. simpl. case_decide; [|set_solver].
  rewrite list_elem_of_fmap. split.
  - intros (t & [= -> ->] & [? ?]%list_elem_of_filter). by split_and!.
  - intros (-> & _ & ? & ?). exists b. split; [done|]. by apply list_elem_of_filter.
Qed.

Lemma elem_all_edges e :
  e ∈ by_key closures ≫= edges_from closures rendered ↔
  ∃ C, closures !! from e = Some C ∧ from e ∈ rendered ∧ to e ∈ reachable rendered (from e) C ∧
    implied closures (reachable rendered (from e) C) (to e) = false.
Proof.
  rewrite list_elem_of_bind. split.
  - intros ([x C] & He & Hin). apply elem_edges_from in He as (-> & ? & ? & ?). apply elem_by_key in Hin. simpl in *. eauto.
  - intros (C & HC & ? & ? & ?). exists (from e, C). split; [by apply elem_edges_from|by apply elem_by_key].
Qed.

Lemma NoDup_edges : NoDup (by_key closures ≫= edges_from closures rendered).
Proof.
  assert (NoDup (by_key closures).*1) as Hnd by (rewrite by_key_perm; apply NoDup_fst_map_to_list).
  induction (by_key closures) as [|entry l IH]; csimpl in *; [constructor|].
  apply NoDup_cons in Hnd as [Hx Hnd]. apply NoDup_app. split_and!; [|..|auto].
  - destruct entry as [x C]. simpl. case_decide; [|constructor]. apply NoDup_fmap_2; [by intros ?? [=]|].
    apply NoDup_filter. unfold reachable. apply NoDup_filter, NoDup_ascending.
  - intros e He (entry' & He' & Hin)%list_elem_of_bind. apply elem_edges_from in He as [He _], He' as [He' _].
    apply Hx. rewrite <- He, He'. by apply list_elem_of_fmap_2.
Qed.

Lemma edge_spec a b :
  edge a b ↔ depends a b ∧ ¬ ∃ mid, depends a mid ∧ depends mid b.
Proof.
  unfold edge, dependency_edges. rewrite merge_sort_Permutation, elem_all_edges. simpl. split.
  - intros (C & HC & Ha & Hb & Himp). apply elem_reachable in Hb as (Hb & Hne & Hr). split; [by split_and!; eauto|].
    intros (mid & (_ & Hm & Hma & C' & HC' & HmC) & (_ & _ & Hbm & Cm & HCm & Hbc)). rewrite HC in HC'. injection HC' as <-.
    apply not_true_iff_false in Himp. apply Himp, implied_spec. exists mid, Cm. split_and!; try done.
    by apply elem_reachable.
  - intros ((Ha & Hb & Hne & C & HC & HbC) & Himp). exists C. split_and!; [done..|by apply elem_reachable|].
    apply not_true_iff_false. intros (mid & Cm & (Hm & Hma & Hmr)%elem_reachable & Hmb & HCm & HbCm)%implied_spec.
    apply Himp. exists mid. split; split_and!; eauto.
Qed.

Lemma edges_sorted : StronglySorted edge_le (dependency_edges closures rendered) ∧ NoDup (dependency_edges closures rendered).
Proof.
  split; [apply (StronglySorted_merge_sort edge_le)|]. unfold dependency_edges. rewrite merge_sort_Permutation.
  apply NoDup_edges.
Qed.

(** ** The reduction *)

(** What [nix-store --query --requisites] answers: closures of an acyclic graph. *)
Definition dag_closures : Prop :=
  ∀ x C, closures !! x = Some C → x ∉ C ∧ ∀ y C', y ∈ C → closures !! y = Some C' → C' ⊆ C.

Context (Hdag : dag_closures).

Lemma depends_trans a b c : depends a b → depends b c → depends a c.
Proof.
  intros (Ha & _ & _ & C & HC & HbC) (_ & Hc & _ & Cb & HCb & HcCb). destruct (Hdag _ _ HC) as [Hirr Hsub].
  pose proof (Hsub _ _ HbC HCb). split_and!; [done..| |]; [|exists C]; set_solver.
Qed.

Lemma depends_irrefl a : ¬ depends a a.
Proof. by intros (_ & _ & ? & _). Qed.

Lemma tc_edge_depends a b : tc edge a b → depends a b.
Proof.
  induction 1 as [a b Hab|a b c Hab _ IH]; apply edge_spec in Hab as [Hab _]; [done|by eapply depends_trans].
Qed.

(** The rows between two. *)
Definition knows (y b : text) : bool :=
  match closures !! y with Some C => bool_decide (b ∈ C) | None => false end.
Definition between (a b : text) : gset text :=
  filter (λ y, y ≠ b ∧ knows y b = true ∧ y ≠ a ∧ knows a y = true) rendered.

Lemma elem_between a b y :
  a ∈ rendered → b ∈ rendered → y ∈ between a b ↔ depends a y ∧ depends y b.
Proof.
  intros Ha Hb. unfold between. rewrite elem_of_filter. unfold depends, knows. split.
  - intros ((Hyb & Hy & Hya & Hay) & Hr). destruct (closures !! y) as [C|] eqn:HC; [|done].
    destruct (closures !! a) as [Ca|] eqn:HCa; [|done]. apply bool_decide_eq_true in Hy, Hay. split; split_and!; eauto.
  - intros ((_ & Hr & Hya & Ca & HCa & Hay) & (_ & _ & Hby & C & HC & Hyb)). rewrite HC, HCa, !bool_decide_eq_true_2; done.
Qed.

Lemma depends_path n a b : size (between a b) ≤ n → depends a b → tc edge a b.
Proof.
  revert a b. induction n as [n IH] using lt_wf_ind. intros a b Hn Hab.
  destruct (decide (between a b = ∅)) as [He|[mid Hmid]%set_choose_L].
  - apply tc_once, edge_spec. split; [done|]. intros (mid & H).
    assert (mid ∈ between a b) by (apply elem_between; [apply Hab|apply Hab|done]). set_solver.
  - apply elem_between in Hmid as [Ham Hmb]; [|apply Hab..].
    assert (∀ x y, mid ∉ between x y → between x y ⊆ between a b → size (between x y) < n) as Hlt.
    { intros x y Hno Hsub. eapply Nat.lt_le_trans; [|exact Hn]. apply subset_size.
      split; [done|]. intros Hall. apply Hno, Hall, elem_between; [apply Hab..|done]. }
    eapply tc_transitive.
    + eapply (IH (size (between a mid))); [|done|exact Ham]. apply Hlt.
      * intros Hm. apply elem_between in Hm as [_ Hm]; [|apply Ham..]. by apply depends_irrefl in Hm.
      * intros y Hy. apply elem_between in Hy as [Hay Hym]; [|apply Ham..].
        apply elem_between; [apply Hab..|]. split; [done|by eapply depends_trans].
    + eapply (IH (size (between mid b))); [|done|exact Hmb]. apply Hlt.
      * intros Hm. apply elem_between in Hm as [Hm _]; [|apply Hmb..]. by apply depends_irrefl in Hm.
      * intros y Hy. apply elem_between in Hy as [Hmy Hyb]; [|apply Hmb..].
        apply elem_between; [apply Hab..|]. split; [by eapply depends_trans|done].
Qed.

Lemma depends_tc a b : depends a b ↔ tc edge a b.
Proof. split; [by eapply depends_path|apply tc_edge_depends]. Qed.
End graph.

(** ** Root causes *)

Lemma no_built_input_spec closures built x :
  no_built_input closures built x = true ↔ ∃ C, closures !! x = Some C ∧ ∀ y, y ∈ C → y ∉ built.
Proof.
  unfold no_built_input. destruct (closures !! x) as [C|]; [|naive_solver]. rewrite negb_true_iff. split.
  - intros H. exists C. split; [done|]. intros y Hy Hb. apply not_true_iff_false in H. apply H, existsb_exists.
    exists y. split; [by apply list_elem_of_In, elem_ascending|by apply bool_decide_eq_true].
  - intros (C' & [= <-] & H). apply not_true_iff_false.
    intros (y & Hy%list_elem_of_In%elem_ascending & Hb%bool_decide_eq_true)%existsb_exists. by apply (H y).
Qed.

Lemma elem_root_causes closures built x :
  x ∈ root_cause_derivations closures built ↔ x ∈ built ∧ ∃ C, closures !! x = Some C ∧ ∀ y, y ∈ C → y ∉ built.
Proof.
  unfold root_cause_derivations. rewrite merge_sort_Permutation, list_elem_of_filter, elem_ascending, no_built_input_spec.
  tauto.
Qed.

Lemma NoDup_root_causes closures built :
  NoDup (filter (λ x, no_built_input closures built x = true) (ascending built)).
Proof. apply NoDup_filter, NoDup_ascending. Qed.

(** The server asks for one derivation what the list says of all. *)
Lemma is_root_cause_listed x m :
  is_root_cause x m = true ↔ x ∈ root_cause_derivations (closure_deps m) (observed m).
Proof.
  rewrite elem_root_causes. unfold is_root_cause, observed. rewrite andb_true_iff, bool_decide_eq_true, elem_of_dom.
  apply and_iff_compat_l. rewrite <- (no_built_input_spec (closure_deps m) (dom (builds m))). unfold no_built_input.
  destruct (closure_deps m !! x) as [C|]; [|done]. f_equiv. f_equal. induction (ascending C) as [|y l IH]; [done|].
  cbn [existsb]. rewrite IH. f_equal. apply bool_decide_ext. by rewrite elem_of_dom.
Qed.

(** C18. For closures of an acyclic graph, the edges sent to pages are the
    transitive reduction of the rows' dependencies: a path of edges leads from
    one row to another exactly when the first depends on the second, through
    whatever was cached in between; no edge is implied by a longer path; and the
    list is sorted without repetition.  The root causes are the rows whose
    closure is known and from which no edge leads. *)
Theorem edges_reduce closures rendered :
  dag_closures closures →
  (∀ a b, tc (edge closures rendered) a b ↔ depends closures rendered a b) ∧
  (∀ a b c, tc (edge closures rendered) a c → tc (edge closures rendered) c b → ¬ edge closures rendered a b) ∧
  StronglySorted edge_le (dependency_edges closures rendered) ∧ NoDup (dependency_edges closures rendered) ∧
  ∀ x, x ∈ root_cause_derivations closures rendered ↔
    x ∈ rendered ∧ is_Some (closures !! x) ∧ ∀ b, ¬ edge closures rendered x b.
Proof.
  intros Hdag. split_and!; [..|by apply edges_sorted|by apply edges_sorted|].
  - intros a b. symmetry. by apply depends_tc.
  - intros a b c Hac%depends_tc Hcb%depends_tc [_ Hno]%edge_spec; [|done..]. eauto.
  - intros x. rewrite elem_root_causes. split.
    + intros (Hx & C & HC & Hno). split_and!; [done|by eexists|]. intros b [(_ & Hb & _ & C' & HC' & HbC) _]%edge_spec.
      rewrite HC in HC'. injection HC' as <-. by apply (Hno b).
    + intros (Hx & [C HC] & Hno). split; [done|]. exists C. split; [done|]. intros y Hy Hr.
      destruct (Hdag _ _ HC) as [Hirr _].
      assert (depends closures rendered x y) as Hd by (split_and!; [done..|set_solver|eauto]).
      apply depends_tc in Hd; [|done]. destruct Hd; by eapply Hno.
Qed.

(** A diamond: [a] on [b] and [c], both on [d]; [x] is not shown. *)
Definition t_ (s : string) : text := chars_of s.
Definition diamond : gmap text (gset text) :=
  {[ t_ "a" := {[ t_ "b"; t_ "c"; t_ "d"; t_ "x" ]}; t_ "b" := {[ t_ "d" ]}; t_ "c" := {[ t_ "d"; t_ "x" ]}; t_ "d" := ∅ ]}.

Lemma diamond_dag : dag_closures diamond.
Proof.
  intros x C HC. assert (C = default ∅ (diamond !! x)) as -> by (by rewrite HC).
  assert (x ∈ dom diamond) as Hx by (by apply elem_of_dom).
  apply (bool_decide_unpack (set_Forall (λ x, x ∉ default ∅ (diamond !! x) ∧
    set_Forall (λ y, default ∅ (diamond !! y) ⊆ default ∅ (diamond !! x)) (default ∅ (diamond !! x))) (dom diamond)))
    in Hx as [Hirr Hsub]; [|by vm_compute].
  split; [done|]. intros y C' Hy HC'. specialize (Hsub y Hy). simpl in Hsub. by rewrite HC' in Hsub.
Qed.

Lemma edges_reduce_witness :
  edge diamond {[ t_ "a"; t_ "b"; t_ "c"; t_ "d" ]} (t_ "a") (t_ "b") ∧
  dependency_edges diamond {[ t_ "a"; t_ "b"; t_ "c"; t_ "d" ]} =
    [mkEdge (t_ "a") (t_ "b"); mkEdge (t_ "a") (t_ "c"); mkEdge (t_ "b") (t_ "d"); mkEdge (t_ "c") (t_ "d")] ∧
  (∀ a b, tc (edge diamond {[ t_ "a"; t_ "b"; t_ "c"; t_ "d" ]}) a b ↔
    depends diamond {[ t_ "a"; t_ "b"; t_ "c"; t_ "d" ]} a b).
Proof.
  split; [|split; [by vm_compute|apply (edges_reduce _ _ diamond_dag)]].
  unfold edge. apply (bool_decide_unpack _). by vm_compute.
Defined.
