(* ===== verification/NwmFeed.v ===== *)
(** The dependency graph on the pages of nix-web-monitor.  Edges and root causes
    are sent when a closure arrives and only if they changed, so that between a
    new row and its closure a page may be behind; once the closures of all rows
    are known, every page that has read everything shows the graph of the
    snapshot, whenever it connected. *)

From stdpp Require Import base gmap sets list strings sorting relations.
From Stdlib Require Import Lia.
From S2P Require Import Prelude Chars JsonValue NwmEvent NwmState NwmClient NwmMirror NwmSystem NwmGraph.

(** * Operations that leave the graph alone *)

Definition quiet (d : Delta) : Prop :=
  match d with Reset _ | DependenciesSet _ | RootCausesSet _ => False | _ => True end.

(** What such an operation keeps: closures, what was last sent, and all rows. *)
Record frames (m m' : MonitorState) : Prop := {
  fr_closures : closure_deps m' = closure_deps m;
  fr_dependencies : last_dependencies m' = last_dependencies m;
  fr_causes : last_root_causes m' = last_root_causes m;
  fr_rows : observed m ⊆ observed m';
  fr_outbox : ∃ ds, outbox m' = outbox m ++ ds ∧ Forall quiet ds }.

Lemma frames_refl m : frames m m.
Proof. split; try done. exists []. by rewrite app_nil_r. Qed.

Lemma frames_emit m m' d : quiet d → frames m m' → frames m (emit d m').
Proof.
  intros Hd [? ? ? ? (ds & Ho & Hq)]. split; try done. exists (ds ++ [d]). simpl. rewrite Ho, app_assoc.
  split; [done|]. apply Forall_app. by split; [|constructor].
Qed.

Lemma frames_emit_build m m' drv : frames m m' → frames m (emit_build drv m').
Proof. unfold emit_build. destruct (builds m' !! drv); [by apply frames_emit|done]. Qed.
Lemma frames_emit_activity m m' id : frames m m' → frames m (emit_activity id m').
Proof. unfold emit_activity. destruct (activities m' !! id); [by apply frames_emit|done]. Qed.

Lemma frames_build m m' bu : observed m' ⊆ dom bu → frames m m' → frames m (with_builds bu m').
Proof. intros Hbu [? ? ? Hr ?]. split; try done. unfold observed in *. simpl. by etrans. Qed.

Lemma frames_insert m m' drv b : frames m m' → frames m (with_builds (<[drv := b]> (builds m')) m').
Proof. apply frames_build. unfold observed. rewrite dom_insert. set_solver. Qed.

(** An assignment to any field but rows, closures and what was sent. *)
Ltac frames_field := intros [? ? ? ? ?]; by split.
Lemma frames_activities m m' v : frames m m' → frames m (with_activities v m'). Proof. frames_field. Qed.
Lemma frames_logs m m' v : frames m m' → frames m (with_logs v m'). Proof. frames_field. Qed.
Lemma frames_errors m m' v : frames m m' → frames m (with_errors v m'). Proof. frames_field. Qed.
Lemma frames_progress m m' v : frames m m' → frames m (with_progress v m'). Proof. frames_field. Qed.
Lemma frames_optimise m m' v : frames m m' → frames m (with_optimise v m'). Proof. frames_field. Qed.
Lemma frames_global m m' v : frames m m' → frames m (with_global v m'). Proof. frames_field. Qed.
Lemma frames_activation m m' v : frames m m' → frames m (with_activation v m'). Proof. frames_field. Qed.
Lemma frames_diff m m' v : frames m m' → frames m (with_diff v m'). Proof. frames_field. Qed.
Lemma frames_expected m m' v : frames m m' → frames m (with_expected v m'). Proof. frames_field. Qed.
Lemma frames_exit_code m m' v : frames m m' → frames m (with_exit_code v m'). Proof. frames_field. Qed.
Lemma frames_finished m m' v : frames m m' → frames m (with_finished v m'). Proof. frames_field. Qed.
Lemma frames_reasons m m' v : frames m m' → frames m (with_rebuild_reasons v m'). Proof. frames_field. Qed.
Lemma frames_section m m' v : frames m m' → frames m (with_plan_section v m'). Proof. frames_field. Qed.
Lemma frames_resolved m m' v : frames m m' → frames m (with_resolved_to_original v m'). Proof. frames_field. Qed.
Lemma frames_counter m m' v : frames m m' → frames m (with_log_counter v m'). Proof. frames_field. Qed.

Create HintDb frames.
#[export] Hint Resolve frames_refl frames_emit frames_emit_build frames_emit_activity frames_insert
  frames_activities frames_logs frames_errors frames_progress frames_optimise frames_global frames_activation
  frames_diff frames_expected frames_exit_code frames_finished frames_reasons frames_section frames_resolved
  frames_counter : frames.
#[export] Hint Extern 1 (quiet _) => exact I : frames.

Lemma frames_promote m m' : frames m m' → frames m (promote_unfinished_builds m').
Proof.
  intros H. unfold promote_unfinished_builds. generalize ((filter (λ entry, unfinished entry.2 = true) (by_key (builds m'))).*1).
  intros drvs. assert (frames m (with_builds ((λ b, if unfinished b then with_status Succeeded b else b) <$> builds m') m')) as H'.
  { apply frames_build; [|done]. by rewrite dom_fmap_L. }
  revert H'. generalize (with_builds ((λ b, if unfinished b then with_status Succeeded b else b) <$> builds m') m').
  induction drvs as [|drv drvs IH]; intros m2 H2; simpl; auto with frames.
Qed.

Lemma frames_push_log m m' a l t : frames m m' → frames m (push_log a l t m').
Proof.
  intros H. unfold push_log, count_log. apply frames_emit; [done|]. apply frames_logs.
  destruct (_ ≫= _) as [build|]; [|auto with frames]. destruct (builds _ !! build); auto with frames.
Qed.
#[export] Hint Resolve frames_promote frames_push_log : frames.

Lemma frames_note_resolved m m' action : frames m m' → frames m (note_resolved_derivation action m').
Proof. intros H. unfold note_resolved_derivation. repeat case_match; auto with frames. Qed.
#[export] Hint Resolve frames_note_resolved : frames.

Lemma frames_start m now_ms action : frames m (start_activity now_ms action m).
Proof. unfold start_activity. apply frames_emit_activity. case_match; auto with frames. Qed.

Lemma frames_note_build_plan m m' now_ms t : frames m m' → frames m (note_build_plan now_ms t m').
Proof. intros H. unfold note_build_plan, plan_build. repeat case_match; auto with frames. Qed.

Lemma frames_stop m now_ms id : frames m (stop_activity now_ms id m).
Proof. unfold stop_activity. repeat (case_match || case_decide); auto 8 with frames. Qed.

Lemma frames_set_phase m id phase : frames m (set_phase id phase m).
Proof. unfold set_phase. repeat (case_match || case_decide); auto 8 with frames. Qed.

Lemma frames_set_progress m id p : frames m (set_progress id p m).
Proof. unfold set_progress. repeat (case_match || case_decide); auto 8 with frames. Qed.

Lemma frames_mark_failed m m' now_ms failure : frames m m' → frames m (mark_failed_build now_ms failure m').
Proof. unfold mark_failed_build. auto with frames. Qed.
#[export] Hint Resolve frames_note_build_plan frames_mark_failed : frames.

Section feed.
Context `{!NixJson, !AnsiStrip}.

Lemma frames_apply_line m t1 t2 line : frames m (apply_line t1 t2 line m).
Proof.
  unfold apply_line. destruct (parse_line line) as [[action|id|id result|action|raw]|t|t error]; simpl.
  - apply frames_start.
  - apply frames_stop.
  - destruct result; simpl; auto using frames_set_phase, frames_set_progress with frames.
  - unfold apply_message, mark_failure, push_error. repeat (case_match || case_decide); auto 8 with frames.
  - apply frames_refl.
  - unfold apply_plain, mark_failure. case_match; auto with frames.
  - unfold push_error. auto with frames.
Qed.

Definition is_closure (op : Op) : bool := match op with OpClosure _ _ => true | _ => false end.

Lemma frames_run op m : is_closure op = false → frames m (run op m).
Proof.
  intros Hop. destruct op; simpl in *; try done.
  - apply frames_apply_line.
  - unfold set_rebuild_reason. case_decide; auto with frames.
  - unfold set_activity_size. case_match; auto with frames.
  - unfold set_global. case_decide; auto with frames.
  - unfold begin_activation, emit_activation. auto with frames.
  - unfold push_activation_line, emit_activation. auto with frames.
  - unfold set_activation_status, emit_activation. auto with frames.
  - unfold finish_activation, emit_activation. auto with frames.
  - unfold set_diff. auto with frames.
  - unfold mark_builds_succeeded. auto with frames.
  - unfold finish. case_decide; auto with frames.
Qed.
End feed.

(** * What is derived from the graph

    The edges and the root causes are two instances of a list [f] computed from
    closures and rows, the value last sent, and the deltas that carry it. *)

(** Closures that nix-store answers: one per derivation, of an acyclic graph. *)
Definition store_closures (Cl : text → gset text) : Prop :=
  ∀ x, x ∉ Cl x ∧ ∀ y, y ∈ Cl x → Cl y ⊆ Cl x.
Definition answered (Cl : text → gset text) (C : gmap text (gset text)) : Prop :=
  ∀ x D, C !! x = Some D → D = Cl x.

Record Derived (Cl : text → gset text) (A : Type) (f : gmap text (gset text) → gset text → list A)
    (last : MonitorState → option (list A)) (pick : Delta → option (list A)) (shown : Working → list A) : Prop := {
  dv_seed : ∀ w m, shown (receive w (Reset (snapshot m))) = f (closure_deps m) (observed m);
  dv_receive : ∀ w d, incremental d → shown (receive w d) = default (shown w) (pick d);
  dv_frames : ∀ m m', frames m m' → last m' = last m;
  dv_drain : ∀ m, last (with_outbox [] m) = last m;
  dv_quiet : ∀ d, quiet d → pick d = None;
  dv_record : ∀ drv c m, let E := f (<[drv := c]> (closure_deps m)) (observed m) in
    last (record_closure drv c m) = Some E ∧
    ∃ ds, outbox (record_closure drv c m) = outbox m ++ ds ∧
      ∀ D, let D' := foldl (λ D d, default D (pick d)) D ds in D' = E ∨ last m = Some E ∧ D' = D;
  dv_start : ∀ label, last (MonitorState_new label) = None;
  dv_squeeze : ∀ C0 C1 R R0 R1, answered Cl C1 → C0 ⊆ C1 → R ⊆ R0 → R0 ⊆ R1 → dom C0 ⊆ R → dom C1 ⊆ R1 →
    f C0 R = f C1 R1 → f C0 R0 = f C1 R1 }.

Section derived.
Context `{!NixJson, !AnsiStrip} (Cl : text → gset text) (HCl : store_closures Cl).

(** ** The edges *)

Lemma answered_dag C : answered Cl C → dag_closures C.
Proof.
  intros HC x D Hx. rewrite (HC _ _ Hx). destruct (HCl x) as [Hirr Hsub]. split; [done|].
  intros y D' Hy HD'. rewrite (HC _ _ HD'). by apply Hsub.
Qed.

Lemma depends_mono C C' R R' a b : depends C R a b → C ⊆ C' → R ⊆ R' → depends C' R' a b.
Proof.
  intros (Ha & Hb & Hne & D & HD & Hin) HC HR. split_and!; [by apply HR..|done|].
  exists D. split; [by eapply lookup_weaken|done].
Qed.

(** A dependency known from fewer closures. *)
Lemma depends_back C C' R R' a b :
  C ⊆ C' → a ∈ dom C → a ∈ R → b ∈ R → depends C' R' a b → depends C R a b.
Proof.
  intros HC [D HD]%elem_of_dom Ha Hb (_ & _ & Hne & D' & HD' & Hin). split_and!; [done..|].
  exists D. split; [done|]. pose proof (lookup_weaken _ _ _ _ HD HC). by simplify_eq.
Qed.

Lemma depends_dom C R a b : depends C R a b → a ∈ dom C.
Proof. intros (_ & _ & _ & D & HD & _). by apply elem_of_dom_2 in HD. Qed.

Lemma tc_last {A} (R : relation A) x y : tc R x y → ∃ z, R z y.
Proof. induction 1; eauto. Qed.

Lemma squeeze_edge C0 C1 R R0 R1 :
  answered Cl C1 → C0 ⊆ C1 → R ⊆ R0 → R0 ⊆ R1 → dom C0 ⊆ R → dom C1 ⊆ R1 →
  dependency_edges C0 R = dependency_edges C1 R1 → ∀ a b, edge C0 R0 a b ↔ edge C1 R1 a b.
Proof.
  intros HC1 HC HR0 HR1 HdC0 HdC1 Heq a b.
  assert (∀ a b, edge C0 R a b ↔ edge C1 R1 a b) as Hedge by (intros; unfold edge; by rewrite Heq).
  pose proof (answered_dag _ HC1) as Hdag. split.
  - intros He. pose proof He as [Hd Hno]%edge_spec.
    assert (depends C1 R1 a b) as Hd1 by by eapply depends_mono.
    apply depends_tc in Hd1 as Hpath; [|done].
    (* both ends of the path are rows that the first graph has *)
    assert (b ∈ R) as HbR.
    { apply tc_last in Hpath as [c Hcb]. by apply Hedge, edge_spec in Hcb as [(_ & ? & _) _]. }
    assert (a ∈ R) as HaR.
    { apply HdC0. by eapply depends_dom. }
    apply Hedge, edge_spec. split; [by eapply (depends_back C0 C1); [|eapply depends_dom..| | |]|].
    intros (mid & Ham & Hmb). apply Hno. exists mid. split; by eapply depends_mono.
  - intros He. apply Hedge in He as He0. apply edge_spec in He as [Hd1 Hno1], He0 as [Hd0 _].
    apply edge_spec. split; [by eapply depends_mono|]. intros (mid & Ham & Hmb). apply Hno1.
    exists mid. split; by eapply depends_mono.
Qed.

Lemma edges_ext C R C' R' :
  (∀ a b, edge C R a b ↔ edge C' R' a b) → dependency_edges C R = dependency_edges C' R'.
Proof.
  intros Hext. unfold dependency_edges. apply (sorted_ext edge_le); [apply NoDup_edges..|].
  intros [a b]. specialize (Hext a b). unfold edge, dependency_edges in Hext. by rewrite !merge_sort_Permutation in Hext.
Qed.

Definition pick_edges (d : Delta) : option (list DerivationEdge) :=
  match d with DependenciesSet e => Some e | _ => None end.
Definition pick_causes (d : Delta) : option (list text) :=
  match d with RootCausesSet l => Some l | _ => None end.

Lemma put_logs_graph w entries :
  w_dependencies (foldl put_log w entries) = w_dependencies w ∧
  w_root_causes (foldl put_log w entries) = w_root_causes w.
Proof. revert w. induction entries as [|e es IH]; intros w; simpl; [done|]. by rewrite !(proj1 (IH _)), !(proj2 (IH _)). Qed.

Lemma receive_graph w d :
  incremental d → w_dependencies (receive w d) = default (w_dependencies w) (pick_edges d) ∧
  w_root_causes (receive w d) = default (w_root_causes w) (pick_causes d).
Proof.
  intros Hd. destruct d; try done.
  3: { pose proof (put_logs_graph w (num_log js_number <$> entries)) as [H1 H2]. simpl. rewrite <- H1, <- H2. unfold receive.
       destruct w. simpl. by destruct (foldl _ _ _). }
  all: by destruct w.
Qed.

(** What a closure sends: the edges if they changed, then the causes if they did. *)
Lemma sent_graph E F m :
  let m' := emit_root_causes F (emit_dependencies E m) in
  last_dependencies m' = Some E ∧ last_root_causes m' = Some F ∧
  ∃ ds, outbox m' = outbox m ++ ds ∧
    (∀ D, let D' := foldl (λ D d, default D (pick_edges d)) D ds in D' = E ∨ last_dependencies m = Some E ∧ D' = D) ∧
    (∀ D, let D' := foldl (λ D d, default D (pick_causes d)) D ds in D' = F ∨ last_root_causes m = Some F ∧ D' = D).
Proof.
  unfold emit_root_causes, emit_dependencies.
  destruct (decide (last_dependencies m = Some E)) as [HE|HE]; simpl; case_decide as HF; simpl.
  - split_and!; [done..|]. exists []. rewrite app_nil_r. split_and!; [done|by right..].
  - split_and!; [done..|]. eexists. split_and!; [done|by right|by left].
  - split_and!; [done..|]. eexists. split_and!; [done|by left|by right].
  - split_and!; [done..|]. rewrite <- app_assoc. eexists. split_and!; [done|by left|by left].
Qed.

Lemma record_closure_eq drv c m :
  record_closure drv c m =
  emit_root_causes (root_cause_derivations (<[drv := c]> (closure_deps m)) (observed m))
    (emit_dependencies (dependency_edges (<[drv := c]> (closure_deps m)) (observed m))
       (with_closure_deps (<[drv := c]> (closure_deps m)) m)).
Proof. done. Qed.

Lemma edges_derived : Derived Cl DerivationEdge dependency_edges last_dependencies pick_edges w_dependencies.
Proof.
  split.
  - by intros [] m.
  - intros w d Hd. by apply receive_graph.
  - by intros m m' [].
  - done.
  - by intros [].
  - intros drv c m E. rewrite record_closure_eq.
    destruct (sent_graph E (root_cause_derivations (<[drv := c]> (closure_deps m)) (observed m))
      (with_closure_deps (<[drv := c]> (closure_deps m)) m)) as (? & _ & ds & Ho & ? & _). eauto.
  - done.
  - intros C0 C1 R R0 R1 **. by eapply edges_ext, squeeze_edge.
Qed.

(** ** The root causes *)

Lemma squeeze_causes C0 C1 R R0 R1 :
  answered Cl C1 → C0 ⊆ C1 → R ⊆ R0 → R0 ⊆ R1 → dom C0 ⊆ R → dom C1 ⊆ R1 →
  root_cause_derivations C0 R = root_cause_derivations C1 R1 →
  root_cause_derivations C0 R0 = root_cause_derivations C1 R1.
Proof.
  intros HC1 HC HR0 HR1 HdC0 HdC1 Heq. rewrite <- Heq. apply (sorted_ext text_le); [apply NoDup_root_causes..|].
  intros x. rewrite !list_elem_of_filter, !elem_ascending, !no_built_input_spec. split.
  - intros [(D & HD & Hno) Hx]. split; [exists D; split; [done|]; set_solver|]. apply HdC0. by apply elem_of_dom_2 in HD.
  - intros [(D & HD & Hno) Hx].
    assert (x ∈ root_cause_derivations C1 R1) as Hx1 by (rewrite <- Heq; apply elem_root_causes; eauto).
    apply elem_root_causes in Hx1 as [_ (D1 & HD1 & Hno1)]. pose proof (lookup_weaken _ _ _ _ HD HC). simplify_eq.
    split; [|set_solver]. exists D1. split; [done|]. intros y Hy Hy0. apply (Hno1 y); [done|]. set_solver.
Qed.

Lemma causes_derived : Derived Cl text root_cause_derivations last_root_causes pick_causes w_root_causes.
Proof.
  split.
  - by intros [] m.
  - intros w d Hd. by apply receive_graph.
  - by intros m m' [].
  - done.
  - by intros [].
  - intros drv c m E. rewrite record_closure_eq.
    destruct (sent_graph (dependency_edges (<[drv := c]> (closure_deps m)) (observed m)) E
      (with_closure_deps (<[drv := c]> (closure_deps m)) m)) as (_ & ? & ds & Ho & _ & ?). eauto.
  - done.
  - apply squeeze_causes.
Qed.
End derived.

(** * The feed *)

(** The server asks for the closure of rows only, and records what it is told. *)
Definition sound_op (Cl : text → gset text) (op : Op) (m : MonitorState) : Prop :=
  match op with OpClosure drv c => c = Cl drv ∧ drv ∈ observed m | _ => True end.

Section feed_step.
Context `{!NixJson, !AnsiStrip} (Cl : text → gset text).

Inductive fed : System → System → Prop :=
| fed_mutate op m sent cs : sound_op Cl op m → fed (mkSystem m sent cs) (mkSystem (run op m) sent cs)
| fed_serve s s' : serve s s' → fed s s'.

Lemma fed_step s s' : fed s s' → step s s'.
Proof. intros [op m sent cs _|]; by constructor. Qed.

(** Closures recorded are those of rows. *)
Definition known (m : MonitorState) : Prop :=
  answered Cl (closure_deps m) ∧ dom (closure_deps m) ⊆ observed m.

Lemma run_known op m : sound_op Cl op m → known m → known (run op m).
Proof.
  intros Hop [Ha Hd]. destruct (is_closure op) eqn:Hc.
  - destruct op; try done. destruct Hop as [-> Hrow]. simpl. rewrite record_closure_eq.
    assert (∀ E F m1, closure_deps (emit_root_causes F (emit_dependencies E m1)) = closure_deps m1 ∧
      observed (emit_root_causes F (emit_dependencies E m1)) = observed m1) as Hemit.
    { intros E F m1. unfold emit_root_causes, emit_dependencies. by repeat case_decide. }
    split; [intros x D|]; rewrite ?(proj1 (Hemit _ _ _)), ?(proj2 (Hemit _ _ _)); simpl.
    + intros [[<- <-]|[]]%lookup_insert_Some; [done|eauto].
    + rewrite dom_insert. unfold observed in *. simpl. set_solver.
  - destruct (frames_run op m Hc) as [Hcl _ _ Hr _]. split; [intros x D|]; rewrite Hcl; [apply Ha|by etrans].
Qed.

Section derived.
Context {A : Type} {f : gmap text (gset text) → gset text → list A} {last : MonitorState → option (list A)}
  {pick : Delta → option (list A)} {shown : Working → list A} (HD : Derived Cl A f last pick shown).

Definition assigned (ds : list Delta) (D : list A) : list A := foldl (λ D d, default D (pick d)) D ds.

(** What was last sent was computed from the closures there are. *)
Definition sent_ok (m : MonitorState) : Prop :=
  match last m with
  | None => closure_deps m = ∅
  | Some E => ∃ R, R ⊆ observed m ∧ dom (closure_deps m) ⊆ R ∧ E = f (closure_deps m) R
  end.

(** What waits in the outbox ends with what was last sent. *)
Definition waiting_ok (m : MonitorState) : Prop :=
  ∀ D, assigned (outbox m) D = D ∨ last m = Some (assigned (outbox m) D).

(** What a page shows: what was last sent, or a seed taken since. *)
Definition shows_ok (m : MonitorState) (D : list A) : Prop :=
  last m = Some D ∨
  ∃ C R0, D = f C R0 ∧ C ⊆ closure_deps m ∧ R0 ⊆ observed m ∧
    match last m with
    | None => True
    | Some E => ∃ R, R ⊆ R0 ∧ dom C ⊆ R ∧ E = f C R
    end.

Record graph_ok (s : System) : Prop := {
  go_known : known (monitor s);
  go_sent : sent_ok (monitor s);
  go_waiting : waiting_ok (monitor s);
  go_shows : ∀ i c, clients s !! i = Some c → shows_ok (monitor s) (shown (foldl receive (working c) (upcoming s c))) }.

Lemma assigned_app ds1 ds2 D : assigned (ds1 ++ ds2) D = assigned ds2 (assigned ds1 D).
Proof. apply foldl_app. Qed.

Lemma assigned_quiet ds D : Forall quiet ds → assigned ds D = D.
Proof.
  intros Hq. unfold assigned. induction Hq as [|d ds Hd _ IH]; simpl; [done|].
  by rewrite (dv_quiet _ _ _ _ _ _ HD _ Hd).
Qed.

Lemma shown_receive w ds : Forall incremental ds → shown (foldl receive w ds) = assigned ds (shown w).
Proof.
  revert w. induction ds as [|d ds IH]; intros w; simpl; [done|]. intros [Hd Hds]%Forall_cons_1.
  by rewrite IH, (dv_receive _ _ _ _ _ _ HD).
Qed.

(** A seed shows the state's own. *)
Lemma seed_shows m frames w :
  known m → sent_ok m → waiting_ok m → Forall incremental (outbox m) →
  shows_ok m (shown (foldl receive w (frames ++ [Reset (snapshot m)] ++ outbox m))).
Proof.
  intros [Ha Hd] Hs Hw Hinc. rewrite foldl_app. simpl. rewrite shown_receive by done. rewrite (dv_seed _ _ _ _ _ _ HD).
  destruct (Hw (f (closure_deps m) (observed m))) as [->|Hl]; [|by left]. right.
  exists (closure_deps m), (observed m). split_and!; [done..|]. unfold sent_ok in Hs.
  destruct (last m) as [E|]; [|done]. destruct Hs as (R & ? & ? & ->). by exists R.
Qed.

Lemma frames_shows m m' D : frames m m' → shows_ok m D → shows_ok m' D.
Proof.
  intros Hf. unfold shows_ok. rewrite (dv_frames _ _ _ _ _ _ HD _ _ Hf). destruct Hf as [-> _ _ Hr _].
  intros [?|(C & R0 & ? & ? & ? & ?)]; [by left|right]. exists C, R0. split_and!; [done..|by etrans|done].
Qed.

(** Recording a closure again changes nothing. *)
Lemma record_grows drv m : answered Cl (closure_deps m) → closure_deps m ⊆ <[drv := Cl drv]> (closure_deps m).
Proof.
  intros Ha. destruct (closure_deps m !! drv) as [C|] eqn:HC; [|by apply insert_subseteq].
  rewrite <- (Ha _ _ HC), insert_id; done.
Qed.

Lemma record_graph drv c m :
  closure_deps (record_closure drv c m) = <[drv := c]> (closure_deps m) ∧ observed (record_closure drv c m) = observed m.
Proof. rewrite record_closure_eq. unfold emit_root_causes, emit_dependencies. by repeat case_decide. Qed.

(** A page that gets what a new closure sends. *)
Lemma record_shows drv m D ds :
  known m → drv ∈ observed m → shows_ok m D → outbox (record_closure drv (Cl drv) m) = outbox m ++ ds →
  last (record_closure drv (Cl drv) m) = Some (assigned ds D).
Proof.
  intros [Ha Hd] Hrow Hshow Ho. destruct (dv_record _ _ _ _ _ _ HD drv (Cl drv) m) as [Hlast (ds' & Ho' & Hds)].
  rewrite Ho' in Ho. apply app_inv_head in Ho as ->. rewrite Hlast. f_equal. symmetry.
  destruct (Hds D) as [?|[Hl HD']]; [done|]. unfold assigned. rewrite HD'.
  destruct Hshow as [Hl'|(C & R0 & -> & HC & HR0 & Hsent)]; [congruence|]. rewrite Hl in Hsent.
  destruct Hsent as (R & HR & HdC & HE). rewrite HE. rewrite HE in Hl. clear Hds Hlast Hl.
  rewrite <- HE. symmetry in HE. rewrite <- HE.
  eapply eq_trans; [|symmetry; exact HE].
  eapply (dv_squeeze _ _ _ _ _ _ HD C (<[drv := Cl drv]> (closure_deps m)) R R0 (observed m)); try done.
  - intros x D0 [[<- <-]|[]]%lookup_insert_Some; [done|by apply Ha].
  - etrans; [exact HC|by apply record_grows].
  - rewrite dom_insert. set_solver.
Qed.

Lemma mutate_graph_ok op m sent cs :
  sound_op Cl op m → graph_ok (mkSystem m sent cs) → system_ok (mkSystem m sent cs) → graph_ok (mkSystem (run op m) sent cs).
Proof.
  intros Hop [Hk Hs Hw Hcs] Hsys. simpl in *. pose proof (run_known _ _ Hop Hk) as Hk'.
  assert (∀ ds w, outbox (run op m) = outbox m ++ ds →
    shown (foldl receive w ds) = assigned ds (shown w)) as Hrec.
  { intros ds w Hds. apply shown_receive. by destruct (run_assigns op m ds RProgress (ok_monitor _ Hsys) Hds). }
  destruct (is_closure op) eqn:Hc.
  - destruct op as [| drv c | | | | | | | | | |]; try done. destruct Hop as [-> Hrow]. simpl in *.
    destruct (dv_record _ _ _ _ _ _ HD drv (Cl drv) m) as [Hlast (ds & Ho & Hds)].
    destruct (record_graph drv (Cl drv) m) as [HC Hobs]. split; simpl; [done|..].
    + unfold sent_ok. rewrite Hlast, HC, Hobs. exists (observed m). split_and!; [done| |done].
      rewrite <- HC, <- Hobs. apply Hk'.
    + intros D. rewrite Ho, assigned_app, Hlast. unfold assigned at 1 3.
      destruct (Hds (assigned (outbox m) D)) as [Hd|[Hl Hd]]; rewrite Hd; [by right|].
      destruct (Hw D) as [Hq|Hq]; [by left|right; congruence].
    + intros i c Hc'. unfold upcoming. simpl. rewrite Ho, !app_assoc, foldl_app, Hrec by done. left.
      eapply record_shows; [done..| |done]. rewrite <- app_assoc. by apply (Hcs i c).
  - destruct (frames_run op m Hc) as [Hcl Hd Hca Hr (ds & Ho & Hq)].
    pose proof (frames_run op m Hc) as Hf. split; simpl; [done|..].
    + unfold sent_ok in *. rewrite (dv_frames _ _ _ _ _ _ HD _ _ Hf), Hcl. destruct (last m); [|done].
      destruct Hs as (R & ? & ? & ->). exists R. split_and!; [by etrans|done..].
    + intros D. rewrite Ho, assigned_app, (assigned_quiet ds), (dv_frames _ _ _ _ _ _ HD _ _ Hf) by done. apply Hw.
    + intros i c Hc'. unfold upcoming. simpl. rewrite Ho, !app_assoc, foldl_app, Hrec, assigned_quiet by done.
      apply (frames_shows m); [done|]. rewrite <- app_assoc. by apply (Hcs i c).
Qed.

Lemma serve_graph_ok s s' : serve s s' → system_ok s → graph_ok s → graph_ok s'.
Proof.
  intros Hstep [_ Hinc _ Hok] [Hk Hs Hw Hcs].
  destruct Hstep as [m sent cs|i m sent cs Hi|i c d m sent cs Hi Hlag Hd|i c m sent cs Hi Hlag
    |i c d frames m sent cs Hi Hsock|i m sent cs]; simpl in *; split; simpl; try done.
  - unfold sent_ok in *. by rewrite (dv_drain _ _ _ _ _ _ HD).
  - intros D. by left.
  - intros i c Hc. specialize (Hcs _ _ Hc). pose proof (Hok _ _ Hc) as Hn. unfold upcoming in *. simpl in *.
    unfold shows_ok. rewrite (dv_drain _ _ _ _ _ _ HD). by rewrite app_nil_r, drop_app_le.
  - intros j c [[<- <-]|[]]%lookup_insert_Some; [|by apply (Hcs j)]. unfold upcoming, seed. simpl.
    rewrite drop_all. by apply (seed_shows m [] create_working).
  - intros j c' [[<- <-]|[]]%lookup_insert_Some; [|by apply (Hcs j)]. specialize (Hcs _ _ Hi).
    unfold upcoming in *. simpl in *. by rewrite (drop_S _ _ _ Hd), <- app_assoc in *.
  - intros j c' [[<- <-]|[]]%lookup_insert_Some; [|by apply (Hcs j)]. unfold upcoming, seed. simpl.
    rewrite drop_all, <- app_assoc. by apply seed_shows.
  - intros j c' [[<- <-]|[]]%lookup_insert_Some; [|by apply (Hcs j)]. specialize (Hcs _ _ Hi).
    unfold upcoming in *. simpl in *. by rewrite Hsock in *.
  - intros j c' [_ ?]%lookup_delete_Some. by apply (Hcs j).
Qed.

Lemma fed_graph_ok label s : rtc fed (start label) s → system_ok s ∧ graph_ok s.
Proof.
  intros Hs. assert (system_ok (start label) ∧ graph_ok (start label)) as Hok.
  { split; [apply start_ok|]. split; simpl.
    - split; [intros x D Hx; simpl in Hx; by rewrite lookup_empty in Hx|set_solver].
    - unfold sent_ok. by rewrite (dv_start _ _ _ _ _ _ HD).
    - intros D. by left.
    - done. }
  revert Hok. induction Hs as [|s1 s2 s3 H12 _ IH]; [done|]. intros [H1 H2]. apply IH.
  split; [eapply step_ok; [by apply fed_step|done]|].
  destruct H12 as [op m sent cs Hop|s s' Hserve]; [by apply mutate_graph_ok|by eapply serve_graph_ok].
Qed.

(** Once the closures of all rows are known, pages that have read all agree. *)
Lemma shows_current m D :
  known m → sent_ok m → shows_ok m D → observed m ⊆ dom (closure_deps m) → D = f (closure_deps m) (observed m).
Proof.
  intros [Ha Hd] Hs Hshow Hall. unfold sent_ok in Hs.
  destruct Hshow as [Hl|(C & R0 & -> & HC & HR0 & Hsent)].
  - rewrite Hl in Hs. destruct Hs as (R & HR & HdR & ->). f_equal. set_solver.
  - destruct (last m) as [E|].
    + destruct Hs as (R1 & HR1 & HdR1 & HE1), Hsent as (R & HR & HdC & HE).
      assert (R1 = observed m) as -> by set_solver.
      eapply (dv_squeeze _ _ _ _ _ _ HD C (closure_deps m) R R0 (observed m)); try done. congruence.
    + rewrite Hs in *. assert (C = ∅) as ->.
      { apply (anti_symm (⊆)); [done|apply map_empty_subseteq]. }
      rewrite dom_empty_L in Hall. f_equal. set_solver.
Qed.
End derived.
End feed_step.

Section graph.
Context `{!NixJson, !AnsiStrip} (Cl : text → gset text) (HCl : store_closures Cl).

Lemma pages_graph label s i c :
  rtc (fed Cl) (start label) s → clients s !! i = Some c → caught_up s c →
  observed (monitor s) ⊆ dom (closure_deps (monitor s)) →
  w_dependencies (working c) = dependency_edges (closure_deps (monitor s)) (observed (monitor s)) ∧
  w_root_causes (working c) = root_cause_derivations (closure_deps (monitor s)) (observed (monitor s)).
Proof.
  intros Hs Hc Hup Hall.
  destruct (fed_graph_ok Cl (edges_derived Cl HCl) _ _ Hs) as [_ [Hk He _ Hse]].
  destruct (fed_graph_ok Cl (causes_derived Cl HCl) _ _ Hs) as [_ [_ Hr _ Hsr]].
  specialize (Hse _ _ Hc). specialize (Hsr _ _ Hc). rewrite Hup in Hse, Hsr. simpl in Hse, Hsr. split.
  - by apply (shows_current Cl (edges_derived Cl HCl)).
  - by apply (shows_current Cl (causes_derived Cl HCl)).
Qed.
End graph.
