(* ===== verification/NwmProps.v ===== *)
(** What the state of nix-web-monitor promises: how the status of a build may
    change, the numbering and bounds of the log, the compact view; and the
    system of pages at concrete runs, the race between a change and its
    broadcast among them. *)

From stdpp Require Import base gmap sets list strings sorting relations.
From Stdlib Require Import Lia.
From S2P Require Import Prelude Chars JsonValue NwmEvent NwmState NwmClient NwmMirror NwmSystem NwmGraph NwmFeed.

(** * The life of a build *)

(** What no operation takes from a row. *)
Definition keeps (b b' : BuildNode) : Prop :=
  derivation b' = derivation b ∧ (log_count b ≤ log_count b')%Z ∧
  (content_addressed b = true → content_addressed b' = true).

(** Rows stay and change their status by [R]; new rows have a status in [N]. *)
Definition rows_change (R : text → BuildStatus → BuildStatus → Prop) (N : text → BuildStatus → Prop)
    (m m' : MonitorState) : Prop :=
  ∀ drv, match builds m !! drv, builds m' !! drv with
         | Some b, Some b' => keeps b b' ∧ R drv (b_status b) (b_status b')
         | None, Some b' => N drv (b_status b')
         | Some _, None => False
         | None, None => True
         end.

Lemma keeps_refl b : keeps b b.
Proof. by split_and!. Qed.

Section rows.
Context (R : text → BuildStatus → BuildStatus → Prop) (N : text → BuildStatus → Prop).
Context (Rrefl : ∀ drv s, R drv s s) (Rtrans : ∀ drv s1 s2 s3, R drv s1 s2 → R drv s2 s3 → R drv s1 s3)
  (NR : ∀ drv s1 s2, N drv s1 → R drv s1 s2 → N drv s2).

Lemma rows_same m m' : builds m' = builds m → rows_change R N m m'.
Proof. intros E drv. rewrite E. destruct (builds m !! drv); [split; [apply keeps_refl|apply Rrefl]|done]. Qed.

Lemma rows_trans m1 m2 m3 : rows_change R N m1 m2 → rows_change R N m2 m3 → rows_change R N m1 m3.
Proof.
  intros H12 H23 drv. specialize (H12 drv). specialize (H23 drv).
  destruct (builds m1 !! drv) as [b1|], (builds m2 !! drv) as [b2|], (builds m3 !! drv) as [b3|]; try done.
  - destruct H12 as [(? & ? & ?) ?], H23 as [(? & ? & ?) ?].
    split; [split_and!; [congruence|lia|auto]|by eapply Rtrans].
  - by eapply NR, H23.
Qed.

Lemma rows_insert m m' drv b' :
  builds m' = <[drv := b']> (builds m) →
  match builds m !! drv with Some b => keeps b b' ∧ R drv (b_status b) (b_status b') | None => N drv (b_status b') end →
  rows_change R N m m'.
Proof.
  intros E H d. rewrite E. destruct (decide (d = drv)) as [->|]; [by rewrite lookup_insert_eq; destruct (builds m !! drv)|].
  rewrite lookup_insert_ne by done. destruct (builds m !! d); [split; [apply keeps_refl|apply Rrefl]|done].
Qed.
End rows.

Lemma emit_build_builds drv m : builds (emit_build drv m) = builds m.
Proof. unfold emit_build. by destruct (builds m !! drv). Qed.

(** A log line counts for its build and changes nothing else of it. *)
Lemma rows_push_log R N m a l t :
  (∀ drv s, R drv s s) → rows_change R N m (push_log a l t m).
Proof.
  intros HR. unfold push_log, count_log. simpl. destruct (_ ≫= _) as [build|]; [|by apply rows_same].
  simpl. destruct (builds m !! build) as [b|] eqn:Hb; [|by apply rows_same].
  eapply (rows_insert R N HR); [done|]. rewrite Hb. split; [split_and!; simpl; [done|lia|done]|apply HR].
Qed.

Lemma foldl_builds drvs m : builds (foldl (λ m drv, emit_build drv m) m drvs) = builds m.
Proof. revert m. induction drvs as [|drv drvs IH]; intros m; simpl; [done|]. by rewrite IH, emit_build_builds. Qed.

Section life.
Context `{!NixJson, !AnsiStrip}.

(** The message in which [line] reports that building [drv] failed. *)
Definition reports_failure (m : MonitorState) (line drv : text) : Prop :=
  ∃ t failure, (parse_line line = Plain t ∨ ∃ action, parse_line line = Event (Message action) ∧ t = ma_message action) ∧
    parse_builder_failure (strip_ansi t) = Some failure ∧ drv = resolve_alias m failure.

(** What an operation makes of the row of [drv]. *)
Inductive becomes (op : Op) (m : MonitorState) (drv : text) : BuildStatus → Prop :=
| becomes_running t1 t2 line action raw :
    op = OpLine t1 t2 line → parse_line line = Event (Start action) → code (sa_type action) = BUILD →
    text_field (sa_fields action) 0 = Some raw → drv = resolve_alias m raw → becomes op m drv Running
| becomes_stopped t1 t2 line id a b :
    op = OpLine t1 t2 line → parse_line line = Event (Stop id) → activities m !! id = Some a → a_build a = Some drv →
    builds m !! drv = Some b → b_status b = Running → becomes op m drv Stopped
| becomes_succeeded b :
    op = OpSucceeded ∨ op = OpFinish (Some 0%Z) → builds m !! drv = Some b →
    b_status b = Stopped ∨ b_status b = Planned → becomes op m drv Succeeded
| becomes_failed t1 t2 line : op = OpLine t1 t2 line → reports_failure m line drv → becomes op m drv Failed.

(** The message in which Nix announces to build [drv]. *)
Definition announces (op : Op) (m : MonitorState) (drv : text) : Prop :=
  ∃ t1 t2 line action, op = OpLine t1 t2 line ∧ parse_line line = Event (Message action) ∧ plan_section m = BuildPlan ∧
    is_build_plan_header (cleaned_message action) = false ∧ planned_derivation (cleaned_message action) = Some drv.

(** How a row may change its status, and how it may begin. *)
Definition allowed (op : Op) (m : MonitorState) (drv : text) (s s' : BuildStatus) : Prop := s' = s ∨ becomes op m drv s'.
Definition begins (op : Op) (m : MonitorState) (drv : text) (s : BuildStatus) : Prop :=
  s = Planned ∧ announces op m drv ∨ becomes op m drv s.

Lemma allowed_refl op m drv s : allowed op m drv s s.
Proof. by left. Qed.

Lemma allowed_trans op m drv s1 s2 s3 : allowed op m drv s1 s2 → allowed op m drv s2 s3 → allowed op m drv s1 s3.
Proof. intros [->|H12]; [done|]. intros [->|H23]; by right. Qed.

Lemma begins_allowed op m drv s1 s2 : begins op m drv s1 → allowed op m drv s1 s2 → begins op m drv s2.
Proof. intros H1 [->|H2]; [done|by right]. Qed.

Abbreviation evolves op m := (rows_change (allowed op m) (begins op m)).

Lemma evolves_trans op m m1 m2 m3 : evolves op m m1 m2 → evolves op m m2 m3 → evolves op m m1 m3.
Proof. apply rows_trans; [apply allowed_trans|apply begins_allowed]. Qed.

Lemma evolves_same op m m1 m2 : builds m2 = builds m1 → evolves op m m1 m2.
Proof. apply rows_same, allowed_refl. Qed.

Lemma evolves_insert op m m1 m2 drv b' :
  builds m2 = <[drv := b']> (builds m1) →
  match builds m1 !! drv with
  | Some b => keeps b b' ∧ allowed op m drv (b_status b) (b_status b')
  | None => begins op m drv (b_status b')
  end → evolves op m m1 m2.
Proof. apply rows_insert, allowed_refl. Qed.

Lemma evolves_push_log op m m1 a l t : evolves op m m1 (push_log a l t m1).
Proof. apply rows_push_log, allowed_refl. Qed.

Lemma evolves_mark_failed op m m1 now_ms failure :
  becomes op m (resolve_alias m1 failure) Failed → evolves op m m1 (mark_failed_build now_ms failure m1).
Proof.
  intros Ha. eapply evolves_insert.
  - unfold mark_failed_build. by rewrite emit_build_builds.
  - unfold resolve_alias in Ha. set (drv := default failure _) in *. destruct (builds m1 !! drv) as [b|]; simpl.
    + split; [split_and!; [done..|by intros ->]|by right].
    + by right.
Qed.

Lemma evolves_plan op m m1 now_ms t :
  (∀ drv, plan_section m1 = BuildPlan → is_build_plan_header t = false → planned_derivation t = Some drv → announces op m drv) →
  evolves op m m1 (note_build_plan now_ms t m1).
Proof.
  intros Hop. unfold note_build_plan. destruct (is_build_plan_header t); [by apply evolves_same|].
  case_decide as Hs; [|destruct (starts_with_whitespace t); by apply evolves_same].
  destruct (planned_derivation t) as [drv|]; [|destruct (starts_with_whitespace t); by apply evolves_same].
  unfold plan_build. destruct (builds m1 !! drv) as [b|] eqn:Hb; [by apply evolves_same|].
  eapply evolves_insert; [by rewrite emit_build_builds|]. rewrite Hb. left. split; [done|by apply Hop].
Qed.

Lemma note_resolved_keeps op m action m1 : evolves op m m1 (note_resolved_derivation action m1).
Proof.
  unfold note_resolved_derivation. case_decide; [|by apply evolves_same].
  destruct (text_field _ 0) as [original|]; [|by apply evolves_same].
  destruct (text_field _ 1) as [resolved|]; [|by apply evolves_same]. simpl.
  destruct (builds m1 !! original) as [b|] eqn:Hb; [|by apply evolves_same].
  eapply evolves_insert; [by rewrite emit_build_builds|]. rewrite Hb. split; [by split_and!|by left].
Qed.

Lemma evolves_start t1 t2 line action m :
  parse_line line = Event (Start action) →
  evolves (OpLine t1 t2 line) m m (start_activity t1 action m).
Proof.
  intros Hl. unfold start_activity. set (raw_build := if bool_decide _ then text_field _ 0 else None).
  set (m1 := with_activities _ m).
  assert (evolves (OpLine t1 t2 line) m m (note_resolved_derivation action m1)) as Hnote.
  { eapply evolves_trans; [by apply (evolves_same _ _ _ m1)|apply note_resolved_keeps]. }
  destruct raw_build as [raw|] eqn:Hraw; simpl;
    [|eapply evolves_trans; [exact Hnote|apply evolves_same; by rewrite emit_activity_builds]].
  assert (becomes (OpLine t1 t2 line) m (resolve_alias m raw) Running) as Hrun.
  { unfold raw_build in Hraw. case_bool_decide as Hcode; [|done]. by econstructor. }
  eapply evolves_trans; [exact Hnote|]. eapply evolves_insert; [by rewrite emit_activity_builds, emit_build_builds|].
  destruct (builds _ !! resolve_alias m raw) as [b|] eqn:Hb.
  - split; [|by right]. simpl. split_and!; simpl; [done..|by intros ->].
  - by right.
Qed.

Lemma evolves_stop t1 t2 line id m :
  parse_line line = Event (Stop id) → evolves (OpLine t1 t2 line) m m (stop_activity t1 id m).
Proof.
  intros Hl. unfold stop_activity. destruct (activities m !! id) as [a|] eqn:Ha; [|by apply evolves_same]. simpl.
  destruct (a_build a) as [build|] eqn:Hab; [|apply evolves_same; by rewrite emit_activity_builds].
  destruct (builds m !! build) as [b|] eqn:Hb; [|apply evolves_same; by rewrite emit_activity_builds].
  case_decide; [|apply evolves_same; by rewrite emit_activity_builds].
  eapply evolves_insert; [by rewrite emit_build_builds, emit_activity_builds|]. rewrite Hb. simpl.
  split; [by split_and!|]. right. by eapply becomes_stopped.
Qed.

Lemma evolves_set_phase op m id phase : evolves op m m (set_phase id phase m).
Proof.
  unfold set_phase. destruct (activities m !! id) as [a|]; [|by apply evolves_same]. simpl.
  destruct (a_build a) as [build|]; [|apply evolves_same; by rewrite emit_activity_builds].
  destruct (builds m !! build) as [b|] eqn:Hb; [|apply evolves_same; by rewrite emit_build_builds, emit_activity_builds].
  eapply evolves_insert; [by rewrite emit_build_builds, emit_activity_builds|]. rewrite Hb.
  split; [by split_and!|by left].
Qed.

Lemma set_progress_builds id p m : builds (set_progress id p m) = builds m.
Proof. unfold set_progress. rewrite emit_activity_builds. by destruct (activities m !! id); simpl; try case_bool_decide. Qed.

Lemma mark_failed_alias now_ms failure m drv : resolve_alias (mark_failed_build now_ms failure m) drv = resolve_alias m drv.
Proof. unfold mark_failed_build, emit_build, resolve_alias. simpl. by destruct (<[_ := _]> _ !! _). Qed.

Lemma note_plan_alias now_ms t m drv : resolve_alias (note_build_plan now_ms t m) drv = resolve_alias m drv.
Proof. unfold note_build_plan, plan_build, emit_build, resolve_alias. by repeat case_match. Qed.

Lemma push_log_alias a l t m drv : resolve_alias (push_log a l t m) drv = resolve_alias m drv.
Proof.
  unfold push_log, resolve_alias. simpl. destruct (count_log_bump a 0 None [] (with_log_counter (Z.min (log_counter m + 1) u64_max) m)) as [_ ->].
  done.
Qed.

Lemma push_log_section a l t m : plan_section (push_log a l t m) = plan_section m.
Proof.
  unfold push_log. simpl. destruct (count_log_bump a 0 None [] (with_log_counter (Z.min (log_counter m + 1) u64_max) m)) as [_ ->].
  done.
Qed.

(** The state in which a message looks for a plan and for a failure. *)
Lemma message_state action m :
  let m1 := push_log None (ma_level action) (cleaned_message action)
    (if decide (ma_level action = Some NIX_LEVEL_ERROR) then push_error (cleaned_message action) m else m) in
  (∀ op, evolves op m m m1) ∧ plan_section m1 = plan_section m ∧ ∀ drv, resolve_alias m1 drv = resolve_alias m drv.
Proof.
  set (m0 := if decide _ then _ else m). intros m1.
  assert (builds m0 = builds m ∧ plan_section m0 = plan_section m ∧ ∀ drv, resolve_alias m0 drv = resolve_alias m drv)
    as (Hb & Hp & Ha) by (unfold m0; by case_decide).
  split_and!.
  - intros op. eapply evolves_trans; [by apply (evolves_same _ _ _ m0)|apply evolves_push_log].
  - unfold m1. by rewrite push_log_section.
  - intros drv. unfold m1. by rewrite push_log_alias.
Qed.

Lemma evolves_line t1 t2 line m : evolves (OpLine t1 t2 line) m m (apply_line t1 t2 line m).
Proof.
  unfold apply_line. destruct (parse_line line) as [[action|id|id result|action|raw]|t|t error] eqn:Hl; simpl.
  - by apply evolves_start.
  - by apply evolves_stop.
  - destruct result; simpl; try (by apply evolves_same); try apply evolves_push_log; [apply evolves_set_phase|].
    apply evolves_same, set_progress_builds.
  - unfold apply_message. destruct (message_state action m) as (H1 & Hp & Ha). set (m1 := push_log _ _ _ _) in *.
    eapply evolves_trans; [apply H1|]. eapply evolves_trans.
    { apply evolves_plan. intros drv Hs Hh Hd. exists t1, t2, line, action. by rewrite <- Hp. }
    unfold mark_failure. destruct (parse_builder_failure _) as [failure|] eqn:Hf; [|by apply evolves_same].
    eapply evolves_mark_failed. rewrite note_plan_alias, Ha. apply (becomes_failed _ _ _ t1 t2 line); [done|].
    exists (ma_message action), failure. split_and!; [right; eauto|done..].
  - by apply evolves_same.
  - unfold apply_plain, mark_failure. eapply evolves_trans; [|apply evolves_push_log].
    destruct (parse_builder_failure _) as [failure|] eqn:Hf; [|by apply evolves_same].
    eapply evolves_mark_failed, (becomes_failed _ _ _ t1 t2 line); [done|]. exists t, failure. eauto.
  - eapply evolves_trans; [|apply evolves_push_log]. by apply evolves_same.
Qed.

Lemma promote_builds m :
  builds (promote_unfinished_builds m) = (λ b, if unfinished b then with_status Succeeded b else b) <$> builds m.
Proof.
  unfold promote_unfinished_builds. generalize ((filter (λ entry, unfinished entry.2 = true) (by_key (builds m))).*1).
  intros l. by rewrite foldl_builds.
Qed.

Lemma evolves_promote op m m1 :
  op = OpSucceeded ∨ op = OpFinish (Some 0%Z) → builds m1 = builds m → evolves op m m (promote_unfinished_builds m1).
Proof.
  intros Hop Hb1 drv. rewrite promote_builds, Hb1, lookup_fmap. destruct (builds m !! drv) as [b|] eqn:Hb; [|done]. simpl.
  destruct (unfinished b) eqn:Hu; [|split; [apply keeps_refl|by left]]. split; [by split_and!|]. right.
  apply bool_decide_eq_true in Hu. by eapply becomes_succeeded.
Qed.

Lemma evolves_run op m : evolves op m m (run op m).
Proof.
  destruct op; simpl; try (by apply evolves_same).
  - apply evolves_line.
  - apply evolves_same. rewrite record_closure_eq. unfold emit_root_causes, emit_dependencies. by repeat case_decide.
  - apply evolves_same. unfold set_rebuild_reason. by case_decide.
  - apply evolves_same. unfold set_activity_size. destruct (activities m !! id); [by rewrite emit_activity_builds|done].
  - apply evolves_same. unfold set_global. by case_decide.
  - apply evolves_promote; [by left|done].
  - unfold finish. case_decide; [|by apply evolves_same]. subst.
    exact (evolves_promote (OpFinish (Some 0%Z)) m (settle (Some 0%Z) m) ltac:(by right) eq_refl).
Qed.

(** ** What must happen does *)

Lemma mark_failed_status now_ms failure m :
  b_status <$> builds (mark_failed_build now_ms failure m) !! resolve_alias m failure = Some Failed.
Proof.
  unfold mark_failed_build. rewrite emit_build_builds. simpl. unfold resolve_alias. rewrite lookup_insert_eq. simpl.
  by destruct (builds m !! _).
Qed.

Lemma becomes_run op m drv s : becomes op m drv s → b_status <$> builds (run op m) !! drv = Some s.
Proof.
  intros [t1 t2 line action raw -> Hl Hcode Hraw ->|t1 t2 line id a b -> Hl Ha Hab Hb Hs|b Hop Hb Hs
    |t1 t2 line -> (t & failure & Hl & Hf & ->)]; simpl.
  - unfold apply_line. rewrite Hl. simpl. unfold start_activity. rewrite bool_decide_eq_true_2 by done. rewrite Hraw. simpl.
    rewrite emit_activity_builds, emit_build_builds. simpl. rewrite lookup_insert_eq. simpl.
    by destruct (builds _ !! _).
  - unfold apply_line. rewrite Hl. simpl. unfold stop_activity. rewrite Ha. simpl. rewrite Hab, Hb, decide_True by done.
    rewrite emit_build_builds, emit_activity_builds. simpl. by rewrite lookup_insert_eq.
  - assert (unfinished b = true) as Hu by (by apply bool_decide_eq_true).
    destruct Hop as [-> | ->]; simpl.
    + unfold mark_builds_succeeded. rewrite promote_builds, lookup_fmap, Hb. simpl. by rewrite Hu.
    + rewrite promote_builds, lookup_fmap. simpl. rewrite Hb. simpl. by rewrite Hu.
  - unfold apply_line. destruct Hl as [Hl|(action & Hl & ->)]; rewrite Hl; simpl.
    + unfold apply_plain, mark_failure. rewrite Hf. apply mark_failed_status.
    + unfold apply_message, mark_failure. destruct (message_state action m) as (_ & _ & Ha). rewrite Hf.
      rewrite <- Ha, <- (note_plan_alias t1 (cleaned_message action)). apply mark_failed_status.
Qed.

Lemma announced_run op m drv : announces op m drv → is_Some (builds (run op m) !! drv).
Proof.
  intros (t1 & t2 & line & action & -> & Hl & Hs & Hh & Hd). simpl. unfold apply_line. rewrite Hl. simpl.
  unfold apply_message. destruct (message_state action m) as (_ & Hp & _). set (m1 := push_log _ _ _ _) in *.
  assert (is_Some (builds (note_build_plan t1 (cleaned_message action) m1) !! drv)) as Hrow.
  { unfold note_build_plan. rewrite Hh, Hp, decide_True, Hd by done. unfold plan_build.
    destruct (builds m1 !! drv) eqn:Hb; [by eexists|]. rewrite emit_build_builds. simpl. rewrite lookup_insert_eq. by eexists. }
  unfold mark_failure. destruct (parse_builder_failure _) as [failure|]; [|done].
  unfold mark_failed_build. rewrite emit_build_builds. simpl. by apply lookup_insert_is_Some'; right.
Qed.

(** C34. The row of a build under every operation of the monitor.  No operation
    removes a row, renames it, forgets that it is content-addressed or lowers its
    count of log lines.  Its status changes in these ways only, and in each of
    them it does: it is running after Nix starts a build activity of this derivation
    (or of the one that it was resolved to), whatever it was; it is stopped, if it
    was running, after Nix stops an activity that builds it; it has succeeded,
    if it was stopped or only planned, after the run ends with status 0 or the
    build phase of a switch has succeeded; it has failed after a message says so of
    it, or of the derivation it was resolved to.  A new row begins with one
    of these events, or is planned, when Nix announces it in a build plan; and an
    announced derivation has a row. *)
Theorem row_lifecycle op m drv :
  match builds m !! drv, builds (run op m) !! drv with
  | Some b, Some b' => keeps b b' ∧ (b_status b' = b_status b ∨ becomes op m drv (b_status b'))
  | None, Some b' => b_status b' = Planned ∧ announces op m drv ∨ becomes op m drv (b_status b')
  | Some _, None => False
  | None, None => True
  end ∧
  (∀ s, becomes op m drv s → b_status <$> builds (run op m) !! drv = Some s) ∧
  (announces op m drv → is_Some (builds (run op m) !! drv)).
Proof.
  split; [exact (evolves_run op m drv)|]. split; [intros s; apply becomes_run|apply announced_run].
Qed.
End life.

(** * The log *)

(** Entries are numbered without gaps up to the counter, and both lists are
    bounded. *)
Record log_ok (m : MonitorState) : Prop := {
  lo_logs : length (logs m) ≤ STATE_LOG_RETAIN;
  lo_errors : length (errors m) ≤ STATE_ERROR_RETAIN;
  lo_index : (log_counter m < u64_max)%Z → ∀ i e, logs m !! i = Some e →
    l_index e = (log_counter m - Z.of_nat (length (logs m)) + Z.of_nat i)%Z }.

Definition same_log (m m' : MonitorState) : Prop :=
  logs m' = logs m ∧ log_counter m' = log_counter m ∧ errors m' = errors m.

Lemma same_log_ok m m' : same_log m m' → log_ok m → log_ok m'.
Proof. intros (H1 & H2 & H3) []. by split; rewrite ?H1, ?H2, ?H3. Qed.

Lemma same_log_trans m1 m2 m3 : same_log m1 m2 → same_log m2 m3 → same_log m1 m3.
Proof. intros (? & ? & ?) (? & ? & ?). by split_and!; etrans. Qed.

Lemma same_log_emit_build drv m : same_log m (emit_build drv m).
Proof. unfold emit_build. by destruct (builds m !! drv). Qed.
Lemma same_log_emit_activity id m : same_log m (emit_activity id m).
Proof. unfold emit_activity. by destruct (activities m !! id). Qed.

Lemma same_log_start now_ms action m : same_log m (start_activity now_ms action m).
Proof.
  unfold start_activity. eapply same_log_trans; [|apply same_log_emit_activity].
  set (m1 := with_activities _ m). assert (same_log m (note_resolved_derivation action m1)) as Hnote.
  { unfold note_resolved_derivation. repeat case_match; try done.
    eapply same_log_trans; [|apply same_log_emit_build]. done. }
  case_match; [|done]. eapply same_log_trans; [|apply same_log_emit_build]. exact Hnote.
Qed.

Lemma same_log_stop now_ms id m : same_log m (stop_activity now_ms id m).
Proof.
  unfold stop_activity. destruct (activities m !! id); [|done]. simpl.
  repeat (case_match || case_decide); unfold emit_build, emit_activity; by repeat case_match.
Qed.

Lemma same_log_set_phase id phase m : same_log m (set_phase id phase m).
Proof.
  unfold set_phase. destruct (activities m !! id); [|done]. simpl.
  repeat (case_match || case_decide); unfold emit_build, emit_activity; by repeat case_match.
Qed.

Lemma same_log_set_progress id p m : same_log m (set_progress id p m).
Proof. unfold set_progress, emit_activity. by repeat (case_match || case_decide). Qed.

Lemma same_log_plan now_ms t m : same_log m (note_build_plan now_ms t m).
Proof. unfold note_build_plan, plan_build, emit_build. by repeat (case_match || case_decide). Qed.

Lemma same_log_mark_failed now_ms failure m : same_log m (mark_failed_build now_ms failure m).
Proof. unfold mark_failed_build. eapply same_log_trans; [|apply same_log_emit_build]. done. Qed.

Lemma same_log_promote m : same_log m (promote_unfinished_builds m).
Proof.
  unfold promote_unfinished_builds. generalize ((filter (λ entry, unfinished entry.2 = true) (by_key (builds m))).*1).
  intros drvs. apply (same_log_trans _ (with_builds ((λ b, if unfinished b then with_status Succeeded b else b) <$> builds m) m));
    [done|]. generalize (with_builds ((λ b, if unfinished b then with_status Succeeded b else b) <$> builds m) m).
  induction drvs as [|drv drvs IH]; intros m1; simpl; [done|].
  eapply same_log_trans; [apply same_log_emit_build|apply IH].
Qed.

Lemma log_ok_push_log a l t m : log_ok m → log_ok (push_log a l t m).
Proof.
  intros [Hl He Hi]. unfold push_log.
  destruct (count_log_bump a 0 None [] (with_log_counter (Z.min (log_counter m + 1) u64_max) m)) as [_ ->].
  split; simpl; [apply length_truncate|done|]. intros Hc i e.
  assert (log_counter m < u64_max)%Z as Hlt by lia. specialize (Hi Hlt).
  rewrite (Z.min_l (log_counter m + 1) u64_max) by lia. unfold truncate_head. rewrite length_app. simpl. intros He'.
  assert (∀ n, (logs m ++ [mkLog (log_counter m) a l t]) !! n = Some e →
    l_index e = (log_counter m + 1 - Z.of_nat (length (logs m) + 1) + Z.of_nat n)%Z) as Hall.
  { intros n [Hn|[Hn Hs]]%lookup_app_Some; [rewrite (Hi _ _ Hn); lia|].
    destruct (n - length (logs m)) as [|k] eqn:Hk; [|done]. injection Hs as <-. simpl. lia. }
  case_decide as Hd.
  - rewrite lookup_drop in He'. rewrite (Hall _ He'), length_drop, length_app. simpl. lia.
  - rewrite (Hall _ He'), length_app. done.
Qed.

Lemma log_ok_push_error t m : log_ok m → log_ok (push_error t m).
Proof. intros [Hl He Hi]. split; simpl; [done|apply length_truncate|done]. Qed.

Section log.
Context `{!NixJson, !AnsiStrip}.

Lemma log_ok_line t1 t2 line m : log_ok m → log_ok (apply_line t1 t2 line m).
Proof.
  intros Hok. unfold apply_line, mark_failure.
  destruct (parse_line line) as [[action|id|id result|action|raw]|t|t error]; simpl.
  - by eapply same_log_ok, Hok; apply same_log_start.
  - by eapply same_log_ok, Hok; apply same_log_stop.
  - destruct result; simpl; try done; try by apply log_ok_push_log.
    + by destruct Hok.
    + by eapply same_log_ok, Hok; apply same_log_set_phase.
    + by eapply same_log_ok, Hok; apply same_log_set_progress.
    + by destruct Hok.
  - unfold apply_message, mark_failure.
    assert (log_ok (note_build_plan t1 (cleaned_message action) (push_log None (ma_level action) (cleaned_message action)
      (if decide (ma_level action = Some NIX_LEVEL_ERROR) then push_error (cleaned_message action) m else m)))) as Hok'.
    { eapply same_log_ok; [apply same_log_plan|]. apply log_ok_push_log. case_decide; [by apply log_ok_push_error|done]. }
    destruct (parse_builder_failure _); [|done]. by eapply same_log_ok, Hok'; apply same_log_mark_failed.
  - done.
  - apply log_ok_push_log. unfold mark_failure. destruct (parse_builder_failure _); [|done].
    by eapply same_log_ok, Hok; apply same_log_mark_failed.
  - by apply log_ok_push_log, log_ok_push_error.
Qed.

(** Whatever was done, the log holds at most 5000 entries, numbered without a
    gap by the order in which they came, and at most 2000 errors are kept. *)
Lemma run_log_ok op m : log_ok m → log_ok (run op m).
Proof.
  intros Hok. destruct op; simpl; try (by destruct Hok).
  - by apply log_ok_line.
  - eapply same_log_ok, Hok. rewrite record_closure_eq. unfold emit_root_causes, emit_dependencies. by repeat case_decide.
  - eapply same_log_ok, Hok. unfold set_rebuild_reason. by case_decide.
  - eapply same_log_ok, Hok. unfold set_activity_size, emit_activity. by repeat case_match.
  - eapply same_log_ok, Hok. unfold set_global. by case_decide.
  - eapply same_log_ok, Hok. apply same_log_promote.
  - unfold finish. case_decide; [|by destruct Hok]. eapply same_log_ok, Hok.
    apply (same_log_trans m (settle code m)); [done|]. eapply same_log_trans; [apply same_log_promote|]. done.
Qed.
End log.

Lemma new_log_ok label : log_ok (MonitorState_new label).
Proof. split; simpl; unfold STATE_LOG_RETAIN, STATE_ERROR_RETAIN; [lia..|]. intros _ i e Hi. by rewrite lookup_nil in Hi. Qed.

(** * The compact view *)

Definition with_status_count (s : BuildStatus) (nodes : list BuildNode) : nat :=
  length (filter (λ b, b_status b = s) nodes).

Lemma count_statuses nodes c :
  let c' := foldl (λ c b, count_status c (b_status b)) c nodes in
  c_planned c' = c_planned c + with_status_count Planned nodes ∧
  c_running c' = c_running c + with_status_count Running nodes ∧
  c_stopped c' = c_stopped c + with_status_count Stopped nodes ∧
  c_succeeded c' = c_succeeded c + with_status_count Succeeded nodes ∧
  c_failed c' = c_failed c + with_status_count Failed nodes.
Proof.
  revert c. induction nodes as [|b nodes IH]; intros c; [simpl; by rewrite !Nat.add_0_r|].
  cbn [foldl]. specialize (IH (count_status c (b_status b))). unfold with_status_count in *. simpl in IH |- *.
  destruct IH as (-> & -> & -> & -> & ->), c.
  destruct (b_status b) eqn:Hb; cbn [filter list_filter]; rewrite ?filter_cons, Hb; simpl; repeat case_decide; simpl; try done; lia.
Qed.

(** The view is bounded and its counts are those of its rows. *)
Lemma view_correct m :
  let v := build_view m in
  length (v_activities v) ≤ ACTIVITY_LIMIT ∧ length (v_errors v) ≤ ERROR_LIMIT ∧
  v_errors v `suffix_of` errors m ∧
  r_derivation <$> v_builds v = derivation <$> (by_key (builds m)).*2 ∧
  c_running (v_counts v) = length (filter (λ r, r_status r = Running) (v_builds v)) ∧
  c_failed (v_counts v) = length (filter (λ r, r_status r = Failed) (v_builds v)) ∧
  c_planned (v_counts v) + c_running (v_counts v) + c_stopped (v_counts v) + c_succeeded (v_counts v) + c_failed (v_counts v)
    = size (builds m).
Proof.
  unfold build_view. simpl. set (nodes := (by_key (builds m)).*2).
  assert (∀ s, length (filter (λ r, r_status r = s) (build_row <$> nodes)) = with_status_count s nodes) as Hrows.
  { intros s. unfold with_status_count. induction nodes as [|b l IH]; csimpl; [done|].
    rewrite !filter_cons. simpl. case_decide; simpl; by rewrite IH. }
  destruct (count_statuses nodes (mkCounts 0 0 0 0 0)) as (Hp & Hr & Hs & Hu & Hf). simpl in *.
  rewrite Hp, Hr, Hs, Hu, Hf, !Hrows.
  assert (length nodes = size (builds m)) as Hlen by (unfold nodes; rewrite length_fmap, by_key_perm; apply length_map_to_list).
  split_and!; try done.
  - rewrite length_take. lia.
  - rewrite length_reverse, length_take. lia.
  - exists (reverse (drop ERROR_LIMIT (reverse (errors m)))). by rewrite <- reverse_app, take_drop, reverse_involutive.
  - rewrite <- list_fmap_compose. by apply list_fmap_ext.
  - rewrite <- Hlen. clear. unfold with_status_count. induction nodes as [|b l IH]; [done|].
    rewrite !filter_cons. destruct (b_status b); repeat case_decide; simpl; try done; lia.
Qed.

(** * The graph on the pages *)

(** C33. When nix-store answers the closures of an acyclic graph and those of all rows
    are known, every page that has read everything, whenever it connected, has
    the edges and root causes of the snapshot; a path of its edges leads from
    one row to another exactly when the closure of the first has the second. *)
Theorem pages_show_graph `{!NixJson, !AnsiStrip} Cl label s i c :
  store_closures Cl → rtc (fed Cl) (start label) s → clients s !! i = Some c → caught_up s c →
  observed (monitor s) ⊆ dom (closure_deps (monitor s)) →
  w_dependencies (working c) = sn_dependencies (snapshot (monitor s)) ∧
  w_root_causes (working c) = sn_root_causes (snapshot (monitor s)) ∧
  ∀ a b, tc (λ x y, mkEdge x y ∈ w_dependencies (working c)) a b ↔
    a ∈ observed (monitor s) ∧ b ∈ observed (monitor s) ∧ b ∈ Cl a.
Proof.
  intros HCl Hs Hc Hup Hall. destruct (pages_graph Cl HCl label s i c Hs Hc Hup Hall) as [He Hr].
  destruct (fed_graph_ok Cl (edges_derived Cl HCl) _ _ Hs) as [_ [[Ha _] _ _ _]].
  split_and!; [done..|]. intros a b. rewrite He. unfold sn_dependencies.
  change (tc (edge (closure_deps (monitor s)) (observed (monitor s))) a b ↔
    a ∈ observed (monitor s) ∧ b ∈ observed (monitor s) ∧ b ∈ Cl a).
  rewrite <- depends_tc by by eapply answered_dag. split.
  - intros (? & ? & _ & C & HC & ?). by rewrite <- (Ha _ _ HC).
  - intros (Hra & ? & Hab). destruct (HCl a) as [Hirr _]. split_and!; [done..|set_solver|].
    apply Hall, elem_of_dom in Hra as [C HC]. exists C. split; [done|]. by rewrite (Ha _ _ HC).
Qed.

(** Executions in which the closures recorded are sound. *)
Section sound.
Context `{!NixJson, !AnsiStrip} (Cl : text → gset text).

Fixpoint sound_acts (acts : list Act) (s : System) : Prop :=
  match acts with
  | [] => True
  | a :: acts =>
      match a with AMutate op => sound_op Cl op (monitor s) | _ => True end ∧
      match act a s with Some s => sound_acts acts s | None => True end
  end.

Lemma exec_fed acts s s' : exec acts s = Some s' → sound_acts acts s → rtc (fed Cl) s s'.
Proof.
  revert s. induction acts as [|a acts IH]; intros s; simpl; [by intros [= ->]|].
  destruct (act a s) as [s1|] eqn:Ha; [|done]. intros Hs [Hop Hrest]. eapply rtc_l; [|by apply IH].
  apply act_serve in Ha. destruct a; [|by apply fed_serve..]. subst. destruct s. by apply fed_mutate.
Qed.
End sound.

(** An application on a library: both fail to build, and a page that connected
    first gets their closures. *)
Definition app : text := chars_of "/nix/store/app.drv".
Definition lib : text := chars_of "/nix/store/lib.drv".
Definition store (drv : text) : gset text := if decide (drv = app) then {[ lib ]} else ∅.

Lemma store_dag : store_closures store.
Proof.
  intros x. unfold store. destruct (decide (x = app)) as [->|]; [|set_solver]. split.
  - rewrite elem_of_singleton. by vm_compute.
  - intros y ->%elem_of_singleton. rewrite decide_False; [set_solver|]. by vm_compute.
Qed.

Definition fails (drv : text) : Op :=
  OpLine 7 8 (chars_of "error: builder for '" ++ drv ++ chars_of "' failed with exit code 1").

(** Nix starts to build the application, which had failed. *)
Definition start_json : NixJson := λ raw,
  inr (Obj [(chars_of "action", Str (chars_of "start")); (chars_of "type", Num (PosInt 105));
    (chars_of "id", Num (PosInt 1)); (chars_of "fields", Arr [Str raw])]).
Definition app_failed : MonitorState := @run start_json plain_ansi (fails app) (monitor (start (chars_of "nix build"))).
Definition app_starts : Op := OpLine 9 10 (chars_of "@nix " ++ app).

Lemma row_lifecycle_witness :
  b_status <$> builds app_failed !! app = Some Failed ∧
  b_status <$> builds (@run start_json plain_ansi app_starts app_failed) !! app = Some Running ∧
  builds (@run start_json plain_ansi app_starts app_failed) !! lib = None.
Proof.
  split; [by vm_compute|]. split.
  - apply (@row_lifecycle start_json plain_ansi app_starts app_failed app).
    by eapply (becomes_running _ _ _ 9 10 (chars_of "@nix " ++ app) _ app); vm_compute.
  - by vm_compute.
Defined.

Definition linked : list Act :=
  [AConnect 0; AMutate (fails app); AMutate (fails lib); AMutate (OpClosure app (store app));
   AMutate (OpClosure lib (store lib)); ABroadcast] ++ replicate 7 (AForward 0) ++ replicate 8 (ARead 0).

Lemma pages_show_graph_witness :
  ∃ c, clients (outcome_of linked) !! 0 = Some c ∧
    w_dependencies (working c) = [mkEdge app lib] ∧ w_root_causes (working c) = [lib] ∧
    w_dependencies (working c) = sn_dependencies (snapshot (monitor (outcome_of linked))).
Proof.
  destruct (clients (outcome_of linked) !! 0) as [c|] eqn:Hc; [|by vm_compute in Hc]. exists c.
  assert (caught_up (outcome_of linked) c ∧ w_dependencies (working c) = [mkEdge app lib] ∧
    w_root_causes (working c) = [lib]) as (Hup & He & Hr) by (revert Hc; vm_compute; by intros [= <-]).
  destruct (@pages_show_graph plain_json plain_ansi store (chars_of "nix build") (outcome_of linked) 0 c) as (Hd & _);
    [apply store_dag| |done|done| |by split_and!].
  - apply (exec_fed store linked); [by vm_compute|]. vm_compute. tauto.
  - intros x Hx. apply (bool_decide_unpack (set_Forall (λ x, x ∈ dom (closure_deps (monitor (outcome_of linked))))
      (observed (monitor (outcome_of linked))))); [by vm_compute|done].
Defined.

(** When the closure of a row is never learnt, because its query failed, what
    pages were told of the others is not corrected: the application stays a root
    cause on the page although the library it needs is being built. *)
Definition unanswered : list Act :=
  [AConnect 0; AMutate (fails app); AMutate (OpClosure app (store app)); AMutate (fails lib); ABroadcast]
  ++ replicate 6 (AForward 0) ++ replicate 7 (ARead 0).

Example stale_root_cause :
  ∃ c, clients (outcome_of unanswered) !! 0 = Some c ∧ caught_up (outcome_of unanswered) c ∧
    w_root_causes (working c) = [app] ∧ w_dependencies (working c) = [] ∧
    sn_root_causes (snapshot (monitor (outcome_of unanswered))) = [] ∧
    sn_dependencies (snapshot (monitor (outcome_of unanswered))) = [mkEdge app lib].
Proof.
  destruct (clients (outcome_of unanswered) !! 0) as [c|] eqn:Hc; [|by vm_compute in Hc].
  exists c. split; [done|]. revert Hc. vm_compute. by intros [= <-].
Qed.
