(* ===== verification/PlumbParse.v ===== *)
(** The syntax of plumb, a shell: the syntax tree
    ([packages/plumb/syntax/src/ast.rs]) and the parser ([parse.rs]).

    The parser's position is the text left and the offset of its first char in
    bytes, so that [pos = start_pos] is keeping the old position.  The methods
    from [dollar] to [program] call each other; [dollar] gets the parser of the
    program in a command substitution as an argument, and [program_at] ties the
    knot, its fuel the depth of substitutions. *)

From stdpp Require Import base gmap sets list strings.
From Stdlib Require Import Ascii.
From S2P Require Import Prelude Chars.

(** * Syntax *)

Record Span := mkSpan { sp_start : nat; sp_end : nat }.

(** [Span::text]; [str::get] is [None] off char boundaries, beyond the end and
    when the end is before the start. *)
Definition span_text (sp : Span) (src : text) : text :=
  match split_at (sp_start sp) src with
  | Some (_, t) =>
      if decide (sp_start sp ≤ sp_end sp) then
        match split_at (sp_end sp - sp_start sp) t with Some (t, _) => t | None => [] end
      else []
  | None => []
  end.

Inductive PathSeg := Index (i : Z) | Field (name : text).

Inductive RedirOp :=
| OutTrunc | OutAppend | ErrTrunc | ErrAppend | BothTrunc | BothAppend | In | ErrToOut | OutToErr.
#[export] Instance RedirOp_eq_dec : EqDecision RedirOp.
Proof. solve_decision. Defined.

Inductive Connector := And | Or.

Section syntax.
Context {P : Type}.

Inductive Part :=
| Text (t : text) (quoted : bool)
| Var (name : text) (path : list PathSeg) (span : Span)
| CommandSub (program : P) (span : Span).

Record Word := mkWord { parts : list Part; w_span : Span }.
Record Assign := mkAssign { a_name : text; a_value : Word; a_span : Span }.
Record Redirect := mkRedirect { r_op : RedirOp; r_target : option Word; r_span : Span }.
Record Command := mkCommand {
  assigns : list Assign; words : list Word; redirects : list Redirect; c_span : Span }.
Record Pipeline := mkPipeline { commands : list Command; p_span : Span }.
Record AndOrTail := mkTail { connector : Connector; t_pipeline : Pipeline }.
Record AndOr := mkAndOr { first : Pipeline; ao_rest : list AndOrTail; ao_span : Span }.
Record Item := mkItem { and_or_of : AndOr; background : bool }.
End syntax.
Arguments Part : clear implicits.
Arguments Word : clear implicits.
Arguments Assign : clear implicits.
Arguments Redirect : clear implicits.
Arguments Command : clear implicits.
Arguments Pipeline : clear implicits.
Arguments AndOrTail : clear implicits.
Arguments AndOr : clear implicits.
Arguments Item : clear implicits.

(** A program's command substitutions hold programs. *)
Inductive Program := mkProgram (items_of : list (Item Program)).
Definition items (p : Program) : list (Item Program) := let 'mkProgram l := p in l.

(** * The parser's state *)

Record ParseError := mkParseError { message : text; span : Span }.

Record Parser := mkParser { p_rest : text; p_byte : nat }.

Definition parser (A : Type) : Type := Parser → outcome ParseError (A * Parser).
#[export] Instance parser_ret : MRet parser := λ A a ps, Ok (a, ps).
#[export] Instance parser_bind : MBind parser := λ A B k m ps,
  match m ps with
  | Ok (a, ps') => k a ps'
  | Err e => Err e
  | Panic => Panic
  end.

Definition peek : parser (option char) := λ ps, Ok (head (p_rest ps), ps).
Definition peek_at (ahead : nat) : parser (option char) := λ ps, Ok (p_rest ps !! ahead, ps).
(** [self.pos += n], where [n] chars are left. *)
Definition advance (n : nat) : parser () := λ ps,
  Ok ((), mkParser (drop n (p_rest ps)) (p_byte ps + blen (take n (p_rest ps)))).
Definition bump : parser (option char) :=
  c ← peek;
  match c with Some _ => _ ← advance 1; mret c | None => mret None end.
Definition byte_pos : parser nat := λ ps, Ok (p_byte ps, ps).
Definition span_from (start : nat) : parser Span := end_ ← byte_pos; mret (mkSpan start end_).
Definition fail_with {A} (start : nat) (message : text) : parser A := λ ps,
  Err (mkParseError message (mkSpan start (p_byte ps `max` (start + 1)))).
Definition fail_at {A} (start : nat) (message : string) : parser A := fail_with start (chars_of message).
(** The number of chars left: fuel for loops that consume one per round. *)
Definition chars_left : parser nat := λ ps, Ok (length (p_rest ps), ps).

(** [matches!(self.peek(), None | Some(..))]. *)
Definition none_or_in (set : string) (c : option char) : bool :=
  match c with None => true | Some c => bool_decide (c ∈ chars_of set) end.

Definition NL : string := String "010" EmptyString.
Definition TAB : string := String "009" EmptyString.

(** * Blanks *)

(** [skip_blank]; [comment] in the [while] over a comment. *)
Fixpoint skip_blank_from (comment : bool) (t : text) (byte : nat) : Parser :=
  match t with
  | [] => mkParser [] byte
  | c :: t1 =>
      if comment then
        if decide (c = newline) then mkParser t byte else skip_blank_from true t1 (byte + len_utf8 c)
      else if decide (c = ch " " ∨ c = ch "009") then skip_blank_from false t1 (byte + 1)
      else if decide (c = ch "\") then
        match t1 with
        | d :: t2 => if decide (d = newline) then skip_blank_from false t2 (byte + 2) else mkParser t byte
        | [] => mkParser t byte
        end
      else if decide (c = ch "#") then skip_blank_from true t1 (byte + len_utf8 c)
      else mkParser t byte
  end.
Definition skip_blank : parser () := λ ps, Ok ((), skip_blank_from false (p_rest ps) (p_byte ps)).

(** [skip_blank_and_newlines]. *)
Fixpoint blank_lines_loop (fuel : nat) : parser () :=
  match fuel with
  | O => λ _, Panic
  | S fuel =>
      _ ← skip_blank;
      c ← peek;
      if decide (c = Some newline) then _ ← advance 1; blank_lines_loop fuel else mret ()
  end.
Definition skip_blank_and_newlines : parser () := n ← chars_left; blank_lines_loop (S n).

(** * Words *)

Record WordAcc := mkAcc {
  acc_parts : list (Part Program); pending : text; pending_quoted : bool; saw_quotes : bool }.
Definition WordAcc_default : WordAcc := mkAcc [] [] false false.

Definition flush (acc : WordAcc) : WordAcc :=
  match pending acc with
  | [] => acc
  | p => mkAcc (acc_parts acc ++ [Text p (pending_quoted acc)]) [] (pending_quoted acc) (saw_quotes acc)
  end.
Definition push (c : char) (quoted : bool) (acc : WordAcc) : WordAcc :=
  let acc := if negb (Bool.eqb (pending_quoted acc) quoted) && negb (bool_decide (pending acc = [])) then flush acc else acc in
  mkAcc (acc_parts acc) (pending acc ++ [c]) quoted (saw_quotes acc).
Definition push_part (part : Part Program) (acc : WordAcc) : WordAcc :=
  let acc := flush acc in
  mkAcc (acc_parts acc ++ [part]) (pending acc) (pending_quoted acc) (saw_quotes acc).
Definition acc_is_empty (acc : WordAcc) : bool := bool_decide (acc_parts acc = [] ∧ pending acc = []).
Definition set_saw_quotes (acc : WordAcc) : WordAcc :=
  mkAcc (acc_parts acc) (pending acc) (pending_quoted acc) true.
Definition acc_finish (acc : WordAcc) : list (Part Program) :=
  let acc := flush acc in
  if bool_decide (acc_parts acc = []) && saw_quotes acc then [Text [] true] else acc_parts acc.

(** The longest prefix of chars of a class. *)
Fixpoint prefix_while (p : char → bool) (t : text) : text :=
  match t with
  | c :: t => if p c then c :: prefix_while p t else []
  | [] => []
  end.
Definition take_while (p : char → bool) : parser text := λ ps,
  let name := prefix_while p (p_rest ps) in
  Ok (name, mkParser (drop (length name) (p_rest ps)) (p_byte ps + blen name)).

Definition is_ident_start (c : char) : bool := bool_decide (c = ch "_") || is_ascii_alphabetic c.
Definition is_ident_char (c : char) : bool :=
  bool_decide (c = ch "_") || is_ascii_alphabetic c || is_ascii_digit c.
Definition ident_run : parser text := take_while is_ident_char.

(** [digits.parse::<i64>()] of ASCII digits. *)
Definition parse_i64 (digits : text) : option Z :=
  if decide (digits = []) then None
  else if decide (digits_value digits < 2 ^ 63)%Z then Some (digits_value digits) else None.

Definition only_plain_name : string :=
  "unsupported parameter expansion: only a plain variable name in braces".

(** The [loop] over the path in [braced]. *)
Fixpoint braced_path (fuel : nat) (start : nat) (path : list PathSeg) : parser (list PathSeg) :=
  match fuel with
  | O => λ _, Panic
  | S fuel =>
      c ← peek;
      if decide (c = Some (ch "[")) then
        _ ← advance 1;
        sign ← peek;
        let negative := bool_decide (sign = Some (ch "-")) in
        _ ← (if negative then advance 1 else mret ());
        digits ← take_while is_ascii_digit;
        close ← peek;
        match parse_i64 digits, bool_decide (close = Some (ch "]")) with
        | Some magnitude, true =>
            _ ← advance 1;
            braced_path fuel start (path ++ [Index (if negative then - magnitude else magnitude)%Z])
        | _, _ => fail_at start "run reference indexes are integers: ${o[7]} or ${o[-1]}"
        end
      else if decide (c = Some (ch ".")) then
        _ ← advance 1;
        field ← ident_run;
        if decide (field = []) then fail_at start "expected a field name after `.` in a run reference"
        else braced_path fuel start (path ++ [Field field])
      else mret path
  end.

(** [braced]. *)
Definition braced (acc : WordAcc) (start : nat) : parser (WordAcc * bool) :=
  name ← ident_run;
  if bool_decide (name = []) || existsb is_ascii_digit (take 1 name) then fail_at start only_plain_name
  else
    n ← chars_left;
    path ← braced_path (S n) start [];
    close ← peek;
    if decide (close = Some (ch "}")) then
      _ ← advance 1;
      sp ← span_from start;
      mret (push_part (Var name path sp) acc, true)
    else fail_at start only_plain_name.

(** The [loop] of [single_quoted]. *)
Fixpoint single_quoted_loop (fuel quote_start : nat) (acc : WordAcc) : parser WordAcc :=
  match fuel with
  | O => λ _, Panic
  | S fuel =>
      c ← bump;
      match c with
      | None => fail_at quote_start "unterminated single quote"
      | Some inner =>
          if decide (inner = ch "'") then mret acc
          else single_quoted_loop fuel quote_start (push inner true acc)
      end
  end.
Definition single_quoted (acc : WordAcc) : parser WordAcc :=
  quote_start ← byte_pos;
  _ ← advance 1;
  n ← chars_left;
  single_quoted_loop (S n) quote_start (set_saw_quotes acc).

Definition quote : char := 34%N.
Definition backtick_message : string :=
  "unsupported: backtick command substitution; use $(...)".

(** The keywords the subset refuses at command position. *)
Definition KEYWORDS : list text := chars_of <$>
  ["if"; "then"; "else"; "elif"; "fi"; "for"; "while"; "until"; "do"; "done"; "case"; "esac";
   "function"; "select"; "coproc"; "time"; "in"; "!"; "[["; "]]"]%string.

(** [unquoted_literal]. *)
Definition unquoted_literal (w : Word Program) : option text :=
  match parts w with [Text t false] => Some t | _ => None end.

Definition is_char (c : option char) (a : ascii) : bool := bool_decide (c = Some (ch a)).
Arguments is_char _ _%_char_scope.

(** The operator at the position, with its length, as [try_redirect] matches it. *)
Definition redirect_op (start : nat) : parser (option (RedirOp * nat)) :=
  c0 ← peek; c1 ← peek_at 1; c2 ← peek_at 2; c3 ← peek_at 3;
  if is_char c0 "2" && is_char c1 ">" && is_char c2 "&" && is_char c3 "1" then mret (Some (ErrToOut, 4))
  else if is_char c0 "1" && is_char c1 ">" && is_char c2 "&" && is_char c3 "2" then mret (Some (OutToErr, 4))
  else if is_char c0 ">" && is_char c1 "&" && is_char c2 "2" then mret (Some (OutToErr, 3))
  else if is_char c0 ">" && is_char c1 "&" then
    fail_with start (chars_of "unsupported redirection `>&" ++ option_list c2 ++ chars_of "`")
  else if is_char c0 "2" && is_char c1 ">" && is_char c2 ">" then mret (Some (ErrAppend, 3))
  else if is_char c0 "2" && is_char c1 ">" then mret (Some (ErrTrunc, 2))
  else if is_char c0 "1" && is_char c1 ">" && is_char c2 ">" then mret (Some (OutAppend, 3))
  else if is_char c0 "1" && is_char c1 ">" then mret (Some (OutTrunc, 2))
  else if is_char c0 "&" && is_char c1 ">" && is_char c2 ">" then mret (Some (BothAppend, 3))
  else if is_char c0 "&" && is_char c1 ">" then mret (Some (BothTrunc, 2))
  else if is_char c0 ">" && is_char c1 ">" then mret (Some (OutAppend, 2))
  else if is_char c0 ">" then mret (Some (OutTrunc, 1))
  else if is_char c0 "<" && is_char c1 "<" then fail_at start "unsupported: here-doc / here-string"
  else if is_char c0 "<" && is_char c1 "(" then fail_at start "unsupported: process substitution"
  else if is_char c0 "<" then mret (Some (In, 1))
  else mret None.

(** The name before [=] in [try_assign]; [first_char] is [name.is_empty()]. *)
Fixpoint assign_name (first_char : bool) (t : text) : text :=
  match t with
  | c :: t =>
      if is_ident_start c || (negb first_char && is_ascii_digit c) then c :: assign_name false t else []
  | [] => []
  end.

Section recursive.
(** [self.program(Some(')'))]. *)
Context (sub : parser Program).

Definition dollar (acc : WordAcc) : parser (WordAcc * bool) :=
  start ← byte_pos;
  c1 ← peek_at 1;
  c2 ← peek_at 2;
  if decide (c1 = Some (ch "(")) then
    if decide (c2 = Some (ch "(")) then fail_at start "unsupported: arithmetic expansion $((...))"
    else
      _ ← advance 2;
      program ← sub;
      close ← bump;
      if decide (close = Some (ch ")")) then
        sp ← span_from start;
        mret (push_part (CommandSub program sp) acc, true)
      else fail_at start "unterminated $( command substitution"
  else if decide (c1 = Some (ch "{")) then _ ← advance 2; braced acc start
  else if decide (c1 = Some (ch "?")) then
    _ ← advance 2;
    sp ← span_from start;
    mret (push_part (Var (chars_of "?") [] sp) acc, true)
  else if existsb is_ident_start (option_list c1) then
    _ ← advance 1;
    name ← ident_run;
    sp ← span_from start;
    mret (push_part (Var name [] sp) acc, true)
  else match c1 with
  | Some c =>
      if is_ascii_digit c || bool_decide (c ∈ chars_of "@*#!-$") then
        fail_with start (chars_of "unsupported: special parameter `$" ++ [c] ++ chars_of "`")
      else _ ← advance 1; mret (acc, false)
  | None => _ ← advance 1; mret (acc, false)
  end.

(** The [loop] of [double_quoted]. *)
Fixpoint double_quoted_loop (fuel quote_start : nat) (acc : WordAcc) : parser WordAcc :=
  match fuel with
  | O => λ _, Panic
  | S fuel =>
      c ← peek;
      match c with
      | None => fail_at quote_start "unterminated double quote"
      | Some c =>
          if decide (c = quote) then _ ← advance 1; mret acc
          else if decide (c = ch "\") then
            _ ← advance 1;
            escaped ← bump;
            match escaped with
            | None => fail_at quote_start "unterminated double quote"
            | Some e =>
                double_quoted_loop fuel quote_start
                  (if decide (e ∈ [ch "$"; quote; ch "\"; ch "`"]) then push e true acc
                   else if decide (e = newline) then acc
                   else push e true (push (ch "\") true acc))
            end
          else if decide (c = ch "`") then at_ ← byte_pos; fail_at at_ backtick_message
          else if decide (c = ch "$") then
            '(acc, emitted) ← dollar acc;
            double_quoted_loop fuel quote_start (if (emitted : bool) then acc else push (ch "$") true acc)
          else _ ← advance 1; double_quoted_loop fuel quote_start (push c true acc)
      end
  end.
Definition double_quoted (acc : WordAcc) : parser WordAcc :=
  quote_start ← byte_pos;
  _ ← advance 1;
  n ← chars_left;
  double_quoted_loop (S n) quote_start (set_saw_quotes acc).

(** The [while] of [word]. *)
Fixpoint word_loop (fuel start : nat) (acc : WordAcc) : parser WordAcc :=
  match fuel with
  | O => λ _, Panic
  | S fuel =>
      c ← peek;
      at_ ← byte_pos;
      match c with
      | None => mret acc
      | Some c =>
          if decide (c ∈ chars_of (" ;|&<>)" +:+ NL +:+ TAB)) then mret acc
          else if decide (c = ch "(") then fail_at at_ "unsupported: `(` in a word"
          else if decide (c = ch "`") then fail_at at_ backtick_message
          else if decide (c = ch "{" ∨ c = ch "}") then
            fail_with at_ (chars_of "unsupported: brace expansion; quote the `" ++ [c] ++ chars_of "`")
          else if decide (c = ch "\") then
            _ ← advance 1;
            escaped ← bump;
            match escaped with
            | None => end_ ← byte_pos; fail_at end_ "trailing backslash"
            | Some e => word_loop fuel start (if decide (e = newline) then acc else push e true acc)
            end
          else if decide (c = ch "'") then acc ← single_quoted acc; word_loop fuel start acc
          else if decide (c = quote) then acc ← double_quoted acc; word_loop fuel start acc
          else if decide (c = ch "$") then
            '(acc, emitted) ← dollar acc;
            word_loop fuel start (if (emitted : bool) then acc else push (ch "$") false acc)
          else if bool_decide (c = ch "~") && acc_is_empty acc then
            _ ← advance 1;
            next ← peek;
            if none_or_in (" ;|&<>/" +:+ NL +:+ TAB) next then
              sp ← span_from start;
              word_loop fuel start (push_part (Var (chars_of "HOME") [] sp) acc)
            else fail_at start "unsupported: `~user` expansion"
          else _ ← advance 1; word_loop fuel start (push c false acc)
      end
  end.
Definition word : parser (Word Program) :=
  start ← byte_pos;
  n ← chars_left;
  acc ← word_loop (S n) start WordAcc_default;
  match acc_finish acc with
  | [] => fail_at start "expected a word"
  | parts => sp ← span_from start; mret (mkWord parts sp)
  end.

(** * Commands *)

Definition try_redirect : parser (option (Redirect Program)) :=
  start ← byte_pos;
  op ← redirect_op start;
  match op with
  | None => mret None
  | Some (op, len) =>
      _ ← advance len;
      target ← (if decide (op = ErrToOut ∨ op = OutToErr) then mret None
                else
                  _ ← skip_blank;
                  c ← peek;
                  if none_or_in (";|&<>" +:+ NL) c then fail_at start "redirection is missing its file target"
                  else w ← word; mret (Some w));
      sp ← span_from start;
      mret (Some (mkRedirect op target sp))
  end.

Definition try_assign : parser (option (Assign Program)) := λ ps,
  let name := assign_name true (p_rest ps) in
  let after := mkParser (drop (length name) (p_rest ps)) (p_byte ps + blen name) in
  if bool_decide (name = []) || negb (bool_decide (head (p_rest after) = Some (ch "="))) then Ok (None, ps)
  else
    (_ ← advance 1;
     c ← peek;
     value ← (if none_or_in (" ;|&" +:+ NL +:+ TAB) c then
                at_ ← byte_pos; sp ← span_from at_; mret (mkWord [] sp)
              else word);
     sp ← span_from (p_byte ps);
     mret (Some (mkAssign name value sp))) after.

(** The [loop] of [command]. *)
Fixpoint command_loop (fuel : nat) (stop : option char) (asg : list (Assign Program))
    (ws : list (Word Program)) (rs : list (Redirect Program))
  : parser (list (Assign Program) * list (Word Program) * list (Redirect Program)) :=
  match fuel with
  | O => λ _, Panic
  | S fuel =>
      _ ← skip_blank;
      element_start ← byte_pos;
      c ← peek;
      c1 ← peek_at 1;
      if none_or_in (";|" +:+ NL) c || bool_decide (c = stop)
         || bool_decide (c = Some (ch "&") ∧ c1 ≠ Some (ch ">")) then mret (asg, ws, rs)
      else if decide (c = Some (ch "(")) then
        fail_at element_start "unsupported: subshell / function definition"
      else
        redirect ← try_redirect;
        match redirect with
        | Some redirect => command_loop fuel stop asg ws (rs ++ [redirect])
        | None =>
            assign ← (if decide (ws = []) then try_assign else mret None);
            match assign with
            | Some assign => command_loop fuel stop (asg ++ [assign]) ws rs
            | None =>
                w ← word;
                match unquoted_literal w with
                | Some keyword =>
                    if decide (ws = [] ∧ keyword ∈ KEYWORDS) then
                      fail_with element_start (chars_of "unsupported: bash keyword `" ++ keyword ++ chars_of "`")
                    else command_loop fuel stop asg (ws ++ [w]) rs
                | None => command_loop fuel stop asg (ws ++ [w]) rs
                end
            end
        end
  end.

Definition command (stop : option char) : parser (Command Program) :=
  _ ← skip_blank;
  start ← byte_pos;
  n ← chars_left;
  '(asg, ws, rs) ← command_loop (S n) stop [] [] [];
  if bool_decide (asg = []) && bool_decide (ws = []) && bool_decide (rs = []) then
    fail_at start "expected a command"
  else sp ← span_from start; mret (mkCommand asg ws rs sp).

(** The [loop] of [pipeline]. *)
Fixpoint pipeline_loop (fuel : nat) (stop : option char) (cs : list (Command Program))
  : parser (list (Command Program)) :=
  match fuel with
  | O => λ _, Panic
  | S fuel =>
      _ ← skip_blank;
      c ← peek;
      c1 ← peek_at 1;
      if decide (c = Some (ch "|")) then
        if decide (c1 = Some (ch "|")) then mret cs
        else if decide (c1 = Some (ch "&")) then at_ ← byte_pos; fail_at at_ "unsupported: `|&`; use `2>&1 |`"
        else
          _ ← advance 1;
          _ ← skip_blank_and_newlines;
          next ← command stop;
          pipeline_loop fuel stop (cs ++ [next])
      else mret cs
  end.
Definition pipeline (stop : option char) : parser (Pipeline Program) :=
  _ ← skip_blank;
  start ← byte_pos;
  n ← chars_left;
  head ← command stop;
  cs ← pipeline_loop (S n) stop [head];
  sp ← span_from start;
  mret (mkPipeline cs sp).

(** The [loop] of [and_or]. *)
Fixpoint and_or_loop (fuel : nat) (stop : option char) (tails : list (AndOrTail Program))
  : parser (list (AndOrTail Program)) :=
  match fuel with
  | O => λ _, Panic
  | S fuel =>
      _ ← skip_blank;
      c ← peek;
      c1 ← peek_at 1;
      let go k :=
        _ ← advance 2;
        _ ← skip_blank_and_newlines;
        p ← pipeline stop;
        and_or_loop fuel stop (tails ++ [mkTail k p]) in
      if decide (c = Some (ch "&") ∧ c1 = Some (ch "&")) then go And
      else if decide (c = Some (ch "|") ∧ c1 = Some (ch "|")) then go Or
      else mret tails
  end.
Definition and_or (stop : option char) : parser (AndOr Program) :=
  _ ← skip_blank;
  start ← byte_pos;
  n ← chars_left;
  p ← pipeline stop;
  tails ← and_or_loop (S n) stop [];
  sp ← span_from start;
  mret (mkAndOr p tails sp).

Definition item (stop : option char) : parser (Item Program) :=
  chain ← and_or stop;
  _ ← skip_blank;
  c ← peek;
  c1 ← peek_at 1;
  if decide (c = Some (ch "&") ∧ c1 ≠ Some (ch "&")) then _ ← advance 1; mret (mkItem chain true)
  else match c with
  | None => mret (mkItem chain false)
  | Some x =>
      if decide (x = ch ";") then
        if decide (c1 = Some (ch ";")) then at_ ← byte_pos; fail_at at_ "unsupported: `;;`"
        else _ ← advance 1; mret (mkItem chain false)
      else if decide (x = newline) then _ ← advance 1; mret (mkItem chain false)
      else if decide (c = stop) then mret (mkItem chain false)
      else at_ ← byte_pos; fail_with at_ (chars_of "unexpected `" ++ [x] ++ chars_of "`")
  end.

(** The [loop] of [program]. *)
Fixpoint program_loop (fuel : nat) (stop : option char) (its : list (Item Program)) : parser Program :=
  match fuel with
  | O => λ _, Panic
  | S fuel =>
      _ ← skip_blank_and_newlines;
      c ← peek;
      if decide (c = None ∨ c = stop) then mret (mkProgram its)
      else i ← item stop; program_loop fuel stop (its ++ [i])
  end.
Definition program (stop : option char) : parser Program :=
  n ← chars_left; program_loop (S n) stop [].
End recursive.

(** [program], to a depth of command substitutions. *)
Fixpoint program_at (depth : nat) (stop : option char) : parser Program :=
  match depth with
  | O => λ _, Panic
  | S depth => program (program_at depth (Some (ch ")"))) stop
  end.

(** [parse]. *)
Definition parse (src : text) : outcome ParseError Program :=
  '(program, ps) ← program_at (S (length src)) None (mkParser src 0);
  match p_rest ps with
  | [] => Ok program
  | unexpected :: _ => fst <$> fail_with (p_byte ps) (chars_of "unexpected `" ++ [unexpected] ++ chars_of "`") ps
  end.
