(* ===== verification/PlumbParseProps.v ===== *)
(** The parser of plumb always answers; what it accepts is well-formed, with
    spans that are pieces of the source, and its errors point into the source. *)

From stdpp Require Import base gmap sets list strings.
From Stdlib Require Import Ascii.
From S2P Require Import Prelude Chars PlumbParse.

(** * Well-formed programs *)

(** The texts of words: no empty literal but for a word of empty quotes, and
    literals next to each other differ in their quoting. *)
Definition unquoted_char (c : char) : Prop :=
  c ∉ chars_of (" ;|&<>)" +:+ NL +:+ TAB) ∧ c ∉ [ch "("; ch "`"; ch "{"; ch "}"; ch "\"; ch "'"; quote].

Definition ident (name : text) : Prop :=
  Forall (λ c, is_ident_char c = true) name ∧ ∃ c rest, name = c :: rest ∧ is_ident_start c = true.

Definition seg_ok (s : PathSeg) : Prop :=
  match s with
  | Index i => (- 2 ^ 63 < i < 2 ^ 63)%Z
  | Field name => name ≠ [] ∧ Forall (λ c, is_ident_char c = true) name
  end.

Section well_formed.
Context {P : Type} (S : Span → Prop) (sub_span : Span → Prop) (Q : P → Prop).

Definition part_ok (p : Part P) : Prop :=
  match p with
  | Text t quoted => t ≠ [] ∧ (quoted = false → Forall unquoted_char t)
  | Var name path sp => S sp ∧ Forall seg_ok path ∧ (ident name ∨ name = chars_of "?" ∧ path = [])
  | CommandSub p sp => sub_span sp ∧ Q p
  end.

(** [true] for quoted literals, [false] for others; runs of one kind are one part. *)
Fixpoint alternating (l : list (Part P)) : Prop :=
  match l with
  | Text _ q1 :: (Text _ q2 :: _) as l' => q1 ≠ q2 ∧ alternating l'
  | _ :: l' => alternating l'
  | [] => True
  end.

(** A bare tilde at the start of a word is not a literal. *)
Definition no_tilde (l : list (Part P)) : Prop :=
  match l with Text (c :: _) false :: _ => c ≠ ch "~" | _ => True end.

Definition parts_ok (l : list (Part P)) : Prop :=
  l = [Text [] true] ∨ l ≠ [] ∧ Forall part_ok l ∧ alternating l ∧ no_tilde l.

Definition word_ok (w : Word P) : Prop := S (w_span w) ∧ parts_ok (parts w).
Definition value_ok (w : Word P) : Prop := S (w_span w) ∧ (parts w = [] ∨ parts_ok (parts w)).
Definition assign_ok (a : Assign P) : Prop := S (a_span a) ∧ ident (a_name a) ∧ value_ok (a_value a).
Definition redirect_ok (r : Redirect P) : Prop :=
  S (r_span r) ∧
  match r_target r with
  | Some w => word_ok w ∧ r_op r ≠ ErrToOut ∧ r_op r ≠ OutToErr
  | None => r_op r = ErrToOut ∨ r_op r = OutToErr
  end.
Definition not_keyword (w : Word P) : Prop :=
  match parts w with [Text t false] => t ∉ KEYWORDS | _ => True end.
Definition command_ok (c : Command P) : Prop :=
  S (c_span c) ∧ Forall assign_ok (assigns c) ∧ Forall word_ok (words c) ∧ Forall redirect_ok (redirects c) ∧
  (∀ w, head (words c) = Some w → not_keyword w) ∧ ¬ (assigns c = [] ∧ words c = [] ∧ redirects c = []).
Definition pipeline_ok (p : Pipeline P) : Prop :=
  S (p_span p) ∧ Forall command_ok (commands p) ∧ commands p ≠ [].
Definition and_or_ok (a : AndOr P) : Prop :=
  S (ao_span a) ∧ pipeline_ok (first a) ∧ Forall (λ t, pipeline_ok (t_pipeline t)) (ao_rest a).
Definition item_ok (i : Item P) : Prop := and_or_ok (and_or_of i).
End well_formed.

(** Programs with substitutions to a depth. *)
Fixpoint program_ok (S sub_span : Span → Prop) (depth : nat) (p : Program) : Prop :=
  match depth with
  | O => False
  | Datatypes.S depth => Forall (item_ok S sub_span (program_ok S sub_span depth)) (items p)
  end.

(** * Positions in a source *)

Section source.
Context (src : text).

Definition boundary (n : nat) : Prop := ∃ pre post, src = pre ++ post ∧ n = blen pre.
Definition at_ (ps : Parser) : Prop := ∃ pre, src = pre ++ p_rest ps ∧ p_byte ps = blen pre.

(** An error points to a char of the source, or just behind it. *)
Definition located (e : ParseError) : Prop :=
  boundary (sp_start (span e)) ∧ sp_start (span e) < sp_end (span e) ≤ blen src + 1.

(** A span is a piece of the source; that of a substitution, its text. *)
Definition piece (sp : Span) : Prop :=
  ∃ pre mid post, src = pre ++ mid ++ post ∧ sp_start sp = blen pre ∧ sp_end sp = blen pre + blen mid.
Definition sub_piece (sp : Span) : Prop :=
  ∃ pre body post, src = pre ++ (chars_of "$(" ++ body ++ chars_of ")") ++ post ∧
    sp_start sp = blen pre ∧ sp_end sp = blen pre + (3 + blen body).

(** * Steps of the parser *)

Definition steps (ps ps' : Parser) : Prop :=
  ∃ taken, p_rest ps = taken ++ p_rest ps' ∧ p_byte ps' = p_byte ps + blen taken.
Definition left (ps : Parser) : nat := length (p_rest ps).

Lemma steps_refl ps : steps ps ps.
Proof. exists []. unfold blen. simpl. split; [done|lia]. Qed.

Lemma steps_trans ps1 ps2 ps3 : steps ps1 ps2 → steps ps2 ps3 → steps ps1 ps3.
Proof.
  intros (t1 & H1 & B1) (t2 & H2 & B2). exists (t1 ++ t2). rewrite <- (assoc_L (++)), <- H2, <- H1.
  split; [done|]. rewrite blen_app. lia.
Qed.

Lemma steps_left ps ps' : steps ps ps' → left ps' ≤ left ps.
Proof. intros (t & H & _). unfold left. rewrite H, length_app. lia. Qed.

Lemma at_steps ps ps' : at_ ps → steps ps ps' → at_ ps'.
Proof.
  intros (pre & H & B) (t & H' & B'). exists (pre ++ t). rewrite <- (assoc_L (++)), <- H'.
  split; [done|]. rewrite blen_app. lia.
Qed.

Lemma at_boundary ps : at_ ps → boundary (p_byte ps).
Proof. intros (pre & H & B). by exists pre, (p_rest ps). Qed.

Lemma at_piece ps ps' : at_ ps → steps ps ps' → piece (mkSpan (p_byte ps) (p_byte ps')).
Proof.
  intros (pre & H & B) (t & H' & B'). exists pre, t, (p_rest ps'). simpl. rewrite <- H', <- B. split_and!; [done|done|lia].
Qed.

Lemma at_piece_between ps1 ps2 ps3 :
  at_ ps1 → steps ps1 ps2 → steps ps2 ps3 → piece (mkSpan (p_byte ps2) (p_byte ps3)).
Proof. intros H H1 H2. apply at_piece; [by eapply at_steps|done]. Qed.

Definition moved (n : nat) (ps : Parser) : Parser := mkParser (drop n (p_rest ps)) (p_byte ps + blen (take n (p_rest ps))).

Lemma steps_moved n ps : steps ps (moved n ps).
Proof. exists (take n (p_rest ps)). simpl. by rewrite take_drop. Qed.

Lemma moved_left n ps c : p_rest ps !! n = Some c → left (moved (Datatypes.S n) ps) < left ps.
Proof. intros H%lookup_lt_Some. unfold left, moved. simpl. rewrite length_drop. lia. Qed.

(** * Weakest preconditions *)

Definition wp {A} (m : parser A) (ps : Parser) (Q : A → Parser → Prop) : Prop :=
  ends (m ps) (λ r, Q r.1 r.2) located.

Lemma wp_bind {A B} (m : parser A) (k : A → parser B) ps Q :
  wp m ps (λ a ps', wp (k a) ps' Q) → wp (m ≫= k) ps Q.
Proof. unfold wp, mbind, parser_bind. by destruct (m ps) as [[a ps']|e|]. Qed.

Lemma wp_mono {A} (m : parser A) ps (Q Q' : A → Parser → Prop) :
  wp m ps Q → (∀ a ps', Q a ps' → Q' a ps') → wp m ps Q'.
Proof. unfold wp. destruct (m ps) as [[a ps']|e|]; simpl; auto. Qed.

Lemma wp_same {A} (m m' : parser A) ps ps' Q : m ps = m' ps' → wp m' ps' Q → wp m ps Q.
Proof. unfold wp. by intros ->. Qed.

Lemma wp_ret {A} (a : A) ps (Q : A → Parser → Prop) : Q a ps → wp (mret a) ps Q.
Proof. done. Qed.

Lemma wp_fail {A} start m ps (Q : A → Parser → Prop) : at_ ps → boundary start → wp (fail_with start m) ps Q.
Proof.
  intros (pre & H & B) (pre' & post & H' & B'). unfold wp, fail_with, located. simpl. split; [by exists pre', post|].
  rewrite B. pose proof (f_equal blen H) as Hp. pose proof (f_equal blen H') as Hp'. rewrite blen_app in Hp, Hp'. lia.
Qed.

Lemma wp_peek {A} (k : option char → parser A) ps Q : wp (k (head (p_rest ps))) ps Q → wp (peek ≫= k) ps Q.
Proof. done. Qed.

Lemma wp_peek_at {A} n (k : option char → parser A) ps Q : wp (k (p_rest ps !! n)) ps Q → wp (peek_at n ≫= k) ps Q.
Proof. done. Qed.

Lemma wp_advance {A} n (k : () → parser A) ps Q : wp (k ()) (moved n ps) Q → wp (advance n ≫= k) ps Q.
Proof. done. Qed.

Lemma wp_byte_pos {A} (k : nat → parser A) ps Q : wp (k (p_byte ps)) ps Q → wp (byte_pos ≫= k) ps Q.
Proof. done. Qed.

Lemma wp_span_from {A} start (k : Span → parser A) ps Q :
  wp (k (mkSpan start (p_byte ps))) ps Q → wp (span_from start ≫= k) ps Q.
Proof. done. Qed.

Lemma wp_chars_left {A} (k : nat → parser A) ps Q : wp (k (left ps)) ps Q → wp (chars_left ≫= k) ps Q.
Proof. done. Qed.

Lemma wp_bump {A} (k : option char → parser A) ps Q :
  (p_rest ps = [] → wp (k None) ps Q) →
  (∀ c t, p_rest ps = c :: t → wp (k (Some c)) (moved 1 ps) Q) → wp (bump ≫= k) ps Q.
Proof.
  intros Hnone Hsome. unfold bump. apply wp_bind, wp_peek. destruct (p_rest ps) as [|c t] eqn:Hr; simpl.
  - apply wp_ret. auto.
  - apply wp_advance, wp_ret. eauto.
Qed.

(** ** Blanks and runs of chars *)

Lemma skip_blank_steps comment t byte : steps (mkParser t byte) (skip_blank_from comment t byte).
Proof.
  assert (∀ n comment t byte, length t ≤ n → steps (mkParser t byte) (skip_blank_from comment t byte)) as Hgo;
    [|by eapply (Hgo (length t))].
  clear. induction n as [|n IH]; intros comment t byte Hn.
  { destruct t; [|simpl in Hn; lia]. apply steps_refl. }
  destruct t as [|c t]; [apply steps_refl|]. simpl in Hn.
  assert (∀ comment byte', byte' = byte + len_utf8 c → steps (mkParser (c :: t) byte) (skip_blank_from comment t byte')) as H1.
  { intros comment' byte' ->. eapply steps_trans; [|apply IH; lia]. exists [c]. unfold blen. simpl. split; [done|lia]. }
  cbn [skip_blank_from]. destruct comment.
  { case_decide; [apply steps_refl|by apply H1]. }
  case_decide as Hc; [apply H1; by destruct Hc as [->| ->]|]. case_decide as Hb.
  - destruct t as [|d t]; [apply steps_refl|]. case_decide as Hd; [|apply steps_refl]. subst c d.
    eapply steps_trans; [|apply IH; simpl in Hn; lia]. by exists [ch "\"; newline].
  - case_decide as Hh; [|apply steps_refl]. by apply H1.
Qed.

Lemma wp_skip_blank {A} (k : () → parser A) ps Q :
  (∀ ps', steps ps ps' → wp (k ()) ps' Q) → wp (skip_blank ≫= k) ps Q.
Proof. intros H. apply (H (skip_blank_from false (p_rest ps) (p_byte ps))). destruct ps. apply skip_blank_steps. Qed.

Lemma head_left c ps : head (p_rest ps) = Some c → left (moved 1 ps) < left ps.
Proof. intros H. apply (moved_left 0 ps c). by destruct (p_rest ps). Qed.

Lemma blank_lines_wp n ps Q :
  left ps < n → (∀ ps', steps ps ps' → Q () ps') → wp (blank_lines_loop n) ps Q.
Proof.
  revert ps. induction n as [|n IH]; intros ps Hn HQ; [lia|]. cbn [blank_lines_loop].
  apply wp_skip_blank. intros ps1 H1. apply wp_peek. case_decide as Hc; [|by apply wp_ret, HQ].
  apply wp_advance. apply head_left in Hc. pose proof (steps_left _ _ H1).
  apply IH; [lia|]. intros ps2 H2. apply HQ. eauto using steps_trans, steps_moved.
Qed.

Lemma wp_blank_lines {A} (k : () → parser A) ps Q :
  (∀ ps', steps ps ps' → wp (k ()) ps' Q) → wp (skip_blank_and_newlines ≫= k) ps Q.
Proof. intros H. apply wp_bind. unfold skip_blank_and_newlines. apply wp_chars_left, blank_lines_wp; [lia|done]. Qed.

Lemma prefix_while_ok p t : Forall (λ c, p c = true) (prefix_while p t) ∧ prefix_while p t `prefix_of` t.
Proof.
  induction t as [|c t [IH1 IH2]]; simpl; [split; [constructor|done]|].
  destruct (p c) eqn:Hp; [|split; [constructor|apply prefix_nil]]. split; [by constructor|by apply prefix_cons].
Qed.

Lemma prefix_moved name t byte :
  name `prefix_of` t → mkParser (drop (length name) t) (byte + blen name) = moved (length name) (mkParser t byte).
Proof. intros [post ->]. unfold moved. simpl. by rewrite take_app_length. Qed.

Lemma wp_take_while {A} p (k : text → parser A) ps Q :
  (let name := prefix_while p (p_rest ps) in Forall (λ c, p c = true) name → wp (k name) (moved (length name) ps) Q) →
  wp (take_while p ≫= k) ps Q.
Proof.
  intros H. destruct (prefix_while_ok p (p_rest ps)) as [H1 H2]. specialize (H H1). destruct ps as [t byte].
  apply wp_bind. unfold wp, take_while. simpl in *. by rewrite prefix_moved.
Qed.

(** * Words *)

Section words.
Context (Q : Program → Prop).
Local Abbreviation pok := (part_ok piece sub_piece Q).

(** The parts an accumulator stands for. *)
Definition closed (acc : WordAcc) : list (Part Program) := acc_parts (flush acc).

Definition is_text (quoted : bool) (p : Part Program) : Prop :=
  match p with Text _ q => q = quoted | _ => False end.

Record acc_ok (acc : WordAcc) : Prop := {
  ok_parts : Forall pok (closed acc);
  ok_alternating : alternating (closed acc);
  ok_tilde : no_tilde (closed acc);
  ok_last : pending acc = [] → ∀ p quoted, last (acc_parts acc) = Some p → ¬ is_text quoted p;
}.

Lemma alternating_snoc (l : list (Part Program)) p :
  alternating (l ++ [p]) ↔ alternating l ∧ ∀ quoted last_, last l = Some last_ → is_text quoted last_ → ¬ is_text quoted p.
Proof.
  induction l as [|p1 l IH]; [by destruct p; simpl; split|]. destruct l as [|p2 l].
  - destruct p1, p; simpl; naive_solver.
  - change (last (p1 :: p2 :: l)) with (last (p2 :: l)). destruct p1, p2; simpl in *; naive_solver.
Qed.

Lemma no_tilde_snoc (l : list (Part Program)) p : l ≠ [] → no_tilde (l ++ [p]) ↔ no_tilde l.
Proof. by destruct l. Qed.

Lemma acc_default_ok : acc_ok WordAcc_default.
Proof. split; by try constructor. Qed.

Lemma closed_flush acc : closed acc = acc_parts acc ++ (if decide (pending acc = []) then [] else [Text (pending acc) (pending_quoted acc)]).
Proof. unfold closed, flush. destruct (pending acc); simpl; [by rewrite app_nil_r|done]. Qed.

Lemma flush_idemp acc : flush (flush acc) = flush acc.
Proof. unfold flush. by destruct (pending acc) eqn:E; [rewrite E|]. Qed.

Lemma flush_ok acc : acc_ok acc → pending acc = [] ∨ pending (flush acc) = [].
Proof. unfold flush. destruct (pending acc); auto. Qed.

Lemma pending_flush acc : pending (flush acc) = [].
Proof. unfold flush. by destruct (pending acc) eqn:E. Qed.

Lemma closed_push_part part acc : closed (push_part part acc) = closed acc ++ [part].
Proof. rewrite closed_flush. unfold push_part. simpl. by rewrite pending_flush, decide_True, app_nil_r. Qed.

Lemma push_part_ok part acc :
  acc_ok acc → pok part → (∀ quoted, ¬ is_text quoted part) → acc_ok (push_part part acc).
Proof.
  intros [H1 H2 H3 H4] Hp Ht. pose proof (closed_push_part part acc) as Hc.
  split.
  - rewrite Hc. apply Forall_snoc; done.
  - rewrite Hc. apply alternating_snoc. naive_solver.
  - rewrite Hc. destruct (closed acc) as [|p l] eqn:Hl; [|by apply no_tilde_snoc].
    destruct part; simpl in *; [|done..]. by destruct (Ht quoted).
  - intros _ p quoted. unfold push_part. simpl. rewrite last_snoc. intros [= <-]. apply Ht.
Qed.

Lemma pending_ok t c quoted :
  (t ≠ [] → pok (Text t quoted)) → (quoted = false → unquoted_char c) → pok (Text (t ++ [c]) quoted).
Proof.
  intros Ht Hc. split; [by destruct t|]. intros ->. apply Forall_snoc; [|auto].
  destruct t as [|d t]; [constructor|]. by apply Ht.
Qed.

Lemma closed_push c quoted acc :
  closed (push c quoted acc) =
    (if decide (pending acc ≠ [] ∧ pending_quoted acc = quoted)
     then acc_parts acc ++ [Text (pending acc ++ [c]) quoted] else closed acc ++ [Text [c] quoted]).
Proof.
  rewrite (closed_flush acc), closed_flush. unfold push, flush.
  destruct acc as [ps [|d t] [] sq], quoted; simpl; repeat case_decide; rewrite ?app_nil_r; by intuition.
Qed.

Lemma push_ok c quoted acc :
  acc_ok acc → (quoted = false → unquoted_char c ∧ (acc_is_empty acc = true → c ≠ ch "~")) → acc_ok (push c quoted acc).
Proof.
  intros [H1 H2 H3 H4] Hc.
  assert (pending (push c quoted acc) ≠ []) as Hne by (unfold push; simpl; intros [_ ?]%app_eq_nil; done).
  assert (quoted = false → unquoted_char c) as Hc1 by (intros Hq; by apply Hc).
  rewrite (closed_flush acc) in H1, H2, H3.
  split; [..|intros Hn; by destruct Hne]; rewrite closed_push, (closed_flush acc);
    destruct (decide (pending acc ≠ [] ∧ pending_quoted acc = quoted)) as [[Hp Hq]|Hd];
    try rewrite (decide_False (P:=pending acc = [])) in H1, H2, H3 by exact Hp.
  - apply Forall_app in H1 as [H1 Hl]. apply Forall_app. split; [done|]. apply Forall_singleton.
    apply Forall_cons in Hl as [Hl _]. rewrite Hq in Hl. by apply pending_ok.
  - apply Forall_snoc; [done|]. by apply (pending_ok []).
  - rewrite alternating_snoc in *. destruct H2 as [H2 Hl]. split; [done|]. rewrite Hq in Hl. apply Hl.
  - apply alternating_snoc. split; [done|]. intros q p Hl Ht <-. case_decide as Hp.
    + rewrite app_nil_r in Hl. by eapply H4.
    + rewrite last_snoc in Hl. injection Hl as <-. simpl in Ht. tauto.
  - destruct (acc_parts acc); [|done]. simpl in *. destruct (pending acc); [done|]. by destruct quoted; rewrite Hq in H3.
  - destruct (acc_parts acc ++ _) as [|p l] eqn:Hl; [|done]. simpl. destruct quoted; [done|].
    apply Hc; [done|]. unfold acc_is_empty. apply bool_decide_eq_true. by case_decide; apply app_eq_nil in Hl as [-> Hl].
Qed.

Lemma saw_quotes_ok acc : acc_ok acc → acc_ok (set_saw_quotes acc).
Proof.
  assert (closed (set_saw_quotes acc) = closed acc) as Hc by (rewrite !closed_flush; done).
  intros [H1 H2 H3 H4]. by split; rewrite ?Hc.
Qed.

Lemma acc_finish_ok acc : acc_ok acc → acc_finish acc ≠ [] → parts_ok piece sub_piece Q (acc_finish acc).
Proof.
  intros [H1 H2 H3 _]. unfold acc_finish. fold (closed acc). case_match; [by left|]. intros Hne. by right.
Qed.

(** ** References and quotes *)

Lemma digits_value_nonneg ds : Forall (λ c, is_ascii_digit c = true) ds → (0 ≤ digits_value ds)%Z.
Proof.
  induction ds as [|d ds IH] using rev_ind; [done|]. rewrite Forall_app, Forall_singleton, digits_value_snoc.
  intros [H1%IH H2]. apply in_range_spec in H2. unfold digit_value. lia.
Qed.

Lemma parse_i64_bound ds i :
  Forall (λ c, is_ascii_digit c = true) ds → parse_i64 ds = Some i → (0 ≤ i < 2 ^ 63)%Z.
Proof. intros H%digits_value_nonneg. unfold parse_i64. repeat case_decide; naive_solver. Qed.

Lemma ident_run_ok name :
  Forall (λ c, is_ident_char c = true) name → name ≠ [] → existsb is_ascii_digit (take 1 name) = false → ident name.
Proof.
  intros H Hne Hd. split; [done|]. destruct name as [|c name]; [done|]. exists c, name. split; [done|].
  apply Forall_cons in H as [H _]. simpl in Hd. unfold is_ident_char in H. unfold is_ident_start.
  by destruct (bool_decide _), (is_ascii_alphabetic c), (is_ascii_digit c).
Qed.

Lemma braced_path_wp n start path ps :
  at_ ps → boundary start → left ps < n → Forall seg_ok path →
  wp (braced_path n start path) ps (λ path' ps', steps ps ps' ∧ Forall seg_ok path').
Proof.
  revert path ps. induction n as [|n IH]; intros path ps Hat Hb Hn Hp; [lia|]. cbn [braced_path].
  apply wp_peek. case_decide as Hc.
  { apply head_left in Hc. apply wp_advance, wp_peek.
    set (negative := bool_decide _). set (ps1 := if negative then moved 1 (moved 1 ps) else moved 1 ps).
    assert (steps (moved 1 ps) ps1) as H1 by (unfold ps1; destruct negative; auto using steps_moved, steps_refl).
    pose proof (steps_left _ _ H1).
    assert (∀ (k : () → parser (list PathSeg)) R, wp (k ()) ps1 R → wp ((if negative then advance 1 else mret ()) ≫= k) (moved 1 ps) R) as Hneg.
    { intros k R. unfold ps1. by destruct negative. }
    apply Hneg, wp_take_while. intros digits Hd. apply wp_peek.
    set (ps2 := moved (length digits) ps1).
    assert (steps ps ps2) as H2 by eauto using steps_trans, steps_moved.
    assert (left ps2 ≤ left ps1) by (apply steps_left, steps_moved).
    assert (wp (A:=list PathSeg) (fail_at start "run reference indexes are integers: ${o[7]} or ${o[-1]}") ps2
      (λ path' ps', steps ps ps' ∧ Forall seg_ok path')) as Hfail by (apply wp_fail; eauto using at_steps).
    destruct (parse_i64 digits) as [i|] eqn:Hi; [|exact Hfail].
    destruct (bool_decide (head _ = Some (ch "]"))); [|exact Hfail].
    apply (parse_i64_bound _ _ Hd) in Hi. apply wp_advance.
    pose proof (steps_left _ _ (steps_moved 1 ps2)).
    eapply wp_mono; [apply IH|].
    - eauto using at_steps, steps_trans, steps_moved.
    - done.
    - lia.
    - apply Forall_snoc; [done|]. simpl. destruct negative; lia.
    - intros path' ps' [? ?]. eauto 6 using steps_trans, steps_moved. }
  case_decide as Hc'; [|by apply wp_ret; auto using steps_refl].
  apply head_left in Hc'. apply wp_advance, wp_take_while. intros name Hname.
  pose proof (steps_left _ _ (steps_moved (length name) (moved 1 ps))).
  case_decide; [apply wp_fail; eauto using at_steps, steps_trans, steps_moved|].
  eapply wp_mono; [apply IH|].
  - eauto using at_steps, steps_trans, steps_moved.
  - done.
  - lia.
  - by apply Forall_snoc.
  - intros path' ps' [? ?]. eauto 6 using steps_trans, steps_moved.
Qed.

Lemma braced_wp acc ps0 ps :
  at_ ps0 → steps ps0 ps → acc_ok acc →
  wp (braced acc (p_byte ps0)) ps (λ r ps', steps ps ps' ∧ acc_ok r.1).
Proof.
  intros Hat H0 Hacc. unfold braced, ident_run. apply wp_take_while. intros name Hname.
  set (ps1 := moved (length name) ps). assert (steps ps ps1) as H1 by apply steps_moved.
  destruct (bool_decide (name = []) || _) eqn:Hd; [apply wp_fail; eauto using at_steps, steps_trans, at_boundary|].
  apply orb_false_iff in Hd as [Hne%bool_decide_eq_false Hd]. apply wp_chars_left, wp_bind.
  eapply wp_mono; [apply braced_path_wp; [|by apply at_boundary|lia|constructor]; eauto using at_steps, steps_trans|].
  intros path ps2 [H2 Hpath]. apply wp_peek. case_decide; [|apply wp_fail; eauto 6 using at_steps, steps_trans, at_boundary].
  apply wp_advance, wp_span_from, wp_ret. split; [eauto using steps_trans, steps_moved|].
  apply push_part_ok; [done| |by intros ? []]. split; [|split; [done|left; by apply ident_run_ok]].
  apply at_piece; eauto 6 using steps_trans, steps_moved.
Qed.

Lemma single_quoted_loop_wp n quote_start acc ps :
  at_ ps → boundary quote_start → left ps < n → acc_ok acc →
  wp (single_quoted_loop n quote_start acc) ps (λ acc' ps', steps ps ps' ∧ acc_ok acc').
Proof.
  revert acc ps. induction n as [|n IH]; intros acc ps Hat Hb Hn Hacc; [lia|]. cbn [single_quoted_loop].
  apply wp_bump; [intros; by apply wp_fail|]. intros c t Hr.
  assert (left (moved 1 ps) < left ps) by (apply (head_left c); by rewrite Hr).
  case_decide; [by apply wp_ret; auto using steps_moved|].
  eapply wp_mono; [apply IH|]; [by eauto using at_steps, steps_moved|done|lia|by apply push_ok|].
  intros acc' ps' [? ?]. eauto using steps_trans, steps_moved.
Qed.

Lemma single_quoted_wp acc ps :
  at_ ps → acc_ok acc → wp (single_quoted acc) ps (λ acc' ps', steps (moved 1 ps) ps' ∧ acc_ok acc').
Proof.
  intros Hat Hacc. apply wp_byte_pos, wp_advance, wp_chars_left.
  apply single_quoted_loop_wp; [eauto using at_steps, steps_moved|by apply at_boundary|lia|by apply saw_quotes_ok].
Qed.

(** ** What a substitution's parser makes its callers do *)

Section recursive.
Context (sub : parser Program) (N : nat).
Context (sub_wp : ∀ ps, at_ ps → left ps < N → wp sub ps (λ p ps', steps ps ps' ∧ Q p)).

Lemma substitution_piece ps t ps1 t1 :
  at_ ps → p_rest ps = ch "$" :: ch "(" :: t → steps (moved 2 ps) ps1 → p_rest ps1 = ch ")" :: t1 →
  sub_piece (mkSpan (p_byte ps) (p_byte (moved 1 ps1))).
Proof.
  intros (pre & Hsrc & Hb) Hr (body & Hb1 & Hb2) Hr1. exists pre, body, t1. simpl in *.
  rewrite Hr in Hb1, Hb2, Hsrc. rewrite Hr1 in *. simpl in *.
  change (drop 0 t) with t in Hb1. rewrite Hb1 in Hsrc. rewrite Hsrc, <- (assoc_L (++)).
  split_and!; [done|done|]. rewrite Hb2, Hb, !take_0.
  change (blen [ch "$"; ch "("]) with 2. change (blen [ch ")"]) with 1. lia.
Qed.

Lemma pok_var name sp : ident name ∨ name = chars_of "?" → piece sp → pok (Var name [] sp).
Proof. intros [H|H] Hsp; (split; [done|split; [constructor|]]); [by left|by right]. Qed.

Lemma dollar_wp acc ps :
  at_ ps → head (p_rest ps) = Some (ch "$") → left ps ≤ N → acc_ok acc →
  wp (dollar sub acc) ps (λ r ps', steps (moved 1 ps) ps' ∧ acc_ok r.1).
Proof.
  intros Hat Hd Hn Hacc. pose proof (head_left _ _ Hd) as Hl. unfold dollar.
  apply wp_byte_pos, wp_peek_at, wp_peek_at.
  destruct (p_rest ps) as [|d0 t] eqn:Hr; [done|]. injection Hd as ->. rewrite lookup_cons_ne_0 by done. simpl.
  assert (∀ ps', steps (moved 1 ps) ps' → steps ps ps') as Hps by eauto using steps_trans, steps_moved.
  assert (steps (moved 1 ps) (moved 2 ps)) as H12.
  { exists (take 1 t). unfold moved. rewrite Hr. simpl. rewrite take_drop. split; [done|].
    rewrite (blen_cons _ (take 1 t)), (blen_cons _ (take 0 t)), take_0. change (blen []) with 0. lia. }
  assert (boundary (p_byte ps)) as Hbd by by apply at_boundary.
  case_decide as Hp.
  { case_decide; [by apply wp_fail|]. apply wp_advance, wp_bind.
    destruct t as [|d1 t]; [done|]. injection Hp as ->.
    eapply wp_mono; [apply sub_wp; [by eauto using at_steps|]|].
    { unfold left, moved in *. rewrite Hr in *. simpl in *. rewrite length_drop. lia. }
    intros p ps1 [H1 HQ]. apply wp_bump; [intros; apply wp_fail; eauto using at_steps, steps_trans|].
    intros c t1 Hr1. case_decide as Hc; [|apply wp_fail; eauto 7 using at_steps, steps_trans, steps_moved].
    injection Hc as ->. apply wp_span_from, wp_ret. split; [eauto using steps_trans, steps_moved|].
    apply push_part_ok; [done| |by intros ? []]. split; [by eapply substitution_piece|done]. }
  assert (∀ name ps', steps (moved 1 ps) ps' → ident name ∨ name = chars_of "?" →
    acc_ok (push_part (Var name [] (mkSpan (p_byte ps) (p_byte ps'))) acc)) as Hvar.
  { intros name ps' H Hname. apply push_part_ok; [done| |by intros ? []]. apply pok_var; [done|]. apply at_piece; eauto. }
  case_decide.
  { apply wp_advance. eapply wp_mono; [apply braced_wp; [done| |done]; auto|].
    intros r ps' [? ?]. eauto using steps_trans. }
  case_decide.
  { apply wp_advance, wp_span_from, wp_ret. split; [done|]. apply Hvar; auto. }
  destruct (existsb is_ident_start _) eqn:Hi.
  { apply wp_advance, wp_take_while. intros name Hname. apply wp_span_from, wp_ret.
    split; [apply steps_moved|]. apply Hvar; [apply steps_moved|]. left. split; [done|].
    destruct t as [|c t]; [done|]. simpl in Hi. rewrite orb_false_r in Hi. unfold name.
    change (p_rest (moved 1 ps)) with (drop 1 (p_rest ps)). rewrite Hr. simpl. change (drop 0 (c :: t)) with (c :: t). simpl.
    assert (is_ident_char c = true) as ->.
    { unfold is_ident_char, is_ident_start in *. by rewrite Hi. }
    by eexists _, _. }
  destruct (t !! 0); [destruct (is_ascii_digit _ || _); [by apply wp_fail|]|];
    (apply wp_advance, wp_ret; split; [apply steps_refl|done]).
Qed.

Lemma double_quoted_loop_wp n quote_start acc ps :
  at_ ps → boundary quote_start → left ps < n → left ps ≤ N → acc_ok acc →
  wp (double_quoted_loop sub n quote_start acc) ps (λ acc' ps', steps ps ps' ∧ acc_ok acc').
Proof.
  revert acc ps. induction n as [|n IH]; intros acc ps Hat Hb Hn HN Hacc; [lia|]. cbn [double_quoted_loop].
  apply wp_peek. destruct (head (p_rest ps)) as [c|] eqn:Hc; [|by apply wp_fail].
  pose proof (head_left _ _ Hc) as Hl.
  assert (∀ acc ps', steps (moved 1 ps) ps' → acc_ok acc →
    wp (double_quoted_loop sub n quote_start acc) ps' (λ acc' ps', steps ps ps' ∧ acc_ok acc')) as Hgo.
  { intros acc' ps' H1 Hacc'. pose proof (steps_left _ _ H1).
    eapply wp_mono; [apply IH|]; [by eauto using at_steps, steps_moved, steps_trans|done|lia|lia|done|].
    intros acc2 ps2 [? ?]. eauto using steps_trans, steps_moved. }
  case_decide; [apply wp_advance, wp_ret; auto using steps_moved|].
  case_decide.
  { apply wp_advance, wp_bump; [intros; apply wp_fail; eauto using at_steps, steps_moved|]. intros e t Hr.
    apply Hgo; [apply steps_moved|]. repeat case_decide; repeat apply push_ok; done. }
  case_decide; [apply wp_byte_pos, wp_fail; eauto using at_boundary|].
  case_decide as Hd.
  { subst. apply wp_bind. eapply wp_mono; [by apply dollar_wp|]. intros [acc' emitted] ps1 [Hs Hok].
    apply Hgo; [done|]. destruct emitted; [done|]. by apply push_ok. }
  apply wp_advance. apply Hgo; [apply steps_refl|]. by apply push_ok.
Qed.

Lemma double_quoted_wp acc ps :
  at_ ps → head (p_rest ps) = Some quote → left ps ≤ N → acc_ok acc →
  wp (double_quoted sub acc) ps (λ acc' ps', steps (moved 1 ps) ps' ∧ acc_ok acc').
Proof.
  intros Hat Hq Hn Hacc. apply wp_byte_pos, wp_advance, wp_chars_left. apply head_left in Hq.
  apply double_quoted_loop_wp; [eauto using at_steps, steps_moved|by apply at_boundary|lia|lia|by apply saw_quotes_ok].
Qed.

(** ** Words *)

Lemma unquoted_char_intro c :
  c ∉ chars_of (" ;|&<>)" +:+ NL +:+ TAB) → c ≠ ch "(" → c ≠ ch "`" → ¬ (c = ch "{" ∨ c = ch "}") → c ≠ ch "\" →
  c ≠ ch "'" → c ≠ quote → unquoted_char c.
Proof.
  intros H H1 H2 H3 H4 H5 H6. split; [done|]. rewrite !not_elem_of_cons. split_and!; try tauto. apply not_elem_of_nil.
Qed.

Lemma word_loop_wp n ps0 acc ps :
  at_ ps0 → steps ps0 ps → left ps < n → left ps ≤ N → acc_ok acc →
  wp (word_loop sub n (p_byte ps0) acc) ps
    (λ acc' ps', steps ps ps' ∧ acc_ok acc' ∧ (left ps' < left ps ∨ acc' = acc)).
Proof.
  revert acc ps. induction n as [|n IH]; intros acc ps Hat0 H0 Hn HN Hacc; [lia|]. cbn [word_loop].
  assert (at_ ps) as Hat by eauto using at_steps.
  apply wp_peek, wp_byte_pos. destruct (head (p_rest ps)) as [c|] eqn:Hc; [|apply wp_ret; auto using steps_refl].
  pose proof (head_left _ _ Hc) as Hl.
  assert (∀ acc1 ps', steps (moved 1 ps) ps' → acc_ok acc1 →
    wp (word_loop sub n (p_byte ps0) acc1) ps' (λ acc' ps', steps ps ps' ∧ acc_ok acc' ∧ (left ps' < left ps ∨ acc' = acc))) as Hgo.
  { intros acc' ps' H1 Hacc'. pose proof (steps_left _ _ H1).
    eapply wp_mono; [apply IH|]; [done|by eauto using steps_moved, steps_trans|lia|lia|done|].
    intros acc2 ps2 (Hs & ? & _). pose proof (steps_left _ _ Hs). split_and!; [|done|left; lia].
    eauto using steps_trans, steps_moved. }
  destruct (decide (c ∈ _)) as [|Hset]; [apply wp_ret; auto using steps_refl|].
  destruct (decide (c = ch "(")); [by apply wp_fail, at_boundary|].
  destruct (decide (c = ch "`")); [by apply wp_fail, at_boundary|].
  destruct (decide (c = ch "{" ∨ c = ch "}")); [by apply wp_fail, at_boundary|].
  destruct (decide (c = ch "\")).
  { apply wp_advance, wp_bump.
    - intros _. apply wp_byte_pos, wp_fail; eauto using at_boundary, at_steps, steps_moved.
    - intros x t Hr. apply Hgo; [apply steps_moved|]. case_decide; [done|by apply push_ok]. }
  destruct (decide (c = ch "'")).
  { apply wp_bind. eapply wp_mono; [by apply single_quoted_wp|]. intros acc' ps' [? ?]. by apply Hgo. }
  destruct (decide (c = quote)) as [->|].
  { apply wp_bind. eapply wp_mono; [by apply double_quoted_wp|]. intros acc' ps' [? ?]. by apply Hgo. }
  destruct (decide (c = ch "$")) as [->|].
  { apply wp_bind. eapply wp_mono; [by apply dollar_wp|]. intros [acc' emitted] ps' [? ?]. apply Hgo; [done|].
    destruct emitted; [done|]. apply push_ok; [done|]. intros _. split; [|done].
    split; apply (bool_decide_unpack _); by vm_compute. }
  destruct (bool_decide (c = ch "~") && _) eqn:Ht.
  { apply wp_advance, wp_peek. destruct (none_or_in _ _); [|apply wp_fail; eauto using at_steps, steps_moved, at_boundary].
    apply wp_span_from. apply Hgo; [apply steps_refl|]. apply push_part_ok; [done| |by intros ? []].
    apply pok_var; [left|]; [|apply at_piece; eauto using steps_trans, steps_moved].
    split; [by repeat constructor|by eexists _, _]. }
  apply wp_advance. apply Hgo; [apply steps_refl|]. apply push_ok; [done|]. intros _.
  split; [by apply unquoted_char_intro|]. intros Hempty ->. by rewrite Hempty in Ht.
Qed.

Local Abbreviation wok := (word_ok piece sub_piece Q).

Lemma word_wp ps :
  at_ ps → left ps ≤ N → wp (word sub) ps (λ w ps', steps ps ps' ∧ left ps' < left ps ∧ wok w).
Proof.
  intros Hat HN. apply wp_byte_pos, wp_chars_left, wp_bind.
  eapply wp_mono; [apply word_loop_wp; [done|apply steps_refl|lia|done|apply acc_default_ok]|].
  intros acc ps' (Hs & Hacc & Hl). pose proof (acc_finish_ok acc Hacc) as Hfin.
  destruct (acc_finish acc) as [|part l] eqn:Hf; [apply wp_fail; eauto using at_steps, at_boundary|].
  apply wp_span_from, wp_ret. split_and!; [done| |].
  - destruct Hl as [?| ->]; done.
  - split; [by apply at_piece|by apply Hfin].
Qed.

(** ** Redirections and assignments *)

Lemma redirect_op_wp ps :
  at_ ps →
  wp (redirect_op (p_byte ps)) ps (λ r ps', ps' = ps ∧ ∀ op len, r = Some (op, len) → 0 < len ∧ p_rest ps ≠ []).
Proof.
  intros Hat. unfold redirect_op. apply wp_peek, wp_peek_at, wp_peek_at, wp_peek_at.
  assert (∀ (b : bool) op len (m : parser (option (RedirOp * nat))),
    (b = true → ∃ c, head (p_rest ps) = Some c) → 0 < len →
    wp m ps (λ r ps', ps' = ps ∧ ∀ op len, r = Some (op, len) → 0 < len ∧ p_rest ps ≠ []) →
    wp (if b then mret (Some (op, len)) else m) ps
      (λ r ps', ps' = ps ∧ ∀ op len, r = Some (op, len) → 0 < len ∧ p_rest ps ≠ [])) as Hif.
  { intros b op len m Hb Hlen Hm. destruct b; [|done]. apply wp_ret. split; [done|]. intros ? ? [= <- <-].
    split; [done|]. destruct (Hb eq_refl) as [c Hc]. by intros Hr; rewrite Hr in Hc. }
  assert (∀ (b : bool) message (m : parser (option (RedirOp * nat))) R,
    wp m ps R → wp (if b then fail_with (p_byte ps) message else m) ps R) as Hfail.
  { intros b message m R Hm. destruct b; [|done]. by apply wp_fail, at_boundary. }
  repeat first
    [ eapply Hfail
    | eapply Hif; [unfold is_char; rewrite ?andb_true_iff, ?bool_decide_eq_true; intros Hb; destruct_and?; eauto|lia|] ].
  apply wp_ret. by split.
Qed.

Lemma moved_progress n ps : 0 < n → p_rest ps ≠ [] → left (moved n ps) < left ps.
Proof. intros Hn Hr. unfold left, moved. simpl. rewrite length_drop. destruct (p_rest ps); [done|]. simpl. lia. Qed.

Lemma try_redirect_wp ps :
  at_ ps → left ps ≤ N →
  wp (try_redirect sub) ps (λ r ps', match r with
    | Some r => steps ps ps' ∧ left ps' < left ps ∧ redirect_ok piece sub_piece Q r
    | None => ps' = ps end).
Proof.
  intros Hat HN. unfold try_redirect. apply wp_byte_pos, wp_bind.
  eapply wp_mono; [by apply redirect_op_wp|]. intros r ps1 [-> Hr].
  destruct r as [[op len]|]; [|by apply wp_ret]. destruct (Hr op len eq_refl) as [Hlen Hne].
  apply wp_advance. pose proof (moved_progress _ _ Hlen Hne) as Hl. apply wp_bind.
  apply (wp_mono _ _ (λ target ps', steps (moved len ps) ps' ∧ match target with
    | Some w => wok w ∧ op ≠ ErrToOut ∧ op ≠ OutToErr | None => op = ErrToOut ∨ op = OutToErr end)).
  - case_decide as Hop; [apply wp_ret; auto using steps_refl|]. apply wp_skip_blank. intros ps2 H2. apply wp_peek.
    pose proof (steps_left _ _ H2).
    destruct (none_or_in _ _); [apply wp_fail; eauto using at_steps, at_boundary, steps_trans, steps_moved|].
    apply wp_bind. eapply wp_mono; [apply word_wp; [by eauto using at_steps, steps_trans, steps_moved|lia]|].
    intros w ps3 (? & ? & ?). apply wp_ret. split; [eauto using steps_trans|]. tauto.
  - intros target ps' [H' Ht]. apply wp_span_from, wp_ret. pose proof (steps_left _ _ H').
    assert (steps ps ps') by eauto using steps_trans, steps_moved.
    split_and!; [done|lia|]. split; [by apply at_piece|done].
Qed.

Lemma assign_name_ok t :
  assign_name true t `prefix_of` t ∧ (assign_name true t ≠ [] → ident (assign_name true t)).
Proof.
  assert (∀ t, assign_name false t `prefix_of` t ∧ Forall (λ c, is_ident_char c = true) (assign_name false t)) as Hrest.
  { induction t0 as [|c t0 [IH1 IH2]]; simpl; [split; [done|constructor]|].
    destruct (is_ident_start c || is_ascii_digit c) eqn:Hc; [|split; [apply prefix_nil|constructor]].
    split; [by apply prefix_cons|]. constructor; [|done]. unfold is_ident_char, is_ident_start in *. done. }
  destruct t as [|c t]; simpl; [done|]. rewrite orb_false_r.
  destruct (is_ident_start c) eqn:Hc; [|split; [apply prefix_nil|done]]. destruct (Hrest t) as [H1 H2].
  split; [by apply prefix_cons|]. intros _. split; [|by eexists _, _]. constructor; [|done].
  unfold is_ident_char, is_ident_start in *. by rewrite Hc.
Qed.

Lemma try_assign_wp ps :
  at_ ps → left ps ≤ N →
  wp (try_assign sub) ps (λ a ps', match a with
    | Some a => steps ps ps' ∧ left ps' < left ps ∧ assign_ok piece sub_piece Q a
    | None => ps' = ps end).
Proof.
  intros Hat HN. destruct (assign_name_ok (p_rest ps)) as [Hpre Hid]. set (name := assign_name true (p_rest ps)) in *.
  set (ps1 := moved (length name) ps). assert (steps ps ps1) as H1 by apply steps_moved. pose proof (steps_left _ _ H1).
  set (body := _ ← advance 1; c ← peek;
     value ← (if none_or_in (" ;|&" +:+ NL +:+ TAB) c then
                at_ ← byte_pos; sp ← span_from at_; mret (mkWord [] sp)
              else word sub);
     sp ← span_from (p_byte ps); mret (Some (mkAssign name value sp))).
  assert (try_assign sub ps = if bool_decide (name = []) || negb (bool_decide (head (p_rest ps1) = Some (ch "=")))
    then Ok (None, ps) else body ps1) as Heq.
  { unfold try_assign. fold name. by rewrite (prefix_moved name (p_rest ps) (p_byte ps)); destruct ps. }
  destruct (_ || _) eqn:Hb; [by eapply (wp_same _ (mret None))|]. eapply wp_same; [done|].
  apply orb_false_iff in Hb as [Hne%bool_decide_eq_false Hc].
  apply negb_false_iff, bool_decide_eq_true in Hc. pose proof (head_left _ _ Hc) as Hl.
  apply wp_advance, wp_peek, wp_bind.
  apply (wp_mono _ _ (λ value ps', steps (moved 1 ps1) ps' ∧ value_ok piece sub_piece Q value)).
  - destruct (none_or_in _ _).
    + apply wp_byte_pos, wp_span_from, wp_ret. split; [apply steps_refl|]. split; [|by left].
      apply at_piece; [by eauto using at_steps, steps_moved|apply steps_refl].
    + eapply wp_mono; [apply word_wp; [by eauto using at_steps, steps_moved|lia]|].
      intros w ps' (? & ? & [? ?]). split; [done|]. split; [done|by right].
  - intros value ps' [H' Hv]. apply wp_span_from, wp_ret. pose proof (steps_left _ _ H').
    assert (steps ps ps') by eauto using steps_trans, steps_moved.
    split_and!; [done|lia|]. split_and!; [by apply at_piece|by apply Hid|done].
Qed.

(** ** Commands, pipelines and chains *)

Local Abbreviation cok := (command_ok piece sub_piece Q).

Definition elements_ok (e : list (Assign Program) * list (Word Program) * list (Redirect Program)) : Prop :=
  let '(asg, ws, rs) := e in
  Forall (assign_ok piece sub_piece Q) asg ∧ Forall wok ws ∧ Forall (redirect_ok piece sub_piece Q) rs ∧
  ∀ w, head ws = Some w → not_keyword w.

Lemma command_loop_wp n stop asg ws rs ps :
  at_ ps → left ps < n → left ps ≤ N → elements_ok (asg, ws, rs) →
  wp (command_loop sub n stop asg ws rs) ps
    (λ e ps', steps ps ps' ∧ elements_ok e ∧ (left ps' < left ps ∨ e = (asg, ws, rs))).
Proof.
  revert asg ws rs ps. induction n as [|n IH]; intros asg ws rs ps Hat Hn HN (Hasg & Hws & Hrs & Hkw); [lia|].
  cbn [command_loop]. apply wp_skip_blank. intros ps1 Hs1. apply wp_byte_pos, wp_peek, wp_peek_at.
  assert (at_ ps1) as Hat1 by eauto using at_steps. pose proof (steps_left _ _ Hs1) as Hl1.
  destruct (_ || _); [apply wp_ret; split_and!; [done..|by right]|].
  case_decide; [by apply wp_fail, at_boundary|].
  assert (∀ asg' ws' rs' ps2, steps ps1 ps2 → left ps2 < left ps1 → elements_ok (asg', ws', rs') →
    wp (command_loop sub n stop asg' ws' rs') ps2
      (λ e ps', steps ps ps' ∧ elements_ok e ∧ (left ps' < left ps ∨ e = (asg, ws, rs)))) as Hgo.
  { intros asg' ws' rs' ps2 Hs2 Hl2 Hok. eapply wp_mono; [apply IH|]; [by eauto using at_steps|lia|lia|done|].
    intros e ps3 (Hs3 & He & _). pose proof (steps_left _ _ Hs3). split_and!; [|done|left; lia]. eauto using steps_trans. }
  apply wp_bind. eapply wp_mono; [apply try_redirect_wp; [done|lia]|]. intros [r|] ps2.
  { intros (Hs2 & Hl2 & Hr). apply Hgo; [done|done|]. split_and!; [done|done|by apply Forall_snoc|done]. }
  intros ->. apply wp_bind.
  apply (wp_mono _ _ (λ a ps', match a with
    | Some a => ws = [] ∧ steps ps1 ps' ∧ left ps' < left ps1 ∧ assign_ok piece sub_piece Q a | None => ps' = ps1 end)).
  { case_decide; [|by apply wp_ret]. eapply wp_mono; [apply try_assign_wp; [done|lia]|]. by intros [a|] ps2. }
  intros [a|] ps2.
  { intros (-> & Hs2 & Hl2 & Ha). apply Hgo; [done|done|]. split_and!; [by apply Forall_snoc|done..]. }
  intros ->. apply wp_bind. eapply wp_mono; [apply word_wp; [done|lia]|]. intros w ps2 (Hs2 & Hl2 & Hw).
  assert ((ws = [] → not_keyword w) → elements_ok (asg, ws ++ [w], rs)) as Hadd.
  { intros Hnk. split_and!; [done|by apply Forall_snoc|done|]. destruct ws; [intros w' [= <-]; auto|]. apply Hkw. }
  unfold not_keyword, unquoted_literal in *.
  destruct (parts w) as [|[t []| |] []]; try (by apply Hgo; auto).
  case_decide as Hk; [apply wp_fail; eauto using at_boundary, at_steps|]. apply Hgo; [done|done|].
  apply Hadd. intros Hnil Hin. by destruct Hk.
Qed.

Lemma command_wp stop ps :
  at_ ps → left ps ≤ N → wp (command sub stop) ps (λ c ps', steps ps ps' ∧ left ps' < left ps ∧ cok c).
Proof.
  intros Hat HN. unfold command. apply wp_skip_blank. intros ps1 Hs1. apply wp_byte_pos, wp_chars_left, wp_bind.
  pose proof (steps_left _ _ Hs1).
  eapply wp_mono; [apply command_loop_wp; [by eauto using at_steps|lia|lia|]|].
  { by split_and!. }
  intros [[asg ws] rs] ps2 (Hs2 & (Ha & Hw & Hr & Hk) & Hl).
  destruct (bool_decide (asg = []) && _ && _) eqn:Hb; [apply wp_fail; eauto using at_boundary, at_steps, steps_trans|].
  assert (¬ (asg = [] ∧ ws = [] ∧ rs = [])) as Hne.
  { intros (-> & -> & ->). by simpl in Hb. }
  apply wp_span_from, wp_ret. split_and!; [eauto using steps_trans| |].
  - destruct Hl as [Hl|[= -> -> ->]]; [lia|]. by destruct Hne.
  - split_and!; try done. eapply (at_piece_between ps); eauto.
Qed.

Lemma pipeline_loop_wp n stop cs ps :
  at_ ps → left ps < n → left ps ≤ N → Forall cok cs → cs ≠ [] →
  wp (pipeline_loop sub n stop cs) ps (λ cs' ps', steps ps ps' ∧ Forall cok cs' ∧ cs' ≠ []).
Proof.
  revert cs ps. induction n as [|n IH]; intros cs ps Hat Hn HN Hcs Hne; [lia|]. cbn [pipeline_loop].
  apply wp_skip_blank. intros ps1 Hs1. apply wp_peek, wp_peek_at.
  assert (at_ ps1) as Hat1 by eauto using at_steps. pose proof (steps_left _ _ Hs1) as Hl1.
  case_decide as Hc; [|by apply wp_ret]. apply head_left in Hc.
  case_decide; [by apply wp_ret|]. case_decide; [by apply wp_byte_pos, wp_fail, at_boundary|].
  apply wp_advance, wp_blank_lines. intros ps2 Hs2. pose proof (steps_left _ _ Hs2).
  assert (steps ps ps2) by eauto using steps_trans, steps_moved. apply wp_bind.
  eapply wp_mono; [apply command_wp; [by eauto using at_steps|lia]|]. intros c ps3 (Hs3 & Hl3 & Hok).
  eapply wp_mono; [apply IH|]; [by eauto using at_steps, steps_trans|lia|lia|by apply Forall_snoc| |].
  - by intros [? ?]%app_eq_nil.
  - intros cs' ps' (? & ? & ?). split_and!; [|done..]. eauto using steps_trans.
Qed.

Local Abbreviation plok := (pipeline_ok piece sub_piece Q).

Lemma pipeline_wp stop ps :
  at_ ps → left ps ≤ N → wp (pipeline sub stop) ps (λ p ps', steps ps ps' ∧ left ps' < left ps ∧ plok p).
Proof.
  intros Hat HN. unfold pipeline. apply wp_skip_blank. intros ps1 Hs1. apply wp_byte_pos, wp_chars_left, wp_bind.
  pose proof (steps_left _ _ Hs1).
  eapply wp_mono; [apply command_wp; [by eauto using at_steps|lia]|]. intros c ps2 (Hs2 & Hl2 & Hc). apply wp_bind.
  eapply wp_mono; [apply pipeline_loop_wp; [by eauto using at_steps, steps_trans|lia|lia|by apply Forall_singleton|done]|].
  intros cs ps3 (Hs3 & Hcs & Hne). pose proof (steps_left _ _ Hs3). apply wp_span_from, wp_ret.
  split_and!; [eauto using steps_trans|lia|]. split_and!; [|done..]. eapply (at_piece_between ps); eauto using steps_trans.
Qed.

Lemma and_or_loop_wp n stop tails ps :
  at_ ps → left ps < n → left ps ≤ N → Forall (λ t, plok (t_pipeline t)) tails →
  wp (and_or_loop sub n stop tails) ps (λ tails' ps', steps ps ps' ∧ Forall (λ t, plok (t_pipeline t)) tails').
Proof.
  revert tails ps. induction n as [|n IH]; intros tails ps Hat Hn HN Htails; [lia|]. cbn [and_or_loop].
  apply wp_skip_blank. intros ps1 Hs1. apply wp_peek, wp_peek_at.
  assert (at_ ps1) as Hat1 by eauto using at_steps. pose proof (steps_left _ _ Hs1) as Hl1.
  assert (∀ k, p_rest ps1 ≠ [] → wp (_ ← advance 2; _ ← skip_blank_and_newlines; p ← pipeline sub stop;
    and_or_loop sub n stop (tails ++ [mkTail k p])) ps1
    (λ tails' ps', steps ps ps' ∧ Forall (λ t, plok (t_pipeline t)) tails')) as Hgo.
  { intros k Hne. apply wp_advance, wp_blank_lines. intros ps2 Hs2. pose proof (steps_left _ _ Hs2).
    pose proof (moved_progress 2 ps1 ltac:(lia) Hne).
    assert (steps ps ps2) by eauto using steps_trans, steps_moved. apply wp_bind.
    eapply wp_mono; [apply pipeline_wp; [by eauto using at_steps|lia]|]. intros p ps3 (Hs3 & Hl3 & Hok).
    eapply wp_mono; [apply IH|]; [by eauto using at_steps, steps_trans|lia|lia|by apply Forall_snoc|].
    intros tails' ps' (? & ?). split_and!; [|done..]. eauto using steps_trans. }
  case_decide as Hc; [apply Hgo; by destruct (p_rest ps1); destruct Hc|].
  case_decide as Hc'; [apply Hgo; by destruct (p_rest ps1); destruct Hc'|]. by apply wp_ret.
Qed.

Lemma and_or_wp stop ps :
  at_ ps → left ps ≤ N →
  wp (and_or sub stop) ps (λ a ps', steps ps ps' ∧ left ps' < left ps ∧ and_or_ok piece sub_piece Q a).
Proof.
  intros Hat HN. unfold and_or. apply wp_skip_blank. intros ps1 Hs1. apply wp_byte_pos, wp_chars_left, wp_bind.
  pose proof (steps_left _ _ Hs1).
  eapply wp_mono; [apply pipeline_wp; [by eauto using at_steps|lia]|]. intros p ps2 (Hs2 & Hl2 & Hp). apply wp_bind.
  eapply wp_mono; [apply and_or_loop_wp; [by eauto using at_steps, steps_trans|lia|lia|constructor]|].
  intros tails ps3 (Hs3 & Ht). pose proof (steps_left _ _ Hs3). apply wp_span_from, wp_ret.
  split_and!; [eauto using steps_trans|lia|]. split_and!; [|done..]. eapply (at_piece_between ps); eauto using steps_trans.
Qed.

Lemma item_wp stop ps :
  at_ ps → left ps ≤ N →
  wp (item sub stop) ps (λ i ps', steps ps ps' ∧ left ps' < left ps ∧ item_ok piece sub_piece Q i).
Proof.
  intros Hat HN. apply wp_bind. eapply wp_mono; [by apply and_or_wp|]. intros a ps1 (Hs1 & Hl1 & Ha).
  apply wp_skip_blank. intros ps2 Hs2. apply wp_peek, wp_peek_at. pose proof (steps_left _ _ Hs2).
  assert (steps ps ps2) by eauto using steps_trans. assert (at_ ps2) by eauto using at_steps.
  assert (∀ b, wp (mret (mkItem a b)) ps2 (λ i ps', steps ps ps' ∧ left ps' < left ps ∧ item_ok piece sub_piece Q i)) as Hret.
  { intros b. apply wp_ret. split_and!; [done|lia|done]. }
  assert (∀ b, wp (_ ← advance 1; mret (mkItem a b)) ps2
    (λ i ps', steps ps ps' ∧ left ps' < left ps ∧ item_ok piece sub_piece Q i)) as Hadv.
  { intros b. apply wp_advance, wp_ret. pose proof (steps_left _ _ (steps_moved 1 ps2)).
    split_and!; [eauto using steps_trans, steps_moved|lia|done]. }
  case_decide; [apply Hadv|]. destruct (head (p_rest ps2)) as [x|]; [|apply Hret].
  repeat case_decide; try apply Hadv; try apply Hret; by apply wp_byte_pos, wp_fail, at_boundary.
Qed.

Lemma program_loop_wp n stop its ps :
  at_ ps → left ps < n → left ps ≤ N → Forall (item_ok piece sub_piece Q) its →
  wp (program_loop sub n stop its) ps
    (λ p ps', steps ps ps' ∧ Forall (item_ok piece sub_piece Q) (items p) ∧
       (head (p_rest ps') = None ∨ head (p_rest ps') = stop)).
Proof.
  revert its ps. induction n as [|n IH]; intros its ps Hat Hn HN Hits; [lia|]. cbn [program_loop].
  apply wp_blank_lines. intros ps1 Hs1. apply wp_peek. pose proof (steps_left _ _ Hs1).
  case_decide as Hc; [by apply wp_ret|]. apply wp_bind.
  eapply wp_mono; [apply item_wp; [by eauto using at_steps|lia]|]. intros i ps2 (Hs2 & Hl2 & Hi).
  eapply wp_mono; [apply IH|]; [by eauto using at_steps, steps_trans|lia|lia|by apply Forall_snoc|].
  intros p ps' (? & ?). split; [|done]. eauto using steps_trans.
Qed.
End recursive.
End words.

Lemma program_at_wp depth stop ps :
  at_ ps → left ps < depth →
  wp (program_at depth stop) ps (λ p ps', steps ps ps' ∧ program_ok piece sub_piece depth p ∧
    (head (p_rest ps') = None ∨ head (p_rest ps') = stop)).
Proof.
  revert stop ps. induction depth as [|depth IH]; intros stop ps Hat Hd; [lia|]. cbn [program_at].
  apply wp_chars_left. apply (program_loop_wp (program_ok piece sub_piece depth) _ (left ps)); [|done|lia|done|constructor].
  intros ps1 Hat1 Hl1. eapply wp_mono; [apply IH; [done|lia]|]. naive_solver.
Qed.
End source.

Lemma parse_cases src :
  ends (parse src) (λ p, program_ok (piece src) (sub_piece src) (S (length src)) p) (located src) ∧
  ∀ e, parse src = Err e → program_at (S (length src)) None (mkParser src 0) = Err e.
Proof.
  assert (at_ src (mkParser src 0)) as Hat by by exists [].
  pose proof (program_at_wp src (S (length src)) None (mkParser src 0) Hat ltac:(unfold left; simpl; lia)) as H.
  unfold wp in H. unfold parse. destruct (program_at _ _ _) as [[p ps]|e|] eqn:He; simpl in *; [|split; [done|]|done].
  - destruct H as (_ & Hp & Hh). destruct (p_rest ps); [|by destruct Hh]. by split.
  - by intros e' [= <-].
Qed.

Lemma parse_ok src :
  ends (parse src) (λ p, ∃ depth, program_ok (piece src) (sub_piece src) depth p) (located src).
Proof.
  eapply ends_weaken; [apply parse_cases| |done]. intros p Hp. by exists (S (length src)).
Qed.

(** C35. [parse] always answers: on no text does it panic or run out of rounds, and
    its final check never finds anything left.  A program it accepts is
    well-formed: every pipeline has a command, every command an element, and does
    not start with a keyword; literals are not empty but for empty quotes, hold
    no char of the shell's syntax unless quoted, and no two of them could be one;
    names are identifiers and indexes fit 64 bits.  Every span is a piece of the
    source, that of a command substitution its whole text.  An error points to
    a char of the source or just behind it. *)
Theorem parse_sound src :
  ends (parse src) (λ p, ∃ depth, program_ok (piece src) (sub_piece src) depth p) (located src) ∧
  ∀ e, parse src = Err e → program_at (S (length src)) None (mkParser src 0) = Err e.
Proof. split; [apply parse_ok|]. by apply parse_cases. Qed.
