(* ===== verification/PlumbPrint.v ===== *)
(** Every well-formed program of plumb can be written: a printer, whose text
    parses back to the program, spans aside. *)

From stdpp Require Import base gmap sets list strings.
From Stdlib Require Import Ascii.
From S2P Require Import Prelude Chars PlumbParse PlumbParseProps.

(** * Programs without their spans *)

Definition no_span : Span := mkSpan 0 0.

Section erase.
Context {P P' : Type} (f : P → P').

Definition erase_part (p : Part P) : Part P' :=
  match p with
  | Text t quoted => Text t quoted
  | Var name path _ => Var name path no_span
  | CommandSub p _ => CommandSub (f p) no_span
  end.
Definition erase_word (w : Word P) : Word P' := mkWord (erase_part <$> parts w) no_span.
Definition erase_assign (a : Assign P) : Assign P' := mkAssign (a_name a) (erase_word (a_value a)) no_span.
Definition erase_redirect (r : Redirect P) : Redirect P' :=
  mkRedirect (r_op r) (erase_word <$> r_target r) no_span.
Definition erase_command (c : Command P) : Command P' :=
  mkCommand (erase_assign <$> assigns c) (erase_word <$> words c) (erase_redirect <$> redirects c) no_span.
Definition erase_pipeline (p : Pipeline P) : Pipeline P' := mkPipeline (erase_command <$> commands p) no_span.
Definition erase_tail (t : AndOrTail P) : AndOrTail P' := mkTail (connector t) (erase_pipeline (t_pipeline t)).
Definition erase_and_or (a : AndOr P) : AndOr P' :=
  mkAndOr (erase_pipeline (first a)) (erase_tail <$> ao_rest a) no_span.
Definition erase_item (i : Item P) : Item P' := mkItem (erase_and_or (and_or_of i)) (background i).
End erase.

Fixpoint erase (p : Program) : Program := let 'mkProgram l := p in mkProgram (erase_item erase <$> l).

(** * The printer *)

Section print.
Context {P : Type} (pr : P → text).

(** A word starts with empty quotes, so that nothing in it is read as the start
    of a comment, an assignment or a redirection; every quoted char has its own
    quotes, and a literal dollar sign is cut off from what follows it. *)
Definition print_char (quoted : bool) (c : char) : text :=
  if quoted then if decide (c = ch "'") then [ch "\"; c] else [ch "'"; c; ch "'"]
  else if decide (c = ch "$") then [c; ch "\"; newline] else [c].

Definition print_index (i : Z) : text :=
  (if decide (i < 0)%Z then [ch "-"] else []) ++ print_nat (Z.abs_N i).

Definition print_seg (s : PathSeg) : text :=
  match s with
  | Index i => ch "[" :: print_index i ++ [ch "]"]
  | Field name => ch "." :: name
  end.

Definition print_part (p : Part P) : text :=
  match p with
  | Text t quoted => concat (print_char quoted <$> t)
  | Var name path _ =>
      if decide (name = chars_of "?") then chars_of "$?"
      else chars_of "${" ++ name ++ concat (print_seg <$> path) ++ [ch "}"]
  | CommandSub p _ => chars_of "$(" ++ pr p ++ [ch ")"]
  end.

Definition print_parts (l : list (Part P)) : text := concat (print_part <$> l).
Definition print_word (w : Word P) : text := ch "'" :: ch "'" :: print_parts (parts w).
Definition print_assign (a : Assign P) : text :=
  a_name a ++ ch "=" :: (if decide (parts (a_value a) = []) then [] else print_word (a_value a)).

Definition print_op (op : RedirOp) : text :=
  chars_of match op with
  | OutTrunc => ">" | OutAppend => ">>" | ErrTrunc => "2>" | ErrAppend => "2>>" | BothTrunc => "&>"
  | BothAppend => "&>>" | In => "<" | ErrToOut => "2>&1" | OutToErr => ">&2"
  end%string.
Definition print_redirect (r : Redirect P) : text :=
  print_op (r_op r) ++ from_option print_word [] (r_target r).

Definition spaced {A} (print : A → text) (l : list A) : text := concat ((λ x, print x ++ [ch " "]) <$> l).

Definition print_command (c : Command P) : text :=
  spaced print_assign (assigns c) ++ spaced print_word (words c) ++ spaced print_redirect (redirects c).

(** The commands behind the first, the chain behind the first pipeline. *)
Definition print_pipeline (p : Pipeline P) : text :=
  match commands p with
  | [] => []
  | c :: cs => print_command c ++ concat ((λ c, chars_of "| " ++ print_command c) <$> cs)
  end.
Definition print_tail (t : AndOrTail P) : text :=
  chars_of match connector t with And => "&& " | Or => "|| " end%string ++ print_pipeline (t_pipeline t).
Definition print_and_or (a : AndOr P) : text := print_pipeline (first a) ++ concat (print_tail <$> ao_rest a).
Definition print_item (i : Item P) : text :=
  print_and_or (and_or_of i) ++ [if background i then ch "&" else ch ";"].
End print.

Fixpoint print_program (p : Program) : text := let 'mkProgram l := p in spaced (print_item print_program) l.

(** * Reading what was printed *)

(** [m] consumes exactly [t] in front of [rest], with a result in [Q]. *)
Definition eats {A} (m : parser A) (t rest : text) (Q : A → Prop) : Prop :=
  ∀ b, ∃ a b', m (mkParser (t ++ rest) b) = Ok (a, mkParser rest b') ∧ Q a.

Lemma eats_bind {A B} (m : parser A) (k : A → parser B) t1 t2 rest Q1 Q2 :
  eats m t1 (t2 ++ rest) Q1 → (∀ a, Q1 a → eats (k a) t2 rest Q2) → eats (m ≫= k) (t1 ++ t2) rest Q2.
Proof.
  intros H1 H2 b. destruct (H1 b) as (a & b1 & Hm & Ha). destruct (H2 a Ha b1) as (a' & b2 & Hk & Ha').
  exists a', b2. split; [|done]. unfold mbind, parser_bind. by rewrite <- (assoc_L (++)), Hm.
Qed.

Lemma eats_mono {A} (m : parser A) t rest (Q Q' : A → Prop) :
  eats m t rest Q → (∀ a, Q a → Q' a) → eats m t rest Q'.
Proof. intros H HQ b. destruct (H b) as (a & b' & ? & ?). exists a, b'. auto. Qed.

Lemma eats_ret {A} (a : A) rest (Q : A → Prop) : Q a → eats (mret a) [] rest Q.
Proof. intros HQ b. by exists a, b. Qed.

Lemma eats_peek {A} (k : option char → parser A) t rest Q :
  eats (k (head (t ++ rest))) t rest Q → eats (peek ≫= k) t rest Q.
Proof. done. Qed.

Lemma eats_peek_at {A} n (k : option char → parser A) t rest Q :
  eats (k ((t ++ rest) !! n)) t rest Q → eats (peek_at n ≫= k) t rest Q.
Proof. done. Qed.

Lemma eats_byte_pos {A} (k : nat → parser A) t rest Q : (∀ b, eats (k b) t rest Q) → eats (byte_pos ≫= k) t rest Q.
Proof. intros H b. apply H. Qed.

Lemma eats_span_from {A} start (k : Span → parser A) t rest Q :
  (∀ sp, eats (k sp) t rest Q) → eats (span_from start ≫= k) t rest Q.
Proof. intros H b. apply H. Qed.

Lemma eats_chars_left {A} (k : nat → parser A) t rest Q :
  eats (k (length (t ++ rest))) t rest Q → eats (chars_left ≫= k) t rest Q.
Proof. done. Qed.

Lemma eats_advance {A} (k : () → parser A) t1 t2 rest Q :
  eats (k ()) t2 rest Q → eats (advance (length t1) ≫= k) (t1 ++ t2) rest Q.
Proof.
  intros H b. unfold mbind, parser_bind, advance. simpl. rewrite <- (assoc_L (++)), drop_app_length. apply H.
Qed.

Lemma eats_advance1 {A} (k : () → parser A) c t rest Q : eats (k ()) t rest Q → eats (advance 1 ≫= k) (c :: t) rest Q.
Proof. apply (eats_advance k [c]). Qed.

Lemma eats_bump {A} (k : option char → parser A) c t rest Q :
  eats (k (Some c)) t rest Q → eats (bump ≫= k) (c :: t) rest Q.
Proof. intros H b. apply H. Qed.

Lemma prefix_while_app p name t :
  Forall (λ c, p c = true) name → (∀ c, head t = Some c → p c = false) → prefix_while p (name ++ t) = name.
Proof.
  intros H Ht. induction H as [|c name Hc _ IH]; simpl; [|by rewrite Hc, IH].
  destruct t as [|c t]; [done|]. simpl. by rewrite (Ht c eq_refl).
Qed.

Lemma eats_take_while {A} p (k : text → parser A) name t rest Q :
  Forall (λ c, p c = true) name → (∀ c, head (t ++ rest) = Some c → p c = false) →
  eats (k name) t rest Q → eats (take_while p ≫= k) (name ++ t) rest Q.
Proof.
  intros Hn Ht H b. unfold mbind, parser_bind, take_while. cbn [p_rest p_byte].
  rewrite <- (assoc_L (++)), prefix_while_app, drop_app_length by done. apply H.
Qed.

(** ** Blanks *)

Definition fresh (t : text) : Prop := ∀ c, head t = Some c → c ∉ [ch " "; ch "009"; ch "#"; ch "\"].

Lemma skip_blank_fresh t b : fresh t → skip_blank_from false t b = mkParser t b.
Proof.
  intros H. destruct t as [|c t]; [done|]. specialize (H c eq_refl). rewrite !not_elem_of_cons in H. simpl.
  rewrite !decide_False by tauto. done.
Qed.

Lemma eats_skip_blank {A} (k : () → parser A) t rest Q :
  fresh (t ++ rest) → eats (k ()) t rest Q → eats (skip_blank ≫= k) t rest Q.
Proof. intros Hf H b. unfold mbind, parser_bind, skip_blank. cbn [p_rest p_byte]. rewrite skip_blank_fresh by done. apply H. Qed.

Lemma eats_skip_space {A} (k : () → parser A) t rest Q :
  fresh (t ++ rest) → eats (k ()) t rest Q → eats (skip_blank ≫= k) (ch " " :: t) rest Q.
Proof.
  intros Hf H b. unfold mbind, parser_bind, skip_blank. cbn [p_rest p_byte].
  change (skip_blank_from false ((ch " " :: t) ++ rest) b) with (skip_blank_from false (t ++ rest) (b + 1)).
  rewrite skip_blank_fresh by done. apply H.
Qed.

(** Before what is not a newline, blank lines are blanks. *)
Lemma eats_blank_lines {A} (k : () → parser A) sp t rest Q :
  sp = [] ∨ sp = [ch " "] → fresh (t ++ rest) → head (t ++ rest) ≠ Some newline →
  eats (k ()) t rest Q → eats (skip_blank_and_newlines ≫= k) (sp ++ t) rest Q.
Proof.
  intros Hsp Hf Hnl H b. unfold skip_blank_and_newlines.
  change (∃ a b', ((n ← chars_left; blank_lines_loop (S n)) ≫= k) (mkParser ((sp ++ t) ++ rest) b) =
    Ok (a, mkParser rest b') ∧ Q a).
  assert (∃ b1, skip_blank_from false ((sp ++ t) ++ rest) b = mkParser (t ++ rest) b1) as [b1 Hb1].
  { destruct Hsp as [->| ->]; simpl app; [|change (skip_blank_from false (ch " " :: t ++ rest) b) with
      (skip_blank_from false (t ++ rest) (b + 1))]; rewrite skip_blank_fresh by done; by eexists. }
  destruct (H b1) as (a & b' & Hk & Ha). exists a, b'. split; [|done].
  unfold mbind, parser_bind, chars_left. cbn [blank_lines_loop]. unfold mbind, parser_bind, skip_blank, peek.
  cbn [p_rest p_byte]. rewrite Hb1. cbn [p_rest]. rewrite decide_False by done. apply Hk.
Qed.

(** ** Numbers and paths *)

Lemma parse_print_nat n : (n < 2 ^ 63)%N → parse_i64 (print_nat n) = Some (Z.of_N n).
Proof.
  intros Hn. destruct (print_nat_ok n) as (Hv & _ & Hne). unfold parse_i64. rewrite Hv.
  rewrite decide_False by done. rewrite decide_True by lia. done.
Qed.

Lemma digit_head n : ∃ c t, print_nat n = c :: t ∧ is_ascii_digit c = true.
Proof.
  destruct (print_nat_ok n) as (_ & Hd & Hne). destruct (print_nat n) as [|c t]; [done|].
  apply Forall_cons in Hd as [? _]. by eexists _, _.
Qed.

(** What ends a name in braces. *)
Lemma path_head (path : list PathSeg) t c :
  head (concat (print_seg <$> path) ++ ch "}" :: t) = Some c → is_ident_char c = false.
Proof. destruct path as [|[] path]; simpl; by intros [= <-]. Qed.

Lemma eats_braced_path path path0 n start rest :
  Forall seg_ok path → length path < n →
  eats (braced_path n start path0) (concat (print_seg <$> path)) (ch "}" :: rest) (λ path', path' = path0 ++ path).
Proof.
  intros Hok. revert path0 n. induction Hok as [|s path Hs _ IH]; intros path0 n Hn; (destruct n as [|n]; [simpl in Hn; lia|]).
  { cbn [braced_path]. apply eats_peek. apply eats_ret. by rewrite app_nil_r. }
  simpl in Hn. cbn [braced_path fmap list_fmap concat].
  assert (eats (braced_path n start (path0 ++ [s])) (concat (print_seg <$> path)) (ch "}" :: rest)
    (λ path', path' = path0 ++ s :: path)) as Hgo.
  { eapply eats_mono; [apply IH; lia|]. intros path' ->. by rewrite <- (assoc_L (++)). }
  apply eats_peek. destruct s as [i|name]; cbn [print_seg app head].
  - rewrite decide_True by done. apply eats_advance1, eats_peek. unfold print_index. rewrite <- !(assoc_L (++)). destruct Hs as [Hlo Hhi].
    destruct (digit_head (Z.abs_N i)) as (d & ds & Hd & Hdigit).
    assert (head (ch "]" :: concat (print_seg <$> path) ++ ch "}" :: rest) = Some (ch "]")) as Hclose by done.
    case_decide.
    + cbn [app head]. rewrite bool_decide_eq_true_2 by done. apply eats_advance1.
      apply eats_take_while; [apply print_nat_ok|by intros ? [= <-]|]. apply eats_peek.
      rewrite parse_print_nat by lia. rewrite bool_decide_eq_true_2 by done. apply eats_advance1.
      replace (- Z.of_N (Z.abs_N i))%Z with i by lia. apply Hgo.
    + rewrite Hd. cbn [app head]. rewrite bool_decide_eq_false_2 by (intros [= ->]; by vm_compute in Hdigit).
      change (mret () ≫= ?k) with (k ()). rewrite (app_comm_cons ds _ d), <- Hd.
      apply eats_take_while; [apply print_nat_ok|by intros ? [= <-]|]. apply eats_peek.
      rewrite parse_print_nat by lia. rewrite bool_decide_eq_true_2 by done. apply eats_advance1.
      replace (Z.of_N (Z.abs_N i)) with i by lia. apply Hgo.
  - rewrite decide_False, decide_True by done. apply eats_advance1. destruct Hs as [Hne Hs].
    apply eats_take_while; [done|by apply path_head|]. rewrite decide_False by done. apply Hgo.
Qed.

(** ** Words *)

(** What an accumulator has after reading [t] as one literal. *)
Definition push_all (quoted : bool) (t : text) (acc : WordAcc) : WordAcc := foldl (λ acc c, push c quoted acc) acc t.

Lemma push_all_closed quoted t acc :
  t ≠ [] → (∀ p, last (closed acc) = Some p → ¬ is_text quoted p) →
  closed (push_all quoted t acc) = closed acc ++ [Text t quoted].
Proof.
  intros Hne Hl. induction t as [|c t IH] using rev_ind; [done|]. unfold push_all in *. rewrite foldl_snoc.
  rewrite closed_push. destruct (decide (t = [])) as [->|Ht].
  - simpl. case_decide as Hp; [|done]. destruct Hp as [Hp Hq]. rewrite closed_flush, decide_False in Hl by done.
    destruct (Hl (Text (pending acc) (pending_quoted acc))); [by rewrite last_snoc|done].
  - specialize (IH Ht). assert (pending (foldl (λ acc c, push c quoted acc) acc t) = t ∧
      acc_parts (foldl (λ acc c, push c quoted acc) acc t) = closed acc ∧
      pending_quoted (foldl (λ acc c, push c quoted acc) acc t) = quoted) as (Hpend & Hparts & Hpq).
    { rewrite closed_flush in IH. case_decide as Hp.
      - exfalso. destruct t as [|d t] using rev_ind; [done|]. rewrite foldl_snoc in Hp. unfold push in Hp. simpl in Hp.
        by apply app_eq_nil in Hp as [_ ?].
      - apply app_inj_tail in IH as [-> [= -> ->]]. done. }
    rewrite decide_True, Hpend, Hparts by (by rewrite Hpend). done.
Qed.

Lemma push_saw c quoted acc : saw_quotes (push c quoted acc) = saw_quotes acc.
Proof. unfold push, flush. destruct (_ && _); [|done]. by destruct (pending acc). Qed.

Lemma push_all_saw quoted t acc : saw_quotes (push_all quoted t acc) = saw_quotes acc.
Proof. revert acc. induction t as [|c t IH]; intros acc; simpl; [done|]. by rewrite IH, push_saw. Qed.

Lemma push_part_saw p acc : saw_quotes (push_part p acc) = saw_quotes acc.
Proof. unfold push_part, flush. by destruct (pending acc). Qed.

Lemma closed_nonempty acc : closed acc ≠ [] → acc_is_empty acc = false.
Proof.
  intros H. unfold acc_is_empty. apply bool_decide_eq_false. intros [Hp Hn]. apply H. rewrite closed_flush.
  by rewrite Hp, Hn.
Qed.

Section words.
Context (sub : parser Program) (pr : Program → text) (er : Program → Program) (N : nat) (Q : Program → Prop).
Context (sub_reads : ∀ p rest, Q p → length (pr p) < N → eats sub (pr p) (ch ")" :: rest) (λ p', er p' = er p)).
Context (pr_head : ∀ p, Q p → head (pr p) ≠ Some (ch "(")).

Local Abbreviation ep := (erase_part er).
Local Abbreviation pok := (part_ok (λ _, True) (λ _, True) Q).

(** The end of a word. *)
Definition ends_word (t : text) : Prop := none_or_in (" ;|&<>)" +:+ NL +:+ TAB) (head t) = true.

Lemma word_loop_end n start acc rest :
  0 < n → ends_word rest → eats (word_loop sub n start acc) [] rest (λ acc', acc' = acc).
Proof.
  intros Hn He. destruct n as [|n]; [lia|]. cbn [word_loop]. apply eats_peek, eats_byte_pos. intros b.
  unfold ends_word in He. simpl app. destruct (head rest) as [c|]; [|by apply eats_ret].
  simpl in He. apply bool_decide_eq_true in He. rewrite decide_True by done. by apply eats_ret.
Qed.

Lemma word_loop_char n start acc c t rest R :
  unquoted_char c → c ≠ ch "$" → ¬ (c = ch "~" ∧ acc_is_empty acc = true) →
  eats (word_loop sub n start (push c false acc)) t rest R → eats (word_loop sub (S n) start acc) (c :: t) rest R.
Proof.
  intros [Hc1 Hc2] Hd Ht H. rewrite !not_elem_of_cons in Hc2. cbn [word_loop]. apply eats_peek, eats_byte_pos. intros b. cbn [app head].
  rewrite !decide_False by tauto. destruct (bool_decide (c = ch "~") && _) eqn:E.
  - apply andb_true_iff in E as [E%bool_decide_eq_true ?]. tauto.
  - by apply eats_advance1.
Qed.

Lemma saw_quotes_id acc : saw_quotes acc = true → set_saw_quotes acc = acc.
Proof. destruct acc. unfold set_saw_quotes. simpl. by intros ->. Qed.

Lemma word_loop_quoted n start acc c t rest R :
  saw_quotes acc = true → eats (word_loop sub n start (push c true acc)) t rest R →
  eats (word_loop sub (S n) start acc) (print_char true c ++ t) rest R.
Proof.
  intros Hsaw H. cbn [word_loop]. apply eats_peek, eats_byte_pos. intros b. unfold print_char. case_decide as Hc.
  - subst c. cbn [app head]. rewrite decide_False by (apply (bool_decide_unpack _); by vm_compute).
    rewrite !decide_False by (first [done | by intros [?|?]]). rewrite decide_True by done.
    apply eats_advance1, eats_bump. by rewrite decide_False by done.
  - cbn [app head]. rewrite decide_False by (apply (bool_decide_unpack _); by vm_compute).
    rewrite !decide_False by (first [done | by intros [?|?]]). rewrite decide_True by done.
    change (ch "'" :: c :: ch "'" :: t) with ([ch "'"; c; ch "'"] ++ t).
    eapply (eats_bind _ _ _ _ _ (λ acc', acc' = push c true acc)); [|by intros ? ->].
    unfold single_quoted. apply eats_byte_pos. intros b'. apply eats_advance1, eats_chars_left. rewrite saw_quotes_id by done.
    cbn [single_quoted_loop length app]. apply eats_bump. rewrite decide_False by done.
    apply eats_bump. rewrite decide_True by done. by apply eats_ret.
Qed.

Lemma word_loop_dollar n start acc t1 t2 rest R Q1 :
  head t1 = Some (ch "$") → eats (dollar sub acc) t1 (t2 ++ rest) Q1 →
  (∀ acc' (emitted : bool), Q1 (acc', emitted) →
     eats (word_loop sub n start (if emitted then acc' else push (ch "$") false acc')) t2 rest R) →
  eats (word_loop sub (S n) start acc) (t1 ++ t2) rest R.
Proof.
  intros Hh H1 H2. cbn [word_loop]. apply eats_peek, eats_byte_pos. intros b.
  assert (head ((t1 ++ t2) ++ rest) = Some (ch "$")) as -> by (by destruct t1).
  rewrite decide_False by (apply (bool_decide_unpack _); by vm_compute).
  rewrite !decide_False by (first [done | by intros [?|?]]). rewrite decide_True by done.
  eapply eats_bind; [exact H1|]. intros [acc' emitted] HQ. by apply H2.
Qed.

Lemma word_loop_continued n start acc t rest R :
  eats (word_loop sub n start acc) t rest R → eats (word_loop sub (S n) start acc) (ch "\" :: newline :: t) rest R.
Proof.
  intros H. cbn [word_loop]. apply eats_peek, eats_byte_pos. intros b. cbn [app head].
  rewrite decide_False by (apply (bool_decide_unpack _); by vm_compute).
  rewrite !decide_False by (first [done | by intros [?|?]]). rewrite decide_True by done.
  apply eats_advance1, eats_bump. by rewrite decide_True by done.
Qed.

(** A dollar sign cut off from what follows is a literal. *)
Lemma dollar_literal acc t rest :
  eats (dollar sub acc) [ch "$"] (ch "\" :: t ++ rest) (λ r, r = (acc, false)).
Proof.
  unfold dollar. apply eats_byte_pos. intros b. apply eats_peek_at, eats_peek_at. cbn [app lookup list_lookup].
  rewrite !decide_False by done. cbn. apply eats_advance1. by apply eats_ret.
Qed.

Lemma word_loop_unquoted n start acc c t rest R :
  unquoted_char c → ¬ (c = ch "~" ∧ acc_is_empty acc = true) → length (print_char false c ++ t) < n →
  (∀ n, length t < n → eats (word_loop sub n start (push c false acc)) t rest R) →
  eats (word_loop sub n start acc) (print_char false c ++ t) rest R.
Proof.
  intros Hc Ht Hn H. destruct n as [|n]; [lia|]. unfold print_char in *. destruct (decide (c = ch "$")) as [->|Hd].
  - change ([ch "$"; ch "\"; newline] ++ t) with ([ch "$"] ++ ch "\" :: newline :: t).
    eapply word_loop_dollar; [done|apply (dollar_literal acc (newline :: t) rest)|]. intros acc' emitted [= -> ->].
    simpl in Hn. destruct n as [|n]; [lia|]. apply word_loop_continued, H. lia.
  - apply word_loop_char; [done..|]. apply H. simpl in Hn. lia.
Qed.

(** A literal. *)
Lemma word_loop_text n start acc quoted t t2 rest R :
  (quoted = false → Forall unquoted_char t ∧ (acc_is_empty acc = true → head t ≠ Some (ch "~"))) →
  saw_quotes acc = true → length (concat (print_char quoted <$> t) ++ t2) < n →
  (∀ n, length t2 < n → eats (word_loop sub n start (push_all quoted t acc)) t2 rest R) →
  eats (word_loop sub n start acc) (concat (print_char quoted <$> t) ++ t2) rest R.
Proof.
  intros Ht Hsaw Hn H. revert n acc Ht Hsaw Hn H. induction t as [|c t IH]; intros n acc Ht Hsaw Hn H; [by apply H|].
  cbn [fmap list_fmap concat] in *. rewrite <- (assoc_L (++)) in *.
  assert (∀ n, length (concat (print_char quoted <$> t) ++ t2) < n →
    eats (word_loop sub n start (push c quoted acc)) (concat (print_char quoted <$> t) ++ t2) rest R) as Hgo.
  { intros n' Hn'. apply IH; [|by rewrite push_saw|done|done]. intros Hq. destruct (Ht Hq) as [Hu _].
    apply Forall_cons in Hu as [_ Hu]. split; [done|]. intros He. unfold acc_is_empty, push in He.
    apply bool_decide_eq_true in He as [_ He]. simpl in He. by apply app_eq_nil in He as [_ ?]. }
  destruct quoted.
  - destruct n as [|n]; [lia|]. apply word_loop_quoted; [done|]. apply Hgo. rewrite length_app in Hn.
    unfold print_char in Hn at 1. case_decide; simpl in Hn; lia.
  - destruct (Ht eq_refl) as [Hu Htilde]. apply Forall_cons in Hu as [Hc Hu].
    apply word_loop_unquoted; [done| |done|done]. intros [-> He]. by apply Htilde.
Qed.

(** References and substitutions. *)
Lemma dollar_part acc p rest :
  pok p → (∀ quoted, ¬ is_text quoted p) → length (print_part pr p) ≤ N →
  eats (dollar sub acc) (print_part pr p) rest (λ r, ∃ p', r = (push_part p' acc, true) ∧ ep p' = ep p).
Proof.
  intros Hok Ht HN. destruct p as [t q|name path sp|p sp]; [by destruct (Ht q)|..]; unfold dollar;
    apply eats_byte_pos; intros b; apply eats_peek_at, eats_peek_at.
  - destruct Hok as (_ & Hpath & Hname). unfold print_part. destruct (decide (name = chars_of "?")) as [->|Hq].
    { assert (path = []) as ->.
      { destruct Hname as [[_ (c & r & [= <- <-] & Hs)]|[_ ->]]; [by vm_compute in Hs|done]. }
      cbn [app lookup list_lookup chars_of]. rewrite !decide_False by done. rewrite decide_True by done.
      apply (eats_advance _ (chars_of "$?") []), eats_span_from. intros sp'. apply eats_ret. by eexists. }
    destruct Hname as [[Hname (c & r & -> & Hs)]|[-> _]]; [|done].
    change (chars_of "${" ++ ?t) with (ch "$" :: ch "{" :: t). cbn [app lookup list_lookup].
    rewrite !decide_False by done. rewrite decide_True by done.
    apply (eats_advance _ [ch "$"; ch "{"]). unfold braced, ident_run.
    change (c :: r ++ ?t) with ((c :: r) ++ t). apply eats_take_while; [done|..].
    { intros d. rewrite <- (assoc_L (++)). apply path_head. }
    assert (bool_decide (c :: r = []) || existsb is_ascii_digit (take 1 (c :: r)) = false) as ->.
    { simpl. rewrite orb_false_r. unfold is_ident_start, is_ascii_alphabetic, is_ascii_digit in *.
      apply orb_true_iff in Hs as [->%bool_decide_eq_true|Hs]; [done|].
      rewrite orb_true_iff, !in_range_spec in Hs. rewrite in_range_false. lia. }
    apply eats_chars_left.
    eapply (eats_bind _ _ _ _ _ (λ path', path' = path)).
    { apply (eats_braced_path path []); [done|]. rewrite <- (assoc_L (++)), length_app.
      assert (length path ≤ length (concat (print_seg <$> path))) as Hl; [|lia].
      clear. induction path as [|s path IH]; cbn [fmap list_fmap concat length]; [lia|]. rewrite length_app.
      destruct s; cbn [print_seg length]; lia. }
    intros ? ->. apply eats_peek. cbn [app head]. rewrite decide_True by done. apply eats_advance1, eats_span_from.
    intros sp'. apply eats_ret. by eexists.
  - destruct Hok as [_ HQ]. unfold print_part in *. change (chars_of "$(" ++ ?t) with (ch "$" :: ch "(" :: t) in *.
    cbn [app lookup list_lookup]. rewrite decide_True by done. rewrite decide_False.
    2:{ specialize (pr_head p HQ). destruct (pr p); [done|]. done. }
    apply (eats_advance _ [ch "$"; ch "("]). simpl in HN. rewrite length_app in HN.
    eapply eats_bind; [apply sub_reads; [done|simpl in HN; lia]|]. intros p' Hp. apply eats_bump.
    rewrite decide_True by done. apply eats_span_from. intros sp'. apply eats_ret. eexists. split; [done|].
    simpl. by rewrite Hp.
Qed.

(** The parts of a word. *)
Lemma word_loop_parts l n start acc rest :
  Forall pok l → alternating l → (acc_is_empty acc = true → no_tilde l) →
  (∀ t q l' p, l = Text t q :: l' → last (closed acc) = Some p → ¬ is_text q p) →
  saw_quotes acc = true → ends_word rest → length (print_parts pr l) ≤ N → length (print_parts pr l) < n →
  eats (word_loop sub n start acc) (print_parts pr l) rest
    (λ acc', ep <$> closed acc' = (ep <$> closed acc) ++ (ep <$> l) ∧ saw_quotes acc' = true).
Proof.
  intros Hok. revert n acc. induction Hok as [|p l Hp _ IH]; intros n acc Halt Htilde Hlast Hsaw Hend HN Hn.
  { eapply eats_mono; [apply word_loop_end; [simpl in Hn; lia|done]|]. intros ? ->. by rewrite app_nil_r. }
  assert (alternating l) as Halt' by (destruct p, l as [|[]]; simpl in Halt; tauto).
  unfold print_parts in *. cbn [fmap list_fmap concat] in *. rewrite length_app in *.
  assert ((∃ q, is_text q p) ∨ ∀ q, ¬ is_text q p) as [[q Hq]|Ht'].
  { destruct p; [left; by eexists|right; by intros ? []..]. }
  - destruct p as [t q'| |]; [|done..]. simpl in Hq. subst q'. destruct Hp as [Hne Hu]. cbn [print_part].
    apply word_loop_text; [|done|by rewrite length_app|].
    { intros ->. split; [auto|]. intros He. specialize (Htilde He). destruct t; [done|]. simpl in *. congruence. }
    intros n' Hn'. specialize (Hlast t q l). pose proof (push_all_closed q t acc Hne (λ p, Hlast p eq_refl)) as Hc.
    eapply eats_mono; [apply IH|]; try done.
    + intros He. rewrite closed_nonempty in He; [done|]. rewrite Hc. by intros [_ ?]%app_eq_nil.
    + intros t' q' l' p' -> Hp'. rewrite Hc, last_snoc in Hp'. injection Hp' as <-. simpl in *. intros ->. tauto.
    + by rewrite push_all_saw.
    + lia.
    + intros acc' [H1 H2]. split; [|done]. rewrite H1, Hc, fmap_app, <- (assoc_L (++)). done.
  - destruct n as [|n]; [lia|].
    eapply word_loop_dollar; [by destruct p as [t q| |]; [destruct (Ht' q)|simpl; case_decide|]|by apply dollar_part; [..|lia]|].
    intros acc' emitted (p' & [= -> ->] & He). pose proof (closed_push_part p' acc) as Hc.
    assert (0 < length (print_part pr p)) as Hpos.
    { destruct p as [t q| |]; [by destruct (Ht' q)|simpl; case_decide; simpl; lia|simpl; lia]. }
    eapply eats_mono; [apply IH|]; try done.
    + intros Hem. rewrite closed_nonempty in Hem; [done|]. rewrite Hc. by intros [_ ?]%app_eq_nil.
    + intros t' q' l' p'' -> Hp''. rewrite Hc, last_snoc in Hp''. injection Hp'' as <-.
      destruct p' as [t1 q1| |]; [|by intros []..]. destruct p; simplify_eq/=. by destruct (Ht' quoted).
    + by rewrite push_part_saw.
    + lia.
    + lia.
    + intros acc' [H1 H2]. split; [|done]. rewrite H1, Hc, fmap_app, <- (assoc_L (++)). cbn [fmap list_fmap app].
      by rewrite He.
Qed.

Lemma eats_empty_quotes n start R t rest :
  eats (word_loop sub n start (set_saw_quotes WordAcc_default)) t rest R →
  eats (word_loop sub (S n) start WordAcc_default) (ch "'" :: ch "'" :: t) rest R.
Proof.
  intros H. cbn [word_loop]. apply eats_peek, eats_byte_pos. intros b. cbn [app head].
  rewrite decide_False by (apply (bool_decide_unpack _); by vm_compute).
  rewrite !decide_False by (first [done | by intros [?|?]]). rewrite decide_True by done.
  change (ch "'" :: ch "'" :: t) with ([ch "'"; ch "'"] ++ t).
  eapply (eats_bind _ _ _ _ _ (λ acc', acc' = set_saw_quotes WordAcc_default)); [|by intros ? ->].
  unfold single_quoted. apply eats_byte_pos. intros b'. apply eats_advance1, eats_chars_left.
  cbn [single_quoted_loop length app]. apply eats_bump. rewrite decide_True by done. by apply eats_ret.
Qed.

Local Abbreviation wok := (word_ok (λ _, True) (λ _, True) Q).
Local Abbreviation ew := (erase_word er).

Lemma eats_word w rest :
  parts_ok (λ _, True) (λ _, True) Q (parts w) → ends_word rest → length (print_word pr w) ≤ N →
  eats (word sub) (print_word pr w) rest (λ w', ew w' = ew w).
Proof.
  intros Hw He HN. unfold word. apply eats_byte_pos. intros start. apply eats_chars_left. unfold print_word in *.
  rewrite <- (app_nil_r (_ :: _)). simpl in HN.
  eapply (eats_bind _ _ _ _ _ (λ acc, (closed acc = [] ∧ parts w = [Text [] true] ∨
    closed acc ≠ [] ∧ ep <$> closed acc = ep <$> parts w) ∧ saw_quotes acc = true)).
  - apply eats_empty_quotes. destruct Hw as [Hw|(Hne & Hok & Halt & Ht)].
    + rewrite Hw. eapply eats_mono; [apply word_loop_end; [simpl; lia|done]|]. intros acc ->. auto.
    + eapply eats_mono; [apply word_loop_parts; try done; [lia|cbn [app length]; rewrite !length_app; lia]|].
      intros acc [H1 H2]. split; [|done]. right. split; [|done]. intros Hc. rewrite Hc in H1. by destruct (parts w).
  - intros acc [Hc Hsaw] b. exists (mkWord (match closed acc with [] => [Text [] true] | l => l end) (mkSpan start b)), b.
    unfold acc_finish. fold (closed acc). assert (saw_quotes (flush acc) = true) as ->.
    { unfold flush. by destruct (pending acc). }
    unfold erase_word. destruct Hc as [[Hc Hw']|[Hc Hw']]; [by rewrite Hc, Hw'|].
    rewrite bool_decide_eq_false_2 by done. cbn [andb parts]. rewrite <- Hw'. by destruct (closed acc).
Qed.

(** ** Elements of a command *)

Local Abbreviation er_ := (erase_redirect er).
Local Abbreviation ea := (erase_assign er).
Local Abbreviation S_ := (λ _ : Span, True).

(** How an element of a command starts. *)
Definition element (t : text) : Prop :=
  fresh t ∧ ∃ c t', t = c :: t' ∧ c ∉ chars_of (";|()" +:+ NL) ∧ (c = ch "&" → head t' = Some (ch ">")).
(** What ends a command. *)
Definition stops (t : text) : Prop :=
  ∃ c t', t = c :: t' ∧ (c = ch ";" ∨ c = ch "|" ∨ c = ch "&" ∧ head t' ≠ Some (ch ">")).
Definition stop_ok (stop : option char) : Prop := stop = None ∨ stop = Some (ch ")").

Lemma stops_fresh t : stops t → fresh t.
Proof. intros (c & t' & -> & Hc) d [= <-]. destruct Hc as [->|[->|[-> _]]]; apply (bool_decide_unpack _); by vm_compute. Qed.

Lemma eats_skip {A} (k : () → parser A) sp t rest Q' :
  sp = [] ∨ sp = [ch " "] → fresh (t ++ rest) → eats (k ()) t rest Q' → eats (skip_blank ≫= k) (sp ++ t) rest Q'.
Proof. intros [->| ->]; [apply eats_skip_blank|apply eats_skip_space]. Qed.

(** What [command_loop] does with an element. *)
Definition command_element (n : nat) (stop : option char) (asg : list (Assign Program)) (ws : list (Word Program))
    (rs : list (Redirect Program)) (element_start : nat) :=
  redirect ← try_redirect sub;
  match redirect with
  | Some redirect => command_loop sub n stop asg ws (rs ++ [redirect])
  | None =>
      assign ← (if decide (ws = []) then try_assign sub else mret None);
      match assign with
      | Some assign => command_loop sub n stop (asg ++ [assign]) ws rs
      | None =>
          w ← word sub;
          match unquoted_literal w with
          | Some keyword =>
              if decide (ws = [] ∧ keyword ∈ KEYWORDS) then
                fail_with element_start (chars_of "unsupported: bash keyword `" ++ keyword ++ chars_of "`")
              else command_loop sub n stop asg (ws ++ [w]) rs
          | None => command_loop sub n stop asg (ws ++ [w]) rs
          end
      end
  end.

Lemma command_loop_element n stop asg ws rs sp t rest R :
  sp = [] ∨ sp = [ch " "] → stop_ok stop → element (t ++ rest) →
  (∀ b, eats (command_element n stop asg ws rs b) t rest R) →
  eats (command_loop sub (S n) stop asg ws rs) (sp ++ t) rest R.
Proof.
  intros Hsp Hstop (Hf & c & t' & Ht & Hc & Hamp) H. cbn [command_loop]. apply eats_skip; [done|done|].
  apply eats_byte_pos. intros b. apply eats_peek, eats_peek_at. rewrite Ht. cbn [head lookup list_lookup].
  assert (c ∉ chars_of (";|" +:+ NL) ∧ c ≠ ch "(" ∧ c ≠ ch ")") as (H1 & H2 & H3).
  { unfold chars_of, NL in *. cbn -[N_of_ascii] in *. repeat setoid_rewrite not_elem_of_cons in Hc.
    repeat setoid_rewrite not_elem_of_cons. tauto. }
  assert (none_or_in (";|" +:+ NL) (Some c) = false) as -> by by apply bool_decide_eq_false.
  rewrite bool_decide_eq_false_2 by (destruct Hstop as [->| ->]; congruence).
  rewrite bool_decide_eq_false_2 by (intros [[= ->] Hn]; apply Hn; specialize (Hamp eq_refl); by destruct t').
  rewrite decide_False by congruence. apply H.
Qed.

Lemma command_loop_end n stop asg ws rs sp rest :
  sp = [] ∨ sp = [ch " "] → 0 < n → stops rest →
  eats (command_loop sub n stop asg ws rs) sp rest (λ e, e = (asg, ws, rs)).
Proof.
  intros Hsp Hn Hstops. destruct n as [|n]; [lia|]. cbn [command_loop]. rewrite <- (app_nil_r sp).
  apply eats_skip; [done|by apply stops_fresh|]. apply eats_byte_pos. intros b. apply eats_peek, eats_peek_at. cbn [app].
  destruct Hstops as (c & t & -> & Hc). cbn [head lookup list_lookup].
  match goal with |- eats (if ?b then _ else _) _ _ _ => assert (b = true) as ->; [|by apply eats_ret] end.
  destruct Hc as [->|[->|[-> Hc]]]; [done..|]. apply orb_true_iff. right. apply bool_decide_eq_true.
  split; [done|]. by destruct t.
Qed.

(** *** Redirections *)

Lemma no_redirect t c : head t = Some c → c ∉ chars_of "12><&" → eats (try_redirect sub) [] t (λ r, r = None).
Proof.
  intros Hh Hc. unfold chars_of in Hc. cbn -[N_of_ascii] in Hc. repeat setoid_rewrite not_elem_of_cons in Hc.
  unfold try_redirect. apply eats_byte_pos. intros b. rewrite <- (app_nil_r []).
  eapply (eats_bind _ _ _ _ _ (λ r, r = None)); [|intros ? ->; by apply eats_ret].
  unfold redirect_op. apply eats_peek, eats_peek_at, eats_peek_at, eats_peek_at. cbn [app].
  destruct t as [|c' t]; [done|]. injection Hh as ->. cbn [head].
  assert (∀ a, a ∈ ["1"; "2"; ">"; "<"; "&"]%char → is_char (Some c) a = false) as Hno.
  { intros a Ha. apply bool_decide_eq_false. intros [= ->]. rewrite !elem_of_cons in Ha. unfold ch in Hc.
    destruct_or? Ha; subst; first [tauto|by apply elem_of_nil in Ha]. }
  rewrite !Hno by set_solver. by apply eats_ret.
Qed.

Lemma redirect_op_reads op start t :
  (if decide (op = ErrToOut ∨ op = OutToErr) then head t = Some (ch " ") else head t = Some (ch "'")) →
  eats (redirect_op start) [] (print_op op ++ t) (λ r, r = Some (op, length (print_op op))).
Proof. destruct t as [|c t]; destruct op; try done; intros [= ->] b; by eexists _, _. Qed.

Lemma eats_redirect r rest :
  redirect_ok S_ S_ Q r → length (print_redirect pr r) ≤ N →
  eats (try_redirect sub) (print_redirect pr r) (ch " " :: rest) (λ r', ∃ r1, r' = Some r1 ∧ er_ r1 = er_ r).
Proof.
  intros [_ Hr] HN. unfold try_redirect, print_redirect in *. apply eats_byte_pos. intros b.
  rewrite length_app in HN. change (?a ++ ?b) with ([] ++ a ++ b) at 1.
  eapply (eats_bind _ _ _ _ _ (λ o, o = Some (r_op r, length (print_op (r_op r))))).
  { rewrite <- (assoc_L (++)). apply redirect_op_reads. destruct (r_target r) as [w|].
    - destruct Hr as (_ & H1 & H2). by rewrite decide_False by tauto.
    - by rewrite decide_True. }
  intros ? ->. apply eats_advance. destruct (r_target r) as [w|] eqn:Ht; cbn [from_option] in *.
  - destruct Hr as ((_ & Hw) & H1 & H2). rewrite decide_False by tauto. rewrite <- (app_nil_r (print_word pr w)).
    eapply (eats_bind _ _ _ _ _ (λ w', ∃ w1, w' = Some w1 ∧ ew w1 = ew w)).
    + apply eats_skip_blank; [by intros c [= <-]; apply (bool_decide_unpack _); vm_compute|]. apply eats_peek.
      change (head (print_word pr w ++ ?x)) with (Some (ch "'")).
      assert (none_or_in (";|&<>" +:+ NL) (Some (ch "'")) = false) as -> by by vm_compute.
      rewrite <- (app_nil_r (print_word pr w)). eapply eats_bind; [apply eats_word; [done|done|lia]|].
      intros w' Hw'. apply eats_ret. by eexists.
    + intros ? (w1 & -> & Hw1). apply eats_span_from. intros sp. apply eats_ret. eexists. split; [done|].
      unfold erase_redirect. rewrite Ht. cbn. by rewrite Hw1.
  - rewrite decide_True by done. change (mret None ≫= ?k) with (k (@None (Word Program))).
    apply eats_span_from. intros sp. apply eats_ret. eexists. split; [done|]. unfold erase_redirect. by rewrite Ht.
Qed.

(** *** Assignments *)

Lemma assign_name_app name t :
  ident name → assign_name true (name ++ ch "=" :: t) = name.
Proof.
  intros [Hall (c & r & -> & Hs)]. simpl. rewrite Hs. simpl. f_equal. apply Forall_cons in Hall as [_ Hall].
  induction Hall as [|d r Hd _ IH]; simpl; [done|].
  assert (is_ident_start d || is_ascii_digit d = true) as -> by exact Hd. simpl. by rewrite IH.
Qed.

Lemma eats_assign a rest :
  assign_ok S_ S_ Q a → length (print_assign pr a) ≤ N →
  eats (try_assign sub) (print_assign pr a) (ch " " :: rest) (λ a', ∃ a1, a' = Some a1 ∧ ea a1 = ea a).
Proof.
  intros (_ & Hid & Hv) HN b. unfold try_assign, print_assign in *. cbn [p_rest p_byte].
  rewrite length_app in HN. rewrite <- (assoc_L (++)). cbn [app]. rewrite assign_name_app, drop_app_length by done.
  rewrite bool_decide_eq_false_2 by (by destruct Hid as [_ (? & ? & -> & _)]). cbn [head]. rewrite bool_decide_eq_true_2 by done.
  cbn [orb negb]. match goal with |- context [?m (mkParser (ch "=" :: ?v ++ ?r) ?b)] =>
    cut (eats m (ch "=" :: v) r (λ a', ∃ a1, a' = Some a1 ∧ ea a1 = ea a)); [intros H; apply (H b)|] end.
  apply eats_advance1, eats_peek. case_decide as Hnil.
  - cbn [app head]. assert (none_or_in (" ;|&" +:+ NL +:+ TAB) (Some (ch " ")) = true) as -> by by vm_compute.
    eapply (eats_bind _ _ [] [] _ (λ w, ew w = ew (a_value a))).
    { apply eats_byte_pos. intros ?. apply eats_span_from. intros sp. apply eats_ret. unfold erase_word. by rewrite Hnil. }
    intros w Hw. apply eats_span_from. intros sp. apply eats_ret. eexists. split; [done|]. unfold erase_assign.
    simpl. by rewrite Hw.
  - destruct Hv as [_ [Hv|Hv]]; [done|]. change (head (print_word pr _ ++ ?x)) with (Some (ch "'")).
    assert (none_or_in (" ;|&" +:+ NL +:+ TAB) (Some (ch "'")) = false) as -> by by vm_compute.
    rewrite <- (app_nil_r (print_word pr _)).
    eapply eats_bind; [apply eats_word; [done|done|]|]. { simpl in HN. simpl. lia. }
    intros w Hw. apply eats_span_from. intros sp. apply eats_ret. eexists. split; [done|]. unfold erase_assign.
    simpl. by rewrite Hw.
Qed.

Lemma no_assign t c : head t = Some c → is_ident_start c = false → eats (try_assign sub) [] t (λ a, a = None).
Proof.
  intros Hh Hc b. unfold try_assign. cbn [p_rest p_byte app]. destruct t as [|c' t]; [done|]. injection Hh as ->.
  simpl. rewrite Hc. simpl. by exists None, b.
Qed.

(** *** Lists of elements *)

Local Abbreviation rok := (redirect_ok S_ S_ Q).
Local Abbreviation aok := (assign_ok S_ S_ Q).

Lemma redirect_element r t : element (print_redirect pr r ++ ch " " :: t).
Proof.
  unfold print_redirect. split.
  - intros c. destruct (r_op r); intros [= <-]; apply (bool_decide_unpack _); by vm_compute.
  - destruct (r_op r); (eexists _, _; split; [reflexivity|]; split; [apply (bool_decide_unpack _); by vm_compute|done]).
Qed.

Lemma word_element w t : element (print_word pr w ++ t).
Proof.
  split; [intros c [= <-]; apply (bool_decide_unpack _); by vm_compute|].
  eexists _, _. split; [reflexivity|]. split; [apply (bool_decide_unpack _); by vm_compute|done].
Qed.

Lemma ident_start_not c d : is_ident_start c = true → is_ident_start d = false → c ≠ d.
Proof. intros Hc Hd ->. congruence. Qed.

Lemma ident_start_not_in c s :
  is_ident_start c = true → forallb (λ d, negb (is_ident_start d)) (chars_of s) = true → c ∉ chars_of s.
Proof.
  intros Hc Hs Hin. rewrite forallb_forall in Hs. specialize (Hs c). rewrite Hc in Hs. simpl in Hs.
  by discriminate Hs; apply list_elem_of_In.
Qed.

Lemma assign_element a t : aok a → element (print_assign pr a ++ t).
Proof.
  intros (_ & [_ (c & r & Hn & Hs)] & _). unfold print_assign. rewrite Hn. split.
  - intros d [= <-]. rewrite !not_elem_of_cons. split_and!; try (by apply ident_start_not). apply not_elem_of_nil.
  - eexists _, _. split; [reflexivity|]. split; [|intros ->; by vm_compute in Hs].
    by apply ident_start_not_in.
Qed.

Lemma fresh_element t : element t → fresh t.
Proof. by intros [? _]. Qed.

Lemma command_redirects n stop asg ws rs sp l rest :
  sp = [] ∨ sp = [ch " "] → stop_ok stop → stops rest → Forall rok l →
  length (spaced (print_redirect pr) l) ≤ N → length (spaced (print_redirect pr) l) < n →
  eats (command_loop sub n stop asg ws rs) (sp ++ spaced (print_redirect pr) l) rest
    (λ e, ∃ rs', e = (asg, ws, rs ++ rs') ∧ er_ <$> rs' = er_ <$> l).
Proof.
  intros Hsp Hstop Hstops Hl. revert n sp Hsp rs. induction Hl as [|r l Hr _ IH]; intros n sp Hsp rs HN Hn.
  { unfold spaced. simpl. rewrite app_nil_r. eapply eats_mono; [by apply command_loop_end; simpl in Hn|].
    intros ? ->. exists []. by rewrite app_nil_r. }
  unfold spaced in *. cbn [fmap list_fmap concat] in *. rewrite !length_app in *. cbn [length] in *.
  destruct n as [|n]; [lia|]. apply command_loop_element; [done|done| |].
  { rewrite <- !(assoc_L (++)). apply redirect_element. }
  intros b. unfold command_element. rewrite <- !(assoc_L (++)). eapply eats_bind; [apply eats_redirect; [done|lia]|].
  intros ? (r1 & -> & Hr1). eapply eats_mono; [apply IH; [by right|lia|lia]|].
  intros e (rs' & -> & Hrs). exists (r1 :: rs'). rewrite <- (assoc_L (++)). split; [done|]. cbn. by rewrite Hr1, Hrs.
Qed.

Lemma command_words n stop asg ws sp l rl rest :
  sp = [] ∨ sp = [ch " "] → stop_ok stop → stops rest → Forall wok l → Forall rok rl →
  (∀ w, ws = [] → head l = Some w → not_keyword w) →
  let t := spaced (print_word pr) l ++ spaced (print_redirect pr) rl in
  length t ≤ N → length t < n →
  eats (command_loop sub n stop asg ws []) (sp ++ t) rest
    (λ e, ∃ ws' rs', e = (asg, ws ++ ws', rs') ∧ ew <$> ws' = ew <$> l ∧ er_ <$> rs' = er_ <$> rl).
Proof.
  intros Hsp Hstop Hstops Hl Hrl. revert n sp Hsp ws. induction Hl as [|w l Hw _ IH]; intros n sp Hsp ws Hk t HN Hn.
  { eapply eats_mono; [by apply command_redirects|]. intros e (rs' & -> & Hrs). exists [], rs'. by rewrite app_nil_r. }
  subst t. unfold spaced in * at 1. cbn [fmap list_fmap concat] in *. rewrite !length_app in *. cbn [length] in *.
  destruct n as [|n]; [lia|]. rewrite <- !(assoc_L (++)).
  apply command_loop_element; [done|done|rewrite <- !(assoc_L (++)); by apply word_element|].
  intros b. unfold command_element. change (print_word pr w ++ ?x) with ([] ++ print_word pr w ++ x).
  eapply eats_bind; [eapply no_redirect; [reflexivity|apply (bool_decide_unpack _); by vm_compute]|].
  intros ? ->. change (print_word pr w ++ ?x) with ([] ++ print_word pr w ++ x).
  eapply (eats_bind _ _ _ _ _ (λ a, a = None)).
  { case_decide; [by eapply no_assign|by apply eats_ret]. }
  intros ? ->. eapply eats_bind; [apply eats_word; [by destruct Hw|done|lia]|]. intros w' Hw'.
  assert (eats (command_loop sub n stop asg (ws ++ [w']) []) ([ch " "] ++ spaced (print_word pr) l ++ spaced (print_redirect pr) rl) rest
    (λ e, ∃ ws' rs', e = (asg, ws ++ ws', rs') ∧ ew <$> ws' = ew <$> w :: l ∧ er_ <$> rs' = er_ <$> rl)) as Hgo.
  { eapply eats_mono; [apply IH; [by right|by intros ? [_ ?]%app_eq_nil|cbn zeta; unfold spaced in *; rewrite ?length_app; lia..]|].
    intros e (ws' & rs' & -> & Hws & Hrs). exists (w' :: ws'), rs'. rewrite <- (assoc_L (++)). split_and!; [done| |done].
    cbn. by rewrite Hw', Hws. }
  destruct (unquoted_literal w') as [keyword|] eqn:Hlit; [|exact Hgo]. rewrite decide_False; [exact Hgo|].
  intros [-> Hin]. specialize (Hk w eq_refl eq_refl). unfold not_keyword, unquoted_literal in *.
  apply (f_equal parts) in Hw'. simpl in Hw'.
  destruct (parts w') as [|[t []| |] []]; try done. injection Hlit as ->.
  destruct (parts w) as [|[] []]; simpl in Hw'; try done. injection Hw' as <- <-. done.
Qed.

Lemma command_assigns n stop asg sp al l rl rest :
  sp = [] ∨ sp = [ch " "] → stop_ok stop → stops rest → Forall aok al → Forall wok l → Forall rok rl →
  (∀ w, head l = Some w → not_keyword w) →
  let t := spaced (print_assign pr) al ++ spaced (print_word pr) l ++ spaced (print_redirect pr) rl in
  length t ≤ N → length t < n →
  eats (command_loop sub n stop asg [] []) (sp ++ t) rest
    (λ e, ∃ asg' ws' rs', e = (asg ++ asg', ws', rs') ∧ ea <$> asg' = ea <$> al ∧ ew <$> ws' = ew <$> l ∧ er_ <$> rs' = er_ <$> rl).
Proof.
  intros Hsp Hstop Hstops Hal Hl Hrl Hk. revert n sp Hsp asg. induction Hal as [|a al Ha _ IH]; intros n sp Hsp asg t HN Hn.
  { eapply eats_mono; [apply command_words; try done; auto|]. intros e (ws' & rs' & -> & Hws & Hrs). exists [], ws', rs'.
    by rewrite app_nil_r. }
  subst t. unfold spaced in * at 1. cbn [fmap list_fmap concat] in *. rewrite !length_app in *. cbn [length] in *.
  destruct n as [|n]; [lia|]. rewrite <- !(assoc_L (++)).
  apply command_loop_element; [done|done|rewrite <- !(assoc_L (++)); by apply assign_element|].
  intros b. unfold command_element. change (print_assign pr a ++ ?x) with ([] ++ print_assign pr a ++ x).
  pose proof Ha as (_ & [_ (c & r & Hn' & Hs)] & _).
  eapply eats_bind.
  { rewrite <- !(assoc_L (++)). eapply (no_redirect _ c); [unfold print_assign; by rewrite Hn'|]. by apply ident_start_not_in. }
  intros ? ->. rewrite decide_True by done. eapply eats_bind; [apply eats_assign; [done|lia]|].
  intros ? (a1 & -> & Ha1). eapply eats_mono; [apply IH; [by right|cbn zeta; unfold spaced in *; rewrite ?length_app; lia..]|].
  intros e (asg' & ws' & rs' & -> & Has & Hws & Hrs). exists (a1 :: asg'), ws', rs'. rewrite <- (assoc_L (++)).
  split_and!; [done| |done|done]. cbn. by rewrite Ha1, Has.
Qed.

(** ** Commands, pipelines and chains *)

Local Abbreviation cok := (command_ok S_ S_ Q).
Local Abbreviation ec := (erase_command er).

Lemma command_element_start c t : cok c → element (print_command pr c ++ t).
Proof.
  intros (_ & Ha & Hw & Hr & _ & Hne). unfold print_command, spaced. destruct (assigns c) as [|a al].
  - destruct (words c) as [|w wl].
    + destruct (redirects c) as [|r rl]; [by destruct Hne|]. cbn [fmap list_fmap concat app].
      rewrite <- !(assoc_L (++)). apply redirect_element.
    + cbn [fmap list_fmap concat app]. rewrite <- !(assoc_L (++)). apply word_element.
  - apply Forall_cons in Ha as [Ha _]. cbn [fmap list_fmap concat app]. rewrite <- !(assoc_L (++)). by apply assign_element.
Qed.

Lemma element_not_newline t : element t → head t ≠ Some newline.
Proof.
  intros (_ & c & t' & -> & Hc & _) [= ->]. apply Hc. apply (bool_decide_unpack _). by vm_compute.
Qed.

Lemma eats_command stop c rest :
  stop_ok stop → stops rest → cok c → length (print_command pr c) ≤ N →
  eats (command sub stop) (print_command pr c) rest (λ c', ec c' = ec c).
Proof.
  intros Hstop Hstops Hc HN. unfold command. apply eats_skip_blank; [by apply fresh_element, command_element_start|].
  apply eats_byte_pos. intros start. apply eats_chars_left. rewrite <- (app_nil_r (print_command pr c)).
  destruct Hc as (_ & Ha & Hw & Hr & Hk & Hne).
  eapply eats_bind.
  { apply (command_assigns _ stop [] [] (assigns c) (words c) (redirects c)); try done; [by left|].
    cbn zeta. fold (print_command pr c). rewrite !length_app. lia. }
  intros e (asg & ws & rs & -> & H1 & H2 & H3). cbn [app].
  assert (bool_decide (asg = []) && bool_decide (ws = []) && bool_decide (rs = []) = false) as ->.
  { apply not_true_is_false. rewrite !andb_true_iff, !bool_decide_eq_true. intros [[-> ->] ->].
    apply Hne. destruct (assigns c), (words c), (redirects c); done. }
  apply eats_span_from. intros sp. apply eats_ret. unfold erase_command. simpl. by rewrite H1, H2, H3.
Qed.

(** What ends a pipeline. *)
Definition stops_pipeline (t : text) : Prop :=
  ∃ c t', t = c :: t' ∧
    (c = ch ";" ∨ c = ch "|" ∧ head t' = Some (ch "|") ∨ c = ch "&" ∧ head t' ≠ Some (ch ">")).

Lemma stops_pipeline_stops t : stops_pipeline t → stops t.
Proof. intros (c & t' & -> & H). exists c, t'. tauto. Qed.

Definition print_pipe (c : Command Program) : text := chars_of "| " ++ print_command pr c.

Lemma pipe_stops cs rest : stops_pipeline rest → stops (concat (print_pipe <$> cs) ++ rest).
Proof.
  intros H. destruct cs as [|c cs]; [by apply stops_pipeline_stops|]. eexists _, _. split; [reflexivity|]. auto.
Qed.

Lemma eats_pipeline_loop n stop cs0 cs rest :
  stop_ok stop → stops_pipeline rest → Forall cok cs → length (concat (print_pipe <$> cs)) ≤ N → length cs < n →
  eats (pipeline_loop sub n stop cs0) (concat (print_pipe <$> cs)) rest (λ cs', ∃ cs1, cs' = cs0 ++ cs1 ∧ ec <$> cs1 = ec <$> cs).
Proof.
  intros Hstop Hrest Hcs. revert n cs0. induction Hcs as [|c cs Hc _ IH]; intros n cs0 HN Hn; (destruct n as [|n]; [lia|]).
  { cbn [pipeline_loop]. apply eats_skip_blank; [by apply stops_fresh, stops_pipeline_stops|].
    apply eats_peek, eats_peek_at. destruct Hrest as (x & t & -> & Hx). cbn [fmap list_fmap concat app head lookup list_lookup].
    assert (eats (mret cs0) [] (x :: t) (λ cs', ∃ cs1, cs' = cs0 ++ cs1 ∧ ec <$> cs1 = ec <$> [])) as Hret.
    { apply eats_ret. exists []. by rewrite app_nil_r. }
    case_decide as Hp; [|done]. injection Hp as ->.
    destruct Hx as [[=]|[[_ Ht]|[[=] _]]]. rewrite decide_True by (by destruct t). done. }
  cbn [fmap list_fmap concat length] in *. rewrite length_app in HN. cbn [pipeline_loop].
  apply eats_skip_blank; [by intros d [= <-]; apply (bool_decide_unpack _); vm_compute|].
  change (print_pipe c ++ concat (print_pipe <$> cs)) with
    (ch "|" :: [ch " "] ++ (print_command pr c ++ concat (print_pipe <$> cs))).
  apply eats_peek, eats_peek_at.
  cbn [app head lookup list_lookup]. rewrite decide_True by done. rewrite decide_False by done. rewrite decide_False by done.
  apply eats_advance1. change (ch " " :: print_command pr c ++ ?t) with ([ch " "] ++ (print_command pr c ++ t)).
  assert (length (print_pipe c) = 2 + length (print_command pr c)) as Hl by done.
  apply eats_blank_lines; [by right|by rewrite <- (assoc_L (++)); apply fresh_element, command_element_start
    |by rewrite <- (assoc_L (++)); apply element_not_newline, command_element_start|].
  eapply eats_bind; [apply eats_command; [done|by apply pipe_stops|done|lia]|]. intros c' Hc'.
  eapply eats_mono; [apply IH; lia|]. intros cs' (cs1 & -> & Hcs1). exists (c' :: cs1). rewrite <- (assoc_L (++)).
  split; [done|]. cbn. by rewrite Hc', Hcs1.
Qed.

Local Abbreviation plok := (pipeline_ok S_ S_ Q).
Local Abbreviation epl := (erase_pipeline er).

Lemma pipeline_element p t : plok p → element (print_pipeline pr p ++ t).
Proof.
  intros (_ & Hcs & Hne). unfold print_pipeline. destruct (commands p) as [|c cs]; [done|].
  apply Forall_cons in Hcs as [Hc _]. rewrite <- (assoc_L (++)). by apply command_element_start.
Qed.

Lemma pipes_length cs : length cs ≤ length (concat (print_pipe <$> cs)).
Proof. induction cs as [|c cs IH]; cbn [fmap list_fmap concat length]; [lia|]. rewrite length_app. simpl length at 2. lia. Qed.

Lemma eats_pipeline stop p rest :
  stop_ok stop → stops_pipeline rest → plok p → length (print_pipeline pr p) ≤ N →
  eats (pipeline sub stop) (print_pipeline pr p) rest (λ p', epl p' = epl p).
Proof.
  intros Hstop Hrest Hp HN. unfold pipeline. apply eats_skip_blank; [by apply fresh_element, pipeline_element|].
  apply eats_byte_pos. intros start. apply eats_chars_left. destruct Hp as (_ & Hcs & Hne). unfold print_pipeline in *.
  destruct (commands p) as [|c cs] eqn:Hc; [done|]. apply Forall_cons in Hcs as [Hc1 Hcs]. fold print_pipe in *.
  rewrite length_app in HN. pose proof (pipes_length cs).
  eapply eats_bind; [apply eats_command; [done|by apply pipe_stops|done|lia]|]. intros c' Hc'.
  rewrite <- (app_nil_r (concat _)). eapply eats_bind; [apply eats_pipeline_loop; try done; [lia|]|].
  { rewrite !length_app. lia. }
  intros ? (cs1 & -> & Hcs1). apply eats_span_from. intros sp. apply eats_ret. unfold erase_pipeline.
  rewrite Hc. cbn. by rewrite Hc', Hcs1.
Qed.

(** What ends a chain. *)
Definition stops_chain (t : text) : Prop :=
  ∃ c t', t = c :: t' ∧ (c = ch ";" ∨ c = ch "&" ∧ head t' ≠ Some (ch ">") ∧ head t' ≠ Some (ch "&")).

Lemma stops_chain_pipeline t : stops_chain t → stops_pipeline t.
Proof. intros (c & t' & -> & H). exists c, t'. tauto. Qed.

Local Abbreviation et := (erase_tail er).

Lemma tail_stops tails rest : stops_chain rest → stops_pipeline (concat (print_tail pr <$> tails) ++ rest).
Proof.
  intros H. destruct tails as [|[[] p] tails]; [by apply stops_chain_pipeline|..];
    (eexists _, _; split; [reflexivity|]); [right; right|right; left]; done.
Qed.

Lemma eats_and_or_loop n stop tails0 tails rest :
  stop_ok stop → stops_chain rest → Forall (λ t, plok (t_pipeline t)) tails →
  length (concat (print_tail pr <$> tails)) ≤ N → length tails < n →
  eats (and_or_loop sub n stop tails0) (concat (print_tail pr <$> tails)) rest
    (λ tails', ∃ tails1, tails' = tails0 ++ tails1 ∧ et <$> tails1 = et <$> tails).
Proof.
  intros Hstop Hrest Ht. revert n tails0. induction Ht as [|[k p] tails Hp _ IH]; intros n tails0 HN Hn;
    (destruct n as [|n]; [lia|]).
  { cbn [and_or_loop]. apply eats_skip_blank; [by apply stops_fresh, stops_pipeline_stops, stops_chain_pipeline|].
    apply eats_peek, eats_peek_at. destruct Hrest as (x & t & -> & Hx). cbn [fmap list_fmap concat app head lookup list_lookup].
    assert (eats (mret tails0) [] (x :: t) (λ tails', ∃ tails1, tails' = tails0 ++ tails1 ∧ et <$> tails1 = et <$> [])) as Hret.
    { apply eats_ret. exists []. by rewrite app_nil_r. }
    rewrite decide_False. 2:{ intros [[= ->] ?]. destruct Hx as [[=]|(_ & _ & ?)]. by destruct t. }
    rewrite decide_False; [done|]. intros [[= ->] ?]. by destruct Hx as [[=]|([=] & _)]. }
  cbn [fmap list_fmap concat length] in *. rewrite length_app in HN. cbn [and_or_loop].
  assert (length (print_tail pr (mkTail k p)) = 3 + length (print_pipeline pr p)) as Hl by by destruct k.
  assert (∀ k', k' = k → eats (_ ← advance 2; _ ← skip_blank_and_newlines; p ← pipeline sub stop;
      and_or_loop sub n stop (tails0 ++ [mkTail k' p])) (print_tail pr (mkTail k p) ++ concat (print_tail pr <$> tails)) rest
      (λ tails', ∃ tails1, tails' = tails0 ++ tails1 ∧ et <$> tails1 = et <$> mkTail k p :: tails)) as Hgo.
  { intros ? ->. assert (∃ op, length op = 2 ∧ print_tail pr (mkTail k p) ++ concat (print_tail pr <$> tails) =
      op ++ [ch " "] ++ (print_pipeline pr p ++ concat (print_tail pr <$> tails))) as (op & Hop & ->).
    { destruct k; [exists (chars_of "&&")|exists (chars_of "||")]; done. }
    rewrite <- Hop. apply eats_advance.
    apply eats_blank_lines; [by right|by rewrite <- (assoc_L (++)); apply fresh_element, pipeline_element
      |by rewrite <- (assoc_L (++)); apply element_not_newline, pipeline_element|].
    eapply eats_bind; [apply eats_pipeline; [done|by apply tail_stops|done|simpl in *; lia]|]. intros p' Hp'.
    eapply eats_mono; [apply IH; lia|]. intros tails' (tails1 & -> & Ht1). exists (mkTail k p' :: tails1).
    rewrite <- (assoc_L (++)). split; [done|]. cbn. unfold erase_tail at 1 3. simpl. by rewrite Hp', Ht1. }
  apply eats_skip_blank; [by destruct k; intros d [= <-]; apply (bool_decide_unpack _); vm_compute|].
  apply eats_peek, eats_peek_at. destruct k; cbn [app head lookup list_lookup print_tail connector].
  - rewrite decide_True by done. by apply Hgo.
  - rewrite decide_False by (by intros [? ?]). rewrite decide_True by done. by apply Hgo.
Qed.

Local Abbreviation eao := (erase_and_or er).

Lemma and_or_element a t : and_or_ok S_ S_ Q a → element (print_and_or pr a ++ t).
Proof. intros (_ & Hp & _). unfold print_and_or. rewrite <- (assoc_L (++)). by apply pipeline_element. Qed.

Lemma tails_length tails : length tails ≤ length (concat (print_tail pr <$> tails)).
Proof.
  induction tails as [|[[] p] tails IH]; cbn [fmap list_fmap concat length]; [lia|..]; rewrite length_app; simpl length at 2; lia.
Qed.

Lemma eats_and_or stop a rest :
  stop_ok stop → stops_chain rest → and_or_ok S_ S_ Q a → length (print_and_or pr a) ≤ N →
  eats (and_or sub stop) (print_and_or pr a) rest (λ a', eao a' = eao a).
Proof.
  intros Hstop Hrest Ha HN. unfold and_or. apply eats_skip_blank; [by apply fresh_element, and_or_element|].
  apply eats_byte_pos. intros start. apply eats_chars_left. destruct Ha as (_ & Hp & Ht). unfold print_and_or in *.
  rewrite length_app in HN. pose proof (tails_length (ao_rest a)).
  eapply eats_bind; [apply eats_pipeline; [done|by apply tail_stops|done|lia]|]. intros p' Hp'.
  rewrite <- (app_nil_r (concat _)). eapply eats_bind; [apply eats_and_or_loop; try done; [lia|]|].
  { rewrite !length_app. lia. }
  intros ? (tails1 & -> & Ht1). apply eats_span_from. intros sp. apply eats_ret. unfold erase_and_or. cbn.
  by rewrite Hp', Ht1.
Qed.

(** ** Items and programs *)

Local Abbreviation iok := (item_ok S_ S_ Q).
Local Abbreviation ei := (erase_item er).

Lemma eats_item stop i rest :
  stop_ok stop → iok i → length (print_item pr i) ≤ N →
  eats (item sub stop) (print_item pr i) (ch " " :: rest) (λ i', ei i' = ei i).
Proof.
  intros Hstop Hi HN. unfold item, print_item in *. rewrite length_app in HN.
  eapply eats_bind; [apply eats_and_or; [done| |done|lia]|].
  { eexists _, _. split; [reflexivity|]. destruct (background i); [right|left]; done. }
  intros a' Ha'. apply eats_skip_blank.
  { intros d. destruct (background i); intros [= <-]; apply (bool_decide_unpack _); by vm_compute. }
  apply eats_peek, eats_peek_at. cbn [app head lookup list_lookup].
  assert (∀ b, b = background i → eats (mret (mkItem a' b)) [] (ch " " :: rest) (λ i', ei i' = ei i)) as Hret.
  { intros b ->. apply eats_ret. unfold erase_item. simpl. by rewrite Ha'. }
  destruct (background i) eqn:Hb.
  - rewrite decide_True by done. apply eats_advance1. by apply Hret.
  - rewrite decide_False by (by intros [? ?]). rewrite decide_True by done. rewrite decide_False by done.
    apply eats_advance1. by apply Hret.
Qed.

(** What ends a program. *)
Definition stops_program (stop : option char) (t : text) : Prop :=
  stop = None ∧ t = [] ∨ stop = Some (ch ")") ∧ head t = Some (ch ")").

Lemma eats_program_loop n stop its0 its sp rest :
  sp = [] ∨ sp = [ch " "] → stops_program stop rest → Forall iok its →
  length (spaced (print_item pr) its) ≤ N → length its < n →
  eats (program_loop sub n stop its0) (sp ++ spaced (print_item pr) its) rest
    (λ p', ∃ its1, p' = mkProgram (its0 ++ its1) ∧ ei <$> its1 = ei <$> its).
Proof.
  intros Hsp Hrest Hits. assert (stop_ok stop) as Hstop by (destruct Hrest as [[-> _]|[-> _]]; [by left|by right]).
  revert n its0 sp Hsp. induction Hits as [|i its Hi _ IH]; intros n its0 sp Hsp HN Hn; (destruct n as [|n]; [lia|]).
  { cbn [program_loop]. unfold spaced. cbn [fmap list_fmap concat].
    apply eats_blank_lines; [done|..].
    - intros c Hc. destruct Hrest as [[_ ->]|[_ Hh]]; [done|]. simpl in Hc. rewrite Hh in Hc. injection Hc as <-.
      apply (bool_decide_unpack _). by vm_compute.
    - destruct Hrest as [[_ ->]|[_ Hh]]; [done|]. simpl. by rewrite Hh.
    - apply eats_peek. rewrite decide_True.
      2:{ destruct Hrest as [[_ ->]|[-> Hh]]; [by left|by right]. }
      apply eats_ret. exists []. by rewrite app_nil_r. }
  unfold spaced in *. cbn [fmap list_fmap concat length] in *. rewrite !length_app in HN. cbn [length] in HN. cbn [program_loop].
  assert (∀ t, element ((print_item pr i ++ t) ++ rest)) as Hel.
  { intros t. unfold print_item. rewrite <- !(assoc_L (++)). by apply and_or_element. }
  rewrite <- (assoc_L (++) (print_item pr i)).
  apply eats_blank_lines; [done|by apply fresh_element|by apply element_not_newline|]. apply eats_peek.
  rewrite decide_False.
  2:{ destruct (Hel ([ch " "] ++ concat ((λ x, print_item pr x ++ [ch " "]) <$> its))) as (_ & c & t' & Ht & Hc & _).
      rewrite Ht. intros [?|Hs]; [done|]. destruct Hstop as [->| ->]; [done|]. injection Hs as ->.
      apply Hc. apply (bool_decide_unpack _). by vm_compute. }
  eapply eats_bind; [rewrite <- (assoc_L (++)); apply eats_item; [done|done|lia]|]. intros i' Hi'.
  eapply eats_mono; [apply IH; [by right|lia|lia]|]. intros p' (its1 & -> & Hits1). exists (i' :: its1).
  rewrite <- (assoc_L (++)). split; [done|]. cbn. by rewrite Hi', Hits1.
Qed.
End words.

Lemma spaced_length {A} (print : A → text) l : length l ≤ length (spaced print l).
Proof.
  unfold spaced. induction l as [|x l IH]; cbn [fmap list_fmap concat length]; [lia|]. rewrite !length_app. cbn [length]. lia.
Qed.

Lemma print_program_head d p :
  program_ok (λ _, True) (λ _, True) d p → head (print_program p) ≠ Some (ch "(").
Proof.
  destruct d as [|d]; [done|]. destruct p as [[|i its]]; [done|]. intros Hp. apply Forall_cons in Hp as [Hi _].
  cbn [print_program]. unfold spaced. cbn [fmap list_fmap concat]. unfold print_item. rewrite <- !(assoc_L (++)).
  destruct (and_or_element print_program _ _ ([if background i then ch "&" else ch ";"] ++ [ch " "] ++
    concat ((λ x, (print_and_or print_program (and_or_of x) ++ [if background x then ch "&" else ch ";"]) ++ [ch " "]) <$> its)) Hi)
    as (_ & c & t & -> & Hc & _).
  intros [= ->]. apply Hc. apply (bool_decide_unpack _). by vm_compute.
Qed.

Lemma eats_program d p depth stop rest :
  program_ok (λ _, True) (λ _, True) d p → length (print_program p) < depth → stops_program stop rest →
  eats (program_at depth stop) (print_program p) rest (λ p', erase p' = erase p).
Proof.
  revert p depth stop rest. induction d as [|d IH]; intros p depth stop rest Hp Hd Hrest; [done|].
  destruct depth as [|depth]; [lia|]. cbn [program_at]. unfold program. apply eats_chars_left.
  destruct p as [its]. cbn [print_program] in *. pose proof (spaced_length (print_item print_program) its).
  eapply eats_mono.
  - apply (eats_program_loop _ print_program erase depth (program_ok (λ _, True) (λ _, True) d)) with (sp := []).
    + intros p rest' Hq Hl. apply IH; [done|done|by right].
    + intros p Hq. by eapply print_program_head.
    + by left.
    + done.
    + done.
    + lia.
    + rewrite length_app. lia.
  - intros p' (its1 & -> & Hits). cbn [app erase]. by rewrite Hits.
Qed.

(** [program_ok] does not depend on more than the spans say. *)
Lemma program_ok_mono (S1 S2 sub1 sub2 : Span → Prop) d p :
  (∀ sp, S1 sp → S2 sp) → (∀ sp, sub1 sp → sub2 sp) → program_ok S1 sub1 d p → program_ok S2 sub2 d p.
Proof.
  intros HS Hsub. revert p. induction d as [|d IH]; intros p; [done|]. simpl. intros Hits.
  eapply Forall_impl; [exact Hits|]. clear Hits. intros i.
  assert (∀ w, word_ok S1 sub1 (program_ok S1 sub1 d) w → word_ok S2 sub2 (program_ok S2 sub2 d) w) as Hw.
  { intros w [H1 H2]. split; [auto|]. destruct H2 as [H2|(H2 & H3 & H4)]; [by left|right]. split_and!; [done| |tauto..].
    eapply Forall_impl; [done|]. intros [] Hok; simpl in *; naive_solver. }
  assert (∀ c, command_ok S1 sub1 (program_ok S1 sub1 d) c → command_ok S2 sub2 (program_ok S2 sub2 d) c) as Hc.
  { intros c (H1 & H2 & H3 & H4 & H5). split_and!; [auto|..|tauto|tauto].
    - eapply Forall_impl; [exact H2|]. intros a (Ha & Hi & Hv & Hv').
      split; [auto|]. split; [done|]. split; [auto|]. destruct Hv' as [Hv'|Hv']; [by left|right].
      by destruct (Hw (a_value a)).
    - eapply Forall_impl; [exact H3|exact Hw].
    - eapply Forall_impl; [exact H4|]. intros r (Hr & Ht). split; [auto|]. destruct (r_target r); naive_solver. }
  assert (∀ q, pipeline_ok S1 sub1 (program_ok S1 sub1 d) q → pipeline_ok S2 sub2 (program_ok S2 sub2 d) q) as Hq.
  { intros q (H1 & H2 & H3). split_and!; [auto| |done]. eapply Forall_impl; done. }
  intros (H1 & H2 & H3). split_and!; [auto..|]. eapply Forall_impl; [done|]. simpl. auto.
Qed.

(** C14. Every program of the grammar can be written: what [parse] accepts,
    printed in the canonical way, is accepted again and is the same program but
    for its spans; and so is the printed form of any well-formed program, whether
    it came from a source or not. *)
Theorem plumb_parse_print src d p :
  parse src = Ok p ∨ program_ok (λ _, True) (λ _, True) d p →
  ∃ p', parse (print_program p) = Ok p' ∧ erase p' = erase p.
Proof.
  intros Hp. assert (∃ d, program_ok (λ _, True) (λ _, True) d p) as [d' Hok].
  { destruct Hp as [Hp|Hp]; [|by exists d]. pose proof (parse_ok src) as Hs. rewrite Hp in Hs.
    destruct Hs as [d' Hs]. exists d'. by eapply program_ok_mono. }
  destruct (eats_program d' p (S (length (print_program p))) None [] Hok ltac:(lia) ltac:(by left) 0)
    as (p' & b' & Hrun & He). exists p'. split; [|exact He]. rewrite app_nil_r in Hrun. unfold parse. rewrite Hrun.
    reflexivity.
Qed.

Definition sample : text :=
  chars_of "X=$(date -u | tr ' ' _) make -j$N ~/src ''#a > log 2>&1 && echo ok$ || exit 1 & wait; ls *.rs".

Lemma plumb_parse_print_witness :
  ∃ p p', parse sample = Ok p ∧ parse (print_program p) = Ok p' ∧ erase p' = erase p.
Proof.
  destruct (parse sample) as [p|e|] eqn:Hp; [|by vm_compute in Hp..]. exists p.
  destruct (plumb_parse_print sample 0 p) as (p' & H1 & H2); [left; exact Hp|].
  exists p'. split; [reflexivity|]. split; [exact H1|exact H2].
Defined.
