(* ===== verification/PlumbReport.v ===== *)
(** The values plumb keeps of a run: bounded captures of streams, stages,
    pipelines and reports ([packages/plumb/core/src/report.rs]). *)

From stdpp Require Import base gmap sets list strings.
From Stdlib Require Import Ascii.
From S2P Require Import Prelude Chars.

(** * Bytes and text *)

(** A byte, below 256. *)
Abbreviation byte := N.
Definition bytes_of (t : text) : list byte := N_of_ascii <$> String.list_ascii_of_string (utf8 t).

(** U+FFFD. *)
Definition REPLACEMENT : char := 0xFFFD%N.

(** What may follow a byte that leads a sequence of several: the range of the
    second byte, and how many bytes follow. *)
Definition lead (b : byte) : option (N * N * nat) :=
  if in_range 0xC2 0xDF b then Some (0x80%N, 0xBF%N, 1)
  else if decide (b = 0xE0%N) then Some (0xA0%N, 0xBF%N, 2)
  else if decide (b = 0xED%N) then Some (0x80%N, 0x9F%N, 2)
  else if in_range 0xE1 0xEF b then Some (0x80%N, 0xBF%N, 2)
  else if decide (b = 0xF0%N) then Some (0x90%N, 0xBF%N, 3)
  else if in_range 0xF1 0xF3 b then Some (0x80%N, 0xBF%N, 3)
  else if decide (b = 0xF4%N) then Some (0x80%N, 0x8F%N, 3)
  else None.

Definition continues (b : byte) : bool := in_range 0x80 0xBF b.
Definition char2 (b0 b1 : byte) : char := ((b0 - 0xC0) * 64 + (b1 - 0x80))%N.
Definition char3 (b0 b1 b2 : byte) : char := ((b0 - 0xE0) * 4096 + (b1 - 0x80) * 64 + (b2 - 0x80))%N.
Definition char4 (b0 b1 b2 b3 : byte) : char :=
  ((b0 - 0xF0) * 262144 + (b1 - 0x80) * 4096 + (b2 - 0x80) * 64 + (b3 - 0x80))%N.

(** [String::from_utf8_lossy]: the longest start of a sequence that cannot be
    completed is replaced as a whole. *)
Fixpoint from_utf8_lossy (bs : list byte) : text :=
  match bs with
  | [] => []
  | b0 :: t0 =>
      if decide (b0 < 0x80)%N then b0 :: from_utf8_lossy t0
      else match lead b0, t0 with
      | None, _ => REPLACEMENT :: from_utf8_lossy t0
      | Some _, [] => [REPLACEMENT]
      | Some (lo, hi, n), b1 :: t1 =>
          if in_range lo hi b1 then
            match n, t1 with
            | 1, _ => char2 b0 b1 :: from_utf8_lossy t1
            | _, [] => [REPLACEMENT]
            | _, b2 :: t2 =>
                if continues b2 then
                  match n, t2 with
                  | 2, _ => char3 b0 b1 b2 :: from_utf8_lossy t2
                  | _, [] => [REPLACEMENT]
                  | _, b3 :: t3 =>
                      if continues b3 then char4 b0 b1 b2 b3 :: from_utf8_lossy t3
                      else REPLACEMENT :: from_utf8_lossy t2
                  end
                else REPLACEMENT :: from_utf8_lossy t1
            end
          else REPLACEMENT :: from_utf8_lossy t0
      end
  end.

(** [text.trim_end_matches('\n')]. *)
Definition trim_newlines (t : text) : text := reverse (trim_start (λ c, bool_decide (c = newline)) (reverse t)).

(** * Captures *)

(** Sizes are below [2^64] by far and not cut off. *)
Record Capture := mkCapture {
  c_head : list byte; c_tail : list byte; head_limit : nat; tail_limit : nat; c_total : nat }.

Definition Capture_new (limit : nat) : Capture :=
  let head_limit := limit / 4 * 3 in mkCapture [] [] head_limit (limit - head_limit) 0.

(** The [while] of [write]. *)
Definition pop_to (limit : nat) (tail : list byte) : list byte := drop (length tail - limit) tail.

Definition Capture_write (buf : list byte) (c : Capture) : Capture :=
  let head_room := head_limit c - length (c_head c) in
  let at_ := head_room `min` length buf in
  mkCapture (c_head c ++ take at_ buf) (pop_to (tail_limit c) (c_tail c ++ drop at_ buf))
    (head_limit c) (tail_limit c) (c_total c + length buf).

Definition total_bytes (c : Capture) : nat := c_total c.
Definition truncated (c : Capture) : bool := bool_decide (length (c_head c) + length (c_tail c) < c_total c).

Definition Capture_render (c : Capture) : text :=
  let head := from_utf8_lossy (c_head c) in
  if truncated c then
    let omitted := c_total c - (length (c_head c) + length (c_tail c)) in
    head ++ newline :: chars_of "[plumb: " ++ print_nat (N.of_nat omitted) ++ chars_of " bytes omitted]"
      ++ newline :: from_utf8_lossy (c_tail c)
  else match c_tail c with [] => head | tail => head ++ from_utf8_lossy tail end.

(** * Runs *)

Record Stage := mkStage {
  index : nat; argv : list text; builtin : bool; s_status : Z; started_at_ms : Z; ended_at_ms : Z;
  duration_ms : Z; user_ms : Z; sys_ms : Z; stdout : Capture; stderr : Capture; stderr_merged : bool }.

Record PipelineRun := mkRun { stages_of : list Stage; pr_status : Z }.

Inductive Report := mkReport {
  r_id : N; r_source : text; r_status : Z; pipelines : list PipelineRun; substitutions : list Report;
  background_started : list N; r_started_at_ms : Z; r_ended_at_ms : Z; r_duration_ms : Z; aborted : option text }.

Definition last_stage (r : Report) : option Stage := p ← last (pipelines r); last (stages_of p).

Definition output (r : Report) : text := from_option (λ s, Capture_render (stdout s)) [] (last_stage r).

Definition stages (r : Report) : list Stage := concat (stages_of <$> pipelines r).

(** * What a capture keeps *)

Definition writes (chunks : list (list byte)) (c : Capture) : Capture := foldl (λ c buf, Capture_write buf c) c chunks.

(** What a capture that was new holds after a stream went by. *)
Record holds (limit : nat) (stream : list byte) (c : Capture) : Prop := {
  holds_limits : head_limit c = limit / 4 * 3 ∧ tail_limit c = limit - limit / 4 * 3;
  holds_head : c_head c = take (head_limit c) stream;
  holds_tail : c_tail c = pop_to (tail_limit c) (drop (head_limit c) stream);
  holds_total : c_total c = length stream;
}.

Lemma pop_to_app n a b : pop_to n (pop_to n a ++ b) = pop_to n (a ++ b).
Proof.
  unfold pop_to. rewrite !length_app, length_drop, <- (drop_app_le a b) by lia. rewrite drop_drop. f_equal. lia.
Qed.

Lemma write_holds limit stream c buf : holds limit stream c → holds limit (stream ++ buf) (Capture_write buf c).
Proof.
  intros [Hl Hh Ht Hn]. unfold Capture_write. split; simpl; [done|..].
  - rewrite Hh, length_take. destruct (decide (length stream ≤ head_limit c)).
    + rewrite (take_ge stream) by done. rewrite take_app, (take_ge stream) by done. f_equal.
      replace (head_limit c - head_limit c `min` length stream) with (head_limit c - length stream) by lia.
      destruct (decide (head_limit c - length stream ≤ length buf)); [f_equal; lia|]. rewrite !take_ge by lia. done.
    + replace (head_limit c - head_limit c `min` length stream) with 0 by lia. simpl. rewrite app_nil_r.
      by rewrite take_app_le by lia.
  - rewrite Hh, Ht, length_take, pop_to_app. f_equal. rewrite drop_app. f_equal.
    destruct (decide (length stream ≤ head_limit c)).
    + replace (head_limit c - head_limit c `min` length stream) with (head_limit c - length stream) by lia.
      destruct (decide (head_limit c - length stream ≤ length buf)); [f_equal; lia|]. rewrite !drop_ge by lia. done.
    + replace (head_limit c - head_limit c `min` length stream) with 0 by lia.
      by replace (head_limit c - length stream) with 0 by lia.
  - by rewrite length_app, Hn.
Qed.

Lemma writes_holds limit chunks stream c : holds limit stream c → holds limit (stream ++ concat chunks) (writes chunks c).
Proof.
  revert stream c. induction chunks as [|buf chunks IH]; intros stream c Hc; simpl; [by rewrite app_nil_r|].
  rewrite (assoc_L (++)). by apply IH, write_holds.
Qed.

Lemma new_holds limit : holds limit [] (Capture_new limit).
Proof. split; simpl; [done|by rewrite take_nil|by rewrite drop_nil|done]. Qed.

Lemma limits limit : limit / 4 * 3 ≤ limit.
Proof. pose proof (Nat.div_mod limit 4). lia. Qed.

Lemma holds_cases limit stream c :
  holds limit stream c →
  (length stream ≤ limit ∧ truncated c = false ∧ c_head c ++ c_tail c = stream) ∨
  (limit < length stream ∧ truncated c = true ∧ length (c_head c) + length (c_tail c) = limit ∧
   ∃ omitted, stream = c_head c ++ omitted ++ c_tail c).
Proof.
  intros [[Hl1 Hl2] Hh Ht Hn]. pose proof (limits limit). rewrite Hh, Ht, Hl1, Hl2. unfold truncated.
  rewrite Hh, Ht, Hn, Hl1, Hl2. unfold pop_to. rewrite !length_drop, length_take.
  destruct (decide (length stream ≤ limit)); [left|right]; (split; [lia|]); split.
  - apply bool_decide_eq_false. lia.
  - replace (length stream - limit / 4 * 3 - (limit - limit / 4 * 3)) with 0 by lia. rewrite drop_0. apply take_drop.
  - apply bool_decide_eq_true. lia.
  - split; [lia|]. rewrite drop_drop.
    exists (take (length stream - limit) (drop (limit / 4 * 3) stream)). rewrite <- (take_drop (limit / 4 * 3) stream) at 1.
    f_equal. rewrite <- (take_drop (length stream - limit) (drop (limit / 4 * 3) stream)) at 1. f_equal.
    rewrite drop_drop. f_equal. lia.
Qed.

(** * What is rendered *)

(** The chars of Rust: scalar values. *)
Definition scalar (c : char) : Prop := (c < 0xD800 ∨ 0xE000 <= c < 0x110000)%N.

Lemma bytes_of_cons c t : bytes_of (c :: t) = (N_of_ascii <$> String.list_ascii_of_string (utf8_char c)) ++ bytes_of t.
Proof.
  unfold bytes_of. cbn [utf8]. rewrite <- fmap_app. f_equal. generalize (utf8_char c).
  induction s as [|a s IH]; simpl; [done|]. by rewrite <- IH.
Qed.

Lemma byte_back n : (n < 256)%N → N_of_ascii (byte_of n) = n.
Proof. apply N_ascii_embedding. Qed.

Lemma in_range_true lo hi c : (lo <= c <= hi)%N → in_range lo hi c = true.
Proof. apply in_range_spec. Qed.

(** The bounds of what a continuation byte carries. *)
Lemma mod64 n : (n mod 64 < 64)%N.
Proof. by apply N.mod_lt. Qed.

Lemma lossy_char c bs :
  scalar c → from_utf8_lossy ((N_of_ascii <$> String.list_ascii_of_string (utf8_char c)) ++ bs) = c :: from_utf8_lossy bs.
Proof.
  intros Hc. unfold utf8_char. unfold scalar in Hc.
  pose proof (mod64 c) as Hm0. pose proof (mod64 (c / 64)) as Hm1. pose proof (mod64 (c / 4096)) as Hm2.
  pose proof (N.div_mod c 64 ltac:(done)) as Hd0. pose proof (N.div_mod (c / 64) 64 ltac:(done)) as Hd1.
  pose proof (N.div_mod (c / 4096) 64 ltac:(done)) as Hd2.
  rewrite N.Div0.div_div in Hd1, Hd2. change (64 * 64)%N with 4096%N in Hd1. change (4096 * 64)%N with 262144%N in Hd2.
  generalize dependent (c / 262144)%N. intros q3 Hd2. generalize dependent (c / 4096 mod 64)%N. intros m2 Hm2 Hd2.
  generalize dependent (c / 4096)%N. intros q2 Hd1 Hd2. generalize dependent (c / 64 mod 64)%N. intros m1 Hm1 Hd1.
  generalize dependent (c / 64)%N. intros q1 Hd0 Hd1. generalize dependent (c mod 64)%N. intros m0 Hm0 Hd0.
  case_decide as H1.
  { cbn [String.list_ascii_of_string fmap list_fmap app]. rewrite byte_back by lia. cbn [from_utf8_lossy].
    by rewrite decide_True. }
  case_decide as H2.
  { cbn [String.list_ascii_of_string fmap list_fmap app]. rewrite !byte_back by lia. cbn [from_utf8_lossy].
    rewrite decide_False by lia. unfold lead. rewrite (in_range_true 0xC2) by lia.
    rewrite in_range_true by lia. f_equal. unfold char2. lia. }
  case_decide as H3.
  { cbn [String.list_ascii_of_string fmap list_fmap app]. rewrite !byte_back by lia. cbn [from_utf8_lossy].
    rewrite decide_False by lia. unfold continues. rewrite (in_range_true 0x80 0xBF (0x80 + m0)) by lia.
    assert (char3 (0xE0 + q2) (0x80 + m1) (0x80 + m0) = c) as Hchar by (unfold char3; lia).
    unfold lead. destruct (in_range 0xC2 0xDF _) eqn:E; [apply in_range_spec in E; lia|clear E].
    destruct (decide (0xE0 + q2 = 0xE0)%N); [rewrite (in_range_true 0xA0) by lia; by rewrite Hchar|].
    destruct (decide (0xE0 + q2 = 0xED)%N); [rewrite (in_range_true 0x80 0x9F) by lia; by rewrite Hchar|].
    rewrite (in_range_true 0xE1) by lia. rewrite (in_range_true 0x80) by lia. by rewrite Hchar. }
  cbn [String.list_ascii_of_string fmap list_fmap app]. rewrite !byte_back by lia. cbn [from_utf8_lossy].
  rewrite decide_False by lia. unfold continues. rewrite (in_range_true 0x80 0xBF (0x80 + m0)) by lia.
  rewrite (in_range_true 0x80 0xBF (0x80 + m1)) by lia.
  assert (char4 (0xF0 + q3) (0x80 + m2) (0x80 + m1) (0x80 + m0) = c) as Hchar
    by (unfold char4; lia).
  unfold lead. destruct (in_range 0xC2 0xDF _) eqn:E; [apply in_range_spec in E; lia|clear E].
  rewrite (decide_False (P:=0xF0 + q3 = 0xE0)%N), (decide_False (P:=0xF0 + q3 = 0xED)%N) by lia.
  destruct (in_range 0xE1 0xEF _) eqn:E; [apply in_range_spec in E; lia|clear E].
  destruct (decide (0xF0 + q3 = 0xF0)%N); [rewrite (in_range_true 0x90) by lia; by rewrite Hchar|].
  destruct (in_range 0xF1 0xF3 _) eqn:E; [rewrite (in_range_true 0x80) by lia; by rewrite Hchar|].
  apply in_range_false in E. rewrite decide_True by lia. rewrite (in_range_true 0x80) by lia. by rewrite Hchar.
Qed.

Lemma lossy_bytes t bs : Forall scalar t → from_utf8_lossy (bytes_of t ++ bs) = t ++ from_utf8_lossy bs.
Proof.
  induction 1 as [|c t Hc _ IH]; [done|]. rewrite bytes_of_cons, <- (assoc_L (++)), lossy_char by done. by rewrite IH.
Qed.

Lemma lossy_utf8 t : Forall scalar t → from_utf8_lossy (bytes_of t) = t.
Proof. intros H. rewrite <- (app_nil_r (bytes_of t)), lossy_bytes by done. apply app_nil_r. Qed.

Lemma bytes_of_app t1 t2 : bytes_of (t1 ++ t2) = bytes_of t1 ++ bytes_of t2.
Proof. induction t1 as [|c t1 IH]; [done|]. cbn [app]. by rewrite !bytes_of_cons, IH, <- (assoc_L (++)). Qed.

Lemma bytes_of_length t : length (bytes_of t) = blen t.
Proof.
  induction t as [|c t IH]; [done|]. rewrite bytes_of_cons, length_app, length_fmap, IH, blen_cons. f_equal.
  unfold utf8_char, len_utf8. by repeat case_decide.
Qed.

(** A stream of text that is kept whole is rendered as it is, if the border
    between head and tail is not inside a char. *)
Lemma render_whole limit t1 t2 c :
  holds limit (bytes_of (t1 ++ t2)) c → Forall scalar (t1 ++ t2) → blen (t1 ++ t2) ≤ limit →
  blen t1 = limit / 4 * 3 ∨ t2 = [] ∧ blen t1 ≤ limit / 4 * 3 → Capture_render c = t1 ++ t2.
Proof.
  intros H Hs Hfit Hborder. pose proof (holds_cases _ _ _ H) as [(_ & Ht & Hc)|(Hlt & _)].
  2:{ rewrite bytes_of_length in Hlt. lia. }
  destruct H as [[Hl _] Hh _ _]. rewrite Hl in Hh. rewrite bytes_of_app in Hc, Hh. apply Forall_app in Hs as [Hs1 Hs2].
  assert (c_head c = bytes_of t1) as Hhead.
  { rewrite Hh. destruct Hborder as [Hb|[-> Hb]].
    - apply take_app_length'. by rewrite bytes_of_length.
    - change (bytes_of []) with (@nil N). rewrite app_nil_r. apply take_ge. rewrite bytes_of_length. lia. }
  rewrite Hhead in Hc. apply app_inv_head in Hc. unfold Capture_render. rewrite Ht, Hhead, Hc, lossy_utf8 by done.
  destruct (bytes_of t2) as [|b bs] eqn:Hb; [|by rewrite <- Hb, lossy_utf8].
  assert (blen t2 = 0) as Hb0 by by rewrite <- bytes_of_length, Hb.
  destruct t2 as [|d t2]; [by rewrite app_nil_r|]. rewrite blen_cons in Hb0. pose proof (len_utf8_pos d). lia.
Qed.

(** C36. A capture of a stream, whatever the chunks it came in: the count of bytes
    is exact.  A stream within the limit is kept whole and not marked; of a longer
    one exactly [limit] bytes are kept, three quarters of them its beginning and
    the rest its end, and it is marked.  What is kept whole and is text is
    rendered as it is, if no char lies on the border between the two buffers. *)
Theorem capture_correct limit chunks :
  let stream := concat chunks in
  let c := writes chunks (Capture_new limit) in
  total_bytes c = length stream ∧
  (truncated c = true ↔ limit < length stream) ∧
  (length stream ≤ limit → c_head c ++ c_tail c = stream) ∧
  (limit < length stream → length (c_head c) = limit / 4 * 3 ∧ length (c_tail c) = limit - limit / 4 * 3 ∧
     ∃ omitted, stream = c_head c ++ omitted ++ c_tail c) ∧
  ∀ t1 t2, stream = bytes_of (t1 ++ t2) → Forall scalar (t1 ++ t2) → blen (t1 ++ t2) ≤ limit →
    blen t1 = limit / 4 * 3 ∨ t2 = [] ∧ blen t1 ≤ limit / 4 * 3 → Capture_render c = t1 ++ t2.
Proof.
  intros stream c. assert (holds limit stream c) as H by (apply (writes_holds limit chunks []), new_holds).
  pose proof (limits limit). pose proof (holds_cases _ _ _ H) as Hcases. split; [apply H|]. split_and!.
  - destruct Hcases as [(? & -> & _)|(? & -> & _)]; split; intros; first [done|lia|exfalso; lia].
  - intros Hle. destruct Hcases as [(_ & _ & ?)|(? & _)]; [done|lia].
  - intros Hlt. destruct Hcases as [(? & _)|(_ & _ & Hlen & Hom)]; [lia|]. destruct H as [[Hl1 Hl2] Hh Ht Hn].
    assert (length (c_head c) = limit / 4 * 3) as Hl by (rewrite Hh, length_take; lia). split_and!; [done|lia|done].
  - intros t1 t2 Hst. rewrite Hst in H. by apply render_whole.
Qed.

(** A char on the border is lost, though nothing was cut off: with room for
    eight bytes, six of them in the head, five letters and an accented one. *)
Example render_splits_a_char :
  let t := chars_of "abcde" ++ [0xE9%N] in
  let c := writes [bytes_of t] (Capture_new 8) in
  truncated c = false ∧ c_head c ++ c_tail c = bytes_of t ∧
  Capture_render c = chars_of "abcde" ++ [REPLACEMENT; REPLACEMENT].
Proof. by vm_compute. Qed.
