(* ===== verification/PlumbShell.v ===== *)
(** The shell of plumb: state, expansion, builtins, pipelines and runs
    ([packages/plumb/core/src/shell.rs], [error.rs], and what [engine.rs] makes
    of the processes that ran).

    The state behind the lock is explicit.  Other threads (background runs, other
    evals of a cloned shell) change it between critical sections: [others] is
    what they did since the last one.  The report that [&mut report] names is
    part of the state, so that what was recorded before an error stays. *)

From stdpp Require Import base gmap sets list strings.
From Stdlib Require Import Ascii.
From S2P Require Import Prelude Chars StateErr PlumbParse PlumbReport.

(** * Errors *)

Inductive Error :=
| EParse (source : ParseError)
| UnsetVar (name : text)
| GlobNoMatch (pattern : text)
| ERedirect (path source : text)
| EIo (source : text)
| BuiltinInPipeline (name : text)
| BuiltinUsage (name message : text)
| RunRef (message : text)
| SubstitutionOverflow (limit : nat)
| ExitRequested (code : Z).

Definition print_int (z : Z) : text :=
  if decide (z < 0)%Z then ch "-" :: print_nat (Z.to_N (- z)) else print_nat (Z.to_N z).

(** [Error::to_string]. *)
Definition display (e : Error) : text :=
  match e with
  | EParse source => chars_of "parse error at byte " ++ print_nat (N.of_nat (sp_start (span source))) ++ chars_of ": " ++ message source
  | UnsetVar name => chars_of "unset variable `$" ++ name ++ chars_of "`"
  | GlobNoMatch pattern => chars_of "glob matched nothing: `" ++ pattern ++ chars_of "`"
  | ERedirect path source => chars_of "cannot open `" ++ path ++ chars_of "` for redirection: " ++ source
  | EIo source => chars_of "i/o error: " ++ source
  | BuiltinInPipeline name => chars_of "builtin `" ++ name ++ chars_of "` cannot be a pipeline stage"
  | BuiltinUsage name message => name ++ chars_of ": " ++ message
  | RunRef message => chars_of "run reference: " ++ message
  | SubstitutionOverflow limit =>
      chars_of "command substitution output exceeded " ++ print_nat (N.of_nat limit) ++ chars_of " bytes"
  | ExitRequested code => chars_of "exit " ++ print_int code
  end.

(** [str::parse] of an integer: an optional sign ([-] where the type has one) and
    digits, within bounds. *)
Definition parse_int (signed : bool) (lo hi : Z) (s : text) : option Z :=
  let '(negative, ds) := match s with
    | c :: ds => if decide (c = ch "+") then (false, ds)
                 else if bool_decide (c = ch "-") && signed then (true, ds) else (false, s)
    | [] => (false, [])
    end in
  if bool_decide (ds = []) || negb (forallb is_ascii_digit ds) then None
  else
    let v := if (negative : bool) then (- digits_value ds)%Z else digits_value ds in
    if decide (lo ≤ v < hi)%Z then Some v else None.

(** * The engine's interface ([engine.rs]) *)

Inductive StdinSpec := Null | FromFile (path : text).
Record FileSink := mkSink { sink_path : text; append : bool }.

(** An external process; its environment is what [env_clear] and the [env]s in
    order leave, so later pairs of a name win. *)
Record ExternalSpec := mkExternal {
  x_argv : list text; x_env : gmap text text; x_cwd : text; x_stdin : StdinSpec;
  stdout_file : option FileSink; stderr_file : option FileSink; stderr_to_stdout : bool; stdout_to_stderr : bool }.

Inductive StageSpec :=
| External (spec : ExternalSpec)
| Echo (output : list byte) (argv : list text)
| Quiet (status : Z) (argv : list text).

Record EngineConfig := mkEngine { e_capture_limit : nat; echo_stdout : bool; echo_stderr : bool }.

(** How an external stage ended: its program was not found, or it exited, after
    writing its streams in chunks. *)
Inductive Child :=
| NotFound
| Exited (status user_ms sys_ms : Z) (out err : list (list byte)).

(** When a stage started and ended, and for how long it ran. *)
Record Times := mkTimes { t_started : Z; t_ended : Z; t_duration : Z }.

Definition spec_argv (spec : StageSpec) : list text :=
  match spec with External s => x_argv s | Echo _ argv => argv | Quiet _ argv => argv end.

(** A stage of [run_pipeline]'s result. *)
Definition stage_result (config : EngineConfig) (first_stage_index position : nat) (spec : StageSpec)
    (child : Child) (t : Times) : Stage :=
  let limit := e_capture_limit config in
  let make builtin status user sys out err merged :=
    mkStage (first_stage_index + position) (spec_argv spec) builtin status (t_started t) (t_ended t) (t_duration t)
      user sys out err merged in
  match spec with
  | Echo text _ => make true 0%Z 0%Z 0%Z (Capture_write text (Capture_new limit)) (Capture_new 0) false
  | Quiet status _ => make true status 0%Z 0%Z (Capture_new 0) (Capture_new 0) false
  | External s =>
      match child with
      | NotFound =>
          make false 127%Z 0%Z 0%Z (Capture_new 0)
            (Capture_write (bytes_of (chars_of "plumb: command not found: " ++ from_option id [] (head (x_argv s)) ++ [newline]))
               (Capture_new limit)) false
      | Exited status user sys out err =>
          make false status user sys (writes out (Capture_new limit)) (writes err (Capture_new limit)) (stderr_to_stdout s)
      end
  end.

Definition SIGPIPE : Z := 13.

(** [pipefail_status]. *)
Definition pipefail_status (stages : list Stage) : Z :=
  default 0%Z (head (filter (λ s, s ≠ 0 ∧ s ≠ 128 + SIGPIPE)%Z (reverse (s_status <$> stages)))).

(** * What is outside *)

Definition is_absolute (path : text) : bool := starts_with (ch "/") path.

Class Sys := {
  os : Type;
  (** [now_ms], and [started.elapsed()] in milliseconds. *)
  clock : os → Z;
  elapsed : os → os → Z;
  (** [Path::canonicalize] (an error's text, or the path), [is_dir]. *)
  canonicalize : os → text → text + text;
  is_dir : os → text → bool;
  (** The glob crate: the paths of a pattern, [None] when it is none. *)
  glob_with : os → text → option (list text);
  glob_escape : text → text;
  (** The processes of a pipeline, by position, or why they were not started. *)
  execute : EngineConfig → list StageSpec → os → (Error + (nat → Child * Times)) * os;
  (** Threads: a background run starts; a job is waited for; it is finished. *)
  spawned : N → text → AndOr Program → os → os;
  joined : N → os → os;
  is_finished : os → N → bool;
}.

(** * State *)

Record Config := mkConfig {
  capture_limit : nat; substitution_limit : nat; keep_runs : nat; echo_output : bool }.
Definition Config_default : Config := mkConfig (256 * 1024) (Z.to_nat (8 * 1024 * 1024)) 64 false.

Record State := mkState {
  cwd : text; env : gmap text text; vars : gmap text text; last_status : Z; next_run : N;
  runs : list Report; jobs : list N }.

Definition with_cwd x s := mkState x (env s) (vars s) (last_status s) (next_run s) (runs s) (jobs s).
Definition with_env x s := mkState (cwd s) x (vars s) (last_status s) (next_run s) (runs s) (jobs s).
Definition with_vars x s := mkState (cwd s) (env s) x (last_status s) (next_run s) (runs s) (jobs s).
Definition with_last_status x s := mkState (cwd s) (env s) (vars s) x (next_run s) (runs s) (jobs s).
Definition with_next_run x s := mkState (cwd s) (env s) (vars s) (last_status s) x (runs s) (jobs s).
Definition with_runs x s := mkState (cwd s) (env s) (vars s) (last_status s) (next_run s) x (jobs s).
Definition with_jobs x s := mkState (cwd s) (env s) (vars s) (last_status s) (next_run s) (runs s) x.

(** [Shell::new], the environment and directory given. *)
Definition Shell_new (cwd : text) (env : gmap text text) : State := mkState cwd env ∅ 0 1 [] [].

(** [Shell::var]. *)
Definition var (name : text) (s : State) : option text :=
  match vars s !! name with Some v => Some v | None => env s !! name end.

Definition set_var (name value : text) (s : State) : State := with_vars (<[name := value]> (vars s)) s.

Definition assign_var (name value : text) (s : State) : State :=
  match env s !! name with
  | Some _ => with_env (<[name := value]> (env s)) s
  | None => with_vars (<[name := value]> (vars s)) s
  end.

Definition alloc_run_id (s : State) : N * State := (next_run s, with_next_run (next_run s + 1)%N s).

Definition report_of (id : N) (s : State) : option Report := head (filter (λ r, r_id r = id) (runs s)).

(** [trimmed]. *)
Definition trimmed : text → text := trim_newlines.

Definition last_stderr (r : Report) : text := from_option (λ s, Capture_render (stderr s)) [] (last_stage r).

(** [commit]; the [while] pops from the front. *)
Definition commit (config : Config) (report : Report) (s : State) : State :=
  let vs := <[chars_of "s" := print_int (r_status report)]>
    (<[chars_of "e" := trimmed (last_stderr report)]> (<[chars_of "o" := trimmed (output report)]> (vars s))) in
  let rs := runs s ++ [report] in
  with_runs (drop (length rs - keep_runs config) rs) (with_vars vs s).

(** * Reports *)

Definition new_report (run_id : N) (source : text) (now : Z) : Report :=
  mkReport run_id source 0 [] [] [] now 0 0 None.
Definition push_pipeline (p : PipelineRun) (r : Report) : Report :=
  mkReport (r_id r) (r_source r) (r_status r) (pipelines r ++ [p]) (substitutions r) (background_started r)
    (r_started_at_ms r) (r_ended_at_ms r) (r_duration_ms r) (aborted r).
Definition push_substitution (sub r : Report) : Report :=
  mkReport (r_id r) (r_source r) (r_status r) (pipelines r) (substitutions r ++ [sub]) (background_started r)
    (r_started_at_ms r) (r_ended_at_ms r) (r_duration_ms r) (aborted r).
Definition push_background (id : N) (r : Report) : Report :=
  mkReport (r_id r) (r_source r) (r_status r) (pipelines r) (substitutions r) (background_started r ++ [id])
    (r_started_at_ms r) (r_ended_at_ms r) (r_duration_ms r) (aborted r).
Definition last_pipeline_status (r : Report) : Z := from_option pr_status 0%Z (last (pipelines r)).
(** The fields [run_program] sets at the end. *)
Definition close_report (now duration : Z) (reason : option text) (r : Report) : Report :=
  mkReport (r_id r) (r_source r) (last_pipeline_status r) (pipelines r) (substitutions r) (background_started r)
    (r_started_at_ms r) now duration reason.

(** * The shell at work *)

Section shell.
Context {SY : Sys} (others : State → os → State * os) (config : Config).

(** The shared state, what is outside, and the report being written. *)
Record World := mkWorld { shell : State; outside : os; current : Report }.
Abbreviation M := (SM World Error).

Record RunCtx := mkCtx { ctx_echo_stdout : bool; ctx_capture_limit : nat }.

(** A critical section: other threads were at it before. *)
Definition locked {A} (f : State → A * State) : M A := λ w,
  let '(s, o) := others (shell w) (outside w) in
  let '(a, s) := f s in (Ok a, mkWorld s o (current w)).
Definition reads {A} (f : State → A) : M A := locked (λ s, (f s, s)).
Definition changes (f : State → State) : M () := locked (λ s, ((), f s)).
Definition outside_reads {A} (f : os → A) : M A := λ w, (Ok (f (outside w)), w).
Definition outside_changes (f : os → os) : M () := λ w, (Ok (), mkWorld (shell w) (f (outside w)) (current w)).
Definition report_reads {A} (f : Report → A) : M A := λ w, (Ok (f (current w)), w).
Definition report_changes (f : Report → Report) : M () := λ w, (Ok (), mkWorld (shell w) (outside w) (f (current w))).

(** ** Run references *)

(** [select_stage]; a negative index counts from the end. *)
Definition from_end {A} (l : list A) (i : Z) : option A :=
  let back := Z.to_nat (- (i + 1)) in
  if decide (back + 1 ≤ length l) then l !! (length l - (back + 1)) else None.
Definition select_stage (stages : list Stage) (selector : option Z) : option Stage :=
  match selector with
  | None => last stages
  | Some i => if decide (i < 0)%Z then from_end stages i
              else head (filter (λ s, (Z.of_nat (index s) < 2 ^ 63)%Z ∧ Z.of_nat (index s) = i) stages)
  end.

(** [pipeline_status]. *)
Definition pipeline_status (run : Report) : Z := from_option pr_status (r_status run) (last (pipelines run)).

Definition run_leaf (run : Report) (stages : list Stage) (field : text) : outcome Error text :=
  if decide (field = chars_of "output") then Ok (trimmed (output run))
  else if decide (field = chars_of "stderr") then
    Ok (from_option (λ s, trimmed (Capture_render (stderr s))) [] (last stages))
  else if decide (field = chars_of "status") then Ok (print_int (pipeline_status run))
  else if decide (field = chars_of "id") then Ok (print_nat (r_id run))
  else if decide (field = chars_of "source") then Ok (r_source run)
  else if decide (field = chars_of "duration_ms") then Ok (print_int (r_duration_ms run))
  else if decide (field = chars_of "started_at_ms") then Ok (print_int (r_started_at_ms run))
  else if decide (field = chars_of "ended_at_ms") then Ok (print_int (r_ended_at_ms run))
  else Err (RunRef (chars_of "unknown run field `" ++ field ++ chars_of "` (have: output, stderr, status, id, source, duration_ms, started_at_ms, ended_at_ms, stages)")).

Definition stage_leaf (s : Stage) (field : text) : outcome Error text :=
  if decide (field = chars_of "stdout") then Ok (trimmed (Capture_render (stdout s)))
  else if decide (field = chars_of "stderr") then Ok (trimmed (Capture_render (stderr s)))
  else if decide (field = chars_of "status") then Ok (print_int (s_status s))
  else if decide (field = chars_of "argv") then Ok (join (chars_of " ") (argv s))
  else if decide (field = chars_of "duration_ms") then Ok (print_int (duration_ms s))
  else if decide (field = chars_of "index") then Ok (print_nat (N.of_nat (index s)))
  else if decide (field = chars_of "stdout_bytes") then Ok (print_nat (N.of_nat (total_bytes (stdout s))))
  else if decide (field = chars_of "stderr_bytes") then Ok (print_nat (N.of_nat (total_bytes (stderr s))))
  else if decide (field = chars_of "user_ms") then Ok (print_int (user_ms s))
  else if decide (field = chars_of "sys_ms") then Ok (print_int (sys_ms s))
  else if decide (field = chars_of "started_at_ms") then Ok (print_int (started_at_ms s))
  else if decide (field = chars_of "ended_at_ms") then Ok (print_int (ended_at_ms s))
  else Err (RunRef (chars_of "unknown stage field `" ++ field ++ chars_of "` (have: stdout, stderr, status, argv, duration_ms, index, stdout_bytes, stderr_bytes, user_ms, sys_ms, started_at_ms, ended_at_ms)")).

(** The run an index names among the candidates. *)
Definition select_run (candidates : list Report) (i : Z) : option Report :=
  if decide (i < 0)%Z then from_end candidates i
  else head (filter (λ r, (Z.of_N (r_id r) < 2 ^ 63)%Z ∧ Z.of_N (r_id r) = i) candidates).

Definition is_shorthand (name : text) : bool := bool_decide (name ∈ [chars_of "o"; chars_of "e"; chars_of "s"]).

(** [{:?}] of an [Option<i64>]. *)
Definition debug_index (i : option Z) : text :=
  match i with Some i => chars_of "Some(" ++ print_int i ++ chars_of ")" | None => chars_of "None" end.

Definition refuse {A} (m : text) : outcome Error A := Err (RunRef m).

(** [run_ref], the retained runs read. *)
Definition resolve (retained : list Report) (current : Report) (name : text) (path : list PathSeg) : outcome Error text :=
  if negb (is_shorthand name) && negb (bool_decide (name = chars_of "runs")) then
    refuse (chars_of "`" ++ name ++ chars_of "` is not structured; use ${o[..]}, ${e[..]}, ${s[..]} or ${runs[..]} paths")
  else match path with
  | Index run_index :: rest =>
      let candidates := retained ++ (match stages current with [] => [] | _ => [current] end) in
      match select_run candidates run_index with
      | None => refuse (chars_of "run " ++ print_int run_index ++ chars_of " is not retained")
      | Some run =>
          let stages := stages run in
          let stage selector := ok_or (select_stage stages selector)
            (RunRef (chars_of "run " ++ print_nat (r_id run) ++ chars_of " has no stage " ++
              (if is_shorthand name then debug_index selector else from_option print_int [] selector))) in
          if is_shorthand name then
            stage_index ← match rest with
              | [] => Ok None
              | [Index i] => Ok (Some i)
              | _ => refuse (chars_of "the `" ++ name ++ chars_of "` shorthand takes indexes only: ${" ++ name ++ chars_of "[7]} or ${"
                       ++ name ++ chars_of "[7][0]}")
              end;
            s ← stage stage_index;
            if decide (name = chars_of "s") then
              Ok (print_int (match stage_index with None => pipeline_status run | Some _ => s_status s end))
            else if decide (name = chars_of "o") then Ok (trimmed (Capture_render (stdout s)))
            else Ok (trimmed (Capture_render (stderr s)))
          else match rest with
          | [] => refuse (chars_of "pick a run field: .output, .stderr, .status, .id, .source, .duration_ms, or .stages[K].<field>")
          | [Field field] =>
              if decide (field = chars_of "stages") then
                refuse (chars_of "unsupported path; shapes: ${runs[N].output} or ${runs[N].stages[K].stdout}")
              else run_leaf run stages field
          | [Field stages_field; Index i; Field field] =>
              if decide (stages_field = chars_of "stages") then s ← stage (Some i); stage_leaf s field
              else refuse (chars_of "unsupported path; shapes: ${runs[N].output} or ${runs[N].stages[K].stdout}")
          | _ => refuse (chars_of "unsupported path; shapes: ${runs[N].output} or ${runs[N].stages[K].stdout}")
          end
      end
  | _ => refuse (chars_of "select a run first: ${runs[7]...} or ${runs[-1]...}")
  end.

(** The lock is also taken for a reference that is refused before the retained runs
    are looked at. *)
Definition run_ref (name : text) (path : list PathSeg) : M text :=
  current ← report_reads id;
  retained ← reads runs;
  lift (resolve retained current name path).

(** ** Builtins *)

Definition STATE_BUILTINS : list text := chars_of <$> ["cd"; "export"; "unset"; "exit"; "wait"]%string.

(** [push_builtin_pipeline]. *)
Definition push_builtin_pipeline (first_index : nat) (argv : list text) (status : Z) (stderr_message : option text)
    (ctx : RunCtx) : M () :=
  now ← outside_reads clock;
  let stderr := match stderr_message with
    | Some m => Capture_write (bytes_of m) (Capture_new (ctx_capture_limit ctx))
    | None => Capture_new (ctx_capture_limit ctx)
    end in
  _ ← report_changes (push_pipeline
    (mkRun [mkStage first_index argv true status now now 0 0 0 (Capture_new 0) stderr false] status));
  changes (with_last_status status).

(** [Path::join]. *)
Definition path_join (base path : text) : text :=
  if is_absolute path then path
  else if bool_decide (base = []) || ends_with (ch "/") base then base ++ path else base ++ ch "/" :: path.

Definition builtin_cd (args : list text) : M (text + ()) :=
  target ← (match args with
    | [] => home ← reads (var (chars_of "HOME"));
            mret (match home with Some h => inr h | None => inl (chars_of "cd: HOME is not set" ++ [newline]) end)
    | [dir] => mret (inr dir)
    | _ => mret (inl (chars_of "cd: too many arguments" ++ [newline]))
    end);
  match target with
  | inr target =>
      base ← reads cwd;
      resolved ← outside_reads (λ o, canonicalize o (path_join base target));
      match resolved with
      | inr resolved =>
          dir ← outside_reads (λ o, is_dir o resolved);
          if (dir : bool) then _ ← changes (with_cwd resolved); mret (inr ())
          else mret (inl (chars_of "cd: " ++ target ++ chars_of ": not a directory" ++ [newline]))
      | inl error => mret (inl (chars_of "cd: " ++ target ++ chars_of ": " ++ error ++ [newline]))
      end
  | inl m => mret (inl m)
  end.

(** [str::split_once] of a char. *)
Fixpoint split_once (c : char) (t : text) : option (text * text) :=
  match t with
  | [] => None
  | d :: t => if decide (d = c) then Some ([], t) else prod_map (d ::.) id <$> split_once c t
  end.

(** The [for] of [builtin_export], in one critical section. *)
Fixpoint export_loop (args : list text) (s : State) : (text + ()) * State :=
  match args with
  | [] => (inr (), s)
  | arg :: args =>
      match split_once (ch "=") arg with
      | Some (name, value) =>
          export_loop args (with_vars (delete name (vars s)) (with_env (<[name := value]> (env s)) s))
      | None =>
          match vars s !! arg with
          | None => (inl (chars_of "export: " ++ arg ++ chars_of ": not a shell variable" ++ [newline]), s)
          | Some value => export_loop args (with_env (<[arg := value]> (env s)) (with_vars (delete arg (vars s)) s))
          end
      end
  end.
Definition builtin_export (args : list text) : M (text + ()) := locked (export_loop args).

Definition builtin_unset (args : list text) : M (text + ()) :=
  locked (λ s, (inr (), foldl (λ s name, with_env (delete name (env s)) (with_vars (delete name (vars s)) s)) s args)).

(** [arg.parse::<u64>()] of all, or the first that is none. *)
Fixpoint parse_ids (args : list text) : outcome Error (list N) :=
  match args with
  | [] => Ok []
  | arg :: args =>
      match parse_int false 0 (2 ^ 64) arg with
      | Some id => (λ ids, Z.to_N id :: ids) <$> parse_ids args
      | None => Err (BuiltinUsage (chars_of "wait") (chars_of "not a run id: `" ++ arg ++ chars_of "`"))
      end
  end.

(** [builtin_wait]: the handles are taken out of the lock, then joined. *)
Definition builtin_wait (args : list text) : M () :=
  wanted ← lift (parse_ids args);
  handles ← locked (λ s,
    if bool_decide (wanted = []) then (jobs s, with_jobs [] s)
    else (filter (λ job, job ∈ wanted) (jobs s), with_jobs (filter (λ job, job ∉ wanted) (jobs s)) s));
  foldS (λ _ job, outside_changes (joined job)) () handles.

(** [run_state_builtin]; the first argument is one of [STATE_BUILTINS]. *)
Definition run_state_builtin (argv : list text) (ctx : RunCtx) (first_index : nat) : M () :=
  match argv with
  | [] => lift Panic
  | name :: rest =>
      result ← (
        if decide (name = chars_of "cd") then builtin_cd rest
        else if decide (name = chars_of "export") then builtin_export rest
        else if decide (name = chars_of "unset") then builtin_unset rest
        else if decide (name = chars_of "exit") then
          code ← (match rest with
            | [] => reads last_status
            | [code] => lift (ok_or (parse_int true (- 2 ^ 31) (2 ^ 31) code)
                (BuiltinUsage (chars_of "exit") (chars_of "not a number: `" ++ code ++ chars_of "`")))
            | _ => raise (BuiltinUsage (chars_of "exit") (chars_of "too many arguments"))
            end);
          raise (ExitRequested code)
        else if decide (name = chars_of "wait") then _ ← builtin_wait rest; mret (inr ())
        else lift Panic);
      match result with
      | inr _ => push_builtin_pipeline first_index argv 0 None ctx
      | inl message => push_builtin_pipeline first_index argv 1 (Some message) ctx
      end
  end.

Definition echo_spec (argv : list text) : StageSpec :=
  let rest := tail argv in
  let dash := bool_decide (head rest = Some (chars_of "-n")) in
  let rest := if dash then tail rest else rest in
  Echo (bytes_of (join (chars_of " ") rest) ++ (if dash then [] else [newline])) argv.

(** ** Expansion *)

Record Expanded := mkExpanded { e_text : text; pattern : text; has_glob : bool }.

(** The path without the directory it is in; [Path::strip_prefix] goes by
    components, of which the paths that a pattern in the directory has are made
    with single slashes. *)
Definition relative_to (base path : text) : text :=
  match strip_prefix (if ends_with (ch "/") base then base else base ++ [ch "/"]) path with
  | Some rest => rest
  | None => if decide (path = base) then [] else path
  end.

Definition glob_word (e : Expanded) (base : text) (o : os) : outcome Error (list text) :=
  let anchored := if is_absolute (pattern e) then pattern e else base ++ ch "/" :: pattern e in
  match glob_with o anchored with
  | None => Ok [e_text e]
  | Some [] => Err (GlobNoMatch (e_text e))
  | Some paths => Ok (relative_to base <$> paths)
  end.

Definition is_glob_char (c : char) : bool := bool_decide (c ∈ chars_of "*?[").

(** What follows evaluates programs inside programs: [sub] is [run_substitution]
    of one. *)
Section with_sub.
Context (sub : Program → Span → RunCtx → M text).

(** The [match] of [expand_parts]. *)
Definition expand_part (ctx : RunCtx) (e : Expanded) (part : Part Program) : M Expanded :=
  match part with
  | Text t quoted =>
      mret (mkExpanded (e_text e ++ t) (pattern e ++ (if quoted then glob_escape t else t))
              (has_glob e || (negb quoted && existsb is_glob_char t)))
  | Var name path _ =>
      value ← (match path with
        | _ :: _ => run_ref name path
        | [] =>
            if decide (name = chars_of "?") then s ← reads last_status; mret (print_int s)
            else v ← reads (var name); lift (ok_or v (UnsetVar name))
        end);
      mret (mkExpanded (e_text e ++ value) (pattern e ++ glob_escape value) (has_glob e))
  | CommandSub program span =>
      value ← sub program span ctx;
      mret (mkExpanded (e_text e ++ value) (pattern e ++ glob_escape value) (has_glob e))
  end.
Definition expand_parts (ctx : RunCtx) (w : Word Program) : M Expanded :=
  foldS (expand_part ctx) (mkExpanded [] [] false) (parts w).

Definition expand_single (ctx : RunCtx) (w : Word Program) : M text := e ← expand_parts ctx w; mret (e_text e).

Definition expand_word (ctx : RunCtx) (argv : list text) (w : Word Program) : M (list text) :=
  e ← expand_parts ctx w;
  if has_glob e then
    base ← reads cwd;
    o ← outside_reads id;
    ws ← lift (glob_word e base o);
    mret (argv ++ ws)
  else mret (argv ++ [e_text e]).
Definition expand_words (ctx : RunCtx) (ws : list (Word Program)) : M (list text) := foldS (expand_word ctx) [] ws.

(** ** Commands *)

(** What the redirections of a command come to. *)
Record Sinks := mkSinks {
  k_stdin : StdinSpec; k_out : option FileSink; k_err : option FileSink; k_err_to_out : bool; k_out_to_err : bool }.

Definition apply_redirect (op : RedirOp) (target : option text) (k : Sinks) : Sinks :=
  let sink append := (λ path, mkSink path append) <$> target in
  match op with
  | In => mkSinks (FromFile (default [] target)) (k_out k) (k_err k) (k_err_to_out k) (k_out_to_err k)
  | OutTrunc => mkSinks (k_stdin k) (sink false) (k_err k) (k_err_to_out k) (k_out_to_err k)
  | OutAppend => mkSinks (k_stdin k) (sink true) (k_err k) (k_err_to_out k) (k_out_to_err k)
  | ErrTrunc => mkSinks (k_stdin k) (k_out k) (sink false) (k_err_to_out k) (k_out_to_err k)
  | ErrAppend => mkSinks (k_stdin k) (k_out k) (sink true) (k_err_to_out k) (k_out_to_err k)
  | BothTrunc => mkSinks (k_stdin k) (sink false) (sink false) (k_err_to_out k) (k_out_to_err k)
  | BothAppend => mkSinks (k_stdin k) (sink true) (sink true) (k_err_to_out k) (k_out_to_err k)
  | ErrToOut => mkSinks (k_stdin k) (k_out k) (k_err k) true (k_out_to_err k)
  | OutToErr => mkSinks (k_stdin k) (k_out k) (k_err k) (k_err_to_out k) true
  end.

Definition expand_redirect (ctx : RunCtx) (k : Sinks) (r : Redirect Program) : M Sinks :=
  target ← (match r_target r with Some w => t ← expand_single ctx w; mret (Some t) | None => mret None end);
  mret (apply_redirect (r_op r) target k).

Definition external_spec (ctx : RunCtx) (c : Command Program) (argv : list text) : M StageSpec :=
  base_env ← reads env;
  child_env ← foldS (λ e a, value ← expand_single ctx (a_value a); mret (<[a_name a := value]> e)) base_env (assigns c);
  k ← foldS (expand_redirect ctx) (mkSinks Null None None false false) (redirects c);
  if k_err_to_out k && k_out_to_err k then
    raise (BuiltinUsage (chars_of "redirection") (chars_of "`2>&1` combined with `>&2` swaps nothing; pick one"))
  else
    base ← reads cwd;
    let absolutize := fmap (λ s, mkSink (path_join base (sink_path s)) (append s)) in
    let stdin := match k_stdin k with FromFile path => FromFile (path_join base path) | Null => Null end in
    mret (External (mkExternal argv child_env base stdin (absolutize (k_out k)) (absolutize (k_err k))
      (k_err_to_out k) (k_out_to_err k))).

Definition run_bare_assignment (ctx : RunCtx) (c : Command Program) (first_index : nat) : M () :=
  shown ← foldS (λ shown a,
    value ← expand_single ctx (a_value a);
    _ ← changes (assign_var (a_name a) value);
    mret (shown ++ [a_name a ++ ch "=" :: value])) [chars_of "set"] (assigns c);
  push_builtin_pipeline first_index shown 0 None ctx.

(** What [run_pipeline_ast] makes of one command: a stage, or the whole pipeline
    when it is a builtin that changes the state. *)
Inductive Prepared := PStage (spec : StageSpec) | PBuiltin (argv : list text).

Definition prepare_command (ctx : RunCtx) (solo : bool) (c : Command Program) : M Prepared :=
  if decide (words c = []) then raise (BuiltinInPipeline (chars_of "assignment"))
  else
    argv ← expand_words ctx (words c);
    match argv with
    | [] => lift Panic
    | name :: _ =>
        if decide (name ∈ STATE_BUILTINS) then
          if negb solo then raise (BuiltinInPipeline name)
          else if decide (redirects c = []) then mret (PBuiltin argv)
          else raise (BuiltinUsage name (chars_of "redirections are not supported on builtins"))
        else if decide (redirects c = [] ∧ name = chars_of "echo") then mret (PStage (echo_spec argv))
        else if decide (redirects c = [] ∧ (name = chars_of "true" ∨ name = chars_of "false")) then
          mret (PStage (Quiet (if decide (name = chars_of "false") then 1 else 0) argv))
        else s ← external_spec ctx c argv; mret (PStage s)
    end.

(** The [for] over the commands. *)
Fixpoint prepare (ctx : RunCtx) (solo : bool) (first_index : nat) (specs : list StageSpec)
    (cs : list (Command Program)) : M (option (list StageSpec)) :=
  match cs with
  | [] => mret (Some specs)
  | c :: cs =>
      p ← prepare_command ctx solo c;
      match p with
      | PBuiltin argv => _ ← run_state_builtin argv ctx first_index; mret None
      | PStage s => prepare ctx solo first_index (specs ++ [s]) cs
      end
  end.

(** [engine::run_pipeline]: what the stages came to. *)
Definition run_pipeline (stages : list StageSpec) (c : EngineConfig) (first_stage_index : nat) : M PipelineRun := λ w,
  let '(r, o) := execute c stages (outside w) in
  let w := mkWorld (shell w) o (current w) in
  match r with
  | inr children =>
      let result := imap (λ position spec,
        let '(child, t) := children position in
        stage_result c first_stage_index position spec child t) stages in
      (Ok (mkRun result (pipefail_status result)), w)
  | inl e => (Err e, w)
  end.

(** [run_pipeline_ast] of a pipeline that is not an assignment. *)
Definition run_commands (ctx : RunCtx) (cs : list (Command Program)) (first_index : nat) : M () :=
  specs ← prepare ctx (bool_decide (length cs = 1)) first_index [] cs;
  match specs with
  | None => mret ()
  | Some specs =>
      run ← run_pipeline specs
        (mkEngine (ctx_capture_limit ctx) (ctx_echo_stdout ctx) (echo_output config)) first_index;
      _ ← changes (with_last_status (pr_status run));
      report_changes (push_pipeline run)
  end.

Definition run_pipeline_ast (ctx : RunCtx) (p : Pipeline Program) : M () :=
  first_index ← report_reads (λ r, length (stages r));
  match commands p with
  | [c] => if decide (words c = []) then run_bare_assignment ctx c first_index else run_commands ctx [c] first_index
  | cs => run_commands ctx cs first_index
  end.

(** The [for] of [run_and_or]; [status] is the variable of that name. *)
Definition run_tail (ctx : RunCtx) (status : Z) (t : AndOrTail Program) : M Z :=
  let run := match connector t with And => bool_decide (status = 0%Z) | Or => negb (bool_decide (status = 0%Z)) end in
  if run then _ ← run_pipeline_ast ctx (t_pipeline t); report_reads last_pipeline_status else mret status.
Definition run_and_or (ctx : RunCtx) (a : AndOr Program) : M () :=
  _ ← run_pipeline_ast ctx (first a);
  status ← report_reads last_pipeline_status;
  _ ← foldS (run_tail ctx) status (ao_rest a);
  mret ().

(** [spawn_background]. *)
Definition spawn_background (parent_source : text) (a : AndOr Program) : M N :=
  bg_id ← locked alloc_run_id;
  _ ← outside_changes (spawned bg_id (span_text (ao_span a) parent_source) a);
  _ ← changes (λ s, with_jobs (jobs s ++ [bg_id]) s);
  mret bg_id.

(** An item of [run_program]. *)
Definition run_item (ctx : RunCtx) (i : Item Program) : M () :=
  if background i then
    source ← report_reads r_source;
    bg_id ← spawn_background source (and_or_of i);
    report_changes (push_background bg_id)
  else run_and_or ctx (and_or_of i).

(** [run_program]: a report of its own is written while it runs, and committed
    even when an error cut the run short. *)
Definition run_items (ctx : RunCtx) (run_id : N) (source : text) (its : list (Item Program)) (do_commit : bool) : M Report := λ w,
  let start := outside w in
  let '(r, w1) := foldS (λ _ i, run_item ctx i) () its
    (mkWorld (shell w) (outside w) (new_report run_id source (clock start))) in
  let report := close_report (clock (outside w1)) (elapsed start (outside w1))
    (match r with Err e => Some (display e) | _ => None end) (current w1) in
  match r with
  | Panic => (Panic, mkWorld (shell w1) (outside w1) (current w))
  | _ =>
      let '(_, w2) := (if do_commit then changes (commit config report) else mret ()) w1 in
      (match r with Ok _ => Ok report | Err e => Err e | Panic => Panic end,
       mkWorld (shell w2) (outside w2) (current w))
  end.
End with_sub.

Definition substitution_ctx : RunCtx := mkCtx false (substitution_limit config).

(** [run_program]; the recursion is on the programs of its substitutions. *)
Fixpoint run_program (ctx : RunCtx) (run_id : N) (source : text) (do_commit : bool) (program : Program) : M Report :=
  match program with
  | mkProgram its =>
      run_items
        (λ program span _,
          outer ← report_reads r_source;
          sub_report ← run_program substitution_ctx 0%N (span_text span outer) false program;
          let cut_off := from_option (λ s, truncated (stdout s)) false (last_stage sub_report) in
          _ ← report_changes (push_substitution sub_report);
          if cut_off then raise (SubstitutionOverflow (substitution_limit config))
          else mret (trim_newlines (output sub_report)))
        ctx run_id source its do_commit
  end.

(** ** The shell's operations *)

Definition foreground_ctx : RunCtx := mkCtx (echo_output config) (capture_limit config).

(** [Shell::eval]. *)
Definition eval (src : text) : M Report :=
  program ← (match parse src with Ok p => mret p | Err e => raise (EParse e) | Panic => lift Panic end);
  run_id ← locked alloc_run_id;
  run_program foreground_ctx run_id src true program.

(** The thread of [Shell::eval_detached], its run id allocated by the caller. *)
Definition detached (run_id : N) (src : text) : M Report :=
  program ← (match parse src with Ok p => mret p | Err e => raise (EParse e) | Panic => lift Panic end);
  run_program foreground_ctx run_id src true program.

(** The thread of [spawn_background]. *)
Definition background_run (bg_id : N) (source : text) (a : AndOr Program) : M Report :=
  run_program foreground_ctx bg_id source true (mkProgram [mkItem a false]).

Definition background_pending : M nat :=
  o ← outside_reads id;
  reads (λ s, length (filter (λ job, is_finished o job = false) (jobs s))).

(** [Shell::finished_background]. *)
Definition finished_background : M (list Report) :=
  o ← outside_reads id;
  finished ← locked (λ s, (filter (λ job, is_finished o job = true) (jobs s),
                           with_jobs (filter (λ job, is_finished o job = false) (jobs s)) s));
  foldS (λ acc job, _ ← outside_changes (joined job); r ← reads (report_of job); mret (acc ++ option_list r)) [] finished.
End shell.
