(* ===== verification/PlumbShellProps.v ===== *)
(** What the shell of plumb keeps: runs are recorded whatever happens to them,
    their stages are numbered as they are addressed, and the history is bounded;
    and where it departs from the shell it stands in for. *)

From stdpp Require Import base gmap sets list strings.
From Stdlib Require Import Ascii.
From S2P Require Import Prelude Chars StateErr PlumbParse PlumbParseProps PlumbReport PlumbShell.

(** * A small system to try the shell in

    Its clock counts pipelines; every directory exists; the glob [*] finds two
    files; a program prints its arguments, one named [false] fails. *)
Section toy.
Definition toy_child (spec : StageSpec) : Child :=
  let args := tail (spec_argv spec) in
  Exited (if decide (head (spec_argv spec) = Some (chars_of "fail")) then 3 else 0) 1 2
    [bytes_of (join (chars_of " ") args ++ [newline])] [].

#[export] Instance toy : Sys := {|
  os := nat;
  clock o := Z.of_nat o;
  elapsed o o' := Z.of_nat (o' - o);
  canonicalize _ path := inr path;
  is_dir _ _ := true;
  glob_with _ pattern := if ends_with (ch "*") pattern then Some [chars_of "/home/a.rs"; chars_of "/home/b.rs"] else Some [];
  glob_escape t := t;
  execute _ specs o :=
    (inr (λ i, (from_option toy_child NotFound (specs !! i), mkTimes (Z.of_nat o) (Z.of_nat (S o)) 1)), S o);
  spawned _ _ _ o := o;
  joined _ o := o;
  is_finished _ _ := true;
|}.
End toy.

(** No other threads. *)
Definition alone `{!Sys} (s : State) (o : os) : State * os := (s, o).

Definition home : State := Shell_new (chars_of "/home") {[chars_of "HOME" := chars_of "/home"]}.
Definition start_world : World := mkWorld home (0 : os) (new_report 0 [] 0).
(** Small limits. *)
Definition small : Config := mkConfig 1024 1024 4 false.
Definition toy_eval (src : string) (w : World) : outcome Error Report * World := eval alone small (chars_of src) w.
Definition toy_runs (srcs : list string) : World := foldl (λ w src, (toy_eval src w).2) start_world srcs.

(** * What a report and a state satisfy *)

(** Stages are numbered in the order they ran, which is how [${o[N][K]}] names
    them; no pipeline is empty, and its status is that of its stages. *)
Record numbered (r : Report) : Prop := {
  num_index : index <$> stages r = seq 0 (length (stages r));
  num_pipelines : Forall (λ p, stages_of p ≠ [] ∧ pr_status p = pipefail_status (stages_of p)) (pipelines r);
}.

Definition auto_bound (name : text) : Prop := name ∈ [chars_of "o"; chars_of "e"; chars_of "s"].

(** The history is bounded and its reports are numbered; but for the variables
    that every run sets, no name is both exported and a variable. *)
Record state_ok (config : Config) (s : State) : Prop := {
  ok_bound : length (runs s) ≤ keep_runs config;
  ok_runs : Forall numbered (runs s);
  ok_names : ∀ name, ¬ auto_bound name → env s !! name = None ∨ vars s !! name = None;
}.

(** A report that has all that an earlier one has, in the same order. *)
Record extends (r r' : Report) : Prop := {
  ext_pipelines : pipelines r `prefix_of` pipelines r';
  ext_substitutions : substitutions r `prefix_of` substitutions r';
  ext_background : background_started r `prefix_of` background_started r';
}.

#[export] Instance extends_refl : Reflexive extends.
Proof. by split. Qed.
#[export] Instance extends_trans : Transitive extends.
Proof. intros r1 r2 r3 [] []. by split; etrans. Qed.

(** The programs that a program begins with: some of its items, and perhaps a part
    of the next, the first pipelines of an [&&] and [||] list that is not in the
    background. *)
Inductive cut : Program → Program → Prop :=
| CutItems its1 its2 : cut (mkProgram its1) (mkProgram (its1 ++ its2))
| CutTails its1 its2 f t1 t2 sp1 sp2 :
    cut (mkProgram (its1 ++ [mkItem (mkAndOr f t1 sp1) false]))
        (mkProgram (its1 ++ mkItem (mkAndOr f (t1 ++ t2) sp2) false :: its2)).

Section proofs.
Context {SY : Sys} (others : State → os → State * os) (config : Config).
Context (others_ok : ∀ s o, state_ok config s → state_ok config (others s o).1).

Definition world_ok (w : World) : Prop := state_ok config (shell w) ∧ numbered (current w).

(** What expansion leaves of the report as it is; what running adds to. *)
Definition quiet_step (w w' : World) : Prop :=
  pipelines (current w') = pipelines (current w) ∧ extends (current w) (current w') ∧
  r_id (current w') = r_id (current w) ∧ r_source (current w') = r_source (current w).
Definition adds_step (w w' : World) : Prop :=
  extends (current w) (current w') ∧ r_id (current w') = r_id (current w) ∧
  r_source (current w') = r_source (current w).

Definition quiet {A} (m : SM World Error A) (Q : A → Prop) : Prop := ∀ w, world_ok w →
  world_ok (m w).2 ∧ quiet_step w (m w).2 ∧ (m w).1 ≠ Panic ∧ ∀ a, (m w).1 = Ok a → Q a.
Definition adds (n : nat) {A} (m : SM World Error A) : Prop := ∀ w, world_ok w → length (stages (current w)) = n →
  world_ok (m w).2 ∧ adds_step w (m w).2 ∧ (m w).1 ≠ Panic.

Lemma quiet_adds n {A} (m : SM World Error A) Q : quiet m Q → adds n m.
Proof.
  intros H w Hw _. by destruct (H w Hw) as (? & (_ & ? & ?) & ? & _).
Qed.

Lemma adds_trans w1 w2 w3 : adds_step w1 w2 → adds_step w2 w3 → adds_step w1 w3.
Proof. intros (? & ? & ?) (? & ? & ?). split; [by etrans|]. split; congruence. Qed.

Lemma quiet_trans w1 w2 w3 : quiet_step w1 w2 → quiet_step w2 w3 → quiet_step w1 w3.
Proof. intros (? & ? & ? & ?) (? & ? & ? & ?). unfold quiet_step. split_and!; [congruence|by etrans|congruence..]. Qed.

Lemma quiet_adds_step w w' : quiet_step w w' → adds_step w w'.
Proof. by intros (_ & ? & ?). Qed.

#[local] Instance quiet_step_refl : Reflexive quiet_step.
Proof. intros w. unfold quiet_step. by split_and!. Qed.

Lemma quiet_stages w w' : quiet_step w w' → stages (current w') = stages (current w).
Proof. intros (Hp & _). unfold stages. by rewrite Hp. Qed.

Lemma quiet_bind {A B} (m : SM World Error A) (k : A → SM World Error B) Q1 Q2 :
  quiet m Q1 → (∀ a, Q1 a → quiet (k a) Q2) → quiet (m ≫= k) Q2.
Proof.
  intros Hm Hk w Hw. destruct (Hm w Hw) as (Hw1 & Hs1 & Hp1 & HQ1). unfold mbind, sm_bind.
  destruct (m w) as [[a|e|] w1]; simpl in *; [|done..].
  destruct (Hk a (HQ1 a eq_refl) w1 Hw1) as (? & ? & ? & ?). split_and!; [done|by eapply quiet_trans|done..].
Qed.

Lemma quiet_adds_bind n {A B} (m : SM World Error A) (k : A → SM World Error B) Q1 :
  quiet m Q1 → (∀ a, Q1 a → adds n (k a)) → adds n (m ≫= k).
Proof.
  intros Hm Hk w Hw Hn. destruct (Hm w Hw) as (Hw1 & Hs1 & Hp1 & HQ1). unfold mbind, sm_bind.
  destruct (m w) as [[a|e|] w1]; simpl in *; [|split_and!; [done|by apply quiet_adds_step|done]|done].
  destruct (Hk a (HQ1 a eq_refl) w1 Hw1) as (? & ? & ?); [by rewrite (quiet_stages w w1)|].
  split_and!; [done|by eapply adds_trans; [apply quiet_adds_step|]|done].
Qed.

Lemma quiet_mono {A} (m : SM World Error A) (Q Q' : A → Prop) : quiet m Q → (∀ a, Q a → Q' a) → quiet m Q'.
Proof. intros H HQ w Hw. destruct (H w Hw) as (? & ? & ? & ?). split_and!; auto. Qed.

Lemma quiet_ret {A} (a : A) (Q : A → Prop) : Q a → quiet (mret a) Q.
Proof. intros HQ w Hw. split_and!; [done|done|done|by intros ? [= <-]]. Qed.

Lemma quiet_raise {A} e (Q : A → Prop) : quiet (raise e) Q.
Proof. by intros w Hw. Qed.

Lemma quiet_lift {A} (m : outcome Error A) (Q : A → Prop) : m ≠ Panic → (∀ a, m = Ok a → Q a) → quiet (lift m) Q.
Proof. intros Hm HQ w Hw. done. Qed.

Lemma quiet_locked {A} (f : State → A * State) (Q : A → Prop) :
  (∀ s, state_ok config s → state_ok config (f s).2 ∧ Q (f s).1) → quiet (locked others f) Q.
Proof.
  intros Hf w [Hs Hr]. unfold locked. pose proof (others_ok (shell w) (outside w) Hs) as Ho.
  destruct (others _ _) as [s o]. simpl in Ho. destruct (Hf s Ho) as [Hs' HQ]. destruct (f s) as [a s']. simpl in *.
  split_and!; [done|done|done|by intros ? [= <-]].
Qed.

Lemma quiet_reads {A} (f : State → A) (Q : A → Prop) : (∀ s, Q (f s)) → quiet (reads others f) Q.
Proof. intros HQ. apply quiet_locked. intros s Hs. split; [exact Hs|apply HQ]. Qed.

Lemma quiet_changes (f : State → State) : (∀ s, state_ok config s → state_ok config (f s)) → quiet (changes others f) (λ _, True).
Proof. intros Hf. apply quiet_locked. intros s Hs. split; [by apply Hf|done]. Qed.

Lemma quiet_outside_reads {A} (f : os → A) (Q : A → Prop) : (∀ o, Q (f o)) → quiet (outside_reads f) Q.
Proof. intros HQ w Hw. split_and!; [done|done|done|by intros ? [= <-]]. Qed.

Lemma quiet_outside_changes (f : os → os) : quiet (outside_changes f) (λ _, True).
Proof. by intros w Hw. Qed.

Lemma quiet_report_reads {A} (f : Report → A) : quiet (report_reads f) (λ _, True).
Proof. by intros w Hw. Qed.

Lemma quiet_push_substitution r : quiet (report_changes (push_substitution r)) (λ _, True).
Proof. intros w [Hs [H1 H2]]. split; [by split|]. repeat split; try done; by apply prefix_app_r. Qed.

Lemma quiet_push_background id : quiet (report_changes (push_background id)) (λ _, True).
Proof. intros w [Hs [H1 H2]]. split; [by split|]. repeat split; try done; by apply prefix_app_r. Qed.

Lemma extends_push_pipeline p r : extends r (push_pipeline p r).
Proof. split; [by apply prefix_app_r|done..]. Qed.

Lemma quiet_foldS {A B} (f : B → A → SM World Error B) (Q : B → Prop) acc l :
  Q acc → (∀ acc a, Q acc → a ∈ l → quiet (f acc a) Q) → quiet (foldS f acc l) Q.
Proof.
  revert acc. induction l as [|a l IH]; intros acc Hacc Hf; [by apply quiet_ret|].
  simpl. eapply quiet_bind; [apply Hf; [done|by left]|]. intros acc' Hacc'. apply IH; [done|].
  intros. apply Hf; [done|by right].
Qed.

(** ** Changes of the state *)

Lemma state_ok_vars s f :
  state_ok config s → (∀ name, ¬ auto_bound name → env s !! name = None ∨ f !! name = None) →
  state_ok config (with_vars f s).
Proof. intros [H1 H2 H3] Hf. by split. Qed.

Lemma assign_var_ok name value s : state_ok config s → state_ok config (assign_var name value s).
Proof.
  intros [H1 H2 H3]. unfold assign_var. destruct (env s !! name) eqn:He; split; try done; intros n Hn; simpl.
  - destruct (decide (n = name)) as [->|]; [|rewrite lookup_insert_ne by done; by apply H3].
    right. destruct (H3 name Hn) as [H|H]; [congruence|done].
  - destruct (decide (n = name)) as [->|]; [by left|]. rewrite lookup_insert_ne by done. by apply H3.
Qed.

Lemma commit_ok r s : numbered r → state_ok config s → state_ok config (commit config r s).
Proof.
  intros Hr [H1 H2 H3]. split; simpl.
  - rewrite length_drop. lia.
  - apply Forall_drop, Forall_app. split; [done|by apply Forall_singleton].
  - intros n Hn. pose proof Hn as Hne. unfold auto_bound in Hne. rewrite !not_elem_of_cons in Hne.
    destruct Hne as (? & ? & ? & _). rewrite !lookup_insert_ne by congruence. by apply H3.
Qed.

Lemma export_ok args s : state_ok config s → state_ok config (export_loop args s).2.
Proof.
  revert s. induction args as [|arg args IH]; intros s Hs; simpl; [done|].
  assert (∀ name value, state_ok config (with_vars (delete name (vars s)) (with_env (<[name := value]> (env s)) s))) as Hmove.
  { intros name value. destruct Hs as [H1 H2 H3]. split; try done. intros n Hn. simpl.
    destruct (decide (n = name)) as [->|]; [right; apply lookup_delete_eq|].
    rewrite lookup_insert_ne, lookup_delete_ne by done. by apply H3. }
  destruct (split_once _ _) as [[name value]|]; [by apply IH, Hmove|]. destruct (vars s !! arg); [|done]. apply IH, Hmove.
Qed.

Lemma unset_ok args s :
  state_ok config s →
  state_ok config (foldl (λ s name, with_env (delete name (env s)) (with_vars (delete name (vars s)) s)) s args).
Proof.
  revert s. induction args as [|arg args IH]; intros s Hs; simpl; [done|]. apply IH. destruct Hs as [H1 H2 H3].
  split; try done. intros n Hn. simpl. destruct (decide (n = arg)) as [->|]; [left; apply lookup_delete_eq|].
  rewrite !lookup_delete_ne by done. by apply H3.
Qed.

Lemma same_runs_ok s s' :
  state_ok config s → runs s' = runs s → env s' = env s → vars s' = vars s → state_ok config s'.
Proof. intros [H1 H2 H3] Hr He Hv. split; by rewrite ?Hr, ?He, ?Hv. Qed.

(** ** Expansion *)

Lemma resolve_total retained r name path : resolve retained r name path ≠ Panic.
Proof.
  unfold resolve, refuse, ok_or. destruct (_ && _); [done|].
  destruct path as [|[i|f] rest]; [done| |done]. destruct (select_run _ _) as [run|]; [|done].
  unfold mbind, outcome_bind. destruct (is_shorthand name).
  - destruct rest as [|[j|f] [|? ?]]; try done; destruct (select_stage _ _); try done; by repeat case_decide.
  - destruct rest as [|[j|f] [|[k|f'] [|[?|?] [|? ?]]]]; try done; repeat case_decide; try done.
    + unfold run_leaf, refuse. by repeat case_decide.
    + destruct (select_stage _ _); [|done]. unfold stage_leaf. by repeat case_decide.
Qed.

Lemma run_ref_quiet name path : quiet (run_ref others name path) (λ _, True).
Proof.
  unfold run_ref. eapply quiet_bind; [apply quiet_report_reads|]. intros r _.
  eapply quiet_bind; [by apply (quiet_reads _ (λ _, True))|]. intros rs _. apply quiet_lift; [apply resolve_total|done].
Qed.

Lemma numbered_push r p :
  numbered r → index <$> stages_of p = seq (length (stages r)) (length (stages_of p)) → stages_of p ≠ [] →
  pr_status p = pipefail_status (stages_of p) → numbered (push_pipeline p r).
Proof.
  intros [H1 H2] Hi Hne Hst. assert (stages (push_pipeline p r) = stages r ++ stages_of p) as Hs.
  { unfold stages. simpl. rewrite fmap_app, concat_app. simpl. by rewrite app_nil_r. }
  split; [|by apply Forall_snoc]. rewrite Hs, fmap_app, length_app, seq_app, H1, Hi. done.
Qed.

Lemma pipefail_one s : s_status s ≠ (128 + SIGPIPE)%Z → pipefail_status [s] = s_status s.
Proof.
  intros Hs. unfold pipefail_status. change (reverse (s_status <$> [s])) with [s_status s].
  rewrite filter_cons. case_decide as H; [done|]. simpl.
  destruct (decide (s_status s = 0%Z)); [done|]. by destruct H.
Qed.

Lemma push_builtin_adds n argv status m ctx :
  status ≠ (128 + SIGPIPE)%Z → adds n (push_builtin_pipeline others n argv status m ctx).
Proof.
  intros Hst w [Hs Hr] Hn. unfold push_builtin_pipeline, changes, locked, report_changes, outside_reads, mbind, sm_bind.
  simpl. pose proof (others_ok (shell w) (outside w) Hs) as Ho. destruct (others _ _) as [s o]. simpl in *.
  split; [|split; [split_and!; [apply extends_push_pipeline|done..]|done]].
  split; [by apply (same_runs_ok s)|]. apply numbered_push; [done|by rewrite Hn|done|].
  symmetry. by apply (pipefail_one (mkStage _ _ _ status _ _ _ _ _ _ _ _)).
Qed.

(** ** Builtins *)

Lemma builtin_cd_quiet args : quiet (builtin_cd others args) (λ _, True).
Proof.
  unfold builtin_cd. eapply (quiet_bind _ _ (λ _, True)).
  { destruct args as [|dir [|? ?]]; [|by apply quiet_ret..].
    eapply quiet_bind; [by apply (quiet_reads _ (λ _, True))|]. intros home' _. by apply quiet_ret. }
  intros [m|target] _; [by apply quiet_ret|].
  eapply quiet_bind; [by apply (quiet_reads _ (λ _, True))|]. intros base _.
  eapply quiet_bind; [by apply (quiet_outside_reads _ (λ _, True))|]. intros [m|resolved] _; [by apply quiet_ret|].
  eapply quiet_bind; [by apply (quiet_outside_reads _ (λ _, True))|]. intros [] _; [|by apply quiet_ret].
  eapply quiet_bind; [apply quiet_changes; intros s Hs; by apply (same_runs_ok s)|]. intros _ _. by apply quiet_ret.
Qed.

Lemma builtin_wait_quiet args : quiet (builtin_wait others args) (λ _, True).
Proof.
  unfold builtin_wait. eapply quiet_bind; [apply (quiet_lift _ (λ _, True)); [|done]|].
  { induction args as [|arg args IH]; [done|]. cbn [parse_ids]. destruct (parse_int _ _ _ _); [|done].
    by destruct (parse_ids args). }
  intros wanted _. eapply quiet_bind; [apply (quiet_locked _ (λ _, True)); intros s Hs; case_match; (split; [by apply (same_runs_ok s)|done])|].
  intros handles _. apply quiet_foldS; [done|]. intros [] job _ _. apply quiet_outside_changes.
Qed.

Lemma run_state_builtin_adds n argv ctx :
  (∃ name rest, argv = name :: rest ∧ name ∈ STATE_BUILTINS) → adds n (run_state_builtin others argv ctx n).
Proof.
  intros (name & rest & -> & Hin). unfold run_state_builtin. eapply (quiet_adds_bind _ _ _ (λ _, True)).
  - case_decide; [apply builtin_cd_quiet|].
    case_decide; [apply quiet_locked; intros s Hs; split; [by apply export_ok|done]|].
    case_decide; [apply quiet_locked; intros s Hs; split; [by apply unset_ok|done]|].
    case_decide.
    { eapply (quiet_bind _ _ (λ _, True)); [|intros code _; apply quiet_raise].
      destruct rest as [|code [|? ?]]; [by apply quiet_reads| |apply quiet_raise].
      apply quiet_lift; [|done]. by destruct (parse_int _ _ _ _). }
    case_decide.
    { eapply quiet_bind; [apply builtin_wait_quiet|]. intros _ _. by apply quiet_ret. }
    exfalso. unfold STATE_BUILTINS in Hin. simpl in Hin. set_solver.
  - intros [m|[]] _; by apply push_builtin_adds.
Qed.

(** ** Words and commands *)

Section with_sub.
Context (S1 S2 : Span → Prop) (Q : Program → Prop) (sub : Program → Span → RunCtx → SM World Error text).
Context (sub_quiet : ∀ p span ctx, Q p → quiet (sub p span ctx) (λ _, True)).

Lemma expand_parts_quiet ctx w : value_ok S1 S2 Q w → quiet (expand_parts others sub ctx w) (λ _, True).
Proof.
  intros [_ Hw]. apply quiet_foldS; [done|]. intros e part _ Hin.
  assert (∀ p sp, part = CommandSub p sp → Q p) as Hsub.
  { intros p sp ->. destruct Hw as [Hw|[Hw|(_ & Hall & _)]]; [by rewrite Hw in Hin; apply elem_of_nil in Hin| |].
    { rewrite Hw in Hin. by apply list_elem_of_singleton in Hin. }
    rewrite Forall_forall in Hall. by apply (Hall _ Hin). }
  destruct part as [t quoted|name path sp|p sp]; cbn [expand_part]; [by apply quiet_ret| |].
  - eapply (quiet_bind _ _ (λ _, True)); [|intros; by apply quiet_ret]. destruct path as [|? ?]; [|apply run_ref_quiet].
    case_decide; (eapply quiet_bind; [by apply (quiet_reads _ (λ _, True))|]; intros v _); [by apply quiet_ret|].
    apply quiet_lift; [|done]. by destruct v.
  - eapply quiet_bind; [apply sub_quiet; by eapply Hsub|]. intros; by apply quiet_ret.
Qed.

Lemma word_value w : word_ok S1 S2 Q w → value_ok S1 S2 Q w.
Proof. intros [? ?]. split; [done|by right]. Qed.

Lemma expand_single_quiet ctx w : value_ok S1 S2 Q w → quiet (expand_single others sub ctx w) (λ _, True).
Proof. intros Hw. eapply quiet_bind; [by apply expand_parts_quiet|]. intros; by apply quiet_ret. Qed.

(** A word expands to at least one argument. *)
Lemma expand_word_quiet ctx argv w : word_ok S1 S2 Q w → quiet (expand_word others sub ctx argv w) (λ l, l ≠ []).
Proof.
  intros Hw. eapply quiet_bind; [by apply expand_parts_quiet, word_value|]. intros e _.
  destruct (has_glob e); [|apply quiet_ret; by destruct argv].
  eapply quiet_bind; [by apply (quiet_reads _ (λ _, True))|]. intros base _.
  eapply quiet_bind; [by apply (quiet_outside_reads _ (λ _, True))|]. intros o _.
  eapply (quiet_bind _ _ (λ ws, ws ≠ [])); [apply quiet_lift|intros ws Hws; apply quiet_ret; by destruct argv, ws].
  - unfold glob_word. by destruct (glob_with _ _) as [[|? ?]|].
  - intros ws. unfold glob_word. destruct (glob_with _ _) as [[|? ?]|]; by intros [= <-].
Qed.

Lemma expand_words_quiet ctx ws :
  Forall (word_ok S1 S2 Q) ws → ws ≠ [] → quiet (expand_words others sub ctx ws) (λ l, l ≠ []).
Proof.
  intros Hall Hne. destruct ws as [|w ws]; [done|]. inversion_clear Hall as [|? ? Hw Hws].
  unfold expand_words. cbn [foldS]. eapply quiet_bind; [by apply expand_word_quiet|]. intros l Hl.
  apply quiet_foldS; [done|]. intros acc a _ Ha. apply expand_word_quiet. rewrite Forall_forall in Hws. by apply Hws.
Qed.

Lemma external_spec_quiet ctx c argv :
  Forall (assign_ok S1 S2 Q) (assigns c) → Forall (redirect_ok S1 S2 Q) (redirects c) →
  quiet (external_spec others sub ctx c argv) (λ _, True).
Proof.
  intros Ha Hr. rewrite Forall_forall in Ha. rewrite Forall_forall in Hr. unfold external_spec.
  eapply quiet_bind; [by apply (quiet_reads _ (λ _, True))|]. intros base_env _.
  eapply quiet_bind; [apply (quiet_foldS _ (λ _, True)); [done|]|].
  { intros e a _ Hin. eapply quiet_bind; [by apply expand_single_quiet, Ha|]. intros; by apply quiet_ret. }
  intros child_env _. eapply quiet_bind; [apply (quiet_foldS _ (λ _, True)); [done|]|].
  { intros k r _ Hin. unfold expand_redirect. eapply (quiet_bind _ _ (λ _, True)); [|intros; by apply quiet_ret].
    destruct (Hr r Hin) as [_ Ht]. destruct (r_target r) as [w|]; [|by apply quiet_ret].
    eapply quiet_bind; [apply expand_single_quiet, word_value, Ht|]. intros; by apply quiet_ret. }
  intros k _. destruct (_ && _); [apply quiet_raise|].
  eapply quiet_bind; [by apply (quiet_reads _ (λ _, True))|]. intros; by apply quiet_ret.
Qed.

Lemma bare_assignment_adds ctx c n :
  Forall (assign_ok S1 S2 Q) (assigns c) → adds n (run_bare_assignment others sub ctx c n).
Proof.
  intros Ha. rewrite Forall_forall in Ha. unfold run_bare_assignment.
  eapply (quiet_adds_bind _ _ _ (λ _, True)); [|intros; by apply push_builtin_adds].
  apply quiet_foldS; [done|]. intros shown a _ Hin.
  eapply quiet_bind; [by apply expand_single_quiet, Ha|]. intros value _.
  eapply quiet_bind; [apply quiet_changes; intros; by apply assign_var_ok|]. intros; by apply quiet_ret.
Qed.

Definition prepared_ok (p : Prepared) : Prop :=
  match p with PBuiltin argv => ∃ name rest, argv = name :: rest ∧ name ∈ STATE_BUILTINS | PStage _ => True end.

Lemma prepare_command_quiet ctx solo c :
  command_ok S1 S2 Q c → quiet (prepare_command others sub ctx solo c) prepared_ok.
Proof.
  intros (_ & Ha & Hw & Hr & _). unfold prepare_command. case_decide as Hne; [apply quiet_raise|].
  eapply quiet_bind; [by apply expand_words_quiet|]. intros [|name rest] Hargv; [done|].
  case_decide as Hb.
  - destruct solo; simpl; [|apply quiet_raise]. case_decide; [|apply quiet_raise]. apply quiet_ret. by exists name, rest.
  - case_decide; [by apply quiet_ret|]. case_decide; [by apply quiet_ret|].
    eapply quiet_bind; [by apply external_spec_quiet|]. intros; by apply quiet_ret.
Qed.

Lemma adds_assoc n {A B C} (m : SM World Error A) (f : A → SM World Error B) (k : B → SM World Error C) :
  adds n (m ≫= λ a, f a ≫= k) → adds n ((m ≫= f) ≫= k).
Proof.
  intros H w Hw Hn. specialize (H w Hw Hn). unfold mbind, sm_bind in *. by destruct (m w) as [[a|e|] w1].
Qed.

Lemma adds_then n {A B} (m : SM World Error A) (b : B) : adds n m → adds n (m ≫= λ _, mret b).
Proof.
  intros H w Hw Hn. destruct (H w Hw Hn) as (? & ? & ?). unfold mbind, sm_bind. by destruct (m w) as [[a|e|] w1].
Qed.

(** The commands become stages, unless a builtin is the whole pipeline. *)
Lemma prepare_adds ctx solo n specs cs (k : option (list StageSpec) → SM World Error ()) :
  Forall (command_ok S1 S2 Q) cs → cs ≠ [] ∨ specs ≠ [] → k None = mret () →
  (∀ specs, specs ≠ [] → adds n (k (Some specs))) → adds n (prepare others sub ctx solo n specs cs ≫= k).
Proof.
  intros Hcs Hne HNone HSome. revert specs Hne. induction Hcs as [|c cs Hc _ IH]; intros specs Hne; cbn [prepare].
  { apply HSome. by destruct Hne. }
  apply adds_assoc. eapply quiet_adds_bind; [by apply prepare_command_quiet|]. intros [spec|argv] Hp.
  - apply IH. right. by destruct specs.
  - apply adds_assoc. change (adds n (run_state_builtin others argv ctx n ≫= λ _, k None)). rewrite HNone.
    apply (adds_then n _ ()). by apply run_state_builtin_adds.
Qed.

Lemma stage_indexes c n children specs :
  index <$> imap (λ position spec, let '(child, t) := children position in stage_result c n position spec child t) specs
  = seq n (length specs).
Proof.
  apply list_eq. intros i. rewrite list_lookup_fmap, list_lookup_imap. destruct (specs !! i) as [spec|] eqn:Hi; simpl.
  - destruct (children i) as [child t]. pose proof (lookup_lt_Some _ _ _ Hi). rewrite lookup_seq_lt by done.
    unfold stage_result. by destruct spec, child.
  - symmetry. apply lookup_seq_ge. by apply lookup_ge_None.
Qed.

Lemma stages_adds n specs c :
  specs ≠ [] →
  adds n (run ← run_pipeline specs c n; _ ← changes others (with_last_status (pr_status run)); report_changes (push_pipeline run)).
Proof.
  intros Hne w [Hs Hr] Hn. unfold run_pipeline, changes, locked, report_changes, mbind, sm_bind.
  destruct (execute c specs (outside w)) as [[e|children] o]; simpl; [done|].
  pose proof (others_ok (shell w) o Hs) as Ho. destruct (others _ _) as [s o']. simpl in *.
  split; [|split; [split_and!; [apply extends_push_pipeline|done..]|done]].
  split; [by apply (same_runs_ok s)|]. apply numbered_push; [done| | |done]; cbn [stages_of].
  - by rewrite stage_indexes, length_imap, Hn.
  - by destruct specs.
Qed.

(** ** Items *)

Definition grows {A} (m : SM World Error A) : Prop := ∀ n, adds n m.

Lemma grows_bind {A B} (m : SM World Error A) (k : A → SM World Error B) :
  grows m → (∀ a, grows (k a)) → grows (m ≫= k).
Proof.
  intros Hm Hk n w Hw Hn. destruct (Hm n w Hw Hn) as (Hw1 & Hs1 & Hp1). unfold mbind, sm_bind.
  destruct (m w) as [[a|e|] w1]; simpl in *; [|done..].
  destruct (Hk a _ w1 Hw1 eq_refl) as (? & ? & ?). split_and!; [done|by eapply adds_trans|done].
Qed.

Lemma quiet_grows {A} (m : SM World Error A) R : quiet m R → grows m.
Proof. intros Hm n. by eapply quiet_adds. Qed.

Lemma foldS_grows {A B} (f : B → A → SM World Error B) acc l :
  (∀ acc a, a ∈ l → grows (f acc a)) → grows (foldS f acc l).
Proof.
  revert acc. induction l as [|a l IH]; intros acc Hf; [by apply (quiet_grows _ (λ _, True)), quiet_ret|].
  simpl. apply grows_bind; [apply Hf; by left|]. intros acc'. apply IH. intros. apply Hf. by right.
Qed.

Lemma run_commands_adds ctx cs n :
  Forall (command_ok S1 S2 Q) cs → cs ≠ [] → adds n (run_commands others config sub ctx cs n).
Proof.
  intros Hcs Hne. unfold run_commands. apply prepare_adds; [done|by left|done|]. intros specs Hspecs. by apply stages_adds.
Qed.

Lemma run_pipeline_ast_grows ctx p : pipeline_ok S1 S2 Q p → grows (run_pipeline_ast others config sub ctx p).
Proof.
  intros (_ & Hcs & Hne) n w Hw Hn.
  assert (adds n (match commands p with
    | [c] => if decide (words c = []) then run_bare_assignment others sub ctx c n else run_commands others config sub ctx [c] n
    | cs => run_commands others config sub ctx cs n
    end)) as H.
  { destruct (commands p) as [|c [|c' cs]]; [done| |by apply run_commands_adds].
    inversion_clear Hcs as [|? ? Hc ?]. case_decide; [apply bare_assignment_adds, Hc|apply run_commands_adds; [by constructor|done]]. }
  rewrite <- Hn in H. exact (H w Hw eq_refl).
Qed.

Lemma run_tail_grows ctx acc t : pipeline_ok S1 S2 Q (t_pipeline t) → grows (run_tail others config sub ctx acc t).
Proof.
  intros Ht. unfold run_tail. destruct (match connector t with And => _ | Or => _ end).
  - apply grows_bind; [by apply run_pipeline_ast_grows|]. intros _. eapply quiet_grows, quiet_report_reads.
  - by apply (quiet_grows _ (λ _, True)), quiet_ret.
Qed.

Lemma run_and_or_grows ctx a : and_or_ok S1 S2 Q a → grows (run_and_or others config sub ctx a).
Proof.
  intros (_ & Hf & Ht). rewrite Forall_forall in Ht. unfold run_and_or.
  apply grows_bind; [by apply run_pipeline_ast_grows|]. intros _.
  apply grows_bind; [eapply quiet_grows, quiet_report_reads|]. intros status.
  apply grows_bind; [apply foldS_grows|intros _; by apply (quiet_grows _ (λ _, True)), quiet_ret].
  intros acc t Hin. by apply run_tail_grows, Ht.
Qed.

Lemma run_item_grows ctx i : item_ok S1 S2 Q i → grows (run_item others config sub ctx i).
Proof.
  intros Hi. unfold run_item. destruct (background i); [|by apply run_and_or_grows].
  apply (quiet_grows _ (λ _, True)). eapply quiet_bind; [apply quiet_report_reads|]. intros source _.
  eapply (quiet_bind _ _ (λ _, True)); [|intros id _; apply quiet_push_background]. unfold spawn_background.
  eapply quiet_bind; [apply (quiet_locked _ (λ _, True)); intros s Hs; split; [by apply (same_runs_ok s)|done]|]. intros id _.
  eapply quiet_bind; [apply quiet_outside_changes|]. intros _ _.
  eapply quiet_bind; [apply quiet_changes; intros s Hs; by apply (same_runs_ok s)|]. intros _ _. by apply quiet_ret.
Qed.

(** ** Runs that begin in the same way

    [m], when it ends, has not done more to the report than [m'], whether that ends
    or not. *)
Definition begins {A B} (m : SM World Error A) (m' : SM World Error B) : Prop := ∀ w a, world_ok w → (m w).1 = Ok a →
  adds_step (m w).2 (m' w).2.

Lemma adds_refl w : adds_step w w.
Proof. by unfold adds_step. Qed.

Lemma begins_bind {A B} (m : SM World Error A) (k : A → SM World Error B) :
  grows m → (∀ a, grows (k a)) → begins m (m ≫= k).
Proof.
  intros Hm Hk w a Hw Ha. destruct (Hm _ w Hw eq_refl) as (Hw1 & _ & _). unfold mbind, sm_bind.
  destruct (m w) as [r w1]. simpl in *. subst r. by destruct (Hk a _ w1 Hw1 eq_refl) as (_ & ? & _).
Qed.

Lemma begins_under {A B C} (m : SM World Error A) (k : A → SM World Error B) (k' : A → SM World Error C) :
  grows m → (∀ a, begins (k a) (k' a)) → begins (m ≫= k) (m ≫= k').
Proof.
  intros Hm Hk w b Hw. destruct (Hm _ w Hw eq_refl) as (Hw1 & _ & _). unfold mbind, sm_bind.
  destruct (m w) as [[a|e|] w1]; simpl; [by apply Hk|done..].
Qed.

Lemma begins_assoc {A B C D} (m' : SM World Error A) (m : SM World Error B) (f : B → SM World Error C)
    (k : C → SM World Error D) :
  begins m' (m ≫= λ b, f b ≫= k) → begins m' ((m ≫= f) ≫= k).
Proof.
  intros H w a Hw Ha. specialize (H w a Hw Ha). unfold mbind, sm_bind in *. by destruct (m w) as [[b|e|] w1].
Qed.

Lemma begins_tail {A B C} (m : SM World Error A) (m' : SM World Error B) (k : B → SM World Error C) :
  begins m m' → grows m' → (∀ b, grows (k b)) → begins m (m' ≫= k).
Proof.
  intros H Hm' Hk w a Hw Ha. specialize (H w a Hw Ha). destruct (Hm' _ w Hw eq_refl) as (Hw1 & _ & _).
  unfold mbind, sm_bind. destruct (m' w) as [[b|e|] w1]; simpl in *; [|done..].
  destruct (Hk b _ w1 Hw1 eq_refl) as (_ & ? & _). by eapply adds_trans.
Qed.

Lemma begins_ret {A B C} (m : SM World Error A) (m' : SM World Error B) (f : A → C) :
  begins m m' → begins (m ≫= λ a, mret (f a)) m'.
Proof.
  intros H w c Hw. specialize (H w). unfold mbind, sm_bind. destruct (m w) as [[a|e|] w1]; [|done..].
  intros _. by apply (H a).
Qed.

Lemma foldS_app_eq {A B} (f : B → A → SM World Error B) acc l1 l2 w :
  foldS f acc (l1 ++ l2) w = (foldS f acc l1 ≫= λ acc, foldS f acc l2) w.
Proof.
  revert acc w. induction l1 as [|a l1 IH]; intros acc w; [done|]. simpl. unfold mbind, sm_bind.
  destruct (f acc a w) as [[b|e|] w1]; [apply IH|done..].
Qed.

Lemma foldS_begins {A B} (f : B → A → SM World Error B) acc l1 l2 :
  (∀ acc a, a ∈ l1 ++ l2 → grows (f acc a)) → begins (foldS f acc l1) (foldS f acc (l1 ++ l2)).
Proof.
  intros Hf w b Hw Hb. rewrite foldS_app_eq. eapply begins_bind; [| |done|done].
  - apply foldS_grows. intros. apply Hf. set_solver.
  - intros acc'. apply foldS_grows. intros. apply Hf. set_solver.
Qed.

Lemma run_and_or_begins ctx f t1 t2 sp1 sp2 : and_or_ok S1 S2 Q (mkAndOr f (t1 ++ t2) sp2) →
  begins (run_and_or others config sub ctx (mkAndOr f t1 sp1)) (run_and_or others config sub ctx (mkAndOr f (t1 ++ t2) sp2)).
Proof.
  intros (_ & Hf & Ht). rewrite Forall_forall in Ht. unfold run_and_or. cbn [first ao_rest] in *.
  apply begins_under; [by apply run_pipeline_ast_grows|]. intros _.
  apply begins_under; [eapply quiet_grows, quiet_report_reads|]. intros status.
  apply (begins_ret _ _ (λ _, ())), begins_tail.
  - apply foldS_begins. intros acc t Hin. by apply run_tail_grows, Ht.
  - apply foldS_grows. intros acc t Hin. by apply run_tail_grows, Ht.
  - intros _. by apply (quiet_grows _ (λ _, True)), quiet_ret.
Qed.

(** ** Runs *)

(** Whatever a run comes to, its report is what is committed, and has what is [kept]. *)
Definition recorded (run_id : N) (source : text) (do_commit : bool) (kept : World → Report → Prop)
    (m : SM World Error Report) : Prop := ∀ w,
  world_ok w → ∃ report s,
    state_ok config s ∧ numbered report ∧ kept w report ∧ r_id report = run_id ∧ r_source report = source ∧
    r_status report = last_pipeline_status report ∧
    shell (m w).2 = (if do_commit then commit config report s else s) ∧ current (m w).2 = current w ∧
    ((m w).1 = Ok report ∧ aborted report = None ∨ ∃ e, (m w).1 = Err e ∧ aborted report = Some (display e)).

Lemma recorded_ok run_id source do_commit kept m w :
  recorded run_id source do_commit kept m → world_ok w → world_ok (m w).2.
Proof.
  intros Hm Hw. destruct (Hm w Hw) as (report & s & Hs & Hn & _ & _ & _ & _ & Hsh & Hc & _). split.
  - rewrite Hsh. destruct do_commit; [by apply commit_ok|done].
  - rewrite Hc. apply Hw.
Qed.

Lemma close_numbered now d reason r : numbered r → numbered (close_report now d reason r).
Proof. intros [H1 H2]. by split. Qed.

Lemma run_items_begins ctx its its' : cut (mkProgram its) (mkProgram its') →
  Forall (item_ok S1 S2 Q) its' →
  begins (foldS (λ _ i, run_item others config sub ctx i) () its) (foldS (λ _ i, run_item others config sub ctx i) () its').
Proof.
  intros Hcut. inversion Hcut as [its1 its2|its1 its2 f t1 t2 sp1 sp2]; subst; intros Hok.
  - rewrite Forall_forall in Hok. apply foldS_begins. intros ? i Hi. by apply run_item_grows, Hok.
  - intros w a Hw. rewrite !foldS_app_eq. revert w a Hw. apply Forall_app in Hok as [H1 H2].
    rewrite Forall_forall in H1. inversion_clear H2 as [|? ? Hi H2']. rewrite Forall_forall in H2'.
    apply begins_under; [apply foldS_grows; intros ? i Hin; by apply run_item_grows, H1|]. intros ?. cbn [foldS].
    apply (begins_ret _ _ id), begins_tail; [by apply run_and_or_begins|by apply run_item_grows|].
    intros ?. apply foldS_grows. intros ? i Hin. by apply run_item_grows, H2'.
Qed.

(** What a run keeps: all that its beginnings do, which end. *)
Definition keeps_cuts (run : Program → SM World Error Report) (p : Program) (w : World) (report : Report) : Prop :=
  ∀ p' r, cut p' p → (run p' w).1 = Ok r → extends r report.

Lemma run_items_recorded ctx run_id source its do_commit :
  Forall (item_ok S1 S2 Q) its →
  recorded run_id source do_commit
    (keeps_cuts (λ p, run_items others config sub ctx run_id source (items p) do_commit) (mkProgram its))
    (run_items others config sub ctx run_id source its do_commit).
Proof.
  intros Hits w [Hs Hr].
  set (w0 := mkWorld (shell w) (outside w) (new_report run_id source (clock (outside w)))).
  assert (world_ok w0) as Hw0 by (split; [done|by split; [|constructor]]).
  pose proof (λ its1 Hcut, run_items_begins ctx its1 its Hcut Hits w0) as Hcuts.
  rewrite Forall_forall in Hits.
  destruct (foldS_grows (λ _ i, run_item others config sub ctx i) () its
    (λ _ i Hi, run_item_grows ctx i (Hits i Hi)) _ w0 Hw0 eq_refl) as ([Hs1 Hr1] & (_ & Hid & Hsrc) & Hp).
  unfold keeps_cuts, run_items. fold w0. destruct (foldS _ () its w0) as [r w1]. simpl in *.
  pose proof (others_ok (shell w1) (outside w1) Hs1) as Ho.
  set (reason := match r with Err e => Some (display e) | _ => None end).
  pose proof (close_numbered (clock (outside w1)) (elapsed (outside w) (outside w1)) reason _ Hr1) as Hc.
  exists (close_report (clock (outside w1)) (elapsed (outside w) (outside w1)) reason (current w1)),
    (if do_commit then (others (shell w1) (outside w1)).1 else shell w1).
  split; [by destruct do_commit|]. split; [done|]. split.
  - intros [its1] r1 Hcut. specialize (Hcuts its1 Hcut). simpl. destruct (foldS _ () its1 w0) as [[[]|e|] w1']; [| |done].
    + destruct (Hcuts () Hw0 eq_refl) as [[? ? ?] _]. by destruct (if do_commit then _ else _); intros [= <-].
    + by destruct (if do_commit then _ else _).
  - destruct do_commit; unfold changes, locked; [destruct (others _ _) as [s o]|]; simpl in *;
      (destruct r as [[]|e|]; [| |done]; simpl; split_and!; try done; first [by left|right; by exists e]).
Qed.
End with_sub.

(** [run_program] unfolded; its [sub] is [run_substitution]. *)
Definition substitute (program : Program) (span : Span) (_ : RunCtx) : SM World Error text :=
  outer ← report_reads r_source;
  sub_report ← run_program others config (substitution_ctx config) 0%N (span_text span outer) false program;
  let cut_off := from_option (λ s, truncated (stdout s)) false (last_stage sub_report) in
  _ ← report_changes (push_substitution sub_report);
  if cut_off then raise (SubstitutionOverflow (substitution_limit config))
  else mret (trim_newlines (output sub_report)).

Lemma run_program_items ctx run_id source do_commit its :
  run_program others config ctx run_id source do_commit (mkProgram its) =
  run_items others config substitute ctx run_id source its do_commit.
Proof. done. Qed.

Lemma run_program_recorded S1 S2 depth ctx run_id source do_commit p :
  program_ok S1 S2 depth p →
  recorded run_id source do_commit (keeps_cuts (run_program others config ctx run_id source do_commit) p)
    (run_program others config ctx run_id source do_commit p).
Proof.
  revert ctx run_id source do_commit p. induction depth as [|depth IH]; intros ctx run_id source do_commit [its] Hp; [done|].
  enough (recorded run_id source do_commit (keeps_cuts
    (λ p, run_items others config substitute ctx run_id source (items p) do_commit) (mkProgram its))
    (run_items others config substitute ctx run_id source its do_commit)) as H.
  { intros w Hw. destruct (H w Hw) as (report & s & ? & ? & Hk & Hrest). exists report, s.
    split; [done|]. split; [done|]. split; [|done]. intros [its1]. apply Hk. }
  apply (run_items_recorded S1 S2 (program_ok S1 S2 depth)); [|done]. intros p' sp ctx' Hp'. unfold substitute.
  eapply quiet_bind; [apply quiet_report_reads|]. intros outer _.
  eapply (quiet_bind _ _ (λ _, True)).
  - intros w Hw. pose proof (IH (substitution_ctx config) 0%N (span_text sp outer) false p' Hp') as Hrec.
    pose proof (recorded_ok _ _ _ _ _ w Hrec Hw) as Hw'.
    destruct (Hrec w Hw) as (report & s & _ & _ & _ & _ & _ & _ & _ & Hc & Hres). unfold quiet_step. rewrite Hc.
    split_and!; try done. by destruct Hres as [[-> _]|(e & -> & _)].
  - intros report _. eapply quiet_bind; [apply quiet_push_substitution|]. intros _ _. cbv zeta.
    destruct (from_option _ _ _); [apply quiet_raise|by apply quiet_ret].
Qed.

(** ** What a committed report can be read by *)

Lemma commit_last r s : 0 < keep_runs config → last (runs (commit config r s)) = Some r.
Proof.
  intros Hk. simpl. rewrite length_app. simpl. rewrite drop_app_le by lia. by rewrite last_snoc.
Qed.
End proofs.

Lemma from_end_last {A} (l : list A) x : last l = Some x → from_end l (-1) = Some x.
Proof.
  intros Hl. apply last_Some in Hl as [l' ->]. unfold from_end. simpl. rewrite length_app. simpl.
  rewrite decide_True by lia. replace (length l' + 1 - 1) with (length l') by lia. by apply list_lookup_middle.
Qed.

Lemma numbered_select r k :
  numbered r → k < length (stages r) → (Z.of_nat k < 2 ^ 63)%Z →
  select_stage (stages r) (Some (Z.of_nat k)) = stages r !! k.
Proof.
  intros [Hi _] Hk Hb. unfold select_stage. rewrite decide_False by lia.
  remember (stages r) as l eqn:Hl. clear Hl r.
  assert (∀ a l, index <$> l = seq a (length l) → a ≤ k < a + length l →
    head (filter (λ s, (Z.of_nat (index s) < 2 ^ 63)%Z ∧ Z.of_nat (index s) = Z.of_nat k) l) = l !! (k - a)) as H.
  { clear l Hi Hk. intros a l. revert a. induction l as [|s l IH]; intros a Hs Ha; simpl in *; [lia|].
    injection Hs as Hs0 Hs. rewrite filter_cons. case_decide as Hd.
    - by replace (k - a) with 0 by lia.
    - assert (a ≠ k) by (intros ->; apply Hd; by rewrite Hs0). rewrite (IH (S a)) by (done || lia).
      by replace (k - a) with (S (k - S a)) by lia. }
  rewrite (H 0) by (done || lia). f_equal. lia.
Qed.

(** What run references and variables make of the newest run, from a run that
    has done nothing yet. *)
Record readable (report : Report) (s : State) : Prop := {
  read_output : ∀ fresh, stages fresh = [] →
    resolve (runs s) fresh (chars_of "runs") [Index (-1); Field (chars_of "output")] = Ok (trimmed (output report));
  read_status : ∀ fresh, stages fresh = [] →
    resolve (runs s) fresh (chars_of "runs") [Index (-1); Field (chars_of "status")] = Ok (print_int (r_status report));
  read_stage : ∀ fresh k stage, stages fresh = [] → stages report !! k = Some stage → (Z.of_nat k < 2 ^ 63)%Z →
    resolve (runs s) fresh (chars_of "o") [Index (-1); Index (Z.of_nat k)] = Ok (trimmed (Capture_render (stdout stage))) ∧
    resolve (runs s) fresh (chars_of "e") [Index (-1); Index (Z.of_nat k)] = Ok (trimmed (Capture_render (stderr stage))) ∧
    resolve (runs s) fresh (chars_of "runs") [Index (-1); Field (chars_of "stages"); Index (Z.of_nat k); Field (chars_of "status")]
      = Ok (print_int (s_status stage));
}.

Lemma pipeline_status_last r : r_status r = last_pipeline_status r → pipeline_status r = r_status r.
Proof.
  intros H. unfold pipeline_status. destruct (last (pipelines r)) eqn:Hl; [|done].
  rewrite H. unfold last_pipeline_status. by rewrite Hl.
Qed.

Lemma last_readable report s :
  numbered report → r_status report = last_pipeline_status report → last (runs s) = Some report → readable report s.
Proof.
  intros Hn Hst Hl. pose proof (from_end_last _ _ Hl) as He.
  assert (∀ fresh, stages fresh = [] →
    select_run (runs s ++ match stages fresh with [] => [] | _ => [fresh] end) (-1) = Some report) as Hsel.
  { intros fresh ->. rewrite app_nil_r. exact He. }
  split; [intros fresh Hf..|intros fresh k stage Hf Hk Hb]; specialize (Hsel fresh Hf); unfold resolve.
  - change (negb _ && negb _) with false. cbv iota beta zeta. rewrite Hsel. done.
  - change (negb _ && negb _) with false. cbv iota beta zeta. rewrite Hsel. by rewrite <- (pipeline_status_last _ Hst).
  - pose proof (numbered_select _ _ Hn (lookup_lt_Some _ _ _ Hk) Hb) as Hnum. rewrite Hk in Hnum. split_and!.
    all: change (negb _ && negb _) with false; cbv iota beta zeta; rewrite Hsel.
    all: unfold mbind, outcome_bind; first [change (is_shorthand _) with true|change (is_shorthand _) with false].
    all: cbv iota; first [rewrite decide_True by done|idtac]; rewrite Hnum; done.
Qed.

Lemma commit_var config r s : var (chars_of "o") (commit config r s) = Some (trimmed (output r)).
Proof.
  unfold var, commit. cbn [vars with_runs with_vars]. rewrite (lookup_insert_ne _ (chars_of "s")) by done.
  rewrite (lookup_insert_ne _ (chars_of "e")) by done. by rewrite lookup_insert_eq.
Qed.

Lemma commit_readable config report s :
  numbered report → r_status report = last_pipeline_status report → 0 < keep_runs config →
  readable report (commit config report s).
Proof. intros. apply last_readable; [done..|]. by apply commit_last. Qed.

Lemma eval_run {SY : Sys} others config src w p :
  (∀ s o, state_ok config s → state_ok config (others s o).1) → world_ok config w → parse src = Ok p →
  let id := next_run (others (shell w) (outside w)).1 in
  ∃ report s,
    numbered report ∧
    keeps_cuts (run_program others config (foreground_ctx config) id src true) p (locked others alloc_run_id w).2 report ∧
    r_id report = id ∧ r_source report = src ∧
    r_status report = last_pipeline_status report ∧ state_ok config s ∧
    shell (eval others config src w).2 = commit config report s ∧ current (eval others config src w).2 = current w ∧
    ((eval others config src w).1 = Ok report ∧ aborted report = None ∨
     ∃ e, (eval others config src w).1 = Err e ∧ aborted report = Some (display e)).
Proof.
  intros Hothers [Hs Hr] Hp id. subst id. pose proof (parse_ok src) as Hok. rewrite Hp in Hok. destruct Hok as [depth Hok].
  unfold eval. rewrite Hp. unfold locked, mbind, sm_bind, mret, sm_ret. pose proof (Hothers _ (outside w) Hs) as Ho.
  destruct (others (shell w) (outside w)) as [s0 o0]. simpl in Ho. cbn [alloc_run_id fst].
  assert (world_ok config (mkWorld (with_next_run (next_run s0 + 1) s0) o0 (current w))) as Hw.
  { split; [by apply (same_runs_ok config s0)|done]. }
  destruct (run_program_recorded others config Hothers _ _ depth (foreground_ctx config) (next_run s0) src true p Hok _ Hw)
    as (report & s & ? & ? & ? & ? & ? & ? & ? & ? & ?).
  exists report, s. split_and!; done.
Qed.

(** C13. [eval], whatever other threads do between its critical sections that keeps
    the state well-formed: it never panics.  A text that does not parse changes
    nothing.  Any other is run under the next id, and its report is committed
    whether the run ends or an error cuts it short, which the report then gives
    as its reason.  What ran before is kept: when a beginning of the program (its
    first items, and perhaps the first pipelines of the next one's [&&] and [||]
    list) run alone under the same id, from the same state, comes to its end, then
    the report begins with all the pipelines, substitutions and background runs
    that it has.  The report's stages are numbered in
    the order they ran, over all its pipelines, and every pipeline has stages and
    the status of the last one that failed otherwise than by a broken pipe; the
    history stays within its bound, and [$o] is what the report shows.  A later
    run reads its output, status and stages, by their numbers, from the
    newest run of the history. *)
Theorem eval_recorded {SY : Sys} others config src w :
  (∀ s o, state_ok config s → state_ok config (others s o).1) → world_ok config w →
  let r := (eval others config src w).1 in
  let w' := (eval others config src w).2 in
  world_ok config w' ∧ current w' = current w ∧
  match parse src with
  | Panic => False
  | Err e => r = Err (EParse e) ∧ w' = w
  | Ok p => let id := next_run (others (shell w) (outside w)).1 in ∃ report s,
      numbered report ∧ r_id report = id ∧ r_source report = src ∧
      (∀ p' earlier, cut p' p →
        (run_program others config (foreground_ctx config) id src true p' (locked others alloc_run_id w).2).1 = Ok earlier →
        extends earlier report) ∧
      r_status report = last_pipeline_status report ∧ shell w' = commit config report s ∧
      (r = Ok report ∧ aborted report = None ∨ ∃ e, r = Err e ∧ aborted report = Some (display e)) ∧
      var (chars_of "o") (shell w') = Some (trimmed (output report)) ∧
      (0 < keep_runs config → readable report (shell w'))
  end.
Proof.
  intros Hothers Hw r w'. pose proof (parse_ok src) as Hok. destruct (parse src) as [p|e|] eqn:Hp; [| |done].
  - destruct (eval_run others config src w p Hothers Hw Hp) as (report & s & Hn & Hk & Hid & Hsrc & Hst & Hs & Hc & Hcur & Hr).
    subst r w'. split; [split; [rewrite Hc; by apply commit_ok|rewrite Hcur; apply Hw]|]. split; [done|].
    exists report, s. split_and!; try done; [rewrite Hc; apply commit_var|]. intros Hkeep. rewrite Hc. by apply commit_readable.
  - subst r w'. unfold eval. by rewrite Hp.
Qed.

Lemma start_world_ok : world_ok small start_world.
Proof.
  split; [|by split; [|constructor]]. split; [simpl; lia|constructor|]. intros name _. right. apply lookup_empty.
Qed.

Lemma eval_recorded_witness :
  (∀ s o, state_ok small s → state_ok small (alone s o).1) ∧ world_ok small start_world ∧
  world_ok small (toy_eval "echo hi | cat x && fail; echo $nothing" start_world).2.
Proof.
  split; [intros s o Hs; exact Hs|]. split; [exact start_world_ok|].
  exact (proj1 (eval_recorded alone small (chars_of "echo hi | cat x && fail; echo $nothing") start_world
    (λ s o Hs, Hs) start_world_ok)).
Defined.

(** What that run leaves: its three stages, the status of the last, and why it
    stopped. *)
Example stopped_run :
  let w := toy_runs ["echo hi | cat x && fail; echo $nothing"]%string in
  let report := head (runs (shell w)) in
  (map (λ s, (index s, s_status s)) ∘ stages <$> report) = Some [(0, 0%Z); (1, 0%Z); (2, 3%Z)] ∧
  r_status <$> report = Some 3%Z ∧
  report ≫= aborted = Some (chars_of "unset variable `$nothing`").
Proof. by vm_compute. Qed.

(** * Where it departs from what it says

    The text of a substitution inside another is taken from the inner one's text,
    at positions of the outer one's. *)
Example nested_source_lost :
  let w := toy_runs ["cat a $(cat b $(cat c))"]%string in
  (fmap r_source ∘ substitutions <$> head (runs (shell w))) = Some [chars_of "$(cat b $(cat c))"] ∧
  ((λ r, concat (fmap r_source ∘ substitutions <$> substitutions r)) <$> head (runs (shell w))) = Some [[]].
Proof. by vm_compute. Qed.

(** Redirections without a command touch no file. *)
Example redirect_alone_does_nothing :
  let w := toy_runs ["> f"]%string in
  (fmap argv ∘ stages <$> head (runs (shell w))) = Some [[chars_of "set"]] ∧ outside w = (0 : os).
Proof. by vm_compute. Qed.

(** A substitution changes the shell's directory. *)
Example substitution_moves_the_shell :
  cwd (shell (toy_runs ["echo $(cd /tmp)"]%string)) = chars_of "/tmp".
Proof. by vm_compute. Qed.

(** The assignments before a builtin are not even expanded. *)
Example prefix_assignment_ignored :
  (output <$> head (runs (shell (toy_runs ["X=$NOPE echo hi"]%string)))) = Some (chars_of "hi" ++ [newline]) ∧
  (toy_eval "X=$NOPE cat hi" start_world).1 = Err (UnsetVar (chars_of "NOPE")).
Proof. by vm_compute. Qed.

(** A quoted empty word before a tilde does not quote it. *)
Example quoted_tilde_expands :
  (output <$> head (runs (shell (toy_runs ["echo ''~"]%string)))) = Some (chars_of "/home" ++ [newline]).
Proof. by vm_compute. Qed.
