(* ===== verification/PlumbEngine.v ===== *)
(** The engine of plumb: the main thread spawns the stages, a thread copies each
    stream into its capture and on to where it goes, and the processes read and
    write as they like ([packages/plumb/core/src/engine.rs], [run_pipeline],
    [spawn_external], [StageStream]).

    Pipes hold [capacity] bytes.  A write puts in what fits and waits with the
    rest; a read takes a part of what is there, and sees the end when there is
    nothing and nobody left to write.  Reads of a pipe do not fail. *)

From stdpp Require Import base gmap sets list relations strings.
From S2P Require Import Prelude Chars StateErr PlumbParse PlumbReport PlumbShell.

(** * State *)

(** A pipe: what was read from it so far, and what is in it. *)
Record Pipe := mkPipe { got : list byte; buffered : list byte }.
Definition sent (p : Pipe) : list byte := got p ++ buffered p.
Definition new_pipe : Pipe := mkPipe [] [].
Definition put (c : list byte) (p : Pipe) : Pipe := mkPipe (got p) (buffered p ++ c).

(** Where a stream goes besides its capture. *)
Inductive Forward := FPipe | FFile (sink : FileSink) | ParentStdout | ParentStderr | Discard.

(** A copying thread, or a capture that is complete; [seen] are the chunks that
    were written to the capture.  In [Writing], [rest] is what is left of the
    chunk that is being forwarded. *)
Inductive Stream :=
| Reading (seen : list (list byte))
| Writing (seen : list (list byte)) (rest : list byte)
| Ready (seen : list (list byte)).

Definition seen_of (t : Stream) : list (list byte) :=
  match t with Reading seen => seen | Writing seen _ => seen | Ready seen => seen end.
Definition live (t : Stream) : bool := match t with Ready _ => false | _ => true end.

(** What [wait4] reports of a process. *)
Inductive WaitStatus := WExited (code : Z) | WSignaled (signal : Z) | WOther.
Record timeval := mkTimeval { tv_sec : Z; tv_usec : Z }.
Record Reaped := mkReaped { w_status : WaitStatus; ru_utime : timeval; ru_stime : timeval }.

Definition exit_status (w : WaitStatus) : Z :=
  match w with WExited code => code | WSignaled signal => 128 + signal | WOther => 1 end.

(** [timeval_millis], in 64 bits. *)
Definition timeval_millis (t : timeval) : Z :=
  let seconds := Z.max 0 (tv_sec t) in
  let micros := Z.max 0 (tv_usec t) in
  Z.min (2 ^ 64 - 1) (Z.min (2 ^ 64 - 1) (seconds * 1000) + micros / 1000).

(** A process and what it started: which of its streams are open, and what
    [wait4] reports of it once it exited. *)
Record Proc := mkProc { in_open : bool; out_open : bool; err_open : bool; exited : option Reaped }.

(** [Running], with the pipes of the stage: the two its process writes to, and
    [edge], which the next stage reads. *)
Record Running := mkRunning {
  child : option Proc; out_pipe : Pipe; err_pipe : Pipe; edge : Pipe; r_stdout : Stream; r_stderr : Stream }.

Inductive Main :=
| Starting
| Echoing (e : Pipe) (rest : list byte)
| Waiting (results : list Child)
| Returned (results : list Child)
| Failed.

Record Engine := mkState { running : list Running; main : Main }.

Section engine.
Context (capacity : nat) (config : EngineConfig) (specs : list StageSpec).

Definition is_last (position : nat) : bool := bool_decide (position + 1 = length specs).

(** ** [spawn_external] *)

Definition stdout_forward (x : ExternalSpec) (last : bool) : Forward :=
  match stdout_file x with
  | Some sink => FFile sink
  | None => if negb last then FPipe else if echo_stdout config then ParentStdout else Discard
  end.
Definition stderr_forward (x : ExternalSpec) : Forward :=
  match stderr_file x with
  | Some sink => FFile sink
  | None => if echo_stderr config then ParentStderr else Discard
  end.

Definition forward_of (position : nat) (err : bool) : Forward :=
  match specs !! position with
  | Some (External x) => if err then stderr_forward x else stdout_forward x (is_last position)
  | _ => Discard
  end.

(** The pipe a descriptor of the process writes to: [true] is that of stderr. *)
Definition routed (position : nat) (err : bool) : bool :=
  match specs !! position with
  | Some (External x) => if err then negb (stderr_to_stdout x) else stdout_to_stderr x
  | _ => err
  end.

Definition spawned_stage : Running :=
  mkRunning (Some (mkProc true true true None)) new_pipe new_pipe new_pipe (Reading []) (Reading []).
(** A builtin, or a program that was not found; [out] is what an echo captured. *)
Definition ready_stage (e : Pipe) (out : list (list byte)) : Running :=
  mkRunning None new_pipe new_pipe e (Ready out) (Ready []).

(** ** The ends of the pipes *)

Definition pipe_of (err : bool) (r : Running) : Pipe := if err then err_pipe r else out_pipe r.
Definition stream_of (err : bool) (r : Running) : Stream := if err then r_stderr r else r_stdout r.
Definition fd_open (err : bool) (p : Proc) : bool := if err then err_open p else out_open p.

(** Some descriptor of the process still writes to the pipe. *)
Definition written_to (position : nat) (err : bool) (r : Running) : bool :=
  match child r with
  | Some p => (fd_open false p && eqb (routed position false) err) || (fd_open true p && eqb (routed position true) err)
  | None => false
  end.

(** The reading end of the edge behind a stage: held for the next stage until
    that is started, then its stdin. *)
Definition edge_read (s : Engine) (position : nat) : bool :=
  match running s !! S position with
  | Some r => from_option in_open false (child r)
  | None => match main s with Failed => false | _ => true end
  end.

(** ** Updates *)

Definition with_pipe (err : bool) (p : Pipe) (r : Running) : Running :=
  if err then mkRunning (child r) (out_pipe r) p (edge r) (r_stdout r) (r_stderr r)
  else mkRunning (child r) p (err_pipe r) (edge r) (r_stdout r) (r_stderr r).
Definition with_stream (err : bool) (t : Stream) (r : Running) : Running :=
  if err then mkRunning (child r) (out_pipe r) (err_pipe r) (edge r) (r_stdout r) t
  else mkRunning (child r) (out_pipe r) (err_pipe r) (edge r) t (r_stderr r).
Definition with_edge (e : Pipe) (r : Running) : Running :=
  mkRunning (child r) (out_pipe r) (err_pipe r) e (r_stdout r) (r_stderr r).
Definition with_child (p : Proc) (r : Running) : Running :=
  mkRunning (Some p) (out_pipe r) (err_pipe r) (edge r) (r_stdout r) (r_stderr r).

Definition set_stage (position : nat) (r : Running) (s : Engine) : Engine :=
  mkState (<[position := r]> (running s)) (main s).
Definition push_stage (r : Running) (s : Engine) : Engine := mkState (running s ++ [r]) Starting.
Definition set_main (m : Main) (s : Engine) : Engine := mkState (running s) m.

(** ** The main thread *)

(** What a stage came to, once its process is reaped and its streams are joined. *)
Definition finished (position : nat) (r : Running) : option Child :=
  match specs !! position, child r with
  | Some (External _), Some p =>
      match exited p, r_stdout r, r_stderr r with
      | Some w, Ready out, Ready err =>
          Some (Exited (exit_status (w_status w)) (timeval_millis (ru_utime w)) (timeval_millis (ru_stime w)) out err)
      | _, _, _ => None
      end
  | _, _ => Some NotFound
  end.

Inductive main_step : Engine → Engine → Prop :=
| m_echo s text argv :
    main s = Starting → specs !! length (running s) = Some (Echo text argv) → is_last (length (running s)) = false →
    main_step s (set_main (Echoing new_pipe text) s)
| m_echo_write s e c rest :
    main s = Echoing e (c ++ rest) → c ≠ [] → length (buffered e) + length c ≤ capacity →
    main_step s (set_main (Echoing (put c e) rest) s)
| m_echo_done s e text argv :
    main s = Echoing e [] → specs !! length (running s) = Some (Echo text argv) →
    main_step s (push_stage (ready_stage e [text]) s)
| m_echo_last s text argv :
    main s = Starting → specs !! length (running s) = Some (Echo text argv) → is_last (length (running s)) = true →
    main_step s (push_stage (ready_stage new_pipe [text]) s)
| m_quiet s status argv :
    main s = Starting → specs !! length (running s) = Some (Quiet status argv) →
    main_step s (push_stage (ready_stage new_pipe []) s)
| m_spawn s x :
    main s = Starting → specs !! length (running s) = Some (External x) → main_step s (push_stage spawned_stage s)
| m_not_found s x :
    main s = Starting → specs !! length (running s) = Some (External x) →
    main_step s (push_stage (ready_stage new_pipe []) s)
| m_start_fails s x :
    main s = Starting → specs !! length (running s) = Some (External x) → main_step s (set_main Failed s)
| m_pipe_fails s :
    main s = Starting → S (length (running s)) < length specs → main_step s (set_main Failed s)
| m_all_started s :
    main s = Starting → length (running s) = length specs → main_step s (set_main (Waiting []) s)
| m_wait s results r result :
    main s = Waiting results → running s !! length results = Some r → finished (length results) r = Some result →
    main_step s (set_main (Waiting (results ++ [result])) s)
| m_wait_fails s results r :
    main s = Waiting results → running s !! length results = Some r → is_Some (child r) →
    main_step s (set_main Failed s)
| m_return s results :
    main s = Waiting results → length results = length (running s) → main_step s (set_main (Returned results) s).

(** ** The copying threads: [StageStream::spawn] *)

Definition BUF : nat := 8192.

Inductive tee_step : Engine → Engine → Prop :=
| t_read s position r err seen g c d :
    running s !! position = Some r → stream_of err r = Reading seen → pipe_of err r = mkPipe g (c ++ d) →
    c ≠ [] → length c ≤ BUF →
    tee_step s (set_stage position (with_stream err (Writing (seen ++ [c]) c) (with_pipe err (mkPipe (g ++ c) d) r)) s)
| t_end s position r err seen :
    running s !! position = Some r → stream_of err r = Reading seen → buffered (pipe_of err r) = [] →
    written_to position err r = false →
    tee_step s (set_stage position (with_stream err (Ready seen) r) s)
| t_write s position r err seen c rest :
    running s !! position = Some r → stream_of err r = Writing seen (c ++ rest) → forward_of position err = FPipe →
    c ≠ [] → edge_read s position = true → length (buffered (edge r)) + length c ≤ capacity →
    tee_step s (set_stage position (with_stream err (Writing seen rest) (with_edge (put c (edge r)) r)) s)
| t_written s position r err seen :
    running s !! position = Some r → stream_of err r = Writing seen [] → forward_of position err = FPipe →
    tee_step s (set_stage position (with_stream err (Reading seen) r) s)
| t_hangup s position r err seen rest :
    running s !! position = Some r → stream_of err r = Writing seen rest → rest ≠ [] → forward_of position err = FPipe →
    edge_read s position = false →
    tee_step s (set_stage position (with_stream err (Ready seen) r) s)
| t_sink s position r err seen rest :
    running s !! position = Some r → stream_of err r = Writing seen rest → forward_of position err ≠ FPipe →
    tee_step s (set_stage position (with_stream err (Reading seen) r) s)
| t_sink_fails s position r err seen rest :
    running s !! position = Some r → stream_of err r = Writing seen rest → forward_of position err ≠ FPipe →
    forward_of position err ≠ Discard →
    tee_step s (set_stage position (with_stream err (Ready seen) r) s).

(** ** The processes *)

Inductive child_step : Engine → Engine → Prop :=
| c_read s position r r' p g c d :
    running s !! position = Some r → running s !! S position = Some r' → child r' = Some p → in_open p = true →
    edge r = mkPipe g (c ++ d) →
    child_step s (set_stage position (with_edge (mkPipe (g ++ c) d) r) s)
| c_write s position r p fd c :
    running s !! position = Some r → child r = Some p → fd_open fd p = true →
    live (stream_of (routed position fd) r) = true →
    length (buffered (pipe_of (routed position fd) r)) + length c ≤ capacity →
    child_step s (set_stage position (with_pipe (routed position fd) (put c (pipe_of (routed position fd) r)) r) s)
| c_close s position r p p' :
    running s !! position = Some r → child r = Some p → exited p' = exited p →
    Is_true (implb (in_open p') (in_open p)) → Is_true (implb (out_open p') (out_open p)) →
    Is_true (implb (err_open p') (err_open p)) →
    child_step s (set_stage position (with_child p' r) s)
| c_exit s position r p status :
    running s !! position = Some r → child r = Some p → exited p = None →
    child_step s (set_stage position (with_child (mkProc (in_open p) (out_open p) (err_open p) (Some status)) r) s).

Definition step (s s' : Engine) : Prop := main_step s s' ∨ tee_step s s' ∨ child_step s s'.
Definition start : Engine := mkState [] Starting.
Definition reachable (s : Engine) : Prop := rtc step start s.

(** * What the states satisfy *)

(** What is forwarded is what was captured, and that is what was read; a stream
    that was not read to its end has a closed edge. *)
Definition edge_ok (readable : bool) (position : nat) (r : Running) : Prop :=
  match r_stdout r with
  | Reading seen => sent (edge r) = concat seen
  | Writing seen rest => sent (edge r) ++ rest = concat seen
  | Ready seen =>
      sent (edge r) = concat seen ∧ buffered (out_pipe r) = [] ∧ written_to position false r = false ∨
      sent (edge r) `prefix_of` concat seen ∧ readable = false
  end.

Definition flows (readable : bool) (position : nat) (r : Running) : Prop :=
  (∀ err, concat (seen_of (stream_of err r)) = got (pipe_of err r)) ∧
  (forward_of position false = FPipe → edge_ok readable position r) ∧
  (forward_of position false ≠ FPipe → sent (edge r) = []).

Definition stage_ok (readable : bool) (position : nat) (r : Running) : Prop :=
  match child r with
  | Some _ => ∃ x, specs !! position = Some (External x) ∧ flows readable position r
  | None =>
      (∀ err, live (stream_of err r) = false) ∧
      match specs !! position with
      | Some (Echo text _) => is_last position = false → sent (edge r) = text
      | Some _ => sent (edge r) = []
      | None => False
      end
  end.

(** What the main thread has in hand. *)
Definition main_ok (n : nat) (l : list Running) (m : Main) : Prop :=
  match m with
  | Starting | Failed => True
  | Echoing e rest => ∃ text argv,
      specs !! n = Some (Echo text argv) ∧ is_last n = false ∧ got e = [] ∧ buffered e ++ rest = text
  | Waiting results | Returned results =>
      n = length specs ∧ ∀ k c, results !! k = Some c → ∃ r, l !! k = Some r ∧ finished k r = Some c
  end.

Record engine_ok (s : Engine) : Prop := {
  ok_length : length (running s) ≤ length specs;
  ok_main : main_ok (length (running s)) (running s) (main s);
  ok_returned : ∀ results, main s = Returned results → length results = length specs;
  ok_stages : ∀ k r, running s !! k = Some r → stage_ok (edge_read s k) k r;
}.

Lemma stage_ok_mono b b' k r : stage_ok b k r → (b = false → b' = false) → stage_ok b' k r.
Proof.
  unfold stage_ok, flows, edge_ok. intros H Hb. destruct (child r); [|done].
  destruct H as (x & Hx & H1 & H2 & H3). exists x. split_and!; [done..| |done]. intros Hf. specialize (H2 Hf).
  destruct (r_stdout r); naive_solver.
Qed.

Lemma stderr_not_piped k : forward_of k true ≠ FPipe.
Proof.
  unfold forward_of, stderr_forward. destruct (specs !! k) as [[x| |]|]; try done. destruct (stderr_file x); [done|].
  by destruct (echo_stderr config).
Qed.

Lemma start_stages_ok : engine_ok start.
Proof. by split; [simpl; lia| | |]. Qed.

(** ** One stage changes *)

Lemma edge_read_set s k r j r' :
  running s !! k = Some r → edge_read s j = false →
  (from_option in_open false (child r) = false → from_option in_open false (child r') = false) →
  edge_read (set_stage k r' s) j = false.
Proof.
  intros Hk Hj Himp. unfold edge_read, set_stage in *. simpl. destruct (decide (S j = k)) as [<-|Hne].
  - rewrite Hk in Hj. rewrite list_lookup_insert_eq by by eapply lookup_lt_Some. by apply Himp.
  - by rewrite list_lookup_insert_ne.
Qed.

Lemma set_stage_ok s k r r' :
  engine_ok s → running s !! k = Some r →
  (from_option in_open false (child r) = false → from_option in_open false (child r') = false) →
  (∀ c, finished k r = Some c → finished k r' = Some c) →
  (∀ b, (edge_read s k = false → b = false) → stage_ok b k r') →
  engine_ok (set_stage k r' s).
Proof.
  intros [H1 H2 H3 H4] Hk Hin Hfin Hst. pose proof (lookup_lt_Some _ _ _ Hk) as Hlt.
  split; unfold set_stage; cbn [running main]; [by rewrite length_insert| |done|].
  - rewrite length_insert. unfold main_ok in *. destruct (main s) as [| |results|results|]; try done; destruct H2 as [H2 Hres]; (split; [done|]);
      intros j c Hj; destruct (Hres j c Hj) as (r0 & Hr0 & Hf); destruct (decide (j = k)) as [->|];
      [|by exists r0; rewrite list_lookup_insert_ne| |by exists r0; rewrite list_lookup_insert_ne];
      exists r'; rewrite list_lookup_insert_eq by done; (split; [done|]); apply Hfin; congruence.
  - intros j rj Hj. destruct (decide (j = k)) as [->|].
    + rewrite list_lookup_insert_eq in Hj by done. injection Hj as <-. apply Hst. intros He. by apply (edge_read_set s k r).
    + rewrite list_lookup_insert_ne in Hj by done. eapply stage_ok_mono; [by apply H4|]. intros He.
      by apply (edge_read_set s k r).
Qed.

(** ** The copying threads and the processes *)

Lemma live_child b k r err :
  stage_ok b k r → live (stream_of err r) = true →
  ∃ x p, specs !! k = Some (External x) ∧ child r = Some p ∧ flows b k r.
Proof.
  unfold stage_ok. intros H Hl. destruct (child r) as [p|]; [|by destruct H as [H _]; rewrite H in Hl].
  destruct H as (x & ? & ?). by exists x, p.
Qed.

Lemma live_unfinished k r err c p x :
  specs !! k = Some (External x) → child r = Some p → live (stream_of err r) = true → finished k r ≠ Some c.
Proof.
  unfold finished. intros -> -> Hl. destruct (exited p); [|done].
  destruct err; simpl in Hl; [destruct (r_stdout r); [done..|]|]; by destruct (r_stdout r), (r_stderr r).
Qed.

(** A thread's step: the process is as it was. *)
Lemma tee_stage_ok s k r r' err :
  engine_ok s → running s !! k = Some r → live (stream_of err r) = true → child r' = child r →
  (∀ b, (edge_read s k = false → b = false) → flows b k r → flows b k r') →
  engine_ok (set_stage k r' s).
Proof.
  intros Hok Hk Hl Hc Hf. pose proof (ok_stages _ Hok _ _ Hk) as Hst.
  destruct (live_child _ _ _ _ Hst Hl) as (x & p & Hx & Hp & _).
  apply (set_stage_ok _ _ r); [done|done|by rewrite Hc| |].
  - intros c Hfin. by destruct (live_unfinished k r err c p x).
  - intros b Hb. pose proof (stage_ok_mono _ b _ _ Hst Hb) as Hst'. unfold stage_ok in *. rewrite Hc, Hp in *.
    destruct Hst' as (x' & ? & ?). exists x'. split; [done|]. by apply Hf.
Qed.

Lemma flows_with_stream b k r err t :
  seen_of t = seen_of (stream_of err r) →
  (err = false → forward_of k false = FPipe → edge_ok b k r → edge_ok b k (with_stream false t r)) →
  flows b k r → flows b k (with_stream err t r).
Proof.
  intros Hs He (H1 & H2 & H3). split; [|split].
  - intros e. pose proof (H1 e) as H1e. destruct err, e; simpl in *; by rewrite ?Hs.
  - intros Hf. destruct err; [exact (H2 Hf)|by apply He, H2].
  - intros Hf. pose proof (H3 Hf). by destruct err.
Qed.

(** A chunk is read, captured, and about to be forwarded. *)
Lemma flows_read b k r err seen g c d :
  stream_of err r = Reading seen → pipe_of err r = mkPipe g (c ++ d) → flows b k r →
  flows b k (with_stream err (Writing (seen ++ [c]) c) (with_pipe err (mkPipe (g ++ c) d) r)).
Proof.
  intros Ht Hp (H1 & H2 & H3). split; [|split].
  - intros e. pose proof (H1 e) as H1e. destruct err, e; simpl in *; try exact H1e;
      rewrite Ht, Hp in H1e; rewrite concat_app; simpl in *; rewrite H1e; by rewrite app_nil_r.
  - intros Hf. specialize (H2 Hf). destruct err; [exact H2|]. unfold edge_ok in *. simpl in *. rewrite Ht in H2.
    rewrite H2, concat_app. simpl. by rewrite app_nil_r.
  - intros Hf. pose proof (H3 Hf). by destruct err.
Qed.

Lemma put_sent c p : sent (put c p) = sent p ++ c.
Proof. unfold sent, put. simpl. by rewrite (assoc_L (++)). Qed.

Lemma piped_stdout k err : forward_of k err = FPipe → err = false.
Proof. destruct err; [|done]. intros H. by destruct (stderr_not_piped k). Qed.

Lemma tee_step_ok s s' : engine_ok s → tee_step s s' → engine_ok s'.
Proof.
  intros Hok Hstep. destruct Hstep as [s k r err seen g c d Hk Ht Hp Hc Hle|s k r err seen Hk Ht Hb Hw
    |s k r err seen c rest Hk Ht Hf Hc He Hle|s k r err seen Hk Ht Hf|s k r err seen rest Hk Ht Hr Hf He
    |s k r err seen rest Hk Ht Hf|s k r err seen rest Hk Ht Hf Hd].
  all: apply (tee_stage_ok _ _ r _ err); [done|done|by rewrite Ht|by destruct err|].
  all: intros b Hbe Hfl.
  - by apply flows_read.
  - apply flows_with_stream; [by rewrite Ht| |done]. intros -> Hf Hedge. unfold edge_ok in *. simpl in *.
    rewrite Ht in Hedge. by left.
  - pose proof (piped_stdout _ _ Hf) as ->. destruct Hfl as (H1 & H2 & H3). split; [|split; [|done]].
    + intros e. pose proof (H1 e) as H1e. destruct e; [exact H1e|]. simpl in *. by rewrite Ht in H1e.
    + intros _. specialize (H2 Hf). unfold edge_ok in *. simpl in *. rewrite Ht in H2. rewrite put_sent.
      by rewrite <- (assoc_L (++)).
  - apply flows_with_stream; [by rewrite Ht| |done]. intros -> _ Hedge. unfold edge_ok in *. simpl in *.
    rewrite Ht, app_nil_r in Hedge. done.
  - apply flows_with_stream; [by rewrite Ht| |done]. intros -> _ Hedge. unfold edge_ok in *. simpl in *.
    rewrite Ht in Hedge. right. split; [by exists rest|by apply Hbe].
  - apply flows_with_stream; [by rewrite Ht| |done]. by intros ->.
  - apply flows_with_stream; [by rewrite Ht| |done]. by intros ->.
Qed.

(** The next stage reads: nothing that is stated here changes. *)
Lemma stage_ok_edge b k r e : sent e = sent (edge r) → stage_ok b k r → stage_ok b k (with_edge e r).
Proof.
  intros He H. unfold stage_ok, flows, edge_ok in *. cbn [child with_edge edge r_stdout] in *. rewrite He. exact H.
Qed.

(** A descriptor is closed, or the process exits. *)
Lemma flows_with_child b k r p q :
  child r = Some p → (∀ fd, fd_open fd p = false → fd_open fd q = false) → flows b k r → flows b k (with_child q r).
Proof.
  intros Hp Hq (H1 & H2 & H3). split; [exact H1|]. split; [|exact H3]. intros Hf. specialize (H2 Hf).
  unfold edge_ok in *. cbn [r_stdout edge out_pipe with_child]. destruct (r_stdout r) as [| |seen]; [done..|].
  destruct H2 as [(Hs & Hb & Hw)|]; [left|by right]. split_and!; [done..|]. unfold written_to in *. rewrite Hp in Hw.
  cbn [child with_child]. apply orb_false_iff in Hw as [Ha He]. apply orb_false_iff.
  split; apply andb_false_iff; [apply andb_false_iff in Ha as [Ha|Ha]|apply andb_false_iff in He as [He|He]]; auto.
Qed.

(** A chunk is written to a pipe that is still read. *)
Lemma flows_write b k r e c :
  live (stream_of e r) = true → flows b k r → flows b k (with_pipe e (put c (pipe_of e r)) r).
Proof.
  intros Hl (H1 & H2 & H3). split; [|split].
  - intros e'. pose proof (H1 e') as H1e. by destruct e, e'.
  - intros Hf. specialize (H2 Hf). destruct e; [exact H2|]. unfold edge_ok in *. simpl in *. by destruct (r_stdout r).
  - intros Hf. pose proof (H3 Hf). by destruct e.
Qed.

Lemma with_child_ok s k r p q :
  engine_ok s → running s !! k = Some r → child r = Some p →
  (in_open p = false → in_open q = false) → (∀ fd, fd_open fd p = false → fd_open fd q = false) →
  (exited q = exited p ∨ exited p = None) → engine_ok (set_stage k (with_child q r) s).
Proof.
  intros Hok Hk Hp Hin Hfd Hex. apply (set_stage_ok _ _ r); [done|done|by rewrite Hp| |].
  - intros c. unfold finished. cbn [child with_child r_stdout r_stderr]. rewrite Hp.
    destruct (specs !! k) as [[x| |]|]; try done. destruct Hex as [->| ->]; done.
  - intros b Hb. pose proof (stage_ok_mono _ b _ _ (ok_stages _ Hok _ _ Hk) Hb) as Hst.
    unfold stage_ok in *. rewrite Hp in Hst. cbn [child with_child]. destruct Hst as (x & ? & ?).
    exists x. split; [done|]. by eapply flows_with_child.
Qed.

Lemma child_step_ok s s' : engine_ok s → child_step s s' → engine_ok s'.
Proof.
  intros Hok Hstep. destruct Hstep as [s k r r' p g c d Hk Hk' Hp Hin He|s k r p fd c Hk Hp Ho Hl Hle
    |s k r p p' Hk Hp Hex Hi Hout Herr|s k r p status Hk Hp Hex].
  - pose proof (ok_stages _ Hok _ _ Hk) as Hst. apply (set_stage_ok _ _ r); [done..|].
    intros b Hb. eapply stage_ok_mono in Hst; [|exact Hb]. apply stage_ok_edge; [|done].
    rewrite He. unfold sent. simpl. by rewrite (assoc_L (++)).
  - apply (tee_stage_ok _ _ r _ (routed k fd)); [done|done|done|by destruct (routed k fd)|].
    intros b _. by apply flows_write.
  - apply (with_child_ok _ _ _ p); [done..| | |by left].
    + intros H. by destruct (in_open p'); [rewrite H in Hi|].
    + intros fd H. destruct fd; simpl in *; [by destruct (err_open p'); [rewrite H in Herr|]|by destruct (out_open p'); [rewrite H in Hout|]].
  - apply (with_child_ok _ _ _ p); [done..| |by right]. by intros [].
Qed.

(** ** The main thread *)

Lemma not_last k : k < length specs → is_last k = false → S k < length specs.
Proof. unfold is_last. intros Hk Hl. apply bool_decide_eq_false in Hl. lia. Qed.

(** A stage is started: what is in front of it keeps its reader, or loses it. *)
Lemma push_stage_ok s r :
  engine_ok s → main s ≠ Failed → length (running s) < length specs →
  stage_ok true (length (running s)) r → engine_ok (push_stage r s).
Proof.
  intros [H1 H2 H3 H4] Hm Hlen Hr. unfold push_stage. split; cbn [running main]; [rewrite length_app; simpl; lia|done|done|].
  intros k rk Hk. apply lookup_app_Some in Hk as [Hk|[Hge Hk]].
  - eapply stage_ok_mono; [by apply H4|]. unfold edge_read. cbn [running main].
    destruct (running s !! S k) as [r'|] eqn:HS; [by rewrite (lookup_app_l_Some _ _ _ _ HS)|]. by destruct (main s).
  - apply list_lookup_singleton_Some in Hk as [Hk <-]. replace k with (length (running s)) by lia.
    eapply stage_ok_mono; [exact Hr|done].
Qed.


Lemma set_main_ok s m :
  engine_ok s → main s ≠ Failed → main_ok (length (running s)) (running s) m →
  (∀ results, m = Returned results → length results = length specs) → engine_ok (set_main m s).
Proof.
  intros [H1 H2 H3 H4] Hm Hok Hret. split; [done|exact Hok|done|]. intros k r Hk.
  eapply stage_ok_mono; [by apply H4|]. unfold edge_read, set_main. simpl. destruct (running s !! S k); [done|].
  by destruct (main s).
Qed.

Lemma ready_ok e out k :
  match specs !! k with
  | Some (Echo text _) => is_last k = false → sent e = text
  | Some _ => sent e = []
  | None => False
  end → stage_ok true k (ready_stage e out).
Proof. intros H. split; [by intros []|exact H]. Qed.

Lemma spawned_ok k x : specs !! k = Some (External x) → stage_ok true k spawned_stage.
Proof. intros Hx. exists x. split; [done|]. split; [by intros []|]. by split. Qed.

Lemma main_step_ok s s' : engine_ok s → main_step s s' → engine_ok s'.
Proof.
  intros Hok Hstep. pose proof (ok_main _ Hok) as Hmain.
  destruct Hstep as [s text argv Hm Hs Hl|s e c rest Hm Hc Hle|s e text argv Hm Hs|s text argv Hm Hs Hl|s status argv Hm Hs
    |s x Hm Hs|s x Hm Hs|s x Hm Hs|s Hm Hl|s Hm Hl|s results r result Hm Hr Hf|s results r Hm Hr Hc|s results Hm Hl];
    rewrite Hm in Hmain.
  - apply set_main_ok; [done|congruence| |done]. by exists text, argv.
  - apply set_main_ok; [done|congruence| |done]. destruct Hmain as (text & argv & ? & ? & ? & Ht). exists text, argv.
    split_and!; [done..|]. simpl. by rewrite <- (assoc_L (++)).
  - apply push_stage_ok; [done|congruence|by eapply lookup_lt_Some|]. apply ready_ok. rewrite Hs. intros _.
    destruct Hmain as (text' & argv' & Hs' & _ & Hg & Hb). unfold sent. rewrite Hg. rewrite app_nil_r in Hb. simpl. congruence.
  - apply push_stage_ok; [done|congruence|by eapply lookup_lt_Some|]. apply ready_ok. rewrite Hs. congruence.
  - apply push_stage_ok; [done|congruence|by eapply lookup_lt_Some|]. apply ready_ok. by rewrite Hs.
  - apply push_stage_ok; [done|congruence|by eapply lookup_lt_Some|]. by eapply spawned_ok.
  - apply push_stage_ok; [done|congruence|by eapply lookup_lt_Some|]. apply ready_ok. by rewrite Hs.
  - apply set_main_ok; [done|congruence|done|done].
  - apply set_main_ok; [done|congruence|done|done].
  - apply set_main_ok; [done|congruence| |done]. split; [done|]. intros k c Hk. by rewrite lookup_nil in Hk.
  - apply set_main_ok; [done|congruence| |done]. destruct Hmain as [Hn Hres]. split; [done|]. intros k c Hk.
    apply lookup_app_Some in Hk as [Hk|[Hge Hk]]; [by apply Hres|].
    apply list_lookup_singleton_Some in Hk as [Hk <-]. replace k with (length results) by lia. by exists r.
  - apply set_main_ok; [done|congruence|done|done].
  - destruct Hmain as [Hn Hres]. apply set_main_ok; [done|congruence|done|]. intros ? [= <-]. congruence.
Qed.

Lemma engine_reachable_ok s : reachable s → engine_ok s.
Proof.
  unfold reachable. pose proof start_stages_ok as Hok. generalize dependent start.
  induction 2 as [|s1 s2 s3 [H|[H|H]] _ IH]; [done|..]; apply IH;
    [by eapply main_step_ok|by eapply tee_step_ok|by eapply child_step_ok].
Qed.

(** ** Echo before its reader *)

Definition spawning (s : Engine) : Prop := main s = Starting ∨ ∃ e rest, main s = Echoing e rest.
Definition started (s : Engine) : Prop := ∃ s', rtc main_step s s' ∧ main s' = Waiting [].

Definition echo_fits : Prop :=
  ∀ k text argv, specs !! k = Some (Echo text argv) → S k < length specs → length text ≤ capacity.

Lemma started_step s s' : main_step s s' → started s' → started s.
Proof. intros Hs (s'' & ? & ?). exists s''. split; [by eapply rtc_l|done]. Qed.

(** From wherever the next stage is started, the rest are. *)
Definition rest_started (s : Engine) : Prop := ∀ s',
  engine_ok s' → main s' = Starting → length (running s') = S (length (running s)) → started s'.

Lemma push_started s r : engine_ok s → rest_started s → main_step s (push_stage r s) → started s.
Proof.
  intros Hok Hrest Hst. eapply started_step; [exact Hst|]. apply Hrest; [by eapply main_step_ok|done|].
  simpl. rewrite length_app. simpl. lia.
Qed.

(** What fits is written at once. *)
Lemma echo_started s e rest :
  engine_ok s → rest_started s → main s = Echoing e rest → length (buffered e) + length rest ≤ capacity → started s.
Proof.
  intros Hok Hrest Hm Hle. pose proof (ok_main _ Hok) as Hmain. rewrite Hm in Hmain.
  destruct Hmain as (text & argv & Hs & _). destruct (decide (rest = [])) as [->|Hne].
  { eapply push_started; [done..|]. by eapply m_echo_done. }
  assert (main_step s (set_main (Echoing (put rest e) []) s)) as Hw by (apply m_echo_write; [by rewrite app_nil_r|done|done]).
  eapply started_step; [exact Hw|]. eapply push_started; [by eapply main_step_ok|done|]. by eapply m_echo_done.
Qed.

Lemma spawning_started s : echo_fits → engine_ok s → spawning s → started s.
Proof.
  intros Hfit. remember (length specs - length (running s)) as d eqn:Hd. revert s Hd.
  induction d as [d IH] using lt_wf_ind. intros s Hd Hok Hsp.
  destruct (decide (length (running s) < length specs)) as [Hlt|Hge].
  2:{ pose proof (ok_length _ Hok). destruct Hsp as [Hm|(e & rest & Hm)].
    - exists (set_main (Waiting []) s). split; [|done]. apply rtc_once, m_all_started; [done|lia].
    - pose proof (ok_main _ Hok) as Hmain. rewrite Hm in Hmain. destruct Hmain as (? & ? & Hs & _).
      apply lookup_lt_Some in Hs. lia. }
  assert (rest_started s) as Hrest by (intros s' Hok' Hm' Hl; eapply IH; [|reflexivity|done|by left]; lia).
  destruct Hsp as [Hm|(e & rest & Hm)].
  - destruct (lookup_lt_is_Some_2 specs _ Hlt) as [[x|text argv|status argv] Hs].
    + eapply push_started; [done..|]. by eapply m_spawn.
    + destruct (is_last (length (running s))) eqn:Hl; [eapply push_started; [done..|]; by eapply m_echo_last|].
      assert (main_step s (set_main (Echoing new_pipe text) s)) as Hw by by eapply m_echo.
      eapply started_step; [exact Hw|]. eapply echo_started; [by eapply main_step_ok|done|done|]. simpl.
      eapply Hfit; [done|by apply not_last].
    + eapply push_started; [done..|]. by eapply m_quiet.
  - pose proof (ok_main _ Hok) as Hmain. rewrite Hm in Hmain. destruct Hmain as (text & argv & Hs & Hl & _ & Ht).
    eapply echo_started; [done|done|done|]. rewrite <- length_app, Ht. eapply Hfit; [done|by apply not_last].
Qed.

(** What does not fit is never written: nobody reads yet. *)
Definition stuck_at (k : nat) (s : Engine) : Prop :=
  length (running s) ≤ k ∧ ∀ e rest, main s = Echoing e rest → length (buffered e) ≤ capacity.

Lemma stuck_step k text argv s s' :
  specs !! k = Some (Echo text argv) → S k < length specs → capacity < length text →
  engine_ok s → stuck_at k s → step s s' → stuck_at k s'.
Proof.
  intros Hk Hlt Hcap Hok [Hlen Hfull] [Hstep|[Hstep|Hstep]].
  2:{ destruct Hstep; unfold stuck_at, set_stage; cbn [running main]; rewrite length_insert; by split. }
  2:{ destruct Hstep; unfold stuck_at, set_stage; cbn [running main]; rewrite length_insert; by split. }
  pose proof (ok_main _ Hok) as Hmain.
  assert (∀ r, length (running s) ≠ k → stuck_at k (push_stage r s)) as Hpush.
  { intros r Hne. split; [|done]. simpl. rewrite length_app. simpl. lia. }
  assert (is_last k = false) as Hnl by (apply bool_decide_eq_false; lia).
  destruct Hstep as [s text' argv' Hm Hs Hl|s e c rest Hm Hc Hle|s e text' argv' Hm Hs|s text' argv' Hm Hs Hl|s status argv' Hm Hs
    |s x Hm Hs|s x Hm Hs|s x Hm Hs|s Hm Hl|s Hm Hl|s results r result Hm Hr Hf|s results r Hm Hr Hc|s results Hm Hl].
  - split; [done|]. intros e rest [= <- <-]. simpl. lia.
  - split; [done|]. intros e' rest' [= <- <-]. simpl. rewrite length_app. lia.
  - apply Hpush. intros <-. rewrite Hm in Hmain. destruct Hmain as (t & a & Ht & _ & _ & Hb).
    rewrite app_nil_r in Hb. specialize (Hfull _ _ Hm). rewrite Hb in Hfull. rewrite Hk in Ht. injection Ht as <- _. lia.
  - apply Hpush. intros <-. congruence.
  - apply Hpush. intros <-. congruence.
  - apply Hpush. intros <-. congruence.
  - apply Hpush. intros <-. congruence.
  - by split.
  - by split.
  - by split.
  - by split.
  - by split.
  - by split.
Qed.

Lemma engine_step_ok s s' : engine_ok s → step s s' → engine_ok s'.
Proof. intros Hok [H|[H|H]]; [by eapply main_step_ok|by eapply tee_step_ok|by eapply child_step_ok]. Qed.

(** The main thread writes the text of stage [k], and has not written it all. *)
Definition echoing (k : nat) (s : Engine) : Prop :=
  length (running s) = k ∧ ∃ e rest, main s = Echoing e rest ∧ rest ≠ [].

Lemma echoing_step k text argv s s' :
  specs !! k = Some (Echo text argv) → S k < length specs → capacity < length text →
  engine_ok s → stuck_at k s → length (running s) = k → (∃ e rest, main s = Echoing e rest) → step s s' →
  length (running s') = k ∧ ∃ e rest, main s' = Echoing e rest.
Proof.
  intros Hk Hlt Hcap Hok Hst Hlen (e & rest & Hm) Hstep.
  destruct (stuck_step _ _ _ _ _ Hk Hlt Hcap Hok Hst Hstep) as [Hle _].
  destruct Hstep as [Hstep|[Hstep|Hstep]].
  2:{ destruct Hstep; unfold set_stage; cbn [running main]; rewrite length_insert; eauto. }
  2:{ destruct Hstep; unfold set_stage; cbn [running main]; rewrite length_insert; eauto. }
  destruct Hstep; try congruence; [by eauto|]. cbn [running push_stage] in Hle. rewrite length_app in Hle. simpl in Hle. lia.
Qed.

Lemma echoing_unwritten k text argv s :
  specs !! k = Some (Echo text argv) → capacity < length text → engine_ok s → stuck_at k s →
  length (running s) = k → (∃ e rest, main s = Echoing e rest) → echoing k s.
Proof.
  intros Hk Hcap Hok [_ Hfull] Hlen (e & rest & Hm). split; [done|]. exists e, rest. split; [done|]. intros ->.
  pose proof (ok_main _ Hok) as Hmain. rewrite Hm, Hlen in Hmain. destruct Hmain as (t & a & Ht & _ & _ & Hb).
  rewrite app_nil_r in Hb. specialize (Hfull _ _ Hm). rewrite Hk in Ht. simplify_eq. lia.
Qed.

(** From then on nothing else happens to it, whatever the other threads do. *)
Lemma echoing_forever k text argv s s' :
  specs !! k = Some (Echo text argv) → S k < length specs → capacity < length text →
  engine_ok s → stuck_at k s → length (running s) = k → (∃ e rest, main s = Echoing e rest) → rtc step s s' →
  echoing k s'.
Proof.
  intros Hk Hlt Hcap Hok Hst Hlen Hm Hs. induction Hs as [s|s1 s2 s3 Hstep _ IH]; [by eapply echoing_unwritten|].
  destruct (echoing_step _ _ _ _ _ Hk Hlt Hcap Hok Hst Hlen Hm Hstep).
  apply IH; [by eapply engine_step_ok|by eapply stuck_step|done..].
Qed.

Lemma stuck_forever k text argv s :
  specs !! k = Some (Echo text argv) → S k < length specs → capacity < length text → reachable s →
  stuck_at k s ∧ ∀ results, main s ≠ Waiting results ∧ main s ≠ Returned results.
Proof.
  intros Hk Hlt Hcap Hr. assert (stuck_at k s) as Hst.
  { unfold reachable in Hr. pose proof start_stages_ok as Hok. assert (stuck_at k start) as Hst by (split; [simpl; lia|done]).
    generalize dependent start. induction 1 as [|s1 s2 s3 Hs _ IH]; intros Hok Hst; [done|].
    apply IH; [by eapply engine_step_ok|by eapply stuck_step]. }
  split; [done|]. destruct Hst as [Hlen _]. intros results. pose proof (ok_main _ (engine_reachable_ok _ Hr)) as Hmain.
  split; intros Hm; rewrite Hm in Hmain; destruct Hmain as [? _]; lia.
Qed.

(** ** What the streams carry *)

Lemma stage_flows s k r p :
  engine_ok s → running s !! k = Some r → child r = Some p → flows (edge_read s k) k r.
Proof.
  intros Hok Hk Hp. pose proof (ok_stages _ Hok _ _ Hk) as Hst. unfold stage_ok in Hst. rewrite Hp in Hst.
  by destruct Hst as (x & _ & ?).
Qed.

Lemma piped k x :
  specs !! k = Some (External x) → stdout_file x = None → is_last k = false → forward_of k false = FPipe.
Proof. intros Hx Hf Hl. unfold forward_of, stdout_forward. by rewrite Hx, Hf, Hl. Qed.

(** What the next stage received is a part of what was captured. *)
Lemma edge_received b k r : edge_ok b k r → got (edge r) `prefix_of` concat (seen_of (r_stdout r)).
Proof.
  intros He. assert (sent (edge r) `prefix_of` concat (seen_of (r_stdout r))) as Hs.
  { unfold edge_ok in He. destruct (r_stdout r) as [seen|seen rest|seen]; simpl; [by rewrite He|by exists rest|].
    destruct He as [(-> & _)|[? _]]; done. }
  etrans; [|exact Hs]. by exists (buffered (edge r)).
Qed.

(** If it sees the end, that was all. *)
Lemma edge_complete k r :
  edge_ok true k r → (∀ err, concat (seen_of (stream_of err r)) = got (pipe_of err r)) →
  buffered (edge r) = [] → live (r_stdout r) = false →
  got (edge r) = concat (seen_of (r_stdout r)) ∧ got (edge r) = sent (out_pipe r) ∧ written_to k false r = false.
Proof.
  intros He Hread Hb Hl. specialize (Hread false). simpl in Hread. unfold edge_ok in He.
  destruct (r_stdout r) as [| |seen]; [done..|]. destruct He as [(Hs & Ho & Hw)|[_ ?]]; [|done].
  unfold sent in *. rewrite Hb, app_nil_r in Hs. rewrite Ho, app_nil_r. simpl in *. split_and!; [done|congruence|done].
Qed.

Lemma finished_exited k r x status user sys out err :
  specs !! k = Some (External x) → finished k r = Some (Exited status user sys out err) →
  ∃ p w, child r = Some p ∧ exited p = Some w ∧ status = exit_status (w_status w) ∧
    r_stdout r = Ready out ∧ r_stderr r = Ready err.
Proof.
  unfold finished. intros ->. destruct (child r) as [p|]; [|done]. intros Hf.
  destruct (exited p) as [w|] eqn:Hw; [|done]. destruct (r_stdout r), (r_stderr r); try done.
  injection Hf as <- <- <- <- <-. by exists p, w.
Qed.
End engine.

(** C22. The streams of a pipeline, whatever the order in which its threads and
    processes run.  A capture holds what was read from the pipe, in order.  What
    the next stage of a pipe received is the beginning of what was captured; and
    if that stage sees the end of its input, it received all of it, which is
    all the process wrote, and nobody can write more.  The edge behind an [echo]
    carries its text.  What is returned, for every stage that was found, is its
    status and what its two captures hold. *)
Theorem streams_kept capacity config specs s :
  reachable capacity config specs s →
  (∀ k r x p, running s !! k = Some r → specs !! k = Some (External x) → child r = Some p →
     (∀ err, concat (seen_of (stream_of err r)) = got (pipe_of err r)) ∧
     (stdout_file x = None → is_last specs k = false →
        got (edge r) `prefix_of` concat (seen_of (r_stdout r)) ∧
        (buffered (edge r) = [] → live (r_stdout r) = false → edge_read s k = true →
           got (edge r) = concat (seen_of (r_stdout r)) ∧ got (edge r) = sent (out_pipe r) ∧
           written_to specs k false r = false))) ∧
  (∀ k r text argv, running s !! k = Some r → specs !! k = Some (Echo text argv) → is_last specs k = false →
     sent (edge r) = text) ∧
  (∀ results, main s = Returned results → length results = length specs ∧
     ∀ k x status user sys out err, specs !! k = Some (External x) →
       results !! k = Some (Exited status user sys out err) →
       ∃ r p w, running s !! k = Some r ∧ child r = Some p ∧ exited p = Some w ∧ status = exit_status (w_status w) ∧
         r_stdout r = Ready out ∧ r_stderr r = Ready err).
Proof.
  intros Hr. apply engine_reachable_ok in Hr as Hok. split_and!.
  - intros k r x p Hk Hx Hp. destruct (stage_flows _ _ _ _ _ _ Hok Hk Hp) as (H1 & H2 & _). split; [done|].
    intros Hf Hl. specialize (H2 (piped _ _ _ _ Hx Hf Hl)). split; [by eapply edge_received|].
    intros Hb Hlive He. rewrite He in H2. by apply edge_complete.
  - intros k r text argv Hk Hs Hl. pose proof (ok_stages _ _ _ Hok _ _ Hk) as Hst. unfold stage_ok in Hst.
    destruct (child r); [by destruct Hst as (x & ? & _); simplify_eq|]. destruct Hst as [_ Hst]. rewrite Hs in Hst. by apply Hst.
  - intros results Hm. split; [by apply (ok_returned _ _ _ Hok)|]. intros k x status user sys out err Hx Hres.
    pose proof (ok_main _ _ _ Hok) as Hmain. rewrite Hm in Hmain. destruct Hmain as [_ Hall].
    destruct (Hall _ _ Hres) as (r & Hk & Hf). destruct (finished_exited _ _ _ _ _ _ _ _ _ Hx Hf) as (p & w & ? & ? & ? & ? & ?).
    by exists r, p, w.
Qed.

(** C21. The main thread can always go on to start all stages, by itself, if the text
    of every [echo] in front of another stage fits a pipe.  If the text of one does
    not, the pipeline never comes to the next stage, never waits for its stages and
    never returns a result: it can only fail before that [echo] is written, at an
    earlier stage or at its pipe; and once the writing has begun, then whatever the
    threads and processes do the main thread is at it forever, with a part of
    the text unwritten, since nobody is there yet to read it. *)
Theorem echo_must_fit capacity config specs s :
  reachable capacity config specs s →
  (echo_fits capacity specs → spawning s → started capacity specs s) ∧
  (∀ k text argv, specs !! k = Some (Echo text argv) → S k < length specs → capacity < length text →
     length (running s) ≤ k ∧ (∀ results, main s ≠ Waiting results ∧ main s ≠ Returned results) ∧
     (length (running s) = k → (∃ e rest, main s = Echoing e rest) →
        ∀ s', rtc (step capacity config specs) s s' → echoing k s')).
Proof.
  intros Hr. pose proof (engine_reachable_ok _ _ _ _ Hr) as Hok.
  split; [intros Hfit Hsp; by eapply spawning_started|].
  intros k text argv Hk Hlt Hcap. destruct (stuck_forever _ _ _ _ _ _ _ Hk Hlt Hcap Hr) as [Hst Hres].
  split; [apply Hst|]. split; [done|]. intros Hlen Hm s' Hs. by eapply echoing_forever.
Qed.

(** ** A pipeline in a pipe of four bytes *)

Definition quiet_engine : EngineConfig := mkEngine 64 false false.
Definition cat : StageSpec :=
  External (mkExternal [chars_of "cat"] ∅ (chars_of "/") Null None None false false).
Definition echo_cat (t : string) : list StageSpec := [Echo (bytes_of (chars_of t)) [chars_of "echo"]; cat].

(** The echo has written, and [cat] is started. *)
Lemma echo_cat_started :
  reachable 4 quiet_engine (echo_cat "hi") (mkState [ready_stage (put (bytes_of (chars_of "hi")) new_pipe) [bytes_of (chars_of "hi")]; spawned_stage] Starting).
Proof.
  eapply rtc_l; [left; eapply (m_echo _ _ start); reflexivity|].
  eapply rtc_l; [left; eapply (m_echo_write _ _ _ _ (bytes_of (chars_of "hi")) []); [reflexivity|done|simpl; lia]|].
  eapply rtc_l; [left; eapply m_echo_done; reflexivity|].
  eapply rtc_l; [left; eapply m_spawn; reflexivity|]. apply rtc_refl.
Qed.

Lemma streams_kept_witness :
  ∃ s r, reachable 4 quiet_engine (echo_cat "hi") s ∧ running s !! 0 = Some r ∧ sent (edge r) = bytes_of (chars_of "hi").
Proof.
  eexists _, _. split; [exact echo_cat_started|]. split; [reflexivity|].
  exact (proj1 (proj2 (streams_kept 4 quiet_engine (echo_cat "hi") _ echo_cat_started)) 0 _ _ _ eq_refl eq_refl eq_refl).
Defined.

Lemma echo_must_fit_witness :
  (∃ s', rtc (main_step 4 (echo_cat "hi")) start s' ∧ main s' = Waiting []) ∧
  (∀ s results, reachable 4 quiet_engine (echo_cat "hello") s → main s ≠ Returned results) ∧
  ∀ s, rtc (step 4 quiet_engine (echo_cat "hello"))
    (set_main (Echoing new_pipe (bytes_of (chars_of "hello"))) start) s → echoing 0 s.
Proof.
  split_and!.
  - apply (proj1 (echo_must_fit 4 quiet_engine (echo_cat "hi") start (rtc_refl _ _))); [|left; reflexivity].
    intros [|[|k]] t a Hk Hlt; [injection Hk as <- _; vm_compute; lia|discriminate Hk|discriminate Hk].
  - intros s results Hr.
    exact (proj2 (proj1 (proj2 (proj2 (echo_must_fit 4 quiet_engine (echo_cat "hello") s Hr) 0 _ _ eq_refl ltac:(simpl; lia) ltac:(vm_compute; lia))) results)).
  - intros s Hs.
    assert (reachable 4 quiet_engine (echo_cat "hello") (set_main (Echoing new_pipe (bytes_of (chars_of "hello"))) start)) as Hr.
    { apply rtc_once. left. eapply m_echo; reflexivity. }
    exact (proj2 (proj2 (proj2 (echo_must_fit 4 quiet_engine (echo_cat "hello") _ Hr) 0 _ _ eq_refl ltac:(simpl; lia) ltac:(vm_compute; lia)))
      eq_refl (ex_intro _ _ (ex_intro _ _ eq_refl)) s Hs).
Defined.
